(* ===== verification/_CoqProject ===== *)
-Q . S2P
Prelude.v
Dataflow.v
RustStr.v
Json.v
Types.v
Concurrency.v
Platform.v
Effects.v
Transition.v
Verifier.v
Bindings.v
Canonical.v
Decode.v
CodecFacts.v
KernelBase.v
KernelScope.v
KernelTick.v
KernelCommands.v
KernelApply.v
Replay.v
ScopeFacts.v
Identity.v
CancelWalk.v
KInvariants.v
Fixtures.v
VerifierFacts.v
KTrigger.v
KTick.v
TypedTick.v
RingFacts.v
ScopeTheorems.v
ReplayFacts.v
CommandTheorems.v
MessageTheorems.v
PolicyTheorems.v
VerifierTheorems.v
CodecTheorems.v
MemStore.v
StoreClaim.v
StoreCommit.v
StoreAggregate.v
StoreTheorems.v
Engine.v
EngineTheorems.v
StoreInvariants.v
StoreExamples.v
DmnTypes.v
DmnReference.v
DmnVm.v
DmnEmit.v
DmnVerify.v
DmnSteps.v
DmnCodegen.v
DmnLayout.v
DmnRefine.v
DmnTheorems.v
DmnLower.v
DmnLexer.v
DmnParser.v
DmnTyping.v
DmnParserFacts.v
DmnReads.v
DmnLexerFacts.v
DmnRoundTrip.v
DmnCompile.v
DmnIntervals.v
DmnIntervalFacts.v
DmnRegion.v
DmnAnalysis.v
DmnRegionSound.v
DmnAnalysisFacts.v
DmnAnalysisTheorems.v
BpmnIr.v
BpmnVerify.v
BpmnLower.v
BpmnDominators.v
BpmnLayout.v
BpmnTheorems.v
DesignerDag.v
DesignerTheorems.v
