(* ===== verification/Prelude.v ===== *)
(** * bpmn-lite: verification of the kernel, the compiler, the store, the designer and the decision engine

    bpmn-lite is a workflow engine.  A compiled process is a verified artifact
    (bytecode, side tables, limits); an instance is a set of fibres that run
    that bytecode, a table of concurrency records (guards, barriers, races), a
    payload with flags, and its incidents.  Everything that changes an instance
    goes through one pure function, [apply] of [bpmn-lite-kernel/src/lib.rs]:
    workflow, snapshot, command and deterministic context to a transition, i.e.
    a set of mutations.  The engine claims an instance, calls [apply], and the
    store commits the transition and journals the command with the hash of the
    resulting state; [replay] re-runs a journal from a checkpoint and compares
    the hashes.  The types of all this are in [bpmn-lite-types/src].

    An artifact is admitted by [verify_program] ([artifact.rs],
    [v2_verifier.rs]), which walks the program's control-flow graph and computes
    an operand height and an abstract control stack per address.  Artifacts come
    from the workflow compiler ([bpmn-lite-compiler/src]): a flow graph ([ir.rs])
    passes a structural verifier ([verifier.rs]), is laid out by post-dominance
    and lowered to bytecode ([lowering.rs]), and the result goes through the
    artifact verifier ([lib.rs]).  Flow graphs are authored in the designer's
    graph ([designer-graph/src]): deterministic operations stage an edited copy,
    a legality oracle says which of them to offer at a node, and admission
    projects the graph and compiles it.

    Beside it stands dmn-lite, a decision-table engine the workflows call.  A
    source is lexed and parsed ([dmn-lite-parser/src]), lowered to a typed IR
    ([dmn-lite-compiler/src/lower.rs]),
    emitted as stack bytecode ([emit.rs], [hash.rs]), checked by a bytecode
    verifier ([dmn-lite-types/src/verify.rs]) and run by a stack VM
    ([dmn-lite-engine/src/vm.rs]); a reference evaluator over the typed IR
    ([reference.rs]) is the oracle the VM is compared with.  A static analyser
    ([dmn-lite-analysis/src]) reports overlapping, unreachable and missing rules
    of a table.

    This library models the kernel completely (every instruction of the tick
    loop, every command handler, the runtime integrity checks, materialisation
    and replay), the artifact verifier, the part of the types crate they use
    with its canonical codec, the in-memory store with its commit, its claims
    and its queues ([bpmn-lite-store/src]), the engine's paths that change an
    instance ([bpmn-lite-engine/src/engine.rs]), the workflow compiler from the
    flow graph to the executable workflow, the designer's graph with its
    operations, and the decision engine from the source text to the verdict, with
    its table analyser.

    ** Files

    - Prelude (this file): the [Result] monad, fixed-width integers, vectors,
      ordered maps ([BTreeMap] as [gmap] with ascending iteration), the tactics
      and hint database, generic lemmas.
    - Dataflow: the worklist loop the verifier is built from, with its
      soundness, completeness and the number of iterations it needs.
    - RustStr, Json: string formatting and parsing, JSON values and dotted
      paths, as the sources use them.
    - Types, Concurrency, Effects, Transition: the data of
      [types.rs], [session_stack.rs], [ffi_bindings.rs], [concurrency.rs],
      [transition.rs], [events.rs], [persistence.rs], [artifact.rs] with their
      operations (array limits, record shape validation, retry policy, failure
      budget, the transition builder, snapshots and envelopes).
    - Platform: the class of operations that belong to other crates (BLAKE3,
      serde_json parsing and printing, UUID display, the session stack's JSON)
      and the identifier derivations of [EffectId] on top of them.  Nothing is
      assumed of these operations except, in one theorem, that printing and
      parsing a session stack round-trips ([session_roundtrip]).
    - Verifier, VerifierFacts: [verify_program] with its three analyses, and
      what they decide.
    - Bindings: placeholders, FFI inputs and outputs, correlation keys.
    - Canonical, Decode: the canonical byte encoding, its reader and decoders,
      and the state hash ([canonical.rs], [persistence.rs]).  CodecFacts has the
      class [RoundTrips] of codecs that decode what they encode, with an
      instance per stored type; CodecTheorems shows the hashed byte strings
      prefix-free and has the two properties.
    - KernelBase, KernelScope, KernelTick, KernelCommands, KernelApply, Replay:
      [bpmn-lite-kernel/src/lib.rs], one definition per function, instruction
      arm or named block, composed as the source composes them.  The mutable
      [Changes] accumulator and the locals of the tick loop are records passed
      along; [Result] carries the source's errors.
    - ScopeFacts, CancelWalk, KInvariants, KTrigger, KTick, RingFacts: lemmas about records read mid-transition, the cancellation
      walk, the invariants K-1..K-3 and their preservation.
    - Identity: what no transition changes, the join counters included.  TypedTick: the verifier's
      annotation as a typing of fibres, kept by the interpreter.
    - Fixtures: a concrete platform, instance and workflow for the witnesses.
    - ScopeTheorems, CommandTheorems, MessageTheorems, PolicyTheorems,
      VerifierTheorems, ReplayFacts (and one theorem of RingFacts): the
      properties of the kernel and its verifier.
    - MemStore, StoreClaim, StoreCommit: [store_memory.rs] with
      [pending.rs] and [error.rs].  The store is a record of tables; an operation
      takes it and returns it; [commit_transition] runs in a monad whose failures
      keep what has been written, as the code does.  Clocks and drawn identifiers
      are arguments.
    - StoreAggregate: which tables an operation writes, the rows of one instance ([view]) and the aggregates in which rows, envelope and journal
      head agree ([coherent]).  StoreTheorems: commits, claims and fences.
    - Engine: [engine.rs] over the store, one call at a time; the artifact
      repository, the FFI dispatcher and the UUID parser are fields of the engine.
      EngineTheorems: runs and starts.
    - StoreInvariants: reachable stores, the invariants of journals and of the
      activation queue, quarantine and recovery.  StoreExamples: a run evaluated,
      with the witnesses.
    - DmnTypes, DmnReference, DmnVm, DmnEmit, DmnVerify, DmnLower,
      DmnLexer, DmnParser: the decision engine, one file per source file (DmnTypes
      collects the data of [dmn-lite-types/src]; DmnLower has the number parsing
      of Rust's standard library too).  A panic is [None], or an outcome of its own in the VM's loop
      and in the lowering monad.
    - DmnSteps, DmnCodegen, DmnLayout: the VM without its traces, interning, the
      code of a predicate, of a rule, and the layout the emitter's patching
      produces.  DmnRefine: the emitted program against the reference evaluator
      and against the verifier.  DmnTyping, DmnCompile: typed decisions, a program logic for the
      lowering, and compilation end to end, from the text to the verdict.  DmnParserFacts, DmnLexerFacts: the
      parser returns, by a logic in which every loop consumes input.
      DmnReads, DmnRoundTrip: a printer for the grammar and its round trip.
      DmnTheorems: witnesses and limits.
    - DmnIntervals, DmnRegion, DmnAnalysis: the table analyser
      ([dmn-lite-analysis/src]: interval sets, the region of a rule, the
      analyses and the report); [checks] says whether the build checks integer
      overflow.  DmnIntervalFacts, DmnRegionSound: interval sets
      as sets of integers, regions as the values they may and surely admit, the
      region of every predicate against the evaluator.  DmnAnalysisFacts,
      DmnAnalysisTheorems: what the findings mean.
    - BpmnIr, BpmnVerify, BpmnLower: the workflow compiler, one file per source
      file.  petgraph, which keeps the flow graph, is the class [PetGraph] of the
      iterators and algorithms the compiler calls, with the laws it relies on in
      [PetGraphLaws] and a lawful instance [pg_ref]; the order in which petgraph
      lists edges is left open.  The emission loop runs in a state and error
      monad in which a panic is an error of its own.  BpmnDominators: paths,
      post-dominance and the correctness of [compute_post_dominators].
      BpmnLayout: the layout, a program logic for the emission, the code of each
      node and of the whole program.  BpmnTheorems: the properties, the run of
      an exclusive gateway in the kernel among them.
    - DesignerDag: the designer's graph, its operations and productions, the
      board of candidates and their legality ([schema.rs], [ops.rs],
      [productions.rs], [board_candidate.rs], [positional.rs]); petgraph's
      mutable graph is the class [PetDesigner] with [PetDesignerLaws] and a lawful
      instance [pd_ref].  DesignerTheorems: the graph on keys that the tables
      represent, the effect of every operation on it, and the properties.

    ** What the theorems show

    - Structured concurrency: the cancellation walk is exhaustive, deepest
      first and terminates; firing a guard and running a fibre preserve K-1
      (members of armed records are live fibres), K-2 (a fibre holds a handle
      exactly when the armed record lists it) and K-3 (barrier counts); the
      runtime check decides exactly these invariants; reads in the middle of a
      transition agree with the final fold; membership reconciliation is exact.
    - Every transition [apply] accepts commits a sound frame; every state
      [replay] returns is sound; a journal may be checkpointed anywhere; a
      live run's journal replays to its final state; no command changes the
      identity of an instance.
    - The verifier: [verify_program] ends, accepts exactly the programs that
      have the annotation it looks for, and on the words that annotation covers
      the interpreter cannot underflow a stack or leave the program.
    - Commands: stopping always succeeds and is absorbing; incidents and
      rollbacks round-trip; completions advance at most once; messages and
      timers resume exactly their target.
    - Store and engine: a commit refines the kernel's materialisation and touches
      one aggregate; a revision is committed once; journals are chains in every
      reachable store; whatever commands the engine applies, the journal replays
      to the stored envelope; a claim hands out the stored state, exclusively; a
      start takes effect once; an instance has at most one claimed activation.
    - Codec: every stored value round-trips through its canonical bytes, and
      the state hash commits to everything it is documented to cover.
    - Decisions: the VM on emitted bytecode refines the reference evaluator;
      emitted bytecode passes the verifier; the parser returns on every source
      and reads the text of every decision back; what parses and lowers without
      an error is well typed, compiles, and gives outputs of the declared types.
    - Table analysis: the analyser returns; it reports an overlap whenever two
      rules match a complete input; a rule it reports unreachable never wins
      and its gap examples match no rule, on the tables stated.
    - Workflow compiler: what the structural verifier admits; the
      post-dominators are exact; compilation always returns and never panics;
      every node is laid out once and its code keeps to its slot; every address
      in the code follows the sequence flow; joins are paired with their forks;
      a compiled exclusive gateway, run by the kernel, takes the first flow
      whose condition holds.
    - Designer: every authored graph projects to a well-formed acyclic flow graph
      with unique ids; every accepted operation refines its edit of the graph on
      keys; every candidate on the board stages; admission always returns.
    - Policies and bounds: error-route priority, timer and failure budgets,
      retry times, array limits, payload paths, identifier preimages.
    - Defects of the store: a rejected commit leaves its writes behind, a released
      lease forgets its fence, and recovery's quarantine is not stored.
    - Defects: a fired GUARD-N leaves a guard that neither of its holders can
      close; a tick that consumed a buffered message does not replay; a rolled
      back body re-issues a completed job; and four gaps between the verifier
      and the interpreter (error-arm handlers, operands of forked children and
      native results, CANCEL-SCOPE and counter branches at the end of the
      stream).  In the decision engine: bytecode the verifier accepts although
      it loops, panics or underflows; an artifact hash that does not cover set
      members; the VM's missing input validation; gaps and unreachable rules
      the table analyser reports wrongly, and an overlap on nulls it misses.  In
      the workflow compiler: a task without outgoing flow runs on into the next
      node of the layout; numeric conditions are not evaluated; a timer beside
      an error boundary and a join shared by two inclusive splits pass the
      structural verifier and are refused later.  In the designer: an operation
      anchored at its own new node is staged with a cycle.

    ** Bounds and fuel

    Machine integers are [N] or [Z] with saturation, checked addition and
    conversion written out at the source's widths.  The tick loop recurses on
    the artifact's own step limit.  The recursion of [v2_cancel_guard_scope] has
    no bound in the source; the model gives it one level more than there are
    handles on all control stacks, which [CancelWalk] proves sufficient for
    coherent stacks, and maps exhaustion to [ProcessAbort] (the stack overflow).
    The replay loop recurses on the journal; the engine's tick loop on its own
    bound of 10,000 turns.  The verifier's worklists get one
    iteration more than the program has instructions; [VerifierFacts] shows that
    no address is visited twice, so that the bound is never reached.  The
    decision VM has no bound in the source; on emitted code one step per
    instruction is enough ([DmnRefine]), and [DmnTheorems] has accepted code for
    which no bound is.  The worklist of the bytecode verifier gets two steps per
    instruction and two more, which [DmnRefine] proves sufficient.  The lexer
    gets one step per byte and the parser one per token; [DmnLexerFacts] and
    [DmnParserFacts] show that neither bound is reached.  The recursions of the
    workflow compiler over the flow graph (nesting walk, post-dominators, region
    layout) have no bound in the source; they get one level or step per node or
    edge, and [verify_returns], [compute_post_dominators_spec] and
    [structured_order_spec] show them enough.  The theorems on lowered code hold
    for graphs whose sizes keep [u32] arithmetic exact ([program_fits]).

    ** Not modelled

    The PostgreSQL store, the artifact, template and design-session tables of the
    in-memory store, the engine's schedulers, its artifact cache and its recovery
    scan, the BPMN XML reader and the DSL front end of the workflow compiler, the
    servers, the catalogue loader of dmn-lite, and the bus and utterance crates: readers of external formats, transport and storage, and
    front ends that share only the artifact verifier with what is modelled.
    Debug assertions of the lowering are off.  That a lowered program always
    passes the artifact verifier is not shown, and does not hold.  Engine calls do not interleave in
    the model except between the steps of a reachable store.  Child starts, which
    the kernel does not produce, are modelled in the commit and excluded from the
    reachable stores.  The rule traces of the two decision evaluators are modelled
    but not compared.  [TypedTick]
    covers ticks; that the other commands keep the typing is not shown, and the
    freshness of identifiers stays a side condition of the theorems that need
    it. *)

From stdpp Require Export base tactics list gmap sets strings sorting numbers pretty.
From Stdlib Require Export ZArith NArith Lia.
From Stdlib Require Export Strings.Byte.

(** Scopes stay explicit in this development: [N] literals are written with
    [%N], integers with [%Z]; lists use stdpp's notations. *)
Declare Scope bpmn_scope.
Delimit Scope bpmn_scope with bpmn.

(** ** Fallible code: [Result<T, E>] *)

(** Rust's [Result]: a value or an error, the error type first so that
    [Result E] is a functor in the value. *)
Inductive Result (E A : Type) : Type :=
| Ok (a : A)
| Err (e : E).

Arguments Ok {E A} a.
Arguments Err {E A} e.

Global Instance Result_ret {E} : MRet (Result E) := λ A a, Ok a.
Global Instance Result_bind {E} : MBind (Result E) := λ A B f r,
  match r with Ok a => f a | Err e => Err e end.
Global Instance Result_fmap {E} : FMap (Result E) := λ A B f r,
  match r with Ok a => Ok (f a) | Err e => Err e end.

(** [Option::ok_or]. *)
Definition ok_or {E A} (e : E) (o : option A) : Result E A :=
  match o with Some a => Ok a | None => Err e end.

(** [Result::map_err]. *)
Definition map_err {E E' A} (f : E -> E') (r : Result E A) : Result E' A :=
  match r with Ok a => Ok a | Err e => Err (f e) end.

(** [Result::ok]. *)
Definition result_ok {E A} (r : Result E A) : option A :=
  match r with Ok a => Some a | Err _ => None end.

Definition is_ok {E A} (r : Result E A) : bool :=
  match r with Ok _ => true | Err _ => false end.

(** A guard: [if !b { return Err(e) }]. *)
Definition ensure {E} (b : bool) (e : E) : Result E unit :=
  if b then Ok tt else Err e.

(** The first error of a list of checks, in order: the shape of a [for] loop
    whose body may [return Err(..)]. *)
Fixpoint try_for_each {E A} (f : A -> Result E unit) (l : list A) : Result E unit :=
  match l with
  | [] => Ok tt
  | x :: l' => match f x with Ok _ => try_for_each f l' | Err e => Err e end
  end.

(** [Iterator::try_fold] over a slice. *)
Fixpoint try_fold {E A B} (f : B -> A -> Result E B) (b : B) (l : list A) : Result E B :=
  match l with
  | [] => Ok b
  | x :: l' => match f b x with Ok b' => try_fold f b' l' | Err e => Err e end
  end.

(** ** Machine integers *)

Definition u16_max : N := 65535.
Definition u32_max : N := 4294967295.
Definition u64_max : N := 18446744073709551615.
Definition i64_min : Z := -9223372036854775808.
Definition i64_max : Z := 9223372036854775807.

(** [saturating_add]/[saturating_sub]/[saturating_mul] at a width given by its
    greatest value. *)
Definition sat_add (max a b : N) : N := N.min max (a + b).
Definition sat_sub (a b : N) : N := (a - b)%N.
Definition sat_mul (max a b : N) : N := N.min max (a * b).

(** [u64::checked_add]. *)
Definition checked_add_u64 (a b : N) : option N :=
  if (a + b <=? u64_max)%N then Some (a + b)%N else None.

(** [i64::try_from(u64)] and [u64::try_from(i64)]. *)
Definition i64_try_from (n : N) : option Z :=
  if (Z.of_N n <=? i64_max)%Z then Some (Z.of_N n) else None.
Definition u64_try_from (z : Z) : option N :=
  if (0 <=? z)%Z then Some (Z.to_N z) else None.

(** [x as i64] for a [u64] (two's complement reinterpretation). *)
Definition u64_as_i64 (n : N) : Z :=
  if (Z.of_N n <=? i64_max)%Z then Z.of_N n else (Z.of_N n - 2 ^ 64)%Z.

(** [d.max(0) as u64] for an [i64]. *)
Definition i64_clamp_u64 (z : Z) : N := Z.to_N (Z.max z 0).

(** Fixed-width integers in range. *)
Definition is_u32 (n : N) : Prop := (n <= u32_max)%N.
Definition is_u64 (n : N) : Prop := (n <= u64_max)%N.
Definition is_i64 (z : Z) : Prop := (i64_min <= z <= i64_max)%Z.

(** ** Bytes *)

Global Instance byte_eq_dec : EqDecision Byte.byte := Byte.byte_eq_dec.

(** The low byte of a number. *)
Definition byte_of (n : N) : Byte.byte :=
  match Byte.of_N (n mod 256) with Some b => b | None => Byte.x00 end.

(** [to_be_bytes]/[to_le_bytes] at [w] bytes. *)
Fixpoint le_bytes (w : nat) (n : N) : list Byte.byte :=
  match w with
  | O => []
  | S w' => byte_of n :: le_bytes w' (n / 256)
  end.
Definition be_bytes (w : nat) (n : N) : list Byte.byte := reverse (le_bytes w n).

(** The number a big-endian byte string spells, e.g. [Uuid::from_bytes]. *)
Definition be_number (l : list Byte.byte) : N :=
  foldl (λ acc b, acc * 256 + Byte.to_N b)%N 0%N l.

(** The number a little-endian byte string spells ([u64::from_le_bytes]). *)
Definition le_number (l : list Byte.byte) : N :=
  foldr (λ b acc, Byte.to_N b + 256 * acc)%N 0%N l.

(** [str::as_bytes] and the bytes of a byte-string literal. *)
Definition as_bytes (s : string) : list Byte.byte := String.list_byte_of_string s.

(** ** Vectors *)

(** [Vec::pop]: the vector without its last element, and that element. *)
Fixpoint vec_pop {A} (l : list A) : option (list A * A) :=
  match l with
  | [] => None
  | [x] => Some ([], x)
  | x :: l' =>
      match vec_pop l' with
      | Some (l'', y) => Some (x :: l'', y)
      | None => None
      end
  end.

(** [Iterator::position]. *)
Fixpoint position {A} (p : A -> bool) (l : list A) : option nat :=
  match l with
  | [] => None
  | x :: l' => if p x then Some O else S <$> position p l'
  end.

(** [Iterator::find_map]. *)
Fixpoint find_map {A B} (f : A -> option B) (l : list A) : option B :=
  match l with
  | [] => None
  | x :: l' => match f x with Some b => Some b | None => find_map f l' end
  end.

(** [Vec::insert] at a valid index. *)
Definition vec_insert {A} (i : nat) (x : A) (l : list A) : list A :=
  take i l ++ x :: drop i l.

(** [Vec::len] as the unsigned integer it is compared with. *)
Definition len {A} (l : list A) : N := N.of_nat (length l).

(** ** Ordered maps and sets *)

(** [BTreeMap<K, V>] is [gmap K V] with iteration in ascending key order: the
    finite map carries the contents, [btree_entries] the order in which the
    code's [iter]/[values]/[keys] visit them. *)
Class OrdKey (K : Type) := {
  key_le : relation K;
  key_le_dec :: RelDecision key_le;
  key_le_po :: PartialOrder key_le;
  key_le_total :: Total key_le;
}.

Global Instance OrdKey_N : OrdKey N := {| key_le := N.le |}.
Global Instance OrdKey_string : OrdKey string := {| key_le := String.le |}.

Definition entry_le `{OrdKey K} {V} : relation (K * V) := λ x y, key_le x.1 y.1.

Global Instance entry_le_dec `{OrdKey K} {V} : RelDecision (entry_le (K := K) (V := V)).
Proof. intros x y. unfold entry_le. apply _. Defined.

Definition btree_entries `{Countable K, !OrdKey K} {V} (m : gmap K V) : list (K * V) :=
  merge_sort entry_le (map_to_list m).
Definition btree_values `{Countable K, !OrdKey K} {V} (m : gmap K V) : list V :=
  (btree_entries m).*2.
Definition btree_keys `{Countable K, !OrdKey K} {V} (m : gmap K V) : list K :=
  (btree_entries m).*1.
(** Iteration over a [BTreeSet]. *)
Definition btree_elems `{Countable K, !OrdKey K} (s : gset K) : list K :=
  merge_sort key_le (elements s).

(** [iter().collect()] into a map keyed by a field. *)
Definition collect_by `{Countable K} {V} (key : V -> K) (l : list V) : gmap K V :=
  foldl (λ m v, <[key v := v]> m) ∅ l.

(** ** Proof automation *)

Create HintDb bpmn.

(** Splits a [Result] computation that is known to return [Ok]/[Err]. *)
Ltac result_inv :=
  repeat match goal with
  | H : Ok _ = Ok _ |- _ => injection H; clear H; intros; subst
  | H : Err _ = Err _ |- _ => injection H; clear H; intros; subst
  | H : Ok _ = Err _ |- _ => discriminate H
  | H : Err _ = Ok _ |- _ => discriminate H
  | H : mbind ?f ?r = Ok _ |- _ =>
      let E := fresh "E" in
      unfold mbind, Result_bind in H; destruct r eqn:E; [|discriminate H]
  | H : match ?r with Ok _ => _ | Err e => Err e end = Ok _ |- _ =>
      let E := fresh "E" in destruct r eqn:E; [|discriminate H]
  | H : ok_or ?e ?o = Ok _ |- _ =>
      let E := fresh "E" in destruct o eqn:E; cbn [ok_or] in H; [|discriminate H]
  end.

(** Case analysis on the match the goal or hypothesis is stuck on. *)
Ltac case_match_in H :=
  match type of H with
  | context [match ?x with _ => _ end] => let E := fresh "E" in destruct x eqn:E
  end.

(** ** Generic lemmas: results *)

Section result_lemmas.
Context {E A B : Type}.
Implicit Types (r : Result E A).

Lemma bind_ok_inv r (f : A -> Result E B) b :
  (r ≫= f) = Ok b -> ∃ a, r = Ok a ∧ f a = Ok b.
Proof. destruct r; cbn; intros; [eauto | discriminate]. Qed.

Lemma ok_or_ok (e : E) (o : option A) a : ok_or e o = Ok a ↔ o = Some a.
Proof. destruct o; cbn; split; congruence. Qed.

Lemma ok_or_err (e e' : E) (o : option A) : ok_or e o = Err e' ↔ o = None ∧ e = e'.
Proof. destruct o; cbn; split; [congruence | intros []; congruence | |]; naive_solver. Qed.

Lemma ensure_ok (b : bool) (e : E) u : ensure b e = Ok u ↔ b = true.
Proof. destruct b, u; cbn; split; congruence. Qed.

Lemma map_err_ok {E'} (f : E -> E') r a : map_err f r = Ok a ↔ r = Ok a.
Proof. destruct r; cbn; split; congruence. Qed.

(** A loop of checks succeeds exactly when every check does. *)
Lemma try_for_each_ok (f : A -> Result E unit) l u :
  try_for_each f l = Ok u ↔ ∀ x, x ∈ l -> f x = Ok tt.
Proof.
  induction l as [|x l IH]; cbn.
  - destruct u; split; [set_solver | done].
  - destruct (f x) as [[]|e] eqn:Hx.
    + rewrite IH. split; intros H y; [|by intros; apply H; right].
      intros [->|]%elem_of_cons; auto.
    + split; [done|]. intros H. specialize (H x). rewrite Hx in H.
      discriminate H. by left.
Qed.

Lemma try_fold_app (f : B -> A -> Result E B) b l1 l2 :
  try_fold f b (l1 ++ l2) = try_fold f b l1 ≫= λ b', try_fold f b' l2.
Proof.
  revert b; induction l1 as [|x l1 IH]; intros b; cbn; [done|].
  destruct (f b x); [apply IH | done].
Qed.
End result_lemmas.

(** ** Generic lemmas: vectors *)

Section vec_lemmas.
Context {A : Type}.
Implicit Types (l : list A).

Lemma vec_pop_snoc l x : vec_pop (l ++ [x]) = Some (l, x).
Proof.
  induction l as [|y l IH]; [done|].
  cbn. rewrite IH. destruct l; cbn; done.
Qed.

Lemma vec_pop_Some l l' x : vec_pop l = Some (l', x) ↔ l = l' ++ [x].
Proof.
  split; [|intros ->; apply vec_pop_snoc].
  revert l' x; induction l as [|y l IH]; intros l' x; [done|].
  destruct l as [|z l]; [intros [= <- <-]; done|].
  change (vec_pop (y :: z :: l)) with
    (match vec_pop (z :: l) with Some (l'', w) => Some (y :: l'', w) | None => None end).
  destruct (vec_pop (z :: l)) as [[l'' w]|]; [|done].
  intros [= <- <-]. cbn. by rewrite (IH l'' w).
Qed.

Lemma vec_pop_None l : vec_pop l = None ↔ l = [].
Proof.
  split; [|by intros ->].
  induction l as [|y l _] using rev_ind; [done|]. by rewrite vec_pop_snoc.
Qed.

Lemma position_Some (p : A -> bool) l i :
  position p l = Some i ->
  (∃ x, l !! i = Some x ∧ p x = true) ∧
  (∀ j y, j < i -> l !! j = Some y -> p y = false).
Proof.
  revert i; induction l as [|x l IH]; intros i; cbn; [done|].
  destruct (p x) eqn:Hp.
  - intros [= <-]. split; [eauto | lia].
  - destruct (position p l) as [k|]; cbn; [|done]. intros [= <-].
    destruct (IH k eq_refl) as [Hx Hlt]. split; [done|].
    intros [|j] y Hj; cbn; [naive_solver | intros; apply (Hlt j); [lia | done]].
Qed.

Lemma position_None (p : A -> bool) l :
  position p l = None ↔ ∀ x, x ∈ l -> p x = false.
Proof.
  induction l as [|x l IH]; cbn; [set_solver|].
  setoid_rewrite elem_of_cons. destruct (p x) eqn:Hp.
  - split; [done|]. intros H. rewrite (H x) in Hp by auto. done.
  - rewrite fmap_None, IH. naive_solver.
Qed.

Lemma find_map_Some {B} (f : A -> option B) l b :
  find_map f l = Some b ->
  ∃ l1 x l2, l = l1 ++ x :: l2 ∧ f x = Some b ∧ ∀ y, y ∈ l1 -> f y = None.
Proof.
  induction l as [|x l IH]; cbn; [done|].
  destruct (f x) eqn:Hf.
  - intros [= ->]. exists [], x, l. set_solver.
  - intros (l1 & y & l2 & -> & Hy & Hl)%IH.
    exists (x :: l1), y, l2. set_solver.
Qed.

Lemma find_map_None {B} (f : A -> option B) l :
  find_map f l = None ↔ ∀ x, x ∈ l -> f x = None.
Proof.
  induction l as [|x l IH]; cbn; [set_solver|].
  setoid_rewrite elem_of_cons. destruct (f x) eqn:Hf; [|rewrite IH; naive_solver].
  split; [done|]. intros H. rewrite (H x) in Hf by auto. done.
Qed.

Lemma elem_of_vec_insert i (x y : A) l : y ∈ vec_insert i x l ↔ y = x ∨ y ∈ l.
Proof.
  unfold vec_insert. rewrite elem_of_app, elem_of_cons.
  rewrite <-(take_drop i l) at 3. rewrite elem_of_app. tauto.
Qed.
End vec_lemmas.

(** ** Generic lemmas: ordered iteration *)

Section btree_lemmas.
Context `{Countable K, !OrdKey K} {V : Type}.
Implicit Types (m : gmap K V).

Global Instance entry_le_trans : Transitive (entry_le (K := K) (V := V)).
Proof. intros x y z; unfold entry_le. apply transitivity. Qed.

Global Instance entry_le_total : Total (entry_le (K := K) (V := V)).
Proof. intros x y; unfold entry_le. apply total, _. Qed.

Lemma btree_entries_perm m : btree_entries m ≡ₚ map_to_list m.
Proof. apply merge_sort_Permutation. Qed.

Lemma elem_of_btree_entries m k v : (k, v) ∈ btree_entries m ↔ m !! k = Some v.
Proof. rewrite btree_entries_perm. apply elem_of_map_to_list. Qed.

Lemma elem_of_btree_values m v : v ∈ btree_values m ↔ ∃ k, m !! k = Some v.
Proof.
  unfold btree_values. rewrite list_elem_of_fmap. split.
  - intros ([k w] & -> & Hk%elem_of_btree_entries). eauto.
  - intros [k Hk]. exists (k, v). split; [done | by apply elem_of_btree_entries].
Qed.

Lemma elem_of_btree_keys m k : k ∈ btree_keys m ↔ is_Some (m !! k).
Proof.
  unfold btree_keys. rewrite list_elem_of_fmap. split.
  - intros ([k' w] & -> & Hk%elem_of_btree_entries). eauto.
  - intros [v Hk]. exists (k, v). split; [done | by apply elem_of_btree_entries].
Qed.

Lemma NoDup_btree_entries m : NoDup (btree_entries m).
Proof. rewrite btree_entries_perm. apply NoDup_map_to_list. Qed.

Lemma NoDup_btree_keys m : NoDup (btree_keys m).
Proof. unfold btree_keys. rewrite btree_entries_perm. apply NoDup_fst_map_to_list. Qed.

Lemma btree_entries_empty : btree_entries (∅ : gmap K V) = [].
Proof. unfold btree_entries. by rewrite map_to_list_empty. Qed.

Lemma length_btree_entries m : length (btree_entries m) = size m.
Proof. by rewrite btree_entries_perm, length_map_to_list. Qed.

(** Iteration visits keys in ascending order. *)
Lemma btree_entries_sorted m : StronglySorted entry_le (btree_entries m).
Proof. apply StronglySorted_merge_sort; apply _. Qed.

(** In a map keyed by a field of its values, values are visited in ascending
    order of that field. *)
Lemma btree_values_sorted m (key : V -> K) l1 x l2 y :
  (∀ k v, m !! k = Some v -> key v = k) ->
  btree_values m = l1 ++ x :: l2 -> y ∈ l2 -> key_le (key x) (key y).
Proof.
  intros Hkey E Hy. unfold btree_values in E.
  apply fmap_app_inv in E as (e1 & e2 & _ & E2 & E).
  symmetry in E2. apply fmap_cons_inv in E2 as ([kx vx] & e2' & -> & -> & ->).
  pose proof (btree_entries_sorted m) as Hs. rewrite E in Hs.
  apply StronglySorted_app_1_r in Hs.
  apply StronglySorted_inv in Hs as [_ Hf]. rewrite Forall_forall in Hf.
  apply list_elem_of_fmap in Hy as ([ky vy] & -> & Hin). specialize (Hf _ Hin).
  assert (Hx : (kx, vx) ∈ btree_entries m) by (rewrite E; set_solver).
  assert (Hy : (ky, vy) ∈ btree_entries m) by (rewrite E; set_solver).
  apply elem_of_btree_entries in Hx, Hy. cbn in *.
  by rewrite (Hkey _ _ Hx), (Hkey _ _ Hy).
Qed.

Lemma btree_elems_perm (s : gset K) : btree_elems s ≡ₚ elements s.
Proof. apply merge_sort_Permutation. Qed.

Lemma elem_of_btree_elems (s : gset K) k : k ∈ btree_elems s ↔ k ∈ s.
Proof. rewrite btree_elems_perm. apply elem_of_elements. Qed.

Lemma NoDup_btree_elems (s : gset K) : NoDup (btree_elems s).
Proof. rewrite btree_elems_perm. apply NoDup_elements. Qed.

(** A map whose keys are the field [key] of its values survives
    [into_values().map(|v| (v.key, v)).collect()]. *)
Lemma lookup_foldl_insert (key : V -> K) (l : list V) m k :
  (∀ v v', v ∈ l -> v' ∈ l -> key v = key v' -> v = v') ->
  foldl (λ m v, <[key v := v]> m) m l !! k =
  match List.find (λ v, bool_decide (key v = k)) l with
  | Some v => Some v
  | None => m !! k
  end.
Proof.
  revert m; induction l as [|v l IH]; intros m Hinj; cbn; [done|].
  rewrite IH by set_solver.
  case_bool_decide as Hk.
  - subst k. destruct (List.find _ l) as [v'|] eqn:Hf; [|apply lookup_insert_eq].
    apply List.find_some in Hf as [Hin Hk%bool_decide_eq_true].
    f_equal. symmetry. apply Hinj; [set_solver| |done].
    apply elem_of_cons; right. by apply list_elem_of_In.
  - destruct (List.find _ l); [done|]. by rewrite lookup_insert_ne.
Qed.

Lemma collect_by_values (key : V -> K) m :
  (∀ k v, m !! k = Some v -> key v = k) -> collect_by key (btree_values m) = m.
Proof.
  intros Hkey. apply map_eq; intros k. unfold collect_by.
  rewrite lookup_foldl_insert.
  - destruct (List.find _ _) as [v|] eqn:Hf.
    + apply List.find_some in Hf as [Hin Hk%bool_decide_eq_true].
      apply list_elem_of_In, elem_of_btree_values in Hin as [k' Hk'].
      rewrite <-Hk' at 1. by rewrite <-(Hkey _ _ Hk'), Hk.
    + rewrite lookup_empty. symmetry. destruct (m !! k) as [v|] eqn:Hm; [|done].
      exfalso. pose proof (List.find_none _ _ Hf v) as Hn.
      cbn in Hn. rewrite bool_decide_eq_false in Hn.
      apply Hn; [|by apply Hkey].
      apply list_elem_of_In, elem_of_btree_values. eauto.
  - intros v v' [k1 Hk1]%elem_of_btree_values [k2 Hk2]%elem_of_btree_values Heq.
    rewrite <-(Hkey _ _ Hk1) in Hk1. rewrite <-(Hkey _ _ Hk2), <-Heq in Hk2. congruence.
Qed.
End btree_lemmas.

#[export] Hint Resolve NoDup_btree_entries NoDup_btree_keys NoDup_btree_elems : bpmn.

(** ** Generic lemmas: integers *)

Lemma sat_add_le max a b : (sat_add max a b <= max)%N.
Proof. unfold sat_add. lia. Qed.

Lemma sat_add_exact max a b : (a + b <= max)%N -> sat_add max a b = (a + b)%N.
Proof. unfold sat_add. lia. Qed.

Lemma sat_add_mono max a b : (a <= max)%N -> (a <= sat_add max a b)%N.
Proof. unfold sat_add. lia. Qed.

Lemma i64_try_from_Some n z :
  i64_try_from n = Some z ↔ (Z.of_N n <= i64_max)%Z ∧ z = Z.of_N n.
Proof. unfold i64_try_from. destruct (Z.leb_spec (Z.of_N n) i64_max); naive_solver lia. Qed.

Lemma i64_try_from_u64_as_i64 n z : i64_try_from n = Some z -> u64_as_i64 n = z.
Proof.
  unfold i64_try_from, u64_as_i64. destruct (_ <=? _)%Z; congruence.
Qed.

Lemma checked_add_u64_Some a b c :
  checked_add_u64 a b = Some c ↔ (a + b <= u64_max)%N ∧ c = (a + b)%N.
Proof. unfold checked_add_u64. destruct (N.leb_spec (a + b) u64_max); naive_solver lia. Qed.

#[export] Hint Resolve sat_add_le : bpmn.
