(* ===== verification/Dataflow.v ===== *)
(** * Worklist propagation

    The loop shape the artifact verifier uses four times
    ([while let Some(address) = queue.pop_front()] over a table of entry
    states): visit an address, check it against its entry state, push its entry
    states to its successors, reject a disagreement, enqueue what is new.
    [worklist] is that loop with its local check, its accumulator and its error
    values as arguments; the lemmas give its soundness, its completeness and
    the fuel that is enough. *)

From S2P Require Import Prelude.

(** An edge to a successor: a check made before the state is pushed, the
    target, the target's entry state. *)
Record Edge (E A : Type) := mkEdge {
  edge_check : Result E unit;
  edge_target : N;
  edge_state : A;
}.
Arguments mkEdge {E A}.
Arguments edge_check {E A}.
Arguments edge_target {E A}.
Arguments edge_state {E A}.

Section worklist.
Context {E A Acc : Type} `{EqDecision A}.
(** The check of one address against its entry state, with the edges out. *)
Variable local : N -> A -> Result E (list (Edge E A)).
(** The running maxima and flags of the loop. *)
Variable upd : N -> A -> Acc -> Acc.
(** The error of a merge: the address that pushes, the target, the state found
    there and the state pushed. *)
Variable disagree : N -> N -> A -> A -> E.
(** An address on the queue without an entry state. *)
Variable missing : N -> E.
(** The bound on the number of iterations is exhausted. *)
Variable exhausted : E.

(** Push one edge: [entry_states.get(&address)] and its three cases. *)
Definition propagate (at_ : N) (acc : gmap N A * list N) (e : Edge E A)
  : Result E (gmap N A * list N) :=
  let '(m, new) := acc in
  _ ← edge_check e;
  match m !! edge_target e with
  | Some existing =>
      if decide (existing = edge_state e) then Ok (m, new)
      else Err (disagree at_ (edge_target e) existing (edge_state e))
  | None => Ok (<[edge_target e := edge_state e]> m, new ++ [edge_target e])
  end.

Fixpoint worklist (fuel : nat) (queue : list N) (m : gmap N A) (acc : Acc)
  : Result E (gmap N A * Acc) :=
  match queue with
  | [] => Ok (m, acc)
  | a :: rest =>
      match fuel with
      | O => Err exhausted
      | S fuel' =>
          x ← ok_or (missing a) (m !! a);
          edges ← local a x;
          '(m', new) ← try_fold (propagate a) (m, []) edges;
          worklist fuel' (rest ++ new) m' (upd a x acc)
      end
  end.

(** ** One address *)

(** The address is accepted under its entry state, and the table holds the
    state it pushes along every edge. *)
Definition settled (m : gmap N A) (a : N) (x : A) : Prop :=
  ∃ edges, local a x = Ok edges ∧
    ∀ e, e ∈ edges -> edge_check e = Ok tt ∧ m !! edge_target e = Some (edge_state e).

(** What pushing a list of edges does to the table and the queue. *)
Record pushed (a : N) (edges : list (Edge E A)) (m : gmap N A) (new : list N)
    (m' : gmap N A) (new' : list N) : Prop := {
  pushed_mono : m ⊆ m';
  pushed_edges e : e ∈ edges -> edge_check e = Ok tt ∧ m' !! edge_target e = Some (edge_state e);
  pushed_prefix : ∃ l, new' = new ++ l ∧ NoDup l ∧
    (∀ k, k ∈ l ↔ m !! k = None ∧ is_Some (m' !! k)) ∧
    (∀ k, k ∈ l -> ∃ e, e ∈ edges ∧ edge_target e = k);
}.

Lemma propagate_ok a m new e m' new' :
  propagate a (m, new) e = Ok (m', new') ->
  edge_check e = Ok tt ∧ m' !! edge_target e = Some (edge_state e) ∧ m ⊆ m' ∧
  (m' = m ∧ new' = new ∨
   m !! edge_target e = None ∧ m' = <[edge_target e := edge_state e]> m ∧
   new' = new ++ [edge_target e]).
Proof.
  unfold propagate. destruct (edge_check e) as [[]|]; [|done]. cbn.
  destruct (m !! edge_target e) as [x|] eqn:Hx.
  - destruct (decide (x = edge_state e)) as [->|]; [|done]. intros [= <- <-]. split_and!; [done..|by left].
  - intros [= <- <-]. rewrite lookup_insert_eq. split_and!; [done..| |by right].
    by apply insert_subseteq.
Qed.

Lemma try_fold_pushed a edges m new m' new' :
  try_fold (propagate a) (m, new) edges = Ok (m', new') -> pushed a edges m new m' new'.
Proof.
  revert m new. induction edges as [|e edges IH]; intros m new; cbn [try_fold].
  - intros [= <- <-]. split; [done|set_solver|]. exists []. rewrite app_nil_r.
    split_and!; [done|constructor| |by intros k ?%not_elem_of_nil].
    intros k. split; [by intros ?%not_elem_of_nil|].
    intros [E0 [? E1]]. congruence.
  - destruct (propagate a (m, new) e) as [[m1 new1]|] eqn:Hp; [|done]. intros H.
    apply propagate_ok in Hp as (Hc & Ht & Hsub & Hcase).
    destruct (IH m1 new1 H) as [Hmono Hedges (l & -> & Hnd & Hl & Hsrc)]. split.
    + by etrans.
    + intros e' [->|He]%elem_of_cons; [|by apply Hedges]. split; [done|].
      by eapply lookup_weaken.
    + destruct Hcase as [[-> ->]|(Hn & -> & ->)].
      * exists l. split_and!; [done|done|done|]. intros k Hk.
        destruct (Hsrc k Hk) as (e' & ? & ?). exists e'. split; [by right|done].
      * exists (edge_target e :: l). rewrite <-app_assoc. split_and!; [done| | |].
        -- constructor; [|done]. intros [Hn' _]%Hl. by rewrite lookup_insert_eq in Hn'.
        -- intros k. rewrite elem_of_cons, Hl.
           destruct (decide (k = edge_target e)) as [->|Hne].
           ++ split; [|by left]. intros _. split; [done|].
              exists (edge_state e). by eapply lookup_weaken.
           ++ rewrite lookup_insert_ne by done. naive_solver.
        -- intros k [->|Hk]%elem_of_cons; [exists e; by split; [left|]|].
           destruct (Hsrc k Hk) as (e' & ? & ?). exists e'. split; [by right|done].
Qed.

Lemma settled_mono m m' a x : m ⊆ m' -> settled m a x -> settled m' a x.
Proof.
  intros Hs (edges & Hl & He). exists edges. split; [done|]. intros e Hin.
  destruct (He e Hin) as [? ?]. split; [done|]. by eapply lookup_weaken.
Qed.

(** ** Soundness *)

(** Every address of the table is settled or still queued, and the accumulator
    of every settled address is below the current one. *)
Record wl_inv (R : Acc -> Acc -> Prop) (queue : list N) (m : gmap N A) (acc : Acc) : Prop := {
  wl_queued a : a ∈ queue -> is_Some (m !! a);
  wl_settled a x : m !! a = Some x -> a ∉ queue ->
    settled m a x ∧ ∃ acc0, R (upd a x acc0) acc;
}.

Lemma wl_inv_step R a rest m acc x edges m' new :
  PreOrder R -> (∀ b y acc, R acc (upd b y acc)) ->
  wl_inv R (a :: rest) m acc -> m !! a = Some x -> local a x = Ok edges ->
  pushed a edges m [] m' new -> wl_inv R (rest ++ new) m' (upd a x acc).
Proof.
  intros HR Hup [Hq Hs] Hx Hl [Hmono Hedges (l & -> & Hnd & Hnew & _)]. cbn in *. split.
  - intros b [Hb|[_ Hb]%Hnew]%elem_of_app; [|done].
    destruct (Hq b) as [y Hy]; [by right|]. exists y. by eapply lookup_weaken.
  - intros b y Hb Hnot. rewrite elem_of_app in Hnot.
    assert (Hmb : m !! b = Some y).
    { destruct (m !! b) as [y'|] eqn:Emb.
      - apply (lookup_weaken _ m') in Emb; [|done]. congruence.
      - exfalso. apply Hnot. right. apply Hnew. eauto. }
    destruct (decide (b = a)) as [->|Hne].
    + assert (y = x) as -> by congruence. split; [by exists edges|]. exists acc. reflexivity.
    + destruct (Hs b y Hmb) as [H1 (acc0 & H2)]; [set_solver|].
      split; [by eapply settled_mono|]. exists acc0. by etrans.
Qed.

Lemma worklist_sound R fuel queue m acc m' acc' :
  PreOrder R -> (∀ b y acc, R acc (upd b y acc)) ->
  wl_inv R queue m acc -> worklist fuel queue m acc = Ok (m', acc') ->
  m ⊆ m' ∧ R acc acc' ∧
  ∀ a x, m' !! a = Some x -> settled m' a x ∧ ∃ acc0, R (upd a x acc0) acc'.
Proof.
  intros HR Hup. revert queue m acc.
  induction fuel as [|fuel IH]; intros [|a rest] m acc Hinv; cbn [worklist]; try done.
  - intros [= <- <-]. split_and!; [done|reflexivity|]. intros a x Hx. apply Hinv; set_solver.
  - intros [= <- <-]. split_and!; [done|reflexivity|]. intros b x Hx. apply Hinv; set_solver.
  - intros H. apply bind_ok_inv in H as (x & Hx%ok_or_ok & H).
    apply bind_ok_inv in H as (edges & Hl & H).
    apply bind_ok_inv in H as ([m1 new] & Hp%try_fold_pushed & H).
    destruct (IH _ _ _ (wl_inv_step _ _ _ _ _ _ _ _ _ HR Hup Hinv Hx Hl Hp) H) as (Hm & Hr & Hall).
    split_and!; [|etrans; [apply Hup | exact Hr]|done]. etrans; [apply Hp | exact Hm].
Qed.

(** ** Reachability *)

(** [b] is the target of an edge out of [a] under some entry state. *)
Definition edge_rel (a b : N) : Prop :=
  ∃ x edges e, local a x = Ok edges ∧ e ∈ edges ∧ edge_target e = b.

Lemma worklist_reachable (P : N -> Prop) fuel queue m acc m' acc' :
  (∀ a b, P a -> edge_rel a b -> P b) ->
  (∀ a, is_Some (m !! a) -> P a) -> worklist fuel queue m acc = Ok (m', acc') ->
  ∀ a, is_Some (m' !! a) -> P a.
Proof.
  intros Hstep. revert queue m acc.
  induction fuel as [|fuel IH]; intros [|a rest] m acc Hm; cbn [worklist]; try done.
  1,2: by intros [= <- <-].
  intros H. apply bind_ok_inv in H as (x & Hx%ok_or_ok & H).
  apply bind_ok_inv in H as (edges & Hl & H).
  apply bind_ok_inv in H as ([m1 new] & [_ _ (l & _ & _ & Hnew & Hsrc)]%try_fold_pushed & H).
  eapply IH; [|exact H]. intros b Hb. destruct (m !! b) eqn:Emb; [apply Hm; eauto|].
  destruct (Hsrc b) as (e & He & <-); [apply Hnew; eauto|].
  apply (Hstep a); [apply Hm; eauto|]. by exists x, edges, e.
Qed.

Lemma worklist_mono fuel queue m acc m' acc' :
  worklist fuel queue m acc = Ok (m', acc') -> m ⊆ m'.
Proof.
  revert queue m acc.
  induction fuel as [|fuel IH]; intros [|a rest] m acc; cbn [worklist]; try done.
  1,2: by intros [= <- <-].
  intros H. apply bind_ok_inv in H as (x & _ & H). apply bind_ok_inv in H as (edges & _ & H).
  apply bind_ok_inv in H as ([m1 new] & [Hmono _ _]%try_fold_pushed & H).
  etrans; [done | by eapply IH].
Qed.

(** An entry state of the final table is an initial one or was pushed along an
    edge of the final table. *)
Lemma worklist_origin fuel queue m acc m' acc' :
  worklist fuel queue m acc = Ok (m', acc') -> ∀ a x, m' !! a = Some x ->
  m !! a = Some x ∨
  ∃ b y edges e, m' !! b = Some y ∧ local b y = Ok edges ∧ e ∈ edges ∧
    edge_target e = a ∧ edge_state e = x.
Proof.
  revert queue m acc.
  induction fuel as [|fuel IH]; intros [|a rest] m acc; cbn [worklist]; try done.
  1,2: intros [= <- <-]; by left.
  intros H. apply bind_ok_inv in H as (y & Hy%ok_or_ok & H).
  apply bind_ok_inv in H as (edges & Hl & H).
  apply bind_ok_inv in H as ([m1 new] & [Hmono Hedges (l & _ & _ & Hnew & Hsrc)]%try_fold_pushed & H).
  intros b x Hb. destruct (IH _ _ _ H b x Hb) as [Hm1|]; [|by right].
  destruct (m !! b) as [x'|] eqn:Emb.
  { left. apply (lookup_weaken _ m1) in Emb; [|done]. congruence. }
  right. destruct (Hsrc b) as (e & He & <-); [apply Hnew; eauto|].
  exists a, y, edges, e. destruct (Hedges e He) as [_ Ht]. split_and!; [|done..|congruence].
  apply worklist_mono in H. eapply lookup_weaken; [|exact H]. by eapply lookup_weaken.
Qed.

(** What holds of the accumulator at the start and is kept by every visited
    address holds at the end. *)
Lemma worklist_acc (Q : Acc -> Prop) fuel queue m acc m' acc' :
  worklist fuel queue m acc = Ok (m', acc') -> Q acc ->
  (∀ a x acc, m' !! a = Some x -> Q acc -> Q (upd a x acc)) -> Q acc'.
Proof.
  revert queue m acc.
  induction fuel as [|fuel IH]; intros [|a rest] m acc; cbn [worklist]; try done.
  1,2: by intros [= <- <-].
  intros H HQ Hstep. apply bind_ok_inv in H as (x & Hx%ok_or_ok & H).
  apply bind_ok_inv in H as (edges & _ & H).
  apply bind_ok_inv in H as ([m1 new] & [Hmono _ _]%try_fold_pushed & H).
  eapply IH; [exact H| |done]. apply Hstep; [|done].
  apply worklist_mono in H. eapply lookup_weaken; [|exact H]. by eapply lookup_weaken.
Qed.

(** ** Completeness *)

(** A table in which every address is settled: a solution of the dataflow
    equations. *)
Definition solution (m : gmap N A) : Prop := ∀ a x, m !! a = Some x -> settled m a x.

Lemma propagate_below a m new e sol :
  m ⊆ sol -> edge_check e = Ok tt -> sol !! edge_target e = Some (edge_state e) ->
  ∃ m' new', propagate a (m, new) e = Ok (m', new') ∧ m' ⊆ sol.
Proof.
  intros Hs Hc Ht. unfold propagate. rewrite Hc. cbn.
  destruct (m !! edge_target e) as [x|] eqn:Hx.
  - apply (lookup_weaken _ sol) in Hx; [|done]. rewrite decide_True by congruence. eauto.
  - eexists _, _. split; [done|]. by apply insert_subseteq_l.
Qed.

Lemma try_fold_below a edges m new sol :
  m ⊆ sol -> (∀ e, e ∈ edges -> edge_check e = Ok tt ∧ sol !! edge_target e = Some (edge_state e)) ->
  ∃ m' new', try_fold (propagate a) (m, new) edges = Ok (m', new') ∧ m' ⊆ sol.
Proof.
  revert m new. induction edges as [|e edges IH]; intros m new Hs He; cbn [try_fold]; [eauto|].
  destruct (He e) as [Hc Ht]; [by left|].
  destruct (propagate_below a m new e sol Hs Hc Ht) as (m1 & new1 & -> & Hs1).
  apply IH; [done|]. intros e' ?. apply He. by right.
Qed.

(** ** Fuel *)

Section fuel.
(** [Pr] holds of every queued address, and bounds the ones that are visited. *)
Context (size : nat) (Pr : N -> Prop).
Context (Hclosed : ∀ a b, Pr a -> edge_rel a b -> Pr b)
  (Hrange : ∀ a x edges, Pr a -> local a x = Ok edges -> (a < N.of_nat size)%N).

(** The addresses already visited are distinct and in range. *)
Record fuel_inv (fuel : nat) (queue : list N) (m : gmap N A) (done : list N) : Prop := {
  fi_nodup : NoDup (done ++ queue);
  fi_dom a : a ∈ done ++ queue ↔ is_Some (m !! a);
  fi_range a : a ∈ done -> (a < N.of_nat size)%N;
  fi_queued a : a ∈ queue -> Pr a;
  fi_fuel : (S size <= fuel + length done)%nat;
}.

Lemma distinct_in_range (l : list N) :
  NoDup l -> (∀ a, a ∈ l -> (a < N.of_nat size)%N) -> (length l <= size)%nat.
Proof.
  intros Hnd Hr. assert (Hs : l ⊆ N.of_nat <$> seq 0 size).
  { intros a Ha. apply list_elem_of_fmap. exists (N.to_nat a). specialize (Hr a Ha).
    split; [lia|]. apply elem_of_seq. lia. }
  apply NoDup_submseteq, submseteq_length in Hs; [|done].
  by rewrite length_fmap, length_seq in Hs.
Qed.

Lemma fuel_inv_step fuel a rest m done x edges m' new :
  fuel_inv (S fuel) (a :: rest) m done -> local a x = Ok edges -> m !! a = Some x ->
  pushed a edges m [] m' new -> fuel_inv fuel (rest ++ new) m' (done ++ [a]).
Proof.
  intros [Hnd Hdom Hr Hq Hf] Hl Hx [Hmono _ (l & -> & Hndl & Hnew & Hsrc)]. cbn in *.
  assert (Eq : (done ++ [a]) ++ rest ++ l = (done ++ a :: rest) ++ l)
    by (by rewrite <-!app_assoc). split.
  - rewrite Eq. apply NoDup_app. split_and!; [done| |done].
    intros b Hb%Hdom [Hn _]%Hnew. rewrite Hn in Hb. by destruct Hb.
  - intros b. rewrite Eq, elem_of_app, Hdom, Hnew. split.
    + intros [[y Hy]|[_ ?]]; [|done]. exists y. by eapply lookup_weaken.
    + intros Hb. destruct (m !! b); [left; eauto | by right].
  - intros b [Hb| ->%list_elem_of_singleton]%elem_of_app; [by apply Hr|].
    eapply Hrange; [|done]. apply Hq. by left.
  - intros b [Hb|Hb]%elem_of_app; [apply Hq; by right|].
    destruct (Hsrc b Hb) as (e & He & <-). apply (Hclosed a); [apply Hq; by left|].
    by exists x, edges, e.
  - rewrite length_app. cbn. lia.
Qed.

Lemma fuel_inv_pos fuel queue m done : fuel_inv fuel queue m done -> ∃ fuel', fuel = S fuel'.
Proof.
  intros [Hnd _ Hr _ Hf]. apply NoDup_app in Hnd as [Hnd _].
  pose proof (distinct_in_range done Hnd Hr). destruct fuel; [lia|eauto].
Qed.

(** A table below a solution grows to one below it. *)
Lemma worklist_complete sol fuel queue m acc done :
  solution sol -> m ⊆ sol -> fuel_inv fuel queue m done ->
  ∃ m' acc', worklist fuel queue m acc = Ok (m', acc') ∧ m' ⊆ sol.
Proof.
  intros Hsol. revert queue m acc done.
  induction fuel as [|fuel IH]; intros [|a rest] m acc done Hs Hinv; cbn [worklist];
    [by eauto| |by eauto|].
  - by destruct (fuel_inv_pos _ _ _ _ Hinv).
  - destruct (proj1 (fi_dom _ _ _ _ Hinv a)) as [x Hx]; [set_solver|]. rewrite Hx. cbn [ok_or mbind Result_bind].
    destruct (Hsol a x) as (edges & Hl & He); [by eapply lookup_weaken|]. rewrite Hl. cbn [ok_or mbind Result_bind].
    destruct (try_fold_below a edges m [] sol Hs He) as (m1 & new & Hp & Hs1). rewrite Hp. cbn [ok_or mbind Result_bind].
    eapply IH; [done|]. eapply fuel_inv_step; [done..|]. by apply try_fold_pushed.
Qed.

(** On a one-point state space a walk whose addresses are all accepted ends. *)
Lemma worklist_total fuel queue m acc done :
  (∀ x y : A, x = y) ->
  (∀ a x, Pr a -> ∃ edges, local a x = Ok edges ∧ ∀ e, e ∈ edges -> edge_check e = Ok tt) ->
  fuel_inv fuel queue m done -> ∃ m' acc', worklist fuel queue m acc = Ok (m', acc').
Proof.
  intros Heq Hok. revert queue m acc done.
  induction fuel as [|fuel IH]; intros [|a rest] m acc done Hinv; cbn [worklist];
    [by eauto| |by eauto|].
  - by destruct (fuel_inv_pos _ _ _ _ Hinv).
  - destruct (proj1 (fi_dom _ _ _ _ Hinv a)) as [x Hx]; [set_solver|]. rewrite Hx.
    destruct (Hok a x) as (edges & Hl & He); [eapply (fi_queued _ _ _ _ Hinv); by left|].
    cbn [ok_or mbind Result_bind]. rewrite Hl. cbn [mbind Result_bind].
    assert (Hfold : ∃ m1 new, try_fold (propagate a) (m, []) edges = Ok (m1, new)).
    { clear Hl. generalize ([] : list N) as new. revert He. generalize m as m0.
      induction edges as [|e edges IHe]; intros m0 He new; cbn [try_fold]; [eauto|].
      unfold propagate at 1. rewrite (He e) by (by left). cbn [mbind Result_bind].
      assert (He' : ∀ e', e' ∈ edges -> edge_check e' = Ok tt) by (intros; apply He; by right).
      destruct (m0 !! edge_target e) as [y|]; [|by apply IHe].
      rewrite decide_True by apply Heq. by apply IHe. }
    destruct Hfold as (m1 & new & Hp). rewrite Hp. cbn [mbind Result_bind].
    eapply IH, fuel_inv_step; [done..|]. by apply try_fold_pushed.
Qed.

(** With one iteration more than there are addresses, the bound is never the
    reason a run fails. *)
Context (Hloc : ∀ a x, local a x ≠ Err exhausted) (Hmiss : ∀ a, missing a ≠ exhausted)
  (Hdis : ∀ a b x y, disagree a b x y ≠ exhausted)
  (Hchk : ∀ a x e edges, local a x = Ok edges -> e ∈ edges -> edge_check e ≠ Err exhausted).

Lemma propagate_not_exhausted a m new e :
  edge_check e ≠ Err exhausted -> propagate a (m, new) e ≠ Err exhausted.
Proof.
  unfold propagate. intros Hc. destruct (edge_check e) as [[]|err] eqn:Ec; cbn; [|congruence].
  destruct (m !! edge_target e); [|done]. destruct (decide _); [done|].
  intros [= Eq]. by eapply Hdis.
Qed.

Lemma try_fold_not_exhausted a edges m new :
  (∀ e, e ∈ edges -> edge_check e ≠ Err exhausted) ->
  try_fold (propagate a) (m, new) edges ≠ Err exhausted.
Proof.
  revert m new. induction edges as [|e edges IH]; intros m new He; cbn [try_fold]; [done|].
  destruct (propagate a (m, new) e) as [[m1 new1]|err] eqn:Hp.
  - apply IH. intros e' ?. apply He. by right.
  - rewrite <-Hp. apply propagate_not_exhausted, He. by left.
Qed.

Lemma worklist_fuel fuel queue m acc done :
  fuel_inv fuel queue m done -> worklist fuel queue m acc ≠ Err exhausted.
Proof.
  revert queue m acc done.
  induction fuel as [|fuel IH]; intros [|a rest] m acc done Hinv; cbn [worklist];
    [discriminate| |discriminate|].
  - by destruct (fuel_inv_pos _ _ _ _ Hinv).
  - destruct (m !! a) as [x|] eqn:Hx; cbn [ok_or mbind Result_bind]; [|intros Eq; injection Eq; apply Hmiss].
    destruct (local a x) as [edges|err] eqn:Hl; cbn [ok_or mbind Result_bind]; [|intros Eq; eapply (Hloc a x); congruence].
    destruct (try_fold (propagate a) (m, []) edges) as [[m1 new]|err] eqn:Hp; cbn [ok_or mbind Result_bind].
    + eapply IH, fuel_inv_step; [done..|]. by apply try_fold_pushed.
    + intros [= ->]. eapply try_fold_not_exhausted, Hp. intros e He. by eapply Hchk.
Qed.

End fuel.
End worklist.
