(* ===== verification/RustStr.v ===== *)
(** * Strings: the parts of Rust's [str]/[String] library the kernel uses

    A Rust string is a UTF-8 byte sequence; here it is Stdlib's [string], one
    [ascii] per byte.  This file models decimal and hexadecimal formatting,
    [u32::from_str], [strip_prefix], [trim_start_matches], [replace],
    [str::from_utf8] and the [Debug] rendering of a string.  The Unicode
    "printable" table behind [Debug] is an argument. *)

From Stdlib Require Import Strings.Ascii.
From S2P Require Import Prelude.


(** ** Formatting *)

(** [u32]/[u64]/[usize] [to_string]. *)
Definition show_N (n : N) : string := pretty n.
(** [i64] [to_string]. *)
Definition show_Z (z : Z) : string := pretty z.
(** [bool] [to_string]. *)
Definition show_bool (b : bool) : string := if b then "true" else "false".

Definition hex_digit (n : N) : ascii :=
  if (n <? 10)%N then ascii_of_N (48 + n) else ascii_of_N (87 + n).

(** [{byte:02x}]. *)
Definition hex_byte (b : Byte.byte) : string :=
  String (hex_digit (Byte.to_N b / 16)) (String (hex_digit (Byte.to_N b mod 16)) "").

(** [bytes.iter().map(|byte| format!("{byte:02x}")).collect::<String>()]. *)
Definition hex_string (l : list Byte.byte) : string :=
  foldr (λ b s, hex_byte b +:+ s) "" l.

(** [{:x}] of a code point, without leading zeros. *)
Fixpoint hex_digits (fuel : nat) (n : N) (acc : string) : string :=
  match fuel with
  | O => acc
  | S fuel' =>
      let acc' := String (hex_digit (n mod 16)) acc in
      if (n <? 16)%N then acc' else hex_digits fuel' (n / 16) acc'
  end.
Definition show_hex (n : N) : string := hex_digits 8 n "".

(** ** Parsing *)

(** [str::strip_prefix]. *)
Fixpoint strip_prefix (p s : string) : option string :=
  match p, s with
  | "", _ => Some s
  | String a p', String b s' => if Ascii.eqb a b then strip_prefix p' s' else None
  | String _ _, "" => None
  end.

Definition digit_value (c : ascii) : option N :=
  let n := N_of_ascii c in
  if (48 <=? n)%N && (n <=? 57)%N then Some (n - 48)%N else None.

(** The digits loop of [u32::from_str]: a value above [u32::MAX] is an error,
    as is any character that is not a decimal digit. *)
Fixpoint parse_u32_digits (s : string) (acc : N) : option N :=
  match s with
  | "" => Some acc
  | String c s' =>
      match digit_value c with
      | Some d =>
          let acc' := (acc * 10 + d)%N in
          if (acc' <=? u32_max)%N then parse_u32_digits s' acc' else None
      | None => None
      end
  end.

(** [str::parse::<u32>]: an optional leading [+], then at least one digit. *)
Definition parse_u32 (s : string) : option N :=
  match s with
  | "" => None
  | String "+" "" => None
  | String "+" s' => parse_u32_digits s' 0
  | _ => parse_u32_digits s 0
  end.

(** [str::trim_start_matches(c)]. *)
Fixpoint trim_start_matches (c : ascii) (s : string) : string :=
  match s with
  | "" => ""
  | String a s' => if Ascii.eqb a c then trim_start_matches c s' else s
  end.

(** [str::replace] of one character by another. *)
Fixpoint replace_char (c d : ascii) (s : string) : string :=
  match s with
  | "" => ""
  | String a s' => String (if Ascii.eqb a c then d else a) (replace_char c d s')
  end.

(** ** UTF-8 *)

Definition is_cont (b : Byte.byte) : bool := (Byte.to_N b / 64 =? 2)%N.
Definition cont_bits (b : Byte.byte) : N := (Byte.to_N b mod 64)%N.

(** One scalar value at the head of a byte string, with the bytes it occupies:
    the validation of [core::str::from_utf8] (no overlong forms, no
    surrogates, at most U+10FFFF). *)
Definition utf8_next (l : list Byte.byte) : option (N * list Byte.byte * list Byte.byte) :=
  match l with
  | [] => None
  | b0 :: r0 =>
      let n0 := Byte.to_N b0 in
      if (n0 <? 128)%N then Some (n0, [b0], r0)
      else
        match r0 with
        | [] => None
        | b1 :: r1 =>
            if (194 <=? n0)%N && (n0 <=? 223)%N then
              if is_cont b1 then Some ((n0 - 192) * 64 + cont_bits b1, [b0; b1], r1)%N
              else None
            else
              match r1 with
              | [] => None
              | b2 :: r2 =>
                  if (224 <=? n0)%N && (n0 <=? 239)%N then
                    let cp := ((n0 - 224) * 4096 + cont_bits b1 * 64 + cont_bits b2)%N in
                    if is_cont b1 && is_cont b2 && (2048 <=? cp)%N
                       && negb ((55296 <=? cp)%N && (cp <=? 57343)%N)
                    then Some (cp, [b0; b1; b2], r2) else None
                  else
                    match r2 with
                    | [] => None
                    | b3 :: r3 =>
                        let cp := ((n0 - 240) * 262144 + cont_bits b1 * 4096
                                   + cont_bits b2 * 64 + cont_bits b3)%N in
                        if (240 <=? n0)%N && (n0 <=? 244)%N
                           && is_cont b1 && is_cont b2 && is_cont b3
                           && (65536 <=? cp)%N && (cp <=? 1114111)%N
                        then Some (cp, [b0; b1; b2; b3], r3) else None
                    end
              end
        end
  end.

(** The scalar values of a byte string, or [None] when it is not UTF-8.  Every
    scalar value consumes a byte, so the length is enough fuel. *)
Fixpoint utf8_chars (fuel : nat) (l : list Byte.byte) : option (list (N * list Byte.byte)) :=
  match l, fuel with
  | [], _ => Some []
  | _ :: _, O => None
  | _ :: _, S fuel' =>
      match utf8_next l with
      | Some (cp, bs, rest) =>
          match utf8_chars fuel' rest with
          | Some cs => Some ((cp, bs) :: cs)
          | None => None
          end
      | None => None
      end
  end.

(** [std::str::from_utf8]. *)
Definition from_utf8 (l : list Byte.byte) : option string :=
  match utf8_chars (length l) l with
  | Some _ => Some (String.string_of_list_byte l)
  | None => None
  end.

(** ** [Debug] *)

(** [char::escape_debug_ext] as the [Debug] instance of [str] uses it;
    [plain cp] says whether a non-ASCII scalar value is printable and not
    grapheme-extending. *)
Definition debug_char (plain : N -> bool) (cp : N) (bs : list Byte.byte) : string :=
  if (cp =? 0)%N then "\0"
  else if (cp =? 9)%N then "\t"
  else if (cp =? 13)%N then "\r"
  else if (cp =? 10)%N then "\n"
  else if (cp =? 34)%N then String "\" (String (ascii_of_N 34) "")
  else if (cp =? 92)%N then "\\"
  else if (32 <=? cp)%N && (cp <? 127)%N then String.string_of_list_byte bs
  else if (128 <=? cp)%N && plain cp then String.string_of_list_byte bs
  else "\u{" +:+ show_hex cp +:+ "}".

(** [format!("{s:?}")] of a string. *)
Definition debug_str (plain : N -> bool) (s : string) : string :=
  let quote := String (ascii_of_N 34) "" in
  let body :=
    match utf8_chars (String.length s) (as_bytes s) with
    | Some cs => foldr (λ '(cp, bs) acc, debug_char plain cp bs +:+ acc) "" cs
    | None => s
    end in
  quote +:+ body +:+ quote.

(** ** Facts *)

Lemma strip_prefix_app p s : strip_prefix p (p +:+ s) = Some s.
Proof.
  induction p as [|a p IH]; [done|].
  change (String a p +:+ s) with (String a (p +:+ s)).
  cbn [strip_prefix]. by rewrite Ascii.eqb_refl.
Qed.

Lemma strip_prefix_Some p s s' : strip_prefix p s = Some s' -> s = p +:+ s'.
Proof.
  revert s; induction p as [|a p IH]; intros s; cbn [strip_prefix]; [by intros [= ->]|].
  destruct s as [|b s]; [done|].
  destruct (Ascii.eqb a b) eqn:E; [|done]. apply Ascii.eqb_eq in E as ->.
  intros H%IH. by rewrite H.
Qed.

Lemma show_N_inj : Inj (=) (=) show_N.
Proof. intros x y. unfold show_N. apply (inj pretty). Qed.

Lemma parse_u32_digits_bound s acc n :
  (acc <= u32_max)%N -> parse_u32_digits s acc = Some n -> (n <= u32_max)%N.
Proof.
  revert acc; induction s as [|c s IH]; intros acc Hacc; cbn; [by intros [= <-]|].
  destruct (digit_value c) as [d|]; [|done].
  destruct (N.leb_spec (acc * 10 + d) u32_max); [apply IH; lia | done].
Qed.

(** A parsed flag key is a [u32]. *)
Lemma parse_u32_bound s n : parse_u32 s = Some n -> (n <= u32_max)%N.
Proof.
  assert (Hd : ∀ s n, parse_u32_digits s 0 = Some n -> (n <= u32_max)%N).
  { intros s' n'. apply parse_u32_digits_bound. unfold u32_max. lia. }
  unfold parse_u32. intros H. repeat case_match_in H; try discriminate; eauto.
Qed.

Example parse_u32_plus : parse_u32 "+7" = Some 7%N.
Proof. reflexivity. Qed.
Example parse_u32_overflow : parse_u32 "4294967296" = None.
Proof. reflexivity. Qed.
Example debug_str_quote : debug_str (λ _, true) "a\b" = String (ascii_of_N 34) ("a\\b" +:+ String (ascii_of_N 34) "").
Proof. reflexivity. Qed.
Example from_utf8_surrogate : from_utf8 [Byte.xed; Byte.xa0; Byte.x80] = None.
Proof. reflexivity. Qed.
