(* ===== verification/Json.v ===== *)
(** * JSON values

    [serde_json::Value] as the code sees it: the data type, [get], object
    insertion and the dotted-path walk of [bpmn-lite-types/src/ffi_bindings.rs].
    A [serde_json::Map] is a [BTreeMap] in this workspace (no [preserve_order]),
    so an object is a key-sorted association list.  Parsing and printing belong
    to [serde_json] and are operations of the platform (file Platform). *)

From S2P Require Import Prelude.

(** A JSON number: an integer in [-2^63 .. 2^64-1] or the bits of an [f64]. *)
Inductive json_number :=
| JInt (z : Z)
| JFloat (bits : N).

Inductive json :=
| JNull
| JBool (b : bool)
| JNumber (n : json_number)
| JString (s : string)
| JArray (l : list json)
| JObject (fields : list (string * json)).

(** [Number::as_i64] and [Number::as_u64]. *)
Definition number_as_i64 (n : json_number) : option Z :=
  match n with
  | JInt z => if ((i64_min <=? z) && (z <=? i64_max))%Z then Some z else None
  | JFloat _ => None
  end.
Definition number_as_u64 (n : json_number) : option N :=
  match n with
  | JInt z => if ((0 <=? z) && (z <=? Z.of_N u64_max))%Z then Some (Z.to_N z) else None
  | JFloat _ => None
  end.

(** [Number::from_f64]: a float that is not finite has no JSON number. *)
Definition f64_is_finite (bits : N) : bool :=
  negb (N.land (N.shiftr bits 52) 2047 =? 2047)%N.
Definition number_from_f64 (bits : N) : option json_number :=
  if f64_is_finite bits then Some (JFloat bits) else None.

(** ** Objects *)

Fixpoint fields_get (k : string) (fs : list (string * json)) : option json :=
  match fs with
  | [] => None
  | (k', v) :: fs' => if decide (k = k') then Some v else fields_get k fs'
  end.

(** [Map::insert]: replace in place, or insert at the key's sorted position. *)
Fixpoint fields_insert (k : string) (v : json) (fs : list (string * json)) : list (string * json) :=
  match fs with
  | [] => [(k, v)]
  | (k', v') :: fs' =>
      if decide (k = k') then (k, v) :: fs'
      else if decide (String.le k k') then (k, v) :: fs
      else (k', v') :: fields_insert k v fs'
  end.

(** [Value::get] with a string index: only objects have members. *)
Definition json_get (j : json) (k : string) : option json :=
  match j with JObject fs => fields_get k fs | _ => None end.

(** ** Dotted paths *)

(** [read_json_path]: [try_fold] of [get] along the path. *)
Fixpoint read_json_path (root : json) (path : list string) : option json :=
  match path with
  | [] => Some root
  | seg :: path' =>
      match json_get root seg with
      | Some v => read_json_path v path'
      | None => None
      end
  end.

(** Errors of the binding layer. *)
Inductive FfiBindingError :=
| InvalidDomainPayload
| InvalidOutput
| MissingValue (label : string)
| WrongType (label : string).

(** [write_json_path]: every parent must already be an object member; the last
    segment is inserted in its parent object. *)
Fixpoint write_json_path (root : json) (path : list string) (value : json)
  : Result FfiBindingError json :=
  match path with
  | [] => Err (MissingValue "empty output path")
  | [last] =>
      match root with
      | JObject fs => Ok (JObject (fields_insert last value fs))
      | _ => Err (WrongType last)
      end
  | seg :: rest =>
      match root with
      | JObject fs =>
          match fields_get seg fs with
          | Some child =>
              match write_json_path child rest value with
              | Ok child' => Ok (JObject (fields_insert seg child' fs))
              | Err e => Err e
              end
          | None => Err (MissingValue seg)
          end
      | _ => Err (MissingValue seg)
      end
  end.

(** ** Facts *)

(** Induction on JSON values that reaches into arrays and objects. *)
Section json_ind'.
Variable P : json -> Prop.
Hypothesis HNull : P JNull.
Hypothesis HBool : ∀ b, P (JBool b).
Hypothesis HNumber : ∀ n, P (JNumber n).
Hypothesis HString : ∀ s, P (JString s).
Hypothesis HArray : ∀ l, Forall P l -> P (JArray l).
Hypothesis HObject : ∀ fs, Forall (λ e, P e.2) fs -> P (JObject fs).

Fixpoint json_ind' (j : json) : P j :=
  match j with
  | JNull => HNull
  | JBool b => HBool b
  | JNumber n => HNumber n
  | JString s => HString s
  | JArray l =>
      HArray l
        ((fix go (l : list json) : Forall P l :=
            match l with
            | [] => @List.Forall_nil _ P
            | x :: l' => @List.Forall_cons _ P x l' (json_ind' x) (go l')
            end) l)
  | JObject fs =>
      HObject fs
        ((fix go (l : list (string * json)) : Forall (λ e, P e.2) l :=
            match l with
            | [] => @List.Forall_nil _ (λ e, P e.2)
            | x :: l' => @List.Forall_cons _ (λ e, P e.2) x l' (json_ind' x.2) (go l')
            end) fs)
  end.
End json_ind'.

Lemma fields_get_insert k v fs : fields_get k (fields_insert k v fs) = Some v.
Proof.
  induction fs as [|[k' v'] fs IH]; cbn; [by rewrite decide_True by done|].
  destruct (decide (k = k')) as [<-|Hne]; cbn; [by rewrite decide_True by done|].
  destruct (decide (String.le k k')); cbn; [by rewrite decide_True by done|].
  by rewrite decide_False by done.
Qed.

Lemma fields_get_insert_ne k k' v fs :
  k ≠ k' -> fields_get k' (fields_insert k v fs) = fields_get k' fs.
Proof.
  intros Hne. induction fs as [|[k0 v0] fs IH]; cbn; [by rewrite decide_False by done|].
  destruct (decide (k = k0)) as [<-|]; cbn.
  - by rewrite !(decide_False (P := k' = k)) by done.
  - destruct (decide (String.le k k0)); cbn.
    + by rewrite (decide_False (P := k' = k)) by done.
    + destruct (decide (k' = k0)); [done | apply IH].
Qed.

(** What is written at a path is what is read there afterwards. *)
Lemma read_write_json_path root path v root' :
  write_json_path root path v = Ok root' -> read_json_path root' path = Some v.
Proof.
  revert root root'; induction path as [|seg [|seg' rest] IH]; intros root root'; [done| |].
  - cbn. destruct root; try done. intros [= <-]. cbn. by rewrite fields_get_insert.
  - change (write_json_path root (seg :: seg' :: rest) v) with
      (match root with
       | JObject fs =>
           match fields_get seg fs with
           | Some child =>
               match write_json_path child (seg' :: rest) v with
               | Ok child' => Ok (JObject (fields_insert seg child' fs))
               | Err e => Err e
               end
           | None => Err (MissingValue seg)
           end
       | _ => Err (MissingValue seg)
       end).
    destruct root as [| | | | |fs]; try done.
    destruct (fields_get seg fs) as [child|]; [|done].
    destruct (write_json_path child (seg' :: rest) v) as [child'|] eqn:Hw; [|done].
    intros [= <-].
    change (match fields_get seg (fields_insert seg child' fs) with
            | Some v0 => read_json_path v0 (seg' :: rest) | None => None end = Some v).
    rewrite fields_get_insert. by apply (IH child).
Qed.

(** A write leaves every path with a different first segment alone. *)
Lemma read_write_json_path_other root path v root' seg seg' rest :
  path = seg :: rest -> seg ≠ seg' ->
  write_json_path root path v = Ok root' ->
  ∀ tail, read_json_path root' (seg' :: tail) = read_json_path root (seg' :: tail).
Proof.
  intros -> Hne Hw tail. cbn in Hw.
  destruct root as [| | | | |fs]; destruct rest as [|seg'' rest]; try done.
  - injection Hw as <-. cbn. by rewrite fields_get_insert_ne.
  - destruct (fields_get seg fs) as [child|]; [|done].
    case_match_in Hw; [|done]. injection Hw as <-.
    cbn. by rewrite fields_get_insert_ne.
Qed.
