(* ===== verification/Types.v ===== *)
(** * Runtime data of the workflow kernel

    The types of [bpmn-lite-types/src/types.rs], [session_stack.rs] and
    [ffi_bindings.rs] that a transition reads or writes: values, the
    instruction set, wait states, fibers, process state and instance, job and
    message wire types, incidents, the resource-limit walk of a value, and the
    runtime events of [events.rs].

    [Uuid] is the 128-bit number its bytes spell (the order of [Uuid] is the
    order of that number); the newtypes [Addr], [RecordId] and [EffectId] are
    their payloads.  A [u32]/[u64] is an [N], an [i64] a [Z]. *)

From S2P Require Import Prelude RustStr Json.

Notation Uuid := N (only parsing).
Notation Addr := N (only parsing).
Notation RecordId := N (only parsing).
Notation EffectId := N (only parsing).
Notation FlagKey := N (only parsing).
Notation JoinId := N (only parsing).
Notation WaitId := N (only parsing).
Notation Timestamp := Z (only parsing).
(** [[u8; 32]]. *)
Notation Hash := (list Byte.byte) (only parsing).

(** [Addr::saturating_add(1)]: the next instruction. *)
Definition addr_next (a : Addr) : Addr := sat_add u32_max a 1.
(** [Addr::index]. *)
Definition addr_index (a : Addr) : nat := N.to_nat a.

(** ** Values *)

Inductive Value :=
| VBool (b : bool)
| VI64 (z : Z)
| VStr (id : N)
| VRef (id : N)
| VArray (items : list Value).

Definition MAX_VALUE_ARRAY_LEN : N := 4096.
Definition MAX_VALUE_ARRAY_DEPTH : N := 8.

Inductive ValueLimitError :=
| TooDeep (max : N)
| TooLong (actual max : N).

(** [Value::check_array_limits_at_depth]. *)
Fixpoint check_array_limits_at_depth (v : Value) (depth : N) : Result ValueLimitError unit :=
  match v with
  | VArray items =>
      if (MAX_VALUE_ARRAY_DEPTH <=? depth)%N then Err (TooDeep MAX_VALUE_ARRAY_DEPTH)
      else if (MAX_VALUE_ARRAY_LEN <? len items)%N
      then Err (TooLong (len items) MAX_VALUE_ARRAY_LEN)
      else
        (fix go (l : list Value) : Result ValueLimitError unit :=
           match l with
           | [] => Ok tt
           | item :: l' =>
               match check_array_limits_at_depth item (depth + 1) with
               | Ok _ => go l'
               | Err e => Err e
               end
           end) items
  | _ => Ok tt
  end.

(** [Value::check_array_limits]. *)
Definition check_array_limits (v : Value) : Result ValueLimitError unit :=
  check_array_limits_at_depth v 0.

(** ** Instructions *)

Record PayloadRouteBranch := {
  prb_placeholder : string;
  prb_expected_value : string;
  prb_target : Addr;
}.

(** The instruction set ([enum Instr]). *)
Inductive Instr :=
| IJump (target : Addr)
| IBrIf (target : Addr)
| IBrIfNot (target : Addr)
| IPushBool (b : bool)
| IPushI64 (z : Z)
| IPop
| ILoadFlag (key : FlagKey)
| IStoreFlag (key : FlagKey)
| IExecNative (task_type argc retc : N)
| IExecDslTask (task_type : N) (static_args : gmap string string)
    (produces_placeholder : option string)
| IRoutePayload (branches : list PayloadRouteBranch) (default_target : option Addr)
| IExecFfi (template_id : Hash) (argc retc : N)
| IPublishMessage (name : N)
| ICancelWait (wait_id : WaitId)
| IIncCounter (counter_id : N)
| IBrCounterLt (counter_id limit : N) (target : Addr)
| IEnd
| IEndTerminate
| IFail (code : N)
| IV2Guard (handler : Addr)
| IV2GuardEnd
| IV2GuardN (handler : Addr)
| IV2GuardNEnd
| IV2GuardR
| IV2GuardREnd
| IV2GuardArmTimer
| IV2GuardTimerCycle (max_fires : N)
| IV2GuardArmError (error_code : option string) (handler : Addr)
| IV2RaceOpen (arm_count : N)
| IV2ArmTimer (target : Addr)
| IV2ArmMsg (target : Addr) (name : N)
| IV2ArmEffect (target : Addr) (template_id : Hash) (argc retc : N)
| IV2RaceClose
| IV2Fork (targets : list Addr) (pairing : Addr)
| IV2Join (pairing : Addr)
| IV2WaitFor
| IV2WaitUntil
| IV2WaitMsg (name : N)
| IV2AwaitEffect (template_id : Hash) (argc retc : N)
| IV2CancelScope
| IV2LoadPlaceholderMatch (placeholder expected_value : string)
| IV2RouteZeroMatch
| IV2MiIndexLive (collection_flag : FlagKey) (index : N)
| IV2MiLoadElement (collection_flag : FlagKey) (index : N)
| IV2MiArityCheck (collection_flag : FlagKey) (max : N).

(** ** Legacy wait and join plans *)

Inductive WaitType := WTimerType | WMsgType | WHumanType.

Record WaitPlanEntry := {
  wp_wait_type : WaitType;
  wp_name : option N;
  wp_corr_source : option N;
}.

Record JoinPlanEntry := {
  jp_expected : N;
  jp_next : Addr;
  jp_reg_template : list Value;
}.

(** ** Fibers *)

Inductive V2RaceArm :=
| ArmTimer (target : Addr)
| ArmMsg (target : Addr) (name : N) (corr_key : string)
| ArmEffect (target : Addr) (effect_id : EffectId) (template_id : Hash).

Inductive WaitState :=
| WRunning
| WTimer (deadline_ms : N)
| WMsg (wait_id : WaitId) (name : N) (corr_key : string)
| WJob (job_key : string)
| WEffect (effect_id : EffectId)
| WJoin (join_id : JoinId)
| WIncident (incident_id : Uuid)
| WV2Barrier (record_id : RecordId)
| WV2Race (record_id : RecordId) (arms : list V2RaceArm).

Global Instance V2RaceArm_eq_dec : EqDecision V2RaceArm.
Proof. solve_decision. Defined.
Global Instance WaitState_eq_dec : EqDecision WaitState.
Proof. solve_decision. Defined.

Record Fiber := mkFiber {
  fiber_id : Uuid;
  fiber_pc : Addr;
  fiber_stack : list Value;
  fiber_wait : WaitState;
  fiber_loop_epoch : N;
  fiber_control_stack : list RecordId;
}.

(** [Fiber::new]. *)
Definition Fiber_new (id : Uuid) (pc : Addr) : Fiber :=
  mkFiber id pc [] WRunning 0 [].

(** Field assignments. *)
Definition set_pc (a : Addr) (f : Fiber) : Fiber :=
  mkFiber (fiber_id f) a (fiber_stack f) (fiber_wait f) (fiber_loop_epoch f)
    (fiber_control_stack f).
Definition set_stack (s : list Value) (f : Fiber) : Fiber :=
  mkFiber (fiber_id f) (fiber_pc f) s (fiber_wait f) (fiber_loop_epoch f)
    (fiber_control_stack f).
Definition set_wait (w : WaitState) (f : Fiber) : Fiber :=
  mkFiber (fiber_id f) (fiber_pc f) (fiber_stack f) w (fiber_loop_epoch f)
    (fiber_control_stack f).
Definition set_loop_epoch (n : N) (f : Fiber) : Fiber :=
  mkFiber (fiber_id f) (fiber_pc f) (fiber_stack f) (fiber_wait f) n
    (fiber_control_stack f).
Definition set_control_stack (s : list RecordId) (f : Fiber) : Fiber :=
  mkFiber (fiber_id f) (fiber_pc f) (fiber_stack f) (fiber_wait f)
    (fiber_loop_epoch f) s.

(** [fiber.stack.push(v)] and [fiber.pc = fiber.pc.saturating_add(1)]. *)
Definition push_value (v : Value) (f : Fiber) : Fiber := set_stack (fiber_stack f ++ [v]) f.
Definition advance_pc (f : Fiber) : Fiber := set_pc (addr_next (fiber_pc f)) f.
Definition push_handle (h : RecordId) (f : Fiber) : Fiber :=
  set_control_stack (fiber_control_stack f ++ [h]) f.

(** ** Process instances *)

Inductive ProcessState :=
| PSRunning
| PSCompleted (at_ : Timestamp)
| PSCancelled (reason : string) (at_ : Timestamp)
| PSTerminated (at_ : Timestamp)
| PSFailed (incident_id : Uuid)
| PSIncidented (incident_id : Uuid)
| PSWaitingOnSubmission (callout_id : Uuid) (node_id : string)
| PSWaitingOnInvocation (execution_id : Uuid) (node_id : string).

Global Instance ProcessState_eq_dec : EqDecision ProcessState.
Proof. solve_decision. Defined.

(** [ProcessState::is_terminal]. *)
Definition is_terminal (s : ProcessState) : bool :=
  match s with
  | PSRunning => false
  | PSCompleted _ => true
  | PSCancelled _ _ => true
  | PSTerminated _ => true
  | PSFailed _ => true
  | PSIncidented _ => false
  | PSWaitingOnSubmission _ _ => false
  | PSWaitingOnInvocation _ _ => false
  end.

(** [ProcessState::is_schedulable]. *)
Definition is_schedulable (s : ProcessState) : bool :=
  match s with
  | PSRunning => true
  | PSCompleted _ | PSCancelled _ _ | PSTerminated _ | PSFailed _ | PSIncidented _
  | PSWaitingOnSubmission _ _ | PSWaitingOnInvocation _ _ => false
  end.

Record SessionScopeState := {
  client_group_id : Uuid;
  client_group_name : option string;
}.

Inductive SessionWorkspaceKind :=
| ProductMaintenance | Catalogue | Deal | Cbu | Kyc | InstrumentMatrix | OnBoarding
| SemOsMaintenance | LifecycleResources | BookingPrincipal | Bpmn.

Record SessionStackState := {
  session_id : Uuid;
  session_scope : option SessionScopeState;
  active_workspace : option SessionWorkspaceKind;
  workspace_stack : list json;
  trace_sequence : N;
}.

Record ProcessInstance := mkInstance {
  instance_id : Uuid;
  inst_tenant_id : string;
  process_key : string;
  bytecode_version : Hash;
  domain_payload : string;
  domain_payload_hash : Hash;
  session_stack : SessionStackState;
  flags : gmap N Value;
  counters : gmap N N;
  join_expected : gmap N N;
  inst_state : ProcessState;
  correlation_id : string;
  entry_id : Uuid;
  runbook_id : Uuid;
  created_at : Timestamp;
  integrity_hash : option Hash;
  quarantine_state : option string;
  plan_hash : option Hash;
  current_node_id : option string;
  placeholder_values : option json;
}.

(** Field assignments. *)
Definition set_payload (p : string) (h : Hash) (i : ProcessInstance) : ProcessInstance :=
  mkInstance (instance_id i) (inst_tenant_id i) (process_key i) (bytecode_version i)
    p h (session_stack i) (flags i) (counters i) (join_expected i) (inst_state i)
    (correlation_id i) (entry_id i) (runbook_id i) (created_at i) (integrity_hash i)
    (quarantine_state i) (plan_hash i) (current_node_id i) (placeholder_values i).
Definition set_session_stack (s : SessionStackState) (i : ProcessInstance) : ProcessInstance :=
  mkInstance (instance_id i) (inst_tenant_id i) (process_key i) (bytecode_version i)
    (domain_payload i) (domain_payload_hash i) s (flags i) (counters i) (join_expected i)
    (inst_state i) (correlation_id i) (entry_id i) (runbook_id i) (created_at i)
    (integrity_hash i) (quarantine_state i) (plan_hash i) (current_node_id i)
    (placeholder_values i).
Definition set_flags (fl : gmap N Value) (i : ProcessInstance) : ProcessInstance :=
  mkInstance (instance_id i) (inst_tenant_id i) (process_key i) (bytecode_version i)
    (domain_payload i) (domain_payload_hash i) (session_stack i) fl (counters i)
    (join_expected i) (inst_state i) (correlation_id i) (entry_id i) (runbook_id i)
    (created_at i) (integrity_hash i) (quarantine_state i) (plan_hash i)
    (current_node_id i) (placeholder_values i).
Definition set_counters (c : gmap N N) (i : ProcessInstance) : ProcessInstance :=
  mkInstance (instance_id i) (inst_tenant_id i) (process_key i) (bytecode_version i)
    (domain_payload i) (domain_payload_hash i) (session_stack i) (flags i) c
    (join_expected i) (inst_state i) (correlation_id i) (entry_id i) (runbook_id i)
    (created_at i) (integrity_hash i) (quarantine_state i) (plan_hash i)
    (current_node_id i) (placeholder_values i).
Definition set_join_expected (j : gmap N N) (i : ProcessInstance) : ProcessInstance :=
  mkInstance (instance_id i) (inst_tenant_id i) (process_key i) (bytecode_version i)
    (domain_payload i) (domain_payload_hash i) (session_stack i) (flags i) (counters i)
    j (inst_state i) (correlation_id i) (entry_id i) (runbook_id i)
    (created_at i) (integrity_hash i) (quarantine_state i) (plan_hash i)
    (current_node_id i) (placeholder_values i).
Definition set_state (s : ProcessState) (i : ProcessInstance) : ProcessInstance :=
  mkInstance (instance_id i) (inst_tenant_id i) (process_key i) (bytecode_version i)
    (domain_payload i) (domain_payload_hash i) (session_stack i) (flags i) (counters i)
    (join_expected i) s (correlation_id i) (entry_id i) (runbook_id i)
    (created_at i) (integrity_hash i) (quarantine_state i) (plan_hash i)
    (current_node_id i) (placeholder_values i).
Definition set_integrity_hash (h : option Hash) (i : ProcessInstance) : ProcessInstance :=
  mkInstance (instance_id i) (inst_tenant_id i) (process_key i) (bytecode_version i)
    (domain_payload i) (domain_payload_hash i) (session_stack i) (flags i) (counters i)
    (join_expected i) (inst_state i) (correlation_id i) (entry_id i) (runbook_id i)
    (created_at i) h (quarantine_state i) (plan_hash i)
    (current_node_id i) (placeholder_values i).
Definition set_placeholder_values (p : option json) (i : ProcessInstance) : ProcessInstance :=
  mkInstance (instance_id i) (inst_tenant_id i) (process_key i) (bytecode_version i)
    (domain_payload i) (domain_payload_hash i) (session_stack i) (flags i) (counters i)
    (join_expected i) (inst_state i) (correlation_id i) (entry_id i) (runbook_id i)
    (created_at i) (integrity_hash i) (quarantine_state i) (plan_hash i)
    (current_node_id i) p.

(** ** Wire types *)

Inductive ErrorClass :=
| Transient
| ContractViolation
| BusinessRejection (rejection_code : string).

Record JobActivation := {
  ja_job_key : string;
  ja_tenant_id : string;
  ja_process_instance_id : Uuid;
  ja_task_type : string;
  ja_service_task_id : string;
  ja_domain_payload : string;
  ja_domain_payload_hash : Hash;
  ja_session_stack : SessionStackState;
  ja_orch_flags : gmap string Value;
  ja_retries_remaining : N;
  ja_entry_id : Uuid;
  ja_runbook_id : Uuid;
  ja_worker_id : string;
  ja_claim_token : string;
  ja_claim_expires_at : option Timestamp;
  ja_attempt_count : N;
  ja_failure_count : N;
  ja_not_before : option Timestamp;
}.

Record JobCompletion := {
  jc_job_key : string;
  jc_domain_payload : string;
  jc_expected_instance_payload_hash : Hash;
  jc_orch_flags : gmap string Value;
  jc_worker_id : option string;
  jc_claim_token : option string;
}.

Record BufferedMessage := {
  bm_tenant_id : string;
  bm_message_name : string;
  bm_correlation_key : string;
  bm_msg_id : string;
  bm_payload : list Byte.byte;
  bm_payload_hash : option Hash;
  bm_process_instance_id : option Uuid;
  bm_received_at : Timestamp;
  bm_expires_at : Timestamp;
}.

Record ClaimedBufferedMessage := {
  cbm_message : BufferedMessage;
  cbm_claim_token : string;
  cbm_claim_until : Timestamp;
}.

Record Incident := {
  incident_id : Uuid;
  incident_process_instance_id : Uuid;
  incident_fiber_id : Uuid;
  incident_service_task_id : string;
  incident_bytecode_addr : Addr;
  incident_error_class : ErrorClass;
  incident_message : string;
  incident_retry_count : N;
  incident_created_at : Timestamp;
  incident_resolved_at : option Timestamp;
  incident_resolution : option string;
}.

(** ** Bindings *)

(** [Literal::F64] carries the bits of the float. *)
Inductive Literal :=
| LitBool (b : bool)
| LitI64 (z : Z)
| LitF64 (bits : N)
| LitString (s : string).

Inductive BindingSource :=
| BSLiteral (l : Literal)
| BSFlagRef (key : FlagKey)
| BSDomainPayloadRef (path : list string).

Inductive BindingTarget :=
| BTFlagWrite (key : FlagKey)
| BTDomainPayloadWrite (path : list string).

Record CompiledFfiInputBinding := {
  fib_target_field : string;
  fib_source : BindingSource;
}.

Record CompiledFfiOutputBinding := {
  fob_source_field : string;
  fob_target : BindingTarget;
}.

Record FfiTaskDecl := {
  ffi_template_id : Hash;
  ffi_inputs : list CompiledFfiInputBinding;
  ffi_outputs : list CompiledFfiOutputBinding;
}.

(** ** Facts *)

(** Induction on values that reaches into arrays. *)
Section Value_ind'.
Variable P : Value -> Prop.
Hypothesis HBool : ∀ b, P (VBool b).
Hypothesis HI64 : ∀ z, P (VI64 z).
Hypothesis HStr : ∀ n, P (VStr n).
Hypothesis HRef : ∀ n, P (VRef n).
Hypothesis HArray : ∀ items, Forall P items -> P (VArray items).

Fixpoint Value_ind' (v : Value) : P v :=
  match v with
  | VBool b => HBool b
  | VI64 z => HI64 z
  | VStr n => HStr n
  | VRef n => HRef n
  | VArray items =>
      HArray items
        ((fix go (l : list Value) : Forall P l :=
            match l with
            | [] => @List.Forall_nil _ P
            | w :: l' => @List.Forall_cons _ P w l' (Value_ind' w) (go l')
            end) items)
  end.
End Value_ind'.

(** The nesting depth of arrays and the greatest array length of a value. *)
Fixpoint array_depth (v : Value) : N :=
  match v with
  | VArray items => 1 + foldr (λ v d, N.max (array_depth v) d) 0 items
  | _ => 0
  end%N.
Fixpoint array_max_len (v : Value) : N :=
  match v with
  | VArray items =>
      N.max (len items) (foldr (λ v d, N.max (array_max_len v) d) 0 items)
  | _ => 0
  end%N.

Lemma foldr_max_le (g : Value -> N) (l : list Value) (b : N) :
  (foldr (λ v d, N.max (g v) d) 0 l <= b)%N ↔ ∀ v, v ∈ l -> (g v <= b)%N.
Proof.
  induction l as [|v l IH]; cbn; [set_solver by lia|].
  rewrite N.max_lub_iff, IH. setoid_rewrite elem_of_cons. naive_solver.
Qed.

Lemma check_array_limits_array items depth :
  check_array_limits_at_depth (VArray items) depth =
  (if (MAX_VALUE_ARRAY_DEPTH <=? depth)%N then Err (TooDeep MAX_VALUE_ARRAY_DEPTH)
   else if (MAX_VALUE_ARRAY_LEN <? len items)%N
   then Err (TooLong (len items) MAX_VALUE_ARRAY_LEN)
   else try_for_each (λ v, check_array_limits_at_depth v (depth + 1)) items).
Proof.
  cbn [check_array_limits_at_depth].
  destruct (_ <=? _)%N; [done|]. destruct (_ <? _)%N; [done|].
  induction items as [|v items IH]; cbn; [done|].
  destruct (check_array_limits_at_depth v _); done.
Qed.

(** The walk accepts a value exactly when its nesting and its array lengths
    are within the two bounds. *)
Lemma check_array_limits_at_depth_spec v depth :
  (depth <= MAX_VALUE_ARRAY_DEPTH)%N ->
  check_array_limits_at_depth v depth = Ok tt ↔
  (depth + array_depth v <= MAX_VALUE_ARRAY_DEPTH)%N ∧
  (array_max_len v <= MAX_VALUE_ARRAY_LEN)%N.
Proof.
  revert depth; induction v as [| | | |items IH] using Value_ind'; intros depth Hd;
    try (cbn; unfold MAX_VALUE_ARRAY_LEN; split; intros; [split; lia | done]).
  rewrite check_array_limits_array. cbn [array_depth array_max_len].
  destruct (N.leb_spec MAX_VALUE_ARRAY_DEPTH depth).
  { split; [done|]. intros [? _]. lia. }
  destruct (N.ltb_spec MAX_VALUE_ARRAY_LEN (len items)).
  { split; [done|]. intros [_ ?]. lia. }
  rewrite try_for_each_ok, N.max_lub_iff.
  assert (Hdepth : (depth + (1 + foldr (λ v d, N.max (array_depth v) d) 0 items)
            <= MAX_VALUE_ARRAY_DEPTH)%N ↔
          (foldr (λ v d, N.max (array_depth v) d) 0 items
            <= MAX_VALUE_ARRAY_DEPTH - depth - 1)%N) by lia.
  rewrite Hdepth, !foldr_max_le. rewrite Forall_forall in IH.
  split.
  - intros Hall. split; [|split; [lia|]]; intros v Hv;
      specialize (Hall v Hv); apply (IH v Hv) in Hall as [? ?]; lia.
  - intros (H1 & _ & H2) v Hv. apply IH; [done | lia |].
    specialize (H1 v Hv). specialize (H2 v Hv). lia.
Qed.

(** * Runtime events

    [enum RuntimeEvent] of [bpmn-lite-types/src/events.rs]: the audit trail a
    transition appends. *)

Inductive RuntimeEvent :=
| EvInstanceStarted (instance_id : Uuid) (bytecode_version : Hash)
| EvFiberSpawned (fiber_id : Uuid) (pc : Addr) (parent : option Uuid)
| EvJobActivated (job_key task_type service_task_id : string) (pc : Addr)
| EvJobClaimed (job_key worker_id : string) (claim_expires_at : Z)
| EvJobCompleted (job_key : string) (payload_hash_before payload_hash_after : Hash)
    (orch_flags_out : gmap string Value) (pc_next : Addr)
| EvJobReclaimed (job_key : string) (previous_worker_id : option string)
| EvJobRetryScheduled (job_key : string) (retry_at : Z) (retries_remaining : N)
| EvJobDeadLettered (job_key : string) (incident_id : Uuid)
| EvGatewayTaken (gateway_id : string) (branch_taken : Addr) (condition_value : Value)
| EvFlagSet (key : FlagKey) (value : Value)
| EvForked (fork_id : string) (child_fibers : list Uuid) (targets : list Addr)
| EvJoinArrived (join_id : JoinId) (fiber_id : Uuid)
| EvJoinReleased (join_id : JoinId) (next_pc : Addr) (released_fiber_id : Uuid)
| EvWaitTimerSet (fiber_id : Uuid) (deadline_ms : N)
| EvTimerFired (timer_id : EffectId) (fiber_id : Uuid) (fired_at : N)
| EvWaitMsgSubscribed (fiber_id : Uuid) (name : N) (corr_key : string)
| EvMsgReceived (name : N) (corr_key : string) (msg_ref : option Uuid)
| EvMessageBuffered (message_name correlation_key msg_id : string) (expires_at : Z)
| EvBufferedMessageConsumed (message_name correlation_key msg_id : string) (fiber_id : Uuid)
| EvBufferedMessageExpired (message_name correlation_key msg_id : string)
| EvIncidentCreated (incident_id : Uuid) (service_task_id : string) (job_key : option string)
| EvIncidentResolved (incident_id : Uuid) (resolution : string)
| EvChildStartAccepted (idempotency_key : string) (child_instance_id : Uuid)
| EvChildStartRejected (idempotency_key : string) (child_instance_id incident_id : Uuid)
| EvWaitCancelled (fiber_id : Uuid) (wait_desc reason : string)
| EvSignalIgnored (signal_desc : string)
| EvCancelled (reason : string)
| EvCompleted (at_ : Timestamp)
| EvTerminated (at_ : Timestamp) (fiber_id : Uuid)
| EvErrorRouted (job_key error_code boundary_id : string) (resume_at : Addr)
| EvCounterIncremented (counter_id new_value loop_epoch : N)
| EvInclusiveForkTaken (gateway_id : string) (branches_taken : list Addr) (join_id : JoinId)
    (expected : N)
| EvFfiInvocationPending (invocation_id : Uuid) (template_id_hex caller_task_id : string)
    (caller_pc : Addr) (owner_type : string)
| EvFfiInvocationCompleted (invocation_id : Uuid) (outcome_kind : string)
    (error_message : option string)
| EvInstanceQuarantined (instance_id : Uuid) (tenant_id detection_point failure_reason : string)
    (detected_at : Timestamp)
| EvV2GuardOpened (record_id : RecordId) (fiber_id : Uuid) (handler : Addr)
| EvV2GuardRetired (record_id : RecordId) (fiber_id : Uuid)
| EvV2GuardROpened (record_id : RecordId) (fiber_id : Uuid)
| EvV2Forked (record_id : RecordId) (fork_fiber_id : Uuid) (child_fibers : list Uuid)
    (targets : list Addr)
| EvV2JoinArrived (record_id : RecordId) (fiber_id : Uuid)
| EvV2JoinReleased (record_id : RecordId) (survivor_fiber_id : Uuid) (next_pc : Addr)
    (cancelled_fibers : list Uuid)
| EvV2RaceOpened (record_id : RecordId) (fiber_id : Uuid) (arm_count : N)
| EvV2RaceClosed (record_id : RecordId) (fiber_id : Uuid) (arm_count : N)
| EvV2RaceWon (record_id : RecordId) (fiber_id : Uuid)
| EvV2GuardTriggered (record_id : RecordId) (handler_fiber_id : Uuid)
    (cancelled_records : list RecordId) (cancelled_fibers : list Uuid)
| EvV2GuardNTriggered (record_id : RecordId) (handler_fiber_id : Uuid)
| EvV2ScopeCancelled (record_id : RecordId) (fiber_id : Uuid)
    (cancelled_records : list RecordId) (cancelled_fibers : list Uuid).
