(* ===== verification/Concurrency.v ===== *)
(** * The concurrency table

    [bpmn-lite-types/src/concurrency.rs]: concurrency records (guards, races,
    barriers), the table that owns them, the mutations a transition stages
    against the table, and the shape validation the stores run before they
    persist a batch of mutations. *)

From S2P Require Import Prelude RustStr Json Types.

(** ** Records *)

Inductive RecordKind :=
| KGuard (interrupting : bool)
| KRace
| KBarrier
| KCompensation.

Inductive RecordState := Armed | Retired.

Global Instance RecordKind_eq_dec : EqDecision RecordKind.
Proof. solve_decision. Defined.
Global Instance RecordState_eq_dec : EqDecision RecordState.
Proof. solve_decision. Defined.

Record RecordCounters := mkCounters { arity : N; count : N }.

Global Instance RecordCounters_eq_dec : EqDecision RecordCounters.
Proof. solve_decision. Defined.

Definition RecordCounters_default : RecordCounters := mkCounters 0 0.

Record ConcurrencyRecord := mkRecord {
  rec_id : RecordId;
  rec_kind : RecordKind;
  members : gset Uuid;
  rec_handler : option Addr;
  rec_state : RecordState;
  rec_counters : RecordCounters;
  rollback_domain_payload : option string;
  rollback_domain_payload_hash : option Hash;
  rollback_flags : option (gmap N Value);
  rollback_join_expected : option (gmap N N);
  rollback_session_stack : option string;
  opened_at : option Addr;
  error_routes : list (option string * Addr);
}.

(** [ConcurrencyRecord::new]. *)
Definition ConcurrencyRecord_new (id : RecordId) (kind : RecordKind) : ConcurrencyRecord :=
  mkRecord id kind ∅ None Armed RecordCounters_default None None None None None None [].

(** Field assignments. *)
Definition set_members (m : gset Uuid) (r : ConcurrencyRecord) : ConcurrencyRecord :=
  mkRecord (rec_id r) (rec_kind r) m (rec_handler r) (rec_state r) (rec_counters r)
    (rollback_domain_payload r) (rollback_domain_payload_hash r) (rollback_flags r)
    (rollback_join_expected r) (rollback_session_stack r) (opened_at r) (error_routes r).
Definition set_rec_state (s : RecordState) (r : ConcurrencyRecord) : ConcurrencyRecord :=
  mkRecord (rec_id r) (rec_kind r) (members r) (rec_handler r) s (rec_counters r)
    (rollback_domain_payload r) (rollback_domain_payload_hash r) (rollback_flags r)
    (rollback_join_expected r) (rollback_session_stack r) (opened_at r) (error_routes r).
Definition set_rec_counters (c : RecordCounters) (r : ConcurrencyRecord) : ConcurrencyRecord :=
  mkRecord (rec_id r) (rec_kind r) (members r) (rec_handler r) (rec_state r) c
    (rollback_domain_payload r) (rollback_domain_payload_hash r) (rollback_flags r)
    (rollback_join_expected r) (rollback_session_stack r) (opened_at r) (error_routes r).
Definition set_error_routes (l : list (option string * Addr)) (r : ConcurrencyRecord)
  : ConcurrencyRecord :=
  mkRecord (rec_id r) (rec_kind r) (members r) (rec_handler r) (rec_state r) (rec_counters r)
    (rollback_domain_payload r) (rollback_domain_payload_hash r) (rollback_flags r)
    (rollback_join_expected r) (rollback_session_stack r) (opened_at r) l.

Definition add_member (m : Uuid) (r : ConcurrencyRecord) : ConcurrencyRecord :=
  set_members ({[m]} ∪ members r) r.
Definition remove_member (m : Uuid) (r : ConcurrencyRecord) : ConcurrencyRecord :=
  set_members (members r ∖ {[m]}) r.

(** ** The table and its mutations *)

(** [ConcurrencyTable], a [BTreeMap] keyed by record id. *)
Notation ConcurrencyTable := (gmap N ConcurrencyRecord) (only parsing).

(** [ConcurrencyTable::insert]: keyed by the record's own id. *)
Definition table_insert (r : ConcurrencyRecord) (t : ConcurrencyTable) : ConcurrencyTable :=
  <[rec_id r := r]> t.

Inductive ConcurrencyMutation :=
| CMInsert (r : ConcurrencyRecord)
| CMRetire (id : RecordId)
| CMRemove (id : RecordId).

Inductive ControlStackDelta :=
| CSPush (fiber_id : Uuid) (handle : RecordId)
| CSPop (fiber_id : Uuid) (handle : RecordId).

(** One mutation against a table: the loop body shared by the snapshot fold,
    the frame derivation and the armed-record sweep of the kernel. *)
Definition apply_mutation (t : ConcurrencyTable) (m : ConcurrencyMutation) : ConcurrencyTable :=
  match m with
  | CMInsert r => table_insert r t
  | CMRetire id =>
      match t !! id with
      | Some r => <[id := set_rec_state Retired r]> t
      | None => t
      end
  | CMRemove id => delete id t
  end.

Definition apply_mutations (t : ConcurrencyTable) (l : list ConcurrencyMutation)
  : ConcurrencyTable := foldl apply_mutation t l.

(** The record a mutation is about. *)
Definition mutation_id (m : ConcurrencyMutation) : RecordId :=
  match m with CMInsert r => rec_id r | CMRetire id | CMRemove id => id end.

(** ** Shape validation *)

Inductive ConcurrencyValidationError :=
| CountersOutOfBounds (id : RecordId) (kind : RecordKind) (count arity : N)
| UnexpectedCounters (id : RecordId) (kind : RecordKind) (arity count : N)
| UnexpectedOpenedAt (id : RecordId) (kind : RecordKind)
| RollbackFieldsOnNonGuard (id : RecordId) (kind : RecordKind)
| PartialRollbackSnapshot (id : RecordId)
| RollbackFieldsOnGuardN (id : RecordId)
| GuardMissingOpenedAt (id : RecordId)
| CompensationUninhabited (id : RecordId)
| RetireMissing (id : RecordId)
| RemoveMissing (id : RecordId).

(** [validate_concurrency_record_shape]. *)
Definition validate_concurrency_record_shape (r : ConcurrencyRecord)
  : Result ConcurrencyValidationError unit :=
  let id := rec_id r in
  let present := [
    bool_decide (is_Some (rollback_domain_payload r));
    bool_decide (is_Some (rollback_domain_payload_hash r));
    bool_decide (is_Some (rollback_flags r));
    bool_decide (is_Some (rollback_join_expected r));
    bool_decide (is_Some (rollback_session_stack r))] in
  let any_set := existsb (λ b, b) present in
  let all_set := forallb (λ b, b) present in
  match rec_kind r with
  | KCompensation => Err (CompensationUninhabited id)
  | KBarrier | KRace =>
      if (arity (rec_counters r) <? count (rec_counters r))%N then
        Err (CountersOutOfBounds id (rec_kind r) (count (rec_counters r)) (arity (rec_counters r)))
      else if bool_decide (is_Some (opened_at r)) then
        Err (UnexpectedOpenedAt id (rec_kind r))
      else if any_set then Err (RollbackFieldsOnNonGuard id (rec_kind r))
      else Ok tt
  | KGuard interrupting =>
      if negb (bool_decide (rec_counters r = RecordCounters_default)) then
        Err (UnexpectedCounters id (rec_kind r) (arity (rec_counters r)) (count (rec_counters r)))
      else if negb (bool_decide (is_Some (opened_at r))) then Err (GuardMissingOpenedAt id)
      else if any_set && negb all_set then Err (PartialRollbackSnapshot id)
      else if negb interrupting && any_set then Err (RollbackFieldsOnGuardN id)
      else Ok tt
  end.

(** One step of [ConcurrencyTable::validate_mutations] on the scratch table. *)
Definition validate_mutation (scratch : ConcurrencyTable) (m : ConcurrencyMutation)
  : Result ConcurrencyValidationError ConcurrencyTable :=
  match m with
  | CMInsert r =>
      match validate_concurrency_record_shape r with
      | Ok _ => Ok (table_insert r scratch)
      | Err e => Err e
      end
  | CMRetire id =>
      match scratch !! id with
      | Some r => Ok (<[id := set_rec_state Retired r]> scratch)
      | None => Err (RetireMissing id)
      end
  | CMRemove id =>
      match scratch !! id with
      | Some _ => Ok (delete id scratch)
      | None => Err (RemoveMissing id)
      end
  end.

(** [ConcurrencyTable::validate_mutations]: a dry run on a copy. *)
Definition validate_mutations (t : ConcurrencyTable) (l : list ConcurrencyMutation)
  : Result ConcurrencyValidationError unit :=
  match try_fold validate_mutation t l with Ok _ => Ok tt | Err e => Err e end.

(** ** Well-formedness *)

(** Every record is stored under its own id. *)
Definition table_keyed (t : ConcurrencyTable) : Prop :=
  ∀ id r, t !! id = Some r -> rec_id r = id.

(** Every record passes the shape check. *)
Definition well_shaped (r : ConcurrencyRecord) : Prop :=
  validate_concurrency_record_shape r = Ok tt.
Definition table_shaped (t : ConcurrencyTable) : Prop :=
  ∀ id r, t !! id = Some r -> well_shaped r.

(** ** Facts *)

Lemma lookup_apply_mutation_ne t m id :
  mutation_id m ≠ id -> apply_mutation t m !! id = t !! id.
Proof.
  destruct m as [r|id'|id']; cbn; intros Hne.
  - unfold table_insert. by rewrite lookup_insert_ne.
  - destruct (t !! id'); [by rewrite lookup_insert_ne | done].
  - by rewrite lookup_delete_ne.
Qed.

Lemma apply_mutations_app t l1 l2 :
  apply_mutations t (l1 ++ l2) = apply_mutations (apply_mutations t l1) l2.
Proof. apply foldl_app. Qed.

Lemma lookup_apply_mutations_ne t l id :
  (∀ m, m ∈ l -> mutation_id m ≠ id) -> apply_mutations t l !! id = t !! id.
Proof.
  revert t; induction l as [|m l IH]; intros t Hne; cbn; [done|].
  unfold apply_mutations in IH. rewrite IH by set_solver.
  apply lookup_apply_mutation_ne. set_solver.
Qed.

Lemma apply_mutation_keyed t m : table_keyed t -> table_keyed (apply_mutation t m).
Proof.
  intros Ht id r. destruct m as [r'|id'|id']; cbn.
  - unfold table_insert. rewrite lookup_insert. case_decide; [naive_solver | apply Ht].
  - destruct (t !! id') as [r'|] eqn:E; [|apply Ht].
    rewrite lookup_insert. case_decide; [|apply Ht].
    intros [= <-]. cbn. subst. by apply Ht.
  - rewrite lookup_delete. case_decide; [done | apply Ht].
Qed.

Lemma apply_mutations_keyed t l : table_keyed t -> table_keyed (apply_mutations t l).
Proof.
  revert t; induction l as [|m l IH]; intros t Ht; cbn; [done|].
  by apply IH, apply_mutation_keyed.
Qed.

Lemma well_shaped_retire r : well_shaped r -> well_shaped (set_rec_state Retired r).
Proof. done. Qed.

Lemma well_shaped_members m r : well_shaped r -> well_shaped (set_members m r).
Proof. done. Qed.

Lemma well_shaped_error_routes l r : well_shaped r -> well_shaped (set_error_routes l r).
Proof. done. Qed.

#[export] Hint Resolve apply_mutation_keyed apply_mutations_keyed well_shaped_retire
  well_shaped_members well_shaped_error_routes : bpmn.

(** The dry run and the real fold agree: a batch the validation accepts leads
    to the very table the kernel's fold computes. *)
Lemma validate_mutations_fold t l t' :
  try_fold validate_mutation t l = Ok t' -> t' = apply_mutations t l.
Proof.
  revert t; induction l as [|m l IH]; intros t; cbn; [by intros [= ->]|].
  destruct m as [r|id|id]; cbn.
  - destruct (validate_concurrency_record_shape r); [apply IH | done].
  - destruct (t !! id); [apply IH | done].
  - destruct (t !! id); [apply IH | done].
Qed.

(** A batch is accepted when its inserts are well shaped and its retirements
    and removals name records present at their position. *)
Lemma validate_mutations_ok t l :
  (∀ l1 m l2, l = l1 ++ m :: l2 ->
     match m with
     | CMInsert r => well_shaped r
     | CMRetire id | CMRemove id => is_Some (apply_mutations t l1 !! id)
     end) ->
  validate_mutations t l = Ok tt.
Proof.
  unfold validate_mutations. revert t; induction l as [|m l IH]; intros t H; [done|].
  pose proof (H [] m l eq_refl) as Hm. cbn.
  assert (IH' : ∀ t', t' = apply_mutation t m ->
    match try_fold validate_mutation t' l with Ok _ => Ok tt | Err e => Err e end = Ok tt).
  { intros t' ->. apply IH. intros l1 m' l2 ->.
    by apply (H (m :: l1) m' l2). }
  destruct m as [r|id|id]; cbn in Hm |- *.
  - unfold well_shaped in Hm. rewrite Hm. by apply IH'.
  - destruct Hm as [r Hr]. rewrite Hr. apply IH'. cbn. by rewrite Hr.
  - destruct Hm as [r Hr]. rewrite Hr. by apply IH'.
Qed.

Lemma well_shaped_new_race id c :
  (count c <= arity c)%N -> well_shaped (set_rec_counters c (ConcurrencyRecord_new id KRace)).
Proof.
  intros Hc. unfold well_shaped, validate_concurrency_record_shape. cbn.
  destruct (N.ltb_spec (arity c) (count c)); [lia | done].
Qed.

Lemma well_shaped_new_barrier id c :
  (count c <= arity c)%N -> well_shaped (set_rec_counters c (ConcurrencyRecord_new id KBarrier)).
Proof.
  intros Hc. unfold well_shaped, validate_concurrency_record_shape. cbn.
  destruct (N.ltb_spec (arity c) (count c)); [lia | done].
Qed.
