(* ===== verification/Platform.v ===== *)
(** * The platform: code the workspace calls but does not contain

    BLAKE3 (crate [blake3]), the textual form of a UUID (crate [uuid]),
    [serde_json] parsing and printing, and the Unicode table behind [Debug] are
    operations of a class, so that every definition that uses them takes them
    as an argument.  The deterministic identifiers of
    [bpmn-lite-types/src/transition.rs] ([impl EffectId]) are defined from
    them. *)

From S2P Require Import Prelude RustStr Json Types.

Class Platform := {
  (** [blake3::hash]: a 32-byte digest. *)
  blake3 : list Byte.byte -> Hash;
  (** [Uuid]'s [Display]. *)
  show_uuid : Uuid -> string;
  (** [serde_json::from_str::<Value>] and [serde_json::to_string] of a [Value]. *)
  json_from_str : string -> option json;
  json_to_string : json -> string;
  (** The [Display] of the error [serde_json::from_str] returns. *)
  json_error : string -> string;
  (** The [Serialize]/[Deserialize] derive of [SessionStackState]. *)
  session_to_string : SessionStackState -> string;
  session_from_str : string -> option SessionStackState;
  (** A non-ASCII scalar value [Debug] prints as it is. *)
  unicode_plain : N -> bool;
}.

(** Documented behaviour the code relies on: a serialised session stack
    deserialises to itself. *)
Definition session_roundtrip `{Platform} (x : SessionStackState) : Prop :=
  session_from_str (session_to_string x) = Some x.

Section effect_ids.
Context {P : Platform}.

(** [EffectId::content_hash]. *)
Definition content_hash (bytes : list Byte.byte) : Hash := blake3 bytes.

(** [EffectId::from_hash]: the first sixteen bytes with the UUID version and
    variant bits forced. *)
Definition from_hash (h : Hash) : EffectId :=
  let bytes := take 16 (h ++ replicate 16 Byte.x00) in
  let b6 := default Byte.x00 (bytes !! 6) in
  let b8 := default Byte.x00 (bytes !! 8) in
  be_number
    (<[8 := byte_of (N.lor (N.land (Byte.to_N b8) 63) 128)]>
      (<[6 := byte_of (N.lor (N.land (Byte.to_N b6) 15) 128)]> bytes)).

Definition for_instruction_ordinal (instance_id fiber_id : Uuid) (pc ordinal : N) : EffectId :=
  from_hash (blake3 (as_bytes "bpmn-lite/effect/instruction/v1"
    ++ be_bytes 16 instance_id ++ be_bytes 16 fiber_id
    ++ be_bytes 4 pc ++ be_bytes 4 ordinal)).

Definition for_instruction (instance_id fiber_id : Uuid) (pc : N) : EffectId :=
  for_instruction_ordinal instance_id fiber_id pc 0.

Definition for_transition (instance_id : Uuid) (revision ordinal : N) : EffectId :=
  from_hash (blake3 (as_bytes "bpmn-lite/effect/transition/v1"
    ++ be_bytes 16 instance_id ++ be_bytes 8 revision ++ be_bytes 4 ordinal)).

Definition for_timer_fire (timer_id : EffectId) (fire_count : N) : EffectId :=
  from_hash (blake3 (as_bytes "bpmn-lite/effect/timer-fire/v1"
    ++ be_bytes 16 timer_id ++ be_bytes 4 fire_count)).

Definition for_command (command_id : Uuid) (revision ordinal : N) : EffectId :=
  from_hash (blake3 (as_bytes "bpmn-lite/kernel/id/v1"
    ++ be_bytes 16 command_id ++ be_bytes 8 revision ++ be_bytes 4 ordinal)).

(** [activation_command_id_for_runnable]. *)
Definition activation_command_id_for_runnable (instance_id : Uuid) (revision : N) : Uuid :=
  from_hash (blake3 (as_bytes "bpmn-lite/activation/runnable/v1"
    ++ be_bytes 16 instance_id ++ be_bytes 8 revision)).

(** [SessionStackState::to_rollback_snapshot] and its inverse. *)
Definition to_rollback_snapshot (s : SessionStackState) : string := session_to_string s.
Definition from_rollback_snapshot (s : string) : option SessionStackState := session_from_str s.

End effect_ids.

(** ** The byte encodings under the identifiers lose nothing *)

Lemma byte_of_to_N (n : N) : Byte.to_N (byte_of n) = (n mod 256)%N.
Proof.
  unfold byte_of. destruct (Byte.of_N (n mod 256)) as [b|] eqn:E.
  - by apply Byte.to_of_N.
  - apply Byte.of_N_None_iff in E. pose proof (N.mod_lt n 256). lia.
Qed.

Lemma length_le_bytes w n : length (le_bytes w n) = w.
Proof. revert n; induction w as [|w IH]; intros n; cbn; [done | by rewrite IH]. Qed.

Lemma length_be_bytes w n : length (be_bytes w n) = w.
Proof. unfold be_bytes. by rewrite length_reverse, length_le_bytes. Qed.

Lemma le_number_le_bytes w n :
  (n < 256 ^ N.of_nat w)%N -> le_number (le_bytes w n) = n.
Proof.
  revert n; induction w as [|w IH]; intros n Hn.
  - cbn in *. lia.
  - cbn [le_bytes]. change (le_number (byte_of n :: le_bytes w (n / 256)))
      with (Byte.to_N (byte_of n) + 256 * le_number (le_bytes w (n / 256)))%N.
    rewrite IH, byte_of_to_N.
    + rewrite N.add_comm. symmetry. apply N.div_mod. lia.
    + rewrite Nat2N.inj_succ, N.pow_succ_r' in Hn.
      apply N.Div0.div_lt_upper_bound; lia.
Qed.

Lemma le_bytes_inj w m n :
  (m < 256 ^ N.of_nat w)%N -> (n < 256 ^ N.of_nat w)%N ->
  le_bytes w m = le_bytes w n -> m = n.
Proof.
  intros Hm Hn E. rewrite <-(le_number_le_bytes w m Hm), <-(le_number_le_bytes w n Hn).
  by rewrite E.
Qed.

Lemma be_bytes_inj w m n :
  (m < 256 ^ N.of_nat w)%N -> (n < 256 ^ N.of_nat w)%N ->
  be_bytes w m = be_bytes w n -> m = n.
Proof.
  intros Hm Hn E. unfold be_bytes in E. apply (inj reverse) in E. by eapply le_bytes_inj.
Qed.

(** The hashed byte string of [for_command] determines its three arguments:
    two identifiers can only collide if BLAKE3 (truncated) does. *)
Lemma for_command_preimage_inj c c' r r' o o' :
  (c < 2 ^ 128)%N -> (c' < 2 ^ 128)%N -> is_u64 r -> is_u64 r' -> is_u32 o -> is_u32 o' ->
  as_bytes "bpmn-lite/kernel/id/v1" ++ be_bytes 16 c ++ be_bytes 8 r ++ be_bytes 4 o =
  as_bytes "bpmn-lite/kernel/id/v1" ++ be_bytes 16 c' ++ be_bytes 8 r' ++ be_bytes 4 o' ->
  c = c' ∧ r = r' ∧ o = o'.
Proof.
  unfold is_u64, is_u32, u64_max, u32_max. intros Hc Hc' Hr Hr' Ho Ho' E.
  apply app_inv_head in E.
  apply app_inj_1 in E as [E1 E]; [|by rewrite !length_be_bytes].
  apply app_inj_1 in E as [E2 E3]; [|by rewrite !length_be_bytes].
  split_and!; eapply be_bytes_inj; try eassumption;
    match goal with |- (_ < ?x)%N => let y := eval vm_compute in x in change x with y end; lia.
Qed.
