(* ===== verification/Effects.v ===== *)
(** * Durable effects, timers, retry and failure budgets

    The effect vocabulary of [bpmn-lite-types/src/transition.rs]: timer kinds,
    repeat specifications, durable effects and their mutations, claimed timers,
    and the two deterministic policies that bound repetition, [RetryPolicy]
    (per effect, with backoff and jitter) and [ScopeFailureBudget] (per guard
    scope). *)

From S2P Require Import Prelude RustStr Json Types Platform.

(** ** Timers and effects *)

Inductive TimerKind :=
| TKWait
| TKRace (race_id arm_index resume_at : N) (interrupting : bool)
    (job_key boundary_element_id : option string) (arm_count : N)
| TKV2Race (record_id : RecordId) (resume_at : N)
| TKV2GuardTimer (record_id : RecordId).

Record TimerRepeatSpec := mkRepeat {
  interval_ms : N;
  remaining : N;
  fired_count : N;
}.

Inductive DurableEffect :=
| ScheduleTimer (timer_id : EffectId) (fiber_id : Uuid) (due_at : N) (kind : TimerKind)
    (repeat_spec : option TimerRepeatSpec)
| Invoke (effect_id : EffectId) (fiber_id : Uuid) (pc : N) (operation : string)
    (template_id : Hash) (input : list Byte.byte) (idempotency_key : string).

(** [DurableEffect::effect_id]. *)
Definition durable_effect_id (e : DurableEffect) : EffectId :=
  match e with
  | ScheduleTimer timer_id _ _ _ _ => timer_id
  | Invoke effect_id _ _ _ _ _ _ => effect_id
  end.

Inductive EffectTerminalState := ETCompleted | ETFailed.

(** [EffectMutation::terminal]. *)
Record EffectMutation := {
  em_effect_id : EffectId;
  em_terminal_state : EffectTerminalState;
}.

Record ClaimedTimer := {
  ct_tenant_id : string;
  ct_timer_id : EffectId;
  ct_instance_id : Uuid;
  ct_fiber_id : Uuid;
  ct_due_at : N;
  ct_kind : TimerKind;
  ct_repeat_spec : option TimerRepeatSpec;
  ct_claim_token : Uuid;
}.

Inductive TimerMutation :=
| TMConsume (timer_id : EffectId) (claim_token : Uuid)
| TMRearm (timer_id : EffectId) (claim_token : Uuid) (due_at : N) (repeat_spec : TimerRepeatSpec)
| TMCancelRace (fiber_id : Uuid) (race_id : N) (except_ : EffectId)
| TMV2CancelRace (fiber_id : Uuid) (record_id : RecordId) (except_ : EffectId).

(** ** Retry policy *)

Record RetryPolicy := {
  rp_version : N;
  max_attempts : N;
  base_delay_ms : N;
  max_delay_ms : N;
}.

Inductive RetryDecision :=
| RetryAt (attempt due_at : N)
| RetryExhausted
| RetryTerminal.

(** [RetryPolicy::new]. *)
Definition RetryPolicy_new (version attempts base cap : N) : Result string RetryPolicy :=
  if (version =? 0)%N || (attempts =? 0)%N || (base =? 0)%N || (cap <? base)%N
  then Err "invalid retry policy bounds"
  else Ok {| rp_version := version; max_attempts := attempts;
             base_delay_ms := base; max_delay_ms := cap |}.

(** [RetryPolicy::conservative_default]. *)
Definition RetryPolicy_conservative_default : RetryPolicy :=
  {| rp_version := 1; max_attempts := 5; base_delay_ms := 1000; max_delay_ms := 60000 |}.

Section decision.
Context {P : Platform}.

(** The capped exponential backoff: [base * 2^min(attempt, 62)], saturating at
    [u64::MAX], then capped at [max_delay_ms]. *)
Definition retry_delay (p : RetryPolicy) (attempt : N) : N :=
  N.min (sat_mul u64_max (base_delay_ms p) (N.shiftl 1 (N.min attempt 62))) (max_delay_ms p).

(** [RetryPolicy::decision]. *)
Definition retry_decision (p : RetryPolicy) (attempt : N) (retry_hint : option N)
    (error_class : ErrorClass) (logical_time : N) (command_id : Uuid) : RetryDecision :=
  match error_class with
  | Transient =>
      let next_attempt := sat_add u32_max attempt 1 in
      if (max_attempts p <? next_attempt)%N then RetryExhausted
      else
        let delay := retry_delay p attempt in
        let hash := content_hash (be_bytes 16 command_id) in
        let jitter_seed := le_number (take 8 hash) in
        let jitter_bound := (delay / 4)%N in
        let jitter := if (jitter_bound =? 0)%N then 0%N else (jitter_seed mod jitter_bound)%N in
        let computed_due := sat_add u64_max (sat_add u64_max logical_time delay) jitter in
        RetryAt next_attempt
          (match retry_hint with
           | None => computed_due
           | Some hint => N.max hint computed_due
           end)
  | ContractViolation | BusinessRejection _ => RetryTerminal
  end.
End decision.

(** ** Scope failure budget *)

Record ScopeFailureBudget := {
  sfb_version : N;
  max_failures : N;
}.

Inductive ScopeFailureDecision :=
| ScopeContinue (n : N)
| ScopeExhausted (n : N).

(** [ScopeFailureBudget::new]. *)
Definition ScopeFailureBudget_new (version failures : N) : Result string ScopeFailureBudget :=
  if (version =? 0)%N || (failures =? 0)%N
  then Err "invalid scope failure budget bounds"
  else Ok {| sfb_version := version; max_failures := failures |}.

(** [ScopeFailureBudget::conservative_default]. *)
Definition ScopeFailureBudget_conservative_default : ScopeFailureBudget :=
  {| sfb_version := 1; max_failures := 5 |}.

(** [ScopeFailureBudget::decision]. *)
Definition scope_decision (b : ScopeFailureBudget) (prior_failures : N) : ScopeFailureDecision :=
  let next := sat_add u32_max prior_failures 1 in
  if (max_failures b <=? next)%N then ScopeExhausted next else ScopeContinue next.

(** Counting failures of one scope as the store does: each failure is judged
    against the count persisted by the previous one, until the budget is
    exhausted.  [None] when the failures stop before that. *)
Fixpoint scope_failures (b : ScopeFailureBudget) (failures : nat) (persisted : N) : option N :=
  match failures with
  | O => None
  | S k =>
      match scope_decision b persisted with
      | ScopeExhausted n => Some n
      | ScopeContinue n => scope_failures b k n
      end
  end.

(** ** Facts *)

Section retry_facts.
Context {P : Platform}.

(** A policy that [RetryPolicy::new] admits. *)
Definition policy_valid (p : RetryPolicy) : Prop :=
  (0 < rp_version p ∧ 0 < max_attempts p ∧ 0 < base_delay_ms p
   ∧ base_delay_ms p <= max_delay_ms p ∧ max_delay_ms p <= u64_max)%N.

Lemma retry_delay_bounds p attempt :
  policy_valid p ->
  (base_delay_ms p <= retry_delay p attempt <= max_delay_ms p)%N.
Proof.
  intros (_ & _ & Hb & Hle & Hcap). unfold retry_delay, sat_mul. split; [|lia].
  assert (1 <= N.shiftl 1 (N.min attempt 62))%N.
  { rewrite N.shiftl_1_l. pose proof (N.pow_nonzero 2 (N.min attempt 62)). lia. }
  assert (base_delay_ms p <= base_delay_ms p * N.shiftl 1 (N.min attempt 62))%N by nia.
  lia.
Qed.

(** The delays do not shrink from one attempt to the next. *)
Lemma retry_delay_mono p a b :
  (a <= b)%N -> (retry_delay p a <= retry_delay p b)%N.
Proof.
  intros Hab. unfold retry_delay, sat_mul. rewrite !N.shiftl_1_l.
  assert (2 ^ N.min a 62 <= 2 ^ N.min b 62)%N by (apply N.pow_le_mono_r; lia).
  assert (base_delay_ms p * 2 ^ N.min a 62 <= base_delay_ms p * 2 ^ N.min b 62)%N by nia.
  lia.
Qed.

(** Jitter stays under a quarter of the delay. *)
Lemma jitter_bound seed delay :
  ((if (delay / 4 =? 0)%N then 0 else seed mod (delay / 4)) <= delay / 4)%N.
Proof.
  destruct (N.eqb_spec (delay / 4) 0); [lia|].
  apply N.lt_le_incl, N.mod_lt. done.
Qed.
End retry_facts.
