(* ===== verification/Transition.v ===== *)
(** * Commands, snapshots, transitions and the executable artifact

    The input and output of the pure kernel, from
    [bpmn-lite-types/src/transition.rs], [persistence.rs] and [artifact.rs]:
    commands, the runtime snapshot, the mutation set [Transition] with its
    builder, the persisted envelopes and journal records, and the verified
    artifact (instructions, side tables, limits). *)

From S2P Require Import Prelude RustStr Json Types Concurrency Platform Effects.

(** ** Commands *)

Record JobRetry := {
  jr_worker_id : string;
  jr_claim_token : string;
  jr_not_before_ms : Z;
}.

Inductive EffectOutput :=
| EOJob (completion : JobCompletion)
| EOFfi (fiber_id : Uuid) (pc : N) (output_payload : list Byte.byte)
    (new_domain_payload : option string) (no_match : bool)
| EOJson (j : json).

Inductive Command :=
| CTick (fiber_id : option Uuid)
| CEffectCompleted (effect_id : EffectId) (output : EffectOutput)
| CEffectFailed (effect_id : EffectId) (job_key : string) (error_class : ErrorClass)
    (message : string) (retry : option JobRetry) (attempt : N)
| CTimerFired (timer : ClaimedTimer) (fired_at : N)
| CMessageDelivered (message_id name correlation_key : string) (payload : list Byte.byte)
    (payload_hash : option Hash) (expires_at : Timestamp)
| CCancel (reason : string)
| CTerminate
| CResolveIncident (incident_id : Uuid) (resolution : string)
| CStartChildResult (idempotency_key : string) (child_instance_id : Uuid) (accepted : bool)
| CJobClaimed (job_key worker_id : string) (claim_expires_at : Timestamp)
| CV2TriggerGuard (record_id : RecordId).

(** ** Snapshots *)

Record Snapshot := mkSnapshot {
  sn_instance : ProcessInstance;
  sn_fibers : gmap N Fiber;
  sn_join_counts : gmap N N;
  sn_dedupe : gmap string JobCompletion;
  sn_buffered_messages : list ClaimedBufferedMessage;
  sn_incidents : gmap N Incident;
  sn_table : gmap N ConcurrencyRecord;
  sn_pending_effects : gset N;
}.

(** [Snapshot::new] and the [with_*] setters. *)
Definition Snapshot_new (i : ProcessInstance) (fibers : list Fiber) : Snapshot :=
  mkSnapshot i (collect_by fiber_id fibers) ∅ ∅ [] ∅ ∅ ∅.
Definition with_join_counts (j : gmap N N) (s : Snapshot) : Snapshot :=
  mkSnapshot (sn_instance s) (sn_fibers s) j (sn_dedupe s) (sn_buffered_messages s)
    (sn_incidents s) (sn_table s) (sn_pending_effects s).
Definition with_dedupe (d : gmap string JobCompletion) (s : Snapshot) : Snapshot :=
  mkSnapshot (sn_instance s) (sn_fibers s) (sn_join_counts s) d (sn_buffered_messages s)
    (sn_incidents s) (sn_table s) (sn_pending_effects s).
Definition with_buffered_messages (l : list ClaimedBufferedMessage) (s : Snapshot) : Snapshot :=
  mkSnapshot (sn_instance s) (sn_fibers s) (sn_join_counts s) (sn_dedupe s) l
    (sn_incidents s) (sn_table s) (sn_pending_effects s).
Definition with_incidents (l : list Incident) (s : Snapshot) : Snapshot :=
  mkSnapshot (sn_instance s) (sn_fibers s) (sn_join_counts s) (sn_dedupe s)
    (sn_buffered_messages s) (collect_by incident_id l) (sn_table s) (sn_pending_effects s).
Definition with_concurrency_table (t : gmap N ConcurrencyRecord) (s : Snapshot) : Snapshot :=
  mkSnapshot (sn_instance s) (sn_fibers s) (sn_join_counts s) (sn_dedupe s)
    (sn_buffered_messages s) (sn_incidents s) t (sn_pending_effects s).
Definition with_pending_effects (e : gset N) (s : Snapshot) : Snapshot :=
  mkSnapshot (sn_instance s) (sn_fibers s) (sn_join_counts s) (sn_dedupe s)
    (sn_buffered_messages s) (sn_incidents s) (sn_table s) e.

(** ** Mutations of a transition *)

Record DedupeWrite := { dw_key : string; dw_completion : JobCompletion }.

Inductive JoinMutation :=
| JMArrive (join_id : JoinId)
| JMReset (join_id : JoinId).

Inductive BufferedMessageMutation :=
| BMInsert (m : BufferedMessage)
| BMDeliver (m : BufferedMessage)
| BMRelease (m : ClaimedBufferedMessage)
| BMConsume (m : ClaimedBufferedMessage).

Inductive JobMutation :=
| JMAckClaimed (job_key worker_id claim_token : string)
| JMRetryClaimed (job_key worker_id claim_token error_class error_message : string)
    (not_before_ms : Z)
| JMDeadLetterClaimed (job_key worker_id claim_token error_class error_message : string)
    (incident_id : Uuid)
| JMCancel (job_key : string).

Record PendingInvocationWrite := {
  piw_callout_id : Uuid;
  piw_process_instance_id : Uuid;
  piw_node_id : string;
  piw_target_domain : string;
  piw_verb_id : string;
  piw_idempotency_key : Uuid;
  piw_execution_id : option Uuid;
  piw_submitted_at : Timestamp;
  piw_ack_received_at : option Timestamp;
  piw_timeout_at : option Timestamp;
}.

Record OutboxWrite := {
  ow_id : Uuid;
  ow_target_domain : string;
  ow_target_endpoint : string;
  ow_payload : list Byte.byte;
  ow_idempotency_key : Uuid;
  ow_callout_id : Uuid;
}.

Record BusSubmissionAckMutation := {
  bsa_outbox_id : Uuid;
  bsa_callout_id : Uuid;
  bsa_execution_id : Uuid;
  bsa_dispatch_claim_token : Uuid;
}.

Record ChildStart := {
  cs_instance : ProcessInstance;
  cs_root_fiber : Fiber;
  cs_start_event : RuntimeEvent;
  cs_idempotency_key : string;
}.

Record StartCommand := {
  sc_schema_version : N;
  sc_tenant_id : string;
  sc_instance_id : Uuid;
  sc_artifact_hash : Hash;
  sc_process_key : string;
  sc_entry_id : Uuid;
  sc_runbook_id : Uuid;
  sc_correlation_id : string;
  sc_idempotency_key : Uuid;
  sc_initial_payload : string;
  sc_initial_payload_hash : Hash;
  sc_session_stack : SessionStackState;
  sc_logical_time : Timestamp;
}.

(** [TerminalCleanup::new] and its [Default]. *)
Record TerminalCleanup := mkCleanup {
  delete_all_fibers : bool;
  delete_all_joins : bool;
  cancel_jobs : bool;
}.
Definition TerminalCleanup_default : TerminalCleanup := mkCleanup false false false.

(** ** Command envelopes *)

Inductive JournalCommand :=
| JKernel (c : Command)
| JStart (s : StartCommand)
| JAdministrative (kind : string).

(** [JournalCommand::command_type]. *)
Definition command_type (j : JournalCommand) : string :=
  match j with
  | JKernel (CTick _) => "tick"
  | JKernel (CEffectCompleted _ _) => "effect_completed"
  | JKernel (CEffectFailed _ _ _ _ _ _) => "effect_failed"
  | JKernel (CTimerFired _ _) => "timer_fired"
  | JKernel (CMessageDelivered _ _ _ _ _ _) => "message_delivered"
  | JKernel (CCancel _) => "cancel"
  | JKernel CTerminate => "terminate"
  | JKernel (CResolveIncident _ _) => "resolve_incident"
  | JKernel (CStartChildResult _ _ _) => "start_child_result"
  | JKernel (CJobClaimed _ _ _) => "job_claimed"
  | JKernel (CV2TriggerGuard _) => "v2_trigger_guard"
  | JStart _ => "start"
  | JAdministrative _ => "administrative"
  end.

Definition COMMAND_SCHEMA_VERSION : N := 1.
Definition EVENT_SCHEMA_VERSION : N := 1.
Definition SNAPSHOT_SCHEMA_VERSION : N := 1.
Definition JOURNAL_SCHEMA_VERSION : N := 1.

Record CommandEnvelope := mkCommandEnvelope {
  ce_schema_version : N;
  ce_command_id : Uuid;
  ce_logical_time : Timestamp;
  ce_command : JournalCommand;
}.

(** [CommandEnvelope::new]. *)
Definition CommandEnvelope_new (id : Uuid) (t : Timestamp) (c : JournalCommand) : CommandEnvelope :=
  mkCommandEnvelope COMMAND_SCHEMA_VERSION id t c.

(** ** Transitions *)

Record Transition := mkTransition {
  next_snapshot : ProcessInstance;
  fibers_upsert : list Fiber;
  fibers_delete : list Uuid;
  events : list RuntimeEvent;
  effects : list DurableEffect;
  effect_mutations : list EffectMutation;
  timer_mutations : list TimerMutation;
  jobs_enqueue : list JobActivation;
  jobs_ack : list string;
  job_mutations : list JobMutation;
  tr_dedupe : list DedupeWrite;
  incidents : list Incident;
  join_mutations : list JoinMutation;
  buffered_messages : list BufferedMessageMutation;
  pending_invocations : list PendingInvocationWrite;
  pending_take : list Uuid;
  outbox : list OutboxWrite;
  bus_submission_acks : list BusSubmissionAckMutation;
  state_override : option ProcessState;
  child_starts : list ChildStart;
  terminal_cleanup : TerminalCleanup;
  start_dedupe : option StartCommand;
  command_envelope : option CommandEnvelope;
  concurrency_mutations : list ConcurrencyMutation;
  control_stack_deltas : list ControlStackDelta;
}.

(** [TransitionBuilder]: a builder is the transition under construction. *)
Definition builder_new (i : ProcessInstance) : Transition :=
  mkTransition i [] [] [] [] [] [] [] [] [] [] [] [] [] [] [] [] [] None []
    TerminalCleanup_default None None [] [].

Definition b_upsert_fiber (f : Fiber) (t : Transition) : Transition :=
  mkTransition (next_snapshot t) (fibers_upsert t ++ [f]) (fibers_delete t) (events t) (effects t)
    (effect_mutations t) (timer_mutations t) (jobs_enqueue t) (jobs_ack t) (job_mutations t)
    (tr_dedupe t) (incidents t) (join_mutations t) (buffered_messages t) (pending_invocations t)
    (pending_take t) (outbox t) (bus_submission_acks t) (state_override t) (child_starts t)
    (terminal_cleanup t) (start_dedupe t) (command_envelope t) (concurrency_mutations t)
    (control_stack_deltas t).
Definition b_delete_fiber (f : Uuid) (t : Transition) : Transition :=
  mkTransition (next_snapshot t) (fibers_upsert t) (fibers_delete t ++ [f]) (events t) (effects t)
    (effect_mutations t) (timer_mutations t) (jobs_enqueue t) (jobs_ack t) (job_mutations t)
    (tr_dedupe t) (incidents t) (join_mutations t) (buffered_messages t) (pending_invocations t)
    (pending_take t) (outbox t) (bus_submission_acks t) (state_override t) (child_starts t)
    (terminal_cleanup t) (start_dedupe t) (command_envelope t) (concurrency_mutations t)
    (control_stack_deltas t).
Definition b_event (e : RuntimeEvent) (t : Transition) : Transition :=
  mkTransition (next_snapshot t) (fibers_upsert t) (fibers_delete t) (events t ++ [e]) (effects t)
    (effect_mutations t) (timer_mutations t) (jobs_enqueue t) (jobs_ack t) (job_mutations t)
    (tr_dedupe t) (incidents t) (join_mutations t) (buffered_messages t) (pending_invocations t)
    (pending_take t) (outbox t) (bus_submission_acks t) (state_override t) (child_starts t)
    (terminal_cleanup t) (start_dedupe t) (command_envelope t) (concurrency_mutations t)
    (control_stack_deltas t).
Definition b_effect (e : DurableEffect) (t : Transition) : Transition :=
  mkTransition (next_snapshot t) (fibers_upsert t) (fibers_delete t) (events t) (effects t ++ [e])
    (effect_mutations t) (timer_mutations t) (jobs_enqueue t) (jobs_ack t) (job_mutations t)
    (tr_dedupe t) (incidents t) (join_mutations t) (buffered_messages t) (pending_invocations t)
    (pending_take t) (outbox t) (bus_submission_acks t) (state_override t) (child_starts t)
    (terminal_cleanup t) (start_dedupe t) (command_envelope t) (concurrency_mutations t)
    (control_stack_deltas t).
Definition b_effect_mutation (m : EffectMutation) (t : Transition) : Transition :=
  mkTransition (next_snapshot t) (fibers_upsert t) (fibers_delete t) (events t) (effects t)
    (effect_mutations t ++ [m]) (timer_mutations t) (jobs_enqueue t) (jobs_ack t) (job_mutations t)
    (tr_dedupe t) (incidents t) (join_mutations t) (buffered_messages t) (pending_invocations t)
    (pending_take t) (outbox t) (bus_submission_acks t) (state_override t) (child_starts t)
    (terminal_cleanup t) (start_dedupe t) (command_envelope t) (concurrency_mutations t)
    (control_stack_deltas t).
Definition b_timer_mutation (m : TimerMutation) (t : Transition) : Transition :=
  mkTransition (next_snapshot t) (fibers_upsert t) (fibers_delete t) (events t) (effects t)
    (effect_mutations t) (timer_mutations t ++ [m]) (jobs_enqueue t) (jobs_ack t) (job_mutations t)
    (tr_dedupe t) (incidents t) (join_mutations t) (buffered_messages t) (pending_invocations t)
    (pending_take t) (outbox t) (bus_submission_acks t) (state_override t) (child_starts t)
    (terminal_cleanup t) (start_dedupe t) (command_envelope t) (concurrency_mutations t)
    (control_stack_deltas t).
Definition b_enqueue_job (j : JobActivation) (t : Transition) : Transition :=
  mkTransition (next_snapshot t) (fibers_upsert t) (fibers_delete t) (events t) (effects t)
    (effect_mutations t) (timer_mutations t) (jobs_enqueue t ++ [j]) (jobs_ack t) (job_mutations t)
    (tr_dedupe t) (incidents t) (join_mutations t) (buffered_messages t) (pending_invocations t)
    (pending_take t) (outbox t) (bus_submission_acks t) (state_override t) (child_starts t)
    (terminal_cleanup t) (start_dedupe t) (command_envelope t) (concurrency_mutations t)
    (control_stack_deltas t).
Definition b_ack_job (k : string) (t : Transition) : Transition :=
  mkTransition (next_snapshot t) (fibers_upsert t) (fibers_delete t) (events t) (effects t)
    (effect_mutations t) (timer_mutations t) (jobs_enqueue t) (jobs_ack t ++ [k]) (job_mutations t)
    (tr_dedupe t) (incidents t) (join_mutations t) (buffered_messages t) (pending_invocations t)
    (pending_take t) (outbox t) (bus_submission_acks t) (state_override t) (child_starts t)
    (terminal_cleanup t) (start_dedupe t) (command_envelope t) (concurrency_mutations t)
    (control_stack_deltas t).
Definition b_job_mutation (m : JobMutation) (t : Transition) : Transition :=
  mkTransition (next_snapshot t) (fibers_upsert t) (fibers_delete t) (events t) (effects t)
    (effect_mutations t) (timer_mutations t) (jobs_enqueue t) (jobs_ack t) (job_mutations t ++ [m])
    (tr_dedupe t) (incidents t) (join_mutations t) (buffered_messages t) (pending_invocations t)
    (pending_take t) (outbox t) (bus_submission_acks t) (state_override t) (child_starts t)
    (terminal_cleanup t) (start_dedupe t) (command_envelope t) (concurrency_mutations t)
    (control_stack_deltas t).
Definition b_dedupe (d : DedupeWrite) (t : Transition) : Transition :=
  mkTransition (next_snapshot t) (fibers_upsert t) (fibers_delete t) (events t) (effects t)
    (effect_mutations t) (timer_mutations t) (jobs_enqueue t) (jobs_ack t) (job_mutations t)
    (tr_dedupe t ++ [d]) (incidents t) (join_mutations t) (buffered_messages t) (pending_invocations t)
    (pending_take t) (outbox t) (bus_submission_acks t) (state_override t) (child_starts t)
    (terminal_cleanup t) (start_dedupe t) (command_envelope t) (concurrency_mutations t)
    (control_stack_deltas t).
Definition b_incident (i : Incident) (t : Transition) : Transition :=
  mkTransition (next_snapshot t) (fibers_upsert t) (fibers_delete t) (events t) (effects t)
    (effect_mutations t) (timer_mutations t) (jobs_enqueue t) (jobs_ack t) (job_mutations t)
    (tr_dedupe t) (incidents t ++ [i]) (join_mutations t) (buffered_messages t) (pending_invocations t)
    (pending_take t) (outbox t) (bus_submission_acks t) (state_override t) (child_starts t)
    (terminal_cleanup t) (start_dedupe t) (command_envelope t) (concurrency_mutations t)
    (control_stack_deltas t).
Definition b_join_mutation (m : JoinMutation) (t : Transition) : Transition :=
  mkTransition (next_snapshot t) (fibers_upsert t) (fibers_delete t) (events t) (effects t)
    (effect_mutations t) (timer_mutations t) (jobs_enqueue t) (jobs_ack t) (job_mutations t)
    (tr_dedupe t) (incidents t) (join_mutations t ++ [m]) (buffered_messages t) (pending_invocations t)
    (pending_take t) (outbox t) (bus_submission_acks t) (state_override t) (child_starts t)
    (terminal_cleanup t) (start_dedupe t) (command_envelope t) (concurrency_mutations t)
    (control_stack_deltas t).
Definition b_buffered_message (m : BufferedMessageMutation) (t : Transition) : Transition :=
  mkTransition (next_snapshot t) (fibers_upsert t) (fibers_delete t) (events t) (effects t)
    (effect_mutations t) (timer_mutations t) (jobs_enqueue t) (jobs_ack t) (job_mutations t)
    (tr_dedupe t) (incidents t) (join_mutations t) (buffered_messages t ++ [m]) (pending_invocations t)
    (pending_take t) (outbox t) (bus_submission_acks t) (state_override t) (child_starts t)
    (terminal_cleanup t) (start_dedupe t) (command_envelope t) (concurrency_mutations t)
    (control_stack_deltas t).
Definition b_terminal_cleanup (c : TerminalCleanup) (t : Transition) : Transition :=
  mkTransition (next_snapshot t) (fibers_upsert t) (fibers_delete t) (events t) (effects t)
    (effect_mutations t) (timer_mutations t) (jobs_enqueue t) (jobs_ack t) (job_mutations t)
    (tr_dedupe t) (incidents t) (join_mutations t) (buffered_messages t) (pending_invocations t)
    (pending_take t) (outbox t) (bus_submission_acks t) (state_override t) (child_starts t)
    c (start_dedupe t) (command_envelope t) (concurrency_mutations t)
    (control_stack_deltas t).
Definition b_concurrency_mutation (m : ConcurrencyMutation) (t : Transition) : Transition :=
  mkTransition (next_snapshot t) (fibers_upsert t) (fibers_delete t) (events t) (effects t)
    (effect_mutations t) (timer_mutations t) (jobs_enqueue t) (jobs_ack t) (job_mutations t)
    (tr_dedupe t) (incidents t) (join_mutations t) (buffered_messages t) (pending_invocations t)
    (pending_take t) (outbox t) (bus_submission_acks t) (state_override t) (child_starts t)
    (terminal_cleanup t) (start_dedupe t) (command_envelope t) (concurrency_mutations t ++ [m])
    (control_stack_deltas t).
Definition b_control_stack_delta (d : ControlStackDelta) (t : Transition) : Transition :=
  mkTransition (next_snapshot t) (fibers_upsert t) (fibers_delete t) (events t) (effects t)
    (effect_mutations t) (timer_mutations t) (jobs_enqueue t) (jobs_ack t) (job_mutations t)
    (tr_dedupe t) (incidents t) (join_mutations t) (buffered_messages t) (pending_invocations t)
    (pending_take t) (outbox t) (bus_submission_acks t) (state_override t) (child_starts t)
    (terminal_cleanup t) (start_dedupe t) (command_envelope t) (concurrency_mutations t)
    (control_stack_deltas t ++ [d]).
(** [Transition::with_command_envelope]. *)
Definition with_command_envelope (c : CommandEnvelope) (t : Transition) : Transition :=
  mkTransition (next_snapshot t) (fibers_upsert t) (fibers_delete t) (events t) (effects t)
    (effect_mutations t) (timer_mutations t) (jobs_enqueue t) (jobs_ack t) (job_mutations t)
    (tr_dedupe t) (incidents t) (join_mutations t) (buffered_messages t) (pending_invocations t)
    (pending_take t) (outbox t) (bus_submission_acks t) (state_override t) (child_starts t)
    (terminal_cleanup t) (start_dedupe t) (Some c) (concurrency_mutations t)
    (control_stack_deltas t).

(** ** The executable artifact *)

Record VerifiedLimits := {
  max_stack : N;
  max_fibers : N;
  max_steps : N;
  max_control_depth : N;
  max_barriers : N;
  max_records : N;
}.

(** [ArtifactMetadata]: the side tables a transition or its policies read. *)
Record ArtifactMetadata := {
  debug_map : gmap N string;
  join_plan : gmap N JoinPlanEntry;
  wait_plan : gmap N WaitPlanEntry;
  message_name_map : gmap N string;
  task_manifest : list string;
  ffi_task_decls : gmap N FfiTaskDecl;
  v2_ffi_task_decls : gmap N FfiTaskDecl;
  v2_corr_sources : gmap N BindingSource;
  v2_guard_budgets : gmap N ScopeFailureBudget;
  default_guard_budget : ScopeFailureBudget;
  default_retry_policy : RetryPolicy;
}.

Definition CURRENT_ARTIFACT_ABI : N := 1.

(** [ExecutableWorkflow] with its [ArtifactEnvelope]. *)
Record ExecutableWorkflow := {
  wf_abi_version : N;
  wf_compiler_version : string;
  wf_instructions : list Instr;
  wf_metadata : ArtifactMetadata;
  wf_limits : VerifiedLimits;
  wf_hash : Hash;
}.

(** ** Persisted state *)

Record PersistedSnapshotState := mkPersisted {
  ps_instance : ProcessInstance;
  ps_fibers : gmap N Fiber;
  ps_join_counts : gmap N N;
  ps_incidents : gmap N Incident;
  ps_table : gmap N ConcurrencyRecord;
  ps_pending_effects : gset N;
}.

(** [PersistedSnapshotState::new]: the integrity hash is dropped, the maps are
    keyed by the values' own ids. *)
Definition PersistedSnapshotState_new (i : ProcessInstance) (fibers : list Fiber)
    (join_counts : gmap N N) (incs : list Incident) (t : gmap N ConcurrencyRecord)
    (pending : gset N) : PersistedSnapshotState :=
  mkPersisted (set_integrity_hash None i) (collect_by fiber_id fibers) join_counts
    (collect_by incident_id incs) t pending.

(** [PersistedSnapshotState::to_runtime_snapshot]. *)
Definition to_runtime_snapshot (s : PersistedSnapshotState) : Snapshot :=
  with_pending_effects (ps_pending_effects s)
    (with_concurrency_table (ps_table s)
      (with_incidents (btree_values (ps_incidents s))
        (with_join_counts (ps_join_counts s)
          (Snapshot_new (ps_instance s) (btree_values (ps_fibers s)))))).

Record SnapshotEnvelope := mkSnapshotEnvelope {
  se_schema_version : N;
  se_artifact_abi : N;
  se_artifact_hash : Hash;
  se_revision : N;
  se_state : PersistedSnapshotState;
}.

(** [SnapshotEnvelope::new]. *)
Definition SnapshotEnvelope_new (abi : N) (h : Hash) (rev : N) (s : PersistedSnapshotState)
  : SnapshotEnvelope :=
  mkSnapshotEnvelope SNAPSHOT_SCHEMA_VERSION abi h rev s.

(** [EventEnvelope]/[JournalRecord]. *)
Record EventEnvelope := { ee_schema_version : N; ee_event : RuntimeEvent }.

Record JournalRecord := {
  jr_schema_version : N;
  jr_command : CommandEnvelope;
  jr_prior_revision : Z;
  jr_new_revision : N;
  jr_artifact_hash : Hash;
  jr_prior_state_hash : Hash;
  jr_state_hash : Hash;
  jr_event_envelopes : list EventEnvelope;
  jr_effect_ids : list EffectId;
}.

Inductive PersistenceEnvelopeError :=
| UnsupportedVersion (envelope : string) (version : N)
| Serialization (reason : string).

(** ** Facts *)

(** Loading a persisted state and collecting its maps again changes nothing
    when they are keyed by id. *)
Lemma to_runtime_snapshot_fibers s :
  (∀ k f, ps_fibers s !! k = Some f -> fiber_id f = k) ->
  sn_fibers (to_runtime_snapshot s) = ps_fibers s.
Proof. intros H. cbn. by apply collect_by_values. Qed.

Lemma to_runtime_snapshot_incidents s :
  (∀ k i, ps_incidents s !! k = Some i -> incident_id i = k) ->
  sn_incidents (to_runtime_snapshot s) = ps_incidents s.
Proof. intros H. cbn. by apply collect_by_values. Qed.
