(* ===== verification/Verifier.v ===== *)
(** * The artifact verifier

    [artifact.rs] and [v2_verifier.rs] of [bpmn-lite-types]: the admission of a
    program ([verify_program]), with its operand-height walk, the control-stack
    walk (V-1 to V-5, V-7, V-8, V-10) and terminal reachability (V-11).

    Instruction addresses are [N]; [usize]-indexed vectors over the program are
    finite maps on its addresses.  The format arguments of an error message are
    the fields of a [Reason]. *)

From S2P Require Import Prelude Dataflow RustStr Json Types Concurrency Platform Effects Transition.

(** ** Errors *)

Inductive ScopeKind := SKGuard | SKGuardN | SKGuardR | SKRace | SKBarrier.
Global Instance ScopeKind_eq_dec : EqDecision ScopeKind.
Proof. solve_decision. Defined.

(** [ScopeKind::word]. *)
Definition word (k : ScopeKind) : string :=
  match k with
  | SKGuard => "GUARD>" | SKGuardN => "GUARD-N>" | SKGuardR => "GUARD-R>"
  | SKRace => "RACE{" | SKBarrier => "FORK"
  end.

Record ScopeToken := mkToken { tok_kind : ScopeKind; tok_opened_at : Addr }.
Global Instance ScopeToken_eq_dec : EqDecision ScopeToken.
Proof. solve_decision. Defined.

Definition AbstractStack := list ScopeToken.
Global Instance AbstractStack_eq_dec : EqDecision AbstractStack.
Proof. unfold AbstractStack. apply _. Defined.

(** One constructor per message of the verifier. *)
Inductive Reason :=
| ROutside (description : string) (target : Addr) (size : N)
| RNoManifestEntry (task_type : N)
| RNoEntryState
| RStackUnderflow (pops height : N)
| REmptyRoute
| RZeroBound
| RUnboundedBackward
| RHeightMerge (existing pushed : N)
| RRaceNoOpen
| RRaceArmCount (opened declared found : N)
| RRaceForeign (at_ : N)
| RBackwardEdge (edge : string) (to : N)
| RStackMerge (target : N) (existing pushed : AbstractStack)
| RCloseNothing (expected : ScopeKind)
| RCloseWrong (expected : ScopeKind) (top : ScopeToken)
| RGuardRInFork (barrier : Addr)
| RArmTimerNotAdjacent (top : ScopeToken)
| RArmTimerNoGuard
| RCycleZero
| RCycleNotAdjacent
| RCycleNotGuardN (top : ScopeToken)
| RCycleNoGuard
| RArmErrorTwoCatchAll
| RArmErrorTwoCode (code : string)
| RArmErrorNotAdjacent (top : ScopeToken)
| RArmErrorNoGuard
| RJoinPairing (pairing : Addr)
| RJoinMismatch (pairing : Addr) (top : ScopeToken)
| RJoinNothing
| RCancelNothing
| RCancelKind (top : ScopeToken)
| REndOpen (open_ : AbstractStack)
| RNoTerminal.

(** The side-table rejections of [verify_program]. *)
Inductive MetadataReason :=
| MEmptyStream
| MNotExecFfi (address : Addr)
| MNotEffect (address : Addr)
| MNotGuard (address : Addr)
| MNotMessage (address : Addr)
| MNoFfiDecl (address : N)
| MNoEffectDecl (address : N)
| MWaitPlan
| MJoinPlan
| MNoEnd.

(** [ArtifactError], the variants the verifier raises.  [IterationBound] stands
    for a loop that does not end; [VerifierFacts] shows it is never returned. *)
Inductive ArtifactError :=
| InvalidInstruction (address : N) (reason : Reason)
| InvalidMetadata (reason : MetadataReason)
| IterationBound.

(** [require_address]. *)
Definition require_address (target : Addr) (size : N) (address : N) (description : string)
  : Result ArtifactError unit :=
  if (size <=? target)%N then Err (InvalidInstruction address (ROutside description target size))
  else Ok tt.

(** ** The control-flow graph *)

(** [stack_effect]: operands popped and pushed. *)
Definition stack_effect (i : Instr) : N * N :=
  match i with
  | IPushBool _ | IPushI64 _ | ILoadFlag _ => (0, 1)
  | IV2LoadPlaceholderMatch _ _ => (0, 1)
  | IV2MiIndexLive _ _ => (0, 1)
  | IV2MiLoadElement _ _ => (0, 1)
  | IPop | IStoreFlag _ | IBrIf _ | IBrIfNot _ => (1, 0)
  | IExecNative _ argc retc => (argc, retc)
  | IExecDslTask _ _ _ => (0, 0)
  | IExecFfi _ _ _ => (0, 0)
  | IV2WaitFor | IV2WaitUntil | IV2ArmTimer _ | IV2GuardArmTimer => (1, 0)
  | _ => (0, 0)
  end%N.

(** The backward scan of [race_arm_targets], from the word before the closing
    one; the accumulated targets are already in declaration order. *)
Fixpoint race_scan (close_address : N) (instructions : list Instr) (cursor : nat)
    (targets : list Addr) : Result ArtifactError (list Addr) :=
  match cursor with
  | O => Err (InvalidInstruction close_address RRaceNoOpen)
  | S cursor' =>
      match instructions !! cursor' with
      | Some (IV2ArmTimer target) | Some (IV2ArmMsg target _) | Some (IV2ArmEffect target _ _ _) =>
          race_scan close_address instructions cursor' (target :: targets)
      | Some (IV2RaceOpen arm_count) =>
          if (len targets =? arm_count)%N then Ok targets
          else Err (InvalidInstruction close_address
                 (RRaceArmCount (N.of_nat cursor') arm_count (len targets)))
      | Some (IPushBool _) | Some (IPushI64 _) | Some (ILoadFlag _) | Some IPop =>
          race_scan close_address instructions cursor' targets
      | _ => Err (InvalidInstruction close_address (RRaceForeign (N.of_nat cursor')))
      end
  end.

(** [race_arm_targets]. *)
Definition race_arm_targets (close_address : N) (instructions : list Instr)
  : Result ArtifactError (list Addr) :=
  race_scan close_address instructions (addr_index close_address) [].

(** [if address + 1 < len { push(address + 1) }]. *)
Definition next_address (address size : N) : list N :=
  if (address + 1 <? size)%N then [address + 1]%N else [].

(** [add] on a list of targets. *)
Definition require_all (address size : N) (description : string) (targets : list Addr)
  : Result ArtifactError unit :=
  try_for_each (λ t, require_address t size address description) targets.

(** [successors]. *)
Definition successors (address : N) (i : Instr) (instructions : list Instr) (size : N)
  : Result ArtifactError (list N) :=
  match i with
  | IJump target =>
      _ ← require_address target size address "jump"; Ok [target]
  | IBrIf target | IBrIfNot target | IBrCounterLt _ _ target =>
      _ ← require_address target size address "branch";
      Ok (target :: next_address address size)
  | IRoutePayload branches default_target =>
      _ ← require_all address size "payload route" (prb_target <$> branches);
      _ ← (match default_target with
           | Some t => require_address t size address "payload route default"
           | None => Ok tt
           end);
      Ok ((prb_target <$> branches) ++ option_list default_target)
  | IEnd | IEndTerminate | IFail _ => Ok []
  | IV2Guard handler | IV2GuardN handler =>
      _ ← require_address handler size address "guard handler";
      Ok (handler :: next_address address size)
  | IV2GuardArmError _ handler =>
      _ ← require_address handler size address "guard error-arm handler";
      Ok (handler :: next_address address size)
  | IV2Fork targets _ =>
      _ ← require_all address size "v2 fork" targets; Ok targets
  | IV2RaceClose =>
      targets ← race_arm_targets address instructions;
      _ ← require_all address size "race arm target (via }RACE resolution)" targets;
      Ok targets
  | IV2CancelScope | IV2RouteZeroMatch => Ok []
  | _ => Ok (next_address address size)
  end.

(** ** The operand-height walk *)

Record HeightAcc := mkHeightAcc {
  ha_reachable_end : bool;
  ha_max_stack : N;
  ha_max_fibers : N;
  ha_loop_multiplier : N;
}.

(** [height - pops + pushes] on [u32]. *)
Definition next_height (height : N) (i : Instr) : N :=
  let '(pops, pushes) := stack_effect i in ((height - pops + pushes) mod 2 ^ 32)%N.

(** The rejections of the [match instruction] of the loop. *)
Definition height_match (address : N) (i : Instr) : Result ArtifactError unit :=
  match i with
  | IRoutePayload [] _ => Err (InvalidInstruction address REmptyRoute)
  | IBrCounterLt _ limit target =>
      if (target <? address)%N && (limit =? 0)%N
      then Err (InvalidInstruction address RZeroBound) else Ok tt
  | IJump target | IBrIf target | IBrIfNot target =>
      if (target <=? address)%N then Err (InvalidInstruction address RUnboundedBackward) else Ok tt
  | _ => Ok tt
  end.

Section verify.
Context (instructions : list Instr).
Let size : N := len instructions.

(** The checks of one address at a height, and where its height goes. *)
Definition height_local (address height : N) : Result ArtifactError (list (Edge ArtifactError N)) :=
  i ← ok_or (InvalidInstruction address RNoEntryState) (instructions !! addr_index address);
  let '(pops, _) := stack_effect i in
  _ ← ensure (pops <=? height)%N (InvalidInstruction address (RStackUnderflow pops height));
  _ ← height_match address i;
  succs ← successors address i instructions size;
  Ok (fmap (M := list) (λ a, mkEdge (Ok tt) a (next_height height i)) succs).

(** The handler fibres a guard can spawn: one, or the repeats of a
    [GUARD-TIMER-CYCLE>] two words further. *)
Definition cycle_fibers (address : N) : N :=
  match instructions !! addr_index (address + 1), instructions !! addr_index (address + 2) with
  | Some IV2GuardArmTimer, Some (IV2GuardTimerCycle max_fires) => sat_sub max_fires 1
  | _, _ => 0
  end.

(** The running maxima. *)
Definition height_upd (address height : N) (acc : HeightAcc) : HeightAcc :=
  match instructions !! addr_index address with
  | None => acc
  | Some i =>
      let stack := N.max (ha_max_stack acc) (next_height height i) in
      match i with
      | IV2Fork targets _ =>
          mkHeightAcc (ha_reachable_end acc) stack
            (sat_add u32_max (ha_max_fibers acc) (len targets mod 2 ^ 32)) (ha_loop_multiplier acc)
      | IV2Guard _ | IV2GuardN _ =>
          mkHeightAcc (ha_reachable_end acc) stack
            (sat_add u32_max (sat_add u32_max (ha_max_fibers acc) 1) (cycle_fibers address))
            (ha_loop_multiplier acc)
      | IBrCounterLt _ limit target =>
          mkHeightAcc (ha_reachable_end acc) stack (ha_max_fibers acc)
            (if (target <? address)%N then sat_mul u64_max (ha_loop_multiplier acc) limit
             else ha_loop_multiplier acc)
      | IEnd | IEndTerminate =>
          mkHeightAcc true stack (ha_max_fibers acc) (ha_loop_multiplier acc)
      | _ => mkHeightAcc (ha_reachable_end acc) stack (ha_max_fibers acc) (ha_loop_multiplier acc)
      end
  end.

(** The loop over [queue]: heights of the reachable addresses. *)
Definition height_walk : Result ArtifactError (gmap N N * HeightAcc) :=
  worklist height_local height_upd
    (λ _ target existing pushed, InvalidInstruction target (RHeightMerge existing pushed))
    (λ a, InvalidInstruction a RNoEntryState) IterationBound
    (S (length instructions)) [0%N] {[0%N := 0%N]} (mkHeightAcc false 0 1 1).

(** ** The control-stack walk *)

(** [fork_arity]. *)
Definition fork_arity (pairing : Addr) : N :=
  match instructions !! addr_index pairing with
  | Some (IV2Fork targets _) => (N.max (len targets) 1 mod 2 ^ 32)%N
  | _ => 1
  end.

Definition barriers (state : AbstractStack) : AbstractStack :=
  filter (λ t, tok_kind t = SKBarrier) state.

(** [fibre_multiplicity]. *)
Definition fibre_multiplicity (state : AbstractStack) : N :=
  foldl (λ acc t, sat_mul u32_max acc (fork_arity (tok_opened_at t))) 1%N (barriers state).

Record ControlAcc := mkControlAcc {
  ca_max_control_depth : N;
  ca_max_barriers : N;
  ca_max_records : N;
}.

(** The V-7 maxima at one address. *)
Definition control_upd (_ : N) (state : AbstractStack) (acc : ControlAcc) : ControlAcc :=
  let depth := (len state mod 2 ^ 32)%N in
  let multiplicity := fibre_multiplicity state in
  let barrier_count := (len (barriers state) mod 2 ^ 32)%N in
  mkControlAcc (N.max (ca_max_control_depth acc) depth)
    (N.max (ca_max_barriers acc) (sat_mul u32_max barrier_count multiplicity))
    (N.max (ca_max_records acc) (sat_mul u32_max depth multiplicity)).

(** [pop_expecting]. *)
Definition pop_expecting (address : N) (state : AbstractStack) (expected : ScopeKind)
  : Result ArtifactError AbstractStack :=
  match vec_pop state with
  | None => Err (InvalidInstruction address (RCloseNothing expected))
  | Some (popped, top) =>
      if decide (tok_kind top = expected) then Ok popped
      else Err (InvalidInstruction address (RCloseWrong expected top))
  end.

(** [check_forward]. *)
Definition check_forward (from to : N) (edge : string) : Result ArtifactError unit :=
  if (to <=? from)%N then Err (InvalidInstruction from (RBackwardEdge edge to)) else Ok tt.

Definition is_guard_kind (k : ScopeKind) : bool :=
  match k with SKGuard | SKGuardN | SKGuardR => true | _ => false end.

(** The words of a guard's arming run. *)
Definition is_arm_word (i : option Instr) : bool :=
  match i with
  | Some IV2GuardArmTimer | Some (IV2GuardArmError _ _) | Some (IV2GuardTimerCycle _) => true
  | _ => false
  end.

(** [instructions.get(address - 1)] behind [address > 0]. *)
Definition predecessor (address : N) : option Instr :=
  if (0 <? address)%N then instructions !! addr_index (address - 1) else None.

(** [(from..to).any(|i| matches!(instructions.get(i), ..))] for the duplicate
    checks of [GUARD-ERROR>]. *)
Definition arms_code (from to : N) (code : option string) : bool :=
  existsb (λ i, match i with
                | IV2GuardArmError other _ => bool_decide (other = code)
                | _ => false
                end)
    (take (N.to_nat to - N.to_nat from) (drop (N.to_nat from) instructions)).

(** An edge that is only pushed, and one that must point forward. *)
Definition plain_edge (a : N) (state : AbstractStack) : Edge ArtifactError AbstractStack :=
  mkEdge (Ok tt) a state.
Definition forward_edge (from to : N) (edge : string) (state : AbstractStack)
  : Edge ArtifactError AbstractStack :=
  mkEdge (check_forward from to edge) to state.

Definition fall (address : N) (state : AbstractStack) : list (Edge ArtifactError AbstractStack) :=
  (λ a, plain_edge a state) <$> next_address address size.

Definition close_scope (address : N) (state : AbstractStack) (k : ScopeKind)
  : Result ArtifactError (list (Edge ArtifactError AbstractStack)) :=
  popped ← pop_expecting address state k;
  Ok (fall address popped).

Definition open_scope (address : N) (state : AbstractStack) (k : ScopeKind) : AbstractStack :=
  state ++ [mkToken k address].

(** [GUARD-TIMER>], [GUARD-TIMER-CYCLE>] and [GUARD-ERROR>]. *)
Definition arm_timer_local (address : N) (state : AbstractStack)
  : Result ArtifactError (list (Edge ArtifactError AbstractStack)) :=
  match last state with
  | Some top =>
      if is_guard_kind (tok_kind top) && (tok_opened_at top + 1 =? address)%N
      then Ok (fall address state)
      else Err (InvalidInstruction address (RArmTimerNotAdjacent top))
  | None => Err (InvalidInstruction address RArmTimerNoGuard)
  end.

Definition timer_cycle_local (address max_fires : N) (state : AbstractStack)
  : Result ArtifactError (list (Edge ArtifactError AbstractStack)) :=
  _ ← ensure (negb (max_fires =? 0)%N) (InvalidInstruction address RCycleZero);
  match last state with
  | Some top =>
      if decide (tok_kind top = SKGuardN) then
        match predecessor address with
        | Some IV2GuardArmTimer => Ok (fall address state)
        | _ => Err (InvalidInstruction address RCycleNotAdjacent)
        end
      else Err (InvalidInstruction address (RCycleNotGuardN top))
  | None => Err (InvalidInstruction address RCycleNoGuard)
  end.

Definition arm_error_local (address : N) (code : option string) (state : AbstractStack)
  : Result ArtifactError (list (Edge ArtifactError AbstractStack)) :=
  match last state with
  | Some top =>
      if is_guard_kind (tok_kind top)
         && ((tok_opened_at top + 1 =? address)%N || is_arm_word (predecessor address))
      then
        _ ← ensure (negb (arms_code (tok_opened_at top + 1) address code))
          (InvalidInstruction address
             match code with None => RArmErrorTwoCatchAll | Some c => RArmErrorTwoCode c end);
        Ok (fall address state)
      else Err (InvalidInstruction address (RArmErrorNotAdjacent top))
  | None => Err (InvalidInstruction address RArmErrorNoGuard)
  end.

Definition join_local (address : N) (pairing : Addr) (state : AbstractStack)
  : Result ArtifactError (list (Edge ArtifactError AbstractStack)) :=
  _ ← (match instructions !! addr_index pairing with
       | Some (IV2Fork _ _) => Ok tt
       | _ => Err (InvalidInstruction address (RJoinPairing pairing))
       end);
  match last state with
  | Some top =>
      if decide (tok_kind top = SKBarrier ∧ tok_opened_at top = pairing)
      then close_scope address state SKBarrier
      else Err (InvalidInstruction address (RJoinMismatch pairing top))
  | None => Err (InvalidInstruction address RJoinNothing)
  end.

Definition cancel_local (address : N) (state : AbstractStack)
  : Result ArtifactError (list (Edge ArtifactError AbstractStack)) :=
  match last state with
  | None => Err (InvalidInstruction address RCancelNothing)
  | Some top =>
      if decide (tok_kind top = SKGuardR) then Ok []
      else Err (InvalidInstruction address (RCancelKind top))
  end.

(** The catch-all arm: the state passes along [successors]. *)
Definition pass_on (address : N) (i : Instr) (state : AbstractStack)
  : Result ArtifactError (list (Edge ArtifactError AbstractStack)) :=
  succs ← successors address i instructions size;
  Ok (fmap (M := list) (λ a, plain_edge a state) succs).

(** The [match instruction] of [verify_v2_control_stack]. *)
Definition control_match (address : N) (i : Instr) (state : AbstractStack)
  : Result ArtifactError (list (Edge ArtifactError AbstractStack)) :=
  match i with
  | IV2Guard handler =>
      Ok (forward_edge address handler "guard handler" state
            :: fall address (open_scope address state SKGuard))
  | IV2GuardN handler =>
      let pushed := open_scope address state SKGuardN in
      Ok (forward_edge address handler "guard-n handler" pushed :: fall address pushed)
  | IV2GuardEnd => close_scope address state SKGuard
  | IV2GuardNEnd => close_scope address state SKGuardN
  | IV2GuardR =>
      match head (barriers state) with
      | Some fork => Err (InvalidInstruction address (RGuardRInFork (tok_opened_at fork)))
      | None => Ok (fall address (open_scope address state SKGuardR))
      end
  | IV2GuardREnd => close_scope address state SKGuardR
  | IV2GuardArmTimer => arm_timer_local address state
  | IV2GuardTimerCycle max_fires => timer_cycle_local address max_fires state
  | IV2GuardArmError code _ => arm_error_local address code state
  | IV2RaceOpen _ => Ok (fall address (open_scope address state SKRace))
  | IV2ArmTimer _ | IV2ArmMsg _ _ | IV2ArmEffect _ _ _ _ => Ok (fall address state)
  | IV2RaceClose =>
      popped ← pop_expecting address state SKRace;
      targets ← race_arm_targets address instructions;
      Ok (fmap (M := list) (λ t, forward_edge address t "race arm (via }RACE)" popped) targets)
  | IV2Fork targets pairing =>
      Ok ((λ t, forward_edge address t "fork" (state ++ [mkToken SKBarrier pairing])) <$> targets)
  | IV2Join pairing => join_local address pairing state
  | IV2CancelScope => cancel_local address state
  | IEnd =>
      match state with
      | [] => Ok []
      | _ :: _ => Err (InvalidInstruction address (REndOpen state))
      end
  | _ => pass_on address i state
  end.

Definition control_local (address : N) (state : AbstractStack)
  : Result ArtifactError (list (Edge ArtifactError AbstractStack)) :=
  _ ← require_address address size address "v2 verifier";
  i ← ok_or (InvalidInstruction address RNoEntryState) (instructions !! addr_index address);
  control_match address i state.

(** The loop over [worklist]: entry stacks of the reachable addresses. *)
Definition control_walk : Result ArtifactError (gmap N AbstractStack * ControlAcc) :=
  worklist control_local control_upd
    (λ at_ target existing pushed, InvalidInstruction at_ (RStackMerge target existing pushed))
    (λ a, InvalidInstruction a RNoEntryState) IterationBound
    (S (length instructions)) [0%N] {[0%N := []]} (mkControlAcc 0 0 0).

(** [verify_v2_control_stack]. *)
Definition verify_v2_control_stack (loop_multiplier : N) : Result ArtifactError ControlAcc :=
  '(_, acc) ← control_walk;
  let m := N.min loop_multiplier u32_max in
  Ok (mkControlAcc (ca_max_control_depth acc)
        (sat_mul u32_max (ca_max_barriers acc) m) (sat_mul u32_max (ca_max_records acc) m)).

(** ** Terminal reachability *)

(** [is_terminal]. *)
Definition is_terminal_word (i : Instr) : bool :=
  match i with
  | IEnd | IEndTerminate | IFail _ | IV2CancelScope | IV2RouteZeroMatch => true
  | _ => false
  end.

Definition unit_edges (l : list N) : list (Edge ArtifactError unit) :=
  (λ a, mkEdge (Ok tt) a tt) <$> l.

Definition forward_local (address : N) (_ : unit) : Result ArtifactError (list (Edge ArtifactError unit)) :=
  i ← ok_or (InvalidInstruction address RNoEntryState) (instructions !! addr_index address);
  succs ← successors address i instructions size;
  Ok (unit_edges succs).

(** [forward_reachable], with the successors of each visited address. *)
Definition forward_upd (address : N) (_ : unit) (edges : gmap N (list N)) : gmap N (list N) :=
  match instructions !! addr_index address with
  | None => edges
  | Some i =>
      match successors address i instructions size with
      | Ok succs => <[address := succs]> edges
      | Err _ => edges
      end
  end.

Definition no_disagreement (at_ target : N) (_ _ : unit) : ArtifactError :=
  InvalidInstruction at_ RNoEntryState.

Definition forward_walk : Result ArtifactError (gmap N unit * gmap N (list N)) :=
  worklist forward_local forward_upd no_disagreement (λ a, InvalidInstruction a RNoEntryState)
    IterationBound (S (length instructions)) [0%N] {[0%N := tt]} ∅.

(** [reverse_edges[to]]: the sources of the walked edges into [to], by address. *)
Definition reverse_edges (edges : gmap N (list N)) (to : N) : list N :=
  btree_entries edges ≫= λ e, (λ _, e.1) <$> filter (λ t, t = to) e.2.

Definition reverse_local (edges : gmap N (list N)) (address : N) (_ : unit)
  : Result ArtifactError (list (Edge ArtifactError unit)) :=
  Ok (unit_edges (reverse_edges edges address)).

(** The reachable terminal words, by address. *)
Definition terminal_seeds (reachable : gmap N unit) : list N :=
  filter (λ a, is_terminal_word <$> instructions !! addr_index a = Some true) (btree_keys reachable).

Definition reverse_walk (reachable : gmap N unit) (edges : gmap N (list N))
  : Result ArtifactError (gmap N unit * unit) :=
  let seeds := terminal_seeds reachable in
  worklist (reverse_local edges) (λ _ _ acc, acc) no_disagreement
    (λ a, InvalidInstruction a RNoEntryState) IterationBound (S (length instructions)) seeds
    (list_to_map ((λ a, (a, tt)) <$> seeds)) tt.

(** [verify_terminal_reachability]. *)
Definition verify_terminal_reachability : Result ArtifactError unit :=
  if bool_decide (instructions = []) then Ok tt
  else
    '(reachable, edges) ← forward_walk;
    '(reaches, _) ← reverse_walk reachable edges;
    try_for_each (λ a,
      match reaches !! a with
      | Some _ => Ok tt
      | None => Err (InvalidInstruction a RNoTerminal)
      end) (btree_keys reachable).

(** ** [verify_program] *)

Definition table_addresses (what : string) (p : Instr -> bool) (err : Addr -> MetadataReason)
    (keys : list Addr) : Result ArtifactError unit :=
  try_for_each (λ a,
    _ ← require_address a size a what;
    match instructions !! addr_index a with
    | Some i => if p i then Ok tt else Err (InvalidMetadata (err a))
    | None => Ok tt
    end) keys.

(** The loop over the instructions: their entries in the side tables. *)
Definition check_side_tables (metadata : ArtifactMetadata) (entry : N * Instr)
  : Result ArtifactError unit :=
  let '(address, i) := entry in
  match i with
  | IExecNative task_type _ _ | IExecDslTask task_type _ _ =>
      if (len (task_manifest metadata) <=? task_type)%N
      then Err (InvalidInstruction address (RNoManifestEntry task_type)) else Ok tt
  | IExecFfi _ _ _ =>
      ensure (bool_decide (is_Some (ffi_task_decls metadata !! address)))
        (InvalidMetadata (MNoFfiDecl address))
  | IV2ArmEffect _ _ _ _ | IV2AwaitEffect _ _ _ =>
      ensure (bool_decide (is_Some (v2_ffi_task_decls metadata !! address)))
        (InvalidMetadata (MNoEffectDecl address))
  | _ => Ok tt
  end.

Definition verify_metadata (metadata : ArtifactMetadata) : Result ArtifactError unit :=
  _ ← try_for_each (λ a, require_address a size a "debug map") (btree_keys (debug_map metadata));
  _ ← table_addresses "FFI task table" (λ i, match i with IExecFfi _ _ _ => true | _ => false end)
    MNotExecFfi (btree_keys (ffi_task_decls metadata));
  _ ← table_addresses "v2 FFI effect table"
    (λ i, match i with IV2ArmEffect _ _ _ _ | IV2AwaitEffect _ _ _ => true | _ => false end)
    MNotEffect (btree_keys (v2_ffi_task_decls metadata));
  _ ← table_addresses "v2 guard budget table"
    (λ i, match i with IV2Guard _ | IV2GuardN _ | IV2GuardR => true | _ => false end)
    MNotGuard (btree_keys (v2_guard_budgets metadata));
  _ ← table_addresses "v2 correlation source table"
    (λ i, match i with IV2WaitMsg _ | IV2ArmMsg _ _ | IPublishMessage _ => true | _ => false end)
    MNotMessage (btree_keys (v2_corr_sources metadata));
  _ ← try_for_each (check_side_tables metadata)
    (zip (N.of_nat <$> seq 0 (length instructions)) instructions);
  _ ← ensure (bool_decide (wait_plan metadata = ∅)) (InvalidMetadata MWaitPlan);
  ensure (bool_decide (join_plan metadata = ∅)) (InvalidMetadata MJoinPlan).

Definition verify_program (metadata : ArtifactMetadata) : Result ArtifactError VerifiedLimits :=
  _ ← ensure (negb (bool_decide (instructions = []))) (InvalidMetadata MEmptyStream);
  _ ← verify_metadata metadata;
  '(_, h) ← height_walk;
  _ ← ensure (ha_reachable_end h) (InvalidMetadata MNoEnd);
  c ← verify_v2_control_stack (ha_loop_multiplier h);
  _ ← verify_terminal_reachability;
  Ok {| max_stack := ha_max_stack h;
        max_fibers := ha_max_fibers h;
        max_steps := sat_mul u64_max size (ha_loop_multiplier h);
        max_control_depth := ca_max_control_depth c;
        max_barriers := ca_max_barriers c;
        max_records := ca_max_records c |}.

End verify.
