(* ===== verification/Bindings.v ===== *)
(** * Data bindings: placeholders, FFI inputs and outputs, correlation keys

    [impl ProcessInstance] of [bpmn-lite-types/src/types.rs] and the resolution
    functions of [ffi_bindings.rs].  A message waiter and a message publisher
    derive their correlation key through the same [resolve_correlation_key]. *)

From Stdlib Require Import Strings.Ascii.
From S2P Require Import Prelude RustStr Json Types Concurrency Platform Effects Transition.

Section bindings.
Context {P : Platform}.

(** [serde_json::from_slice]: JSON text is UTF-8. *)
Definition json_from_slice (bytes : list Byte.byte) : option json :=
  match from_utf8 bytes with Some s => json_from_str s | None => None end.

(** ** Placeholders *)

(** [canonical_json_scalar]. *)
Definition canonical_json_scalar (v : json) : option string :=
  match v with
  | JString s => Some s
  | JBool true => Some "true"
  | JBool false => Some "false"
  | _ => None
  end.

(** [ProcessInstance::bind_placeholder_from_payload]. *)
Definition bind_placeholder_from_payload (i : ProcessInstance) (placeholder : string)
  : Result string ProcessInstance :=
  payload ← ok_or "domain payload is not JSON" (json_from_str (domain_payload i));
  object ← (match payload with
            | JObject fs => Ok fs
            | _ => Err "domain payload is not a JSON object"
            end);
  let plain := trim_start_matches "@" placeholder in
  let snake := replace_char "-" "_" plain in
  value ← ok_or "declared DSL output is absent from domain payload"
    (match fields_get placeholder object with
     | Some v => Some v
     | None =>
         match fields_get plain object with
         | Some v => Some v
         | None => fields_get snake object
         end
     end);
  match default (JObject []) (placeholder_values i) with
  | JObject fs =>
      Ok (set_placeholder_values (Some (JObject (fields_insert placeholder value fs))) i)
  | _ => Err "placeholder state is not a JSON object"
  end.

(** [ProcessInstance::placeholder_matches]. *)
Definition placeholder_matches (i : ProcessInstance) (placeholder expected : string) : bool :=
  match placeholder_values i with
  | Some values =>
      match json_get values placeholder with
      | Some v => bool_decide (canonical_json_scalar v = Some expected)
      | None => false
      end
  | None => false
  end.

(** ** Binding sources *)

(** [resolve_binding_scalar_with_domain]. *)
Definition resolve_binding_scalar_with_domain (i : ProcessInstance) (source : BindingSource)
    (domain : json) (label : string) : Result FfiBindingError json :=
  match source with
  | BSLiteral (LitBool b) => Ok (JBool b)
  | BSLiteral (LitI64 z) => Ok (JNumber (JInt z))
  | BSLiteral (LitF64 bits) =>
      n ← ok_or (WrongType label) (number_from_f64 bits); Ok (JNumber n)
  | BSLiteral (LitString s) => Ok (JString s)
  | BSFlagRef key =>
      match flags i !! key with
      | Some (VBool b) => Ok (JBool b)
      | Some (VI64 z) => Ok (JNumber (JInt z))
      | Some (VStr n) => Ok (JNumber (JInt (Z.of_N n)))
      | Some (VRef n) => Ok (JNumber (JInt (Z.of_N n)))
      | Some (VArray _) => Err (WrongType label)
      | None => Err (MissingValue label)
      end
  | BSDomainPayloadRef path => ok_or (MissingValue label) (read_json_path domain path)
  end.

(** [resolve_binding_scalar]: the payload is parsed only when it is read. *)
Definition resolve_binding_scalar (i : ProcessInstance) (source : BindingSource) (label : string)
  : Result FfiBindingError json :=
  domain ← (match source with
            | BSDomainPayloadRef _ => ok_or InvalidDomainPayload (json_from_str (domain_payload i))
            | _ => Ok JNull
            end);
  resolve_binding_scalar_with_domain i source domain label.

(** [correlation_key_string]. *)
Definition correlation_key_string (scalar : json) : Result FfiBindingError string :=
  match scalar with
  | JBool b => Ok (show_bool b)
  | JString s => Ok s
  | JNumber n =>
      ok_or (WrongType "correlation key must be an integer or string, not a float")
        (match number_as_i64 n with
         | Some z => Some (show_Z z)
         | None => show_N <$> number_as_u64 n
         end)
  | JNull | JArray _ | JObject _ =>
      Err (WrongType "correlation key must be a scalar (bool, integer, or string)")
  end.

(** [resolve_correlation_key]. *)
Definition resolve_correlation_key (i : ProcessInstance) (source : BindingSource)
  : Result FfiBindingError string :=
  scalar ← resolve_binding_scalar i source "correlation key";
  correlation_key_string scalar.

(** ** FFI inputs and outputs *)

(** The loop of [encode_ffi_inputs] over the input bindings. *)
Fixpoint encode_inputs (i : ProcessInstance) (domain : json)
    (bindings : list CompiledFfiInputBinding) (object : list (string * json))
  : Result FfiBindingError (list (string * json)) :=
  match bindings with
  | [] => Ok object
  | b :: rest =>
      value ← resolve_binding_scalar_with_domain i (fib_source b) domain (fib_target_field b);
      encode_inputs i domain rest (fields_insert (fib_target_field b) value object)
  end.

(** [encode_ffi_inputs]. *)
Definition encode_ffi_inputs (i : ProcessInstance) (decl : FfiTaskDecl)
  : Result FfiBindingError (list Byte.byte) :=
  domain ← ok_or InvalidDomainPayload (json_from_str (domain_payload i));
  object ← encode_inputs i domain (ffi_inputs decl) [];
  Ok (as_bytes (json_to_string (JObject object))).

(** One output binding: a flag write or a payload write. *)
Definition apply_output (output : json) (acc : ProcessInstance * json)
    (b : CompiledFfiOutputBinding) : Result FfiBindingError (ProcessInstance * json) :=
  let '(i, domain) := acc in
  value ← ok_or (MissingValue (fob_source_field b)) (json_get output (fob_source_field b));
  match fob_target b with
  | BTFlagWrite key =>
      v ← (match value with
           | JBool bit => Ok (VBool bit)
           | JNumber n =>
               z ← ok_or (WrongType (fob_source_field b)) (number_as_i64 n); Ok (VI64 z)
           | _ => Err (WrongType (fob_source_field b))
           end);
      Ok (set_flags (<[key := v]> (flags i)) i, domain)
  | BTDomainPayloadWrite path =>
      domain' ← write_json_path domain path value;
      Ok (i, domain')
  end.

(** [apply_ffi_outputs]. *)
Definition apply_ffi_outputs (i : ProcessInstance) (decl : FfiTaskDecl) (bytes : list Byte.byte)
  : Result FfiBindingError ProcessInstance :=
  output ← ok_or InvalidOutput (json_from_slice bytes);
  domain ← ok_or InvalidDomainPayload (json_from_str (domain_payload i));
  res ← try_fold (apply_output output) (i, domain) (ffi_outputs decl);
  let '(i', domain') := res in
  let canonical := json_to_string domain' in
  Ok (set_payload canonical (content_hash (as_bytes canonical)) i').

(** ** Facts *)

(** The output loop touches flags and payload only: the process state of the
    instance is the one before. *)
Lemma apply_output_state output acc b acc' :
  apply_output output acc b = Ok acc' ->
  inst_state acc'.1 = inst_state acc.1 ∧ instance_id acc'.1 = instance_id acc.1.
Proof.
  destruct acc as [i domain]. unfold apply_output. intros H. result_inv.
  destruct (fob_target b); result_inv; done.
Qed.

Lemma try_fold_apply_output_state output l acc acc' :
  try_fold (apply_output output) acc l = Ok acc' ->
  inst_state acc'.1 = inst_state acc.1 ∧ instance_id acc'.1 = instance_id acc.1.
Proof.
  revert acc; induction l as [|b l IH]; intros acc; cbn; [by intros [= ->]|].
  destruct (apply_output output acc b) as [acc1|] eqn:E; [|done].
  intros H%IH. apply apply_output_state in E as [? ?]. intuition congruence.
Qed.

Lemma apply_ffi_outputs_state i decl bytes i' :
  apply_ffi_outputs i decl bytes = Ok i' ->
  inst_state i' = inst_state i ∧ instance_id i' = instance_id i.
Proof.
  unfold apply_ffi_outputs. intros H. result_inv.
  destruct a1 as [i1 d1]. result_inv.
  by apply try_fold_apply_output_state in E1.
Qed.

(** A bound placeholder is readable with the value of the payload. *)
Lemma bind_placeholder_lookup i ph i' :
  bind_placeholder_from_payload i ph = Ok i' ->
  ∃ v, placeholder_values i' ≫= (λ j, json_get j ph) = Some v.
Proof.
  unfold bind_placeholder_from_payload. intros H. result_inv.
  destruct (default _ _); result_inv; try discriminate.
  cbn. rewrite fields_get_insert. eauto.
Qed.

Lemma bind_placeholder_state i ph i' :
  bind_placeholder_from_payload i ph = Ok i' ->
  inst_state i' = inst_state i ∧ instance_id i' = instance_id i.
Proof.
  unfold bind_placeholder_from_payload. intros H. result_inv.
  destruct (default _ _); result_inv; try discriminate. done.
Qed.
End bindings.
