(* ===== verification/Canonical.v ===== *)
(** * The canonical hash domain

    The encoders of [bpmn-lite-types/src/canonical.rs] (tagged, length-prefixed
    little-endian binary) and the state hash of a snapshot envelope
    ([persistence.rs]).  A writer is the byte list it produces; every encoder
    returns the bytes it appends. *)

From Stdlib Require Import Strings.Ascii.
From S2P Require Import Prelude RustStr Json Types Concurrency Platform Effects Transition Bindings.

(** ** [CanonicalWriter] *)

Definition write_u8 (v : N) : list Byte.byte := le_bytes 1 v.
Definition write_u16 (v : N) : list Byte.byte := le_bytes 2 v.
Definition write_u32 (v : N) : list Byte.byte := le_bytes 4 v.
Definition write_u64 (v : N) : list Byte.byte := le_bytes 8 v.
Definition write_bool (b : bool) : list Byte.byte := write_u8 (if b then 1 else 0).
(** [x as u64] for an [i64]. *)
Definition i64_as_u64 (z : Z) : N := Z.to_N (z mod 2 ^ 64).
Definition write_bytes (l : list Byte.byte) : list Byte.byte := write_u32 (len l) ++ l.
Definition write_str (s : string) : list Byte.byte := write_bytes (as_bytes s).
Definition write_option {A} (enc : A -> list Byte.byte) (o : option A) : list Byte.byte :=
  match o with None => write_u8 0 | Some x => write_u8 1 ++ enc x end.
Definition write_seq {A} (enc : A -> list Byte.byte) (l : list A) : list Byte.byte :=
  write_u32 (len l) ++ (l ≫= enc).

(** ** [CanonicalEncode] *)

Definition encode_uuid (u : Uuid) : list Byte.byte := be_bytes 16 u.
Definition encode_addr (a : Addr) : list Byte.byte := write_u32 a.

Definition encode_record_kind (k : RecordKind) : list Byte.byte :=
  match k with
  | KGuard interrupting => write_u8 0 ++ write_bool interrupting
  | KRace => write_u8 1
  | KBarrier => write_u8 2
  | KCompensation => write_u8 3
  end.

Definition encode_record_state (s : RecordState) : list Byte.byte :=
  write_u8 (match s with Armed => 0 | Retired => 1 end).

Definition encode_counters (c : RecordCounters) : list Byte.byte :=
  write_u32 (arity c) ++ write_u32 (count c).

Fixpoint encode_value (v : Value) : list Byte.byte :=
  match v with
  | VBool b => write_u8 0 ++ write_bool b
  | VI64 z => write_u8 1 ++ write_u64 (i64_as_u64 z)
  | VStr id => write_u8 2 ++ write_u32 id
  | VRef id => write_u8 3 ++ write_u32 id
  | VArray items =>
      write_u8 4 ++ write_u32 (len items)
        ++ (fix go (l : list Value) : list Byte.byte :=
              match l with [] => [] | x :: l' => encode_value x ++ go l' end) items
  end.

Definition encode_flag_entry (e : N * Value) : list Byte.byte := write_u32 e.1 ++ encode_value e.2.
Definition encode_join_entry (e : N * N) : list Byte.byte := write_u32 e.1 ++ write_u16 e.2.

Definition encode_record (r : ConcurrencyRecord) : list Byte.byte :=
  encode_uuid (rec_id r) ++ encode_record_kind (rec_kind r)
  ++ write_seq encode_uuid (btree_elems (members r))
  ++ write_option encode_addr (rec_handler r)
  ++ encode_record_state (rec_state r)
  ++ encode_counters (rec_counters r)
  ++ write_option write_str (rollback_domain_payload r)
  ++ write_option (λ h, h) (rollback_domain_payload_hash r)
  ++ write_option (λ m, write_seq encode_flag_entry (btree_entries m)) (rollback_flags r)
  ++ write_option (λ m, write_seq encode_join_entry (btree_entries m)) (rollback_join_expected r)
  ++ write_option write_str (rollback_session_stack r)
  ++ write_option encode_addr (opened_at r)
  ++ write_seq (λ route, write_option write_str route.1 ++ encode_addr route.2) (error_routes r).

Definition encode_table (t : gmap N ConcurrencyRecord) : list Byte.byte :=
  write_seq encode_record (btree_values t).

Definition encode_effect_set (s : gset N) : list Byte.byte := write_seq encode_uuid (btree_elems s).

Definition encode_race_arm (a : V2RaceArm) : list Byte.byte :=
  match a with
  | ArmTimer target => write_u8 0 ++ encode_addr target
  | ArmMsg target name corr_key =>
      write_u8 1 ++ encode_addr target ++ write_u32 name ++ write_str corr_key
  | ArmEffect target effect_id template_id =>
      write_u8 2 ++ encode_addr target ++ encode_uuid effect_id ++ template_id
  end.

Definition encode_wait (x : WaitState) : list Byte.byte :=
  match x with
  | WRunning => write_u8 0
  | WTimer deadline => write_u8 1 ++ write_u64 deadline
  | WMsg wait_id name corr_key =>
      write_u8 2 ++ write_u32 wait_id ++ write_u32 name ++ write_str corr_key
  | WJob job_key => write_u8 3 ++ write_str job_key
  | WEffect id => write_u8 4 ++ encode_uuid id
  | WJoin join_id => write_u8 5 ++ write_u32 join_id
  | WIncident id => write_u8 7 ++ encode_uuid id
  | WV2Barrier id => write_u8 8 ++ encode_uuid id
  | WV2Race id arms => write_u8 9 ++ encode_uuid id ++ write_seq encode_race_arm arms
  end.

Definition encode_process_state (x : ProcessState) : list Byte.byte :=
  match x with
  | PSRunning => write_u8 0
  | PSCompleted at_ => write_u8 1 ++ write_u64 (i64_as_u64 at_)
  | PSCancelled reason at_ => write_u8 2 ++ write_str reason ++ write_u64 (i64_as_u64 at_)
  | PSTerminated at_ => write_u8 3 ++ write_u64 (i64_as_u64 at_)
  | PSFailed id => write_u8 4 ++ encode_uuid id
  | PSIncidented id => write_u8 7 ++ encode_uuid id
  | PSWaitingOnSubmission id node => write_u8 5 ++ encode_uuid id ++ write_str node
  | PSWaitingOnInvocation id node => write_u8 6 ++ encode_uuid id ++ write_str node
  end.

Definition encode_error_class (e : ErrorClass) : list Byte.byte :=
  match e with
  | Transient => write_u8 0
  | ContractViolation => write_u8 1
  | BusinessRejection code => write_u8 2 ++ write_str code
  end.

Definition encode_incident (i : Incident) : list Byte.byte :=
  encode_uuid (incident_id i) ++ encode_uuid (incident_process_instance_id i)
  ++ encode_uuid (incident_fiber_id i) ++ write_str (incident_service_task_id i)
  ++ encode_addr (incident_bytecode_addr i) ++ encode_error_class (incident_error_class i)
  ++ write_str (incident_message i) ++ write_u32 (incident_retry_count i)
  ++ write_u64 (i64_as_u64 (incident_created_at i))
  ++ write_option (λ z, write_u64 (i64_as_u64 z)) (incident_resolved_at i)
  ++ write_option write_str (incident_resolution i).

Definition encode_fiber (f : Fiber) : list Byte.byte :=
  encode_uuid (fiber_id f) ++ encode_addr (fiber_pc f)
  ++ write_seq encode_value (fiber_stack f) ++ encode_wait (fiber_wait f)
  ++ write_u32 (fiber_loop_epoch f) ++ write_seq encode_uuid (fiber_control_stack f).

Definition encode_workspace_kind (k : SessionWorkspaceKind) : list Byte.byte :=
  write_u8 (match k with
    | ProductMaintenance => 0 | Catalogue => 1 | Deal => 2 | Cbu => 3 | Kyc => 4
    | InstrumentMatrix => 5 | OnBoarding => 6 | SemOsMaintenance => 7 | LifecycleResources => 8
    | BookingPrincipal => 9 | Bpmn => 10 end).

Definition encode_session_scope (s : SessionScopeState) : list Byte.byte :=
  encode_uuid (client_group_id s) ++ write_option write_str (client_group_name s).

(** ** The fallible half: opaque JSON *)

Inductive CanonicalJsonError :=
| NonFiniteFloat
| InvalidJson (text : string)
| LengthOverflow (kind : string) (actual : N).

(** [Display] of the error. *)
Definition show_canonical_error (e : CanonicalJsonError) : string :=
  match e with
  | NonFiniteFloat =>
      "canonical encoding rejects a non-finite float (NaN or Infinity) in a JSON payload"
  | InvalidJson text => "canonical encoding: payload is not valid JSON: " +:+ text
  | LengthOverflow kind actual =>
      "canonical encoding: " +:+ kind +:+ " length " +:+ show_N actual +:+ " exceeds u32::MAX"
  end.

(** [checked_len_u32]. *)
Definition checked_len_u32 (n : N) (kind : string) : Result CanonicalJsonError N :=
  if (n <=? u32_max)%N then Ok n else Err (LengthOverflow kind n).

(** [encode_canonical_json]. *)
Fixpoint encode_canonical_json (v : json) : Result CanonicalJsonError (list Byte.byte) :=
  match v with
  | JNull => Ok (write_u8 0)
  | JBool b => Ok (write_u8 1 ++ write_bool b)
  | JNumber n =>
      match number_as_i64 n, number_as_u64 n, n with
      | Some z, _, _ => Ok (write_u8 2 ++ write_u64 (i64_as_u64 z))
      | None, Some u, _ => Ok (write_u8 3 ++ write_u64 u)
      | None, None, JFloat bits =>
          if f64_is_finite bits then Ok (write_u8 4 ++ write_u64 bits) else Err NonFiniteFloat
      | None, None, JInt _ => Err NonFiniteFloat
      end
  | JString s =>
      _ ← checked_len_u32 (len (as_bytes s)) "JSON string";
      Ok (write_u8 5 ++ write_str s)
  | JArray items =>
      n ← checked_len_u32 (len items) "JSON array";
      body ← (fix go (l : list json) : Result CanonicalJsonError (list Byte.byte) :=
        match l with
        | [] => Ok []
        | x :: l' =>
            match encode_canonical_json x with
            | Ok a => match go l' with Ok b => Ok (a ++ b) | Err e => Err e end
            | Err e => Err e
            end
        end) items;
      Ok (write_u8 6 ++ write_u32 n ++ body)
  | JObject fields =>
      n ← checked_len_u32 (len fields) "JSON object";
      body ← (fix go (l : list (string * json)) : Result CanonicalJsonError (list Byte.byte) :=
        match l with
        | [] => Ok []
        | (k, x) :: l' =>
            match checked_len_u32 (len (as_bytes k)) "JSON object key" with
            | Ok _ =>
                match encode_canonical_json x with
                | Ok a => match go l' with Ok b => Ok (write_str k ++ a ++ b) | Err e => Err e end
                | Err e => Err e
                end
            | Err e => Err e
            end
        end) fields;
      Ok (write_u8 7 ++ write_u32 n ++ body)
  end.

(** A sequence of JSON values, in order. *)
Fixpoint encode_json_list (l : list json) : Result CanonicalJsonError (list Byte.byte) :=
  match l with
  | [] => Ok []
  | x :: l' =>
      a ← encode_canonical_json x;
      b ← encode_json_list l';
      Ok (a ++ b)
  end.

(** [encode_session_stack]. *)
Definition encode_session_stack (s : SessionStackState) : Result CanonicalJsonError (list Byte.byte) :=
  n ← checked_len_u32 (len (workspace_stack s)) "workspace_stack";
  frames ← encode_json_list (workspace_stack s);
  Ok (encode_uuid (session_id s) ++ write_option encode_session_scope (session_scope s)
        ++ write_option encode_workspace_kind (active_workspace s)
        ++ write_u32 n ++ frames ++ write_u64 (trace_sequence s)).

Section hash.
Context {P : Platform}.

(** [ProcessInstance::try_canonical_hash_bytes]. *)
Definition instance_hash_bytes (i : ProcessInstance) : Result CanonicalJsonError (list Byte.byte) :=
  payload ← ok_or (InvalidJson (json_error (domain_payload i))) (json_from_str (domain_payload i));
  payload_bytes ← encode_canonical_json payload;
  session_bytes ← encode_session_stack (session_stack i);
  placeholder_bytes ←
    (match placeholder_values i with
     | None => Ok (write_u8 0)
     | Some v => b ← encode_canonical_json v; Ok (write_u8 1 ++ b)
     end);
  Ok (encode_uuid (instance_id i) ++ write_str (inst_tenant_id i) ++ write_str (process_key i)
        ++ bytecode_version i ++ payload_bytes ++ domain_payload_hash i ++ session_bytes
        ++ write_seq encode_flag_entry (btree_entries (flags i))
        ++ write_seq (λ e, write_u32 e.1 ++ write_u32 e.2) (btree_entries (counters i))
        ++ write_seq encode_join_entry (btree_entries (join_expected i))
        ++ encode_process_state (inst_state i) ++ write_str (correlation_id i)
        ++ encode_uuid (entry_id i) ++ encode_uuid (runbook_id i)
        ++ write_u64 (i64_as_u64 (created_at i))
        ++ write_option write_str (quarantine_state i) ++ write_option (λ h, h) (plan_hash i)
        ++ write_option write_str (current_node_id i) ++ placeholder_bytes).

(** [PersistedSnapshotState::try_canonical_hash_bytes]. *)
Definition state_hash_bytes (s : PersistedSnapshotState)
  : Result PersistenceEnvelopeError (list Byte.byte) :=
  instance_bytes ← map_err (λ e, Serialization (show_canonical_error e))
    (instance_hash_bytes (ps_instance s));
  Ok (write_bytes instance_bytes
        ++ write_seq encode_join_entry (btree_entries (ps_join_counts s))
        ++ write_seq (λ e, encode_uuid e.1 ++ encode_incident e.2) (btree_entries (ps_incidents s))
        ++ write_seq (λ e, encode_uuid e.1 ++ encode_fiber e.2) (btree_entries (ps_fibers s))).

(** The bytes [SnapshotEnvelope::state_hash] feeds its hasher, in order. *)
Definition state_hash_preimage (e : SnapshotEnvelope)
  : Result PersistenceEnvelopeError (list Byte.byte) :=
  bytes ← state_hash_bytes (se_state e);
  Ok (bytes ++ encode_table (ps_table (se_state e))
        ++ encode_effect_set (ps_pending_effects (se_state e))
        ++ write_u64 (se_revision e) ++ se_artifact_hash e).

(** [SnapshotEnvelope::state_hash]. *)
Definition state_hash (e : SnapshotEnvelope) : Result PersistenceEnvelopeError Hash :=
  bytes ← state_hash_preimage e;
  Ok (blake3 bytes).

End hash.
