(* ===== verification/Decode.v ===== *)
(** * The canonical decoders

    [CanonicalReader] and the [canonical_decode] half of the [CanonicalEncode]
    implementations of [bpmn-lite-types/src/canonical.rs].  A reader is the
    bytes not yet read, the offset reached and the array depth; a decoder
    threads it. *)

From S2P Require Import Prelude RustStr Json Types Concurrency Platform Effects Transition Bindings Canonical.

Record CanonicalReader := mkReader {
  rd_bytes : list Byte.byte;
  rd_pos : N;
  rd_array_depth : N;
}.

Inductive CanonicalDecodeError :=
| UnexpectedEof (offset : N)
| InvalidUtf8
| UnknownTag (tag : N) (type_name : string)
| TrailingBytes (n : N)
| ValueArrayTooDeep (max : N)
| ValueArrayTooLong (actual max : N).

Definition Decoder (A : Type) : Type := CanonicalReader -> Result CanonicalDecodeError (A * CanonicalReader).

Global Instance Decoder_ret : MRet Decoder := λ A a r, Ok (a, r).
Global Instance Decoder_bind : MBind Decoder := λ A B k d r,
  match d r with Ok (a, r') => k a r' | Err e => Err e end.

Definition fail {A} (e : CanonicalDecodeError) : Decoder A := λ _, Err e.

(** [CanonicalReader::new], [finish], [take]. *)
Definition CanonicalReader_new (bytes : list Byte.byte) : CanonicalReader := mkReader bytes 0 0.

Definition reader_finish (r : CanonicalReader) : Result CanonicalDecodeError unit :=
  match rd_bytes r with [] => Ok tt | rest => Err (TrailingBytes (len rest)) end.

Definition reader_take (n : N) : Decoder (list Byte.byte) := λ r,
  if (len (rd_bytes r) <? n)%N then Err (UnexpectedEof (rd_pos r))
  else Ok (take (N.to_nat n) (rd_bytes r),
           mkReader (drop (N.to_nat n) (rd_bytes r)) (rd_pos r + n) (rd_array_depth r)).

Definition read_u8 : Decoder N := b ← reader_take 1; mret (le_number b).
Definition read_u16 : Decoder N := b ← reader_take 2; mret (le_number b).
Definition read_u32 : Decoder N := b ← reader_take 4; mret (le_number b).
Definition read_u64 : Decoder N := b ← reader_take 8; mret (le_number b).

Definition read_bool : Decoder bool :=
  tag ← read_u8;
  if (tag =? 0)%N then mret false
  else if (tag =? 1)%N then mret true
  else fail (UnknownTag tag "bool").

Definition read_bytes_fixed (n : N) : Decoder (list Byte.byte) := reader_take n.

Definition read_bytes : Decoder (list Byte.byte) := n ← read_u32; reader_take n.

Definition read_str : Decoder string :=
  b ← read_bytes;
  match from_utf8 b with Some s => mret s | None => fail InvalidUtf8 end.

Definition read_option {A} (decode_some : Decoder A) : Decoder (option A) :=
  tag ← read_u8;
  if (tag =? 0)%N then mret None
  else if (tag =? 1)%N then x ← decode_some; mret (Some x)
  else fail (UnknownTag tag "Option presence tag").

(** [for _ in 0..len { out.push(decode_item(self)?) }]. *)
Fixpoint read_items {A} (decode_item : Decoder A) (n : nat) : Decoder (list A) :=
  match n with
  | O => mret []
  | S n' => x ← decode_item; rest ← read_items decode_item n'; mret (x :: rest)
  end.

Definition read_seq {A} (decode_item : Decoder A) : Decoder (list A) :=
  n ← read_u32; read_items decode_item (N.to_nat n).

(** [from_canonical_bytes]. *)
Definition from_canonical_bytes {A} (decode : Decoder A) (bytes : list Byte.byte)
  : Result CanonicalDecodeError A :=
  '(v, r) ← decode (CanonicalReader_new bytes);
  _ ← reader_finish r;
  Ok v.

(** ** [canonical_decode] *)

Definition decode_uuid : Decoder Uuid := b ← read_bytes_fixed 16; mret (be_number b).
Definition decode_addr : Decoder Addr := read_u32.
(** [r.read_u64()? as i64]. *)
Definition read_i64 : Decoder Z := n ← read_u64; mret (u64_as_i64 n).

Definition decode_record_kind : Decoder RecordKind :=
  tag ← read_u8;
  if (tag =? 0)%N then b ← read_bool; mret (KGuard b)
  else if (tag =? 1)%N then mret KRace
  else if (tag =? 2)%N then mret KBarrier
  else if (tag =? 3)%N then mret KCompensation
  else fail (UnknownTag tag "RecordKind").

Definition decode_record_state : Decoder RecordState :=
  tag ← read_u8;
  if (tag =? 0)%N then mret Armed
  else if (tag =? 1)%N then mret Retired
  else fail (UnknownTag tag "RecordState").

Definition decode_counters : Decoder RecordCounters :=
  a ← read_u32; c ← read_u32; mret (mkCounters a c).

(** [r.array_depth += 1] with its check, and [r.array_depth -= 1]. *)
Definition enter_array : Decoder unit := λ r,
  let depth := (rd_array_depth r + 1)%N in
  if (MAX_VALUE_ARRAY_DEPTH <? depth)%N then Err (ValueArrayTooDeep MAX_VALUE_ARRAY_DEPTH)
  else Ok (tt, mkReader (rd_bytes r) (rd_pos r) depth).
Definition leave_array : Decoder unit := λ r,
  Ok (tt, mkReader (rd_bytes r) (rd_pos r) (rd_array_depth r - 1)).

(** [Value::canonical_decode].  The recursion enters an array at most
    [MAX_VALUE_ARRAY_DEPTH] times: [enter_array] fails before [fuel] does. *)
Fixpoint decode_value_at (fuel : nat) : Decoder Value :=
  tag ← read_u8;
  if (tag =? 0)%N then b ← read_bool; mret (VBool b)
  else if (tag =? 1)%N then z ← read_i64; mret (VI64 z)
  else if (tag =? 2)%N then id ← read_u32; mret (VStr id)
  else if (tag =? 3)%N then id ← read_u32; mret (VRef id)
  else if (tag =? 4)%N then
    _ ← enter_array;
    n ← read_u32;
    if (MAX_VALUE_ARRAY_LEN <? n)%N then fail (ValueArrayTooLong n MAX_VALUE_ARRAY_LEN)
    else
      items ← (match fuel with
               | O => fail (ValueArrayTooDeep MAX_VALUE_ARRAY_DEPTH)
               | S fuel' => read_items (decode_value_at fuel') (N.to_nat n)
               end);
      _ ← leave_array;
      mret (VArray items)
  else fail (UnknownTag tag "Value").

Definition decode_value : Decoder Value := decode_value_at (N.to_nat MAX_VALUE_ARRAY_DEPTH).

(** [collect::<BTreeMap<_, _>>()]: a later entry replaces an earlier one. *)
Definition collect_map {V} (l : list (N * V)) : gmap N V := foldl (λ m e, <[e.1 := e.2]> m) ∅ l.

Definition decode_flag_entry : Decoder (N * Value) := k ← read_u32; v ← decode_value; mret (k, v).
Definition decode_join_entry : Decoder (N * N) := k ← read_u32; v ← read_u16; mret (k, v).
Definition decode_route : Decoder (option string * Addr) :=
  code ← read_option read_str; addr ← decode_addr; mret (code, addr).

Definition decode_record : Decoder ConcurrencyRecord :=
  id ← decode_uuid;
  kind ← decode_record_kind;
  mems ← read_seq decode_uuid;
  handler ← read_option decode_addr;
  state ← decode_record_state;
  counters ← decode_counters;
  payload ← read_option read_str;
  hash ← read_option (read_bytes_fixed 32);
  fl ← read_option (l ← read_seq decode_flag_entry; mret (collect_map l));
  joins ← read_option (l ← read_seq decode_join_entry; mret (collect_map l));
  session ← read_option read_str;
  opened ← read_option decode_addr;
  routes ← read_seq decode_route;
  mret (mkRecord id kind (list_to_set mems) handler state counters payload hash fl joins session
          opened routes).

Definition decode_table : Decoder ConcurrencyTable :=
  records ← read_seq decode_record; mret (foldl (λ t r, table_insert r t) ∅ records).

Definition decode_effect_set : Decoder (gset N) :=
  l ← read_seq decode_uuid; mret (list_to_set l).

Definition decode_race_arm : Decoder V2RaceArm :=
  tag ← read_u8;
  if (tag =? 0)%N then target ← decode_addr; mret (ArmTimer target)
  else if (tag =? 1)%N then
    target ← decode_addr; name ← read_u32; key ← read_str; mret (ArmMsg target name key)
  else if (tag =? 2)%N then
    target ← decode_addr; id ← decode_uuid; template ← read_bytes_fixed 32;
    mret (ArmEffect target id template)
  else fail (UnknownTag tag "V2RaceArm").

Definition decode_wait : Decoder WaitState :=
  tag ← read_u8;
  if (tag =? 0)%N then mret WRunning
  else if (tag =? 1)%N then d ← read_u64; mret (WTimer d)
  else if (tag =? 2)%N then
    wait_id ← read_u32; name ← read_u32; key ← read_str; mret (WMsg wait_id name key)
  else if (tag =? 3)%N then key ← read_str; mret (WJob key)
  else if (tag =? 4)%N then id ← decode_uuid; mret (WEffect id)
  else if (tag =? 5)%N then id ← read_u32; mret (WJoin id)
  else if (tag =? 7)%N then id ← decode_uuid; mret (WIncident id)
  else if (tag =? 8)%N then id ← decode_uuid; mret (WV2Barrier id)
  else if (tag =? 9)%N then
    id ← decode_uuid; arms ← read_seq decode_race_arm; mret (WV2Race id arms)
  else fail (UnknownTag tag "WaitState").

Definition decode_process_state : Decoder ProcessState :=
  tag ← read_u8;
  if (tag =? 0)%N then mret PSRunning
  else if (tag =? 1)%N then at_ ← read_i64; mret (PSCompleted at_)
  else if (tag =? 2)%N then reason ← read_str; at_ ← read_i64; mret (PSCancelled reason at_)
  else if (tag =? 3)%N then at_ ← read_i64; mret (PSTerminated at_)
  else if (tag =? 4)%N then id ← decode_uuid; mret (PSFailed id)
  else if (tag =? 7)%N then id ← decode_uuid; mret (PSIncidented id)
  else if (tag =? 5)%N then id ← decode_uuid; node ← read_str; mret (PSWaitingOnSubmission id node)
  else if (tag =? 6)%N then id ← decode_uuid; node ← read_str; mret (PSWaitingOnInvocation id node)
  else fail (UnknownTag tag "ProcessState").

Definition decode_error_class : Decoder ErrorClass :=
  tag ← read_u8;
  if (tag =? 0)%N then mret Transient
  else if (tag =? 1)%N then mret ContractViolation
  else if (tag =? 2)%N then code ← read_str; mret (BusinessRejection code)
  else fail (UnknownTag tag "ErrorClass").

Definition decode_incident : Decoder Incident :=
  id ← decode_uuid;
  instance ← decode_uuid;
  fiber ← decode_uuid;
  task ← read_str;
  addr ← decode_addr;
  class ← decode_error_class;
  message ← read_str;
  retries ← read_u32;
  created ← read_i64;
  resolved ← read_option read_i64;
  resolution ← read_option read_str;
  mret {| incident_id := id; incident_process_instance_id := instance; incident_fiber_id := fiber;
          incident_service_task_id := task; incident_bytecode_addr := addr;
          incident_error_class := class; incident_message := message;
          incident_retry_count := retries; incident_created_at := created;
          incident_resolved_at := resolved; incident_resolution := resolution |}.

Definition decode_fiber : Decoder Fiber :=
  id ← decode_uuid;
  pc ← decode_addr;
  stack ← read_seq decode_value;
  wait ← decode_wait;
  epoch ← read_u32;
  control ← read_seq decode_uuid;
  mret (mkFiber id pc stack wait epoch control).

Definition decode_workspace_kind : Decoder SessionWorkspaceKind :=
  tag ← read_u8;
  match tag with
  | 0 => mret ProductMaintenance | 1 => mret Catalogue | 2 => mret Deal | 3 => mret Cbu
  | 4 => mret Kyc | 5 => mret InstrumentMatrix | 6 => mret OnBoarding | 7 => mret SemOsMaintenance
  | 8 => mret LifecycleResources | 9 => mret BookingPrincipal | 10 => mret Bpmn
  | _ => fail (UnknownTag tag "SessionWorkspaceKind")
  end%N.

Definition decode_session_scope : Decoder SessionScopeState :=
  id ← decode_uuid; name ← read_option read_str;
  mret {| client_group_id := id; client_group_name := name |}.
