(* ===== verification/CodecFacts.v ===== *)
(** * The canonical codec loses nothing

    [RoundTrips depth enc dec ok] is the contract between an encoder of file
    Canonical and its decoder of file Decode: at array depth [depth], the
    decoder reads the bytes of every value in the type's range [ok], returns
    that value, and leaves the reader exactly behind them.  The range
    predicates are the bounds Rust's types impose (integer widths, UTF-8,
    32-byte hashes, a [u32] length) and the limits [check_array_limits]
    enforces on values. *)

From S2P Require Import Prelude RustStr Json Types Concurrency Platform Effects Transition Bindings Canonical Decode.

(** The decoder reads exactly [bs] and returns [x]. *)
Definition decodes {A} (depth : N) (dec : Decoder A) (bs : list Byte.byte) (x : A) : Prop :=
  ∀ rest pos, dec (mkReader (bs ++ rest) pos depth) = Ok (x, mkReader rest (pos + len bs) depth).

Class RoundTrips {A} (depth : N) (enc : A -> list Byte.byte) (dec : Decoder A) (ok : A -> Prop) :=
  round_trip x : ok x -> decodes depth dec (enc x) x.

(** ** Ranges *)

Definition is_u8 (n : N) : Prop := (n < 256)%N.
Definition is_u16 (n : N) : Prop := (n <= u16_max)%N.
Definition is_uuid (u : N) : Prop := (u < 2 ^ 128)%N.
Definition is_hash (h : list Byte.byte) : Prop := length h = 32%nat.
Definition bytes_ok (l : list Byte.byte) : Prop := is_u32 (len l).
(** A Rust string is valid UTF-8. *)
Definition str_ok (s : string) : Prop :=
  bytes_ok (as_bytes s) ∧ is_Some (utf8_chars (length (as_bytes s)) (as_bytes s)).
Definition opt_ok {A} (ok : A -> Prop) (o : option A) : Prop :=
  match o with Some x => ok x | None => True end.
Definition seq_ok {A} (ok : A -> Prop) (l : list A) : Prop := is_u32 (len l) ∧ Forall ok l.
Definition pair_ok {A B} (oka : A -> Prop) (okb : B -> Prop) (e : A * B) : Prop :=
  oka e.1 ∧ okb e.2.

(** The scalars of a value are in range. *)
Fixpoint scalars_ok (v : Value) : Prop :=
  match v with
  | VBool _ => True
  | VI64 z => is_i64 z
  | VStr id | VRef id => is_u32 id
  | VArray items =>
      (fix go (l : list Value) : Prop :=
         match l with [] => True | x :: l' => scalars_ok x ∧ go l' end) items
  end.
Definition value_ok (depth : N) (v : Value) : Prop :=
  scalars_ok v ∧ check_array_limits_at_depth v depth = Ok tt.

Definition map_ok {V} (okk : N -> Prop) (ok : V -> Prop) (m : gmap N V) : Prop :=
  seq_ok (pair_ok okk ok) (btree_entries m).
Definition set_ok (okk : N -> Prop) (s : gset N) : Prop := seq_ok okk (btree_elems s).
Definition flags_ok : gmap N Value -> Prop := map_ok is_u32 (value_ok 0).
Definition joins_ok : gmap N N -> Prop := map_ok is_u32 is_u16.

Record record_ok (r : ConcurrencyRecord) : Prop := {
  ro_id : is_uuid (rec_id r);
  ro_members : set_ok is_uuid (members r);
  ro_handler : opt_ok is_u32 (rec_handler r);
  ro_arity : is_u32 (arity (rec_counters r));
  ro_count : is_u32 (count (rec_counters r));
  ro_payload : opt_ok str_ok (rollback_domain_payload r);
  ro_hash : opt_ok is_hash (rollback_domain_payload_hash r);
  ro_flags : opt_ok flags_ok (rollback_flags r);
  ro_joins : opt_ok joins_ok (rollback_join_expected r);
  ro_session : opt_ok str_ok (rollback_session_stack r);
  ro_opened : opt_ok is_u32 (opened_at r);
  ro_routes : seq_ok (pair_ok (opt_ok str_ok) is_u32) (error_routes r);
}.

Definition table_ok (t : gmap N ConcurrencyRecord) : Prop :=
  table_keyed t ∧ seq_ok record_ok (btree_values t).

Definition race_arm_ok (a : V2RaceArm) : Prop :=
  match a with
  | ArmTimer target => is_u32 target
  | ArmMsg target name corr_key => is_u32 target ∧ is_u32 name ∧ str_ok corr_key
  | ArmEffect target effect_id template_id => is_u32 target ∧ is_uuid effect_id ∧ is_hash template_id
  end.

Definition wait_ok (x : WaitState) : Prop :=
  match x with
  | WRunning => True
  | WTimer deadline => is_u64 deadline
  | WMsg wait_id name corr_key => is_u32 wait_id ∧ is_u32 name ∧ str_ok corr_key
  | WJob job_key => str_ok job_key
  | WEffect id | WIncident id | WV2Barrier id => is_uuid id
  | WJoin join_id => is_u32 join_id
  | WV2Race id arms => is_uuid id ∧ seq_ok race_arm_ok arms
  end.

Definition process_state_ok (x : ProcessState) : Prop :=
  match x with
  | PSRunning => True
  | PSCompleted at_ | PSTerminated at_ => is_i64 at_
  | PSCancelled reason at_ => str_ok reason ∧ is_i64 at_
  | PSFailed id | PSIncidented id => is_uuid id
  | PSWaitingOnSubmission id node | PSWaitingOnInvocation id node => is_uuid id ∧ str_ok node
  end.

Definition error_class_ok (e : ErrorClass) : Prop :=
  match e with BusinessRejection code => str_ok code | _ => True end.

Record incident_ok (i : Incident) : Prop := {
  io_id : is_uuid (incident_id i);
  io_instance : is_uuid (incident_process_instance_id i);
  io_fiber : is_uuid (incident_fiber_id i);
  io_task : str_ok (incident_service_task_id i);
  io_addr : is_u32 (incident_bytecode_addr i);
  io_class : error_class_ok (incident_error_class i);
  io_message : str_ok (incident_message i);
  io_retries : is_u32 (incident_retry_count i);
  io_created : is_i64 (incident_created_at i);
  io_resolved : opt_ok is_i64 (incident_resolved_at i);
  io_resolution : opt_ok str_ok (incident_resolution i);
}.

Record fiber_ok (f : Fiber) : Prop := {
  fo_id : is_uuid (fiber_id f);
  fo_pc : is_u32 (fiber_pc f);
  fo_stack : seq_ok (value_ok 0) (fiber_stack f);
  fo_wait : wait_ok (fiber_wait f);
  fo_epoch : is_u32 (fiber_loop_epoch f);
  fo_control : seq_ok is_uuid (fiber_control_stack f);
}.

(** ** Sequencing *)

Lemma decodes_ret {A} d (x : A) : decodes d (mret x) [] x.
Proof. intros rest pos. cbn. by rewrite N.add_0_r. Qed.

Lemma decodes_bind {A B} d (m : Decoder A) (k : A -> Decoder B) bs1 bs2 a b :
  decodes d m bs1 a -> decodes d (k a) bs2 b -> decodes d (m ≫= k) (bs1 ++ bs2) b.
Proof.
  intros H1 H2 rest pos. unfold mbind, Decoder_bind.
  rewrite <-app_assoc, H1, H2. unfold len. rewrite length_app. do 3 f_equal. lia.
Qed.

(** The last read of a decoder. *)
Lemma decodes_last {A B} d (m : Decoder A) (k : A -> Decoder B) bs a b :
  decodes d m bs a -> k a = mret b -> decodes d (m ≫= k) bs b.
Proof.
  intros H E. rewrite <-(app_nil_r bs). eapply decodes_bind; [done|]. rewrite E. apply decodes_ret.
Qed.

Lemma from_canonical_bytes_decodes {A} (dec : Decoder A) bs x :
  decodes 0 dec bs x -> from_canonical_bytes dec bs = Ok x.
Proof.
  intros H. unfold from_canonical_bytes, CanonicalReader_new.
  specialize (H [] 0%N). rewrite app_nil_r in H. by rewrite H.
Qed.

(** A decodable encoding is prefix-free. *)
Lemma decodes_prefix_inj {A} d (dec : Decoder A) bs1 bs2 x1 x2 r1 r2 :
  decodes d dec bs1 x1 -> decodes d dec bs2 x2 -> bs1 ++ r1 = bs2 ++ r2 -> x1 = x2 ∧ r1 = r2.
Proof. intros H1 H2 E. specialize (H1 r1 0%N). rewrite E, H2 in H1. by simplify_eq. Qed.

(** ** Fixed-width primitives *)

Lemma decodes_take d n (l : list Byte.byte) : len l = n -> decodes d (reader_take n) l l.
Proof.
  intros <- rest pos. unfold reader_take, len. cbn [rd_bytes rd_pos rd_array_depth].
  rewrite length_app, Nat2N.id, take_app_length, drop_app_length.
  destruct (N.ltb_spec (N.of_nat (length l + length rest)) (N.of_nat (length l))); [lia | done].
Qed.

Lemma len_le_bytes w n : len (le_bytes w n) = N.of_nat w.
Proof. unfold len. by rewrite length_le_bytes. Qed.

Lemma decodes_le d w n :
  (n < 256 ^ N.of_nat w)%N ->
  decodes d (b ← reader_take (N.of_nat w); mret (le_number b)) (le_bytes w n) n.
Proof.
  intros Hn. eapply decodes_last; [apply decodes_take, len_le_bytes|].
  cbv beta. by rewrite le_number_le_bytes.
Qed.

Lemma be_number_reverse l : be_number (reverse l) = le_number l.
Proof.
  unfold be_number, le_number. induction l as [|b l IH]; [done|].
  rewrite reverse_cons, foldl_app. cbn [foldl foldr]. rewrite IH. lia.
Qed.

Lemma i64_as_u64_lt z : (i64_as_u64 z < 2 ^ 64)%N.
Proof. unfold i64_as_u64. pose proof (Z.mod_pos_bound z (2 ^ 64)). lia. Qed.

Lemma u64_as_i64_as_u64 z : is_i64 z -> u64_as_i64 (i64_as_u64 z) = z.
Proof.
  unfold is_i64, u64_as_i64, i64_as_u64, i64_min, i64_max. intros Hz.
  rewrite Z2N.id by (apply Z.mod_pos_bound; lia).
  destruct (Z.leb_spec 0 z).
  - rewrite Z.mod_small by lia. by destruct (Z.leb_spec z 9223372036854775807); [|lia].
  - replace (z mod 2 ^ 64)%Z with (z + 2 ^ 64)%Z
      by (rewrite <-(Z.mod_add z 1) by lia; rewrite Z.mod_small; lia).
    by destruct (Z.leb_spec (z + 2 ^ 64) 9223372036854775807); lia.
Qed.

Global Instance rt_u8 d : RoundTrips d write_u8 read_u8 is_u8.
Proof. intros n Hn. by apply (decodes_le d 1). Qed.
Global Instance rt_u16 d : RoundTrips d write_u16 read_u16 is_u16.
Proof. intros n Hn. apply (decodes_le d 2). unfold is_u16, u16_max in Hn. cbn. lia. Qed.
Global Instance rt_u32 d : RoundTrips d write_u32 read_u32 is_u32.
Proof. intros n Hn. apply (decodes_le d 4). unfold is_u32, u32_max in Hn. cbn. lia. Qed.
Global Instance rt_u64 d : RoundTrips d write_u64 read_u64 is_u64.
Proof. intros n Hn. apply (decodes_le d 8). unfold is_u64, u64_max in Hn. cbn. lia. Qed.
Global Instance rt_addr d : RoundTrips d encode_addr decode_addr is_u32 := rt_u32 d.

Global Instance rt_uuid d : RoundTrips d encode_uuid decode_uuid is_uuid.
Proof.
  intros n Hn. eapply decodes_last;
    [apply decodes_take; unfold len, encode_uuid; by rewrite length_be_bytes|].
  cbv beta. unfold encode_uuid, be_bytes. by rewrite be_number_reverse, le_number_le_bytes.
Qed.

Global Instance rt_i64 d : RoundTrips d (λ z, write_u64 (i64_as_u64 z)) read_i64 is_i64.
Proof.
  intros z Hz. eapply decodes_last.
  - apply round_trip. pose proof (i64_as_u64_lt z). unfold is_u64, u64_max. lia.
  - cbv beta. by rewrite u64_as_i64_as_u64.
Qed.

Global Instance rt_hash d : RoundTrips d (λ h, h) (read_bytes_fixed 32) is_hash.
Proof. intros h Hh. apply decodes_take. unfold len. by rewrite Hh. Qed.

Global Instance rt_bytes d : RoundTrips d write_bytes read_bytes bytes_ok.
Proof. intros l Hl. eapply decodes_bind; [by apply round_trip|]. by apply decodes_take. Qed.

(** Reads the fields of a structure one after the other. *)
Ltac decode_field :=
  solve [apply round_trip; first [assumption | eauto] | apply rt_i64; eauto | apply rt_hash; eauto].
Ltac decode_fields :=
  repeat first
    [ eapply decodes_bind; [decode_field | cbv beta]
    | eapply decodes_last; [decode_field | try by match goal with |- _ = mret ?x => destruct x end] ].

(** Reading the tag of a variant. *)
Lemma decodes_tag {B} d t (k : N -> Decoder B) bs x :
  is_u8 t -> decodes d (k t) bs x -> decodes d (tag ← read_u8; k tag) (write_u8 t ++ bs) x.
Proof. intros. eapply decodes_bind; [by apply round_trip | done]. Qed.
Lemma decodes_tag_only {B} d t (k : N -> Decoder B) x :
  is_u8 t -> k t = mret x -> decodes d (tag ← read_u8; k tag) (write_u8 t) x.
Proof. intros. eapply decodes_last; [by apply round_trip | done]. Qed.

Ltac decode_variant :=
  match goal with
  | |- decodes _ _ (write_u8 _ ++ _) _ => apply decodes_tag; [unfold is_u8; lia | cbn [N.eqb Pos.eqb]]
  | |- decodes _ _ (write_u8 _) _ => apply decodes_tag_only; [unfold is_u8; lia | reflexivity]
  end.

Global Instance rt_bool d : RoundTrips d write_bool read_bool (λ _, True).
Proof. intros [] _; unfold write_bool, read_bool; decode_variant. Qed.

Lemma string_of_as_bytes s : String.string_of_list_byte (as_bytes s) = s.
Proof. apply String.string_of_list_byte_of_string. Qed.

Global Instance rt_str d : RoundTrips d write_str read_str str_ok.
Proof.
  intros s [Hl [cs Hu]]. eapply decodes_last; [by apply rt_bytes|].
  cbv beta. unfold from_utf8. by rewrite Hu, string_of_as_bytes.
Qed.

(** ** Containers *)

Lemma decodes_items {A} d enc dec (ok : A -> Prop) `{!RoundTrips d enc dec ok} l :
  Forall ok l -> decodes d (read_items dec (length l)) (l ≫= enc) l.
Proof.
  induction 1 as [|x l Hx Hl IH]; cbn; [apply decodes_ret|].
  eapply decodes_bind; [by apply round_trip|]. eapply decodes_last; [exact IH | done].
Qed.

Global Instance rt_seq {A} d enc dec (ok : A -> Prop) `{!RoundTrips d enc dec ok} :
  RoundTrips d (write_seq enc) (read_seq dec) (seq_ok ok).
Proof.
  intros l [Hl Hok]. eapply decodes_bind; [by apply round_trip|].
  unfold len. rewrite Nat2N.id. by apply decodes_items with (ok := ok).
Qed.

Global Instance rt_option {A} d enc dec (ok : A -> Prop) `{!RoundTrips d enc dec ok} :
  RoundTrips d (write_option enc) (read_option dec) (opt_ok ok).
Proof.
  intros [x|] Hx; unfold write_option, read_option; decode_variant. decode_fields.
Qed.

Lemma scalars_ok_array items : scalars_ok (VArray items) ↔ Forall scalars_ok items.
Proof.
  cbn. induction items as [|x l IH]; [by split|].
  rewrite Forall_cons. naive_solver.
Qed.

Lemma limits_array items d :
  check_array_limits_at_depth (VArray items) d = Ok tt ->
  (d < MAX_VALUE_ARRAY_DEPTH)%N ∧ (len items <= MAX_VALUE_ARRAY_LEN)%N ∧
  Forall (λ v, check_array_limits_at_depth v (d + 1) = Ok tt) items.
Proof.
  cbn. destruct (N.leb_spec MAX_VALUE_ARRAY_DEPTH d); [done|].
  destruct (N.ltb_spec MAX_VALUE_ARRAY_LEN (len items)); [done|].
  intros Hgo. split_and!; [done|done|]. clear -Hgo. induction items as [|x l IH]; [done|].
  destruct (check_array_limits_at_depth x (d + 1)) as [[]|] eqn:E; [|done]. constructor; auto.
Qed.

Lemma encode_value_array items :
  encode_value (VArray items) = write_u8 4 ++ write_u32 (len items) ++ (items ≫= encode_value).
Proof.
  cbn [encode_value]. apply f_equal, f_equal.
  induction items as [|x l IH]; cbn; [done | by rewrite IH].
Qed.

(** A value at any depth, with the fuel the remaining depth allows. *)
Lemma decodes_value v :
  ∀ fuel d, (MAX_VALUE_ARRAY_DEPTH <= N.of_nat fuel + d)%N -> value_ok d v ->
  decodes d (decode_value_at fuel) (encode_value v) v.
Proof.
  induction v as [b|z|id|id|items IH] using Value_ind'; intros fuel d Hf [Hs Hl];
    [destruct fuel; cbn [encode_value decode_value_at]; decode_variant; decode_fields..|].
  apply scalars_ok_array in Hs. apply limits_array in Hl as (Hd & Hlen & Hl).
  destruct fuel as [|fuel]; [lia|]. rewrite encode_value_array. cbn [decode_value_at].
  decode_variant. intros rest pos. unfold mbind at 1, Decoder_bind at 1, enter_array.
  cbn [rd_bytes rd_pos rd_array_depth].
  destruct (N.ltb_spec MAX_VALUE_ARRAY_DEPTH (d + 1)); [lia|].
  assert (Hitems : decodes (d + 1) (read_items (decode_value_at fuel) (length items))
                     (items ≫= encode_value) items).
  { clear -IH Hs Hl Hf Hd. induction IH as [|x l Hx _ IH]; cbn [length]; [apply decodes_ret|].
    inversion Hs; inversion Hl; subst. eapply decodes_bind; [apply Hx; [lia | done]|].
    eapply decodes_last; [by apply IH | done]. }
  assert (Hn : decodes (d + 1)
    (n ← read_u32;
     if (MAX_VALUE_ARRAY_LEN <? n)%N then fail (ValueArrayTooLong n MAX_VALUE_ARRAY_LEN)
     else read_items (decode_value_at fuel) (N.to_nat n))
    (write_u32 (len items) ++ (items ≫= encode_value)) items).
  { eapply decodes_bind; [apply round_trip; unfold is_u32, u32_max, MAX_VALUE_ARRAY_LEN in *; lia|].
    cbv beta. destruct (N.ltb_spec MAX_VALUE_ARRAY_LEN (len items)); [lia|].
    unfold len. by rewrite Nat2N.id. }
  specialize (Hn rest pos). revert Hn. unfold mbind, Decoder_bind.
  destruct (read_u32 _) as [[n r]|]; [|done].
  destruct (MAX_VALUE_ARRAY_LEN <? n)%N; [done|]. intros ->. cbn [mret Decoder_ret leave_array rd_bytes rd_pos rd_array_depth].
  by rewrite N.add_sub.
Qed.

Global Instance rt_value d : RoundTrips d encode_value decode_value (value_ok d).
Proof. intros v Hv. apply decodes_value; [cbn; lia | done]. Qed.

(** ** Maps and sets *)

Lemma collect_map_entries {V} (m : gmap N V) : collect_map (btree_entries m) = m.
Proof.
  unfold collect_map.
  assert (H : ∀ (l : list (N * V)) (acc : gmap N V), NoDup l.*1 -> (∀ k, k ∈ l.*1 -> acc !! k = None) ->
    foldl (λ m e, <[e.1 := e.2]> m) acc l = (list_to_map l : gmap N V) ∪ acc).
  { induction l as [|[k v] l IH]; intros acc Hnd Hacc; cbn; [by rewrite (left_id_L ∅ _)|].
    inversion Hnd as [|? ? Hk Hnd']; subst. rewrite IH; [|done|].
    - rewrite <-insert_union_r, insert_union_l by (by apply not_elem_of_list_to_map_1). done.
    - intros k' Hk'. rewrite lookup_insert_ne by (intros ->; done). apply Hacc. set_solver. }
  rewrite H; [|apply NoDup_btree_keys|intros; apply lookup_empty].
  rewrite (right_id_L ∅ _), (list_to_map_proper (btree_entries m) (map_to_list m)).
  - apply list_to_map_to_list.
  - apply NoDup_btree_keys.
  - apply btree_entries_perm.
Qed.

Lemma list_to_set_elems (s : gset N) : list_to_set (btree_elems s) = s.
Proof. apply set_eq. intros x. by rewrite elem_of_list_to_set, elem_of_btree_elems. Qed.

Global Instance rt_map {V} d (enc : N * V -> list Byte.byte) dec okk ok
  `{!RoundTrips d enc dec (pair_ok okk ok)} :
  RoundTrips d (λ m, write_seq enc (btree_entries m)) (l ← read_seq dec; mret (collect_map l))
    (map_ok okk ok).
Proof.
  intros m Hm. eapply decodes_last; [by apply (rt_seq d enc dec (pair_ok okk ok))|].
  cbv beta. by rewrite collect_map_entries.
Qed.

Global Instance rt_set d : RoundTrips d encode_effect_set decode_effect_set (set_ok is_uuid).
Proof.
  intros s Hs. eapply decodes_last; [by apply (rt_seq d encode_uuid decode_uuid is_uuid)|].
  cbv beta. by rewrite list_to_set_elems.
Qed.

Global Instance rt_flag_entry :
  RoundTrips 0 encode_flag_entry decode_flag_entry (pair_ok is_u32 (value_ok 0)).
Proof. intros [k v] [Hk Hv]. unfold encode_flag_entry, decode_flag_entry. decode_fields. Qed.

Global Instance rt_join_entry d :
  RoundTrips d encode_join_entry decode_join_entry (pair_ok is_u32 is_u16).
Proof. intros [k v] [Hk Hv]. unfold encode_join_entry, decode_join_entry. decode_fields. Qed.

Global Instance rt_route d :
  RoundTrips d (λ route, write_option write_str route.1 ++ encode_addr route.2) decode_route
    (pair_ok (opt_ok str_ok) is_u32).
Proof. intros [c a] [Hc Ha]. unfold decode_route. decode_fields. Qed.

(** ** Enumerations *)

Global Instance rt_record_kind d :
  RoundTrips d encode_record_kind decode_record_kind (λ _, True).
Proof. intros [b| | |] _; unfold encode_record_kind, decode_record_kind; decode_variant. decode_fields. Qed.

Global Instance rt_record_state d :
  RoundTrips d encode_record_state decode_record_state (λ _, True).
Proof. intros [] _; unfold encode_record_state, decode_record_state; decode_variant. Qed.

Global Instance rt_counters d :
  RoundTrips d encode_counters decode_counters (λ c, is_u32 (arity c) ∧ is_u32 (count c)).
Proof. intros [a c] [Ha Hc]. unfold encode_counters, decode_counters. decode_fields. Qed.

Global Instance rt_race_arm d : RoundTrips d encode_race_arm decode_race_arm race_arm_ok.
Proof.
  intros [] H; cbn [race_arm_ok] in H; destruct_and? H;
    unfold encode_race_arm, decode_race_arm; decode_variant; decode_fields.
Qed.

Global Instance rt_wait d : RoundTrips d encode_wait decode_wait wait_ok.
Proof.
  intros [] H; cbn [wait_ok] in H; destruct_and? H;
    unfold encode_wait, decode_wait; decode_variant; decode_fields.
Qed.

Global Instance rt_process_state d :
  RoundTrips d encode_process_state decode_process_state process_state_ok.
Proof.
  intros [] H; cbn [process_state_ok] in H; destruct_and? H;
    unfold encode_process_state, decode_process_state; decode_variant; decode_fields.
Qed.

Global Instance rt_error_class d : RoundTrips d encode_error_class decode_error_class error_class_ok.
Proof.
  intros [] H; unfold encode_error_class, decode_error_class; decode_variant; decode_fields.
Qed.

Global Instance rt_workspace_kind d :
  RoundTrips d encode_workspace_kind decode_workspace_kind (λ _, True).
Proof. intros [] _; unfold encode_workspace_kind, decode_workspace_kind; decode_variant. Qed.

(** ** Structures *)

Global Instance rt_fiber : RoundTrips 0 encode_fiber decode_fiber fiber_ok.
Proof. intros f []. unfold encode_fiber, decode_fiber. decode_fields. Qed.

Global Instance rt_incident d : RoundTrips d encode_incident decode_incident incident_ok.
Proof. intros i []. unfold encode_incident, decode_incident. decode_fields. Qed.

Global Instance rt_session_scope d :
  RoundTrips d encode_session_scope decode_session_scope
    (λ s, is_uuid (client_group_id s) ∧ opt_ok str_ok (client_group_name s)).
Proof. intros s []. unfold encode_session_scope, decode_session_scope. decode_fields. Qed.

Global Instance rt_record : RoundTrips 0 encode_record decode_record record_ok.
Proof.
  intros r []. unfold encode_record, decode_record. decode_fields.
  cbv beta. rewrite list_to_set_elems. by destruct r.
Qed.

Global Instance rt_table : RoundTrips 0 encode_table decode_table table_ok.
Proof.
  intros t [Hk Hs]. eapply decodes_last;
    [by apply (rt_seq 0 encode_record decode_record record_ok)|].
  cbv beta. f_equal. by apply (collect_by_values rec_id).
Qed.
