(* ===== verification/KernelBase.v ===== *)
(** * The kernel's working set

    [bpmn-lite-kernel/src/lib.rs]: the deterministic context of a transition,
    its error type, the accumulator [Changes] the handlers stage their deltas
    in with [Changes::finish], and the small pure helpers. *)

From Stdlib Require Import Strings.Ascii.
From S2P Require Import Prelude RustStr Json Types Concurrency Platform Effects Transition Bindings.

Definition PUBLISHED_MESSAGE_TTL_MS : N := 300000.

(** ** Context and errors *)

Record DeterministicContext := mkContext {
  logical_time : N;
  command_id : Uuid;
  next_revision : N;
}.

Inductive IntegrityError :=
| Tripwire (surface : string) (expected actual : N)
| Ring1Physical (reason : string)
| Ring2Frame (reason : string)
| Ring3Runtime (reason : string).

(** [enum TransitionError].  [ProcessAbort] is not a value of the Rust type: it
    stands for the stack overflow that ends the process when the recursion of
    [v2_cancel_guard_scope] does not terminate. *)
Inductive TransitionError :=
| UnsupportedCommand (what : string)
| InvalidCommand (reason : string)
| MissingFiber (id : Uuid)
| ProgramCounterOutOfBounds (pc : N)
| StackUnderflow (instruction : string)
| MissingMetadata (what : string)
| ResourceLimitExceeded (resource : string) (actual limit : N)
| StepLimitExceeded (limit : N)
| NumericOverflow (what : string)
| OptimisticConflict
| Integrity (e : IntegrityError)
| RouteNotMatched (node : string)
| MultiInstanceElementUnavailable (flag : FlagKey) (index : N)
| ProcessAbort.

(** ** Staged changes *)

Record Changes := mkChanges {
  ch_fibers_upsert : list Fiber;
  ch_fibers_delete : list Uuid;
  ch_events : list RuntimeEvent;
  ch_effects : list DurableEffect;
  ch_effect_mutations : list EffectMutation;
  ch_timer_mutations : list TimerMutation;
  ch_jobs_enqueue : list JobActivation;
  ch_jobs_ack : list string;
  ch_job_mutations : list JobMutation;
  ch_dedupe : list DedupeWrite;
  ch_incidents : list Incident;
  ch_join_mutations : list JoinMutation;
  ch_buffered_messages : list BufferedMessageMutation;
  ch_cleanup : option TerminalCleanup;
  ch_concurrency_mutations : list ConcurrencyMutation;
  ch_control_stack_deltas : list ControlStackDelta;
}.

Definition Changes_default : Changes :=
  mkChanges [] [] [] [] [] [] [] [] [] [] [] [] [] None [] [].

(** Whole-field assignments, and the pushes the handlers use. *)
Definition put_fibers_upsert (x : list Fiber) (c : Changes) : Changes :=
  mkChanges (x) (ch_fibers_delete c) (ch_events c) (ch_effects c) (ch_effect_mutations c)
    (ch_timer_mutations c) (ch_jobs_enqueue c) (ch_jobs_ack c) (ch_job_mutations c) (ch_dedupe c)
    (ch_incidents c) (ch_join_mutations c) (ch_buffered_messages c) (ch_cleanup c)
    (ch_concurrency_mutations c) (ch_control_stack_deltas c).
Definition put_fibers_delete (x : list Uuid) (c : Changes) : Changes :=
  mkChanges (ch_fibers_upsert c) (x) (ch_events c) (ch_effects c) (ch_effect_mutations c)
    (ch_timer_mutations c) (ch_jobs_enqueue c) (ch_jobs_ack c) (ch_job_mutations c) (ch_dedupe c)
    (ch_incidents c) (ch_join_mutations c) (ch_buffered_messages c) (ch_cleanup c)
    (ch_concurrency_mutations c) (ch_control_stack_deltas c).
Definition put_events (x : list RuntimeEvent) (c : Changes) : Changes :=
  mkChanges (ch_fibers_upsert c) (ch_fibers_delete c) (x) (ch_effects c) (ch_effect_mutations c)
    (ch_timer_mutations c) (ch_jobs_enqueue c) (ch_jobs_ack c) (ch_job_mutations c) (ch_dedupe c)
    (ch_incidents c) (ch_join_mutations c) (ch_buffered_messages c) (ch_cleanup c)
    (ch_concurrency_mutations c) (ch_control_stack_deltas c).
Definition put_effects (x : list DurableEffect) (c : Changes) : Changes :=
  mkChanges (ch_fibers_upsert c) (ch_fibers_delete c) (ch_events c) (x) (ch_effect_mutations c)
    (ch_timer_mutations c) (ch_jobs_enqueue c) (ch_jobs_ack c) (ch_job_mutations c) (ch_dedupe c)
    (ch_incidents c) (ch_join_mutations c) (ch_buffered_messages c) (ch_cleanup c)
    (ch_concurrency_mutations c) (ch_control_stack_deltas c).
Definition put_effect_mutations (x : list EffectMutation) (c : Changes) : Changes :=
  mkChanges (ch_fibers_upsert c) (ch_fibers_delete c) (ch_events c) (ch_effects c) (x)
    (ch_timer_mutations c) (ch_jobs_enqueue c) (ch_jobs_ack c) (ch_job_mutations c) (ch_dedupe c)
    (ch_incidents c) (ch_join_mutations c) (ch_buffered_messages c) (ch_cleanup c)
    (ch_concurrency_mutations c) (ch_control_stack_deltas c).
Definition put_timer_mutations (x : list TimerMutation) (c : Changes) : Changes :=
  mkChanges (ch_fibers_upsert c) (ch_fibers_delete c) (ch_events c) (ch_effects c)
    (ch_effect_mutations c) (x) (ch_jobs_enqueue c) (ch_jobs_ack c) (ch_job_mutations c)
    (ch_dedupe c) (ch_incidents c) (ch_join_mutations c) (ch_buffered_messages c) (ch_cleanup c)
    (ch_concurrency_mutations c) (ch_control_stack_deltas c).
Definition put_jobs_enqueue (x : list JobActivation) (c : Changes) : Changes :=
  mkChanges (ch_fibers_upsert c) (ch_fibers_delete c) (ch_events c) (ch_effects c)
    (ch_effect_mutations c) (ch_timer_mutations c) (x) (ch_jobs_ack c) (ch_job_mutations c)
    (ch_dedupe c) (ch_incidents c) (ch_join_mutations c) (ch_buffered_messages c) (ch_cleanup c)
    (ch_concurrency_mutations c) (ch_control_stack_deltas c).
Definition put_jobs_ack (x : list string) (c : Changes) : Changes :=
  mkChanges (ch_fibers_upsert c) (ch_fibers_delete c) (ch_events c) (ch_effects c)
    (ch_effect_mutations c) (ch_timer_mutations c) (ch_jobs_enqueue c) (x) (ch_job_mutations c)
    (ch_dedupe c) (ch_incidents c) (ch_join_mutations c) (ch_buffered_messages c) (ch_cleanup c)
    (ch_concurrency_mutations c) (ch_control_stack_deltas c).
Definition put_job_mutations (x : list JobMutation) (c : Changes) : Changes :=
  mkChanges (ch_fibers_upsert c) (ch_fibers_delete c) (ch_events c) (ch_effects c)
    (ch_effect_mutations c) (ch_timer_mutations c) (ch_jobs_enqueue c) (ch_jobs_ack c) (x)
    (ch_dedupe c) (ch_incidents c) (ch_join_mutations c) (ch_buffered_messages c) (ch_cleanup c)
    (ch_concurrency_mutations c) (ch_control_stack_deltas c).
Definition put_dedupe (x : list DedupeWrite) (c : Changes) : Changes :=
  mkChanges (ch_fibers_upsert c) (ch_fibers_delete c) (ch_events c) (ch_effects c)
    (ch_effect_mutations c) (ch_timer_mutations c) (ch_jobs_enqueue c) (ch_jobs_ack c)
    (ch_job_mutations c) (x) (ch_incidents c) (ch_join_mutations c) (ch_buffered_messages c)
    (ch_cleanup c) (ch_concurrency_mutations c) (ch_control_stack_deltas c).
Definition put_incidents (x : list Incident) (c : Changes) : Changes :=
  mkChanges (ch_fibers_upsert c) (ch_fibers_delete c) (ch_events c) (ch_effects c)
    (ch_effect_mutations c) (ch_timer_mutations c) (ch_jobs_enqueue c) (ch_jobs_ack c)
    (ch_job_mutations c) (ch_dedupe c) (x) (ch_join_mutations c) (ch_buffered_messages c)
    (ch_cleanup c) (ch_concurrency_mutations c) (ch_control_stack_deltas c).
Definition put_join_mutations (x : list JoinMutation) (c : Changes) : Changes :=
  mkChanges (ch_fibers_upsert c) (ch_fibers_delete c) (ch_events c) (ch_effects c)
    (ch_effect_mutations c) (ch_timer_mutations c) (ch_jobs_enqueue c) (ch_jobs_ack c)
    (ch_job_mutations c) (ch_dedupe c) (ch_incidents c) (x) (ch_buffered_messages c)
    (ch_cleanup c) (ch_concurrency_mutations c) (ch_control_stack_deltas c).
Definition put_buffered_messages (x : list BufferedMessageMutation) (c : Changes) : Changes :=
  mkChanges (ch_fibers_upsert c) (ch_fibers_delete c) (ch_events c) (ch_effects c)
    (ch_effect_mutations c) (ch_timer_mutations c) (ch_jobs_enqueue c) (ch_jobs_ack c)
    (ch_job_mutations c) (ch_dedupe c) (ch_incidents c) (ch_join_mutations c) (x) (ch_cleanup c)
    (ch_concurrency_mutations c) (ch_control_stack_deltas c).
Definition put_cleanup (x : option TerminalCleanup) (c : Changes) : Changes :=
  mkChanges (ch_fibers_upsert c) (ch_fibers_delete c) (ch_events c) (ch_effects c)
    (ch_effect_mutations c) (ch_timer_mutations c) (ch_jobs_enqueue c) (ch_jobs_ack c)
    (ch_job_mutations c) (ch_dedupe c) (ch_incidents c) (ch_join_mutations c)
    (ch_buffered_messages c) (x) (ch_concurrency_mutations c) (ch_control_stack_deltas c).
Definition put_concurrency_mutations (x : list ConcurrencyMutation) (c : Changes) : Changes :=
  mkChanges (ch_fibers_upsert c) (ch_fibers_delete c) (ch_events c) (ch_effects c)
    (ch_effect_mutations c) (ch_timer_mutations c) (ch_jobs_enqueue c) (ch_jobs_ack c)
    (ch_job_mutations c) (ch_dedupe c) (ch_incidents c) (ch_join_mutations c)
    (ch_buffered_messages c) (ch_cleanup c) (x) (ch_control_stack_deltas c).
Definition put_control_stack_deltas (x : list ControlStackDelta) (c : Changes) : Changes :=
  mkChanges (ch_fibers_upsert c) (ch_fibers_delete c) (ch_events c) (ch_effects c)
    (ch_effect_mutations c) (ch_timer_mutations c) (ch_jobs_enqueue c) (ch_jobs_ack c)
    (ch_job_mutations c) (ch_dedupe c) (ch_incidents c) (ch_join_mutations c)
    (ch_buffered_messages c) (ch_cleanup c) (ch_concurrency_mutations c) (x).

Definition push_fiber (x : Fiber) (c : Changes) : Changes := put_fibers_upsert (ch_fibers_upsert c ++ [x]) c.
Definition push_delete (x : Uuid) (c : Changes) : Changes := put_fibers_delete (ch_fibers_delete c ++ [x]) c.
Definition push_event (x : RuntimeEvent) (c : Changes) : Changes := put_events (ch_events c ++ [x]) c.
Definition push_effect (x : DurableEffect) (c : Changes) : Changes := put_effects (ch_effects c ++ [x]) c.
Definition push_effect_mutation (x : EffectMutation) (c : Changes) : Changes := put_effect_mutations (ch_effect_mutations c ++ [x]) c.
Definition push_timer_mutation (x : TimerMutation) (c : Changes) : Changes := put_timer_mutations (ch_timer_mutations c ++ [x]) c.
Definition push_job (x : JobActivation) (c : Changes) : Changes := put_jobs_enqueue (ch_jobs_enqueue c ++ [x]) c.
Definition push_ack (x : string) (c : Changes) : Changes := put_jobs_ack (ch_jobs_ack c ++ [x]) c.
Definition push_job_mutation (x : JobMutation) (c : Changes) : Changes := put_job_mutations (ch_job_mutations c ++ [x]) c.
Definition push_dedupe (x : DedupeWrite) (c : Changes) : Changes := put_dedupe (ch_dedupe c ++ [x]) c.
Definition push_incident (x : Incident) (c : Changes) : Changes := put_incidents (ch_incidents c ++ [x]) c.
Definition push_buffered (x : BufferedMessageMutation) (c : Changes) : Changes := put_buffered_messages (ch_buffered_messages c ++ [x]) c.
Definition push_mutation (x : ConcurrencyMutation) (c : Changes) : Changes := put_concurrency_mutations (ch_concurrency_mutations c ++ [x]) c.
Definition push_delta (x : ControlStackDelta) (c : Changes) : Changes := put_control_stack_deltas (ch_control_stack_deltas c ++ [x]) c.

(** [Changes::finish]: replay every list through the builder, in the source's order. *)
Definition finish (c : Changes) (i : ProcessInstance) : Transition :=
  let t := builder_new i in
  let t := foldl (λ t x, b_upsert_fiber x t) t (ch_fibers_upsert c) in
  let t := foldl (λ t x, b_delete_fiber x t) t (ch_fibers_delete c) in
  let t := foldl (λ t x, b_event x t) t (ch_events c) in
  let t := foldl (λ t x, b_effect x t) t (ch_effects c) in
  let t := foldl (λ t x, b_effect_mutation x t) t (ch_effect_mutations c) in
  let t := foldl (λ t x, b_timer_mutation x t) t (ch_timer_mutations c) in
  let t := foldl (λ t x, b_enqueue_job x t) t (ch_jobs_enqueue c) in
  let t := foldl (λ t x, b_ack_job x t) t (ch_jobs_ack c) in
  let t := foldl (λ t x, b_job_mutation x t) t (ch_job_mutations c) in
  let t := foldl (λ t x, b_dedupe x t) t (ch_dedupe c) in
  let t := foldl (λ t x, b_incident x t) t (ch_incidents c) in
  let t := foldl (λ t x, b_join_mutation x t) t (ch_join_mutations c) in
  let t := foldl (λ t x, b_buffered_message x t) t (ch_buffered_messages c) in
  let t := match ch_cleanup c with Some x => b_terminal_cleanup x t | None => t end in
  let t := foldl (λ t x, b_concurrency_mutation x t) t (ch_concurrency_mutations c) in
  let t := foldl (λ t x, b_control_stack_delta x t) t (ch_control_stack_deltas c) in
  t.

(** ** Helpers *)

(** [apply_fiber_deltas]. *)
Definition apply_fiber_deltas (pre : gmap N Fiber) (upserts : list Fiber) (deletes : list Uuid)
    (delete_all : bool) : gmap N Fiber :=
  if delete_all then ∅
  else
    foldl (λ m id, delete id m)
      (foldl (λ m f, <[fiber_id f := f]> m) pre upserts)
      deletes.

(** [is_truthy]. *)
Definition is_truthy (v : Value) : bool :=
  match v with
  | VBool b => b
  | VI64 z => negb (z =? 0)%Z
  | VStr n => negb (n =? 0)%N
  | VRef n => negb (n =? 0)%N
  | VArray items => negb (bool_decide (items = []))
  end.

(** [mi_collection_len]. *)
Definition mi_collection_len (i : ProcessInstance) (flag : FlagKey) : Z :=
  match flags i !! flag with
  | Some (VArray items) => Z.of_nat (length items)
  | _ => 0%Z
  end.

(** [error_class_label]. *)
Definition error_class_label (e : ErrorClass) : string :=
  match e with
  | Transient => "transient"
  | ContractViolation => "contract_violation"
  | BusinessRejection _ => "business_rejection"
  end.

(** [message_name_matches]. *)
Definition message_name_matches (names : gmap N string) (requested : string) (waiting : N) : bool :=
  match names !! waiting with
  | Some name => bool_decide (name = requested)
  | None => bool_decide (requested = show_N waiting)
  end.

(** [debug_map().get(&pc).cloned().unwrap_or_else(|| format!("pc_{pc}"))]. *)
Definition task_label (w : ExecutableWorkflow) (pc : Addr) : string :=
  default ("pc_" +:+ show_N pc) (debug_map (wf_metadata w) !! pc).

(** [logical_timestamp]. *)
Definition logical_timestamp (ctx : DeterministicContext) : Result TransitionError Z :=
  ok_or (NumericOverflow "logical timestamp") (i64_try_from (logical_time ctx)).

(** [effective_control_stack]; the chain of [v2_cancel_guard_scope] is the same
    expression. *)
Definition effective_control_stack (f : Fiber) : list RecordId :=
  match fiber_wait f with
  | WV2Barrier id => fiber_control_stack f ++ [id]
  | WV2Race id _ => fiber_control_stack f ++ [id]
  | _ => fiber_control_stack f
  end.

Section kernel.
Context {P : Platform}.

(** [DeterministicContext::derived_id] and [::effect_id]. *)
Definition derived_id (ctx : DeterministicContext) (ordinal : N) : Uuid :=
  for_command (command_id ctx) (next_revision ctx) ordinal.
Definition context_effect_id (ctx : DeterministicContext) (instance : Uuid) (ordinal : N)
  : EffectId := for_transition instance (next_revision ctx) ordinal.

(** [format!("{:?}", state)]. *)
Definition debug_state (s : ProcessState) : string :=
  match s with
  | PSRunning => "Running"
  | PSCompleted at_ => "Completed { at: " +:+ show_Z at_ +:+ " }"
  | PSCancelled reason at_ =>
      "Cancelled { reason: " +:+ debug_str unicode_plain reason +:+ ", at: " +:+ show_Z at_ +:+ " }"
  | PSTerminated at_ => "Terminated { at: " +:+ show_Z at_ +:+ " }"
  | PSFailed id => "Failed { incident_id: " +:+ show_uuid id +:+ " }"
  | PSIncidented id => "Incidented { incident_id: " +:+ show_uuid id +:+ " }"
  | PSWaitingOnSubmission id node =>
      "WaitingOnSubmission { callout_id: " +:+ show_uuid id +:+ ", node_id: "
        +:+ debug_str unicode_plain node +:+ " }"
  | PSWaitingOnInvocation id node =>
      "WaitingOnInvocation { execution_id: " +:+ show_uuid id +:+ ", node_id: "
        +:+ debug_str unicode_plain node +:+ " }"
  end.

(** [describe_wait]. *)
Definition describe_wait (w : WaitState) : string :=
  match w with
  | WRunning => ""
  | WTimer deadline => "Timer(" +:+ show_N deadline +:+ ")"
  | WMsg _ name corr_key =>
      "Msg(" +:+ show_N name +:+ ", " +:+ debug_str unicode_plain corr_key +:+ ")"
  | WJob job_key => "Job(" +:+ job_key +:+ ")"
  | WEffect id => "Effect(" +:+ show_uuid id +:+ ")"
  | WJoin join_id => "Join(" +:+ show_N join_id +:+ ")"
  | WV2Barrier id => "V2Barrier(" +:+ show_uuid id +:+ ")"
  | WV2Race id arms => "V2Race(" +:+ show_uuid id +:+ ", " +:+ show_N (len arms) +:+ " arms)"
  | WIncident id => "Incident(" +:+ show_uuid id +:+ ")"
  end.

(** [resolve_correlation_key_at]. *)
Definition resolve_correlation_key_at (w : ExecutableWorkflow) (i : ProcessInstance) (pc : Addr)
  : Result TransitionError string :=
  source ← ok_or (InvalidCommand "message word has no correlation-key source")
    (v2_corr_sources (wf_metadata w) !! pc);
  map_err (λ _, InvalidCommand "correlation key did not resolve to a scalar")
    (resolve_correlation_key i source).

(** [apply_completion]. *)
Definition completion_flag (i : ProcessInstance) (entry : string * Value)
  : Result TransitionError ProcessInstance :=
  let '(name, value) := entry in
  key ← ok_or (InvalidCommand "orch_flags key must be flag_<u32>")
    (raw ← strip_prefix "flag_" name; parse_u32 raw);
  Ok (set_flags (<[key := value]> (flags i)) i).

Definition apply_completion (i : ProcessInstance) (c : JobCompletion)
  : Result TransitionError ProcessInstance :=
  let i := set_payload (jc_domain_payload c) (content_hash (as_bytes (jc_domain_payload c))) i in
  try_fold completion_flag i (btree_entries (jc_orch_flags c)).

(** [fail_contract]: park on a fresh incident. *)
Definition fail_contract (i : ProcessInstance) (f : Fiber) (c : Changes)
    (ctx : DeterministicContext) (message : string) : Result TransitionError Transition :=
  let id := derived_id ctx 0 in
  created ← logical_timestamp ctx;
  let incident := {|
    incident_id := id;
    incident_process_instance_id := instance_id i;
    incident_fiber_id := fiber_id f;
    incident_service_task_id := "pc_" +:+ show_N (fiber_pc f);
    incident_bytecode_addr := fiber_pc f;
    incident_error_class := ContractViolation;
    incident_message := message;
    incident_retry_count := 0;
    incident_created_at := created;
    incident_resolved_at := None;
    incident_resolution := None |} in
  let f := set_wait (WIncident id) f in
  let i := set_state (PSIncidented id) i in
  let c := push_incident incident c in
  let c := push_event (EvIncidentCreated id ("pc_" +:+ show_N (fiber_pc f)) None) c in
  let c := push_fiber f c in
  Ok (finish c i).

End kernel.

(** ** Facts about [finish] and [apply_fiber_deltas] *)

Lemma foldl_field_keep {T A B} (g : T -> B) (op : A -> T -> T) l t :
  (∀ x t, g (op x t) = g t) -> g (foldl (λ t x, op x t) t l) = g t.
Proof. intros H. revert t; induction l as [|x l IH]; intros t; cbn; [done | by rewrite IH, H]. Qed.

Lemma foldl_field_snoc {T A} (g : T -> list A) (op : A -> T -> T) l t :
  (∀ x t, g (op x t) = g t ++ [x]) -> g (foldl (λ t x, op x t) t l) = g t ++ l.
Proof.
  intros H. revert t; induction l as [|x l IH]; intros t; cbn; [by rewrite app_nil_r|].
  by rewrite IH, H, <-app_assoc.
Qed.

(** Read a field of a finished transition: every builder loop either leaves it
    alone or appends to it. *)
Ltac read_finish g :=
  unfold finish; cbv zeta;
  repeat match goal with
  | |- context [match ch_cleanup ?c with _ => _ end] => destruct (ch_cleanup c)
  end;
  repeat first
    [ rewrite (foldl_field_keep g) by done
    | rewrite (foldl_field_snoc g) by done
    | progress cbn [b_terminal_cleanup g] ];
  done.

Section finish_fields.
Variables (c : Changes) (i : ProcessInstance).
Lemma finish_next_snapshot : next_snapshot (finish c i) = i.
Proof. read_finish next_snapshot. Qed.
Lemma finish_fibers_upsert : fibers_upsert (finish c i) = ch_fibers_upsert c.
Proof. read_finish fibers_upsert. Qed.
Lemma finish_fibers_delete : fibers_delete (finish c i) = ch_fibers_delete c.
Proof. read_finish fibers_delete. Qed.
Lemma finish_events : events (finish c i) = ch_events c.
Proof. read_finish events. Qed.
Lemma finish_effects : effects (finish c i) = ch_effects c.
Proof. read_finish effects. Qed.
Lemma finish_timer_mutations : timer_mutations (finish c i) = ch_timer_mutations c.
Proof. read_finish timer_mutations. Qed.
Lemma finish_jobs_ack : jobs_ack (finish c i) = ch_jobs_ack c.
Proof. read_finish jobs_ack. Qed.
Lemma finish_job_mutations : job_mutations (finish c i) = ch_job_mutations c.
Proof. read_finish job_mutations. Qed.
Lemma finish_jobs_enqueue : jobs_enqueue (finish c i) = ch_jobs_enqueue c.
Proof. read_finish jobs_enqueue. Qed.
Lemma finish_dedupe : tr_dedupe (finish c i) = ch_dedupe c.
Proof. read_finish tr_dedupe. Qed.
Lemma finish_incidents : incidents (finish c i) = ch_incidents c.
Proof. read_finish incidents. Qed.
Lemma finish_join_mutations : join_mutations (finish c i) = ch_join_mutations c.
Proof. read_finish join_mutations. Qed.
Lemma finish_effect_mutations : effect_mutations (finish c i) = ch_effect_mutations c.
Proof. read_finish effect_mutations. Qed.
Lemma finish_buffered_messages : buffered_messages (finish c i) = ch_buffered_messages c.
Proof. read_finish buffered_messages. Qed.
Lemma finish_concurrency_mutations :
  concurrency_mutations (finish c i) = ch_concurrency_mutations c.
Proof. read_finish concurrency_mutations. Qed.
Lemma finish_control_stack_deltas :
  control_stack_deltas (finish c i) = ch_control_stack_deltas c.
Proof. read_finish control_stack_deltas. Qed.
Lemma finish_state_override : state_override (finish c i) = None.
Proof. read_finish state_override. Qed.
Lemma finish_cleanup :
  terminal_cleanup (finish c i) = default TerminalCleanup_default (ch_cleanup c).
Proof. read_finish terminal_cleanup. Qed.
Lemma finish_pending_invocations : pending_invocations (finish c i) = [].
Proof. read_finish pending_invocations. Qed.
Lemma finish_pending_take : pending_take (finish c i) = [].
Proof. read_finish pending_take. Qed.
Lemma finish_child_starts : child_starts (finish c i) = [].
Proof. read_finish child_starts. Qed.
Lemma finish_start_dedupe : start_dedupe (finish c i) = None.
Proof. read_finish start_dedupe. Qed.
End finish_fields.

#[export] Hint Rewrite finish_next_snapshot finish_fibers_upsert finish_fibers_delete
  finish_events finish_effects finish_timer_mutations finish_jobs_ack finish_job_mutations
  finish_jobs_enqueue finish_join_mutations finish_effect_mutations finish_dedupe finish_incidents finish_buffered_messages
  finish_concurrency_mutations finish_control_stack_deltas finish_state_override
  finish_cleanup : kernel.

(** A fibre is live after the deltas iff it is not deleted and either was live
    or is upserted; the last upsert wins. *)
Lemma foldl_delete_lookup {V} (m : gmap N V) l k :
  foldl (λ m id, delete id m) m l !! k = if decide (k ∈ l) then None else m !! k.
Proof.
  revert m; induction l as [|x l IH]; intros m; cbn; [by rewrite decide_False by set_solver|].
  rewrite IH. destruct (decide (k ∈ l)); [rewrite decide_True by set_solver; done|].
  destruct (decide (k = x)) as [->|Hne].
  - rewrite lookup_delete_eq. by rewrite decide_True by set_solver.
  - rewrite lookup_delete_ne by done. by rewrite decide_False by set_solver.
Qed.

Lemma foldl_insert_lookup {V} (key : V -> N) (m : gmap N V) l k :
  foldl (λ m v, <[key v := v]> m) m l !! k =
  match last (filter (λ v, key v = k) l) with Some v => Some v | None => m !! k end.
Proof.
  revert m; induction l as [|x l IH]; intros m; cbn [foldl]; [done|].
  rewrite IH, filter_cons.
  destruct (decide (key x = k)) as [Hk|Hk].
  - rewrite last_cons. destruct (last (filter _ l)); [done|]. subst. by rewrite lookup_insert_eq.
  - destruct (last (filter _ l)); [done|]. by rewrite lookup_insert_ne.
Qed.

Lemma lookup_apply_fiber_deltas pre ups dels k :
  apply_fiber_deltas pre ups dels false !! k =
  if decide (k ∈ dels) then None
  else match last (filter (λ f, fiber_id f = k) ups) with
       | Some f => Some f
       | None => pre !! k
       end.
Proof. cbn. by rewrite foldl_delete_lookup, foldl_insert_lookup. Qed.
