(* ===== verification/KernelScope.v ===== *)
(** * Scopes: record reads, membership, cancellation, rollback, guard triggers

    The concurrency part of [bpmn-lite-kernel/src/lib.rs]: reading a record
    through the deltas staged in this transition, reconciling ancestor
    membership, the deepest-first cancellation walk, rollback of a [GUARD-R>]
    scope, and firing a guard. *)

From Stdlib Require Import Strings.Ascii.
From S2P Require Import Prelude RustStr Json Types Concurrency Platform Effects Transition Bindings KernelBase.

(** ** Reading records mid-transition *)

(** The backwards loop of [fetch_record_in_transition]. *)
Fixpoint fetch_record_rev (t : gmap N ConcurrencyRecord) (l : list ConcurrencyMutation)
    (handle : RecordId) : option ConcurrencyRecord :=
  match l with
  | [] => t !! handle
  | CMInsert r :: l' => if (rec_id r =? handle)%N then Some r else fetch_record_rev t l' handle
  | CMRetire id :: l' | CMRemove id :: l' =>
      if (id =? handle)%N then None else fetch_record_rev t l' handle
  end.

(** [fetch_record_in_transition]. *)
Definition fetch_record_in_transition (s : Snapshot) (c : Changes) (handle : RecordId)
  : option ConcurrencyRecord :=
  fetch_record_rev (sn_table s) (reverse (ch_concurrency_mutations c)) handle.

(** [armed_record_ids_in_transition]. *)
Definition armed_record_ids_in_transition (s : Snapshot) (c : Changes) : list RecordId :=
  (filter (λ e, rec_state e.2 = Armed)
     (btree_entries (apply_mutations (sn_table s) (ch_concurrency_mutations c)))).*1.

(** [retire_all_armed_records]. *)
Definition retire_all_armed_records (s : Snapshot) (t : Transition) : Transition :=
  foldl (λ t id, b_concurrency_mutation (CMRetire id) t) t
    (armed_record_ids_in_transition s Changes_default).

(** ** Ancestor membership *)

Inductive MembershipOp := MAdd (f : Uuid) | MRemove (f : Uuid).

Definition apply_membership_op (op : MembershipOp) (r : ConcurrencyRecord) : ConcurrencyRecord :=
  match op with MAdd f => add_member f r | MRemove f => remove_member f r end.

(** One iteration of the batching loop. *)
Definition reconcile_step (s : Snapshot) (c : Changes) (exclude : gset N)
    (touched : gmap N ConcurrencyRecord) (entry : RecordId * MembershipOp)
  : gmap N ConcurrencyRecord :=
  let '(handle, op) := entry in
  if decide (handle ∈ exclude) then touched
  else
    match (match touched !! handle with
           | Some r => Some r
           | None => fetch_record_in_transition s c handle
           end) with
    | None => touched
    | Some r => <[handle := apply_membership_op op r]> touched
    end.

(** [v2_reconcile_ancestor_membership]. *)
Definition v2_reconcile_ancestor_membership (s : Snapshot) (ops : list (RecordId * MembershipOp))
    (exclude : gset N) (c : Changes) : Changes :=
  let touched := foldl (reconcile_step s c exclude) ∅ ops in
  foldl (λ c r, push_mutation (CMInsert r) c) c (btree_values touched).

(** ** The cancellation walk *)

(** The loop over the live fibres: the records nested directly under [parent]
    and the fibres for which [parent] is the innermost record. *)
Definition scope_scan_fiber (parent : RecordId) (acc : gset N * list Uuid) (f : Fiber)
  : gset N * list Uuid :=
  let '(children, direct_leaves) := acc in
  let chain := effective_control_stack f in
  match position (λ id, (id =? parent)%N) chain with
  | None => (children, direct_leaves)
  | Some pos =>
      match chain !! S pos with
      | Some child => ({[child]} ∪ children, direct_leaves)
      | None => (children, direct_leaves ++ [fiber_id f])
      end
  end.

Definition scope_scan (s : Snapshot) (parent : RecordId) : gset N * list Uuid :=
  foldl (scope_scan_fiber parent) (∅, []) (btree_values (sn_fibers s)).

(** [v2_cancel_guard_scope].  The recursion of the source has no bound; [None]
    is reached exactly when [fuel] levels of nesting are not enough. *)
Fixpoint v2_cancel_guard_scope (fuel : nat) (s : Snapshot) (parent : RecordId)
    (retire_order : list RecordId) (leaf_fibers : list Uuid)
  : option (list RecordId * list Uuid) :=
  match fuel with
  | O => None
  | S fuel' =>
      let '(children, direct_leaves) := scope_scan s parent in
      res ← foldl
        (λ acc child, '(ro, lf) ← acc; v2_cancel_guard_scope fuel' s child ro lf)
        (Some (retire_order, leaf_fibers)) (btree_elems children);
      let '(ro, lf) := res in
      Some (ro ++ [parent], lf ++ direct_leaves)
  end.

(** More levels than there are handles on all stacks together. *)
Definition cancel_fuel (s : Snapshot) : nat :=
  S (sum_list ((λ f, length (effective_control_stack f)) <$> btree_values (sn_fibers s))).

Definition cancel_guard_scope (s : Snapshot) (parent : RecordId)
  : Result TransitionError (list RecordId * list Uuid) :=
  ok_or ProcessAbort (v2_cancel_guard_scope (cancel_fuel s) s parent [] []).

(** [ancestor_ops] of the cancellation paths: every handle on the control stack
    of a cancelled fibre loses that fibre. *)
Definition removal_ops (s : Snapshot) (dead : list Uuid) : list (RecordId * MembershipOp) :=
  dead ≫= (λ id,
    match sn_fibers s !! id with
    | Some f => (λ ancestor, (ancestor, MRemove id)) <$> fiber_control_stack f
    | None => []
    end).

Definition push_retires (ids : list RecordId) (c : Changes) : Changes :=
  foldl (λ c id, push_mutation (CMRetire id) c) c ids.
Definition push_deletes (ids : list Uuid) (c : Changes) : Changes :=
  foldl (λ c id, push_delete id c) c ids.

(** The jobs parked on by fibres that are unwound. *)
Definition push_job_cancels (s : Snapshot) (ids : list Uuid) (c : Changes) : Changes :=
  foldl (λ c id,
    match sn_fibers s !! id with
    | Some f =>
        match fiber_wait f with
        | WJob job_key => push_job_mutation (JMCancel job_key) c
        | _ => c
        end
    | None => c
    end) c ids.

(** ** Rollback *)

Inductive RollbackCaller := Continues (f : Uuid) | Dies (f : Uuid).

Record RollbackSnapshot := {
  rs_domain_payload : string;
  rs_domain_payload_hash : Hash;
  rs_flags : gmap N Value;
  rs_join_expected : gmap N N;
  rs_session_stack : SessionStackState;
}.

(** The five assignments every rollback caller makes. *)
Definition restore (r : RollbackSnapshot) (i : ProcessInstance) : ProcessInstance :=
  let i := set_payload (rs_domain_payload r) (rs_domain_payload_hash r) i in
  let i := set_flags (rs_flags r) i in
  let i := set_join_expected (rs_join_expected r) i in
  set_session_stack (rs_session_stack r) i.

Section scopes.
Context {P : Platform}.

(** [v2_rollback_guard_scope]. *)
Definition v2_rollback_guard_scope (s : Snapshot) (guard_handle : RecordId)
    (caller : RollbackCaller) (c : Changes) : Result TransitionError (RollbackSnapshot * Changes) :=
  record ← ok_or (InvalidCommand "rollback: unknown scope handle")
    (fetch_record_in_transition s c guard_handle);
  match rollback_domain_payload record, rollback_domain_payload_hash record,
        rollback_flags record, rollback_join_expected record, rollback_session_stack record with
  | Some payload, Some hash, Some fl, Some joins, Some session =>
      session_stack ← ok_or (InvalidCommand "rollback: malformed session-stack snapshot")
        (from_rollback_snapshot session);
      walk ← cancel_guard_scope s guard_handle;
      let '(retire_order, cancelled) := walk in
      let '(cancelled, fiber) :=
        match caller with
        | Continues id => (filter (λ x, x ≠ id) cancelled, id)
        | Dies id => (cancelled, id)
        end in
      let c := push_retires retire_order c in
      let c := push_deletes cancelled c in
      let c := v2_reconcile_ancestor_membership s (removal_ops s cancelled)
                 (list_to_set retire_order) c in
      let c := push_event (EvV2ScopeCancelled guard_handle fiber retire_order cancelled) c in
      Ok ({| rs_domain_payload := payload; rs_domain_payload_hash := hash; rs_flags := fl;
             rs_join_expected := joins; rs_session_stack := session_stack |}, c)
  | _, _, _, _, _ =>
      Err (InvalidCommand "rollback: handle carries no rollback snapshot (not a GUARD-R> scope)")
  end.

(** The surviving trigger fibre of a spanning rollback: truncate its control
    stack at the retiring guard, emit the pops innermost first. *)
Definition truncate_at_guard (guard_handle : RecordId) (f : Fiber) (c : Changes)
  : Fiber * Changes :=
  match position (λ id, (id =? guard_handle)%N) (fiber_control_stack f) with
  | Some pos =>
      (set_control_stack (take pos (fiber_control_stack f)) f,
       foldl (λ c h, push_delta (CSPop (fiber_id f) h) c) c
         (reverse (drop pos (fiber_control_stack f))))
  | None => (f, c)
  end.

(** The branch both rollback paths share when nothing else survives: undelete
    the trigger fibre, truncate it, re-register it with the scopes it stays in
    and park it on an incident at the guard's own address. *)
Definition park_spanning_survivor (w : ExecutableWorkflow) (s : Snapshot) (guard_handle : RecordId)
    (opened : Addr) (f : Fiber) (error_class : ErrorClass) (message : string) (attempt : N)
    (job_key : option string) (ctx : DeterministicContext) (i : ProcessInstance) (c : Changes)
  : Result TransitionError (Changes * ProcessInstance) :=
  let c := put_fibers_delete (filter (λ x, x ≠ fiber_id f) (ch_fibers_delete c)) c in
  let '(f, c) := truncate_at_guard guard_handle f c in
  let readd := (λ ancestor, (ancestor, MAdd (fiber_id f))) <$> fiber_control_stack f in
  let c := v2_reconcile_ancestor_membership s readd ∅ c in
  let id := derived_id ctx 0 in
  let service_task := task_label w (fiber_pc f) in
  created ← logical_timestamp ctx;
  let incident := {|
    incident_id := id;
    incident_process_instance_id := instance_id i;
    incident_fiber_id := fiber_id f;
    incident_service_task_id := service_task;
    incident_bytecode_addr := fiber_pc f;
    incident_error_class := error_class;
    incident_message := message;
    incident_retry_count := attempt;
    incident_created_at := created;
    incident_resolved_at := None;
    incident_resolution := None |} in
  let f := set_wait (WIncident id) (set_pc opened f) in
  let i := set_state (PSIncidented id) i in
  let c := push_incident incident c in
  let c := push_fiber f c in
  let c := push_event (EvIncidentCreated id service_task job_key) c in
  Ok (c, i).

(** [live_after_without_trigger.is_empty()]. *)
Definition nothing_else_survives (s : Snapshot) (c : Changes) (trigger : Uuid) : bool :=
  bool_decide (delete trigger
    (apply_fiber_deltas (sn_fibers s) (ch_fibers_upsert c) (ch_fibers_delete c) false) = ∅).

(** [members.iter().min()]. *)
Definition min_member (r : ConcurrencyRecord) : option Uuid := head (btree_elems (members r)).

(** [apply_v2_guard_timer_rollback]. *)
Definition apply_v2_guard_timer_rollback (w : ExecutableWorkflow) (s : Snapshot)
    (guard_handle : RecordId) (guard_record : ConcurrencyRecord) (ctx : DeterministicContext)
  : Result TransitionError (Changes * ProcessInstance) :=
  match min_member guard_record with
  | None => Ok (Changes_default, sn_instance s)
  | Some trigger =>
      res ← v2_rollback_guard_scope s guard_handle (Dies trigger) Changes_default;
      let '(restored, c) := res in
      let i := restore restored (sn_instance s) in
      let c := push_job_cancels s (ch_fibers_delete c) c in
      if nothing_else_survives s c trigger then
        f ← ok_or (InvalidCommand "guard timer rollback: trigger fibre vanished mid-transition")
          (sn_fibers s !! trigger);
        opened ← ok_or
          (InvalidCommand "guard timer rollback: spanning guard scope carries no opened_at address")
          (opened_at guard_record);
        park_spanning_survivor w s guard_handle opened f ContractViolation
          "guard-arming timer deadline elapsed" 0 None ctx i c
      else Ok (c, i)
  end.

(** ** Firing a guard *)

(** The control stack of the handler fibre: the prefix shared by the fibres
    inside the guard, without the guard's own handle when it interrupts. *)
Definition handler_stack (s : Snapshot) (record_id : RecordId) (interrupting : bool)
  : list RecordId :=
  default []
    (find_map (λ f,
       pos ← position (λ id, (id =? record_id)%N) (fiber_control_stack f);
       Some (take (if interrupting then pos else S pos) (fiber_control_stack f)))
     (btree_values (sn_fibers s))).

(** [v2_trigger_guard_changes_with_target]. *)
Definition v2_trigger_guard_changes_with_target (s : Snapshot) (record_id : RecordId)
    (ctx : DeterministicContext) (handler_target : Addr) : Result TransitionError Changes :=
  record ← ok_or (InvalidCommand "V2TriggerGuard: unknown guard handle") (sn_table s !! record_id);
  interrupting ← (match rec_kind record with
                  | KGuard interrupting => Ok interrupting
                  | _ => Err (InvalidCommand "V2TriggerGuard: handle is not a guard")
                  end);
  _ ← ensure (bool_decide (rec_state record = Armed))
    (InvalidCommand "V2TriggerGuard: guard is not armed");
  let stack := handler_stack s record_id interrupting in
  let handler := derived_id ctx 0 in
  let c := push_fiber (set_control_stack stack (Fiber_new handler handler_target))
             Changes_default in
  let c := push_event (EvFiberSpawned handler handler_target None) c in
  let c := v2_reconcile_ancestor_membership s
             ((λ ancestor, (ancestor, MAdd handler)) <$> stack) ∅ c in
  if (interrupting : bool) then
    walk ← cancel_guard_scope s record_id;
    let '(retire_order, cancelled) := walk in
    let c := push_retires retire_order c in
    let c := push_deletes cancelled c in
    let c := push_job_cancels s cancelled c in
    let c := v2_reconcile_ancestor_membership s (removal_ops s cancelled)
               (list_to_set retire_order) c in
    Ok (push_event (EvV2GuardTriggered record_id handler retire_order cancelled) c)
  else
    Ok (push_event (EvV2GuardNTriggered record_id handler) c).

(** [v2_trigger_guard_changes]. *)
Definition v2_trigger_guard_changes (s : Snapshot) (record_id : RecordId)
    (ctx : DeterministicContext) : Result TransitionError Changes :=
  record ← ok_or (InvalidCommand "V2TriggerGuard: unknown guard handle") (sn_table s !! record_id);
  _ ← (match rec_kind record with
       | KGuard _ => Ok tt
       | _ => Err (InvalidCommand "V2TriggerGuard: handle is not a guard")
       end);
  _ ← ensure (bool_decide (rec_state record = Armed))
    (InvalidCommand "V2TriggerGuard: guard is not armed");
  target ← ok_or (InvalidCommand "V2TriggerGuard: guard has no handler address")
    (rec_handler record);
  v2_trigger_guard_changes_with_target s record_id ctx target.

(** [apply_v2_trigger_guard]. *)
Definition apply_v2_trigger_guard (s : Snapshot) (command : Command)
    (ctx : DeterministicContext) : Result TransitionError Transition :=
  match command with
  | CV2TriggerGuard record_id =>
      c ← v2_trigger_guard_changes s record_id ctx;
      Ok (finish c (sn_instance s))
  | _ => Err (InvalidCommand "v2 guard trigger requires V2TriggerGuard")
  end.

End scopes.
