(* ===== verification/KernelTick.v ===== *)
(** * The interpreter: one [Tick]

    [apply_tick] of [bpmn-lite-kernel/src/lib.rs]: the selected fibre runs
    until it parks, ends or exhausts the verified step limit.  The mutable
    locals of the Rust loop are the fields of [TickState]; every instruction
    arm is a definition that either continues the loop or returns a finished
    transition. *)

From Stdlib Require Import Strings.Ascii.
From S2P Require Import Prelude RustStr Json Types Concurrency Platform Effects Transition Bindings KernelBase KernelScope.

Record TickState := mkTick {
  ts_fiber : Fiber;
  ts_instance : ProcessInstance;
  ts_changes : Changes;
  ts_ordinal : N;
  ts_race_arms : list V2RaceArm;
}.

(** What an instruction arm does to the loop. *)
Inductive StepOutcome :=
| Continue (ts : TickState)
| Return (t : Transition).

Definition on_fiber (g : Fiber -> Fiber) (ts : TickState) : TickState :=
  mkTick (g (ts_fiber ts)) (ts_instance ts) (ts_changes ts) (ts_ordinal ts) (ts_race_arms ts).
Definition on_instance (g : ProcessInstance -> ProcessInstance) (ts : TickState) : TickState :=
  mkTick (ts_fiber ts) (g (ts_instance ts)) (ts_changes ts) (ts_ordinal ts) (ts_race_arms ts).
Definition on_changes (g : Changes -> Changes) (ts : TickState) : TickState :=
  mkTick (ts_fiber ts) (ts_instance ts) (g (ts_changes ts)) (ts_ordinal ts) (ts_race_arms ts).
Definition set_race_arms (l : list V2RaceArm) (ts : TickState) : TickState :=
  mkTick (ts_fiber ts) (ts_instance ts) (ts_changes ts) (ts_ordinal ts) l.
(** [ordinal = ordinal.saturating_add(1)]. *)
Definition next_ordinal (ts : TickState) : TickState :=
  mkTick (ts_fiber ts) (ts_instance ts) (ts_changes ts) (sat_add u32_max (ts_ordinal ts) 1)
    (ts_race_arms ts).

(** Fall through to the next instruction. *)
Definition fall_through (ts : TickState) : StepOutcome := Continue (on_fiber advance_pc ts).

(** [changes.fibers_upsert.push(fiber); return Ok(changes.finish(instance))]. *)
Definition park (ts : TickState) : StepOutcome :=
  Return (finish (push_fiber (ts_fiber ts) (ts_changes ts)) (ts_instance ts)).

(** [fiber.stack.pop().ok_or(StackUnderflow(what))?]. *)
Definition pop_value (what : string) (ts : TickState) : Result TransitionError (TickState * Value) :=
  match vec_pop (fiber_stack (ts_fiber ts)) with
  | Some (rest, v) => Ok (on_fiber (set_stack rest) ts, v)
  | None => Err (StackUnderflow what)
  end.

(** [fiber.control_stack.pop().ok_or(StackUnderflow(what))?] and the [Pop]
    delta that follows it. *)
Definition pop_handle (what : string) (ts : TickState)
  : Result TransitionError (TickState * RecordId) :=
  match vec_pop (fiber_control_stack (ts_fiber ts)) with
  | Some (rest, h) =>
      Ok (on_changes (push_delta (CSPop (fiber_id (ts_fiber ts)) h))
            (on_fiber (set_control_stack rest) ts), h)
  | None => Err (StackUnderflow what)
  end.

(** [let Value::I64(x) = value else { return Err(..) }]. *)
Definition as_i64 (reason : string) (v : Value) : Result TransitionError Z :=
  match v with VI64 z => Ok z | _ => Err (InvalidCommand reason) end.

(** [iter().map(|(k, v)| (format!("flag_{k}"), v)).collect()]. *)
Definition orch_flags_of (fl : gmap N Value) : gmap string Value :=
  foldl (λ m e, <["flag_" +:+ show_N e.1 := e.2]> m) ∅ (btree_entries fl).

Section tick.
Context {P : Platform}.
Variables (w : ExecutableWorkflow) (s : Snapshot) (ctx : DeterministicContext).

(** ** Control flow and data *)

Definition exec_branch (on_true : bool) (target : Addr) (ts : TickState)
  : Result TransitionError StepOutcome :=
  '(ts, v) ← pop_value "branch" ts;
  Ok (Continue
    (if bool_decide (is_truthy v = on_true) then on_fiber (set_pc target) ts
     else on_fiber advance_pc ts)).

Definition exec_push (v : Value) (ts : TickState) : Result TransitionError StepOutcome :=
  Ok (fall_through (on_fiber (push_value v) ts)).

Definition exec_pop (ts : TickState) : Result TransitionError StepOutcome :=
  '(ts, _) ← pop_value "Pop" ts;
  Ok (fall_through ts).

Definition exec_load_flag (key : FlagKey) (ts : TickState) : Result TransitionError StepOutcome :=
  exec_push (default (VBool false) (flags (ts_instance ts) !! key)) ts.

Definition exec_load_placeholder_match (placeholder expected : string) (ts : TickState)
  : Result TransitionError StepOutcome :=
  exec_push (VBool (placeholder_matches (ts_instance ts) placeholder expected)) ts.

Definition exec_route_zero_match (ts : TickState) : Result TransitionError StepOutcome :=
  t ← fail_contract (ts_instance ts) (ts_fiber ts) (ts_changes ts) ctx
    ("inclusive gateway at " +:+ task_label w (fiber_pc (ts_fiber ts))
       +:+ " matched none of its declared branches and has no default target");
  Ok (Return t).

Definition exec_mi_index_live (flag : FlagKey) (index : N) (ts : TickState)
  : Result TransitionError StepOutcome :=
  exec_push (VBool (Z.of_N index <? mi_collection_len (ts_instance ts) flag)%Z) ts.

Definition exec_mi_load_element (flag : FlagKey) (index : N) (ts : TickState)
  : Result TransitionError StepOutcome :=
  element ← ok_or (MultiInstanceElementUnavailable flag index)
    (match flags (ts_instance ts) !! flag with
     | Some (VArray items) => items !! N.to_nat index
     | _ => None
     end);
  exec_push element ts.

Definition exec_mi_arity_check (flag : FlagKey) (max : N) (ts : TickState)
  : Result TransitionError StepOutcome :=
  let length := mi_collection_len (ts_instance ts) flag in
  if (Z.of_N max <? length)%Z then
    Err (ResourceLimitExceeded "multi-instance collection length" (i64_clamp_u64 length) max)
  else Ok (fall_through ts).

Definition exec_store_flag (key : FlagKey) (ts : TickState) : Result TransitionError StepOutcome :=
  '(ts, v) ← pop_value "StoreFlag" ts;
  let ts := on_instance (λ i, set_flags (<[key := v]> (flags i)) i) ts in
  let ts := on_changes (push_event (EvFlagSet key v)) ts in
  Ok (fall_through ts).

Definition exec_inc_counter (counter_id : N) (ts : TickState)
  : Result TransitionError StepOutcome :=
  let count := sat_add u32_max (default 0%N (counters (ts_instance ts) !! counter_id)) 1 in
  let ts := on_instance (λ i, set_counters (<[counter_id := count]> (counters i)) i) ts in
  let epoch := sat_add u32_max (fiber_loop_epoch (ts_fiber ts)) 1 in
  let ts := on_fiber (set_loop_epoch epoch) ts in
  let ts := on_changes (push_event (EvCounterIncremented counter_id count epoch)) ts in
  Ok (fall_through ts).

Definition exec_br_counter_lt (counter_id limit : N) (target : Addr) (ts : TickState)
  : Result TransitionError StepOutcome :=
  if (default 0%N (counters (ts_instance ts) !! counter_id) <? limit)%N
  then Ok (Continue (on_fiber (set_pc target) ts))
  else Ok (fall_through ts).

(** ** Tasks *)

Definition job_key_of (ts : TickState) (service_task_id : string) : string :=
  show_uuid (instance_id (ts_instance ts)) +:+ ":" +:+ service_task_id +:+ ":"
    +:+ show_N (fiber_pc (ts_fiber ts)) +:+ ":" +:+ show_N (fiber_loop_epoch (ts_fiber ts)).

(** Enqueue the activation, emit [JobActivated], park on the job. *)
Definition activate_job (task_type job_key service_task_id : string) (ts : TickState)
  : StepOutcome :=
  let i := ts_instance ts in
  let ts := on_changes (push_job {|
    ja_job_key := job_key;
    ja_tenant_id := inst_tenant_id i;
    ja_process_instance_id := instance_id i;
    ja_task_type := task_type;
    ja_service_task_id := service_task_id;
    ja_domain_payload := domain_payload i;
    ja_domain_payload_hash := domain_payload_hash i;
    ja_session_stack := session_stack i;
    ja_orch_flags := orch_flags_of (flags i);
    ja_retries_remaining := 3;
    ja_entry_id := entry_id i;
    ja_runbook_id := runbook_id i;
    ja_worker_id := "";
    ja_claim_token := "";
    ja_claim_expires_at := None;
    ja_attempt_count := 0;
    ja_failure_count := 0;
    ja_not_before := None |}) ts in
  let ts := on_changes
    (push_event (EvJobActivated job_key task_type service_task_id (fiber_pc (ts_fiber ts)))) ts in
  park (on_fiber (set_wait (WJob job_key)) ts).

Definition exec_native (task_type retc : N) (ts : TickState) : Result TransitionError StepOutcome :=
  task ← ok_or (MissingMetadata "task manifest")
    (task_manifest (wf_metadata w) !! N.to_nat task_type);
  let service_task_id := task_label w (fiber_pc (ts_fiber ts)) in
  let job_key := job_key_of ts service_task_id in
  match sn_dedupe s !! job_key with
  | Some completion =>
      i ← apply_completion (ts_instance ts) completion;
      let ts := on_instance (λ _, i) ts in
      let ts := on_fiber
        (λ f, set_stack (fiber_stack f ++ replicate (N.to_nat retc) (VBool true)) f) ts in
      Ok (fall_through ts)
  | None => Ok (activate_job task job_key service_task_id ts)
  end.

Definition exec_dsl_task (task_type : N) (produces : option string) (ts : TickState)
  : Result TransitionError StepOutcome :=
  task ← ok_or (MissingMetadata "task manifest")
    (task_manifest (wf_metadata w) !! N.to_nat task_type);
  let service_task_id := task_label w (fiber_pc (ts_fiber ts)) in
  let job_key := job_key_of ts service_task_id in
  match sn_dedupe s !! job_key with
  | Some completion =>
      i ← apply_completion (ts_instance ts) completion;
      i ← (match produces with
           | Some placeholder =>
               map_err InvalidCommand (bind_placeholder_from_payload i placeholder)
           | None => Ok i
           end);
      Ok (fall_through (on_instance (λ _, i) ts))
  | None => Ok (activate_job task job_key service_task_id ts)
  end.

Definition exec_route_payload (branches : list PayloadRouteBranch) (default_target : option Addr)
    (ts : TickState) : Result TransitionError StepOutcome :=
  let target := find_map (λ b,
    if placeholder_matches (ts_instance ts) (prb_placeholder b) (prb_expected_value b)
    then Some (prb_target b) else None) branches in
  match (match target with Some a => Some a | None => default_target end) with
  | Some next_pc => Ok (Continue (on_fiber (set_pc next_pc) ts))
  | None =>
      t ← fail_contract (ts_instance ts) (ts_fiber ts) (ts_changes ts) ctx
        ("exclusive route at " +:+ task_label w (fiber_pc (ts_fiber ts))
           +:+ " matched none of its declared branches and has no default target");
      Ok (Return t)
  end.

(** The [Invoke] effect and the pending event of an FFI word at [pc]; the
    declaration comes from the word's own binding table. *)
Definition invoke_ffi (decl : option FfiTaskDecl) (missing mismatch : string) (template_id : Hash)
    (ts : TickState) : Result TransitionError (TickState * EffectId) :=
  let f := ts_fiber ts in
  declaration ← ok_or (MissingMetadata missing) decl;
  _ ← ensure (bool_decide (ffi_template_id declaration = template_id)) (MissingMetadata mismatch);
  input ← map_err (λ _, InvalidCommand "FFI input contract violation")
    (encode_ffi_inputs (ts_instance ts) declaration);
  let id := for_instruction (instance_id (ts_instance ts)) (fiber_id f) (fiber_pc f) in
  let ts := on_changes (push_effect
    (Invoke id (fiber_id f) (fiber_pc f) (hex_string template_id) template_id input
       (show_uuid id))) ts in
  let ts := on_changes (push_event
    (EvFfiInvocationPending id (hex_string template_id) (task_label w (fiber_pc f)) (fiber_pc f)
       "")) ts in
  Ok (ts, id).

Definition exec_ffi (template_id : Hash) (ts : TickState) : Result TransitionError StepOutcome :=
  '(ts, id) ← invoke_ffi (ffi_task_decls (wf_metadata w) !! fiber_pc (ts_fiber ts))
    "FFI task declaration" "FFI template identity" template_id ts;
  Ok (park (on_fiber (set_wait (WEffect id)) ts)).

Definition exec_await_effect (template_id : Hash) (ts : TickState)
  : Result TransitionError StepOutcome :=
  '(ts, id) ← invoke_ffi (v2_ffi_task_decls (wf_metadata w) !! fiber_pc (ts_fiber ts))
    "v2 FFI effect declaration" "v2 FFI effect template identity" template_id ts;
  Ok (park (on_fiber (set_wait (WEffect id)) ts)).

(** ** Messages and timers *)

Definition exec_publish_message (name : N) (ts : TickState) : Result TransitionError StepOutcome :=
  let f := ts_fiber ts in
  let i := ts_instance ts in
  correlation_key ← resolve_correlation_key_at w i (fiber_pc f);
  let message_name := default (show_N name) (message_name_map (wf_metadata w) !! name) in
  let msg_id := "publish:" +:+ show_uuid (instance_id i) +:+ ":" +:+ show_uuid (fiber_id f)
    +:+ ":" +:+ show_N (fiber_pc f) in
  expires ← ok_or (NumericOverflow "published message expiry")
    (checked_add_u64 (logical_time ctx) PUBLISHED_MESSAGE_TTL_MS);
  expires_at ← ok_or (NumericOverflow "published message expiry") (i64_try_from expires);
  received_at ← logical_timestamp ctx;
  let ts := on_changes (push_buffered (BMInsert {|
    bm_tenant_id := inst_tenant_id i;
    bm_message_name := message_name;
    bm_correlation_key := correlation_key;
    bm_msg_id := msg_id;
    bm_payload := [];
    bm_payload_hash := None;
    bm_process_instance_id := Some (instance_id i);
    bm_received_at := received_at;
    bm_expires_at := expires_at |})) ts in
  let ts := on_changes
    (push_event (EvMessageBuffered message_name correlation_key msg_id expires_at)) ts in
  Ok (fall_through ts).

(** Schedule the wait timer and park, past the instruction. *)
Definition park_on_timer (deadline : N) (ts : TickState) : StepOutcome :=
  let f := ts_fiber ts in
  let ts := on_fiber (λ f, set_wait (WTimer deadline) (advance_pc f)) ts in
  let ts := on_changes (push_event (EvWaitTimerSet (fiber_id f) deadline)) ts in
  let ts := on_changes (push_effect
    (ScheduleTimer (for_instruction (instance_id (ts_instance ts)) (fiber_id f) (fiber_pc f))
       (fiber_id f) deadline TKWait None)) ts in
  park ts.

Definition exec_wait_for (ts : TickState) : Result TransitionError StepOutcome :=
  '(ts, v) ← pop_value "V2WaitFor" ts;
  duration ← as_i64 "V2WaitFor: duration must be I64" v;
  deadline ← ok_or (NumericOverflow "V2WaitFor deadline")
    (checked_add_u64 (logical_time ctx) (i64_clamp_u64 duration));
  Ok (park_on_timer deadline ts).

Definition exec_wait_until (ts : TickState) : Result TransitionError StepOutcome :=
  '(ts, v) ← pop_value "V2WaitUntil" ts;
  deadline ← as_i64 "V2WaitUntil: deadline must be I64" v;
  Ok (park_on_timer (i64_clamp_u64 deadline) ts).

Definition buffered_match (name : N) (corr_key : string) (b : ClaimedBufferedMessage) : bool :=
  message_name_matches (message_name_map (wf_metadata w)) (bm_message_name (cbm_message b)) name
  && bool_decide (bm_correlation_key (cbm_message b) = corr_key).

Definition exec_wait_msg (name : N) (ts : TickState) : Result TransitionError StepOutcome :=
  let f := ts_fiber ts in
  corr_key ← resolve_correlation_key_at w (ts_instance ts) (fiber_pc f);
  match list_find (λ b, buffered_match name corr_key b) (sn_buffered_messages s) with
  | Some (_, buffered) =>
      let m := cbm_message buffered in
      i ← (match bm_payload_hash m with
           | Some hash =>
               payload ← ok_or (InvalidCommand "buffered message payload is not UTF-8")
                 (from_utf8 (bm_payload m));
               Ok (set_payload payload hash (ts_instance ts))
           | None => Ok (ts_instance ts)
           end);
      let ts := on_instance (λ _, i) ts in
      let ts := on_changes (push_buffered (BMConsume buffered)) ts in
      let ts := on_changes (push_event (EvBufferedMessageConsumed (bm_message_name m)
        (bm_correlation_key m) (bm_msg_id m) (fiber_id f))) ts in
      let ts := on_changes (push_event (EvMsgReceived name corr_key None)) ts in
      Ok (fall_through ts)
  | None =>
      let ts := on_changes (push_event (EvWaitMsgSubscribed (fiber_id f) name corr_key)) ts in
      Ok (park (on_fiber (λ f, set_wait (WMsg 0 name corr_key) (advance_pc f)) ts))
  end.

(** ** Termination *)

Definition exec_end (ts : TickState) : Result TransitionError StepOutcome :=
  let c := push_delete (fiber_id (ts_fiber ts)) (ts_changes ts) in
  let live_after :=
    apply_fiber_deltas (sn_fibers s) (ch_fibers_upsert c) (ch_fibers_delete c) false in
  if bool_decide (live_after = ∅) then
    at_ ← logical_timestamp ctx;
    let c := push_event (EvCompleted at_) c in
    let c := put_cleanup (Some (mkCleanup true true true)) c in
    Ok (Return (finish c (set_state (PSCompleted at_) (ts_instance ts))))
  else Ok (Return (finish c (ts_instance ts))).

Definition exec_end_terminate (ts : TickState) : Result TransitionError StepOutcome :=
  at_ ← logical_timestamp ctx;
  let c := push_event (EvTerminated at_ (fiber_id (ts_fiber ts))) (ts_changes ts) in
  let c := put_cleanup (Some (mkCleanup true true true)) c in
  let c := push_retires (armed_record_ids_in_transition s c) c in
  Ok (Return (finish c (set_state (PSTerminated at_) (ts_instance ts)))).

Definition exec_fail (code : N) (ts : TickState) : Result TransitionError StepOutcome :=
  t ← fail_contract (ts_instance ts) (ts_fiber ts) (ts_changes ts) ctx
    ("process failed with code " +:+ show_N code);
  Ok (Return t).

(** ** Guards *)

(** Allocate a record whose only member is the opening fibre, push its handle,
    emit the opening event, fall through. *)
Definition open_record (mk : RecordId -> ConcurrencyRecord) (ev : RecordId -> RuntimeEvent)
    (ts : TickState) : TickState :=
  let f := ts_fiber ts in
  let id := derived_id ctx (ts_ordinal ts) in
  let ts := next_ordinal ts in
  let ts := on_changes (push_mutation (CMInsert (add_member (fiber_id f) (mk id)))) ts in
  let ts := on_fiber (push_handle id) ts in
  let ts := on_changes (push_delta (CSPush (fiber_id f) id)) ts in
  on_changes (push_event (ev id)) ts.

Definition guard_record (handler : option Addr) (interrupting : bool) (pc : Addr) (id : RecordId)
  : ConcurrencyRecord :=
  mkRecord id (KGuard interrupting) ∅ handler Armed RecordCounters_default
    None None None None None (Some pc) [].

Definition exec_guard (interrupting : bool) (handler : Addr) (ts : TickState)
  : Result TransitionError StepOutcome :=
  let f := ts_fiber ts in
  Ok (fall_through (open_record (guard_record (Some handler) interrupting (fiber_pc f))
    (λ id, EvV2GuardOpened id (fiber_id f) handler) ts)).

Definition rollback_record (i : ProcessInstance) (pc : Addr) (id : RecordId) : ConcurrencyRecord :=
  mkRecord id (KGuard true) ∅ None Armed RecordCounters_default
    (Some (domain_payload i)) (Some (domain_payload_hash i)) (Some (flags i))
    (Some (join_expected i)) (Some (to_rollback_snapshot (session_stack i))) (Some pc) [].

Definition exec_guard_r (ts : TickState) : Result TransitionError StepOutcome :=
  let f := ts_fiber ts in
  Ok (fall_through (open_record (rollback_record (ts_instance ts) (fiber_pc f))
    (λ id, EvV2GuardROpened id (fiber_id f)) ts)).

(** [V2GuardEnd], [V2GuardNEnd] and [V2GuardREnd]. *)
Definition exec_guard_end (what : string) (ts : TickState) : Result TransitionError StepOutcome :=
  '(ts, handle) ← pop_handle what ts;
  let ts := on_changes (push_mutation (CMRetire handle)) ts in
  let ts := on_changes (push_event (EvV2GuardRetired handle (fiber_id (ts_fiber ts)))) ts in
  Ok (fall_through ts).

Definition exec_guard_arm_timer (ts : TickState) : Result TransitionError StepOutcome :=
  '(ts, v) ← pop_value "V2GuardArmTimer" ts;
  duration ← as_i64 "V2GuardArmTimer: duration must be I64" v;
  let f := ts_fiber ts in
  record_id ← ok_or (InvalidCommand "V2GuardArmTimer: no open guard")
    (last (fiber_control_stack f));
  let due_at := sat_add u64_max (logical_time ctx) (i64_clamp_u64 duration) in
  let effect_id := for_instruction (instance_id (ts_instance ts)) (fiber_id f) (fiber_pc f) in
  let repeat_spec :=
    match rec_kind <$> fetch_record_in_transition s (ts_changes ts) record_id with
    | Some (KGuard false) => Some (mkRepeat (i64_clamp_u64 duration) 1 0)
    | _ => None
    end in
  let ts := on_changes (push_effect
    (ScheduleTimer effect_id (fiber_id f) due_at (TKV2GuardTimer record_id) repeat_spec)) ts in
  Ok (fall_through ts).

(** The position an error route takes on its guard: a catch-all last, a
    specific code before the trailing catch-all. *)
Definition insert_route (route : option string * Addr) (routes : list (option string * Addr))
  : list (option string * Addr) :=
  match route.1 with
  | None => routes ++ [route]
  | Some _ =>
      let pos := default (length routes)
        (position (λ r, match r.1 with None => true | Some _ => false end) routes) in
      vec_insert pos route routes
  end.

(** The [iter_mut().rev()] loop of [V2GuardArmError]: [None] when no staged
    insert of the record is found. *)
Fixpoint arm_error_rev (record_id : RecordId) (route : option string * Addr)
    (l : list ConcurrencyMutation) : Result TransitionError (option (list ConcurrencyMutation)) :=
  match l with
  | [] => Ok None
  | CMInsert r :: l' =>
      if (rec_id r =? record_id)%N then
        match rec_state r, rec_kind r with
        | Armed, KGuard _ =>
            Ok (Some (CMInsert (set_error_routes (insert_route route (error_routes r)) r) :: l'))
        | _, _ => Err (InvalidCommand "V2GuardArmError: target record is not an armed guard")
        end
      else
        res ← arm_error_rev record_id route l';
        Ok (option_map (cons (CMInsert r)) res)
  | m :: l' =>
      res ← arm_error_rev record_id route l';
      Ok (option_map (cons m) res)
  end.

Definition exec_guard_arm_error (error_code : option string) (handler : Addr) (ts : TickState)
  : Result TransitionError StepOutcome :=
  record_id ← ok_or (InvalidCommand "V2GuardArmError: no open guard")
    (last (fiber_control_stack (ts_fiber ts)));
  res ← arm_error_rev record_id (error_code, handler)
    (reverse (ch_concurrency_mutations (ts_changes ts)));
  muts ← ok_or (InvalidCommand "V2GuardArmError: no open guard record found to arm") res;
  Ok (fall_through (on_changes (put_concurrency_mutations (reverse muts)) ts)).

Definition exec_guard_timer_cycle (max_fires : N) (ts : TickState)
  : Result TransitionError StepOutcome :=
  match vec_pop (ch_effects (ts_changes ts)) with
  | Some (rest, ScheduleTimer id f due (TKV2GuardTimer r) (Some spec)) =>
      let spec := mkRepeat (interval_ms spec) max_fires (fired_count spec) in
      Ok (fall_through (on_changes
        (put_effects (rest ++ [ScheduleTimer id f due (TKV2GuardTimer r) (Some spec)])) ts))
  | _ => Err (InvalidCommand "V2GuardTimerCycle: no GUARD-TIMER> repeat spec to set")
  end.

Definition exec_cancel_scope (ts : TickState) : Result TransitionError StepOutcome :=
  '(ts, handle) ← pop_handle "V2CancelScope" ts;
  '(restored, c) ← v2_rollback_guard_scope s handle (Continues (fiber_id (ts_fiber ts)))
    (ts_changes ts);
  Ok (fall_through (on_instance (restore restored) (on_changes (λ _, c) ts))).

(** ** Fork and join *)

(** The loop of [V2Fork] over the targets. *)
Definition fork_child (parent : Fiber) (record_id : RecordId)
    (acc : N * ConcurrencyRecord * Changes * list Uuid) (target : Addr)
  : N * ConcurrencyRecord * Changes * list Uuid :=
  let '(ordinal, record, c, ids) := acc in
  let child_id := derived_id ctx ordinal in
  let child := set_control_stack (fiber_control_stack parent ++ [record_id])
                 (Fiber_new child_id target) in
  let record := add_member child_id record in
  let c := push_delta (CSPush child_id record_id) c in
  let c := push_event (EvFiberSpawned child_id target (Some (fiber_id parent))) c in
  let c := push_fiber child c in
  (sat_add u32_max ordinal 1, record, c, ids ++ [child_id]).

(** [ancestor_ops] of [V2Fork]. *)
Definition fork_ops (parent : Fiber) (ids : list Uuid) : list (RecordId * MembershipOp) :=
  fiber_control_stack parent ≫= (λ ancestor,
    (ancestor, MRemove (fiber_id parent)) :: ((λ id, (ancestor, MAdd id)) <$> ids)).

Definition exec_fork (targets : list Addr) (ts : TickState) : Result TransitionError StepOutcome :=
  let f := ts_fiber ts in
  let record_id := derived_id ctx (ts_ordinal ts) in
  let ts := next_ordinal ts in
  let n := (len targets mod 2 ^ 32)%N in
  let record := set_rec_counters (mkCounters n n) (ConcurrencyRecord_new record_id KBarrier) in
  let '(_, record, c, ids) :=
    foldl (fork_child f record_id) (ts_ordinal ts, record, ts_changes ts, []) targets in
  let c := push_event (EvV2Forked record_id (fiber_id f) ids targets) c in
  let c := push_mutation (CMInsert record) c in
  let c := v2_reconcile_ancestor_membership s (fork_ops f ids) ∅ c in
  let c := push_delete (fiber_id f) c in
  Ok (Return (finish c (ts_instance ts))).

Definition exec_join (ts : TickState) : Result TransitionError StepOutcome :=
  '(ts, handle) ← pop_handle "V2Join" ts;
  let f := ts_fiber ts in
  let c := ts_changes ts in
  record ← ok_or (InvalidCommand "V2Join: unknown barrier handle")
    (fetch_record_in_transition s c handle);
  let record := set_rec_counters
    (mkCounters (arity (rec_counters record)) (sat_sub (count (rec_counters record)) 1)) record in
  if (count (rec_counters record) =? 0)%N then
    let cancelled := filter (λ m, m ≠ fiber_id f) (btree_elems (members record)) in
    let c := push_deletes cancelled c in
    let c := v2_reconcile_ancestor_membership s (removal_ops s cancelled) {[handle]} c in
    let c := push_mutation (CMRetire handle) c in
    let c := push_event
      (EvV2JoinReleased handle (fiber_id f) (addr_next (fiber_pc f)) cancelled) c in
    Ok (fall_through (on_changes (λ _, c) ts))
  else
    let c := push_mutation (CMInsert record) c in
    let c := push_event (EvV2JoinArrived handle (fiber_id f)) c in
    Ok (park (on_fiber (set_wait (WV2Barrier handle)) (on_changes (λ _, c) ts))).

(** ** Races *)

Definition race_record (arm_count : N) (id : RecordId) : ConcurrencyRecord :=
  set_rec_counters (mkCounters arm_count arm_count) (ConcurrencyRecord_new id KRace).

Definition exec_race_open (arm_count : N) (ts : TickState) : Result TransitionError StepOutcome :=
  let f := ts_fiber ts in
  let ts := open_record (race_record arm_count)
    (λ id, EvV2RaceOpened id (fiber_id f) arm_count) ts in
  Ok (fall_through (set_race_arms [] ts)).

Definition exec_arm_timer (target : Addr) (ts : TickState) : Result TransitionError StepOutcome :=
  '(ts, v) ← pop_value "V2ArmTimer" ts;
  duration ← as_i64 "V2ArmTimer: duration must be I64" v;
  let f := ts_fiber ts in
  record_id ← ok_or (InvalidCommand "V2ArmTimer: no open race") (last (fiber_control_stack f));
  let due_at := sat_add u64_max (logical_time ctx) (i64_clamp_u64 duration) in
  let effect_id := for_instruction (instance_id (ts_instance ts)) (fiber_id f) (fiber_pc f) in
  let ts := on_changes (push_effect
    (ScheduleTimer effect_id (fiber_id f) due_at (TKV2Race record_id target) None)) ts in
  Ok (fall_through (set_race_arms (ts_race_arms ts ++ [ArmTimer target]) ts)).

Definition exec_arm_msg (target : Addr) (name : N) (ts : TickState)
  : Result TransitionError StepOutcome :=
  corr_key ← resolve_correlation_key_at w (ts_instance ts) (fiber_pc (ts_fiber ts));
  Ok (fall_through (set_race_arms (ts_race_arms ts ++ [ArmMsg target name corr_key]) ts)).

Definition exec_arm_effect (target : Addr) (template_id : Hash) (ts : TickState)
  : Result TransitionError StepOutcome :=
  '(ts, id) ← invoke_ffi (v2_ffi_task_decls (wf_metadata w) !! fiber_pc (ts_fiber ts))
    "v2 FFI effect declaration" "v2 FFI effect template identity" template_id ts;
  Ok (fall_through (set_race_arms (ts_race_arms ts ++ [ArmEffect target id template_id]) ts)).

Definition exec_race_close (ts : TickState) : Result TransitionError StepOutcome :=
  '(ts, handle) ← pop_handle "V2RaceClose" ts;
  let arms := ts_race_arms ts in
  let ts := on_changes (push_event
    (EvV2RaceClosed handle (fiber_id (ts_fiber ts)) (len arms mod 2 ^ 16))) ts in
  Ok (park (on_fiber (set_wait (WV2Race handle arms)) (set_race_arms [] ts))).

(** ** The loop *)

(** The [match instruction] of [apply_tick]. *)
Definition exec_instr (i : Instr) (ts : TickState) : Result TransitionError StepOutcome :=
  match i with
  | IJump target => Ok (Continue (on_fiber (set_pc target) ts))
  | IBrIf target => exec_branch true target ts
  | IBrIfNot target => exec_branch false target ts
  | IPushBool b => exec_push (VBool b) ts
  | IPushI64 z => exec_push (VI64 z) ts
  | IPop => exec_pop ts
  | ILoadFlag key => exec_load_flag key ts
  | IV2LoadPlaceholderMatch placeholder expected =>
      exec_load_placeholder_match placeholder expected ts
  | IV2RouteZeroMatch => exec_route_zero_match ts
  | IV2MiIndexLive flag index => exec_mi_index_live flag index ts
  | IV2MiLoadElement flag index => exec_mi_load_element flag index ts
  | IV2MiArityCheck flag max => exec_mi_arity_check flag max ts
  | IStoreFlag key => exec_store_flag key ts
  | IExecNative task_type _ retc => exec_native task_type retc ts
  | IExecDslTask task_type _ produces => exec_dsl_task task_type produces ts
  | IRoutePayload branches default_target => exec_route_payload branches default_target ts
  | IExecFfi template_id _ _ => exec_ffi template_id ts
  | IV2AwaitEffect template_id _ _ => exec_await_effect template_id ts
  | IPublishMessage name => exec_publish_message name ts
  | ICancelWait _ => Ok (fall_through ts)
  | IIncCounter counter_id => exec_inc_counter counter_id ts
  | IBrCounterLt counter_id limit target => exec_br_counter_lt counter_id limit target ts
  | IEnd => exec_end ts
  | IEndTerminate => exec_end_terminate ts
  | IFail code => exec_fail code ts
  | IV2Guard handler => exec_guard true handler ts
  | IV2GuardEnd => exec_guard_end "V2GuardEnd" ts
  | IV2Fork targets _ => exec_fork targets ts
  | IV2Join _ => exec_join ts
  | IV2RaceOpen arm_count => exec_race_open arm_count ts
  | IV2ArmTimer target => exec_arm_timer target ts
  | IV2ArmMsg target name => exec_arm_msg target name ts
  | IV2ArmEffect target template_id _ _ => exec_arm_effect target template_id ts
  | IV2RaceClose => exec_race_close ts
  | IV2GuardN handler => exec_guard false handler ts
  | IV2GuardNEnd => exec_guard_end "V2GuardNEnd" ts
  | IV2GuardR => exec_guard_r ts
  | IV2GuardREnd => exec_guard_end "V2GuardREnd" ts
  | IV2GuardArmTimer => exec_guard_arm_timer ts
  | IV2GuardArmError error_code handler => exec_guard_arm_error error_code handler ts
  | IV2GuardTimerCycle max_fires => exec_guard_timer_cycle max_fires ts
  | IV2WaitFor => exec_wait_for ts
  | IV2WaitUntil => exec_wait_until ts
  | IV2WaitMsg name => exec_wait_msg name ts
  | IV2CancelScope => exec_cancel_scope ts
  end.

(** The body of the loop: fetch, then execute. *)
Definition tick_step (ts : TickState) : Result TransitionError StepOutcome :=
  let pc := fiber_pc (ts_fiber ts) in
  instruction ← ok_or (ProgramCounterOutOfBounds pc) (wf_instructions w !! addr_index pc);
  exec_instr instruction ts.

(** [for _ in 0..step_limit]. *)
Fixpoint tick_loop (steps : nat) (ts : TickState) : Result TransitionError Transition :=
  match steps with
  | O => Err (StepLimitExceeded (max_steps (wf_limits w)))
  | S steps' =>
      match tick_step ts with
      | Ok (Continue ts') => tick_loop steps' ts'
      | Ok (Return t) => Ok t
      | Err e => Err e
      end
  end.

(** The locals at the start of the loop. *)
Definition tick_start (f : Fiber) : TickState :=
  mkTick f (sn_instance s) Changes_default 0 [].

(** [apply_tick]. *)
Definition select_fiber (requested : option Uuid) : Result TransitionError Uuid :=
  match requested with
  | Some id => Ok id
  | None =>
      ok_or (InvalidCommand "no running fiber")
        (head (fiber_id <$> filter (λ f, fiber_wait f = WRunning) (btree_values (sn_fibers s))))
  end.

Definition apply_tick (command : Command) : Result TransitionError Transition :=
  match command with
  | CTick requested =>
      _ ← ensure (bool_decide (inst_state (sn_instance s) = PSRunning))
        (InvalidCommand "Tick requires a running instance");
      selected ← select_fiber requested;
      f ← ok_or (MissingFiber selected) (sn_fibers s !! selected);
      _ ← ensure (bool_decide (fiber_wait f = WRunning))
        (InvalidCommand "selected fiber is not running");
      tick_loop (N.to_nat (max_steps (wf_limits w))) (tick_start f)
  | _ => Err (InvalidCommand "apply_tick requires Tick")
  end.

End tick.
