(* ===== verification/KernelCommands.v ===== *)
(** * Command handlers

    The handlers of [bpmn-lite-kernel/src/lib.rs] for the commands that come
    from outside an instance: job completion and failure, FFI completion,
    message delivery, timers, child-start results, incident resolution,
    cancellation and termination. *)

From Stdlib Require Import Strings.Ascii.
From S2P Require Import Prelude RustStr Json Types Concurrency Platform Effects Transition Bindings KernelBase KernelScope.

Section commands.
Context {P : Platform}.

(** ** Job failure *)

(** [snapshot.fibers().values().find(..)] of [apply_job_failure]. *)
Definition failed_fiber (s : Snapshot) (job_key : string) (effect_id : EffectId) : option Fiber :=
  find_map (λ f,
    match fiber_wait f with
    | WJob parked => if bool_decide (parked = job_key) then Some f else None
    | WEffect parked => if (parked =? effect_id)%N then Some f else None
    | _ => None
    end) (btree_values (sn_fibers s)).

(** The innermost armed guard of a fibre: the search stops at the first armed
    guard record from the top of the control stack. *)
Definition innermost_armed_guard (s : Snapshot) (f : Fiber)
  : option (RecordId * ConcurrencyRecord) :=
  find_map (λ id,
    record ← sn_table s !! id;
    if bool_decide (rec_state record = Armed) then
      match rec_kind record with KGuard _ => Some (id, record) | _ => None end
    else None) (reverse (fiber_control_stack f)).

(** The first route whose code is absent or equal to the rejection code. *)
Definition find_route (rejection_code : string) (routes : list (option string * Addr))
  : option (option string * Addr) :=
  find_map (λ route,
    match route.1 with
    | Some c => if bool_decide (c = rejection_code) then Some route else None
    | None => Some route
    end) routes.

Definition matched_error_route (s : Snapshot) (f : Fiber) (error_class : ErrorClass)
  : option (string * Addr * RecordId) :=
  match error_class with
  | BusinessRejection code =>
      '(id, record) ← innermost_armed_guard s f;
      '(_, handler) ← find_route code (error_routes record);
      Some (code, handler, id)
  | _ => None
  end.

Definition rollback_eligible (error_class : ErrorClass) : bool :=
  match error_class with
  | ContractViolation => true
  | BusinessRejection _ => false
  | Transient => false
  end.

(** [innermost_guard], reduced to the case the code acts on:
    [Some((guard_handle, true, true))]. *)
Definition rollback_guard (s : Snapshot) (f : Fiber) (error_class : ErrorClass)
  : option RecordId :=
  if rollback_eligible error_class then
    match innermost_armed_guard s f with
    | Some (id, record) =>
        match rec_kind record, rollback_domain_payload record with
        | KGuard true, Some _ => Some id
        | _, _ => None
        end
    | None => None
    end
  else None.

(** [if !job_key.is_empty() { changes.jobs_ack.push(job_key) }]. *)
Definition ack_named_job (job_key : string) (c : Changes) : Changes :=
  if bool_decide (job_key = "") then c else push_ack job_key c.

(** [(!job_key.is_empty()).then(|| job_key)]. *)
Definition named_job (job_key : string) : option string :=
  if bool_decide (job_key = "") then None else Some job_key.

(** The automatic-rollback branch of [apply_job_failure]. *)
Definition job_failure_rollback (w : ExecutableWorkflow) (s : Snapshot) (f : Fiber)
    (guard_handle : RecordId) (job_key : string) (error_class : ErrorClass) (message : string)
    (attempt : N) (ctx : DeterministicContext) : Result TransitionError Transition :=
  guard_record ← ok_or (InvalidCommand "rollback: unknown scope handle")
    (sn_table s !! guard_handle);
  '(restored, c) ← v2_rollback_guard_scope s guard_handle (Dies (fiber_id f)) Changes_default;
  let i := restore restored (sn_instance s) in
  let c := ack_named_job job_key c in
  if nothing_else_survives s c (fiber_id f) then
    opened ← ok_or
      (InvalidCommand "rollback: spanning guard scope carries no opened_at address")
      (opened_at guard_record);
    '(c, i) ← park_spanning_survivor w s guard_handle opened f error_class message attempt
      (named_job job_key) ctx i c;
    Ok (finish c i)
  else Ok (finish c i).

(** The incident branch of [apply_job_failure]. *)
Definition job_failure_incident (w : ExecutableWorkflow) (s : Snapshot) (f : Fiber)
    (effect_id : EffectId) (job_key : string) (error_class : ErrorClass) (message : string)
    (retry : option JobRetry) (attempt : N) (ctx : DeterministicContext)
  : Result TransitionError Transition :=
  let id := derived_id ctx 0 in
  let service_task := task_label w (fiber_pc f) in
  created ← logical_timestamp ctx;
  let incident := {|
    incident_id := id;
    incident_process_instance_id := instance_id (sn_instance s);
    incident_fiber_id := fiber_id f;
    incident_service_task_id := service_task;
    incident_bytecode_addr := fiber_pc f;
    incident_error_class := error_class;
    incident_message := message;
    incident_retry_count := attempt;
    incident_created_at := created;
    incident_resolved_at := None;
    incident_resolution := None |} in
  let f := set_wait (WIncident id) f in
  let i := set_state (PSIncidented id) (sn_instance s) in
  let c := push_incident incident Changes_default in
  let c := push_fiber f c in
  let c := push_event (EvIncidentCreated id service_task (named_job job_key)) c in
  let c := if bool_decide (job_key = "")
           then push_effect_mutation
                  {| em_effect_id := effect_id; em_terminal_state := ETFailed |} c
           else c in
  let c :=
    match retry with
    | Some r =>
        push_event (EvJobDeadLettered job_key id)
          (push_job_mutation (JMDeadLetterClaimed job_key (jr_worker_id r) (jr_claim_token r)
             (error_class_label error_class) message id) c)
    | None => ack_named_job job_key c
    end in
  Ok (finish c i).

(** [apply_job_failure]. *)
Definition apply_job_failure (w : ExecutableWorkflow) (s : Snapshot) (command : Command)
    (ctx : DeterministicContext) : Result TransitionError Transition :=
  match command with
  | CEffectFailed effect_id job_key error_class message retry attempt =>
      if is_terminal (inst_state (sn_instance s)) then
        let c := push_event (EvSignalIgnored
          ("fail_job(key=" +:+ job_key +:+ ", state="
             +:+ debug_state (inst_state (sn_instance s)) +:+ ")")) Changes_default in
        Ok (finish (ack_named_job job_key c) (sn_instance s))
      else
        match failed_fiber s job_key effect_id with
        | None =>
            let c := push_event (EvSignalIgnored
              ("fail_job(key=" +:+ job_key +:+ ", no fiber)")) Changes_default in
            Ok (finish (ack_named_job job_key c) (sn_instance s))
        | Some f =>
            match error_class, retry with
            | Transient, Some r =>
                let c := push_job_mutation (JMRetryClaimed job_key (jr_worker_id r)
                  (jr_claim_token r) "transient" message (jr_not_before_ms r)) Changes_default in
                let c := push_event (EvJobRetryScheduled job_key (jr_not_before_ms r) 0) c in
                Ok (finish c (sn_instance s))
            | _, _ =>
                match matched_error_route s f error_class with
                | Some (code, handler, record_id) =>
                    c ← v2_trigger_guard_changes_with_target s record_id ctx handler;
                    let c := ack_named_job job_key c in
                    let c := push_event (EvErrorRouted job_key code
                      ("guard:" +:+ show_uuid record_id) handler) c in
                    Ok (finish c (sn_instance s))
                | None =>
                    match rollback_guard s f error_class with
                    | Some guard_handle =>
                        job_failure_rollback w s f guard_handle job_key error_class message
                          attempt ctx
                    | None =>
                        job_failure_incident w s f effect_id job_key error_class message retry
                          attempt ctx
                    end
                end
            end
        end
  | _ => Err (InvalidCommand "job failure handler requires EffectFailed")
  end.

(** ** FFI completion *)

Definition effect_done (effect_id : EffectId) : EffectMutation :=
  {| em_effect_id := effect_id; em_terminal_state := ETCompleted |}.

(** How a completion relates to what its fibre is parked on. *)
Inductive FfiMatch :=
| FfiParked
| FfiRaceWin (record_id : RecordId) (target : Addr)
| FfiLate
| FfiMismatch.

Definition is_arm_effect (w : ExecutableWorkflow) (pc : N) : bool :=
  match wf_instructions w !! addr_index pc with Some (IV2ArmEffect _ _ _ _) => true | _ => false end.

Definition race_effect_arm (effect_id : EffectId) (arms : list V2RaceArm) : option Addr :=
  find_map (λ arm,
    match arm with
    | ArmEffect target id _ => if (id =? effect_id)%N then Some target else None
    | _ => None
    end) arms.

(** The [race_win] match of [apply_ffi_completion]. *)
Definition ffi_match (w : ExecutableWorkflow) (s : Snapshot) (f : Fiber) (effect_id : EffectId)
    (fid : Uuid) (pc : N) : FfiMatch :=
  let late :=
    if is_arm_effect w pc
       && (effect_id =? for_instruction (instance_id (sn_instance s)) fid pc)%N
    then FfiLate else FfiMismatch in
  match fiber_wait f with
  | WEffect parked =>
      if (parked =? effect_id)%N && (fiber_pc f =? pc)%N then FfiParked else late
  | WV2Race record_id arms =>
      match race_effect_arm effect_id arms with
      | Some target => FfiRaceWin record_id target
      | None => if is_arm_effect w pc then FfiLate else FfiMismatch
      end
  | _ => late
  end.

(** The output half: a whole new payload or the declared output bindings. *)
Definition ffi_outputs_of (w : ExecutableWorkflow) (i : ProcessInstance) (pc : N)
    (output : list Byte.byte) (new_payload : option string) (no_match : bool)
  : Result TransitionError ProcessInstance :=
  if no_match then Ok i
  else
    match new_payload with
    | Some payload => Ok (set_payload payload (content_hash (as_bytes payload)) i)
    | None =>
        let is_v2 :=
          match wf_instructions w !! addr_index pc with
          | Some (IV2AwaitEffect _ _ _) | Some (IV2ArmEffect _ _ _ _) => true
          | _ => false
          end in
        declaration ←
          (if (is_v2 : bool)
           then ok_or (MissingMetadata "v2 FFI effect declaration")
                  (v2_ffi_task_decls (wf_metadata w) !! pc)
           else ok_or (MissingMetadata "FFI task declaration")
                  (ffi_task_decls (wf_metadata w) !! pc));
        map_err (λ _, InvalidCommand "FFI output contract violation")
          (apply_ffi_outputs i declaration output)
    end.

(** [apply_ffi_completion]. *)
Definition apply_ffi_completion (w : ExecutableWorkflow) (s : Snapshot) (command : Command)
  : Result TransitionError Transition :=
  match command with
  | CEffectCompleted effect_id (EOFfi fid pc output new_payload no_match) =>
      f ← ok_or (MissingFiber fid) (sn_fibers s !! fid);
      let complete f t :=
        b_event (EvFfiInvocationCompleted effect_id (if no_match : bool then "no_match" else "success")
                   None)
          (b_effect_mutation (effect_done effect_id) (b_upsert_fiber f t)) in
      match ffi_match w s f effect_id fid pc with
      | FfiLate =>
          Ok (b_effect_mutation (effect_done effect_id) (builder_new (sn_instance s)))
      | FfiMismatch => Err (InvalidCommand "FFI completion does not match parked effect")
      | FfiParked =>
          i ← ffi_outputs_of w (sn_instance s) pc output new_payload no_match;
          Ok (complete (set_wait WRunning (advance_pc f)) (builder_new i))
      | FfiRaceWin record_id target =>
          i ← ffi_outputs_of w (sn_instance s) pc output new_payload no_match;
          Ok (complete (set_wait WRunning (set_pc target f))
            (b_timer_mutation (TMV2CancelRace (fiber_id f) record_id effect_id)
              (b_event (EvV2RaceWon record_id (fiber_id f))
                (b_concurrency_mutation (CMRetire record_id) (builder_new i)))))
      end
  | _ => Err (InvalidCommand "FFI completion handler requires an FFI effect result")
  end.

(** ** Messages *)

Definition message_hits (w : ExecutableWorkflow) (name key : string) (waiting : N)
    (corr_key : string) : bool :=
  message_name_matches (message_name_map (wf_metadata w)) name waiting
  && bool_decide (corr_key = key).

(** The loop of [apply_message] over one fibre: resumed in place when it waits
    for the message, at the arm's target when one of its race arms does. *)
Definition message_match (w : ExecutableWorkflow) (name key : string) (f : Fiber)
  : option (Fiber * option RecordId) :=
  match fiber_wait f with
  | WMsg _ waiting corr_key =>
      if message_hits w name key waiting corr_key then Some (set_wait WRunning f, None) else None
  | WV2Race record_id arms =>
      find_map (λ arm,
        match arm with
        | ArmMsg target waiting corr_key =>
            if message_hits w name key waiting corr_key
            then Some (set_wait WRunning (set_pc target f), Some record_id) else None
        | _ => None
        end) arms
  | _ => None
  end.

(** [message_name_map().iter().find_map(..).unwrap_or(0)]. *)
Definition message_name_id (w : ExecutableWorkflow) (name : string) : N :=
  default 0%N (find_map (λ '(id, candidate), if bool_decide (candidate = name) then Some id else None)
    (btree_entries (message_name_map (wf_metadata w)))).

(** [apply_message]. *)
Definition apply_message (w : ExecutableWorkflow) (s : Snapshot) (command : Command)
    (ctx : DeterministicContext) : Result TransitionError Transition :=
  match command with
  | CMessageDelivered message_id name key payload payload_hash expires_at =>
      received_at ← logical_timestamp ctx;
      let i := sn_instance s in
      let message := {|
        bm_tenant_id := inst_tenant_id i;
        bm_message_name := name;
        bm_correlation_key := key;
        bm_msg_id := message_id;
        bm_payload := payload;
        bm_payload_hash := payload_hash;
        bm_process_instance_id := Some (instance_id i);
        bm_received_at := received_at;
        bm_expires_at := expires_at |} in
      if is_terminal (inst_state i) then
        let c := push_buffered (BMDeliver message) Changes_default in
        let c := push_event (EvSignalIgnored
          ("signal on " +:+ debug_state (inst_state i) +:+ " instance: msg=" +:+ name)) c in
        Ok (finish c i)
      else
        let c := push_event (EvMessageBuffered name key message_id expires_at) Changes_default in
        match find_map (message_match w name key) (btree_values (sn_fibers s)) with
        | None => Ok (finish (push_buffered (BMInsert message) c) i)
        | Some (f, race) =>
            i' ← (match payload_hash with
                  | Some hash =>
                      text ← ok_or (InvalidCommand "message payload is not UTF-8")
                        (from_utf8 payload);
                      Ok (set_payload text hash i)
                  | None => Ok i
                  end);
            let c := push_buffered (BMDeliver message) c in
            let c := push_event (EvBufferedMessageConsumed name key message_id (fiber_id f)) c in
            let c := push_event (EvMsgReceived (message_name_id w name) key None) c in
            let c :=
              match race with
              | Some record_id =>
                  push_timer_mutation (TMV2CancelRace (fiber_id f) record_id
                    (for_instruction (instance_id i) (fiber_id f) (fiber_pc f)))
                    (push_event (EvV2RaceWon record_id (fiber_id f))
                      (push_mutation (CMRetire record_id) c))
              | None => c
              end in
            Ok (finish (push_fiber f c) i')
        end
  | _ => Err (InvalidCommand "message handler requires MessageDelivered")
  end.

(** ** Job completion *)

Definition completed_fiber (s : Snapshot) (job_key : string) : option Fiber :=
  find_map (λ f,
    match fiber_wait f with
    | WJob parked => if bool_decide (parked = job_key) then Some f else None
    | _ => None
    end) (btree_values (sn_fibers s)).

(** [apply_job_completion]. *)
Definition apply_job_completion (s : Snapshot) (completion : JobCompletion)
  : Result TransitionError Transition :=
  let i := sn_instance s in
  let current_hash := content_hash (as_bytes (domain_payload i)) in
  if bool_decide (jc_expected_instance_payload_hash completion = current_hash) then
    if is_terminal (inst_state i) then
      let t := b_event (EvSignalIgnored
        ("complete_job(key=" +:+ jc_job_key completion +:+ ", state="
           +:+ debug_state (inst_state i) +:+ ")")) (builder_new i) in
      Ok (match jc_worker_id completion, jc_claim_token completion with
          | Some worker, Some token =>
              b_job_mutation (JMAckClaimed (jc_job_key completion) worker token) t
          | _, _ => b_ack_job (jc_job_key completion) t
          end)
    else
      f ← ok_or (InvalidCommand "completion has no parked fiber")
        (completed_fiber s (jc_job_key completion));
      i' ← apply_completion i completion;
      let f := set_wait WRunning (advance_pc f) in
      let c := push_event (EvJobCompleted (jc_job_key completion) current_hash
        (domain_payload_hash i') (jc_orch_flags completion) (fiber_pc f)) Changes_default in
      let c := push_fiber f c in
      let c :=
        match jc_worker_id completion, jc_claim_token completion with
        | Some worker, Some token =>
            push_job_mutation (JMAckClaimed (jc_job_key completion) worker token) c
        | _, _ => push_ack (jc_job_key completion) c
        end in
      let c := push_dedupe {| dw_key := jc_job_key completion; dw_completion := completion |} c in
      Ok (finish c i')
  else Err OptimisticConflict.

(** ** Timers *)

Definition consume_timer (timer : ClaimedTimer) : TimerMutation :=
  TMConsume (ct_timer_id timer) (ct_claim_token timer).

(** The re-arm decision of a fired guard timer. *)
Definition guard_timer_mutation (interrupting : bool) (timer : ClaimedTimer) (fired_at : N)
  : TimerMutation :=
  match (if interrupting then None else ct_repeat_spec timer) with
  | Some spec =>
      if (1 <? remaining spec)%N then
        TMRearm (ct_timer_id timer) (ct_claim_token timer)
          (sat_add u64_max fired_at (interval_ms spec))
          (mkRepeat (interval_ms spec) (remaining spec - 1)
             (sat_add u32_max (fired_count spec) 1))
      else consume_timer timer
  | None => consume_timer timer
  end.

(** The [TimerKind::V2GuardTimer] arm of [apply_timer]. *)
Definition apply_guard_timer (w : ExecutableWorkflow) (s : Snapshot) (timer : ClaimedTimer)
    (record_id : RecordId) (fired_at : N) (ctx : DeterministicContext)
  : Result TransitionError Transition :=
  let stale := b_timer_mutation (consume_timer timer) (builder_new (sn_instance s)) in
  match sn_table s !! record_id with
  | None => Ok stale
  | Some record =>
      match rec_state record, rec_kind record with
      | Armed, KGuard interrupting =>
          '(c, i) ←
            (match rollback_domain_payload record with
             | Some _ => apply_v2_guard_timer_rollback w s record_id record ctx
             | None =>
                 c ← v2_trigger_guard_changes s record_id ctx;
                 Ok (c, sn_instance s)
             end);
          let c := push_event (EvTimerFired (ct_timer_id timer) (ct_fiber_id timer) fired_at) c in
          let c := push_timer_mutation (guard_timer_mutation interrupting timer fired_at) c in
          Ok (finish c i)
      | _, _ => Ok stale
      end
  end.

(** [apply_timer]. *)
Definition apply_timer (w : ExecutableWorkflow) (s : Snapshot) (timer : ClaimedTimer)
    (fired_at : N) (ctx : DeterministicContext) : Result TransitionError Transition :=
  _ ← ensure (bool_decide (ct_tenant_id timer = inst_tenant_id (sn_instance s)))
    (InvalidCommand "timer tenant does not match snapshot");
  _ ← ensure (ct_instance_id timer =? instance_id (sn_instance s))%N
    (InvalidCommand "timer instance does not match snapshot");
  _ ← ensure (ct_due_at timer <=? fired_at)%N (InvalidCommand "timer fired before due_at");
  let t := builder_new (sn_instance s) in
  let fired := EvTimerFired (ct_timer_id timer) (ct_fiber_id timer) fired_at in
  match ct_kind timer, sn_fibers s !! ct_fiber_id timer with
  | TKV2GuardTimer record_id, _ => apply_guard_timer w s timer record_id fired_at ctx
  | TKWait, Some f =>
      match fiber_wait f with
      | WTimer deadline =>
          if (deadline <=? fired_at)%N then
            Ok (b_timer_mutation (consume_timer timer)
              (b_event fired (b_upsert_fiber (set_wait WRunning f) t)))
          else Ok (b_timer_mutation (consume_timer timer) t)
      | _ => Ok (b_timer_mutation (consume_timer timer) t)
      end
  | TKV2Race record_id resume_at, Some f =>
      match fiber_wait f with
      | WV2Race current _ =>
          if (current =? record_id)%N then
            let t := b_upsert_fiber (set_wait WRunning (set_pc resume_at f)) t in
            let t := b_event fired t in
            let t := b_event (EvV2RaceWon record_id (ct_fiber_id timer)) t in
            let t := b_concurrency_mutation (CMRetire record_id) t in
            let t := b_timer_mutation
              (TMV2CancelRace (ct_fiber_id timer) record_id (ct_timer_id timer)) t in
            Ok (b_timer_mutation (consume_timer timer) t)
          else Ok (b_timer_mutation (consume_timer timer) t)
      | _ => Ok (b_timer_mutation (consume_timer timer) t)
      end
  | _, _ => Ok (b_timer_mutation (consume_timer timer) t)
  end.

(** ** Child starts *)

(** [apply_start_child_result]. *)
Definition apply_start_child_result (s : Snapshot) (idempotency_key : string)
    (child_instance_id : Uuid) (accepted : bool) (ctx : DeterministicContext)
  : Result TransitionError Transition :=
  let i := sn_instance s in
  let on_submission node_id :=
    if accepted then
      Ok (b_event (EvChildStartAccepted idempotency_key child_instance_id)
        (builder_new (set_state (PSWaitingOnInvocation child_instance_id node_id) i)))
    else
      f ← ok_or (InvalidCommand "child-start rejection requires an active fiber")
        (head (btree_values (sn_fibers s)));
      let id := derived_id ctx 0 in
      created ← logical_timestamp ctx;
      let incident := {|
        incident_id := id;
        incident_process_instance_id := instance_id i;
        incident_fiber_id := fiber_id f;
        incident_service_task_id := node_id;
        incident_bytecode_addr := fiber_pc f;
        incident_error_class := ContractViolation;
        incident_message := "child start rejected: " +:+ idempotency_key;
        incident_retry_count := 0;
        incident_created_at := created;
        incident_resolved_at := None;
        incident_resolution := None |} in
      Ok (b_event (EvIncidentCreated id node_id None)
        (b_event (EvChildStartRejected idempotency_key child_instance_id id)
          (b_incident incident
            (b_upsert_fiber (set_wait (WIncident id) f)
              (builder_new (set_state (PSIncidented id) i)))))) in
  match inst_state i with
  | PSWaitingOnInvocation execution_id _ =>
      if (execution_id =? child_instance_id)%N then Ok (builder_new i)
      else Err (InvalidCommand "child-start result requires WaitingOnSubmission")
  | PSWaitingOnSubmission _ node_id => on_submission node_id
  | _ => Err (InvalidCommand "child-start result requires WaitingOnSubmission")
  end.

(** ** Incident resolution, cancellation, termination *)

(** The [Command::ResolveIncident] arm of [apply]. *)
Definition apply_resolve_incident (s : Snapshot) (id : Uuid) (resolution : string)
    (ctx : DeterministicContext) : Result TransitionError Transition :=
  incident ← ok_or (InvalidCommand "incident does not exist") (sn_incidents s !! id);
  match incident_resolved_at incident with
  | Some _ => Ok (builder_new (sn_instance s))
  | None =>
      _ ← ensure (bool_decide (inst_state (sn_instance s) = PSIncidented id))
        (InvalidCommand "ResolveIncident requires the instance to be Incidented on this incident_id");
      resolved ← logical_timestamp ctx;
      let incident := {|
        incident_id := incident_id incident;
        incident_process_instance_id := incident_process_instance_id incident;
        incident_fiber_id := incident_fiber_id incident;
        incident_service_task_id := incident_service_task_id incident;
        incident_bytecode_addr := incident_bytecode_addr incident;
        incident_error_class := incident_error_class incident;
        incident_message := incident_message incident;
        incident_retry_count := incident_retry_count incident;
        incident_created_at := incident_created_at incident;
        incident_resolved_at := Some resolved;
        incident_resolution := Some resolution |} in
      let t := b_event (EvIncidentResolved id resolution)
        (b_incident incident (builder_new (set_state PSRunning (sn_instance s)))) in
      Ok (match list_find (λ f, fiber_wait f = WIncident id) (btree_values (sn_fibers s)) with
          | Some (_, f) => b_upsert_fiber (set_wait WRunning f) t
          | None => t
          end)
  end.

(** The [Command::Cancel] arm of [apply]. *)
Definition apply_cancel (s : Snapshot) (reason : string) (ctx : DeterministicContext) : Transition :=
  let next := set_state (PSCancelled reason (u64_as_i64 (logical_time ctx))) (sn_instance s) in
  let t := foldl (λ t f,
    let desc := describe_wait (fiber_wait f) in
    if bool_decide (desc = "") then t else b_event (EvWaitCancelled (fiber_id f) desc reason) t)
    (builder_new next) (btree_values (sn_fibers s)) in
  let t := b_terminal_cleanup (mkCleanup true true true) (b_event (EvCancelled reason) t) in
  retire_all_armed_records s t.

(** The [Command::Terminate] arm of [apply]. *)
Definition apply_terminate (s : Snapshot) (ctx : DeterministicContext)
  : Result TransitionError Transition :=
  at_ ← logical_timestamp ctx;
  let fid := default 0%N (head (btree_keys (sn_fibers s))) in
  let t := b_terminal_cleanup (mkCleanup true true true)
    (b_event (EvTerminated at_ fid) (builder_new (set_state (PSTerminated at_) (sn_instance s)))) in
  Ok (retire_all_armed_records s t).

End commands.
