(* ===== verification/KernelApply.v ===== *)
(** * Runtime integrity checks and the transition function

    [check_k_invariants], [derive_post_transition_frame],
    [ring3_shadow_check], [validate_snapshot_limits] and [apply] of
    [bpmn-lite-kernel/src/lib.rs]. *)

From Stdlib Require Import Strings.Ascii.
From S2P Require Import Prelude RustStr Json Types Concurrency Platform Effects Transition Bindings KernelBase KernelScope KernelTick KernelCommands.

Section apply.
Context {P : Platform}.

(** ** K-1, K-2, K-3 *)

(** The first loop of [check_k_invariants]: an armed record's members are live,
    an armed barrier's count is within its arity and not zero. *)
Definition check_record (fibers : gmap N Fiber) (entry : RecordId * ConcurrencyRecord)
  : Result string unit :=
  let '(id, r) := entry in
  if bool_decide (rec_state r = Armed) then
    _ ← try_for_each (λ member,
      if bool_decide (is_Some (fibers !! member)) then Ok tt
      else Err ("K-1 violated: record " +:+ show_uuid id +:+ " (armed) has member "
             +:+ show_uuid member +:+ ", no live fibre")) (btree_elems (members r));
    if bool_decide (rec_kind r = KBarrier)
       && ((count (rec_counters r) =? 0)%N
           || (arity (rec_counters r) <? count (rec_counters r))%N)
    then Err ("K-3 violated: barrier " +:+ show_uuid id +:+ " armed with count="
           +:+ show_N (count (rec_counters r)) +:+ ", arity=" +:+ show_N (arity (rec_counters r)))
    else Ok tt
  else Ok tt.

(** The second loop: every handle of a live fibre names an armed record that
    lists the fibre. *)
Definition check_handle (table : gmap N ConcurrencyRecord) (fid : Uuid) (handle : RecordId)
  : Result string unit :=
  let prefix := "K-2 violated: fibre " +:+ show_uuid fid +:+ " has handle " +:+ show_uuid handle
    +:+ " on its control stack, but " in
  match table !! handle with
  | Some r =>
      match rec_state r with
      | Armed =>
          if bool_decide (fid ∈ members r) then Ok tt
          else Err (prefix +:+ "is not a member of record " +:+ show_uuid handle)
      | Retired =>
          Err (prefix +:+ "record " +:+ show_uuid handle +:+ " is Retired, not Armed")
      end
  | None => Err (prefix +:+ "no such record exists")
  end.

Definition check_fiber (table : gmap N ConcurrencyRecord) (entry : Uuid * Fiber)
  : Result string unit :=
  try_for_each (check_handle table entry.1) (effective_control_stack entry.2).

(** The third loop: every live member of an armed record holds its handle. *)
Definition check_membership (fibers : gmap N Fiber) (entry : RecordId * ConcurrencyRecord)
  : Result string unit :=
  let '(id, r) := entry in
  if bool_decide (rec_state r = Armed) then
    try_for_each (λ member,
      match fibers !! member with
      | None => Ok tt
      | Some f =>
          if bool_decide (id ∈ effective_control_stack f) then Ok tt
          else Err ("K-2 violated: fibre " +:+ show_uuid member +:+ " is a member of armed record "
                 +:+ show_uuid id +:+ ", but does not have it on its control stack")
      end) (btree_elems (members r))
  else Ok tt.

(** [check_k_invariants]. *)
Definition check_k_invariants (fibers : gmap N Fiber) (table : gmap N ConcurrencyRecord)
  : Result string unit :=
  _ ← try_for_each (check_record fibers) (btree_entries table);
  _ ← try_for_each (check_fiber table) (btree_entries fibers);
  try_for_each (check_membership fibers) (btree_entries table).

(** ** Ring 3 *)

(** [derive_post_transition_frame]. *)
Definition derive_post_transition_frame (s : Snapshot) (t : Transition)
  : gmap N Fiber * gmap N ConcurrencyRecord :=
  (apply_fiber_deltas (sn_fibers s) (fibers_upsert t) (fibers_delete t)
     (delete_all_fibers (terminal_cleanup t)),
   apply_mutations (sn_table s) (concurrency_mutations t)).

(** [state_override().unwrap_or(&next_snapshot().state)]. *)
Definition effective_state (t : Transition) : ProcessState :=
  default (inst_state (next_snapshot t)) (state_override t).

(** The bounds of one upserted fibre. *)
Definition check_fiber_bounds (w : ExecutableWorkflow) (f : Fiber) : Result IntegrityError unit :=
  let limits := wf_limits w in
  let program_len := len (wf_instructions w) in
  _ ← ensure (fiber_pc f <? program_len)%N
    (Ring3Runtime ("fibre " +:+ show_uuid (fiber_id f) +:+ " pc " +:+ show_N (fiber_pc f)
       +:+ " out of bounds (program length " +:+ show_N program_len +:+ ")"));
  _ ← ensure (len (fiber_stack f) <=? max_stack limits)%N
    (Ring3Runtime ("fibre " +:+ show_uuid (fiber_id f) +:+ " operand stack height "
       +:+ show_N (len (fiber_stack f)) +:+ " exceeds verified limit "
       +:+ show_N (max_stack limits)));
  ensure (len (fiber_control_stack f) <=? max_control_depth limits)%N
    (Ring3Runtime ("fibre " +:+ show_uuid (fiber_id f) +:+ " control-stack depth "
       +:+ show_N (len (fiber_control_stack f)) +:+ " exceeds verified limit "
       +:+ show_N (max_control_depth limits))).

(** The members of a barrier that can still arrive. *)
Definition can_arrive (fibers : gmap N Fiber) (id : RecordId) (m : Uuid) : bool :=
  match fibers !! m with
  | Some f => negb (bool_decide (fiber_wait f = WV2Barrier id))
  | None => false
  end.

Definition not_yet_arrived (fibers : gmap N Fiber) (id : RecordId) (r : ConcurrencyRecord)
  : list Uuid :=
  filter (λ m, can_arrive fibers id m) (btree_elems (members r)).

Definition check_barrier (fibers : gmap N Fiber) (entry : RecordId * ConcurrencyRecord)
  : Result IntegrityError unit :=
  let '(id, r) := entry in
  if bool_decide (rec_state r = Armed ∧ rec_kind r = KBarrier) then
    let n := (len (not_yet_arrived fibers id r) mod 2 ^ 32)%N in
    ensure (count (rec_counters r) <=? n)%N
      (Ring3Runtime ("barrier " +:+ show_uuid id +:+ " armed with outstanding count="
         +:+ show_N (count (rec_counters r)) +:+ " but only " +:+ show_N n
         +:+ " live not-yet-arrived member(s) remain among "
         +:+ show_N (len (btree_elems (members r)))
         +:+ " live member(s) — structurally unsatisfiable, stuck by construction"))
  else Ok tt.

(** The effects a fibre waits for. *)
Definition referenced_effects (f : Fiber) : list EffectId :=
  match fiber_wait f with
  | WEffect id => [id]
  | WV2Race _ arms =>
      omap (λ arm, match arm with ArmEffect _ id _ => Some id | _ => None end) arms
  | _ => []
  end.

Definition claim_effect (owner : Uuid) (owners : gmap N Uuid) (id : EffectId)
  : Result IntegrityError (gmap N Uuid) :=
  match owners !! id with
  | Some other =>
      if (other =? owner)%N then Ok (<[id := owner]> owners)
      else Err (Ring3Runtime ("effect EffectId(" +:+ show_uuid id +:+ ") owned by both fibre "
             +:+ show_uuid other +:+ " and fibre " +:+ show_uuid owner))
  | None => Ok (<[id := owner]> owners)
  end.

Definition claim_effects (owners : gmap N Uuid) (f : Fiber)
  : Result IntegrityError (gmap N Uuid) :=
  try_fold (claim_effect (fiber_id f)) owners (referenced_effects f).

(** [ring3_shadow_check]. *)
Definition ring3_shadow_check (w : ExecutableWorkflow) (s : Snapshot) (t : Transition)
  : Result IntegrityError unit :=
  let '(fibers, table) := derive_post_transition_frame s t in
  _ ← ensure (negb (bool_decide (fibers = ∅) && negb (is_terminal (effective_state t))))
    (Ring3Runtime ("instance " +:+ show_uuid (instance_id (sn_instance s))
       +:+ " has zero live fibres post-transition but state " +:+ debug_state (effective_state t)
       +:+ " is non-terminal — stuck by construction"));
  _ ← try_for_each (check_fiber_bounds w) (fibers_upsert t);
  _ ← map_err Ring3Runtime (check_k_invariants fibers table);
  _ ← try_for_each (check_barrier fibers) (btree_entries table);
  _ ← try_fold claim_effects ∅ (btree_values fibers);
  Ok tt.

(** ** Snapshot limits *)

(** The error of an array walk over a value found in [resource]. *)
Definition check_value (resource : string) (v : Value) : Result TransitionError unit :=
  match check_array_limits v with
  | Ok _ => Ok tt
  | Err (TooLong actual max) => Err (ResourceLimitExceeded resource actual max)
  | Err (TooDeep max) => Err (ResourceLimitExceeded resource max max)
  end.

Definition check_fiber_limits (w : ExecutableWorkflow) (check_arrays : bool) (f : Fiber)
  : Result TransitionError unit :=
  _ ← ensure (len (fiber_stack f) <=? max_stack (wf_limits w))%N
    (ResourceLimitExceeded "operand stack" (len (fiber_stack f)) (max_stack (wf_limits w)));
  if check_arrays then try_for_each (check_value "Value::Array size/depth") (fiber_stack f)
  else Ok tt.

(** [validate_snapshot_limits]. *)
Definition validate_snapshot_limits (w : ExecutableWorkflow) (s : Snapshot) (check_arrays : bool)
  : Result TransitionError unit :=
  let fibers := btree_values (sn_fibers s) in
  _ ← ensure (len fibers <=? max_fibers (wf_limits w))%N
    (ResourceLimitExceeded "fiber count" (len fibers) (max_fibers (wf_limits w)));
  _ ← try_for_each (check_fiber_limits w check_arrays) fibers;
  if check_arrays then
    try_for_each (check_value "Value::Array size/depth (flag)")
      (btree_values (flags (sn_instance s)))
  else Ok tt.

(** ** The transition function *)

(** The [match command] of [apply]. *)
Definition dispatch (w : ExecutableWorkflow) (s : Snapshot) (command : Command)
    (ctx : DeterministicContext) : Result TransitionError Transition :=
  match command with
  | CTimerFired timer fired_at => apply_timer w s timer fired_at ctx
  | CCancel reason => Ok (apply_cancel s reason ctx)
  | CTick _ => apply_tick w s ctx command
  | CEffectCompleted _ (EOJob completion) => apply_job_completion s completion
  | CEffectCompleted _ (EOFfi _ _ _ _ _) => apply_ffi_completion w s command
  | CEffectCompleted _ (EOJson _) =>
      Err (UnsupportedCommand "JSON effect completion requires T8")
  | CEffectFailed _ _ _ _ _ _ => apply_job_failure w s command ctx
  | CMessageDelivered _ _ _ _ _ _ => apply_message w s command ctx
  | CTerminate => apply_terminate s ctx
  | CResolveIncident id resolution => apply_resolve_incident s id resolution ctx
  | CStartChildResult key child accepted => apply_start_child_result s key child accepted ctx
  | CJobClaimed job_key worker_id claim_expires_at =>
      Ok (b_event (EvJobClaimed job_key worker_id claim_expires_at) (builder_new (sn_instance s)))
  | CV2TriggerGuard _ => apply_v2_trigger_guard s command ctx
  end.

(** [check_arrays] of [apply]. *)
Definition checks_arrays (command : Command) : bool :=
  match command with CCancel _ | CTerminate => false | _ => true end.

(** [apply]. *)
Definition apply (w : ExecutableWorkflow) (s : Snapshot) (command : Command)
    (ctx : DeterministicContext) : Result TransitionError Transition :=
  _ ← validate_snapshot_limits w s (checks_arrays command);
  t ← dispatch w s command ctx;
  _ ← map_err Integrity (ring3_shadow_check w s t);
  logical ← ok_or (NumericOverflow "logical time") (i64_try_from (logical_time ctx));
  Ok (with_command_envelope
        (CommandEnvelope_new (command_id ctx) logical (JKernel command)) t).

End apply.
