(* ===== verification/Replay.v ===== *)
(** * Materialising transitions and replaying a journal

    [materialize_snapshot], [ReplayError] and [replay] of
    [bpmn-lite-kernel/src/lib.rs], over the envelopes of
    [bpmn-lite-types/src/persistence.rs]. *)

From S2P Require Import Prelude RustStr Json Types Concurrency Platform Effects Transition Bindings Canonical KernelBase KernelScope KernelTick KernelCommands KernelApply.

Inductive ReplayError :=
| ArtifactMismatch
| ArtifactAbiMismatch (expected actual : N)
| RevisionChain (expected actual : Z)
| NonReplayableCommand (kind : string)
| ReplayTransition (e : TransitionError)
| ReplayEnvelope (reason : string)
| StateDivergence (revision : N).

(** The [Display] of [PersistenceEnvelopeError] and of [TryFromIntError]. *)
Definition show_envelope_error (e : PersistenceEnvelopeError) : string :=
  match e with
  | UnsupportedVersion envelope version =>
      "unsupported " +:+ envelope +:+ " envelope version " +:+ show_N version
  | Serialization reason => "persistence envelope serialization failed: " +:+ reason
  end.
Definition try_from_int_error : string := "out of range integral type conversion attempted".

(** ** Folding a transition into the persisted state *)

(** One [JoinMutation]. *)
Definition apply_join_mutation (joins : gmap N N) (m : JoinMutation) : gmap N N :=
  match m with
  | JMArrive id => <[id := sat_add u16_max (default 0%N (joins !! id)) 1]> joins
  | JMReset id => <[id := 0%N]> joins
  end.

(** [materialize_snapshot]. *)
Definition materialize_snapshot (prior : PersistedSnapshotState) (t : Transition)
    (artifact_abi revision : N) : SnapshotEnvelope :=
  let instance := next_snapshot t in
  let instance :=
    match state_override t with Some st => set_state st instance | None => instance end in
  let fibers := foldl (λ m f, <[fiber_id f := f]> m) (ps_fibers prior) (fibers_upsert t) in
  let fibers := foldl (λ m id, delete id m) fibers (fibers_delete t) in
  let joins := foldl apply_join_mutation (ps_join_counts prior) (join_mutations t) in
  let incs := foldl (λ m i, <[incident_id i := i]> m) (ps_incidents prior) (incidents t) in
  let table := apply_mutations (ps_table prior) (concurrency_mutations t) in
  let fibers := if delete_all_fibers (terminal_cleanup t) then ∅ else fibers in
  let joins := if delete_all_joins (terminal_cleanup t) then ∅ else joins in
  SnapshotEnvelope_new artifact_abi (bytecode_version instance) revision
    (PersistedSnapshotState_new instance (btree_values fibers) joins (btree_values incs) table
       (ps_pending_effects prior)).

(** ** Replay *)

Section replay.
Context {P : Platform}.

(** The body of [replay]'s loop: one journal record. *)
Definition replay_record (w : ExecutableWorkflow) (current : SnapshotEnvelope)
    (record : JournalRecord) : Result ReplayError SnapshotEnvelope :=
  _ ← ensure (bool_decide (jr_artifact_hash record = wf_hash w)) ArtifactMismatch;
  expected_prior ← ok_or (ReplayEnvelope try_from_int_error) (i64_try_from (se_revision current));
  _ ← ensure ((jr_prior_revision record =? expected_prior)%Z
              && (jr_new_revision record =? sat_add u64_max (se_revision current) 1)%N)
    (RevisionChain expected_prior (jr_prior_revision record));
  command ← (match ce_command (jr_command record) with
             | JKernel c => Ok c
             | other => Err (NonReplayableCommand (command_type other))
             end);
  time ← ok_or (ReplayEnvelope try_from_int_error)
    (u64_try_from (ce_logical_time (jr_command record)));
  let ctx := mkContext time (ce_command_id (jr_command record)) (jr_new_revision record) in
  t ← map_err ReplayTransition
    (apply w (to_runtime_snapshot (se_state current)) command ctx);
  let current := materialize_snapshot (se_state current) t (wf_abi_version w)
                   (jr_new_revision record) in
  replayed ← map_err (λ e, ReplayEnvelope (show_envelope_error e)) (state_hash current);
  _ ← ensure (bool_decide (replayed = jr_state_hash record))
    (StateDivergence (jr_new_revision record));
  Ok current.

(** [replay]. *)
Definition replay (w : ExecutableWorkflow) (checkpoint : SnapshotEnvelope)
    (journal_tail : list JournalRecord) : Result ReplayError SnapshotEnvelope :=
  _ ← ensure (bool_decide (bytecode_version (ps_instance (se_state checkpoint)) = wf_hash w))
    ArtifactMismatch;
  _ ← ensure (se_artifact_abi checkpoint =? wf_abi_version w)%N
    (ArtifactAbiMismatch (wf_abi_version w) (se_artifact_abi checkpoint));
  try_fold (replay_record w) checkpoint journal_tail.

End replay.

(** [JournalRecord::new]. *)
Definition JournalRecord_new (command : CommandEnvelope) (prior_revision : Z) (new_revision : N)
    (artifact_hash prior_state_hash state_hash : Hash) (evs : list RuntimeEvent)
    (effs : list DurableEffect) : JournalRecord := {|
  jr_schema_version := JOURNAL_SCHEMA_VERSION;
  jr_command := command;
  jr_prior_revision := prior_revision;
  jr_new_revision := new_revision;
  jr_artifact_hash := artifact_hash;
  jr_prior_state_hash := prior_state_hash;
  jr_state_hash := state_hash;
  jr_event_envelopes := (λ e, {| ee_schema_version := EVENT_SCHEMA_VERSION; ee_event := e |}) <$> evs;
  jr_effect_ids := durable_effect_id <$> effs |}.
