(* ===== verification/ScopeFacts.v ===== *)
(** * Facts about record reads and ancestor membership

    [fetch_record_in_transition] and [armed_record_ids_in_transition] against
    the table the staged mutations fold to, and the effect of
    [v2_reconcile_ancestor_membership] on that table. *)

From S2P Require Import Prelude RustStr Json Types Concurrency Platform Effects Transition Bindings KernelBase KernelScope.

(** The table after the mutations staged so far. *)
Definition staged_table (s : Snapshot) (c : Changes) : gmap N ConcurrencyRecord :=
  apply_mutations (sn_table s) (ch_concurrency_mutations c).

(** ** Reading through the staged mutations *)

Lemma fetch_record_snoc t l m h :
  fetch_record_rev t (reverse (l ++ [m])) h =
  match m with
  | CMInsert r => if (rec_id r =? h)%N then Some r else fetch_record_rev t (reverse l) h
  | CMRetire id | CMRemove id => if (id =? h)%N then None else fetch_record_rev t (reverse l) h
  end.
Proof. rewrite reverse_app. by destruct m. Qed.

Lemma fetch_record_staged_rev t l h r :
  fetch_record_rev t (reverse l) h = Some r -> apply_mutations t l !! h = Some r.
Proof.
  induction l as [|m l IH] using rev_ind; [done|].
  rewrite fetch_record_snoc, apply_mutations_app. cbn.
  destruct m as [r'|id|id]; cbn.
  - unfold table_insert. destruct (N.eqb_spec (rec_id r') h) as [<-|Hne].
    + intros [= ->]. by rewrite lookup_insert_eq.
    + rewrite lookup_insert_ne by done. apply IH.
  - destruct (N.eqb_spec id h) as [<-|Hne]; [done|].
    destruct (apply_mutations t l !! id); [rewrite lookup_insert_ne by done|]; apply IH.
  - destruct (N.eqb_spec id h) as [<-|Hne]; [done|].
    rewrite lookup_delete_ne by done. apply IH.
Qed.

Lemma staged_armed_fetch_rev t l h r :
  apply_mutations t l !! h = Some r -> rec_state r = Armed ->
  fetch_record_rev t (reverse l) h = Some r.
Proof.
  induction l as [|m l IH] using rev_ind; [done|].
  rewrite fetch_record_snoc, apply_mutations_app. cbn. intros H Ha. revert H.
  destruct m as [r'|id|id]; cbn.
  - unfold table_insert. destruct (N.eqb_spec (rec_id r') h) as [<-|Hne].
    + by rewrite lookup_insert_eq.
    + rewrite lookup_insert_ne by done. auto.
  - destruct (N.eqb_spec id h) as [<-|Hne].
    + destruct (apply_mutations t l !! id) eqn:E; [rewrite lookup_insert_eq|by rewrite E].
      intros [= <-]. done.
    + destruct (apply_mutations t l !! id); [rewrite lookup_insert_ne by done|]; auto.
  - destruct (N.eqb_spec id h) as [<-|Hne]; [by rewrite lookup_delete_eq|].
    rewrite lookup_delete_ne by done. auto.
Qed.

Section reads.
Variables (s : Snapshot) (c : Changes).

Lemma fetch_staged h r : fetch_record_in_transition s c h = Some r -> staged_table s c !! h = Some r.
Proof. apply fetch_record_staged_rev. Qed.

Lemma staged_armed_fetch h r :
  staged_table s c !! h = Some r -> rec_state r = Armed ->
  fetch_record_in_transition s c h = Some r.
Proof. apply staged_armed_fetch_rev. Qed.

Lemma elem_of_armed_record_ids id :
  id ∈ armed_record_ids_in_transition s c ↔
  ∃ r, staged_table s c !! id = Some r ∧ rec_state r = Armed.
Proof.
  unfold armed_record_ids_in_transition. rewrite list_elem_of_fmap. split.
  - intros ([id' r] & -> & [Ha Hin]%list_elem_of_filter). cbn in *.
    apply elem_of_btree_entries in Hin. eauto.
  - intros (r & Ht & Ha). exists (id, r). split; [done|].
    apply list_elem_of_filter. split; [done|]. by apply elem_of_btree_entries.
Qed.

Lemma NoDup_armed_record_ids : NoDup (armed_record_ids_in_transition s c).
Proof.
  unfold armed_record_ids_in_transition.
  assert (NoDup (btree_entries (staged_table s c)).*1) as Hnd by apply NoDup_btree_keys.
  revert Hnd. fold (staged_table s c). generalize (btree_entries (staged_table s c)) as l.
  intros l. induction l as [|[k r] l IH]; [constructor|].
  rewrite fmap_cons, filter_cons. intros [Hk Hl]%NoDup_cons. case_decide; [|auto].
  rewrite fmap_cons. constructor; [|auto]. intros (e & He & [_ Hin]%list_elem_of_filter)%list_elem_of_fmap.
  apply Hk. cbn in *. rewrite He. by apply list_elem_of_fmap_2.
Qed.
End reads.

Lemma fetch_keyed s c h r :
  table_keyed (sn_table s) -> fetch_record_in_transition s c h = Some r -> rec_id r = h.
Proof.
  intros Hk Hf%fetch_staged. revert Hf.
  apply (apply_mutations_keyed _ (ch_concurrency_mutations c) Hk).
Qed.

Lemma staged_table_keyed s c : table_keyed (sn_table s) -> table_keyed (staged_table s c).
Proof. apply apply_mutations_keyed. Qed.

#[export] Hint Resolve staged_table_keyed : bpmn.

(** ** Pushing mutations *)

Lemma staged_push_mutation s m c :
  staged_table s (push_mutation m c) = apply_mutation (staged_table s c) m.
Proof. unfold staged_table. cbn. by rewrite apply_mutations_app. Qed.

Lemma push_mutations_list {A} (g : A -> ConcurrencyMutation) l c :
  foldl (λ c x, push_mutation (g x) c) c l =
  put_concurrency_mutations (ch_concurrency_mutations c ++ (g <$> l)) c.
Proof.
  revert c; induction l as [|x l IH]; intros c; cbn.
  - rewrite app_nil_r. by destruct c.
  - rewrite IH. cbn. by rewrite <-app_assoc.
Qed.

Lemma staged_put s l c :
  staged_table s (put_concurrency_mutations (ch_concurrency_mutations c ++ l) c) =
  apply_mutations (staged_table s c) l.
Proof. unfold staged_table. cbn. by rewrite apply_mutations_app. Qed.

(** Retiring a batch of records. *)
Lemma lookup_apply_retires t ids h :
  apply_mutations t (CMRetire <$> ids) !! h =
  if decide (h ∈ ids) then set_rec_state Retired <$> t !! h else t !! h.
Proof.
  revert t; induction ids as [|id ids IH]; intros t; cbn.
  - by rewrite decide_False by set_solver.
  - unfold apply_mutations in IH. rewrite IH.
    destruct (decide (h = id)) as [->|Hne].
    + rewrite (decide_True (P := id ∈ id :: ids)) by set_solver.
      destruct (t !! id) as [r|] eqn:E; cbn.
      * rewrite lookup_insert_eq. by destruct (decide (id ∈ ids)).
      * rewrite E. by destruct (decide (id ∈ ids)).
    + replace (match t !! id with
               | Some r => <[id := set_rec_state Retired r]> t | None => t end !! h)
        with (t !! h) by (destruct (t !! id); [by rewrite lookup_insert_ne | done]).
      destruct (decide (h ∈ ids)); [rewrite decide_True by set_solver; done|].
      by rewrite decide_False by set_solver.
Qed.

Lemma staged_push_retires s ids c h :
  staged_table s (push_retires ids c) !! h =
  if decide (h ∈ ids) then set_rec_state Retired <$> staged_table s c !! h
  else staged_table s c !! h.
Proof. unfold push_retires. rewrite push_mutations_list, staged_put. apply lookup_apply_retires. Qed.

(** ** Reconciliation *)

(** The membership operations addressed to one record, in order. *)
Definition ops_on (h : RecordId) (ops : list (RecordId * MembershipOp)) : list MembershipOp :=
  (filter (λ e, e.1 = h) ops).*2.

Definition apply_ops (ops : list MembershipOp) (r : ConcurrencyRecord) : ConcurrencyRecord :=
  foldl (λ r op, apply_membership_op op r) r ops.

Lemma apply_ops_fields ops r :
  rec_id (apply_ops ops r) = rec_id r ∧ rec_state (apply_ops ops r) = rec_state r ∧
  rec_kind (apply_ops ops r) = rec_kind r ∧ rec_counters (apply_ops ops r) = rec_counters r.
Proof.
  unfold apply_ops. revert r; induction ops as [|op ops IH]; intros r; cbn; [done|].
  destruct (IH (apply_membership_op op r)) as (-> & -> & -> & ->). by destruct op.
Qed.

Lemma apply_ops_shaped ops r : well_shaped r -> well_shaped (apply_ops ops r).
Proof.
  unfold apply_ops. revert r; induction ops as [|op ops IH]; intros r H; cbn; [done|].
  apply IH. destruct op; apply well_shaped_members, H.
Qed.

Lemma members_apply_adds r (ids : list Uuid) :
  members (apply_ops (MAdd <$> ids) r) = list_to_set ids ∪ members r.
Proof.
  unfold apply_ops. revert r; induction ids as [|id ids IH]; intros r; cbn; [set_solver|].
  rewrite IH. cbn. set_solver.
Qed.

Lemma members_apply_removes r (ids : list Uuid) :
  members (apply_ops (MRemove <$> ids) r) = members r ∖ list_to_set ids.
Proof.
  unfold apply_ops. revert r; induction ids as [|id ids IH]; intros r; cbn; [set_solver|].
  rewrite IH. cbn. set_solver.
Qed.

Lemma lookup_reconcile_touched s c exclude ops touched h :
  foldl (reconcile_step s c exclude) touched ops !! h =
  if decide (h ∈ exclude) then touched !! h
  else
    match touched !! h with
    | Some r => Some (apply_ops (ops_on h ops) r)
    | None =>
        if decide (ops_on h ops = []) then None
        else apply_ops (ops_on h ops) <$> fetch_record_in_transition s c h
    end.
Proof.
  revert touched; induction ops as [|[h' op] ops IH]; intros touched; cbn [foldl].
  { destruct (decide _); [done|]. destruct (touched !! h); [done|]. by rewrite decide_True. }
  rewrite IH. clear IH. unfold ops_on. rewrite filter_cons. cbn.
  destruct (decide (h ∈ exclude)) as [Hex|Hex].
  - destruct (decide (h' ∈ exclude)); [done|].
    destruct (match touched !! h' with Some _ => _ | None => _ end); [|done].
    apply lookup_insert_ne. congruence.
  - destruct (decide (h' = h)) as [->|Hne].
    + rewrite (decide_False (P := h ∈ exclude)) by done. cbn.
      destruct (touched !! h) as [r|] eqn:Ht; [by rewrite lookup_insert_eq|].
      destruct (fetch_record_in_transition s c h) as [r|] eqn:Hf; cbn.
      * by rewrite lookup_insert_eq.
      * rewrite Ht. by destruct (decide _).
    + destruct (decide (h' ∈ exclude)); [done|].
      destruct (match touched !! h' with Some _ => _ | None => _ end); [|done].
      by rewrite lookup_insert_ne.
Qed.

Lemma apply_mutations_inserts t (m : gmap N ConcurrencyRecord) :
  table_keyed m -> apply_mutations t (CMInsert <$> btree_values m) = m ∪ t.
Proof.
  intros Hk. apply map_eq; intros h. rewrite lookup_union.
  unfold apply_mutations. rewrite foldl_fmap. cbn. unfold table_insert.
  rewrite lookup_foldl_insert.
  - destruct (List.find _ _) as [r|] eqn:Hf.
    + apply List.find_some in Hf as [Hin Hid%bool_decide_eq_true].
      apply list_elem_of_In, elem_of_btree_values in Hin as [k Hm].
      rewrite (Hk _ _ Hm) in Hid. subst k. rewrite Hm. by destruct (t !! h).
    + destruct (m !! h) as [r|] eqn:Hm; [|by destruct (t !! h)].
      exfalso. eapply List.find_none in Hf.
      * apply bool_decide_eq_false in Hf. apply Hf. by apply Hk.
      * apply list_elem_of_In, elem_of_btree_values. eauto.
  - intros r r' [k1 H1]%elem_of_btree_values [k2 H2]%elem_of_btree_values Heq.
    rewrite (Hk _ _ H1), (Hk _ _ H2) in Heq. congruence.
Qed.

(** The batch as one list of inserts; every other staged field is untouched. *)
Lemma reconcile_put s ops exclude c :
  v2_reconcile_ancestor_membership s ops exclude c =
  put_concurrency_mutations
    (ch_concurrency_mutations c
       ++ (CMInsert <$> btree_values (foldl (reconcile_step s c exclude) ∅ ops))) c.
Proof. apply push_mutations_list. Qed.

(** A record present in the transition and not excluded receives exactly the
    operations addressed to it, in order; every other record is untouched. *)
Lemma staged_reconcile s ops exclude c h :
  table_keyed (sn_table s) ->
  staged_table s (v2_reconcile_ancestor_membership s ops exclude c) !! h =
  if decide (h ∈ exclude) then staged_table s c !! h
  else
    match fetch_record_in_transition s c h with
    | Some r => Some (apply_ops (ops_on h ops) r)
    | None => staged_table s c !! h
    end.
Proof.
  intros Hk. rewrite reconcile_put, staged_put.
  rewrite apply_mutations_inserts.
  - rewrite lookup_union, lookup_reconcile_touched, lookup_empty.
    destruct (decide (h ∈ exclude)); [by destruct (staged_table s c !! h)|].
    destruct (fetch_record_in_transition s c h) as [r|] eqn:Hf; cbn.
    + destruct (decide (ops_on h ops = [])) as [->|Hne]; cbn.
      * rewrite (fetch_staged _ _ _ _ Hf). done.
      * by destruct (staged_table s c !! h).
    + destruct (decide _); by destruct (staged_table s c !! h).
  - intros h' r. rewrite lookup_reconcile_touched, lookup_empty.
    destruct (decide (h' ∈ exclude)); [done|]. destruct (decide (ops_on h' ops = [])); [done|].
    destruct (fetch_record_in_transition s c h') as [r'|] eqn:Hf; [|done].
    intros [= <-]. destruct (apply_ops_fields (ops_on h' ops) r') as (-> & _).
    by eapply fetch_keyed.
Qed.

Lemma ops_on_app h l1 l2 : ops_on h (l1 ++ l2) = ops_on h l1 ++ ops_on h l2.
Proof. unfold ops_on. by rewrite filter_app, fmap_app. Qed.

(** Operations of the form "[op] against every handle of a stack". *)
Lemma ops_on_stack h (op : MembershipOp) (l : list RecordId) :
  ops_on h ((λ a, (a, op)) <$> l) = replicate (length (filter (λ x, x = h) l)) op.
Proof.
  unfold ops_on. induction l as [|x l IH]; [done|]. cbn [fmap list_fmap].
  rewrite !filter_cons. cbn. destruct (decide (x = h)); cbn; [by f_equal | done].
Qed.
