(* ===== verification/Identity.v ===== *)
(** * What no transition changes

    The identity of an instance: its ids, its tenant, its process key, the
    artifact it runs, its correlation id and its creation time; and its
    quarantine.  Every command handler and every word of the interpreter builds
    the next instance from the current one by assigning other fields.  Nor does
    the kernel use the parts of a transition that only other producers fill:
    pending invocations, child starts, start lineage, a state override, join
    mutations. *)

From S2P Require Import Prelude RustStr Json Types Concurrency Platform Effects Transition Bindings KernelBase KernelScope KernelTick KernelCommands KernelApply ScopeFacts.

Record Identity := mkIdentity {
  id_instance : Uuid;
  id_tenant : string;
  id_process_key : string;
  id_bytecode : Hash;
  id_correlation : string;
  id_entry : Uuid;
  id_runbook : Uuid;
  id_created : Timestamp;
  id_plan : option Hash;
  id_quarantine : option string;
}.

Definition identity (i : ProcessInstance) : Identity :=
  mkIdentity (instance_id i) (inst_tenant_id i) (process_key i) (bytecode_version i)
    (correlation_id i) (entry_id i) (runbook_id i) (created_at i) (plan_hash i)
    (quarantine_state i).

(** The outcome of a handler, when it has one, satisfies [Q]. *)
Definition yields {E A} (Q : A -> Prop) (r : Result E A) : Prop := ∀ a, r = Ok a -> Q a.

Lemma yields_bind {E A B} (R : A -> Prop) (Q : B -> Prop) (r : Result E A) f :
  yields R r -> (∀ a, R a -> yields Q (f a)) -> yields Q (r ≫= f).
Proof. intros Hr Hf b (a & Ha & Hb)%bind_ok_inv. by eapply Hf; [apply Hr|]. Qed.

Lemma yields_then {E A B} (Q : B -> Prop) (r : Result E A) f :
  (∀ a, yields Q (f a)) -> yields Q (r ≫= f).
Proof. intros Hf. by apply (yields_bind (λ _, True)). Qed.

Lemma yields_ok {E A} (Q : A -> Prop) a : Q a -> yields Q (Ok (E := E) a).
Proof. by intros HQ ? [= <-]. Qed.

Lemma yields_err {E A} (Q : A -> Prop) (e : E) : yields Q (Err e).
Proof. done. Qed.

Lemma yields_map_err {E E' A} (Q : A -> Prop) (g : E -> E') (r : Result E A) :
  yields Q r -> yields Q (map_err g r).
Proof. intros Hr a Ha%map_err_ok. by apply Hr. Qed.

Lemma yields_try_fold {E A B} (Q : B -> Prop) (f : B -> A -> Result E B) l b :
  Q b -> (∀ b x, Q b -> yields Q (f b x)) -> yields Q (try_fold f b l).
Proof.
  intros Hb Hf. revert b Hb. induction l as [|x l IH]; intros b Hb; cbn [try_fold]; [by apply yields_ok|].
  destruct (f b x) as [b'|e] eqn:Hx; [|done]. apply IH. by eapply Hf.
Qed.

(** Walk a handler: split its matches and binds, close the returned instance by
    computation. *)
Ltac walk :=
  repeat first
    [ apply yields_err
    | apply yields_ok; first [reflexivity | assumption | congruence]
    | match goal with
      | |- yields _ (match ?x with _ => _ end) => destruct x
      | |- yields _ (let '(_, _) := ?x in _) => destruct x
      end
    | apply yields_then; intros ? ].

Section identity.
Context {P : Platform}.

(** ** Helpers that build an instance *)

Definition same (i : ProcessInstance) : ProcessInstance -> Prop := λ j, identity j = identity i.

Lemma apply_completion_same i c : yields (same i) (apply_completion i c).
Proof.
  unfold apply_completion. apply yields_try_fold; [done|]. intros j [k v] Hj. unfold completion_flag.
  apply yields_then. intros key. by apply yields_ok.
Qed.

Lemma bind_placeholder_same i ph : yields (same i) (bind_placeholder_from_payload i ph).
Proof. unfold bind_placeholder_from_payload. walk. Qed.

Lemma apply_ffi_outputs_same i d bytes : yields (same i) (apply_ffi_outputs i d bytes).
Proof.
  unfold apply_ffi_outputs. apply yields_then. intros out. apply yields_then. intros dom.
  eapply (yields_bind (λ acc, same i acc.1)).
  - apply yields_try_fold; [done|]. intros [j dom'] b Hj. unfold apply_output.
    apply yields_then. intros v. destruct (fob_target b); apply yields_then; intros ?; by apply yields_ok.
  - intros [j dom'] Hj. by apply yields_ok.
Qed.

Lemma ffi_outputs_of_same w i pc out payload nm : yields (same i) (ffi_outputs_of w i pc out payload nm).
Proof.
  unfold ffi_outputs_of. destruct nm; [by apply yields_ok|]. destruct payload; [by apply yields_ok|].
  cbv zeta. apply yields_then. intros d. apply yields_map_err, apply_ffi_outputs_same.
Qed.

(** ** Transitions *)

(** The parts the kernel leaves empty. *)
Definition kernel_only (t : Transition) : Prop :=
  pending_invocations t = [] ∧ pending_take t = [] ∧ child_starts t = [] ∧ start_dedupe t = None ∧ state_override t = None.
Definition kept (i : ProcessInstance) (t : Transition) : Prop := same i (next_snapshot t) ∧ kernel_only t.

Lemma kept_finish c i j : same i j -> kept i (finish c j).
Proof.
  unfold kept, kernel_only. rewrite finish_next_snapshot, finish_pending_invocations, finish_pending_take,
    finish_child_starts, finish_start_dedupe, finish_state_override. done.
Qed.

Lemma fail_contract_kept i f c ctx msg : yields (kept i) (fail_contract i f c ctx msg).
Proof. unfold fail_contract. apply yields_then. intros at_. by apply yields_ok, kept_finish. Qed.

Lemma park_spanning_survivor_same w s g opened f cls msg n key ctx i c :
  yields (λ r, same i r.2) (park_spanning_survivor w s g opened f cls msg n key ctx i c).
Proof.
  unfold park_spanning_survivor. cbv zeta. destruct (truncate_at_guard _ _ _).
  apply yields_then. intros at_. by apply yields_ok.
Qed.

Lemma restore_same r i : same i (restore r i).
Proof. done. Qed.

Lemma retire_all_kept s t i : kept i t -> kept i (retire_all_armed_records s t).
Proof.
  unfold kept, retire_all_armed_records. generalize (armed_record_ids_in_transition s Changes_default) as l.
  intros l. revert t. induction l as [|x l IH]; intros t Ht; cbn; [done|]. by apply IH.
Qed.

(** ** The interpreter *)

Definition step_kept (i : ProcessInstance) (o : StepOutcome) : Prop :=
  match o with Continue ts => same i (ts_instance ts) | Return t => kept i t end.

Lemma pop_value_kept {B} what ts (k : TickState * Value -> Result TransitionError B) Q :
  (∀ ts' v, ts_instance ts' = ts_instance ts -> yields Q (k (ts', v))) ->
  yields Q (pop_value what ts ≫= k).
Proof. intros Hk. unfold pop_value. destruct (vec_pop _) as [[rest v]|]; [by apply Hk | done]. Qed.

Lemma pop_handle_kept {B} what ts (k : TickState * RecordId -> Result TransitionError B) Q :
  (∀ ts' h, ts_instance ts' = ts_instance ts -> yields Q (k (ts', h))) ->
  yields Q (pop_handle what ts ≫= k).
Proof. intros Hk. unfold pop_handle. destruct (vec_pop _) as [[rest v]|]; [by apply Hk | done]. Qed.

Lemma invoke_ffi_kept {B} w decl a b template ts (k : TickState * EffectId -> Result TransitionError B) Q :
  (∀ ts' id, ts_instance ts' = ts_instance ts -> yields Q (k (ts', id))) ->
  yields Q (invoke_ffi w decl a b template ts ≫= k).
Proof.
  intros Hk. apply (yields_bind (λ r, ts_instance r.1 = ts_instance ts)).
  - unfold invoke_ffi. cbv zeta. do 3 (apply yields_then; intros ?). by apply yields_ok.
  - intros [ts' id] E. by apply Hk.
Qed.

(** Close one arm: the instance of the outcome is the one before, up to
    assignments of other fields. *)
Ltac kept :=
  first [ apply yields_err
        | apply yields_ok; cbn [step_kept]; first [ apply kept_finish | idtac ]; unfold same; cbn;
          repeat match goal with H : ts_instance _ = ts_instance _ |- _ => rewrite H end; reflexivity ].

Lemma return_contract_kept i f c ctx msg :
  yields (step_kept i) (t ← fail_contract i f c ctx msg; Ok (Return t)).
Proof. eapply yields_bind; [apply fail_contract_kept|]. intros t Ht. by apply yields_ok. Qed.

Lemma exec_native_kept w s n retc ts : yields (step_kept (ts_instance ts)) (exec_native w s n retc ts).
Proof.
  unfold exec_native. apply yields_then. intros task. cbv zeta. destruct (sn_dedupe s !! _); [|kept].
  eapply yields_bind; [apply apply_completion_same|]. intros i Hi. by apply yields_ok.
Qed.

Lemma exec_dsl_task_kept w s n produces ts :
  yields (step_kept (ts_instance ts)) (exec_dsl_task w s n produces ts).
Proof.
  unfold exec_dsl_task. apply yields_then. intros task. cbv zeta. destruct (sn_dedupe s !! _); [|kept].
  eapply yields_bind; [apply apply_completion_same|]. intros i Hi.
  eapply (yields_bind (same i)).
  - destruct produces; [apply yields_map_err, bind_placeholder_same | by apply yields_ok].
  - intros i2 Hj. apply yields_ok. cbn. unfold same in *. congruence.
Qed.

Lemma exec_wait_msg_kept w s name ts : yields (step_kept (ts_instance ts)) (exec_wait_msg w s name ts).
Proof.
  unfold exec_wait_msg. cbv zeta. apply yields_then. intros key.
  destruct (list_find _ _) as [[k b]|]; [|kept]. eapply (yields_bind (same (ts_instance ts))).
  - destruct (bm_payload_hash _); [|by apply yields_ok]. apply yields_then. intros text. by apply yields_ok.
  - intros i Hi. by apply yields_ok.
Qed.

Lemma exec_end_kept s ctx ts : yields (step_kept (ts_instance ts)) (exec_end s ctx ts).
Proof. unfold exec_end. cbv zeta. destruct (bool_decide _); [apply yields_then; intros ?|]; kept. Qed.

Lemma exec_route_payload_kept w ctx br d ts :
  yields (step_kept (ts_instance ts)) (exec_route_payload w ctx br d ts).
Proof.
  unfold exec_route_payload. cbv zeta.
  match goal with |- yields _ (match ?t with _ => _ end) => destruct t end;
    [kept | apply return_contract_kept].
Qed.

Lemma exec_fork_kept s ctx targets ts : yields (step_kept (ts_instance ts)) (exec_fork s ctx targets ts).
Proof. unfold exec_fork. cbv zeta. destruct (foldl _ _ _) as [[[? ?] ?] ?]. kept. Qed.

Lemma exec_join_kept s ts : yields (step_kept (ts_instance ts)) (exec_join s ts).
Proof.
  unfold exec_join. apply pop_handle_kept. intros ts' h E. cbv zeta. apply yields_then. intros r.
  destruct (_ =? 0)%N; kept.
Qed.

Lemma exec_cancel_scope_kept s ts : yields (step_kept (ts_instance ts)) (exec_cancel_scope s ts).
Proof.
  unfold exec_cancel_scope. apply pop_handle_kept. intros ts' h E. apply yields_then.
  intros [restored c]. kept.
Qed.

Lemma exec_instr_kept w s ctx word ts :
  yields (step_kept (ts_instance ts)) (exec_instr w s ctx word ts).
Proof.
  destruct word; cbn [exec_instr];
    try apply exec_native_kept; try apply exec_dsl_task_kept; try apply exec_wait_msg_kept;
    try apply exec_end_kept; try apply exec_route_payload_kept; try apply exec_fork_kept;
    try apply exec_join_kept; try apply exec_cancel_scope_kept; try apply return_contract_kept.
  all: try kept.
  all: repeat first [ progress cbv zeta | apply pop_value_kept; intros ? ? ? | apply pop_handle_kept; intros ? ? ?
    | apply invoke_ffi_kept; intros ? ? ? | progress unfold exec_branch, exec_pop, exec_mi_load_element,
        exec_mi_arity_check, exec_store_flag, exec_inc_counter, exec_br_counter_lt, exec_ffi,
        exec_await_effect, exec_publish_message, exec_wait_for, exec_wait_until, exec_end_terminate,
        exec_guard_end, exec_guard_arm_timer, exec_guard_arm_error, exec_guard_timer_cycle,
        exec_arm_timer, exec_arm_msg, exec_arm_effect, exec_race_close, exec_push
    | kept
    | apply yields_then; intros ?
    | match goal with |- yields _ (match ?x with _ => _ end) => destruct x end
    | match goal with |- yields _ (Ok (Continue (if ?b then _ else _))) => destruct b end ].
Qed.

Lemma tick_loop_kept w s ctx steps ts : yields (kept (ts_instance ts)) (tick_loop w s ctx steps ts).
Proof.
  revert ts. induction steps as [|n IH]; intros ts; cbn [tick_loop]; [apply yields_err|].
  assert (Hs : yields (step_kept (ts_instance ts)) (tick_step w s ctx ts)).
  { unfold tick_step. apply yields_then. intros word. apply exec_instr_kept. }
  destruct (tick_step w s ctx ts) as [[ts'|t]|e] eqn:Ht; [| |apply yields_err].
  - specialize (Hs _ eq_refl). cbn in Hs. intros t [Hl ?]%IH. split; [|done]. unfold same in *. congruence.
  - specialize (Hs _ eq_refl). by apply yields_ok.
Qed.

Lemma apply_tick_kept w s ctx cmd : yields (kept (sn_instance s)) (apply_tick w s ctx cmd).
Proof.
  destruct cmd; cbn [apply_tick]; try apply yields_err.
  do 4 (apply yields_then; intros ?). apply tick_loop_kept.
Qed.

(** ** Command handlers *)

Ltac kept_t := apply yields_ok; first [ apply kept_finish; done | done ].

Lemma job_failure_rollback_kept w s f g key cls msg n ctx :
  yields (kept (sn_instance s)) (job_failure_rollback w s f g key cls msg n ctx).
Proof.
  unfold job_failure_rollback. apply yields_then. intros r. apply yields_then. intros [restored c].
  cbv zeta. destruct (nothing_else_survives _ _ _); [|kept_t]. apply yields_then. intros opened.
  eapply yields_bind; [apply park_spanning_survivor_same|]. intros [c' i] Hi.
  apply yields_ok, kept_finish. exact Hi.
Qed.

Lemma apply_job_failure_kept w s cmd ctx : yields (kept (sn_instance s)) (apply_job_failure w s cmd ctx).
Proof.
  destruct cmd; cbn [apply_job_failure]; try apply yields_err.
  destruct (is_terminal _); [kept_t|]. destruct (failed_fiber _ _ _) as [f|]; [|kept_t].
  assert (Hrest : yields (kept (sn_instance s))
    (match matched_error_route s f error_class with
     | Some (code, handler, record_id) =>
         c ← v2_trigger_guard_changes_with_target s record_id ctx handler;
         Ok (finish (push_event (EvErrorRouted job_key code ("guard:" +:+ show_uuid record_id) handler)
                       (ack_named_job job_key c)) (sn_instance s))
     | None =>
         match rollback_guard s f error_class with
         | Some g => job_failure_rollback w s f g job_key error_class message attempt ctx
         | None => job_failure_incident w s f effect_id job_key error_class message retry attempt ctx
         end
     end)).
  { destruct (matched_error_route _ _ _) as [[[code handler] rid]|].
    - apply yields_then. intros c. kept_t.
    - destruct (rollback_guard _ _ _); [apply job_failure_rollback_kept|].
      unfold job_failure_incident. cbv zeta. apply yields_then. intros at_. kept_t. }
  destruct error_class; try exact Hrest. destruct retry; [kept_t | exact Hrest].
Qed.

Lemma apply_ffi_completion_kept w s cmd : yields (kept (sn_instance s)) (apply_ffi_completion w s cmd).
Proof.
  destruct cmd; cbn [apply_ffi_completion]; try apply yields_err.
  destruct output; try apply yields_err.
  apply yields_then. intros f. cbv zeta. destruct (ffi_match _ _ _ _ _ _); [| |kept_t|apply yields_err].
  all: eapply yields_bind; [apply ffi_outputs_of_same|]; intros i Hi; by apply yields_ok.
Qed.

Lemma apply_message_kept w s cmd ctx : yields (kept (sn_instance s)) (apply_message w s cmd ctx).
Proof.
  destruct cmd; cbn [apply_message]; try apply yields_err. apply yields_then. intros at_. cbv zeta.
  destruct (is_terminal _); [kept_t|]. destruct (find_map _ _) as [[f race]|]; [|kept_t].
  eapply (yields_bind (same (sn_instance s))).
  - destruct payload_hash; [|by apply yields_ok]. apply yields_then. intros text. by apply yields_ok.
  - intros i Hi. by apply yields_ok, kept_finish.
Qed.

Lemma apply_job_completion_kept s c : yields (kept (sn_instance s)) (apply_job_completion s c).
Proof.
  unfold apply_job_completion. cbv zeta. destruct (bool_decide _); [|apply yields_err].
  destruct (is_terminal _).
  - destruct (jc_worker_id c), (jc_claim_token c); kept_t.
  - apply yields_then. intros f. eapply yields_bind; [apply apply_completion_same|]. intros i Hi.
    by apply yields_ok, kept_finish.
Qed.

Lemma guard_timer_rollback_same w s g r ctx :
  yields (λ x, same (sn_instance s) x.2) (apply_v2_guard_timer_rollback w s g r ctx).
Proof.
  unfold apply_v2_guard_timer_rollback. destruct (min_member r); [|by apply yields_ok].
  apply yields_then. intros [restored c]. cbv zeta.
  destruct (nothing_else_survives _ _ _); [|by apply yields_ok].
  do 2 (apply yields_then; intros ?). exact (park_spanning_survivor_same _ _ _ _ _ _ _ _ _ _ (restore restored (sn_instance s)) _).
Qed.

Lemma apply_timer_kept w s timer at_ ctx : yields (kept (sn_instance s)) (apply_timer w s timer at_ ctx).
Proof.
  unfold apply_timer. do 3 (apply yields_then; intros ?). cbv zeta.
  assert (Hg : ∀ rid, yields (kept (sn_instance s)) (apply_guard_timer w s timer rid at_ ctx)).
  { intros rid. unfold apply_guard_timer. cbv zeta. destruct (sn_table s !! rid) as [r|]; [|kept_t].
    destruct (rec_state r); [|kept_t]. destruct (rec_kind r); try kept_t.
    eapply (yields_bind (λ x, same (sn_instance s) x.2)).
    - destruct (rollback_domain_payload r); [apply guard_timer_rollback_same|].
      apply yields_then. intros c. by apply yields_ok.
    - intros [c i] Hi. by apply yields_ok, kept_finish. }
  destruct (ct_kind timer); [| | |by apply Hg];
    destruct (sn_fibers s !! ct_fiber_id timer) as [f|]; try kept_t;
    destruct (fiber_wait f); try kept_t; case_match; kept_t.
Qed.

Lemma apply_start_child_kept s key child accepted ctx :
  yields (kept (sn_instance s)) (apply_start_child_result s key child accepted ctx).
Proof.
  unfold apply_start_child_result. cbv zeta. destruct (inst_state _); try apply yields_err.
  - destruct accepted; [kept_t|]. do 2 (apply yields_then; intros ?). kept_t.
  - case_match; [kept_t | apply yields_err].
Qed.

Lemma apply_resolve_kept s id res ctx : yields (kept (sn_instance s)) (apply_resolve_incident s id res ctx).
Proof.
  unfold apply_resolve_incident. apply yields_then. intros inc. destruct (incident_resolved_at inc); [kept_t|].
  do 2 (apply yields_then; intros ?). cbv zeta. destruct (list_find _ _) as [[? ?]|]; kept_t.
Qed.

Lemma apply_cancel_kept s reason ctx : kept (sn_instance s) (apply_cancel s reason ctx).
Proof.
  unfold apply_cancel. cbv zeta. apply retire_all_kept.
  set (t := foldl _ _ _). enough (Ht : kept (sn_instance s) t) by exact Ht. subst t.
  set (j := set_state _ _). assert (Ht : kept (sn_instance s) (builder_new j)) by done. revert Ht.
  generalize (builder_new j) as t. induction (btree_values (sn_fibers s)) as [|f l IH]; intros t Ht; cbn; [done|].
  apply IH. by destruct (bool_decide _).
Qed.

(** ** Every command *)

Lemma apply_kept w s cmd ctx : yields (kept (sn_instance s)) (apply w s cmd ctx).
Proof.
  unfold apply. apply yields_then. intros _. eapply yields_bind.
  - instantiate (1 := kept (sn_instance s)). destruct cmd; cbn [dispatch];
      try apply apply_tick_kept; try apply apply_job_failure_kept; try apply apply_timer_kept;
      try apply apply_message_kept; try apply apply_resolve_kept; try apply apply_start_child_kept;
      try kept_t.
    + destruct output; [apply apply_job_completion_kept | apply apply_ffi_completion_kept | apply yields_err].
    + apply yields_ok, apply_cancel_kept.
    + unfold apply_terminate. apply yields_then. intros at_. by apply yields_ok, retire_all_kept.
    + cbn [apply_v2_trigger_guard]. apply yields_then. intros c. kept_t.
  - intros t Ht. do 2 (apply yields_then; intros ?). by apply yields_ok.
Qed.


End identity.

(** * The kernel leaves the join counters alone

    [Changes] has a list of join mutations, and [finish] copies it, but no word of
    the interpreter and no command handler fills it: the counters of the older
    instruction set are never moved by a transition. *)

Definition joins (c : Changes) : list JoinMutation := ch_join_mutations c.
Definition quiet (t : Transition) : Prop := join_mutations t = [].

Lemma quiet_finish c i : joins c = [] -> quiet (finish c i).
Proof. unfold quiet. by rewrite finish_join_mutations. Qed.

Lemma foldl_joins {A} (f : Changes -> A -> Changes) l c : (∀ c x, joins (f c x) = joins c) -> joins (foldl f c l) = joins c.
Proof. intros H. revert c; induction l as [|x l IH]; intros c; cbn; [done | by rewrite IH]. Qed.

Lemma joins_push_retires ids c : joins (push_retires ids c) = joins c.
Proof. by apply foldl_joins. Qed.
Lemma joins_push_deletes ids c : joins (push_deletes ids c) = joins c.
Proof. by apply foldl_joins. Qed.
Lemma joins_push_job_cancels s ids c : joins (push_job_cancels s ids c) = joins c.
Proof. apply foldl_joins. intros c' id. destruct (sn_fibers s !! id) as [f|]; [|done]. by destruct (fiber_wait f). Qed.
Lemma joins_reconcile s ops exclude c : joins (v2_reconcile_ancestor_membership s ops exclude c) = joins c.
Proof. by rewrite reconcile_put. Qed.
Lemma joins_truncate g f c : joins (truncate_at_guard g f c).2 = joins c.
Proof. unfold truncate_at_guard. destruct (position _ _); [by apply foldl_joins | done]. Qed.
Lemma joins_ack_named key c : joins (ack_named_job key c) = joins c.
Proof. unfold ack_named_job. by destruct (bool_decide _). Qed.

(** The pushes. *)
Lemma joins_push_fiber x c : joins (push_fiber x c) = joins c.
Proof. done. Qed.
Lemma joins_push_delete x c : joins (push_delete x c) = joins c.
Proof. done. Qed.
Lemma joins_push_event x c : joins (push_event x c) = joins c.
Proof. done. Qed.
Lemma joins_push_effect x c : joins (push_effect x c) = joins c.
Proof. done. Qed.
Lemma joins_push_effect_mutation x c : joins (push_effect_mutation x c) = joins c.
Proof. done. Qed.
Lemma joins_push_timer_mutation x c : joins (push_timer_mutation x c) = joins c.
Proof. done. Qed.
Lemma joins_push_job x c : joins (push_job x c) = joins c.
Proof. done. Qed.
Lemma joins_push_ack x c : joins (push_ack x c) = joins c.
Proof. done. Qed.
Lemma joins_push_job_mutation x c : joins (push_job_mutation x c) = joins c.
Proof. done. Qed.
Lemma joins_push_dedupe x c : joins (push_dedupe x c) = joins c.
Proof. done. Qed.
Lemma joins_push_incident x c : joins (push_incident x c) = joins c.
Proof. done. Qed.
Lemma joins_push_buffered x c : joins (push_buffered x c) = joins c.
Proof. done. Qed.
Lemma joins_push_mutation x c : joins (push_mutation x c) = joins c.
Proof. done. Qed.
Lemma joins_push_delta x c : joins (push_delta x c) = joins c.
Proof. done. Qed.
Lemma joins_put_cleanup x c : joins (put_cleanup x c) = joins c.
Proof. done. Qed.
Lemma joins_put_fibers_delete x c : joins (put_fibers_delete x c) = joins c.
Proof. done. Qed.

Create HintDb quiet.
#[export] Hint Rewrite joins_push_retires joins_push_deletes joins_push_job_cancels joins_reconcile joins_truncate joins_ack_named
  joins_push_fiber joins_push_delete joins_push_event joins_push_effect joins_push_effect_mutation joins_push_timer_mutation joins_push_job joins_push_ack
  joins_push_job_mutation joins_push_dedupe joins_push_incident joins_push_buffered joins_push_mutation joins_push_delta joins_put_cleanup joins_put_fibers_delete : quiet.

Section quiet.
Context {P : Platform}.

Lemma fail_contract_quiet i f c ctx msg : joins c = [] -> yields quiet (fail_contract i f c ctx msg).
Proof. intros Hc. unfold fail_contract. apply yields_then. intros at_. apply yields_ok. by apply quiet_finish. Qed.

Lemma rollback_quiet s g caller c :
  joins c = [] -> yields (λ x, joins x.2 = []) (v2_rollback_guard_scope s g caller c).
Proof.
  intros Hc. unfold v2_rollback_guard_scope. apply yields_then. intros r.
  destruct (rollback_domain_payload r), (rollback_domain_payload_hash r), (rollback_flags r), (rollback_join_expected r),
    (rollback_session_stack r); try apply yields_err.
  do 2 (apply yields_then; intros ?). destruct a0 as [ro ca]. destruct caller; apply yields_ok; cbn [snd];
     autorewrite with quiet; done.
Qed.

Lemma park_survivor_quiet w s g opened f cls msg n key ctx i c :
  joins c = [] -> yields (λ r, joins r.1 = []) (park_spanning_survivor w s g opened f cls msg n key ctx i c).
Proof.
  intros Hc. unfold park_spanning_survivor. cbv zeta.
  destruct (truncate_at_guard _ _ _) as [f' c'] eqn:E. apply yields_then. intros at_. apply yields_ok. cbn [fst].
  autorewrite with quiet. apply (f_equal snd) in E. cbn in E. rewrite <-E. by autorewrite with quiet.
Qed.

Lemma trigger_quiet s rid ctx target : yields (λ c, joins c = []) (v2_trigger_guard_changes_with_target s rid ctx target).
Proof.
  unfold v2_trigger_guard_changes_with_target. do 3 (apply yields_then; intros ?). cbv zeta. destruct a0.
  - apply yields_then. intros [ro ca]. apply yields_ok. 
    autorewrite with quiet. done.
  - apply yields_ok.  autorewrite with quiet. done.
Qed.

Lemma trigger_own_quiet s rid ctx : yields (λ c, joins c = []) (v2_trigger_guard_changes s rid ctx).
Proof. unfold v2_trigger_guard_changes. repeat first [apply trigger_quiet | apply yields_then; intros ? | case_match | apply yields_err]. Qed.

(** ** The interpreter *)

Definition step_quiet (o : StepOutcome) : Prop :=
  match o with Continue ts => joins (ts_changes ts) = [] | Return t => quiet t end.

Lemma pop_value_quiet {B} what ts (k : TickState * Value -> Result TransitionError B) Q :
  (∀ ts' v, joins (ts_changes ts') = joins (ts_changes ts) -> yields Q (k (ts', v))) -> yields Q (pop_value what ts ≫= k).
Proof. intros Hk. unfold pop_value. destruct (vec_pop _) as [[rest v]|]; [by apply Hk | done]. Qed.
Lemma pop_handle_quiet {B} what ts (k : TickState * RecordId -> Result TransitionError B) Q :
  (∀ ts' h, joins (ts_changes ts') = joins (ts_changes ts) -> yields Q (k (ts', h))) -> yields Q (pop_handle what ts ≫= k).
Proof. intros Hk. unfold pop_handle. destruct (vec_pop _) as [[rest v]|]; [by apply Hk | done]. Qed.
Lemma invoke_ffi_quiet {B} w decl a b template ts (k : TickState * EffectId -> Result TransitionError B) Q :
  (∀ ts' id, joins (ts_changes ts') = joins (ts_changes ts) -> yields Q (k (ts', id))) ->
  yields Q (invoke_ffi w decl a b template ts ≫= k).
Proof.
  intros Hk. apply (yields_bind (λ r, joins (ts_changes r.1) = joins (ts_changes ts))).
  - unfold invoke_ffi. cbv zeta. do 3 (apply yields_then; intros ?). by apply yields_ok.
  - intros [ts' id] E. by apply Hk.
Qed.

(** Close one arm: its changes are pushes on changes without join mutations. *)
Ltac hush :=
  first [ apply yields_err
        | apply yields_ok; cbn [step_quiet fall_through park]; first [ apply quiet_finish | idtac ];
          repeat first
            [ assumption | reflexivity
            | progress cbn [step_quiet ts_changes fall_through park on_changes on_fiber on_instance next_ordinal set_race_arms fst snd]
            | progress autorewrite with quiet
            | match goal with H : joins _ = joins _ |- joins _ = [] => rewrite H end ];
          fail ].

Lemma return_contract_quiet i f c ctx msg :
  joins c = [] -> yields step_quiet (t ← fail_contract i f c ctx msg; Ok (Return t)).
Proof. intros Hc. eapply yields_bind; [by apply fail_contract_quiet|]. intros t Ht. by apply yields_ok. Qed.

Lemma fork_joins ctx f rid targets ord r c kids :
  joins (foldl (fork_child ctx f rid) (ord, r, c, kids) targets).1.2 = joins c.
Proof.
  revert ord r c kids. induction targets as [|x l IH]; intros ord r c kids; [done|]. cbn [foldl].
  unfold fork_child at 2. cbv zeta. rewrite IH. done.
Qed.

Section words.
Context (ts : TickState) (Hq : joins (ts_changes ts) = []).

Lemma exec_native_quiet w s n retc : yields step_quiet (exec_native w s n retc ts).
Proof.
  unfold exec_native. apply yields_then. intros task. cbv zeta. destruct (sn_dedupe s !! _); [|hush].
  apply yields_then. intros i. hush.
Qed.
Lemma exec_dsl_task_quiet w s n produces : yields step_quiet (exec_dsl_task w s n produces ts).
Proof.
  unfold exec_dsl_task. apply yields_then. intros task. cbv zeta. destruct (sn_dedupe s !! _); [|hush].
  do 2 (apply yields_then; intros ?). hush.
Qed.
Lemma exec_wait_msg_quiet w s name : yields step_quiet (exec_wait_msg w s name ts).
Proof.
  unfold exec_wait_msg. cbv zeta. apply yields_then. intros key. destruct (list_find _ _) as [[k b]|]; [|hush].
  apply yields_then. intros i. hush.
Qed.
Lemma exec_end_quiet s ctx : yields step_quiet (exec_end s ctx ts).
Proof. unfold exec_end. cbv zeta. destruct (bool_decide _); [apply yields_then; intros ?|]; hush. Qed.
Lemma exec_route_payload_quiet w ctx br d : yields step_quiet (exec_route_payload w ctx br d ts).
Proof.
  unfold exec_route_payload. cbv zeta.
  match goal with |- yields _ (match ?t with _ => _ end) => destruct t end; [hush | by apply return_contract_quiet].
Qed.
Lemma exec_fork_quiet s ctx targets : yields step_quiet (exec_fork s ctx targets ts).
Proof.
  unfold exec_fork. cbv zeta. destruct (foldl _ _ _) as [[[ord r] c] kids] eqn:E. apply (f_equal (λ x, joins x.1.2)) in E.
  rewrite fork_joins in E. cbn [ts_changes next_ordinal fst snd] in E. rewrite Hq in E. symmetry in E. hush.
Qed.
Lemma exec_join_quiet s : yields step_quiet (exec_join s ts).
Proof.
  unfold exec_join. apply pop_handle_quiet. intros ts' h E. rewrite Hq in E. cbv zeta. apply yields_then. intros r.
  destruct (_ =? 0)%N; hush.
Qed.
Lemma exec_cancel_scope_quiet s : yields step_quiet (exec_cancel_scope s ts).
Proof.
  unfold exec_cancel_scope. apply pop_handle_quiet. intros ts' h E. rewrite Hq in E.
  eapply yields_bind; [by apply rollback_quiet|]. intros [restored c] Hc. cbn in Hc. hush.
Qed.

Lemma exec_instr_quiet w s ctx word : yields step_quiet (exec_instr w s ctx word ts).
Proof.
  destruct word; cbn [exec_instr];
    try apply exec_native_quiet; try apply exec_dsl_task_quiet; try apply exec_wait_msg_quiet;
    try apply exec_end_quiet; try apply exec_route_payload_quiet; try apply exec_fork_quiet;
    try apply exec_join_quiet; try apply exec_cancel_scope_quiet; try (by apply return_contract_quiet).
  all: try hush.
  all: repeat first [ progress cbv zeta | apply pop_value_quiet; intros ? ? ? | apply pop_handle_quiet; intros ? ? ?
    | apply invoke_ffi_quiet; intros ? ? ? | progress unfold exec_branch, exec_pop, exec_mi_load_element,
        exec_mi_arity_check, exec_store_flag, exec_inc_counter, exec_br_counter_lt, exec_ffi,
        exec_await_effect, exec_publish_message, exec_wait_for, exec_wait_until, exec_end_terminate,
        exec_guard_end, exec_guard_arm_timer, exec_guard_arm_error, exec_guard_timer_cycle,
        exec_arm_timer, exec_arm_msg, exec_arm_effect, exec_race_close, exec_push
    | match goal with H : joins (ts_changes _) = joins (ts_changes _) |- _ => rewrite Hq in H end
    | hush
    | apply yields_then; intros ?
    | match goal with |- yields _ (match ?x with _ => _ end) => destruct x end
    | match goal with |- yields _ (Ok (Continue (if ?b then _ else _))) => destruct b end ].
Qed.
End words.

Lemma tick_loop_quiet w s ctx steps ts : joins (ts_changes ts) = [] -> yields quiet (tick_loop w s ctx steps ts).
Proof.
  revert ts. induction steps as [|n IH]; intros ts Hq; cbn [tick_loop]; [apply yields_err|].
  assert (Hs : yields step_quiet (tick_step w s ctx ts)).
  { unfold tick_step. apply yields_then. intros word. by apply exec_instr_quiet. }
  destruct (tick_step w s ctx ts) as [[ts'|t]|e] eqn:Ht; [| |apply yields_err].
  - apply IH. by apply (Hs _ eq_refl).
  - by apply yields_ok, (Hs _ eq_refl).
Qed.

Lemma apply_tick_quiet w s ctx cmd : yields quiet (apply_tick w s ctx cmd).
Proof.
  destruct cmd; cbn [apply_tick]; try apply yields_err.
  do 4 (apply yields_then; intros ?). by apply tick_loop_quiet.
Qed.

(** ** Command handlers *)

Ltac hush_t :=
  cbv zeta; apply yields_ok; repeat case_match;
    first [ reflexivity | apply quiet_finish; autorewrite with quiet; done ].

Lemma job_failure_rollback_quiet w s f g key cls msg n ctx : yields quiet (job_failure_rollback w s f g key cls msg n ctx).
Proof.
  unfold job_failure_rollback. apply yields_then. intros r.
  eapply yields_bind; [by apply rollback_quiet|]. intros [restored c] Hc. cbn in Hc. cbv zeta.
  destruct (nothing_else_survives _ _ _).
  - apply yields_then. intros opened. eapply yields_bind; [apply park_survivor_quiet; by autorewrite with quiet|].
    intros [c' i] Hi. by apply yields_ok, quiet_finish.
  - hush_t.
Qed.

Lemma apply_job_failure_quiet w s cmd ctx : yields quiet (apply_job_failure w s cmd ctx).
Proof.
  destruct cmd; cbn [apply_job_failure]; try apply yields_err.
  destruct (is_terminal _); [hush_t|]. destruct (failed_fiber _ _ _) as [f|]; [|hush_t].
  match goal with |- yields _ (match _ with Transient => match _ with None => ?r | _ => _ end | _ => _ end) => assert (Hrest : yields quiet r) end.
  { destruct (matched_error_route _ _ _) as [[[code handler] rid]|].
    - eapply yields_bind; [apply trigger_quiet|]. intros c Hc. hush_t.
    - destruct (rollback_guard _ _ _); [apply job_failure_rollback_quiet|].
      unfold job_failure_incident. cbv zeta. apply yields_then. intros at_. hush_t. }
  destruct error_class; try exact Hrest. destruct retry; [hush_t | exact Hrest].
Qed.

Lemma apply_ffi_completion_quiet w s cmd : yields quiet (apply_ffi_completion w s cmd).
Proof.
  destruct cmd; cbn [apply_ffi_completion]; try apply yields_err.
  destruct output; try apply yields_err.
  apply yields_then. intros f. cbv zeta. destruct (ffi_match _ _ _ _ _ _); [| |hush_t|apply yields_err].
  all: apply yields_then; intros i; hush_t.
Qed.

Lemma apply_message_quiet w s cmd ctx : yields quiet (apply_message w s cmd ctx).
Proof.
  destruct cmd; cbn [apply_message]; try apply yields_err. apply yields_then. intros at_. cbv zeta.
  destruct (is_terminal _); [hush_t|]. destruct (find_map _ _) as [[f race]|]; [|hush_t].
  apply yields_then. intros i. hush_t.
Qed.

Lemma apply_job_completion_quiet s c : yields quiet (apply_job_completion s c).
Proof.
  unfold apply_job_completion. cbv zeta. destruct (bool_decide _); [|apply yields_err].
  destruct (is_terminal _); [hush_t|]. do 2 (apply yields_then; intros ?). hush_t.
Qed.

Lemma guard_timer_rollback_quiet w s g r ctx : yields (λ x, joins x.1 = []) (apply_v2_guard_timer_rollback w s g r ctx).
Proof.
  unfold apply_v2_guard_timer_rollback. destruct (min_member r); [|by apply yields_ok].
  eapply yields_bind; [by apply rollback_quiet|]. intros [restored c] Hc. cbn in Hc. cbv zeta.
  destruct (nothing_else_survives _ _ _); [|apply yields_ok; cbn [fst]; by autorewrite with quiet].
  do 2 (apply yields_then; intros ?). apply park_survivor_quiet; by autorewrite with quiet.
Qed.

Lemma apply_timer_quiet w s timer at_ ctx : yields quiet (apply_timer w s timer at_ ctx).
Proof.
  unfold apply_timer. do 3 (apply yields_then; intros ?). cbv zeta.
  assert (Hg : ∀ rid, yields quiet (apply_guard_timer w s timer rid at_ ctx)).
  { intros rid. unfold apply_guard_timer. cbv zeta. destruct (sn_table s !! rid) as [r|]; [|hush_t].
    destruct (rec_state r); [|hush_t]. destruct (rec_kind r); try hush_t.
    eapply (yields_bind (λ x, joins x.1 = [])).
    - destruct (rollback_domain_payload r); [apply guard_timer_rollback_quiet|].
      eapply yields_bind; [apply trigger_own_quiet|]. intros c Hc. by apply yields_ok.
    - intros [c i] Hi. cbn in Hi. hush_t. }
  destruct (ct_kind timer); [| | |by apply Hg];
    destruct (sn_fibers s !! ct_fiber_id timer) as [f|]; try hush_t;
    destruct (fiber_wait f); try hush_t; case_match; hush_t.
Qed.

Lemma apply_start_child_quiet s key child accepted ctx : yields quiet (apply_start_child_result s key child accepted ctx).
Proof.
  unfold apply_start_child_result. cbv zeta. destruct (inst_state _); try apply yields_err.
  - destruct accepted; [hush_t|]. do 2 (apply yields_then; intros ?). hush_t.
  - case_match; [hush_t | apply yields_err].
Qed.

Lemma apply_resolve_quiet s id res ctx : yields quiet (apply_resolve_incident s id res ctx).
Proof.
  unfold apply_resolve_incident. apply yields_then. intros inc. destruct (incident_resolved_at inc); [hush_t|].
  do 2 (apply yields_then; intros ?). cbv zeta. destruct (list_find _ _) as [[? ?]|]; hush_t.
Qed.

Lemma retire_all_quiet s t : quiet t -> quiet (retire_all_armed_records s t).
Proof.
  unfold quiet, retire_all_armed_records. generalize (armed_record_ids_in_transition s Changes_default) as l.
  intros l. revert t. induction l as [|x l IH]; intros t Ht; cbn; [done|]. by apply IH.
Qed.

Lemma apply_cancel_quiet s reason ctx : quiet (apply_cancel s reason ctx).
Proof.
  unfold apply_cancel. cbv zeta. apply retire_all_quiet. unfold quiet.
  set (t := foldl _ _ _). enough (Ht : quiet t) by exact Ht. subst t.
  set (j := set_state _ _). assert (Ht : quiet (builder_new j)) by done. revert Ht.
  generalize (builder_new j) as t. induction (btree_values (sn_fibers s)) as [|f l IH]; intros t Ht; cbn; [done|].
  apply IH. by destruct (bool_decide _).
Qed.

(** ** Every command *)

Lemma apply_quiet w s cmd ctx : yields quiet (apply w s cmd ctx).
Proof.
  unfold apply. apply yields_then. intros _. eapply yields_bind.
  - instantiate (1 := quiet). destruct cmd; cbn [dispatch];
      try apply apply_tick_quiet; try apply apply_job_failure_quiet; try apply apply_timer_quiet;
      try apply apply_message_quiet; try apply apply_resolve_quiet; try apply apply_start_child_quiet;
      try hush_t.
    + destruct output; [apply apply_job_completion_quiet | apply apply_ffi_completion_quiet | apply yields_err].
    + apply yields_ok, apply_cancel_quiet.
    + unfold apply_terminate. apply yields_then. intros at_. by apply yields_ok, retire_all_quiet.
    + cbn [apply_v2_trigger_guard]. eapply yields_bind; [apply trigger_own_quiet|]. intros c Hc. hush_t.
  - intros t Ht. do 2 (apply yields_then; intros ?). by apply yields_ok.
Qed.

End quiet.
