(* ===== verification/CancelWalk.v ===== *)
(** * The cancellation walk is exhaustive, deepest-first and terminates

    [v2_cancel_guard_scope] reconstructs the record tree from the control
    stacks.  When the stacks of the live fibres are coherent (a handle has the
    same ancestors wherever it appears), the walk returns, visits every record
    and every fibre below its root exactly once, and lists a record after all
    records nested in it. *)

From S2P Require Import Prelude RustStr Json Types Concurrency Platform Effects Transition Bindings KernelBase KernelScope.

(** The ancestors of a handle are the same on every stack. *)
Definition coherent (fibers : gmap N Fiber) : Prop :=
  ∃ path : RecordId -> list RecordId, ∀ fid f i h,
    fibers !! fid = Some f -> effective_control_stack f !! i = Some h ->
    take i (effective_control_stack f) = path h.

Definition fibers_keyed (fibers : gmap N Fiber) : Prop :=
  ∀ fid f, fibers !! fid = Some f -> fiber_id f = fid.

(** [h] is nested under [p] (or is [p]). *)
Definition nested_in (fibers : gmap N Fiber) (p h : RecordId) : Prop :=
  h = p ∨ ∃ fid f i j, fibers !! fid = Some f ∧ i < j ∧
    effective_control_stack f !! i = Some p ∧ effective_control_stack f !! j = Some h.

(** The live fibres whose effective stack carries [p]. *)
Definition inside (fibers : gmap N Fiber) (p : RecordId) (fid : Uuid) : Prop :=
  ∃ f, fibers !! fid = Some f ∧ p ∈ effective_control_stack f.

(** What the walk from [p] contributes to its two accumulators. *)
Record walk_spec (fibers : gmap N Fiber) (p : RecordId) (R : list RecordId) (L : list Uuid)
  : Prop := {
  walk_records : ∀ h, h ∈ R ↔ nested_in fibers p h;
  walk_records_NoDup : NoDup R;
  walk_fibers : ∀ fid, fid ∈ L ↔ inside fibers p fid;
  walk_fibers_NoDup : NoDup L;
  (** deepest first: nested records come before the records they are nested in *)
  walk_order : ∀ a b, nested_in fibers p a -> a ≠ b -> nested_in fibers a b ->
    ∃ R1 R2 R3, R = R1 ++ b :: R2 ++ a :: R3;
}.

Section walk.
Variable (s : Snapshot).
Let fibers := sn_fibers s.
Variable path : RecordId -> list RecordId.
Hypothesis Hpath : ∀ fid f i h,
  fibers !! fid = Some f -> effective_control_stack f !! i = Some h ->
  take i (effective_control_stack f) = path h.
Hypothesis Hkeyed : fibers_keyed fibers.

Definition depth (h : RecordId) : nat := length (path h).

Lemma stack_index fid f i h :
  fibers !! fid = Some f -> effective_control_stack f !! i = Some h -> i = depth h.
Proof.
  intros Hf Hi. unfold depth. rewrite <-(Hpath _ _ _ _ Hf Hi), length_take.
  apply lookup_lt_Some in Hi. lia.
Qed.

Lemma stack_at_depth fid f h :
  fibers !! fid = Some f -> h ∈ effective_control_stack f ->
  effective_control_stack f !! depth h = Some h.
Proof.
  intros Hf [i Hi]%list_elem_of_lookup. by rewrite <-(stack_index _ _ _ _ Hf Hi).
Qed.

Lemma position_handle fid f p :
  fibers !! fid = Some f ->
  position (λ id, (id =? p)%N) (effective_control_stack f) =
  if decide (p ∈ effective_control_stack f) then Some (depth p) else None.
Proof.
  intros Hf. destruct (position _ _) as [i|] eqn:Hpos.
  - apply position_Some in Hpos as [(x & Hx & Heq%N.eqb_eq) _]. subst x.
    rewrite decide_True by (by eapply list_elem_of_lookup_2).
    f_equal. by eapply stack_index.
  - rewrite position_None in Hpos. rewrite decide_False; [done|].
    intros Hin. specialize (Hpos p Hin). by rewrite N.eqb_refl in Hpos.
Qed.

(** The stack slot right under [p]. *)
Definition child_of (p c : RecordId) : Prop :=
  ∃ fid f, fibers !! fid = Some f ∧ effective_control_stack f !! depth p = Some p ∧
    effective_control_stack f !! S (depth p) = Some c.
Definition leaf_of (p : RecordId) (fid : Uuid) : Prop :=
  ∃ f, fibers !! fid = Some f ∧ effective_control_stack f !! depth p = Some p ∧
    effective_control_stack f !! S (depth p) = None.

Lemma scope_scan_fiber_eq p C D f :
  fibers !! fiber_id f = Some f ->
  scope_scan_fiber p (C, D) f =
  if decide (p ∈ effective_control_stack f) then
    match effective_control_stack f !! S (depth p) with
    | Some c => ({[c]} ∪ C, D)
    | None => (C, D ++ [fiber_id f])
    end
  else (C, D).
Proof.
  intros Hf. unfold scope_scan_fiber. rewrite (position_handle _ _ _ Hf).
  by destruct (decide _).
Qed.

Lemma scope_scan_fold p (l : list Fiber) C D :
  (∀ f, f ∈ l -> fibers !! fiber_id f = Some f) ->
  let res := foldl (scope_scan_fiber p) (C, D) l in
  (∀ c, c ∈ res.1 ↔ c ∈ C ∨ ∃ f, f ∈ l ∧ effective_control_stack f !! depth p = Some p ∧
     effective_control_stack f !! S (depth p) = Some c) ∧
  res.2 = D ++ (fiber_id <$> filter (λ f, effective_control_stack f !! depth p = Some p ∧
     effective_control_stack f !! S (depth p) = None) l).
Proof.
  cbv zeta. revert C D; induction l as [|f l IH]; intros C D Hl; cbn [foldl].
  { split; [set_solver | by rewrite app_nil_r]. }
  assert (Hf : fibers !! fiber_id f = Some f) by (apply Hl; left).
  assert (Hl' : ∀ g, g ∈ l -> fibers !! fiber_id g = Some g) by (intros; apply Hl; by right).
  rewrite scope_scan_fiber_eq, filter_cons by done.
  destruct (decide (p ∈ effective_control_stack f)) as [Hin|Hin].
  - pose proof (stack_at_depth _ _ _ Hf Hin) as Hd.
    destruct (effective_control_stack f !! S (depth p)) as [c|] eqn:Hc.
    + destruct (IH ({[c]} ∪ C) D Hl') as [H1 H2]. rewrite H2.
      rewrite decide_False by naive_solver. split; [|done].
      intros x. rewrite H1. setoid_rewrite elem_of_cons. set_solver.
    + destruct (IH C (D ++ [fiber_id f]) Hl') as [H1 H2]. rewrite H2.
      rewrite decide_True by done. split; [|by rewrite <-app_assoc].
      intros x. rewrite H1. setoid_rewrite elem_of_cons. naive_solver.
  - assert (Hd : effective_control_stack f !! depth p ≠ Some p).
    { intros Hd. apply Hin. by eapply list_elem_of_lookup_2. }
    destruct (IH C D Hl') as [H1 H2]. rewrite H2. rewrite decide_False by naive_solver.
    split; [|done]. intros x. rewrite H1. setoid_rewrite elem_of_cons. naive_solver.
Qed.

Lemma values_keyed f : f ∈ btree_values fibers -> fibers !! fiber_id f = Some f.
Proof. intros [k Hk]%elem_of_btree_values. by rewrite (Hkeyed _ _ Hk). Qed.

Lemma scope_scan_spec p :
  (∀ c, c ∈ (scope_scan s p).1 ↔ child_of p c) ∧
  (∀ fid, fid ∈ (scope_scan s p).2 ↔ leaf_of p fid) ∧ NoDup (scope_scan s p).2.
Proof.
  unfold scope_scan. fold fibers.
  destruct (scope_scan_fold p (btree_values fibers) ∅ [] values_keyed) as [H1 H2].
  rewrite H2. cbn [app]. split_and!.
  - intros c. rewrite H1. split.
    + intros [?|(f & Hin%values_keyed & ?)]; [set_solver|]. exists (fiber_id f), f. done.
    + intros (fid & f & Hf & ?). right. exists f. split; [|done].
      apply elem_of_btree_values. eauto.
  - intros fid. rewrite list_elem_of_fmap. setoid_rewrite list_elem_of_filter. split.
    + intros (f & -> & Hd & Hin%values_keyed). by exists f.
    + intros (f & Hf & Hd). exists f. split; [by rewrite (Hkeyed _ _ Hf)|].
      split; [done|]. apply elem_of_btree_values. eauto.
  - apply NoDup_fmap_2_strong.
    + intros f g [_ Hf%values_keyed]%list_elem_of_filter [_ Hg%values_keyed]%list_elem_of_filter Heq.
      rewrite Heq in Hf. congruence.
    + apply NoDup_filter. unfold btree_values. apply NoDup_fmap_2_strong; [|apply NoDup_btree_entries].
      intros [k f] [k' f'] Hk%elem_of_btree_entries Hk'%elem_of_btree_entries. cbn.
      intros <-. by rewrite <-(Hkeyed _ _ Hk), <-(Hkeyed _ _ Hk').
Qed.

(** ** The tree *)

Lemma child_depth p c : child_of p c -> depth c = S (depth p).
Proof. intros (fid & f & Hf & _ & Hc). symmetry. by eapply stack_index. Qed.

(** Wherever a child appears, its parent is right above it. *)
Lemma child_parent p c fid f :
  child_of p c -> fibers !! fid = Some f -> c ∈ effective_control_stack f ->
  effective_control_stack f !! depth p = Some p ∧
  effective_control_stack f !! S (depth p) = Some c.
Proof.
  intros Hch Hf Hc. pose proof (child_depth _ _ Hch) as Hd.
  destruct Hch as (fid' & f' & Hf' & Hp' & Hc').
  pose proof (stack_at_depth _ _ _ Hf Hc) as Hci. rewrite Hd in Hci.
  split; [|done].
  pose proof (Hpath _ _ _ _ Hf Hci) as E. rewrite <-(Hpath _ _ _ _ Hf' Hc') in E.
  rewrite <-(lookup_take_lt (effective_control_stack f) (S (depth p))) by lia.
  rewrite E. by rewrite lookup_take_lt by lia.
Qed.

Lemma nested_depth p h : nested_in fibers p h -> h = p ∨ depth p < depth h.
Proof.
  intros [->|(fid & f & i & j & Hf & Hij & Hi & Hj)]; [by left|right].
  rewrite <-(stack_index _ _ _ _ Hf Hi), <-(stack_index _ _ _ _ Hf Hj). lia.
Qed.

(** Two handles at one depth on the ancestor line of a third coincide. *)
Lemma nested_same_depth a b h :
  nested_in fibers a h -> nested_in fibers b h -> depth a = depth b ->
  depth a < depth h -> a = b.
Proof.
  intros Ha Hb Hd Hlt.
  destruct Ha as [->|(f1 & g1 & i1 & j1 & Hf1 & _ & Hi1 & Hj1)]; [lia|].
  destruct Hb as [->|(f2 & g2 & i2 & j2 & Hf2 & _ & Hi2 & Hj2)]; [lia|].
  pose proof (Hpath _ _ _ _ Hf1 Hj1) as E. rewrite <-(Hpath _ _ _ _ Hf2 Hj2) in E.
  rewrite (stack_index _ _ _ _ Hf1 Hj1), (stack_index _ _ _ _ Hf2 Hj2) in E.
  rewrite (stack_index _ _ _ _ Hf1 Hi1) in Hi1. rewrite (stack_index _ _ _ _ Hf2 Hi2) in Hi2.
  rewrite <-(lookup_take_lt (effective_control_stack g1) (depth h)) in Hi1 by lia.
  rewrite <-(lookup_take_lt (effective_control_stack g2) (depth h)) in Hi2 by lia.
  rewrite E, Hd in Hi1. congruence.
Qed.

Lemma nested_child p h :
  nested_in fibers p h ↔ h = p ∨ ∃ c, child_of p c ∧ nested_in fibers c h.
Proof.
  split.
  - intros [->|(fid & f & i & j & Hf & Hij & Hi & Hj)]; [by left|right].
    pose proof (stack_index _ _ _ _ Hf Hi) as ->.
    assert (is_Some (effective_control_stack f !! S (depth p))) as [c Hc].
    { apply lookup_lt_is_Some. apply lookup_lt_Some in Hj. lia. }
    exists c. split; [by exists fid, f|].
    destruct (decide (j = S (depth p))) as [->|]; [left; congruence|].
    right. exists fid, f, (S (depth p)), j. split_and!; [done|lia|done|done].
  - intros [->|(c & Hc & [->|(fid & f & i & j & Hf & Hij & Hi & Hj)])]; [by left| |].
    + destruct Hc as (fid & f & Hf & Hp & Hc). right.
      exists fid, f, (depth p), (S (depth p)). split_and!; [done|lia|done|done].
    + right. destruct (child_parent _ _ fid f Hc Hf) as [Hp _]; [by eapply list_elem_of_lookup_2|].
      exists fid, f, (depth p), j. split_and!; [done| |done|done].
      rewrite (stack_index _ _ _ _ Hf Hi) in Hij. rewrite (child_depth _ _ Hc) in Hij. lia.
Qed.

Lemma inside_child p fid :
  inside fibers p fid ↔ leaf_of p fid ∨ ∃ c, child_of p c ∧ inside fibers c fid.
Proof.
  split.
  - intros (f & Hf & Hp). pose proof (stack_at_depth _ _ _ Hf Hp) as Hd.
    destruct (effective_control_stack f !! S (depth p)) as [c|] eqn:Hc.
    + right. exists c. split; [by exists fid, f|]. exists f. split; [done|].
      by eapply list_elem_of_lookup_2.
    + left. by exists f.
  - intros [(f & Hf & Hd & _)|(c & Hc & f & Hf & Hin)]; exists f; (split; [done|]).
    + by eapply list_elem_of_lookup_2.
    + destruct (child_parent _ _ _ _ Hc Hf Hin) as [Hp _]. by eapply list_elem_of_lookup_2.
Qed.

Lemma children_disjoint p c c' h :
  child_of p c -> child_of p c' -> nested_in fibers c h -> nested_in fibers c' h -> c = c'.
Proof.
  intros Hc Hc' Hh Hh'.
  assert (Hd : depth c = depth c') by (rewrite (child_depth _ _ Hc), (child_depth _ _ Hc'); done).
  destruct (nested_depth _ _ Hh) as [->|Hlt].
  - destruct (nested_depth _ _ Hh') as [->|]; [done | lia].
  - by eapply nested_same_depth.
Qed.

Lemma children_fibers_disjoint p c c' fid :
  child_of p c -> child_of p c' -> inside fibers c fid -> inside fibers c' fid -> c = c'.
Proof.
  intros Hc Hc' (f & Hf & Hin) (f' & Hf' & Hin'). simplify_eq.
  pose proof (stack_at_depth _ _ _ Hf Hin) as E. pose proof (stack_at_depth _ _ _ Hf Hin') as E'.
  rewrite (child_depth _ _ Hc) in E. rewrite (child_depth _ _ Hc') in E'. congruence.
Qed.

Lemma child_not_parent p c : child_of p c -> ¬ nested_in fibers c p.
Proof.
  intros Hc Hn. pose proof (child_depth _ _ Hc).
  destruct (nested_depth _ _ Hn) as [->|]; lia.
Qed.

(** ** The recursion *)

(** What the loop over the children adds. *)
Record forest_spec (cs : list RecordId) (R : list RecordId) (L : list Uuid) : Prop := {
  forest_records : ∀ h, h ∈ R ↔ ∃ c, c ∈ cs ∧ nested_in fibers c h;
  forest_records_NoDup : NoDup R;
  forest_fibers : ∀ fid, fid ∈ L ↔ ∃ c, c ∈ cs ∧ inside fibers c fid;
  forest_fibers_NoDup : NoDup L;
  forest_order : ∀ c a b, c ∈ cs -> nested_in fibers c a -> a ≠ b -> nested_in fibers a b ->
    ∃ R1 R2 R3, R = R1 ++ b :: R2 ++ a :: R3;
}.

Lemma walk_forest fuel p cs ro lf :
  NoDup cs -> (∀ c, c ∈ cs -> child_of p c) ->
  (∀ c ro lf, c ∈ cs -> ∃ R L,
     v2_cancel_guard_scope fuel s c ro lf = Some (ro ++ R, lf ++ L) ∧ walk_spec fibers c R L) ->
  ∃ R L,
    foldl (λ acc child, '(ro, lf) ← acc; v2_cancel_guard_scope fuel s child ro lf)
      (Some (ro, lf)) cs = Some (ro ++ R, lf ++ L) ∧ forest_spec cs R L.
Proof.
  revert ro lf; induction cs as [|c cs IH]; intros ro lf Hnd Hch Hrec.
  { exists [], []. rewrite !app_nil_r. split; [done|].
    split; try constructor; set_solver. }
  apply NoDup_cons in Hnd as [Hnc Hnd].
  destruct (Hrec c ro lf) as (R1 & L1 & E1 & W1); [by left|].
  destruct (IH (ro ++ R1) (lf ++ L1) Hnd) as (R2 & L2 & E2 & W2);
    [intros; apply Hch; by right | intros; apply Hrec; by right |].
  exists (R1 ++ R2), (L1 ++ L2). cbn [foldl].
  change (Some (ro, lf) ≫= λ '(ro, lf), v2_cancel_guard_scope fuel s c ro lf)
    with (v2_cancel_guard_scope fuel s c ro lf).
  rewrite E1, E2, <-!app_assoc. split; [done|].
  assert (Hcc : child_of p c) by (apply Hch; by left).
  split.
  - intros h. rewrite elem_of_app, (walk_records _ _ _ _ W1), (forest_records _ _ _ W2).
    setoid_rewrite elem_of_cons. naive_solver.
  - apply NoDup_app. split_and!; [apply W1 | | apply W2].
    intros h Hh%(walk_records _ _ _ _ W1) (c' & Hc' & Hh')%(forest_records _ _ _ W2).
    apply Hnc. rewrite (children_disjoint p c c' h); [done|done| |done|done].
    apply Hch. by right.
  - intros fid. rewrite elem_of_app, (walk_fibers _ _ _ _ W1), (forest_fibers _ _ _ W2).
    setoid_rewrite elem_of_cons. naive_solver.
  - apply NoDup_app. split_and!; [apply W1 | | apply W2].
    intros fid Hh%(walk_fibers _ _ _ _ W1) (c' & Hc' & Hh')%(forest_fibers _ _ _ W2).
    apply Hnc. rewrite (children_fibers_disjoint p c c' fid); [done|done| |done|done].
    apply Hch. by right.
  - intros c' a b [->|Hc']%elem_of_cons Ha Hne Hb.
    + destruct (walk_order _ _ _ _ W1 a b Ha Hne Hb) as (X & Y & Z & ->).
      exists X, Y, (Z ++ R2). rewrite <-!app_assoc. cbn. by rewrite <-app_assoc.
    + destruct (forest_order _ _ _ W2 c' a b Hc' Ha Hne Hb) as (X & Y & Z & ->).
      exists (R1 ++ X), Y, Z. by rewrite <-app_assoc.
Qed.

(** From the children to their parent. *)
Lemma walk_node p cs R L D :
  (∀ c, c ∈ cs ↔ child_of p c) -> (∀ fid, fid ∈ D ↔ leaf_of p fid) -> NoDup D ->
  forest_spec cs R L -> walk_spec fibers p (R ++ [p]) (L ++ D).
Proof.
  intros Hcs HD HDn W. split.
  - intros h. rewrite elem_of_app, list_elem_of_singleton, (forest_records _ _ _ W), nested_child.
    setoid_rewrite Hcs. tauto.
  - apply NoDup_app. split_and!; [apply W | | by apply NoDup_singleton].
    intros h (c & Hc%Hcs & Hh)%(forest_records _ _ _ W) ->%list_elem_of_singleton.
    by eapply child_not_parent.
  - intros fid. rewrite elem_of_app, (forest_fibers _ _ _ W), HD, inside_child.
    setoid_rewrite Hcs. tauto.
  - apply NoDup_app. split_and!; [apply W | | done].
    intros fid (c & Hc%Hcs & Hin)%(forest_fibers _ _ _ W) (f & Hf & _ & Hnone)%HD.
    destruct Hin as (f' & Hf' & Hin'). simplify_eq.
    destruct (child_parent _ _ _ _ Hc Hf' Hin') as [_ ?]. congruence.
  - intros a b Ha Hne Hb. apply nested_child in Ha as [->|(c & Hc & Ha)].
    + apply nested_child in Hb as [->|(c & Hc & Hb)]; [done|].
      assert (b ∈ R) as (X & Y & ->)%list_elem_of_split.
      { apply (forest_records _ _ _ W). exists c. split; [by apply Hcs | done]. }
      exists X, Y, []. by rewrite <-app_assoc.
    + destruct (forest_order _ _ _ W c a b) as (X & Y & Z & ->); [by apply Hcs|done|done|done|].
      exists X, Y, (Z ++ [p]). rewrite <-app_assoc. cbn. by rewrite <-app_assoc.
Qed.

Lemma walk_total fuel p ro lf :
  0 < fuel ->
  (∀ fid f, fibers !! fid = Some f -> p ∈ effective_control_stack f ->
     length (effective_control_stack f) <= depth p + fuel) ->
  ∃ R L, v2_cancel_guard_scope fuel s p ro lf = Some (ro ++ R, lf ++ L) ∧
    walk_spec fibers p R L.
Proof.
  revert p ro lf; induction fuel as [|fuel IH]; intros p ro lf Hpos Hfuel; [lia|].
  destruct (scope_scan_spec p) as (HC & HD & HDn). cbn [v2_cancel_guard_scope].
  destruct (scope_scan s p) as [C D] eqn:Escan. cbn in HC, HD, HDn.
  assert (Hcs : ∀ c, c ∈ btree_elems C ↔ child_of p c)
    by (intros; by rewrite elem_of_btree_elems).
  destruct (walk_forest fuel p (btree_elems C) ro lf) as (R & L & -> & W).
  - apply NoDup_btree_elems.
  - intros c. apply Hcs.
  - intros c ro' lf' Hc%Hcs. pose proof (child_depth _ _ Hc) as Hd.
    apply IH.
    + destruct Hc as (fid & f & Hf & Hp & Hc).
      assert (p ∈ effective_control_stack f) as Hin by (by eapply list_elem_of_lookup_2).
      specialize (Hfuel _ _ Hf Hin). apply lookup_lt_Some in Hc. lia.
    + intros fid f Hf Hin. destruct (child_parent _ _ _ _ Hc Hf Hin) as [Hp _].
      assert (p ∈ effective_control_stack f) as Hin' by (by eapply list_elem_of_lookup_2).
      specialize (Hfuel _ _ Hf Hin'). lia.
  - exists (R ++ [p]), (L ++ D). cbn. rewrite !app_assoc. split; [done|].
    by eapply walk_node.
Qed.

End walk.

Lemma sum_list_elem n l : n ∈ l -> n <= sum_list l.
Proof. induction 1; cbn; lia. Qed.

(** The fuel of [cancel_guard_scope] is enough for coherent stacks. *)
Lemma cancel_guard_scope_walk s p :
  coherent (sn_fibers s) -> fibers_keyed (sn_fibers s) ->
  ∃ R L, cancel_guard_scope s p = Ok (R, L) ∧ walk_spec (sn_fibers s) p R L.
Proof.
  intros [path Hpath] Hk.
  destruct (walk_total s path Hpath Hk (cancel_fuel s) p [] []) as (R & L & E & W).
  - unfold cancel_fuel. lia.
  - intros fid f Hf _. unfold cancel_fuel.
    assert (length (effective_control_stack f) <=
      sum_list ((λ f, length (effective_control_stack f)) <$> btree_values (sn_fibers s))); [|lia].
    apply sum_list_elem, list_elem_of_fmap. exists f. split; [done|].
    apply elem_of_btree_values. eauto.
  - exists R, L. unfold cancel_guard_scope. by rewrite E.
Qed.
