(* ===== verification/KInvariants.v ===== *)
(** * The K invariants as propositions

    K-1 (members are live), K-2 (a handle is on a live fibre's effective stack
    exactly when the fibre is a member of the armed record it names) and K-3
    (an armed barrier's count is positive and at most its arity), and what the
    runtime checks of the kernel establish. *)

From S2P Require Import Prelude RustStr Json Types Concurrency Platform Effects Transition Bindings KernelBase KernelScope KernelTick KernelCommands KernelApply ScopeFacts CancelWalk.

Definition K1 (fibers : gmap N Fiber) (table : gmap N ConcurrencyRecord) : Prop :=
  ∀ id r m, table !! id = Some r -> rec_state r = Armed -> m ∈ members r -> is_Some (fibers !! m).

Definition K2 (fibers : gmap N Fiber) (table : gmap N ConcurrencyRecord) : Prop :=
  ∀ fid f h, fibers !! fid = Some f ->
    (h ∈ effective_control_stack f ↔
     ∃ r, table !! h = Some r ∧ rec_state r = Armed ∧ fid ∈ members r).

Definition K3 (table : gmap N ConcurrencyRecord) : Prop :=
  ∀ id r, table !! id = Some r -> rec_state r = Armed -> rec_kind r = KBarrier ->
    (0 < count (rec_counters r) <= arity (rec_counters r))%N.

Definition K_inv (fibers : gmap N Fiber) (table : gmap N ConcurrencyRecord) : Prop :=
  K1 fibers table ∧ K2 fibers table ∧ K3 table.

Section checks.
Context {P : Platform}.

Lemma check_record_ok fibers id r :
  check_record fibers (id, r) = Ok tt ↔
  (rec_state r = Armed ->
   (∀ m, m ∈ members r -> is_Some (fibers !! m)) ∧
   (rec_kind r = KBarrier -> (0 < count (rec_counters r) <= arity (rec_counters r))%N)).
Proof.
  unfold check_record. case_bool_decide as Harm; [|naive_solver].
  split.
  - intros H _. apply bind_ok_inv in H as ([] & Hm & Hk). split.
    + intros m Hin%elem_of_btree_elems. eapply try_for_each_ok in Hm; [|done].
      by case_bool_decide.
    + intros Hb. rewrite bool_decide_eq_true_2 in Hk by done. cbn in Hk.
      destruct (N.eqb_spec (count (rec_counters r)) 0),
        (N.ltb_spec (arity (rec_counters r)) (count (rec_counters r))); try discriminate Hk; lia.
  - intros H. destruct (H Harm) as [Hm Hk].
    assert (Ht : try_for_each (λ member,
      if bool_decide (is_Some (fibers !! member)) then Ok tt
      else Err ("K-1 violated: record " +:+ show_uuid id +:+ " (armed) has member "
             +:+ show_uuid member +:+ ", no live fibre")) (btree_elems (members r)) = Ok tt).
    { apply try_for_each_ok. intros m Hin%elem_of_btree_elems.
      by rewrite bool_decide_eq_true_2 by auto. }
    rewrite Ht. cbn. case_bool_decide as Hb; [|done]. specialize (Hk Hb).
    destruct (N.eqb_spec (count (rec_counters r)) 0); [lia|].
    destruct (N.ltb_spec (arity (rec_counters r)) (count (rec_counters r))); [lia | done].
Qed.

Lemma check_handle_ok table fid h :
  check_handle table fid h = Ok tt ↔
  ∃ r, table !! h = Some r ∧ rec_state r = Armed ∧ fid ∈ members r.
Proof.
  unfold check_handle. cbv zeta.
  destruct (table !! h) as [r|]; [|split; [done | by intros (? & ? & _)]].
  destruct (rec_state r) eqn:E; [|split; [done | intros (? & [= ->] & ? & _); congruence]].
  case_bool_decide; [naive_solver|]. split; [done | naive_solver].
Qed.

Lemma check_fiber_ok table fid f :
  check_fiber table (fid, f) = Ok tt ↔
  ∀ h, h ∈ effective_control_stack f ->
    ∃ r, table !! h = Some r ∧ rec_state r = Armed ∧ fid ∈ members r.
Proof.
  unfold check_fiber. rewrite try_for_each_ok. by setoid_rewrite check_handle_ok.
Qed.

Lemma check_membership_ok fibers id r :
  check_membership fibers (id, r) = Ok tt ↔
  (rec_state r = Armed -> ∀ m f, m ∈ members r -> fibers !! m = Some f ->
    id ∈ effective_control_stack f).
Proof.
  unfold check_membership. case_bool_decide; [|naive_solver].
  rewrite try_for_each_ok. split.
  - intros Ht _ m f Hin Hf. specialize (Ht m). rewrite Hf, elem_of_btree_elems in Ht.
    specialize (Ht Hin). by case_bool_decide.
  - intros Hm m Hin%elem_of_btree_elems. destruct (fibers !! m) as [f|] eqn:Hf; [|done].
    by rewrite bool_decide_eq_true_2 by eauto.
Qed.

Lemma check_k_invariants_ok fibers table :
  check_k_invariants fibers table = Ok tt ↔ K_inv fibers table.
Proof.
  unfold check_k_invariants. split.
  - intros H. apply bind_ok_inv in H as ([] & H1 & H).
    apply bind_ok_inv in H as ([] & H2 & H3).
    rewrite try_for_each_ok in H1. rewrite try_for_each_ok in H2. rewrite try_for_each_ok in H3.
    split_and!.
    + intros id r m Ht%elem_of_btree_entries Ha Hm. apply H1, check_record_ok in Ht; [|done].
      naive_solver.
    + intros fid f h Hf. split.
      * apply elem_of_btree_entries, H2 in Hf. rewrite check_fiber_ok in Hf. apply Hf.
      * intros (r & Ht%elem_of_btree_entries & Ha & Hin). apply H3 in Ht.
        rewrite check_membership_ok in Ht. eauto.
    + intros id r Ht%elem_of_btree_entries Ha Hb. apply H1, check_record_ok in Ht; [|done].
      naive_solver.
  - intros (HK1 & HK2 & HK3).
    assert (H1 : try_for_each (check_record fibers) (btree_entries table) = Ok tt).
    { apply try_for_each_ok. intros [id r] Ht%elem_of_btree_entries. apply check_record_ok.
      intros Ha. split; eauto. }
    assert (H2 : try_for_each (check_fiber table) (btree_entries fibers) = Ok tt).
    { apply try_for_each_ok. intros [fid f] Hf%elem_of_btree_entries. apply check_fiber_ok.
      intros h. by apply HK2. }
    rewrite H1, H2. cbn. apply try_for_each_ok.
    intros [id r] Ht%elem_of_btree_entries. apply check_membership_ok.
    intros Ha m f Hm Hf. apply (HK2 _ _ _ Hf). eauto.
Qed.

End checks.

(** * Armed records under staged mutations

    The K invariants only speak of armed records.  This file follows the armed
    records of the staged table through each kind of mutation the handlers
    stage, and the live fibres through the staged fibre deltas. *)

Definition armed (t : gmap N ConcurrencyRecord) (h : RecordId) (r : ConcurrencyRecord) : Prop :=
  t !! h = Some r ∧ rec_state r = Armed.

(** ** Armed records through mutations *)

Lemma armed_insert t r h r' :
  rec_state r = Armed ->
  armed (table_insert r t) h r' ↔ (h = rec_id r ∧ r' = r) ∨ (h ≠ rec_id r ∧ armed t h r').
Proof.
  intros Ha. unfold armed, table_insert. destruct (decide (h = rec_id r)) as [->|Hne].
  - rewrite lookup_insert_eq. naive_solver.
  - rewrite lookup_insert_ne by done. naive_solver.
Qed.

Lemma armed_retire t id h r :
  armed (apply_mutation t (CMRetire id)) h r ↔ h ≠ id ∧ armed t h r.
Proof.
  unfold armed. cbn. destruct (decide (h = id)) as [->|Hne].
  - destruct (t !! id) as [r'|] eqn:E; [rewrite lookup_insert_eq|rewrite E]; naive_solver.
  - destruct (t !! id); [rewrite lookup_insert_ne by done|]; naive_solver.
Qed.

Lemma armed_push_retires s ids c h r :
  armed (staged_table s (push_retires ids c)) h r ↔ h ∉ ids ∧ armed (staged_table s c) h r.
Proof.
  unfold armed. rewrite staged_push_retires. destruct (decide (h ∈ ids)); [|naive_solver].
  destruct (staged_table s c !! h); cbn; naive_solver.
Qed.

Lemma armed_reconcile s ops exclude c h r' :
  table_keyed (sn_table s) ->
  armed (staged_table s (v2_reconcile_ancestor_membership s ops exclude c)) h r' ↔
  if decide (h ∈ exclude) then armed (staged_table s c) h r'
  else ∃ r, armed (staged_table s c) h r ∧ r' = apply_ops (ops_on h ops) r.
Proof.
  intros Hk. unfold armed. rewrite (staged_reconcile _ _ _ _ _ Hk).
  destruct (decide (h ∈ exclude)); [done|].
  destruct (fetch_record_in_transition s c h) as [r|] eqn:Hf.
  - pose proof (fetch_staged _ _ _ _ Hf) as Hs. split.
    + intros [[= <-] Ha]. exists r. split; [|done]. split; [done|].
      destruct (apply_ops_fields (ops_on h ops) r) as (_ & E & _). congruence.
    + intros (r0 & [Hr Ha] & ->). rewrite Hs in Hr. simplify_eq. split; [done|].
      destruct (apply_ops_fields (ops_on h ops) r0) as (_ & E & _). congruence.
  - split.
    + intros [Hr Ha]. exfalso. rewrite (staged_armed_fetch _ _ _ _ Hr Ha) in Hf. done.
    + intros (r0 & [Hr Ha] & ->). exfalso.
      rewrite (staged_armed_fetch _ _ _ _ Hr Ha) in Hf. done.
Qed.

(** ** Membership operations on a stack *)

Lemma length_filter_eq_nonzero (h : N) (l : list N) :
  length (filter (λ x, x = h) l) ≠ 0 ↔ h ∈ l.
Proof.
  rewrite length_zero_iff_nil. split.
  - intros Hne. destruct (filter (λ x, x = h) l) as [|y k] eqn:E; [done|].
    assert (y ∈ filter (λ x, x = h) l) as [-> ?]%list_elem_of_filter by (rewrite E; left). done.
  - intros Hin E. assert (Hx : h ∈ filter (λ x, x = h) l) by (by apply list_elem_of_filter).
    rewrite E in Hx. set_solver.
Qed.

Lemma members_stack_adds h f (l : list RecordId) r :
  members (apply_ops (ops_on h ((λ a, (a, MAdd f)) <$> l)) r) =
  if decide (h ∈ l) then {[f]} ∪ members r else members r.
Proof.
  rewrite ops_on_stack. pose proof (length_filter_eq_nonzero h l) as Hn.
  generalize dependent (length (filter (λ x, x = h) l)). intros n Hn.
  rewrite <-(fmap_replicate MAdd n f), members_apply_adds.
  destruct (decide (h ∈ l)) as [Hin|Hin].
  - apply Hn in Hin. destruct n; [done|]. cbn. clear.
    assert (∀ k, (list_to_set (replicate k f) : gset N) ⊆ {[f]}) as H.
    { intros k. induction k; cbn; set_solver. }
    specialize (H n). set_solver.
  - destruct n; [cbn; set_solver|]. exfalso. apply Hin, Hn. done.
Qed.

(** The removals addressed to [h]: the dead fibres that carry it. *)
Lemma ops_on_removal s dead h :
  ∃ ids, ops_on h (removal_ops s dead) = MRemove <$> ids ∧
    ∀ x, x ∈ ids ↔ x ∈ dead ∧ ∃ f, sn_fibers s !! x = Some f ∧ h ∈ fiber_control_stack f.
Proof.
  induction dead as [|d dead (ids & IH & Hids)].
  { exists []. split; [done | set_solver]. }
  unfold removal_ops. rewrite bind_cons, ops_on_app. fold (removal_ops s dead). rewrite IH.
  destruct (sn_fibers s !! d) as [f|] eqn:Hf.
  - rewrite ops_on_stack.
    set (n := length (filter (λ x, x = h) (fiber_control_stack f))).
    exists (replicate n d ++ ids). split; [by rewrite fmap_app, fmap_replicate|].
    intros x. rewrite elem_of_app, Hids, elem_of_cons, elem_of_replicate.
    pose proof (length_filter_eq_nonzero h (fiber_control_stack f)) as Hn. fold n in Hn.
    split.
    + intros [[-> Hne]|[? ?]]; [|naive_solver]. split; [by left|]. exists f. naive_solver.
    + intros [[->|Hx] (g & Hg & Hh)]; [|right; eauto]. simplify_eq. left. naive_solver.
  - exists ids. split; [done|]. intros x. rewrite Hids, elem_of_cons. naive_solver.
Qed.

Lemma members_removal s dead h r x :
  x ∈ members (apply_ops (ops_on h (removal_ops s dead)) r) ↔
  x ∈ members r ∧ ¬ (x ∈ dead ∧ ∃ f, sn_fibers s !! x = Some f ∧ h ∈ fiber_control_stack f).
Proof.
  destruct (ops_on_removal s dead h) as (ids & -> & Hids).
  rewrite members_apply_removes, elem_of_difference, elem_of_list_to_set, Hids. done.
Qed.

(** ** Staged fields that carry no records *)

Lemma staged_push_deletes s ids c : staged_table s (push_deletes ids c) = staged_table s c.
Proof.
  unfold push_deletes. revert c; induction ids as [|id ids IH]; intros c; cbn; [done|].
  by rewrite IH.
Qed.

Lemma deletes_push_deletes ids c :
  ch_fibers_delete (push_deletes ids c) = ch_fibers_delete c ++ ids.
Proof.
  unfold push_deletes. revert c; induction ids as [|id ids IH]; intros c; cbn.
  - by rewrite app_nil_r.
  - rewrite IH. cbn. by rewrite <-app_assoc.
Qed.

Lemma push_deletes_fields ids c :
  ch_fibers_upsert (push_deletes ids c) = ch_fibers_upsert c ∧
  ch_cleanup (push_deletes ids c) = ch_cleanup c.
Proof.
  unfold push_deletes. revert c; induction ids as [|id ids IH]; intros c; cbn; [done|].
  apply (IH (push_delete id c)).
Qed.

Lemma push_retires_fields ids c :
  ch_fibers_upsert (push_retires ids c) = ch_fibers_upsert c ∧
  ch_fibers_delete (push_retires ids c) = ch_fibers_delete c ∧
  ch_cleanup (push_retires ids c) = ch_cleanup c.
Proof. unfold push_retires. by rewrite push_mutations_list. Qed.

Lemma reconcile_fields s ops exclude c :
  ch_fibers_upsert (v2_reconcile_ancestor_membership s ops exclude c) = ch_fibers_upsert c ∧
  ch_fibers_delete (v2_reconcile_ancestor_membership s ops exclude c) = ch_fibers_delete c ∧
  ch_cleanup (v2_reconcile_ancestor_membership s ops exclude c) = ch_cleanup c.
Proof. by rewrite reconcile_put. Qed.

Lemma push_job_cancels_fields s ids c :
  ch_concurrency_mutations (push_job_cancels s ids c) = ch_concurrency_mutations c ∧
  ch_fibers_upsert (push_job_cancels s ids c) = ch_fibers_upsert c ∧
  ch_fibers_delete (push_job_cancels s ids c) = ch_fibers_delete c ∧
  ch_cleanup (push_job_cancels s ids c) = ch_cleanup c.
Proof.
  unfold push_job_cancels. revert c; induction ids as [|id ids IH]; intros c; cbn; [done|].
  destruct (sn_fibers s !! id) as [f|]; [|apply IH].
  destruct (fiber_wait f); try apply IH.
  destruct (IH (push_job_mutation (JMCancel job_key) c)) as (-> & -> & -> & ->). done.
Qed.

(** ** The frame of a set of changes *)

Definition frame_fibers (s : Snapshot) (c : Changes) : gmap N Fiber :=
  apply_fiber_deltas (sn_fibers s) (ch_fibers_upsert c) (ch_fibers_delete c)
    (delete_all_fibers (default TerminalCleanup_default (ch_cleanup c))).

Lemma derive_frame_finish s c i :
  derive_post_transition_frame s (finish c i) = (frame_fibers s c, staged_table s c).
Proof.
  unfold derive_post_transition_frame, frame_fibers, staged_table.
  by autorewrite with kernel.
Qed.

(** * The K invariants over stacks

    K-1, K-2 and K-3 only read the effective stack of each live fibre.  This
    file states them over the map from fibre id to stack and proves that the
    elementary scope operations preserve them: opening a record, closing one,
    retiring a barrier with the members that wait at it, forking. *)

Notation Stacks := (gmap N (list N)) (only parsing).

Record KS (S : Stacks) (T : gmap N ConcurrencyRecord) : Prop := {
  KS1 : ∀ h r m, armed T h r -> m ∈ members r -> is_Some (S !! m);
  KS2 : ∀ x st h, S !! x = Some st -> (h ∈ st ↔ ∃ r, armed T h r ∧ x ∈ members r);
  KS3 : ∀ h r, armed T h r -> rec_kind r = KBarrier ->
    (0 < count (rec_counters r) <= arity (rec_counters r))%N;
}.

Lemma K_inv_stacks fibers T : K_inv fibers T ↔ KS (effective_control_stack <$> fibers) T.
Proof.
  split.
  - intros (H1 & H2 & H3). split.
    + intros h r m [Hr Ha] Hm. rewrite lookup_fmap. destruct (H1 _ _ _ Hr Ha Hm) as [f ->]. eauto.
    + intros x st h. rewrite lookup_fmap. destruct (fibers !! x) as [f|] eqn:Hf; [|done].
      intros [= <-]. rewrite (H2 _ _ h Hf). unfold armed. naive_solver.
    + intros h r [Hr Ha]. eauto.
  - intros [H1 H2 H3]. split_and!.
    + intros h r m Hr Ha Hm. destruct (H1 h r m (conj Hr Ha) Hm) as [st Hst].
      rewrite lookup_fmap in Hst. destruct (fibers !! m); [eauto | done].
    + intros x f h Hf. rewrite (H2 x (effective_control_stack f) h); [unfold armed; naive_solver|].
      by rewrite lookup_fmap, Hf.
    + intros h r Hr Ha Hb. by apply (H3 h r (conj Hr Ha)).
Qed.

(** Records that agree on everything K reads. *)
Definition same_shape (r r' : ConcurrencyRecord) : Prop :=
  members r' = members r ∧ rec_kind r' = rec_kind r ∧ rec_counters r' = rec_counters r.

Lemma KS_table_ext S T T' :
  (∀ h r, armed T' h r -> ∃ r', armed T h r' ∧ same_shape r' r) ->
  (∀ h r, armed T h r -> ∃ r', armed T' h r' ∧ same_shape r r') ->
  KS S T -> KS S T'.
Proof.
  intros Hb Hf [H1 H2 H3]. split.
  - intros h r m (r' & Ha & Em & _)%Hb. rewrite Em. by eapply H1.
  - intros x st h Hx. rewrite (H2 _ _ h Hx). split.
    + intros (r & (r' & Ha & Em & _)%Hf & Hm). exists r'. by rewrite Em.
    + intros (r & (r' & Ha & Em & _)%Hb & Hm). exists r'. by rewrite <-Em.
  - intros h r (r' & Ha & _ & Ek & Ec)%Hb. rewrite Ek, Ec. by eapply H3.
Qed.

(** A fresh handle is on no stack. *)
Lemma KS_fresh S T x st h : KS S T -> T !! h = None -> S !! x = Some st -> h ∉ st.
Proof. intros HK Hh Hx Hin. apply (KS2 _ _ HK _ _ _ Hx) in Hin as (r & [Hr _] & _). congruence. Qed.

(** ** Opening a record *)

Lemma KS_open S T x st r :
  KS S T -> S !! x = Some st -> T !! rec_id r = None -> rec_state r = Armed ->
  members r = {[x]} -> rec_kind r ≠ KBarrier ->
  KS (<[x := st ++ [rec_id r]]> S) (table_insert r T).
Proof.
  intros HK Hx Hfresh Ha Hm Hk. split.
  - intros h r' m. rewrite armed_insert by done. intros [[-> ->]|[Hne Har]] Hin.
    + rewrite Hm in Hin. apply elem_of_singleton in Hin as ->. rewrite lookup_insert_eq. eauto.
    + destruct (decide (m = x)) as [->|]; [rewrite lookup_insert_eq; eauto|].
      rewrite lookup_insert_ne by done. by eapply KS1.
  - intros y st' h. setoid_rewrite armed_insert; [|done].
    destruct (decide (y = x)) as [->|Hne].
    + rewrite lookup_insert_eq. intros [= <-]. rewrite elem_of_app, list_elem_of_singleton.
      rewrite (KS2 _ _ HK _ _ h Hx). split.
      * intros [(r' & Har & Hin)| -> ]; [|exists r; set_solver].
        exists r'. split; [|done]. right. split; [|done]. intros ->. by destruct Har; congruence.
      * intros (r' & [[-> ->]|[Hne Har]] & Hin); eauto.
    + rewrite lookup_insert_ne by done. intros Hy. rewrite (KS2 _ _ HK _ _ h Hy). split.
      * intros (r' & Har & Hin). exists r'. split; [|done]. right. split; [|done].
        intros ->. by destruct Har; congruence.
      * intros (r' & [[-> ->]|[_ Har]] & Hin); [set_solver | eauto].
  - intros h r'. rewrite armed_insert by done. intros [[-> ->]|[_ Har]]; [done | by eapply KS3].
Qed.

(** ** Closing a record *)

Lemma KS_close S T x st h :
  KS S T -> S !! x = Some (st ++ [h]) -> h ∉ st ->
  (∀ r m, armed T h r -> m ∈ members r -> m = x) ->
  KS (<[x := st]> S) (apply_mutation T (CMRetire h)).
Proof.
  intros HK Hx Hnin Hsole. split.
  - intros h' r m [Hne Har]%armed_retire Hin. destruct (decide (m = x)) as [->|].
    + rewrite lookup_insert_eq. eauto.
    + rewrite lookup_insert_ne by done. by eapply KS1.
  - intros y st' h'. setoid_rewrite armed_retire. destruct (decide (y = x)) as [->|Hne].
    + rewrite lookup_insert_eq. intros [= <-]. pose proof (KS2 _ _ HK _ _ h' Hx) as E.
      rewrite elem_of_app, list_elem_of_singleton in E. split.
      * intros Hin. destruct (proj1 E (or_introl Hin)) as (r & Har & Hm). exists r.
        split; [split; [|done]|done]. intros ->. done.
      * intros (r & [Hne Har] & Hm). destruct (proj2 E (ex_intro _ r (conj Har Hm))); [done|].
        congruence.
    + rewrite lookup_insert_ne by done. intros Hy. rewrite (KS2 _ _ HK _ _ h' Hy). split.
      * intros (r & Har & Hm). exists r. split; [split; [|done]|done]. intros ->.
        apply Hne. by eapply Hsole.
      * intros (r & [_ Har] & Hm). eauto.
  - intros h' r [_ Har]%armed_retire. by eapply KS3.
Qed.

(** ** Counting an arrival *)

Lemma KS_counters S T h r k :
  KS S T -> armed T h r -> rec_id r = h ->
  (rec_kind r = KBarrier -> (0 < count k <= arity k)%N) ->
  KS S (table_insert (set_rec_counters k r) T).
Proof.
  intros HK Ha Hid Hk. assert (Ha' : rec_state (set_rec_counters k r) = Armed) by apply Ha. split.
  - intros h' r' m. rewrite armed_insert by done. cbn. rewrite Hid.
    intros [[-> ->]|[_ Har]] Hm; eapply KS1; eauto.
  - intros x st h' Hx. rewrite (KS2 _ _ HK _ _ h' Hx). setoid_rewrite armed_insert; [|done].
    cbn. rewrite Hid. destruct (decide (h' = h)) as [->|Hne].
    + split; [|naive_solver]. intros (r' & Har & Hm). exists (set_rec_counters k r).
      split; [by left|]. destruct Har as [E _], Ha as [E' _]. by simplify_eq.
    + naive_solver.
  - intros h' r'. rewrite armed_insert by done. cbn. intros [[-> ->]|[_ Har]]; [done|].
    by eapply KS3.
Qed.

(** ** A generic step: the armed records of [T'] are those of [T] not in [R],
    their members moved by [Q]. *)
Lemma KS_rewrite S S' T T' (R : N -> Prop) (Q : N -> ConcurrencyRecord -> N -> Prop) :
  KS S T ->
  (∀ h r, armed T' h r ->
     ¬ R h ∧ ∃ r0, armed T h r0 ∧ rec_kind r = rec_kind r0 ∧ rec_counters r = rec_counters r0 ∧
       ∀ x, x ∈ members r ↔ Q h r0 x) ->
  (∀ h r0, armed T h r0 -> ¬ R h -> ∃ r, armed T' h r ∧ ∀ x, x ∈ members r ↔ Q h r0 x) ->
  (∀ h r0 x, armed T h r0 -> ¬ R h -> Q h r0 x -> is_Some (S' !! x)) ->
  (∀ x st h, S' !! x = Some st ->
     (h ∈ st ↔ ¬ R h ∧ ∃ r0, armed T h r0 ∧ Q h r0 x)) ->
  KS S' T'.
Proof.
  intros HK Hback Hforw Hlive Hst. split.
  - intros h r m (HnR & r0 & Ha & _ & _ & Hm)%Hback Hin. apply (Hlive h r0 m); [done..|].
    by apply Hm.
  - intros x st h Hx. rewrite (Hst _ _ h Hx). split.
    + intros (HnR & r0 & Ha & HQ). destruct (Hforw _ _ Ha HnR) as (r & Ha' & Hm).
      exists r. split; [done | by apply Hm].
    + intros (r & (HnR & r0 & Ha & _ & _ & Hm)%Hback & Hin). split; [done|].
      exists r0. split; [done | by apply Hm].
  - intros h r (_ & r0 & Ha & Ek & Ec & _)%Hback. rewrite Ek, Ec. by eapply KS3.
Qed.
