(* ===== verification/Fixtures.v ===== *)
(** * Concrete inputs

    A platform instance, an instance, workflows and snapshots small enough to
    evaluate: the witnesses of the development run the definitions on them.
    The programs are those of the kernel's own unit tests. *)

From Stdlib Require Import Strings.Ascii.
From S2P Require Import Prelude RustStr Json Types Concurrency Platform Effects Transition Bindings KernelBase KernelScope KernelTick KernelCommands KernelApply.

(** A 128-bit polynomial digest, padded to 32 bytes. *)
Definition toy_digest (l : list Byte.byte) : Hash :=
  be_bytes 16 (foldl (λ acc b, (acc * 16777619 + Byte.to_N b + 1) mod (2 ^ 127 - 1))%N 1%N l)
  ++ replicate 16 Byte.x00.

Definition toy_session : SessionStackState :=
  {| session_id := 7; session_scope := None; active_workspace := None; workspace_stack := [];
     trace_sequence := 3 |}.

Definition toy_platform : Platform := {|
  blake3 := toy_digest;
  show_uuid := show_N;
  json_from_str := λ t, if bool_decide (t = "{}") then Some (JObject []) else None;
  json_to_string := λ _, "{}";
  json_error := λ _, "expected value";
  session_to_string := λ x, show_N (trace_sequence x);
  session_from_str := λ t, if bool_decide (t = "3") then Some toy_session else None;
  unicode_plain := λ _, true |}.

#[local] Existing Instance toy_platform.

Definition toy_hash : Hash := replicate 32 Byte.x0f.

Definition toy_instance : ProcessInstance := {|
  instance_id := 1; inst_tenant_id := "default"; process_key := "proc";
  bytecode_version := toy_hash; domain_payload := "{}";
  domain_payload_hash := toy_digest (as_bytes "{}"); session_stack := toy_session;
  flags := ∅; counters := ∅; join_expected := ∅; inst_state := PSRunning;
  correlation_id := "corr"; entry_id := 0; runbook_id := 0; created_at := 0;
  integrity_hash := None; quarantine_state := None; plan_hash := None;
  current_node_id := None; placeholder_values := None |}.

Definition toy_metadata : ArtifactMetadata := {|
  debug_map := {[ 0%N := "task0" ]}; join_plan := ∅; wait_plan := ∅; message_name_map := {[ 7%N := "approved" ]};
  task_manifest := ["do_work"; "send_reminder"];
  ffi_task_decls := ∅; v2_ffi_task_decls := ∅;
  v2_corr_sources := list_to_map ((λ n, (N.of_nat n, BSLiteral (LitBool false))) <$> seq 0 16);
  v2_guard_budgets := ∅; default_guard_budget := ScopeFailureBudget_conservative_default;
  default_retry_policy := RetryPolicy_conservative_default |}.

Definition toy_workflow (program : list Instr) : ExecutableWorkflow := {|
  wf_abi_version := 2; wf_compiler_version := "toy"; wf_instructions := program;
  wf_metadata := toy_metadata;
  wf_limits := {| max_stack := 16; max_fibers := 8; max_steps := 64; max_control_depth := 8;
                  max_barriers := 8; max_records := 8 |};
  wf_hash := toy_hash |}.

Definition toy_context (time rev : N) : DeterministicContext := mkContext time (400 + rev) rev.

(** A running instance with one fibre, id 10, at the first instruction. *)
Definition toy_snapshot : Snapshot :=
  Snapshot_new toy_instance [Fiber_new 10 0].

(** The same state as a persisted envelope at revision 0. *)
Definition toy_envelope : SnapshotEnvelope :=
  SnapshotEnvelope_new 2 toy_hash 0
    (PersistedSnapshotState_new toy_instance [Fiber_new 10 0] ∅ [] ∅ ∅).

(** A claimed buffered message for name 7, content key "false". *)
Definition toy_buffered : ClaimedBufferedMessage := {|
  cbm_message := {| bm_tenant_id := "default"; bm_message_name := "approved";
    bm_correlation_key := "false"; bm_msg_id := "m1"; bm_payload := []; bm_payload_hash := None;
    bm_process_instance_id := None; bm_received_at := 0; bm_expires_at := 1000 |};
  cbm_claim_token := "token"; cbm_claim_until := 500 |}.
