(* ===== verification/VerifierFacts.v ===== *)
(** * What the artifact verifier decides

    The four walks of [Verifier] terminate within the bound given to them, and
    accept exactly the programs that have the annotation they look for. *)

From S2P Require Import Prelude Dataflow RustStr Json Types Concurrency Platform Effects Transition Verifier.

(** ** Errors that are not the iteration bound *)

Definition bounded {A} (r : Result ArtifactError A) : Prop := r ≠ Err IterationBound.

Lemma bounded_bind {A B} (r : Result ArtifactError A) (f : A -> Result ArtifactError B) :
  bounded r -> (∀ a, r = Ok a -> bounded (f a)) -> bounded (r ≫= f).
Proof.
  unfold bounded. intros Hr Hf. destruct r as [a|e]; cbn; [by apply Hf|].
  intros [= ->]. by apply Hr.
Qed.

Lemma bounded_for_each {A} (f : A -> Result ArtifactError unit) l :
  (∀ x, bounded (f x)) -> bounded (try_for_each f l).
Proof.
  unfold bounded. intros Hf. induction l as [|x l IH]; cbn; [done|].
  destruct (f x) eqn:E; [done|]. by rewrite <-E.
Qed.

(** Reduce [bounded] to the guards and calls of the body. *)
Ltac bounded :=
  repeat first
    [ discriminate
    | apply bounded_bind; [|intros ? _]
    | apply bounded_for_each; intros ?
    | progress unfold ensure, ok_or, require_address, require_all, check_forward
    | match goal with |- bounded (match ?x with _ => _ end) => destruct x end ].

Section verifier_facts.
Context (p : list Instr).

(** ** Addresses and edges *)

Lemma addr_lookup_lt a i : p !! addr_index a = Some i -> (a < N.of_nat (length p))%N.
Proof. intros H%lookup_lt_Some. unfold addr_index in H. lia. Qed.

Lemma require_address_ok target size a what u :
  require_address target size a what = Ok u ↔ (target < size)%N.
Proof.
  unfold require_address. destruct (N.leb_spec size target); destruct u; split; intros; try done; lia.
Qed.

Lemma require_all_ok a size what l u :
  require_all a size what l = Ok u ↔ ∀ t, t ∈ l -> (t < size)%N.
Proof.
  unfold require_all. rewrite try_for_each_ok. by setoid_rewrite require_address_ok.
Qed.

Lemma elem_of_next_address a size b :
  b ∈ next_address a size ↔ b = (a + 1)%N ∧ (a + 1 < size)%N.
Proof.
  unfold next_address. destruct (N.ltb_spec (a + 1) size).
  - rewrite list_elem_of_singleton. naive_solver.
  - split; [by intros ?%not_elem_of_nil|]. lia.
Qed.

Lemma next_address_range a size b : b ∈ next_address a size -> (b < size)%N.
Proof. by intros [-> ?]%elem_of_next_address. Qed.

(** Every successor is an address of the program. *)
Lemma successors_range a i succs b :
  successors a i p (len p) = Ok succs -> b ∈ succs -> (b < len p)%N.
Proof.
  destruct i; cbn [successors];
    repeat match goal with
    | |- _ ≫= _ = Ok _ -> _ => let H := fresh in intros H; apply bind_ok_inv in H as (? & ? & H); revert H
    | |- Ok _ = Ok _ -> _ => intros [= <-]
    end.
  all: try (by intros ?%next_address_range).
  all: try (by intros ?%not_elem_of_nil).
  all: repeat match goal with H : require_all _ _ _ _ = Ok _ |- _ => rewrite require_all_ok in H end.
  all: repeat match goal with H : require_address _ _ _ _ = Ok _ |- _ => apply require_address_ok in H end.
  all: try (intros [->|?%next_address_range]%elem_of_cons; done).
  all: try (by intros ->%list_elem_of_singleton).
  all: auto.
  intros [?|Hd]%elem_of_app; [auto|]. destruct default_target; [|by apply not_elem_of_nil in Hd].
  apply list_elem_of_singleton in Hd as ->. by eapply require_address_ok.
Qed.

Lemma race_scan_bounded close cursor targets : bounded (race_scan close p cursor targets).
Proof.
  revert targets. induction cursor as [|c IH]; intros targets; cbn; [discriminate|].
  repeat case_match; try discriminate; auto.
Qed.

Lemma successors_bounded a i : bounded (successors a i p (len p)).
Proof.
  destruct i; cbn [successors]; bounded. apply race_scan_bounded.
Qed.

Lemma height_local_bounded a h : bounded (height_local p a h).
Proof.
  unfold height_local. bounded; try apply successors_bounded.
  unfold height_match. repeat case_match; discriminate.
Qed.

Lemma pop_expecting_bounded a st k : bounded (pop_expecting a st k).
Proof. unfold pop_expecting. bounded. Qed.

Lemma close_scope_bounded a st k : bounded (close_scope p a st k).
Proof. unfold close_scope. bounded. apply pop_expecting_bounded. Qed.

Lemma control_match_bounded a i st : bounded (control_match p a i st).
Proof.
  destruct i; cbn [control_match]; try apply close_scope_bounded;
    unfold pass_on, arm_timer_local, timer_cycle_local, arm_error_local, join_local, cancel_local;
    bounded; try apply successors_bounded; try apply close_scope_bounded;
    try apply pop_expecting_bounded; apply race_scan_bounded.
Qed.

Lemma control_local_bounded a st : bounded (control_local p a st).
Proof. unfold control_local. bounded. apply control_match_bounded. Qed.

Lemma forward_local_bounded a u : bounded (forward_local p a u).
Proof. unfold forward_local. bounded. apply successors_bounded. Qed.

Lemma height_local_range a h edges : height_local p a h = Ok edges -> (a < N.of_nat (length p))%N.
Proof.
  intros H. apply bind_ok_inv in H as (i & Hi%ok_or_ok & _). by eapply addr_lookup_lt.
Qed.

Lemma control_local_range a st edges : control_local p a st = Ok edges -> (a < N.of_nat (length p))%N.
Proof.
  intros H. apply bind_ok_inv in H as (_ & _ & H). apply bind_ok_inv in H as (i & Hi%ok_or_ok & _).
  by eapply addr_lookup_lt.
Qed.

Lemma forward_local_range a u edges : forward_local p a u = Ok edges -> (a < N.of_nat (length p))%N.
Proof.
  intros H. apply bind_ok_inv in H as (i & Hi%ok_or_ok & _). by eapply addr_lookup_lt.
Qed.

(** The shape of an edge of the control-stack walk: unchecked, or required to
    point forward. *)
Definition edge_shape (a : N) (e : Edge ArtifactError AbstractStack) : Prop :=
  edge_check e = Ok tt ∨ ∃ what, edge_check e = check_forward a (edge_target e) what.

Lemma fall_shape a st e : e ∈ fall p a st -> edge_shape a e.
Proof. intros (b & -> & _)%list_elem_of_fmap. by left. Qed.

Lemma control_match_shape a i st edges e :
  control_match p a i st = Ok edges -> e ∈ edges -> edge_shape a e.
Proof.
  intros H He.
  assert (Hfall : ∀ st', edges = fall p a st' -> edge_shape a e) by (intros ? ->; by eapply fall_shape).
  assert (Hclose : ∀ k, close_scope p a st k = Ok edges -> edge_shape a e).
  { intros k Hc. apply bind_ok_inv in Hc as (? & _ & [= <-]). by eapply fall_shape. }
  assert (Hfwd : ∀ what st' l, edges = (λ t, forward_edge a t what st') <$> l -> edge_shape a e).
  { intros what st' l ->. apply list_elem_of_fmap in He as (t & -> & _). right. by exists what. }
  assert (Hpass : pass_on p a i st = Ok edges -> edge_shape a e).
  { intros Hc. apply bind_ok_inv in Hc as (? & _ & [= <-]).
    apply list_elem_of_fmap in He as (t & -> & _). by left. }
  assert (Hcons : ∀ e0 st', Ok (e0 :: fall p a st') = Ok (E := ArtifactError) edges ->
    edge_shape a e0 -> edge_shape a e).
  { intros e0 st' [= <-] H0. apply elem_of_cons in He as [->|He]; [done | by eapply fall_shape]. }
  assert (Hnil : Ok [] = Ok (E := ArtifactError) edges -> edge_shape a e).
  { intros [= <-]. by apply not_elem_of_nil in He. }
  destruct i; cbn [control_match] in H; eauto; try (injection H as <-; eauto; fail);
    try (eapply Hcons; [exact H | right; eexists; reflexivity]).
  all: unfold arm_timer_local, timer_cycle_local, arm_error_local, join_local, cancel_local in H.
  all: repeat match goal with
    | H : _ ≫= _ = Ok _ |- _ => apply bind_ok_inv in H as (? & ? & H)
    | H : match ?x with _ => _ end = Ok _ |- _ => destruct x
    end; try discriminate; eauto; injection H as <-; eauto.
Qed.


Lemma control_edge_bounded a st e edges :
  control_local p a st = Ok edges -> e ∈ edges -> bounded (edge_check e).
Proof.
  intros H He. apply bind_ok_inv in H as (_ & _ & H). apply bind_ok_inv in H as (i & _ & H).
  destruct (control_match_shape _ _ _ _ _ H He) as [->|[what ->]]; [done|]. bounded.
Qed.

Lemma height_edge_free a h e edges :
  height_local p a h = Ok edges -> e ∈ edges -> edge_check e = Ok tt.
Proof.
  intros H He. apply bind_ok_inv in H as (i & _ & H). destruct (stack_effect i) as [pops pushes].
  apply bind_ok_inv in H as (_ & _ & H). apply bind_ok_inv in H as (_ & _ & H).
  apply bind_ok_inv in H as (succs & _ & [= <-]). by apply list_elem_of_fmap in He as (b & -> & _).
Qed.

(** The start of a walk: the entry address alone. *)
Lemma fuel_inv_start {A} (x : A) (size : nat) (Pr : N -> Prop) :
  Pr 0%N -> fuel_inv size Pr (S size) [0%N] {[0%N := x]} [].
Proof.
  intros H0. split; cbn.
  - apply NoDup_singleton.
  - intros a. rewrite list_elem_of_singleton, lookup_singleton_is_Some. naive_solver.
  - intros a Ha. by apply not_elem_of_nil in Ha.
  - by intros a ->%list_elem_of_singleton.
  - lia.
Qed.

Lemma wl_inv_start {E A Acc} (local : N -> A -> Result E (list (Edge E A))) upd
    (R : Acc -> Acc -> Prop) (x : A) acc :
  wl_inv local upd R [0%N] {[0%N := x]} acc.
Proof.
  split.
  - intros a ->%list_elem_of_singleton. rewrite lookup_singleton_eq. eauto.
  - intros a y [<- <-]%lookup_singleton_Some Hn. by exfalso; apply Hn; left.
Qed.

(** ** The control-stack walk *)

(** An assignment of entry stacks: empty at the entry, accepted by the rule of
    every word it reaches, and closed under the edges of that rule. *)
Definition stack_typing (C : gmap N AbstractStack) : Prop :=
  C !! 0%N = Some [] ∧ solution (control_local p) C.

Definition deeper (a b : ControlAcc) : Prop := (ca_max_control_depth a <= ca_max_control_depth b)%N.

#[local] Instance deeper_preorder : PreOrder deeper.
Proof. split; unfold deeper; [intros ?; done | intros ???; lia]. Qed.

Lemma control_walk_sound C acc :
  control_walk p = Ok (C, acc) ->
  stack_typing C ∧ ∀ a st, C !! a = Some st -> (len st mod 2 ^ 32 <= ca_max_control_depth acc)%N.
Proof.
  intros H. unfold control_walk in H.
  pose proof (worklist_mono _ _ _ _ _ _ _ _ _ _ _ H) as Hm.
  apply (worklist_sound _ _ _ _ _ deeper) in H as (_ & _ & Hall); [|apply _| |apply wl_inv_start].
  - split; [split|].
    + eapply lookup_weaken; [|exact Hm]. apply lookup_singleton_eq.
    + intros a x Hx. by apply Hall.
    + intros a st Hst. destruct (Hall a st Hst) as [_ (acc0 & Hr)]. unfold deeper in Hr. cbn in Hr. lia.
  - intros a st acc0. unfold deeper. cbn. lia.
Qed.

Lemma control_walk_complete sol :
  stack_typing sol -> ∃ C acc, control_walk p = Ok (C, acc) ∧ C ⊆ sol.
Proof.
  intros [H0 Hsol]. unfold control_walk.
  eapply (worklist_complete _ _ _ _ _ (length p) (λ _, True)); [done| |exact Hsol| |by apply fuel_inv_start].
  - intros a x edges _. apply control_local_range.
  - apply map_singleton_subseteq_l. exact H0.
Qed.

(** ** The operand-height walk *)

Definition height_typing (H : gmap N N) : Prop :=
  H !! 0%N = Some 0%N ∧ solution (height_local p) H.

Definition higher (a b : HeightAcc) : Prop :=
  (ha_max_stack a <= ha_max_stack b)%N ∧ (ha_reachable_end a = true -> ha_reachable_end b = true).

#[local] Instance higher_preorder : PreOrder higher.
Proof. split; unfold higher; [intros ?; split; auto | intros ??? [] []; split; [lia | auto]]. Qed.

Definition ends_at (a : N) : Prop :=
  p !! addr_index a = Some IEnd ∨ p !! addr_index a = Some IEndTerminate.

Lemma height_upd_spec a h acc :
  higher acc (height_upd p a h acc) ∧
  (∀ i, p !! addr_index a = Some i -> (next_height h i <= ha_max_stack (height_upd p a h acc))%N) ∧
  (ends_at a -> ha_reachable_end (height_upd p a h acc) = true) ∧
  (ha_reachable_end (height_upd p a h acc) = true -> ha_reachable_end acc = true ∨ ends_at a).
Proof.
  unfold height_upd, higher, ends_at. destruct (p !! addr_index a) as [i|].
  - destruct i; cbn [ha_max_stack ha_reachable_end];
      (split; [split; [lia|auto] |]; split; [intros ? [= <-]; lia |]; naive_solver).
  - split; [split; auto; lia|]. naive_solver.
Qed.

Lemma height_local_edges a h edges :
  height_local p a h = Ok edges ↔
  ∃ i succs, p !! addr_index a = Some i ∧ ((stack_effect i).1 <= h)%N ∧
    height_match a i = Ok tt ∧ successors a i p (len p) = Ok succs ∧
    edges = (λ b, mkEdge (Ok tt) b (next_height h i)) <$> succs.
Proof.
  unfold height_local. split.
  - intros H. apply bind_ok_inv in H as (i & Hi%ok_or_ok & H).
    destruct (stack_effect i) as [pops pushes] eqn:He.
    apply bind_ok_inv in H as (_ & H1%ensure_ok%N.leb_le & H).
    apply bind_ok_inv in H as ([] & H2 & H). apply bind_ok_inv in H as (succs & H3 & [= <-]).
    exists i, succs. by rewrite He.
  - intros (i & succs & Hi & Hp & Hm & Hs & ->). rewrite Hi. cbn [ok_or mbind Result_bind].
    destruct (stack_effect i) as [pops pushes]. cbn in Hp. apply N.leb_le in Hp. rewrite Hp.
    cbn [ensure mbind Result_bind]. rewrite Hm. cbn [mbind Result_bind]. rewrite Hs. done.
Qed.

Lemma height_walk_sound H acc :
  height_walk p = Ok (H, acc) ->
  height_typing H ∧
  (∀ a h, H !! a = Some h -> (h <= ha_max_stack acc)%N) ∧
  (ha_reachable_end acc = true ↔ ∃ a, is_Some (H !! a) ∧ ends_at a).
Proof.
  intros Hw. unfold height_walk in Hw.
  pose proof (worklist_mono _ _ _ _ _ _ _ _ _ _ _ Hw) as Hm.
  pose proof (worklist_origin _ _ _ _ _ _ _ _ _ _ _ Hw) as Ho.
  pose proof (worklist_acc _ _ _ _ _
    (λ acc, ha_reachable_end acc = true -> ∃ a, is_Some (H !! a) ∧ ends_at a) _ _ _ _ _ _ Hw) as Hq.
  apply (worklist_sound _ _ _ _ _ higher) in Hw as (_ & _ & Hall);
    [|apply _|intros; apply height_upd_spec|apply wl_inv_start].
  assert (Hst : ∀ a h i, H !! a = Some h -> p !! addr_index a = Some i ->
    (next_height h i <= ha_max_stack acc)%N).
  { intros a h i Hh Hi. destruct (Hall a h Hh) as [_ (acc0 & [Hr _])].
    destruct (height_upd_spec a h acc0) as (_ & Hn & _). specialize (Hn i Hi). lia. }
  split_and!.
  - split; [|intros a x Hx; by apply Hall].
    eapply lookup_weaken; [|exact Hm]. apply lookup_singleton_eq.
  - intros a h Hh. destruct (Ho a h Hh) as [[_ <-]%lookup_singleton_Some|Hb]; [lia|].
    destruct Hb as (b & y & edges & e & Hb & Hl & He & _ & <-).
    apply height_local_edges in Hl as (i & succs & Hi & _ & _ & _ & ->).
    apply list_elem_of_fmap in He as (c & -> & _). cbn. by eapply Hst.
  - split.
    + apply Hq; [done|]. intros a x acc0 Hx IH Hend.
      apply height_upd_spec in Hend as [?|?]; [auto|]. eauto.
    + intros (a & [h Hh] & He). destruct (Hall a h Hh) as [_ (acc0 & [_ Hr])].
      apply Hr. by apply height_upd_spec.
Qed.

Lemma height_walk_complete sol :
  height_typing sol -> ∃ H acc, height_walk p = Ok (H, acc) ∧ H ⊆ sol.
Proof.
  intros [H0 Hsol]. unfold height_walk.
  eapply (worklist_complete _ _ _ _ _ (length p) (λ _, True)); [done| |exact Hsol| |by apply fuel_inv_start].
  - intros a x edges _. apply height_local_range.
  - apply map_singleton_subseteq_l. exact H0.
Qed.

(** ** Terminal reachability *)

(** The control-flow graph [successors] defines. *)
Definition has_successors (a : N) (succs : list N) : Prop :=
  ∃ i, p !! addr_index a = Some i ∧ successors a i p (len p) = Ok succs.
Definition cfg (a b : N) : Prop := ∃ succs, has_successors a succs ∧ b ∈ succs.
Definition terminal_at (a : N) : Prop := is_terminal_word <$> p !! addr_index a = Some true.

Lemma has_successors_eq a l l' : has_successors a l -> has_successors a l' -> l = l'.
Proof. intros (i & Hi & Hs) (i' & Hi' & Hs'). congruence. Qed.

Lemma forward_local_ok a u edges :
  forward_local p a u = Ok edges ↔ ∃ succs, has_successors a succs ∧ edges = unit_edges succs.
Proof.
  unfold forward_local, has_successors. split.
  - intros H. apply bind_ok_inv in H as (i & Hi%ok_or_ok & H).
    apply bind_ok_inv in H as (succs & Hs & [= <-]). eauto.
  - intros (succs & (i & Hi & Hs) & ->). rewrite Hi. cbn [ok_or mbind Result_bind]. by rewrite Hs.
Qed.

Lemma elem_of_unit_edges e l : e ∈ unit_edges l ↔ e = mkEdge (Ok tt) (edge_target e) tt ∧ edge_target e ∈ l.
Proof.
  unfold unit_edges. rewrite list_elem_of_fmap. split.
  - intros (a & -> & ?). done.
  - intros [-> ?]. eauto.
Qed.

Lemma forward_edge_rel a b : edge_rel (forward_local p) a b ↔ cfg a b.
Proof.
  unfold edge_rel, cfg. split.
  - intros ([] & edges & e & (succs & Hs & ->)%forward_local_ok & [_ He]%elem_of_unit_edges & <-). eauto.
  - intros (succs & Hs & Hb). exists tt, (unit_edges succs), (mkEdge (Ok tt) b tt).
    split; [apply forward_local_ok; eauto|]. by rewrite elem_of_unit_edges.
Qed.

Lemma forward_upd_spec a u m succs :
  has_successors a succs -> forward_upd p a u m = <[a := succs]> m.
Proof. intros (i & Hi & Hs). unfold forward_upd. by rewrite Hi, Hs. Qed.

Lemma forward_upd_cases a u m :
  forward_upd p a u m = m ∨ ∃ succs, has_successors a succs ∧ forward_upd p a u m = <[a := succs]> m.
Proof.
  unfold forward_upd, has_successors. destruct (p !! addr_index a) as [i|]; [|by left].
  destruct (successors a i p (len p)) as [succs|] eqn:E; [|by left]. right. exists succs. eauto.
Qed.

Lemma closed_reach reach :
  is_Some (reach !! 0%N) -> solution (forward_local p) reach ->
  ∀ a, rtc cfg 0%N a -> is_Some (reach !! a).
Proof.
  intros H0 Hsol. apply rtc_ind_r; [done|]. intros a b _ (succs & Hs & Hb) [[] IH].
  destruct (Hsol a tt IH) as (es & (succs' & Hs' & ->)%forward_local_ok & He).
  rewrite (has_successors_eq _ _ _ Hs Hs') in Hb.
  destruct (He (mkEdge (Ok tt) b tt)) as [_ Ht]; [by rewrite elem_of_unit_edges|]. eauto.
Qed.

(** The forward walk: its table is the set of reachable addresses, its edges
    are their successors. *)
Lemma forward_walk_sound reach edges :
  forward_walk p = Ok (reach, edges) ->
  (∀ a, is_Some (reach !! a) ↔ rtc cfg 0%N a) ∧
  (∀ a, rtc cfg 0%N a -> ∃ succs, has_successors a succs ∧ edges !! a = Some succs) ∧
  (∀ a succs, edges !! a = Some succs -> has_successors a succs ∧ rtc cfg 0%N a).
Proof.
  intros Hw. unfold forward_walk in Hw.
  pose proof (worklist_mono _ _ _ _ _ _ _ _ _ _ _ Hw) as Hm.
  pose proof (worklist_reachable _ _ _ _ _ (rtc cfg 0%N) _ _ _ _ _ _
    (λ a b Ha Hab, rtc_r _ _ _ Ha (proj1 (forward_edge_rel a b) Hab))
    (λ a, ltac:(intros [? [<- _]%lookup_singleton_Some]; reflexivity)) Hw) as Hr.
  pose proof (worklist_acc _ _ _ _ _
    (λ acc, ∀ a l, acc !! a = Some l -> has_successors a l ∧ is_Some (reach !! a)) _ _ _ _ _ _ Hw) as Hq.
  apply (worklist_sound _ _ _ _ _ (λ m m' : gmap N (list N), dom m ⊆ dom m')) in Hw
    as (_ & _ & Hall); [| | |apply wl_inv_start].
  - assert (Hreach : ∀ a, rtc cfg 0%N a -> is_Some (reach !! a)).
    { apply closed_reach; [|intros a x Hx; by apply Hall].
      exists tt. eapply lookup_weaken; [|exact Hm]. apply lookup_singleton_eq. }
    assert (Hedges : ∀ a l, edges !! a = Some l -> has_successors a l ∧ is_Some (reach !! a)).
    { apply Hq; [by intros ?? []%lookup_empty_Some|]. intros a x acc Hx IH b l.
      destruct (forward_upd_cases a x acc) as [->|(succs & Hs & ->)]; [by apply IH|].
      intros [[<- <-]|[_ ?]]%lookup_insert_Some; eauto. }
    split_and!.
    + split; [apply Hr | apply Hreach].
    + intros a Ha. destruct (Hreach a Ha) as [[] Hx].
      destruct (Hall a tt Hx) as [(es & (succs & Hs & _)%forward_local_ok & _) (acc0 & Hd)].
      rewrite (forward_upd_spec _ _ _ _ Hs) in Hd.
      assert (is_Some (edges !! a)) as [l Hl].
      { apply elem_of_dom, Hd, elem_of_dom. rewrite lookup_insert_eq. eauto. }
      exists l. split; [|done]. by apply Hedges.
    + intros a succs [? Hs]%Hedges. auto.
  - split; [intros ?; done | intros ???; by etrans].
  - intros a x acc. destruct (forward_upd_cases a x acc) as [->|(succs & _ & ->)]; set_solver.
Qed.

Definition can_end (a : N) : Prop := ∃ t, rtc cfg a t ∧ terminal_at t.

Lemma elem_of_reverse_edges edges a b :
  b ∈ reverse_edges edges a ↔ ∃ succs, edges !! b = Some succs ∧ a ∈ succs.
Proof.
  unfold reverse_edges. rewrite list_elem_of_bind. split.
  - intros ([c tos] & Hb & Hin%elem_of_btree_entries). cbn in Hb.
    apply list_elem_of_fmap in Hb as (t & -> & [-> Ht]%list_elem_of_filter). eauto.
  - intros (succs & Hs & Ha). exists (b, succs). split; [|by apply elem_of_btree_entries].
    cbn. apply list_elem_of_fmap. exists a. split; [done|]. by apply list_elem_of_filter.
Qed.

Lemma elem_of_terminal_seeds reach a :
  a ∈ terminal_seeds p reach ↔ is_Some (reach !! a) ∧ terminal_at a.
Proof.
  unfold terminal_seeds, terminal_at. rewrite list_elem_of_filter, elem_of_btree_keys. tauto.
Qed.

Lemma lookup_seeds (l : list N) a :
  (list_to_map ((λ a, (a, tt)) <$> l) : gmap N unit) !! a = if decide (a ∈ l) then Some tt else None.
Proof.
  induction l as [|b l IH]; cbn; [by rewrite lookup_empty, decide_False by apply not_elem_of_nil|].
  destruct (decide (a = b)) as [->|Hne].
  - rewrite lookup_insert_eq, decide_True by (by left). done.
  - rewrite lookup_insert_ne, IH by done. destruct (decide (a ∈ l)).
    + by rewrite decide_True by (by right).
    + rewrite decide_False; [done|]. by intros [->|?]%elem_of_cons.
Qed.

Section reverse.
Context (reach : gmap N unit) (edges : gmap N (list N)).
Context (Hreach : ∀ a, is_Some (reach !! a) ↔ rtc cfg 0%N a)
  (Hfwd : ∀ a, rtc cfg 0%N a -> ∃ succs, has_successors a succs ∧ edges !! a = Some succs)
  (Hback : ∀ a succs, edges !! a = Some succs -> has_successors a succs ∧ rtc cfg 0%N a).

Lemma reverse_edge_rel a b : edge_rel (reverse_local edges) a b ↔ cfg b a ∧ rtc cfg 0%N b.
Proof.
  unfold edge_rel, reverse_local. split.
  - intros ([] & es & e & [= <-] & [_ He]%elem_of_unit_edges & <-).
    apply elem_of_reverse_edges in He as (succs & [Hs Hr]%Hback & Ha). split; [by exists succs | done].
  - intros [(succs & Hs & Ha) Hr]. destruct (Hfwd b Hr) as (succs' & Hs' & He).
    rewrite (has_successors_eq _ _ _ Hs Hs') in Ha.
    eexists tt, _, (mkEdge (Ok tt) b tt). split; [done|]. rewrite elem_of_unit_edges. cbn.
    split; [|done]. split; [done|]. apply elem_of_reverse_edges. eauto.
Qed.

Lemma reverse_walk_exact reaches u :
  reverse_walk p reach edges = Ok (reaches, u) ->
  ∀ a, is_Some (reaches !! a) ↔ rtc cfg 0%N a ∧ can_end a.
Proof.
  intros Hw. unfold reverse_walk in Hw.
  pose proof (worklist_mono _ _ _ _ _ _ _ _ _ _ _ Hw) as Hm.
  pose proof (λ H1 H2, worklist_reachable _ _ _ _ _ (λ a, rtc cfg 0%N a ∧ can_end a)
    _ _ _ _ _ _ H1 H2 Hw) as Hr.
  apply (worklist_sound _ _ _ _ _ (λ _ _, True)) in Hw as (_ & _ & Hall); [|by split|done|].
  2:{ split; [intros a Ha; rewrite lookup_seeds, decide_True by done; eauto|].
      intros a x. rewrite lookup_seeds. by destruct (decide _). }
  intros a. split.
  - apply Hr.
    + intros b c [Hb (t & Ht & Hend)] [Hcb Hc]%reverse_edge_rel. split; [done|].
      exists t. split; [by eapply rtc_l | done].
    + intros b. rewrite lookup_seeds. destruct (decide _) as [[Hb Hend]%elem_of_terminal_seeds|]; [|by intros []].
      intros _. split; [by apply Hreach|]. by exists b.
  - intros [Ha (t & Ht & Hend)]. revert a Ht Ha. refine (rtc_ind_l _ t _ _); cbn.
    + intros Ha. exists tt. eapply lookup_weaken; [|exact Hm].
      by rewrite lookup_seeds, decide_True by (apply elem_of_terminal_seeds; split; [by apply Hreach|done]).
    + intros a b Hab _ IH Ha. destruct IH as [[] Hb]; [by eapply rtc_r|].
      destruct (Hall b tt Hb) as [(es & [= <-] & He) _].
      destruct (He (mkEdge (Ok tt) a tt)) as [_ Hx]; [|eauto].
      rewrite elem_of_unit_edges. split; [done|]. apply elem_of_reverse_edges.
      destruct (Hfwd a Ha) as (succs & Hs & Hsa). exists succs. split; [done|].
      destruct Hab as (succs' & Hs' & Hin). by rewrite (has_successors_eq _ _ _ Hs Hs').
Qed.

Lemma reverse_walk_total : ∃ reaches u, reverse_walk p reach edges = Ok (reaches, u).
Proof.
  unfold reverse_walk.
  eapply (worklist_total _ _ _ _ _ (length p) (rtc cfg 0%N)) with (done := []).
  - intros a b _ [_ Hb]%reverse_edge_rel. done.
  - intros a x es Ha _. destruct (Hfwd a Ha) as (succs & (i & Hi & _) & _). by eapply addr_lookup_lt.
  - by intros [] [].
  - intros a [] _. eexists. split; [done|]. by intros e [-> _]%elem_of_unit_edges.
  - split; cbn.
    + apply NoDup_filter, NoDup_btree_keys.
    + intros a. rewrite lookup_seeds. destruct (decide _); split; try done; eauto.
    + by intros a ?%not_elem_of_nil.
    + intros a [Ha _]%elem_of_terminal_seeds. by apply Hreach.
    + lia.
Qed.
End reverse.

Lemma forward_walk_total :
  (∀ a, rtc cfg 0%N a -> ∃ succs, has_successors a succs) ->
  ∃ reach edges, forward_walk p = Ok (reach, edges).
Proof.
  intros Hs. unfold forward_walk.
  eapply (worklist_total _ _ _ _ _ (length p) (rtc cfg 0%N)); [| | | |by apply fuel_inv_start].
  - intros a b Ha Hab%forward_edge_rel. by eapply rtc_r.
  - intros a x es _. apply forward_local_range.
  - by intros [] [].
  - intros a x Ha. destruct (Hs a Ha) as (succs & Hsu). exists (unit_edges succs).
    split; [apply forward_local_ok; eauto|]. by intros e [-> _]%elem_of_unit_edges.
Qed.

Lemma terminal_reachability_ok :
  p ≠ [] ->
  verify_terminal_reachability p = Ok tt ↔
  ∀ a, rtc cfg 0%N a -> (∃ succs, has_successors a succs) ∧ can_end a.
Proof.
  intros Hp. unfold verify_terminal_reachability. rewrite bool_decide_eq_false_2 by done. split.
  - intros H. apply bind_ok_inv in H as ([reach edges] & (Hr & Hf & Hb)%forward_walk_sound & H).
    apply bind_ok_inv in H as ([reaches u] & Hv & H).
    pose proof (reverse_walk_exact _ _ Hr Hf Hb _ _ Hv) as Hex. rewrite try_for_each_ok in H.
    intros a Ha. split; [destruct (Hf a Ha) as (succs & ? & _); eauto|].
    specialize (H a). rewrite elem_of_btree_keys, Hr in H. specialize (H Ha).
    destruct (reaches !! a) eqn:E; [|done]. apply Hex. eauto.
  - intros Hall. destruct forward_walk_total as (reach & edges & Hw); [intros; by apply Hall|].
    rewrite Hw. cbn [mbind Result_bind]. apply forward_walk_sound in Hw as (Hr & Hf & Hb).
    destruct (reverse_walk_total reach edges Hr Hf Hb) as (reaches & u & Hv). rewrite Hv.
    cbn [mbind Result_bind]. apply try_for_each_ok. intros a [Ha]%elem_of_btree_keys.
    destruct (proj2 (reverse_walk_exact _ _ Hr Hf Hb _ _ Hv a)) as [[] ->]; [|done].
    assert (rtc cfg 0%N a) by (apply Hr; eauto). split; [done|]. by apply Hall.
Qed.

(** ** The whole program *)

Lemma height_reached H a : height_typing H -> rtc cfg 0%N a -> is_Some (H !! a).
Proof.
  intros [H0 Hsol]. revert a. apply rtc_ind_r; [eauto|].
  intros a b _ (succs & (i & Hi & Hs) & Hb) [h Hh].
  destruct (Hsol a h Hh) as (edges & Hl & He).
  apply height_local_edges in Hl as (i' & succs' & Hi' & _ & _ & Hs' & ->).
  assert (i' = i) as -> by congruence. assert (succs' = succs) as -> by congruence.
  destruct (He (mkEdge (Ok tt) b (next_height h i))) as [_ Hx]; [|eauto].
  apply list_elem_of_fmap. eauto.
Qed.

Lemma height_edge_cfg a b : edge_rel (height_local p) a b -> cfg a b.
Proof.
  intros (h & edges & e & (i & succs & Hi & _ & _ & Hs & ->)%height_local_edges & He & <-).
  apply list_elem_of_fmap in He as (c & -> & Hc). exists succs. split; [by exists i | done].
Qed.

Lemma height_walk_reached H acc a : height_walk p = Ok (H, acc) -> is_Some (H !! a) -> rtc cfg 0%N a.
Proof.
  intros Hw. revert a. eapply (worklist_reachable _ _ _ _ _ (rtc cfg 0%N)); [| |exact Hw].
  - intros a b Ha Hab%height_edge_cfg. by eapply rtc_r.
  - intros a [? [<- _]%lookup_singleton_Some]. reflexivity.
Qed.

Lemma height_walk_bounded : bounded (height_walk p).
Proof.
  eapply (worklist_fuel _ _ _ _ _ (length p) (λ _, True)); try done.
  - intros a x edges _. apply height_local_range.
  - apply height_local_bounded.
  - intros a h e edges Hl He. by rewrite (height_edge_free a h e edges Hl He).
  - by apply fuel_inv_start.
Qed.

Lemma control_walk_bounded : bounded (control_walk p).
Proof.
  eapply (worklist_fuel _ _ _ _ _ (length p) (λ _, True)); try done.
  - intros a x edges _. apply control_local_range.
  - apply control_local_bounded.
  - intros a st e edges. apply control_edge_bounded.
  - by apply fuel_inv_start.
Qed.

Lemma forward_walk_bounded : bounded (forward_walk p).
Proof.
  eapply (worklist_fuel _ _ _ _ _ (length p) (λ _, True)); try done.
  - intros a x edges _. apply forward_local_range.
  - apply forward_local_bounded.
  - intros a u e edges (succs & _ & ->)%forward_local_ok [-> _]%elem_of_unit_edges. done.
  - by apply fuel_inv_start.
Qed.

Lemma terminal_reachability_bounded : bounded (verify_terminal_reachability p).
Proof.
  unfold verify_terminal_reachability. destruct (bool_decide _); [done|].
  apply bounded_bind; [apply forward_walk_bounded|].
  intros [reach edges] (Hr & Hf & Hb)%forward_walk_sound.
  destruct (reverse_walk_total reach edges Hr Hf Hb) as (reaches & u & ->). cbn [mbind Result_bind].
  apply bounded_for_each. intros a. by destruct (reaches !! a).
Qed.

Lemma verify_metadata_bounded md : bounded (verify_metadata p md).
Proof.
  unfold verify_metadata, table_addresses. bounded. unfold check_side_tables. bounded.
Qed.

End verifier_facts.
