(* ===== verification/KTrigger.v ===== *)
(** * Firing a guard preserves the K invariants

    The discharge argument the comments of [v2_trigger_guard_changes] give, as
    a proof: with coherent stacks and a fresh handler id, both branches leave a
    frame that satisfies K-1, K-2 and K-3. *)

From S2P Require Import Prelude RustStr Json Types Concurrency Platform Effects Transition Bindings KernelBase KernelScope KernelTick KernelCommands KernelApply ScopeFacts CancelWalk KInvariants.

Lemma effective_stack_cases f :
  effective_control_stack f = fiber_control_stack f ∨
  ∃ h, effective_control_stack f = fiber_control_stack f ++ [h].
Proof. unfold effective_control_stack. destruct (fiber_wait f); eauto. Qed.

Lemma effective_stack_lookup f i h :
  fiber_control_stack f !! i = Some h -> effective_control_stack f !! i = Some h.
Proof.
  intros Hi. destruct (effective_stack_cases f) as [->|[x ->]]; [done|].
  by apply lookup_app_l_Some.
Qed.

Lemma effective_stack_elem f h :
  h ∈ fiber_control_stack f -> h ∈ effective_control_stack f.
Proof. intros [i Hi]%list_elem_of_lookup. eapply list_elem_of_lookup_2, effective_stack_lookup, Hi. Qed.

(** A handle of the effective stack that is not on the control stack is the
    last one. *)
Lemma effective_stack_last f h :
  h ∈ effective_control_stack f -> h ∉ fiber_control_stack f ->
  ∀ i p, effective_control_stack f !! i = Some p ->
    p = h ∨ ∃ j, i < j ∧ effective_control_stack f !! j = Some h.
Proof.
  intros Hin Hni i p Hi. destruct (effective_stack_cases f) as [E|[x E]]; [by rewrite E in Hin|].
  rewrite E in *. apply elem_of_app in Hin as [?| ->%list_elem_of_singleton]; [done|].
  apply lookup_app_Some in Hi as [Hi|[Hle Hi]].
  - right. exists (length (fiber_control_stack f)). split; [by eapply lookup_lt_Some|].
    by rewrite lookup_app_r, Nat.sub_diag by lia.
  - left. apply list_lookup_singleton_Some in Hi as [_ ->]. done.
Qed.

(** What firing guard [rid] leaves behind. *)
Record fired (s : Snapshot) (hd : Uuid) (rid : RecordId) (interrupting : bool) (target : Addr)
    (F' : gmap N Fiber) (T' : gmap N ConcurrencyRecord) : Prop := {
  fired_K : K_inv F' T';
  fired_handler : F' !! hd =
    Some (set_control_stack (handler_stack s rid interrupting) (Fiber_new hd target));
  fired_bystanders : ∀ x, x ≠ hd -> (interrupting = true -> ¬ inside (sn_fibers s) rid x) ->
    F' !! x = sn_fibers s !! x;
  fired_cancelled : interrupting = true ->
    (∀ x, inside (sn_fibers s) rid x -> F' !! x = None) ∧
    (∀ h r, nested_in (sn_fibers s) rid h -> T' !! h = Some r -> rec_state r = Retired);
}.

Section trigger.
Context {P : Platform}.
Variables (s : Snapshot) (ctx : DeterministicContext).
Let F := sn_fibers s.
Let T := sn_table s.
Let hd := derived_id ctx 0.
Hypothesis Hkeyed : fibers_keyed F.
Hypothesis Htable : table_keyed T.
Hypothesis Hcoh : coherent F.
Hypothesis HK : K_inv F T.
Hypothesis Hfresh : F !! hd = None.

Lemma handler_stack_spec rid interrupting :
  handler_stack s rid interrupting = [] ∨
  ∃ fid f pos, F !! fid = Some f ∧ fiber_control_stack f !! pos = Some rid ∧
    handler_stack s rid interrupting =
      take (if interrupting then pos else S pos) (fiber_control_stack f).
Proof.
  unfold handler_stack. destruct (find_map _ _) as [st|] eqn:E; [right|by left].
  apply find_map_Some in E as (l1 & f & l2 & El & Ef & _).
  destruct (position _ (fiber_control_stack f)) as [pos|] eqn:Ep; [|done]. simplify_eq/=.
  apply position_Some in Ep as [(x & Hx & ->%N.eqb_eq) _].
  assert (f ∈ btree_values F) as [fid Hf]%elem_of_btree_values.
  { unfold F. rewrite El. set_solver. }
  by exists fid, f, pos.
Qed.

(** A handle inherited by the handler of an interrupting guard is held by a
    live fibre and lies above the guard. *)
Lemma handler_stack_above rid h :
  h ∈ handler_stack s rid true ->
  (∃ fid f, F !! fid = Some f ∧ h ∈ effective_control_stack f) ∧ ¬ nested_in F rid h.
Proof.
  intros Hin. destruct (handler_stack_spec rid true) as [E|(fid & f & pos & Hf & Hpos & E)];
    rewrite E in Hin; [set_solver|].
  apply list_elem_of_lookup in Hin as [i Hi]. apply lookup_take_Some in Hi as [Hi Hlt].
  apply effective_stack_lookup in Hi, Hpos.
  split; [exists fid, f; split; [done|]; by eapply list_elem_of_lookup_2|].
  destruct Hcoh as [path Hpath]. intros Hn.
  pose proof (stack_index s path Hpath _ _ _ _ Hf Hi).
  pose proof (stack_index s path Hpath _ _ _ _ Hf Hpos).
  destruct (nested_depth s path Hpath _ _ Hn) as [->|]; lia.
Qed.

(** The guard's own subtree: no fibre outside it carries one of its records. *)
Lemma nested_inside rid h fid f :
  nested_in F rid h -> F !! fid = Some f -> h ∈ effective_control_stack f -> inside F rid fid.
Proof.
  intros Hn Hf Hh. exists f. split; [done|]. destruct Hn as [->|(g & f' & i & j & Hg & Hij & Hi & Hj)]; [done|].
  destruct Hcoh as [path Hpath]. apply list_elem_of_lookup in Hh as [k Hk].
  pose proof (Hpath _ _ _ _ Hf Hk) as E. rewrite <-(Hpath _ _ _ _ Hg Hj) in E.
  assert (take j (effective_control_stack f') !! i = Some rid) as Hi'
    by (by rewrite lookup_take_lt).
  rewrite <-E in Hi'. apply lookup_take_Some in Hi' as [Hi' _]. by eapply list_elem_of_lookup_2.
Qed.

(** ** The interrupting branch *)

Section interrupting.
Variables (rid : RecordId) (target : Addr) (R : list RecordId) (L : list Uuid).
Hypothesis HW : walk_spec F rid R L.
Let stack := handler_stack s rid true.
Let handler := set_control_stack stack (Fiber_new hd target).

(** The changes up to the event. *)
Let c1 := push_event (EvFiberSpawned hd target None) (push_fiber handler Changes_default).
Let c2 := v2_reconcile_ancestor_membership s ((λ a, (a, MAdd hd)) <$> stack) ∅ c1.
Let c5 := push_job_cancels s L (push_deletes L (push_retires R c2)).
Let c6 := v2_reconcile_ancestor_membership s (removal_ops s L) (list_to_set R) c5.

Lemma trigger_armed h r :
  armed (staged_table s c6) h r ↔
  h ∉ R ∧ ∃ r0, armed T h r0 ∧
    r = apply_ops (ops_on h (removal_ops s L))
          (apply_ops (ops_on h ((λ a, (a, MAdd hd)) <$> stack)) r0).
Proof.
  assert (E2 : ∀ r, armed (staged_table s c2) h r ↔ ∃ r0, armed T h r0 ∧
    r = apply_ops (ops_on h ((λ a, (a, MAdd hd)) <$> stack)) r0).
  { intros r'. unfold c2. rewrite armed_reconcile by done. by rewrite decide_False by set_solver. }
  assert (E5 : staged_table s c5 = staged_table s (push_retires R c2)).
  { unfold c5, staged_table at 1.
    destruct (push_job_cancels_fields s L (push_deletes L (push_retires R c2))) as (-> & _).
    apply (staged_push_deletes s L (push_retires R c2)). }
  unfold c6. rewrite armed_reconcile, E5 by done.
  destruct (decide (h ∈ list_to_set R)) as [Hin|Hni].
  - rewrite armed_push_retires. set_solver.
  - rewrite elem_of_list_to_set in Hni. setoid_rewrite armed_push_retires.
    setoid_rewrite E2. naive_solver.
Qed.

Lemma trigger_members h r0 x :
  x ∈ members (apply_ops (ops_on h (removal_ops s L))
                 (apply_ops (ops_on h ((λ a, (a, MAdd hd)) <$> stack)) r0)) ↔
  (x ∈ members r0 ∨ (x = hd ∧ h ∈ stack)) ∧
  ¬ (x ∈ L ∧ ∃ f, F !! x = Some f ∧ h ∈ fiber_control_stack f).
Proof.
  rewrite members_removal, members_stack_adds. fold F. destruct (decide (h ∈ stack)); set_solver.
Qed.

Lemma trigger_live x :
  frame_fibers s c6 !! x =
  if decide (x ∈ L) then None else if decide (x = hd) then Some handler else F !! x.
Proof.
  unfold frame_fibers.
  assert (E : ch_fibers_upsert c6 = [handler] ∧ ch_fibers_delete c6 = L ∧ ch_cleanup c6 = None).
  { unfold c6.
    destruct (reconcile_fields s (removal_ops s L) (list_to_set R) c5) as (-> & -> & ->).
    unfold c5. destruct (push_job_cancels_fields s L (push_deletes L (push_retires R c2)))
      as (_ & -> & -> & ->).
    destruct (push_deletes_fields L (push_retires R c2)) as [-> ->].
    rewrite deletes_push_deletes.
    destruct (push_retires_fields R c2) as (-> & -> & ->). unfold c2.
    destruct (reconcile_fields s ((λ a, (a, MAdd hd)) <$> stack) ∅ c1) as (-> & -> & ->). done. }
  destruct E as (-> & -> & ->). cbn [default delete_all_fibers TerminalCleanup_default].
  rewrite lookup_apply_fiber_deltas. destruct (decide (x ∈ L)); [done|].
  rewrite filter_cons, filter_nil. fold F.
  destruct (decide (x = hd)) as [->|Hne].
  - by rewrite decide_True by done.
  - by rewrite decide_False by (cbn; congruence).
Qed.

Lemma trigger_dead_in_F x : x ∈ L -> is_Some (F !! x).
Proof. intros Hx. apply (walk_fibers _ _ _ _ HW) in Hx as (f & Hf & _). eauto. Qed.

Lemma trigger_handler_survives : hd ∉ L.
Proof. intros [? E]%trigger_dead_in_F. congruence. Qed.

(** Armed records after the firing are armed records before it, minus the
    subtree, with the handler added above and the dead fibres dropped. *)
Lemma trigger_armed_inv h r :
  staged_table s c6 !! h = Some r -> rec_state r = Armed ->
  h ∉ R ∧ ∃ r0, T !! h = Some r0 ∧ rec_state r0 = Armed ∧ rec_kind r = rec_kind r0 ∧
    rec_counters r = rec_counters r0 ∧
    ∀ x, x ∈ members r ↔ (x ∈ members r0 ∨ (x = hd ∧ h ∈ stack)) ∧
      ¬ (x ∈ L ∧ ∃ f, F !! x = Some f ∧ h ∈ fiber_control_stack f).
Proof.
  intros Hr Ha. destruct (proj1 (trigger_armed h r) (conj Hr Ha)) as (HnR & r0 & [Hr0 Ha0] & ->).
  split; [done|]. exists r0.
  destruct (apply_ops_fields (ops_on h (removal_ops s L))
    (apply_ops (ops_on h ((λ a, (a, MAdd hd)) <$> stack)) r0)) as (_ & _ & -> & ->).
  destruct (apply_ops_fields (ops_on h ((λ a, (a, MAdd hd)) <$> stack)) r0) as (_ & _ & -> & ->).
  split_and!; try done. apply trigger_members.
Qed.

Lemma trigger_armed_keep h r0 x :
  h ∉ R -> T !! h = Some r0 -> rec_state r0 = Armed -> x ∉ L ->
  x ∈ members r0 ∨ (x = hd ∧ h ∈ stack) ->
  ∃ r, staged_table s c6 !! h = Some r ∧ rec_state r = Armed ∧ x ∈ members r.
Proof.
  intros HnR Hr0 Ha0 HxL Hm.
  destruct (proj2 (trigger_armed h _) (conj HnR (ex_intro _ r0 (conj (conj Hr0 Ha0) eq_refl))))
    as [Hr Ha].
  eexists. split; [exact Hr|]. split; [exact Ha|]. apply trigger_members. tauto.
Qed.

Lemma trigger_K1 : K1 (frame_fibers s c6) (staged_table s c6).
Proof.
  destruct HK as (HK1 & HK2 & _). intros h r m Hr Ha Hm. rewrite trigger_live.
  destruct (trigger_armed_inv _ _ Hr Ha) as (HnR & r0 & Hr0 & Ha0 & _ & _ & Hmem).
  apply Hmem in Hm as [[Hm|[-> _]] Hnrem].
  - destruct (HK1 _ _ _ Hr0 Ha0 Hm) as [f Hf].
    assert (Hh : h ∈ effective_control_stack f) by (apply (HK2 _ _ _ Hf); eauto).
    destruct (decide (m ∈ L)) as [HmL|]; [exfalso|destruct (decide (m = hd)); eauto].
    apply HnR, (walk_records _ _ _ _ HW).
    destruct (proj1 (walk_fibers _ _ _ _ HW m) HmL) as (f' & Hf' & [i Hi]%list_elem_of_lookup).
    simplify_eq.
    destruct (effective_stack_last _ _ Hh) with (2 := Hi) as [->|(j & Hij & Hj)].
    + intros Hcs. apply Hnrem. eauto.
    + by left.
    + right. by exists m, f, i, j.
  - rewrite decide_False, decide_True by (done || apply trigger_handler_survives). eauto.
Qed.

Lemma trigger_K2 : K2 (frame_fibers s c6) (staged_table s c6).
Proof.
  destruct HK as (HK1 & HK2 & _). intros x f h. rewrite trigger_live.
  destruct (decide (x ∈ L)) as [|HxL]; [done|]. destruct (decide (x = hd)) as [->|Hne].
  - intros [= <-]. change (effective_control_stack handler) with stack. split.
    + intros Hh. destruct (handler_stack_above _ _ Hh) as [(fid & f & Hf & Hin) Hnn].
      apply (HK2 _ _ _ Hf) in Hin as (r0 & Hr0 & Ha0 & _).
      apply (trigger_armed_keep h r0); [|done|done|done|by right].
      intros HR. by apply Hnn, (walk_records _ _ _ _ HW).
    + intros (r & Hr & Ha & Hm).
      destruct (trigger_armed_inv _ _ Hr Ha) as (_ & r0 & Hr0 & Ha0 & _ & _ & Hmem).
      destruct (proj1 (Hmem _) Hm) as [[Hm'|[_ Hs]] _]; [|done].
      destruct (HK1 _ _ _ Hr0 Ha0 Hm'). congruence.
  - intros Hf. split.
    + intros Hh. destruct (proj1 (HK2 _ _ h Hf) Hh) as (r0 & Hr0 & Ha0 & Hm).
      apply (trigger_armed_keep h r0); [|done|done|done|by left].
      intros HR%(walk_records _ _ _ _ HW). apply HxL, (walk_fibers _ _ _ _ HW).
      by eapply nested_inside.
    + intros (r & Hr & Ha & Hm). apply (HK2 _ _ h Hf).
      destruct (trigger_armed_inv _ _ Hr Ha) as (_ & r0 & Hr0 & Ha0 & _ & _ & Hmem).
      destruct (proj1 (Hmem _) Hm) as [[Hm'|[Hx _]] _]; [eauto | done].
Qed.

Lemma trigger_K3 : K3 (staged_table s c6).
Proof.
  destruct HK as (_ & _ & HK3). intros h r Hr Ha Hb.
  destruct (trigger_armed_inv _ _ Hr Ha) as (_ & r0 & Hr0 & Ha0 & Ek & -> & _).
  rewrite Ek in Hb. by eapply HK3.
Qed.

Lemma trigger_interrupting_K : K_inv (frame_fibers s c6) (staged_table s c6).
Proof. split_and!; [apply trigger_K1 | apply trigger_K2 | apply trigger_K3]. Qed.

Lemma trigger_fired :
  fired s hd rid true target (frame_fibers s c6) (staged_table s c6).
Proof.
  split; [apply trigger_interrupting_K| | |].
  - rewrite trigger_live. by rewrite decide_False, decide_True by auto using trigger_handler_survives.
  - intros x Hne Hin. rewrite trigger_live, decide_False, decide_False; [done|done|].
    rewrite (walk_fibers _ _ _ _ HW). by apply Hin.
  - intros _. split.
    + intros x Hx%(walk_fibers _ _ _ _ HW). by rewrite trigger_live, decide_True.
    + intros h r Hn%(walk_records _ _ _ _ HW) Hr. destruct (rec_state r) eqn:E; [|done].
      by destruct (trigger_armed_inv h r Hr E).
Qed.
End interrupting.

(** ** The non-interrupting branch *)

Section non_interrupting.
Variables (rid : RecordId) (target : Addr).
Let stack := handler_stack s rid false.
Let handler := set_control_stack stack (Fiber_new hd target).
Let c1 := push_event (EvFiberSpawned hd target None) (push_fiber handler Changes_default).
Let c2 := v2_reconcile_ancestor_membership s ((λ a, (a, MAdd hd)) <$> stack) ∅ c1.

Lemma triggern_armed h r :
  armed (staged_table s c2) h r ↔ ∃ r0, armed T h r0 ∧
    r = apply_ops (ops_on h ((λ a, (a, MAdd hd)) <$> stack)) r0.
Proof. unfold c2. rewrite armed_reconcile by done. by rewrite decide_False by set_solver. Qed.

Lemma triggern_live x :
  frame_fibers s c2 !! x = if decide (x = hd) then Some handler else F !! x.
Proof.
  unfold frame_fibers, c2.
  destruct (reconcile_fields s ((λ a, (a, MAdd hd)) <$> stack) ∅ c1) as (-> & -> & ->).
  cbn [default delete_all_fibers TerminalCleanup_default ch_cleanup c1 push_event push_fiber].
  change (ch_fibers_upsert c1) with [handler]. change (ch_fibers_delete c1) with (@nil N).
  change (delete_all_fibers (default TerminalCleanup_default (ch_cleanup c1))) with false.
  rewrite lookup_apply_fiber_deltas, decide_False by set_solver.
  rewrite filter_cons, filter_nil. fold F. destruct (decide (x = hd)) as [->|Hne].
  - by rewrite decide_True by done.
  - by rewrite decide_False by (cbn; congruence).
Qed.

Lemma handler_stack_held h :
  h ∈ stack -> ∃ fid f, F !! fid = Some f ∧ h ∈ effective_control_stack f.
Proof.
  intros Hin. destruct (handler_stack_spec rid false) as [E|(fid & f & pos & Hf & _ & E)];
    fold stack in E; rewrite E in Hin; [set_solver|].
  exists fid, f. split; [done|]. apply effective_stack_elem.
  apply list_elem_of_lookup in Hin as [i [Hi _]%lookup_take_Some]. by eapply list_elem_of_lookup_2.
Qed.

Lemma trigger_non_interrupting_K : K_inv (frame_fibers s c2) (staged_table s c2).
Proof.
  destruct HK as (HK1 & HK2 & HK3).
  assert (Hmem : ∀ h r0 x, x ∈ members (apply_ops (ops_on h ((λ a, (a, MAdd hd)) <$> stack)) r0)
    ↔ x ∈ members r0 ∨ (x = hd ∧ h ∈ stack)).
  { intros h r0 x. rewrite members_stack_adds. destruct (decide (h ∈ stack)); set_solver. }
  split_and!.
  - intros h r m Hr Ha. destruct (proj1 (triggern_armed h r) (conj Hr Ha)) as (r0 & [Hr0 Ha0] & ->).
    rewrite Hmem, triggern_live. intros [Hm|[-> _]]; [|rewrite decide_True by done; eauto].
    destruct (decide (m = hd)); eauto.
  - intros x f h. rewrite triggern_live. destruct (decide (x = hd)) as [->|Hne].
    + intros [= <-]. change (effective_control_stack handler) with stack. split.
      * intros Hh. destruct (handler_stack_held _ Hh) as (fid & f & Hf & Hin).
        apply (HK2 _ _ _ Hf) in Hin as (r0 & Hr0 & Ha0 & _).
        destruct (proj2 (triggern_armed h _) (ex_intro _ r0 (conj (conj Hr0 Ha0) eq_refl)))
          as [Hr Ha]. eexists. split; [exact Hr|]. split; [exact Ha|]. apply Hmem. by right.
      * intros (r & Hr & Ha & Hm).
        destruct (proj1 (triggern_armed h r) (conj Hr Ha)) as (r0 & [Hr0 Ha0] & ->).
        apply Hmem in Hm as [Hm|[_ ?]]; [|done]. destruct (HK1 _ _ _ Hr0 Ha0 Hm). congruence.
    + intros Hf. rewrite (HK2 _ _ h Hf). split.
      * intros (r0 & Hr0 & Ha0 & Hm).
        destruct (proj2 (triggern_armed h _) (ex_intro _ r0 (conj (conj Hr0 Ha0) eq_refl)))
          as [Hr Ha]. eexists. split; [exact Hr|]. split; [exact Ha|]. apply Hmem. by left.
      * intros (r & Hr & Ha & Hm).
        destruct (proj1 (triggern_armed h r) (conj Hr Ha)) as (r0 & [Hr0 Ha0] & ->).
        apply Hmem in Hm as [Hm|[? _]]; [eauto | done].
  - intros h r Hr Ha Hb. destruct (proj1 (triggern_armed h r) (conj Hr Ha)) as (r0 & [Hr0 Ha0] & ->).
    destruct (apply_ops_fields (ops_on h ((λ a, (a, MAdd hd)) <$> stack)) r0) as (_ & _ & Ek & ->).
    rewrite Ek in Hb. by eapply HK3.
Qed.

Lemma triggern_fired :
  fired s hd rid false target (frame_fibers s c2) (staged_table s c2).
Proof.
  split; [apply trigger_non_interrupting_K| | |done].
  - by rewrite triggern_live, decide_True.
  - intros x Hne _. by rewrite triggern_live, decide_False.
Qed.
End non_interrupting.
End trigger.
