(* ===== verification/KTick.v ===== *)
(** * Every instruction preserves the K invariants

    The invariant of the interpreter loop: the frame the tick would commit if
    it parked now satisfies K-1, K-2 and K-3.  Each instruction preserves it
    under the side condition [step_ok], which says what the verifier and the
    identifier scheme guarantee: fresh ids, and scopes closed by their last
    holder. *)

From S2P Require Import Prelude RustStr Json Types Concurrency Platform Effects Transition Bindings KernelBase KernelScope KernelTick KernelCommands KernelApply ScopeFacts CancelWalk KInvariants KTrigger.

Section tick_k.
Context {P : Platform}.
Variables (w : ExecutableWorkflow) (s : Snapshot) (ctx : DeterministicContext).
Let F := sn_fibers s.
Let T := sn_table s.
Hypothesis Hkeyed : fibers_keyed F.
Hypothesis Htable : table_keyed T.

(** The stacks of the fibres the tick has not deleted. *)
Definition base_stacks (dels : list Uuid) : gmap N (list N) :=
  foldl (λ m id, delete id m) (effective_control_stack <$> sn_fibers s) dels.

Lemma lookup_base_stacks dels x :
  base_stacks dels !! x =
  if decide (x ∈ dels) then None else effective_control_stack <$> F !! x.
Proof. unfold base_stacks. by rewrite foldl_delete_lookup, lookup_fmap. Qed.

(** The stacks if the running fibre held exactly [st]. *)
Definition stacks_with (ts : TickState) (st : list RecordId) : gmap N (list N) :=
  <[fiber_id (ts_fiber ts) := st]> (base_stacks (ch_fibers_delete (ts_changes ts))).

Definition staged (ts : TickState) : gmap N ConcurrencyRecord := staged_table s (ts_changes ts).

(** The tick has staged no upsert, no terminal cleanup, and runs a live fibre
    it has not deleted. *)
Record tick_core (ts : TickState) : Prop := {
  tc_upsert : ch_fibers_upsert (ts_changes ts) = [];
  tc_cleanup : ch_cleanup (ts_changes ts) = None;
  tc_live : is_Some (F !! fiber_id (ts_fiber ts));
  tc_self : fiber_id (ts_fiber ts) ∉ ch_fibers_delete (ts_changes ts);
}.

Record tick_inv (ts : TickState) : Prop := {
  ti_core : tick_core ts;
  ti_wait : fiber_wait (ts_fiber ts) = WRunning;
  ti_nodup : NoDup (fiber_control_stack (ts_fiber ts));
  ti_KS : KS (stacks_with ts (fiber_control_stack (ts_fiber ts))) (staged ts);
}.

(** What an outcome must satisfy. *)
Definition frame_K (t : Transition) : Prop :=
  let '(fibers, table) := derive_post_transition_frame s t in K_inv fibers table.
Definition outcome_ok (o : StepOutcome) : Prop :=
  match o with Continue ts => tick_inv ts | Return t => frame_K t end.

(** ** Moving between states with the same scopes *)

(** Same fibre, same stack, same scope deltas. *)
Definition same_scopes (ts ts' : TickState) : Prop :=
  fiber_id (ts_fiber ts') = fiber_id (ts_fiber ts) ∧
  fiber_control_stack (ts_fiber ts') = fiber_control_stack (ts_fiber ts) ∧
  fiber_wait (ts_fiber ts') = fiber_wait (ts_fiber ts) ∧
  ch_fibers_upsert (ts_changes ts') = ch_fibers_upsert (ts_changes ts) ∧
  ch_fibers_delete (ts_changes ts') = ch_fibers_delete (ts_changes ts) ∧
  ch_cleanup (ts_changes ts') = ch_cleanup (ts_changes ts) ∧
  ch_concurrency_mutations (ts_changes ts') = ch_concurrency_mutations (ts_changes ts).

Lemma tick_inv_scopes ts ts' : same_scopes ts ts' -> tick_inv ts -> tick_inv ts'.
Proof.
  intros (Eid & Est & Ew & Eu & Ed & Ec & Em) [[Hu Hc Hl Hs] Hw Hn HK].
  split; [split|..].
  - by rewrite Eu.
  - by rewrite Ec.
  - by rewrite Eid.
  - by rewrite Eid, Ed.
  - by rewrite Ew.
  - by rewrite Est.
  - unfold stacks_with, staged, staged_table in *. by rewrite Eid, Est, Ed, Em.
Qed.

(** The committed frame of a parked fibre. *)
Lemma park_frame ts :
  tick_core ts ->
  KS (stacks_with ts (effective_control_stack (ts_fiber ts))) (staged ts) ->
  outcome_ok (park ts).
Proof.
  intros [Hu Hc Hl Hs] HK. unfold park, outcome_ok, frame_K. rewrite derive_frame_finish.
  apply K_inv_stacks.
  change (staged_table s (push_fiber (ts_fiber ts) (ts_changes ts))) with (staged ts).
  replace (effective_control_stack <$> _)
    with (stacks_with ts (effective_control_stack (ts_fiber ts))); [done|].
  apply map_eq; intros x. unfold frame_fibers, stacks_with. cbn. rewrite Hc, Hu. cbn.
  rewrite lookup_fmap, foldl_delete_lookup.
  destruct (decide (x = fiber_id (ts_fiber ts))) as [->|Hne].
  - by rewrite lookup_insert_eq, decide_False, lookup_insert_eq by done.
  - rewrite !lookup_insert_ne, lookup_base_stacks by done. by destruct (decide _).
Qed.

Lemma park_wait_ok ts wait :
  tick_inv ts -> (∀ f, effective_control_stack (set_wait wait f) = fiber_control_stack f) ->
  outcome_ok (park (on_fiber (set_wait wait) ts)).
Proof.
  intros [[Hu Hc Hl Hs] Hw Hn HK] He. apply park_frame; [by split|]. cbn. by rewrite He.
Qed.

Lemma fail_contract_ok ts message t :
  tick_inv ts ->
  fail_contract (ts_instance ts) (ts_fiber ts) (ts_changes ts) ctx message = Ok t -> frame_K t.
Proof.
  intros HI H. unfold fail_contract in H. apply bind_ok_inv in H as (created & _ & [= <-]).
  match goal with |- frame_K (finish (push_fiber ?f ?c) ?i) =>
    apply (park_frame (mkTick f i c 0 [])) end.
  - destruct HI as [[Hu Hc Hl Hs] Hw Hn HK]. by split.
  - destruct HI as [_ _ _ HK]. exact HK.
Qed.

(** ** Side conditions *)

Definition fresh_record (ts : TickState) (id : RecordId) : Prop := staged ts !! id = None.

(** The ids a fork allocates: the barrier, then one per child. *)
Fixpoint fork_ids (ordinal : N) (targets : list Addr) : list Uuid :=
  match targets with
  | [] => []
  | _ :: rest => derived_id ctx ordinal :: fork_ids (sat_add u32_max ordinal 1) rest
  end.

(** The running fibre is the only live holder of its innermost scope. *)
Definition closes_alone (ts : TickState) : Prop :=
  ∀ st h r m, fiber_control_stack (ts_fiber ts) = st ++ [h] -> armed (staged ts) h r ->
    m ∈ members r -> m = fiber_id (ts_fiber ts).

(** At the last arrival every other member waits at this barrier. *)
Definition others_arrived (ts : TickState) : Prop :=
  ∀ st h r m, fiber_control_stack (ts_fiber ts) = st ++ [h] -> armed (staged ts) h r ->
    (count (rec_counters r) <= 1)%N -> m ∈ members r -> m ≠ fiber_id (ts_fiber ts) ->
    ∃ f, F !! m = Some f ∧ fiber_wait f = WV2Barrier h.

Definition step_ok (ts : TickState) (i : Instr) : Prop :=
  match i with
  | IV2Guard _ | IV2GuardN _ | IV2GuardR | IV2RaceOpen _ =>
      fresh_record ts (derived_id ctx (ts_ordinal ts))
  | IV2GuardEnd | IV2GuardNEnd | IV2GuardREnd => closes_alone ts
  | IV2Fork targets _ =>
      fresh_record ts (derived_id ctx (ts_ordinal ts)) ∧ targets ≠ [] ∧
      (len targets < 2 ^ 32)%N ∧
      ∀ x, x ∈ fork_ids (sat_add u32_max (ts_ordinal ts) 1) targets ->
        F !! x = None ∧ x ∉ ch_fibers_delete (ts_changes ts)
  | IV2Join _ => others_arrived ts
  | IV2CancelScope => coherent F ∧
      ∀ st h x, fiber_control_stack (ts_fiber ts) = st ++ [h] -> x ∈ st -> ¬ nested_in F h x
  | IEnd => fiber_control_stack (ts_fiber ts) = []
  | _ => True
  end.

(** ** Instructions that touch no scope *)

Lemma pop_value_inv what ts ts' v :
  pop_value what ts = Ok (ts', v) -> same_scopes ts ts'.
Proof.
  unfold pop_value. destruct (vec_pop _) as [[rest x]|]; [|done]. by intros [= <- <-].
Qed.

(** Chain the same-scope steps of an arm. *)
Lemma same_scopes_trans ts1 ts2 ts3 :
  same_scopes ts1 ts2 -> same_scopes ts2 ts3 -> same_scopes ts1 ts3.
Proof. unfold same_scopes. intuition congruence. Qed.

Lemma park_on_timer_ok deadline ts : tick_inv ts -> outcome_ok (park_on_timer deadline ts).
Proof.
  intros HI. unfold park_on_timer. apply park_frame.
  - destruct HI as [[Hu Hc Hl Hs] Hw Hn HK]. by split.
  - destruct HI as [_ _ _ HK]. exact HK.
Qed.

Lemma invoke_ffi_inv decl e1 e2 tid ts ts' id :
  invoke_ffi w decl e1 e2 tid ts = Ok (ts', id) -> same_scopes ts ts'.
Proof. unfold invoke_ffi. intros H. result_inv. done. Qed.

(** Finish an arm that only moves the program counter, the operand stack, the
    instance or the event and effect lists. *)
Ltac keep_scopes :=
  repeat match goal with
  | H : Ok _ = Ok _ |- _ => injection H as <-
  | H : pop_value _ _ = Ok _ |- _ => apply pop_value_inv in H
  | H : invoke_ffi _ _ _ _ _ _ = Ok _ |- _ => apply invoke_ffi_inv in H
  end;
  first
    [ eapply tick_inv_scopes; [|eassumption]; done
    | eapply tick_inv_scopes; [|eassumption]; eapply same_scopes_trans; [eassumption | done] ].

Lemma exec_push_ok v ts o : tick_inv ts -> exec_push v ts = Ok o -> outcome_ok o.
Proof. intros HI [= <-]. keep_scopes. Qed.

Lemma exec_branch_ok b target ts o :
  tick_inv ts -> exec_branch b target ts = Ok o -> outcome_ok o.
Proof.
  unfold exec_branch. intros HI H. apply bind_ok_inv in H as ([ts' v] & Hp & [= <-]).
  case_bool_decide; keep_scopes.
Qed.

Lemma exec_native_ok task_type retc ts o :
  tick_inv ts -> exec_native w s task_type retc ts = Ok o -> outcome_ok o.
Proof.
  unfold exec_native. intros HI H. apply bind_ok_inv in H as (task & _ & H).
  destruct (sn_dedupe s !! _).
  - apply bind_ok_inv in H as (i & _ & [= <-]). keep_scopes.
  - injection H as <-. unfold activate_job. apply park_frame.
    + destruct HI as [[Hu Hc Hl Hs] Hw Hn HK]. by split.
    + destruct HI as [_ _ _ HK]. exact HK.
Qed.

Lemma exec_dsl_task_ok task_type produces ts o :
  tick_inv ts -> exec_dsl_task w s task_type produces ts = Ok o -> outcome_ok o.
Proof.
  unfold exec_dsl_task. intros HI H. apply bind_ok_inv in H as (task & _ & H).
  destruct (sn_dedupe s !! _).
  - apply bind_ok_inv in H as (i & _ & H). apply bind_ok_inv in H as (i' & _ & [= <-]).
    keep_scopes.
  - injection H as <-. unfold activate_job. apply park_frame.
    + destruct HI as [[Hu Hc Hl Hs] Hw Hn HK]. by split.
    + destruct HI as [_ _ _ HK]. exact HK.
Qed.

Lemma exec_wait_msg_ok name ts o :
  tick_inv ts -> exec_wait_msg w s name ts = Ok o -> outcome_ok o.
Proof.
  unfold exec_wait_msg. intros HI H. apply bind_ok_inv in H as (key & _ & H).
  destruct (list_find _ _) as [[n m]|].
  - apply bind_ok_inv in H as (i & _ & [= <-]). keep_scopes.
  - injection H as <-. apply park_frame.
    + destruct HI as [[Hu Hc Hl Hs] Hw Hn HK]. by split.
    + destruct HI as [_ _ _ HK]. exact HK.
Qed.

(** The arms that touch neither a record nor a control stack. *)
Definition scope_free (i : Instr) : bool :=
  match i with
  | IV2Guard _ | IV2GuardN _ | IV2GuardR | IV2RaceOpen _ | IV2GuardEnd | IV2GuardNEnd
  | IV2GuardREnd | IV2Fork _ _ | IV2Join _ | IV2CancelScope | IV2RaceClose
  | IV2GuardArmError _ _ | IEnd | IEndTerminate => false
  | _ => true
  end.

(** Peel the fallible reads of an arm, then keep the scopes or park. *)
Ltac peel H :=
  repeat match type of H with
  | (_ ≫= _) = Ok _ =>
      let x := fresh "x" in let E := fresh "E" in
      apply bind_ok_inv in H as (x & E & H); try destruct x as [? ?]
  end.

Ltac arm :=
  let HI := fresh "HI" in let H := fresh "H" in
  intros HI H; peel H; try (injection H as <-); keep_scopes.

Lemma exec_pop_ok ts o : tick_inv ts -> exec_pop ts = Ok o -> outcome_ok o.
Proof. unfold exec_pop. arm. Qed.

Lemma exec_store_flag_ok key ts o : tick_inv ts -> exec_store_flag key ts = Ok o -> outcome_ok o.
Proof. unfold exec_store_flag. arm. Qed.

Lemma exec_arm_timer_ok target ts o :
  tick_inv ts -> exec_arm_timer ctx target ts = Ok o -> outcome_ok o.
Proof. unfold exec_arm_timer. arm. Qed.

Lemma exec_guard_arm_timer_ok ts o :
  tick_inv ts -> exec_guard_arm_timer s ctx ts = Ok o -> outcome_ok o.
Proof. unfold exec_guard_arm_timer. arm. Qed.

Lemma exec_mi_load_element_ok flag index ts o :
  tick_inv ts -> exec_mi_load_element flag index ts = Ok o -> outcome_ok o.
Proof. unfold exec_mi_load_element, exec_push. arm. Qed.

Lemma exec_mi_arity_check_ok flag max ts o :
  tick_inv ts -> exec_mi_arity_check flag max ts = Ok o -> outcome_ok o.
Proof. unfold exec_mi_arity_check. cbv zeta. destruct (_ <? _)%Z; [done | arm]. Qed.

Lemma exec_br_counter_lt_ok k limit target ts o :
  tick_inv ts -> exec_br_counter_lt k limit target ts = Ok o -> outcome_ok o.
Proof. unfold exec_br_counter_lt. destruct (_ <? _)%N; arm. Qed.

Lemma exec_arm_msg_ok target name ts o :
  tick_inv ts -> exec_arm_msg w target name ts = Ok o -> outcome_ok o.
Proof. unfold exec_arm_msg. arm. Qed.

Lemma exec_arm_effect_ok target tid ts o :
  tick_inv ts -> exec_arm_effect w target tid ts = Ok o -> outcome_ok o.
Proof. unfold exec_arm_effect. arm. Qed.

Lemma exec_publish_message_ok name ts o :
  tick_inv ts -> exec_publish_message w ctx name ts = Ok o -> outcome_ok o.
Proof. unfold exec_publish_message. arm. Qed.

Lemma exec_guard_timer_cycle_ok n ts o :
  tick_inv ts -> exec_guard_timer_cycle n ts = Ok o -> outcome_ok o.
Proof.
  unfold exec_guard_timer_cycle. destruct (vec_pop _) as [[rest e]|]; [|done].
  destruct e as [id f due [| | |r] [spec|]|]; try done. arm.
Qed.

Lemma exec_wait_for_ok ts o : tick_inv ts -> exec_wait_for ctx ts = Ok o -> outcome_ok o.
Proof.
  unfold exec_wait_for. intros HI H. peel H. injection H as <-. apply park_on_timer_ok. keep_scopes.
Qed.

Lemma exec_wait_until_ok ts o : tick_inv ts -> exec_wait_until ts = Ok o -> outcome_ok o.
Proof.
  unfold exec_wait_until. intros HI H. peel H. injection H as <-. apply park_on_timer_ok. keep_scopes.
Qed.

Lemma exec_ffi_ok tid ts o : tick_inv ts -> exec_ffi w tid ts = Ok o -> outcome_ok o.
Proof.
  unfold exec_ffi. intros HI H. peel H. injection H as <-. apply park_wait_ok; [keep_scopes | done].
Qed.

Lemma exec_await_effect_ok tid ts o :
  tick_inv ts -> exec_await_effect w tid ts = Ok o -> outcome_ok o.
Proof.
  unfold exec_await_effect. intros HI H. peel H. injection H as <-.
  apply park_wait_ok; [keep_scopes | done].
Qed.

Lemma exec_route_zero_match_ok ts o :
  tick_inv ts -> exec_route_zero_match w ctx ts = Ok o -> outcome_ok o.
Proof.
  unfold exec_route_zero_match. intros HI H. apply bind_ok_inv in H as (t & E & [= <-]).
  by eapply fail_contract_ok.
Qed.

Lemma exec_fail_ok code ts o : tick_inv ts -> exec_fail ctx code ts = Ok o -> outcome_ok o.
Proof.
  unfold exec_fail. intros HI H. apply bind_ok_inv in H as (t & E & [= <-]).
  by eapply fail_contract_ok.
Qed.

Lemma exec_route_payload_ok branches d ts o :
  tick_inv ts -> exec_route_payload w ctx branches d ts = Ok o -> outcome_ok o.
Proof.
  unfold exec_route_payload. intros HI H. destruct (match find_map _ _ with Some _ => _ | None => _ end).
  - injection H as <-. keep_scopes.
  - apply bind_ok_inv in H as (t & E & [= <-]). by eapply fail_contract_ok.
Qed.

Lemma scope_free_ok i ts o :
  scope_free i = true -> tick_inv ts -> exec_instr w s ctx i ts = Ok o -> outcome_ok o.
Proof.
  intros Hfree HI H. destruct i; try discriminate Hfree; cbn [exec_instr] in H;
    unfold exec_load_flag, exec_load_placeholder_match, exec_mi_index_live in H;
    eauto using exec_branch_ok, exec_push_ok, exec_native_ok, exec_dsl_task_ok, exec_wait_msg_ok,
      exec_pop_ok, exec_store_flag_ok, exec_arm_timer_ok, exec_guard_arm_timer_ok,
      exec_mi_load_element_ok, exec_mi_arity_check_ok, exec_br_counter_lt_ok, exec_arm_msg_ok,
      exec_arm_effect_ok, exec_publish_message_ok, exec_guard_timer_cycle_ok, exec_wait_for_ok,
      exec_wait_until_ok, exec_ffi_ok, exec_await_effect_ok, exec_route_zero_match_ok,
      exec_fail_ok, exec_route_payload_ok.
  all: injection H as <-; keep_scopes.
Qed.

(** ** Opening scopes *)

Lemma stacks_with_self ts st : stacks_with ts st !! fiber_id (ts_fiber ts) = Some st.
Proof. apply lookup_insert_eq. Qed.

Lemma open_record_ok mk ev ts :
  let id := derived_id ctx (ts_ordinal ts) in
  tick_inv ts -> fresh_record ts id -> rec_id (mk id) = id -> rec_state (mk id) = Armed ->
  members (mk id) = ∅ -> rec_kind (mk id) ≠ KBarrier ->
  tick_inv (open_record ctx mk ev ts).
Proof.
  intros id [[Hu Hc Hl Hs] Hw Hn HK] Hfresh Hid Ha Hm Hk.
  set (f := ts_fiber ts) in *.
  assert (Hnin : id ∉ fiber_control_stack f).
  { eapply (KS_fresh _ _ (fiber_id f)); [exact HK|exact Hfresh|].
    unfold stacks_with. by rewrite lookup_insert_eq. }
  split; [by split | done | |].
  - cbn. apply NoDup_app. split_and!; [done| |by apply NoDup_singleton].
    intros x Hx ->%list_elem_of_singleton. done.
  - assert (Et : staged (open_record ctx mk ev ts) =
      table_insert (add_member (fiber_id f) (mk id)) (staged ts)).
    { unfold staged, staged_table. cbn. by rewrite apply_mutations_app. }
    rewrite Et.
    pose proof (KS_open _ _ (fiber_id f) _ (add_member (fiber_id f) (mk id)) HK
      (stacks_with_self _ _)) as Hopen.
    unfold stacks_with in Hopen. cbn in Hopen. rewrite Hid, Hm, insert_insert_eq in Hopen.
    unfold table_insert. change (rec_id (add_member (fiber_id f) (mk id))) with (rec_id (mk id)).
    rewrite Hid. apply Hopen; [exact Hfresh|done|set_solver|done].
Qed.

Lemma exec_open_ok i ts o :
  match i with IV2Guard _ | IV2GuardN _ | IV2GuardR | IV2RaceOpen _ => True | _ => False end ->
  step_ok ts i -> tick_inv ts -> exec_instr w s ctx i ts = Ok o -> outcome_ok o.
Proof.
  destruct i; try done; intros _ Hfresh HI [= <-];
    match goal with |- context [open_record ctx ?mk ?ev ts] =>
      apply (tick_inv_scopes (open_record ctx mk ev ts)); [done|]; apply open_record_ok
    end; done || by intros ?.
Qed.

(** ** Closing scopes *)

Lemma pop_handle_inv what ts ts' h :
  pop_handle what ts = Ok (ts', h) ->
  ∃ st, fiber_control_stack (ts_fiber ts) = st ++ [h] ∧
    ts' = on_changes (push_delta (CSPop (fiber_id (ts_fiber ts)) h))
            (on_fiber (set_control_stack st) ts).
Proof.
  unfold pop_handle. destruct (vec_pop _) as [[st x]|] eqn:E; [|done].
  intros [= <- <-]. apply vec_pop_Some in E. eauto.
Qed.

Lemma NoDup_snoc_inv {A} (l : list A) x : NoDup (l ++ [x]) -> NoDup l ∧ x ∉ l.
Proof. intros (H1 & H2 & _)%NoDup_app. split; [done|]. intros Hx. apply (H2 x Hx). by left. Qed.

Lemma exec_guard_end_ok what ts o :
  closes_alone ts -> tick_inv ts -> exec_guard_end what ts = Ok o -> outcome_ok o.
Proof.
  unfold exec_guard_end. intros Hsole [[Hu Hc Hl Hs] Hw Hn HK] H.
  apply bind_ok_inv in H as ([ts' h] & Hp & [= <-]).
  apply pop_handle_inv in Hp as (st & Est & ->). rewrite Est in Hn, HK.
  apply NoDup_snoc_inv in Hn as [Hn Hnin].
  split; [by split | done | done |].
  match goal with |- KS _ ?t => assert (Et : t = apply_mutation (staged ts) (CMRetire h))
    by (unfold staged, staged_table; cbn; by rewrite apply_mutations_app) end.
  rewrite Et. unfold stacks_with. cbn.
  pose proof (KS_close _ _ (fiber_id (ts_fiber ts)) st h HK (stacks_with_self _ _) Hnin) as Hclose.
  unfold stacks_with in Hclose. rewrite insert_insert_eq in Hclose.
  apply Hclose. intros r m Ha Hm. by eapply Hsole.
Qed.

Lemma exec_race_close_ok ts o : tick_inv ts -> exec_race_close ts = Ok o -> outcome_ok o.
Proof.
  unfold exec_race_close. intros [[Hu Hc Hl Hs] Hw Hn HK] H.
  apply bind_ok_inv in H as ([ts' h] & Hp & [= <-]).
  apply pop_handle_inv in Hp as (st & Est & ->).
  apply park_frame; [by split|]. cbn. rewrite Est in HK. exact HK.
Qed.

(** ** Arming error routes *)

(** Mutations that agree on what K reads. *)
Definition mutation_sim (m m' : ConcurrencyMutation) : Prop :=
  match m, m' with
  | CMInsert r, CMInsert r' =>
      rec_id r' = rec_id r ∧ rec_state r' = rec_state r ∧ same_shape r r'
  | CMRetire id, CMRetire id' | CMRemove id, CMRemove id' => id' = id
  | _, _ => False
  end.

Lemma mutation_sim_refl m : mutation_sim m m.
Proof. by destruct m. Qed.

Lemma arm_error_rev_sim rid route l l' :
  arm_error_rev rid route l = Ok (Some l') -> Forall2 mutation_sim l l'.
Proof.
  assert (Hrefl : ∀ k, Forall2 mutation_sim k k)
    by (intros k; induction k; constructor; [apply mutation_sim_refl | done]).
  revert l'; induction l as [|m l IH]; intros l'; cbn; [done|].
  destruct m as [r|id|id].
  - destruct (N.eqb_spec (rec_id r) rid) as [E|E].
    + destruct (rec_state r) eqn:Es; [|done]. destruct (rec_kind r) eqn:Ek; try done.
      intros [= <-]. constructor; [|apply Hrefl]. done.
    + intros ([l''|] & El & H)%bind_ok_inv; [|done]. injection H as <-.
      constructor; [apply mutation_sim_refl | by apply IH].
  - intros ([l''|] & El & H)%bind_ok_inv; [|done]. injection H as <-.
    constructor; [apply mutation_sim_refl | by apply IH].
  - intros ([l''|] & El & H)%bind_ok_inv; [|done]. injection H as <-.
    constructor; [apply mutation_sim_refl | by apply IH].
Qed.

(** Tables that agree on what K reads. *)
Definition table_sim (t t' : gmap N ConcurrencyRecord) : Prop :=
  ∀ h, match t !! h, t' !! h with
       | Some r, Some r' => rec_state r' = rec_state r ∧ same_shape r r'
       | None, None => True
       | _, _ => False
       end.

Lemma apply_mutation_sim t t' m m' :
  table_sim t t' -> mutation_sim m m' -> table_sim (apply_mutation t m) (apply_mutation t' m').
Proof.
  intros Ht Hm h. pose proof (Ht h) as Hh.
  destruct m as [r|id|id], m' as [r'|id'|id']; try done; cbn.
  - destruct Hm as (Eid & Es & Hsh). unfold table_insert. rewrite Eid.
    destruct (decide (h = rec_id r)) as [->|]; [by rewrite !lookup_insert_eq|].
    by rewrite !lookup_insert_ne.
  - cbn in Hm. subst id'. pose proof (Ht id) as Hid.
    destruct (t !! id) as [r|] eqn:E, (t' !! id) as [r'|] eqn:E'; try done.
    destruct (decide (h = id)) as [->|]; [|by rewrite !lookup_insert_ne].
    rewrite !lookup_insert_eq. split; [done|]. by destruct Hid as [_ ?].
  - cbn in Hm. subst id'. destruct (decide (h = id)) as [->|]; [by rewrite !lookup_delete_eq|].
    by rewrite !lookup_delete_ne.
Qed.

Lemma apply_mutations_sim t t' l l' :
  table_sim t t' -> Forall2 mutation_sim l l' ->
  table_sim (apply_mutations t l) (apply_mutations t' l').
Proof.
  intros Ht Hl. revert t t' Ht; induction Hl as [|m m' l l' Hm Hl IH]; intros t t' Ht; [done|].
  cbn. apply IH. by apply apply_mutation_sim.
Qed.

Lemma KS_table_sim S t t' : table_sim t t' -> KS S t -> KS S t'.
Proof.
  intros Ht. apply KS_table_ext; intros h r [Hr Ha]; specialize (Ht h); rewrite Hr in Ht;
    destruct (t !! h) as [r1|] eqn:E1, (t' !! h) as [r2|] eqn:E2; try done; simplify_eq.
  - exists r1. destruct Ht as [Es Hsh]. split; [split; [done|congruence]|done].
  - exists r2. destruct Ht as [Es Hsh]. split; [split; [done|congruence]|done].
Qed.

Lemma exec_guard_arm_error_ok code handler ts o :
  tick_inv ts -> exec_guard_arm_error code handler ts = Ok o -> outcome_ok o.
Proof.
  unfold exec_guard_arm_error. intros [[Hu Hc Hl Hs] Hw Hn HK] H.
  apply bind_ok_inv in H as (rid & _ & H). apply bind_ok_inv in H as (res & Er & H).
  apply bind_ok_inv in H as (muts & Em & [= <-]). apply ok_or_ok in Em as ->.
  apply arm_error_rev_sim in Er. split; [by split | done | done |].
  eapply KS_table_sim; [|exact HK]. unfold staged, staged_table. cbn.
  apply apply_mutations_sim.
  - intros h. by destruct (sn_table s !! h).
  - rewrite <-(reverse_involutive (ch_concurrency_mutations (ts_changes ts))).
    by apply Forall2_reverse.
Qed.

(** ** Unwinding: a set of records retires, a set of fibres dies *)

(** [R] retires and the fibres of [dead] are deleted; what remains consistent is
    that the dead leave every surviving record they carry and that no survivor
    carries a retired one. *)
Lemma unwind_KS ts st h (R : list RecordId) dead c :
  KS (stacks_with ts (st ++ [h])) (staged ts) -> h ∈ R ->
  (∀ h' r, armed (staged_table s c) h' r ↔ h' ∉ R ∧ ∃ r0, armed (staged ts) h' r0 ∧
     r = apply_ops (ops_on h' (removal_ops s dead)) r0) ->
  fiber_id (ts_fiber ts) ∉ dead -> (∀ x, x ∈ st -> x ∉ R) ->
  (∀ x f h', x ∈ dead -> F !! x = Some f -> h' ∈ effective_control_stack f ->
     h' ∉ fiber_control_stack f -> h' ∈ R) ->
  (∀ x f h', x ≠ fiber_id (ts_fiber ts) -> x ∉ ch_fibers_delete (ts_changes ts) -> x ∉ dead ->
     F !! x = Some f -> h' ∈ effective_control_stack f -> h' ∉ R) ->
  KS (<[fiber_id (ts_fiber ts) := st]>
        (base_stacks (ch_fibers_delete (ts_changes ts) ++ dead))) (staged_table s c).
Proof.
  intros HK HhR Hc Hself Hst Hdead Hlive. set (x0 := fiber_id (ts_fiber ts)) in *.
  assert (Hbase : ∀ x, x ≠ x0 -> base_stacks (ch_fibers_delete (ts_changes ts) ++ dead) !! x =
    if decide (x ∈ dead) then None else stacks_with ts (st ++ [h]) !! x).
  { intros x Hne. unfold stacks_with. rewrite lookup_insert_ne, !lookup_base_stacks by done.
    destruct (decide (x ∈ dead)), (decide (x ∈ ch_fibers_delete (ts_changes ts)));
      destruct (decide _); set_solver. }
  eapply (KS_rewrite _ _ _ _ (λ h', h' ∈ R)
    (λ h' r0 x, x ∈ members r0 ∧
       ¬ (x ∈ dead ∧ ∃ f, F !! x = Some f ∧ h' ∈ fiber_control_stack f)) HK).
  - intros h' r (HnR & r0 & Ha & ->)%Hc. split; [done|]. exists r0.
    destruct (apply_ops_fields (ops_on h' (removal_ops s dead)) r0) as (_ & _ & -> & ->).
    split_and!; try done. intros x. apply members_removal.
  - intros h' r0 Ha HnR. eexists. split; [apply Hc; split; [done|]; by exists r0|].
    intros x. apply members_removal.
  - intros h' r0 x Ha HnR [Hm Hnrem]. destruct (decide (x = x0)) as [->|Hne].
    { rewrite lookup_insert_eq. eauto. }
    rewrite lookup_insert_ne, Hbase by done. destruct (KS1 _ _ HK _ _ _ Ha Hm) as [st' Hx].
    destruct (decide (x ∈ dead)) as [Hd|]; [exfalso|eauto].
    assert (Hin : h' ∈ st') by (apply (KS2 _ _ HK _ _ _ Hx); eauto).
    unfold stacks_with in Hx. rewrite lookup_insert_ne, lookup_base_stacks in Hx by done.
    destruct (decide _); [done|]. destruct (F !! x) as [f|] eqn:Hf; [|done]. simplify_eq/=.
    destruct (decide (h' ∈ fiber_control_stack f)); [apply Hnrem; eauto | eauto].
  - intros x st' h' Hx. destruct (decide (x = x0)) as [->|Hne].
    + rewrite lookup_insert_eq in Hx. simplify_eq.
      pose proof (KS2 _ _ HK _ _ h' (stacks_with_self ts _)) as E.
      rewrite elem_of_app, list_elem_of_singleton in E. split.
      * intros Hin. split; [by apply Hst|]. destruct (proj1 E (or_introl Hin)) as (r0 & Ha & Hm).
        exists r0. naive_solver.
      * intros (HnR & r0 & Ha & Hm & _). destruct (proj2 E (ex_intro _ r0 (conj Ha Hm))); [done|].
        congruence.
    + rewrite lookup_insert_ne, Hbase in Hx by done. destruct (decide (x ∈ dead)); [done|].
      rewrite (KS2 _ _ HK _ _ h' Hx). split; [|naive_solver]. intros (r0 & Ha & Hm).
      split; [|naive_solver]. assert (Hin : h' ∈ st') by (apply (KS2 _ _ HK _ _ _ Hx); eauto).
      unfold stacks_with in Hx. rewrite lookup_insert_ne, lookup_base_stacks in Hx by done.
      destruct (decide _) as [|Hnd]; [done|]. destruct (F !! x) as [f|] eqn:Hf; [|done].
      simplify_eq/=. by eapply Hlive.
Qed.

(** ** Joining *)

(** The innermost handle names an armed record, the one a mid-tick read finds. *)
Lemma innermost_armed ts st h :
  tick_inv ts -> fiber_control_stack (ts_fiber ts) = st ++ [h] ->
  ∃ r, armed (staged ts) h r ∧ fetch_record_in_transition s (ts_changes ts) h = Some r ∧
    rec_id r = h.
Proof.
  intros [_ _ _ HK] E. destruct (proj1 (KS2 _ _ HK _ _ h (stacks_with_self ts _))) as (r & Ha & _).
  { rewrite E. set_solver. }
  exists r. split; [done|]. split; [by apply staged_armed_fetch; apply Ha|].
  apply (staged_table_keyed s (ts_changes ts) Htable h r). apply Ha.
Qed.

Lemma join_waits_ok ts st h r k :
  tick_inv ts -> fiber_control_stack (ts_fiber ts) = st ++ [h] -> armed (staged ts) h r ->
  rec_id r = h -> (0 < count k)%N -> (count k <= count (rec_counters r))%N ->
  arity k = arity (rec_counters r) ->
  ∀ ts', fiber_id (ts_fiber ts') = fiber_id (ts_fiber ts) ->
    fiber_control_stack (ts_fiber ts') = st -> fiber_wait (ts_fiber ts') = WV2Barrier h ->
    ch_fibers_upsert (ts_changes ts') = ch_fibers_upsert (ts_changes ts) ->
    ch_fibers_delete (ts_changes ts') = ch_fibers_delete (ts_changes ts) ->
    ch_cleanup (ts_changes ts') = ch_cleanup (ts_changes ts) ->
    staged ts' = table_insert (set_rec_counters k r) (staged ts) ->
    outcome_ok (park ts').
Proof.
  intros [[Hu Hc Hl Hs] Hw Hn HK] Est Ha Hid Hpos Hle Har ts' Ei Es Ew Eu Ed Ec Et.
  apply park_frame; [split; rewrite ?Eu, ?Ec, ?Ei, ?Ed; done|].
  unfold effective_control_stack. rewrite Ew, Es, <-Est, Et. unfold stacks_with.
  rewrite Ei, Ed. apply (KS_counters _ _ h); [exact HK|done|done|]. intros Hb.
  pose proof (KS3 _ _ HK _ _ Ha Hb). lia.
Qed.

Lemma join_releases_KS ts st h r c0 :
  tick_inv ts -> staged_table s c0 = staged ts -> fiber_control_stack (ts_fiber ts) = st ++ [h] -> armed (staged ts) h r ->
  (∀ m, m ∈ members r -> m ≠ fiber_id (ts_fiber ts) ->
     ∃ f, F !! m = Some f ∧ fiber_wait f = WV2Barrier h) ->
  let dead := filter (λ m, m ≠ fiber_id (ts_fiber ts)) (btree_elems (members r)) in
  let c := push_mutation (CMRetire h)
    (v2_reconcile_ancestor_membership s (removal_ops s dead) {[h]}
       (push_deletes dead c0)) in
  KS (<[fiber_id (ts_fiber ts) := st]>
        (base_stacks (ch_fibers_delete (ts_changes ts) ++ dead))) (staged_table s c).
Proof.
  intros HI E0 Est Ha Hothers dead c. pose proof (ti_KS _ HI) as HK. rewrite Est in HK.
  pose proof (ti_nodup _ HI) as Hn. rewrite Est in Hn. apply NoDup_snoc_inv in Hn as [_ Hnin].
  assert (Hdead : ∀ m, m ∈ dead ↔ m ≠ fiber_id (ts_fiber ts) ∧ m ∈ members r).
  { intros m. unfold dead. by rewrite list_elem_of_filter, elem_of_btree_elems. }
  apply (unwind_KS ts st h [h]); [done|by left| | | | |].
  - intros h' r'. unfold c. rewrite staged_push_mutation, armed_retire.
    rewrite armed_reconcile, staged_push_deletes, E0 by done. rewrite list_elem_of_singleton.
    destruct (decide (h' ∈ {[h]})); [set_solver|]. done.
  - rewrite Hdead. naive_solver.
  - intros x Hx ->%list_elem_of_singleton. done.
  - intros x f h' [Hne Hm]%Hdead Hf Hin Hnot. destruct (Hothers _ Hm Hne) as (f' & Hf' & Hwait).
    simplify_eq. unfold effective_control_stack in Hin. rewrite Hwait in Hin. set_solver.
  - intros x f h' Hne Hnd Hx Hf Hin ->%list_elem_of_singleton. apply Hx, Hdead. split; [done|].
    assert (Hst : stacks_with ts (st ++ [h]) !! x = Some (effective_control_stack f)).
    { unfold stacks_with. rewrite lookup_insert_ne, lookup_base_stacks, decide_False, Hf by done.
      done. }
    apply (KS2 _ _ HK _ _ _ Hst) in Hin as (r' & [Hr' _] & Hm').
    destruct Ha as [Hr _]. by simplify_eq.
Qed.

Lemma exec_join_ok ts o :
  others_arrived ts -> tick_inv ts -> exec_join s ts = Ok o -> outcome_ok o.
Proof.
  unfold exec_join. intros Hothers HI H. apply bind_ok_inv in H as ([ts' h] & Hp & H).
  apply pop_handle_inv in Hp as (st & Est & ->). apply bind_ok_inv in H as (r & Hf & H).
  apply ok_or_ok in Hf. destruct (innermost_armed _ _ _ HI Est) as (r' & Ha & Hf' & Hid).
  change (fetch_record_in_transition s (ts_changes ts) h = Some r) in Hf.
  rewrite Hf' in Hf. injection Hf as ->.
  cbn [rec_counters set_rec_counters count arity] in H.
  destruct (N.eqb_spec (sat_sub (count (rec_counters r)) 1) 0) as [E0|E0]; injection H as <-.
  - unfold sat_sub in E0.
    pose proof (join_releases_KS ts st h r
      (push_delta (CSPop (fiber_id (ts_fiber ts)) h) (ts_changes ts)) HI eq_refl Est Ha) as HK.
    destruct HI as [[Hu Hc Hl Hs] Hw Hn _]. rewrite Est in Hn. apply NoDup_snoc_inv in Hn as [Hn _].
    split; [split|done|done|].
    + cbn. rewrite (proj1 (reconcile_fields _ _ _ _)), (proj1 (push_deletes_fields _ _)). done.
    + cbn. rewrite (proj2 (proj2 (reconcile_fields _ _ _ _))), (proj2 (push_deletes_fields _ _)).
      done.
    + done.
    + cbn. rewrite (proj1 (proj2 (reconcile_fields _ _ _ _))), deletes_push_deletes.
      cbn. rewrite elem_of_app, list_elem_of_filter. naive_solver.
    + unfold stacks_with. cbn [ts_fiber ts_changes fall_through on_fiber on_changes advance_pc].
      cbn. rewrite (proj1 (proj2 (reconcile_fields _ _ _ _))), deletes_push_deletes.
      apply HK. intros m Hm Hne. eapply Hothers; eauto. lia.
  - unfold sat_sub in E0.
    apply (join_waits_ok ts st h r
      (mkCounters (arity (rec_counters r)) (sat_sub (count (rec_counters r)) 1)));
      unfold sat_sub; cbn [count arity]; try done; try lia.
    unfold staged, staged_table. cbn. by rewrite apply_mutations_app.
Qed.

(** ** Cancelling a scope *)

Lemma rollback_inv h caller c rs c' :
  v2_rollback_guard_scope s h caller c = Ok (rs, c') ->
  ∃ R L, cancel_guard_scope s h = Ok (R, L) ∧
    let dead := match caller with Continues id => filter (λ x, x ≠ id) L | Dies _ => L end in
    ∃ ev, c' = push_event ev (v2_reconcile_ancestor_membership s (removal_ops s dead)
      (list_to_set R) (push_deletes dead (push_retires R c))).
Proof.
  unfold v2_rollback_guard_scope. intros H. apply bind_ok_inv in H as (r & _ & H).
  destruct (rollback_domain_payload r), (rollback_domain_payload_hash r), (rollback_flags r),
    (rollback_join_expected r), (rollback_session_stack r); try discriminate H.
  apply bind_ok_inv in H as (ss & _ & H). apply bind_ok_inv in H as ([R L] & HW & H).
  exists R, L. split; [done|]. destruct caller; injection H as _ <-; eauto.
Qed.

(** Retire a set, delete a set, sweep the ancestors that stay. *)
Lemma armed_unwind R dead c h r :
  armed (staged_table s (v2_reconcile_ancestor_membership s (removal_ops s dead)
    (list_to_set R) (push_deletes dead (push_retires R c)))) h r ↔
  h ∉ R ∧ ∃ r0, armed (staged_table s c) h r0 ∧
    r = apply_ops (ops_on h (removal_ops s dead)) r0.
Proof.
  rewrite armed_reconcile, staged_push_deletes by done.
  destruct (decide (h ∈ list_to_set R)) as [Hin|Hni].
  - rewrite armed_push_retires. set_solver.
  - rewrite elem_of_list_to_set in Hni. setoid_rewrite armed_push_retires. naive_solver.
Qed.

Lemma unwind_fields R dead c ev :
  let c' := push_event ev (v2_reconcile_ancestor_membership s (removal_ops s dead)
    (list_to_set R) (push_deletes dead (push_retires R c))) in
  ch_fibers_upsert c' = ch_fibers_upsert c ∧ ch_cleanup c' = ch_cleanup c ∧
  ch_fibers_delete c' = ch_fibers_delete c ++ dead.
Proof.
  cbn. destruct (reconcile_fields s (removal_ops s dead) (list_to_set R)
    (push_deletes dead (push_retires R c))) as (-> & -> & ->).
  destruct (push_deletes_fields dead (push_retires R c)) as [-> ->].
  rewrite deletes_push_deletes. by destruct (push_retires_fields R c) as (-> & -> & ->).
Qed.

Lemma exec_cancel_scope_ok ts o :
  step_ok ts IV2CancelScope -> tick_inv ts -> exec_cancel_scope s ts = Ok o -> outcome_ok o.
Proof.
  intros [Hcoh Habove] HI H. unfold exec_cancel_scope in H.
  apply bind_ok_inv in H as ([ts' h] & Hp & H). apply pop_handle_inv in Hp as (st & Est & ->).
  apply bind_ok_inv in H as ([rs c'] & Hrb & [= <-]).
  apply rollback_inv in Hrb as (R & L & HW & ev & ->).
  destruct (cancel_guard_scope_walk s h Hcoh Hkeyed) as (R' & L' & HW' & Hspec).
  rewrite HW' in HW. injection HW as -> ->.
  pose proof (ti_KS _ HI) as HK. rewrite Est in HK. destruct HI as [[Hu Hc Hl Hs] Hw Hn _].
  rewrite Est in Hn. apply NoDup_snoc_inv in Hn as [Hn _].
  cbn [ts_changes ts_fiber on_changes on_fiber fiber_id set_control_stack] in *.
  set (dead := filter (λ x, x ≠ fiber_id (ts_fiber ts)) L).
  set (c0 := push_delta (CSPop (fiber_id (ts_fiber ts)) h) (ts_changes ts)).
  destruct (unwind_fields R dead c0 ev) as (Eu & Ec & Ed).
  assert (Hdead : ∀ x, x ∈ dead ↔ x ≠ fiber_id (ts_fiber ts) ∧ inside F h x).
  { intros x. unfold dead. by rewrite list_elem_of_filter, (walk_fibers _ _ _ _ Hspec). }
  split; [split|done|done|]; cbn -[v2_reconcile_ancestor_membership push_event].
  - by rewrite Eu.
  - by rewrite Ec.
  - done.
  - rewrite Ed. change (ch_fibers_delete c0) with (ch_fibers_delete (ts_changes ts)).
    rewrite elem_of_app, Hdead. naive_solver.
  - unfold stacks_with. cbn -[v2_reconcile_ancestor_membership push_event base_stacks].
    rewrite Ed. apply (unwind_KS ts st h R).
    + exact HK.
    + apply (walk_records _ _ _ _ Hspec). by left.
    + intros h' r. apply (armed_unwind R dead c0).
    + rewrite Hdead. naive_solver.
    + intros x Hx HR%(walk_records _ _ _ _ Hspec). by eapply Habove.
    + intros x f h' (_ & f' & Hf' & [i Hi]%list_elem_of_lookup)%Hdead Hf Hin Hnot. simplify_eq.
      apply (walk_records _ _ _ _ Hspec).
      destruct (effective_stack_last _ _ Hin Hnot _ _ Hi) as [->|(j & Hij & Hj)]; [by left|].
      right. by exists x, f', i, j.
    + intros x f h' Hne _ Hx Hf Hin HR%(walk_records _ _ _ _ Hspec). apply Hx, Hdead.
      split; [done|]. by eapply nested_inside.
Qed.

(** ** Ending *)

Lemma frame_K_terminal c i :
  ch_cleanup c = Some (mkCleanup true true true) ->
  (∀ h r, armed (staged_table s c) h r -> members r = ∅) ->
  K3 (staged_table s c) -> frame_K (finish c i).
Proof.
  intros Hc Hm Hk3. unfold frame_K. rewrite derive_frame_finish. unfold frame_fibers.
  rewrite Hc. cbn. split_and!; [|by intros x f h|done].
  intros h r m Hr Ha Hin. rewrite (Hm h r) in Hin by done. set_solver.
Qed.

Lemma exec_end_terminate_ok ts o : exec_end_terminate s ctx ts = Ok o -> outcome_ok o.
Proof.
  unfold exec_end_terminate. intros H. apply bind_ok_inv in H as (at_ & _ & [= <-]).
  match goal with |- outcome_ok (Return (finish (push_retires (armed_record_ids_in_transition s ?c) _) _)) =>
    assert (Hno : ∀ h r, ¬ armed (staged_table s (push_retires (armed_record_ids_in_transition s c) c)) h r)
  end.
  { intros h r [Hni Ha]%armed_push_retires. apply Hni, elem_of_armed_record_ids. eauto. }
  apply frame_K_terminal.
  - by rewrite (proj2 (proj2 (push_retires_fields _ _))).
  - intros h r Ha. by destruct (Hno h r).
  - intros h r Hr Ha. by destruct (Hno h r).
Qed.

Lemma exec_end_ok ts o :
  fiber_control_stack (ts_fiber ts) = [] -> tick_inv ts -> exec_end s ctx ts = Ok o -> outcome_ok o.
Proof.
  intros Hst [[Hu Hc Hl Hs] Hw Hn HK] H. unfold exec_end in H. rewrite Hst in HK.
  set (c := push_delete (fiber_id (ts_fiber ts)) (ts_changes ts)) in *.
  assert (Hnot : ∀ h r, armed (staged ts) h r -> fiber_id (ts_fiber ts) ∉ members r).
  { intros h r Ha Hm. pose proof (proj2 (KS2 _ _ HK _ _ h (stacks_with_self ts _))
      (ex_intro _ r (conj Ha Hm))). set_solver. }
  assert (Hlook : ∀ x, apply_fiber_deltas (sn_fibers s) (ch_fibers_upsert c) (ch_fibers_delete c) false !! x
    = if decide (x ∈ ch_fibers_delete (ts_changes ts) ++ [fiber_id (ts_fiber ts)]) then None
      else F !! x).
  { intros x. rewrite lookup_apply_fiber_deltas. cbn. rewrite Hu. done. }
  assert (Hlive : ∀ h r m, armed (staged ts) h r -> m ∈ members r ->
    is_Some (apply_fiber_deltas (sn_fibers s) (ch_fibers_upsert c) (ch_fibers_delete c) false !! m)).
  { intros h r m Ha Hm. rewrite Hlook.
    assert (Hne : m ≠ fiber_id (ts_fiber ts)) by (intros ->; by eapply Hnot).
    destruct (KS1 _ _ HK _ _ _ Ha Hm) as [st Hx]. unfold stacks_with in Hx.
    rewrite lookup_insert_ne, lookup_base_stacks in Hx by done. destruct (decide _) as [|Hnd]; [done|].
    rewrite decide_False by set_solver. destruct (F !! m); [eauto|done]. }
  case_bool_decide as Hempty.
  - apply bind_ok_inv in H as (at_ & _ & [= <-]). apply frame_K_terminal.
    + done.
    + intros h r Ha. apply set_eq. intros m. split; [|set_solver]. intros Hm.
      destruct (Hlive h r m Ha Hm) as [f Hf]. by rewrite Hempty in Hf.
    + intros h r Hr Ha. by apply (KS3 _ _ HK h r (conj Hr Ha)).
  - injection H as <-. unfold outcome_ok, frame_K. rewrite derive_frame_finish.
    unfold frame_fibers. change (ch_cleanup c) with (ch_cleanup (ts_changes ts)). rewrite Hc.
    cbn [default delete_all_fibers TerminalCleanup_default]. split_and!.
    + intros h r m Hr Ha. by apply (Hlive h r m (conj Hr Ha)).
    + intros x f h Hx. rewrite Hlook in Hx. destruct (decide _) as [|Hnd]; [done|].
      apply not_elem_of_app in Hnd as [Hnd Hne]. apply not_elem_of_cons in Hne as [Hne _].
      rewrite (KS2 _ _ HK x (effective_control_stack f) h); [unfold armed; naive_solver|].
      unfold stacks_with. by rewrite lookup_insert_ne, lookup_base_stacks, decide_False, Hx by done.
    + intros h r Hr Ha. by apply (KS3 _ _ HK h r (conj Hr Ha)).
Qed.

(** ** Forking *)

Fixpoint fork_fibers (st : list RecordId) (ordinal : N) (targets : list Addr) : list Fiber :=
  match targets with
  | [] => []
  | t :: rest =>
      set_control_stack st (Fiber_new (derived_id ctx ordinal) t)
        :: fork_fibers st (sat_add u32_max ordinal 1) rest
  end.

Lemma set_members_id r : set_members (members r) r = r.
Proof. by destruct r. Qed.

Lemma fork_fold f rid targets ordinal record c ids :
  ∃ ordinal' c',
    foldl (fork_child ctx f rid) (ordinal, record, c, ids) targets =
      (ordinal', set_members (members record ∪ list_to_set (fork_ids ordinal targets)) record, c',
       ids ++ fork_ids ordinal targets) ∧
    ch_fibers_upsert c' = ch_fibers_upsert c
      ++ fork_fibers (fiber_control_stack f ++ [rid]) ordinal targets ∧
    ch_fibers_delete c' = ch_fibers_delete c ∧ ch_cleanup c' = ch_cleanup c ∧
    ch_concurrency_mutations c' = ch_concurrency_mutations c.
Proof.
  clear Hkeyed Htable.
  revert ordinal record c ids; induction targets as [|t targets IH]; intros ordinal record c ids.
  - exists ordinal, c. cbn. rewrite !app_nil_r, union_empty_r_L, set_members_id. done.
  - cbn [foldl fork_child].
    destruct (IH (sat_add u32_max ordinal 1) (add_member (derived_id ctx ordinal) record)
      (push_fiber (set_control_stack (fiber_control_stack f ++ [rid])
          (Fiber_new (derived_id ctx ordinal) t))
        (push_event (EvFiberSpawned (derived_id ctx ordinal) t (Some (fiber_id f)))
          (push_delta (CSPush (derived_id ctx ordinal) rid) c)))
      (ids ++ [derived_id ctx ordinal])) as (o' & c' & -> & Eu & Ed & Ec & Em).
    exists o', c'. rewrite Eu, Ed, Ec, Em. cbn. rewrite <-!app_assoc. split_and!; try done.
    do 3 f_equal. unfold set_members. cbn. f_equal. set_solver.
Qed.

Lemma fork_fibers_lookup st ordinal targets x :
  effective_control_stack <$>
    last (filter (λ f, fiber_id f = x) (fork_fibers st ordinal targets)) =
  if decide (x ∈ fork_ids ordinal targets) then Some st else None.
Proof.
  revert ordinal; induction targets as [|t targets IH]; intros ordinal; cbn [fork_fibers fork_ids].
  { by rewrite decide_False by set_solver. }
  rewrite filter_cons. specialize (IH (sat_add u32_max ordinal 1)).
  change (fiber_id (set_control_stack st (Fiber_new (derived_id ctx ordinal) t)))
    with (derived_id ctx ordinal).
  destruct (decide (derived_id ctx ordinal = x)) as [<-|Hne].
  - rewrite (decide_True (P := _ ∈ _ :: _)) by set_solver. rewrite last_cons.
    destruct (last (filter _ _)); [|done]. by destruct (decide _).
  - rewrite IH. destruct (decide (x ∈ fork_ids _ targets)).
    + by rewrite decide_True by set_solver.
    + by rewrite decide_False by set_solver.
Qed.

Lemma ops_on_fork f ids h :
  NoDup (fiber_control_stack f) ->
  ops_on h (fork_ops f ids) =
  if decide (h ∈ fiber_control_stack f) then MRemove (fiber_id f) :: (MAdd <$> ids) else [].
Proof.
  unfold fork_ops. generalize (fiber_control_stack f) as st. intros st Hn.
  assert (Hhead : ∀ a, ops_on h ((a, MRemove (fiber_id f)) :: ((λ id, (a, MAdd id)) <$> ids)) =
    if decide (a = h) then MRemove (fiber_id f) :: (MAdd <$> ids) else []).
  { intros a. unfold ops_on. rewrite filter_cons. cbn.
    assert (filter (λ e : N * MembershipOp, e.1 = h) ((λ id, (a, MAdd id)) <$> ids) =
      if decide (a = h) then (λ id, (a, MAdd id)) <$> ids else []) as ->.
    { clear. induction ids as [|id ids IH]; cbn [fmap list_fmap]; [by destruct (decide _)|].
      rewrite filter_cons. cbn [fst]. rewrite IH. by destruct (decide _). }
    destruct (decide (a = h)); [|done]. cbn. f_equal. by rewrite <-list_fmap_compose. }
  induction Hn as [|a st Ha Hn IH]; [by rewrite decide_False by set_solver|].
  rewrite bind_cons, ops_on_app, Hhead, IH. destruct (decide (a = h)) as [->|Hne].
  - rewrite (decide_False (P := h ∈ st)), decide_True by set_solver. by rewrite app_nil_r.
  - cbn [app]. destruct (decide (h ∈ st)).
    + by rewrite decide_True by set_solver.
    + by rewrite decide_False by set_solver.
Qed.

(** The abstract fork: the parent leaves, its children hold its stack and the
    new barrier. *)
Section fork.
Context (S S' : Stacks) (T0 T1 : gmap N ConcurrencyRecord)
  (x0 : N) (st : list RecordId) (rid : RecordId) (ids : list N) (rec : ConcurrencyRecord).
Context (HK : KS S T0) (Hx0 : S !! x0 = Some st) (Hid : rec_id rec = rid) (Hfresh : T0 !! rid = None)
  (Ha : rec_state rec = Armed) (Hmem : members rec = list_to_set ids)
  (Hids : ∀ x, x ∈ ids -> S !! x = None).

(** The membership operations of a fork on the record of [h]. *)
Definition fork_edit (h : RecordId) : list MembershipOp :=
  if decide (h ∈ st) then MRemove x0 :: (MAdd <$> ids) else [].

Context (HS' : ∀ x, S' !! x = if decide (x ∈ ids) then Some (st ++ [rid])
                              else if decide (x = x0) then None else S !! x).
Context (HT1 : ∀ h r, armed T1 h r ↔
  ∃ r1, armed (table_insert rec T0) h r1 ∧ r = apply_ops (fork_edit h) r1).

Lemma fork_edit_self : fork_edit rid = [].
Proof. unfold fork_edit. rewrite decide_False; [done | by eapply KS_fresh]. Qed.

Lemma fork_armed h r :
  armed T1 h r ↔
  (h = rid ∧ r = rec) ∨ (h ≠ rid ∧ ∃ r0, armed T0 h r0 ∧ r = apply_ops (fork_edit h) r0).
Proof.
  rewrite HT1. setoid_rewrite armed_insert; [|done]. rewrite Hid. split.
  - intros (r1 & [[-> ->]|[Hne Har]] & ->); [|right; eauto]. left. by rewrite fork_edit_self.
  - intros [[-> ->]|(Hne & r0 & Har & ->)]; [|eauto].
    exists rec. rewrite fork_edit_self. by split; [left|].
Qed.

Lemma fork_edit_members h r0 x :
  x ∈ members (apply_ops (fork_edit h) r0) ↔
  if decide (h ∈ st) then x ∈ ids ∨ (x ∈ members r0 ∧ x ≠ x0) else x ∈ members r0.
Proof.
  unfold fork_edit. destruct (decide (h ∈ st)); [|done].
  change (apply_ops (MRemove x0 :: (MAdd <$> ids)) r0)
    with (apply_ops (MAdd <$> ids) (remove_member x0 r0)).
  rewrite members_apply_adds. cbn. set_solver.
Qed.

Lemma fork_parent_member h r0 : armed T0 h r0 -> (h ∈ st ↔ x0 ∈ members r0).
Proof.
  intros Ha0. rewrite (KS2 _ _ HK _ _ h Hx0). split; [|eauto].
  intros (r' & [Hr' _] & Hm). destruct Ha0 as [Hr0 _]. by simplify_eq.
Qed.

(** A member of a record after the fork is a child, or was a member before it. *)
Lemma fork_members_live h r m : armed T1 h r -> m ∈ members r -> is_Some (S' !! m).
Proof.
  intros [[-> ->]|(Hne & r0 & Ha0 & ->)]%fork_armed Hm; rewrite HS'.
  - rewrite Hmem in Hm. rewrite decide_True by set_solver. eauto.
  - destruct (decide (m ∈ ids)); [eauto|]. rewrite fork_edit_members in Hm.
    assert (m ∈ members r0 ∧ m ≠ x0) as [Hm0 Hne0].
    { destruct (decide (h ∈ st)) as [|Hn]; [naive_solver|]. split; [done|]. intros ->.
      by apply Hn, (fork_parent_member _ _ Ha0). }
    rewrite decide_False by done. by eapply KS1.
Qed.

Lemma fork_child_handles x h :
  x ∈ ids -> (h ∈ st ++ [rid] ↔ ∃ r, armed T1 h r ∧ x ∈ members r).
Proof.
  intros Hin. rewrite elem_of_app, list_elem_of_singleton. split.
  - intros [Hh| ->]; [|exists rec; split; [apply fork_armed; by left | rewrite Hmem; set_solver]].
    destruct (proj1 (KS2 _ _ HK _ _ h Hx0) Hh) as (r0 & Ha0 & _).
    eexists. split.
    + apply fork_armed. right. split; [|by exists r0].
      intros ->. destruct Ha0; congruence.
    + rewrite fork_edit_members, decide_True by done. by left.
  - intros (r & [[-> ->]|(Hne & r0 & Ha0 & ->)]%fork_armed & Hm); [by right|left].
    rewrite fork_edit_members in Hm. destruct (decide (h ∈ st)); [done|].
    destruct (KS1 _ _ HK _ _ _ Ha0 Hm) as [? E]. by rewrite Hids in E.
Qed.

Lemma fork_other_handles x st' h :
  x ∉ ids -> x ≠ x0 -> S !! x = Some st' -> (h ∈ st' ↔ ∃ r, armed T1 h r ∧ x ∈ members r).
Proof.
  intros Hnin Hne0 Hx. rewrite (KS2 _ _ HK _ _ h Hx). split.
  - intros (r0 & Ha0 & Hm). eexists. split.
    + apply fork_armed. right. split; [|by exists r0]. intros ->. destruct Ha0; congruence.
    + rewrite fork_edit_members. destruct (decide (h ∈ st)); [by right | done].
  - intros (r & [[-> ->]|(Hne & r0 & Ha0 & ->)]%fork_armed & Hm).
    + rewrite Hmem in Hm. set_solver.
    + exists r0. split; [done|]. rewrite fork_edit_members in Hm.
      destruct (decide (h ∈ st)); naive_solver.
Qed.

Lemma KS_fork :
  (rec_kind rec = KBarrier -> (0 < count (rec_counters rec) <= arity (rec_counters rec))%N) ->
  KS S' T1.
Proof.
  intros Hk3. split; [exact fork_members_live | |].
  - intros x st' h. rewrite HS'. destruct (decide (x ∈ ids)) as [Hin|Hnin].
    + intros [= <-]. by apply fork_child_handles.
    + destruct (decide (x = x0)); [done|]. by apply fork_other_handles.
  - intros h r [[-> ->]|(_ & r0 & Ha0 & ->)]%fork_armed; [done|].
    destruct (apply_ops_fields (fork_edit h) r0) as (_ & _ & -> & ->). by eapply KS3.
Qed.
End fork.

(** The stacks of the frame after a fork. *)
Lemma fork_stacks ts c targets st o1 x :
  ch_fibers_upsert c = fork_fibers st o1 targets ->
  ch_fibers_delete c = ch_fibers_delete (ts_changes ts) ++ [fiber_id (ts_fiber ts)] ->
  ch_cleanup c = None ->
  (∀ y, y ∈ fork_ids o1 targets ->
     y ∉ ch_fibers_delete (ts_changes ts) ∧ y ≠ fiber_id (ts_fiber ts)) ->
  (effective_control_stack <$> frame_fibers s c) !! x =
  if decide (x ∈ fork_ids o1 targets) then Some st
  else if decide (x = fiber_id (ts_fiber ts)) then None
  else stacks_with ts (fiber_control_stack (ts_fiber ts)) !! x.
Proof.
  intros Eu Ed Ec Hids. rewrite lookup_fmap. unfold frame_fibers. rewrite Eu, Ed, Ec.
  cbn [default delete_all_fibers TerminalCleanup_default]. rewrite lookup_apply_fiber_deltas.
  pose proof (fork_fibers_lookup st o1 targets x) as Hf.
  destruct (decide (x ∈ fork_ids o1 targets)) as [Hin|Hnin].
  - destruct (Hids _ Hin) as [Hnd Hself].
    rewrite decide_False by (rewrite elem_of_app, list_elem_of_singleton; intros [?| ->]; done).
    destruct (last _); [|done]. exact Hf.
  - destruct (last _); [done|]. destruct (decide (x = fiber_id (ts_fiber ts))) as [->|Hnx].
    + by rewrite decide_True by set_solver.
    + unfold stacks_with. rewrite lookup_insert_ne, lookup_base_stacks by done.
      destruct (decide (x ∈ ch_fibers_delete (ts_changes ts))).
      * by rewrite decide_True by set_solver.
      * by rewrite decide_False by set_solver.
Qed.

(** The armed records after the insertion and the reconciliation of a fork. *)
Lemma fork_table ts c rec ids h r :
  table_keyed (sn_table s) -> NoDup (fiber_control_stack (ts_fiber ts)) ->
  ch_concurrency_mutations c = ch_concurrency_mutations (ts_changes ts) ->
  armed (staged_table s (v2_reconcile_ancestor_membership s (fork_ops (ts_fiber ts) ids) ∅
           (push_mutation (CMInsert rec) c))) h r ↔
  ∃ r1, armed (table_insert rec (staged ts)) h r1 ∧
    r = apply_ops (fork_edit (fiber_id (ts_fiber ts)) (fiber_control_stack (ts_fiber ts)) ids h) r1.
Proof.
  intros Hk Hn Em. rewrite armed_reconcile by done. rewrite decide_False by set_solver.
  rewrite staged_push_mutation, (ops_on_fork (ts_fiber ts) ids h Hn).
  assert (staged_table s c = staged ts) as -> by (unfold staged, staged_table; by rewrite Em).
  done.
Qed.

Lemma exec_fork_ok targets pairing ts o :
  step_ok ts (IV2Fork targets pairing) -> tick_inv ts -> exec_fork s ctx targets ts = Ok o ->
  outcome_ok o.
Proof.
  intros (Hfresh & Hne & Hlen & Hids) [[Hu Hc Hl Hs] Hw Hn HK] H.
  unfold exec_fork in H. cbv zeta in H.
  set (f := ts_fiber ts) in *. set (rid := derived_id ctx (ts_ordinal ts)) in *.
  set (o1 := sat_add u32_max (ts_ordinal ts) 1) in *.
  set (rec0 := set_rec_counters _ _) in H.
  destruct (fork_fold f rid targets o1 rec0 (ts_changes ts) []) as (o' & c' & E & Eu & Ed & Ec & Em).
  change (ts_ordinal (next_ordinal ts)) with o1 in H.
  change (ts_changes (next_ordinal ts)) with (ts_changes ts) in H.
  rewrite E in H. injection H as <-. clear E. rewrite Hu in Eu. cbn [app] in *.
  set (ids := fork_ids o1 targets) in *. set (rec := set_members _ rec0).
  assert (Hself : fiber_id f ∉ ids).
  { intros Hin. destruct (Hids _ Hin) as [E _]. destruct Hl as [? E']. congruence. }
  unfold outcome_ok, frame_K. rewrite derive_frame_finish. apply K_inv_stacks.
  apply (KS_fork _ _ (staged ts) _ (fiber_id f) (fiber_control_stack f) rid ids rec HK
           (stacks_with_self ts _)); try done.
  - cbn. by rewrite union_empty_l_L.
  - intros x Hx. destruct (Hids _ Hx) as [E1 E2]. unfold stacks_with.
    assert (x ≠ fiber_id f) by (intros ->; done).
    rewrite lookup_insert_ne, lookup_base_stacks, decide_False by done. by rewrite E1.
  - intros x. apply fork_stacks; cbn -[v2_reconcile_ancestor_membership].
    + by rewrite (proj1 (reconcile_fields _ _ _ _)).
    + by rewrite (proj1 (proj2 (reconcile_fields _ _ _ _))); cbn; rewrite Ed.
    + by rewrite (proj2 (proj2 (reconcile_fields _ _ _ _))); cbn; rewrite Ec, Hc.
    + intros y Hy. split; [by apply Hids | by intros ->].
  - intros h r. by apply fork_table.
  - intros _. cbn. rewrite N.mod_small by done. destruct targets; [done|].
    unfold len. cbn [length]. lia.
Qed.

(** ** The preservation theorem *)

Lemma exec_instr_preserves i ts o :
  step_ok ts i -> tick_inv ts -> exec_instr w s ctx i ts = Ok o -> outcome_ok o.
Proof.
  intros Hok HI H. destruct (scope_free i) eqn:Hfree; [by eapply scope_free_ok|].
  destruct i; try discriminate Hfree; cbn [exec_instr] in H;
    eauto using exec_end_ok, exec_end_terminate_ok, exec_guard_end_ok, exec_fork_ok, exec_join_ok,
      exec_race_close_ok, exec_guard_arm_error_ok, exec_cancel_scope_ok.
  all: eapply exec_open_ok; [|exact Hok|exact HI|exact H]; done.
Qed.

(** The states a tick goes through. *)
Inductive tick_reach (ts0 : TickState) : TickState -> Prop :=
| reach_start : tick_reach ts0 ts0
| reach_step ts ts' : tick_reach ts0 ts -> tick_step w s ctx ts = Ok (Continue ts') ->
    tick_reach ts0 ts'.

Lemma tick_loop_preserves n ts0 ts t :
  (∀ ts i, tick_reach ts0 ts -> wf_instructions w !! addr_index (fiber_pc (ts_fiber ts)) = Some i ->
     step_ok ts i) ->
  tick_reach ts0 ts -> tick_inv ts -> tick_loop w s ctx n ts = Ok t -> frame_K t.
Proof.
  intros Hok. revert ts; induction n as [|n IH]; intros ts Hr HI; cbn; [done|].
  destruct (tick_step w s ctx ts) as [o|e] eqn:Est; [|done].
  assert (Ho : outcome_ok o).
  { pose proof Est as H. unfold tick_step in H. apply bind_ok_inv in H as (i & Hi & H).
    apply ok_or_ok in Hi. eapply exec_instr_preserves; eauto. }
  destruct o as [ts'|t']; [|by intros [= <-]].
  apply IH; [by eapply reach_step | done].
Qed.

Lemma tick_start_inv f :
  K_inv F T -> F !! fiber_id f = Some f -> fiber_wait f = WRunning ->
  NoDup (fiber_control_stack f) -> tick_inv (tick_start s f).
Proof.
  intros HK Hf Hw Hn. split; [split|exact Hw|exact Hn|].
  - done.
  - done.
  - by exists f.
  - apply not_elem_of_nil.
  - apply K_inv_stacks in HK. unfold staged, staged_table, stacks_with, base_stacks. cbn.
    rewrite insert_id; [done|]. rewrite lookup_fmap. change (sn_fibers s) with F. rewrite Hf. cbn.
    unfold effective_control_stack. by rewrite Hw.
Qed.

End tick_k.
