(* ===== verification/TypedTick.v ===== *)
(** * Verified programs under the interpreter

    The annotation an admitted program has (an operand height and an abstract
    control stack per address) is a typing of fibres: a live fibre carries as
    many operands and as many scope handles as the annotation of its address
    says.  One tick keeps it, and cannot fail by popping an empty stack or by
    leaving the instruction stream. *)

From S2P Require Import Prelude Dataflow RustStr Json Types Concurrency Platform Effects Transition Verifier Bindings KernelBase KernelScope KernelTick KernelCommands KernelApply ScopeFacts KInvariants VerifierFacts KTick.

(** ** The annotation of an admitted program *)

Record admitted (p : list Instr) (H : gmap N N) (C : gmap N AbstractStack) (limit : N) : Prop := {
  ad_heights : height_typing p H;
  ad_stacks : stack_typing p C;
  ad_reached a : is_Some (H !! a) -> rtc (cfg p) 0%N a;
  ad_bound a h : H !! a = Some h -> (h <= limit)%N;
  ad_ends a : rtc (cfg p) 0%N a -> can_end p a;
}.

Lemma verify_program_admitted p md limits H ha C ca :
  verify_program p md = Ok limits -> height_walk p = Ok (H, ha) -> control_walk p = Ok (C, ca) ->
  admitted p H C (max_stack limits).
Proof.
  intros Hv Hh Hc. apply bind_ok_inv in Hv as (_ & Hne%ensure_ok%negb_true_iff%bool_decide_eq_false & Hv).
  apply bind_ok_inv in Hv as (_ & _ & Hv). rewrite Hh in Hv. cbn [mbind Result_bind] in Hv.
  apply bind_ok_inv in Hv as (_ & _ & Hv). apply bind_ok_inv in Hv as (c & _ & Hv).
  apply bind_ok_inv in Hv as ([] & Ht & [= <-]).
  pose proof (proj1 (terminal_reachability_ok p Hne) Ht) as Hend.
  pose proof (height_walk_sound p H ha Hh) as (Hty & Hb & _). split; [done| | |done|by intros a []%Hend].
  - by apply control_walk_sound in Hc as [? _].
  - intros a. by eapply height_walk_reached.
Qed.

(** ** Words and their effect on a fibre *)

(** Words after which the same fibre may continue at the next address. *)
Definition falls (i : Instr) : bool :=
  match i with
  | IJump _ | IRoutePayload _ _ | IEnd | IEndTerminate | IFail _ | IV2Fork _ _ | IV2RaceClose
  | IV2CancelScope | IV2RouteZeroMatch => false
  | _ => true
  end.

(** Words that open a scope, words that close one. *)
Definition opens (i : Instr) : bool :=
  match i with IV2Guard _ | IV2GuardN _ | IV2GuardR | IV2RaceOpen _ => true | _ => false end.
Definition closes (i : Instr) : bool :=
  match i with
  | IV2GuardEnd | IV2GuardNEnd | IV2GuardREnd | IV2Join _ | IV2RaceClose => true
  | _ => false
  end.

Definition depth_after (i : Instr) (d : nat) : nat :=
  if opens i then S d else if closes i then pred d else d.

(** What the annotation does not cover: a word whose results the interpreter
    does not put on the operand stack, a rollback (which the interpreter
    continues past), a fork whose children would inherit operands, and a word
    with a target that is also the last of the stream. *)
Definition plain_word (p : list Instr) (H : gmap N N) (a : N) (i : Instr) : bool :=
  match i with
  | IExecNative _ argc retc => (argc =? 0)%N && (retc =? 0)%N
  | IV2CancelScope => false
  | IV2Fork _ _ => bool_decide (H !! a = Some 0%N)
  | IBrCounterLt _ _ _ | IV2GuardArmError _ _ => (a + 1 <? len p)%N
  | _ => true
  end.

Definition plain_program (p : list Instr) (H : gmap N N) : bool :=
  forallb (λ e, match H !! e.1 with Some _ => plain_word p H e.1 e.2 | None => true end)
    (zip (N.of_nat <$> seq 0 (length p)) p).

Lemma plain_program_at p H a i :
  plain_program p H = true -> p !! addr_index a = Some i -> is_Some (H !! a) ->
  plain_word p H a i = true.
Proof.
  unfold plain_program. rewrite forallb_forall. intros Hall Hi [h Hh].
  specialize (Hall (a, i)). rewrite <-list_elem_of_In in Hall. cbn in Hall. rewrite Hh in Hall.
  apply Hall, list_elem_of_lookup. exists (addr_index a). rewrite lookup_zip_with.
  rewrite list_lookup_fmap, lookup_seq_lt by (by eapply lookup_lt_Some). cbn. rewrite Hi. cbn.
  unfold addr_index. by rewrite N2Nat.id.
Qed.

Section typed.
Context (p : list Instr) (H : gmap N N) (C : gmap N AbstractStack) (limit : N).
Context (Had : admitted p H C limit).
Context (Hplain : ∀ a i, p !! addr_index a = Some i -> is_Some (H !! a) -> plain_word p H a i = true).
Context (Hlimit : (limit < u32_max)%N) (Hsize : (len p <= u32_max)%N).

(** The annotation of address [a] is [n] operands and [d] handles. *)
Definition point (a : N) (n : N) (d : nat) : Prop :=
  H !! a = Some n ∧ ∃ st, C !! a = Some st ∧ length st = d.

Lemma control_at a st :
  C !! a = Some st -> ∃ i edges, p !! addr_index a = Some i ∧ control_match p a i st = Ok edges ∧
    ∀ e, e ∈ edges -> edge_check e = Ok tt ∧ C !! edge_target e = Some (edge_state e).
Proof.
  intros Hst. destruct (proj2 (ad_stacks _ _ _ _ Had) a st Hst) as (edges & Hl & He).
  apply bind_ok_inv in Hl as (_ & _ & Hl). apply bind_ok_inv in Hl as (i & Hi%ok_or_ok & Hl). eauto.
Qed.

Lemma height_at a h i :
  H !! a = Some h -> p !! addr_index a = Some i ->
  ((stack_effect i).1 <= h)%N ∧ height_match a i = Ok tt ∧
  ∃ succs, successors a i p (len p) = Ok succs ∧ ∀ b, b ∈ succs -> H !! b = Some (next_height h i).
Proof.
  intros Hh Hi. destruct (proj2 (ad_heights _ _ _ _ Had) a h Hh) as (edges & Hl & He).
  apply height_local_edges in Hl as (i' & succs & Hi' & Hp & Hm & Hs & ->).
  assert (i' = i) as -> by congruence. split_and!; [done..|]. exists succs. split; [done|].
  intros b Hb. destruct (He (mkEdge (Ok tt) b (next_height h i))) as [_ Hx]; [|done].
  apply list_elem_of_fmap. eauto.
Qed.

Lemma in_fall a st : (a + 1 < len p)%N -> mkEdge (Ok tt) (a + 1)%N st ∈ fall p a st.
Proof.
  intros Ha. apply list_elem_of_fmap. exists (a + 1)%N. split; [done|]. by apply elem_of_next_address.
Qed.

Lemma pop_expecting_ok a st k popped :
  pop_expecting a st k = Ok popped -> ∃ top, st = popped ++ [top].
Proof.
  unfold pop_expecting. destruct (vec_pop st) as [[l top]|] eqn:Hp; [|done].
  destruct (decide _); [|done]. intros [= <-]. apply vec_pop_Some in Hp. eauto.
Qed.

Lemma close_scope_ok a st k edges :
  close_scope p a st k = Ok edges ->
  ∃ popped, edges = fall p a popped ∧ length st = S (length popped).
Proof.
  intros Hc. apply bind_ok_inv in Hc as (popped & (top & ->)%pop_expecting_ok & [= <-]).
  exists popped. split; [done|]. rewrite length_app. cbn. lia.
Qed.

Lemma join_local_ok a pairing st edges :
  join_local p a pairing st = Ok edges ->
  ∃ popped, edges = fall p a popped ∧ length st = S (length popped).
Proof.
  intros Hj. apply bind_ok_inv in Hj as (_ & _ & Hj). destruct (last st); [|done].
  destruct (decide _); [|done]. by eapply close_scope_ok.
Qed.

(** A word that closes a scope is reached with one open. *)
Lemma control_closes a i st edges :
  control_match p a i st = Ok edges -> closes i = true -> ∃ d, length st = S d.
Proof.
  intros Hm Hc. destruct i; try discriminate Hc; cbn [control_match] in Hm.
  1-3: apply close_scope_ok in Hm as (? & _ & ?); eauto.
  - apply bind_ok_inv in Hm as (popped & (top & ->)%pop_expecting_ok & _).
    rewrite length_app. cbn. exists (length popped). lia.
  - apply join_local_ok in Hm as (? & _ & ?); eauto.
Qed.

(** The state of a word that passes its entry stack on. *)
Lemma pass_on_ok a i st edges b succs :
  pass_on p a i st = Ok edges -> successors a i p (len p) = Ok succs -> b ∈ succs ->
  mkEdge (Ok tt) b st ∈ edges.
Proof.
  intros Hp Hs Hb. unfold pass_on in Hp. rewrite Hs in Hp. injection Hp as <-.
  apply list_elem_of_fmap. eauto.
Qed.

Lemma successors_fall a i succs :
  successors a i p (len p) = Ok succs -> falls i = true -> (a + 1 < len p)%N -> (a + 1)%N ∈ succs.
Proof.
  intros Hs Hf Ha. assert (Hn : (a + 1)%N ∈ next_address a (len p)) by (by apply elem_of_next_address).
  destruct i; try discriminate Hf; cbn [successors] in Hs; try (by injection Hs as <-);
    apply bind_ok_inv in Hs as (? & _ & [= <-]); by right.
Qed.

(** The entry state a word that falls through gives the next address. *)
Lemma control_fall a i st edges :
  control_match p a i st = Ok edges -> falls i = true -> (a + 1 < len p)%N ->
  ∃ st', mkEdge (Ok tt) (a + 1)%N st' ∈ edges ∧ length st' = depth_after i (length st).
Proof.
  intros Hm Hf Ha. pose proof (in_fall a) as Hin.
  assert (Hpass : pass_on p a i st = Ok edges -> mkEdge (Ok tt) (a + 1)%N st ∈ edges).
  { intros Hp. pose proof Hp as Hp'. apply bind_ok_inv in Hp' as (succs & Hs & _).
    eapply pass_on_ok; [done..|]. by eapply successors_fall. }
  assert (Hsnoc : ∀ k, length (open_scope a st k) = S (length st))
    by (intros k; unfold open_scope; rewrite length_app; cbn; lia).
  destruct i; try discriminate Hf; unfold depth_after; cbn [control_match opens closes] in *;
    try (exists st; split; [by apply Hpass | done]).
  all: try (apply close_scope_ok in Hm as (popped & -> & ->); exists popped; split; [by apply Hin | done]).
  all: try (injection Hm as <-; eexists; split; [first [by apply Hin | right; by apply Hin] | done || apply Hsnoc]).
  all: unfold arm_timer_local, timer_cycle_local, arm_error_local in Hm.
  all: repeat match goal with
    | H : _ ≫= _ = Ok _ |- _ => apply bind_ok_inv in H as (? & ? & H)
    | H : match ?x with _ => _ end = Ok _ |- _ => destruct x
    end; try discriminate.
  all: try (injection Hm as <-; eexists; split; [by apply Hin | done || apply Hsnoc]).
  apply join_local_ok in Hm as (popped & -> & ->); exists popped; split; [by apply Hin | done].
Qed.

(** ** Falling through stays in the program *)

Lemma can_end_step a : can_end p a -> terminal_at p a ∨ ∃ b, cfg p a b.
Proof.
  intros (t & Hr & Ht). inversion Hr as [|? b ? Hab]; subst; [by left | right; eauto].
Qed.

Lemma fall_in_range a h st i :
  H !! a = Some h -> C !! a = Some st -> p !! addr_index a = Some i -> falls i = true ->
  (a + 1 < len p)%N.
Proof.
  intros Hh Hst Hi Hf.
  destruct (height_at a h i Hh Hi) as (_ & Hm & succs & Hs & _).
  destruct (control_at a st Hst) as (i' & edges & Hi' & Hc & He).
  assert (i' = i) as -> by congruence.
  assert (Hend : can_end p a) by (apply Had, Had; eauto).
  assert (Hpl : plain_word p H a i = true) by (apply Hplain; eauto).
  destruct (can_end_step a Hend) as [Ht|(b & succs' & (i' & Hi'' & Hs') & Hb)].
  { unfold terminal_at in Ht. rewrite Hi in Ht. destruct i; try discriminate Hf; discriminate Ht. }
  assert (i' = i) as -> by congruence. assert (succs' = succs) as -> by congruence.
  assert (Hlt : (a < b)%N -> (a + 1 < len p)%N).
  { intros Hab. pose proof (successors_range p a i succs b Hs Hb). lia. }
  assert (Hnext : b ∈ next_address a (len p) -> (a + 1 < len p)%N)
    by (by intros [_ ?]%elem_of_next_address).
  destruct i; try discriminate Hf; cbn [successors] in Hs; try (injection Hs as <-; by apply Hnext).
  all: apply bind_ok_inv in Hs as (? & _ & [= <-]); apply elem_of_cons in Hb as [->|Hb]; [|by apply Hnext].
  all: try (apply Hlt; cbn in Hm; destruct (N.leb_spec target a); [done | lia]).
  all: try (by apply N.ltb_lt).
  all: apply Hlt; injection Hc as <-; edestruct He as [Hfw _]; [by left|].
  all: cbn in Hfw; unfold check_forward in Hfw; destruct (N.leb_spec handler a); [done | lia].
Qed.

(** [addr_next] is the next address of the program. *)
Lemma addr_next_fall a h st i :
  H !! a = Some h -> C !! a = Some st -> p !! addr_index a = Some i -> falls i = true ->
  addr_next a = (a + 1)%N.
Proof.
  intros Hh Hst Hi Hf. pose proof (fall_in_range a h st i Hh Hst Hi Hf).
  apply sat_add_exact. lia.
Qed.

(** Operand heights at their width: no word of an admitted plain program wraps. *)
Lemma next_height_exact a h i :
  H !! a = Some h -> p !! addr_index a = Some i ->
  next_height h i = (h - (stack_effect i).1 + (stack_effect i).2)%N.
Proof.
  intros Hh Hi. pose proof (ad_bound _ _ _ _ Had a h Hh) as Hb.
  assert (Hpl : plain_word p H a i = true) by (apply Hplain; eauto).
  assert (Hone : ((stack_effect i).2 <= 1)%N).
  { destruct i; cbn; try lia. cbn in Hpl. apply andb_prop in Hpl as [_ ->%N.eqb_eq]. lia. }
  unfold next_height. destruct (stack_effect i) as [pops pushes]. cbn in *.
  apply N.mod_small. unfold u32_max in *. lia.
Qed.

(** ** Moving along the annotation *)

Lemma point_fall a n d i :
  point a n d -> p !! addr_index a = Some i -> falls i = true ->
  point (addr_next a) (n - (stack_effect i).1 + (stack_effect i).2) (depth_after i d).
Proof.
  intros [Hh (st & Hst & <-)] Hi Hf.
  pose proof (fall_in_range a n st i Hh Hst Hi Hf) as Hr.
  rewrite (addr_next_fall a n st i Hh Hst Hi Hf). split.
  - destruct (height_at a n i Hh Hi) as (_ & _ & succs & Hs & Hall).
    rewrite <-(next_height_exact a n i Hh Hi). by eapply Hall, successors_fall.
  - destruct (control_at a st Hst) as (i' & edges & Hi' & Hc & He).
    assert (i' = i) as -> by congruence.
    destruct (control_fall a i st edges Hc Hf Hr) as (st' & Hin & Hl).
    destruct (He _ Hin) as [_ Ht]. eauto.
Qed.

Lemma point_operands a n d i :
  point a n d -> p !! addr_index a = Some i -> ((stack_effect i).1 <= n)%N.
Proof. intros [Hh _] Hi. by eapply height_at. Qed.

Lemma point_handles a n d i :
  point a n d -> p !! addr_index a = Some i -> closes i = true -> ∃ d', d = S d'.
Proof.
  intros [_ (st & Hst & <-)] Hi Hc. destruct (control_at a st Hst) as (i' & edges & Hi' & Hm & _).
  assert (i' = i) as -> by congruence. by eapply control_closes.
Qed.

(** A jump target: a successor of a word that passes its stack on. *)
Definition branches (i : Instr) : bool :=
  match i with
  | IJump _ | IBrIf _ | IBrIfNot _ | IBrCounterLt _ _ _ | IRoutePayload _ _ => true
  | _ => false
  end.

Lemma point_branch a n d i b :
  point a n d -> p !! addr_index a = Some i -> branches i = true ->
  (∀ succs, successors a i p (len p) = Ok succs -> b ∈ succs) ->
  point b (n - (stack_effect i).1 + (stack_effect i).2) d.
Proof.
  intros [Hh (st & Hst & <-)] Hi Hbr Hb.
  destruct (height_at a n i Hh Hi) as (_ & _ & succs & Hs & Hall). split.
  - rewrite <-(next_height_exact a n i Hh Hi). by apply Hall, Hb.
  - destruct (control_at a st Hst) as (i' & edges & Hi' & Hc & He).
    assert (i' = i) as -> by congruence.
    destruct (He (mkEdge (Ok tt) b st)) as [_ Ht]; [|eauto].
    eapply pass_on_ok; [|done|by apply Hb]. by destruct i.
Qed.

(** The entry of a child of a fork. *)
Lemma point_fork a n d targets pairing b :
  point a n d -> p !! addr_index a = Some (IV2Fork targets pairing) -> b ∈ targets ->
  n = 0%N ∧ point b 0 (S d).
Proof.
  intros [Hh (st & Hst & <-)] Hi Hb.
  assert (Hpl : plain_word p H a (IV2Fork targets pairing) = true) by (apply Hplain; eauto).
  cbn in Hpl. apply bool_decide_eq_true in Hpl. assert (n = 0%N) as -> by congruence.
  split; [done|]. destruct (height_at a 0 _ Hh Hi) as (_ & _ & succs & Hs & Hall). split.
  - apply bind_ok_inv in Hs as (? & _ & [= <-]). by apply Hall.
  - destruct (control_at a st Hst) as (i' & edges & Hi' & Hc & He).
    assert (i' = IV2Fork targets pairing) as -> by congruence. injection Hc as <-.
    destruct (He (forward_edge a b "fork" (st ++ [mkToken SKBarrier pairing]))) as [_ Ht].
    + apply list_elem_of_fmap. eauto.
    + eexists. split; [exact Ht|]. cbn. rewrite length_app. cbn. lia.
Qed.
(** ** The interpreter *)

Definition fiber_typed (f : Fiber) : Prop :=
  point (fiber_pc f) (len (fiber_stack f)) (length (effective_control_stack f)).

Record tick_typed (ts : TickState) : Prop := {
  tt_point : point (fiber_pc (ts_fiber ts)) (len (fiber_stack (ts_fiber ts)))
    (length (fiber_control_stack (ts_fiber ts)));
  tt_running : fiber_wait (ts_fiber ts) = WRunning;
  tt_fresh : ch_fibers_upsert (ts_changes ts) = [];
}.

Definition step_typed (o : StepOutcome) : Prop :=
  match o with
  | Continue ts => tick_typed ts
  | Return t => ∀ f, f ∈ fibers_upsert t -> fiber_typed f
  end.

(** The two failures a verified program cannot have. *)
Definition stuck (e : TransitionError) : bool :=
  match e with StackUnderflow _ | ProgramCounterOutOfBounds _ => true | _ => false end.

(** [r] is not stuck, and [Q] holds of its value. *)
Definition safe {A} (Q : A -> Prop) (r : Result TransitionError A) : Prop :=
  match r with Ok a => Q a | Err e => stuck e = false end.

Lemma safe_bind {A B} (R : A -> Prop) (Q : B -> Prop) r (f : A -> Result TransitionError B) :
  safe R r -> (∀ a, R a -> safe Q (f a)) -> safe Q (r ≫= f).
Proof. destruct r; cbn; auto. Qed.

Lemma safe_weaken {A} (R Q : A -> Prop) r : safe R r -> (∀ a, R a -> Q a) -> safe Q r.
Proof. destruct r; cbn; auto. Qed.

Lemma safe_ok_or {A} (Q : A -> Prop) e (o : option A) :
  stuck e = false -> (∀ a, o = Some a -> Q a) -> safe Q (ok_or e o).
Proof. destruct o; cbn; auto. Qed.

Lemma safe_ensure (Q : unit -> Prop) b e : stuck e = false -> Q tt -> safe Q (ensure b e).
Proof. by destruct b. Qed.

Lemma safe_map_err {A E} (g : E -> TransitionError) (Q : A -> Prop) (r : Result E A) :
  (∀ e, stuck (g e) = false) -> (∀ a, Q a) -> safe Q (map_err g r).
Proof. destruct r; cbn; auto. Qed.

(** The operand on top, under a word that pops one. *)
Lemma safe_pop_value what ts i Q :
  tick_typed ts -> p !! addr_index (fiber_pc (ts_fiber ts)) = Some i -> (stack_effect i).1 = 1%N ->
  (∀ rest v, len (fiber_stack (ts_fiber ts)) = (len rest + 1)%N ->
     Q (on_fiber (set_stack rest) ts, v)) ->
  safe Q (pop_value what ts).
Proof.
  intros [Hpt _ _] Hi He HQ. pose proof (point_operands _ _ _ _ Hpt Hi) as Hn. rewrite He in Hn.
  unfold pop_value. destruct (vec_pop (fiber_stack (ts_fiber ts))) as [[rest v]|] eqn:E; cbn.
  - apply HQ. apply vec_pop_Some in E as ->. unfold len. rewrite length_app. cbn. lia.
  - apply vec_pop_None in E. rewrite E in Hn. unfold len in Hn. cbn in Hn. lia.
Qed.

(** The handle on top, under a word that closes a scope. *)
Lemma safe_pop_handle what ts i Q :
  tick_typed ts -> p !! addr_index (fiber_pc (ts_fiber ts)) = Some i -> closes i = true ->
  (∀ rest h, length (fiber_control_stack (ts_fiber ts)) = S (length rest) ->
     Q (on_changes (push_delta (CSPop (fiber_id (ts_fiber ts)) h))
          (on_fiber (set_control_stack rest) ts), h)) ->
  safe Q (pop_handle what ts).
Proof.
  intros [Hpt _ _] Hi Hc HQ. destruct (point_handles _ _ _ _ Hpt Hi Hc) as [d Hd].
  unfold pop_handle. destruct (vec_pop (fiber_control_stack (ts_fiber ts))) as [[rest h]|] eqn:E; cbn.
  - apply HQ. apply vec_pop_Some in E as ->. rewrite length_app. cbn. lia.
  - apply vec_pop_None in E. by rewrite E in Hd.
Qed.

(** Falling through after a word with the effect the annotation gives it. *)
Lemma fall_through_typed ts ts' i :
  tick_typed ts -> p !! addr_index (fiber_pc (ts_fiber ts)) = Some i -> falls i = true ->
  fiber_pc (ts_fiber ts') = fiber_pc (ts_fiber ts) -> fiber_wait (ts_fiber ts') = WRunning ->
  ch_fibers_upsert (ts_changes ts') = [] ->
  len (fiber_stack (ts_fiber ts')) =
    (len (fiber_stack (ts_fiber ts)) - (stack_effect i).1 + (stack_effect i).2)%N ->
  length (fiber_control_stack (ts_fiber ts')) =
    depth_after i (length (fiber_control_stack (ts_fiber ts))) ->
  step_typed (fall_through ts').
Proof.
  intros [Hpt _ _] Hi Hf Hpc Hw Hu Hs Hd. split; cbn; [|done..].
  rewrite Hpc, Hs, Hd. by apply point_fall.
Qed.

(** Parking a typed fibre. *)
Lemma park_typed ts :
  ch_fibers_upsert (ts_changes ts) = [] -> fiber_typed (ts_fiber ts) -> step_typed (park ts).
Proof.
  intros Hu Hf g. unfold park. autorewrite with kernel. cbn. rewrite Hu. cbn.
  by intros ->%list_elem_of_singleton.
Qed.

(** A fibre that stays where it is, under any wait that hides no handle. *)
Lemma stay_typed ts f :
  tick_typed ts -> fiber_pc f = fiber_pc (ts_fiber ts) -> fiber_stack f = fiber_stack (ts_fiber ts) ->
  effective_control_stack f = fiber_control_stack (ts_fiber ts) -> fiber_typed f.
Proof. intros [Hpt _ _] Hpc Hs Hd. unfold fiber_typed. by rewrite Hpc, Hs, Hd. Qed.

Section exec.
Context {P : Platform} (w : ExecutableWorkflow) (s : Snapshot) (ctx : DeterministicContext).

(** The word under the program counter of a typed tick. *)
Definition here (ts : TickState) (i : Instr) : Prop :=
  tick_typed ts ∧ p !! addr_index (fiber_pc (ts_fiber ts)) = Some i.

Lemma fall_here ts ts' i :
  here ts i -> falls i = true -> fiber_pc (ts_fiber ts') = fiber_pc (ts_fiber ts) ->
  fiber_wait (ts_fiber ts') = fiber_wait (ts_fiber ts) ->
  ch_fibers_upsert (ts_changes ts') = ch_fibers_upsert (ts_changes ts) ->
  len (fiber_stack (ts_fiber ts')) =
    (len (fiber_stack (ts_fiber ts)) - (stack_effect i).1 + (stack_effect i).2)%N ->
  length (fiber_control_stack (ts_fiber ts')) =
    depth_after i (length (fiber_control_stack (ts_fiber ts))) ->
  step_typed (fall_through ts').
Proof.
  intros [Ht Hi] Hf Hpc Hw Hu Hs Hd. eapply fall_through_typed; try done.
  - rewrite Hw. apply Ht.
  - rewrite Hu. apply Ht.
Qed.

Lemma park_here ts ts' i :
  here ts i -> fiber_pc (ts_fiber ts') = fiber_pc (ts_fiber ts) ->
  fiber_stack (ts_fiber ts') = fiber_stack (ts_fiber ts) ->
  effective_control_stack (ts_fiber ts') = fiber_control_stack (ts_fiber ts) ->
  ch_fibers_upsert (ts_changes ts') = ch_fibers_upsert (ts_changes ts) -> step_typed (park ts').
Proof.
  intros [Ht Hi] Hpc Hs Hd Hu. apply park_typed; [rewrite Hu; apply Ht | by eapply stay_typed].
Qed.

(** Parking past the word. *)
Lemma park_next ts ts' i :
  here ts i -> falls i = true -> fiber_pc (ts_fiber ts') = addr_next (fiber_pc (ts_fiber ts)) ->
  ch_fibers_upsert (ts_changes ts') = ch_fibers_upsert (ts_changes ts) ->
  len (fiber_stack (ts_fiber ts')) =
    (len (fiber_stack (ts_fiber ts)) - (stack_effect i).1 + (stack_effect i).2)%N ->
  length (effective_control_stack (ts_fiber ts')) =
    depth_after i (length (fiber_control_stack (ts_fiber ts))) ->
  step_typed (park ts').
Proof.
  intros [Ht Hi] Hf Hpc Hu Hs Hd. apply park_typed; [rewrite Hu; apply Ht|].
  unfold fiber_typed. rewrite Hpc, Hs, Hd. apply point_fall; [apply Ht|done..].
Qed.

(** What every popping word starts with. *)
Lemma pop_value_then {B} what ts i (k : TickState * Value -> Result TransitionError B) Q :
  here ts i -> (stack_effect i).1 = 1%N ->
  (∀ rest v, len (fiber_stack (ts_fiber ts)) = (len rest + 1)%N ->
     safe Q (k (on_fiber (set_stack rest) ts, v))) ->
  safe Q (pop_value what ts ≫= k).
Proof.
  intros [Ht Hi] He Hk. eapply safe_bind; [|exact (λ a Ha, Ha)]. by eapply safe_pop_value.
Qed.

Lemma pop_handle_then {B} what ts i (k : TickState * RecordId -> Result TransitionError B) Q :
  here ts i -> closes i = true ->
  (∀ rest h, length (fiber_control_stack (ts_fiber ts)) = S (length rest) ->
     safe Q (k (on_changes (push_delta (CSPop (fiber_id (ts_fiber ts)) h))
          (on_fiber (set_control_stack rest) ts), h))) ->
  safe Q (pop_handle what ts ≫= k).
Proof.
  intros [Ht Hi] Hc Hk. eapply safe_bind; [|exact (λ a Ha, Ha)]. by eapply safe_pop_handle.
Qed.

(** Close a fall-through whose effect is a computation. *)
Ltac fall := cbn [safe]; eapply fall_here; [eassumption|reflexivity..| |]; cbn; unfold depth_after; cbn;
  unfold len in *; rewrite ?length_app; cbn; lia.

Lemma exec_push_safe v ts i :
  here ts i -> falls i = true -> stack_effect i = (0, 1)%N -> opens i = false -> closes i = false ->
  safe step_typed (exec_push v ts).
Proof.
  intros Hh Hf He Ho Hc. cbn [safe exec_push]. eapply fall_here; try done; rewrite ?He; cbn.
  - unfold len. rewrite length_app. cbn. lia.
  - unfold depth_after. by rewrite Ho, Hc.
Qed.

(** A guard that is not a stuck failure, then the rest. *)
Lemma guarded {A B} (r : Result TransitionError A) (k : A -> Result TransitionError B) Q :
  safe (λ _, True) r -> (∀ a, safe Q (k a)) -> safe Q (r ≫= k).
Proof. intros Hr Hk. by eapply safe_bind; [exact Hr|]. Qed.

Lemma exec_pop_safe ts : here ts IPop -> safe step_typed (exec_pop ts).
Proof. intros Hh. eapply pop_value_then; [done..|]. intros rest v Hl. fall. Qed.

Lemma exec_store_flag_safe key ts :
  here ts (IStoreFlag key) -> safe step_typed (exec_store_flag key ts).
Proof. intros Hh. eapply pop_value_then; [done..|]. intros rest v Hl. fall. Qed.

Lemma exec_mi_load_element_safe flag index ts :
  here ts (IV2MiLoadElement flag index) -> safe step_typed (exec_mi_load_element flag index ts).
Proof.
  intros Hh. apply guarded; [by apply safe_ok_or|]. intros v. by eapply exec_push_safe.
Qed.

Lemma exec_mi_arity_check_safe flag max ts :
  here ts (IV2MiArityCheck flag max) -> safe step_typed (exec_mi_arity_check flag max ts).
Proof. intros Hh. unfold exec_mi_arity_check. destruct (_ <? _)%Z; [done|]. fall. Qed.

Lemma exec_inc_counter_safe n ts : here ts (IIncCounter n) -> safe step_typed (exec_inc_counter n ts).
Proof. intros Hh. unfold exec_inc_counter. cbv zeta. fall. Qed.

(** Branches. *)
Lemma branch_here ts ts' i b :
  here ts i -> branches i = true -> (∀ succs, successors (fiber_pc (ts_fiber ts)) i p (len p) = Ok succs -> b ∈ succs) ->
  fiber_pc (ts_fiber ts') = b -> fiber_wait (ts_fiber ts') = fiber_wait (ts_fiber ts) ->
  ch_fibers_upsert (ts_changes ts') = ch_fibers_upsert (ts_changes ts) ->
  len (fiber_stack (ts_fiber ts')) =
    (len (fiber_stack (ts_fiber ts)) - (stack_effect i).1 + (stack_effect i).2)%N ->
  fiber_control_stack (ts_fiber ts') = fiber_control_stack (ts_fiber ts) ->
  step_typed (Continue ts').
Proof.
  intros [Ht Hi] Hbr Hb Hpc Hw Hu Hs Hd. split.
  - rewrite Hpc, Hs, Hd. eapply point_branch; [apply Ht|done..].
  - rewrite Hw. apply Ht.
  - rewrite Hu. apply Ht.
Qed.

Lemma exec_branch_safe on_true target ts i :
  here ts i -> i = IBrIf target ∨ i = IBrIfNot target -> safe step_typed (exec_branch on_true target ts).
Proof.
  intros Hh Hi. eapply (pop_value_then _ _ i); [done|by destruct Hi as [-> | ->]|].
  intros rest v Hl. cbn [safe]. destruct (bool_decide _).
  - eapply (branch_here ts _ i target); try done; [by destruct Hi as [-> | ->]| |].
    + intros succs. destruct Hi as [-> | ->]; intros Hs; apply bind_ok_inv in Hs as (? & _ & [= <-]); by left.
    + destruct Hi as [-> | ->]; cbn; lia.
  - change (step_typed (fall_through (on_fiber (set_stack rest) ts))).
    eapply (fall_here ts _ i); try done; destruct Hi as [-> | ->]; cbn; try done; lia.
Qed.

Lemma exec_br_counter_lt_safe n limit' target ts :
  here ts (IBrCounterLt n limit' target) -> safe step_typed (exec_br_counter_lt n limit' target ts).
Proof.
  intros Hh. unfold exec_br_counter_lt. destruct (_ <? _)%N; [|fall]. cbn [safe].
  eapply (branch_here ts); try done; [|cbn; lia].
  intros succs Hs. apply bind_ok_inv in Hs as (? & _ & [= <-]). by left.
Qed.

Lemma fail_contract_safe i ts message :
  here ts i -> safe (λ t, step_typed (Return t))
    (fail_contract (ts_instance ts) (ts_fiber ts) (ts_changes ts) ctx message).
Proof.
  intros [Ht Hi]. unfold fail_contract. apply guarded; [by apply safe_ok_or|]. intros at_.
  cbn [safe step_typed]. intros f. autorewrite with kernel. cbn. rewrite (tt_fresh _ Ht). cbn.
  intros ->%list_elem_of_singleton. by eapply stay_typed.
Qed.

Lemma return_contract i ts message :
  here ts i -> safe step_typed
    (t ← fail_contract (ts_instance ts) (ts_fiber ts) (ts_changes ts) ctx message; Ok (Return t)).
Proof. intros Hh. eapply safe_bind; [by eapply fail_contract_safe|]. done. Qed.

Lemma exec_route_payload_safe branches' default_target ts :
  here ts (IRoutePayload branches' default_target) ->
  safe step_typed (exec_route_payload w ctx branches' default_target ts).
Proof.
  intros Hh. unfold exec_route_payload. cbv zeta.
  match goal with |- safe _ (match ?t with _ => _ end) => destruct t as [b|] eqn:Hb end;
    [|by eapply return_contract].
  cbn [safe]. eapply (branch_here ts); try done; [|cbn; lia].
  intros succs Hs. apply bind_ok_inv in Hs as (? & _ & Hs). apply bind_ok_inv in Hs as (? & _ & [= <-]).
  rewrite elem_of_app. destruct (find_map _ _) as [b'|] eqn:Hf.
  - left. injection Hb as ->. apply find_map_Some in Hf as (l1 & br & l2 & -> & Hx & _).
    destruct (placeholder_matches _ _ _); [|done]. injection Hx as <-.
    apply list_elem_of_fmap. exists br. split; [done|]. set_solver.
  - right. rewrite Hb. by left.
Qed.

(** Tasks. *)
Lemma apply_completion_safe i c : safe (λ _, True) (apply_completion i c).
Proof.
  unfold apply_completion. generalize (btree_entries (jc_orch_flags c)) as l.
  generalize (set_payload (jc_domain_payload c) (content_hash (as_bytes (jc_domain_payload c))) i) as j.
  intros j l. revert j. induction l as [|[k v] l IH]; intros j; cbn [try_fold]; [done|].
  unfold completion_flag at 1. destruct (raw ← strip_prefix "flag_" k; parse_u32 raw); [apply IH | done].
Qed.

Lemma activate_job_typed task key id ts i : here ts i -> step_typed (activate_job task key id ts).
Proof. intros Hh. unfold activate_job. cbv zeta. eapply park_here; [done|reflexivity..]. Qed.

Lemma exec_native_safe n argc retc ts :
  here ts (IExecNative n argc retc) -> safe step_typed (exec_native w s n retc ts).
Proof.
  intros Hh. pose proof Hh as [Ht Hi].
  assert (Hpl : plain_word p H (fiber_pc (ts_fiber ts)) (IExecNative n argc retc) = true).
  { apply Hplain; [done|]. destruct (tt_point _ Ht) as [-> _]. eauto. }
  cbn in Hpl. apply andb_prop in Hpl as [->%N.eqb_eq ->%N.eqb_eq].
  unfold exec_native. apply guarded; [by apply safe_ok_or|]. intros task. cbv zeta.
  destruct (sn_dedupe s !! _); [|by eapply activate_job_typed].
  apply guarded; [apply apply_completion_safe|]. intros i'. cbn [safe].
  eapply fall_here; [done|reflexivity..| |done]. cbn. rewrite app_nil_r. lia.
Qed.

Lemma exec_dsl_task_safe n args produces ts :
  here ts (IExecDslTask n args produces) -> safe step_typed (exec_dsl_task w s n produces ts).
Proof.
  intros Hh. unfold exec_dsl_task. apply guarded; [by apply safe_ok_or|]. intros task. cbv zeta.
  destruct (sn_dedupe s !! _); [|by eapply activate_job_typed].
  apply guarded; [apply apply_completion_safe|]. intros i'.
  apply guarded; [destruct produces; [by apply safe_map_err | done]|]. intros i''. fall.
Qed.

(** [invoke_ffi] stages an effect and an event. *)
Lemma invoke_ffi_then {B} decl missing mismatch template ts
    (k : TickState * EffectId -> Result TransitionError B) Q :
  (∀ c id, ch_fibers_upsert c = ch_fibers_upsert (ts_changes ts) ->
     safe Q (k (on_changes (λ _, c) ts, id))) ->
  safe Q (invoke_ffi w decl missing mismatch template ts ≫= k).
Proof.
  intros Hk. unfold invoke_ffi. cbv zeta.
  destruct decl as [d|]; cbn [ok_or mbind Result_bind]; [|done].
  destruct (ensure _ _) as [[]|e] eqn:E; cbn [mbind Result_bind].
  2:{ unfold ensure in E. destruct (bool_decide _); [done|]. by injection E as <-. }
  destruct (encode_ffi_inputs _ _); cbn [map_err mbind Result_bind]; [|done]. by apply Hk.
Qed.

Lemma exec_ffi_safe template argc retc ts :
  here ts (IExecFfi template argc retc) -> safe step_typed (exec_ffi w template ts).
Proof.
  intros Hh. apply invoke_ffi_then. intros c id Hc. eapply park_here; [done|reflexivity..|exact Hc].
Qed.

Lemma exec_await_effect_safe template argc retc ts :
  here ts (IV2AwaitEffect template argc retc) -> safe step_typed (exec_await_effect w template ts).
Proof.
  intros Hh. apply invoke_ffi_then. intros c id Hc. eapply park_here; [done|reflexivity..|exact Hc].
Qed.

(** Messages and timers. *)
Lemma resolve_key_safe i pc : safe (λ _, True) (resolve_correlation_key_at w i pc).
Proof.
  unfold resolve_correlation_key_at. apply guarded; [by apply safe_ok_or|]. intros ?. by apply safe_map_err.
Qed.

Lemma exec_publish_message_safe name ts :
  here ts (IPublishMessage name) -> safe step_typed (exec_publish_message w ctx name ts).
Proof.
  intros Hh. unfold exec_publish_message. cbv zeta. apply guarded; [apply resolve_key_safe|]. intros key.
  do 3 (apply guarded; [by apply safe_ok_or|]; intros ?). fall.
Qed.

Lemma park_on_timer_typed deadline rest ts i :
  here ts i -> falls i = true -> stack_effect i = (1, 0)%N -> opens i = false -> closes i = false ->
  len (fiber_stack (ts_fiber ts)) = (len rest + 1)%N ->
  step_typed (park_on_timer deadline (on_fiber (set_stack rest) ts)).
Proof.
  intros Hh Hf He Ho Hc Hl. unfold park_on_timer. cbv zeta. eapply park_next; try done; cbn.
  - rewrite He. cbn. lia.
  - unfold depth_after. by rewrite Ho, Hc.
Qed.

Lemma as_i64_safe reason v : safe (λ _, True) (as_i64 reason v).
Proof. by destruct v. Qed.

Lemma exec_wait_for_safe ts : here ts IV2WaitFor -> safe step_typed (exec_wait_for ctx ts).
Proof.
  intros Hh. eapply pop_value_then; [done..|]. intros rest v Hl. apply guarded; [apply as_i64_safe|].
  intros d. apply guarded; [by apply safe_ok_or|]. intros deadline.
  cbn [safe]. by eapply park_on_timer_typed.
Qed.

Lemma exec_wait_until_safe ts : here ts IV2WaitUntil -> safe step_typed (exec_wait_until ts).
Proof.
  intros Hh. eapply pop_value_then; [done..|]. intros rest v Hl. apply guarded; [apply as_i64_safe|].
  intros d. cbn [safe]. by eapply park_on_timer_typed.
Qed.

Lemma exec_wait_msg_safe name ts : here ts (IV2WaitMsg name) -> safe step_typed (exec_wait_msg w s name ts).
Proof.
  intros Hh. unfold exec_wait_msg. cbv zeta. apply guarded; [apply resolve_key_safe|]. intros key.
  destruct (list_find _ _) as [[k b]|].
  - apply guarded; [|intros i'; fall]. destruct (bm_payload_hash _); [|done].
    apply guarded; [by apply safe_ok_or | done].
  - cbn [safe]. eapply park_next; try done. cbn. lia.
Qed.

(** Ends. *)
Lemma return_untouched ts c i' i :
  here ts i -> ch_fibers_upsert c = ch_fibers_upsert (ts_changes ts) ->
  step_typed (Return (finish c i')).
Proof.
  intros [Ht _] Hc. cbn [step_typed]. autorewrite with kernel. rewrite Hc, (tt_fresh _ Ht).
  by intros f ?%not_elem_of_nil.
Qed.

Lemma exec_end_safe ts : here ts IEnd -> safe step_typed (exec_end s ctx ts).
Proof.
  intros Hh. unfold exec_end. cbv zeta. case_bool_decide.
  - apply guarded; [by apply safe_ok_or|]. intros at_. by eapply return_untouched.
  - by eapply return_untouched.
Qed.

Lemma exec_end_terminate_safe ts : here ts IEndTerminate -> safe step_typed (exec_end_terminate s ctx ts).
Proof.
  intros Hh. unfold exec_end_terminate. apply guarded; [by apply safe_ok_or|]. intros at_. cbv zeta.
  cbn [safe]. eapply return_untouched; [done|]. by rewrite (proj1 (push_retires_fields _ _)).
Qed.

(** Scopes. *)
Lemma open_record_typed mk ev ts i :
  here ts i -> falls i = true -> stack_effect i = (0, 0)%N -> opens i = true ->
  step_typed (fall_through (open_record ctx mk ev ts)).
Proof.
  intros Hh Hf He Ho. eapply fall_here; try done; cbn.
  - rewrite He. cbn. lia.
  - unfold depth_after. rewrite Ho, length_app. cbn. lia.
Qed.

Lemma exec_guard_end_safe what ts i :
  here ts i -> falls i = true -> stack_effect i = (0, 0)%N -> opens i = false -> closes i = true ->
  safe step_typed (exec_guard_end what ts).
Proof.
  intros Hh Hf He Ho Hc. eapply pop_handle_then; [done..|]. intros rest h Hl. cbn [safe].
  eapply fall_here; try done; cbn.
  - rewrite He. cbn. lia.
  - unfold depth_after. rewrite Ho, Hc, Hl. done.
Qed.

Lemma exec_guard_arm_timer_safe ts :
  here ts IV2GuardArmTimer -> safe step_typed (exec_guard_arm_timer s ctx ts).
Proof.
  intros Hh. eapply pop_value_then; [done..|]. intros rest v Hl. apply guarded; [apply as_i64_safe|].
  intros d. cbv zeta. apply guarded; [by apply safe_ok_or|]. intros id. fall.
Qed.

Lemma exec_guard_timer_cycle_safe n ts :
  here ts (IV2GuardTimerCycle n) -> safe step_typed (exec_guard_timer_cycle n ts).
Proof.
  intros Hh. unfold exec_guard_timer_cycle.
  destruct (vec_pop _) as [[rest e]|]; [|done]. repeat case_match; try done. fall.
Qed.

Lemma arm_error_rev_safe id route l : safe (λ _, True) (arm_error_rev id route l).
Proof.
  induction l as [|m l IH]; cbn [arm_error_rev]; [done|].
  destruct m as [r| |]; [|by apply guarded..]. destruct (_ =? _)%N; [|by apply guarded].
  by destruct (rec_state r), (rec_kind r).
Qed.

Lemma exec_guard_arm_error_safe code handler ts :
  here ts (IV2GuardArmError code handler) -> safe step_typed (exec_guard_arm_error code handler ts).
Proof.
  intros Hh. unfold exec_guard_arm_error. apply guarded; [by apply safe_ok_or|]. intros id.
  apply guarded; [apply arm_error_rev_safe|]. intros res. apply guarded; [by apply safe_ok_or|].
  intros muts. fall.
Qed.

Lemma exec_arm_timer_safe target ts :
  here ts (IV2ArmTimer target) -> safe step_typed (exec_arm_timer ctx target ts).
Proof.
  intros Hh. eapply pop_value_then; [done..|]. intros rest v Hl. apply guarded; [apply as_i64_safe|].
  intros d. cbv zeta. apply guarded; [by apply safe_ok_or|]. intros id. fall.
Qed.

Lemma exec_arm_msg_safe target name ts :
  here ts (IV2ArmMsg target name) -> safe step_typed (exec_arm_msg w target name ts).
Proof. intros Hh. apply guarded; [apply resolve_key_safe|]. intros key. fall. Qed.

Lemma exec_arm_effect_safe target template argc retc ts :
  here ts (IV2ArmEffect target template argc retc) -> safe step_typed (exec_arm_effect w target template ts).
Proof.
  intros Hh. apply invoke_ffi_then. intros c id Hc. cbn [safe].
  eapply fall_here; [done|reflexivity..|exact Hc| |]; cbn; [lia | done].
Qed.

Lemma exec_race_close_safe ts : here ts IV2RaceClose -> safe step_typed (exec_race_close ts).
Proof.
  intros Hh. pose proof Hh as [Ht _]. eapply pop_handle_then; [done..|]. intros rest h Hl. cbv zeta.
  cbn [safe]. apply park_typed; [apply Ht|]. unfold fiber_typed. cbn. rewrite length_app. cbn.
  destruct Ht as [Hpt _ _]. rewrite Hl in Hpt. by rewrite Nat.add_1_r.
Qed.

Lemma exec_join_safe pairing ts : here ts (IV2Join pairing) -> safe step_typed (exec_join s ts).
Proof.
  intros Hh. pose proof Hh as [Ht _]. eapply pop_handle_then; [done..|]. intros rest h Hl. cbv zeta.
  apply guarded; [by apply safe_ok_or|]. intros r. destruct (_ =? 0)%N; cbn [safe].
  - eapply fall_here; [done|reflexivity..| | |].
    + cbn. rewrite (proj1 (reconcile_fields _ _ _ _)).
      by rewrite (proj1 (push_deletes_fields _ _)).
    + cbn. lia.
    + unfold depth_after. cbn. by rewrite Hl.
  - apply park_typed; [apply Ht|]. unfold fiber_typed. cbn. rewrite length_app. cbn.
    destruct Ht as [Hpt _ _]. rewrite Hl in Hpt. by rewrite Nat.add_1_r.
Qed.

(** A fork spawns its children on its targets, with nothing on their operand
    stacks and one more handle than the parent. *)
Lemma elem_of_fork_fibers st ordinal targets f :
  f ∈ fork_fibers ctx st ordinal targets ->
  fiber_pc f ∈ targets ∧ fiber_stack f = [] ∧ effective_control_stack f = st.
Proof.
  revert ordinal. induction targets as [|t targets IH]; intros ordinal; cbn [fork_fibers].
  - by intros ?%not_elem_of_nil.
  - intros [->|Hf]%elem_of_cons; [split; [by left | done]|].
    destruct (IH _ Hf) as (? & ? & ?). split; [by right | done].
Qed.

Lemma exec_fork_safe targets pairing ts :
  here ts (IV2Fork targets pairing) -> safe step_typed (exec_fork s ctx targets ts).
Proof.
  intros [Ht Hi]. unfold exec_fork. cbv zeta.
  set (rid := derived_id ctx (ts_ordinal ts)). set (o1 := ts_ordinal (next_ordinal ts)).
  match goal with |- context [foldl _ (_, ?r, _, _) _] => set (rec0 := r) end.
  destruct (fork_fold ctx (ts_fiber ts) rid targets o1 rec0 (ts_changes ts) [])
    as (o' & c' & E & Eu & _).
  change (ts_changes (next_ordinal ts)) with (ts_changes ts).
  change (ts_fiber (next_ordinal ts)) with (ts_fiber ts). rewrite E. cbn [safe step_typed].
  intros f. autorewrite with kernel. cbn -[v2_reconcile_ancestor_membership].
  rewrite (proj1 (reconcile_fields _ _ _ _)). cbn. rewrite Eu, (tt_fresh _ Ht). cbn.
  intros (Hpc & Hs & Hd)%elem_of_fork_fibers.
  destruct (point_fork _ _ _ _ _ _ (tt_point _ Ht) Hi Hpc) as [_ Hpt].
  unfold fiber_typed. rewrite Hs, Hd, length_app. cbn. by rewrite Nat.add_1_r.
Qed.

(** ** Every word *)
Lemma exec_instr_safe i ts : here ts i -> safe step_typed (exec_instr w s ctx i ts).
Proof.
  intros Hh. destruct i; cbn [exec_instr];
    try (by eapply exec_push_safe); try (by eapply return_contract);
    try (by eapply exec_guard_end_safe);
    eauto using exec_pop_safe, exec_store_flag_safe, exec_mi_load_element_safe,
      exec_mi_arity_check_safe, exec_inc_counter_safe, exec_branch_safe, exec_br_counter_lt_safe,
      exec_route_payload_safe, exec_native_safe, exec_dsl_task_safe, exec_ffi_safe,
      exec_await_effect_safe, exec_publish_message_safe, exec_wait_for_safe, exec_wait_until_safe,
      exec_wait_msg_safe, exec_end_safe, exec_end_terminate_safe, exec_guard_arm_timer_safe,
      exec_guard_timer_cycle_safe, exec_guard_arm_error_safe, exec_arm_timer_safe,
      exec_arm_msg_safe, exec_arm_effect_safe, exec_race_close_safe, exec_join_safe, exec_fork_safe.
  all: try (cbn [safe]; by eapply open_record_typed).
  - cbn [safe]. eapply (branch_here ts); try done; [|cbn; lia].
    intros succs Hs. apply bind_ok_inv in Hs as (? & _ & [= <-]). by left.
  - fall.
  - fall.
  - destruct Hh as [Ht Hi].
    assert (Hpl : plain_word p H (fiber_pc (ts_fiber ts)) IV2CancelScope = true); [|done].
    apply Hplain; [done|]. destruct (tt_point _ Ht) as [-> _]. eauto.
Qed.

Context (Hprog : wf_instructions w = p).

Lemma tick_step_safe ts : tick_typed ts -> safe step_typed (tick_step w s ctx ts).
Proof.
  intros Ht. unfold tick_step. destruct (tt_point _ Ht) as [Hh (st & Hst & _)].
  destruct (control_at _ _ Hst) as (i & _ & Hi & _). rewrite Hprog, Hi. cbn [ok_or mbind Result_bind].
  by apply exec_instr_safe.
Qed.

Lemma tick_loop_safe steps ts :
  tick_typed ts -> safe (λ t, ∀ f, f ∈ fibers_upsert t -> fiber_typed f) (tick_loop w s ctx steps ts).
Proof.
  revert ts. induction steps as [|n IH]; intros ts Ht; cbn [tick_loop]; [done|].
  pose proof (tick_step_safe ts Ht) as Hs. destruct (tick_step w s ctx ts) as [[ts'|t]|e]; [|done..].
  by apply IH.
Qed.

Definition snapshot_typed (F : gmap N Fiber) : Prop := ∀ x f, F !! x = Some f -> fiber_typed f.

Lemma apply_tick_safe cmd :
  snapshot_typed (sn_fibers s) ->
  safe (λ t, snapshot_typed (derive_post_transition_frame s t).1) (apply_tick w s ctx cmd).
Proof.
  intros Hty. destruct cmd; try done. cbn [apply_tick].
  apply guarded; [by apply safe_ensure|]. intros [].
  apply guarded; [unfold select_fiber; case_match; [done | by apply safe_ok_or]|]. intros x.
  destruct (sn_fibers s !! x) as [f|] eqn:Hx; cbn [ok_or mbind Result_bind]; [|done].
  destruct (bool_decide _) eqn:Hw; cbn [ensure mbind Result_bind]; [|done].
  apply bool_decide_eq_true in Hw.
  eapply safe_weaken; [apply tick_loop_safe|].
  - split; cbn; [|done..]. pose proof (Hty x f Hx) as Hf. unfold fiber_typed, effective_control_stack in Hf.
    by rewrite Hw in Hf.
  - intros t Hall y g. cbn -[apply_fiber_deltas].
    destruct (delete_all_fibers (terminal_cleanup t)); [cbn; by intros ?%lookup_empty_Some|].
    rewrite lookup_apply_fiber_deltas. destruct (decide _); [done|].
    destruct (last _) as [g'|] eqn:Hl; [|apply Hty].
    intros [= ->]. apply last_Some_elem_of, list_elem_of_filter in Hl as [_ Hl]. by apply Hall.
Qed.
End exec.
End typed.
