(* ===== verification/RingFacts.v ===== *)
(** * What a successful [apply] guarantees

    The frame of an accepted transition: the K invariants, barriers that can
    still be satisfied, single ownership of pending effects, bounds on the
    touched fibres, and no non-terminal instance without a live fibre. *)

From S2P Require Import Prelude RustStr Json Types Concurrency Platform Effects Transition Bindings KernelBase KernelScope KernelTick KernelCommands KernelApply KInvariants Fixtures.

(** No effect is waited for by two fibres. *)
Definition effects_owned_once (fibers : gmap N Fiber) : Prop :=
  ∀ x y f g e, fibers !! x = Some f -> fibers !! y = Some g ->
    e ∈ referenced_effects f -> e ∈ referenced_effects g -> fiber_id f = fiber_id g.

(** Every armed barrier has at least as many members that can still arrive as
    arrivals it waits for. *)
Definition barriers_satisfiable (fibers : gmap N Fiber) (table : gmap N ConcurrencyRecord) : Prop :=
  ∀ id r, table !! id = Some r -> rec_state r = Armed -> rec_kind r = KBarrier ->
    (count (rec_counters r) <= len (not_yet_arrived fibers id r))%N.

Definition fiber_in_bounds (w : ExecutableWorkflow) (f : Fiber) : Prop :=
  (fiber_pc f < len (wf_instructions w))%N ∧
  (len (fiber_stack f) <= max_stack (wf_limits w))%N ∧
  (len (fiber_control_stack f) <= max_control_depth (wf_limits w))%N.

Section ring3.
Context {P : Platform}.

Lemma claim_effects_ok owners f owners' :
  claim_effects owners f = Ok owners' ->
  (∀ e id, owners !! e = Some id -> owners' !! e = Some id) ∧
  ∀ e, e ∈ referenced_effects f -> owners' !! e = Some (fiber_id f).
Proof.
  unfold claim_effects. generalize (referenced_effects f) as l.
  intros l. revert owners; induction l as [|e l IH]; intros owners; cbn.
  { intros [= <-]. split; [done | set_solver]. }
  destruct (claim_effect (fiber_id f) owners e) as [o1|] eqn:Ec; [|done].
  assert (o1 = <[e := fiber_id f]> owners ∧ ∀ id, owners !! e = Some id -> id = fiber_id f)
    as [-> Hsame].
  { unfold claim_effect in Ec. destruct (owners !! e) as [other|]; [|by simplify_eq].
    destruct (N.eqb_spec other (fiber_id f)); [|done]. naive_solver. }
  intros [H1 H2]%IH. split.
  - intros e' id He. apply H1. destruct (decide (e' = e)) as [->|].
    + rewrite lookup_insert_eq. f_equal. symmetry. by apply Hsame.
    + by rewrite lookup_insert_ne.
  - intros e' [->|Hin]%elem_of_cons; [|by apply H2]. apply H1. by rewrite lookup_insert_eq.
Qed.

Lemma claim_all_ok l owners owners' :
  try_fold claim_effects owners l = Ok owners' ->
  (∀ e id, owners !! e = Some id -> owners' !! e = Some id) ∧
  ∀ f e, f ∈ l -> e ∈ referenced_effects f -> owners' !! e = Some (fiber_id f).
Proof.
  revert owners; induction l as [|f l IH]; intros owners; cbn.
  { intros [= <-]. split; [done | set_solver]. }
  destruct (claim_effects owners f) as [o1|] eqn:Ec; [|done].
  apply claim_effects_ok in Ec as [C1 C2]. intros [H1 H2]%IH. split; [eauto|].
  intros g e [->|Hin]%elem_of_cons He; eauto.
Qed.

Lemma claim_all_owned fibers owners :
  try_fold claim_effects ∅ (btree_values fibers) = Ok owners -> effects_owned_once fibers.
Proof.
  intros [_ H]%claim_all_ok x y f g e Hf Hg Hef Heg.
  assert (Hif : f ∈ btree_values fibers) by (apply elem_of_btree_values; eauto).
  assert (Hig : g ∈ btree_values fibers) by (apply elem_of_btree_values; eauto).
  pose proof (H f e Hif Hef). pose proof (H g e Hig Heg). congruence.
Qed.

Lemma check_barriers_ok fibers table :
  try_for_each (check_barrier fibers) (btree_entries table) = Ok tt ->
  barriers_satisfiable fibers table.
Proof.
  rewrite try_for_each_ok. intros H id r Hr%elem_of_btree_entries Ha Hb.
  specialize (H _ Hr). unfold check_barrier in H. rewrite bool_decide_eq_true_2 in H by done.
  apply ensure_ok, N.leb_le in H. pose proof (N.Div0.mod_le (len (not_yet_arrived fibers id r)) (2 ^ 32)).
  lia.
Qed.

Lemma check_fiber_bounds_ok w f : check_fiber_bounds w f = Ok tt -> fiber_in_bounds w f.
Proof.
  unfold check_fiber_bounds. intros H.
  apply bind_ok_inv in H as ([] & H1%ensure_ok & H).
  apply bind_ok_inv in H as ([] & H2%ensure_ok & H3%ensure_ok).
  split_and!; [by apply N.ltb_lt | by apply N.leb_le | by apply N.leb_le].
Qed.

(** The frame conditions as one predicate. *)
Definition frame_ok (w : ExecutableWorkflow) (s : Snapshot) (t : Transition) : Prop :=
  let '(fibers, table) := derive_post_transition_frame s t in
  K_inv fibers table ∧ barriers_satisfiable fibers table ∧ effects_owned_once fibers ∧
  Forall (fiber_in_bounds w) (fibers_upsert t) ∧
  (is_terminal (effective_state t) = true ∨ ∃ x f, fibers !! x = Some f).

Lemma ring3_frame_ok w s t : ring3_shadow_check w s t = Ok tt -> frame_ok w s t.
Proof.
  unfold ring3_shadow_check, frame_ok. destruct (derive_post_transition_frame s t) as [fibers table].
  intros H. apply bind_ok_inv in H as ([] & H1%ensure_ok & H).
  apply bind_ok_inv in H as ([] & H2 & H). apply bind_ok_inv in H as ([] & H3 & H).
  apply bind_ok_inv in H as ([] & H4 & H). apply bind_ok_inv in H as (owners & H5 & _).
  apply map_err_ok, check_k_invariants_ok in H3.
  split_and!; [done | by apply check_barriers_ok | by eapply claim_all_owned | |].
  - apply Forall_forall. intros f Hf. rewrite try_for_each_ok in H2.
    by apply check_fiber_bounds_ok, H2.
  - destruct (is_terminal (effective_state t)); [by left|right].
    case_bool_decide as He; [done|]. by apply map_choose in He as (x & f & ?); eauto.
Qed.

(** [apply] only adds the command envelope to what its handler produced. *)
Lemma apply_ok_inv w s command ctx t :
  apply w s command ctx = Ok t ->
  ∃ t0 logical, validate_snapshot_limits w s (checks_arrays command) = Ok tt ∧
    dispatch w s command ctx = Ok t0 ∧ ring3_shadow_check w s t0 = Ok tt ∧
    i64_try_from (logical_time ctx) = Some logical ∧
    t = with_command_envelope (CommandEnvelope_new (command_id ctx) logical (JKernel command)) t0.
Proof.
  unfold apply. intros H. apply bind_ok_inv in H as ([] & H1 & H).
  apply bind_ok_inv in H as (t0 & H2 & H). apply bind_ok_inv in H as ([] & H3%map_err_ok & H).
  apply bind_ok_inv in H as (logical & H4%ok_or_ok & [= <-]). by exists t0, logical.
Qed.

(** C9: whatever command [apply] accepts, the frame it commits satisfies K-1,
    K-2 and K-3, every armed barrier can still be satisfied by members that have
    not arrived, no effect is waited for by two fibres, every touched fibre is
    within the program and the verified stack limits, and an instance that is
    not terminal has a live fibre. *)
Theorem apply_frame_integrity w s command ctx t :
  apply w s command ctx = Ok t -> frame_ok w s t.
Proof.
  intros (t0 & logical & _ & _ & Hr & _ & ->)%apply_ok_inv. by apply ring3_frame_ok in Hr.
Qed.

End ring3.

#[local] Existing Instance toy_platform.

Lemma apply_frame_integrity_witness :
  let w := toy_workflow [IV2Fork [1; 2]%N 2; IV2Join 0; IV2Join 0; IEnd] in
  ∃ t, apply w toy_snapshot (CTick None) (toy_context 5 1) = Ok t ∧ frame_ok w toy_snapshot t ∧
    length (fibers_upsert t) = 2.
Proof.
  intros w. eexists. split; [vm_compute; reflexivity|]. split; [|reflexivity].
  apply (apply_frame_integrity w toy_snapshot (CTick None) (toy_context 5 1)).
  vm_compute. reflexivity.
Defined.
