(* ===== verification/ScopeTheorems.v ===== *)
(** * Structured concurrency: the theorems

    What the record tree promises to the rest of the kernel: the cancellation
    walk is exhaustive and terminates, firing a guard and running a fibre keep
    K-1..K-3, and the one shape in which they cannot. *)

From S2P Require Import Prelude RustStr Json Types Concurrency Platform Effects Transition Bindings KernelBase KernelScope KernelTick KernelCommands KernelApply ScopeFacts CancelWalk KInvariants Fixtures KTrigger KTick RingFacts.

Section scope_theorems.
Context {P : Platform}.

(** The runtime check accepts a frame exactly when the K invariants hold of
    it, so its errors are never spurious and never missed. *)
Lemma k_check_exact fibers table :
  (check_k_invariants fibers table = Ok tt ∧ K_inv fibers table) ∨
  (∃ reason, check_k_invariants fibers table = Err reason ∧ ¬ K_inv fibers table).
Proof.
  pose proof (check_k_invariants_ok fibers table) as H.
  destruct (check_k_invariants fibers table) as [[]|e]; [left; naive_solver|].
  right. exists e. split; [done|]. intros HK%H. done.
Qed.

(** Reading a record in the middle of a transition sees the staged
    mutations: on armed records the backwards scan agrees with folding all
    mutations over the table, and the armed ids are exactly those of the fold,
    each listed once. *)
Theorem mid_transition_reads_exact s c :
  (∀ h r, rec_state r = Armed ->
     fetch_record_in_transition s c h = Some r ↔
     apply_mutations (sn_table s) (ch_concurrency_mutations c) !! h = Some r) ∧
  (∀ h, h ∈ armed_record_ids_in_transition s c ↔
     ∃ r, apply_mutations (sn_table s) (ch_concurrency_mutations c) !! h = Some r ∧
       rec_state r = Armed) ∧
  NoDup (armed_record_ids_in_transition s c).
Proof.
  split; [|split; [apply elem_of_armed_record_ids | apply NoDup_armed_record_ids]].
  intros h r Ha. split; [apply fetch_staged | intros H; by apply staged_armed_fetch].
Qed.

(** A batch of membership changes gives every live record it names exactly
    the operations addressed to it, in order, and leaves every excluded or
    absent record alone, however the operations on different records are
    interleaved. *)
Theorem reconcile_exact s ops exclude c h r :
  table_keyed (sn_table s) -> h ∉ exclude -> fetch_record_in_transition s c h = Some r ->
  apply_mutations (sn_table s)
    (ch_concurrency_mutations (v2_reconcile_ancestor_membership s ops exclude c)) !! h =
    Some (foldl (λ r op, apply_membership_op op r) r ((filter (λ e, e.1 = h) ops).*2)).
Proof.
  intros Hk Hex Hf. pose proof (staged_reconcile s ops exclude c h Hk) as H.
  rewrite decide_False, Hf in H by done. exact H.
Qed.

(** C29: the cancellation walk from any record terminates on coherent stacks and
    returns, without duplicates, exactly the records nested under the root
    (root included), deepest first, and exactly the live fibres inside it. *)
Theorem cancel_walk_exhaustive s p :
  coherent (sn_fibers s) -> fibers_keyed (sn_fibers s) ->
  ∃ R L, cancel_guard_scope s p = Ok (R, L) ∧
    NoDup R ∧ NoDup L ∧
    (∀ h, h ∈ R ↔ nested_in (sn_fibers s) p h) ∧
    (∀ fid, fid ∈ L ↔ inside (sn_fibers s) p fid) ∧
    (∀ a b, nested_in (sn_fibers s) p a -> a ≠ b -> nested_in (sn_fibers s) a b ->
       ∃ R1 R2 R3, R = R1 ++ b :: R2 ++ a :: R3).
Proof.
  intros Hc Hk. destruct (cancel_guard_scope_walk s p Hc Hk) as (R & L & E & []).
  exists R, L. split_and!; auto.
Qed.

(** C2: firing an armed guard succeeds; the frame satisfies K-1..K-3, a handler
    fibre runs at the guard's handler address with the stack of the guard's
    position, fibres outside the guard are untouched, and an interrupting guard
    kills every fibre inside it and disarms every record nested in it. *)
Theorem guard_trigger_preserves_K s ctx rid record interrupting target :
  fibers_keyed (sn_fibers s) -> table_keyed (sn_table s) -> coherent (sn_fibers s) ->
  K_inv (sn_fibers s) (sn_table s) -> sn_fibers s !! derived_id ctx 0 = None ->
  sn_table s !! rid = Some record -> rec_kind record = KGuard interrupting ->
  rec_state record = Armed -> rec_handler record = Some target ->
  ∃ t, apply_v2_trigger_guard s (CV2TriggerGuard rid) ctx = Ok t ∧
    let '(F', T') := derive_post_transition_frame s t in
    fired s (derived_id ctx 0) rid interrupting target F' T'.
Proof.
  intros Hk Ht Hc HK Hf Hr Hkind Ha Hh. cbn [apply_v2_trigger_guard].
  unfold v2_trigger_guard_changes, v2_trigger_guard_changes_with_target.
  rewrite Hr. cbn [ok_or mbind Result_bind]. rewrite Hkind, bool_decide_eq_true_2, Hh by done.
  cbn [ensure ok_or mbind Result_bind]. destruct interrupting.
  - destruct (cancel_guard_scope_walk s rid Hc Hk) as (R & L & -> & HW).
    cbn [mbind Result_bind]. eexists. split; [reflexivity|]. rewrite derive_frame_finish.
    set (c6 := v2_reconcile_ancestor_membership s (removal_ops s L) _ _).
    change (staged_table s (push_event _ c6)) with (staged_table s c6).
    change (frame_fibers s (push_event _ c6)) with (frame_fibers s c6).
    by apply trigger_fired.
  - eexists. split; [reflexivity|]. rewrite derive_frame_finish. by apply triggern_fired.
Qed.

(** C1: a tick keeps K-1..K-3.  The hypotheses on the reached states are what
    the artifact verifier and the id generator provide: freshly derived ids are
    unused, a scope is closed by its only holder, the last arrival at a barrier
    finds the other members waiting there, a fibre ends outside every scope. *)
Theorem tick_preserves_K w s ctx requested f t :
  fibers_keyed (sn_fibers s) -> table_keyed (sn_table s) -> K_inv (sn_fibers s) (sn_table s) ->
  select_fiber s requested = Ok (fiber_id f) -> sn_fibers s !! fiber_id f = Some f ->
  NoDup (fiber_control_stack f) ->
  (∀ ts i, tick_reach w s ctx (tick_start s f) ts ->
     wf_instructions w !! addr_index (fiber_pc (ts_fiber ts)) = Some i -> step_ok s ctx ts i) ->
  apply_tick w s ctx (CTick requested) = Ok t ->
  let '(F', T') := derive_post_transition_frame s t in check_k_invariants F' T' = Ok tt.
Proof.
  intros Hk Ht HK Hsel Hf Hn Hok H. cbn [apply_tick] in H.
  apply bind_ok_inv in H as ([] & _ & H). rewrite Hsel in H. cbn [mbind Result_bind] in H.
  rewrite Hf in H. cbn [ok_or mbind Result_bind] in H.
  apply bind_ok_inv in H as ([] & Hw%ensure_ok%bool_decide_eq_true & H).
  assert (HF : frame_K s t).
  { eapply tick_loop_preserves; [exact Hk|exact Ht|exact Hok|constructor|
      by apply tick_start_inv|exact H]. }
  unfold frame_K in HF. destruct (derive_post_transition_frame s t) as [F' T'].
  by apply check_k_invariants_ok.
Qed.

End scope_theorems.

(** ** Closing a shared guard *)

Section shared_guard.
Context {P : Platform}.

Variables (w : ExecutableWorkflow) (s : Snapshot) (ctx : DeterministicContext).
Variables (f g : Fiber) (h : RecordId) (m : Uuid).
Hypothesis Hpc : wf_instructions w !! addr_index (fiber_pc f) = Some IV2GuardNEnd.
Hypothesis Hnext : wf_instructions w !! addr_index (addr_next (fiber_pc f)) = Some IEnd.
Hypothesis Hstack : fiber_control_stack f = [h].
Hypothesis Hother : sn_fibers s !! m = Some g.
Hypothesis Hne : m ≠ fiber_id f.

(** The transition of a tick that runs the closing word and then [End]. *)
Lemma guard_end_then_end n t :
  tick_loop w s ctx n (tick_start s f) = Ok t ->
  derive_post_transition_frame s t =
    (apply_fiber_deltas (sn_fibers s) [] [fiber_id f] false,
     apply_mutations (sn_table s) [CMRetire h]).
Proof.
  destruct n as [|[|n]]; cbn [tick_loop]; [done| |];
    unfold tick_step at 1; cbn [tick_start ts_fiber]; rewrite Hpc;
    cbn [ok_or mbind Result_bind exec_instr]; unfold exec_guard_end, pop_handle;
    cbn [tick_start ts_fiber]; rewrite Hstack; [done|].
  cbn -[exec_instr apply_fiber_deltas finish]. unfold tick_step at 1.
  cbn -[exec_instr apply_fiber_deltas finish]. rewrite Hnext. cbn -[apply_fiber_deltas finish].
  unfold exec_end. cbn -[apply_fiber_deltas finish]. case_bool_decide as E.
  - exfalso. assert (apply_fiber_deltas (sn_fibers s) [] [fiber_id f] false !! m = Some g) as E'.
    { rewrite lookup_apply_fiber_deltas, decide_False by set_solver. done. }
    rewrite E in E'. done.
  - intros [= <-]. by rewrite derive_frame_finish.
Qed.

Lemma guard_end_strands_other :
  h ∈ effective_control_stack g ->
  ¬ K_inv (apply_fiber_deltas (sn_fibers s) [] [fiber_id f] false)
      (apply_mutations (sn_table s) [CMRetire h]).
Proof.
  intros Hh (_ & HK2 & _).
  assert (Hm : apply_fiber_deltas (sn_fibers s) [] [fiber_id f] false !! m = Some g).
  { rewrite lookup_apply_fiber_deltas, decide_False by set_solver. done. }
  apply (HK2 _ _ _ Hm) in Hh as (r & Hr & Ha & _). cbn in Hr.
  destruct (sn_table s !! h) as [r0|] eqn:E; [|congruence].
  rewrite lookup_insert_eq in Hr. by injection Hr as <-.
Qed.
End shared_guard.


(** ** Witnesses *)

#[local] Existing Instance toy_platform.

(** The program of the kernel's GUARD-N unit test. *)
Definition guardn_program : ExecutableWorkflow :=
  toy_workflow [IV2GuardN 5; IPushI64 1000; IV2WaitFor; IV2GuardNEnd; IEnd; IV2GuardNEnd; IEnd].

(** The state after a command, or the state before it when it is rejected. *)
Definition toy_next (w : ExecutableWorkflow) (c : Command) (ctx : DeterministicContext)
    (s : Snapshot) : Snapshot :=
  match apply w s c ctx with
  | Ok t =>
      let '(F', T') := derive_post_transition_frame s t in
      mkSnapshot (next_snapshot t) F' (sn_join_counts s) (sn_dedupe s) (sn_buffered_messages s)
        (sn_incidents s) T' (sn_pending_effects s)
  | Err _ => s
  end.

Definition guardn_open : Snapshot :=
  toy_next guardn_program (CTick None) (toy_context 400 1) toy_snapshot.
Definition guardn_handle : RecordId := derived_id (toy_context 400 1) 0.
Definition guardn_fired : Snapshot :=
  toy_next guardn_program (CV2TriggerGuard guardn_handle) (toy_context 401 2) guardn_open.
Definition guardn_handler : Fiber :=
  set_control_stack [guardn_handle] (Fiber_new (derived_id (toy_context 401 2) 0) 5).
Definition guardn_body : Fiber :=
  mkFiber 10 3 [] (WTimer 1400) 0 [guardn_handle].


(** Coherence is decidable for a given ancestor function. *)
Definition coherentb (path : RecordId -> list RecordId) (fibers : gmap N Fiber) : bool :=
  forallb (λ e, forallb (λ i,
    match effective_control_stack e.2 !! i with
    | Some h => bool_decide (take i (effective_control_stack e.2) = path h)
    | None => true
    end) (seq 0 (length (effective_control_stack e.2)))) (map_to_list fibers).

Lemma coherentb_ok path fibers : coherentb path fibers = true -> coherent fibers.
Proof.
  unfold coherentb. rewrite forallb_forall. intros H. exists path. intros fid f i h Hf Hi.
  specialize (H (fid, f)). rewrite <-list_elem_of_In, elem_of_map_to_list in H. specialize (H Hf).
  rewrite forallb_forall in H. specialize (H i). cbn in H. rewrite Hi in H.
  apply (bool_decide_eq_true_1 _), H. apply in_seq. apply lookup_lt_Some in Hi. lia.
Qed.

Definition keyedb (fibers : gmap N Fiber) : bool :=
  forallb (λ e, (fiber_id e.2 =? e.1)%N) (map_to_list fibers).
Definition table_keyedb (t : gmap N ConcurrencyRecord) : bool :=
  forallb (λ e, (rec_id e.2 =? e.1)%N) (map_to_list t).

Lemma keyedb_ok fibers : keyedb fibers = true -> fibers_keyed fibers.
Proof.
  unfold keyedb. rewrite forallb_forall. intros H fid f Hf.
  apply elem_of_map_to_list, list_elem_of_In, H in Hf. by apply N.eqb_eq.
Qed.

Lemma table_keyedb_ok t : table_keyedb t = true -> table_keyed t.
Proof.
  unfold table_keyedb. rewrite forallb_forall. intros H id r Hr.
  apply elem_of_map_to_list, list_elem_of_In, H in Hr. by apply N.eqb_eq.
Qed.

(** A guard around a two-way fork. *)
Definition forked_program : ExecutableWorkflow :=
  toy_workflow [IV2Guard 4; IV2Fork [2; 3]%N 2; IV2Join 0; IV2Join 0; IEnd].
Definition forked : Snapshot :=
  toy_next forked_program (CTick None) (toy_context 5 1) toy_snapshot.
Definition forked_guard : RecordId := derived_id (toy_context 5 1) 0.
Definition forked_barrier : RecordId := derived_id (toy_context 5 1) 1.
Definition forked_record : ConcurrencyRecord :=
  default (guard_record None true 0 0) (sn_table forked !! forked_guard).
Definition forked_path (h : RecordId) : list RecordId :=
  if (h =? forked_barrier)%N then [forked_guard] else [].

Lemma cancel_walk_exhaustive_witness :
  ∃ R L, cancel_guard_scope forked forked_guard = Ok (R, L) ∧
    R = [forked_barrier; forked_guard] ∧ length L = 2 ∧
    ∀ h, h ∈ R ↔ nested_in (sn_fibers forked) forked_guard h.
Proof.
  destruct (cancel_walk_exhaustive forked forked_guard) as (R & L & E & _ & _ & HR & _).
  - apply (coherentb_ok forked_path). vm_compute. reflexivity.
  - apply keyedb_ok. vm_compute. reflexivity.
  - exists R, L. split; [exact E|].
    assert (EE : ∃ L', cancel_guard_scope forked forked_guard
              = Ok ([forked_barrier; forked_guard], L') ∧ length L' = 2)
      by (eexists; split; vm_compute; reflexivity).
    destruct EE as (L' & E' & Hl). rewrite E in E'. injection E' as -> ->. by split_and!.
Defined.

Lemma guard_trigger_preserves_K_witness :
  ∃ t, apply_v2_trigger_guard forked (CV2TriggerGuard forked_guard) (toy_context 6 2) = Ok t ∧
    let '(F', T') := derive_post_transition_frame forked t in
    fired forked (derived_id (toy_context 6 2) 0) forked_guard true 4 F' T'.
Proof.
  refine (guard_trigger_preserves_K forked (toy_context 6 2) forked_guard
    forked_record true 4 _ _ _ _ _ _ _ _ _).
  - apply keyedb_ok. vm_compute. reflexivity.
  - apply table_keyedb_ok. vm_compute. reflexivity.
  - apply (coherentb_ok forked_path). vm_compute. reflexivity.
  - apply check_k_invariants_ok. vm_compute. reflexivity.
  - vm_compute. reflexivity.
  - vm_compute. reflexivity.
  - vm_compute. reflexivity.
  - vm_compute. reflexivity.
  - vm_compute. reflexivity.
Defined.

(** A fork as first word returns at once: only the start state is reached. *)
Lemma reach_first w s ctx ts0 ts t :
  tick_step w s ctx ts0 = Ok (Return t) -> tick_reach w s ctx ts0 ts -> ts = ts0.
Proof. intros Hs Hr. induction Hr as [|ts ts' _ IH Hstep]; [done|]. subst. congruence. Qed.

Definition fork_program : ExecutableWorkflow :=
  toy_workflow [IV2Fork [1; 2]%N 2; IV2Join 0; IV2Join 0; IEnd].

Lemma tick_preserves_K_witness :
  ∃ t, apply_tick fork_program toy_snapshot (toy_context 5 1) (CTick None) = Ok t ∧
    let '(F', T') := derive_post_transition_frame toy_snapshot t in check_k_invariants F' T' = Ok tt.
Proof.
  assert (E : ∃ t, apply_tick fork_program toy_snapshot (toy_context 5 1) (CTick None) = Ok t ∧
    tick_step fork_program toy_snapshot (toy_context 5 1) (tick_start toy_snapshot (Fiber_new 10 0))
      = Ok (Return t)) by (eexists; split; vm_compute; reflexivity).
  destruct E as (t & E & E1). exists t. split; [exact E|].
  refine (tick_preserves_K fork_program toy_snapshot (toy_context 5 1) None (Fiber_new 10 0) t
            _ _ _ eq_refl eq_refl _ _ E).
  - apply keyedb_ok. vm_compute. reflexivity.
  - apply table_keyedb_ok. vm_compute. reflexivity.
  - apply check_k_invariants_ok. vm_compute. reflexivity.
  - constructor.
  - intros ts i ->%(reach_first _ _ _ _ _ _ E1) [= <-]. split_and!.
    + vm_compute. reflexivity.
    + discriminate.
    + vm_compute. reflexivity.
    + apply Forall_forall. vm_compute. repeat constructor; intros H; inversion H.
Defined.

Lemma reconcile_exact_witness :
  apply_mutations (sn_table forked)
    (ch_concurrency_mutations (v2_reconcile_ancestor_membership forked
       [(forked_guard, MAdd 99); (forked_barrier, MAdd 98); (forked_guard, MRemove 99)] ∅
       Changes_default)) !! forked_guard = Some (remove_member 99 (add_member 99 forked_record)).
Proof.
  rewrite (reconcile_exact forked _ ∅ Changes_default forked_guard forked_record).
  - f_equal.
  - apply table_keyedb_ok. vm_compute. reflexivity.
  - apply not_elem_of_empty.
  - vm_compute. reflexivity.
Defined.
