(* ===== verification/ReplayFacts.v ===== *)
(** * Replay: the journal is a complete record of the pure transitions

    The fold of a transition into the persisted state is the frame the runtime
    checks saw; replay is the functional form of a step relation on envelopes;
    every envelope replay can reach satisfies the integrity conditions; and the
    journal a live run writes replays to the state the run ended in. *)

From S2P Require Import Prelude RustStr Json Types Concurrency Platform Effects Transition Bindings Canonical KernelBase KernelScope KernelTick KernelCommands KernelApply Replay Identity CancelWalk KInvariants Fixtures RingFacts.

(** ** Persisted maps are keyed by id *)

Definition incidents_keyed (incs : gmap N Incident) : Prop :=
  ∀ k i, incs !! k = Some i -> incident_id i = k.

Definition persisted_keyed (s : PersistedSnapshotState) : Prop :=
  fibers_keyed (ps_fibers s) ∧ incidents_keyed (ps_incidents s).

Lemma collect_by_keyed {V} (key : V -> N) l k (v : V) : collect_by key l !! k = Some v -> key v = k.
Proof.
  unfold collect_by. rewrite foldl_insert_lookup.
  destruct (last _) as [x|] eqn:E; [|by rewrite lookup_empty].
  intros [= <-]. apply last_Some_elem_of in E. by apply list_elem_of_filter in E as [? _].
Qed.

Lemma apply_fiber_deltas_keyed m ups dels all :
  fibers_keyed m -> fibers_keyed (apply_fiber_deltas m ups dels all).
Proof.
  intros Hm fid f. destruct all; [done|].
  rewrite lookup_apply_fiber_deltas. case_decide; [done|].
  destruct (last _) as [x|] eqn:E; [|by apply Hm].
  intros [= <-]. apply last_Some_elem_of in E. by apply list_elem_of_filter in E as [? _].
Qed.

Lemma materialize_keyed s t abi rev :
  persisted_keyed (se_state (materialize_snapshot s t abi rev)).
Proof. split; intros k v; apply collect_by_keyed. Qed.

(** ** The materialised state is the checked frame *)

Lemma to_runtime_snapshot_keyed_fibers s :
  persisted_keyed s -> sn_fibers (to_runtime_snapshot s) = ps_fibers s.
Proof. intros [H _]. apply to_runtime_snapshot_fibers. intros k f. apply H. Qed.

Lemma materialize_frame s t abi rev :
  persisted_keyed s ->
  let e := materialize_snapshot s t abi rev in
  derive_post_transition_frame (to_runtime_snapshot s) t =
    (ps_fibers (se_state e), ps_table (se_state e)) ∧
  inst_state (ps_instance (se_state e)) = effective_state t.
Proof.
  intros Hs e. subst e. split.
  - unfold derive_post_transition_frame. rewrite to_runtime_snapshot_keyed_fibers by done.
    unfold materialize_snapshot. cbn [se_state SnapshotEnvelope_new PersistedSnapshotState_new
      ps_fibers ps_table]. f_equal. symmetry.
    change (if delete_all_fibers (terminal_cleanup t) then ∅ else _)
      with (apply_fiber_deltas (ps_fibers s) (fibers_upsert t) (fibers_delete t)
              (delete_all_fibers (terminal_cleanup t))).
    apply collect_by_values. apply apply_fiber_deltas_keyed. apply Hs.
  - unfold materialize_snapshot, effective_state. cbn.
    by destruct (state_override t).
Qed.

(** ** Replay as a step relation *)

Section replay_facts.
Context {P : Platform}.

(** One kernel transition applied to an envelope. *)
Inductive kernel_step (w : ExecutableWorkflow) (cmd : Command) (time : N) (id : Uuid)
  : SnapshotEnvelope -> Transition -> SnapshotEnvelope -> Prop :=
| kernel_step_intro c t :
    (Z.of_N (se_revision c) <= i64_max)%Z ->
    apply w (to_runtime_snapshot (se_state c)) cmd (mkContext time id (se_revision c + 1)) = Ok t ->
    kernel_step w cmd time id c t
      (materialize_snapshot (se_state c) t (wf_abi_version w) (se_revision c + 1)).

(** A journal record describes a kernel step. *)
Inductive record_step (w : ExecutableWorkflow) (r : JournalRecord)
  : SnapshotEnvelope -> SnapshotEnvelope -> Prop :=
| record_step_intro c e cmd time t :
    jr_artifact_hash r = wf_hash w ->
    jr_prior_revision r = Z.of_N (se_revision c) ->
    jr_new_revision r = (se_revision c + 1)%N ->
    ce_command (jr_command r) = JKernel cmd ->
    ce_logical_time (jr_command r) = Z.of_N time ->
    kernel_step w cmd time (ce_command_id (jr_command r)) c t e ->
    state_hash e = Ok (jr_state_hash r) ->
    record_step w r c e.

Inductive journal_run (w : ExecutableWorkflow)
  : SnapshotEnvelope -> list JournalRecord -> SnapshotEnvelope -> Prop :=
| journal_nil c : journal_run w c [] c
| journal_cons c r c' tail e :
    record_step w r c c' -> journal_run w c' tail e -> journal_run w c (r :: tail) e.

Lemma u64_try_from_Some z n : u64_try_from z = Some n ↔ z = Z.of_N n.
Proof. unfold u64_try_from. destruct (Z.leb_spec 0 z); split; intros Hz; simplify_eq; f_equal; lia. Qed.

Lemma next_revision_exact n :
  (Z.of_N n <= i64_max)%Z -> sat_add u64_max n 1 = (n + 1)%N.
Proof. unfold i64_max, sat_add, u64_max. lia. Qed.

Lemma replay_record_step w c r e : replay_record w c r = Ok e ↔ record_step w r c e.
Proof.
  unfold replay_record. split.
  - intros H. apply bind_ok_inv in H as ([] & H1%ensure_ok%bool_decide_eq_true & H).
    apply bind_ok_inv in H as (z & [Hz ->]%ok_or_ok%i64_try_from_Some & H).
    apply bind_ok_inv in H as ([] & [H2%Z.eqb_eq H3%N.eqb_eq]%ensure_ok%andb_true_iff & H).
    rewrite next_revision_exact in H3 by done.
    apply bind_ok_inv in H as (cmd & H4 & H).
    destruct (ce_command (jr_command r)) as [c'| |] eqn:Hc; try discriminate H4.
    injection H4 as ->.
    apply bind_ok_inv in H as (time & H5%ok_or_ok%u64_try_from_Some & H).
    apply bind_ok_inv in H as (t & H6%map_err_ok & H).
    apply bind_ok_inv in H as (h & H7%map_err_ok & H).
    apply bind_ok_inv in H as ([] & H8%ensure_ok%bool_decide_eq_true & [= <-]).
    rewrite H3 in H6. subst h. econstructor; try done.
    rewrite H3. by constructor.
  - intros [c0 e0 cmd time t H1 H2 H3 H4 H5 Hk H7]. destruct Hk as [c0 t Hz H6].
    rewrite bool_decide_eq_true_2 by done. cbn [ensure mbind Result_bind].
    rewrite (proj2 (i64_try_from_Some _ _) (conj Hz eq_refl)). cbn [ok_or mbind Result_bind].
    rewrite next_revision_exact by done. rewrite H2, H3, Z.eqb_refl, N.eqb_refl.
    cbn [ensure andb mbind Result_bind]. rewrite H4. cbn [mbind Result_bind].
    rewrite (proj2 (u64_try_from_Some _ _) H5). cbn [ok_or mbind Result_bind].
    rewrite H6. cbn [map_err mbind Result_bind]. rewrite H7. cbn [map_err mbind Result_bind].
    by rewrite bool_decide_eq_true_2.
Qed.

Lemma replay_fold_run w c tail e :
  try_fold (replay_record w) c tail = Ok e ↔ journal_run w c tail e.
Proof.
  split.
  - revert c; induction tail as [|r tail IH]; intros c; cbn; [intros [= ->]; constructor|].
    destruct (replay_record w c r) as [c'|] eqn:Hr; [|done]. intros H.
    econstructor; [by apply replay_record_step | by apply IH].
  - induction 1 as [|c r c' tail e Hr _ IH]; [done|]. cbn.
    by rewrite (proj2 (replay_record_step _ _ _ _) Hr).
Qed.

(** ** Checkpoints *)

(** The artifact an envelope belongs to. *)
Definition belongs (w : ExecutableWorkflow) (c : SnapshotEnvelope) : Prop :=
  bytecode_version (ps_instance (se_state c)) = wf_hash w ∧ se_artifact_abi c = wf_abi_version w.

Lemma replay_belongs w c tail e :
  replay w c tail = Ok e ↔ belongs w c ∧ try_fold (replay_record w) c tail = Ok e.
Proof.
  unfold replay, belongs. split.
  - intros H. apply bind_ok_inv in H as ([] & H1%ensure_ok%bool_decide_eq_true & H).
    by apply bind_ok_inv in H as ([] & H2%ensure_ok%N.eqb_eq & H).
  - intros [[-> ->] H]. by rewrite bool_decide_eq_true_2, N.eqb_refl.
Qed.

Lemma kernel_step_belongs w cmd time id c t c' :
  kernel_step w cmd time id c t c' -> belongs w c -> belongs w c'.
Proof.
  intros [c0 t0 _ Ht] [Hb _]. split; [|done]. apply apply_kept in Ht as [Ht _]. unfold same in Ht.
  apply (f_equal id_bytecode) in Ht. cbn in Ht. rewrite <-Hb. cbn.
  destruct (state_override t0); exact Ht.
Qed.

Lemma journal_run_belongs w c tail e : journal_run w c tail e -> belongs w c -> belongs w e.
Proof.
  induction 1 as [|c r c' tail e [c0 e0 cmd time t _ _ _ _ _ Hs _] _ IH]; [done|].
  intros Hb. apply IH. by eapply kernel_step_belongs.
Qed.

(** C25: a checkpoint may be taken anywhere: replaying a journal in one go gives
    the state that replaying a prefix, checkpointing and replaying the rest
    gives. *)
Theorem replay_checkpoint w c tail1 tail2 e :
  replay w c (tail1 ++ tail2) = Ok e ↔
  ∃ m, replay w c tail1 = Ok m ∧ replay w m tail2 = Ok e.
Proof.
  setoid_rewrite replay_belongs. rewrite try_fold_app. split.
  - intros [Hb H]. destruct (try_fold (replay_record w) c tail1) as [m|] eqn:E; [|done].
    exists m. split; [done|]. split; [|exact H]. eapply journal_run_belongs; [|exact Hb].
    by apply replay_fold_run.
  - intros (m & [Hb E] & [_ H]). rewrite E. done.
Qed.

(** ** Integrity of every replayed state *)

Definition durable_ok (s : PersistedSnapshotState) : Prop :=
  K_inv (ps_fibers s) (ps_table s) ∧ barriers_satisfiable (ps_fibers s) (ps_table s) ∧
  effects_owned_once (ps_fibers s) ∧
  (is_terminal (inst_state (ps_instance s)) = true ∨ ∃ x f, ps_fibers s !! x = Some f).

Lemma kernel_step_durable w cmd time id c t e :
  persisted_keyed (se_state c) -> kernel_step w cmd time id c t e -> durable_ok (se_state e).
Proof.
  intros Hk Hs. destruct Hs as [c t _ Ha].
  apply apply_ok_inv in Ha as (t0 & logical & _ & _ & Hr & _ & ->).
  apply ring3_frame_ok in Hr.
  pose proof (materialize_frame (se_state c) t0 (wf_abi_version w) (se_revision c + 1) Hk) as [Hf Hst].
  unfold frame_ok in Hr. rewrite Hf in Hr. destruct Hr as (H1 & H2 & H3 & _ & H4).
  rewrite <-Hst in H4. unfold durable_ok. eauto.
Qed.

Lemma kernel_step_keyed w cmd time id c t e :
  kernel_step w cmd time id c t e -> persisted_keyed (se_state e).
Proof. intros [c' t' _ _]. apply materialize_keyed. Qed.

Lemma kernel_step_revision w cmd time id c t e :
  kernel_step w cmd time id c t e -> se_revision e = (se_revision c + 1)%N.
Proof. by intros [c' t' _ _]. Qed.

Lemma journal_run_revision w c tail e :
  journal_run w c tail e -> se_revision e = (se_revision c + len tail)%N.
Proof.
  induction 1 as [c|c r c' tail e Hr _ IH]; [unfold len; cbn; lia|].
  rewrite IH. destruct Hr as [c c' cmd time t _ _ _ _ _ Hk _].
  rewrite (kernel_step_revision _ _ _ _ _ _ _ Hk). unfold len. cbn [length]. lia.
Qed.

Lemma journal_run_durable w c tail e :
  journal_run w c tail e -> persisted_keyed (se_state c) ->
  (tail = [] -> durable_ok (se_state c)) -> durable_ok (se_state e) ∧ persisted_keyed (se_state e).
Proof.
  induction 1 as [c|c r c' tail e Hr _ IH]; intros Hk Hn; [auto|].
  destruct Hr as [c c' cmd time t _ _ _ _ _ Hs _].
  apply IH; [by eapply kernel_step_keyed|]. intros _. by eapply kernel_step_durable.
Qed.

(** C3: every state [replay] returns after at least one record satisfies the
    integrity conditions and carries the checkpoint's revision plus the number
    of records. *)
Theorem replay_durable w c tail e :
  persisted_keyed (se_state c) -> tail ≠ [] -> replay w c tail = Ok e ->
  durable_ok (se_state e) ∧ persisted_keyed (se_state e) ∧
  se_revision e = (se_revision c + len tail)%N.
Proof.
  intros Hk Hn Hr. unfold replay in Hr.
  apply bind_ok_inv in Hr as ([] & _ & Hr). apply bind_ok_inv in Hr as ([] & _ & Hr).
  apply replay_fold_run in Hr. pose proof (journal_run_revision _ _ _ _ Hr).
  by apply journal_run_durable in Hr as [? ?].
Qed.

(** ** A live run and its journal *)

(** The engine applies a command to the current envelope, commits the
    materialised state and journals the command with the hash of that state. *)
Inductive live_run (w : ExecutableWorkflow)
  : SnapshotEnvelope -> list JournalRecord -> SnapshotEnvelope -> Prop :=
| live_nil c : live_run w c [] c
| live_cons c cmd time id t c' prior h tail e :
    kernel_step w cmd time id c t c' ->
    state_hash c' = Ok h ->
    live_run w c' tail e ->
    live_run w c
      (JournalRecord_new (CommandEnvelope_new id (Z.of_N time) (JKernel cmd))
         (Z.of_N (se_revision c)) (se_revision c') (wf_hash w) prior h (events t) (effects t) :: tail)
      e.

Lemma live_run_journal w c tail e : live_run w c tail e -> journal_run w c tail e.
Proof.
  induction 1 as [|c cmd time id t c' prior h tail e Hs Hh _ IH]; [constructor|].
  econstructor; [|exact IH]. pose proof (kernel_step_revision _ _ _ _ _ _ _ Hs) as Hv.
  by eapply (record_step_intro _ _ _ _ cmd time t).
Qed.

(** The journal a live run writes replays to the state the run ended in. *)
Lemma live_run_replays w c tail e :
  bytecode_version (ps_instance (se_state c)) = wf_hash w -> se_artifact_abi c = wf_abi_version w ->
  live_run w c tail e -> replay w c tail = Ok e.
Proof.
  intros Hb Ha Hl%live_run_journal%replay_fold_run.
  unfold replay. by rewrite bool_decide_eq_true_2, Ha, N.eqb_refl.
Qed.

End replay_facts.

#[local] Existing Instance toy_platform.

(** What the engine does with one command: apply it to a runtime snapshot of
    the envelope, materialise, hash and journal. *)
Definition toy_commit (w : ExecutableWorkflow) (c : SnapshotEnvelope) (s : Snapshot)
    (cmd : Command) (time : N) (id : Uuid) : option (JournalRecord * SnapshotEnvelope) :=
  match apply w s cmd (mkContext time id (se_revision c + 1)) with
  | Ok t =>
      let e := materialize_snapshot (se_state c) t (wf_abi_version w) (se_revision c + 1) in
      match state_hash e with
      | Ok h => Some (JournalRecord_new (CommandEnvelope_new id (Z.of_N time) (JKernel cmd))
                        (Z.of_N (se_revision c)) (se_revision e) (wf_hash w) [] h (events t)
                        (effects t), e)
      | Err _ => None
      end
  | Err _ => None
  end.

Definition toy_wait_program : ExecutableWorkflow := toy_workflow [IPushI64 1000; IV2WaitFor; IEnd].

Lemma toy_envelope_keyed : persisted_keyed (se_state toy_envelope).
Proof. split; intros k v; apply collect_by_keyed. Qed.

Lemma toy_commit_live w c cmd time id r e :
  (Z.of_N (se_revision c) <= i64_max)%Z ->
  toy_commit w c (to_runtime_snapshot (se_state c)) cmd time id = Some (r, e) ->
  live_run w c [r] e.
Proof.
  unfold toy_commit. intros Hz H. destruct (apply _ _ _ _) as [t|] eqn:Ha; [|done].
  cbv zeta in H. destruct (state_hash _) as [h|] eqn:Hh; [|done]. injection H as <- <-.
  eapply (live_cons _ _ _ _ _ t (materialize_snapshot (se_state c) t _ (se_revision c + 1)));
    [by apply kernel_step_intro | done | constructor].
Qed.

Lemma toy_wait_commit :
  ∃ r e, toy_commit toy_wait_program toy_envelope (to_runtime_snapshot (se_state toy_envelope))
           (CTick None) 5 401 = Some (r, e) ∧
    replay toy_wait_program toy_envelope [r] = Ok e ∧
    fiber_wait <$> (ps_fibers (se_state e) !! 10%N) = Some (WTimer 1005).
Proof. do 2 eexists. split; [vm_compute; reflexivity|]. split; vm_compute; reflexivity. Qed.

Lemma replay_durable_witness :
  ∃ r e, replay toy_wait_program toy_envelope [r] = Ok e ∧ durable_ok (se_state e) ∧
    se_revision e = 1%N ∧ fiber_wait <$> (ps_fibers (se_state e) !! 10%N) = Some (WTimer 1005).
Proof.
  destruct toy_wait_commit as (r & e & _ & Hr & Hw). exists r, e. split; [exact Hr|].
  destruct (replay_durable toy_wait_program toy_envelope [r] e toy_envelope_keyed
              ltac:(discriminate) Hr) as (H1 & _ & H3).
  split; [exact H1|]. split; [exact H3 | exact Hw].
Defined.

Lemma live_run_replays_witness :
  ∃ r e, live_run toy_wait_program toy_envelope [r] e ∧
    replay toy_wait_program toy_envelope [r] = Ok e.
Proof.
  destruct toy_wait_commit as (r & e & E & _ & _).
  apply toy_commit_live in E; [|by vm_compute]. exists r, e. split; [exact E|].
  exact (live_run_replays toy_wait_program toy_envelope [r] e eq_refl eq_refl E).
Defined.

(** The snapshot of a live tick may carry claimed buffered messages, which
    neither the envelope nor the journalled command holds; a tick that consumes
    one cannot be replayed: replay parks the fibre instead and reports a
    diverged state. *)
Lemma replay_diverges_on_buffered_message :
  let w := toy_workflow [IV2WaitMsg 7; IEnd] in
  ∃ r e,
    toy_commit w toy_envelope
      (with_buffered_messages [toy_buffered] (to_runtime_snapshot (se_state toy_envelope)))
      (CTick None) 5 401 = Some (r, e) ∧
    inst_state (ps_instance (se_state e)) = PSCompleted 5 ∧
    replay w toy_envelope [r] = Err (StateDivergence 1).
Proof. do 2 eexists. split; [vm_compute; reflexivity|]. split; vm_compute; reflexivity. Qed.
