(* ===== verification/CommandTheorems.v ===== *)
(** * External commands: the theorems

    Stopping an instance always works; a stopped instance absorbs every other
    command; an incident parks a fibre and its resolution resumes it; a job
    completion advances its fibre at most once. *)

From S2P Require Import Prelude RustStr Json Types Concurrency Platform Effects Transition Bindings KernelBase KernelScope KernelTick KernelCommands KernelApply Replay ScopeFacts Identity CancelWalk KInvariants Fixtures RingFacts.

(** The runtime snapshot a transition leads to. *)
Definition snapshot_after (s : Snapshot) (t : Transition) : Snapshot :=
  let '(F', T') := derive_post_transition_frame s t in
  mkSnapshot
    (match state_override t with Some st => set_state st (next_snapshot t) | None => next_snapshot t end)
    F' (foldl apply_join_mutation (sn_join_counts s) (join_mutations t))
    (foldl (λ m d, <[dw_key d := dw_completion d]> m) (sn_dedupe s) (tr_dedupe t))
    [] (foldl (λ m i, <[incident_id i := i]> m) (sn_incidents s) (incidents t)) T'
    (sn_pending_effects s).

(** Nothing is armed. *)
Definition all_retired (T : gmap N ConcurrencyRecord) : Prop :=
  ∀ h r, T !! h = Some r -> rec_state r = Retired.

Section commands.
Context {P : Platform}.

(** ** Stopping *)

Definition is_stop (c : Command) : bool :=
  match c with CCancel _ | CTerminate => true | _ => false end.

(** A transition that clears the instance. *)
Record clears (s : Snapshot) (t : Transition) : Prop := {
  clears_state : is_terminal (effective_state t) = true;
  clears_upsert : fibers_upsert t = [];
  clears_cleanup : terminal_cleanup t = mkCleanup true true true;
  clears_records : all_retired (apply_mutations (sn_table s) (concurrency_mutations t));
}.

Lemma K_inv_cleared T : all_retired T -> K_inv ∅ T.
Proof.
  intros H. split_and!.
  - intros id r m Hr Ha. by rewrite (H _ _ Hr) in Ha.
  - intros fid f h Hf. by rewrite lookup_empty in Hf.
  - intros id r Hr Ha. by rewrite (H _ _ Hr) in Ha.
Qed.

Lemma clears_ring3 w s t : clears s t -> ring3_shadow_check w s t = Ok tt.
Proof.
  intros [Hst Hup Hcl Hrec]. unfold ring3_shadow_check, derive_post_transition_frame.
  rewrite Hcl, Hup, Hst. cbn [delete_all_fibers]. unfold apply_fiber_deltas.
  rewrite andb_false_r. cbn [negb ensure mbind Result_bind try_for_each].
  rewrite (proj2 (check_k_invariants_ok _ _) (K_inv_cleared _ Hrec)).
  cbn [map_err mbind Result_bind].
  rewrite (proj2 (try_for_each_ok _ _ tt)).
  - unfold btree_values. by rewrite btree_entries_empty.
  - intros [id r] Hr%elem_of_btree_entries. unfold check_barrier.
    rewrite bool_decide_eq_false_2; [done|]. intros [Ha _]. by rewrite (Hrec _ _ Hr) in Ha.
Qed.

Lemma retire_all_fields s t :
  next_snapshot (retire_all_armed_records s t) = next_snapshot t ∧
  state_override (retire_all_armed_records s t) = state_override t ∧
  fibers_upsert (retire_all_armed_records s t) = fibers_upsert t ∧
  terminal_cleanup (retire_all_armed_records s t) = terminal_cleanup t ∧
  concurrency_mutations (retire_all_armed_records s t) = concurrency_mutations t ++
    (CMRetire <$> armed_record_ids_in_transition s Changes_default).
Proof.
  unfold retire_all_armed_records. generalize (armed_record_ids_in_transition s Changes_default) as l.
  intros l. revert t; induction l as [|id l IH]; intros t; cbn [foldl fmap list_fmap].
  - by rewrite app_nil_r.
  - destruct (IH (b_concurrency_mutation (CMRetire id) t)) as (-> & -> & -> & -> & ->).
    cbn. by rewrite <-app_assoc.
Qed.

Lemma retire_all_retired s :
  all_retired (apply_mutations (sn_table s)
    (CMRetire <$> armed_record_ids_in_transition s Changes_default)).
Proof.
  intros h r Hr. rewrite lookup_apply_retires in Hr.
  destruct (rec_state r) eqn:E; [|done]. exfalso.
  revert Hr. case_decide as Hin.
  - destruct (sn_table s !! h) as [r0|]; cbn; [|done]. intros [= <-]. done.
  - intros Hr. apply Hin. apply elem_of_armed_record_ids. eauto.
Qed.

Lemma cancel_events_fields (l : list Fiber) reason t :
  let t' := foldl (λ t f,
    let desc := describe_wait (fiber_wait f) in
    if bool_decide (desc = EmptyString) then t
    else b_event (EvWaitCancelled (fiber_id f) desc reason) t) t l in
  next_snapshot t' = next_snapshot t ∧ state_override t' = state_override t ∧
  fibers_upsert t' = fibers_upsert t ∧ concurrency_mutations t' = concurrency_mutations t.
Proof.
  revert t; induction l as [|f l IH]; intros t; cbn [foldl]; [done|].
  cbv zeta in *. case_bool_decide; [apply IH|].
  destruct (IH (b_event (EvWaitCancelled (fiber_id f) (describe_wait (fiber_wait f)) reason) t))
    as (-> & -> & -> & ->). done.
Qed.

Lemma cancel_clears s reason ctx : clears s (apply_cancel s reason ctx).
Proof.
  unfold apply_cancel. cbv zeta.
  match goal with |- clears s (retire_all_armed_records s ?t) => set (t0 := t) end.
  destruct (retire_all_fields s t0) as (En & Eo & Eu & Ec & Em).
  destruct (cancel_events_fields (btree_values (sn_fibers s)) reason
    (builder_new (set_state (PSCancelled reason (u64_as_i64 (logical_time ctx))) (sn_instance s))))
    as (Fn & Fo & Fu & Fm). cbv zeta in Fn, Fo, Fu, Fm.
  split.
  - unfold effective_state. rewrite En, Eo. unfold t0. cbn [b_terminal_cleanup b_event next_snapshot
      state_override]. rewrite Fn, Fo. done.
  - rewrite Eu. exact Fu.
  - by rewrite Ec.
  - rewrite Em. unfold t0. cbn [b_terminal_cleanup b_event concurrency_mutations]. rewrite Fm.
    apply retire_all_retired.
Qed.

Lemma terminate_clears s ctx t : apply_terminate s ctx = Ok t -> clears s t.
Proof.
  unfold apply_terminate. intros H. apply bind_ok_inv in H as (at_ & _ & [= <-]).
  match goal with |- clears s (retire_all_armed_records s ?t) => set (t0 := t) end.
  destruct (retire_all_fields s t0) as (En & Eo & Eu & Ec & Em). split.
  - unfold effective_state. by rewrite En, Eo.
  - by rewrite Eu.
  - by rewrite Ec.
  - rewrite Em. apply retire_all_retired.
Qed.

Lemma stop_dispatch w s cmd ctx z :
  is_stop cmd = true -> i64_try_from (logical_time ctx) = Some z ->
  ∃ t, dispatch w s cmd ctx = Ok t ∧ clears s t.
Proof.
  intros Hc Hz. destruct cmd; try discriminate Hc; cbn [dispatch].
  - eexists. split; [done | apply cancel_clears].
  - destruct (apply_terminate s ctx) as [t|e] eqn:E.
    + eexists. split; [done | by eapply terminate_clears].
    + unfold apply_terminate, logical_timestamp in E. by rewrite Hz in E.
Qed.

(** C36: an operator can always stop an instance: whatever its fibres, records
    and values, [Cancel] and [Terminate] are accepted as long as the fibre count
    and operand stacks are within the limits, and leave a terminal instance with
    no fibre, no armed record, and its joins and jobs discarded. *)
Theorem stop_always_succeeds w s cmd ctx :
  is_stop cmd = true -> validate_snapshot_limits w s false = Ok tt ->
  (Z.of_N (logical_time ctx) <= i64_max)%Z ->
  ∃ t, apply w s cmd ctx = Ok t ∧ is_terminal (effective_state t) = true ∧
    terminal_cleanup t = mkCleanup true true true ∧
    let '(F', T') := derive_post_transition_frame s t in F' = ∅ ∧ all_retired T'.
Proof.
  intros Hc Hv Hz.
  assert (Hz' : i64_try_from (logical_time ctx) = Some (Z.of_N (logical_time ctx)))
    by (by apply i64_try_from_Some).
  destruct (stop_dispatch w s cmd ctx _ Hc Hz') as (t & Hd & Ht).
  assert (Ha : checks_arrays cmd = false) by (by destruct cmd).
  unfold apply. rewrite Ha, Hv. cbn [mbind Result_bind]. rewrite Hd. cbn [mbind Result_bind].
  rewrite (clears_ring3 _ _ _ Ht). cbn [map_err mbind Result_bind]. rewrite Hz'.
  cbn [ok_or mbind Result_bind]. eexists. split; [reflexivity|].
  destruct Ht as [H1 H2 H3 H4]. split; [exact H1|]. split; [exact H3|].
  unfold derive_post_transition_frame. cbn. by rewrite H3.
Qed.

(** ** Absorption *)

(** The instance, its fibres and its records are left alone, and no new work is
    created. *)
Record inert (s : Snapshot) (t : Transition) : Prop := {
  inert_instance : next_snapshot t = sn_instance s;
  inert_override : state_override t = None;
  inert_upsert : fibers_upsert t = [];
  inert_delete : fibers_delete t = [];
  inert_records : concurrency_mutations t = [];
  inert_effects : effects t = [];
  inert_jobs : jobs_enqueue t = [];
  inert_cleanup : terminal_cleanup t = TerminalCleanup_default;
}.

Ltac inert_builder := split; by autorewrite with kernel.

Lemma inert_builder_ops s t :
  inert s t -> (∀ e, inert s (b_event e t)) ∧ (∀ m, inert s (b_timer_mutation m t)) ∧
  (∀ m, inert s (b_effect_mutation m t)) ∧ (∀ m, inert s (b_job_mutation m t)) ∧
  (∀ k, inert s (b_ack_job k t)).
Proof. intros []. split_and!; intros; by split. Qed.

Section stopped.
Variables (w : ExecutableWorkflow) (s : Snapshot) (ctx : DeterministicContext).
Hypothesis Hterm : is_terminal (inst_state (sn_instance s)) = true.
Hypothesis Hempty : sn_fibers s = ∅.
Hypothesis Hret : all_retired (sn_table s).

Lemma inert_new : inert s (builder_new (sn_instance s)).
Proof. by split. Qed.

Lemma inert_timer timer fired_at t : apply_timer w s timer fired_at ctx = Ok t -> inert s t.
Proof.
  unfold apply_timer. intros H. apply bind_ok_inv in H as ([] & _ & H).
  apply bind_ok_inv in H as ([] & _ & H). apply bind_ok_inv in H as ([] & _ & H).
  cbv zeta in H. rewrite Hempty, lookup_empty in H.
  assert (Hd : inert s (b_timer_mutation (consume_timer timer) (builder_new (sn_instance s))))
    by (apply inert_builder_ops, inert_new).
  destruct (ct_kind timer) as [| |rid|rid]; try by injection H as <-.
  unfold apply_guard_timer in H. cbv zeta in H.
  destruct (sn_table s !! rid) as [r|] eqn:E; [|by injection H as <-].
  rewrite (Hret _ _ E) in H. by injection H as <-.
Qed.

Lemma inert_completion completion t : apply_job_completion s completion = Ok t -> inert s t.
Proof.
  unfold apply_job_completion. cbv zeta. case_bool_decide; [|done]. rewrite Hterm.
  intros [= <-]. pose proof inert_new as Hn.
  destruct (jc_worker_id completion), (jc_claim_token completion);
    apply inert_builder_ops, inert_builder_ops, Hn.
Qed.

Lemma inert_failure id key cls msg retry attempt t :
  apply_job_failure w s (CEffectFailed id key cls msg retry attempt) ctx = Ok t -> inert s t.
Proof.
  cbn [apply_job_failure]. rewrite Hterm. unfold ack_named_job.
  case_bool_decide; intros [= <-]; inert_builder.
Qed.

Lemma inert_message m n k p h x t :
  apply_message w s (CMessageDelivered m n k p h x) ctx = Ok t -> inert s t.
Proof.
  cbn [apply_message]. intros H. apply bind_ok_inv in H as (z & _ & H). cbv zeta in H.
  rewrite Hterm in H. injection H as <-. inert_builder.
Qed.

Lemma inert_resolve id res t : apply_resolve_incident s id res ctx = Ok t -> inert s t.
Proof.
  unfold apply_resolve_incident. intros H. apply bind_ok_inv in H as (inc & _ & H).
  destruct (incident_resolved_at inc); [injection H as <-; apply inert_new|].
  apply bind_ok_inv in H as ([] & Hs%ensure_ok%bool_decide_eq_true & _).
  rewrite Hs in Hterm. discriminate Hterm.
Qed.

Lemma inert_trigger rid t :
  apply_v2_trigger_guard s (CV2TriggerGuard rid) ctx = Ok t -> inert s t.
Proof.
  cbn [apply_v2_trigger_guard]. intros H. apply bind_ok_inv in H as (c & H & _).
  unfold v2_trigger_guard_changes in H. apply bind_ok_inv in H as (r & Hr%ok_or_ok & H).
  apply bind_ok_inv in H as ([] & _ & H).
  apply bind_ok_inv in H as ([] & Ha%ensure_ok%bool_decide_eq_true & _).
  by rewrite (Hret _ _ Hr) in Ha.
Qed.

Lemma inert_tick req t : apply_tick w s ctx (CTick req) = Ok t -> inert s t.
Proof.
  cbn [apply_tick]. intros H. apply bind_ok_inv in H as ([] & Hs%ensure_ok%bool_decide_eq_true & _).
  rewrite Hs in Hterm. discriminate Hterm.
Qed.

Lemma inert_child key id acc t : apply_start_child_result s key id acc ctx = Ok t -> inert s t.
Proof.
  unfold apply_start_child_result. cbv zeta.
  destruct (inst_state (sn_instance s)); try discriminate Hterm; done.
Qed.

Lemma inert_ffi id fid pc out new nm t :
  apply_ffi_completion w s (CEffectCompleted id (EOFfi fid pc out new nm)) = Ok t -> inert s t.
Proof. cbn [apply_ffi_completion]. by rewrite Hempty, lookup_empty. Qed.
End stopped.

(** C37: a stopped instance (terminal, no fibre, nothing armed) absorbs every
    command other than a renewed stop: if the command is accepted at all, the
    instance, its fibres and its records do not change and no effect or job is
    created. *)
Theorem terminal_absorbs w s cmd ctx t :
  is_terminal (inst_state (sn_instance s)) = true -> sn_fibers s = ∅ -> all_retired (sn_table s) ->
  is_stop cmd = false -> apply w s cmd ctx = Ok t -> inert s t.
Proof.
  intros Ht He Hr Hc (t0 & z & _ & Hd & _ & _ & ->)%apply_ok_inv.
  assert (inert s t0) as []; [|by split].
  destruct cmd; try discriminate Hc; cbn [dispatch] in Hd.
  - by eapply inert_tick.
  - destruct output; [by eapply inert_completion | by eapply inert_ffi | discriminate Hd].
  - by eapply inert_failure.
  - by eapply inert_timer.
  - by eapply inert_message.
  - by eapply inert_resolve.
  - by eapply inert_child.
  - injection Hd as <-. apply inert_builder_ops. by split.
  - by eapply inert_trigger.
Qed.

(** ** Incidents *)

(** The frame of a transition that only upserts one live fibre. *)
Lemma one_upsert_frame s t f :
  fibers_upsert t = [f] -> fibers_delete t = [] -> concurrency_mutations t = [] ->
  terminal_cleanup t = TerminalCleanup_default ->
  derive_post_transition_frame s t = (<[fiber_id f := f]> (sn_fibers s), sn_table s).
Proof.
  intros Hu Hd Hm Hc. unfold derive_post_transition_frame. by rewrite Hu, Hd, Hm, Hc.
Qed.

Section incident.
Variables (s : Snapshot) (f : Fiber) (ctx ctx' : DeterministicContext) (message resolution : string).
Variables (t1 : Transition) (z : Z).
Hypothesis Hlive : sn_fibers s !! fiber_id f = Some f.
Hypothesis Hothers : ∀ k g, sn_fibers s !! k = Some g -> fiber_wait g ≠ WIncident (derived_id ctx 0).
Hypothesis Hfail : fail_contract (sn_instance s) f Changes_default ctx message = Ok t1.
Hypothesis Hz : logical_timestamp ctx' = Ok z.

Let s1 := snapshot_after s t1.
Let id := derived_id ctx 0.

Lemma after_fail :
  sn_fibers s1 = <[fiber_id f := set_wait (WIncident id) f]> (sn_fibers s) ∧
  sn_table s1 = sn_table s ∧ sn_instance s1 = set_state (PSIncidented id) (sn_instance s) ∧
  ∃ inc, sn_incidents s1 !! id = Some inc ∧ incident_id inc = id ∧ incident_resolved_at inc = None ∧
    incident_fiber_id inc = fiber_id f ∧ incident_message inc = message.
Proof.
  unfold s1, snapshot_after. unfold fail_contract in Hfail.
  apply bind_ok_inv in Hfail as (at_ & _ & H). injection H as <-.
  erewrite one_upsert_frame by (by autorewrite with kernel).
  autorewrite with kernel. cbn -[finish]. split_and!; try done.
  eexists. split; [apply lookup_insert_eq|]. done.
Qed.

Lemma found_parked :
  ∃ n, list_find (λ g, fiber_wait g = WIncident id) (btree_values (sn_fibers s1)) =
    Some (n, set_wait (WIncident id) f).
Proof.
  destruct after_fail as (Ef & _).
  destruct (list_find _ _) as [[n g]|] eqn:E.
  - apply list_find_Some in E as (Hg%list_elem_of_lookup_2 & Hw & _).
    apply elem_of_btree_values in Hg as [k Hk]. rewrite Ef in Hk.
    rewrite lookup_insert in Hk. case_decide; [injection Hk as <-; eauto|].
    by apply Hothers in Hk.
  - exfalso. rewrite list_find_None, Forall_forall in E.
    apply (E (set_wait (WIncident id) f)); [|done].
    apply elem_of_btree_values. exists (fiber_id f). rewrite Ef. apply lookup_insert_eq.
Qed.

Lemma resolve_parked :
  ∃ t2, apply_resolve_incident s1 id resolution ctx' = Ok t2 ∧
    let s2 := snapshot_after s1 t2 in
    sn_fibers s2 = <[fiber_id f := set_wait WRunning f]> (sn_fibers s) ∧
    sn_table s2 = sn_table s ∧ sn_instance s2 = set_state PSRunning (sn_instance s) ∧
    ∃ inc, sn_incidents s2 !! id = Some inc ∧ incident_resolved_at inc = Some z.
Proof.
  destruct after_fail as (Ef & Et & Ei & inc & Hi & Hid & Hr & _).
  unfold apply_resolve_incident. rewrite Hi. cbn [ok_or mbind Result_bind]. rewrite Hr, Ei.
  rewrite bool_decide_eq_true_2 by done. cbn [ensure mbind Result_bind]. rewrite Hz.
  cbn [mbind Result_bind]. destruct found_parked as [n Hn]. clearbody s1. rewrite Hn.
  eexists. split; [reflexivity|]. cbv zeta. unfold snapshot_after.
  erewrite one_upsert_frame by done. cbn. rewrite Ef, Et. split_and!; try done.
  - by rewrite insert_insert_eq.
  - rewrite Hid. eexists. by rewrite lookup_insert_eq.
Qed.
End incident.

(** A contract failure parks the fibre on a fresh incident and nothing
    else; resolving that incident restores the running state and the fibre at
    the instruction that failed, records the resolution time, and resolving it
    a second time changes nothing. *)
Lemma incident_round_trip s f ctx ctx' message resolution t1 z :
  sn_fibers s !! fiber_id f = Some f -> fiber_wait f = WRunning ->
  inst_state (sn_instance s) = PSRunning ->
  (∀ k g, sn_fibers s !! k = Some g -> fiber_wait g ≠ WIncident (derived_id ctx 0)) ->
  fail_contract (sn_instance s) f Changes_default ctx message = Ok t1 ->
  logical_timestamp ctx' = Ok z ->
  ∃ t2, apply_resolve_incident (snapshot_after s t1) (derived_id ctx 0) resolution ctx' = Ok t2 ∧
    let s2 := snapshot_after (snapshot_after s t1) t2 in
    sn_fibers s2 = sn_fibers s ∧ sn_table s2 = sn_table s ∧ sn_instance s2 = sn_instance s ∧
    apply_resolve_incident s2 (derived_id ctx 0) resolution ctx' = Ok (builder_new (sn_instance s2)).
Proof.
  intros Hl Hw Hst Ho Hf Hz.
  destruct (resolve_parked s f ctx ctx' message resolution t1 z Ho Hf Hz)
    as (t2 & Ht2 & H1 & H2 & H3 & inc & Hi & Hr).
  exists t2. split; [exact Ht2|]. cbv zeta. split_and!; [|done| |].
  - rewrite H1. apply insert_id. rewrite Hl. f_equal. unfold set_wait. rewrite <-Hw. by destruct f.
  - rewrite H3. destruct (sn_instance s); cbn in *. by rewrite Hst.
  - unfold apply_resolve_incident. rewrite Hi. cbn [ok_or mbind Result_bind]. by rewrite Hr.
Qed.

(** ** Job completion *)

Lemma completed_fiber_Some s key f :
  completed_fiber s key = Some f -> fiber_wait f = WJob key ∧ ∃ k, sn_fibers s !! k = Some f.
Proof.
  unfold completed_fiber. intros (l1 & g & l2 & E & Hg & _)%find_map_Some.
  assert (Hin : g ∈ btree_values (sn_fibers s)) by (rewrite E; set_solver).
  apply elem_of_btree_values in Hin as [k Hk].
  destruct (fiber_wait g) eqn:Hw; try discriminate Hg. case_bool_decide; [|done].
  injection Hg as <-. subst. eauto.
Qed.

Lemma completed_fiber_None s key :
  (∀ k g, sn_fibers s !! k = Some g -> fiber_wait g ≠ WJob key) -> completed_fiber s key = None.
Proof.
  intros H. unfold completed_fiber. apply find_map_None. intros g [k Hk]%elem_of_btree_values.
  destruct (fiber_wait g) eqn:Hw; try done. case_bool_decide; [|done]. subst.
  by destruct (H _ _ Hk).
Qed.

Lemma completion_flags_fields c i i' :
  apply_completion i c = Ok i' ->
  domain_payload i' = jc_domain_payload c ∧
  domain_payload_hash i' = content_hash (as_bytes (jc_domain_payload c)) ∧
  inst_state i' = inst_state i.
Proof.
  unfold apply_completion. cbv zeta. set (i0 := set_payload _ _ i).
  assert (H0 : domain_payload i0 = jc_domain_payload c ∧
    domain_payload_hash i0 = content_hash (as_bytes (jc_domain_payload c)) ∧
    inst_state i0 = inst_state i) by done.
  clearbody i0. revert i0 H0. induction (btree_entries (jc_orch_flags c)) as [|[name v] l IH]; intros i0 H0 H.
  - by injection H as <-.
  - cbn [try_fold] in H. destruct (completion_flag i0 (name, v)) as [i1|] eqn:E; [|done].
    unfold completion_flag in E. apply bind_ok_inv in E as (k & _ & [= <-]).
    by apply (IH (set_flags (<[k:=v]> (flags i0)) i0)).
Qed.

(** What an accepted completion does to a live instance. *)
Lemma completion_advances s c t :
  fibers_keyed (sn_fibers s) -> is_terminal (inst_state (sn_instance s)) = false ->
  apply_job_completion s c = Ok t ->
  ∃ f, fiber_wait f = WJob (jc_job_key c) ∧ sn_fibers s !! fiber_id f = Some f ∧
    snapshot_after s t = mkSnapshot (next_snapshot t)
      (<[fiber_id f := set_wait WRunning (advance_pc f)]> (sn_fibers s)) (sn_join_counts s)
      (<[jc_job_key c := c]> (sn_dedupe s)) [] (sn_incidents s) (sn_table s)
      (sn_pending_effects s) ∧
    domain_payload (next_snapshot t) = jc_domain_payload c ∧
    inst_state (next_snapshot t) = inst_state (sn_instance s).
Proof.
  intros Hk Hterm. unfold apply_job_completion. cbv zeta. case_bool_decide; [|done]. rewrite Hterm.
  intros Ht. apply bind_ok_inv in Ht as (f & Hf%ok_or_ok & Ht).
  apply bind_ok_inv in Ht as (i' & Hi & Ht). injection Ht as <-.
  apply completed_fiber_Some in Hf as (Hw & k & Hkf). pose proof (Hk _ _ Hkf) as <-.
  apply completion_flags_fields in Hi as (Hp & _ & Hs).
  exists f. split; [done|]. split; [done|].
  split; [|split; autorewrite with kernel; done]. unfold snapshot_after.
  destruct (jc_worker_id c), (jc_claim_token c);
    (erewrite one_upsert_frame by (by autorewrite with kernel));
    autorewrite with kernel; cbn -[finish]; reflexivity.
Qed.
(** A completion whose payload expectation is stale is refused; an accepted
    one moves exactly the fibre parked on the job past its instruction and
    installs the new payload; delivered again, it is refused. *)
Lemma job_completion_at_most_once s c t :
  fibers_keyed (sn_fibers s) -> is_terminal (inst_state (sn_instance s)) = false ->
  (∀ k k' g g', sn_fibers s !! k = Some g -> sn_fibers s !! k' = Some g' ->
     fiber_wait g = WJob (jc_job_key c) -> fiber_wait g' = WJob (jc_job_key c) -> k = k') ->
  apply_job_completion s c = Ok t ->
  jc_expected_instance_payload_hash c = content_hash (as_bytes (domain_payload (sn_instance s))) ∧
  (∃ f, fiber_wait f = WJob (jc_job_key c) ∧ sn_fibers s !! fiber_id f = Some f ∧
     sn_fibers (snapshot_after s t) =
       <[fiber_id f := set_wait WRunning (advance_pc f)]> (sn_fibers s) ∧
     sn_table (snapshot_after s t) = sn_table s) ∧
  domain_payload (sn_instance (snapshot_after s t)) = jc_domain_payload c ∧
  ∃ e, apply_job_completion (snapshot_after s t) c = Err e.
Proof.
  intros Hk Hterm Huniq Ht. destruct (completion_advances s c t Hk Hterm Ht)
    as (f & Hw & Hf & Hs & Hp & Hst).
  split; [unfold apply_job_completion in Ht; cbv zeta in Ht; by case_bool_decide|].
  rewrite Hs. cbn [sn_fibers sn_table sn_instance]. split_and!; [by eauto|done|].
  unfold apply_job_completion. cbn [sn_instance]. cbv zeta. case_bool_decide; [|eauto].
  rewrite Hst, Hterm, completed_fiber_None; [cbn; eauto|]. cbn [sn_fibers].
  intros k g Hg Hwg. rewrite lookup_insert in Hg. case_decide as Hkf; [by injection Hg as <-|].
  apply Hkf. by eapply Huniq.
Qed.

End commands.

(** ** Witnesses *)

(** No command changes the identity of an instance: its ids, tenant, process
    key, correlation id, creation time, the artifact and plan it runs, and its
    quarantine. *)
Lemma transition_keeps_identity {P : Platform} w s cmd ctx t :
  apply w s cmd ctx = Ok t -> identity (next_snapshot t) = identity (sn_instance s).
Proof. intros H. by destruct (apply_kept w s cmd ctx t H). Qed.

#[local] Existing Instance toy_platform.

(** A fibre inside a guard, waiting for a job. *)
Definition job_program : ExecutableWorkflow := toy_workflow [IV2Guard 3; IExecNative 0 0 0; IV2GuardEnd; IEnd].

Definition after (w : ExecutableWorkflow) (s : Snapshot) (c : Command) (ctx : DeterministicContext)
  : Snapshot :=
  match apply w s c ctx with Ok t => snapshot_after s t | Err _ => s end.

Definition job_parked : Snapshot := after job_program toy_snapshot (CTick None) (toy_context 5 1).

Lemma stop_always_succeeds_witness :
  ∃ t, apply job_program job_parked (CCancel "operator") (toy_context 6 2) = Ok t ∧
    is_terminal (effective_state t) = true ∧ terminal_cleanup t = mkCleanup true true true ∧
    let '(F', T') := derive_post_transition_frame job_parked t in F' = ∅ ∧ all_retired T'.
Proof.
  refine (stop_always_succeeds job_program job_parked (CCancel "operator") (toy_context 6 2) _ _ _).
  - reflexivity.
  - vm_compute. reflexivity.
  - vm_compute. discriminate.
Defined.

Definition job_cancelled : Snapshot :=
  after job_program job_parked (CCancel "operator") (toy_context 6 2).

Lemma job_cancelled_retired : all_retired (sn_table job_cancelled).
Proof.
  assert (H : forallb (λ e, bool_decide (rec_state e.2 = Retired)) (map_to_list (sn_table job_cancelled))
    = true) by (vm_compute; reflexivity).
  intros h r Hr. rewrite forallb_forall in H.
  apply elem_of_map_to_list, list_elem_of_In, H in Hr. by apply bool_decide_eq_true in Hr.
Qed.

Lemma terminal_absorbs_witness :
  ∃ t, apply job_program job_cancelled (CMessageDelivered "m" "approved" "k" [] None 0)
         (toy_context 7 3) = Ok t ∧ inert job_cancelled t.
Proof.
  assert (E : ∃ t, apply job_program job_cancelled (CMessageDelivered "m" "approved" "k" [] None 0)
    (toy_context 7 3) = Ok t) by (eexists; vm_compute; reflexivity).
  destruct E as [t E]. exists t. split; [exact E|].
  refine (terminal_absorbs job_program job_cancelled _ (toy_context 7 3) t _ _ job_cancelled_retired
            _ E); vm_compute; reflexivity.
Defined.

Lemma incident_round_trip_witness :
  ∃ t1 t2, fail_contract (sn_instance toy_snapshot) (Fiber_new 10 0) Changes_default
             (toy_context 5 1) "boom" = Ok t1 ∧
    apply_resolve_incident (snapshot_after toy_snapshot t1) (derived_id (toy_context 5 1) 0) "fixed"
      (toy_context 6 2) = Ok t2 ∧
    sn_fibers (snapshot_after (snapshot_after toy_snapshot t1) t2) = sn_fibers toy_snapshot.
Proof.
  assert (E : ∃ t1, fail_contract (sn_instance toy_snapshot) (Fiber_new 10 0) Changes_default
             (toy_context 5 1) "boom" = Ok t1) by (eexists; vm_compute; reflexivity).
  destruct E as [t1 E]. exists t1.
  destruct (incident_round_trip toy_snapshot (Fiber_new 10 0) (toy_context 5 1) (toy_context 6 2)
              "boom" "fixed" t1 6 eq_refl eq_refl eq_refl) as (t2 & H1 & H2 & _).
  - intros k g Hg.
    assert (g = Fiber_new 10 0) as ->.
    { change (sn_fibers toy_snapshot) with ({[ 10%N := Fiber_new 10 0 ]} : gmap N Fiber) in Hg.
      apply lookup_singleton_Some in Hg. naive_solver. }
    discriminate.
  - exact E.
  - reflexivity.
  - exists t2. by split_and!.
Defined.

Definition parked_job_key (s : Snapshot) : string :=
  match fiber_wait <$> (sn_fibers s !! 10%N) with Some (WJob k) => k | _ => EmptyString end.

Definition job_done : JobCompletion := {|
  jc_job_key := parked_job_key job_parked; jc_domain_payload := "{}";
  jc_expected_instance_payload_hash := toy_digest (as_bytes "{}");
  jc_orch_flags := ∅; jc_worker_id := None; jc_claim_token := None |}.

(** The single fibre of a snapshot. *)
Lemma only_fiber s f :
  map_to_list (sn_fibers s) = [(10%N, f)] -> ∀ k g, sn_fibers s !! k = Some g -> k = 10%N ∧ g = f.
Proof. intros E k g Hg%elem_of_map_to_list. rewrite E in Hg. set_solver. Qed.

Lemma job_completion_at_most_once_witness :
  ∃ t f, apply_job_completion job_parked job_done = Ok t ∧ fiber_pc f = 1%N ∧
    sn_fibers (snapshot_after job_parked t) =
      <[fiber_id f := set_wait WRunning (advance_pc f)]> (sn_fibers job_parked) ∧
    ∃ e, apply_job_completion (snapshot_after job_parked t) job_done = Err e.
Proof.
  assert (E : ∃ t, apply_job_completion job_parked job_done = Ok t) by (eexists; vm_compute; reflexivity).
  assert (E1 : ∃ f, map_to_list (sn_fibers job_parked) = [(10%N, f)] ∧ fiber_id f = 10%N ∧
    fiber_pc f = 1%N) by (eexists; split_and!; vm_compute; reflexivity).
  destruct E as [t E], E1 as (f0 & E1 & Hid & Hpc). pose proof (only_fiber _ _ E1) as Honly.
  destruct (job_completion_at_most_once job_parked job_done t) as (_ & (f & _ & Hf & Hs & _) & _ & He).
  - intros k g Hg. destruct (Honly _ _ Hg) as [-> ->]. exact Hid.
  - vm_compute. reflexivity.
  - intros k k' g g' Hg Hg' _ _. destruct (Honly _ _ Hg) as [-> _], (Honly _ _ Hg') as [-> _]. done.
  - exact E.
  - exists t, f. destruct (Honly _ _ Hf) as [_ ->]. by split_and!.
Defined.

(** ** Re-running a job after a rollback *)

(** What the engine sees next: the stores build snapshots without completions. *)
Definition engine_after (w : ExecutableWorkflow) (s : Snapshot) (c : Command)
    (ctx : DeterministicContext) : Snapshot := with_dedupe ∅ (after w s c ctx).

(** A GUARD-R scope around two jobs. *)
Definition saga_program : ExecutableWorkflow :=
  toy_workflow [IV2GuardR; IExecNative 0 0 0; IExecNative 1 0 0; IV2GuardREnd; IEnd].

Definition complete_parked (s : Snapshot) : Command :=
  CEffectCompleted 0 (EOJob {|
    jc_job_key := parked_job_key s; jc_domain_payload := "{}";
    jc_expected_instance_payload_hash := toy_digest (as_bytes "{}");
    jc_orch_flags := ∅; jc_worker_id := None; jc_claim_token := None |}).

Definition saga_first : Snapshot := engine_after saga_program toy_snapshot (CTick None) (toy_context 5 1).
Definition saga_second : Snapshot :=
  engine_after saga_program
    (engine_after saga_program saga_first (complete_parked saga_first) (toy_context 6 2))
    (CTick None) (toy_context 7 3).
Definition saga_failed : Snapshot :=
  engine_after saga_program saga_second
    (CEffectFailed 0 (parked_job_key saga_second) ContractViolation "boom" None 0) (toy_context 8 4).
Definition saga_rerun : Snapshot :=
  engine_after saga_program
    (engine_after saga_program saga_failed
       (CResolveIncident (derived_id (toy_context 8 4) 0) "retry") (toy_context 9 5))
    (CTick None) (toy_context 10 6).

(** The rolled-back body of a GUARD-R scope runs again, after its incident
    is resolved, under the job keys of the first run: the first job is activated
    with the key whose completion the stores already hold, and they discard a
    second completion of a key, so its fibre stays parked. *)
Lemma rollback_reissues_completed_job :
  let key := parked_job_key saga_first in
  (∃ t, apply saga_program saga_first (complete_parked saga_first) (toy_context 6 2) = Ok t ∧
     dw_key <$> tr_dedupe t = [key]) ∧
  inst_state (sn_instance saga_failed) = PSIncidented (derived_id (toy_context 8 4) 0) ∧
  inst_state (sn_instance saga_rerun) = PSRunning ∧
  fiber_wait <$> sn_fibers saga_rerun !! 10%N = Some (WJob key).
Proof.
  cbv zeta. split; [eexists; split; vm_compute; reflexivity|]. split_and!; vm_compute; reflexivity.
Qed.

Lemma transition_keeps_identity_witness :
  ∃ t, apply job_program job_parked (CEffectCompleted 0 (EOJob job_done)) (toy_context 6 2) = Ok t ∧
    identity (next_snapshot t) = identity toy_instance.
Proof.
  assert (Ht : ∃ t, apply job_program job_parked (CEffectCompleted 0 (EOJob job_done)) (toy_context 6 2) = Ok t)
    by (eexists; vm_compute; reflexivity).
  destruct Ht as [t Ht]. exists t. split; [exact Ht|].
  rewrite (transition_keeps_identity _ _ _ _ _ Ht). vm_compute. reflexivity.
Defined.
