(* ===== verification/MessageTheorems.v ===== *)
(** * Messages and timers: the theorems

    Delivery resumes exactly the first subscribed fibre or buffers; what a
    publisher writes is what a waiter for the same name and key matches, in
    either order; a timer resumes only the fibre that waits for it, and a
    repeating guard timer fires its budget exactly. *)

From S2P Require Import Prelude RustStr Json Types Concurrency Platform Effects Transition Bindings KernelBase KernelScope KernelTick KernelCommands KernelApply Replay ScopeFacts CancelWalk KInvariants Fixtures RingFacts CommandTheorems.

Section messages.
Context {P : Platform}.
Variable w : ExecutableWorkflow.

(** ** Delivery *)

(** Where a delivery of [name]/[key] resumes a fibre: in place when it waits
    for the message, at the arm's target when it waits in a race. *)
Inductive subscribed (name key : string) (f : Fiber) : Addr -> option RecordId -> Prop :=
| subscribed_wait id waiting :
    fiber_wait f = WMsg id waiting key ->
    message_name_matches (message_name_map (wf_metadata w)) name waiting = true ->
    subscribed name key f (fiber_pc f) None
| subscribed_race rid arms target waiting :
    fiber_wait f = WV2Race rid arms -> ArmMsg target waiting key ∈ arms ->
    message_name_matches (message_name_map (wf_metadata w)) name waiting = true ->
    subscribed name key f target (Some rid).

Lemma message_hits_true name key waiting corr :
  message_hits w name key waiting corr = true ↔
  message_name_matches (message_name_map (wf_metadata w)) name waiting = true ∧ corr = key.
Proof. unfold message_hits. by rewrite andb_true_iff, bool_decide_eq_true. Qed.

Lemma message_match_sound name key f f' race :
  message_match w name key f = Some (f', race) ->
  ∃ target, subscribed name key f target race ∧ f' = set_wait WRunning (set_pc target f).
Proof.
  unfold message_match. destruct (fiber_wait f) eqn:Hw; try discriminate.
  - destruct (message_hits _ _ _ _ _) eqn:Hh; [|done]. intros [= <- <-].
    apply message_hits_true in Hh as [Hn ->]. exists (fiber_pc f).
    split; [by eapply subscribed_wait | by destruct f].
  - intros (l1 & arm & l2 & -> & Ha & _)%find_map_Some. destruct arm; try discriminate Ha.
    destruct (message_hits _ _ _ _ _) eqn:Hh; [|done]. injection Ha as <- <-.
    apply message_hits_true in Hh as [Hn ->]. eexists. split; [|reflexivity].
    eapply subscribed_race; [exact Hw | by apply elem_of_app; right; left | exact Hn].
Qed.

Lemma message_match_complete name key f target race :
  subscribed name key f target race -> is_Some (message_match w name key f).
Proof.
  unfold message_match. intros [id waiting Hw Hn|rid arms tgt waiting Hw Hin Hn]; rewrite Hw.
  - rewrite (proj2 (message_hits_true _ _ _ _)) by done. eauto.
  - destruct (find_map _ arms) as [x|] eqn:E; [eauto|].
    rewrite find_map_None in E. specialize (E _ Hin). cbn in E.
    by rewrite (proj2 (message_hits_true _ _ _ _)) in E.
Qed.

(** The message a delivery concerns, as the store sees it. *)
Definition delivered (s : Snapshot) (id name key : string) (payload : list Byte.byte)
    (hash : option Hash) (received expires : Timestamp) : BufferedMessage := {|
  bm_tenant_id := inst_tenant_id (sn_instance s); bm_message_name := name;
  bm_correlation_key := key; bm_msg_id := id; bm_payload := payload; bm_payload_hash := hash;
  bm_process_instance_id := Some (instance_id (sn_instance s)); bm_received_at := received;
  bm_expires_at := expires |}.

(** The message resumes fibre [f]. *)
Definition resumes (s : Snapshot) (name key : string) (f : Fiber) (t : Transition) : Prop :=
  sn_fibers s !! fiber_id f = Some f ∧
  ∃ target race, subscribed name key f target race ∧
    (∀ g k target' race', sn_fibers s !! k = Some g -> subscribed name key g target' race' ->
       (fiber_id f <= fiber_id g)%N) ∧
    derive_post_transition_frame s t =
      (<[fiber_id f := set_wait WRunning (set_pc target f)]> (sn_fibers s),
       match race with
       | Some rid => apply_mutation (sn_table s) (CMRetire rid)
       | None => sn_table s
       end).

Lemma first_match_least s name key f f' race l1 l2 :
  fibers_keyed (sn_fibers s) ->
  btree_values (sn_fibers s) = l1 ++ f :: l2 ->
  message_match w name key f = Some (f', race) ->
  (∀ g, g ∈ l1 -> message_match w name key g = None) ->
  ∀ g k target' race', sn_fibers s !! k = Some g -> subscribed name key g target' race' ->
    (fiber_id f <= fiber_id g)%N.
Proof.
  intros Hk E Hm Hl1 g k target' race' Hg Hs. apply message_match_complete in Hs as [x Hs].
  assert (Hin : g ∈ btree_values (sn_fibers s)) by (apply elem_of_btree_values; eauto).
  rewrite E, elem_of_app, elem_of_cons in Hin. destruct Hin as [Hin|[->|Hin]]; [|lia|].
  - by rewrite (Hl1 _ Hin) in Hs.
  - exact (btree_values_sorted (sn_fibers s) fiber_id l1 f l2 g Hk E Hin).
Qed.

(** Delivering a message to a live instance either resumes exactly one
    fibre, the subscribed one with the smallest id, at the place its wait or
    race arm names (retiring the race), and marks the message delivered; or, when
    no fibre is subscribed, changes no fibre and buffers the message. *)
Lemma message_delivery_exact s ctx id name key payload hash expires t :
  fibers_keyed (sn_fibers s) -> is_terminal (inst_state (sn_instance s)) = false ->
  apply_message w s (CMessageDelivered id name key payload hash expires) ctx = Ok t ->
  ∃ received,
    let m := delivered s id name key payload hash received expires in
    (buffered_messages t = [BMDeliver m] ∧ ∃ f, resumes s name key f t) ∨
    (buffered_messages t = [BMInsert m] ∧
     derive_post_transition_frame s t = (sn_fibers s, sn_table s) ∧ next_snapshot t = sn_instance s ∧
     ∀ k g target race, sn_fibers s !! k = Some g -> ¬ subscribed name key g target race).
Proof.
  intros Hk Hterm H. cbn [apply_message] in H. apply bind_ok_inv in H as (received & _ & H).
  cbv zeta in H. rewrite Hterm in H. exists received. cbv zeta.
  destruct (find_map _ _) as [[f' race]|] eqn:Hf.
  - apply bind_ok_inv in H as (i' & _ & H). injection H as <-. left.
    apply find_map_Some in Hf as (l1 & f & l2 & E & Hm & Hl1).
    split; [destruct race; autorewrite with kernel; done|].
    assert (Hin : f ∈ btree_values (sn_fibers s)) by (rewrite E; set_solver).
    apply elem_of_btree_values in Hin as [k Hkf]. pose proof (Hk _ _ Hkf) as <-.
    pose proof (first_match_least s name key f f' race l1 l2 Hk E Hm Hl1) as Hleast.
    destruct (message_match_sound _ _ _ _ _ Hm) as (target & Hs & ->).
    exists f. split; [done|]. exists target, race. split; [done|]. split; [exact Hleast|].
    unfold derive_post_transition_frame. destruct race; by autorewrite with kernel.
  - injection H as <-. right. rewrite find_map_None in Hf.
    split_and!; [by autorewrite with kernel| |by autorewrite with kernel|].
    + unfold derive_post_transition_frame. by autorewrite with kernel.
    + intros k g target race Hg [x Hs]%message_match_complete.
      rewrite Hf in Hs; [done|]. apply elem_of_btree_values. eauto.
Qed.

(** ** Publishing and waiting *)

Lemma name_matches_own names n :
  message_name_matches names (default (show_N n) (names !! n)) n = true.
Proof.
  unfold message_name_matches. destruct (names !! n); cbn; by rewrite bool_decide_eq_true_2.
Qed.

(** A published message and a wait with the same message id and the same
    resolved correlation key meet in either order: a fibre that already waits is
    resumed by its delivery, and a wait that comes later consumes it from the
    buffer and does not park. *)
Lemma publish_wait_rendezvous ctx name ts o :
  exec_publish_message w ctx name ts = Ok o ->
  ∃ ts' m, o = Continue ts' ∧
    ch_buffered_messages (ts_changes ts') = ch_buffered_messages (ts_changes ts) ++ [BMInsert m] ∧
    ∀ key, resolve_correlation_key_at w (ts_instance ts) (fiber_pc (ts_fiber ts)) = Ok key ->
      (∀ f id, fiber_wait f = WMsg id name key ->
         message_match w (bm_message_name m) (bm_correlation_key m) f = Some (set_wait WRunning f, None)) ∧
      (∀ s2 ts2 claimed, cbm_message claimed = m -> sn_buffered_messages s2 = [claimed] ->
         resolve_correlation_key_at w (ts_instance ts2) (fiber_pc (ts_fiber ts2)) = Ok key ->
         ∃ ts3, exec_wait_msg w s2 name ts2 = Ok (Continue ts3) ∧
           fiber_pc (ts_fiber ts3) = addr_next (fiber_pc (ts_fiber ts2)) ∧
           ch_buffered_messages (ts_changes ts3) =
             ch_buffered_messages (ts_changes ts2) ++ [BMConsume claimed]).
Proof.
  unfold exec_publish_message. intros H. apply bind_ok_inv in H as (key & Hkey & H).
  cbv zeta in H. apply bind_ok_inv in H as (ex & _ & H). apply bind_ok_inv in H as (ea & _ & H).
  apply bind_ok_inv in H as (ra & _ & H). injection H as <-.
  eexists _, _. split; [reflexivity|]. split; [reflexivity|].
  intros key' Hk'. rewrite Hkey in Hk'. injection Hk' as <-. split.
  - intros f id Hw. unfold message_match. rewrite Hw. cbn [bm_message_name bm_correlation_key].
    by rewrite (proj2 (message_hits_true _ _ _ _) (conj (name_matches_own _ _) eq_refl)).
  - intros s2 ts2 claimed Hc Hb Hr. unfold exec_wait_msg. rewrite Hr. cbn [mbind Result_bind].
    rewrite Hb. cbn [list_find]. rewrite decide_True.
    + rewrite Hc. cbn [bm_payload_hash mbind Result_bind]. eexists. split; [reflexivity|]. done.
    + unfold buffered_match. rewrite Hc. cbn [bm_message_name bm_correlation_key].
      rewrite name_matches_own. by rewrite bool_decide_eq_true_2.
Qed.

End messages.

(** ** Timers *)

Section timers.
Context {P : Platform}.
Variables (w : ExecutableWorkflow) (s : Snapshot) (ctx : DeterministicContext).

(** What a timer fires at is still waiting for it. *)
Definition timer_target (timer : ClaimedTimer) (fired_at : N) : bool :=
  match ct_kind timer with
  | TKWait =>
      match fiber_wait <$> sn_fibers s !! ct_fiber_id timer with
      | Some (WTimer deadline) => (deadline <=? fired_at)%N
      | _ => false
      end
  | TKV2Race rid _ =>
      match fiber_wait <$> sn_fibers s !! ct_fiber_id timer with
      | Some (WV2Race current _) => (current =? rid)%N
      | _ => false
      end
  | TKV2GuardTimer rid =>
      match sn_table s !! rid with
      | Some r =>
          match rec_state r, rec_kind r with Armed, KGuard _ => true | _, _ => false end
      | None => false
      end
  | TKRace _ _ _ _ _ _ _ => false
  end.

(** The timer belongs to the snapshot's instance and is due. *)
Definition timer_admissible (timer : ClaimedTimer) (fired_at : N) : Prop :=
  ct_tenant_id timer = inst_tenant_id (sn_instance s) ∧
  ct_instance_id timer = instance_id (sn_instance s) ∧ (ct_due_at timer <= fired_at)%N.

Lemma apply_timer_admissible timer fired_at t :
  apply_timer w s timer fired_at ctx = Ok t -> timer_admissible timer fired_at.
Proof.
  unfold apply_timer. intros H.
  apply bind_ok_inv in H as ([] & H1%ensure_ok%bool_decide_eq_true & H).
  apply bind_ok_inv in H as ([] & H2%ensure_ok%N.eqb_eq & H).
  by apply bind_ok_inv in H as ([] & H3%ensure_ok%N.leb_le & _).
Qed.

Definition only_consumed (timer : ClaimedTimer) : Transition :=
  b_timer_mutation (consume_timer timer) (builder_new (sn_instance s)).

Lemma stale_timer timer fired_at :
  timer_admissible timer fired_at -> timer_target timer fired_at = false ->
  apply_timer w s timer fired_at ctx = Ok (only_consumed timer).
Proof.
  intros (H1 & H2 & H3) Hs. unfold apply_timer.
  rewrite bool_decide_eq_true_2, H2, N.eqb_refl, (proj2 (N.leb_le _ _) H3) by done.
  cbn [ensure mbind Result_bind]. cbv zeta. unfold timer_target in Hs.
  destruct (ct_kind timer) as [| |rid resume|rid].
  - destruct (sn_fibers s !! ct_fiber_id timer) as [f|]; [|done].
    cbn in Hs. destruct (fiber_wait f); try done. by rewrite Hs.
  - by destruct (sn_fibers s !! ct_fiber_id timer).
  - destruct (sn_fibers s !! ct_fiber_id timer) as [f|]; [|done].
    cbn in Hs. destruct (fiber_wait f); try done. by rewrite Hs.
  - unfold apply_guard_timer. cbv zeta. destruct (sn_table s !! rid) as [r|]; [|done].
    by destruct (rec_state r), (rec_kind r).
Qed.

Lemma wait_timer timer fired_at f deadline :
  timer_admissible timer fired_at -> ct_kind timer = TKWait ->
  sn_fibers s !! ct_fiber_id timer = Some f -> fiber_wait f = WTimer deadline ->
  (deadline <= fired_at)%N ->
  apply_timer w s timer fired_at ctx =
    Ok (b_timer_mutation (consume_timer timer)
          (b_event (EvTimerFired (ct_timer_id timer) (ct_fiber_id timer) fired_at)
             (b_upsert_fiber (set_wait WRunning f) (builder_new (sn_instance s))))).
Proof.
  intros (H1 & H2 & H3) Hk Hf Hw Hd. unfold apply_timer.
  rewrite bool_decide_eq_true_2, H2, N.eqb_refl, (proj2 (N.leb_le _ _) H3) by done.
  cbn [ensure mbind Result_bind]. cbv zeta. rewrite Hk, Hf, Hw.
  by rewrite (proj2 (N.leb_le _ _) Hd).
Qed.

(** A wait timer is refused for another tenant or instance or before its
    due time; otherwise it is consumed, and it resumes its fibre, in place, when
    that fibre still waits for a deadline that has passed, and changes nothing
    else. *)
Lemma wait_timer_exact timer fired_at :
  ct_kind timer = TKWait -> fibers_keyed (sn_fibers s) ->
  (¬ timer_admissible timer fired_at ∧ ∃ e, apply_timer w s timer fired_at ctx = Err e) ∨
  (timer_admissible timer fired_at ∧
   ∃ t, apply_timer w s timer fired_at ctx = Ok t ∧ timer_mutations t = [consume_timer timer] ∧
     next_snapshot t = sn_instance s ∧
     derive_post_transition_frame s t =
       (if timer_target timer fired_at
        then alter (set_wait WRunning) (ct_fiber_id timer) (sn_fibers s) else sn_fibers s,
        sn_table s)).
Proof.
  intros Hk Hkeyed. destruct (apply_timer w s timer fired_at ctx) as [t|e] eqn:E.
  - pose proof (apply_timer_admissible _ _ _ E) as Ha. right. split; [done|]. exists t.
    split; [done|]. destruct (timer_target timer fired_at) eqn:Ht.
    + unfold timer_target in Ht. rewrite Hk in Ht.
      destruct (sn_fibers s !! ct_fiber_id timer) as [f|] eqn:Hf; [|done].
      cbn in Ht. destruct (fiber_wait f) as [|d| | | | | | |] eqn:Hw; try discriminate Ht.
      apply N.leb_le in Ht. rewrite (wait_timer _ _ _ _ Ha Hk Hf Hw Ht) in E. injection E as <-.
      split; [done|]. split; [done|]. unfold derive_post_transition_frame. cbn. f_equal.
      rewrite (Hkeyed _ _ Hf). apply map_eq. intros k.
      destruct (decide (k = ct_fiber_id timer)) as [->|Hne].
      * by rewrite lookup_insert_eq, lookup_alter_eq, Hf.
      * by rewrite lookup_insert_ne, lookup_alter_ne.
    + rewrite (stale_timer _ _ Ha Ht) in E. by injection E as <-.
  - left. split; [|eauto]. intros Ha. destruct (timer_target timer fired_at) eqn:Ht.
    + unfold timer_target in Ht. rewrite Hk in Ht.
      destruct (sn_fibers s !! ct_fiber_id timer) as [f|] eqn:Hf; [|done].
      cbn in Ht. destruct (fiber_wait f) as [|d| | | | | | |] eqn:Hw; try discriminate Ht.
      apply N.leb_le in Ht. by rewrite (wait_timer _ _ _ _ Ha Hk Hf Hw Ht) in E.
    + by rewrite (stale_timer _ _ Ha Ht) in E.
Qed.

(** A timer whose target moved on (a fibre that waits for something else, a
    race that was won, a guard that was closed) is consumed and has no other
    effect. *)
Lemma stale_timer_harmless timer fired_at :
  timer_admissible timer fired_at -> timer_target timer fired_at = false ->
  ∃ t, apply_timer w s timer fired_at ctx = Ok t ∧ timer_mutations t = [consume_timer timer] ∧
    next_snapshot t = sn_instance s ∧ events t = [] ∧ effects t = [] ∧
    derive_post_transition_frame s t = (sn_fibers s, sn_table s).
Proof. intros Ha Ht. eexists. split; [by apply stale_timer|]. done. Qed.

End timers.

(** ** Repeating guard timers *)

(** The stored timer after a firing's mutation. *)
Definition rearmed (timer : ClaimedTimer) (m : TimerMutation) : option ClaimedTimer :=
  match m with
  | TMRearm id token due spec =>
      Some {| ct_tenant_id := ct_tenant_id timer; ct_timer_id := id;
              ct_instance_id := ct_instance_id timer; ct_fiber_id := ct_fiber_id timer;
              ct_due_at := due; ct_kind := ct_kind timer; ct_repeat_spec := Some spec;
              ct_claim_token := token |}
  | _ => None
  end.

(** Firing it at each of the given times; [None] once it is consumed. *)
Fixpoint fire_all (interrupting : bool) (timer : ClaimedTimer) (times : list N)
  : option ClaimedTimer :=
  match times with
  | [] => Some timer
  | fired_at :: times' =>
      match rearmed timer (guard_timer_mutation interrupting timer fired_at) with
      | Some timer' => fire_all interrupting timer' times'
      | None => None
      end
  end.

(** A guard timer that may fire [n] times survives exactly [n - 1] firings,
    each re-armed one interval after the last; a timer of an interrupting guard
    fires once. *)
Lemma guard_timer_budget interrupting timer times interval n fired :
  ct_repeat_spec timer = Some (mkRepeat interval n fired) ->
  is_Some (fire_all interrupting timer times) ↔
  times = [] ∨ (interrupting = false ∧ (len times < n)%N).
Proof.
  revert timer n fired. induction times as [|t times IH]; intros timer n fired Hspec; [cbn; naive_solver|].
  cbn [fire_all]. unfold guard_timer_mutation. rewrite Hspec. destruct interrupting.
  { split; [by intros [? ?] | by intros [?|[? _]]]. }
  cbn [remaining interval_ms fired_count]. unfold len in *. cbn [length].
  destruct (N.ltb_spec 1 n) as [Hn|Hn].
  - cbn [rearmed]. erewrite IH by reflexivity. split; [|].
    + intros [->|[_ H]]; right; (split; [done|]); cbn; lia.
    + intros [?|[_ H]]; [done|]. right. split; [done|]. lia.
  - cbn [rearmed consume_timer]. split; [by intros [? ?]|]. intros [?|[_ H]]; [done|lia].
Qed.

(** ** Witnesses *)

#[local] Existing Instance toy_platform.

Definition wait_msg_program : ExecutableWorkflow := toy_workflow [IV2WaitMsg 7; IEnd].
Definition msg_parked : Snapshot := after wait_msg_program toy_snapshot (CTick None) (toy_context 5 1).

(** The only fibre of these snapshots is fibre 10. *)
Lemma toy_single_keyed s f :
  map_to_list (sn_fibers s) = [(10%N, f)] -> fiber_id f = 10%N -> fibers_keyed (sn_fibers s).
Proof. intros E Hid k g Hg. destruct (only_fiber s f E _ _ Hg) as [-> ->]. exact Hid. Qed.

Lemma msg_parked_keyed : fibers_keyed (sn_fibers msg_parked).
Proof. eapply toy_single_keyed; vm_compute; reflexivity. Qed.

Lemma message_delivery_exact_witness :
  ∃ t f, apply_message wait_msg_program msg_parked
           (CMessageDelivered "m1" "approved" "false" [] None 900) (toy_context 6 2) = Ok t ∧
    resumes wait_msg_program msg_parked "approved" "false" f t.
Proof.
  assert (E : ∃ t, apply_message wait_msg_program msg_parked
           (CMessageDelivered "m1" "approved" "false" [] None 900) (toy_context 6 2) = Ok t ∧
           length (fibers_upsert t) = 1)
    by (eexists; split; vm_compute; reflexivity).
  destruct E as (t & E & El). exists t.
  destruct (message_delivery_exact wait_msg_program msg_parked (toy_context 6 2) "m1" "approved"
              "false" [] None 900 t msg_parked_keyed eq_refl E)
    as (received & [[_ [f Hf]]|(Hb & _)]); [by exists f|].
  vm_compute in E. injection E as <-. discriminate Hb.
Defined.

Definition publish_program : ExecutableWorkflow := toy_workflow [IPublishMessage 7; IEnd].

Lemma publish_wait_rendezvous_witness :
  ∃ ts' m, exec_publish_message publish_program (toy_context 5 1) 7
             (tick_start toy_snapshot (Fiber_new 10 0)) = Ok (Continue ts') ∧
    message_match publish_program (bm_message_name m) (bm_correlation_key m)
      (set_wait (WMsg 0 7 "false") (Fiber_new 11 0)) =
      Some (set_wait WRunning (set_wait (WMsg 0 7 "false") (Fiber_new 11 0)), None).
Proof.
  assert (E : ∃ o, exec_publish_message publish_program (toy_context 5 1) 7
             (tick_start toy_snapshot (Fiber_new 10 0)) = Ok o) by (eexists; vm_compute; reflexivity).
  destruct E as [o E].
  destruct (publish_wait_rendezvous publish_program (toy_context 5 1) 7 _ o E)
    as (ts' & m & -> & _ & H).
  exists ts', m. split; [exact E|].
  destruct (H "false") as [H1 _]; [vm_compute; reflexivity|]. by eapply H1.
Defined.

Definition wait_program : ExecutableWorkflow := toy_workflow [IPushI64 1000; IV2WaitFor; IEnd].
Definition timer_parked : Snapshot := after wait_program toy_snapshot (CTick None) (toy_context 5 1).
Definition toy_timer : ClaimedTimer := {|
  ct_tenant_id := "default"; ct_timer_id := 77; ct_instance_id := 1; ct_fiber_id := 10;
  ct_due_at := 1005; ct_kind := TKWait; ct_repeat_spec := None; ct_claim_token := 5 |}.

Lemma timer_parked_keyed : fibers_keyed (sn_fibers timer_parked).
Proof. eapply toy_single_keyed; vm_compute; reflexivity. Qed.

Lemma wait_timer_exact_witness :
  ∃ t, apply_timer wait_program timer_parked toy_timer 1005 (toy_context 1005 2) = Ok t ∧
    (derive_post_transition_frame timer_parked t).1 =
      alter (set_wait WRunning) 10%N (sn_fibers timer_parked).
Proof.
  destruct (wait_timer_exact wait_program timer_parked (toy_context 1005 2) toy_timer 1005 eq_refl
              timer_parked_keyed) as [[Hn _]|(_ & t & Ht & _ & _ & Hf)].
  - exfalso. apply Hn. vm_compute. split; [reflexivity|]. split; [reflexivity | discriminate].
  - exists t. split; [exact Ht|]. rewrite Hf. vm_compute. reflexivity.
Defined.

Lemma stale_timer_harmless_witness :
  ∃ t, apply_timer wait_msg_program msg_parked toy_timer 1005 (toy_context 1005 2) = Ok t ∧
    derive_post_transition_frame msg_parked t = (sn_fibers msg_parked, sn_table msg_parked).
Proof.
  destruct (stale_timer_harmless wait_msg_program msg_parked (toy_context 1005 2) toy_timer 1005)
    as (t & Ht & _ & _ & _ & _ & Hf).
  - vm_compute. split; [reflexivity|]. split; [reflexivity | discriminate].
  - vm_compute. reflexivity.
  - by exists t.
Defined.

Definition toy_guard_timer : ClaimedTimer := {|
  ct_tenant_id := "default"; ct_timer_id := 77; ct_instance_id := 1; ct_fiber_id := 10;
  ct_due_at := 5; ct_kind := TKV2GuardTimer 9; ct_repeat_spec := Some (mkRepeat 10 3 0);
  ct_claim_token := 5 |}.

Lemma guard_timer_budget_witness :
  is_Some (fire_all false toy_guard_timer [5; 15]%N) ∧
  ¬ is_Some (fire_all false toy_guard_timer [5; 15; 25]%N).
Proof.
  pose proof (λ times, guard_timer_budget false toy_guard_timer times 10 3 0 eq_refl) as H.
  split; rewrite H; unfold len; cbn; [right; split; [reflexivity | lia]|].
  intros [?|[_ ?]]; [discriminate | lia].
Defined.
