(* ===== verification/PolicyTheorems.v ===== *)
(** * Error routes, rollback, retries and limits: the theorems *)

From S2P Require Import Prelude RustStr Json Types Concurrency Platform Effects Transition Bindings KernelBase KernelScope KernelTick KernelCommands KernelApply ScopeFacts CancelWalk KInvariants Fixtures RingFacts CommandTheorems.

(** ** Error routes *)

Definition is_catch_all (r : option string * Addr) : bool :=
  match r.1 with None => true | Some _ => false end.

(** The routes of a guard after arming them one by one. *)
Definition arm_all (armed : list (option string * Addr)) : list (option string * Addr) :=
  foldl (λ routes r, insert_route r routes) [] armed.

(** Specific codes in arming order, then catch-alls in arming order. *)
Definition specific (armed : list (option string * Addr)) : list (option string * Addr) :=
  filter (λ r, is_catch_all r = false) armed.
Definition catch_alls (armed : list (option string * Addr)) : list (option string * Addr) :=
  filter (λ r, is_catch_all r = true) armed.

Lemma position_split {A} (p : A -> bool) l1 l2 :
  (∀ x, x ∈ l1 -> p x = false) -> (∀ x, x ∈ l2 -> p x = true) ->
  default (length (l1 ++ l2)) (position p (l1 ++ l2)) = length l1.
Proof.
  intros H1 H2. induction l1 as [|x l1 IH]; cbn.
  - destruct l2 as [|y l2]; cbn; [done|]. by rewrite H2 by set_solver.
  - rewrite (H1 x) by set_solver. specialize (IH ltac:(set_solver)).
    destruct (position p (l1 ++ l2)); cbn in *; congruence.
Qed.

Lemma arm_all_ordered armed : arm_all armed = specific armed ++ catch_alls armed.
Proof.
  unfold arm_all, specific, catch_alls.
  induction armed as [|r armed IH] using rev_ind; [done|].
  rewrite foldl_app. cbn [foldl]. rewrite IH, !filter_app, !filter_cons, !filter_nil.
  unfold insert_route. destruct r as [[code|] a]; cbn [fst].
  - change (λ r : option string * N, match r.1 with None => true | Some _ => false end)
      with is_catch_all.
    rewrite position_split.
    + rewrite decide_True, decide_False by done. unfold vec_insert.
      by rewrite take_app_length, drop_app_length, app_nil_r, <-app_assoc.
    + intros x. rewrite list_elem_of_filter. naive_solver.
    + intros x. rewrite list_elem_of_filter. naive_solver.
  - rewrite decide_False, decide_True by done. by rewrite app_nil_r, app_assoc.
Qed.

Lemma find_map_app {A B} (f : A -> option B) l1 l2 :
  find_map f (l1 ++ l2) = match find_map f l1 with Some b => Some b | None => find_map f l2 end.
Proof. induction l1 as [|x l1 IH]; cbn; [done|]. by destruct (f x). Qed.

Lemma find_route_specific code armed :
  find_route code (specific armed) = snd <$> list_find (λ r, r.1 = Some code) armed.
Proof.
  unfold find_route, specific. induction armed as [|[[c|] a] armed IH]; [done| |].
  - rewrite filter_cons, decide_True by done. cbn [find_map fst list_find].
    case_bool_decide as Hc; [by rewrite decide_True by congruence|].
    rewrite decide_False by congruence. rewrite IH. by destruct (list_find _ armed) as [[]|].
  - rewrite filter_cons, decide_False by done. cbn [list_find fst].
    rewrite decide_False by done. rewrite IH. by destruct (list_find _ armed) as [[]|].
Qed.

Lemma find_route_catch_all code armed :
  find_route code (catch_alls armed) = snd <$> list_find (λ r, r.1 = None) armed.
Proof.
  unfold find_route, catch_alls. induction armed as [|[[c|] a] armed IH]; [done| |].
  - rewrite filter_cons, decide_False by done. cbn [list_find fst].
    rewrite decide_False by done. rewrite IH. by destruct (list_find _ armed) as [[]|].
  - rewrite filter_cons, decide_True by done. cbn [find_map list_find fst].
    by rewrite decide_True by done.
Qed.

(** Whatever the order in which a guard's error routes were armed, a
    rejection takes the first route armed for exactly its code, and only if
    there is none the first catch-all. *)
Lemma error_route_priority armed code :
  find_route code (arm_all armed) =
  match list_find (λ r, r.1 = Some code) armed with
  | Some (_, r) => Some r
  | None => snd <$> list_find (λ r, r.1 = None) armed
  end.
Proof.
  rewrite arm_all_ordered. unfold find_route. rewrite find_map_app.
  change (find_map _ (specific armed)) with (find_route code (specific armed)).
  change (find_map _ (catch_alls armed)) with (find_route code (catch_alls armed)).
  rewrite find_route_specific, find_route_catch_all. by destruct (list_find _ armed) as [[]|].
Qed.

(** ** Rollback *)

Section rollback.
Context {P : Platform}.

(** The instance with the five rolled-back fields of another one. *)
Definition rolled_back_to (i0 i : ProcessInstance) : ProcessInstance :=
  set_session_stack (session_stack i0)
    (set_join_expected (join_expected i0)
      (set_flags (flags i0)
        (set_payload (domain_payload i0) (domain_payload_hash i0) i))).

(** No live fibre of the snapshot holds the handle: the walk finds only it. *)
Lemma walk_fresh s h :
  (∀ k g, sn_fibers s !! k = Some g -> h ∉ effective_control_stack g) ->
  cancel_guard_scope s h = Ok ([h], []).
Proof.
  intros Hf. unfold cancel_guard_scope, cancel_fuel. cbn [v2_cancel_guard_scope].
  assert (E : scope_scan s h = (∅, [])).
  { unfold scope_scan. assert (Hl : ∀ g, g ∈ btree_values (sn_fibers s) ->
      h ∉ effective_control_stack g) by (intros g [k Hk]%elem_of_btree_values; eauto).
    induction (btree_values (sn_fibers s)) as [|g l IH]; cbn [foldl]; [done|].
    unfold scope_scan_fiber at 2. rewrite (proj2 (position_None _ _)); [apply IH; set_solver|].
    intros x Hx. apply N.eqb_neq. intros ->. eapply Hl; [|exact Hx]. by left. }
  by rewrite E.
Qed.

(** The record an opened GUARD-R scope carries, with its members. *)
Definition rollback_of (i0 : ProcessInstance) (r : ConcurrencyRecord) : Prop :=
  rollback_domain_payload r = Some (domain_payload i0) ∧
  rollback_domain_payload_hash r = Some (domain_payload_hash i0) ∧
  rollback_flags r = Some (flags i0) ∧ rollback_join_expected r = Some (join_expected i0) ∧
  rollback_session_stack r = Some (to_rollback_snapshot (session_stack i0)).

(** Rolling back through such a record restores the snapshot it carries. *)
Lemma rollback_restores s h caller c i0 r R L :
  session_roundtrip (session_stack i0) ->
  fetch_record_in_transition s c h = Some r -> rollback_of i0 r ->
  cancel_guard_scope s h = Ok (R, L) ->
  ∃ rs c', v2_rollback_guard_scope s h caller c = Ok (rs, c') ∧
    ∀ i, restore rs i = rolled_back_to i0 i.
Proof.
  intros Hsess Hf (E1 & E2 & E3 & E4 & E5) Hw. unfold v2_rollback_guard_scope. rewrite Hf.
  cbn [ok_or mbind Result_bind]. rewrite E1, E2, E3, E4, E5. unfold from_rollback_snapshot,
    to_rollback_snapshot. rewrite Hsess. cbn [ok_or mbind Result_bind]. rewrite Hw.
  cbn [mbind Result_bind]. destruct caller; eexists _, _; (split; [reflexivity|done]).
Qed.

End rollback.

(** ** Retries *)

Section retry.
Context {P : Platform}.

(** A retry is scheduled only for a transient error and within the attempt
    budget; its due time is at least one base delay away (clock saturation
    aside) and not before the hint, and without a hint at most a quarter over
    the greatest delay. *)
Lemma retry_due_bounds p attempt hint error_class time command next due :
  policy_valid p -> (time <= u64_max)%N -> (max_attempts p < u32_max)%N ->
  retry_decision p attempt hint error_class time command = RetryAt next due ->
  error_class = Transient ∧ next = (attempt + 1)%N ∧ (next <= max_attempts p)%N ∧
  (N.min u64_max (time + base_delay_ms p) <= due)%N ∧
  match hint with
  | Some h => (h <= due)%N
  | None => (due <= time + max_delay_ms p + max_delay_ms p / 4)%N
  end.
Proof.
  intros Hp Ht Hmax H. unfold retry_decision in H. destruct error_class; try discriminate H.
  cbv zeta in H. destruct (N.ltb_spec (max_attempts p) (sat_add u32_max attempt 1)) as [|Hle];
    [discriminate H|].
  pose proof (retry_delay_bounds p attempt Hp) as [Hlo Hhi].
  set (d := retry_delay p attempt) in *.
  set (seed := le_number _) in H. pose proof (jitter_bound seed d) as Hj.
  set (j := (if (d / 4 =? 0)%N then _ else _)) in *.
  assert (Hq : (d / 4 <= max_delay_ms p / 4)%N) by (apply N.Div0.div_le_mono; lia).
  injection H as <- <-. unfold sat_add in *.
  assert (Hn : N.min u32_max (attempt + 1) = (attempt + 1)%N) by lia.
  split; [done|]. split; [done|]. split; [lia|]. split; destruct hint; lia.
Qed.

End retry.

(** ** Failure budget of a scope *)

Lemma scope_failures_from b k persisted :
  (0 < max_failures b <= u32_max)%N -> (persisted < max_failures b)%N ->
  scope_failures b k persisted =
    if (max_failures b <=? persisted + N.of_nat k)%N then Some (max_failures b) else None.
Proof.
  intros Hb. revert persisted; induction k as [|k IH]; intros persisted Hp; cbn [scope_failures].
  - destruct (N.leb_spec (max_failures b) (persisted + N.of_nat 0)); [lia | done].
  - unfold scope_decision. cbv zeta.
    assert (Hs : sat_add u32_max persisted 1 = (persisted + 1)%N) by (apply sat_add_exact; lia).
    rewrite Hs. destruct (N.leb_spec (max_failures b) (persisted + 1)).
    + destruct (N.leb_spec (max_failures b) (persisted + N.of_nat (S k))); [|lia]. f_equal. lia.
    + rewrite IH by lia. replace (persisted + 1 + N.of_nat k)%N with (persisted + N.of_nat (S k))%N by lia.
      done.
Qed.

(** A scope with an admissible budget is exhausted by its [max_failures]-th
    failure, not earlier and not later. *)
Theorem scope_budget_exact version failures b k :
  ScopeFailureBudget_new version failures = Ok b -> (failures <= u32_max)%N ->
  scope_failures b k 0 = if (failures <=? N.of_nat k)%N then Some failures else None.
Proof.
  unfold ScopeFailureBudget_new. destruct (N.eqb_spec version 0); [done|].
  destruct (N.eqb_spec failures 0); [done|]. cbn. intros [= <-] Hf.
  rewrite scope_failures_from; cbn [max_failures]; [done|lia|lia].
Qed.

(** ** Limits *)

(** A value passes the array walk exactly when its arrays nest at most
    eight deep and none is longer than 4096. *)
Theorem array_limits_exact v :
  check_array_limits v = Ok tt ↔
  (array_depth v <= MAX_VALUE_ARRAY_DEPTH)%N ∧ (array_max_len v <= MAX_VALUE_ARRAY_LEN)%N.
Proof.
  unfold check_array_limits. rewrite check_array_limits_at_depth_spec by (unfold MAX_VALUE_ARRAY_DEPTH; lia).
  by rewrite N.add_0_l.
Qed.

Lemma tick_loop_mono {P : Platform} w s ctx n m ts t :
  tick_loop w s ctx n ts = Ok t -> n <= m -> tick_loop w s ctx m ts = Ok t.
Proof.
  revert m ts; induction n as [|n IH]; intros m ts; cbn; [done|]. intros H Hm.
  destruct m as [|m]; [lia|]. cbn. destruct (tick_step w s ctx ts) as [[ts'|t']|e]; [|done..].
  apply IH; [done|lia].
Qed.

(** ** Paths *)

(** A payload write is read back at its path and changes no other top-level
    member. *)
Theorem payload_write_read root seg rest v root' :
  write_json_path root (seg :: rest) v = Ok root' ->
  read_json_path root' (seg :: rest) = Some v ∧
  ∀ seg' tail, seg ≠ seg' ->
    read_json_path root' (seg' :: tail) = read_json_path root (seg' :: tail).
Proof.
  intros H. split; [by eapply read_write_json_path|]. intros seg' tail Hne.
  by eapply read_write_json_path_other.
Qed.

(** ** Identifiers *)

(** Two kernel ids derived from different commands, revisions or ordinals
    hash different byte strings. *)
Theorem derived_id_preimages_differ c c' r r' o o' :
  (c < 2 ^ 128)%N -> (c' < 2 ^ 128)%N -> is_u64 r -> is_u64 r' -> is_u32 o -> is_u32 o' ->
  (c, r, o) ≠ (c', r', o') ->
  ∃ m m', (∀ P : Platform, derived_id (mkContext 0 c r) o = from_hash (blake3 m) ∧
                     derived_id (mkContext 0 c' r') o' = from_hash (blake3 m')) ∧ m ≠ m'.
Proof.
  intros Hc Hc' Hr Hr' Ho Ho' Hne. eexists _, _. split; [by split|].
  intros E. cbn [command_id next_revision] in E.
  apply for_command_preimage_inj in E as (-> & -> & ->); auto.
Qed.

(** ** Witnesses *)

#[local] Existing Instance toy_platform.

(** The scope is opened, flags and payload change, the scope is cancelled. *)
Definition rollback_start : TickState := tick_start toy_snapshot (Fiber_new 10 0).
Definition rollback_dirty (ts : TickState) : TickState :=
  on_instance (λ i, set_flags {[ 3%N := VBool true ]} (set_payload "[]" [] i)) ts.


Definition toy_policy : RetryPolicy := RetryPolicy_conservative_default.

Lemma toy_policy_valid : policy_valid toy_policy.
Proof. unfold policy_valid. cbn. unfold u64_max. lia. Qed.

Lemma retry_due_bounds_witness :
  ∃ due, retry_decision toy_policy 2 None Transient 100 400 = RetryAt 3 due ∧
    (due <= 100 + 60000 + 60000 / 4)%N.
Proof.
  exists 4658%N. split; [vm_compute; reflexivity|].
  apply (retry_due_bounds toy_policy 2 None Transient 100 400 3 4658 toy_policy_valid);
    vm_compute; [discriminate | reflexivity | reflexivity].
Defined.

Lemma scope_budget_exact_witness :
  scope_failures ScopeFailureBudget_conservative_default 4 0 = None ∧
  scope_failures ScopeFailureBudget_conservative_default 5 0 = Some 5%N.
Proof.
  split; (rewrite (scope_budget_exact 1 5); [reflexivity|reflexivity|vm_compute; discriminate]).
Defined.

Lemma payload_write_read_witness :
  ∃ root', write_json_path (JObject [("a", JObject [])]) ["a"; "b"] (JBool true) = Ok root' ∧
    read_json_path root' ["a"; "b"] = Some (JBool true).
Proof.
  eexists. split; [vm_compute; reflexivity|].
  apply (payload_write_read (JObject [("a", JObject [])]) "a" ["b"]). vm_compute. reflexivity.
Defined.

Lemma derived_id_preimages_differ_witness :
  ∃ m m', (∀ P : Platform, derived_id (mkContext 0 400 1) 0 = from_hash (blake3 m) ∧
                     derived_id (mkContext 0 400 1) 1 = from_hash (blake3 m')) ∧ m ≠ m'.
Proof.
  apply (derived_id_preimages_differ 400 400 1 1 0 1); vm_compute; try discriminate; reflexivity.
Defined.
