(* ===== verification/VerifierTheorems.v ===== *)
(** * Theorems on the artifact verifier

    What [verify_program] decides, what it buys the interpreter, and where the
    interpreter does something its annotation does not describe. *)

From S2P Require Import Prelude Dataflow RustStr Json Types Concurrency Platform Effects Transition Verifier Bindings KernelBase KernelScope KernelTick KernelCommands KernelApply Fixtures VerifierFacts TypedTick CommandTheorems.


(** The verifier decides every program: none of its four worklist loops can
    run past one visit per instruction. *)
Lemma verify_program_terminates p md : verify_program p md ≠ Err IterationBound.
Proof.
  change (bounded (verify_program p md)). unfold verify_program.
  apply bounded_bind; [by destruct (bool_decide _)|intros _ _].
  apply bounded_bind; [apply verify_metadata_bounded|intros _ _].
  apply bounded_bind; [apply height_walk_bounded|intros [H h] _].
  apply bounded_bind; [by destruct (ha_reachable_end h)|intros _ _].
  apply bounded_bind; [|intros c _; apply bounded_bind; [apply terminal_reachability_bounded|done]].
  apply bounded_bind; [apply control_walk_bounded|by intros []].
Qed.

(** C10: on a verified program whose words are all ones the annotation covers, a
    freshly started fibre is typed, and a tick of a typed snapshot never pops
    an empty operand or control stack, never leaves the instruction stream,
    and leaves every live fibre with the operands and the open scopes the
    verifier computed for its address. *)
Theorem verified_tick_safe {P : Platform} w limits H ha C ca :
  verify_program (wf_instructions w) (wf_metadata w) = Ok limits ->
  height_walk (wf_instructions w) = Ok (H, ha) -> control_walk (wf_instructions w) = Ok (C, ca) ->
  plain_program (wf_instructions w) H = true ->
  (max_stack limits < u32_max)%N -> (len (wf_instructions w) <= u32_max)%N ->
  (∀ id, fiber_typed H C (Fiber_new id 0)) ∧
  ∀ s ctx cmd, snapshot_typed H C (sn_fibers s) ->
    match apply_tick w s ctx cmd with
    | Ok t => snapshot_typed H C (derive_post_transition_frame s t).1
    | Err e => stuck e = false
    end.
Proof.
  intros Hv Hh Hc Hp Hl Hs.
  pose proof (verify_program_admitted _ _ _ _ _ _ _ Hv Hh Hc) as Had. split.
  - intros id. split; cbn; [apply (ad_heights _ _ _ _ Had)|].
    exists []. split; [apply (ad_stacks _ _ _ _ Had) | done].
  - intros s ctx cmd Hty.
    pose proof (apply_tick_safe (wf_instructions w) H C (max_stack limits) Had
      (λ a i, plain_program_at _ _ _ _ Hp) Hl Hs w s ctx eq_refl cmd Hty) as Hsafe.
    exact Hsafe.
Qed.

#[local] Existing Instance toy_platform.

(** ** Concrete programs *)

(** A workflow with the limits the verifier computes for it. *)
Definition verified_workflow (program : list Instr) : option ExecutableWorkflow :=
  let metadata := {|
    debug_map := ∅; join_plan := ∅; wait_plan := ∅; message_name_map := ∅;
    task_manifest := ["do_work"]; ffi_task_decls := ∅; v2_ffi_task_decls := ∅;
    v2_corr_sources := ∅; v2_guard_budgets := ∅;
    default_guard_budget := ScopeFailureBudget_conservative_default;
    default_retry_policy := RetryPolicy_conservative_default |} in
  match verify_program program metadata with
  | Ok limits => Some {| wf_abi_version := 1; wf_compiler_version := "toy";
      wf_instructions := program; wf_metadata := metadata; wf_limits := limits; wf_hash := toy_hash |}
  | Err _ => None
  end.

(** Commands in sequence, each on the state the previous one left. *)
Fixpoint run (w : ExecutableWorkflow) (s : Snapshot) (cmds : list Command) (rev : N)
  : Result TransitionError Snapshot :=
  match cmds with
  | [] => Ok s
  | c :: rest => t ← apply w s c (toy_context (5 + rev) rev); run w (snapshot_after s t) rest (rev + 1)
  end.


(** [run] fails with a stuck interpreter. *)
Definition gets_stuck (program : list Instr) (cmds : list Command) (e : TransitionError) : Prop :=
  ∃ w, verified_workflow program = Some w ∧ run w toy_snapshot cmds 1 = Err e ∧ stuck e = true.

Definition completion (key : string) : Command :=
  CEffectCompleted 0 (EOJob {|
    jc_job_key := key; jc_domain_payload := "{}";
    jc_expected_instance_payload_hash := toy_digest (as_bytes "{}");
    jc_orch_flags := ∅; jc_worker_id := None; jc_claim_token := None |}).

Ltac stuck_run := eexists; split; [vm_compute; reflexivity|]; split; vm_compute; reflexivity.

(** Two verified programs underflow the operand stack: the children of a
    fork start with no operands although the walk gives them their parent's
    height, and the results a native task declares are pushed only when its
    completion is already known. *)
Lemma verified_programs_underflow :
  gets_stuck [IPushBool true; IV2Fork [2; 3]%N 1; IJump 4; IJump 4; IPop; IV2Join 1; IEnd]
    [CTick None; CTick None] (StackUnderflow "Pop") ∧
  gets_stuck [IExecNative 0 0 1; IPop; IEnd]
    [CTick None; completion "1:pc_0:0:0"; CTick None] (StackUnderflow "Pop").
Proof. split; stuck_run. Qed.

(** Two verified programs leave the instruction stream: the interpreter
    continues past a rollback the walk treats as a dead end, and a counter
    branch may be the last word. *)
Lemma verified_programs_fall_off :
  gets_stuck [IPushBool true; IBrIf 3; IEnd; IV2GuardR; IV2CancelScope]
    [CTick None] (ProgramCounterOutOfBounds 5) ∧
  gets_stuck [IIncCounter 0; IPushBool true; IBrIf 4; IEnd; IBrCounterLt 0 3 0]
    [CTick None] (ProgramCounterOutOfBounds 5).
Proof. split; stuck_run. Qed.

(** The control-stack walk does not enter the handler of an error arm: a
    verified program closes a guard there that is no longer open, and the
    handler fibre underflows its control stack. *)
Lemma error_arm_unchecked :
  gets_stuck [IV2Guard 5; IV2GuardArmError None 6; IExecNative 0 0 0; IV2GuardEnd; IEnd; IEnd;
              IV2GuardEnd; IEnd]
    [CTick None; CEffectFailed 0 "1:pc_2:2:0" (BusinessRejection "x") "no" None 1; CTick None]
    (StackUnderflow "V2GuardEnd").
Proof. stuck_run. Qed.

(** ** Witness *)

(** Two branches that meet at a join, inside a guard. *)
Definition typed_program : list Instr :=
  [IV2Guard 6; IV2Fork [2; 3]%N 1; IJump 4; IJump 4; IV2Join 1; IV2GuardEnd; IEnd].

Definition typed_workflow : ExecutableWorkflow :=
  default (toy_workflow []) (verified_workflow typed_program).
Definition typed_heights : gmap N N * HeightAcc :=
  default (∅, mkHeightAcc false 0 0 0) (result_ok (height_walk typed_program)).
Definition typed_stacks : gmap N AbstractStack * ControlAcc :=
  default (∅, mkControlAcc 0 0 0) (result_ok (control_walk typed_program)).

Lemma verified_tick_safe_witness :
  typed_stacks.1 !! 4%N = Some [mkToken SKGuard 0; mkToken SKBarrier 1] ∧
  fiber_typed typed_heights.1 typed_stacks.1 (Fiber_new 10 0) ∧
  match apply_tick typed_workflow toy_snapshot (toy_context 5 1) (CTick None) with
  | Ok t => length (fibers_upsert t) = 2 ∧
      snapshot_typed typed_heights.1 typed_stacks.1 (derive_post_transition_frame toy_snapshot t).1
  | Err _ => False
  end.
Proof.
  assert (Hs := verified_tick_safe typed_workflow (wf_limits typed_workflow) typed_heights.1
    typed_heights.2 typed_stacks.1 typed_stacks.2 ltac:(vm_compute; reflexivity)
    ltac:(vm_compute; reflexivity) ltac:(vm_compute; reflexivity) ltac:(vm_compute; reflexivity)
    ltac:(vm_compute; reflexivity) ltac:(vm_compute; discriminate)).
  destruct Hs as [Hf Hs]. split; [vm_compute; reflexivity|]. split; [apply Hf|].
  specialize (Hs toy_snapshot (toy_context 5 1) (CTick None)).
  assert (Ht : snapshot_typed typed_heights.1 typed_stacks.1 (sn_fibers toy_snapshot)).
  { intros x f Hx. change (<[10%N := Fiber_new 10 0]> (∅ : gmap N Fiber) !! x = Some f) in Hx.
    apply lookup_insert_Some in Hx as [[_ <-]|[_ Hx]]; [apply Hf|].
    by apply lookup_empty_Some in Hx. }
  specialize (Hs Ht).
  assert (Hok : ∃ t, apply_tick typed_workflow toy_snapshot (toy_context 5 1) (CTick None) = Ok t ∧
    length (fibers_upsert t) = 2) by (eexists; split; vm_compute; reflexivity).
  destruct Hok as (t & E & Hl). rewrite E in Hs |- *. by split.
Defined.
