(* ===== verification/CodecTheorems.v ===== *)
(** * What the state hash commits to

    The hashed byte string of a snapshot envelope is a concatenation of
    prefix-free encodings, so it determines every hashed part of the state.
    The decodable parts inherit this from their round trip (file CodecFacts);
    the JSON parts, which the code never decodes, are shown prefix-free
    directly. *)

From S2P Require Import Prelude RustStr Json Types Concurrency Platform Effects Transition Bindings Canonical Decode CodecFacts Fixtures.

(** An encoder no output of which is a prefix of another. *)
Class PrefixInj {A} (enc : A -> list Byte.byte) (ok : A -> Prop) :=
  prefix_inj x y r1 r2 : ok x -> ok y -> enc x ++ r1 = enc y ++ r2 -> x = y ∧ r1 = r2.

Global Instance round_trip_prefix_inj {A} enc dec (ok : A -> Prop) `{!RoundTrips 0 enc dec ok} :
  PrefixInj enc ok.
Proof. intros x y r1 r2 Hx Hy. eapply decodes_prefix_inj; by apply (round_trip (dec := dec)). Qed.

(** Removes the encoding of one field from both sides of an equation. *)
Tactic Notation "peel" constr(enc) "in" hyp(H) "as" simple_intropattern(p) :=
  apply (prefix_inj (enc := enc)) in H as [p H]; [|cbv beta; solve [done | eauto | unfold is_u64, is_u32 in *; lia]..].

Lemma as_bytes_inj s s' : as_bytes s = as_bytes s' -> s = s'.
Proof. intros E. by rewrite <-(string_of_as_bytes s), E, string_of_as_bytes. Qed.

(** A string needs its length only: UTF-8 validity plays no part. *)
Lemma write_str_inj s s' r1 r2 :
  bytes_ok (as_bytes s) -> bytes_ok (as_bytes s') ->
  write_str s ++ r1 = write_str s' ++ r2 -> s = s' ∧ r1 = r2.
Proof.
  intros H H' E. apply (prefix_inj (enc := write_bytes)) in E as [E ->]; [|done..].
  by apply as_bytes_inj in E.
Qed.

(** [Ok] is injective, without the simplification [injection] performs. *)
Lemma ok_inj {E A} (x y : A) : @Ok E A x = Ok y -> x = y.
Proof. congruence. Qed.

(** ** JSON *)

(** The bits of a float are 64. *)
Fixpoint json_ok (j : json) : Prop :=
  match j with
  | JNumber (JFloat bits) => is_u64 bits
  | JArray l => (fix go (l : list json) : Prop :=
                   match l with [] => True | x :: l' => json_ok x ∧ go l' end) l
  | JObject fs => (fix go (l : list (string * json)) : Prop :=
                     match l with [] => True | (_, x) :: l' => json_ok x ∧ go l' end) fs
  | _ => True
  end.

Lemma json_ok_array l : json_ok (JArray l) ↔ Forall json_ok l.
Proof. cbn. induction l as [|x l IH]; [by split|]. rewrite Forall_cons. naive_solver. Qed.

Lemma json_ok_object fs : json_ok (JObject fs) ↔ Forall (λ e, json_ok e.2) fs.
Proof. cbn. induction fs as [|[k x] l IH]; [by split|]. rewrite Forall_cons. naive_solver. Qed.

(** The members of an object, in order. *)
Fixpoint encode_json_fields (l : list (string * json)) : Result CanonicalJsonError (list Byte.byte) :=
  match l with
  | [] => Ok []
  | (k, x) :: l' =>
      _ ← checked_len_u32 (len (as_bytes k)) "JSON object key";
      a ← encode_canonical_json x;
      b ← encode_json_fields l';
      Ok (write_str k ++ a ++ b)
  end.

Lemma checked_len_ok n kind m : checked_len_u32 n kind = Ok m -> m = n ∧ is_u32 n.
Proof. unfold checked_len_u32, is_u32. destruct (N.leb_spec n u32_max); [by intros [= ->] | done]. Qed.

Lemma encode_fields_cons k j l x :
  encode_json_fields ((k, j) :: l) = Ok x ->
  ∃ a b, bytes_ok (as_bytes k) ∧ encode_canonical_json j = Ok a ∧ encode_json_fields l = Ok b ∧
    x = write_str k ++ a ++ b.
Proof.
  cbn [encode_json_fields]. intros (n & [_ Hk]%checked_len_ok & H)%bind_ok_inv.
  apply bind_ok_inv in H as (a & Ha & H). apply bind_ok_inv in H as (b & Hb & H).
  exists a, b. split_and!; try done. congruence.
Qed.

Lemma encode_array_eq l :
  encode_canonical_json (JArray l) =
    (n ← checked_len_u32 (len l) "JSON array"; body ← encode_json_list l;
     Ok (write_u8 6 ++ write_u32 n ++ body)).
Proof.
  cbn [encode_canonical_json]. destruct (checked_len_u32 _ _) as [n|]; [|done].
  cbn [mbind Result_bind]. match goal with |- mbind _ ?x = mbind _ ?y => assert (x = y) as -> end; [|done].
  induction l as [|x l IH]; [done|]. cbn [encode_json_list mbind Result_bind].
  destruct (encode_canonical_json x); [|done]. rewrite IH. by destruct (encode_json_list l).
Qed.

Lemma encode_object_eq fs :
  encode_canonical_json (JObject fs) =
    (n ← checked_len_u32 (len fs) "JSON object"; body ← encode_json_fields fs;
     Ok (write_u8 7 ++ write_u32 n ++ body)).
Proof.
  cbn [encode_canonical_json]. destruct (checked_len_u32 _ _) as [n|]; [|done].
  cbn [mbind Result_bind]. match goal with |- mbind _ ?x = mbind _ ?y => assert (x = y) as -> end; [|done].
  induction fs as [|[k x] l IH]; [done|]. cbn [encode_json_fields mbind Result_bind].
  destruct (checked_len_u32 _ _); [|done].
  destruct (encode_canonical_json x); [|done]. rewrite IH. by destruct (encode_json_fields l).
Qed.


(** The tag and the body an encoded JSON value consists of. *)
Inductive json_enc : json -> N -> list Byte.byte -> Prop :=
| je_null : json_enc JNull 0 []
| je_bool b : json_enc (JBool b) 1 (write_bool b)
| je_i64 z : is_i64 z -> json_enc (JNumber (JInt z)) 2 (write_u64 (i64_as_u64 z))
| je_u64 z : (0 <= z <= Z.of_N u64_max)%Z -> json_enc (JNumber (JInt z)) 3 (write_u64 (Z.to_N z))
| je_float bits : json_enc (JNumber (JFloat bits)) 4 (write_u64 bits)
| je_string s : bytes_ok (as_bytes s) -> json_enc (JString s) 5 (write_str s)
| je_array l body :
    is_u32 (len l) -> encode_json_list l = Ok body ->
    json_enc (JArray l) 6 (write_u32 (len l) ++ body)
| je_object fs body :
    is_u32 (len fs) -> encode_json_fields fs = Ok body ->
    json_enc (JObject fs) 7 (write_u32 (len fs) ++ body).
#[local] Hint Constructors json_enc : core.
#[local] Hint Extern 0 (is_u8 _) => unfold is_u8; lia : core.

Lemma encode_number_inv n x :
  encode_canonical_json (JNumber n) = Ok x ->
  ∃ t body, x = write_u8 t ++ body ∧ is_u8 t ∧ json_enc (JNumber n) t body.
Proof.
  cbn [encode_canonical_json]. unfold number_as_i64, number_as_u64. destruct n as [z|bits].
  - destruct (_ && _)%Z eqn:E.
    { intros [= <-]. exists 2%N. eexists. split_and!; [reflexivity|auto|]. constructor. unfold is_i64. lia. }
    destruct ((0 <=? z) && _)%Z eqn:E'; [|intros [=]].
    intros [= <-]. exists 3%N. eexists. split_and!; [reflexivity|auto|]. constructor. lia.
  - destruct (f64_is_finite bits); [|intros [=]]. intros [= <-]. exists 4%N. eauto.
Qed.

Lemma encode_json_inv j x :
  encode_canonical_json j = Ok x -> ∃ t body, x = write_u8 t ++ body ∧ is_u8 t ∧ json_enc j t body.
Proof.
  destruct j as [|b|n|s|l|fs].
  - intros [= <-]. exists 0%N, []. rewrite app_nil_r. auto.
  - intros [= <-]. exists 1%N. eauto.
  - apply encode_number_inv.
  - cbn [encode_canonical_json mbind Result_bind]. destruct (checked_len_u32 _ _) eqn:E; [|done].
    apply checked_len_ok in E as [-> E]. intros [= <-]. exists 5%N. eauto.
  - rewrite encode_array_eq. intros H. apply bind_ok_inv in H as (n & [-> Hl]%checked_len_ok & H).
    apply bind_ok_inv in H as (b & Hb & [= <-]). exists 6%N, (write_u32 (len l) ++ b). auto.
  - rewrite encode_object_eq. intros H. apply bind_ok_inv in H as (n & [-> Hl]%checked_len_ok & H).
    apply bind_ok_inv in H as (b & Hb & [= <-]). exists 7%N, (write_u32 (len fs) ++ b). auto.
Qed.

(** Prefix-freeness of the encoding of one value, as an induction hypothesis. *)
Definition json_inj (j : json) : Prop :=
  ∀ j' x y r1 r2, json_ok j -> json_ok j' ->
    encode_canonical_json j = Ok x -> encode_canonical_json j' = Ok y ->
    x ++ r1 = y ++ r2 -> j = j' ∧ r1 = r2.

Lemma json_list_inj l :
  Forall json_inj l -> ∀ l' x y r1 r2, Forall json_ok l -> Forall json_ok l' ->
    encode_json_list l = Ok x -> encode_json_list l' = Ok y ->
    length l = length l' -> x ++ r1 = y ++ r2 -> l = l' ∧ r1 = r2.
Proof.
  induction 1 as [|j l Hj _ IH]; intros [|j' l'] x y r1 r2 Hok Hok' Hx Hy Hlen E;
    try discriminate Hlen; cbn in Hx, Hy.
  - by simplify_eq.
  - inversion Hok; inversion Hok'; subst. result_inv. simplify_eq. rewrite <-!app_assoc in E.
    eapply Hj in E as [-> E]; [|done..]. by eapply IH in E as [-> ->]; auto.
Qed.

Lemma json_fields_inj l :
  Forall (λ e, json_inj e.2) l -> ∀ l' x y r1 r2,
    Forall (λ e, json_ok e.2) l -> Forall (λ e, json_ok e.2) l' ->
    encode_json_fields l = Ok x -> encode_json_fields l' = Ok y ->
    length l = length l' -> x ++ r1 = y ++ r2 -> l = l' ∧ r1 = r2.
Proof.
  induction 1 as [|[k j] l Hj _ IH]; intros [|[k' j'] l'] x y r1 r2 Hok Hok' Hx Hy Hlen E;
    try discriminate Hlen; cbn [snd] in *.
  - injection Hx as <-. injection Hy as <-. done.
  - inversion Hok; inversion Hok'; subst.
    apply encode_fields_cons in Hx as (a & b & Hk & Ha & Hb & ->).
    apply encode_fields_cons in Hy as (a' & b' & Hk' & Ha' & Hb' & ->). rewrite <-!app_assoc in E.
    apply write_str_inj in E as [-> E]; [|done..].
    eapply Hj in E as [-> E]; [|done..]. by eapply IH in E as [-> ->]; auto.
Qed.

Lemma i64_as_u64_ok z : is_u64 (i64_as_u64 z).
Proof. pose proof (i64_as_u64_lt z). unfold is_u64, u64_max. lia. Qed.
#[local] Hint Resolve i64_as_u64_ok : core.

Lemma json_prefix_inj j : json_inj j.
Proof.
  induction j as [|b|n|s|l IH|fs IH] using json_ind'; intros j' x y r1 r2 Hj Hj'
    (t & body & -> & Ht & Hx)%encode_json_inv (t' & body' & -> & Ht' & Hy)%encode_json_inv E;
    rewrite <-!app_assoc in E; peel write_u8 in E as <-; inversion Hx; subst; inversion Hy; subst;
    rewrite <-?app_assoc in E.
  - done.
  - peel write_bool in E as ->. done.
  - apply (prefix_inj (enc := λ z, write_u64 (i64_as_u64 z)) (ok := is_i64)) in E as [-> ->]; done.
  - peel write_u64 in E as E'. by replace z with z0 by lia.
  - peel write_u64 in E as ->. done.
  - apply write_str_inj in E as [-> ->]; done.
  - peel write_u32 in E as Hl. unfold len in Hl.
    eapply json_list_inj in E as [-> ->]; eauto; try by apply json_ok_array. lia.
  - peel write_u32 in E as Hl. unfold len in Hl.
    eapply json_fields_inj in E as [-> ->]; eauto; try by apply json_ok_object. lia.
Qed.

(** ** Instances *)

Definition scope_ok (s : SessionScopeState) : Prop :=
  is_uuid (client_group_id s) ∧ opt_ok str_ok (client_group_name s).

Record session_ok (s : SessionStackState) : Prop := {
  so_id : is_uuid (session_id s);
  so_scope : opt_ok scope_ok (session_scope s);
  so_frames : Forall json_ok (workspace_stack s);
  so_trace : is_u64 (trace_sequence s);
}.

Record instance_ok (i : ProcessInstance) : Prop := {
  no_id : is_uuid (instance_id i);
  no_tenant : str_ok (inst_tenant_id i);
  no_key : str_ok (process_key i);
  no_version : is_hash (bytecode_version i);
  no_payload_hash : is_hash (domain_payload_hash i);
  no_session : session_ok (session_stack i);
  no_flags : flags_ok (flags i);
  no_counters : map_ok is_u32 is_u32 (counters i);
  no_joins : joins_ok (join_expected i);
  no_state : process_state_ok (inst_state i);
  no_correlation : str_ok (correlation_id i);
  no_entry : is_uuid (entry_id i);
  no_runbook : is_uuid (runbook_id i);
  no_created : is_i64 (created_at i);
  no_quarantine : opt_ok str_ok (quarantine_state i);
  no_plan : opt_ok is_hash (plan_hash i);
  no_node : opt_ok str_ok (current_node_id i);
  no_placeholders : opt_ok json_ok (placeholder_values i);
}.

Lemma session_prefix_inj s s' x y r1 r2 :
  session_ok s -> session_ok s' ->
  encode_session_stack s = Ok x -> encode_session_stack s' = Ok y ->
  x ++ r1 = y ++ r2 -> s = s' ∧ r1 = r2.
Proof.
  intros [] [] Hx Hy E. unfold encode_session_stack in Hx, Hy.
  apply bind_ok_inv in Hx as (n & [-> Hn]%checked_len_ok & Hx).
  apply bind_ok_inv in Hx as (b & Hb & Hx).
  apply bind_ok_inv in Hy as (n' & [-> Hn']%checked_len_ok & Hy).
  apply bind_ok_inv in Hy as (b' & Hb' & Hy).
  apply ok_inj in Hx as <-. apply ok_inj in Hy as <-.
  rewrite <-!app_assoc in E.
  peel encode_uuid in E as E1. peel (write_option encode_session_scope) in E as E2.
  apply (prefix_inj (enc := write_option encode_workspace_kind)) in E as [E3 E];
    [|by (unfold opt_ok; case_match)..].
  peel write_u32 in E as E4.
  apply (json_list_inj (workspace_stack s) (Forall_true _ _ json_prefix_inj) (workspace_stack s') b b')
    in E as [E5 E];
    [|done..|unfold len in E4; lia].
  peel write_u64 in E as E6. destruct s, s'; cbn in *; by subst.
Qed.

Global Instance counters_prefix_inj :
  PrefixInj (λ m, write_seq (λ e, write_u32 e.1 ++ write_u32 e.2) (btree_entries m))
    (map_ok is_u32 is_u32).
Proof.
  assert (RoundTrips 0 (λ e : N * N, write_u32 e.1 ++ write_u32 e.2)
    (k ← read_u32; v ← read_u32; mret (k, v)) (pair_ok is_u32 is_u32)).
  { intros [k v] [Hk Hv]. decode_fields. }
  apply (round_trip_prefix_inj _ _ _).
Qed.

Section commit.
Context {P : Platform}.

(** The parts of an instance its hash bytes determine: everything but the
    integrity hash, the payload as the JSON value its text spells. *)
Definition instance_view (i : ProcessInstance) : ProcessInstance * option json :=
  (set_integrity_hash None (set_payload "" (domain_payload_hash i) i), json_from_str (domain_payload i)).

(** The payload's JSON value is in range. *)
Definition payload_ok (i : ProcessInstance) : Prop := opt_ok json_ok (json_from_str (domain_payload i)).

(** The optional placeholder values, as the encoder of an instance writes them. *)
Definition placeholder_bytes (o : option json) : Result CanonicalJsonError (list Byte.byte) :=
  match o with
  | None => Ok (write_u8 0)
  | Some v => b ← encode_canonical_json v; Ok (write_u8 1 ++ b)
  end.

Lemma placeholder_prefix_inj o o' x y r1 r2 :
  opt_ok json_ok o -> opt_ok json_ok o' ->
  placeholder_bytes o = Ok x -> placeholder_bytes o' = Ok y ->
  x ++ r1 = y ++ r2 -> o = o' ∧ r1 = r2.
Proof.
  destruct o as [v|], o' as [v'|]; cbn [placeholder_bytes opt_ok]; intros Ho Ho' Hx Hy E;
    repeat match goal with
    | H : mbind _ _ = Ok _ |- _ => apply bind_ok_inv in H as (? & ? & H)
    end;
    apply ok_inj in Hx as <-; apply ok_inj in Hy as <-; rewrite <-?app_assoc in E;
    apply (prefix_inj (enc := write_u8) (ok := is_u8)) in E as [Et E]; try done; auto.
  eapply json_prefix_inj in E as [-> ->]; eauto.
Qed.

(** Equal instance bytes come from instances with equal views. *)
Lemma instance_hash_inj i i' b :
  instance_ok i -> instance_ok i' -> payload_ok i -> payload_ok i' ->
  instance_hash_bytes i = Ok b -> instance_hash_bytes i' = Ok b -> instance_view i = instance_view i'.
Proof.
  intros [] [] Hp Hp' H H'. unfold instance_hash_bytes in H, H'. unfold payload_ok in Hp, Hp'.
  apply bind_ok_inv in H as (p & Hjp & H), H' as (p' & Hjp' & H').
  apply bind_ok_inv in H as (pb & Hpb & H), H' as (pb' & Hpb' & H').
  apply bind_ok_inv in H as (sb & Hsb & H), H' as (sb' & Hsb' & H').
  apply bind_ok_inv in H as (ob & Hob & H), H' as (ob' & Hob' & H').
  apply ok_inj in H as <-. apply ok_inj in H' as E. symmetry in E.
  destruct (json_from_str (domain_payload i)) as [q|] eqn:Hq; [|done].
  destruct (json_from_str (domain_payload i')) as [q'|] eqn:Hq'; [|done].
  apply ok_inj in Hjp as <-. apply ok_inj in Hjp' as <-.
  peel encode_uuid in E as E1. peel write_str in E as E2. peel write_str in E as E3.
  apply (prefix_inj (enc := λ h, h) (ok := is_hash)) in E as [E4 E]; [|done..].
  apply (json_prefix_inj q q' pb pb') in E as [E5 E]; [|done..].
  apply (prefix_inj (enc := λ h, h) (ok := is_hash)) in E as [E6 E]; [|done..].
  apply (session_prefix_inj (session_stack i) (session_stack i') sb sb') in E as [E7 E]; [|done..].
  apply (prefix_inj (enc := λ m, write_seq encode_flag_entry (btree_entries m)) (ok := flags_ok))
    in E as [E8 E]; [|done..].
  apply (prefix_inj (enc := λ m, write_seq (λ e, write_u32 e.1 ++ write_u32 e.2) (btree_entries m))
    (ok := map_ok is_u32 is_u32)) in E as [E9 E]; [|done..].
  apply (prefix_inj (enc := λ m, write_seq encode_join_entry (btree_entries m)) (ok := joins_ok))
    in E as [E10 E]; [|done..].
  peel encode_process_state in E as E11. peel write_str in E as E12.
  peel encode_uuid in E as E13. peel encode_uuid in E as E14.
  apply (prefix_inj (enc := λ z, write_u64 (i64_as_u64 z)) (ok := is_i64)) in E as [E15 E]; [|done..].
  peel (write_option write_str) in E as E16.
  apply (prefix_inj (enc := write_option (λ h, h)) (ok := opt_ok is_hash)) in E as [E17 E]; [|done..].
  peel (write_option write_str) in E as E18.
  assert (E19 : placeholder_values i = placeholder_values i').
  { rewrite <-(app_nil_r ob), <-(app_nil_r ob') in E.
    by apply (placeholder_prefix_inj (placeholder_values i) (placeholder_values i') ob ob') in E as [? _]. }
  unfold instance_view. rewrite Hq, Hq', E5. destruct i, i'; cbn in *; by subst.
Qed.

(** ** Envelopes *)

Record envelope_ok (e : SnapshotEnvelope) : Prop := {
  eo_instance : instance_ok (ps_instance (se_state e));
  eo_payload : payload_ok (ps_instance (se_state e));
  eo_instance_len : ∀ b, instance_hash_bytes (ps_instance (se_state e)) = Ok b -> bytes_ok b;
  eo_joins : joins_ok (ps_join_counts (se_state e));
  eo_incidents : map_ok is_uuid incident_ok (ps_incidents (se_state e));
  eo_fibers : map_ok is_uuid fiber_ok (ps_fibers (se_state e));
  eo_table : table_ok (ps_table (se_state e));
  eo_effects : set_ok is_uuid (ps_pending_effects (se_state e));
  eo_revision : is_u64 (se_revision e);
  eo_artifact : is_hash (se_artifact_hash e);
}.

(** The hashed content of an envelope. *)
Definition envelope_view (e : SnapshotEnvelope) :=
  let s := se_state e in
  (instance_view (ps_instance s), ps_join_counts s, ps_incidents s, ps_fibers s, ps_table s,
   ps_pending_effects s, se_revision e, se_artifact_hash e).

Local Instance rt_incident_entry :
  RoundTrips 0 (λ e : N * Incident, encode_uuid e.1 ++ encode_incident e.2)
    (k ← decode_uuid; v ← decode_incident; mret (k, v)) (pair_ok is_uuid incident_ok).
Proof. intros [k v] [Hk Hv]. decode_fields. Qed.

Local Instance rt_fiber_entry :
  RoundTrips 0 (λ e : N * Fiber, encode_uuid e.1 ++ encode_fiber e.2)
    (k ← decode_uuid; v ← decode_fiber; mret (k, v)) (pair_ok is_uuid fiber_ok).
Proof. intros [k v] [Hk Hv]. decode_fields. Qed.

Lemma state_hash_preimage_inj e e' bytes :
  envelope_ok e -> envelope_ok e' ->
  state_hash_preimage e = Ok bytes -> state_hash_preimage e' = Ok bytes ->
  envelope_view e = envelope_view e'.
Proof.
  intros [] [] H H'. unfold state_hash_preimage, state_hash_bytes in H, H'.
  apply bind_ok_inv in H as (b & Hb & H), H' as (b' & Hb' & H').
  apply bind_ok_inv in Hb as (ib & Hib & Hb), Hb' as (ib' & Hib' & Hb').
  destruct (instance_hash_bytes (ps_instance (se_state e))) as [a|] eqn:Ha; [|done].
  destruct (instance_hash_bytes (ps_instance (se_state e'))) as [a'|] eqn:Ha'; [|done].
  apply ok_inj in Hib as <-. apply ok_inj in Hib' as <-. apply ok_inj in Hb as <-, Hb' as <-.
  apply ok_inj in H as <-. apply ok_inj in H' as E. symmetry in E. rewrite <-!app_assoc in E.
  apply (prefix_inj (enc := write_bytes) (ok := bytes_ok)) in E as [-> E]; [|auto..].
  apply (prefix_inj (enc := λ m, write_seq encode_join_entry (btree_entries m)) (ok := joins_ok))
    in E as [E1 E]; [|done..].
  apply (prefix_inj (enc := λ m, write_seq (λ e, encode_uuid e.1 ++ encode_incident e.2)
    (btree_entries m)) (ok := map_ok is_uuid incident_ok)) in E as [E2 E]; [|done..].
  apply (prefix_inj (enc := λ m, write_seq (λ e, encode_uuid e.1 ++ encode_fiber e.2)
    (btree_entries m)) (ok := map_ok is_uuid fiber_ok)) in E as [E3 E]; [|done..].
  peel encode_table in E as E4. peel encode_effect_set in E as E5. peel write_u64 in E as E6.
  unfold envelope_view. cbv zeta. rewrite E1, E2, E3, E4, E5, E6, E.
  by rewrite (instance_hash_inj _ (ps_instance (se_state e')) a').
Qed.

End commit.

(** * Theorems about the canonical codec and the state hash *)

(** C26: every value the code stores canonically decodes back to itself with no
    byte left over: a fibre, a record table, an incident, a set of pending
    effects, a process state and a tagged value, whenever its fields are in the
    range of their Rust types and its arrays within the value limits.  In
    particular the decoder accepts exactly the nesting the encoder's limit
    check admits. *)
Theorem canonical_round_trip :
  (∀ f, fiber_ok f -> from_canonical_bytes decode_fiber (encode_fiber f) = Ok f) ∧
  (∀ t, table_ok t -> from_canonical_bytes decode_table (encode_table t) = Ok t) ∧
  (∀ i, incident_ok i -> from_canonical_bytes decode_incident (encode_incident i) = Ok i) ∧
  (∀ s, set_ok is_uuid s -> from_canonical_bytes decode_effect_set (encode_effect_set s) = Ok s) ∧
  (∀ x, process_state_ok x ->
     from_canonical_bytes decode_process_state (encode_process_state x) = Ok x) ∧
  (∀ v, scalars_ok v -> check_array_limits v = Ok tt ->
     from_canonical_bytes decode_value (encode_value v) = Ok v).
Proof.
  split_and!; intros; by apply from_canonical_bytes_decodes, round_trip.
Qed.

(** A fibre parked on a race, with a nested array on its stack. *)
Definition codec_fiber : Fiber :=
  mkFiber 10 4 [VI64 (-1); VArray [VArray [VBool true]; VStr 7]]
    (WV2Race 3 [ArmTimer 5; ArmMsg 6 7 "key"]) 1 [3; 2]%N.

(** Discharges the range conditions of a concrete value. *)
Ltac range_check :=
  repeat lazymatch goal with
  | |- True => exact I
  | |- is_Some _ => by vm_compute; eauto
  | |- opt_ok _ ?o => let o' := eval vm_compute in o in change o with o'; cbn [opt_ok]
  | |- seq_ok _ _ => split
  | |- Forall _ [] => apply Forall_nil_2
  | |- Forall _ (_ :: _) => apply Forall_cons_2
  | |- Forall _ ?l => let l' := eval vm_compute in l in change l with l'
  | |- fiber_ok _ => split
  | |- instance_ok _ => split
  | |- session_ok _ => split
  | |- table_ok _ => split
  | |- table_keyed _ => intros ? ? [=]
  | |- scope_ok _ => split
  | |- str_ok _ => split
  | |- pair_ok _ _ _ => split
  | |- value_ok _ _ => split
  | |- _ ∧ _ => split
  | |- flags_ok _ => unfold flags_ok
  | |- joins_ok _ => unfold joins_ok
  | |- map_ok _ _ _ => unfold map_ok
  | |- set_ok _ _ => unfold set_ok
  | |- payload_ok _ => unfold payload_ok
  | |- wait_ok _ => cbn [wait_ok codec_fiber fiber_wait snd]
  | |- race_arm_ok _ => cbn [race_arm_ok]
  | |- scalars_ok _ => cbn [scalars_ok]
  | |- ∀ _, _ = Ok _ -> _ => intros ? H; vm_compute in H; apply ok_inj in H as <-
  | |- _ => solve [by vm_compute]
  end.

Lemma codec_fiber_ok : fiber_ok codec_fiber.
Proof. split; range_check. Qed.

Lemma canonical_round_trip_witness :
  from_canonical_bytes decode_fiber (encode_fiber codec_fiber) = Ok codec_fiber.
Proof. apply canonical_round_trip. exact codec_fiber_ok. Defined.

#[local] Existing Instance toy_platform.

(** C27: the state hash commits to the state.  Two envelopes in range with the
    same state hash, on whose hashed byte strings BLAKE3 does not collide,
    agree on the revision, the artifact hash, the pending effects, the
    concurrency table, the fibres, the incidents, the join counts and every
    field of the instance except the (never hashed) integrity hash; the domain
    payloads agree as JSON values, not as text. *)
Theorem state_hash_commits (P : Platform) e e' h :
  envelope_ok e -> envelope_ok e' ->
  (∀ p p', state_hash_preimage e = Ok p -> state_hash_preimage e' = Ok p' ->
     blake3 p = blake3 p' -> p = p') ->
  state_hash e = Ok h -> state_hash e' = Ok h -> envelope_view e = envelope_view e'.
Proof.
  intros He He' Hcf H H'. unfold state_hash in H, H'.
  apply bind_ok_inv in H as (p & Hp & H), H' as (p' & Hp' & H').
  apply ok_inj in H as <-. apply ok_inj in H'. symmetry in H'.
  eapply Hcf in H' as ->; [|done..]. by eapply state_hash_preimage_inj.
Qed.

(** The envelope of the fixtures, with an integrity hash on its instance. *)
Definition sealed_envelope : SnapshotEnvelope :=
  SnapshotEnvelope_new 2 toy_hash 0
    (mkPersisted (set_integrity_hash (Some toy_hash) toy_instance)
       {[ 10%N := Fiber_new 10 0 ]} ∅ ∅ ∅ ∅).

Lemma sealed_envelope_ok : envelope_ok sealed_envelope.
Proof. split; range_check. Qed.

Lemma toy_envelope_ok : envelope_ok toy_envelope.
Proof. split; range_check. Qed.

Lemma state_hash_commits_witness : envelope_view sealed_envelope = envelope_view toy_envelope.
Proof.
  eapply (state_hash_commits toy_platform); [exact sealed_envelope_ok|exact toy_envelope_ok|..].
  - intros p p' Hp Hp' _. vm_compute in Hp, Hp'. congruence.
  - by vm_compute.
  - by vm_compute.
Defined.
