(* ===== verification/MemStore.v ===== *)
(** * The in-memory store: its tables, reads and queues

    [Inner] and the rows of [bpmn-lite-store/src/store_memory.rs], the pending
    invocations of [pending.rs], claims ([bpmn-lite-types/src/transition.rs])
    and the errors of [error.rs].  The tables of the artifact, plan, template and
    design-session repositories are left out.  A [HashMap] is a [gmap], iterated
    in some fixed order; an [Instant] is a number of milliseconds. *)

From S2P Require Import Prelude RustStr Json Types Concurrency Platform Effects Transition Canonical.

(** ** Claims *)

Record Claim := mkClaim {
  cl_tenant_id : string;
  cl_instance_id : Uuid;
  cl_expected_revision : N;
  cl_fence : N;
  cl_lease_token : string;
}.

Inductive ClaimError := ClaimUnavailable (s : string) | ClaimInvalid (s : string) | ClaimIntegrity (s : string).
Inductive CommitError :=
| CommitConflict
| CommitStaleFence
| CommitIntegrity (s : string)
| CommitUnavailable (s : string).
Inductive CommitOutcome := Committed (new_revision : N) | IdempotentNoOp.
Inductive StoreError :=
| StoreIntegrity (s : string)
| StoreInvalid (s : string)
| StoreNotFound (s : string)
| StoreUnavailable (s : string).

(** ** Rows *)

Inductive MemoryActivationStatus := ActReady | ActClaimed | ActDeadLettered.
Record MemoryActivation := mkActivation {
  ma_tenant_id : string;
  ma_instance_id : Uuid;
  ma_command_id : Uuid;
  ma_command_kind : string;
  ma_command : Command;
  ma_status : MemoryActivationStatus;
  ma_available_at_ms : Z;
  ma_priority : Z;
  ma_seq : N;
  ma_claim : option (string * string * Z);
  ma_attempt_count : N;
}.

Inductive MemoryTimerState := TimArmed | TimConsumed | TimCancelled.
Record MemoryTimer := mkTimer {
  mt_tenant_id : string;
  mt_instance_id : Uuid;
  mt_fiber_id : Uuid;
  mt_due_at : N;
  mt_kind : TimerKind;
  mt_repeat_spec : option TimerRepeatSpec;
  mt_state : MemoryTimerState;
  mt_claim : option (string * Uuid * N);
}.

Inductive EffectResponse :=
| FfiSuccess (output_payload : list Byte.byte) (new_domain_payload : option string)
| FfiNoMatch
| EffFailed (error_class : ErrorClass) (message : string) (attempt : N).
Inductive MemoryEffectState := EffPending | EffDispatching | EffAccepted | EffTerminal.
Record MemoryEffect := mkEffect {
  me_tenant_id : string;
  me_instance_id : Uuid;
  me_effect : DurableEffect;
  me_state : MemoryEffectState;
  me_claim : option (string * Uuid * N);
  me_response : option EffectResponse;
  me_attempt : N;
  me_policy_version : N;
}.

Record PendingInvocation := mkPending {
  pi_tenant_id : string;
  pi_callout_id : Uuid;
  pi_process_instance_id : Uuid;
  pi_node_id : string;
  pi_target_domain : string;
  pi_verb_id : string;
  pi_idempotency_key : Uuid;
  pi_execution_id : option Uuid;
  pi_submitted_at : Z;
  pi_ack_received_at : option Z;
  pi_timeout_at : option Z;
}.

Notation MessageKey := (string * string * string * string)%type (only parsing).
(** The key of a buffered message. *)
Definition message_key (m : BufferedMessage) : MessageKey :=
  (bm_tenant_id m, bm_message_name m, bm_correlation_key m, bm_msg_id m).

Global Instance byte_countable : Countable Byte.byte := inj_countable Byte.to_N Byte.of_N Byte.of_to_N.
Global Instance TimerKind_eq_dec : EqDecision TimerKind.
Proof. solve_decision. Defined.
Global Instance TimerRepeatSpec_eq_dec : EqDecision TimerRepeatSpec.
Proof. solve_decision. Defined.
Global Instance DurableEffect_eq_dec : EqDecision DurableEffect.
Proof. solve_decision. Defined.
Global Instance MemoryTimerState_eq_dec : EqDecision MemoryTimerState.
Proof. solve_decision. Defined.
Global Instance MemoryEffectState_eq_dec : EqDecision MemoryEffectState.
Proof. solve_decision. Defined.
Global Instance MemoryActivationStatus_eq_dec : EqDecision MemoryActivationStatus.
Proof. solve_decision. Defined.

(** ** The store *)

(** [Inner], and the table of the pending-invocation store.  A lease is (owner,
    expiry, fence, token). *)
Record Store := mkStore {
  st_instances : gmap N ProcessInstance;
  st_fibers : gmap (N * N) Fiber;
  st_join_counters : gmap (N * N) N;
  st_dedupe : gmap string (JobCompletion * N);
  st_message_buffer : gmap MessageKey BufferedMessage;
  st_message_buffer_claims : gmap MessageKey (string * Z);
  st_message_buffer_consumed : gset MessageKey;
  st_job_queue : list JobActivation;
  st_inflight_jobs : gmap string (JobActivation * N);
  st_dead_letter : gmap (N * string) (list Byte.byte * N);
  st_events : gmap N (list (N * RuntimeEvent));
  st_event_seq : gmap N N;
  st_payload_history : gmap (N * Hash) string;
  st_incidents : gmap N (list Incident);
  st_concurrency_tables : gmap N ConcurrencyTable;
  st_transition_leases : gmap N (string * N * N * string);
  st_revisions : gmap N N;
  st_durable_effects : gmap N MemoryEffect;
  st_timers : gmap N MemoryTimer;
  st_outbox : gmap N (string * string * list Byte.byte * Uuid * Uuid);
  st_starts : gmap (string * N) Uuid;
  st_snapshots : gmap N SnapshotEnvelope;
  st_journals : gmap N (list JournalRecord);
  st_activations : gmap N MemoryActivation;
  st_activation_dedupe : gmap (string * N) Uuid;
  st_activation_seq_counter : N;
  st_pending : gmap N PendingInvocation;
}.

(** [MemoryStore::new]. *)
Definition MemoryStore_new : Store :=
  mkStore ∅ ∅ ∅ ∅ ∅ ∅ ∅ [] ∅ ∅ ∅ ∅ ∅ ∅ ∅ ∅ ∅ ∅ ∅ ∅ ∅ ∅ ∅ ∅ ∅ 0 ∅.

(** Field assignments. *)
Definition set_st_instances (x : gmap N ProcessInstance) (s : Store) : Store :=
  mkStore x (st_fibers s) (st_join_counters s) (st_dedupe s) (st_message_buffer s)
    (st_message_buffer_claims s) (st_message_buffer_consumed s) (st_job_queue s) (st_inflight_jobs s)
    (st_dead_letter s) (st_events s) (st_event_seq s) (st_payload_history s) (st_incidents s)
    (st_concurrency_tables s) (st_transition_leases s) (st_revisions s) (st_durable_effects s) (st_timers s)
    (st_outbox s) (st_starts s) (st_snapshots s) (st_journals s) (st_activations s) (st_activation_dedupe s)
    (st_activation_seq_counter s) (st_pending s).
Definition set_st_fibers (x : gmap (N * N) Fiber) (s : Store) : Store :=
  mkStore (st_instances s) x (st_join_counters s) (st_dedupe s) (st_message_buffer s)
    (st_message_buffer_claims s) (st_message_buffer_consumed s) (st_job_queue s) (st_inflight_jobs s)
    (st_dead_letter s) (st_events s) (st_event_seq s) (st_payload_history s) (st_incidents s)
    (st_concurrency_tables s) (st_transition_leases s) (st_revisions s) (st_durable_effects s) (st_timers s)
    (st_outbox s) (st_starts s) (st_snapshots s) (st_journals s) (st_activations s) (st_activation_dedupe s)
    (st_activation_seq_counter s) (st_pending s).
Definition set_st_join_counters (x : gmap (N * N) N) (s : Store) : Store :=
  mkStore (st_instances s) (st_fibers s) x (st_dedupe s) (st_message_buffer s) (st_message_buffer_claims s)
    (st_message_buffer_consumed s) (st_job_queue s) (st_inflight_jobs s) (st_dead_letter s) (st_events s)
    (st_event_seq s) (st_payload_history s) (st_incidents s) (st_concurrency_tables s)
    (st_transition_leases s) (st_revisions s) (st_durable_effects s) (st_timers s) (st_outbox s)
    (st_starts s) (st_snapshots s) (st_journals s) (st_activations s) (st_activation_dedupe s)
    (st_activation_seq_counter s) (st_pending s).
Definition set_st_dedupe (x : gmap string (JobCompletion * N)) (s : Store) : Store :=
  mkStore (st_instances s) (st_fibers s) (st_join_counters s) x (st_message_buffer s)
    (st_message_buffer_claims s) (st_message_buffer_consumed s) (st_job_queue s) (st_inflight_jobs s)
    (st_dead_letter s) (st_events s) (st_event_seq s) (st_payload_history s) (st_incidents s)
    (st_concurrency_tables s) (st_transition_leases s) (st_revisions s) (st_durable_effects s) (st_timers s)
    (st_outbox s) (st_starts s) (st_snapshots s) (st_journals s) (st_activations s) (st_activation_dedupe s)
    (st_activation_seq_counter s) (st_pending s).
Definition set_st_message_buffer (x : gmap MessageKey BufferedMessage) (s : Store) : Store :=
  mkStore (st_instances s) (st_fibers s) (st_join_counters s) (st_dedupe s) x (st_message_buffer_claims s)
    (st_message_buffer_consumed s) (st_job_queue s) (st_inflight_jobs s) (st_dead_letter s) (st_events s)
    (st_event_seq s) (st_payload_history s) (st_incidents s) (st_concurrency_tables s)
    (st_transition_leases s) (st_revisions s) (st_durable_effects s) (st_timers s) (st_outbox s)
    (st_starts s) (st_snapshots s) (st_journals s) (st_activations s) (st_activation_dedupe s)
    (st_activation_seq_counter s) (st_pending s).
Definition set_st_message_buffer_claims (x : gmap MessageKey (string * Z)) (s : Store) : Store :=
  mkStore (st_instances s) (st_fibers s) (st_join_counters s) (st_dedupe s) (st_message_buffer s) x
    (st_message_buffer_consumed s) (st_job_queue s) (st_inflight_jobs s) (st_dead_letter s) (st_events s)
    (st_event_seq s) (st_payload_history s) (st_incidents s) (st_concurrency_tables s)
    (st_transition_leases s) (st_revisions s) (st_durable_effects s) (st_timers s) (st_outbox s)
    (st_starts s) (st_snapshots s) (st_journals s) (st_activations s) (st_activation_dedupe s)
    (st_activation_seq_counter s) (st_pending s).
Definition set_st_message_buffer_consumed (x : gset MessageKey) (s : Store) : Store :=
  mkStore (st_instances s) (st_fibers s) (st_join_counters s) (st_dedupe s) (st_message_buffer s)
    (st_message_buffer_claims s) x (st_job_queue s) (st_inflight_jobs s) (st_dead_letter s) (st_events s)
    (st_event_seq s) (st_payload_history s) (st_incidents s) (st_concurrency_tables s)
    (st_transition_leases s) (st_revisions s) (st_durable_effects s) (st_timers s) (st_outbox s)
    (st_starts s) (st_snapshots s) (st_journals s) (st_activations s) (st_activation_dedupe s)
    (st_activation_seq_counter s) (st_pending s).
Definition set_st_job_queue (x : list JobActivation) (s : Store) : Store :=
  mkStore (st_instances s) (st_fibers s) (st_join_counters s) (st_dedupe s) (st_message_buffer s)
    (st_message_buffer_claims s) (st_message_buffer_consumed s) x (st_inflight_jobs s) (st_dead_letter s)
    (st_events s) (st_event_seq s) (st_payload_history s) (st_incidents s) (st_concurrency_tables s)
    (st_transition_leases s) (st_revisions s) (st_durable_effects s) (st_timers s) (st_outbox s)
    (st_starts s) (st_snapshots s) (st_journals s) (st_activations s) (st_activation_dedupe s)
    (st_activation_seq_counter s) (st_pending s).
Definition set_st_inflight_jobs (x : gmap string (JobActivation * N)) (s : Store) : Store :=
  mkStore (st_instances s) (st_fibers s) (st_join_counters s) (st_dedupe s) (st_message_buffer s)
    (st_message_buffer_claims s) (st_message_buffer_consumed s) (st_job_queue s) x (st_dead_letter s)
    (st_events s) (st_event_seq s) (st_payload_history s) (st_incidents s) (st_concurrency_tables s)
    (st_transition_leases s) (st_revisions s) (st_durable_effects s) (st_timers s) (st_outbox s)
    (st_starts s) (st_snapshots s) (st_journals s) (st_activations s) (st_activation_dedupe s)
    (st_activation_seq_counter s) (st_pending s).
Definition set_st_dead_letter (x : gmap (N * string) (list Byte.byte * N)) (s : Store) : Store :=
  mkStore (st_instances s) (st_fibers s) (st_join_counters s) (st_dedupe s) (st_message_buffer s)
    (st_message_buffer_claims s) (st_message_buffer_consumed s) (st_job_queue s) (st_inflight_jobs s) x
    (st_events s) (st_event_seq s) (st_payload_history s) (st_incidents s) (st_concurrency_tables s)
    (st_transition_leases s) (st_revisions s) (st_durable_effects s) (st_timers s) (st_outbox s)
    (st_starts s) (st_snapshots s) (st_journals s) (st_activations s) (st_activation_dedupe s)
    (st_activation_seq_counter s) (st_pending s).
Definition set_st_events (x : gmap N (list (N * RuntimeEvent))) (s : Store) : Store :=
  mkStore (st_instances s) (st_fibers s) (st_join_counters s) (st_dedupe s) (st_message_buffer s)
    (st_message_buffer_claims s) (st_message_buffer_consumed s) (st_job_queue s) (st_inflight_jobs s)
    (st_dead_letter s) x (st_event_seq s) (st_payload_history s) (st_incidents s) (st_concurrency_tables s)
    (st_transition_leases s) (st_revisions s) (st_durable_effects s) (st_timers s) (st_outbox s)
    (st_starts s) (st_snapshots s) (st_journals s) (st_activations s) (st_activation_dedupe s)
    (st_activation_seq_counter s) (st_pending s).
Definition set_st_event_seq (x : gmap N N) (s : Store) : Store :=
  mkStore (st_instances s) (st_fibers s) (st_join_counters s) (st_dedupe s) (st_message_buffer s)
    (st_message_buffer_claims s) (st_message_buffer_consumed s) (st_job_queue s) (st_inflight_jobs s)
    (st_dead_letter s) (st_events s) x (st_payload_history s) (st_incidents s) (st_concurrency_tables s)
    (st_transition_leases s) (st_revisions s) (st_durable_effects s) (st_timers s) (st_outbox s)
    (st_starts s) (st_snapshots s) (st_journals s) (st_activations s) (st_activation_dedupe s)
    (st_activation_seq_counter s) (st_pending s).
Definition set_st_payload_history (x : gmap (N * Hash) string) (s : Store) : Store :=
  mkStore (st_instances s) (st_fibers s) (st_join_counters s) (st_dedupe s) (st_message_buffer s)
    (st_message_buffer_claims s) (st_message_buffer_consumed s) (st_job_queue s) (st_inflight_jobs s)
    (st_dead_letter s) (st_events s) (st_event_seq s) x (st_incidents s) (st_concurrency_tables s)
    (st_transition_leases s) (st_revisions s) (st_durable_effects s) (st_timers s) (st_outbox s)
    (st_starts s) (st_snapshots s) (st_journals s) (st_activations s) (st_activation_dedupe s)
    (st_activation_seq_counter s) (st_pending s).
Definition set_st_incidents (x : gmap N (list Incident)) (s : Store) : Store :=
  mkStore (st_instances s) (st_fibers s) (st_join_counters s) (st_dedupe s) (st_message_buffer s)
    (st_message_buffer_claims s) (st_message_buffer_consumed s) (st_job_queue s) (st_inflight_jobs s)
    (st_dead_letter s) (st_events s) (st_event_seq s) (st_payload_history s) x (st_concurrency_tables s)
    (st_transition_leases s) (st_revisions s) (st_durable_effects s) (st_timers s) (st_outbox s)
    (st_starts s) (st_snapshots s) (st_journals s) (st_activations s) (st_activation_dedupe s)
    (st_activation_seq_counter s) (st_pending s).
Definition set_st_concurrency_tables (x : gmap N ConcurrencyTable) (s : Store) : Store :=
  mkStore (st_instances s) (st_fibers s) (st_join_counters s) (st_dedupe s) (st_message_buffer s)
    (st_message_buffer_claims s) (st_message_buffer_consumed s) (st_job_queue s) (st_inflight_jobs s)
    (st_dead_letter s) (st_events s) (st_event_seq s) (st_payload_history s) (st_incidents s) x
    (st_transition_leases s) (st_revisions s) (st_durable_effects s) (st_timers s) (st_outbox s)
    (st_starts s) (st_snapshots s) (st_journals s) (st_activations s) (st_activation_dedupe s)
    (st_activation_seq_counter s) (st_pending s).
Definition set_st_transition_leases (x : gmap N (string * N * N * string)) (s : Store) : Store :=
  mkStore (st_instances s) (st_fibers s) (st_join_counters s) (st_dedupe s) (st_message_buffer s)
    (st_message_buffer_claims s) (st_message_buffer_consumed s) (st_job_queue s) (st_inflight_jobs s)
    (st_dead_letter s) (st_events s) (st_event_seq s) (st_payload_history s) (st_incidents s)
    (st_concurrency_tables s) x (st_revisions s) (st_durable_effects s) (st_timers s) (st_outbox s)
    (st_starts s) (st_snapshots s) (st_journals s) (st_activations s) (st_activation_dedupe s)
    (st_activation_seq_counter s) (st_pending s).
Definition set_st_revisions (x : gmap N N) (s : Store) : Store :=
  mkStore (st_instances s) (st_fibers s) (st_join_counters s) (st_dedupe s) (st_message_buffer s)
    (st_message_buffer_claims s) (st_message_buffer_consumed s) (st_job_queue s) (st_inflight_jobs s)
    (st_dead_letter s) (st_events s) (st_event_seq s) (st_payload_history s) (st_incidents s)
    (st_concurrency_tables s) (st_transition_leases s) x (st_durable_effects s) (st_timers s) (st_outbox s)
    (st_starts s) (st_snapshots s) (st_journals s) (st_activations s) (st_activation_dedupe s)
    (st_activation_seq_counter s) (st_pending s).
Definition set_st_durable_effects (x : gmap N MemoryEffect) (s : Store) : Store :=
  mkStore (st_instances s) (st_fibers s) (st_join_counters s) (st_dedupe s) (st_message_buffer s)
    (st_message_buffer_claims s) (st_message_buffer_consumed s) (st_job_queue s) (st_inflight_jobs s)
    (st_dead_letter s) (st_events s) (st_event_seq s) (st_payload_history s) (st_incidents s)
    (st_concurrency_tables s) (st_transition_leases s) (st_revisions s) x (st_timers s) (st_outbox s)
    (st_starts s) (st_snapshots s) (st_journals s) (st_activations s) (st_activation_dedupe s)
    (st_activation_seq_counter s) (st_pending s).
Definition set_st_timers (x : gmap N MemoryTimer) (s : Store) : Store :=
  mkStore (st_instances s) (st_fibers s) (st_join_counters s) (st_dedupe s) (st_message_buffer s)
    (st_message_buffer_claims s) (st_message_buffer_consumed s) (st_job_queue s) (st_inflight_jobs s)
    (st_dead_letter s) (st_events s) (st_event_seq s) (st_payload_history s) (st_incidents s)
    (st_concurrency_tables s) (st_transition_leases s) (st_revisions s) (st_durable_effects s) x
    (st_outbox s) (st_starts s) (st_snapshots s) (st_journals s) (st_activations s) (st_activation_dedupe s)
    (st_activation_seq_counter s) (st_pending s).
Definition set_st_outbox (x : gmap N (string * string * list Byte.byte * Uuid * Uuid)) (s : Store) : Store :=
  mkStore (st_instances s) (st_fibers s) (st_join_counters s) (st_dedupe s) (st_message_buffer s)
    (st_message_buffer_claims s) (st_message_buffer_consumed s) (st_job_queue s) (st_inflight_jobs s)
    (st_dead_letter s) (st_events s) (st_event_seq s) (st_payload_history s) (st_incidents s)
    (st_concurrency_tables s) (st_transition_leases s) (st_revisions s) (st_durable_effects s) (st_timers s)
    x (st_starts s) (st_snapshots s) (st_journals s) (st_activations s) (st_activation_dedupe s)
    (st_activation_seq_counter s) (st_pending s).
Definition set_st_starts (x : gmap (string * N) Uuid) (s : Store) : Store :=
  mkStore (st_instances s) (st_fibers s) (st_join_counters s) (st_dedupe s) (st_message_buffer s)
    (st_message_buffer_claims s) (st_message_buffer_consumed s) (st_job_queue s) (st_inflight_jobs s)
    (st_dead_letter s) (st_events s) (st_event_seq s) (st_payload_history s) (st_incidents s)
    (st_concurrency_tables s) (st_transition_leases s) (st_revisions s) (st_durable_effects s) (st_timers s)
    (st_outbox s) x (st_snapshots s) (st_journals s) (st_activations s) (st_activation_dedupe s)
    (st_activation_seq_counter s) (st_pending s).
Definition set_st_snapshots (x : gmap N SnapshotEnvelope) (s : Store) : Store :=
  mkStore (st_instances s) (st_fibers s) (st_join_counters s) (st_dedupe s) (st_message_buffer s)
    (st_message_buffer_claims s) (st_message_buffer_consumed s) (st_job_queue s) (st_inflight_jobs s)
    (st_dead_letter s) (st_events s) (st_event_seq s) (st_payload_history s) (st_incidents s)
    (st_concurrency_tables s) (st_transition_leases s) (st_revisions s) (st_durable_effects s) (st_timers s)
    (st_outbox s) (st_starts s) x (st_journals s) (st_activations s) (st_activation_dedupe s)
    (st_activation_seq_counter s) (st_pending s).
Definition set_st_journals (x : gmap N (list JournalRecord)) (s : Store) : Store :=
  mkStore (st_instances s) (st_fibers s) (st_join_counters s) (st_dedupe s) (st_message_buffer s)
    (st_message_buffer_claims s) (st_message_buffer_consumed s) (st_job_queue s) (st_inflight_jobs s)
    (st_dead_letter s) (st_events s) (st_event_seq s) (st_payload_history s) (st_incidents s)
    (st_concurrency_tables s) (st_transition_leases s) (st_revisions s) (st_durable_effects s) (st_timers s)
    (st_outbox s) (st_starts s) (st_snapshots s) x (st_activations s) (st_activation_dedupe s)
    (st_activation_seq_counter s) (st_pending s).
Definition set_st_activations (x : gmap N MemoryActivation) (s : Store) : Store :=
  mkStore (st_instances s) (st_fibers s) (st_join_counters s) (st_dedupe s) (st_message_buffer s)
    (st_message_buffer_claims s) (st_message_buffer_consumed s) (st_job_queue s) (st_inflight_jobs s)
    (st_dead_letter s) (st_events s) (st_event_seq s) (st_payload_history s) (st_incidents s)
    (st_concurrency_tables s) (st_transition_leases s) (st_revisions s) (st_durable_effects s) (st_timers s)
    (st_outbox s) (st_starts s) (st_snapshots s) (st_journals s) x (st_activation_dedupe s)
    (st_activation_seq_counter s) (st_pending s).
Definition set_st_activation_dedupe (x : gmap (string * N) Uuid) (s : Store) : Store :=
  mkStore (st_instances s) (st_fibers s) (st_join_counters s) (st_dedupe s) (st_message_buffer s)
    (st_message_buffer_claims s) (st_message_buffer_consumed s) (st_job_queue s) (st_inflight_jobs s)
    (st_dead_letter s) (st_events s) (st_event_seq s) (st_payload_history s) (st_incidents s)
    (st_concurrency_tables s) (st_transition_leases s) (st_revisions s) (st_durable_effects s) (st_timers s)
    (st_outbox s) (st_starts s) (st_snapshots s) (st_journals s) (st_activations s) x
    (st_activation_seq_counter s) (st_pending s).
Definition set_st_activation_seq_counter (x : N) (s : Store) : Store :=
  mkStore (st_instances s) (st_fibers s) (st_join_counters s) (st_dedupe s) (st_message_buffer s)
    (st_message_buffer_claims s) (st_message_buffer_consumed s) (st_job_queue s) (st_inflight_jobs s)
    (st_dead_letter s) (st_events s) (st_event_seq s) (st_payload_history s) (st_incidents s)
    (st_concurrency_tables s) (st_transition_leases s) (st_revisions s) (st_durable_effects s) (st_timers s)
    (st_outbox s) (st_starts s) (st_snapshots s) (st_journals s) (st_activations s) (st_activation_dedupe s)
    x (st_pending s).
Definition set_st_pending (x : gmap N PendingInvocation) (s : Store) : Store :=
  mkStore (st_instances s) (st_fibers s) (st_join_counters s) (st_dedupe s) (st_message_buffer s)
    (st_message_buffer_claims s) (st_message_buffer_consumed s) (st_job_queue s) (st_inflight_jobs s)
    (st_dead_letter s) (st_events s) (st_event_seq s) (st_payload_history s) (st_incidents s)
    (st_concurrency_tables s) (st_transition_leases s) (st_revisions s) (st_durable_effects s) (st_timers s)
    (st_outbox s) (st_starts s) (st_snapshots s) (st_journals s) (st_activations s) (st_activation_dedupe s)
    (st_activation_seq_counter s) x.

(** ** Machine arithmetic of a release build *)

Definition u16_incr (n : N) : N := ((n + 1) mod (u16_max + 1))%N.
Definition u32_incr (n : N) : N := ((n + 1) mod (u32_max + 1))%N.
Definition u64_incr (n : N) : N := ((n + 1) mod (u64_max + 1))%N.
Definition i64_wrap (z : Z) : Z := ((z - i64_min) mod 2 ^ 64 + i64_min)%Z.

(** The wall clock in milliseconds and the monotonic clock. *)
Record Clock := mkClock { ck_now_ms : Z; ck_instant : N }.
(** [now + lease_ms as i64]. *)
Definition lease_end (now : Z) (lease_ms : N) : Z := i64_wrap (now + u64_as_i64 lease_ms).

(** * The in-memory store: reads, claims and queues

    The operations of [impl RuntimeStore for MemoryStore] and of
    [impl JournalReader for MemoryStore] other than [commit_transition].  Each
    runs under the store's lock, so it is one function on the store; the clock
    and the identifiers it draws are arguments. *)

(** ** Reads *)

(** The instance is there and belongs to the tenant. *)
Definition owned (tenant : string) (id : Uuid) (s : Store) : bool :=
  match st_instances s !! id with
  | Some i => bool_decide (inst_tenant_id i = tenant)
  | None => false
  end.

Definition load_instance (tenant : string) (id : Uuid) (s : Store) : option ProcessInstance :=
  i ← st_instances s !! id;
  if bool_decide (inst_tenant_id i = tenant) then Some i else None.
Definition load_fiber (tenant : string) (id fiber : Uuid) (s : Store) : option Fiber :=
  if owned tenant id s then st_fibers s !! (id, fiber) else None.

(** The fibres of an instance. *)
Definition instance_fibers (id : Uuid) (s : Store) : list Fiber :=
  (map_to_list (filter (λ e, (e.1).1 = id) (st_fibers s))).*2.
Definition load_fibers (tenant : string) (id : Uuid) (s : Store) : list Fiber :=
  if owned tenant id s then instance_fibers id s else [].

Definition dedupe_get (key : string) (s : Store) : option JobCompletion := fst <$> st_dedupe s !! key.
Definition load_incidents (tenant : string) (id : Uuid) (s : Store) : list Incident :=
  if owned tenant id s then default [] (st_incidents s !! id) else [].
Definition list_running_instances (tenant : string) (s : Store) : list Uuid :=
  (map_to_list (filter (λ e : N * ProcessInstance,
     is_schedulable (inst_state e.2) = true ∧ inst_tenant_id e.2 = tenant ∧ quarantine_state e.2 = None)
     (st_instances s))).*1.
Definition claim_running_instances (tenant : string) (limit : nat) (s : Store) : list Uuid :=
  take limit (list_running_instances tenant s).
Definition lookup_start_instance (tenant : string) (idempotency_key : Uuid) (s : Store) : option Uuid :=
  st_starts s !! (tenant, idempotency_key).
Definition join_get (tenant : string) (id : Uuid) (join : JoinId) (s : Store) : N :=
  if owned tenant id s then default 0%N (st_join_counters s !! (id, join)) else 0%N.

(** [JournalReader]. *)
Definition read_events (tenant : string) (id : Uuid) (from_seq : N) (s : Store) : list (N * RuntimeEvent) :=
  if owned tenant id s
  then filter (λ e, (from_seq <= e.1)%N) (default [] (st_events s !! id))
  else [].
Definition load_snapshot_envelope (tenant : string) (id : Uuid) (s : Store) : option SnapshotEnvelope :=
  e ← st_snapshots s !! id;
  if bool_decide (inst_tenant_id (ps_instance (se_state e)) = tenant) then Some e else None.
Definition read_journal (tenant : string) (id : Uuid) (after_revision : option N) (s : Store) : list JournalRecord :=
  if owned tenant id s
  then List.filter (λ r, match after_revision with Some rev => (rev <? jr_new_revision r)%N | None => true end)
         (default [] (st_journals s !! id))
  else [].
Definition load_payload_version (tenant : string) (id : Uuid) (hash : Hash) (s : Store) : option string :=
  if owned tenant id s then st_payload_history s !! (id, hash) else None.

(** ** The event log *)

(** [event_seq.entry(id).or_insert(0)], incremented, and the push. *)
Definition append_event (id : Uuid) (e : RuntimeEvent) (s : Store) : Store :=
  let seq := u64_incr (default 0%N (st_event_seq s !! id)) in
  set_st_events (<[id := default [] (st_events s !! id) ++ [(seq, e)]]> (st_events s))
    (set_st_event_seq (<[id := seq]> (st_event_seq s)) s).

(** ** Job queue *)

(** The fields [dequeue_jobs] sets on a job it hands out. *)
Definition claim_job (tenant worker token : string) (expires : Z) (j : JobActivation) : JobActivation := {|
  ja_job_key := ja_job_key j; ja_tenant_id := tenant; ja_process_instance_id := ja_process_instance_id j;
  ja_task_type := ja_task_type j; ja_service_task_id := ja_service_task_id j;
  ja_domain_payload := ja_domain_payload j; ja_domain_payload_hash := ja_domain_payload_hash j;
  ja_session_stack := ja_session_stack j; ja_orch_flags := ja_orch_flags j;
  ja_retries_remaining := ja_retries_remaining j; ja_entry_id := ja_entry_id j; ja_runbook_id := ja_runbook_id j;
  ja_worker_id := worker; ja_claim_token := token; ja_claim_expires_at := Some expires;
  ja_attempt_count := u32_incr (ja_attempt_count j); ja_failure_count := ja_failure_count j;
  ja_not_before := ja_not_before j |}.

Section with_platform.
Context {P : Platform}.

(** The loop over the queue: the jobs handed out, those that remain, the jobs in
    flight. *)
Fixpoint dequeue_loop (task_types : list string) (max : nat) (tenant worker : string) (clock : Clock) (expires : Z)
    (fresh : nat -> Uuid) (s : Store) (queue taken : list JobActivation) (inflight : gmap string (JobActivation * N))
  : list JobActivation * list JobActivation * gmap string (JobActivation * N) :=
  match queue with
  | [] => (taken, [], inflight)
  | job :: queue' =>
      let due := match ja_not_before job with Some t => (t <=? ck_now_ms clock)%Z | None => true end in
      if (length taken <? max)%nat && owned tenant (ja_process_instance_id job) s && due
         && bool_decide (ja_task_type job ∈ task_types)
      then
        let job := claim_job tenant worker (show_uuid (fresh (length taken))) expires job in
        dequeue_loop task_types max tenant worker clock expires fresh s queue' (taken ++ [job])
          (<[ja_job_key job := (job, ck_instant clock)]> inflight)
      else
        let '(out, rest, inflight) :=
          dequeue_loop task_types max tenant worker clock expires fresh s queue' taken inflight in
        (out, job :: rest, inflight)
  end.
Definition dequeue_jobs (task_types : list string) (max : nat) (tenant worker : string) (lease_ms : N)
    (clock : Clock) (fresh : nat -> Uuid) (s : Store) : list JobActivation * Store :=
  let '(out, rest, inflight) :=
    dequeue_loop task_types max tenant worker clock (lease_end (ck_now_ms clock) lease_ms) fresh s
      (st_job_queue s) [] (st_inflight_jobs s) in
  (out, set_st_job_queue rest (set_st_inflight_jobs inflight s)).
End with_platform.

Definition validate_job_claim (job_key worker token : string) (clock : Clock) (s : Store) : bool :=
  match st_inflight_jobs s !! job_key with
  | Some (job, _) =>
      bool_decide (ja_worker_id job = worker) && bool_decide (ja_claim_token job = token)
      && match ja_claim_expires_at job with Some t => (ck_now_ms clock <? t)%Z | None => false end
  | None => false
  end.

(** A job given back by [reclaim_stale_jobs]. *)
Definition reclaimed_job (j : JobActivation) : JobActivation := {|
  ja_job_key := ja_job_key j; ja_tenant_id := ja_tenant_id j; ja_process_instance_id := ja_process_instance_id j;
  ja_task_type := ja_task_type j; ja_service_task_id := ja_service_task_id j;
  ja_domain_payload := ja_domain_payload j; ja_domain_payload_hash := ja_domain_payload_hash j;
  ja_session_stack := ja_session_stack j; ja_orch_flags := ja_orch_flags j;
  ja_retries_remaining := (ja_retries_remaining j - 1)%N; ja_entry_id := ja_entry_id j; ja_runbook_id := ja_runbook_id j;
  ja_worker_id := ""; ja_claim_token := ""; ja_claim_expires_at := None;
  ja_attempt_count := ja_attempt_count j; ja_failure_count := u32_incr (ja_failure_count j);
  ja_not_before := ja_not_before j |}.
Definition stale_job (now : Z) (e : string * (JobActivation * N)) : Prop :=
  match ja_claim_expires_at (e.2).1 with Some t => (t < now)%Z | None => False end.
Global Instance stale_job_dec now e : Decision (stale_job now e).
Proof. unfold stale_job. destruct (ja_claim_expires_at _); apply _. Defined.
Definition reclaim_job (s : Store) (key : string) : Store :=
  match st_inflight_jobs s !! key with
  | None => s
  | Some (job, _) =>
      let s := set_st_inflight_jobs (delete key (st_inflight_jobs s)) s in
      let s := if (1 <? ja_retries_remaining job)%N
               then set_st_job_queue (st_job_queue s ++ [reclaimed_job job]) s else s in
      append_event (ja_process_instance_id job)
        (EvJobReclaimed key (if bool_decide (ja_worker_id job = "") then None else Some (ja_worker_id job))) s
  end.
Definition reclaim_stale_jobs (clock : Clock) (s : Store) : nat * Store :=
  let keys := (map_to_list (filter (stale_job (ck_now_ms clock)) (st_inflight_jobs s))).*1 in
  (length keys, foldl reclaim_job s keys).

(** [now.duration_since(created_at)] saturates at zero. *)
Definition prune_dedupe_cache (older_than_ms : N) (clock : Clock) (s : Store) : nat * Store :=
  let kept := filter (λ e : string * (JobCompletion * N), (ck_instant clock - (e.2).2 <= older_than_ms)%N) (st_dedupe s) in
  ((size (st_dedupe s) - size kept)%nat, set_st_dedupe kept s).

(** ** Dead letters and buffered messages *)

(** [value_key]. *)
Definition value_key (v : Value) : string :=
  match v with
  | VBool b => "b:" +:+ show_bool b
  | VI64 z => "i:" +:+ show_Z z
  | VStr n => "s:" +:+ show_N n
  | VRef n => "r:" +:+ show_N n
  | VArray _ => "a:" +:+ hex_string (encode_value v)
  end.
Definition dead_letter_put (name : N) (corr_key : Value) (payload : list Byte.byte) (ttl_ms : N) (s : Store) : Store :=
  set_st_dead_letter (<[(name, value_key corr_key) := (payload, ttl_ms)]> (st_dead_letter s)) s.
Definition dead_letter_take (name : N) (corr_key : Value) (s : Store) : option (list Byte.byte) * Store :=
  (fst <$> st_dead_letter s !! (name, value_key corr_key),
   set_st_dead_letter (delete (name, value_key corr_key) (st_dead_letter s)) s).

(** The messages [claim_buffered_message] may take, the earliest first; the first
    of several that were received together, in the order of the iteration. *)
Definition claimable (tenant name corr : string) (now : Z) (s : Store) (e : MessageKey * BufferedMessage) : bool :=
  let '(t, n, c, _) := e.1 in
  bool_decide (t = tenant) && bool_decide (n = name) && bool_decide (c = corr) && (now <? bm_expires_at e.2)%Z
  && match st_message_buffer_claims s !! e.1 with Some (_, until) => (until <=? now)%Z | None => true end.
Fixpoint earliest (best : MessageKey * BufferedMessage) (l : list (MessageKey * BufferedMessage))
  : MessageKey * BufferedMessage :=
  match l with
  | [] => best
  | e :: l' => earliest (if (bm_received_at e.2 <? bm_received_at best.2)%Z then e else best) l'
  end.
Definition claim_buffered_message `{Platform} (tenant name corr : string) (claim_ms : N) (clock : Clock) (fresh : Uuid)
    (s : Store) : option ClaimedBufferedMessage * Store :=
  let now := ck_now_ms clock in
  match List.filter (claimable tenant name corr now s) (map_to_list (st_message_buffer s)) with
  | [] => (None, s)
  | e :: l =>
      let '(key, message) := earliest e l in
      let token := show_uuid fresh in
      let until := lease_end now claim_ms in
      (Some {| cbm_message := message; cbm_claim_token := token; cbm_claim_until := until |},
       set_st_message_buffer_claims (<[key := (token, until)]> (st_message_buffer_claims s)) s)
  end.
Definition reclaim_stale_buffered_message_claims (clock : Clock) (s : Store) : nat * Store :=
  let kept := filter (λ e : MessageKey * (string * Z), (ck_now_ms clock < (e.2).2)%Z) (st_message_buffer_claims s) in
  ((size (st_message_buffer_claims s) - size kept)%nat, set_st_message_buffer_claims kept s).

Definition prune_message (s : Store) (key : MessageKey) : Store :=
  let s :=
    match st_message_buffer s !! key with
    | None => s
    | Some msg =>
        let s := set_st_message_buffer (delete key (st_message_buffer s)) s in
        match bm_process_instance_id msg with
        | None => s
        | Some id => append_event id
            (EvBufferedMessageExpired (bm_message_name msg) (bm_correlation_key msg) (bm_msg_id msg)) s
        end
    end in
  set_st_message_buffer_claims (delete key (st_message_buffer_claims s)) s.
Definition prune_expired_messages (clock : Clock) (s : Store) : nat * Store :=
  let expired := (map_to_list (filter (λ e : MessageKey * BufferedMessage, (bm_expires_at e.2 <= ck_now_ms clock)%Z)
                    (st_message_buffer s))).*1 in
  let s' := foldl prune_message s expired in
  ((size (st_message_buffer s) - size (st_message_buffer s'))%nat, s').

(** ** Timers *)

Definition set_timer_claim (c : option (string * Uuid * N)) (t : MemoryTimer) : MemoryTimer :=
  mkTimer (mt_tenant_id t) (mt_instance_id t) (mt_fiber_id t) (mt_due_at t) (mt_kind t) (mt_repeat_spec t) (mt_state t) c.
(** The state is set and the claim dropped. *)
Definition set_timer_state (st : MemoryTimerState) (t : MemoryTimer) : MemoryTimer :=
  mkTimer (mt_tenant_id t) (mt_instance_id t) (mt_fiber_id t) (mt_due_at t) (mt_kind t) (mt_repeat_spec t) st None.

Definition lease_over {A B} (c : option (A * B * N)) (now : N) : bool :=
  match c with Some (_, _, until) => (until <=? now)%N | None => true end.
Definition timer_due (tenant : string) (now : N) (t : MemoryTimer) : bool :=
  bool_decide (mt_tenant_id t = tenant) && bool_decide (mt_state t = TimArmed) && (mt_due_at t <=? now)%N
  && lease_over (mt_claim t) now.
(** [sort_by_key] on the due time, then the id. *)
Definition due_le (a b : N * MemoryTimer) : Prop :=
  (mt_due_at a.2 < mt_due_at b.2 ∨ (mt_due_at a.2 = mt_due_at b.2 ∧ a.1 <= b.1))%N.
Global Instance due_le_dec a b : Decision (due_le a b).
Proof. unfold due_le. apply _. Defined.

Fixpoint claim_timers (owner : string) (until : N) (fresh : nat -> Uuid) (n : nat) (l : list (N * MemoryTimer))
    (timers : gmap N MemoryTimer) : list ClaimedTimer * gmap N MemoryTimer :=
  match l with
  | [] => ([], timers)
  | (id, t) :: l' =>
      let '(out, timers) :=
        claim_timers owner until fresh (S n) l' (<[id := set_timer_claim (Some (owner, fresh n, until)) t]> timers) in
      ({| ct_tenant_id := mt_tenant_id t; ct_timer_id := id; ct_instance_id := mt_instance_id t;
          ct_fiber_id := mt_fiber_id t; ct_due_at := mt_due_at t; ct_kind := mt_kind t;
          ct_repeat_spec := mt_repeat_spec t; ct_claim_token := fresh n |} :: out, timers)
  end.
Definition claim_due_timers (tenant owner : string) (now : N) (limit : nat) (lease_ms : N) (fresh : nat -> Uuid)
    (s : Store) : list ClaimedTimer * Store :=
  let due := take limit (merge_sort due_le
    (map_to_list (filter (λ e, timer_due tenant now e.2 = true) (st_timers s)))) in
  let '(out, timers) := claim_timers owner (sat_add u64_max now lease_ms) fresh 0 due (st_timers s) in
  (out, set_st_timers timers s).
Definition release_timer_claim (timer : ClaimedTimer) (s : Store) : Store :=
  match st_timers s !! ct_timer_id timer with
  | Some current =>
      match mt_claim current with
      | Some (_, token, _) =>
          if (token =? ct_claim_token timer)%N
          then set_st_timers (<[ct_timer_id timer := set_timer_claim None current]> (st_timers s)) s else s
      | None => s
      end
  | None => s
  end.

(** ** Durable effects *)

Record ClaimedEffect := mkClaimedEffect {
  ceff_tenant_id : string;
  ceff_instance_id : Uuid;
  ceff_effect : DurableEffect;
  ceff_claim_token : Uuid;
  ceff_attempt : N;
  ceff_policy_version : N;
}.
Record PendingEffectResponse := mkPendingResponse {
  per_tenant_id : string;
  per_instance_id : Uuid;
  per_effect : DurableEffect;
  per_response : EffectResponse;
}.

Definition update_effect (st : MemoryEffectState) (claim : option (string * Uuid * N)) (response : option EffectResponse)
    (attempt : N) (e : MemoryEffect) : MemoryEffect :=
  mkEffect (me_tenant_id e) (me_instance_id e) (me_effect e) st claim response attempt (me_policy_version e).

Definition effect_claimable (tenant : string) (now : N) (e : MemoryEffect) : bool :=
  bool_decide (me_tenant_id e = tenant) && negb (bool_decide (me_state e = EffTerminal))
  && match me_response e with None => true | Some _ => false end && lease_over (me_claim e) now.
Fixpoint claim_effects_loop (owner : string) (until : N) (fresh : nat -> Uuid) (n : nat) (l : list (N * MemoryEffect))
    (effects : gmap N MemoryEffect) : list ClaimedEffect * gmap N MemoryEffect :=
  match l with
  | [] => ([], effects)
  | (id, e) :: l' =>
      let '(out, effects) :=
        claim_effects_loop owner until fresh (S n) l'
          (<[id := update_effect EffDispatching (Some (owner, fresh n, until)) (me_response e) (me_attempt e) e]> effects) in
      (mkClaimedEffect (me_tenant_id e) (me_instance_id e) (me_effect e) (fresh n) (me_attempt e) (me_policy_version e) :: out,
       effects)
  end.
Definition claim_pending_effects (tenant owner : string) (now : N) (limit : nat) (lease_ms : N) (fresh : nat -> Uuid)
    (s : Store) : list ClaimedEffect * Store :=
  let ready := take limit (btree_entries (filter (λ e, effect_claimable tenant now e.2 = true) (st_durable_effects s))) in
  let '(out, effects) := claim_effects_loop owner (sat_add u64_max now lease_ms) fresh 0 ready (st_durable_effects s) in
  (out, set_st_durable_effects effects s).

(** The claim is the one the effect is dispatched under. *)
Definition holds_effect (c : ClaimedEffect) (e : MemoryEffect) : bool :=
  match me_claim e with Some (_, token, _) => (token =? ceff_claim_token c)%N | None => false end.
Definition record_effect_response (c : ClaimedEffect) (r : EffectResponse) (s : Store) : bool * Store :=
  let id := durable_effect_id (ceff_effect c) in
  match st_durable_effects s !! id with
  | None => (false, s)
  | Some e =>
      match me_response e with
      | Some _ => (false, s)
      | None =>
          if holds_effect c e
          then (true, set_st_durable_effects (<[id := update_effect EffAccepted None (Some r) (me_attempt e) e]> (st_durable_effects s)) s)
          else (false, s)
      end
  end.
(** Sorted by the effect's own id. *)
Definition load_effect_responses (tenant : string) (limit : nat) (s : Store) : list PendingEffectResponse :=
  take limit (omap (λ e : MemoryEffect, r ← me_response e;
      Some (mkPendingResponse (me_tenant_id e) (me_instance_id e) (me_effect e) r))
    (btree_values (filter (λ e, me_tenant_id e.2 = tenant) (st_durable_effects s)))).
Definition release_effect_claim (c : ClaimedEffect) (s : Store) : Store :=
  let id := durable_effect_id (ceff_effect c) in
  match st_durable_effects s !! id with
  | Some e =>
      if holds_effect c e
      then set_st_durable_effects (<[id := update_effect EffPending None (me_response e) (me_attempt e) e]> (st_durable_effects s)) s
      else s
  | None => s
  end.
(** The due time of the decision is not used. *)
Definition schedule_effect_retry (c : ClaimedEffect) (decision : RetryDecision) (s : Store) : Result StoreError unit * Store :=
  let id := durable_effect_id (ceff_effect c) in
  match st_durable_effects s !! id with
  | None => (Err (StoreNotFound "effect does not exist"), s)
  | Some e =>
      if holds_effect c e
      then
        let e :=
          match decision with
          | RetryAt attempt _ => update_effect EffPending None (me_response e) attempt e
          | RetryExhausted | RetryTerminal => update_effect EffTerminal None (me_response e) (me_attempt e) e
          end in
        (Ok tt, set_st_durable_effects (<[id := e]> (st_durable_effects s)) s)
      else (Err (StoreIntegrity "effect dispatch lease is stale"), s)
  end.

(** ** The activation queue *)

Record ClaimedActivation := mkClaimedActivation {
  ca_tenant_id : string;
  ca_activation_id : Uuid;
  ca_instance_id : Uuid;
  ca_command_id : Uuid;
  ca_command_kind : string;
  ca_command : Command;
  ca_attempt_count : N;
  ca_claim_token : string;
}.

Definition update_activation (st : MemoryActivationStatus) (available : Z) (claim : option (string * string * Z)) (attempts : N)
    (a : MemoryActivation) : MemoryActivation :=
  mkActivation (ma_tenant_id a) (ma_instance_id a) (ma_command_id a) (ma_command_kind a) (ma_command a) st available
    (ma_priority a) (ma_seq a) claim attempts.

(** [enqueue_activation_locked]. *)
Definition enqueue_activation (tenant : string) (id command_id : Uuid) (kind : string) (command : Command)
    (available : option N) (clock : Clock) (fresh : Uuid) (s : Store) : bool * Store :=
  match st_activation_dedupe s !! (tenant, command_id) with
  | Some _ => (false, s)
  | None =>
      let a := mkActivation tenant id command_id kind command ActReady
                 (match available with Some ms => u64_as_i64 ms | None => ck_now_ms clock end) 0
                 (st_activation_seq_counter s) None 0 in
      (true, set_st_activation_dedupe (<[(tenant, command_id) := fresh]> (st_activation_dedupe s))
               (set_st_activations (<[fresh := a]> (st_activations s))
                  (set_st_activation_seq_counter (u64_incr (st_activation_seq_counter s)) s)))
  end.

Definition activation_ready (tenant : string) (now : Z) (busy : gset N) (a : MemoryActivation) : bool :=
  bool_decide (ma_tenant_id a = tenant) && bool_decide (ma_status a = ActReady) && (ma_available_at_ms a <=? now)%Z
  && negb (bool_decide (ma_instance_id a ∈ busy)).
(** [sort_by_key] on priority, availability, sequence number. *)
Definition activation_le (a b : N * MemoryActivation) : Prop :=
  let x := a.2 in let y := b.2 in
  (ma_priority x < ma_priority y)%Z ∨ ma_priority x = ma_priority y ∧
  ((ma_available_at_ms x < ma_available_at_ms y)%Z ∨ ma_available_at_ms x = ma_available_at_ms y ∧ (ma_seq x <= ma_seq y)%N).
Global Instance activation_le_dec a b : Decision (activation_le a b).
Proof. unfold activation_le. apply _. Defined.

Section activations.
Context {P : Platform}.

Definition claimed_activation (id : Uuid) (token : string) (a : MemoryActivation) : ClaimedActivation :=
  mkClaimedActivation (ma_tenant_id a) id (ma_instance_id a) (ma_command_id a) (ma_command_kind a) (ma_command a)
    (ma_attempt_count a) token.

(** The loop over the candidates; [batch] has the instances claimed in it. *)
Fixpoint claim_activations (owner : string) (limit : nat) (expires : Z) (fresh : nat -> Uuid) (n : nat) (batch : gset N)
    (l : list (N * MemoryActivation)) (acts : gmap N MemoryActivation)
  : list ClaimedActivation * gmap N MemoryActivation :=
  match l with
  | [] => ([], acts)
  | (id, a) :: l' =>
      if (limit <=? n)%nat then ([], acts)
      else if bool_decide (ma_instance_id a ∈ batch)
      then claim_activations owner limit expires fresh n batch l' acts
      else
        let token := show_uuid (fresh n) in
        let a := update_activation ActClaimed (ma_available_at_ms a) (Some (owner, token, expires))
                   (u32_incr (ma_attempt_count a)) a in
        let '(out, acts) :=
          claim_activations owner limit expires fresh (S n) ({[ma_instance_id a]} ∪ batch) l' (<[id := a]> acts) in
        (claimed_activation id token a :: out, acts)
  end.
Definition claim_ready_activations (tenant owner : string) (limit : nat) (lease_ms : N) (clock : Clock)
    (fresh : nat -> Uuid) (s : Store) : list ClaimedActivation * Store :=
  let now := ck_now_ms clock in
  let busy : gset N := list_to_set (ma_instance_id <$>
    (map_to_list (filter (λ e, ma_tenant_id e.2 = tenant ∧ ma_status e.2 = ActClaimed) (st_activations s))).*2) in
  let candidates := merge_sort activation_le
    (map_to_list (filter (λ e, activation_ready tenant now busy e.2 = true) (st_activations s))) in
  let '(out, acts) :=
    claim_activations owner limit (lease_end now lease_ms) fresh 0 ∅ candidates (st_activations s) in
  (out, set_st_activations acts s).

(** Claimed, under the token of the caller. *)
Definition holds_activation (c : ClaimedActivation) (a : MemoryActivation) : bool :=
  bool_decide (ma_status a = ActClaimed)
  && match ma_claim a with Some (_, token, _) => bool_decide (token = ca_claim_token c) | None => false end.
Definition renew_activation_claim (c : ClaimedActivation) (lease_ms : N) (clock : Clock) (s : Store)
  : option ClaimedActivation * Store :=
  match st_activations s !! ca_activation_id c with
  | Some a =>
      match ma_claim a with
      | Some (owner, token, _) =>
          if bool_decide (ma_status a = ActClaimed) && bool_decide (token = ca_claim_token c)
          then
            let a := update_activation (ma_status a) (ma_available_at_ms a)
                       (Some (owner, token, lease_end (ck_now_ms clock) lease_ms)) (ma_attempt_count a) a in
            (Some (claimed_activation (ca_activation_id c) token a),
             set_st_activations (<[ca_activation_id c := a]> (st_activations s)) s)
          else (None, s)
      | None => (None, s)
      end
  | None => (None, s)
  end.
Definition release_activation_to_ready (c : ClaimedActivation) (not_before : option N) (clock : Clock) (s : Store) : Store :=
  match st_activations s !! ca_activation_id c with
  | Some a =>
      if holds_activation c a
      then set_st_activations (<[ca_activation_id c :=
             update_activation ActReady (match not_before with Some ms => u64_as_i64 ms | None => ck_now_ms clock end)
               None (ma_attempt_count a) a]> (st_activations s)) s
      else s
  | None => s
  end.
Definition consume_activation (c : ClaimedActivation) (s : Store) : bool * Store :=
  match st_activations s !! ca_activation_id c with
  | Some a =>
      if holds_activation c a then (true, set_st_activations (delete (ca_activation_id c) (st_activations s)) s) else (false, s)
  | None => (false, s)
  end.
Definition dead_letter_activation (c : ClaimedActivation) (s : Store) : Store :=
  match st_activations s !! ca_activation_id c with
  | Some a =>
      if holds_activation c a
      then set_st_activations (<[ca_activation_id c :=
             update_activation ActDeadLettered (ma_available_at_ms a) None (ma_attempt_count a) a]> (st_activations s)) s
      else s
  | None => s
  end.
Definition activation_expired (now : Z) (a : MemoryActivation) : bool :=
  bool_decide (ma_status a = ActClaimed) && match ma_claim a with Some (_, _, t) => (t <=? now)%Z | None => false end.
Definition reclaim_expired_activations (clock : Clock) (s : Store) : nat * Store :=
  let now := ck_now_ms clock in
  (size (filter (λ e, activation_expired now e.2 = true) (st_activations s)),
   set_st_activations ((λ a, if activation_expired now a then update_activation ActReady now None (ma_attempt_count a) a else a)
     <$> st_activations s) s).
End activations.
