(* ===== verification/StoreClaim.v ===== *)
(** * The in-memory store: transition leases and pending invocations

    [claim_instance_for_transition] and [release_instance_transition] of
    [bpmn-lite-store/src/store_memory.rs], the default method
    [claim_work_for_transition] of [store.rs], and
    [MemoryPendingInvocationStore] of [pending.rs].  A token drawn with
    [Uuid::now_v7] is an argument. *)

From S2P Require Import Prelude RustStr Json Types Concurrency Platform Effects Transition Canonical Replay MemStore.

(** The assignment of the field. *)
Definition set_quarantine_state (q : option string) (i : ProcessInstance) : ProcessInstance :=
  mkInstance (instance_id i) (inst_tenant_id i) (process_key i) (bytecode_version i)
    (domain_payload i) (domain_payload_hash i) (session_stack i) (flags i) (counters i)
    (join_expected i) (inst_state i) (correlation_id i) (entry_id i) (runbook_id i)
    (created_at i) (integrity_hash i) q (plan_hash i)
    (current_node_id i) (placeholder_values i).

Section claims.
Context {P : Platform}.

(** ** Integrity of the claimed aggregate *)

(** The closure [integrity_result]: snapshot and journal head agree. *)
Definition claim_integrity (tenant : string) (id : Uuid) (instance : ProcessInstance) (current_revision : N) (s : Store)
  : Result string unit :=
  snapshot ← ok_or "missing snapshot envelope" (st_snapshots s !! id);
  journal ← ok_or "missing journal head" (records ← st_journals s !! id; last records);
  _ ← ensure ((se_revision snapshot =? current_revision)%N
              && (instance_id (ps_instance (se_state snapshot)) =? id)%N
              && bool_decide (inst_tenant_id (ps_instance (se_state snapshot)) = tenant)
              && bool_decide (bytecode_version (ps_instance (se_state snapshot)) = bytecode_version instance)
              && (jr_new_revision journal =? current_revision)%N
              && bool_decide (jr_artifact_hash journal = bytecode_version instance))
    "snapshot and journal head diverge";
  hash ← map_err show_envelope_error (state_hash snapshot);
  ensure (bool_decide (jr_state_hash journal = hash)) "snapshot and journal head diverge".

(** ** Leases *)

Definition replay_integrity_violation : string := "replay_integrity_violation".

(** [claim_instance_for_transition]. *)
Definition claim_instance_for_transition (tenant : string) (id : Uuid) (owner : string) (lease_ms : N) (clock : Clock)
    (fresh : Uuid) (s : Store) : Result ClaimError (option Claim) * Store :=
  match st_instances s !! id with
  | None => (Ok None, s)
  | Some instance =>
      if negb (bool_decide (inst_tenant_id instance = tenant)) then (Ok None, s)
      else
        let current_revision := default 0%N (st_revisions s !! id) in
        match claim_integrity tenant id instance current_revision s with
        | Err reason =>
            (Err (ClaimIntegrity reason),
             set_st_transition_leases (delete id (st_transition_leases s))
               (set_st_instances
                  (<[id := set_quarantine_state (Some replay_integrity_violation) instance]> (st_instances s)) s))
        | Ok _ =>
            let now := ck_instant clock in
            let lease := st_transition_leases s !! id in
            let held_by_other :=
              match lease with Some (o, t, _, _) => negb (bool_decide (o = owner)) && (now <? t)%N | None => false end in
            if held_by_other then (Ok None, s)
            else
              let is_renewal :=
                match lease with Some (o, t, _, _) => bool_decide (o = owner) && (now <? t)%N | None => false end in
              let previous_fence := match lease with Some (_, _, f, _) => f | None => 0%N end in
              if negb is_renewal && (u64_max <=? previous_fence)%N
              then (Err (ClaimInvalid "transition fence overflow"), s)
              else
                let fence := if is_renewal then previous_fence else (previous_fence + 1)%N in
                let token :=
                  if is_renewal
                  then match lease with Some (_, _, _, t) => t | None => show_uuid fresh end
                  else show_uuid fresh in
                (Ok (Some (mkClaim tenant id current_revision fence token)),
                 set_st_transition_leases (<[id := (owner, (now + lease_ms)%N, fence, token)]> (st_transition_leases s)) s)
        end
  end.

(** [release_instance_transition]. *)
Definition release_instance_transition (tenant : string) (id : Uuid) (lease_token : string) (s : Store) : Store :=
  let current_token := match st_transition_leases s !! id with Some (_, _, _, t) => Some t | None => None end in
  if owned tenant id s && bool_decide (current_token = Some lease_token)
  then set_st_transition_leases (delete id (st_transition_leases s)) s else s.

(** [ClaimedWork]. *)
Record ClaimedWork := mkClaimedWork { cw_claim : Claim; cw_snapshot : Snapshot; cw_command : Command }.

(** [claim_work_for_transition]; the in-memory reads do not fail. *)
Definition claim_work_for_transition (tenant : string) (id : Uuid) (owner : string) (lease_ms : N) (command : Command)
    (clock : Clock) (fresh : Uuid) (s : Store) : Result ClaimError (option ClaimedWork) * Store :=
  match claim_instance_for_transition tenant id owner lease_ms clock fresh s with
  | (Err e, s) => (Err e, s)
  | (Ok None, s) => (Ok None, s)
  | (Ok (Some claim), s) =>
      match load_snapshot_envelope tenant id s with
      | Some envelope => (Ok (Some (mkClaimedWork claim (to_runtime_snapshot (se_state envelope)) command)), s)
      | None =>
          (Err (ClaimIntegrity "claimed instance has no snapshot"),
           release_instance_transition tenant id (cl_lease_token claim) s)
      end
  end.

End claims.

(** ** Pending invocations *)

Inductive InsertOutcome := Inserted | Duplicate.

(** [MemoryPendingInvocationStore::insert]. *)
Definition pending_insert (r : PendingInvocation) (m : gmap N PendingInvocation) : InsertOutcome * gmap N PendingInvocation :=
  match m !! pi_callout_id r with
  | Some _ => (Duplicate, m)
  | None =>
      if existsb (λ e : N * PendingInvocation, (pi_idempotency_key e.2 =? pi_idempotency_key r)%N) (map_to_list m)
      then (Duplicate, m)
      else (Inserted, <[pi_callout_id r := r]> m)
  end.

(** [record_ack]. *)
Definition acknowledged (execution_id : Uuid) (at_ : Z) (r : PendingInvocation) : PendingInvocation := {|
  pi_tenant_id := pi_tenant_id r; pi_callout_id := pi_callout_id r; pi_process_instance_id := pi_process_instance_id r;
  pi_node_id := pi_node_id r; pi_target_domain := pi_target_domain r; pi_verb_id := pi_verb_id r;
  pi_idempotency_key := pi_idempotency_key r; pi_execution_id := Some execution_id;
  pi_submitted_at := pi_submitted_at r; pi_ack_received_at := Some at_; pi_timeout_at := pi_timeout_at r |}.
Definition record_ack `{Platform} (tenant : string) (callout_id execution_id : Uuid) (at_ : Z) (m : gmap N PendingInvocation)
  : Result StoreError unit * gmap N PendingInvocation :=
  match m !! callout_id with
  | Some row =>
      if bool_decide (pi_tenant_id row = tenant)
      then (Ok tt, <[callout_id := acknowledged execution_id at_ row]> m)
      else (Err (StoreNotFound ("pending row for callout_id " +:+ show_uuid callout_id)), m)
  | None => (Err (StoreNotFound ("pending row for callout_id " +:+ show_uuid callout_id)), m)
  end.

(** The search of the two [*_by_execution_id] methods. *)
Definition find_execution (tenant : string) (execution_id : Uuid) (m : gmap N PendingInvocation)
  : option (N * PendingInvocation) :=
  List.find (λ e, bool_decide (pi_tenant_id e.2 = tenant) && bool_decide (pi_execution_id e.2 = Some execution_id))
    (map_to_list m).
Definition take_by_execution_id (tenant : string) (execution_id : Uuid) (m : gmap N PendingInvocation)
  : option PendingInvocation * gmap N PendingInvocation :=
  match find_execution tenant execution_id m with
  | Some (k, _) => (m !! k, delete k m)
  | None => (None, m)
  end.
Definition lookup_by_execution_id (tenant : string) (execution_id : Uuid) (m : gmap N PendingInvocation)
  : option PendingInvocation := snd <$> find_execution tenant execution_id m.
Definition lookup_by_callout_id (tenant : string) (callout_id : Uuid) (m : gmap N PendingInvocation)
  : option PendingInvocation :=
  row ← m !! callout_id;
  if bool_decide (pi_tenant_id row = tenant) then Some row else None.
Definition list_for_process (tenant : string) (process : Uuid) (m : gmap N PendingInvocation) : list PendingInvocation :=
  List.filter (λ r, bool_decide (pi_tenant_id r = tenant) && (pi_process_instance_id r =? process)%N) (map_to_list m).*2.
