(* ===== verification/StoreCommit.v ===== *)
(** * The in-memory store: committing a transition

    [commit_transition] of [bpmn-lite-store/src/store_memory.rs], stage by stage
    in the order of the code, and [compute_instance_integrity_hash] of
    [bpmn-lite-types/src/integrity.rs].  The function returns early from many
    places, some of them after it has written to the store, so a stage is a
    computation in a monad over the store whose exceptions are the values
    returned early; what was written before stays written.  The whole call runs
    without interleaving and reads the clock once. *)

From S2P Require Import Prelude RustStr Json Types Concurrency Platform Effects Transition Canonical Replay MemStore StoreClaim.

(** ** The monad *)

(** An early [return]: of an error, or of [Ok(CommitOutcome::IdempotentNoOp)]. *)
Inductive Exit := ExitErr (e : CommitError) | ExitNoOp.

Definition Commit (A : Type) : Type := Store -> Result Exit A * Store.

Global Instance Commit_ret : MRet Commit := λ A a s, (Ok a, s).
Global Instance Commit_bind : MBind Commit := λ A B f m s,
  match m s with
  | (Ok a, s') => f a s'
  | (Err r, s') => (Err r, s')
  end.

(** Early returns, reads and writes. *)
Definition fail {A} (e : CommitError) : Commit A := λ s, (Err (ExitErr e), s).
Definition gets {A} (f : Store -> A) : Commit A := λ s, (Ok (f s), s).
Definition modify (f : Store -> Store) : Commit unit := λ s, (Ok tt, f s).
(** A check that reads the store, and a fallible value. *)
Definition check (f : Store -> Result Exit unit) : Commit unit := λ s, (f s, s).
Definition lift {A} (r : Result CommitError A) : Commit A := λ s, (map_err ExitErr r, s).
(** A [for] loop. *)
Fixpoint for_each {A} (f : A -> Commit unit) (l : list A) : Commit unit :=
  match l with
  | [] => mret tt
  | x :: l' => f x ≫= λ _, for_each f l'
  end.

(** ** Messages of the shape checks *)

Definition debug_kind (k : RecordKind) : string :=
  match k with
  | KGuard b => "Guard { interrupting: " +:+ show_bool b +:+ " }"
  | KRace => "Race"
  | KBarrier => "Barrier"
  | KCompensation => "Compensation"
  end.

Section commit.
Context {P : Platform}.

(** The [Display] of [ConcurrencyValidationError]. *)
Definition show_validation_error (e : ConcurrencyValidationError) : string :=
  match e with
  | CountersOutOfBounds id k c a =>
      "record " +:+ show_uuid id +:+ ": " +:+ debug_kind k +:+ " counters out of bounds (count=" +:+ show_N c
        +:+ " > arity=" +:+ show_N a +:+ ")"
  | UnexpectedCounters id k a c =>
      "record " +:+ show_uuid id +:+ ": kind " +:+ debug_kind k +:+ " must not carry non-default counters (arity="
        +:+ show_N a +:+ ", count=" +:+ show_N c +:+ ")"
  | UnexpectedOpenedAt id k =>
      "record " +:+ show_uuid id +:+ ": kind " +:+ debug_kind k +:+ " must not carry opened_at (Guard-only field)"
  | RollbackFieldsOnNonGuard id k =>
      "record " +:+ show_uuid id +:+ ": kind " +:+ debug_kind k +:+ " must not carry rollback_* fields (Guard-only, A18)"
  | PartialRollbackSnapshot id =>
      "record " +:+ show_uuid id +:+ ": rollback_* fields must be populated all-together or not at all"
  | RollbackFieldsOnGuardN id =>
      "record " +:+ show_uuid id
        +:+ ": rollback_* fields set on a non-interrupting Guard (V2GuardN is never rollback-eligible, A18)"
  | GuardMissingOpenedAt id => "record " +:+ show_uuid id +:+ ": Guard-kind record missing opened_at"
  | CompensationUninhabited id =>
      "record " +:+ show_uuid id
        +:+ ": RecordKind::Compensation is uninhabited in v2 -- no v2 word constructs it, rejecting insert"
  | RetireMissing id => "cannot retire record " +:+ show_uuid id +:+ ": not present in the concurrency table"
  | RemoveMissing id => "cannot remove record " +:+ show_uuid id +:+ ": not present in the concurrency table"
  end.

(** [compute_instance_integrity_hash]. *)
Definition compute_instance_integrity_hash (i : ProcessInstance) : Hash :=
  let bar := as_bytes "|" in
  blake3 (be_bytes 16 (instance_id i) ++ bar ++ as_bytes (inst_tenant_id i) ++ bar ++ bytecode_version i ++ bar
    ++ le_bytes 8 (i64_as_u64 (created_at i)) ++ bar ++ as_bytes (process_key i) ++ bar
    ++ be_bytes 16 (entry_id i) ++ bar ++ be_bytes 16 (runbook_id i) ++ bar
    ++ match plan_hash i with Some h => bar ++ h | None => [] end).

(** ** Pending invocations, before the lock is taken *)

(** [chrono::DateTime::from_timestamp_millis] gives a value; a [DateTime] is kept
    as its milliseconds. *)
Context (chrono_valid : Z -> bool).

Definition check_timestamp (e : string) (t : Z) : Result CommitError Z :=
  if chrono_valid t then Ok t else Err (CommitIntegrity e).
Definition check_timestamp_opt (e : string) (t : option Z) : Result CommitError (option Z) :=
  match t with Some t => Some <$> check_timestamp e t | None => Ok None end.

Definition pending_present (tenant : string) (execution_id : Uuid) : Commit unit :=
  check (λ s, ensure (bool_decide (is_Some (lookup_by_execution_id tenant execution_id (st_pending s)))) (ExitErr CommitConflict)).
Definition write_pending (tenant : string) (p : PendingInvocationWrite) : Commit unit :=
  submitted_at ← lift (check_timestamp "invalid submitted_at" (piw_submitted_at p));
  ack_received_at ← lift (check_timestamp_opt "invalid ack_received_at" (piw_ack_received_at p));
  timeout_at ← lift (check_timestamp_opt "invalid timeout_at" (piw_timeout_at p));
  let record := mkPending tenant (piw_callout_id p) (piw_process_instance_id p) (piw_node_id p) (piw_target_domain p)
    (piw_verb_id p) (piw_idempotency_key p) (piw_execution_id p) submitted_at ack_received_at timeout_at in
  modify (λ s, set_st_pending (pending_insert record (st_pending s)).2 s).
Definition take_pending (tenant : string) (execution_id : Uuid) : Commit unit :=
  taken ← gets (λ s, take_by_execution_id tenant execution_id (st_pending s));
  _ ← modify (set_st_pending taken.2);
  match taken.1 with Some _ => mret tt | None => fail CommitConflict end.
Definition commit_pending (claim : Claim) (t : Transition) : Commit unit :=
  _ ← for_each (pending_present (cl_tenant_id claim)) (pending_take t);
  _ ← for_each (write_pending (cl_tenant_id claim)) (pending_invocations t);
  for_each (take_pending (cl_tenant_id claim)) (pending_take t).

(** ** Checks under the lock, before any write *)

Definition lease_fence (id : Uuid) (s : Store) : N :=
  match st_transition_leases s !! id with Some (_, _, f, _) => f | None => 0%N end.
Definition stored_table (id : Uuid) (s : Store) : ConcurrencyTable := default ∅ (st_concurrency_tables s !! id).

Definition is_start_commit (claim : Claim) (s : Store) : bool :=
  bool_decide (st_instances s !! cl_instance_id claim = None) && (cl_expected_revision claim =? 0)%N
  && (cl_fence claim =? 0)%N.
Definition check_claim (claim : Claim) (s : Store) : Result Exit unit :=
  if is_start_commit claim s then Ok tt
  else match st_instances s !! cl_instance_id claim with
  | None => Err (ExitErr (CommitIntegrity "instance not found"))
  | Some current =>
      _ ← ensure (bool_decide (inst_tenant_id current = cl_tenant_id claim))
            (ExitErr (CommitIntegrity "claim tenant does not own instance"));
      _ ← ensure (lease_fence (cl_instance_id claim) s =? cl_fence claim)%N (ExitErr CommitStaleFence);
      ensure (default 0%N (st_revisions s !! cl_instance_id claim) =? cl_expected_revision claim)%N (ExitErr CommitConflict)
  end.
Definition check_identity (claim : Claim) (t : Transition) (s : Store) : Result Exit unit :=
  _ ← ensure (bool_decide (inst_tenant_id (next_snapshot t) = cl_tenant_id claim)
              && (instance_id (next_snapshot t) =? cl_instance_id claim)%N)
        (ExitErr (CommitIntegrity "claim and transition aggregate identity differ"));
  map_err (λ e, ExitErr (CommitIntegrity (show_validation_error e)))
    (validate_mutations (stored_table (cl_instance_id claim) s) (concurrency_mutations t)).
Definition check_start (claim : Claim) (t : Transition) (s : Store) : Result Exit unit :=
  match start_dedupe t with
  | None => Ok tt
  | Some command =>
      _ ← ensure (bool_decide (sc_tenant_id command = cl_tenant_id claim)
                  && (sc_instance_id command =? cl_instance_id claim)%N
                  && bool_decide (sc_artifact_hash command = bytecode_version (next_snapshot t))
                  && bool_decide (sc_initial_payload_hash command = domain_payload_hash (next_snapshot t)))
            (ExitErr (CommitIntegrity "start command lineage does not match initial snapshot"));
      ensure (bool_decide (st_starts s !! (cl_tenant_id claim, sc_idempotency_key command) = None)) ExitNoOp
  end.
Definition check_dedupe (s : Store) (w : DedupeWrite) : Result Exit unit :=
  ensure (bool_decide (st_dedupe s !! dw_key w = None)) ExitNoOp.
Definition check_message (s : Store) (m : BufferedMessageMutation) : Result Exit unit :=
  match m with
  | BMInsert message | BMDeliver message =>
      ensure (bool_decide (st_message_buffer s !! message_key message = None)
              && negb (bool_decide (message_key message ∈ st_message_buffer_consumed s))) ExitNoOp
  | BMConsume m =>
      match st_message_buffer_claims s !! message_key (cbm_message m) with
      | Some (token, _) => ensure (bool_decide (token = cbm_claim_token m)) (ExitErr CommitConflict)
      | None => Err (ExitErr CommitConflict)
      end
  | BMRelease _ => Ok tt
  end.
Definition check_timer (claim : Claim) (s : Store) (m : TimerMutation) : Result Exit unit :=
  match m with
  | TMConsume timer_id claim_token | TMRearm timer_id claim_token _ _ =>
      match st_timers s !! timer_id with
      | None => Err ExitNoOp
      | Some timer =>
          ensure (bool_decide (mt_state timer = TimArmed)
                  && bool_decide (mt_tenant_id timer = cl_tenant_id claim)
                  && (mt_instance_id timer =? cl_instance_id claim)%N
                  && match mt_claim timer with Some (_, token, _) => (token =? claim_token)%N | None => false end)
            ExitNoOp
      end
  | TMCancelRace _ _ _ | TMV2CancelRace _ _ _ => Ok tt
  end.

(** The checks in order. *)
Definition check_commit (claim : Claim) (t : Transition) (s : Store) : Result Exit unit :=
  _ ← check_claim claim s;
  _ ← check_identity claim t s;
  _ ← check_start claim t s;
  _ ← try_for_each (check_dedupe s) (tr_dedupe t);
  _ ← try_for_each (check_message s) (buffered_messages t);
  try_for_each (check_timer claim s) (timer_mutations t).

(** ** Writes *)

(** The instance row: state override, integrity hash, the quarantine kept. *)
Definition committed_instance (t : Transition) (existing : option ProcessInstance) : ProcessInstance :=
  let i := next_snapshot t in
  let i := match state_override t with Some st => set_state st i | None => i end in
  let i := set_integrity_hash (Some (compute_instance_integrity_hash i)) i in
  match existing with Some e => set_quarantine_state (quarantine_state e) i | None => i end.

Definition write_instance (claim : Claim) (t : Transition) (i : ProcessInstance) : Commit unit :=
  let id := cl_instance_id claim in
  _ ← modify (λ s, set_st_instances (<[id := i]> (st_instances s)) s);
  _ ← match start_dedupe t with
      | Some command =>
          modify (λ s, set_st_starts (<[(cl_tenant_id claim, sc_idempotency_key command) := id]> (st_starts s)) s)
      | None => mret tt
      end;
  modify (λ s, set_st_payload_history (<[(id, domain_payload_hash i) := domain_payload i]> (st_payload_history s)) s).

Definition write_fibers (id : Uuid) (t : Transition) (m : gmap (N * N) Fiber) : gmap (N * N) Fiber :=
  foldl (λ m f, delete (id, f) m) (foldl (λ m f, <[(id, fiber_id f) := f]> m) m (fibers_upsert t)) (fibers_delete t).
(** [*count += 1] on a [u16]. *)
Definition write_join (id : Uuid) (m : gmap (N * N) N) (j : JoinMutation) : gmap (N * N) N :=
  match j with
  | JMArrive join => <[(id, join) := u16_incr (default 0%N (m !! (id, join)))]> m
  | JMReset join => <[(id, join) := 0%N]> m
  end.

Definition drop_job (key : string) (q : list JobActivation) : list JobActivation :=
  List.filter (λ j, negb (bool_decide (ja_job_key j = key))) q.
Definition enqueue_job (s : Store) (j : JobActivation) : Store :=
  if existsb (λ e, bool_decide (ja_job_key e = ja_job_key j)) (st_job_queue s)
     || bool_decide (is_Some (st_inflight_jobs s !! ja_job_key j))
  then s else set_st_job_queue (st_job_queue s ++ [j]) s.
(** [inflight_jobs.remove] and the [retain] of the queue. *)
Definition remove_job (s : Store) (key : string) : Store :=
  set_st_job_queue (drop_job key (st_job_queue s)) (set_st_inflight_jobs (delete key (st_inflight_jobs s)) s).

(** The job in flight under the key, if the worker holds it; put back if not. *)
Definition take_claimed (clock : Clock) (key worker token : string) : Commit JobActivation :=
  found ← gets (λ s, st_inflight_jobs s !! key);
  match found with
  | None => fail CommitConflict
  | Some (job, _) =>
      _ ← modify (λ s, set_st_inflight_jobs (delete key (st_inflight_jobs s)) s);
      if bool_decide (ja_worker_id job = worker) && bool_decide (ja_claim_token job = token)
      then mret job
      else
        _ ← modify (λ s, set_st_inflight_jobs (<[ja_job_key job := (job, ck_instant clock)]> (st_inflight_jobs s)) s);
        fail CommitConflict
  end.
(** A job given back for a retry. *)
Definition retried_job (error_class : string) (not_before : Z) (j : JobActivation) : JobActivation := {|
  ja_job_key := ja_job_key j; ja_tenant_id := ja_tenant_id j; ja_process_instance_id := ja_process_instance_id j;
  ja_task_type := ja_task_type j; ja_service_task_id := ja_service_task_id j;
  ja_domain_payload := ja_domain_payload j; ja_domain_payload_hash := ja_domain_payload_hash j;
  ja_session_stack := ja_session_stack j;
  ja_orch_flags := <["last_error_class" := VStr (N.of_nat (String.length error_class) mod (u32_max + 1))%N]> (ja_orch_flags j);
  ja_retries_remaining := (ja_retries_remaining j - 1)%N; ja_entry_id := ja_entry_id j; ja_runbook_id := ja_runbook_id j;
  ja_worker_id := ""; ja_claim_token := ""; ja_claim_expires_at := None;
  ja_attempt_count := ja_attempt_count j; ja_failure_count := sat_add u32_max (ja_failure_count j) 1;
  ja_not_before := Some not_before |}.
Definition write_job_mutation (clock : Clock) (m : JobMutation) : Commit unit :=
  match m with
  | JMAckClaimed key worker token =>
      _ ← take_claimed clock key worker token;
      modify (λ s, set_st_job_queue (drop_job key (st_job_queue s)) s)
  | JMRetryClaimed key worker token error_class _ not_before =>
      job ← take_claimed clock key worker token;
      modify (λ s, set_st_job_queue (st_job_queue s ++ [retried_job error_class not_before job]) s)
  | JMDeadLetterClaimed key worker token _ _ _ =>
      _ ← take_claimed clock key worker token;
      mret tt
  | JMCancel key => modify (λ s, remove_job s key)
  end.

(** [terminal_cleanup]. *)
Definition cancel_timer (t : MemoryTimer) : MemoryTimer := set_timer_state TimCancelled (set_timer_claim None t).
Definition cleanup_fibers (id : Uuid) (s : Store) : Store :=
  set_st_timers ((λ t, if (mt_instance_id t =? id)%N && bool_decide (mt_state t = TimArmed) then cancel_timer t else t)
                   <$> st_timers s)
    (set_st_fibers (filter (λ e, (e.1).1 ≠ id) (st_fibers s)) s).
Definition cleanup_joins (id : Uuid) (s : Store) : Store :=
  set_st_join_counters (filter (λ e, (e.1).1 ≠ id) (st_join_counters s)) s.
Definition cleanup_jobs (id : Uuid) (s : Store) : Store :=
  set_st_inflight_jobs (filter (λ e : string * (JobActivation * N), ja_process_instance_id (e.2).1 ≠ id) (st_inflight_jobs s))
    (set_st_job_queue (List.filter (λ j, negb (ja_process_instance_id j =? id)%N) (st_job_queue s)) s).
Definition terminal_clean (id : Uuid) (c : TerminalCleanup) (s : Store) : Store :=
  let s := if delete_all_fibers c then cleanup_fibers id s else s in
  let s := if delete_all_joins c then cleanup_joins id s else s in
  if cancel_jobs c then cleanup_jobs id s else s.

Definition write_dedupe (clock : Clock) (s : Store) (w : DedupeWrite) : Store :=
  set_st_dedupe (<[dw_key w := (dw_completion w, ck_instant clock)]> (st_dedupe s)) s.
(** The first incident with the id is replaced; a new one is pushed. *)
Fixpoint upsert_incident (l : list Incident) (i : Incident) : list Incident :=
  match l with
  | [] => [i]
  | x :: l' => if (incident_id x =? incident_id i)%N then i :: l' else x :: upsert_incident l' i
  end.
Definition write_incident (id : Uuid) (s : Store) (i : Incident) : Store :=
  set_st_incidents (<[id := upsert_incident (default [] (st_incidents s !! id)) i]> (st_incidents s)) s.
Definition write_message (s : Store) (m : BufferedMessageMutation) : Store :=
  match m with
  | BMInsert message => set_st_message_buffer (<[message_key message := message]> (st_message_buffer s)) s
  | BMDeliver message => set_st_message_buffer_consumed ({[message_key message]} ∪ st_message_buffer_consumed s) s
  | BMRelease m => set_st_message_buffer_claims (delete (message_key (cbm_message m)) (st_message_buffer_claims s)) s
  | BMConsume m =>
      let key := message_key (cbm_message m) in
      set_st_message_buffer_consumed ({[key]} ∪ st_message_buffer_consumed s)
        (set_st_message_buffer_claims (delete key (st_message_buffer_claims s))
           (set_st_message_buffer (delete key (st_message_buffer s)) s))
  end.
Definition write_outbox (s : Store) (o : OutboxWrite) : Store :=
  match st_outbox s !! ow_id o with
  | Some _ => s
  | None => set_st_outbox (<[ow_id o := (ow_target_domain o, ow_target_endpoint o, ow_payload o, ow_idempotency_key o,
                                         ow_callout_id o)]> (st_outbox s)) s
  end.

Definition write_effect (claim : Claim) (e : DurableEffect) : Commit unit :=
  let tenant := cl_tenant_id claim in
  let id := cl_instance_id claim in
  match e with
  | ScheduleTimer timer_id fiber due_at kind repeat_spec =>
      found ← gets (λ s, st_timers s !! timer_id);
      match found with
      | Some existing =>
          if bool_decide (mt_tenant_id existing = tenant) && (mt_instance_id existing =? id)%N
             && (mt_fiber_id existing =? fiber)%N && bool_decide (mt_kind existing = kind)
          then mret tt else fail (CommitIntegrity "deterministic timer identity collision")
      | None =>
          modify (λ s, set_st_timers (<[timer_id := mkTimer tenant id fiber due_at kind repeat_spec TimArmed None]> (st_timers s)) s)
      end
  | Invoke effect_id _ _ _ _ _ _ =>
      found ← gets (λ s, st_durable_effects s !! effect_id);
      match found with
      | Some existing =>
          if bool_decide (me_tenant_id existing = tenant) && (me_instance_id existing =? id)%N
             && bool_decide (me_effect existing = e)
          then mret tt else fail (CommitIntegrity "deterministic effect identity collision")
      | None =>
          modify (λ s, set_st_durable_effects (<[effect_id := mkEffect tenant id e EffPending None None 0 1]> (st_durable_effects s)) s)
      end
  end.
Definition write_effect_mutation (claim : Claim) (m : EffectMutation) : Commit unit :=
  found ← gets (λ s, st_durable_effects s !! em_effect_id m);
  match found with
  | None => fail CommitConflict
  | Some e =>
      if bool_decide (me_tenant_id e = cl_tenant_id claim) && (me_instance_id e =? cl_instance_id claim)%N
      then modify (λ s, set_st_durable_effects
             (<[em_effect_id m := update_effect EffTerminal None None (me_attempt e) e]> (st_durable_effects s)) s)
      else fail CommitConflict
  end.

(** [timer_mutations]. *)
Definition rearm_timer (due_at : N) (spec : TimerRepeatSpec) (t : MemoryTimer) : MemoryTimer :=
  mkTimer (mt_tenant_id t) (mt_instance_id t) (mt_fiber_id t) due_at (mt_kind t) (Some spec) TimArmed None.
Definition cancel_race (id fiber : Uuid) (except_ : EffectId) (same_race : TimerKind -> bool) (timers : gmap N MemoryTimer)
  : gmap N MemoryTimer :=
  map_imap (λ timer_id t, Some
    (if negb (timer_id =? except_)%N && (mt_instance_id t =? id)%N && (mt_fiber_id t =? fiber)%N
        && same_race (mt_kind t) && bool_decide (mt_state t = TimArmed)
     then cancel_timer t else t)) timers.
Definition in_race (race : N) (k : TimerKind) : bool :=
  match k with TKRace current _ _ _ _ _ _ => (current =? race)%N | _ => false end.
Definition in_v2_race (record : RecordId) (k : TimerKind) : bool :=
  match k with TKV2Race current _ => (current =? record)%N | _ => false end.
Definition write_timer_mutation (id : Uuid) (timers : gmap N MemoryTimer) (m : TimerMutation) : gmap N MemoryTimer :=
  match m with
  | TMConsume timer_id _ => alter (λ t, set_timer_state TimConsumed (set_timer_claim None t)) timer_id timers
  | TMRearm timer_id _ due_at spec => alter (rearm_timer due_at spec) timer_id timers
  | TMCancelRace fiber race except_ => cancel_race id fiber except_ (in_race race) timers
  | TMV2CancelRace fiber record except_ => cancel_race id fiber except_ (in_v2_race record) timers
  end.

(** ** Snapshots and journal *)

Definition zero_hash : Hash := replicate 32 Byte.x00.
Definition push_journal (id : Uuid) (r : JournalRecord) (s : Store) : Store :=
  set_st_journals (<[id := default [] (st_journals s !! id) ++ [r]]> (st_journals s)) s.
Definition write_snapshot (id : Uuid) (e : SnapshotEnvelope) (s : Store) : Store :=
  set_st_snapshots (<[id := e]> (st_snapshots s)) s.
Definition envelope_hash (e : SnapshotEnvelope) : Result CommitError Hash :=
  map_err (λ e, CommitIntegrity (show_envelope_error e)) (state_hash e).

Definition child_envelope (c : ChildStart) : SnapshotEnvelope :=
  SnapshotEnvelope_new CURRENT_ARTIFACT_ABI (bytecode_version (cs_instance c)) 0
    (PersistedSnapshotState_new (cs_instance c) [cs_root_fiber c] ∅ [] ∅ ∅).
Definition write_child (c : ChildStart) : Commit unit :=
  let child := instance_id (cs_instance c) in
  _ ← modify (λ s, set_st_instances (<[child := cs_instance c]> (st_instances s)) s);
  _ ← modify (λ s, set_st_revisions (<[child := default 0%N (st_revisions s !! child)]> (st_revisions s)) s);
  _ ← modify (λ s, set_st_fibers (<[(child, fiber_id (cs_root_fiber c)) := cs_root_fiber c]> (st_fibers s)) s);
  _ ← modify (append_event child (cs_start_event c));
  hash ← lift (envelope_hash (child_envelope c));
  _ ← modify (write_snapshot child (child_envelope c));
  modify (push_journal child
    (JournalRecord_new
       (CommandEnvelope_new (for_transition child 0 u32_max) (created_at (cs_instance c)) (JAdministrative "child_start"))
       (-1) 0 (bytecode_version (cs_instance c)) zero_hash hash [cs_start_event c] [])).

(** The join counters of an instance. *)
Definition instance_joins (id : Uuid) (s : Store) : gmap N N :=
  list_to_map ((λ e : (N * N) * N, ((e.1).2, e.2)) <$> map_to_list (filter (λ e, (e.1).1 = id) (st_join_counters s))).

Definition commit_envelope (id : Uuid) (i : ProcessInstance) (new_revision : N) (s : Store) : SnapshotEnvelope :=
  SnapshotEnvelope_new CURRENT_ARTIFACT_ABI (bytecode_version i) new_revision
    (PersistedSnapshotState_new i (instance_fibers id s) (instance_joins id s) (default [] (st_incidents s !! id))
       (stored_table id s) ∅).
Definition commit_command (id : Uuid) (t : Transition) (i : ProcessInstance) (new_revision : N) : CommandEnvelope :=
  match command_envelope t with
  | Some c => c
  | None =>
      match start_dedupe t with
      | Some start => CommandEnvelope_new (sc_idempotency_key start) (sc_logical_time start) (JStart start)
      | None =>
          CommandEnvelope_new (for_transition id new_revision u32_max) (created_at i)
            (JAdministrative "fixture_or_admin_commit")
      end
  end.
Definition prior_hash (id : Uuid) (s : Store) : Hash :=
  default zero_hash (e ← st_snapshots s !! id; result_ok (state_hash e)).
Definition write_journal (claim : Claim) (t : Transition) (i : ProcessInstance) (is_start : bool) (new_revision : N)
  : Commit unit :=
  let id := cl_instance_id claim in
  _ ← modify (λ s, set_st_concurrency_tables
         (<[id := apply_mutations (stored_table id s) (concurrency_mutations t)]> (st_concurrency_tables s)) s);
  envelope ← gets (commit_envelope id i new_revision);
  hash ← lift (envelope_hash envelope);
  prior_revision ← lift (if is_start then Ok (-1)%Z
                         else ok_or (CommitIntegrity "revision exceeds signed journal range")
                                (i64_try_from (cl_expected_revision claim)));
  prior ← gets (prior_hash id);
  _ ← modify (write_snapshot id envelope);
  modify (push_journal id (JournalRecord_new (commit_command id t i new_revision) prior_revision new_revision
    (bytecode_version i) prior hash (events t) (effects t))).

(** The lease is dropped unless the instance can still run; then a tick is queued. *)
Definition is_running (i : ProcessInstance) : bool := bool_decide (inst_state i = PSRunning).
Definition has_running_fiber (id : Uuid) (s : Store) : bool :=
  existsb (λ f, bool_decide (fiber_wait f = WRunning)) (instance_fibers id s).
Definition finish_commit (claim : Claim) (i : ProcessInstance) (new_revision : N) (clock : Clock) (fresh : Uuid) (s : Store)
  : Store :=
  let id := cl_instance_id claim in
  if negb (is_running i) || negb (has_running_fiber id s)
  then set_st_transition_leases (delete id (st_transition_leases s)) s
  else (enqueue_activation (cl_tenant_id claim) id (activation_command_id_for_runnable id new_revision) "tick" (CTick None)
          None clock fresh s).2.

(** ** The whole commit *)

Definition write_rows (claim : Claim) (t : Transition) (clock : Clock) : Commit unit :=
  let id := cl_instance_id claim in
  _ ← modify (λ s, set_st_fibers (write_fibers id t (st_fibers s)) s);
  _ ← modify (λ s, set_st_join_counters (foldl (write_join id) (st_join_counters s) (join_mutations t)) s);
  _ ← modify (λ s, foldl enqueue_job s (jobs_enqueue t));
  _ ← modify (λ s, foldl remove_job s (jobs_ack t));
  _ ← for_each (write_job_mutation clock) (job_mutations t);
  _ ← modify (terminal_clean id (terminal_cleanup t));
  _ ← modify (λ s, foldl (write_dedupe clock) s (tr_dedupe t));
  _ ← modify (λ s, foldl (write_incident id) s (incidents t));
  _ ← modify (λ s, foldl write_message s (buffered_messages t));
  _ ← modify (λ s, foldl write_outbox s (outbox t));
  _ ← for_each (write_effect claim) (effects t);
  _ ← for_each (write_effect_mutation claim) (effect_mutations t);
  _ ← modify (λ s, set_st_timers (foldl (write_timer_mutation id) (st_timers s) (timer_mutations t)) s);
  _ ← for_each write_child (child_starts t);
  modify (λ s, foldl (λ s e, append_event id e s) s (events t)).
Definition write_tables (claim : Claim) (t : Transition) (i : ProcessInstance) (clock : Clock) : Commit unit :=
  _ ← write_instance claim t i;
  write_rows claim t clock.

(** [claim.expected_revision() + 1] on a [u64]. *)
Definition next_revision_of (claim : Claim) (is_start : bool) : N :=
  if is_start then 0%N else u64_incr (cl_expected_revision claim).

Definition commit_writes (claim : Claim) (t : Transition) (clock : Clock) (fresh : Uuid) (is_start : bool)
  : Commit CommitOutcome :=
  let id := cl_instance_id claim in
  i ← gets (λ s, committed_instance t (st_instances s !! id));
  _ ← write_tables claim t i clock;
  let new_revision := next_revision_of claim is_start in
  _ ← modify (λ s, set_st_revisions (<[id := new_revision]> (st_revisions s)) s);
  _ ← write_journal claim t i is_start new_revision;
  _ ← modify (finish_commit claim i new_revision clock fresh);
  mret (Committed new_revision).
Definition commit_locked (claim : Claim) (t : Transition) (clock : Clock) (fresh : Uuid) : Commit CommitOutcome :=
  is_start ← gets (is_start_commit claim);
  _ ← check (check_commit claim t);
  commit_writes claim t clock fresh is_start.

(** [commit_transition]. *)
Definition commit_run (claim : Claim) (t : Transition) (clock : Clock) (fresh : Uuid) : Commit CommitOutcome :=
  _ ← commit_pending claim t;
  commit_locked claim t clock fresh.
Definition commit_transition (claim : Claim) (t : Transition) (clock : Clock) (fresh : Uuid) (s : Store)
  : Result CommitError CommitOutcome * Store :=
  match commit_run claim t clock fresh s with
  | (Ok outcome, s) => (Ok outcome, s)
  | (Err (ExitErr e), s) => (Err e, s)
  | (Err ExitNoOp, s) => (Ok IdempotentNoOp, s)
  end.

End commit.
