(* ===== verification/StoreAggregate.v ===== *)
(** * What a commit does to one aggregate

    The rows of one instance seen as a value ([view]), the stages of
    [commit_transition] as functions on it, and the frame: every stage leaves
    the view of every other instance alone, also when the commit fails. *)

From S2P Require Import Prelude RustStr Json Types Concurrency Platform Effects Transition Canonical KernelBase KernelApply Replay Identity CancelWalk KInvariants ReplayFacts MemStore StoreClaim StoreCommit.

(** ** Running the monad *)

Lemma run_bind {A B} (m : Commit A) (f : A -> Commit B) s b s'' :
  (m ≫= f) s = (Ok b, s'') -> ∃ a s', m s = (Ok a, s') ∧ f a s' = (Ok b, s'').
Proof. unfold mbind, Commit_bind. destruct (m s) as [[a|e] s'] eqn:E; [|done]. eauto. Qed.

Lemma run_bind_ok {A B} (m : Commit A) (f : A -> Commit B) s a s' :
  m s = (Ok a, s') -> (m ≫= f) s = f a s'.
Proof. unfold mbind, Commit_bind. by intros ->. Qed.

(** A computation leaves a projection of the store as it was, also when it fails. *)
Definition keeps {X A} (p : Store -> X) (m : Commit A) : Prop := ∀ s, p (m s).2 = p s.

Section keeps.
Context {X : Type} (p : Store -> X).

Lemma keeps_ret {A} (a : A) : keeps p (mret a).
Proof. done. Qed.
Lemma keeps_fail {A} e : keeps p (fail e : Commit A).
Proof. done. Qed.
Lemma keeps_gets {A} (f : Store -> A) : keeps p (gets f).
Proof. done. Qed.
Lemma keeps_check f : keeps p (check f).
Proof. done. Qed.
Lemma keeps_lift {A} (r : Result CommitError A) : keeps p (lift r).
Proof. done. Qed.
Lemma keeps_modify f : (∀ s, p (f s) = p s) -> keeps p (modify f).
Proof. done. Qed.
Lemma keeps_bind {A B} (m : Commit A) (f : A -> Commit B) :
  keeps p m -> (∀ a, keeps p (f a)) -> keeps p (m ≫= f).
Proof.
  intros Hm Hf s. unfold mbind, Commit_bind. specialize (Hm s).
  destruct (m s) as [[a|e] s']; cbn in *; [by rewrite Hf | done].
Qed.
Lemma keeps_for_each {A} (f : A -> Commit unit) l : (∀ x, x ∈ l -> keeps p (f x)) -> keeps p (for_each f l).
Proof.
  induction l as [|x l IH]; intros Hf; cbn [for_each]; [apply keeps_ret|].
  apply keeps_bind; [apply Hf; left | intros _]. apply IH. intros y Hy. apply Hf. by right.
Qed.
Lemma foldl_keeps {A} (f : Store -> A -> Store) l s : (∀ s x, p (f s x) = p s) -> p (foldl f s l) = p s.
Proof. intros Hf. revert s; induction l as [|x l IH]; intros s; cbn; [done | by rewrite IH]. Qed.
End keeps.

Create HintDb store.
#[export] Hint Resolve keeps_ret keeps_fail keeps_gets keeps_check keeps_lift : store.

Lemma keeps_run {X A} (p : Store -> X) (m : Commit A) s r s' : keeps p m -> m s = (r, s') -> p s' = p s.
Proof. intros Hk E. specialize (Hk s). by rewrite E in Hk. Qed.

(** Walk a computation that writes no table of the projection. *)
Ltac keep :=
  repeat first
    [ progress (cbv zeta)
    | apply keeps_ret | apply keeps_fail | apply keeps_gets | apply keeps_check | apply keeps_lift
    | apply keeps_bind; [|intros ?]
    | apply keeps_for_each; intros ? ?
    | match goal with
      | |- keeps _ (match ?x with _ => _ end) => destruct x
      | |- keeps _ (let '(_, _) := ?x in _) => destruct x
      end ].

(** A computation moves the store along a preorder, also when it fails. *)
Definition moves {A} (R : relation Store) (m : Commit A) : Prop := ∀ s, R s (m s).2.

Section moves.
Context (R : relation Store) `{!PreOrder R}.

Lemma moves_bind {A B} (m : Commit A) (f : A -> Commit B) : moves R m -> (∀ a, moves R (f a)) -> moves R (m ≫= f).
Proof.
  intros Hm Hf s. unfold mbind, Commit_bind. specialize (Hm s).
  destruct (m s) as [[a|e] s']; cbn in *; [etrans; [exact Hm|apply Hf] | done].
Qed.
Lemma moves_modify f : (∀ s, R s (f s)) -> moves R (modify f).
Proof. done. Qed.
Lemma moves_gets {A} (f : Store -> A) : moves R (gets f).
Proof. by intros s. Qed.
Lemma moves_check f : moves R (check f).
Proof. by intros s. Qed.
Lemma moves_ret {A} (a : A) : moves R (mret a).
Proof. by intros s. Qed.
Lemma moves_keeps {X A} (p : Store -> X) (m : Commit A) : (∀ s s', p s' = p s -> R s s') -> keeps p m -> moves R m.
Proof. intros H Hm s. apply H, Hm. Qed.
End moves.

(** A computation that returns early does so with an error. *)
Definition only_errs {A} (m : Commit A) : Prop := ∀ s s', m s ≠ (Err ExitNoOp, s').

Lemma only_errs_ret {A} (a : A) : only_errs (mret a).
Proof. done. Qed.
Lemma only_errs_fail {A} e : only_errs (fail e : Commit A).
Proof. done. Qed.
Lemma only_errs_gets {A} (f : Store -> A) : only_errs (gets f).
Proof. done. Qed.
Lemma only_errs_modify f : only_errs (modify f).
Proof. done. Qed.
Lemma only_errs_lift {A} (r : Result CommitError A) : only_errs (lift r).
Proof. by destruct r. Qed.
Lemma only_errs_bind {A B} (m : Commit A) (f : A -> Commit B) :
  only_errs m -> (∀ a, only_errs (f a)) -> only_errs (m ≫= f).
Proof.
  intros Hm Hf s s'. unfold mbind, Commit_bind. specialize (Hm s). destruct (m s) as [[a|e] s1]; [apply Hf|].
  intros [= -> ->]. by eapply Hm.
Qed.
Lemma only_errs_for_each {A} (f : A -> Commit unit) l : (∀ x, only_errs (f x)) -> only_errs (for_each f l).
Proof. intros Hf. induction l as [|x l IH]; [apply only_errs_ret|]. by apply only_errs_bind. Qed.

Ltac only_errs :=
  repeat first
    [ progress (cbv zeta)
    | apply only_errs_ret | apply only_errs_fail | apply only_errs_gets | apply only_errs_modify | apply only_errs_lift
    | apply only_errs_bind; [|intros ?]
    | apply only_errs_for_each; intros ?
    | match goal with
      | |- only_errs (match ?x with _ => _ end) => destruct x
      | |- only_errs (let '(_, _) := ?x in _) => destruct x
      end ].

(** ** The rows of one instance *)

(** The rows of a table keyed by instance and a second key. *)
Definition row {V} (id : N) (m : gmap (N * N) V) : gmap N V :=
  list_to_map ((λ e : (N * N) * V, ((e.1).2, e.2)) <$> map_to_list (filter (λ e, (e.1).1 = id) m)).

Section row.
Context {V : Type}.
Implicit Types m : gmap (N * N) V.

Lemma lookup_row id m k : row id m !! k = m !! (id, k).
Proof.
  apply option_eq. intros v. unfold row. rewrite <-elem_of_list_to_map.
  - rewrite list_elem_of_fmap. split.
    + intros ([[i k'] v'] & [= -> ->] & [H E]%elem_of_map_to_list%map_lookup_filter_Some).
      cbn in E. by subst i.
    + intros H. exists ((id, k), v). split; [done|]. apply elem_of_map_to_list, map_lookup_filter_Some. done.
  - rewrite <-list_fmap_compose. apply (NoDup_fmap_2_strong).
    + intros [[i k1] v1] [[j k2] v2] [H1 E1]%elem_of_map_to_list%map_lookup_filter_Some
        [H2 E2]%elem_of_map_to_list%map_lookup_filter_Some. cbn in *. intros ->. subst. congruence.
    + apply NoDup_map_to_list.
Qed.

Lemma row_eq id m m' : (∀ k, m !! (id, k) = m' !! (id, k)) -> row id m = row id m'.
Proof. intros H. apply map_eq. intros k. by rewrite !lookup_row. Qed.
Lemma row_insert id k v m : row id (<[(id, k) := v]> m) = <[k := v]> (row id m).
Proof.
  apply map_eq. intros k'. rewrite lookup_row, !lookup_insert, lookup_row.
  destruct (decide (k = k')) as [->|]; [by rewrite decide_True|]. rewrite decide_False by congruence. done.
Qed.
Lemma row_insert_ne id id' k v m : id ≠ id' -> row id (<[(id', k) := v]> m) = row id m.
Proof. intros H. apply row_eq. intros k'. by rewrite lookup_insert_ne by congruence. Qed.
Lemma row_delete id k m : row id (delete (id, k) m) = delete k (row id m).
Proof.
  apply map_eq. intros k'. rewrite lookup_row, !lookup_delete, lookup_row.
  destruct (decide (k = k')) as [->|]; [by rewrite decide_True|]. rewrite decide_False by congruence. done.
Qed.
Lemma row_delete_ne id id' k m : id ≠ id' -> row id (delete (id', k) m) = row id m.
Proof. intros H. apply row_eq. intros k'. by rewrite lookup_delete_ne by congruence. Qed.
Lemma row_drop id m : row id (filter (λ e, (e.1).1 ≠ id) m) = ∅.
Proof.
  apply map_eq. intros k. rewrite lookup_row, lookup_empty. apply map_lookup_filter_None. right.
  intros v _ H. by apply H.
Qed.
Lemma row_drop_ne id id' m : id ≠ id' -> row id (filter (λ e, (e.1).1 ≠ id') m) = row id m.
Proof.
  intros H. apply row_eq. intros k. rewrite map_lookup_filter. destruct (m !! (id, k)); cbn; [|done].
  by rewrite option_guard_True.
Qed.
End row.

Lemma foldl_row {V A} (id : N) (f : gmap (N * N) V -> A -> gmap (N * N) V) (g : gmap N V -> A -> gmap N V) (l : list A) (m : gmap (N * N) V) :
  (∀ m x, row id (f m x) = g (row id m) x) -> row id (foldl f m l) = foldl g (row id m) l.
Proof. intros H. revert m; induction l as [|x l IH]; intros m; cbn; [done | by rewrite IH, H]. Qed.

Record View := mkView {
  v_instance : option ProcessInstance;
  v_fibers : gmap N Fiber;
  v_joins : gmap N N;
  v_incidents : list Incident;
  v_table : ConcurrencyTable;
  v_revision : option N;
  v_snapshot : option SnapshotEnvelope;
  v_journal : list JournalRecord;
  v_lease : option (string * N * N * string);
}.
Definition view (id : N) (s : Store) : View :=
  mkView (st_instances s !! id) (row id (st_fibers s)) (row id (st_join_counters s)) (default [] (st_incidents s !! id))
    (stored_table id s) (st_revisions s !! id) (st_snapshots s !! id) (default [] (st_journals s !! id))
    (st_transition_leases s !! id).

(** ** Stages that write other tables *)

Section stages.
Context {P : Platform} (chrono_valid : Z -> bool).

Lemma commit_pending_keeps {X} (p : Store -> X) claim t :
  (∀ x s, p (set_st_pending x s) = p s) -> keeps p (commit_pending chrono_valid claim t).
Proof. intros H. unfold commit_pending, pending_present, write_pending, take_pending. keep; by apply keeps_modify. Qed.

Lemma job_mutation_keeps {X} (p : Store -> X) clock m :
  (∀ x s, p (set_st_job_queue x s) = p s) -> (∀ x s, p (set_st_inflight_jobs x s) = p s) ->
  keeps p (write_job_mutation clock m).
Proof.
  intros H1 H2. unfold write_job_mutation, take_claimed, remove_job. destruct m; keep; apply keeps_modify; intros s;
    rewrite ?H1, ?H2; done.
Qed.

Lemma write_effect_keeps {X} (p : Store -> X) claim e :
  (∀ x s, p (set_st_timers x s) = p s) -> (∀ x s, p (set_st_durable_effects x s) = p s) ->
  keeps p (write_effect claim e).
Proof. intros H1 H2. unfold write_effect. destruct e; keep; by apply keeps_modify. Qed.

Lemma effect_mutation_keeps {X} (p : Store -> X) claim m :
  (∀ x s, p (set_st_durable_effects x s) = p s) -> keeps p (write_effect_mutation claim m).
Proof. intros H. unfold write_effect_mutation. keep; by apply keeps_modify. Qed.

Lemma view_append_event id id' e s : view id (append_event id' e s) = view id s.
Proof. done. Qed.

Lemma view_other_tables id s : 
  (∀ x, view id (set_st_pending x s) = view id s) ∧ (∀ x, view id (set_st_job_queue x s) = view id s) ∧
  (∀ x, view id (set_st_inflight_jobs x s) = view id s) ∧ (∀ x, view id (set_st_timers x s) = view id s) ∧
  (∀ x, view id (set_st_durable_effects x s) = view id s).
Proof. done. Qed.

Lemma view_enqueue_job id s j : view id (enqueue_job s j) = view id s.
Proof. unfold enqueue_job. by destruct (_ || _). Qed.
Lemma view_write_message id s m : view id (write_message s m) = view id s.
Proof. by destruct m. Qed.
Lemma view_write_outbox id s o : view id (write_outbox s o) = view id s.
Proof. unfold write_outbox. by destruct (st_outbox s !! _). Qed.

(** ** Stages that write the aggregate *)

Definition set_v_instance (i : ProcessInstance) (v : View) : View :=
  mkView (Some i) (v_fibers v) (v_joins v) (v_incidents v) (v_table v) (v_revision v) (v_snapshot v) (v_journal v) (v_lease v).
Definition set_v_fibers (f : gmap N Fiber) (v : View) : View :=
  mkView (v_instance v) f (v_joins v) (v_incidents v) (v_table v) (v_revision v) (v_snapshot v) (v_journal v) (v_lease v).
Definition set_v_joins (j : gmap N N) (v : View) : View :=
  mkView (v_instance v) (v_fibers v) j (v_incidents v) (v_table v) (v_revision v) (v_snapshot v) (v_journal v) (v_lease v).
Definition set_v_incidents (l : list Incident) (v : View) : View :=
  mkView (v_instance v) (v_fibers v) (v_joins v) l (v_table v) (v_revision v) (v_snapshot v) (v_journal v) (v_lease v).

Definition fibers_after (t : Transition) (m : gmap N Fiber) : gmap N Fiber :=
  foldl (λ m f, delete f m) (foldl (λ m f, <[fiber_id f := f]> m) m (fibers_upsert t)) (fibers_delete t).
Definition join_after (m : gmap N N) (j : JoinMutation) : gmap N N :=
  match j with
  | JMArrive join => <[join := u16_incr (default 0%N (m !! join))]> m
  | JMReset join => <[join := 0%N]> m
  end.

Lemma row_write_fibers id t m : row id (write_fibers id t m) = fibers_after t (row id m).
Proof.
  unfold write_fibers, fibers_after. rewrite (foldl_row id _ (λ m f, delete f m)) by (intros; apply row_delete).
  f_equal. apply (foldl_row id _ (λ m f, <[fiber_id f := f]> m)). intros; apply row_insert.
Qed.
Lemma row_write_fibers_ne id id' t m : id ≠ id' -> row id (write_fibers id' t m) = row id m.
Proof.
  intros H. unfold write_fibers. rewrite (foldl_row id _ (λ m _, m)) by (intros; by apply row_delete_ne).
  rewrite (foldl_row id _ (λ m _, m)) by (intros; by apply row_insert_ne).
  induction (fibers_delete t) as [|x l IH]; cbn; [|done]. by induction (fibers_upsert t) as [|x l IH].
Qed.
Lemma row_write_joins id l m : row id (foldl (write_join id) m l) = foldl join_after (row id m) l.
Proof. apply foldl_row. intros m' []; cbn [write_join join_after]; rewrite row_insert, ?lookup_row; done. Qed.
Lemma row_write_joins_ne id id' l m : id ≠ id' -> row id (foldl (write_join id') m l) = row id m.
Proof.
  intros H. rewrite (foldl_row id _ (λ m _, m)); [by induction l|].
  intros m' []; cbn [write_join]; by apply row_insert_ne.
Qed.

Lemma view_terminal_clean id c s :
  view id (terminal_clean id c s) =
    set_v_fibers (if delete_all_fibers c then ∅ else v_fibers (view id s))
      (set_v_joins (if delete_all_joins c then ∅ else v_joins (view id s)) (view id s)).
Proof.
  unfold terminal_clean. destruct (delete_all_fibers c), (delete_all_joins c), (cancel_jobs c);
    unfold view, set_v_fibers, set_v_joins; cbn; rewrite ?row_drop; done.
Qed.
Lemma view_terminal_clean_ne id id' c s : id ≠ id' -> view id (terminal_clean id' c s) = view id s.
Proof.
  intros H. unfold terminal_clean. destruct (delete_all_fibers c), (delete_all_joins c), (cancel_jobs c);
    unfold view; cbn; rewrite ?row_drop_ne by done; done.
Qed.

Lemma view_write_incidents id l s :
  view id (foldl (write_incident id) s l) = set_v_incidents (foldl upsert_incident (v_incidents (view id s)) l) (view id s).
Proof.
  revert s; induction l as [|i l IH]; intros s; cbn [foldl]; [by destruct s|].
  rewrite IH. unfold view, set_v_incidents, write_incident. cbn. rewrite lookup_insert_eq. done.
Qed.
Lemma view_write_incidents_ne id id' l s : id ≠ id' -> view id (foldl (write_incident id') s l) = view id s.
Proof.
  intros H. apply foldl_keeps. intros s' i. unfold view, write_incident. cbn. by rewrite lookup_insert_ne.
Qed.

(** A child start writes the rows of the child. *)
Lemma write_child_keeps id c : instance_id (cs_instance c) ≠ id -> keeps (view id) (write_child c).
Proof.
  intros H. unfold write_child. keep; apply keeps_modify; intros s; unfold view, stored_table; cbn;
    rewrite ?lookup_insert_ne, ?row_insert_ne by done; done.
Qed.

(** ** All tables *)

Definition tables_view (t : Transition) (i : ProcessInstance) (v : View) : View :=
  set_v_instance i
    (set_v_fibers (if delete_all_fibers (terminal_cleanup t) then ∅ else fibers_after t (v_fibers v))
      (set_v_joins (if delete_all_joins (terminal_cleanup t) then ∅ else foldl join_after (v_joins v) (join_mutations t))
        (set_v_incidents (foldl upsert_incident (v_incidents v) (incidents t)) v))).

Definition starts_others (id : N) (t : Transition) : Prop := ∀ c, c ∈ child_starts t -> instance_id (cs_instance c) ≠ id.

Lemma write_tables_view claim t i clock s s' :
  starts_others (cl_instance_id claim) t ->
  write_tables claim t i clock s = (Ok tt, s') ->
  view (cl_instance_id claim) s' = tables_view t i (view (cl_instance_id claim) s).
Proof.
  intros Hc. set (id := cl_instance_id claim) in *. unfold write_tables. intros H.
  apply run_bind in H as ([] & s1 & H1 & H). unfold write_rows in H. cbv zeta in H. fold id in H.
  assert (E1 : view id s1 = set_v_instance i (view id s)).
  { revert H1. unfold write_instance. cbv zeta. fold id. destruct (start_dedupe t); intros [= <-];
      unfold view, set_v_instance; cbn; by rewrite lookup_insert_eq. }
  do 4 (apply run_bind in H as ([] & ? & [= <-] & H)).
  apply run_bind in H as ([] & s2 & H2 & H).
  assert (E2 : view id s2 = set_v_fibers (fibers_after t (v_fibers (view id s1)))
                 (set_v_joins (foldl join_after (v_joins (view id s1)) (join_mutations t)) (view id s1))).
  { apply (keeps_run (view id)) in H2; [|by apply keeps_for_each; intros; apply job_mutation_keeps].
    rewrite H2, (foldl_keeps (view id)) by done. rewrite (foldl_keeps (view id)) by apply view_enqueue_job.
    unfold view, set_v_fibers, set_v_joins, stored_table. cbn. by rewrite row_write_fibers, row_write_joins. }
  do 5 (apply run_bind in H as ([] & ? & [= <-] & H)).
  apply run_bind in H as ([] & s3 & H3 & H). apply run_bind in H as ([] & s4 & H4 & H).
  apply run_bind in H as ([] & ? & [= <-] & H). apply run_bind in H as ([] & s5 & H5 & [= <-]).
  rewrite (foldl_keeps (view id)) by done.
  apply (keeps_run (view id)) in H5; [|apply keeps_for_each; intros c Hin; apply write_child_keeps; by apply Hc].
  apply (keeps_run (view id)) in H4; [|by apply keeps_for_each; intros; apply effect_mutation_keeps].
  apply (keeps_run (view id)) in H3; [|by apply keeps_for_each; intros; apply write_effect_keeps].
  rewrite H5. change (view id (set_st_timers _ _)) with (view id s4). rewrite H4, H3.
  rewrite (foldl_keeps (view id)) by apply view_write_outbox.
  rewrite (foldl_keeps (view id)) by apply view_write_message.
  rewrite view_write_incidents. rewrite (foldl_keeps (view id)) by done.
  rewrite view_terminal_clean, E2, E1.
  unfold tables_view. destruct (delete_all_fibers _), (delete_all_joins _); done.
Qed.

(** Nothing else is touched. *)
Lemma write_tables_keeps id claim t i clock :
  cl_instance_id claim ≠ id -> starts_others id t -> keeps (view id) (write_tables claim t i clock).
Proof.
  intros Hid Hc. unfold write_tables, write_instance, write_rows. cbv zeta.
  repeat (apply keeps_bind; [|intros _]);
    try (destruct (start_dedupe t); [|apply keeps_ret]); try apply keeps_modify; try intros s.
  all: try apply foldl_keeps; try intros s' x.
  all: try solve [apply view_enqueue_job | apply view_write_outbox | apply view_write_message | done].
  all: try solve [apply keeps_for_each; intros; by apply job_mutation_keeps
                 | apply keeps_for_each; intros; by apply write_effect_keeps
                 | apply keeps_for_each; intros; by apply effect_mutation_keeps
                 | apply keeps_for_each; intros; apply write_child_keeps; by apply Hc
                 | by apply view_terminal_clean_ne].
  all: unfold view, stored_table; cbn; rewrite ?row_write_fibers_ne, ?row_write_joins_ne, ?lookup_insert_ne by done; done.
Qed.

End stages.

(** * A committed aggregate

    What a successful commit leaves in the rows of its instance; that the
    envelope it stores is the one the kernel's [materialize_snapshot] computes
    from the envelope stored before; that it leaves every other aggregate alone. *)

(** ** Maps built from lists *)

Lemma collect_by_list {V} (key : V -> N) l (m : gmap N V) :
  (∀ k v, m !! k = Some v -> key v = k) -> (∀ v, v ∈ l ↔ ∃ k, m !! k = Some v) -> collect_by key l = m.
Proof.
  intros Hk Hl. apply map_eq. intros k. unfold collect_by. rewrite foldl_insert_lookup, lookup_empty.
  destruct (last _) as [v|] eqn:E.
  - apply last_Some_elem_of, list_elem_of_filter in E as [Hv [k' Hin]%Hl]. rewrite <-Hv. by rewrite <-(Hk _ _ Hin) in Hin.
  - destruct (m !! k) as [v|] eqn:Hm; [|done]. exfalso. apply last_None in E.
    assert (Hin : v ∈ filter (λ v, key v = k) l) by (apply list_elem_of_filter; split; [by apply Hk | apply Hl; eauto]).
    rewrite E in Hin. by apply not_elem_of_nil in Hin.
Qed.

Lemma collect_by_nodup {V} (key : V -> N) l :
  NoDup (key <$> l) -> collect_by key l = list_to_map ((λ v, (key v, v)) <$> l).
Proof.
  intros Hnd. assert (Hf : ((λ v, (key v, v)) <$> l).*1 = key <$> l) by (by rewrite <-list_fmap_compose).
  apply collect_by_list.
  - intros k v (v' & [= -> ->] & _)%elem_of_list_to_map_2%list_elem_of_fmap. done.
  - intros v. split.
    + intros Hv. exists (key v). apply elem_of_list_to_map_1; [by rewrite Hf|]. apply list_elem_of_fmap. eauto.
    + intros (k & (v' & [= -> ->] & H)%elem_of_list_to_map_2%list_elem_of_fmap). done.
Qed.

Lemma collect_instance_fibers id s :
  fibers_keyed (row id (st_fibers s)) -> collect_by fiber_id (instance_fibers id s) = row id (st_fibers s).
Proof.
  intros Hk. apply collect_by_list; [exact Hk|]. intros f. unfold instance_fibers. rewrite list_elem_of_fmap. split.
  - intros ([[i k] f'] & -> & [H E]%elem_of_map_to_list%map_lookup_filter_Some). cbn in *. subst i.
    exists k. by rewrite lookup_row.
  - intros [k H]. rewrite lookup_row in H. exists ((id, k), f). split; [done|].
    by apply elem_of_map_to_list, map_lookup_filter_Some.
Qed.

Lemma upsert_incident_ids l i : ∀ x, x ∈ incident_id <$> upsert_incident l i -> x = incident_id i ∨ x ∈ incident_id <$> l.
Proof.
  induction l as [|y l IH]; intros x; cbn [upsert_incident].
  - set_solver.
  - destruct (N.eqb_spec (incident_id y) (incident_id i)) as [E|]; [set_solver|]. cbn.
    rewrite !elem_of_cons. intros [->|H]; [eauto|]. destruct (IH _ H); eauto.
Qed.
Lemma upsert_incident_nodup l i : NoDup (incident_id <$> l) -> NoDup (incident_id <$> upsert_incident l i).
Proof.
  induction l as [|y l IH]; cbn [upsert_incident]; [intros _; apply NoDup_singleton|].
  cbn. intros [Hy Hl]%NoDup_cons. destruct (N.eqb_spec (incident_id y) (incident_id i)) as [E|E]; cbn.
  - apply NoDup_cons. by rewrite <-E.
  - apply NoDup_cons. split; [|by apply IH]. by intros [?|?]%upsert_incident_ids.
Qed.
Lemma collect_upsert_incident l i :
  NoDup (incident_id <$> l) ->
  collect_by incident_id (upsert_incident l i) = <[incident_id i := i]> (collect_by incident_id l).
Proof.
  intros Hnd. rewrite !collect_by_nodup by (try apply upsert_incident_nodup; done). clear Hnd.
  induction l as [|y l IH]; cbn; [done|]. destruct (N.eqb_spec (incident_id y) (incident_id i)) as [E|E]; cbn.
  - by rewrite E, insert_insert_eq.
  - by rewrite IH, insert_insert_ne by done.
Qed.
Lemma collect_upsert_incidents l incs :
  NoDup (incident_id <$> l) ->
  collect_by incident_id (foldl upsert_incident l incs) = foldl (λ m i, <[incident_id i := i]> m) (collect_by incident_id l) incs
  ∧ NoDup (incident_id <$> foldl upsert_incident l incs).
Proof.
  revert l. induction incs as [|i incs IH]; intros l Hl; cbn; [done|].
  rewrite <-collect_upsert_incident by done. by apply IH, upsert_incident_nodup.
Qed.

(** ** Coherence *)

(** What every row satisfies on its own. *)
Definition rows_wf (v : View) : Prop := fibers_keyed (v_fibers v) ∧ NoDup (incident_id <$> v_incidents v).

(** The envelope the rows stand for. *)
Definition view_envelope (i : ProcessInstance) (rev : N) (v : View) : SnapshotEnvelope :=
  SnapshotEnvelope_new CURRENT_ARTIFACT_ABI (bytecode_version i) rev
    (mkPersisted (set_integrity_hash None i) (v_fibers v) (v_joins v) (collect_by incident_id (v_incidents v)) (v_table v) ∅).

Lemma commit_envelope_view id i rev s : rows_wf (view id s) -> commit_envelope id i rev s = view_envelope i rev (view id s).
Proof.
  intros [H _]. unfold commit_envelope, view_envelope, PersistedSnapshotState_new.
  by rewrite (collect_instance_fibers _ _ H).
Qed.

Section aggregate.
Context {P : Platform} (chrono_valid : Z -> bool).

(** The stored envelope is the rows; the head of the journal names its revision and
    its hash. *)
Record coherent (id : N) (v : View) (i : ProcessInstance) (e : SnapshotEnvelope) : Prop := {
  co_instance : v_instance v = Some i;
  co_id : instance_id i = id;
  co_snapshot : v_snapshot v = Some e;
  co_rows : e = view_envelope i (se_revision e) v;
  co_revision : v_revision v = Some (se_revision e);
  co_wf : rows_wf v;
  co_head : ∃ r, last (v_journal v) = Some r ∧ jr_new_revision r = se_revision e ∧
    jr_artifact_hash r = bytecode_version i ∧ state_hash e = Ok (jr_state_hash r);
}.

(** The view after a commit. *)
Definition committed_view (t : Transition) (i : ProcessInstance) (rev : N) (e : SnapshotEnvelope) (r : JournalRecord)
    (lease : option (string * N * N * string)) (v : View) : View :=
  let v1 := tables_view t i v in
  mkView (Some i) (v_fibers v1) (v_joins v1) (v_incidents v1) (apply_mutations (v_table v) (concurrency_mutations t))
    (Some rev) (Some e) (v_journal v ++ [r]) lease.

Lemma tables_view_wf t i v : rows_wf v -> rows_wf (tables_view t i v).
Proof.
  intros [Hf Hi]. split; cbn.
  - destruct (delete_all_fibers _); [done|]. by apply (apply_fiber_deltas_keyed _ _ _ false).
  - by apply collect_upsert_incidents.
Qed.

Definition mutate_table (id : N) (t : Transition) (s : Store) : Store :=
  set_st_concurrency_tables (<[id := apply_mutations (stored_table id s) (concurrency_mutations t)]> (st_concurrency_tables s)) s.

Lemma write_journal_run claim t i start rev s s' :
  let id := cl_instance_id claim in
  write_journal claim t i start rev s = (Ok tt, s') ->
  let s1 := mutate_table id t s in
  let e := commit_envelope id i rev s1 in
  ∃ h pr, state_hash e = Ok h ∧
    (if start then pr = (-1)%Z else pr = Z.of_N (cl_expected_revision claim) ∧ (pr <= i64_max)%Z) ∧
    s' = push_journal id (JournalRecord_new (commit_command id t i rev) pr rev (bytecode_version i) (prior_hash id s1) h
           (events t) (effects t)) (write_snapshot id e s1).
Proof.
  intros id H s1 e. unfold write_journal in H. cbv zeta in H. fold id in H.
  apply run_bind in H as ([] & s2 & [= <-] & H). change (set_st_concurrency_tables _ s) with s1 in H.
  apply run_bind in H as (? & s2 & [= <- <-] & H). fold e in H.
  apply run_bind in H as (h & s2 & [Hh <-]%pair_eq & H). apply map_err_ok, map_err_ok in Hh.
  apply run_bind in H as (pr & s2 & [Hpr <-]%pair_eq & H). apply map_err_ok in Hpr.
  apply run_bind in H as (? & s2 & [= <- <-] & H). apply run_bind in H as ([] & s2 & [= <-] & [= <-]).
  exists h, pr. split; [done|]. split; [|done]. destruct start; [by injection Hpr as <-|].
  by apply ok_or_ok, i64_try_from_Some in Hpr as [? ->].
Qed.

Lemma finish_commit_view claim i rev clock fresh s :
  let id := cl_instance_id claim in
  ∃ lease, view id (finish_commit claim i rev clock fresh s) =
    let v := view id s in
    mkView (v_instance v) (v_fibers v) (v_joins v) (v_incidents v) (v_table v) (v_revision v) (v_snapshot v) (v_journal v) lease.
Proof.
  intros id. unfold finish_commit, enqueue_activation. cbv zeta. fold id. destruct (_ || _).
  - exists None. unfold view. cbn. by rewrite lookup_delete_eq.
  - exists (st_transition_leases s !! id). by destruct (st_activation_dedupe s !! _).
Qed.

(** Any commit that succeeds. *)
Lemma commit_locked_view claim t clock fresh s o s' :
  let id := cl_instance_id claim in
  rows_wf (view id s) -> starts_others id t ->
  commit_locked claim t clock fresh s = (Ok o, s') ->
  let start := is_start_commit claim s in
  let rev := next_revision_of claim start in
  let i := committed_instance t (v_instance (view id s)) in
  ∃ e h pr lease,
    let r := JournalRecord_new (commit_command id t i rev) pr rev (bytecode_version i)
               (default zero_hash (e0 ← v_snapshot (view id s); result_ok (state_hash e0))) h (events t) (effects t) in
    o = Committed rev ∧ check_commit claim t s = Ok tt ∧ state_hash e = Ok h ∧
    (if start then pr = (-1)%Z else pr = Z.of_N (cl_expected_revision claim) ∧ (pr <= i64_max)%Z) ∧
    view id s' = committed_view t i rev e r lease (view id s) ∧ e = view_envelope i rev (view id s').
Proof.
  intros id Hwf Hc H start rev i. unfold commit_locked in H.
  apply run_bind in H as (st & s0 & [= <- <-] & H). apply run_bind in H as ([] & s0 & [Hck <-]%pair_eq & H).
  unfold commit_writes in H. cbv zeta in H. fold id in H.
  apply run_bind in H as (i' & s0 & [= <- <-] & H). apply run_bind in H as ([] & s1 & Ht & H).
  apply write_tables_view in Ht; [|done]. fold id start rev in Ht, H. fold i in Ht, H.
  apply run_bind in H as ([] & s2 & [= <-] & H). apply run_bind in H as ([] & s3 & Hj & H).
  apply run_bind in H as ([] & s4 & [= <-] & [= <- <-]).
  apply write_journal_run in Hj as (h & pr & Hh & Hpr & ->). fold id in Hh |- *.
  edestruct (finish_commit_view claim i rev clock fresh) as [lease ->]. fold id.
  set (s2 := mutate_table _ _ _) in *.
  assert (Hv2 : view id s2 = 
    let v1 := tables_view t i (view id s) in
    mkView (Some i) (v_fibers v1) (v_joins v1) (v_incidents v1) (apply_mutations (v_table (view id s)) (concurrency_mutations t))
      (Some rev) (v_snapshot (view id s)) (v_journal (view id s)) (v_lease (view id s))).
  { unfold view in Ht at 1. injection Ht as E1 E2 E3 E4 E5 E6 E7 E8 E9. subst s2. unfold view at 1, mutate_table. cbn.
    change (stored_table id (set_st_revisions _ s1)) with (stored_table id s1).
    rewrite !lookup_insert_eq, E1, E2, E3, E4, E5, E7, E8, E9. f_equal.
    unfold stored_table at 1. cbn. by rewrite lookup_insert_eq. }
  assert (Hwf2 : rows_wf (view id s2)) by (rewrite Hv2; by apply (tables_view_wf t i)).
  assert (He : commit_envelope id i rev s2 = view_envelope i rev (view id s2)) by by apply commit_envelope_view.
  change (committed_instance t (st_instances s !! id)) with i in *. rewrite He in *.
  exists (view_envelope i rev (view id s2)), h, pr, lease. cbv zeta.
  assert (Hp : prior_hash id s2 = default zero_hash (e0 ← v_snapshot (view id s); result_ok (state_hash e0))).
  { unfold prior_hash. change (st_snapshots s2 !! id) with (v_snapshot (view id s2)). by rewrite Hv2. }
  rewrite Hp. set (r := JournalRecord_new _ _ _ _ _ _ _ _).
  assert (Hv3 : ∀ e, view id (push_journal id r (write_snapshot id e s2)) =
    let v := view id s2 in
    mkView (v_instance v) (v_fibers v) (v_joins v) (v_incidents v) (v_table v) (v_revision v) (Some e) (v_journal v ++ [r])
      (v_lease v)).
  { intros e. unfold view. cbn. by rewrite !lookup_insert_eq. }
  rewrite Hv3. rewrite Hv2 in *. by split_and!.
Qed.

(** ** The commit as a whole *)

Lemma commit_committed claim t clock fresh s rev s' :
  commit_transition chrono_valid claim t clock fresh s = (Ok (Committed rev), s') ->
  ∃ s0, commit_pending chrono_valid claim t s = (Ok tt, s0) ∧ commit_locked claim t clock fresh s0 = (Ok (Committed rev), s').
Proof.
  unfold commit_transition. destruct (commit_run _ _ _ _ _ s) as [[o|[]] s1] eqn:E; intros [= -> ->].
  apply run_bind in E as ([] & s0 & ? & ?). eauto.
Qed.

(** Every other aggregate is left alone, whatever the outcome. *)
Lemma write_journal_keeps id claim t i start rev : cl_instance_id claim ≠ id -> keeps (view id) (write_journal claim t i start rev).
Proof.
  intros H. unfold write_journal. keep; apply keeps_modify; intros s; unfold view, stored_table; cbn;
    rewrite ?lookup_insert_ne by done; done.
Qed.
Lemma finish_commit_keeps id claim i rev clock fresh s :
  cl_instance_id claim ≠ id -> view id (finish_commit claim i rev clock fresh s) = view id s.
Proof.
  intros H. unfold finish_commit, enqueue_activation. cbv zeta. destruct (_ || _).
  - unfold view. cbn. by rewrite lookup_delete_ne.
  - by destruct (st_activation_dedupe s !! _).
Qed.
Lemma commit_run_keeps id claim t clock fresh :
  cl_instance_id claim ≠ id -> starts_others id t -> keeps (view id) (commit_run chrono_valid claim t clock fresh).
Proof.
  intros Hid Hc. unfold commit_run, commit_locked, commit_writes. cbv zeta. apply keeps_bind; [by apply commit_pending_keeps|intros _].
  apply keeps_bind; [apply keeps_gets|intros start]. apply keeps_bind; [apply keeps_check|intros _].
  apply keeps_bind; [apply keeps_gets|intros i]. apply keeps_bind; [by apply write_tables_keeps|intros _].
  apply keeps_bind; [|intros _]. { apply keeps_modify. intros s. unfold view. cbn. by rewrite lookup_insert_ne. }
  apply keeps_bind; [by apply write_journal_keeps|intros _]. apply keeps_bind; [|intros _; apply keeps_ret].
  apply keeps_modify. intros s. by apply finish_commit_keeps.
Qed.
Lemma commit_transition_snd claim t clock fresh s :
  (commit_transition chrono_valid claim t clock fresh s).2 = (commit_run chrono_valid claim t clock fresh s).2.
Proof. unfold commit_transition. by destruct (commit_run _ _ _ _ _ s) as [[o|[]] s1]. Qed.

(** Tables that the rows of a commit do not touch. *)
Lemma write_rows_other {X} (p : Store -> X) claim t clock :
  (∀ s s', st_transition_leases s' = st_transition_leases s -> st_concurrency_tables s' = st_concurrency_tables s ->
     st_starts s' = st_starts s -> p s' = p s) ->
  keeps p (write_rows claim t clock).
Proof.
  intros Hp. unfold write_rows, write_child. cbv zeta.
  repeat (apply keeps_bind; [|intros _]); try apply keeps_modify; try intros s1.
  all: try (apply foldl_keeps; intros s2 x); try (by apply Hp).
  all: try solve [unfold enqueue_job; destruct (_ || _); by apply Hp | unfold write_outbox; destruct (st_outbox _ !! _); by apply Hp
    | destruct x; by apply Hp
    | unfold terminal_clean; destruct (delete_all_fibers _), (delete_all_joins _), (cancel_jobs _); by apply Hp].
  all: try solve [apply keeps_for_each; intros; apply job_mutation_keeps; intros; by apply Hp
                 | apply keeps_for_each; intros; apply write_effect_keeps; intros; by apply Hp
                 | apply keeps_for_each; intros; apply effect_mutation_keeps; intros; by apply Hp
                 | keep; apply keeps_modify; intros; by apply Hp].
Qed.
Lemma write_tables_other {X} (p : Store -> X) claim t i clock :
  (∀ s s', st_transition_leases s' = st_transition_leases s -> st_concurrency_tables s' = st_concurrency_tables s -> p s' = p s) ->
  keeps p (write_tables claim t i clock).
Proof.
  intros Hp. unfold write_tables, write_instance. cbv zeta. apply keeps_bind; [|intros _; apply write_rows_other; auto].
  repeat (apply keeps_bind; [|intros _]); try (destruct (start_dedupe t); [|apply keeps_ret]); apply keeps_modify; intros; by apply Hp.
Qed.

(** A commit never takes a lease: it leaves each as it was or drops it. *)
Definition leases_shrink (s s' : Store) : Prop :=
  ∀ id, st_transition_leases s' !! id = st_transition_leases s !! id ∨ st_transition_leases s' !! id = None.
Global Instance leases_shrink_preorder : PreOrder leases_shrink.
Proof.
  split; [by left|]. intros s1 s2 s3 H12 H23 id. destruct (H23 id) as [->|]; [apply H12 | by right].
Qed.
Lemma commit_leases claim t clock fresh s : leases_shrink s (commit_transition chrono_valid claim t clock fresh s).2.
Proof.
  rewrite commit_transition_snd. revert s. change (moves leases_shrink (commit_run chrono_valid claim t clock fresh)).
  assert (Hk : ∀ s s', st_transition_leases s' = st_transition_leases s -> leases_shrink s s') by (intros s s' E id; left; by rewrite E).
  unfold commit_run, commit_locked, commit_writes, write_journal. cbv zeta.
  apply moves_bind; [apply _|eapply moves_keeps; [exact Hk|by apply commit_pending_keeps]|intros _].
  apply moves_bind; [apply _|apply moves_gets; apply _|intros start]. apply moves_bind; [apply _|apply moves_check; apply _|intros _].
  apply moves_bind; [apply _|apply moves_gets; apply _|intros i].
  apply moves_bind; [apply _|eapply moves_keeps; [exact Hk|by apply write_tables_other]|intros _].
  apply moves_bind; [apply _|by apply moves_modify; intros s; apply Hk|intros _].
  apply moves_bind; [apply _|eapply moves_keeps; [exact Hk|keep; by apply keeps_modify]|intros _].
  apply moves_bind; [apply _| |intros _; apply moves_ret; apply _]. apply moves_modify. intros s id.
  unfold finish_commit, enqueue_activation. cbv zeta. destruct (_ || _).
  - cbn. rewrite lookup_delete. case_decide; auto.
  - left. by destruct (st_activation_dedupe s !! _).
Qed.

(** The pending stage writes its table only. *)
Lemma commit_pending_only claim t s : ∃ x, (commit_pending chrono_valid claim t s).2 = set_st_pending x s.
Proof.
  assert (Hp : keeps (set_st_pending ∅) (commit_pending chrono_valid claim t)) by by apply commit_pending_keeps.
  specialize (Hp s). set (s0 := (commit_pending _ _ _ s).2) in *. exists (st_pending s0).
  apply (f_equal (set_st_pending (st_pending s0))) in Hp. change (set_st_pending (st_pending s0) s0 = set_st_pending (st_pending s0) s) in Hp.
  rewrite <-Hp. by destruct s0.
Qed.
Lemma commit_locked_eq claim t clock fresh s :
  commit_locked claim t clock fresh s =
    match check_commit claim t s with Ok _ => commit_writes claim t clock fresh (is_start_commit claim s) s | Err x => (Err x, s) end.
Proof. unfold commit_locked, mbind, Commit_bind, gets, check. by destruct (check_commit claim t s). Qed.

(** A commit that was a no-op for the checks wrote nothing, unless it carried
    pending invocations. *)
Lemma write_tables_errs claim t i clock : only_errs (write_tables claim t i clock).
Proof.
  unfold write_tables, write_rows, write_instance, write_job_mutation, take_claimed, write_effect, write_effect_mutation, write_child.
  only_errs.
Qed.
Lemma commit_writes_errs claim t clock fresh start : only_errs (commit_writes claim t clock fresh start).
Proof.
  unfold commit_writes. cbv zeta. apply only_errs_bind; [apply only_errs_gets|intros i].
  apply only_errs_bind; [apply write_tables_errs|intros _]. unfold write_journal. only_errs.
Qed.
Lemma commit_noop claim t clock fresh s s' :
  pending_invocations t = [] -> pending_take t = [] ->
  commit_transition chrono_valid claim t clock fresh s = (Ok IdempotentNoOp, s') ->
  s' = s ∧ check_commit claim t s = Err ExitNoOp.
Proof.
  intros Hp1 Hp2. unfold commit_transition.
  assert (Hrun : commit_run chrono_valid claim t clock fresh s = commit_locked claim t clock fresh s).
  { unfold commit_run, commit_pending. by rewrite Hp1, Hp2. }
  rewrite Hrun, commit_locked_eq. destruct (check_commit claim t s) as [[]|[]]; [|done|by intros [= <-]].
  pose proof (commit_writes_errs claim t clock fresh (is_start_commit claim s) s) as He.
  destruct (commit_writes _ _ _ _ _ s) as [[o|[]] s1] eqn:E; intros [= H1]; [|by edestruct He]. subst o.
  unfold commit_writes in E. cbv zeta in E. do 4 (apply run_bind in E as (? & ? & ? & E)).
  by apply run_bind in E as (? & ? & ? & [= ? ?]).
Qed.

(** A committed start is on record under its key. *)
Lemma commit_starts claim t clock fresh s rev s' c :
  start_dedupe t = Some c -> commit_transition chrono_valid claim t clock fresh s = (Ok (Committed rev), s') ->
  st_starts s' !! (cl_tenant_id claim, sc_idempotency_key c) = Some (cl_instance_id claim).
Proof.
  intros Hc (s0 & _ & H)%commit_committed. unfold commit_locked in H.
  apply run_bind in H as (st & s1 & _ & H). apply run_bind in H as ([] & s2 & _ & H).
  unfold commit_writes in H. cbv zeta in H. apply run_bind in H as (i & s3 & _ & H). apply run_bind in H as ([] & s4 & Ht & H).
  unfold write_tables in Ht. apply run_bind in Ht as ([] & s5 & Hi & Hr).
  assert (E5 : st_starts s5 !! (cl_tenant_id claim, sc_idempotency_key c) = Some (cl_instance_id claim)).
  { revert Hi. unfold write_instance. cbv zeta. rewrite Hc. intros [= <-]. cbn. by rewrite lookup_insert_eq. }
  apply (keeps_run st_starts) in Hr; [|by apply write_rows_other]. rewrite <-Hr in E5. rewrite <-E5. f_equal.
  match type of H with ?m s4 = _ => apply (keeps_run (A := CommitOutcome) st_starts m s4 _ _) in H; [exact H|] end.
  unfold write_journal. keep; apply keeps_modify; intros s6; try done.
  unfold finish_commit, enqueue_activation. cbv zeta. destruct (_ || _); [done|]. by destruct (st_activation_dedupe s6 !! _).
Qed.

Lemma commit_view claim t clock fresh s rev s' :
  let id := cl_instance_id claim in
  rows_wf (view id s) -> starts_others id t ->
  commit_transition chrono_valid claim t clock fresh s = (Ok (Committed rev), s') ->
  let start := is_start_commit claim s in
  let i := committed_instance t (v_instance (view id s)) in
  ∃ e h pr lease s0,
    let r := JournalRecord_new (commit_command id t i rev) pr rev (bytecode_version i)
               (default zero_hash (e0 ← v_snapshot (view id s); result_ok (state_hash e0))) h (events t) (effects t) in
    rev = next_revision_of claim start ∧ check_commit claim t (set_st_pending s0 s) = Ok tt ∧ state_hash e = Ok h ∧
    (if start then pr = (-1)%Z else pr = Z.of_N (cl_expected_revision claim) ∧ (pr <= i64_max)%Z) ∧
    view id s' = committed_view t i rev e r lease (view id s) ∧ e = view_envelope i rev (view id s').
Proof.
  intros id Hwf Hc (s0 & Hp & H)%commit_committed.
  destruct (commit_pending_only claim t s) as [x Hx]. rewrite Hp in Hx. cbn in Hx. subst s0.
  destruct (commit_locked_view claim t clock fresh (set_st_pending x s) _ _ Hwf Hc H) as (e & h & pr & lease & [= ->] & ? & ? & ? & ? & ?).
  exists e, h, pr, lease, x. by split_and!.
Qed.

(** ** Refinement of [materialize_snapshot] *)

(** The counters a transition arrives at do not reach the width of their type: the
    kernel saturates there and the store wraps around. *)
Definition joins_fit (joins : gmap N N) (l : list JoinMutation) : Prop :=
  ∀ k, JMArrive k ∈ l -> (default 0 (joins !! k) + N.of_nat (length l) <= u16_max)%N.

Lemma joins_fit_nil joins : joins_fit joins [].
Proof. by intros k ?%not_elem_of_nil. Qed.

Lemma joins_fit_fold joins l : joins_fit joins l -> foldl join_after joins l = foldl apply_join_mutation joins l.
Proof.
  revert joins. induction l as [|m l IH]; intros joins Hf; [done|]. cbn [foldl].
  assert (E : join_after joins m = apply_join_mutation joins m).
  { destruct m as [k|k]; [|done]. cbn. f_equal. specialize (Hf k (list_elem_of_here _ _)). cbn in Hf.
    unfold u16_incr, sat_add, u16_max in *. rewrite N.mod_small; lia. }
  rewrite E. apply IH. intros k Hk. specialize (Hf k (list_elem_of_further _ _ _ Hk)). cbn [length] in Hf. destruct m as [j|j]; cbn.
  - rewrite lookup_insert. case_decide as Hj; [subst j; cbn|lia]. unfold sat_add, u16_max in *. lia.
  - rewrite lookup_insert. case_decide; [cbn|]; lia.
Qed.

Lemma committed_instance_id t q : instance_id (committed_instance t q) = instance_id (next_snapshot t).
Proof. unfold committed_instance. by destruct (state_override t), q. Qed.

Lemma view_envelope_materialize t v i0 e0 rev id s0 r lease v' i e :
  coherent id v i0 e0 -> quarantine_state (next_snapshot t) = quarantine_state i0 ->
  joins_fit (v_joins v) (join_mutations t) ->
  i = committed_instance t (Some i0) -> v' = committed_view t i rev s0 r lease v -> e = view_envelope i rev v' ->
  e = materialize_snapshot (se_state e0) t CURRENT_ARTIFACT_ABI rev.
Proof.
  intros Hco Hq Hj -> -> ->. destruct Hco as [_ _ _ Hrows _ [Hfib Hinc] _]. rewrite Hrows.
  unfold view_envelope, materialize_snapshot, committed_view. cbn -[committed_instance collect_by btree_values].
  set (j := match state_override t with Some st => set_state st _ | None => _ end).
  assert (Hi : set_integrity_hash None (committed_instance t (Some i0)) = set_integrity_hash None j).
  { unfold committed_instance. subst j. rewrite <-Hq. by destruct (state_override t), (next_snapshot t). }
  assert (Hb : bytecode_version (committed_instance t (Some i0)) = bytecode_version j).
  { unfold committed_instance. subst j. by destruct (state_override t). }
  rewrite Hb. f_equal. unfold PersistedSnapshotState_new. rewrite Hi, <-joins_fit_fold by done.
  destruct (collect_upsert_incidents _ (incidents t) Hinc) as [-> _].
  rewrite collect_by_values.
  2: { apply (apply_fiber_deltas_keyed (v_fibers v) (fibers_upsert t) (fibers_delete t)). exact Hfib. }
  rewrite collect_by_values; [done|]. intros k x. rewrite foldl_insert_lookup.
  destruct (last _) as [y|] eqn:E.
  - intros [= ->]. by apply last_Some_elem_of, list_elem_of_filter in E as [? _].
  - apply collect_by_keyed.
Qed.

End aggregate.
