(* ===== verification/StoreTheorems.v ===== *)
(** * The in-memory store: correctness of claims and commits *)

From S2P Require Import Prelude RustStr Json Types Concurrency Platform Effects Transition Canonical KernelBase KernelApply Replay Identity CancelWalk KInvariants ReplayFacts MemStore StoreClaim StoreCommit StoreAggregate.

Section theorems.
Context {P : Platform} (chrono_valid : Z -> bool).

(** ** The checks of a commit *)

Lemma check_commit_inv claim t s :
  check_commit claim t s = Ok tt ->
  check_claim claim s = Ok tt ∧ inst_tenant_id (next_snapshot t) = cl_tenant_id claim ∧
  instance_id (next_snapshot t) = cl_instance_id claim ∧
  validate_mutations (stored_table (cl_instance_id claim) s) (concurrency_mutations t) = Ok tt.
Proof.
  unfold check_commit, check_identity. intros H. apply bind_ok_inv in H as ([] & Hc & H).
  apply bind_ok_inv in H as ([] & Hi & _).
  apply bind_ok_inv in Hi as ([] & [Ht%bool_decide_eq_true Hid%N.eqb_eq]%ensure_ok%andb_true_iff & Hm%map_err_ok).
  done.
Qed.

Lemma check_claim_present claim s i :
  st_instances s !! cl_instance_id claim = Some i ->
  is_start_commit claim s = false ∧
  (check_claim claim s = Ok tt ↔
     inst_tenant_id i = cl_tenant_id claim ∧ lease_fence (cl_instance_id claim) s = cl_fence claim ∧
     default 0%N (st_revisions s !! cl_instance_id claim) = cl_expected_revision claim).
Proof.
  intros Hi. assert (Hs : is_start_commit claim s = false) by (unfold is_start_commit; by rewrite Hi).
  split; [done|]. unfold check_claim. rewrite Hs, Hi. split.
  - intros H. apply bind_ok_inv in H as ([] & H1%ensure_ok%bool_decide_eq_true & H).
    apply bind_ok_inv in H as ([] & H2%ensure_ok%N.eqb_eq & H3%ensure_ok%N.eqb_eq). done.
  - intros (-> & -> & ->). by rewrite bool_decide_eq_true_2, !N.eqb_refl.
Qed.

(** ** Commits *)

(** The envelope of a commit is the kernel's. *)
Lemma commit_materialized claim t clock fresh s rev s' i0 e0 :
  let id := cl_instance_id claim in
  coherent id (view id s) i0 e0 -> starts_others id t ->
  quarantine_state (next_snapshot t) = quarantine_state i0 -> joins_fit (v_joins (view id s)) (join_mutations t) ->
  commit_transition chrono_valid claim t clock fresh s = (Ok (Committed rev), s') ->
  let e := materialize_snapshot (se_state e0) t CURRENT_ARTIFACT_ABI rev in
  let i := committed_instance t (Some i0) in
  rev = (se_revision e0 + 1)%N ∧ rev = (cl_expected_revision claim + 1)%N ∧
  (Z.of_N (se_revision e0) <= i64_max)%Z ∧ coherent id (view id s') i e ∧
  ∃ r, v_journal (view id s') = v_journal (view id s) ++ [r] ∧
    jr_prior_revision r = Z.of_N (se_revision e0) ∧ jr_new_revision r = rev ∧
    jr_command r = commit_command id t i rev ∧ jr_artifact_hash r = bytecode_version (next_snapshot t) ∧
    state_hash e0 = Ok (jr_prior_state_hash r) ∧ state_hash e = Ok (jr_state_hash r).
Proof.
  intros id Hco Hc Hq Hj H e i. assert (Hwf := co_wf _ _ _ _ Hco).
  assert (Hv := co_instance _ _ _ _ Hco). cbn in Hv.
  destruct (commit_view _ _ _ _ _ _ _ _ Hwf Hc H) as (e' & h & pr & lease & x & Hrev & Hck & Hh & Hpr & Hview & He').
  destruct (check_claim_present claim s i0 Hv) as [Hst _]. rewrite Hst in Hrev, Hpr. cbn in Hrev, Hpr.
  destruct (check_commit_inv _ _ _ Hck) as (Hcl & _ & Hid & _).
  apply (proj2 (check_claim_present claim (set_st_pending x s) i0 Hv)) in Hcl as (_ & _ & Hexp). cbn in Hexp.
  assert (Hr := co_revision _ _ _ _ Hco). cbn in Hr. fold id in Hexp. rewrite Hr in Hexp. cbn in Hexp.
  destruct Hpr as [-> Hbound].
  assert (Hn : rev = (cl_expected_revision claim + 1)%N).
  { rewrite Hrev. unfold u64_incr, i64_max, u64_max in *. rewrite N.mod_small; lia. }
  assert (Hvi := co_instance _ _ _ _ Hco). fold id in Hview, He'. rewrite Hvi in Hview, He'. fold i in Hview, He'. assert (Ee : e' = e) by (eapply view_envelope_materialize; eauto). rewrite Ee in Hview, He', Hh. clear Ee.
  set (r := JournalRecord_new _ _ _ _ _ _ _ _) in Hview.
  assert (Hbv : bytecode_version i = bytecode_version (next_snapshot t)).
  { subst i. unfold committed_instance. by destruct (state_override t). }
  assert (Hrv : se_revision e = rev) by done.
  split_and!; [by rewrite Hn, Hexp | done | by rewrite Hexp | |].
  - apply Build_coherent.
    + by rewrite Hview.
    + subst i. by rewrite committed_instance_id.
    + by rewrite Hview.
    + rewrite Hrv. exact He'.
    + by rewrite Hview, Hrv.
    + rewrite Hview. by apply (tables_view_wf t i).
    + exists r. rewrite Hview. cbn [v_journal committed_view]. by rewrite last_snoc, Hrv.
  - exists r. rewrite Hview. destruct (co_head _ _ _ _ Hco) as (r0 & _ & _ & _ & Hh0).
    assert (Hsn := co_snapshot _ _ _ _ Hco). cbn in Hsn. subst r. cbn. rewrite Hsn. cbn. rewrite Hh0. cbn.
    split_and!; try done. by rewrite Hexp.
Qed.


(** C35: whatever its outcome, a commit leaves every aggregate but the claimed one
    (and the children it starts) as it was: its instance, fibres, join counters,
    incidents, concurrency table, revision, envelope, journal and lease. *)
Theorem commit_touches_one_aggregate claim t clock fresh s id :
  cl_instance_id claim ≠ id -> starts_others id t ->
  view id (commit_transition chrono_valid claim t clock fresh s).2 = view id s.
Proof. intros Hid Hc. rewrite commit_transition_snd. by apply commit_run_keeps. Qed.


(** ** Claims *)

Lemma claim_integrity_coherent tenant id s i e :
  coherent id (view id s) i e -> inst_tenant_id i = tenant ->
  claim_integrity tenant id i (se_revision e) s = Ok tt.
Proof.
  intros Hco <-. destruct (co_head _ _ _ _ Hco) as (r & Hl & Hn & Ha & Hh).
  assert (Hs := co_snapshot _ _ _ _ Hco). cbn in Hs. unfold claim_integrity. rewrite Hs.
  assert (Hj : (records ← st_journals s !! id; last records) = Some r).
  { cbn in Hl. by destruct (st_journals s !! id). }
  rewrite Hj. cbn [ok_or mbind Result_bind]. assert (Ei : ps_instance (se_state e) = set_integrity_hash None i).
  { by rewrite (co_rows _ _ _ _ Hco). }
  rewrite Ei. cbn [instance_id inst_tenant_id bytecode_version set_integrity_hash]. rewrite (co_id _ _ _ _ Hco), Hn, Ha, !N.eqb_refl.
  rewrite !bool_decide_eq_true_2 by done. cbn. rewrite Hh. cbn. by rewrite bool_decide_eq_true_2.
Qed.

Definition leased_to_other (owner : string) (now : N) (id : N) (s : Store) : Prop :=
  ∃ o until fence token, st_transition_leases s !! id = Some (o, until, fence, token) ∧ o ≠ owner ∧ (now < until)%N.

Lemma coherent_lease id s i e l :
  coherent id (view id s) i e -> coherent id (view id (set_st_transition_leases l s)) i e.
Proof. intros [? ? ? ? ? ? ?]. by split. Qed.

Definition leased (id : N) (owner : string) (until fence : N) (token : string) (s : Store) : Store :=
  set_st_transition_leases (<[id := (owner, until, fence, token)]> (st_transition_leases s)) s.

Lemma claim_instance_coherent tenant id owner lease_ms clock fresh s i e :
  coherent id (view id s) i e -> inst_tenant_id i = tenant -> (lease_fence id s < u64_max)%N ->
  let run := claim_instance_for_transition tenant id owner lease_ms clock fresh s in
  (leased_to_other owner (ck_instant clock) id s ∧ run = (Ok None, s)) ∨
  (¬ leased_to_other owner (ck_instant clock) id s ∧ ∃ fence token,
   run = (Ok (Some (mkClaim tenant id (se_revision e) fence token)), leased id owner (ck_instant clock + lease_ms) fence token s)).
Proof.
  intros Hco Ht Hf run. assert (Hi := co_instance _ _ _ _ Hco). assert (Hr := co_revision _ _ _ _ Hco). cbn in Hi, Hr.
  subst run. unfold claim_instance_for_transition. rewrite Hi, Hr. change (default 0%N (Some (se_revision e))) with (se_revision e).
  rewrite bool_decide_eq_true_2 by done. cbn [negb]. rewrite (claim_integrity_coherent tenant id s i e Hco Ht).
  unfold lease_fence in Hf. cbv zeta. set (now := ck_instant clock).
  destruct (st_transition_leases s !! id) as [[[[o until] fence] token]|] eqn:El.
  - destruct (decide (o = owner)) as [->|Ho]; [rewrite bool_decide_eq_true_2 by done | rewrite bool_decide_eq_false_2 by done];
      cbn [negb andb].
    + right. split; [by intros (o & ? & ? & ? & E & ? & _); simplify_eq|].
      destruct (N.ltb_spec now until); cbn [negb andb]; [by eauto|]. destruct (N.leb_spec u64_max fence); [lia | by eauto].
    + destruct (N.ltb_spec now until) as [Hl|Hl]; cbn [negb andb].
      * left. split; [|done]. by exists o, until, fence, token.
      * right. split; [intros (? & ? & ? & ? & E & _ & ?); simplify_eq; lia|].
        destruct (N.leb_spec u64_max fence); [lia | by eauto].
  - right. split; [intros (? & ? & ? & ? & E & _); congruence|]. cbn [negb andb]. by eauto.
Qed.

(** What a lease on a coherent aggregate gives. *)
Lemma leased_coherent tenant id owner until fence token s i e :
  coherent id (view id s) i e -> inst_tenant_id i = tenant ->
  let claim := mkClaim tenant id (se_revision e) fence token in
  let s' := leased id owner until fence token s in
  load_snapshot_envelope tenant id s' = Some e ∧ coherent id (view id s') i e ∧ check_claim claim s' = Ok tt.
Proof.
  intros Hco Ht claim s'. assert (Hi := co_instance _ _ _ _ Hco). assert (Hr := co_revision _ _ _ _ Hco).
  assert (Hs := co_snapshot _ _ _ _ Hco). cbn in Hi, Hr, Hs. split_and!; [|by apply coherent_lease|].
  - unfold load_snapshot_envelope. cbn. rewrite Hs. cbn. rewrite (co_rows _ _ _ _ Hco). cbn.
    by rewrite bool_decide_eq_true_2.
  - apply (check_claim_present claim s' i Hi). split_and!; [done| |by cbn; rewrite Hr].
    unfold lease_fence. cbn. by rewrite lookup_insert_eq.
Qed.

(** Claiming a coherent aggregate.  While the lease of another owner is live
    nothing is handed out and nothing changes; otherwise the claim succeeds (short
    of fence overflow, never for integrity), it comes with the runtime form of the
    stored envelope and its revision, the rows stay as they were, the lease runs to
    the end of the term, and a commit under the claim passes the fence and revision
    checks. *)
Lemma claim_work_coherent tenant id owner lease_ms cmd clock fresh s i e :
  coherent id (view id s) i e -> inst_tenant_id i = tenant -> (lease_fence id s < u64_max)%N ->
  let run := claim_work_for_transition tenant id owner lease_ms cmd clock fresh s in
  (leased_to_other owner (ck_instant clock) id s ∧ run = (Ok None, s)) ∨
  (¬ leased_to_other owner (ck_instant clock) id s ∧ ∃ fence token,
   let claim := mkClaim tenant id (se_revision e) fence token in
   let s' := leased id owner (ck_instant clock + lease_ms) fence token s in
   run = (Ok (Some (mkClaimedWork claim (to_runtime_snapshot (se_state e)) cmd)), s') ∧
   coherent id (view id s') i e ∧ check_claim claim s' = Ok tt).
Proof.
  intros Hco Ht Hf run. subst run. unfold claim_work_for_transition.
  destruct (claim_instance_coherent tenant id owner lease_ms clock fresh s i e Hco Ht Hf) as [[H ->]|(H & fence & token & ->)];
    [by left|right]. split; [done|]. exists fence, token.
  edestruct (leased_coherent tenant id owner (ck_instant clock + lease_ms) fence token s i e Hco Ht) as (-> & ? & ?). done.
Qed.

(** ** Fences *)

(** The lease of the instance, if there is one, has run out. *)
Definition lease_ran_out (id : N) (now : N) (s : Store) : Prop :=
  match st_transition_leases s !! id with Some (_, until, _, _) => (until <= now)%N | None => True end.

Lemma claim_instance_takes tenant id owner lease_ms clock fresh s i e :
  coherent id (view id s) i e -> inst_tenant_id i = tenant -> (lease_fence id s < u64_max)%N ->
  lease_ran_out id (ck_instant clock) s ->
  let fence := (lease_fence id s + 1)%N in
  claim_instance_for_transition tenant id owner lease_ms clock fresh s =
  (Ok (Some (mkClaim tenant id (se_revision e) fence (show_uuid fresh))),
   leased id owner (ck_instant clock + lease_ms) fence (show_uuid fresh) s).
Proof.
  intros Hco Ht Hf Hover fence. assert (Hi := co_instance _ _ _ _ Hco). assert (Hr := co_revision _ _ _ _ Hco). cbn in Hi, Hr.
  unfold claim_instance_for_transition. rewrite Hi, Hr. change (default 0%N (Some (se_revision e))) with (se_revision e).
  rewrite bool_decide_eq_true_2 by done. cbn [negb]. rewrite (claim_integrity_coherent tenant id s i e Hco Ht).
  unfold lease_fence, lease_ran_out, leased in *. cbv zeta. subst fence.
  destruct (st_transition_leases s !! id) as [[[[o until] f] token]|]; [|done].
  destruct (N.ltb_spec (ck_instant clock) until); [lia|]. rewrite !andb_false_r. cbn [negb andb].
  destruct (N.leb_spec u64_max f); [lia|done].
Qed.

Lemma release_leased tenant id owner until fence token s i e :
  coherent id (view id s) i e -> inst_tenant_id i = tenant ->
  release_instance_transition tenant id token (leased id owner until fence token s) =
  set_st_transition_leases (delete id (st_transition_leases s)) s.
Proof.
  intros Hco Ht. assert (Hi := co_instance _ _ _ _ Hco). cbn in Hi. unfold release_instance_transition, owned. cbn. rewrite Hi.
  rewrite bool_decide_eq_true_2 by done. cbn. rewrite lookup_insert_eq, bool_decide_eq_true_2 by done. cbn. by rewrite delete_insert_eq.
Qed.

(** The fence of an instance is not monotonic: releasing a lease forgets it.
    Owner [a] claims, its lease runs out, [b] claims (at the next fence) and
    releases, [c] claims: [c] has the fence of [a], and while [c] holds the lease
    the claim of [a] passes the checks of a commit. *)
Lemma expired_claim_passes_fence tenant id a b c lease_a lease_b lease_c clock_a clock_b clock_c fresh_a fresh_b fresh_c s i e :
  coherent id (view id s) i e -> inst_tenant_id i = tenant -> st_transition_leases s !! id = None ->
  (ck_instant clock_a + lease_a <= ck_instant clock_b)%N ->
  ∃ claim_a claim_b claim_c s1 s2 s3,
    claim_instance_for_transition tenant id a lease_a clock_a fresh_a s = (Ok (Some claim_a), s1) ∧
    claim_instance_for_transition tenant id b lease_b clock_b fresh_b s1 = (Ok (Some claim_b), s2) ∧
    claim_instance_for_transition tenant id c lease_c clock_c fresh_c
      (release_instance_transition tenant id (cl_lease_token claim_b) s2) = (Ok (Some claim_c), s3) ∧
    cl_fence claim_b = (cl_fence claim_a + 1)%N ∧ cl_fence claim_c = cl_fence claim_a ∧ check_claim claim_a s3 = Ok tt.
Proof.
  intros Hco Ht Hl Hexp. assert (Hf : lease_fence id s = 0%N) by (unfold lease_fence; by rewrite Hl).
  do 6 eexists. split.
  { apply (claim_instance_takes tenant id a _ _ _ s i e Hco Ht); rewrite ?Hf; [done|]. unfold lease_ran_out. by rewrite Hl. }
  rewrite Hf. set (s1 := leased id a _ _ _ s). assert (Hco1 : coherent id (view id s1) i e) by (by apply coherent_lease).
  assert (Hl1 : st_transition_leases s1 !! id = Some (a, (ck_instant clock_a + lease_a)%N, 1%N, show_uuid fresh_a)).
  { cbn. apply lookup_insert_eq. }
  assert (Hf1 : lease_fence id s1 = 1%N) by (unfold lease_fence; by rewrite Hl1).
  split. { apply (claim_instance_takes tenant id b _ _ _ s1 i e Hco1 Ht); rewrite ?Hf1; [done|]. unfold lease_ran_out. by rewrite Hl1. }
  cbn [cl_lease_token]. rewrite (release_leased tenant id b _ _ _ s1 i e Hco1 Ht). set (s2 := set_st_transition_leases _ s1).
  assert (Hco2 : coherent id (view id s2) i e) by (by apply coherent_lease).
  assert (Hl2 : st_transition_leases s2 !! id = None) by (cbn; apply lookup_delete_eq).
  assert (Hf2 : lease_fence id s2 = 0%N) by (unfold lease_fence; by rewrite Hl2).
  split. { apply (claim_instance_takes tenant id c _ _ _ s2 i e Hco2 Ht); rewrite ?Hf2; [done|]. unfold lease_ran_out. by rewrite Hl2. }
  fold s1. fold s2. rewrite Hf1, Hf2. split_and!; [done..|].
  edestruct (leased_coherent tenant id c (ck_instant clock_c + lease_c) 1 (show_uuid fresh_c) s2 i e Hco2 Ht) as (_ & _ & Hck).
  exact Hck.
Qed.

End theorems.
