(* ===== verification/Engine.v ===== *)
(** * The engine

    The paths of [bpmn-lite-engine/src/engine.rs] that change an instance:
    starting, applying a command under a claim, job completion and failure,
    signals, cancellation, timers, effect dispatch and the tick loop, over the
    in-memory store.  An engine call runs without interleaving, so its
    single-flight guard is always free.  The artifact repository with its cache,
    the FFI dispatcher and the parser of UUIDs are fields of the engine; what a
    call reads from the clocks and draws as identifiers is its environment. *)

From Stdlib Require Import Strings.Ascii.
From S2P Require Import Prelude RustStr Json Types Concurrency Platform Effects Transition Bindings Canonical KernelBase KernelApply Replay MemStore StoreClaim StoreCommit.

(** ** The engine and its environment *)

Inductive FfiIncidentClass := FfiTransient | FfiContractViolation | FfiBusinessRejection (rejection_code : string).
Record FfiCall := mkFfiCall {
  fc_invocation_id : Uuid;
  fc_template_id : Hash;
  fc_tenant_id : string;
  fc_process_instance_id : Uuid;
  fc_caller_task_id : string;
  fc_input_payload : list Byte.byte;
}.
(** [FfiResult], and the error of [FfiDispatcher::dispatch] as it is displayed. *)
Inductive FfiReply :=
| ReplySuccess (output_payload : list Byte.byte) (new_domain_payload : option string)
| ReplyNoMatch
| ReplyIncident (error_class : FfiIncidentClass) (message : string)
| ReplyError (error : string).

Record Engine := mkEngine {
  en_tenant_id : string;
  en_transition_owner : string;
  en_transition_lease_ms : N;
  en_load_artifact : Hash -> option ExecutableWorkflow;
  en_ffi_dispatcher : option (FfiCall -> FfiReply);
  en_parse_uuid : string -> option Uuid;
}.
(** The logical time, the clocks and the fresh identifiers of a call. *)
Record Env := mkEnv { ev_time : Z; ev_clock : Clock; ev_fresh : nat -> Uuid }.

Inductive EngineError :=
| EngClaim (e : ClaimError)
| EngLeasedOrMissing
| EngNotFound
| EngArtifactMissing
| EngNegativeTime
| EngKernel (e : TransitionError)
| EngCommit (e : CommitError)
| EngStore (e : StoreError)
| EngInvalid (reason : string).

Definition Eng (A : Type) : Type := Store -> Result EngineError A * Store.
Global Instance Eng_ret : MRet Eng := λ A a s, (Ok a, s).
Global Instance Eng_bind : MBind Eng := λ A B f m s,
  match m s with
  | (Ok a, s') => f a s'
  | (Err e, s') => (Err e, s')
  end.
Definition eng_lift {A} (r : Result EngineError A) : Eng A := λ s, (r, s).
Definition eng_fail {A} (e : EngineError) : Eng A := λ s, (Err e, s).
Definition eng_gets {A} (f : Store -> A) : Eng A := λ s, (Ok (f s), s).
Definition eng_modify (f : Store -> Store) : Eng unit := λ s, (Ok tt, f s).
(** A store operation that returns a value and a store. *)
Definition eng_run {A} (f : Store -> A * Store) : Eng A := λ s, let '(a, s) := f s in (Ok a, s).
Fixpoint eng_for {A} (f : A -> Eng unit) (l : list A) : Eng unit :=
  match l with
  | [] => mret tt
  | x :: l' => f x ≫= λ _, eng_for f l'
  end.

Section engine.
Context {P : Platform} (chrono_valid : Z -> bool) (en : Engine).

Definition engine_time (env : Env) : Result EngineError N := ok_or EngNegativeTime (u64_try_from (ev_time env)).
Definition load_artifact_cached (hash : Hash) : Result EngineError ExecutableWorkflow :=
  ok_or EngArtifactMissing (en_load_artifact en hash).
(** [commit_transition] with its error wrapped; the fresh identifier is the second
    of the call. *)
Definition engine_commit (env : Env) (claim : Claim) (t : Transition) : Eng CommitOutcome := λ s,
  let '(r, s) := commit_transition chrono_valid claim t (ev_clock env) (ev_fresh env 1%nat) s in
  (map_err EngCommit r, s).

(** Claim, run a body, release the lease whatever the body returned. *)
Definition with_work {A} (env : Env) (id : Uuid) (owner : string) (command : Command) (body : ClaimedWork -> Eng A) : Eng A := λ s,
  match claim_work_for_transition (en_tenant_id en) id owner (en_transition_lease_ms en) command (ev_clock env)
          (ev_fresh env 0%nat) s with
  | (Err e, s) => (Err (EngClaim e), s)
  | (Ok None, s) => (Err EngLeasedOrMissing, s)
  | (Ok (Some work), s) =>
      let '(result, s) := body work s in
      (result, release_instance_transition (en_tenant_id en) id (cl_lease_token (cw_claim work)) s)
  end.

(** The context of the next revision. *)
Definition next_context (claim : Claim) (time : N) (command_id : Uuid) : DeterministicContext :=
  mkContext time command_id (sat_add u64_max (cl_expected_revision claim) 1).
Definition transition_id (id : Uuid) (claim : Claim) : EffectId :=
  for_transition id (sat_add u64_max (cl_expected_revision claim) 1) 0.

(** [apply_and_commit_command]. *)
Definition command_body (env : Env) (id : Uuid) (work : ClaimedWork) : Eng unit :=
  let claim := cw_claim work in
  let snapshot := cw_snapshot work in
  let instance := sn_instance snapshot in
  _ ← eng_lift (ensure (bool_decide (inst_tenant_id instance = en_tenant_id en)) EngNotFound);
  artifact ← eng_lift (load_artifact_cached (bytecode_version instance));
  time ← eng_lift (engine_time env);
  t ← eng_lift (map_err EngKernel
        (apply artifact snapshot (cw_command work) (next_context claim time (transition_id id claim))));
  _ ← engine_commit env claim t;
  mret tt.
Definition apply_and_commit_command (env : Env) (id : Uuid) (command : Command) : Eng unit :=
  with_work env id (en_transition_owner en) command (command_body env id).

(** ** Starting *)

(** The instance and the transition of a start. *)
Definition start_instance (c : StartCommand) (placeholders : option json) : ProcessInstance :=
  mkInstance (sc_instance_id c) (en_tenant_id en) (sc_process_key c) (sc_artifact_hash c) (sc_initial_payload c)
    (sc_initial_payload_hash c) (sc_session_stack c) ∅ ∅ ∅ PSRunning (sc_correlation_id c) (sc_entry_id c)
    (sc_runbook_id c) (sc_logical_time c) None None None None placeholders.
Definition start_transition (c : StartCommand) (placeholders : option json) : Transition :=
  let t := builder_new (start_instance c placeholders) in
  let t := b_upsert_fiber (Fiber_new (for_command (sc_idempotency_key c) 0 0) 0) t in
  let t := b_event (EvInstanceStarted (sc_instance_id c) (sc_artifact_hash c)) t in
  mkTransition (next_snapshot t) (fibers_upsert t) (fibers_delete t) (events t) (effects t)
    (effect_mutations t) (timer_mutations t) (jobs_enqueue t) (jobs_ack t) (job_mutations t)
    (tr_dedupe t) (incidents t) (join_mutations t) (buffered_messages t) (pending_invocations t)
    (pending_take t) (outbox t) (bus_submission_acks t) (state_override t) (child_starts t)
    (terminal_cleanup t) (Some c)
    (Some (CommandEnvelope_new (sc_idempotency_key c) (sc_logical_time c) (JStart c)))
    (concurrency_mutations t) (control_stack_deltas t).

(** [start_command]. *)
Definition start_command (env : Env) (c : StartCommand) : Eng Uuid :=
  _ ← eng_lift (ensure (bool_decide (sc_tenant_id c = en_tenant_id en))
        (EngInvalid "start command tenant does not match engine tenant"));
  _ ← eng_lift (load_artifact_cached (sc_artifact_hash c));
  existing ← eng_gets (lookup_start_instance (en_tenant_id en) (sc_idempotency_key c));
  match existing with
  | Some id => mret id
  | None =>
      payload ← eng_lift (ok_or (EngInvalid ("start command initial_payload is not valid JSON: " +:+ json_error (sc_initial_payload c)))
        (json_from_str (sc_initial_payload c)));
      let placeholders := match payload with JObject _ => Some payload | _ => None end in
      outcome ← engine_commit env (mkClaim (sc_tenant_id c) (sc_instance_id c) 0 0 "") (start_transition c placeholders);
      match outcome with
      | Committed _ => mret (sc_instance_id c)
      | IdempotentNoOp =>
          owner ← eng_gets (lookup_start_instance (en_tenant_id en) (sc_idempotency_key c));
          eng_lift (ok_or (EngInvalid "idempotent start committed without a durable owner") owner)
      end
  end.

(** ** Jobs *)

(** [rsplitn(2, ':')] and [splitn(2, ':')] of a string with a colon. *)
Fixpoint split_once (s : string) : option (string * string) :=
  match s with
  | "" => None
  | String c s' =>
      if Ascii.eqb c ":"%char then Some ("", s')
      else match split_once s' with Some (a, b) => Some (String c a, b) | None => None end
  end.
Fixpoint rsplit_once (s : string) : option (string * string) :=
  match s with
  | "" => None
  | String c s' =>
      match rsplit_once s' with
      | Some (a, b) => Some (String c a, b)
      | None => if Ascii.eqb c ":"%char then Some ("", s') else None
      end
  end.
(** [parse_job_key]. *)
Definition parse_job_key (key : string) : Result EngineError (Uuid * string * N) :=
  let invalid := EngInvalid ("Invalid job_key format: " +:+ key) in
  '(rest, _) ← ok_or invalid (rsplit_once key);
  '(rest, pc) ← ok_or invalid (rsplit_once rest);
  '(uuid, task) ← ok_or invalid (split_once rest);
  id ← ok_or (EngInvalid "Invalid UUID in job_key") (en_parse_uuid en uuid);
  pc ← ok_or (EngInvalid "Invalid pc in job_key") (parse_u32 pc);
  Ok (id, task, pc).

(** [complete_job_body]. *)
Definition complete_job_body (env : Env) (key payload : string) (expected_hash : Hash) (orch_flags : gmap string Value)
    (claim_identity : option (string * string)) : Eng unit :=
  '(id, _, _) ← eng_lift (parse_job_key key);
  with_work env id (en_transition_owner en) (CTick None) (λ work,
    let claim := cw_claim work in
    let instance := sn_instance (cw_snapshot work) in
    done ← eng_gets (dedupe_get key);
    match done with
    | Some _ => mret tt
    | None =>
        artifact ← eng_lift (load_artifact_cached (bytecode_version instance));
        let completion := {| jc_job_key := key; jc_domain_payload := payload;
          jc_expected_instance_payload_hash := expected_hash; jc_orch_flags := orch_flags;
          jc_worker_id := fst <$> claim_identity; jc_claim_token := snd <$> claim_identity |} in
        time ← eng_lift (engine_time env);
        t ← eng_lift (map_err EngKernel
              (apply artifact (cw_snapshot work) (CEffectCompleted (transition_id id claim) (EOJob completion))
                 (next_context claim time (transition_id id claim))));
        _ ← engine_commit env claim t;
        mret tt
    end).

(** The fast check of the two [*_with_claim] calls. *)
Definition check_job_claim (env : Env) (key worker token : string) : Eng unit :=
  _ ← eng_lift (ensure (negb (bool_decide (worker = "")) && negb (bool_decide (token = "")))
        (EngInvalid "worker_id and claim_token are required"));
  '(id, _, _) ← eng_lift (parse_job_key key);
  instance ← eng_gets (load_instance (en_tenant_id en) id);
  _ ← eng_lift (ok_or (EngInvalid ("Instance not found for job: " +:+ key)) instance);
  held ← eng_gets (validate_job_claim key worker token (ev_clock env));
  eng_lift (ensure held (EngInvalid "job claim does not match worker ownership")).
Definition complete_job (env : Env) (key payload : string) (expected_hash : Hash) (orch_flags : gmap string Value) : Eng unit :=
  complete_job_body env key payload expected_hash orch_flags None.
Definition complete_job_with_claim (env : Env) (key payload : string) (expected_hash : Hash) (orch_flags : gmap string Value)
    (worker token : string) : Eng unit :=
  _ ← check_job_claim env key worker token;
  complete_job_body env key payload expected_hash orch_flags (Some (worker, token)).

Definition fail_job (env : Env) (key : string) (error_class : ErrorClass) (message : string) : Eng unit :=
  '(id, _, pc) ← eng_lift (parse_job_key key);
  apply_and_commit_command env id (CEffectFailed (for_instruction id 0 pc) key error_class message None 0).
Definition fail_job_with_claim (env : Env) (key : string) (error_class : ErrorClass) (message worker token : string) : Eng unit :=
  _ ← check_job_claim env key worker token;
  '(id, _, pc) ← eng_lift (parse_job_key key);
  not_before ← eng_lift (if (ev_time env <? i64_max)%Z then Ok (ev_time env + 1)%Z
                         else Err (EngInvalid "retry timestamp overflow"));
  apply_and_commit_command env id (CEffectFailed (for_instruction id 0 pc) key error_class message
    (Some {| jr_worker_id := worker; jr_claim_token := token; jr_not_before_ms := not_before |}) 0).

(** [emit_job_claimed_events] and the activation calls. *)
Definition emit_job_claimed (env : Env) (j : JobActivation) : Eng unit :=
  match ja_claim_expires_at j with
  | Some expires => apply_and_commit_command env (ja_process_instance_id j) (CJobClaimed (ja_job_key j) (ja_worker_id j) expires)
  | None => mret tt
  end.
Definition activate_jobs_for_worker_with_lease (env : Env) (task_types : list string) (max : nat) (worker : string) (lease_ms : N)
  : Eng (list JobActivation) :=
  _ ← eng_lift (ensure (negb (bool_decide (worker = ""))) (EngInvalid "worker_id is required"));
  jobs ← eng_run (dequeue_jobs task_types max (en_tenant_id en) worker lease_ms (ev_clock env) (ev_fresh env));
  _ ← eng_for (emit_job_claimed env) jobs;
  mret jobs.

(** ** Signals and cancellation *)

Definition DEFAULT_MESSAGE_TTL_MS : N := 300000.
Definition DEFAULT_MESSAGE_CLAIM_MS : N := 30000.
Definition signal_with_value (env : Env) (id : Uuid) (name corr_key : string) (payload : option string) (payload_hash : option Hash)
    (msg_id : option string) : Eng unit :=
  msg_id ← eng_lift (match msg_id with
                     | Some m => if bool_decide (m = "") then Err (EngInvalid "msg_id is required for idempotent signal delivery") else Ok m
                     | None => Err (EngInvalid "msg_id is required for idempotent signal delivery")
                     end);
  apply_and_commit_command env id (CMessageDelivered msg_id name corr_key (as_bytes (default "" payload)) payload_hash
    (lease_end (ev_time env) DEFAULT_MESSAGE_TTL_MS)).
Definition cancel (env : Env) (id : Uuid) (reason : string) : Eng unit :=
  apply_and_commit_command env id (CCancel reason).

(** ** Timers *)

Inductive TimerFireOutcome := TimerApplied | TimerAlreadyConsumed | TimerStale.
Definition is_timer_fired (e : RuntimeEvent) : bool := match e with EvTimerFired _ _ _ => true | _ => false end.

(** [apply_timer_command_body]. *)
Definition timer_body (env : Env) (timer : ClaimedTimer) (fired_at : N) (work : ClaimedWork) : Eng TimerFireOutcome :=
  let claim := cw_claim work in
  artifact ← eng_lift (load_artifact_cached (bytecode_version (sn_instance (cw_snapshot work))));
  t ← eng_lift (map_err EngKernel
        (apply artifact (cw_snapshot work) (cw_command work) (next_context claim fired_at (ct_timer_id timer))));
  outcome ← engine_commit env claim t;
  mret (match outcome with
        | IdempotentNoOp => TimerAlreadyConsumed
        | Committed _ => if existsb is_timer_fired (events t) then TimerApplied else TimerStale
        end).
Definition fire_timer (env : Env) (timer : ClaimedTimer) (fired_at : N) (owner : string) : Eng TimerFireOutcome := λ s,
  match claim_work_for_transition (en_tenant_id en) (ct_instance_id timer) owner (en_transition_lease_ms en)
          (CTimerFired timer fired_at) (ev_clock env) (ev_fresh env 0%nat) s with
  | (Err e, s) => (Err (EngClaim e), s)
  | (Ok None, s) => (Err (EngInvalid "timer instance is leased or missing"), s)
  | (Ok (Some work), s) =>
      let '(result, s) := timer_body env timer fired_at work s in
      let s := release_instance_transition (en_tenant_id en) (ct_instance_id timer) (cl_lease_token (cw_claim work)) s in
      (result, match result with Ok _ => s | Err _ => release_timer_claim timer s end)
  end.
Definition apply_timer_command (env : Env) (timer : ClaimedTimer) (fired_at : N) (owner : string) : Eng TimerFireOutcome :=
  _ ← eng_lift (ensure (bool_decide (ct_tenant_id timer = en_tenant_id en))
        (EngInvalid "timer command tenant does not match engine tenant"));
  _ ← eng_lift (ensure (ct_due_at timer <=? fired_at)%N (EngInvalid "timer command fired before its durable due_at"));
  fire_timer env timer fired_at owner.

(** [tick_due_timers]; the [n]-th timer is applied in the [n]-th environment. *)
Fixpoint apply_timers (envs : nat -> Env) (owner : string) (time : N) (n : nat) (timers : list ClaimedTimer) (applied : N) : Eng N :=
  match timers with
  | [] => mret applied
  | timer :: timers' => λ s,
      match apply_timer_command (envs n) timer time owner s with
      | (Ok TimerApplied, s) => apply_timers envs owner time (S n) timers' (u32_incr applied) s
      | (Ok _, s) => apply_timers envs owner time (S n) timers' applied s
      | (Err e, s) => (Err e, release_timer_claim timer s)
      end
  end.
Definition tick_due_timers (envs : nat -> Env) (fresh : nat -> Uuid) (owner : string) (time : N) (limit : nat) (lease_ms : N) : Eng N :=
  timers ← eng_run (claim_due_timers (en_tenant_id en) owner time limit lease_ms fresh);
  apply_timers envs owner time 0 timers 0.

(** ** Effects *)

Definition ffi_incident_class_to_error_class (c : FfiIncidentClass) : ErrorClass :=
  match c with
  | FfiTransient => Transient
  | FfiContractViolation => ContractViolation
  | FfiBusinessRejection code => BusinessRejection code
  end.

Definition store_retry (effect : ClaimedEffect) (decision : RetryDecision) : Eng unit := λ s,
  let '(r, s) := schedule_effect_retry effect decision s in (map_err EngStore r, s).
(** [schedule_transient_effect]: no response when the retry was scheduled. *)
Definition schedule_transient_effect (effect : ClaimedEffect) (time : N) (message : string) : Eng (option EffectResponse) :=
  instance ← eng_gets (load_instance (ceff_tenant_id effect) (ceff_instance_id effect));
  instance ← eng_lift (ok_or (EngInvalid ("transient effect retry for unknown instance " +:+ show_uuid (ceff_instance_id effect)
    +:+ ": refusing to guess a policy")) instance);
  artifact ← eng_lift (ok_or EngArtifactMissing (en_load_artifact en (bytecode_version instance)));
  let policy := default_retry_policy (wf_metadata artifact) in
  _ ← eng_lift (ensure (ceff_policy_version effect =? rp_version policy)%N
        (EngInvalid ("effect retry policy version " +:+ show_N (ceff_policy_version effect) +:+ " is unavailable")));
  let decision := retry_decision policy (ceff_attempt effect) None Transient time (durable_effect_id (ceff_effect effect)) in
  match decision with
  | RetryAt _ _ => _ ← store_retry effect decision; mret None
  | RetryExhausted =>
      mret (Some (EffFailed Transient ("effect retry budget exhausted: " +:+ message) (sat_add u32_max (ceff_attempt effect) 1)))
  | RetryTerminal => mret (Some (EffFailed ContractViolation message (ceff_attempt effect)))
  end.

(** The response to one claimed invocation. *)
Definition invoke_effect (effect : ClaimedEffect) (time : N) (operation : string) (template_id : Hash) (input : list Byte.byte)
  : Eng (option EffectResponse) :=
  match en_ffi_dispatcher en with
  | None =>
      mret (Some (EffFailed ContractViolation
        "ExecFfi reached dispatcher boundary with no FfiDispatcher configured" (ceff_attempt effect)))
  | Some dispatch =>
      match dispatch (mkFfiCall (durable_effect_id (ceff_effect effect)) template_id (en_tenant_id en) (ceff_instance_id effect)
                        operation input) with
      | ReplySuccess output new_payload => mret (Some (FfiSuccess output new_payload))
      | ReplyNoMatch => mret (Some FfiNoMatch)
      | ReplyIncident class message =>
          match ffi_incident_class_to_error_class class with
          | Transient => schedule_transient_effect effect time message
          | other => mret (Some (EffFailed other message (ceff_attempt effect)))
          end
      | ReplyError error => schedule_transient_effect effect time ("FFI dispatch error: " +:+ error)
      end
  end.
Definition dispatch_effect (time : N) (effect : ClaimedEffect) : Eng unit :=
  match ceff_effect effect with
  | Invoke _ _ _ operation template_id input _ =>
      response ← invoke_effect effect time operation template_id input;
      match response with
      | Some r => _ ← eng_run (record_effect_response effect r); mret tt
      | None => mret tt
      end
  | ScheduleTimer _ _ _ _ _ => eng_modify (release_effect_claim effect)
  end.

(** The command a stored response becomes. *)
Definition response_command (p : PendingEffectResponse) : Result EngineError Command :=
  match per_effect p with
  | Invoke effect_id fiber_id pc _ _ _ _ =>
      Ok (match per_response p with
          | FfiSuccess output new_payload => CEffectCompleted effect_id (EOFfi fiber_id pc output new_payload false)
          | FfiNoMatch => CEffectCompleted effect_id (EOFfi fiber_id pc [] None true)
          | EffFailed error_class message attempt => CEffectFailed effect_id "" error_class message None attempt
          end)
  | ScheduleTimer _ _ _ _ _ => Err (EngInvalid "non-invocation effect produced an inbox response")
  end.
(** [apply_pending_effect_responses]. *)
Definition apply_pending_effect_responses (env : Env) (limit : nat) : Eng unit :=
  pending ← eng_gets (load_effect_responses (en_tenant_id en) limit);
  eng_for (λ p,
    command ← eng_lift (response_command p);
    apply_and_commit_command env (per_instance_id p) command) pending.
(** [dispatch_pending_effects]. *)
Definition dispatch_pending_effects (env : Env) (owner : string) (limit : nat) (lease_ms : N) : Eng unit :=
  time ← eng_lift (engine_time env);
  claimed ← eng_run (claim_pending_effects (en_tenant_id en) owner time limit lease_ms (ev_fresh env));
  _ ← eng_for (dispatch_effect time) claimed;
  apply_pending_effect_responses env limit.

(** ** The tick loop *)

(** The buffered message a waiting fibre claims, if its key resolves. *)
Definition claim_for_fiber (env : Env) (w : ExecutableWorkflow) (i : ProcessInstance) (n : nat) (f : Fiber)
  : Eng (list ClaimedBufferedMessage) :=
  match wf_instructions w !! addr_index (fiber_pc f), v2_corr_sources (wf_metadata w) !! fiber_pc f with
  | Some (IV2WaitMsg name), Some source =>
      match resolve_correlation_key i source with
      | Ok key =>
          let message_name := default (show_N name) (message_name_map (wf_metadata w) !! name) in
          found ← eng_run (claim_buffered_message (inst_tenant_id i) message_name key DEFAULT_MESSAGE_CLAIM_MS (ev_clock env)
                    (ev_fresh env (2 + n)%nat));
          mret (option_list found)
      | Err _ => mret []
      end
  | _, _ => mret []
  end.
Fixpoint claim_for_fibers (env : Env) (w : ExecutableWorkflow) (i : ProcessInstance) (n : nat) (l : list Fiber)
  : Eng (list ClaimedBufferedMessage) :=
  match l with
  | [] => mret []
  | f :: l' =>
      here ← claim_for_fiber env w i n f;
      rest ← claim_for_fibers env w i (S n) l';
      mret (here ++ rest)
  end.
(** One turn of [tick_instance_inner]'s loop under the lease: whether it committed. *)
Definition tick_body (env : Env) (id : Uuid) (work : ClaimedWork) : Eng bool :=
  let claim := cw_claim work in
  let snapshot := cw_snapshot work in
  let instance := sn_instance snapshot in
  if negb (is_running instance) then mret false
  else
    artifact ← eng_lift (load_artifact_cached (bytecode_version instance));
    let running := List.filter (λ f, bool_decide (fiber_wait f = WRunning)) (btree_values (sn_fibers snapshot)) in
    match running with
    | [] => mret false
    | _ =>
        buffered ← claim_for_fibers env artifact instance 0 running;
        time ← eng_lift (engine_time env);
        t ← eng_lift (map_err EngKernel
              (apply artifact (with_buffered_messages buffered snapshot) (cw_command work)
                 (next_context claim time (transition_id id claim))));
        _ ← engine_commit env claim t;
        mret true
    end.
Definition MAX_BYTECODE_INSTRUCTIONS : nat := N.to_nat 10000.
(** The loop; the [n]-th turn runs in the [n]-th environment. *)
Fixpoint tick_turns (envs : nat -> Env) (id : Uuid) (owner : string) (fuel n : nat) : Eng unit :=
  match fuel with
  | O => eng_fail (EngInvalid ("instance " +:+ show_uuid id +:+ " exceeded transition scheduling bound"))
  | S fuel' =>
      committed ← with_work (envs n) id owner (CTick None) (tick_body (envs n) id);
      if (committed : bool)
      then _ ← dispatch_pending_effects (envs n) owner 32 (en_transition_lease_ms en);
           tick_turns envs id owner fuel' (S n)
      else mret tt
  end.
(** [tick_instance_inner]. *)
Definition tick_instance_inner (envs : nat -> Env) (id : Uuid) (owner : string) : Eng unit :=
  tick_turns envs id owner MAX_BYTECODE_INSTRUCTIONS 0.

(** ** Recovery *)

Definition quarantine_transition (env : Env) (id : Uuid) (claim : Claim) (i : ProcessInstance) : Transition :=
  with_command_envelope
    (CommandEnvelope_new (for_transition id (sat_add u64_max (cl_expected_revision claim) 1) u32_max) (ev_time env)
       (JAdministrative "recovery_quarantine"))
    (builder_new (set_quarantine_state (Some "recovery_invariant_failure") i)).
(** The check of one instance in [recover_all_tenants]: [false] when a peer holds
    it.  An aggregate that fails the check is committed as quarantined. *)
Definition recover_verify (id : Uuid) (snapshot : Snapshot) : Result EngineError unit :=
  artifact ← load_artifact_cached (bytecode_version (sn_instance snapshot));
  _ ← ensure (wf_abi_version artifact =? CURRENT_ARTIFACT_ABI)%N
        (EngInvalid ("recovery artifact ABI mismatch: " +:+ show_uuid id));
  ensure (negb (bool_decide (sn_fibers snapshot = ∅))) (EngInvalid ("recovery fibers are missing: " +:+ show_uuid id)).
Definition recover_body (env : Env) (tenant : string) (id : Uuid) (work : ClaimedWork) : Eng bool :=
  let claim := cw_claim work in
  let release := eng_modify (release_instance_transition tenant id (cl_lease_token claim)) in
  match recover_verify id (cw_snapshot work) with
  | Ok _ => _ ← release; mret true
  | Err e =>
      _ ← engine_commit env claim (quarantine_transition env id claim (sn_instance (cw_snapshot work)));
      _ ← release;
      eng_fail e
  end.
Definition recover_instance (env : Env) (tenant : string) (id : Uuid) (owner : string) (lease_ms : N) : Eng bool := λ s,
  match claim_work_for_transition tenant id owner lease_ms (CTick None) (ev_clock env) (ev_fresh env 0%nat) s with
  | (Err e, s) => (Err (EngClaim e), s)
  | (Ok None, s) => (Ok false, s)
  | (Ok (Some work), s) => recover_body env tenant id work s
  end.

End engine.
