(* ===== verification/EngineTheorems.v ===== *)
(** * The engine over the in-memory store

    A command the engine applies successfully extends the journal by a record
    that replays to the envelope it stored; a start makes an aggregate in which
    rows, envelope and journal agree, once per idempotency key; the lease is
    given back. *)

From S2P Require Import Prelude RustStr Json Types Concurrency Platform Effects Transition Bindings Canonical KernelBase KernelApply Replay Identity CancelWalk KInvariants RingFacts ReplayFacts MemStore StoreClaim StoreCommit StoreAggregate StoreTheorems Engine.

Section engine_theorems.
Context {P : Platform} (chrono_valid : Z -> bool) (en : Engine).

Lemma eng_bind_inv {A B} (m : Eng A) (f : A -> Eng B) s b s'' :
  (m ≫= f) s = (Ok b, s'') -> ∃ a s', m s = (Ok a, s') ∧ f a s' = (Ok b, s'').
Proof. unfold mbind, Eng_bind. destruct (m s) as [[a|e] s'] eqn:E; [|done]. eauto. Qed.

Lemma eng_lift_inv {A} (r : Result EngineError A) s a s' : eng_lift r s = (Ok a, s') -> r = Ok a ∧ s' = s.
Proof. by intros [= -> ->]. Qed.

(** ** Kernel transitions *)

(** The artifact the engine runs an instance with, at the ABI the store writes. *)
Definition serves (w : ExecutableWorkflow) (i : ProcessInstance) : Prop :=
  wf_hash w = bytecode_version i ∧ wf_abi_version w = CURRENT_ARTIFACT_ABI ∧
  inst_tenant_id i = en_tenant_id en ∧ en_load_artifact en (wf_hash w) = Some w.

(** A committed kernel transition is a record of the journal that replays. *)
Lemma kernel_commit_replays w id tenant fence token time cid cmd t s rev s' clock fresh i e :
  let claim := mkClaim tenant id (se_revision e) fence token in
  coherent id (view id s) i e -> serves w i ->
  apply w (to_runtime_snapshot (se_state e)) cmd (next_context claim time cid) = Ok t ->
  commit_transition chrono_valid claim t clock fresh s = (Ok (Committed rev), s') ->
  ∃ i' r e', coherent id (view id s') i' e' ∧ serves w i' ∧ v_journal (view id s') = v_journal (view id s) ++ [r] ∧
    record_step w r e e'.
Proof.
  intros claim Hco (Hw & Habi & Ht & Hload) Ha Hc.
  assert (Hj : joins_fit (v_joins (view id s)) (join_mutations t)) by (rewrite (apply_quiet w _ _ _ _ Ha); apply joins_fit_nil).
  destruct (apply_kept w _ _ _ _ Ha) as [Hid (_ & _ & Hch & Hsd & Hso)]. unfold same in Hid.
  assert (Hps : ps_instance (se_state e) = set_integrity_hash None i) by (by rewrite (co_rows _ _ _ _ Hco)).
  assert (Hq : quarantine_state (next_snapshot t) = quarantine_state i).
  { apply (f_equal id_quarantine) in Hid. cbn in Hid. rewrite Hid. cbn. by rewrite Hps. }
  assert (Hb : bytecode_version (next_snapshot t) = bytecode_version i).
  { apply (f_equal id_bytecode) in Hid. cbn in Hid. rewrite Hid. cbn. by rewrite Hps. }
  assert (Hso' : starts_others id t) by (intros c; rewrite Hch; by intros ?%not_elem_of_nil).
  destruct (commit_materialized chrono_valid claim t clock fresh s rev s' i e Hco Hso' Hq Hj Hc)
    as (Hrev & Hrev2 & Hbound & Hco' & r & Hjr & Hp & Hn & Hcmd & Hah & _ & Hh).
  set (e' := materialize_snapshot _ _ _ _) in *.
  exists (committed_instance t (Some i)), r, e'. split; [done|].
  assert (Hbi : bytecode_version (committed_instance t (Some i)) = bytecode_version i).
  { unfold committed_instance. by rewrite Hso. }
  assert (Hti : inst_tenant_id (committed_instance t (Some i)) = inst_tenant_id i).
  { unfold committed_instance. rewrite Hso. cbn. apply (f_equal id_tenant) in Hid. cbn in Hid. rewrite Hid. cbn. by rewrite Hps. }
  split; [unfold serves; by rewrite Hbi, Hti|]. split; [done|].
  destruct (apply_ok_inv w _ _ _ _ Ha) as (t0 & logical & _ & _ & _ & Hl & Et).
  assert (Hce : jr_command r = CommandEnvelope_new cid (Z.of_N time) (JKernel cmd)).
  { rewrite Hcmd, Et. cbn in Hl. by apply i64_try_from_Some in Hl as [_ ->]. }
  eapply (record_step_intro w r e e' cmd time t); rewrite ?Hce; try done.
  - by rewrite Hah, Hb, Hw.
  - by rewrite Hn.
  - unfold e'. rewrite <-Habi, Hrev. apply kernel_step_intro; [done|].
    unfold next_context in Ha. cbn in Ha. by rewrite next_revision_exact in Ha.
Qed.

(** ** Commands *)

Lemma release_view tenant id token s :
  ∃ l, release_instance_transition tenant id token s = set_st_transition_leases l s.
Proof.
  unfold release_instance_transition. destruct (_ && _); eauto. exists (st_transition_leases s). by destruct s.
Qed.

(** The holder of the token gives the lease back. *)
Lemma release_lease tenant id owner until fence token s s' :
  leases_shrink (leased id owner until fence token s) s' -> owned tenant id s' = true ->
  st_transition_leases (release_instance_transition tenant id token s') !! id = None.
Proof.
  intros Hs Ho. unfold release_instance_transition. rewrite Ho. specialize (Hs id). cbn in Hs. rewrite lookup_insert_eq in Hs.
  destruct Hs as [E|E]; rewrite E; cbn; [|exact E]. rewrite bool_decide_eq_true_2 by done. cbn. apply lookup_delete_eq.
Qed.

(** What a successful command leaves of a coherent aggregate. *)
Definition advanced (w : ExecutableWorkflow) (id : N) (s s' : Store) (e : SnapshotEnvelope) : Prop :=
  ∃ i' e' tail, coherent id (view id s') i' e' ∧ serves w i' ∧ v_journal (view id s') = v_journal (view id s) ++ tail ∧
    journal_run w e tail e'.

(** The body under the lease, when it succeeds. *)
Lemma command_body_replays w env id cmd s s' i e fence token :
  let claim := mkClaim (en_tenant_id en) id (se_revision e) fence token in
  coherent id (view id s) i e -> serves w i ->
  command_body chrono_valid en env id (mkClaimedWork claim (to_runtime_snapshot (se_state e)) cmd) s = (Ok tt, s') ->
  advanced w id s s' e ∧ leases_shrink s s'.
Proof.
  intros claim Hco Hsv H. destruct (Hsv) as (Hw & _ & _ & Hload). unfold command_body in H. cbv zeta in H. cbn [cw_claim cw_snapshot cw_command] in H.
  assert (Hps : ps_instance (se_state e) = set_integrity_hash None i) by (by rewrite (co_rows _ _ _ _ Hco)).
  change (sn_instance (to_runtime_snapshot (se_state e))) with (ps_instance (se_state e)) in H. rewrite Hps in H.
  apply eng_bind_inv in H as ([] & s1 & [_ ->]%eng_lift_inv & H).
  apply eng_bind_inv in H as (w' & s1 & [Hw' ->]%eng_lift_inv & H). unfold load_artifact_cached in Hw'. cbn in Hw'.
  rewrite <-Hw, Hload in Hw'. injection Hw' as <-. apply eng_bind_inv in H as (time & s1 & [_ ->]%eng_lift_inv & H).
  apply eng_bind_inv in H as (t & s1 & [Ha%map_err_ok ->]%eng_lift_inv & H).
  apply eng_bind_inv in H as (o & s1 & Hc & [= <-]). unfold engine_commit in Hc.
  pose proof (commit_leases chrono_valid claim t (ev_clock env) (ev_fresh env 1) s) as Hl.
  destruct (commit_transition _ _ _ _ _ s) as [r s2] eqn:Ec. injection Hc as Hr <-. apply map_err_ok in Hr as ->.
  split; [|exact Hl]. destruct (apply_kept w _ _ _ _ Ha) as [_ (Hp1 & Hp2 & _)]. destruct o as [rev|].
  - edestruct kernel_commit_replays as (i' & r & e' & H1 & H2 & H3 & H4); [exact Hco|exact Hsv|exact Ha|exact Ec|].
    exists i', e', [r]. split_and!; try done. econstructor; [done|constructor].
  - apply commit_noop in Ec as [-> _]; [|done|done]. exists i, e, []. rewrite app_nil_r. split_and!; try done. constructor.
Qed.

(** A command the engine applied to a coherent aggregate. *)
Lemma engine_command_run w env id cmd s s' i e :
  coherent id (view id s) i e -> serves w i -> (lease_fence id s < u64_max)%N ->
  apply_and_commit_command chrono_valid en env id cmd s = (Ok tt, s') ->
  advanced w id s s' e ∧ st_transition_leases s' !! id = None.
Proof.
  intros Hco Hsv Hf H. destruct (Hsv) as (_ & _ & Ht & _).
  unfold apply_and_commit_command, with_work, claim_work_for_transition in H.
  edestruct (claim_instance_coherent (en_tenant_id en) id (en_transition_owner en) (en_transition_lease_ms en) (ev_clock env)
    (ev_fresh env 0) s i e Hco Ht Hf) as [[_ E]|(_ & fence & token & E)]; rewrite E in H; [done|].
  edestruct (leased_coherent (en_tenant_id en) id (en_transition_owner en) (ck_instant (ev_clock env) + en_transition_lease_ms en)
    fence token s i e Hco Ht) as (El & Hco1 & _). rewrite El in H.
  destruct (command_body _ _ _ _ _ _) as [r s2] eqn:Eb. injection H as -> <-.
  apply (command_body_replays w _ _ _ _ _ i) in Eb as [(i' & e' & tail & H1 & H2 & H3 & H4) Hl]; [|done..]. split.
  - edestruct (release_view (en_tenant_id en) id) as [l ->]. exists i', e', tail. split; [by apply coherent_lease|]. done.
  - eapply release_lease; [exact Hl|]. unfold owned. assert (Hi := co_instance _ _ _ _ H1). cbn in Hi. rewrite Hi.
    destruct H2 as (_ & _ & H2 & _). by rewrite bool_decide_eq_true_2.
Qed.

(** ** Runs *)

(** A run of the engine seen from one instance: commands the engine applies to it
    successfully, between steps that leave its rows alone. *)
Inductive engine_run (id : N) : Store -> Store -> Prop :=
| run_done s : engine_run id s s
| run_command env cmd s s1 s2 :
    apply_and_commit_command chrono_valid en env id cmd s = (Ok tt, s1) ->
    engine_run id s1 s2 -> engine_run id s s2
| run_elsewhere s s1 s2 : view id s1 = view id s -> engine_run id s1 s2 -> engine_run id s s2.


(** ** Starts *)

Lemma engine_commit_inv env claim t s o s' :
  engine_commit chrono_valid env claim t s = (Ok o, s') ->
  commit_transition chrono_valid claim t (ev_clock env) (ev_fresh env 1) s = (Ok o, s').
Proof.
  unfold engine_commit. destruct (commit_transition _ _ _ _ _ s) as [r s2]. intros [= Hr <-]. by apply map_err_ok in Hr as ->.
Qed.

Definition start_claim (c : StartCommand) : Claim := mkClaim (sc_tenant_id c) (sc_instance_id c) 0 0 "".

(** The two ways a start returns an id. *)
Lemma start_command_inv env c s id s' :
  start_command chrono_valid en env c s = (Ok id, s') ->
  sc_tenant_id c = en_tenant_id en ∧ (∃ w, en_load_artifact en (sc_artifact_hash c) = Some w) ∧
  ((lookup_start_instance (en_tenant_id en) (sc_idempotency_key c) s = Some id ∧ s' = s) ∨
   (lookup_start_instance (en_tenant_id en) (sc_idempotency_key c) s = None ∧ id = sc_instance_id c ∧
    ∃ placeholders rev, commit_transition chrono_valid (start_claim c) (start_transition en c placeholders)
      (ev_clock env) (ev_fresh env 1) s = (Ok (Committed rev), s'))).
Proof.
  unfold start_command. intros H.
  apply eng_bind_inv in H as ([] & s1 & [Ht%ensure_ok%bool_decide_eq_true ->]%eng_lift_inv & H).
  apply eng_bind_inv in H as (w & s1 & [Hw%ok_or_ok ->]%eng_lift_inv & H).
  split; [done|]. split; [by eauto|]. apply eng_bind_inv in H as (ex & s1 & [= <- <-] & H).
  destruct (lookup_start_instance _ _ s) as [id0|] eqn:El; [left; by injection H as <- <-|].
  right. split; [done|]. apply eng_bind_inv in H as (payload & s1 & [_ ->]%eng_lift_inv & H). cbv zeta in H.
  apply eng_bind_inv in H as (o & s1 & Hc%engine_commit_inv & H). destruct o as [rev|].
  - injection H as <- <-. split; [done|]. by eauto.
  - exfalso. apply commit_noop in Hc as [-> _]; [|done|done].
    apply eng_bind_inv in H as (o & s1 & [= <- <-] & H). by rewrite El in H.
Qed.

(** Once a start has returned an id, every later start under the same tenant and
    key (whatever else it asks for, of any known artifact) returns that id and
    changes nothing. *)
Lemma start_again env c s id s' env2 c2 :
  start_command chrono_valid en env c s = (Ok id, s') ->
  sc_tenant_id c2 = sc_tenant_id c -> sc_idempotency_key c2 = sc_idempotency_key c ->
  is_Some (en_load_artifact en (sc_artifact_hash c2)) ->
  start_command chrono_valid en env2 c2 s' = (Ok id, s').
Proof.
  intros (Ht & _ & H)%start_command_inv Ht2 Hk2 [w2 Hw2].
  assert (Hl : lookup_start_instance (en_tenant_id en) (sc_idempotency_key c) s' = Some id).
  { destruct H as [[H ->]|(_ & -> & ph & rev & Hc)]; [done|]. unfold lookup_start_instance. rewrite <-Ht.
    by eapply (commit_starts chrono_valid (start_claim c) (start_transition en c ph)). }
  unfold start_command, mbind, Eng_bind, eng_lift, eng_gets. rewrite Ht2, Ht, bool_decide_eq_true_2 by done. cbn [ensure].
  unfold load_artifact_cached. rewrite Hw2. cbn [ok_or]. by rewrite Hk2, Hl.
Qed.

(** No rows. *)
Definition no_rows : View := mkView None ∅ ∅ [] ∅ None None [] None.

(** The aggregate of a start. *)
Lemma start_coherent env c s id s' :
  start_command chrono_valid en env c s = (Ok id, s') ->
  lookup_start_instance (en_tenant_id en) (sc_idempotency_key c) s = None -> view (sc_instance_id c) s = no_rows ->
  id = sc_instance_id c ∧ ∃ i e r, coherent id (view id s') i e ∧ se_revision e = 0%N ∧
    bytecode_version i = sc_artifact_hash c ∧ inst_state i = PSRunning ∧ domain_payload i = sc_initial_payload c ∧
    ps_fibers (se_state e) = {[ for_command (sc_idempotency_key c) 0 0 := Fiber_new (for_command (sc_idempotency_key c) 0 0) 0 ]} ∧
    v_journal (view id s') = [r] ∧ ce_command (jr_command r) = JStart c ∧ jr_prior_revision r = (-1)%Z ∧
    lookup_start_instance (en_tenant_id en) (sc_idempotency_key c) s' = Some id.
Proof.
  intros (Ht & _ & H)%start_command_inv Hl Hv. destruct H as [[? _]|(_ & -> & ph & rev & Hc)]; [congruence|].
  split; [done|]. set (t := start_transition en c ph) in *.
  assert (Hi : st_instances s !! sc_instance_id c = None) by exact (f_equal v_instance Hv).
  assert (Hst : is_start_commit (start_claim c) s = true) by (unfold is_start_commit; cbn; by rewrite Hi).
  destruct (commit_view chrono_valid (start_claim c) t (ev_clock env) (ev_fresh env 1) s rev s') as (e & h & pr & lease & x & Hrev & _ & Hh & Hpr & Hview & He);
    [cbn; rewrite Hv; split; [done|constructor]|by intros ? ?%not_elem_of_nil|done|].
  rewrite Hst in Hrev, Hpr. cbn in Hrev. subst rev pr. change (cl_instance_id (start_claim c)) with (sc_instance_id c) in *.
  rewrite Hv in Hview, He. set (r := JournalRecord_new _ _ _ _ _ _ _ _) in Hview. set (i := committed_instance t _) in *.
  exists i, e, r. assert (Her : se_revision e = 0%N) by (by rewrite He). split_and!; try done.
  - apply Build_coherent; rewrite ?Hview; try done.
    + rewrite Her, <-Hview. exact He.
    + by rewrite Her.
    + apply (tables_view_wf t i). split; [done|constructor].
    + exists r. cbn. by rewrite Her.
  - rewrite He, Hview. done.
  - by rewrite Hview.
  - rewrite <-Ht. by apply (commit_starts chrono_valid (start_claim c) t (ev_clock env) (ev_fresh env 1) s 0 s').
Qed.


End engine_theorems.
