(* ===== verification/StoreInvariants.v ===== *)
(** * Invariants of the store

    The journals and the activation queue under every operation, and what becomes
    of a quarantine.

    A world is a store with the claims it has handed out.  Whatever sequence of
    operations runs (claims, releases, commits that succeed or fail half-way,
    queue operations), each journal stays a chain: consecutive revisions, each
    record naming the revision and the state hash of the one before it, the stored
    envelope being the state of the last. *)

From S2P Require Import Prelude RustStr Json Types Concurrency Platform Effects Transition Canonical KernelBase KernelApply Replay Identity CancelWalk KInvariants ReplayFacts MemStore StoreClaim StoreCommit StoreAggregate StoreTheorems Engine.

Section journal.
Context {P : Platform} (chrono_valid : Z -> bool).

(** ** What a commit does to revision, envelope and journal *)

Definition head_of (id : N) (s : Store) : option N * option SnapshotEnvelope * list JournalRecord :=
  (st_revisions s !! id, st_snapshots s !! id, default [] (st_journals s !! id)).

Lemma write_rows_frame {X} (p : Store -> X) claim t clock :
  child_starts t = [] ->
  (∀ s s', st_instances s' = st_instances s -> st_revisions s' = st_revisions s -> st_snapshots s' = st_snapshots s ->
     st_journals s' = st_journals s -> p s' = p s) ->
  keeps p (write_rows claim t clock).
Proof.
  intros Hch Hp. unfold write_rows. cbv zeta. rewrite Hch.
  repeat (apply keeps_bind; [|intros _]); try apply keeps_modify; try intros s1.
  all: try (apply foldl_keeps; intros s2 x); try (by apply Hp); try apply keeps_ret.
  all: try solve [unfold enqueue_job; destruct (_ || _); by apply Hp | unfold write_outbox; destruct (st_outbox _ !! _); by apply Hp
    | destruct x; by apply Hp
    | unfold terminal_clean; destruct (delete_all_fibers _), (delete_all_joins _), (cancel_jobs _); by apply Hp].
  all: try solve [apply keeps_for_each; intros; apply job_mutation_keeps; intros; by apply Hp
                 | apply keeps_for_each; intros; apply write_effect_keeps; intros; by apply Hp
                 | apply keeps_for_each; intros; apply effect_mutation_keeps; intros; by apply Hp].
Qed.

(** The instance row is there once the tables are written, and stays. *)
Definition instances_grow (s s' : Store) : Prop := ∀ id, is_Some (st_instances s !! id) -> is_Some (st_instances s' !! id).

Lemma write_tables_grow claim t i clock s :
  child_starts t = [] ->
  let s' := (write_tables claim t i clock s).2 in
  (∀ id, head_of id s' = head_of id s) ∧ instances_grow s s' ∧ is_Some (st_instances s' !! cl_instance_id claim).
Proof.
  intros Hch s'. set (id0 := cl_instance_id claim).
  assert (Hi : st_instances s' = <[id0 := i]> (st_instances s) ∧ ∀ id, head_of id s' = head_of id s).
  { assert (Hwi : ∃ s1, write_instance claim t i s = (Ok tt, s1) ∧ st_instances s1 = <[id0 := i]> (st_instances s) ∧
      ∀ id, head_of id s1 = head_of id s).
    { unfold write_instance. cbv zeta. destruct (start_dedupe t); eexists; (split; [reflexivity|done]). }
    destruct Hwi as (s1 & E0 & E1 & E2). subst s'. unfold write_tables. rewrite (run_bind_ok _ _ _ _ _ E0).
    split; [|intros id; rewrite <-E2].
    - rewrite <-E1. by apply (write_rows_frame st_instances).
    - apply (write_rows_frame (head_of id)); [done|]. intros s2 s3 _ H1 H2 H3. unfold head_of. by rewrite H1, H2, H3. }
  destruct Hi as [Hi Hh]. split_and!; [done| |].
  - intros id [x Hx]. rewrite Hi, lookup_insert. case_decide; eauto.
  - rewrite Hi, lookup_insert_eq. eauto.
Qed.

(** The outcomes of a commit: nothing; the revision written and no journal record
    (the envelope could not be hashed); the whole. *)
Inductive commit_effect (claim : Claim) (t : Transition) (s s' : Store) : Prop :=
| effect_none :
    (∀ id, head_of id s' = head_of id s) -> commit_effect claim t s s'
| effect_revision :
    check_claim claim s = Ok tt -> is_Some (st_instances s' !! cl_instance_id claim) ->
    (∀ id, id ≠ cl_instance_id claim -> head_of id s' = head_of id s) ->
    (let '(_, e, l) := head_of (cl_instance_id claim) s in
     head_of (cl_instance_id claim) s' = (Some (next_revision_of claim (is_start_commit claim s)), e, l)) ->
    commit_effect claim t s s'
| effect_commit e r :
    check_claim claim s = Ok tt -> is_Some (st_instances s' !! cl_instance_id claim) ->
    (∀ id, id ≠ cl_instance_id claim -> head_of id s' = head_of id s) ->
    (let '(_, _, l) := head_of (cl_instance_id claim) s in
     head_of (cl_instance_id claim) s' = (Some (next_revision_of claim (is_start_commit claim s)), Some e, l ++ [r])) ->
    se_revision e = next_revision_of claim (is_start_commit claim s) ->
    jr_new_revision r = next_revision_of claim (is_start_commit claim s) -> state_hash e = Ok (jr_state_hash r) ->
    jr_prior_state_hash r = prior_hash (cl_instance_id claim) s ->
    (if is_start_commit claim s then jr_prior_revision r = (-1)%Z
     else jr_prior_revision r = Z.of_N (cl_expected_revision claim) ∧ (jr_prior_revision r <= i64_max)%Z) ->
    commit_effect claim t s s'.

Lemma write_journal_err claim t i start rev s x s' :
  write_journal claim t i start rev s = (Err x, s') -> s' = mutate_table (cl_instance_id claim) t s.
Proof.
  unfold write_journal. cbv zeta. unfold mbind, Commit_bind, modify, gets, lift.
  destruct (map_err ExitErr (envelope_hash _)); [|by intros [= _ <-]].
  destruct (map_err ExitErr (if start then _ else _)); [done|by intros [= _ <-]].
Qed.

Lemma commit_writes_effect claim t clock fresh s :
  child_starts t = [] -> check_claim claim s = Ok tt ->
  let s' := (commit_writes claim t clock fresh (is_start_commit claim s) s).2 in
  commit_effect claim t s s' ∧ instances_grow s s'.
Proof.
  intros Hch Hck s'. subst s'. set (id := cl_instance_id claim). set (start := is_start_commit claim s).
  set (i := committed_instance t (st_instances s !! id)).
  destruct (write_tables_grow claim t i clock s Hch) as (Hh & Hg & Hi).
  unfold commit_writes. cbv zeta. rewrite (run_bind_ok (gets _) _ s i s) by done.
  destruct (write_tables claim t i clock s) as [[[]|x] s1] eqn:Et; cbn [snd] in Hh, Hg, Hi.
  2: { unfold mbind, Commit_bind. rewrite Et. by split; [apply effect_none|]. }
  rewrite (run_bind_ok _ _ _ _ _ Et). set (rev := next_revision_of claim start).
  rewrite (run_bind_ok (modify _) _ s1 tt (set_st_revisions (<[id := rev]> (st_revisions s1)) s1)) by done.
  set (s2 := set_st_revisions _ s1).
  assert (Hh2 : ∀ id', id' ≠ id -> head_of id' s2 = head_of id' s).
  { intros id' Hne. rewrite <-(Hh id'). unfold head_of, s2. cbn. by rewrite lookup_insert_ne. }
  assert (Hid2 : ∀ r0 e0 l0, head_of id s = (r0, e0, l0) -> head_of id s2 = (Some rev, e0, l0)).
  { intros r0 e0 l0 E. rewrite <-(Hh id) in E. unfold head_of, s2 in *. cbn. rewrite lookup_insert_eq. by injection E as _ -> ->. }
  destruct (write_journal claim t i start rev s2) as [[[]|x] s3] eqn:Ej.
  2: { apply write_journal_err in Ej as Es. unfold mbind, Commit_bind. rewrite Ej. cbn [snd]. subst s3. split; [|exact Hg].
       apply effect_revision; [done|exact Hi|exact Hh2|]. fold id start rev. change (head_of id (mutate_table id t s2)) with (head_of id s2).
       destruct (head_of id s) as [[r0 e0] l0] eqn:E. by eapply Hid2. }
  rewrite (run_bind_ok _ _ _ _ _ Ej). apply write_journal_run in Ej as (h & pr & Hhash & Hpr & ->). fold id in Hhash |- *.
  set (e := commit_envelope id i rev _) in *. set (r := JournalRecord_new _ _ _ _ _ _ _ _).
  assert (Hfin : ∀ s0, let s4 := ((modify (finish_commit claim i rev clock fresh) ≫= λ _, mret (Committed rev)) s0).2 in
    st_instances s4 = st_instances s0 ∧ ∀ id', head_of id' s4 = head_of id' s0).
  { intros s0. unfold mbind, Commit_bind, modify, finish_commit, enqueue_activation. cbn. destruct (_ || _); [done|].
    by destruct (st_activation_dedupe s0 !! _). }
  edestruct Hfin as [Hfi Hfh]. split; [|by intros id' Hx; rewrite Hfi; apply Hg].
  apply (effect_commit claim t s _ e r); [done|by rewrite Hfi| | |done|done|done| |by fold start].
  - intros id' Hne. rewrite Hfh, <-(Hh2 id' Hne). unfold head_of. cbn. by rewrite !lookup_insert_ne.
  - fold id start rev. destruct (head_of id s) as [[r0 e0] l0]. rewrite Hfh. specialize (Hid2 _ _ _ eq_refl) as E. unfold head_of in *. cbn.
    rewrite !lookup_insert_eq. cbn. injection E as E1 E2 E3. cbn in *. by rewrite E3.
  - assert (E := f_equal (λ x, x.1.2) (Hh id)). cbn in E. change (prior_hash id (mutate_table id t s2) = prior_hash id s).
    unfold prior_hash. change (st_snapshots (mutate_table id t s2) !! id) with (st_snapshots s1 !! id). by rewrite E.
Qed.

(** Every commit, whatever its outcome. *)
Lemma commit_effects claim t clock fresh s :
  child_starts t = [] ->
  let s' := (commit_transition chrono_valid claim t clock fresh s).2 in
  commit_effect claim t s s' ∧ instances_grow s s'.
Proof.
  intros Hch s'. subst s'. rewrite commit_transition_snd. unfold commit_run.
  assert (Hp : ∃ x, (commit_pending chrono_valid claim t s).2 = set_st_pending x s).
  { apply commit_pending_only. }
  destruct Hp as [x Hp]. destruct (commit_pending chrono_valid claim t s) as [[[]|ex] s0] eqn:Ep; cbn [snd] in Hp; subst s0.
  2: { unfold mbind, Commit_bind. rewrite Ep. split; [by apply effect_none|by intros id]. }
  rewrite (run_bind_ok _ _ _ _ _ Ep), commit_locked_eq. destruct (check_commit claim t _) as [[]|ex] eqn:Ec.
  2: { split; [by apply effect_none|by intros id]. }
  destruct (check_commit_inv _ _ _ Ec) as [Hck _].
  destruct (commit_writes_effect claim t clock fresh (set_st_pending x s) Hch Hck) as [[H|H1 H2 H3 H4|e r H1 H2 H3 H4 H5 H6 H7 H8 H9] Hg];
    (split; [|exact Hg]).
  - by apply effect_none.
  - by apply effect_revision.
  - by apply (effect_commit claim t s _ e r).
Qed.

(** ** Operations on the queues *)

Inductive queue_op : Store -> Store -> Prop :=
| op_dequeue task_types max tenant worker lease_ms clock fresh s :
    queue_op s (dequeue_jobs task_types max tenant worker lease_ms clock fresh s).2
| op_reclaim_jobs clock s : queue_op s (reclaim_stale_jobs clock s).2
| op_prune_dedupe ms clock s : queue_op s (prune_dedupe_cache ms clock s).2
| op_dead_letter_put name key payload ttl s : queue_op s (dead_letter_put name key payload ttl s)
| op_dead_letter_take name key s : queue_op s (dead_letter_take name key s).2
| op_claim_message tenant name corr ms clock fresh s : queue_op s (claim_buffered_message tenant name corr ms clock fresh s).2
| op_reclaim_messages clock s : queue_op s (reclaim_stale_buffered_message_claims clock s).2
| op_prune_messages clock s : queue_op s (prune_expired_messages clock s).2
| op_claim_timers tenant owner now limit lease_ms fresh s : queue_op s (claim_due_timers tenant owner now limit lease_ms fresh s).2
| op_release_timer timer s : queue_op s (release_timer_claim timer s)
| op_claim_effects tenant owner now limit lease_ms fresh s :
    queue_op s (claim_pending_effects tenant owner now limit lease_ms fresh s).2
| op_record_response c r s : queue_op s (record_effect_response c r s).2
| op_release_effect c s : queue_op s (release_effect_claim c s)
| op_retry_effect c d s : queue_op s (schedule_effect_retry c d s).2
| op_enqueue_activation tenant id cid kind cmd at_ clock fresh s :
    queue_op s (enqueue_activation tenant id cid kind cmd at_ clock fresh s).2
| op_claim_activations tenant owner limit lease_ms clock fresh s :
    queue_op s (claim_ready_activations tenant owner limit lease_ms clock fresh s).2
| op_renew_activation c ms clock s : queue_op s (renew_activation_claim c ms clock s).2
| op_release_activation c at_ clock s : queue_op s (release_activation_to_ready c at_ clock s)
| op_consume_activation c s : queue_op s (consume_activation c s).2
| op_dead_letter_activation c s : queue_op s (dead_letter_activation c s)
| op_reclaim_activations clock s : queue_op s (reclaim_expired_activations clock s).2
| op_pending_insert r s : queue_op s (set_st_pending (pending_insert r (st_pending s)).2 s)
| op_pending_ack tenant callout execution at_ s : queue_op s (set_st_pending (record_ack tenant callout execution at_ (st_pending s)).2 s)
| op_pending_take tenant execution s : queue_op s (set_st_pending (take_by_execution_id tenant execution (st_pending s)).2 s).

Lemma view_reclaim_job id s key : view id (reclaim_job s key) = view id s.
Proof. unfold reclaim_job. destruct (st_inflight_jobs s !! key) as [[j t]|]; [|done]. by destruct (1 <? _)%N. Qed.
Lemma view_prune_message id s key : view id (prune_message s key) = view id s.
Proof. unfold prune_message. destruct (st_message_buffer s !! key) as [m|]; [|done]. by destruct (bm_process_instance_id m). Qed.

(** A queue operation leaves every aggregate alone. *)
Lemma queue_op_view id s s' : queue_op s s' -> view id s' = view id s.
Proof.
  destruct 1; try reflexivity;
    try (apply (foldl_keeps (view id)); intros; first [apply view_reclaim_job | apply view_prune_message]);
    unfold dequeue_jobs, claim_buffered_message, claim_due_timers, release_timer_claim, claim_pending_effects,
      record_effect_response, release_effect_claim, schedule_effect_retry, enqueue_activation, claim_ready_activations,
      renew_activation_claim, release_activation_to_ready, consume_activation, dead_letter_activation;
    repeat (case_match; try reflexivity).
Qed.

(** ** Worlds *)

(** A store and the claims handed out so far.  A commit is made under one of them
    or under the claim of a start, and starts no child instances. *)
Inductive world_step : Store * list Claim -> Store * list Claim -> Prop :=
| step_claim tenant id owner lease_ms clock fresh s r s' ms :
    claim_instance_for_transition tenant id owner lease_ms clock fresh s = (r, s') ->
    world_step (s, ms) (s', match r with Ok (Some c) => c :: ms | _ => ms end)
| step_release tenant id token s ms : world_step (s, ms) (release_instance_transition tenant id token s, ms)
| step_commit claim t clock fresh s ms :
    child_starts t = [] -> claim ∈ ms ∨ (cl_expected_revision claim = 0%N ∧ cl_fence claim = 0%N) ->
    world_step (s, ms) ((commit_transition chrono_valid claim t clock fresh s).2, ms)
| step_queue s s' ms : queue_op s s' -> world_step (s, ms) (s', ms).

Inductive reachable : Store * list Claim -> Prop :=
| reach_new : reachable (MemoryStore_new, [])
| reach_step w w' : reachable w -> world_step w w' -> reachable w'.

(** A chain of records. *)
Definition linked (l : list JournalRecord) : Prop :=
  ∀ k r r', l !! k = Some r -> l !! S k = Some r' ->
    jr_prior_revision r' = Z.of_N (jr_new_revision r) ∧ jr_new_revision r' = (jr_new_revision r + 1)%N ∧
    jr_prior_state_hash r' = jr_state_hash r.

Lemma linked_snoc l r r' :
  linked (l ++ [r]) -> jr_prior_revision r' = Z.of_N (jr_new_revision r) -> jr_new_revision r' = (jr_new_revision r + 1)%N ->
  jr_prior_state_hash r' = jr_state_hash r -> linked ((l ++ [r]) ++ [r']).
Proof.
  intros Hl H1 H2 H3 k a b Ha Hb. destruct (decide (S k < length (l ++ [r]))) as [Hk|Hk].
  - rewrite lookup_app_l in Ha by lia. rewrite lookup_app_l in Hb by lia. by eapply Hl.
  - apply lookup_lt_Some in Hb as Hlt. rewrite length_app in Hlt. cbn in Hlt. rewrite length_app in Hk, Hlt. cbn in Hk, Hlt.
    assert (Ek : k = length l) by lia. subst k.
    rewrite lookup_app_l, list_lookup_middle in Ha by (rewrite ?length_app; cbn; lia). injection Ha as <-.
    rewrite lookup_app_r in Hb by (rewrite length_app; cbn; lia).
    replace (S (length l) - length (l ++ [r]))%nat with 0%nat in Hb by (rewrite length_app; cbn; lia). by injection Hb as <-.
Qed.

(** Revision, envelope and journal of one instance. *)
Inductive journal_ok (present : bool) : option N * option SnapshotEnvelope * list JournalRecord -> Prop :=
| journal_none rev : journal_ok present (rev, None, [])
| journal_head rev e l r :
    present = true -> linked (l ++ [r]) -> se_revision e = jr_new_revision r -> state_hash e = Ok (jr_state_hash r) ->
    (Z.of_N (jr_new_revision r) <= i64_max + 1)%Z ->
    (rev = jr_new_revision r ∨ rev = jr_new_revision r + 1)%N -> journal_ok present (Some rev, Some e, l ++ [r]).

Definition present (id : N) (s : Store) : bool := bool_decide (is_Some (st_instances s !! id)).
Definition minted_ok (s : Store) (c : Claim) : Prop :=
  ∃ e, st_snapshots s !! cl_instance_id c = Some e ∧ (cl_expected_revision c <= se_revision e)%N.
Definition world_ok (w : Store * list Claim) : Prop :=
  (∀ id, journal_ok (present id w.1) (head_of id w.1)) ∧ ∀ c, c ∈ w.2 -> minted_ok w.1 c.

Lemma journal_ok_present b b' h : journal_ok b h -> (b = true -> b' = true) -> journal_ok b' h.
Proof. intros [rev|rev e l r Hb H1 H2 H3 H4 H5] Hi; [apply journal_none | apply journal_head; auto]. Qed.

Lemma present_grow s s' id : instances_grow s s' -> present id s = true -> present id s' = true.
Proof. unfold present. rewrite !bool_decide_eq_true. auto. Qed.

Lemma world_ok_same s s' ms :
  world_ok (s, ms) -> (∀ id, head_of id s' = head_of id s) -> instances_grow s s' -> world_ok (s', ms).
Proof.
  intros [Hj Hm] Hh Hg. split; cbn in *.
  - intros id. rewrite Hh. eapply journal_ok_present; [apply Hj | by apply present_grow].
  - intros c Hc. destruct (Hm c Hc) as (e & He & Hle). exists e. split; [|done].
    assert (E := f_equal (λ x, x.1.2) (Hh (cl_instance_id c))). cbn in E. by rewrite E.
Qed.

Lemma claim_effect tenant id owner lease_ms clock fresh s r s' :
  claim_instance_for_transition tenant id owner lease_ms clock fresh s = (r, s') ->
  (∀ id', head_of id' s' = head_of id' s) ∧ instances_grow s s' ∧ ∀ c, r = Ok (Some c) -> minted_ok s' c.
Proof.
  unfold claim_instance_for_transition.
  assert (Hsame : ∀ s0, (∀ id', head_of id' s0 = head_of id' s0) ∧ instances_grow s0 s0) by (intros s0; by split; [|intros ?]).
  destruct (st_instances s !! id) as [i|] eqn:Ei; [|by intros [= <- <-]; split_and!; try apply Hsame].
  destruct (negb _); [by intros [= <- <-]; split_and!; try apply Hsame|]. cbv zeta.
  destruct (claim_integrity _ _ _ _ _) as [[]|reason] eqn:Ec.
  - match goal with |- (if ?b then _ else _) = _ -> _ => destruct b end; [by intros [= <- <-]; split_and!; try apply Hsame|].
    match goal with |- (if ?b then _ else _) = _ -> _ => destruct b end;
      [by intros [= <- <-]; split_and!; try apply Hsame|].
    intros [= <- <-]. split; [done|]. split; [by intros id'|]. intros c [= <-].
    unfold claim_integrity in Ec. apply bind_ok_inv in Ec as (e & He%ok_or_ok & Ec). apply bind_ok_inv in Ec as (j & _ & Ec).
    apply bind_ok_inv in Ec as ([] & Hb%ensure_ok & _). rewrite !andb_true_iff in Hb. destruct Hb as [[[[[Hr%N.eqb_eq _] _] _] _] _].
    exists e. cbn. rewrite He, Hr. split; [done|lia].
  - intros [= <- <-]. split; [done|]. split; [|done]. intros id' Hx. cbn. rewrite lookup_insert. case_decide; eauto.
Qed.

(** The revision a commit was made at is the head's. *)
Lemma commit_at_head claim s ms rev e l r :
  world_ok (s, ms) -> claim ∈ ms ∨ (cl_expected_revision claim = 0%N ∧ cl_fence claim = 0%N) ->
  check_claim claim s = Ok tt -> head_of (cl_instance_id claim) s = (Some rev, Some e, l ++ [r]) ->
  se_revision e = jr_new_revision r -> (Z.of_N (jr_new_revision r) <= i64_max + 1)%Z ->
  (rev = jr_new_revision r ∨ rev = jr_new_revision r + 1)%N -> present (cl_instance_id claim) s = true ->
  is_start_commit claim s = false ∧ cl_expected_revision claim = jr_new_revision r ∧
  next_revision_of claim (is_start_commit claim s) = (jr_new_revision r + 1)%N.
Proof.
  intros [_ Hm] Hcl Hck Hh He Hb Hrev Hp. apply bool_decide_eq_true in Hp as [i Hi]. cbn in Hm.
  destruct (check_claim_present claim s i Hi) as [Hst Hiff]. apply Hiff in Hck as (_ & _ & Hexp). injection Hh as H1 H2 H3.
  rewrite H1 in Hexp. cbn in Hexp.
  assert (Hle : (cl_expected_revision claim <= jr_new_revision r)%N).
  { destruct Hcl as [Hin|[-> _]]; [|lia]. destruct (Hm _ Hin) as (e0 & He0 & Hle). rewrite H2 in He0. injection He0 as <-. lia. }
  assert (E : cl_expected_revision claim = jr_new_revision r) by lia. split_and!; [done..|].
  rewrite Hst. cbn. rewrite E. unfold u64_incr, u64_max, i64_max in *. apply N.mod_small. lia.
Qed.

Lemma next_revision_bound claim (start : bool) pr :
  (if start then pr = (-1)%Z else pr = Z.of_N (cl_expected_revision claim) ∧ (pr <= i64_max)%Z) ->
  (Z.of_N (next_revision_of claim start) <= i64_max + 1)%Z.
Proof.
  destruct start; cbn; [intros _; unfold i64_max; lia|]. intros [-> H]. unfold u64_incr, u64_max, i64_max in *.
  rewrite N.mod_small; lia.
Qed.

Lemma commit_world_ok claim t clock fresh s ms :
  world_ok (s, ms) -> child_starts t = [] -> claim ∈ ms ∨ (cl_expected_revision claim = 0%N ∧ cl_fence claim = 0%N) ->
  world_ok ((commit_transition chrono_valid claim t clock fresh s).2, ms).
Proof.
  intros Hw Hch Hcl. pose proof Hw as [Hj Hm]. cbn in Hj, Hm.
  destruct (commit_effects claim t clock fresh s Hch) as [He Hg]. set (s' := (commit_transition _ _ _ _ _ s).2) in *.
  set (id := cl_instance_id claim). specialize (Hj id) as Hjid.
  destruct He as [Hh|Hck Hi Hne Hid|e' r' Hck Hi Hne Hid Hrev Hrn Hsh Hph Hpr]; [by apply (world_ok_same s)|..].
  - fold id in Hne, Hid, Hi. split; cbn.
    + intros id'. destruct (decide (id' = id)) as [->|Hd].
      2: { rewrite Hne by done. eapply journal_ok_present; [apply Hj|by apply present_grow]. }
      destruct (head_of id s) as [[rv oe] l] eqn:Eh. rewrite Hid.
      inversion Hjid as [rv0 E|rv0 e l0 r Hp Hl He Hh Hb Hrv E]; subst; [apply journal_none|].
      edestruct (commit_at_head claim s ms) as (_ & _ & ->); [done..|exact Eh|done|done|done|done|].
      apply journal_head; try done; [|by right]. by apply (present_grow s).
    + intros c Hc. destruct (Hm c Hc) as (e & He & Hle). exists e. split; [|done].
      destruct (decide (cl_instance_id c = id)) as [E|Hd].
      * rewrite E in *. destruct (head_of id s) as [[rv oe] l] eqn:Eh. injection Eh as _ Eo _.
        assert (E2 := f_equal (λ x, x.1.2) Hid). cbn in E2. by rewrite E2, <-Eo.
      * assert (E2 := f_equal (λ x, x.1.2) (Hne _ Hd)). cbn in E2. by rewrite E2.
  - fold id in Hne, Hid, Hi, Hph. assert (Hpres : present id s' = true) by by apply bool_decide_eq_true.
    pose proof (next_revision_bound _ _ _ Hpr) as Hbound. split; cbn.
    + intros id'. destruct (decide (id' = id)) as [->|Hd].
      2: { rewrite Hne by done. eapply journal_ok_present; [apply Hj|by apply present_grow]. }
      destruct (head_of id s) as [[rv oe] l] eqn:Eh. rewrite Hid.
      inversion Hjid as [rv0 E|rv0 e l0 r Hp Hl He Hh Hb Hrv E]; subst.
      * apply (journal_head _ _ e' [] r'); rewrite ?Hrn; auto. intros [] ? ? ? ?; done.
      * edestruct (commit_at_head claim s ms) as (Hst & Hexp & Hnx); [done..|exact Eh|done|done|done|done|].
        rewrite Hst in Hpr. cbn in Hpr. destruct Hpr as [Hpr _].
        apply journal_head; rewrite ?Hrn; auto. apply linked_snoc; [done|by rewrite Hpr, Hexp|by rewrite Hrn|].
        rewrite Hph. unfold prior_hash. injection Eh as _ -> _. cbn. by rewrite Hh.
    + intros c Hc. destruct (Hm c Hc) as (e & He & Hle). destruct (decide (cl_instance_id c = id)) as [E|Hd].
      * rewrite E in *. exists e'. destruct (head_of id s) as [[rv oe] l] eqn:Eh.
        assert (E2 := f_equal (λ x, x.1.2) Hid). cbn in E2. split; [by rewrite E, E2|].
        assert (Eo : oe = Some e) by (injection Eh as _ E0 _; congruence). subst oe.
        inversion Hjid as [|rv0 e0 l0 r Hp Hl He0 Hh Hb Hrv E0]; subst.
        edestruct (commit_at_head claim s ms) as (_ & _ & Hnx); [done..|exact Eh|done|done|done|done|]. lia.
      * exists e. split; [|done]. assert (E2 := f_equal (λ x, x.1.2) (Hne _ Hd)). cbn in E2. by rewrite E2.
Qed.

Lemma world_step_ok w w' : world_ok w -> world_step w w' -> world_ok w'.
Proof.
  intros Hw Hstep. destruct Hstep as [tenant id owner lease_ms clock fresh s r s' ms Hc|tenant id token s ms|claim t clock fresh s ms Hch Hcl|s s' ms Hq].
  - destruct (claim_effect _ _ _ _ _ _ _ _ _ Hc) as (Hh & Hg & Hm). pose proof (world_ok_same s s' ms Hw Hh Hg) as [H1 H2].
    split; [exact H1|]. cbn in *. destruct r as [[c|]|]; [|exact H2..]. intros c' [->|Hin]%elem_of_cons; auto.
  - apply (world_ok_same s); [done|..]; unfold release_instance_transition; destruct (_ && _); by try intros id'.
  - by apply commit_world_ok.
  - apply (world_ok_same s); [done|..].
    + intros id. pose proof (queue_op_view id s s' Hq) as E. unfold head_of.
      by injection E as _ _ _ _ _ -> -> -> _.
    + intros id. pose proof (f_equal v_instance (queue_op_view id s s' Hq)) as E. cbn in E. by rewrite E.
Qed.


End journal.

(** * Quarantine

    Only the dedicated paths of the store set an instance's quarantine: a commit
    copies the stored one over whatever the transition carries.  The recovery of
    the engine quarantines an aggregate by a commit, so its quarantine is lost. *)

Section quarantine.
Context {P : Platform} (chrono_valid : Z -> bool).

Lemma write_journal_instances claim t i start rev : keeps st_instances (write_journal claim t i start rev).
Proof.
  intros s. unfold write_journal. cbv zeta. unfold mbind, Commit_bind, modify, gets, lift.
  destruct (map_err ExitErr (envelope_hash _)); [|done]. by destruct (map_err ExitErr (if start then _ else _)).
Qed.

(** The instance rows after a commit, whatever its outcome. *)
Lemma commit_instances claim t clock fresh s :
  child_starts t = [] ->
  let s' := (commit_transition chrono_valid claim t clock fresh s).2 in
  let id := cl_instance_id claim in
  st_instances s' = st_instances s ∨
  st_instances s' = <[id := committed_instance t (st_instances s !! id)]> (st_instances s).
Proof.
  intros Hch s' id. subst s'. rewrite commit_transition_snd. unfold commit_run.
  destruct (commit_pending_only chrono_valid claim t s) as [x Hp].
  destruct (commit_pending chrono_valid claim t s) as [[[]|ex] s0] eqn:Ep; cbn [snd] in Hp; subst s0.
  2: { unfold mbind, Commit_bind. rewrite Ep. by left. }
  rewrite (run_bind_ok _ _ _ _ _ Ep), commit_locked_eq. destruct (check_commit claim t _) as [[]|ex] eqn:Ec; [right|by left].
  unfold commit_writes. cbv zeta. set (s0 := set_st_pending x s). set (i := committed_instance t (st_instances s0 !! id)).
  rewrite (run_bind_ok (gets _) _ s0 i s0) by done.
  assert (Ht : st_instances (write_tables claim t i clock s0).2 = <[id := i]> (st_instances s)).
  { unfold write_tables. assert (Hw : ∃ s1, write_instance claim t i s0 = (Ok tt, s1) ∧ st_instances s1 = <[id := i]> (st_instances s)).
    { unfold write_instance. cbv zeta. destruct (start_dedupe t); eexists; (split; [reflexivity|done]). }
    destruct Hw as (s1 & E1 & <-). rewrite (run_bind_ok _ _ _ _ _ E1). by apply (write_rows_frame st_instances). }
  destruct (write_tables claim t i clock s0) as [[[]|x'] s1] eqn:Et; cbn [snd] in Ht;
    [|unfold mbind, Commit_bind; by rewrite Et].
  change (committed_instance t (st_instances s !! id)) with i. rewrite (run_bind_ok _ _ _ _ _ Et), <-Ht.
  set (k := _ ≫= _). enough (Hk : keeps st_instances k) by apply Hk. subst k.
  apply keeps_bind; [by apply keeps_modify|intros _].
  apply keeps_bind; [apply write_journal_instances|intros _]. apply keeps_bind; [|intros _; apply keeps_ret].
  apply keeps_modify. intros s2. unfold finish_commit, enqueue_activation. destruct (_ || _); [done|].
  cbn. by destruct (st_activation_dedupe s2 !! _).
Qed.

(** No commit, whether it succeeds or fails half-way, changes the quarantine of
    an instance the store has, nor takes the instance away. *)
Lemma commit_keeps_quarantine claim t clock fresh s id i :
  child_starts t = [] -> st_instances s !! id = Some i ->
  ∃ i', st_instances (commit_transition chrono_valid claim t clock fresh s).2 !! id = Some i' ∧
    quarantine_state i' = quarantine_state i.
Proof.
  intros Hch Hi. destruct (commit_instances claim t clock fresh s Hch) as [->| ->]; [by eauto|].
  rewrite lookup_insert. case_decide as Hd; [|by eauto]. rewrite Hd, Hi. eexists. split; [done|].
  unfold committed_instance. by destruct (state_override t).
Qed.

Lemma running_elem tenant s id :
  id ∈ list_running_instances tenant s <-> ∃ i, st_instances s !! id = Some i ∧ is_schedulable (inst_state i) = true ∧
    inst_tenant_id i = tenant ∧ quarantine_state i = None.
Proof.
  unfold list_running_instances. rewrite list_elem_of_fmap. split.
  - intros ([k i] & -> & Hi%elem_of_map_to_list). apply map_lookup_filter_Some in Hi as [Hi H]. by exists i.
  - intros (i & Hi & H). exists (id, i). split; [done|]. apply elem_of_map_to_list, map_lookup_filter_Some. done.
Qed.

(** Recovery does not take a failed aggregate out of scheduling.  Of a coherent
    aggregate that is listed as running and that nobody else has leased, whose
    artifact is unknown or of another ABI or that has no fibres, recovery reports
    an error after committing a quarantine; the instance is still listed as
    running. *)
Lemma recovery_quarantine_lost en env tenant id owner lease_ms s i e :
  coherent id (view id s) i e -> (lease_fence id s < u64_max)%N ->
  id ∈ list_running_instances tenant s -> ¬ leased_to_other owner (ck_instant (ev_clock env)) id s ->
  (∀ x, recover_verify en id (to_runtime_snapshot (se_state e)) ≠ Ok x) ->
  let run := recover_instance chrono_valid en env tenant id owner lease_ms s in
  (∀ b, run.1 ≠ Ok b) ∧ id ∈ list_running_instances tenant run.2.
Proof.
  intros Hco Hf (i0 & Hi0 & Hrun & Ht & Hq)%running_elem Hl Hv run. subst run.
  assert (Hi := co_instance _ _ _ _ Hco). cbn in Hi. rewrite Hi in Hi0. injection Hi0 as <-.
  unfold recover_instance, claim_work_for_transition.
  destruct (claim_instance_coherent tenant id owner lease_ms (ev_clock env) (ev_fresh env 0) s i e Hco Ht Hf)
    as [[? _]|(_ & fence & token & E)]; [done|]. rewrite E.
  edestruct (leased_coherent tenant id owner (ck_instant (ev_clock env) + lease_ms) fence token s i e Hco Ht) as (El & _).
  rewrite El. unfold recover_body. cbv zeta. cbn [cw_snapshot cw_claim].
  destruct (recover_verify _ _ _) as [x|x] eqn:Ex; [by destruct (Hv x)|].
  set (claim := mkClaim _ _ _ _ _). set (t := quarantine_transition _ _ _ _). set (s1 := leased _ _ _ _ _ s).
  assert (Hstay : ∀ s2, st_instances s2 = st_instances s1 ∨
    st_instances s2 = <[id := committed_instance t (st_instances s1 !! id)]> (st_instances s1) -> id ∈ list_running_instances tenant s2).
  { intros s2 Hs2. apply running_elem. destruct Hs2 as [-> | ->]; [by exists i|]. rewrite lookup_insert_eq.
    eexists. split; [done|]. change (st_instances s1 !! id) with (st_instances s !! id). rewrite Hi. cbn.
    by rewrite (co_rows _ _ _ _ Hco). }
  pose proof (commit_instances claim t (ev_clock env) (ev_fresh env 1) s1 eq_refl) as Hc. cbv zeta in Hc.
  unfold engine_commit, mbind, Eng_bind, eng_modify. cbn [cl_lease_token claim].
  destruct (commit_transition chrono_valid claim t (ev_clock env) (ev_fresh env 1) s1) as [[o|err] s2]; cbn [map_err snd] in *.
  - split; [done|]. apply Hstay. cbn. unfold release_instance_transition. by destruct (_ && _).
  - split; [done|]. by apply Hstay.
Qed.

End quarantine.

(** * The activation queue under every operation

    An activation is a command to run on an instance.  Whatever sequence of
    operations runs on the store, an instance has at most one activation that is
    claimed: two workers never hold activations of the same instance. *)

Section activations.
Context {P : Platform} (chrono_valid : Z -> bool).

#[local] Notation acts := (gmap N MemoryActivation).

(** The instance an activation claims. *)
Definition holds (a : MemoryActivation) (tenant : string) (id : N) : Prop :=
  ma_status a = ActClaimed ∧ ma_tenant_id a = tenant ∧ ma_instance_id a = id.

Definition one_claimed (m : acts) : Prop :=
  ∀ k1 k2 a1 a2 tenant id, m !! k1 = Some a1 -> m !! k2 = Some a2 -> holds a1 tenant id -> holds a2 tenant id -> k1 = k2.

(** Every claim of the second queue is one of the first. *)
Definition fewer (m m' : acts) : Prop :=
  ∀ k a' tenant id, m' !! k = Some a' -> holds a' tenant id -> ∃ a, m !! k = Some a ∧ holds a tenant id.

#[export] Instance fewer_preorder : PreOrder fewer.
Proof.
  split; [by intros m k a ? ? ? ?; eauto|]. intros m1 m2 m3 H12 H23 k a tenant id Ha Hh.
  destruct (H23 k a tenant id Ha Hh) as (b & Hb & Hhb). by eapply H12.
Qed.

Lemma one_claimed_fewer m m' : one_claimed m -> fewer m m' -> one_claimed m'.
Proof.
  intros Hm Hf k1 k2 a1 a2 tenant id H1 H2 Hh1 Hh2.
  destruct (Hf k1 a1 tenant id H1 Hh1) as (b1 & Hb1 & Hc1), (Hf k2 a2 tenant id H2 Hh2) as (b2 & Hb2 & Hc2). by eapply Hm.
Qed.

Lemma fewer_unclaimed k a m : ma_status a ≠ ActClaimed -> fewer m (<[k := a]> m).
Proof.
  intros Ha k' a' tenant id H Hh. apply lookup_insert_Some in H as [[-> ->]|[_ H]]; [by destruct Hh|]. eauto.
Qed.
Lemma fewer_update k a st av c n m :
  m !! k = Some a -> st = ma_status a -> fewer m (<[k := update_activation st av c n a]> m).
Proof.
  intros Ha -> k' a' tenant id H Hh. apply lookup_insert_Some in H as [[-> <-]|[_ H]]; eauto.
Qed.
Lemma fewer_delete k m : fewer m (delete k m).
Proof. intros k' a' tenant id [_ H]%lookup_delete_Some Hh. eauto. Qed.

Lemma enqueue_fewer tenant id cid kind cmd at_ clock fresh s :
  fewer (st_activations s) (st_activations (enqueue_activation tenant id cid kind cmd at_ clock fresh s).2).
Proof. unfold enqueue_activation. destruct (st_activation_dedupe s !! _); [done|]. by apply fewer_unclaimed. Qed.

(** ** Claims *)

(** What the loop keeps: one claim per instance, and every claimed instance of the
    tenant is busy or in the batch, so that no candidate's is but those of the
    batch. *)
Lemma claim_activations_one tenant owner limit expires fresh n (busy batch : gset N) l m :
  one_claimed m -> (∀ k a, m !! k = Some a -> ma_tenant_id a = tenant -> ma_status a = ActClaimed -> ma_instance_id a ∈ busy ∪ batch) ->
  (∀ e, e ∈ l -> ma_tenant_id e.2 = tenant ∧ ma_instance_id e.2 ∉ busy) ->
  one_claimed (claim_activations owner limit expires fresh n batch l m).2.
Proof.
  revert n batch m. induction l as [|[k a] l IH]; intros n batch m Hm Hbusy Hl; cbn [claim_activations]; [done|].
  destruct (limit <=? n)%nat; [done|]. destruct (Hl (k, a)) as [Ht Hnb]; [by left|]. cbn in Ht, Hnb.
  case_bool_decide as Hin; [apply IH; [done..|]; intros e He; apply Hl; by right|]. cbv zeta.
  set (a' := update_activation _ _ _ _ a). destruct (claim_activations _ _ _ _ _ _ l _) as [out m'] eqn:E.
  assert (Hnone : ∀ k' b, m !! k' = Some b -> holds b tenant (ma_instance_id a) -> False).
  { intros k' b Hb (Hs & Htb & Hib). specialize (Hbusy k' b Hb Htb Hs). rewrite Hib in Hbusy. set_solver. }
  cbn [snd]. change m' with (out, m').2. rewrite <-E. apply IH.
  - intros k1 k2 a1 a2 tn id H1 H2 Hh1 Hh2. apply lookup_insert_Some in H1 as [[<- <-]|[Hn1 H1]], H2 as [[<- <-]|[Hn2 H2]]; [done|..].
    + destruct Hh1 as (_ & <- & <-). cbn in Hh2. rewrite Ht in Hh2. by destruct (Hnone k2 a2 H2).
    + destruct Hh2 as (_ & <- & <-). cbn in Hh1. rewrite Ht in Hh1. by destruct (Hnone k1 a1 H1).
    + by eapply Hm.
  - intros k' b Hb Htb Hsb. apply lookup_insert_Some in Hb as [[_ <-]|[_ Hb]]; [cbn; set_solver|].
    specialize (Hbusy k' b Hb Htb Hsb). set_solver.
  - intros e He. apply Hl. by right.
Qed.

Lemma claim_ready_one tenant owner limit lease_ms clock fresh s :
  one_claimed (st_activations s) -> one_claimed (st_activations (claim_ready_activations tenant owner limit lease_ms clock fresh s).2).
Proof.
  intros Hm. unfold claim_ready_activations. cbv zeta.
  set (busy := list_to_set _ : gset N). set (l := merge_sort _ _).
  destruct (claim_activations _ _ _ _ _ _ l _) as [out m'] eqn:E. cbn. change m' with (out, m').2. rewrite <-E.
  apply (claim_activations_one tenant _ _ _ _ _ busy); [done| |].
  - intros k a Ha Ht Hs. apply elem_of_union_l, elem_of_list_to_set, list_elem_of_fmap. exists a. split; [done|].
    apply list_elem_of_fmap. exists (k, a). split; [done|]. apply elem_of_map_to_list, map_lookup_filter_Some. done.
  - intros e He. subst l. rewrite merge_sort_Permutation in He. destruct e as [k a].
    apply elem_of_map_to_list, map_lookup_filter_Some in He as [_ He]. cbn in He. unfold activation_ready in He.
    rewrite !andb_true_iff, negb_true_iff in He. destruct He as [[[He _] _] Hb].
    apply bool_decide_eq_true in He. apply bool_decide_eq_false in Hb. done.
Qed.

(** ** Queue operations *)

Lemma reclaim_job_acts s key : st_activations (reclaim_job s key) = st_activations s.
Proof. unfold reclaim_job. destruct (st_inflight_jobs s !! key) as [[j t]|]; [|done]. by destruct (1 <? _)%N. Qed.
Lemma prune_message_acts s key : st_activations (prune_message s key) = st_activations s.
Proof. unfold prune_message. destruct (st_message_buffer s !! key) as [m|]; [|done]. by destruct (bm_process_instance_id m). Qed.

Lemma holds_activation_claimed c a : holds_activation c a = true -> ma_status a = ActClaimed.
Proof. unfold holds_activation. intros [H _]%andb_true_iff. by apply bool_decide_eq_true in H. Qed.

Lemma reclaim_fewer clock s : fewer (st_activations s) (st_activations (reclaim_expired_activations clock s).2).
Proof.
  intros k a' tenant id H Hh. cbn in H. apply lookup_fmap_Some in H as (a & <- & Ha). exists a. split; [done|].
  destruct (activation_expired _ a); [by destruct Hh as [? _]|done].
Qed.

Lemma renew_fewer c ms clock s : fewer (st_activations s) (st_activations (renew_activation_claim c ms clock s).2).
Proof.
  unfold renew_activation_claim. destruct (st_activations s !! _) as [a|] eqn:Ha; [|done].
  destruct (ma_claim a) as [[[owner token] until]|]; [|done]. destruct (_ && _); [|done]. by apply fewer_update.
Qed.

Lemma queue_op_one s s' : queue_op s s' -> one_claimed (st_activations s) -> one_claimed (st_activations s').
Proof.
  intros Hop Hm. destruct Hop; try by apply claim_ready_one.
  all: eapply one_claimed_fewer; [exact Hm|].
  all: try apply enqueue_fewer; try apply reclaim_fewer; try apply renew_fewer.
  all: try (unfold release_activation_to_ready, consume_activation, dead_letter_activation;
       destruct (st_activations _ !! _) as [a|] eqn:Ha; [|done]; destruct (holds_activation _ a); [|done];
       first [by apply fewer_unclaimed | apply fewer_delete]).
  all: match goal with |- fewer ?x ?y => enough (E : y = x) by (by rewrite E) end.
  all: try reflexivity.
  all: try (apply (foldl_keeps st_activations); intros; first [apply reclaim_job_acts | apply prune_message_acts]).
  all: unfold dequeue_jobs, claim_buffered_message, claim_due_timers, release_timer_claim, claim_pending_effects,
      record_effect_response, release_effect_claim, schedule_effect_retry;
    repeat (case_match; try reflexivity).
Qed.

(** ** Commits *)

Lemma write_rows_acts claim t clock : keeps st_activations (write_rows claim t clock).
Proof.
  unfold write_rows. cbv zeta.
  repeat (apply keeps_bind; [|intros _]); try apply keeps_modify; try intros s1; try done.
  all: try (apply (foldl_keeps st_activations); intros s2 x).
  all: try solve [done | unfold enqueue_job; by destruct (_ || _) | unfold write_outbox; by destruct (st_outbox _ !! _)
    | by destruct x
    | unfold terminal_clean; by destruct (delete_all_fibers _), (delete_all_joins _), (cancel_jobs _)].
  all: apply keeps_for_each; intros x _;
    first [by apply job_mutation_keeps | by apply write_effect_keeps | by apply effect_mutation_keeps
          | unfold write_child; keep; by apply keeps_modify].
Qed.

Lemma write_journal_acts claim t i start rev : keeps st_activations (write_journal claim t i start rev).
Proof. unfold write_journal. keep; by apply keeps_modify. Qed.

Definition fewer_in (s s' : Store) : Prop := fewer (st_activations s) (st_activations s').
#[export] Instance fewer_in_preorder : PreOrder fewer_in.
Proof. unfold fewer_in. split; [intros s; reflexivity|]. intros s1 s2 s3 H12 H23. by etrans. Qed.

Lemma keeps_fewer {A} (m : Commit A) : keeps st_activations m -> moves fewer_in m.
Proof. apply moves_keeps. intros s s' E. unfold fewer_in. by rewrite E. Qed.

Lemma commit_fewer claim t clock fresh s : fewer_in s (commit_transition chrono_valid claim t clock fresh s).2.
Proof.
  rewrite commit_transition_snd. enough (H : moves fewer_in (commit_run chrono_valid claim t clock fresh)) by apply H.
  unfold commit_run, commit_locked, commit_writes, write_tables. cbv zeta.
  apply (moves_bind fewer_in); [by apply keeps_fewer, commit_pending_keeps|intros _].
  apply (moves_bind fewer_in); [apply (moves_gets fewer_in)|intros start]. apply (moves_bind fewer_in); [apply (moves_check fewer_in)|intros _].
  apply (moves_bind fewer_in); [apply (moves_gets fewer_in)|intros i].
  apply (moves_bind fewer_in); [apply (moves_bind fewer_in); [|intros _; apply keeps_fewer, write_rows_acts]|intros _].
  { apply keeps_fewer. unfold write_instance. keep; by apply keeps_modify. }
  apply (moves_bind fewer_in); [by apply keeps_fewer, keeps_modify|intros _].
  apply (moves_bind fewer_in); [apply keeps_fewer, write_journal_acts|intros _].
  apply (moves_bind fewer_in); [|intros _; apply (moves_ret fewer_in)]. apply (moves_modify fewer_in). intros s0. unfold finish_commit.
  destruct (_ || _); [unfold fewer_in; cbn; reflexivity|apply enqueue_fewer].
Qed.

Lemma world_step_one w w' :
  world_step chrono_valid w w' -> one_claimed (st_activations w.1) -> one_claimed (st_activations w'.1).
Proof.
  destruct 1 as [tenant id owner lease_ms clock fresh s r s' ms Hc|tenant id token s ms|claim t clock fresh s ms _ _|s s' ms Hq];
    cbn [fst]; intros Hm.
  - enough (E : st_activations s' = st_activations s) by (by rewrite E). apply (f_equal snd) in Hc. cbn in Hc. subst s'.
    unfold claim_instance_for_transition, replay_integrity_violation. cbv zeta. repeat (case_match; try reflexivity).
  - unfold release_instance_transition. by destruct (_ && _).
  - eapply one_claimed_fewer; [exact Hm|apply commit_fewer].
  - by eapply queue_op_one.
Qed.

(** C8: in every store reached by claims, releases, commits (failed ones too) and
    queue operations, an instance has at most one claimed activation. *)
Theorem one_activation_per_instance s ms k1 k2 a1 a2 :
  reachable chrono_valid (s, ms) ->
  st_activations s !! k1 = Some a1 -> st_activations s !! k2 = Some a2 ->
  ma_status a1 = ActClaimed -> ma_status a2 = ActClaimed ->
  ma_tenant_id a1 = ma_tenant_id a2 -> ma_instance_id a1 = ma_instance_id a2 -> k1 = k2.
Proof.
  intros Hr H1 H2 Hs1 Hs2 Ht Hi. enough (Hm : one_claimed (st_activations (s, ms).1)).
  { by eapply (Hm k1 k2 a1 a2 (ma_tenant_id a1) (ma_instance_id a1)). }
  remember (s, ms) as w eqn:E. clear - Hr. induction Hr as [|w w' Hr IH Hstep]; [by intros k1 k2 a1 a2 tn id H; change (st_activations (MemoryStore_new, []).1) with (∅ : acts) in H; rewrite lookup_empty in H|].
  by eapply world_step_one.
Qed.

End activations.
