(* ===== verification/StoreExamples.v ===== *)
(** * Runs of the engine on the in-memory store

    An engine and a one-task process small enough to evaluate: the process is
    started, ticked until its fibre waits for a job, the job is claimed by one
    worker and completed by another.  The theorems on the store and the engine are
    applied to the stores of this run. *)

From S2P Require Import Prelude RustStr Json Types Concurrency Platform Effects Transition Bindings Canonical KernelBase KernelTick KernelApply Replay Fixtures MemStore StoreClaim StoreCommit StoreAggregate StoreTheorems Engine EngineTheorems StoreInvariants.

#[local] Existing Instance toy_platform.

(** ** The run *)

Definition stored_workflow (program : list Instr) : ExecutableWorkflow :=
  let w := toy_workflow program in
  {| wf_abi_version := CURRENT_ARTIFACT_ABI; wf_compiler_version := wf_compiler_version w; wf_instructions := program;
     wf_metadata := wf_metadata w; wf_limits := wf_limits w; wf_hash := wf_hash w |}.
Definition job_program : list Instr := [IExecNative 0 0 0; IEnd].
Definition job_workflow : ExecutableWorkflow := stored_workflow job_program.
Definition any_time : Z -> bool := λ _, true.

Definition toy_engine : Engine :=
  mkEngine "default" "owner-a" 5000 (λ h, if bool_decide (h = toy_hash) then Some job_workflow else None) None
    (λ s, if bool_decide (s = "1") then Some 1%N else None).
Definition toy_env (n : N) : Env := mkEnv 10 (mkClock 10 (10 * n)) (λ k, (500 + 10 * n + N.of_nat k)%N).

Definition toy_start : StartCommand := {|
  sc_schema_version := 1; sc_tenant_id := "default"; sc_instance_id := 1; sc_artifact_hash := toy_hash;
  sc_process_key := "proc"; sc_entry_id := 0; sc_runbook_id := 0; sc_correlation_id := "corr"; sc_idempotency_key := 77;
  sc_initial_payload := "{}"; sc_initial_payload_hash := toy_digest (as_bytes "{}"); sc_session_stack := toy_session;
  sc_logical_time := 5 |}.

Definition started : Store := (start_command any_time toy_engine (toy_env 0) toy_start MemoryStore_new).2.
Definition ticked : Store :=
  (apply_and_commit_command any_time toy_engine (toy_env 1) 1 (CTick None) started).2.
Definition activated : Result EngineError (list JobActivation) * Store :=
  activate_jobs_for_worker_with_lease any_time toy_engine (toy_env 20) ["do_work"] 10 "worker-a" 1000 ticked.

Lemma started_ok : start_command any_time toy_engine (toy_env 0) toy_start MemoryStore_new = (Ok 1%N, started).
Proof. vm_compute. reflexivity. Qed.
Lemma ticked_ok : apply_and_commit_command any_time toy_engine (toy_env 1) 1 (CTick None) started = (Ok tt, ticked).
Proof. vm_compute. reflexivity. Qed.

(** Only evaluation unfolds the stores of the run. *)
#[local] Opaque started ticked.

(** The instance and the envelope of a store. *)
Definition instance_of (s : Store) : ProcessInstance := default toy_instance (st_instances s !! 1%N).
Definition envelope_of (s : Store) : SnapshotEnvelope := default toy_envelope (st_snapshots s !! 1%N).

Lemma coherent_of s i e : coherent 1 (view 1 s) i e -> instance_of s = i ∧ envelope_of s = e.
Proof.
  intros Hco. assert (Hi := co_instance _ _ _ _ Hco). assert (Hs := co_snapshot _ _ _ _ Hco). cbn in Hi, Hs.
  unfold instance_of, envelope_of. by rewrite Hi, Hs.
Qed.

Lemma started_coherent : coherent 1 (view 1 started) (instance_of started) (envelope_of started).
Proof.
  destruct (start_coherent any_time toy_engine (toy_env 0) toy_start MemoryStore_new 1 started started_ok)
    as (_ & i & e & r & Hco & _); [vm_compute; reflexivity..|]. by destruct (coherent_of _ _ _ Hco) as [-> ->].
Qed.

(** ** Starts *)

(** A second start under the same key, for another instance. *)
Definition toy_restart : StartCommand := {|
  sc_schema_version := 1; sc_tenant_id := "default"; sc_instance_id := 2; sc_artifact_hash := toy_hash;
  sc_process_key := "other"; sc_entry_id := 0; sc_runbook_id := 0; sc_correlation_id := "corr"; sc_idempotency_key := 77;
  sc_initial_payload := "{}"; sc_initial_payload_hash := toy_digest (as_bytes "{}"); sc_session_stack := toy_session;
  sc_logical_time := 6 |}.


(** ** Claims and commits *)

Lemma claim_work_coherent_witness :
  ∃ fence token,
    claim_work_for_transition "default" 1 "owner-a" 5000 (CTick None) (mkClock 10 10) 600 started =
    (Ok (Some (mkClaimedWork (mkClaim "default" 1 0 fence token) (to_runtime_snapshot (se_state (envelope_of started))) (CTick None))),
     leased 1 "owner-a" 5010 fence token started).
Proof.
  destruct (claim_work_coherent "default" 1 "owner-a" 5000 (CTick None) (mkClock 10 10) 600 started _ _ started_coherent)
    as [[(? & ? & ? & ? & E & _) _]|(_ & fence & token & E & _)].
  - reflexivity.
  - reflexivity.
  - by vm_compute in E.
  - exists fence, token. exact E.
Defined.

Lemma expired_claim_passes_fence_witness :
  ∃ claim_a claim_b claim_c s1 s2 s3,
    claim_instance_for_transition "default" 1 "a" 1000 (mkClock 10 10) 601 started = (Ok (Some claim_a), s1) ∧
    claim_instance_for_transition "default" 1 "b" 1000 (mkClock 2000 2000) 602 s1 = (Ok (Some claim_b), s2) ∧
    claim_instance_for_transition "default" 1 "c" 1000 (mkClock 2001 2001) 603
      (release_instance_transition "default" 1 (cl_lease_token claim_b) s2) = (Ok (Some claim_c), s3) ∧
    cl_fence claim_b = (cl_fence claim_a + 1)%N ∧ cl_fence claim_c = cl_fence claim_a ∧ check_claim claim_a s3 = Ok tt.
Proof.
  apply (expired_claim_passes_fence "default" 1 "a" "b" "c" 1000 1000 1000 (mkClock 10 10) (mkClock 2000 2000) (mkClock 2001 2001)
    601 602 603 started _ _ started_coherent); [reflexivity|reflexivity|vm_compute; discriminate].
Defined.

(** A claim on the started instance and the first tick under it. *)
Definition claimed : Store := leased 1 "owner-a" 5010 1 "600" started.
Definition tick_claim : Claim := mkClaim "default" 1 0 1 "600".
Definition tick_transition : Transition :=
  match apply job_workflow (to_runtime_snapshot (se_state (envelope_of started))) (CTick None) (next_context tick_claim 10 700) with
  | Ok t => t
  | Err _ => builder_new toy_instance
  end.
Definition committed : Store := (commit_transition any_time tick_claim tick_transition (mkClock 10 10) 601 claimed).2.

Lemma claimed_coherent : coherent 1 (view 1 claimed) (instance_of started) (envelope_of started).
Proof. apply coherent_lease, started_coherent. Qed.
Lemma committed_ok : commit_transition any_time tick_claim tick_transition (mkClock 10 10) 601 claimed = (Ok (Committed 1), committed).
Proof. vm_compute. reflexivity. Qed.
#[local] Opaque tick_transition.
Lemma tick_starts_others id : starts_others id tick_transition.
Proof. intros c. vm_compute. intros H. by inversion H. Qed.


Lemma commit_touches_one_aggregate_witness : view 2 committed = view 2 claimed.
Proof.
  apply (commit_touches_one_aggregate any_time tick_claim tick_transition (mkClock 10 10) 601 claimed 2);
    [discriminate|apply tick_starts_others].
Defined.

#[local] Opaque committed.



(** ** Reachable stores *)

(** A start is a commit. *)
Lemma start_reachable chrono en env c s id s' ms :
  start_command chrono en env c s = (Ok id, s') -> lookup_start_instance (en_tenant_id en) (sc_idempotency_key c) s = None ->
  reachable chrono (s, ms) -> reachable chrono (s', ms).
Proof.
  intros (_ & _ & H)%start_command_inv Hl Hr. destruct H as [[H _]|(_ & _ & ph & rev & Hc)]; [congruence|].
  apply (f_equal snd) in Hc. cbn [snd] in Hc. rewrite <-Hc. eapply reach_step; [exact Hr|].
  apply step_commit; [reflexivity|]. right. split; reflexivity.
Qed.

Lemma started_reachable : reachable any_time (started, []).
Proof.
  apply (start_reachable any_time toy_engine (toy_env 0) toy_start MemoryStore_new 1 started [] started_ok);
    [vm_compute; reflexivity|apply reach_new].
Qed.

Lemma committed_reachable : reachable any_time (committed, [tick_claim]).
Proof.
  eapply (reach_step _ (claimed, [tick_claim])).
  - eapply reach_step; [exact started_reachable|].
    apply (step_claim any_time "default" 1 "owner-a" 5000 (mkClock 10 10) 600 started (Ok (Some tick_claim)) claimed []).
    vm_compute. reflexivity.
  - with_strategy 0 [committed] unfold committed. apply step_commit; [vm_compute; reflexivity|]. left. apply list_elem_of_here.
Qed.


(** A worker claims the activation of the started instance. *)
Definition worker_store : Store :=
  (claim_ready_activations "default" "worker-a" 5 1000 (mkClock 20 20) (λ n, (800 + N.of_nat n)%N) started).2.
#[local] Opaque worker_store.
Definition worker_activation : option (N * MemoryActivation) := head (map_to_list (st_activations worker_store)).

Lemma one_activation_per_instance_witness :
  ∃ k a, st_activations worker_store !! k = Some a ∧ ma_status a = ActClaimed ∧ ma_instance_id a = 1%N ∧
    ∀ k2 a2, st_activations worker_store !! k2 = Some a2 -> ma_status a2 = ActClaimed -> ma_tenant_id a2 = "default" ->
      ma_instance_id a2 = 1%N -> k2 = k.
Proof.
  destruct worker_activation as [[k a]|] eqn:E; [|by vm_compute in E].
  assert (Hk : st_activations worker_store !! k = Some a).
  { apply elem_of_map_to_list, head_Some_elem_of. exact E. }
  assert (Ha : ma_status a = ActClaimed ∧ ma_tenant_id a = "default" ∧ ma_instance_id a = 1%N).
  { clear Hk. vm_compute in E. injection E as <- <-. split_and!; reflexivity. }
  destruct Ha as (Hs & Ht & Hi). exists k, a. split; [exact Hk|]. split; [exact Hs|]. split; [exact Hi|].
  intros k2 a2 Hk2 Hs2 Ht2 Hi2.
  apply (one_activation_per_instance any_time worker_store [] k2 k a2 a); try assumption; [|congruence|congruence].
  eapply reach_step; [exact started_reachable|]. with_strategy 0 [worker_store] unfold worker_store.
  apply step_queue, op_claim_activations.
Defined.

(** ** Quarantine *)

(** A transition that carries a quarantine. *)
Definition quarantining : Transition := builder_new (set_quarantine_state (Some "manual") (instance_of started)).

Lemma commit_keeps_quarantine_witness :
  ∃ i', st_instances (commit_transition any_time tick_claim quarantining (mkClock 10 10) 601 claimed).2 !! 1%N = Some i' ∧
    quarantine_state i' = None.
Proof.
  destruct (commit_keeps_quarantine any_time tick_claim quarantining (mkClock 10 10) 601 claimed 1 (instance_of started))
    as (i' & Hi & Hq).
  - reflexivity.
  - vm_compute. reflexivity.
  - exists i'. split; [exact Hi|]. rewrite Hq. vm_compute. reflexivity.
Defined.

(** An engine that no longer has the artifact. *)
Definition bare_engine : Engine := mkEngine "default" "owner-a" 5000 (λ _, None) None (λ _, None).

Lemma recovery_quarantine_lost_witness :
  (recover_instance any_time bare_engine (toy_env 5) "default" 1 "owner-a" 5000 started).1 = Err EngArtifactMissing ∧
  1%N ∈ list_running_instances "default" (recover_instance any_time bare_engine (toy_env 5) "default" 1 "owner-a" 5000 started).2.
Proof.
  split; [vm_compute; reflexivity|].
  apply (recovery_quarantine_lost any_time bare_engine (toy_env 5) "default" 1 "owner-a" 5000 started
    (instance_of started) (envelope_of started) started_coherent).
  - by vm_compute.
  - apply running_elem. exists (instance_of started). vm_compute. done.
  - intros (? & ? & ? & ? & E & _). by vm_compute in E.
  - intros x E. by vm_compute in E.
Defined.

(** ** A rejected completion *)

Definition job_key : string := "1:task0:0:0".
(** [worker-a] holds the job under the token 700 ... *)
Definition held : Store := activated.2.
(** ... its claim runs out, and the job is given to [worker-b]. *)
Definition reassigned : Store :=
  (dequeue_jobs ["do_work"] 10 "default" "worker-b" 1000 (mkClock 5001 5001) (λ n, (900 + N.of_nat n)%N)
     (reclaim_stale_jobs (mkClock 5000 5000) held).2).2.
(** The rest of the completion of [worker-a], which had passed the first check. *)
Definition rejected : Result EngineError unit * Store :=
  complete_job_body any_time toy_engine (toy_env 30) job_key "stale" (toy_digest (as_bytes "{}")) ∅
    (Some ("worker-a", "700")) reassigned.
(** The next command on the instance. *)
Definition after_rejection : Result EngineError unit * Store :=
  apply_and_commit_command any_time toy_engine (toy_env 40) 1 (CJobClaimed job_key "worker-b" 6001) rejected.2.

