(* ===== verification/DmnTypes.v ===== *)
(** * dmn-lite: typed decisions and bytecode

    The data of [dmn-lite-types/src]: identifiers ([ids.rs]), the typed
    predicate IR ([ir.rs]), input and output contexts ([values.rs]), the
    bytecode ([instr.rs]), compiled artifacts ([compiled.rs]), traces
    ([trace.rs]) and evaluation errors ([errors.rs]).

    A [usize] index ([FieldId], [RuleId]) is a [nat]; a [u32] index is an [N];
    an [i64] is a [Z]; an [f64] is its 64 bits, compared as IEEE 754
    binary64. *)

From Stdlib Require Import Floats.SpecFloat Strings.Ascii.
From S2P Require Import Prelude RustStr Json Types.

Notation FieldId := nat (only parsing).
Notation RuleId := nat (only parsing).
Notation DomainId := N (only parsing).
Notation ValueId := N (only parsing).

(** [x as u32] for a [usize]. *)
Definition as_u32 (n : nat) : N := (N.of_nat n mod 4294967296)%N.

Record SourceSpan := mkSpan { span_start : N; span_end : N }.

(** ** [f64] *)

(** The value a bit pattern stands for. *)
Definition f64_decode (bits : N) : spec_float :=
  let sign := N.testbit bits 63 in
  let e := N.land (N.shiftr bits 52) 2047 in
  let m := N.land bits (2 ^ 52 - 1) in
  if (e =? 2047)%N then (if (m =? 0)%N then S754_infinity sign else S754_nan)
  else if (e =? 0)%N then
    match m with N0 => S754_zero sign | Npos p => S754_finite sign p (-1074) end
  else
    match (m + 2 ^ 52)%N with
    | N0 => S754_zero sign
    | Npos p => S754_finite sign p (Z.of_N e - 1075)
    end.

(** [x as f64] for an [i64]: round to nearest, ties to even. *)
Definition i64_to_f64 (z : Z) : spec_float := binary_normalize 53 1024 z 0 false.

(** [f64::partial_cmp] and [f64]'s [PartialEq]. *)
Definition f64_partial_cmp (a b : spec_float) : option comparison := SFcompare a b.
Definition f64_eq (a b : N) : bool := SFeqb (f64_decode a) (f64_decode b).

(** ** The typed predicate IR *)

Inductive HitPolicy := Unique | First.

Inductive ResolvedType :=
| RTEnum (domain_id : DomainId)
| RTBool
| RTInteger
| RTDecimal
| RTStr.

Definition type_name (t : ResolvedType) : string :=
  match t with
  | RTEnum _ => "enum" | RTBool => "bool" | RTInteger => "integer"
  | RTDecimal => "decimal" | RTStr => "string"
  end.

Definition is_numeric (t : ResolvedType) : bool :=
  match t with RTInteger | RTDecimal => true | _ => false end.

Inductive TypedValue :=
| TVEnum (domain_id : DomainId) (value_id : ValueId)
| TVBool (b : bool)
| TVInteger (z : Z)
| TVDecimal (bits : N)
| TVStr (s : string)
| TVNull.

(** The derived [PartialEq] of [TypedValue]: structural, with IEEE equality of
    decimals. *)
Definition typed_value_eqb (a b : TypedValue) : bool :=
  match a, b with
  | TVEnum d v, TVEnum d' v' => (d =? d')%N && (v =? v')%N
  | TVBool x, TVBool y => Bool.eqb x y
  | TVInteger x, TVInteger y => (x =? y)%Z
  | TVDecimal x, TVDecimal y => f64_eq x y
  | TVStr x, TVStr y => bool_decide (x = y)
  | TVNull, TVNull => true
  | _, _ => false
  end.

Inductive ComparisonOp := OpEq | OpNotEq | OpLt | OpLe | OpGt | OpGe.

Inductive TypedPredicate :=
| PComparison (field : FieldId) (op : ComparisonOp) (rhs : TypedValue) (span : SourceSpan)
| PInSet (field : FieldId) (values : list TypedValue) (span : SourceSpan)
| PRange (field : FieldId) (lower upper : option TypedValue)
    (lower_inclusive upper_inclusive : bool) (span : SourceSpan)
| PIsNull (field : FieldId) (span : SourceSpan)
| PIsNotNull (field : FieldId) (span : SourceSpan)
| PNot (inner : TypedPredicate) (span : SourceSpan)
| PAnd (items : list TypedPredicate) (span : SourceSpan)
| POr (items : list TypedPredicate) (span : SourceSpan).

(** [pred_span], defined identically in the evaluator and the emitter. *)
Definition pred_span (p : TypedPredicate) : SourceSpan :=
  match p with
  | PComparison _ _ _ s | PInSet _ _ s | PRange _ _ _ _ _ s | PIsNull _ s | PIsNotNull _ s
  | PNot _ s | PAnd _ s | POr _ s => s
  end.

Inductive TypedWhen :=
| CatchAll (span : SourceSpan)
| Predicates (preds : list TypedPredicate) (span : SourceSpan).

Record TypedAssignment := mkAssignment {
  output_field : FieldId;
  asg_value : TypedValue;
  asg_span : SourceSpan;
}.

Record TypedRule := mkRule {
  rule_id : RuleId;
  rule_name : string;
  rule_when : TypedWhen;
  rule_then : list TypedAssignment;
  rule_span : SourceSpan;
}.

Record FieldSchema := mkField {
  field_id : FieldId;
  field_name : string;
  field_type : ResolvedType;
  field_span : SourceSpan;
}.

Record EntityRef := mkEntity {
  entity_domain : DomainId;
  entity_value : ValueId;
  entity_span : SourceSpan;
}.

Record TypedDecision := mkDecision {
  decision_id : string;
  dec_name : string;
  hit_policy : HitPolicy;
  input_schema : list FieldSchema;
  output_schema : list FieldSchema;
  dec_rules : list TypedRule;
  resolved_entities : list EntityRef;
  dec_span : SourceSpan;
}.

(** Induction on predicates that reaches into conjunctions and disjunctions. *)
Section TypedPredicate_ind'.
Variable P : TypedPredicate -> Prop.
Hypothesis HComparison : ∀ f op rhs s, P (PComparison f op rhs s).
Hypothesis HInSet : ∀ f vs s, P (PInSet f vs s).
Hypothesis HRange : ∀ f lo hi li ui s, P (PRange f lo hi li ui s).
Hypothesis HIsNull : ∀ f s, P (PIsNull f s).
Hypothesis HIsNotNull : ∀ f s, P (PIsNotNull f s).
Hypothesis HNot : ∀ p s, P p -> P (PNot p s).
Hypothesis HAnd : ∀ items s, Forall P items -> P (PAnd items s).
Hypothesis HOr : ∀ items s, Forall P items -> P (POr items s).

Fixpoint TypedPredicate_ind' (p : TypedPredicate) : P p :=
  let go := fix go (l : list TypedPredicate) : Forall P l :=
    match l with
    | [] => @List.Forall_nil _ P
    | x :: l' => @List.Forall_cons _ P x l' (TypedPredicate_ind' x) (go l')
    end in
  match p with
  | PComparison f op rhs s => HComparison f op rhs s
  | PInSet f vs s => HInSet f vs s
  | PRange f lo hi li ui s => HRange f lo hi li ui s
  | PIsNull f s => HIsNull f s
  | PIsNotNull f s => HIsNotNull f s
  | PNot inner s => HNot inner s (TypedPredicate_ind' inner)
  | PAnd items s => HAnd items s (go items)
  | POr items s => HOr items s (go items)
  end.
End TypedPredicate_ind'.

(** ** Contexts *)

Record TypedInputContext := mkInput {
  in_slots : list (option TypedValue);
  in_schema_hash : N;
}.

(** [TypedInputContext::get]: [self.slots.get(field_id.0)?.as_ref()]. *)
Definition input_get (input : TypedInputContext) (f : FieldId) : option TypedValue :=
  match in_slots input !! f with Some slot => slot | None => None end.

Record TypedOutputContext := mkOutput {
  out_slots : list TypedValue;
  out_schema_hash : N;
}.

(** ** Traces and errors *)

Record PredicateTrace := mkPredTrace {
  pt_result : bool;
  pt_span : SourceSpan;
  pt_description : string;
}.

Record RuleTrace := mkRuleTrace {
  rt_rule_id : RuleId;
  rt_rule_name : string;
  rt_matched : bool;
  rt_predicates : list PredicateTrace;
  rt_span : SourceSpan;
}.

Inductive TraceOutcome :=
| OutcomeMatch (rule_id : RuleId)
| OutcomeNoMatch
| OutcomeMultipleMatches (rules : list RuleId)
| OutcomeEvalError.

Record EvaluationTrace := mkTrace {
  tr_rules : list RuleTrace;
  tr_outcome : TraceOutcome;
}.

Record EvaluationOutput := mkEvaluation {
  ev_output : TypedOutputContext;
  ev_trace : EvaluationTrace;
}.

Inductive EvalError :=
| NoMatch
| MultipleMatches (rules : list RuleId)
| InputSchemaMismatch (expected actual : nat)
| InputTypeMismatch (field : string) (field_id : FieldId) (expected actual : string)
| InputDomainMismatch (field : string) (field_id : FieldId) (domain symbol : string)
| SchemaHashMismatch.

(** ** Bytecode *)

Inductive AggregateOpKind := AggCount | AggSum | AggMin | AggMax | AggMean.

Inductive DInstr :=
| DLoadField (f : FieldId)
| DPushConst (c : N)
| DPushConstSet (s : N)
| DPop
| DDup
| DEq
| DNotEq
| DLt
| DLe
| DGt
| DGe
| DInSet
| DRangeCheck (r : N)
| DIsNull
| DIsNotNull
| DAnd
| DOr
| DNot
| DBr (addr : N)
| DBrFalse (addr : N)
| DBrTrue (addr : N)
| DRuleMatched (r : RuleId)
| DStoreOutputTos (f : N)
| DStoreOutput (f c : N)
| DEndDecision
| DCall (b : N)
| DReturn
| DForAllBegin (collection : FieldId) (bound_var : N) (end_ : N)
| DForAllEnd
| DAggregateBegin (collection : FieldId) (bound_var : N) (op : AggregateOpKind) (end_ : N)
| DAggregateEnd
| DLoadPath (p : N).

(** [Instr::is_reserved]. *)
Definition is_reserved (i : DInstr) : bool :=
  match i with
  | DCall _ | DReturn | DForAllBegin _ _ _ | DForAllEnd | DAggregateBegin _ _ _ _
  | DAggregateEnd | DLoadPath _ => true
  | _ => false
  end.

(** [Instr::mnemonic]. *)
Definition mnemonic (i : DInstr) : string :=
  match i with
  | DLoadField _ => "LoadField" | DPushConst _ => "PushConst" | DPushConstSet _ => "PushConstSet"
  | DPop => "Pop" | DDup => "Dup" | DEq => "Eq" | DNotEq => "NotEq" | DLt => "Lt" | DLe => "Le"
  | DGt => "Gt" | DGe => "Ge" | DInSet => "InSet" | DRangeCheck _ => "RangeCheck"
  | DIsNull => "IsNull" | DIsNotNull => "IsNotNull" | DAnd => "And" | DOr => "Or" | DNot => "Not"
  | DBr _ => "Br" | DBrFalse _ => "BrFalse" | DBrTrue _ => "BrTrue"
  | DRuleMatched _ => "RuleMatched" | DStoreOutputTos _ => "StoreOutputTos"
  | DStoreOutput _ _ => "StoreOutput" | DEndDecision => "EndDecision" | DCall _ => "Call"
  | DReturn => "Return" | DForAllBegin _ _ _ => "ForAllBegin" | DForAllEnd => "ForAllEnd"
  | DAggregateBegin _ _ _ _ => "AggregateBegin" | DAggregateEnd => "AggregateEnd"
  | DLoadPath _ => "LoadPath"
  end.

Record RangeEntry := mkRange {
  range_lower : option TypedValue;
  range_upper : option TypedValue;
  range_lower_inclusive : bool;
  range_upper_inclusive : bool;
}.

Record RuleMapEntry := mkRuleEntry {
  rme_rule_id : RuleId;
  rme_rule_name : string;
  rme_entry_addr : N;
  rme_span : SourceSpan;
}.

(** [CompiledDecision], without the compile-time metadata (wall clock, compiler
    version, snapshot id). *)
Record CompiledDecision := mkCompiled {
  cd_decision_id : string;
  cd_name : string;
  cd_hit_policy : HitPolicy;
  cd_input_schema : list FieldSchema;
  cd_output_schema : list FieldSchema;
  cd_const_pool : list TypedValue;
  cd_const_set_pool : list (list TypedValue);
  cd_range_pool : list RangeEntry;
  cd_instructions : list DInstr;
  cd_source_spans : list SourceSpan;
  cd_rule_map : list RuleMapEntry;
  cd_artifact_hash : list Byte.byte;
  cd_typed_ir : TypedDecision;
}.

(** ** Numbers and text shared by both evaluators *)

(** [compare_numeric], defined identically in the evaluator and the VM. *)
Definition compare_numeric (a b : TypedValue) : option comparison :=
  match a, b with
  | TVInteger x, TVInteger y => Some (Z.compare x y)
  | TVInteger x, TVDecimal y => f64_partial_cmp (i64_to_f64 x) (f64_decode y)
  | TVDecimal x, TVInteger y => f64_partial_cmp (f64_decode x) (i64_to_f64 y)
  | TVDecimal x, TVDecimal y => f64_partial_cmp (f64_decode x) (f64_decode y)
  | _, _ => None
  end.

(** [Option::is_some_and]. *)
Definition is_some_and {A} (o : option A) (p : A -> bool) : bool :=
  match o with Some x => p x | None => false end.

Definition is_lt (o : comparison) : bool := match o with Lt => true | _ => false end.
Definition is_eq (o : comparison) : bool := match o with Eq => true | _ => false end.
Definition is_gt (o : comparison) : bool := match o with Gt => true | _ => false end.

(** [str::is_char_boundary]. *)
Definition is_char_boundary (l : list Byte.byte) (i : nat) : bool :=
  if (i =? 0)%nat then true
  else match l !! i with
       | Some b => negb (is_cont b)
       | None => (i =? length l)%nat
       end.

(** [source.get(span.start as usize..span.end as usize).unwrap_or("").to_owned()]. *)
Definition extract_source (source : string) (span : SourceSpan) : string :=
  let l := as_bytes source in
  let a := N.to_nat (span_start span) in
  let b := N.to_nat (span_end span) in
  if (a <=? b)%nat && is_char_boundary l a && is_char_boundary l b
  then String.string_of_list_byte (take (b - a) (drop a l))
  else "".

Example f64_five : f64_partial_cmp (i64_to_f64 5) (f64_decode 4617315517961601024) = Some Eq.
Proof. reflexivity. Qed.
Example f64_nan : f64_eq 9221120237041090560 9221120237041090560 = false.
Proof. reflexivity. Qed.
Example f64_zeros : f64_eq 0 9223372036854775808 = true.
Proof. reflexivity. Qed.
Example extract_source_cut : extract_source "(x = 5)" (mkSpan 1 2) = "x".
Proof. reflexivity. Qed.
