(* ===== verification/DmnReference.v ===== *)
(** * dmn-lite: the reference evaluator

    [dmn-lite-engine/src/reference.rs]: every predicate of every rule is
    evaluated over the typed IR, then the hit policy picks the winner.  The
    schema hash ([DefaultHasher]) is an argument; an out-of-range output slot
    is a panic, [None]. *)

From S2P Require Import Prelude RustStr Json Types DmnTypes.

(** The derived equality; [NaN] differs from itself. *)
Definition ref_values_equal (a b : TypedValue) : bool := typed_value_eqb a b.

(** The value of a field that is neither missing nor null. *)
Definition present (input : TypedInputContext) (f : FieldId) : option TypedValue :=
  match input_get input f with
  | None | Some TVNull => None
  | Some v => Some v
  end.

Definition eval_comparison (field : FieldId) (op : ComparisonOp) (rhs : TypedValue)
    (input : TypedInputContext) : bool :=
  match present input field with
  | None => false
  | Some lhs =>
      match op with
      | OpEq => ref_values_equal lhs rhs
      | OpNotEq => match rhs with TVNull => false | _ => negb (ref_values_equal lhs rhs) end
      | OpLt => is_some_and (compare_numeric lhs rhs) is_lt
      | OpLe => is_some_and (compare_numeric lhs rhs) (λ o, negb (is_gt o))
      | OpGt => is_some_and (compare_numeric lhs rhs) is_gt
      | OpGe => is_some_and (compare_numeric lhs rhs) (λ o, negb (is_lt o))
      end
  end.

Definition eval_in_set (field : FieldId) (values : list TypedValue) (input : TypedInputContext) : bool :=
  match present input field with
  | None => false
  | Some lhs => existsb (ref_values_equal lhs) values
  end.

(** The two bound checks of [eval_range], shared with the VM's range check. *)
Definition lower_bound_ok (v : TypedValue) (lower : option TypedValue) (inclusive : bool) : bool :=
  match lower with
  | None => true
  | Some lo =>
      match compare_numeric v lo with
      | None => false
      | Some Lt => false
      | Some Eq => inclusive
      | Some Gt => true
      end
  end.
Definition upper_bound_ok (v : TypedValue) (upper : option TypedValue) (inclusive : bool) : bool :=
  match upper with
  | None => true
  | Some hi =>
      match compare_numeric v hi with
      | None => false
      | Some Gt => false
      | Some Eq => inclusive
      | Some Lt => true
      end
  end.

Definition eval_range (field : FieldId) (lower upper : option TypedValue)
    (lower_inclusive upper_inclusive : bool) (input : TypedInputContext) : bool :=
  match present input field with
  | None => false
  | Some lhs => lower_bound_ok lhs lower lower_inclusive && upper_bound_ok lhs upper upper_inclusive
  end.

Definition eval_is_null (field : FieldId) (input : TypedInputContext) : bool :=
  match present input field with None => true | Some _ => false end.
Definition eval_is_not_null (field : FieldId) (input : TypedInputContext) : bool :=
  match present input field with None => false | Some _ => true end.

(** [eval_predicate]: conjunctions and disjunctions collect every result. *)
Fixpoint eval_predicate (p : TypedPredicate) (input : TypedInputContext) : bool :=
  match p with
  | PComparison field op rhs _ => eval_comparison field op rhs input
  | PInSet field values _ => eval_in_set field values input
  | PRange field lower upper li ui _ => eval_range field lower upper li ui input
  | PIsNull field _ => eval_is_null field input
  | PIsNotNull field _ => eval_is_not_null field input
  | PNot inner _ => negb (eval_predicate inner input)
  | PAnd items _ => forallb (λ r, r) (map (λ q, eval_predicate q input) items)
  | POr items _ => existsb (λ r, r) (map (λ q, eval_predicate q input) items)
  end.

Definition eval_rule (rule : TypedRule) (input : TypedInputContext) (source : string)
  : bool * list PredicateTrace :=
  match rule_when rule with
  | CatchAll span => (true, [mkPredTrace true span "catch-all"])
  | Predicates preds _ =>
      let traces := map (λ p, mkPredTrace (eval_predicate p input) (pred_span p)
                                (extract_source source (pred_span p))) preds in
      (forallb pt_result traces, traces)
  end.

Definition value_type_name (v : TypedValue) : string :=
  match v with
  | TVEnum _ _ => "enum" | TVBool _ => "bool" | TVInteger _ => "integer"
  | TVDecimal _ => "decimal" | TVStr _ => "string" | TVNull => "null"
  end.

Section reference.
(** [Uuid]'s [Display], for the domain of an error, and [compute_schema_hash]. *)
Context (show_domain : DomainId -> string) (schema_hash : list FieldSchema -> N).

Definition check_input_type_match (id : FieldId) (name : string) (expected : ResolvedType)
    (actual : TypedValue) : Result EvalError unit :=
  let mismatch := Err (InputTypeMismatch name id (type_name expected) (value_type_name actual)) in
  match expected, actual with
  | RTEnum domain, TVEnum d _ =>
      if (domain =? d)%N then Ok tt
      else Err (InputDomainMismatch name id (show_domain domain) ("domain " +:+ show_domain d))
  | RTBool, TVBool _ => Ok tt
  | RTInteger, TVInteger _ => Ok tt
  | RTDecimal, (TVDecimal _ | TVInteger _) => Ok tt
  | RTStr, TVStr _ => Ok tt
  | _, _ => mismatch
  end.

Definition validate_input_types (d : TypedDecision) (input : TypedInputContext) : Result EvalError unit :=
  try_for_each (λ field,
    match present input (field_id field) with
    | None => Ok tt
    | Some v => check_input_type_match (field_id field) (field_name field) (field_type field) v
    end) (input_schema d).

(** [apply_hit_policy]: the winning rule and its assignments. *)
Definition apply_hit_policy (policy : HitPolicy) (matched : list (RuleId * list TypedAssignment))
  : Result EvalError (RuleId * list TypedAssignment) :=
  match policy with
  | Unique =>
      match matched with
      | [] => Err NoMatch
      | [m] => Ok m
      | _ => Err (MultipleMatches (map fst matched))
      end
  | First => match matched with [] => Err NoMatch | m :: _ => Ok m end
  end.

(** [slots[a.output_field.0] = a.value.clone()] for each assignment. *)
Fixpoint assign_slots (slots : list TypedValue) (l : list TypedAssignment) : option (list TypedValue) :=
  match l with
  | [] => Some slots
  | a :: l' =>
      if (output_field a <? length slots)%nat
      then assign_slots (<[output_field a := asg_value a]> slots) l'
      else None
  end.

Definition build_output_context (schema : list FieldSchema) (l : list TypedAssignment)
  : option TypedOutputContext :=
  slots ← assign_slots (replicate (length schema) TVNull) l;
  Some (mkOutput slots (schema_hash schema)).

(** The loop over the rules: every trace, and the rules that matched. *)
Definition eval_rules (rules : list TypedRule) (input : TypedInputContext) (source : string)
  : list RuleTrace * list (RuleId * list TypedAssignment) :=
  foldl (λ acc rule,
    let '(matched, traces) := eval_rule rule input source in
    (acc.1 ++ [mkRuleTrace (rule_id rule) (rule_name rule) matched traces (rule_span rule)],
     if matched then acc.2 ++ [(rule_id rule, rule_then rule)] else acc.2)) ([], []) rules.

(** The schema checks both evaluators start with. *)
Definition check_schema (schema : list FieldSchema) (input : TypedInputContext) : Result EvalError unit :=
  _ ← ensure (schema_hash schema =? in_schema_hash input)%N SchemaHashMismatch;
  ensure (length (in_slots input) =? length schema)%nat
    (InputSchemaMismatch (length schema) (length (in_slots input))).

(** [reference::evaluate]. *)
Definition reference_evaluate (d : TypedDecision) (input : TypedInputContext) (source : string)
  : option (Result EvalError EvaluationOutput) :=
  match check_schema (input_schema d) input with
  | Err e => Some (Err e)
  | Ok _ =>
      match validate_input_types d input with
      | Err e => Some (Err e)
      | Ok _ =>
          let '(traces, matched) := eval_rules (dec_rules d) input source in
          match apply_hit_policy (hit_policy d) matched with
          | Err e => Some (Err e)
          | Ok (winner, then_) =>
              output ← build_output_context (output_schema d) then_;
              Some (Ok (mkEvaluation output (mkTrace traces (OutcomeMatch winner))))
          end
      end
  end.

End reference.
