(* ===== verification/DmnVm.v ===== *)
(** * dmn-lite: the stack VM

    [dmn-lite-engine/src/vm.rs].  The data stack is a list with its top first.
    An index out of bounds is a panic; the loop of [run_vm] runs on fuel. *)

From S2P Require Import Prelude RustStr Json Types DmnTypes DmnReference.

Record VmState := mkVm {
  vm_pc : N;
  vm_stack : list TypedValue;
  vm_matched : list RuleId;
  vm_output : list (option TypedValue);
  vm_halted : bool;
  vm_rule_traces : list RuleTrace;
  vm_predicates : list PredicateTrace;
  vm_rule_idx : option nat;
}.

Definition VmState_new (c : CompiledDecision) : VmState :=
  mkVm 0 [] [] (replicate (length (cd_output_schema c)) None) false [] [] None.

(** Field assignments. *)
Definition vm_set_pc (pc : N) (s : VmState) : VmState :=
  mkVm pc (vm_stack s) (vm_matched s) (vm_output s) (vm_halted s) (vm_rule_traces s)
    (vm_predicates s) (vm_rule_idx s).
Definition vm_set_stack (l : list TypedValue) (s : VmState) : VmState :=
  mkVm (vm_pc s) l (vm_matched s) (vm_output s) (vm_halted s) (vm_rule_traces s)
    (vm_predicates s) (vm_rule_idx s).
Definition set_matched (l : list RuleId) (s : VmState) : VmState :=
  mkVm (vm_pc s) (vm_stack s) l (vm_output s) (vm_halted s) (vm_rule_traces s)
    (vm_predicates s) (vm_rule_idx s).
Definition set_output (l : list (option TypedValue)) (s : VmState) : VmState :=
  mkVm (vm_pc s) (vm_stack s) (vm_matched s) l (vm_halted s) (vm_rule_traces s)
    (vm_predicates s) (vm_rule_idx s).
Definition set_halted (b : bool) (s : VmState) : VmState :=
  mkVm (vm_pc s) (vm_stack s) (vm_matched s) (vm_output s) b (vm_rule_traces s)
    (vm_predicates s) (vm_rule_idx s).
Definition set_trace (traces : list RuleTrace) (preds : list PredicateTrace) (idx : option nat)
    (s : VmState) : VmState :=
  mkVm (vm_pc s) (vm_stack s) (vm_matched s) (vm_output s) (vm_halted s) traces preds idx.

(** [state.pop().unwrap_or(default)] and [state.push(v)]. *)
Definition pop_or (default : TypedValue) (s : VmState) : TypedValue * VmState :=
  match vm_stack s with
  | v :: rest => (v, vm_set_stack rest s)
  | [] => (default, s)
  end.
Definition push (v : TypedValue) (s : VmState) : VmState := vm_set_stack (v :: vm_stack s) s.
(** [state.pc += 1] (an overflow of the [u32] is a panic, see [step]). *)
Definition next_pc (s : VmState) : VmState := vm_set_pc (vm_pc s + 1) s.

Definition pop2 (s : VmState) : TypedValue * TypedValue * VmState :=
  let '(b, s) := pop_or TVNull s in
  let '(a, s) := pop_or TVNull s in
  (a, b, s).

(** The VM's equality: null equals nothing. *)
Definition vm_values_equal (a b : TypedValue) : bool :=
  match a, b with
  | TVNull, _ | _, TVNull => false
  | _, _ => typed_value_eqb a b
  end.

Definition as_bool (v : TypedValue) : bool := match v with TVBool b => b | _ => false end.

Definition is_tv_null (v : TypedValue) : bool := match v with TVNull => true | _ => false end.

Definition eval_range_check (v : TypedValue) (r : RangeEntry) : bool :=
  match v with
  | TVNull => false
  | _ => lower_bound_ok v (range_lower r) (range_lower_inclusive r)
         && upper_bound_ok v (range_upper r) (range_upper_inclusive r)
  end.

(** ** Traces *)

(** [detect_rule_transition]: the first rule that starts at [pc]. *)
Definition detect_rule_transition (rule_map : list RuleMapEntry) (pc : N) (s : VmState) : VmState :=
  match position (λ e, (rme_entry_addr e =? pc)%N) rule_map with
  | Some idx => set_trace (vm_rule_traces s) [] (Some idx) s
  | None => s
  end.

Definition record_predicate_trace (source : string) (result : bool) (span : SourceSpan) (s : VmState)
  : VmState :=
  set_trace (vm_rule_traces s)
    (vm_predicates s ++ [mkPredTrace result span (extract_source source span)]) (vm_rule_idx s) s.

(** [state.rule_map[idx]]: [idx] is a position of the map. *)
Definition finalise_non_matching_rule (rule_map : list RuleMapEntry) (s : VmState) : option VmState :=
  match vm_rule_idx s with
  | None => Some s
  | Some idx =>
      entry ← rule_map !! idx;
      Some (set_trace (vm_rule_traces s ++
              [mkRuleTrace (rme_rule_id entry) (rme_rule_name entry) false (vm_predicates s)
                 (rme_span entry)]) [] None s)
  end.

Definition finalise_matching_rule (rule_map : list RuleMapEntry) (rid : RuleId) (s : VmState)
  : option VmState :=
  match vm_rule_idx s with
  | None => Some s
  | Some idx =>
      entry ← rule_map !! idx;
      let predicates :=
        match vm_predicates s with
        | [] => [mkPredTrace true (rme_span entry) "catch-all"]
        | l => l
        end in
      Some (set_trace (vm_rule_traces s ++
              [mkRuleTrace rid (rme_rule_name entry) true predicates (rme_span entry)]) [] None s)
  end.

(** ** One instruction *)

(** The comparison instructions: pop two, push the verdict. *)
Definition binary_op (f : TypedValue -> TypedValue -> bool) (s : VmState) : VmState :=
  let '(a, b, s) := pop2 s in next_pc (push (TVBool (f a b)) s).
Definition unary_op (default : TypedValue) (f : TypedValue -> bool) (s : VmState) : VmState :=
  let '(v, s) := pop_or default s in next_pc (push (TVBool (f v)) s).

(** [values_equal] negated, null on either side giving [false]. *)
Definition vm_not_equal (a b : TypedValue) : bool :=
  if is_tv_null a || is_tv_null b then false else negb (vm_values_equal a b).

(** [sid as usize] for an [i64]. *)
Definition i64_as_usize (z : Z) : nat := Z.to_nat (z mod 2 ^ 64).

Definition exec_in_set (c : CompiledDecision) (s : VmState) : option VmState :=
  let '(set_id, s) := pop_or TVNull s in
  let '(value, s) := pop_or TVNull s in
  match set_id with
  | TVInteger sid =>
      set ← cd_const_set_pool c !! i64_as_usize sid;
      Some (next_pc (push (TVBool (existsb (vm_values_equal value) set)) s))
  | _ => Some (next_pc (push (TVBool false) s))
  end.

(** [state.output[fid] = Some(v)]. *)
Definition store_output (f : N) (v : TypedValue) (s : VmState) : option VmState :=
  if (N.to_nat f <? length (vm_output s))%nat
  then Some (set_output (<[N.to_nat f := Some v]> (vm_output s)) s)
  else None.

Definition exec_br_false (c : CompiledDecision) (source : string) (span : SourceSpan) (addr : N)
    (s : VmState) : option VmState :=
  let '(v, s) := pop_or (TVBool false) s in
  let s := record_predicate_trace source (as_bool v) span s in
  if as_bool v then Some (next_pc s)
  else s ← finalise_non_matching_rule (cd_rule_map c) s; Some (vm_set_pc addr s).

(** The body of [step]'s match. *)
Definition exec (c : CompiledDecision) (input : TypedInputContext) (source : string)
    (i : DInstr) (span : SourceSpan) (s : VmState) : option VmState :=
  match i with
  | DLoadField f => Some (next_pc (push (default TVNull (input_get input f)) s))
  | DPushConst cid => v ← cd_const_pool c !! N.to_nat cid; Some (next_pc (push v s))
  | DPushConstSet sid => Some (next_pc (push (TVInteger (Z.of_N sid)) s))
  | DPop => Some (next_pc (pop_or TVNull s).2)
  | DDup => Some (next_pc (match vm_stack s with v :: _ => push v s | [] => s end))
  | DEq => Some (binary_op vm_values_equal s)
  | DNotEq => Some (binary_op vm_not_equal s)
  | DLt => Some (binary_op (λ a b, is_some_and (compare_numeric a b) is_lt) s)
  | DLe => Some (binary_op (λ a b, is_some_and (compare_numeric a b) (λ o, negb (is_gt o))) s)
  | DGt => Some (binary_op (λ a b, is_some_and (compare_numeric a b) is_gt) s)
  | DGe => Some (binary_op (λ a b, is_some_and (compare_numeric a b) (λ o, negb (is_lt o))) s)
  | DInSet => exec_in_set c s
  | DRangeCheck r =>
      let '(v, s) := pop_or TVNull s in
      range ← cd_range_pool c !! N.to_nat r;
      Some (next_pc (push (TVBool (eval_range_check v range)) s))
  | DIsNull => Some (unary_op TVNull is_tv_null s)
  | DIsNotNull => Some (unary_op TVNull (λ v, negb (is_tv_null v)) s)
  | DAnd => Some (binary_op (λ a b, as_bool a && as_bool b) s)
  | DOr => Some (binary_op (λ a b, as_bool a || as_bool b) s)
  | DNot => Some (unary_op (TVBool false) (λ v, negb (as_bool v)) s)
  | DBr addr => Some (vm_set_pc addr s)
  | DBrFalse addr => exec_br_false c source span addr s
  | DBrTrue addr =>
      let '(v, s) := pop_or (TVBool false) s in
      Some (if as_bool v then vm_set_pc addr s else next_pc s)
  | DRuleMatched rid =>
      s ← finalise_matching_rule (cd_rule_map c) rid (set_matched (vm_matched s ++ [rid]) s);
      Some (next_pc s)
  | DStoreOutputTos f =>
      let '(v, s) := pop_or TVNull s in
      s ← store_output f v s; Some (next_pc s)
  | DStoreOutput f cid =>
      v ← cd_const_pool c !! N.to_nat cid;
      s ← store_output f v s; Some (next_pc s)
  | DEndDecision => Some (set_halted true s)
  | _ => Some (next_pc s)
  end.

(** [step].  [None] is a panic. *)
Definition vm_step (c : CompiledDecision) (input : TypedInputContext) (source : string) (s : VmState)
  : option VmState :=
  let pc := N.to_nat (vm_pc s) in
  span ← cd_source_spans c !! pc;
  i ← cd_instructions c !! pc;
  let s := detect_rule_transition (cd_rule_map c) (vm_pc s) s in
  s' ← exec c input source i span s;
  if (vm_pc s' <=? u32_max)%N then Some s' else None.

Inductive VmRun :=
| VmDone (s : VmState)
| VmPanic
| VmOutOfFuel.

(** The loop of [run_vm]. *)
Fixpoint vm_loop (fuel : nat) (c : CompiledDecision) (input : TypedInputContext) (source : string)
    (s : VmState) : VmRun :=
  if vm_halted s || (length (cd_instructions c) <=? N.to_nat (vm_pc s))%nat then VmDone s
  else
    match fuel with
    | O => VmOutOfFuel
    | S fuel' =>
        match vm_step c input source s with
        | Some s' => vm_loop fuel' c input source s'
        | None => VmPanic
        end
    end.

(** ** Finalisation *)

(** [sort_by_key(|t| t.rule_id.0)]: a stable sort, by insertion. *)
Fixpoint insert_trace (t : RuleTrace) (l : list RuleTrace) : list RuleTrace :=
  match l with
  | [] => [t]
  | t' :: l' => if (rt_rule_id t' <=? rt_rule_id t)%nat then t' :: insert_trace t l' else t :: l
  end.
Definition sort_traces (l : list RuleTrace) : list RuleTrace := foldl (λ acc t, insert_trace t acc) [] l.

(** The stub traces of the rules that were never entered. *)
Definition stub_traces (rule_map : list RuleMapEntry) (recorded : list nat) : list RuleTrace :=
  omap (λ e, if bool_decide (rme_rule_id e ∈ recorded) then None
             else Some (mkRuleTrace (rme_rule_id e) (rme_rule_name e) false [] (rme_span e))) rule_map.

Definition vm_outcome (policy : HitPolicy) (matched : list RuleId) : Result EvalError TraceOutcome :=
  match policy with
  | Unique =>
      match matched with
      | [] => Err NoMatch
      | [r] => Ok (OutcomeMatch r)
      | _ => Err (MultipleMatches matched)
      end
  | First => match matched with [] => Err NoMatch | r :: _ => Ok (OutcomeMatch r) end
  end.

Section vm.
Context (schema_hash : list FieldSchema -> N).

Definition finalize (c : CompiledDecision) (s : VmState) : Result EvalError EvaluationOutput :=
  let traces := sort_traces (vm_rule_traces s ++
    stub_traces (cd_rule_map c) (map rt_rule_id (vm_rule_traces s))) in
  outcome ← vm_outcome (cd_hit_policy c) (vm_matched s);
  Ok (mkEvaluation (mkOutput (map (default TVNull) (vm_output s)) (schema_hash (cd_output_schema c)))
        (mkTrace traces outcome)).

(** [vm::evaluate] / [run_vm].  [None] when the fuel does not suffice or the
    VM panics. *)
Definition vm_evaluate (fuel : nat) (c : CompiledDecision) (input : TypedInputContext) (source : string)
  : option (Result EvalError EvaluationOutput) :=
  match check_schema schema_hash (cd_input_schema c) input with
  | Err e => Some (Err e)
  | Ok _ =>
      match vm_loop fuel c input source (VmState_new c) with
      | VmDone s => Some (finalize c s)
      | VmPanic | VmOutOfFuel => None
      end
  end.

End vm.
