(* ===== verification/DmnEmit.v ===== *)
(** * dmn-lite: the bytecode emitter

    [dmn-lite-compiler/src/emit.rs] and the artifact hash of [hash.rs].  The
    emitter mutates an [EmitContext]; here each operation returns the context
    it leaves.  A failed [assert!] is [None].  BLAKE3 comes from the platform
    class. *)

From Stdlib Require Import Strings.Ascii.
From S2P Require Import Prelude RustStr Json Types Platform Canonical DmnTypes.

Global Instance byte_countable : Countable Byte.byte.
Proof. apply (inj_countable Byte.to_N Byte.of_N). apply Byte.of_to_N. Defined.

(** [serialize_typed_value]. *)
Definition serialize_typed_value (v : TypedValue) : list Byte.byte :=
  match v with
  | TVNull => [Byte.x00]
  | TVBool b => [Byte.x01; if b then Byte.x01 else Byte.x00]
  | TVInteger z => Byte.x02 :: le_bytes 8 (i64_as_u64 z)
  | TVDecimal bits => Byte.x03 :: le_bytes 8 bits
  | TVStr s => Byte.x04 :: le_bytes 4 (len (as_bytes s)) ++ as_bytes s
  | TVEnum d v => Byte.x05 :: be_bytes 16 d ++ be_bytes 16 v
  end.

(** ** [EmitContext] *)

Record EmitContext := mkEmit {
  ec_instructions : list DInstr;
  ec_source_spans : list SourceSpan;
  ec_const_pool : list TypedValue;
  ec_const_keys : gmap (list Byte.byte) N;
  ec_const_set_pool : list (list TypedValue);
  ec_const_set_keys : gmap (list (list Byte.byte)) N;
  ec_range_pool : list RangeEntry;
  ec_range_keys : gmap (list Byte.byte) N;
  ec_rule_map : list RuleMapEntry;
  ec_patches_end : list nat;
}.

Definition EmitContext_new : EmitContext := mkEmit [] [] [] ∅ [] ∅ [] ∅ [] [].

Definition ec_emit (i : DInstr) (span : SourceSpan) (x : EmitContext) : EmitContext :=
  mkEmit (ec_instructions x ++ [i]) (ec_source_spans x ++ [span]) (ec_const_pool x) (ec_const_keys x)
    (ec_const_set_pool x) (ec_const_set_keys x) (ec_range_pool x) (ec_range_keys x) (ec_rule_map x)
    (ec_patches_end x).

Definition ec_pc (x : EmitContext) : N := as_u32 (length (ec_instructions x)).

Definition set_instructions (l : list DInstr) (x : EmitContext) : EmitContext :=
  mkEmit l (ec_source_spans x) (ec_const_pool x) (ec_const_keys x)
    (ec_const_set_pool x) (ec_const_set_keys x) (ec_range_pool x) (ec_range_keys x) (ec_rule_map x)
    (ec_patches_end x).
Definition push_rule_entry (e : RuleMapEntry) (x : EmitContext) : EmitContext :=
  mkEmit (ec_instructions x) (ec_source_spans x) (ec_const_pool x) (ec_const_keys x)
    (ec_const_set_pool x) (ec_const_set_keys x) (ec_range_pool x) (ec_range_keys x)
    (ec_rule_map x ++ [e]) (ec_patches_end x).
Definition push_patch_end (i : nat) (x : EmitContext) : EmitContext :=
  mkEmit (ec_instructions x) (ec_source_spans x) (ec_const_pool x) (ec_const_keys x)
    (ec_const_set_pool x) (ec_const_set_keys x) (ec_range_pool x) (ec_range_keys x)
    (ec_rule_map x) (ec_patches_end x ++ [i]).

(** [intern_const]. *)
Definition intern_const (v : TypedValue) (x : EmitContext) : N * EmitContext :=
  let key := serialize_typed_value v in
  match ec_const_keys x !! key with
  | Some idx => (idx, x)
  | None =>
      let idx := as_u32 (length (ec_const_pool x)) in
      (idx, mkEmit (ec_instructions x) (ec_source_spans x) (ec_const_pool x ++ [v])
              (<[key := idx]> (ec_const_keys x)) (ec_const_set_pool x) (ec_const_set_keys x)
              (ec_range_pool x) (ec_range_keys x) (ec_rule_map x) (ec_patches_end x))
  end.

(** The lexicographic order of [Vec<u8>]. *)
Fixpoint bytes_le (a b : list Byte.byte) : bool :=
  match a, b with
  | [], _ => true
  | _ :: _, [] => false
  | x :: a', y :: b' =>
      match N.compare (Byte.to_N x) (Byte.to_N y) with
      | Lt => true
      | Eq => bytes_le a' b'
      | Gt => false
      end
  end.

(** [values.sort_by_key(serialize_typed_value)]: a stable sort, by insertion. *)
Fixpoint insert_value (v : TypedValue) (l : list TypedValue) : list TypedValue :=
  match l with
  | [] => [v]
  | w :: l' =>
      if bytes_le (serialize_typed_value w) (serialize_typed_value v)
      then w :: insert_value v l' else v :: l
  end.
Definition sort_values (l : list TypedValue) : list TypedValue := foldl (λ acc v, insert_value v acc) [] l.

(** [values.dedup_by(..)]: an element equal to the one kept before it goes. *)
Fixpoint dedup_after (last : TypedValue) (l : list TypedValue) : list TypedValue :=
  match l with
  | [] => []
  | v :: l' =>
      if bool_decide (serialize_typed_value v = serialize_typed_value last)
      then dedup_after last l' else v :: dedup_after v l'
  end.
Definition dedup_values (l : list TypedValue) : list TypedValue :=
  match l with [] => [] | v :: l' => v :: dedup_after v l' end.

(** [intern_const_set]. *)
Definition intern_const_set (values : list TypedValue) (x : EmitContext) : N * EmitContext :=
  let values := dedup_values (sort_values values) in
  let keys := map serialize_typed_value values in
  match ec_const_set_keys x !! keys with
  | Some idx => (idx, x)
  | None =>
      let idx := as_u32 (length (ec_const_set_pool x)) in
      (idx, mkEmit (ec_instructions x) (ec_source_spans x) (ec_const_pool x) (ec_const_keys x)
              (ec_const_set_pool x ++ [values]) (<[keys := idx]> (ec_const_set_keys x))
              (ec_range_pool x) (ec_range_keys x) (ec_rule_map x) (ec_patches_end x))
  end.

Definition bound_key (o : option TypedValue) : list Byte.byte :=
  match o with None => [Byte.x00] | Some v => Byte.x01 :: serialize_typed_value v end.
Definition bool_byte (b : bool) : Byte.byte := if b then Byte.x01 else Byte.x00.
Definition range_key (r : RangeEntry) : list Byte.byte :=
  bool_byte (range_lower_inclusive r) :: bool_byte (range_upper_inclusive r)
    :: bound_key (range_lower r) ++ bound_key (range_upper r).

(** [intern_range]. *)
Definition intern_range (r : RangeEntry) (x : EmitContext) : N * EmitContext :=
  let key := range_key r in
  match ec_range_keys x !! key with
  | Some idx => (idx, x)
  | None =>
      let idx := as_u32 (length (ec_range_pool x)) in
      (idx, mkEmit (ec_instructions x) (ec_source_spans x) (ec_const_pool x) (ec_const_keys x)
              (ec_const_set_pool x) (ec_const_set_keys x) (ec_range_pool x ++ [r])
              (<[key := idx]> (ec_range_keys x)) (ec_rule_map x) (ec_patches_end x))
  end.

(** ** Predicates *)

Definition op_instr (op : ComparisonOp) : DInstr :=
  match op with
  | OpEq => DEq | OpNotEq => DNotEq | OpLt => DLt | OpLe => DLe | OpGt => DGt | OpGe => DGe
  end.

Definition emit_comparison (field : FieldId) (op : ComparisonOp) (rhs : TypedValue) (span : SourceSpan)
    (x : EmitContext) : EmitContext :=
  let x := ec_emit (DLoadField field) span x in
  let '(cid, x) := intern_const rhs x in
  let x := ec_emit (DPushConst cid) span x in
  ec_emit (op_instr op) span x.

Definition emit_in_set (field : FieldId) (values : list TypedValue) (span : SourceSpan)
    (x : EmitContext) : EmitContext :=
  let x := ec_emit (DLoadField field) span x in
  let '(sid, x) := intern_const_set values x in
  let x := ec_emit (DPushConstSet sid) span x in
  ec_emit DInSet span x.

Definition emit_range (field : FieldId) (r : RangeEntry) (span : SourceSpan) (x : EmitContext)
  : EmitContext :=
  let x := ec_emit (DLoadField field) span x in
  let '(rid, x) := intern_range r x in
  ec_emit (DRangeCheck rid) span x.

Definition emit_null_test (field : FieldId) (is_null : bool) (span : SourceSpan) (x : EmitContext)
  : EmitContext :=
  ec_emit (if is_null then DIsNull else DIsNotNull) span (ec_emit (DLoadField field) span x).

(** [emit_predicate_nested], with [emit_not], [emit_and] and [emit_or] inlined
    as the recursion demands: the first two operands, the connective, then one
    more operand and the connective for each remaining item. *)
Fixpoint emit_predicate_nested (p : TypedPredicate) (x : EmitContext) : option EmitContext :=
  let connect (i : DInstr) (span : SourceSpan) :=
    fix go (l : list TypedPredicate) (x : EmitContext) : option EmitContext :=
      match l with
      | [] => Some x
      | q :: l' => x ← emit_predicate_nested q x; go l' (ec_emit i span x)
      end in
  match p with
  | PComparison field op rhs span => Some (emit_comparison field op rhs span x)
  | PInSet field values span => Some (emit_in_set field values span x)
  | PRange field lower upper li ui span => Some (emit_range field (mkRange lower upper li ui) span x)
  | PIsNull field span => Some (emit_null_test field true span x)
  | PIsNotNull field span => Some (emit_null_test field false span x)
  | PNot inner span => x ← emit_predicate_nested inner x; Some (ec_emit DNot span x)
  | PAnd (p0 :: p1 :: rest) span =>
      x ← emit_predicate_nested p0 x; connect DAnd span (p1 :: rest) x
  | POr (p0 :: p1 :: rest) span =>
      x ← emit_predicate_nested p0 x; connect DOr span (p1 :: rest) x
  | PAnd _ _ | POr _ _ => None
  end.

(** ** Rules *)

(** [emit_assignments]. *)
Definition emit_assignments (l : list TypedAssignment) (x : EmitContext) : EmitContext :=
  foldl (λ x a,
    let '(cid, x) := intern_const (asg_value a) x in
    let x := ec_emit (DPushConst cid) (asg_span a) x in
    ec_emit (DStoreOutputTos (as_u32 (output_field a))) (asg_span a) x) x l.

(** The loop over the predicates of a [:when] clause: each is followed by a
    [BrFalse] whose index is remembered. *)
Fixpoint emit_preds (preds : list TypedPredicate) (patches : list nat) (x : EmitContext)
  : option (list nat * EmitContext) :=
  match preds with
  | [] => Some (patches, x)
  | p :: preds' =>
      x ← emit_predicate_nested p x;
      let br := length (ec_instructions x) in
      emit_preds preds' (patches ++ [br]) (ec_emit (DBrFalse u32_max) (pred_span p) x)
  end.

Definition emit_when (w : TypedWhen) (x : EmitContext) : option (list nat * EmitContext) :=
  match w with CatchAll _ => Some ([], x) | Predicates preds _ => emit_preds preds [] x end.

(** [if let Instr::BrFalse(ref mut addr) = ctx.instructions[idx] { *addr = target }]
    for each index. *)
Definition patch_br_false (target : N) (patches : list nat) (l : list DInstr) : list DInstr :=
  foldl (λ l idx, match l !! idx with Some (DBrFalse _) => <[idx := DBrFalse target]> l | _ => l end)
    l patches.
Definition patch_br (target : N) (patches : list nat) (l : list DInstr) : list DInstr :=
  foldl (λ l idx, match l !! idx with Some (DBr _) => <[idx := DBr target]> l | _ => l end) l patches.

(** The body of the rule loop. *)
Definition emit_rule (policy : HitPolicy) (rule : TypedRule) (x : EmitContext) : option EmitContext :=
  let x := push_rule_entry (mkRuleEntry (rule_id rule) (rule_name rule) (ec_pc x) (rule_span rule)) x in
  '(patches, x) ← emit_when (rule_when rule) x;
  let x := emit_assignments (rule_then rule) x in
  let x := ec_emit (DRuleMatched (rule_id rule)) (rule_span rule) x in
  let x :=
    match policy with
    | First =>
        let br := length (ec_instructions x) in
        push_patch_end br (ec_emit (DBr u32_max) (rule_span rule) x)
    | Unique => x
    end in
  Some (set_instructions (patch_br_false (ec_pc x) patches (ec_instructions x)) x).

Fixpoint emit_rules (policy : HitPolicy) (rules : list TypedRule) (x : EmitContext) : option EmitContext :=
  match rules with
  | [] => Some x
  | rule :: rules' => x ← emit_rule policy rule x; emit_rules policy rules' x
  end.

(** ** The artifact hash *)

(** A character: its scalar value and its UTF-8 bytes. *)
Notation char := (N * list Byte.byte)%type (only parsing).

(** [str::chars]. *)
Definition str_chars (s : string) : list char :=
  default [] (utf8_chars (String.length s) (as_bytes s)).

(** [char::is_ascii_whitespace] and [char::is_whitespace]. *)
Definition is_ascii_whitespace (c : char) : bool :=
  match c.1 with 9 | 10 | 12 | 13 | 32 => true | _ => false end%N.
Definition is_whitespace (c : char) : bool :=
  let n := c.1 in
  ((9 <=? n) && (n <=? 13) || (n =? 32) || (n =? 133) || (n =? 160) || (n =? 5760)
   || (8192 <=? n) && (n <=? 8202) || (n =? 8232) || (n =? 8233) || (n =? 8239) || (n =? 8287)
   || (n =? 12288))%N.

Fixpoint trim_start (l : list char) : list char :=
  match l with c :: l' => if is_whitespace c then trim_start l' else l | [] => [] end.
(** [str::trim]. *)
Definition trim (l : list char) : list char := reverse (trim_start (reverse (trim_start l))).

(** [str::lines]: split after each line feed, a carriage return before it
    dropped, without a last empty line. *)
Fixpoint lines_from (l acc : list char) : list (list char) :=
  match l with
  | [] => match acc with [] => [] | _ => [acc] end
  | c :: l' =>
      if (c.1 =? 10)%N
      then match last acc with
           | Some r => if (r.1 =? 13)%N then removelast acc else acc
           | None => acc
           end :: lines_from l' []
      else lines_from l' (acc ++ [c])
  end.
Definition lines (l : list char) : list (list char) := lines_from l [].

(** [&line[..pos]] up to the first semicolon. *)
Fixpoint before_comment (l : list char) : list char :=
  match l with
  | [] => []
  | c :: l' => if (c.1 =? 59)%N then [] else c :: before_comment l'
  end.

(** The collapsing loop of [normalise_source]. *)
Fixpoint collapse_ws (l : list char) (in_ws : bool) : list char :=
  match l with
  | [] => []
  | c :: l' =>
      if is_ascii_whitespace c
      then if in_ws then collapse_ws l' true else (32, [Byte.x20])%N :: collapse_ws l' true
      else c :: collapse_ws l' false
  end.

(** [normalise_source], as the bytes of the string it returns. *)
Definition normalise_source (source : string) : list Byte.byte :=
  let stripped := lines (str_chars source) ≫= λ line,
    let without_comment := before_comment line in
    match trim without_comment with
    | [] => []
    | _ => without_comment ++ [(10, [Byte.x0a])%N]
    end in
  trim (collapse_ws stripped false) ≫= snd.

Example normalise_comment :
  normalise_source ("(a ; note" +:+ String (ascii_of_N 10) "  b)") = as_bytes "(a b)".
Proof. reflexivity. Qed.

Definition instr_bytes (i : DInstr) : list Byte.byte :=
  let w8 (n : nat) := le_bytes 8 (N.of_nat n) in
  let w4 (n : N) := le_bytes 4 n in
  match i with
  | DLoadField f => Byte.x01 :: w8 f
  | DPushConst c => Byte.x02 :: w4 c
  | DPushConstSet s => Byte.x03 :: w4 s
  | DPop => [Byte.x04] | DDup => [Byte.x05]
  | DEq => [Byte.x10] | DNotEq => [Byte.x11] | DLt => [Byte.x12] | DLe => [Byte.x13]
  | DGt => [Byte.x14] | DGe => [Byte.x15] | DInSet => [Byte.x20]
  | DRangeCheck r => Byte.x21 :: w4 r
  | DIsNull => [Byte.x30] | DIsNotNull => [Byte.x31]
  | DAnd => [Byte.x40] | DOr => [Byte.x41] | DNot => [Byte.x42]
  | DBr a => Byte.x50 :: w4 a
  | DBrFalse a => Byte.x51 :: w4 a
  | DBrTrue a => Byte.x52 :: w4 a
  | DRuleMatched r => Byte.x60 :: w4 (as_u32 r)
  | DStoreOutputTos f => Byte.x61 :: w4 f
  | DStoreOutput f c => Byte.x62 :: w4 f ++ w4 c
  | DEndDecision => [Byte.x70]
  | DCall b => Byte.xe0 :: w4 b
  | DReturn => [Byte.xe1]
  | DForAllBegin c v e => Byte.xe2 :: w8 c ++ w4 v ++ w4 e
  | DForAllEnd => [Byte.xe3]
  | DAggregateBegin c v op e =>
      Byte.xe4 :: w8 c ++ w4 v ++
        [match op with AggCount => Byte.x00 | AggSum => Byte.x01 | AggMin => Byte.x02
                     | AggMax => Byte.x03 | AggMean => Byte.x04 end] ++ w4 e
  | DAggregateEnd => [Byte.xe5]
  | DLoadPath p => Byte.xe6 :: w4 p
  end.

(** A length-prefixed serialised value. *)
Definition value_entry (v : TypedValue) : list Byte.byte :=
  let b := serialize_typed_value v in le_bytes 4 (len b) ++ b.
Definition bound_entry (o : option TypedValue) : list Byte.byte :=
  match o with None => [Byte.x00] | Some v => Byte.x01 :: value_entry v end.

(** [serialise_ir]. *)
Definition serialise_ir (instrs : list DInstr) (consts : list TypedValue) (ranges : list RangeEntry)
  : list Byte.byte :=
  le_bytes 4 (len instrs) ++ (instrs ≫= instr_bytes)
  ++ le_bytes 4 (len consts) ++ (consts ≫= value_entry)
  ++ le_bytes 4 (len ranges)
  ++ (ranges ≫= λ r, bool_byte (range_lower_inclusive r) :: bool_byte (range_upper_inclusive r)
                       :: bound_entry (range_lower r) ++ bound_entry (range_upper r)).

Definition serialise_entity_refs (l : list EntityRef) : list Byte.byte :=
  l ≫= λ e, be_bytes 16 (entity_domain e) ++ be_bytes 16 (entity_value e).

(** ** [emit] *)

Section emit.
Context {P : Platform}.

(** [compute_artifact_hash]. *)
Definition compute_artifact_hash (source : string) (typed : TypedDecision) (instrs : list DInstr)
    (consts : list TypedValue) (ranges : list RangeEntry) : list Byte.byte :=
  let section (l : list Byte.byte) := le_bytes 8 (len l) ++ l in
  blake3 (section (normalise_source source)
          ++ section (serialise_entity_refs (resolved_entities typed))
          ++ section (serialise_ir instrs consts ranges)).

(** [emit]. *)
Definition emit (typed : TypedDecision) (source : string) : option CompiledDecision :=
  x ← emit_rules (hit_policy typed) (dec_rules typed) EmitContext_new;
  let end_addr := ec_pc x in
  let x := ec_emit DEndDecision (dec_span typed) x in
  let instrs := patch_br end_addr (ec_patches_end x) (ec_instructions x) in
  Some (mkCompiled (decision_id typed) (dec_name typed) (hit_policy typed) (input_schema typed)
          (output_schema typed) (ec_const_pool x) (ec_const_set_pool x) (ec_range_pool x)
          instrs (ec_source_spans x) (ec_rule_map x)
          (compute_artifact_hash source typed instrs (ec_const_pool x) (ec_range_pool x)) typed).

End emit.
