(* ===== verification/DmnVerify.v ===== *)
(** * dmn-lite: the bytecode verifier

    [dmn-lite-types/src/verify.rs].  [verify] returns the decision it was given
    (a [VerifiedDecision] wraps it) or the first violation. *)

From S2P Require Import Prelude RustStr Json Types DmnTypes.

(** Without [TypeMismatch], which no pass produces. *)
Inductive VerifierError :=
| InstructionSpanLengthMismatch (instructions source_spans : nat)
| BranchTargetOutOfBounds (at_ target : N) (n : nat)
| UnknownLoadFieldId (at_ field : N)
| UnknownStoreOutputId (at_ field : N)
| UnknownConstId (at_ id : N)
| UnknownConstSetId (at_ id : N)
| UnknownRangeId (at_ id : N)
| UnknownRuleId (at_ : N)
| MissingEndDecision
| MultipleEndDecisions
| UnreachableEndDecision
| DanglingInstruction (at_ : N)
| StackUnderflow (at_ : N) (expected actual : nat)
| StackJoinMismatch (at_ : N) (heights : list nat)
| NonZeroStackAtEnd (at_ : N) (height : nat)
| HitPolicyShapeMismatch (policy expected_shape actual_shape : string)
| ReservedOpcode (at_ : N) (opcode : string).

(** [for (i, instr) in instrs.iter().enumerate()]. *)
Definition try_enumerate {E A} (f : nat -> A -> Result E unit) (l : list A) : Result E unit :=
  try_for_each (λ e, f e.1 e.2) (imap (λ i x, (i, x)) l).

Definition check_reserved (i : nat) (x : DInstr) : Result VerifierError unit :=
  ensure (negb (is_reserved x)) (ReservedOpcode (as_u32 i) (mnemonic x)).

(** The guards of the reference check, for one instruction. *)
Definition check_refs (c : CompiledDecision) (i : nat) (x : DInstr) : Result VerifierError unit :=
  let n := length (cd_instructions c) in
  let at_ := as_u32 i in
  match x with
  | DBr t | DBrFalse t | DBrTrue t => ensure (N.to_nat t <? n)%nat (BranchTargetOutOfBounds at_ t n)
  | DLoadField f => ensure (f <? length (cd_input_schema c))%nat (UnknownLoadFieldId at_ (as_u32 f))
  | DStoreOutputTos f =>
      ensure (N.to_nat f <? length (cd_output_schema c))%nat (UnknownStoreOutputId at_ f)
  | DStoreOutput f k =>
      _ ← ensure (N.to_nat f <? length (cd_output_schema c))%nat (UnknownStoreOutputId at_ f);
      ensure (N.to_nat k <? length (cd_const_pool c))%nat (UnknownConstId at_ k)
  | DPushConst k => ensure (N.to_nat k <? length (cd_const_pool c))%nat (UnknownConstId at_ k)
  | DPushConstSet s => ensure (N.to_nat s <? length (cd_const_set_pool c))%nat (UnknownConstSetId at_ s)
  | DRangeCheck r => ensure (N.to_nat r <? length (cd_range_pool c))%nat (UnknownRangeId at_ r)
  | DRuleMatched r =>
      ensure (existsb (λ e, (rme_rule_id e =? r)%nat) (cd_rule_map c)) (UnknownRuleId at_)
  | _ => Ok tt
  end.

Definition is_end (x : DInstr) : bool := match x with DEndDecision => true | _ => false end.

(** The positions of [EndDecision]. *)
Definition end_positions (l : list DInstr) : list nat :=
  omap (λ e : nat * DInstr, if is_end e.2 then Some e.1 else None) (imap (λ i x, (i, x)) l).

(** ** Reachability *)

(** The addresses an instruction at [pc] pushes on the worklist, the last
    pushed (and first popped) first. *)
Definition dmn_successors (x : DInstr) (pc : nat) : list nat :=
  match x with
  | DEndDecision => []
  | DBr t => [N.to_nat t]
  | DBrFalse t | DBrTrue t => [S pc; N.to_nat t]
  | _ => [S pc]
  end.

(** The worklist loop.  Every address enters [reachable] once and pushes at
    most two more, so twice the program length and two bounds the loop. *)
Fixpoint reach_loop (fuel : nat) (l : list DInstr) (work : list nat) (seen : gset nat) : gset nat :=
  match fuel with
  | O => seen
  | S fuel' =>
      match work with
      | [] => seen
      | pc :: work' =>
          if bool_decide (pc ∈ seen) then reach_loop fuel' l work' seen
          else
            match l !! pc with
            | None => reach_loop fuel' l work' seen
            | Some x => reach_loop fuel' l (dmn_successors x pc ++ work') ({[pc]} ∪ seen)
            end
      end
  end.

Definition compute_reachable (l : list DInstr) : gset nat :=
  reach_loop (2 * length l + 2) l [0%nat] ∅.

(** [for &pos in &reachable]: ascending order. *)
Definition reachable_order (l : list DInstr) (r : gset nat) : list nat :=
  filter (λ i, i ∈ r) (seq 0 (length l)).

Definition check_dangling (l : list DInstr) (pos : nat) : Result VerifierError unit :=
  match l !! pos with
  | Some (DEndDecision | DBr _ | DBrFalse _ | DBrTrue _) => Ok tt
  | _ => ensure (S pos <? length l)%nat (DanglingInstruction (as_u32 pos))
  end.

(** ** Stack heights *)

(** [stack_delta]: values popped and pushed. *)
Definition stack_delta (x : DInstr) : nat * nat :=
  match x with
  | DLoadField _ | DPushConst _ | DPushConstSet _ => (0, 1)
  | DPop => (1, 0)
  | DDup => (0, 1)
  | DEq | DNotEq | DLt | DLe | DGt | DGe | DInSet => (2, 1)
  | DRangeCheck _ | DIsNull | DIsNotNull => (1, 1)
  | DAnd | DOr => (2, 1)
  | DNot => (1, 1)
  | DBr _ => (0, 0)
  | DBrFalse _ | DBrTrue _ => (1, 0)
  | DRuleMatched _ => (0, 0)
  | DStoreOutputTos _ => (1, 0)
  | DStoreOutput _ _ => (0, 0)
  | DEndDecision => (0, 0)
  | _ => (0, 0)
  end%nat.

Definition set_height (heights : list (option nat)) (pos h at_ : nat)
  : Result VerifierError (list (option nat)) :=
  match heights !! pos with
  | None => Ok heights
  | Some None => Ok (<[pos := Some h]> heights)
  | Some (Some existing) =>
      if (existing =? h)%nat then Ok heights else Err (StackJoinMismatch (as_u32 at_) [existing; h])
  end.

(** Where an instruction continues: the next one, and its branch target. *)
Definition falls_through (x : DInstr) : bool :=
  match x with DBr _ | DEndDecision => false | _ => true end.
Definition branch_target (x : DInstr) : option nat :=
  match x with DBr t | DBrFalse t | DBrTrue t => Some (N.to_nat t) | _ => None end.

(** The loop body for one reachable position. *)
Definition height_step (l : list DInstr) (heights : list (option nat)) (idx : nat)
  : Result VerifierError (list (option nat)) :=
  match heights !! idx, l !! idx with
  | Some (Some h), Some x =>
      let '(pop, push) := stack_delta x in
      _ ← ensure (pop <=? h)%nat (StackUnderflow (as_u32 idx) pop h);
      let new_h := (h - pop + push)%nat in
      heights ← (if falls_through x && (S idx <? length l)%nat
                 then set_height heights (S idx) new_h idx else Ok heights);
      heights ← (match branch_target x with
                 | Some t => set_height heights t new_h idx
                 | None => Ok heights
                 end);
      _ ← ensure (negb (is_end x && negb (new_h =? 0)%nat)) (NonZeroStackAtEnd (as_u32 idx) new_h);
      Ok heights
  | _, _ => Ok heights
  end.

Definition verify_stack_heights (l : list DInstr) (order : list nat) : Result VerifierError unit :=
  _ ← try_fold (height_step l) (<[0%nat := Some 0%nat]> (replicate (length l) None)) order;
  Ok tt.

(** ** Hit policy *)

Definition is_rule_matched (x : DInstr) : bool := match x with DRuleMatched _ => true | _ => false end.

Definition check_hit_policy (policy : HitPolicy) (l : list DInstr) (i : nat) (x : DInstr)
  : Result VerifierError unit :=
  if is_rule_matched x then
    match policy with
    | First =>
        ensure (match l !! S i with Some (DBr _ | DEndDecision) => true | _ => false end)
          (HitPolicyShapeMismatch "FIRST" "RuleMatched followed by Br(end) or EndDecision"
             ("instruction " +:+ match l !! S i with Some y => mnemonic y | None => "none" end
              +:+ " after RuleMatched at " +:+ show_N (N.of_nat i)))
    | Unique =>
        ensure (match l !! S i with Some (DBr _) => false | _ => true end)
          (HitPolicyShapeMismatch "UNIQUE" "RuleMatched followed by fall-through (no Br)"
             ("Br after RuleMatched at " +:+ show_N (N.of_nat i)))
    end
  else Ok tt.

Definition verify_hit_policy_shape (c : CompiledDecision) : Result VerifierError unit :=
  try_enumerate (check_hit_policy (cd_hit_policy c) (cd_instructions c)) (cd_instructions c).

(** ** [verify] *)

Definition verify (c : CompiledDecision) : Result VerifierError CompiledDecision :=
  let l := cd_instructions c in
  _ ← ensure (length l =? length (cd_source_spans c))%nat
        (InstructionSpanLengthMismatch (length l) (length (cd_source_spans c)));
  _ ← ensure (negb (length l =? 0)%nat) MissingEndDecision;
  _ ← try_enumerate check_reserved l;
  _ ← try_enumerate (check_refs c) l;
  end_pos ← (match end_positions l with
             | [] => Err MissingEndDecision
             | [e] => Ok e
             | _ => Err MultipleEndDecisions
             end);
  let reachable := compute_reachable l in
  _ ← ensure (bool_decide (end_pos ∈ reachable)) UnreachableEndDecision;
  let order := reachable_order l reachable in
  _ ← try_for_each (check_dangling l) order;
  _ ← verify_stack_heights l order;
  _ ← verify_hit_policy_shape c;
  Ok c.
