(* ===== verification/DmnSteps.v ===== *)
(** * dmn-lite: steps of the VM, without its traces

    The trace bookkeeping of the VM never influences control flow, the stack or
    the output.  [exec_core] is the effect of an instruction on the rest of the
    state, [vm_at] describes a state up to its traces, and [vm_runs] is a
    sequence of steps that stays inside the loop of [run_vm]. *)

From S2P Require Import Prelude RustStr Json Types Platform Canonical CodecFacts DmnTypes DmnReference DmnVm DmnEmit.

(** Program counter, stack, matched rules, output slots. *)
Record Core := mkCore {
  co_pc : nat;
  co_stack : list TypedValue;
  co_matched : list RuleId;
  co_output : list (option TypedValue);
}.

Section steps.
Context (c : CompiledDecision) (input : TypedInputContext) (source : string).
Implicit Types (s : VmState) (k : Core).

(** A pop of an empty stack yields the default. *)
Definition core_pop (d : TypedValue) (st : list TypedValue) : TypedValue * list TypedValue :=
  match st with v :: rest => (v, rest) | [] => (d, []) end.

Definition core_binary (f : TypedValue -> TypedValue -> bool) k : Core :=
  let '(b, st) := core_pop TVNull (co_stack k) in
  let '(a, st) := core_pop TVNull st in
  mkCore (S (co_pc k)) (TVBool (f a b) :: st) (co_matched k) (co_output k).
Definition core_unary (d : TypedValue) (f : TypedValue -> bool) k : Core :=
  let '(v, st) := core_pop d (co_stack k) in
  mkCore (S (co_pc k)) (TVBool (f v) :: st) (co_matched k) (co_output k).
Definition core_push (v : TypedValue) k : Core :=
  mkCore (S (co_pc k)) (v :: co_stack k) (co_matched k) (co_output k).

(** The instructions the emitter produces, except [EndDecision]. *)
Definition exec_core (i : DInstr) k : option Core :=
  match i with
  | DLoadField f => Some (core_push (default TVNull (input_get input f)) k)
  | DPushConst cid => v ← cd_const_pool c !! N.to_nat cid; Some (core_push v k)
  | DPushConstSet sid => Some (core_push (TVInteger (Z.of_N sid)) k)
  | DEq => Some (core_binary vm_values_equal k)
  | DNotEq => Some (core_binary vm_not_equal k)
  | DLt => Some (core_binary (λ a b, is_some_and (compare_numeric a b) is_lt) k)
  | DLe => Some (core_binary (λ a b, is_some_and (compare_numeric a b) (λ o, negb (is_gt o))) k)
  | DGt => Some (core_binary (λ a b, is_some_and (compare_numeric a b) is_gt) k)
  | DGe => Some (core_binary (λ a b, is_some_and (compare_numeric a b) (λ o, negb (is_lt o))) k)
  | DInSet =>
      let '(set_id, st) := core_pop TVNull (co_stack k) in
      let '(value, st) := core_pop TVNull st in
      match set_id with
      | TVInteger sid =>
          set ← cd_const_set_pool c !! i64_as_usize sid;
          Some (mkCore (S (co_pc k)) (TVBool (existsb (vm_values_equal value) set) :: st)
                  (co_matched k) (co_output k))
      | _ => Some (mkCore (S (co_pc k)) (TVBool false :: st) (co_matched k) (co_output k))
      end
  | DRangeCheck r =>
      let '(v, st) := core_pop TVNull (co_stack k) in
      range ← cd_range_pool c !! N.to_nat r;
      Some (mkCore (S (co_pc k)) (TVBool (eval_range_check v range) :: st) (co_matched k) (co_output k))
  | DIsNull => Some (core_unary TVNull is_tv_null k)
  | DIsNotNull => Some (core_unary TVNull (λ v, negb (is_tv_null v)) k)
  | DAnd => Some (core_binary (λ a b, as_bool a && as_bool b) k)
  | DOr => Some (core_binary (λ a b, as_bool a || as_bool b) k)
  | DNot => Some (core_unary (TVBool false) (λ v, negb (as_bool v)) k)
  | DBr addr => Some (mkCore (N.to_nat addr) (co_stack k) (co_matched k) (co_output k))
  | DBrFalse addr =>
      let '(v, st) := core_pop (TVBool false) (co_stack k) in
      Some (mkCore (if as_bool v then S (co_pc k) else N.to_nat addr) st (co_matched k) (co_output k))
  | DRuleMatched rid =>
      Some (mkCore (S (co_pc k)) (co_stack k) (co_matched k ++ [rid]) (co_output k))
  | DStoreOutputTos f =>
      let '(v, st) := core_pop TVNull (co_stack k) in
      if (N.to_nat f <? length (co_output k))%nat
      then Some (mkCore (S (co_pc k)) st (co_matched k) (<[N.to_nat f := Some v]> (co_output k)))
      else None
  | _ => None
  end.

(** The rule the trace is about is one of the map. *)
Definition idx_ok s : Prop := ∀ idx, vm_rule_idx s = Some idx -> (idx < length (cd_rule_map c))%nat.

Record vm_at s k : Prop := {
  at_pc : vm_pc s = N.of_nat (co_pc k);
  at_stack : vm_stack s = co_stack k;
  at_matched : vm_matched s = co_matched k;
  at_output : vm_output s = co_output k;
  at_running : vm_halted s = false;
  at_idx : idx_ok s;
}.

(** Steps taken inside the loop of [run_vm]. *)
Inductive vm_runs : nat -> VmState -> VmState -> Prop :=
| runs_here s : vm_runs 0 s s
| runs_step n s s' s'' :
    vm_halted s = false -> vm_step c input source s = Some s' -> vm_runs n s' s'' ->
    vm_runs (S n) s s''.

Lemma vm_runs_trans n m s s' s'' : vm_runs n s s' -> vm_runs m s' s'' -> vm_runs (n + m) s s''.
Proof. induction 1; cbn; [done|]. intros. econstructor; eauto. Qed.

Lemma vm_step_inside s s' :
  vm_step c input source s = Some s' -> (N.to_nat (vm_pc s) < length (cd_instructions c))%nat.
Proof.
  unfold vm_step. intros H. destruct (cd_source_spans c !! _); [|done]. cbn in H.
  destruct (cd_instructions c !! _) eqn:E; [|done]. by apply lookup_lt_Some in E.
Qed.

Lemma vm_loop_runs n m s s' :
  vm_runs n s s' -> vm_loop (n + m) c input source s = vm_loop m c input source s'.
Proof.
  induction 1 as [|n s s' s'' Hh Hs _ IH]; [done|]. cbn [plus vm_loop].
  rewrite Hh, Hs. pose proof (vm_step_inside s s' Hs).
  destruct (Nat.leb_spec (length (cd_instructions c)) (N.to_nat (vm_pc s))); [lia|]. apply IH.
Qed.

(** ** The trace functions *)

Lemma detect_at s k pc :
  vm_at s k -> vm_at (detect_rule_transition (cd_rule_map c) pc s) k.
Proof.
  intros []. unfold detect_rule_transition. destruct (position _ _) as [idx|] eqn:E; [|by split].
  split; try done. intros j [= <-].
  apply position_Some in E as [(e & He & _) _]. by eapply lookup_lt_Some.
Qed.

Lemma set_trace_at s k traces preds idx :
  vm_at s k -> (∀ j, idx = Some j -> (j < length (cd_rule_map c))%nat) ->
  vm_at (set_trace traces preds idx s) k.
Proof. intros [] Hidx. by split. Qed.

Lemma finalise_non_matching_at s k :
  vm_at s k -> ∃ s', finalise_non_matching_rule (cd_rule_map c) s = Some s' ∧ vm_at s' k.
Proof.
  intros H. unfold finalise_non_matching_rule. destruct (vm_rule_idx s) as [idx|] eqn:E; [|by eauto].
  destruct (lookup_lt_is_Some_2 (cd_rule_map c) idx) as [e He]; [by eapply at_idx|].
  rewrite He. eexists. split; [done|]. by apply set_trace_at.
Qed.

Lemma finalise_matching_at s k rid :
  vm_at s k -> ∃ s', finalise_matching_rule (cd_rule_map c) rid s = Some s' ∧ vm_at s' k.
Proof.
  intros H. unfold finalise_matching_rule. destruct (vm_rule_idx s) as [idx|] eqn:E; [|by eauto].
  destruct (lookup_lt_is_Some_2 (cd_rule_map c) idx) as [e He]; [by eapply at_idx|].
  rewrite He. eexists. split; [done|]. by apply set_trace_at.
Qed.

(** ** One step *)

(** The operations of the VM on states described by a core. *)
Lemma pop_at s k d :
  vm_at s k -> (pop_or d s).1 = (core_pop d (co_stack k)).1 ∧
    vm_at (pop_or d s).2 (mkCore (co_pc k) (core_pop d (co_stack k)).2 (co_matched k) (co_output k)).
Proof.
  intros []. unfold pop_or, core_pop. rewrite at_stack0.
  destruct (co_stack k); (split; [done|]); by split.
Qed.
Lemma push_at s k v :
  vm_at s k -> vm_at (push v s) (mkCore (co_pc k) (v :: co_stack k) (co_matched k) (co_output k)).
Proof. intros []. split; try done. cbn. by rewrite at_stack0. Qed.
Lemma next_pc_at s k :
  vm_at s k -> vm_at (next_pc s) (mkCore (S (co_pc k)) (co_stack k) (co_matched k) (co_output k)).
Proof. intros []. split; try done. cbn. rewrite at_pc0. lia. Qed.
Lemma set_pc_at s k pc :
  vm_at s k -> vm_at (vm_set_pc pc s) (mkCore (N.to_nat pc) (co_stack k) (co_matched k) (co_output k)).
Proof. intros []. split; try done. cbn. lia. Qed.
Lemma set_matched_at s k m :
  vm_at s k -> vm_at (set_matched m s) (mkCore (co_pc k) (co_stack k) m (co_output k)).
Proof. intros []. by split. Qed.
Lemma set_output_at s k o :
  vm_at s k -> vm_at (set_output o s) (mkCore (co_pc k) (co_stack k) (co_matched k) o).
Proof. intros []. by split. Qed.

Lemma binary_at s k f : vm_at s k -> vm_at (binary_op f s) (core_binary f k).
Proof.
  intros H. unfold binary_op, pop2, core_binary.
  destruct (pop_at s k TVNull H) as [E1 H1].
  destruct (pop_or TVNull s) as [b s1], (core_pop TVNull (co_stack k)) as [b' st1]. cbn in E1, H1; subst b'.
  destruct (pop_at s1 _ TVNull H1) as [E2 H2]. cbn [co_stack] in *.
  destruct (pop_or TVNull s1) as [a s2], (core_pop TVNull st1) as [a' st2]. cbn in E2, H2; subst a'.
  exact (next_pc_at _ _ (push_at _ _ _ H2)).
Qed.

Lemma unary_at s k d f : vm_at s k -> vm_at (unary_op d f s) (core_unary d f k).
Proof.
  intros H. unfold unary_op, core_unary. destruct (pop_at s k d H) as [E1 H1].
  destruct (pop_or d s) as [v s1], (core_pop d (co_stack k)) as [v' st1]. cbn in E1, H1; subst v'.
  exact (next_pc_at _ _ (push_at _ _ _ H1)).
Qed.

Lemma exec_in_set_at s k k' :
  vm_at s k -> exec_core DInSet k = Some k' -> ∃ s', exec_in_set c s = Some s' ∧ vm_at s' k'.
Proof.
  intros H. cbn [exec_core]. unfold exec_in_set. destruct (pop_at s k TVNull H) as [E1 H1].
  destruct (pop_or TVNull s) as [b s1], (core_pop TVNull (co_stack k)) as [b' st1]. cbn in E1, H1; subst b'.
  destruct (pop_at s1 _ TVNull H1) as [E2 H2]. cbn [co_stack] in *.
  destruct (pop_or TVNull s1) as [a s2], (core_pop TVNull st1) as [a' st2]. cbn in E2, H2; subst a'.
  destruct b; try destruct (cd_const_set_pool c !! _); cbn; intros [= <-];
    (eexists; split; [done|]); exact (next_pc_at _ _ (push_at _ _ _ H2)).
Qed.

Lemma exec_br_false_at s k k' addr span :
  vm_at s k -> exec_core (DBrFalse addr) k = Some k' ->
  ∃ s', exec_br_false c source span addr s = Some s' ∧ vm_at s' k'.
Proof.
  intros H. cbn [exec_core]. unfold exec_br_false. destruct (pop_at s k (TVBool false) H) as [E1 H1].
  destruct (pop_or _ s) as [b s1], (core_pop _ (co_stack k)) as [b' st1]. cbn in E1, H1; subst b'.
  pose proof (set_trace_at s1 _ (vm_rule_traces s1) (vm_predicates s1 ++
    [mkPredTrace (as_bool b) span (extract_source source span)]) (vm_rule_idx s1) H1
    (at_idx _ _ H1)) as Ht. fold (record_predicate_trace source (as_bool b) span s1) in Ht.
  intros [= <-]. destruct (as_bool b).
  - eexists. split; [done|]. exact (next_pc_at _ _ Ht).
  - destruct (finalise_non_matching_at _ _ Ht) as (s' & -> & H'). eexists. split; [done|].
    exact (set_pc_at _ _ _ H').
Qed.

Lemma exec_store_at s k k' f :
  vm_at s k -> exec_core (DStoreOutputTos f) k = Some k' ->
  ∃ s', (let '(v, s) := pop_or TVNull s in s ← store_output f v s; Some (next_pc s)) = Some s'
        ∧ vm_at s' k'.
Proof.
  intros H. cbn [exec_core]. destruct (pop_at s k TVNull H) as [E1 H1].
  destruct (pop_or TVNull s) as [b s1], (core_pop TVNull (co_stack k)) as [b' st1]. cbn in E1, H1; subst b'.
  unfold store_output. rewrite (at_output _ _ H1). cbn [co_output].
  destruct (_ <? _)%nat; [|done]. intros [= <-]. eexists. split; [done|].
  exact (next_pc_at _ _ (set_output_at _ _ _ H1)).
Qed.

Lemma exec_at s k k' i span :
  vm_at s k -> exec_core i k = Some k' ->
  ∃ s', exec c input source i span s = Some s' ∧ vm_at s' k'.
Proof.
  intros H Hk. destruct i; cbn [exec]; try discriminate Hk;
    first
      [ by apply (exec_in_set_at s k) | by eapply exec_br_false_at | by eapply exec_store_at
      | injection Hk as <-; eexists; (split; [reflexivity|]);
        first [exact (next_pc_at _ _ (push_at _ _ _ H)) | by apply binary_at | by apply unary_at
              | by apply set_pc_at]
      | idtac ].
  - cbn in Hk. destruct (cd_const_pool c !! _); [|done]. injection Hk as <-. eexists.
    split; [done|]. exact (next_pc_at _ _ (push_at _ _ _ H)).
  - cbn [exec_core] in Hk. destruct (pop_at s k TVNull H) as [E1 H1].
    destruct (pop_or TVNull s) as [b s1], (core_pop TVNull (co_stack k)) as [b' st1].
    cbn in E1, H1; subst b'. destruct (cd_range_pool c !! _); [|done]. injection Hk as <-.
    eexists. split; [done|]. exact (next_pc_at _ _ (push_at _ _ _ H1)).
  - injection Hk as <-. rewrite (at_matched _ _ H).
    destruct (finalise_matching_at _ _ r (set_matched_at _ _ (co_matched k ++ [r]) H)) as (s' & -> & H').
    eexists. split; [done|]. exact (next_pc_at _ _ H').
Qed.

Context (Hspans : length (cd_source_spans c) = length (cd_instructions c)).
Context (Hsize : (N.of_nat (length (cd_instructions c)) <= u32_max)%N).

(** One step of the VM at a known instruction. *)
Lemma step_at s k k' i :
  vm_at s k -> cd_instructions c !! co_pc k = Some i -> exec_core i k = Some k' ->
  (co_pc k' <= length (cd_instructions c))%nat ->
  ∃ s', vm_runs 1 s s' ∧ vm_at s' k'.
Proof.
  intros H Hi Hk Hpc. pose proof (lookup_lt_Some _ _ _ Hi) as Hlt.
  destruct (lookup_lt_is_Some_2 (cd_source_spans c) (co_pc k)) as [span Hspan]; [lia|].
  destruct (exec_at _ _ _ i span (detect_at s k (vm_pc s) H) Hk) as (s' & Hs' & H').
  exists s'. split; [|done]. econstructor; [apply H| |constructor].
  unfold vm_step. rewrite (at_pc _ _ H), Nat2N.id, Hspan. cbn [mbind option_bind]. rewrite Hi.
  cbn [mbind option_bind]. rewrite <-(at_pc _ _ H), Hs'. cbn [mbind option_bind]. rewrite (at_pc _ _ H').
  destruct (N.leb_spec (N.of_nat (co_pc k')) u32_max); [done|lia].
Qed.

(** The step that halts. *)
Lemma end_at s k :
  vm_at s k -> cd_instructions c !! co_pc k = Some DEndDecision ->
  ∃ s', vm_step c input source s = Some s' ∧ vm_halted s' = true ∧
    co_matched k = vm_matched s' ∧ co_output k = vm_output s'.
Proof.
  intros H Hi. pose proof (lookup_lt_Some _ _ _ Hi) as Hlt.
  destruct (lookup_lt_is_Some_2 (cd_source_spans c) (co_pc k)) as [span Hspan]; [lia|].
  pose proof (detect_at s k (vm_pc s) H) as [Hpc _ Hm Ho _ _].
  exists (set_halted true (detect_rule_transition (cd_rule_map c) (vm_pc s) s)). split; [|done].
  unfold vm_step. rewrite (at_pc _ _ H), Nat2N.id, Hspan. cbn [mbind option_bind]. rewrite Hi.
  cbn [mbind option_bind exec]. rewrite <-(at_pc _ _ H). cbn [set_halted vm_pc]. rewrite Hpc.
  destruct (N.leb_spec (N.of_nat (co_pc k)) u32_max); [done|lia].
Qed.

End steps.

(** * dmn-lite: the pools of the emitter

    Interning is faithful: the index a value, a set or a range is given leads
    back to it (a set up to order and repetition), and pools only grow. *)

(** ** Serialisation of values *)

(** The ranges of the Rust types. *)
Definition tv_ok (v : TypedValue) : Prop :=
  match v with
  | TVInteger z => is_i64 z
  | TVDecimal bits => is_u64 bits
  | TVStr s => is_u32 (len (as_bytes s))
  | TVEnum d v => is_uuid d ∧ is_uuid v
  | TVBool _ | TVNull => True
  end.

Lemma be_bytes_app_inj w n m r1 r2 :
  (n < 256 ^ N.of_nat w)%N -> (m < 256 ^ N.of_nat w)%N ->
  be_bytes w n ++ r1 = be_bytes w m ++ r2 -> n = m ∧ r1 = r2.
Proof.
  intros Hn Hm E. apply app_inj_1 in E as [E ->]; [|by rewrite !length_be_bytes].
  split; [|done]. by apply (be_bytes_inj w).
Qed.
Lemma le_bytes_app_inj w n m r1 r2 :
  (n < 256 ^ N.of_nat w)%N -> (m < 256 ^ N.of_nat w)%N ->
  le_bytes w n ++ r1 = le_bytes w m ++ r2 -> n = m ∧ r1 = r2.
Proof.
  intros Hn Hm E. apply app_inj_1 in E as [E ->]; [|by rewrite !length_le_bytes].
  split; [|done]. by apply (le_bytes_inj w).
Qed.

(** [cons] is injective, without the simplification [injection] performs. *)
Lemma cons_eq_inv {A} (x y : A) l l' : x :: l = y :: l' -> x = y ∧ l = l'.
Proof. intros E. split; congruence. Qed.

(** No serialised value is a prefix of another. *)
Lemma serialize_prefix_inj v w r1 r2 :
  tv_ok v -> tv_ok w ->
  serialize_typed_value v ++ r1 = serialize_typed_value w ++ r2 -> v = w ∧ r1 = r2.
Proof.
  destruct v as [d x|b|z|bits|s|], w as [d' x'|b'|z'|bits'|s'|]; cbn [tv_ok]; intros Hv Hw E;
    try discriminate E; cbn [serialize_typed_value app] in E; apply cons_eq_inv in E as [_ E]; try by subst.
  - rewrite <-!app_assoc in E. destruct Hv, Hw.
    apply be_bytes_app_inj in E as [-> E]; [|done..].
    apply be_bytes_app_inj in E as [-> E]; done.
  - by destruct b, b'; simplify_eq.
  - apply le_bytes_app_inj in E as [E ->]; [|by apply i64_as_u64_lt..].
    rewrite <-(u64_as_i64_as_u64 z), E, u64_as_i64_as_u64; done.
  - unfold is_u64, u64_max in *. apply le_bytes_app_inj in E as [-> ->]; [done|cbn; lia..].
  - rewrite <-!app_assoc in E. unfold is_u32, u32_max in *.
    apply le_bytes_app_inj in E as [El E]; [|cbn; lia..]. unfold len in El.
    apply app_inj_1 in E as [E ->]; [|lia].
    by rewrite <-(string_of_as_bytes s), E, string_of_as_bytes.
Qed.

Lemma serialize_inj v w :
  tv_ok v -> tv_ok w -> serialize_typed_value v = serialize_typed_value w -> v = w.
Proof.
  intros Hv Hw E. apply (serialize_prefix_inj v w [] []); [done..|]. by rewrite E.
Qed.

Lemma serialize_list_inj l l' :
  Forall tv_ok l -> Forall tv_ok l' ->
  map serialize_typed_value l = map serialize_typed_value l' -> l = l'.
Proof.
  intros Hl; revert l'. induction Hl as [|v l Hv Hl IH]; intros [|w l'] Hl' E; try done.
  inversion Hl'; subst. injection E as E1 E2. f_equal; [by apply serialize_inj|by apply IH].
Qed.

Definition range_ok (r : RangeEntry) : Prop :=
  opt_ok tv_ok (range_lower r) ∧ opt_ok tv_ok (range_upper r).

Lemma bound_key_inj o o' r1 r2 :
  opt_ok tv_ok o -> opt_ok tv_ok o' -> bound_key o ++ r1 = bound_key o' ++ r2 -> o = o' ∧ r1 = r2.
Proof.
  destruct o, o'; cbn; intros Ho Ho' E; try discriminate E; apply cons_eq_inv in E as [_ E]; [|by subst].
  apply serialize_prefix_inj in E as [-> ->]; done.
Qed.

Lemma range_key_inj r r' : range_ok r -> range_ok r' -> range_key r = range_key r' -> r = r'.
Proof.
  destruct r as [lo up li ui], r' as [lo' up' li' ui']; intros [H1 H2] [H1' H2'] E.
  unfold range_key in E; cbn [range_lower range_upper range_lower_inclusive range_upper_inclusive] in *.
  apply cons_eq_inv in E as [E1 E]. apply cons_eq_inv in E as [E2 E].
  apply bound_key_inj in E as [-> E]; [|done..].
  rewrite <-(app_nil_r (bound_key up)), <-(app_nil_r (bound_key up')) in E.
  apply bound_key_inj in E as [-> _]; [|done..]. by destruct li, li', ui, ui'.
Qed.

(** ** Sorting and deduplication keep the members of a set *)

Lemma elem_of_insert_value v w l : v ∈ insert_value w l ↔ v = w ∨ v ∈ l.
Proof.
  induction l as [|u l IH]; cbn; [set_solver|]. destruct (bytes_le _ _); set_solver.
Qed.

Lemma elem_of_sort_values v l : v ∈ sort_values l ↔ v ∈ l.
Proof.
  unfold sort_values. assert (H : ∀ acc, v ∈ foldl (λ acc v, insert_value v acc) acc l ↔ v ∈ l ∨ v ∈ acc).
  { induction l as [|w l IH]; intros acc; cbn; [set_solver|].
    rewrite IH, elem_of_insert_value. set_solver. }
  rewrite H. set_solver.
Qed.

Lemma sort_values_ok l : Forall tv_ok l -> Forall tv_ok (sort_values l).
Proof. rewrite !Forall_forall. intros H v Hv. by apply H, elem_of_sort_values. Qed.

Lemma elem_of_dedup_after v last l :
  Forall tv_ok (last :: l) -> v ∈ last :: dedup_after last l ↔ v ∈ last :: l.
Proof.
  revert last; induction l as [|w l IH]; intros last Hok; [done|]. cbn.
  inversion Hok as [|? ? Hlast Hok']; subst. inversion Hok' as [|? ? Hw Hl]; subst.
  case_bool_decide as E.
  - apply serialize_inj in E as ->; [|done..]. specialize (IH last). rewrite !elem_of_cons in *.
    rewrite IH by (by constructor). set_solver.
  - specialize (IH w Hok'). rewrite !elem_of_cons in *. rewrite IH. done.
Qed.

Lemma elem_of_dedup_values v l : Forall tv_ok l -> v ∈ dedup_values l ↔ v ∈ l.
Proof. destruct l as [|w l]; [done|]. apply elem_of_dedup_after. Qed.

(** The canonical form of a set. *)
Definition canonical_set (l : list TypedValue) : list TypedValue := dedup_values (sort_values l).

Lemma canonical_set_ok l : Forall tv_ok l -> Forall tv_ok (canonical_set l).
Proof.
  intros H%sort_values_ok. apply Forall_forall. intros v Hv.
  apply (elem_of_dedup_values v _ H) in Hv. by eapply Forall_forall in Hv.
Qed.

Lemma existsb_canonical_set f l : Forall tv_ok l -> existsb f (canonical_set l) = existsb f l.
Proof.
  intros H. apply eq_iff_eq_true. rewrite !existsb_exists.
  pose proof (sort_values_ok l H) as Hs.
  setoid_rewrite <-list_elem_of_In.
  setoid_rewrite (λ v, elem_of_dedup_values v (sort_values l) Hs). setoid_rewrite elem_of_sort_values.
  done.
Qed.

(** ** The emitter's invariant *)

Record pools_ok (x : EmitContext) : Prop := {
  po_consts : ∀ key idx, ec_const_keys x !! key = Some idx ->
    ∃ v, ec_const_pool x !! N.to_nat idx = Some v ∧ serialize_typed_value v = key ∧ tv_ok v;
  po_sets : ∀ keys idx, ec_const_set_keys x !! keys = Some idx ->
    ∃ l, ec_const_set_pool x !! N.to_nat idx = Some l ∧ map serialize_typed_value l = keys ∧ Forall tv_ok l;
  po_ranges : ∀ key idx, ec_range_keys x !! key = Some idx ->
    ∃ r, ec_range_pool x !! N.to_nat idx = Some r ∧ range_key r = key ∧ range_ok r;
}.

(** Every pool is at most as long as the program that uses it. *)
Definition pools_small (x : EmitContext) : Prop :=
  (length (ec_const_pool x) <= length (ec_instructions x))%nat ∧
  (length (ec_const_set_pool x) <= length (ec_instructions x))%nat ∧
  (length (ec_range_pool x) <= length (ec_instructions x))%nat.

(** The pools of [x] are initial segments of the pools of [y]. *)
Definition pools_le (x y : EmitContext) : Prop :=
  ec_const_pool x `prefix_of` ec_const_pool y ∧
  ec_const_set_pool x `prefix_of` ec_const_set_pool y ∧
  ec_range_pool x `prefix_of` ec_range_pool y.

Global Instance pools_le_po : PreOrder pools_le.
Proof.
  split; [by intros x; repeat split|].
  intros x y z (?&?&?) (?&?&?). repeat split; by etrans.
Qed.

(** What an operation that only touches the pools preserves. *)
Definition code_same (x y : EmitContext) : Prop :=
  ec_instructions x = ec_instructions y ∧ ec_source_spans x = ec_source_spans y ∧
  ec_rule_map x = ec_rule_map y ∧ ec_patches_end x = ec_patches_end y.

Lemma as_u32_small n : (N.of_nat n <= u32_max)%N -> N.to_nat (as_u32 n) = n.
Proof. unfold as_u32, u32_max. intros H. rewrite N.mod_small by lia. lia. Qed.

Lemma prefix_snoc {A} (l : list A) x : l `prefix_of` l ++ [x].
Proof. by exists [x]. Qed.

Lemma lookup_snoc_last {A} (l : list A) x : (l ++ [x]) !! length l = Some x.
Proof. by rewrite lookup_app_r, Nat.sub_diag by lia. Qed.

(** How far an interned pool may exceed the program before the instruction that
    uses it is emitted. *)
Definition pools_small_by (k : nat) (x : EmitContext) : Prop :=
  (length (ec_const_pool x) <= k + length (ec_instructions x))%nat ∧
  (length (ec_const_set_pool x) <= k + length (ec_instructions x))%nat ∧
  (length (ec_range_pool x) <= k + length (ec_instructions x))%nat.

Record interned (x y : EmitContext) : Prop := {
  in_code : code_same x y;
  in_le : pools_le x y;
  in_ok : pools_ok y;
  in_small : pools_small_by 1 y;
}.

Lemma intern_const_ok v x :
  tv_ok v -> pools_ok x -> pools_small x -> (N.of_nat (length (ec_instructions x)) <= u32_max)%N ->
  ∃ idx y, intern_const v x = (idx, y) ∧ interned x y ∧ ec_const_pool y !! N.to_nat idx = Some v.
Proof.
  intros Hv Hx (Hs1 & Hs2 & Hs3) Hn. unfold intern_const.
  destruct (ec_const_keys x !! _) as [idx|] eqn:E.
  - destruct (po_consts x Hx _ _ E) as (w & Hw & Ew & Hok). apply serialize_inj in Ew as ->; [|done..].
    exists idx, x. split; [done|]. split; [|done]. split; try done. repeat split; lia.
  - eexists _, _. split; [done|]. cbn.
    rewrite as_u32_small by lia. split; [|apply lookup_snoc_last].
    split; [done|repeat split; try done; by apply prefix_snoc| |].
    + destruct Hx. split; try done. intros key idx. cbn. rewrite lookup_insert. case_decide as Ek.
      * intros [= <-]. exists v. rewrite as_u32_small by lia. split; [apply lookup_snoc_last|by subst].
      * intros Hk. destruct (po_consts0 _ _ Hk) as (w & Hw & ?). exists w.
        split; [|done]. by apply lookup_app_l_Some.
    + repeat split; cbn; rewrite ?length_app; cbn; lia.
Qed.

Lemma intern_const_set_ok vs x :
  Forall tv_ok vs -> pools_ok x -> pools_small x ->
  (N.of_nat (length (ec_instructions x)) <= u32_max)%N ->
  ∃ idx y, intern_const_set vs x = (idx, y) ∧ interned x y ∧
    ec_const_set_pool y !! N.to_nat idx = Some (canonical_set vs) ∧ (idx <= u32_max)%N.
Proof.
  intros Hv Hx (Hs1 & Hs2 & Hs3) Hn. pose proof (canonical_set_ok vs Hv) as Hc.
  unfold intern_const_set. fold (canonical_set vs). destruct (ec_const_set_keys x !! _) as [idx|] eqn:E.
  - destruct (po_sets x Hx _ _ E) as (l & Hl & El & Hok). apply serialize_list_inj in El as ->; [|done..].
    exists idx, x. split; [done|]. split; [|split; [done|]].
    + split; try done. repeat split; lia.
    + apply lookup_lt_Some in Hl. lia.
  - eexists _, _. split; [done|]. cbn.
    rewrite as_u32_small by lia. split; [|split; [apply lookup_snoc_last|]].
    + split; [done|repeat split; try done; by apply prefix_snoc| |].
      * destruct Hx. split; try done. intros key idx. cbn. rewrite lookup_insert. case_decide as Ek.
        -- intros [= <-]. exists (canonical_set vs). rewrite as_u32_small by lia.
           split; [apply lookup_snoc_last|by subst].
        -- intros Hk. destruct (po_sets0 _ _ Hk) as (w & Hw & ?). exists w.
           split; [|done]. by apply lookup_app_l_Some.
      * repeat split; cbn; rewrite ?length_app; cbn; lia.
    + assert (N.to_nat (as_u32 (length (ec_const_set_pool x))) = length (ec_const_set_pool x))
        by (apply as_u32_small; lia). lia.
Qed.

Lemma intern_range_ok r x :
  range_ok r -> pools_ok x -> pools_small x -> (N.of_nat (length (ec_instructions x)) <= u32_max)%N ->
  ∃ idx y, intern_range r x = (idx, y) ∧ interned x y ∧ ec_range_pool y !! N.to_nat idx = Some r.
Proof.
  intros Hv Hx (Hs1 & Hs2 & Hs3) Hn. unfold intern_range.
  destruct (ec_range_keys x !! _) as [idx|] eqn:E.
  - destruct (po_ranges x Hx _ _ E) as (w & Hw & Ew & Hok). apply range_key_inj in Ew as ->; [|done..].
    exists idx, x. split; [done|]. split; [|done]. split; try done. repeat split; lia.
  - eexists _, _. split; [done|]. cbn.
    rewrite as_u32_small by lia. split; [|apply lookup_snoc_last].
    split; [done|repeat split; try done; by apply prefix_snoc| |].
    + destruct Hx. split; try done. intros key idx. cbn. rewrite lookup_insert. case_decide as Ek.
      * intros [= <-]. exists r. rewrite as_u32_small by lia. split; [apply lookup_snoc_last|by subst].
      * intros Hk. destruct (po_ranges0 _ _ Hk) as (w & Hw & ?). exists w.
        split; [|done]. by apply lookup_app_l_Some.
    + repeat split; cbn; rewrite ?length_app; cbn; lia.
Qed.

Lemma pools_ok_new : pools_ok EmitContext_new.
Proof. split; intros ? ?; cbn; by rewrite lookup_empty. Qed.
