(* ===== verification/DmnCodegen.v ===== *)
(** * dmn-lite: the code of a predicate

    The block the emitter appends for a predicate runs straight through and
    leaves the verdict of the reference evaluator on the stack. *)

From S2P Require Import Prelude RustStr Json Types Platform Canonical CodecFacts DmnTypes DmnReference DmnVm DmnEmit DmnVerify DmnSteps.

(** ** Well-formed predicates *)

(** Fields below the arity [n], values in range, connectives with the two
    operands [emit_and] and [emit_or] assert. *)
Fixpoint pred_ok (n : nat) (p : TypedPredicate) : Prop :=
  let all := fix all (l : list TypedPredicate) : Prop :=
    match l with [] => True | q :: l' => pred_ok n q ∧ all l' end in
  match p with
  | PComparison f _ rhs _ => (f < n)%nat ∧ tv_ok rhs
  | PInSet f values _ => (f < n)%nat ∧ Forall tv_ok values
  | PRange f lower upper _ _ _ => (f < n)%nat ∧ opt_ok tv_ok lower ∧ opt_ok tv_ok upper
  | PIsNull f _ | PIsNotNull f _ => (f < n)%nat
  | PNot inner _ => pred_ok n inner
  | PAnd items _ | POr items _ => (2 <= length items)%nat ∧ all items
  end.

(** The number of instructions of a predicate. *)
Fixpoint pred_size (p : TypedPredicate) : nat :=
  let total := fix total (l : list TypedPredicate) : nat :=
    match l with [] => 0 | q :: l' => pred_size q + total l' end in
  match p with
  | PComparison _ _ _ _ | PInSet _ _ _ => 3
  | PRange _ _ _ _ _ _ | PIsNull _ _ | PIsNotNull _ _ => 2
  | PNot inner _ => S (pred_size inner)
  | PAnd items _ | POr items _ => total items + pred (length items)
  end.

Definition preds_size (l : list TypedPredicate) : nat := sum_list (pred_size <$> l).

Lemma pred_ok_all n l :
  (fix all (l : list TypedPredicate) : Prop :=
     match l with [] => True | q :: l' => pred_ok n q ∧ all l' end) l ↔ Forall (pred_ok n) l.
Proof. induction l as [|q l IH]; [by split|]. rewrite Forall_cons, <-IH. done. Qed.

Lemma pred_size_total l :
  (fix total (l : list TypedPredicate) : nat :=
     match l with [] => 0 | q :: l' => pred_size q + total l' end) l = preds_size l.
Proof. induction l as [|q l IH]; [done|]. cbn. by rewrite IH. Qed.

(** ** Appended code *)

Record extends (x y : EmitContext) (code : list DInstr) : Prop := {
  ext_code : ec_instructions y = ec_instructions x ++ code;
  ext_spans : length (ec_source_spans y) = (length (ec_source_spans x) + length code)%nat;
  ext_map : ec_rule_map y = ec_rule_map x;
  ext_patches : ec_patches_end y = ec_patches_end x;
  ext_le : pools_le x y;
  ext_ok : pools_ok y;
  ext_small : pools_small y;
}.

Lemma extends_trans x y z c1 c2 : extends x y c1 -> extends y z c2 -> extends x z (c1 ++ c2).
Proof.
  intros [] []. split; try congruence.
  - by rewrite ext_code1, ext_code0, app_assoc.
  - rewrite length_app. lia.
  - by etrans.
Qed.

Lemma emit_extends x i span : pools_ok x -> pools_small x -> extends x (ec_emit i span x) [i].
Proof.
  intros [] (?&?&?). split; cbn; try done.
  - rewrite length_app. done.
  - repeat split; cbn; rewrite length_app; lia.
Qed.

Lemma intern_extends x y i span : interned x y -> extends x (ec_emit i span y) [i].
Proof.
  intros [(E1 & E2 & E3 & E4) Hle [] (?&?&?)]. split; cbn; try done.
  - by rewrite E1.
  - by rewrite E2, length_app.
  - repeat split; cbn; rewrite length_app; cbn; lia.
Qed.

Lemma extends_length x y code :
  extends x y code -> length (ec_instructions y) = (length (ec_instructions x) + length code)%nat.
Proof. intros []. by rewrite ext_code0, length_app. Qed.

(** ** Blocks *)

Section blocks.
Context (c : CompiledDecision) (input : TypedInputContext) (source : string).
Context (Hspans : length (cd_source_spans c) = length (cd_instructions c)).
Context (Hsize : (N.of_nat (length (cd_instructions c)) <= u32_max)%N).

(** The program holds [code] at [off]. *)
Definition code_at (off : nat) (code : list DInstr) : Prop :=
  ∀ j i, code !! j = Some i -> cd_instructions c !! (off + j)%nat = Some i.

Lemma code_at_app off c1 c2 :
  code_at off (c1 ++ c2) ↔ code_at off c1 ∧ code_at (off + length c1) c2.
Proof.
  clear Hspans Hsize. split.
  - intros H. split; intros j i Hj.
    + apply H. by apply lookup_app_l_Some.
    + rewrite <-Nat.add_assoc. apply H. rewrite lookup_app_r by lia. by replace (_ - _)%nat with j by lia.
  - intros [H1 H2] j i [Hj|[? Hj]]%lookup_app_Some; [by apply H1|].
    apply H2 in Hj. by replace (off + length c1 + (j - length c1))%nat with (off + j)%nat in Hj by lia.
Qed.

Lemma code_at_one off i : code_at off [i] ↔ cd_instructions c !! off = Some i.
Proof.
  split.
  - intros H. specialize (H 0%nat i eq_refl). by rewrite Nat.add_0_r in H.
  - intros H [|j] i'; cbn; [|done]. intros [= <-]. by rewrite Nat.add_0_r.
Qed.

(** The pools of [x] are initial segments of the compiled pools. *)
Definition pools_in (x : EmitContext) : Prop :=
  ec_const_pool x `prefix_of` cd_const_pool c ∧
  ec_const_set_pool x `prefix_of` cd_const_set_pool c ∧
  ec_range_pool x `prefix_of` cd_range_pool c.

Lemma pools_in_le x y : pools_le x y -> pools_in y -> pools_in x.
Proof. intros (?&?&?) (?&?&?). repeat split; by etrans. Qed.

(** A straight-line block that maps one stack to another. *)
Definition block (code : list DInstr) (f : list TypedValue -> list TypedValue) : Prop :=
  ∀ s k, vm_at c s k -> code_at (co_pc k) code ->
    ∃ s', vm_runs c input source (length code) s s' ∧
      vm_at c s' (mkCore (co_pc k + length code) (f (co_stack k)) (co_matched k) (co_output k)).

Lemma block_app c1 c2 f1 f2 : block c1 f1 -> block c2 f2 -> block (c1 ++ c2) (λ st, f2 (f1 st)).
Proof.
  intros H1 H2 s k Hat [Hc1 Hc2]%code_at_app.
  destruct (H1 s k Hat Hc1) as (s1 & Hr1 & Hat1). destruct (H2 s1 _ Hat1 Hc2) as (s2 & Hr2 & Hat2).
  exists s2. rewrite length_app. split; [by eapply vm_runs_trans|].
  cbn in Hat2. by rewrite Nat.add_assoc.
Qed.

Lemma block_one i f :
  (∀ k, exec_core c input i k = Some (mkCore (S (co_pc k)) (f (co_stack k)) (co_matched k) (co_output k))) ->
  block [i] f.
Proof.
  intros He s k Hat Hi%code_at_one.
  destruct (step_at c input source Hspans Hsize s k _ i Hat Hi (He k)) as (s' & Hr & Hat').
  - cbn. by apply lookup_lt_Some in Hi.
  - exists s'. split; [done|]. cbn [length]. by rewrite Nat.add_1_r.
Qed.

(** Pushes one value. *)
Definition pushes (code : list DInstr) (v : TypedValue) : Prop := block code (λ st, v :: st).

Lemma pushes_load f : pushes [DLoadField f] (default TVNull (input_get input f)).
Proof. by apply block_one. Qed.
Lemma pushes_const idx v : cd_const_pool c !! N.to_nat idx = Some v -> pushes [DPushConst idx] v.
Proof. intros H. apply block_one. intros k. cbn. by rewrite H. Qed.
Lemma pushes_set idx : pushes [DPushConstSet idx] (TVInteger (Z.of_N idx)).
Proof. by apply block_one. Qed.

(** An instruction that consumes the values of two blocks, or of one. *)
Lemma pushes_two c1 c2 i a b v :
  (∀ pc st m o, exec_core c input i (mkCore pc (b :: a :: st) m o) = Some (mkCore (S pc) (v :: st) m o)) ->
  pushes c1 a -> pushes c2 b -> pushes (c1 ++ c2 ++ [i]) v.
Proof.
  intros Hi H1 H2 s k Hat [Hc1 [Hc2 Hc3%code_at_one]%code_at_app]%code_at_app.
  destruct (H1 s k Hat Hc1) as (s1 & Hr1 & Hat1). destruct (H2 s1 _ Hat1 Hc2) as (s2 & Hr2 & Hat2).
  cbn in Hat2. destruct (step_at c input source Hspans Hsize s2 _ _ i Hat2 Hc3 (Hi _ _ _ _)) as (s3 & Hr3 & Hat3).
  - cbn. apply lookup_lt_Some in Hc3. lia.
  - exists s3. rewrite !length_app. split.
    + replace (length c1 + (length c2 + length [i]))%nat with (length c1 + length c2 + 1)%nat
        by (cbn; lia).
      eapply vm_runs_trans; [by eapply vm_runs_trans|done].
    + by replace (co_pc k + (length c1 + (length c2 + length [i])))%nat
        with (S (co_pc k + length c1 + length c2)) by (cbn; lia).
Qed.

Lemma pushes_one c1 i a v :
  (∀ pc st m o, exec_core c input i (mkCore pc (a :: st) m o) = Some (mkCore (S pc) (v :: st) m o)) ->
  pushes c1 a -> pushes (c1 ++ [i]) v.
Proof.
  intros Hi H1 s k Hat [Hc1 Hc2%code_at_one]%code_at_app.
  destruct (H1 s k Hat Hc1) as (s1 & Hr1 & Hat1). cbn in Hat1.
  destruct (step_at c input source Hspans Hsize s1 _ _ i Hat1 Hc2 (Hi _ _ _ _)) as (s2 & Hr2 & Hat2).
  - cbn. apply lookup_lt_Some in Hc2. lia.
  - exists s2. rewrite length_app. split; [by eapply vm_runs_trans|].
    cbn [length]. by replace (co_pc k + (length c1 + 1))%nat with (S (co_pc k + length c1)) by lia.
Qed.
End blocks.

(** ** Atomic predicates *)

(** The function a comparison instruction computes. *)
Definition op_fun (op : ComparisonOp) : TypedValue -> TypedValue -> bool :=
  match op with
  | OpEq => vm_values_equal
  | OpNotEq => vm_not_equal
  | OpLt => λ a b, is_some_and (compare_numeric a b) is_lt
  | OpLe => λ a b, is_some_and (compare_numeric a b) (λ o, negb (is_gt o))
  | OpGt => λ a b, is_some_and (compare_numeric a b) is_gt
  | OpGe => λ a b, is_some_and (compare_numeric a b) (λ o, negb (is_lt o))
  end.

(** The value [LoadField] pushes. *)
Definition loaded (input : TypedInputContext) (f : FieldId) : TypedValue :=
  default TVNull (input_get input f).

Lemma present_loaded input f :
  (present input f = None ∧ loaded input f = TVNull) ∨
  (∃ v, present input f = Some v ∧ loaded input f = v ∧ v ≠ TVNull).
Proof.
  unfold present, loaded. destruct (input_get input f) as [[]|]; cbn; eauto 10.
  all: right; eexists; split_and!; done.
Qed.

Lemma vm_equal_present a b : a ≠ TVNull -> vm_values_equal a b = ref_values_equal a b.
Proof. by destruct a, b. Qed.

Lemma op_fun_eval input f op rhs : op_fun op (loaded input f) rhs = eval_comparison f op rhs input.
Proof.
  unfold eval_comparison. destruct (present_loaded input f) as [[-> ->]|(v & -> & -> & Hv)].
  - by destruct op.
  - destruct op; cbn [op_fun]; try done; [by apply vm_equal_present|].
    unfold vm_not_equal. rewrite vm_equal_present by done. by destruct v, rhs.
Qed.

Lemma in_set_eval input f vs :
  existsb (vm_values_equal (loaded input f)) vs = eval_in_set f vs input.
Proof.
  unfold eval_in_set. destruct (present_loaded input f) as [[-> ->]|(v & -> & -> & Hv)].
  - by induction vs.
  - induction vs as [|w vs IH]; [done|]. cbn. by rewrite IH, vm_equal_present.
Qed.

Lemma range_eval input f lo up li ui :
  eval_range_check (loaded input f) (mkRange lo up li ui) = eval_range f lo up li ui input.
Proof.
  unfold eval_range. destruct (present_loaded input f) as [[-> ->]|(v & -> & -> & Hv)]; [done|].
  by destruct v.
Qed.

Lemma null_eval input f : is_tv_null (loaded input f) = eval_is_null f input.
Proof.
  unfold eval_is_null. destruct (present_loaded input f) as [[-> ->]|(v & -> & -> & Hv)]; [done|].
  by destruct v.
Qed.
Lemma not_null_eval input f : negb (is_tv_null (loaded input f)) = eval_is_not_null f input.
Proof.
  unfold eval_is_not_null. destruct (present_loaded input f) as [[-> ->]|(v & -> & -> & Hv)]; [done|].
  by destruct v.
Qed.

(** ** The emitted code of a predicate *)

(** [code] computes [p] in every program with the pools of [y]. *)
Definition computes (y : EmitContext) (code : list DInstr) (p : TypedPredicate) : Prop :=
  ∀ c input source,
    length (cd_source_spans c) = length (cd_instructions c) ->
    (N.of_nat (length (cd_instructions c)) <= u32_max)%N ->
    pools_in c y -> pushes c input source code (TVBool (eval_predicate p input)).

(** The instructions of a predicate: no branch, every reference in range. *)
Definition plain (n : nat) (y : EmitContext) (i : DInstr) : Prop :=
  match i with
  | DLoadField f => (f < n)%nat
  | DPushConst k => (N.to_nat k < length (ec_const_pool y))%nat
  | DPushConstSet k => (N.to_nat k < length (ec_const_set_pool y))%nat
  | DRangeCheck k => (N.to_nat k < length (ec_range_pool y))%nat
  | DEq | DNotEq | DLt | DLe | DGt | DGe | DInSet | DIsNull | DIsNotNull | DAnd | DOr | DNot => True
  | _ => False
  end.

Lemma plain_le n y z i : pools_le y z -> plain n y i -> plain n z i.
Proof.
  intros (H1%prefix_length & H2%prefix_length & H3%prefix_length). destruct i; cbn; try done; lia.
Qed.
Lemma Forall_plain_le n y z code : pools_le y z -> Forall (plain n y) code -> Forall (plain n z) code.
Proof. intros H Hc. eapply Forall_impl; [exact Hc|]. intros i. by apply plain_le. Qed.

(** The stack height after a straight-line block, when nothing underflows. *)
Fixpoint heights (h : nat) (code : list DInstr) : option nat :=
  match code with
  | [] => Some h
  | i :: code' =>
      let '(pop, push) := stack_delta i in
      if (pop <=? h)%nat then heights (h - pop + push) code' else None
  end.

Lemma heights_app h c1 c2 h' : heights h c1 = Some h' -> heights h (c1 ++ c2) = heights h' c2.
Proof.
  revert h; induction c1 as [|i c1 IH]; intros h; cbn; [by intros [= ->]|].
  destruct (stack_delta i) as [pop push]. destruct (pop <=? h)%nat; [apply IH|done].
Qed.

(** Evaluates the heights of a concrete block. *)
Ltac solve_heights :=
  cbn -[Nat.leb Nat.sub Nat.add]; repeat match goal with
  | |- context [(?a <=? ?b)%nat] => destruct (Nat.leb_spec a b); [|lia]
  end; f_equal; lia.

(** The contract of [emit_predicate_nested] at [x], for inputs of arity [n]. *)
Record emits (n : nat) (x y : EmitContext) (code : list DInstr) (p : TypedPredicate) : Prop := {
  em_extends : extends x y code;
  em_size : length code = pred_size p;
  em_plain : Forall (plain n y) code;
  em_heights : ∀ h, heights h code = Some (S h);
  em_computes : computes y code p;
}.
Definition emits_pred (n : nat) (x : EmitContext) (p : TypedPredicate) : Prop :=
  ∃ y code, emit_predicate_nested p x = Some y ∧ emits n x y code p.

Definition room (x : EmitContext) (n : nat) : Prop :=
  (N.of_nat (length (ec_instructions x) + n) <= u32_max)%N.

Lemma comparison_emits n x f op rhs span :
  (f < n)%nat -> tv_ok rhs -> pools_ok x -> pools_small x -> room x 3 ->
  emits_pred n x (PComparison f op rhs span).
Proof.
  intros Hf Hr Hx Hs Hroom. pose proof (emit_extends x (DLoadField f) span Hx Hs) as E1.
  destruct (intern_const_ok rhs (ec_emit (DLoadField f) span x)) as (idx & y & Ey & Hy & Hv);
    [done|by apply E1|by apply E1|rewrite (extends_length _ _ _ E1); unfold room in Hroom; cbn; lia|].
  pose proof (intern_extends _ _ (DPushConst idx) span Hy) as E2.
  pose proof (emit_extends _ (op_instr op) span (ext_ok _ _ _ E2) (ext_small _ _ _ E2)) as E3.
  exists (ec_emit (op_instr op) span (ec_emit (DPushConst idx) span y)),
    ([DLoadField f] ++ [DPushConst idx] ++ [op_instr op]).
  split; [cbn; unfold emit_comparison; by rewrite Ey|]. split.
  - by eapply extends_trans; [|eapply extends_trans].
  - done.
  - apply lookup_lt_Some in Hv. repeat constructor; [done..|by destruct op].
  - intros h. destruct op; solve_heights.
  - intros c input source Hsp Hsz (Hc & _). cbn [eval_predicate]. rewrite <-op_fun_eval.
    apply (pushes_two _ _ _ Hsp Hsz _ _ _ (loaded input f) rhs); [by destruct op|by apply pushes_load|].
    apply pushes_const; [done|done|]. eapply prefix_lookup_Some; [done|]. done.
Qed.

Lemma i64_as_usize_of_N n : (n <= u32_max)%N -> i64_as_usize (Z.of_N n) = N.to_nat n.
Proof. unfold i64_as_usize, u32_max. intros H. rewrite Z.mod_small by lia. lia. Qed.

Lemma in_set_emits n x f vs span :
  (f < n)%nat -> Forall tv_ok vs -> pools_ok x -> pools_small x -> room x 3 ->
  emits_pred n x (PInSet f vs span).
Proof.
  intros Hf Hr Hx Hs Hroom. pose proof (emit_extends x (DLoadField f) span Hx Hs) as E1.
  destruct (intern_const_set_ok vs (ec_emit (DLoadField f) span x)) as (idx & y & Ey & Hy & Hv & Hidx);
    [done|by apply E1|by apply E1|rewrite (extends_length _ _ _ E1); unfold room in Hroom; cbn; lia|].
  pose proof (intern_extends _ _ (DPushConstSet idx) span Hy) as E2.
  pose proof (emit_extends _ DInSet span (ext_ok _ _ _ E2) (ext_small _ _ _ E2)) as E3.
  exists (ec_emit DInSet span (ec_emit (DPushConstSet idx) span y)),
    ([DLoadField f] ++ [DPushConstSet idx] ++ [DInSet]).
  split; [cbn; unfold emit_in_set; by rewrite Ey|]. split.
  - by eapply extends_trans; [|eapply extends_trans].
  - done.
  - apply lookup_lt_Some in Hv. by repeat constructor.
  - intros h. solve_heights.
  - intros c input source Hsp Hsz (_ & Hc & _). cbn [eval_predicate].
    rewrite <-in_set_eval, <-(existsb_canonical_set _ vs) by done.
    apply (pushes_two _ _ _ Hsp Hsz _ _ _ (loaded input f) (TVInteger (Z.of_N idx)));
      [|by apply pushes_load|by apply pushes_set].
    intros. cbn -[i64_as_usize]. rewrite i64_as_usize_of_N by done.
    by erewrite prefix_lookup_Some by eassumption.
Qed.

Lemma range_emits n x f lo up li ui span :
  (f < n)%nat -> opt_ok tv_ok lo -> opt_ok tv_ok up -> pools_ok x -> pools_small x -> room x 2 ->
  emits_pred n x (PRange f lo up li ui span).
Proof.
  intros Hf Hlo Hup Hx Hs Hroom. pose proof (emit_extends x (DLoadField f) span Hx Hs) as E1.
  destruct (intern_range_ok (mkRange lo up li ui) (ec_emit (DLoadField f) span x))
    as (idx & y & Ey & Hy & Hv);
    [done|by apply E1|by apply E1|rewrite (extends_length _ _ _ E1); unfold room in Hroom; cbn; lia|].
  pose proof (intern_extends _ _ (DRangeCheck idx) span Hy) as E2.
  exists (ec_emit (DRangeCheck idx) span y), ([DLoadField f] ++ [DRangeCheck idx]).
  split; [cbn; unfold emit_range; by rewrite Ey|]. split.
  - by eapply extends_trans.
  - done.
  - apply lookup_lt_Some in Hv. by repeat constructor.
  - intros h. solve_heights.
  - intros c input source Hsp Hsz (_ & _ & Hc). cbn [eval_predicate]. rewrite <-range_eval.
    apply (pushes_one _ _ _ Hsp Hsz _ _ (loaded input f)); [|by apply pushes_load].
    intros. cbn. by erewrite prefix_lookup_Some by eassumption.
Qed.

Lemma null_test_emits n x f (is_null : bool) span :
  (f < n)%nat -> pools_ok x -> pools_small x -> room x 2 ->
  emits_pred n x (if is_null then PIsNull f span else PIsNotNull f span).
Proof.
  intros Hf Hx Hs Hroom. pose proof (emit_extends x (DLoadField f) span Hx Hs) as E1.
  pose proof (emit_extends _ (if is_null then DIsNull else DIsNotNull) span (ext_ok _ _ _ E1)
    (ext_small _ _ _ E1)) as E2.
  exists (emit_null_test f is_null span x), ([DLoadField f] ++ [if is_null then DIsNull else DIsNotNull]).
  split; [by destruct is_null|]. split.
  - by eapply extends_trans.
  - by destruct is_null.
  - repeat constructor; [done|by destruct is_null].
  - intros h. destruct is_null; solve_heights.
  - intros c input source Hsp Hsz _. destruct is_null; cbn [eval_predicate];
      rewrite <-?null_eval, <-?not_null_eval;
      (apply (pushes_one _ _ _ Hsp Hsz _ _ (loaded input f)); [done|by apply pushes_load]).
Qed.

(** ** Connectives *)

(** The loop of [emit_and] and [emit_or] over the operands after the first. *)
Fixpoint emit_connect (i : DInstr) (span : SourceSpan) (l : list TypedPredicate) (x : EmitContext)
  : option EmitContext :=
  match l with
  | [] => Some x
  | q :: l' => x ← emit_predicate_nested q x; emit_connect i span l' (ec_emit i span x)
  end.

Lemma emit_and_eq p0 p1 rest span x :
  emit_predicate_nested (PAnd (p0 :: p1 :: rest) span) x =
  (x ← emit_predicate_nested p0 x; emit_connect DAnd span (p1 :: rest) x).
Proof.
  cbn. destruct (emit_predicate_nested p0 x) as [y|]; [|done]. cbn.
  destruct (emit_predicate_nested p1 y) as [z|]; [|done]. cbn. generalize (ec_emit DAnd span z). clear.
  induction rest as [|q l IH]; intros x; [done|]. cbn.
  destruct (emit_predicate_nested q x); [|done]. apply IH.
Qed.

Lemma emit_or_eq p0 p1 rest span x :
  emit_predicate_nested (POr (p0 :: p1 :: rest) span) x =
  (x ← emit_predicate_nested p0 x; emit_connect DOr span (p1 :: rest) x).
Proof.
  cbn. destruct (emit_predicate_nested p0 x) as [y|]; [|done]. cbn.
  destruct (emit_predicate_nested p1 y) as [z|]; [|done]. cbn. generalize (ec_emit DOr span z). clear.
  induction rest as [|q l IH]; intros x; [done|]. cbn.
  destruct (emit_predicate_nested q x); [|done]. apply IH.
Qed.

(** An instruction that combines two verdicts. *)
Definition connective (i : DInstr) (g : bool -> bool -> bool) : Prop :=
  ∀ c input pc st m o a b,
    exec_core c input i (mkCore pc (TVBool b :: TVBool a :: st) m o)
    = Some (mkCore (S pc) (TVBool (g a b) :: st) m o).

(** The emitter's contract, for every context with room. *)
Definition emittable (n : nat) (p : TypedPredicate) : Prop :=
  ∀ x, pools_ok x -> pools_small x -> room x (pred_size p) -> emits_pred n x p.

(** [And] and [Or] as the verifier sees them. *)
Definition connective_instr (i : DInstr) : Prop := i = DAnd ∨ i = DOr.

Lemma connective_plain n y i : connective_instr i -> plain n y i.
Proof. by intros [-> | ->]. Qed.
Lemma connective_heights i h : connective_instr i -> heights (S (S h)) [i] = Some (S h).
Proof. intros [-> | ->]; solve_heights. Qed.

Lemma connect_emits n i g span l :
  connective_instr i -> connective i g -> Forall (emittable n) l ->
  ∀ x, pools_ok x -> pools_small x -> room x (preds_size l + length l) ->
  ∃ y code, emit_connect i span l x = Some y ∧ extends x y code ∧
    length code = (preds_size l + length l)%nat ∧
    Forall (plain n y) code ∧ (∀ h, heights (S h) code = Some (S h)) ∧
    ∀ c input source,
      length (cd_source_spans c) = length (cd_instructions c) ->
      (N.of_nat (length (cd_instructions c)) <= u32_max)%N -> pools_in c y ->
      ∀ code0 a, pushes c input source code0 (TVBool a) ->
        pushes c input source (code0 ++ code)
          (TVBool (foldl (λ acc q, g acc (eval_predicate q input)) a l)).
Proof.
  intros Hci Hi Hl. induction Hl as [|q l Hq Hl IH]; intros x Hx Hs Hroom.
  - exists x, []. split_and!; try done; [|by intros; rewrite app_nil_r].
    split; try done; rewrite ?app_nil_r; cbn; lia || done.
  - change (preds_size (q :: l)) with (pred_size q + preds_size l)%nat in *. cbn [length] in *.
    unfold room in *. destruct (Hq x Hx Hs) as (y & c1 & Ey & [E1 Hlen1 Hp1 Hh1 Hc1]); [unfold room; lia|].
    pose proof (emit_extends y i span (ext_ok _ _ _ E1) (ext_small _ _ _ E1)) as E2.
    pose proof (extends_trans _ _ _ _ _ E1 E2) as E12.
    destruct (IH (ec_emit i span y)) as (z & c2 & Ez & E3 & Hlen2 & Hp2 & Hh2 & Hc2); [by apply E2..| |].
    { rewrite (extends_length _ _ _ E12), length_app. cbn [length]. lia. }
    exists z, ((c1 ++ [i]) ++ c2). split_and!.
    + cbn. by rewrite Ey.
    + by eapply extends_trans.
    + rewrite !length_app. cbn [length]. lia.
    + rewrite !Forall_app, Forall_singleton. split_and!; [|by apply connective_plain|done].
      eapply Forall_plain_le; [|exact Hp1]. etrans; [apply E2|apply E3].
    + intros h. rewrite <-app_assoc, (heights_app _ _ _ _ (Hh1 _)).
      by rewrite (heights_app _ [i] _ _ (connective_heights i h Hci)).
    + intros c input source Hsp Hsz Hp code0 a H0. cbn [foldl]. rewrite app_assoc.
      apply Hc2; [done..|]. eapply (pushes_two _ _ _ Hsp Hsz _ _ _ (TVBool a)); [by intros; apply Hi|done|].
      apply Hc1; [done..|]. eapply pools_in_le; [|exact Hp]. etrans; [apply E2|apply E3].
Qed.

Lemma foldl_and {A} (f : A -> bool) a l :
  foldl (λ acc q, acc && f q) a l = a && forallb (λ r, r) (map f l).
Proof. revert a; induction l as [|q l IH]; intros a; cbn; [by rewrite andb_true_r|]. by rewrite IH, andb_assoc. Qed.
Lemma foldl_or {A} (f : A -> bool) a l :
  foldl (λ acc q, acc || f q) a l = a || existsb (λ r, r) (map f l).
Proof. revert a; induction l as [|q l IH]; intros a; cbn; [by rewrite orb_false_r|]. by rewrite IH, orb_assoc. Qed.

(** Two operands or more: the first, then the loop. *)
Lemma connected_emits n p i g span p0 rest :
  connective_instr i -> connective i g ->
  (∀ x, emit_predicate_nested p x = (x ← emit_predicate_nested p0 x; emit_connect i span rest x)) ->
  pred_size p = (pred_size p0 + preds_size rest + length rest)%nat ->
  (∀ input, eval_predicate p input =
     foldl (λ acc q, g acc (eval_predicate q input)) (eval_predicate p0 input) rest) ->
  emittable n p0 -> Forall (emittable n) rest -> emittable n p.
Proof.
  intros Hci Hi Hemit Hsz Heval H0 Hrest x Hx Hs Hroom. unfold room in *. rewrite Hsz in Hroom.
  destruct (H0 x Hx Hs) as (y & c1 & Ey & [E1 Hlen1 Hp1 Hh1 Hc1]); [unfold room; lia|].
  destruct (connect_emits n i g span rest Hci Hi Hrest y)
    as (z & c2 & Ez & E2 & Hlen2 & Hp2 & Hh2 & Hc2); [by apply E1..| |].
  { unfold room. rewrite (extends_length _ _ _ E1). lia. }
  exists z, (c1 ++ c2). split; [by rewrite Hemit, Ey|]. split.
  - by eapply extends_trans.
  - rewrite length_app, Hsz. lia.
  - rewrite Forall_app. split; [|done]. eapply Forall_plain_le; [apply E2|exact Hp1].
  - intros h. by rewrite (heights_app _ _ _ _ (Hh1 h)).
  - intros c input source Hsp Hsz' Hp. rewrite Heval. apply Hc2; [done..|]. apply Hc1; [done..|].
    eapply pools_in_le; [apply E2|done].
Qed.

(** Every well-formed predicate is compiled, to code that computes it. *)
Lemma pred_emittable n p : pred_ok n p -> emittable n p.
Proof.
  induction p as [f op rhs s|f vs s|f lo up li ui s|f s|f s|p s IH|items s IH|items s IH]
    using TypedPredicate_ind'; cbn [pred_ok]; intros Hok.
  - intros x Hx Hs Hroom. by apply comparison_emits; try apply Hok.
  - intros x Hx Hs Hroom. by apply in_set_emits; try apply Hok.
  - intros x Hx Hs Hroom. destruct Hok as (?&?&?). by apply range_emits.
  - intros x Hx Hs Hroom. by apply (null_test_emits n x f true).
  - intros x Hx Hs Hroom. by apply (null_test_emits n x f false).
  - intros x Hx Hs Hroom. cbn [pred_size] in Hroom. unfold room in *.
    destruct (IH Hok x Hx Hs) as (y & c1 & Ey & [E1 Hlen1 Hp1 Hh1 Hc1]); [unfold room; lia|].
    pose proof (emit_extends y DNot s (ext_ok _ _ _ E1) (ext_small _ _ _ E1)) as E2.
    exists (ec_emit DNot s y), (c1 ++ [DNot]). split; [cbn; by rewrite Ey|]. split.
    + by eapply extends_trans.
    + rewrite length_app. cbn. lia.
    + rewrite Forall_app, Forall_singleton. split; [|done]. eapply Forall_plain_le; [apply E2|exact Hp1].
    + intros h. rewrite (heights_app _ _ _ _ (Hh1 h)). solve_heights.
    + intros c input source Hsp Hsz Hp. cbn [eval_predicate].
      eapply (pushes_one _ _ _ Hsp Hsz); [|by apply Hc1]. done.
  - destruct Hok as [Hlen Hall%pred_ok_all]. destruct items as [|p0 [|p1 rest]]; cbn in Hlen; try lia.
    inversion Hall as [|? ? H0 Hr]; subst. inversion IH as [|? ? I0 Ir]; subst.
    eapply (connected_emits n _ DAnd andb s p0 (p1 :: rest)); [by left|done|apply emit_and_eq|..].
    + cbn. rewrite pred_size_total. unfold preds_size. cbn. lia.
    + intros input. by rewrite foldl_and.
    + by apply I0.
    + clear -Ir Hr. induction Ir; inversion Hr; subst; constructor; auto.
  - destruct Hok as [Hlen Hall%pred_ok_all]. destruct items as [|p0 [|p1 rest]]; cbn in Hlen; try lia.
    inversion Hall as [|? ? H0 Hr]; subst. inversion IH as [|? ? I0 Ir]; subst.
    eapply (connected_emits n _ DOr orb s p0 (p1 :: rest)); [by right|done|apply emit_or_eq|..].
    + cbn. rewrite pred_size_total. unfold preds_size. cbn. lia.
    + intros input. by rewrite foldl_or.
    + by apply I0.
    + clear -Ir Hr. induction Ir; inversion Hr; subst; constructor; auto.
Qed.
