(* ===== verification/DmnLayout.v ===== *)
(** * dmn-lite: the code of a rule and of a decision

    The layout of an emitted program, and what the VM does when it runs over
    it: [preds_at], [assigns_at], [rule_at] and [rules_at] say where the code
    of a clause sits, the [run_*] lemmas execute it. *)

From S2P Require Import Prelude RustStr Json Types Platform Canonical CodecFacts DmnTypes DmnReference DmnVm DmnEmit DmnVerify DmnSteps DmnCodegen.

(** ** Well-formed rules *)

Definition when_preds (w : TypedWhen) : list TypedPredicate :=
  match w with CatchAll _ => [] | Predicates preds _ => preds end.

Record rule_ok (n m : nat) (r : TypedRule) : Prop := {
  ro_when : Forall (pred_ok n) (when_preds (rule_when r));
  ro_then : Forall (λ a, (output_field a < m)%nat ∧ tv_ok (asg_value a)) (rule_then r);
}.

(** The number of instructions of a rule. *)
Definition rule_size (policy : HitPolicy) (r : TypedRule) : nat :=
  preds_size (when_preds (rule_when r)) + length (when_preds (rule_when r))
  + 2 * length (rule_then r) + match policy with First => 2 | Unique => 1 end.

Definition rules_size (policy : HitPolicy) (l : list TypedRule) : nat :=
  sum_list (rule_size policy <$> l).

(** ** Semantics of rules, as the VM computes it *)

Definition rule_matches (r : TypedRule) (input : TypedInputContext) : bool :=
  forallb (λ p, eval_predicate p input) (when_preds (rule_when r)).

Definition assign_output (o : list (option TypedValue)) (l : list TypedAssignment)
  : list (option TypedValue) :=
  foldl (λ o a, <[output_field a := Some (asg_value a)]> o) o l.

(** Matched rules and output after the rules have run. *)
Fixpoint rules_result (policy : HitPolicy) (l : list TypedRule) (input : TypedInputContext)
    (m : list RuleId) (o : list (option TypedValue)) : list RuleId * list (option TypedValue) :=
  match l with
  | [] => (m, o)
  | r :: l' =>
      if rule_matches r input then
        match policy with
        | First => (m ++ [rule_id r], assign_output o (rule_then r))
        | Unique => rules_result policy l' input (m ++ [rule_id r]) (assign_output o (rule_then r))
        end
      else rules_result policy l' input m o
  end.

Lemma length_assign_output o l : length (assign_output o l) = length o.
Proof.
  revert o; induction l as [|a l IH]; intros o; cbn; [done|].
  unfold assign_output in IH. by rewrite IH, length_insert.
Qed.

(** ** Layout *)

Section layout.
Context (c : CompiledDecision) (input : TypedInputContext) (source : string).
Context (Hspans : length (cd_source_spans c) = length (cd_instructions c)).
Context (Hsize : (N.of_nat (length (cd_instructions c)) <= u32_max)%N).

(** An instruction of a predicate, its references within the artifact. *)
Definition plain_in (i : DInstr) : Prop :=
  match i with
  | DLoadField f => (f < length (cd_input_schema c))%nat
  | DPushConst k => (N.to_nat k < length (cd_const_pool c))%nat
  | DPushConstSet k => (N.to_nat k < length (cd_const_set_pool c))%nat
  | DRangeCheck k => (N.to_nat k < length (cd_range_pool c))%nat
  | DEq | DNotEq | DLt | DLe | DGt | DGe | DInSet | DIsNull | DIsNotNull | DAnd | DOr | DNot => True
  | _ => False
  end.

(** The predicates from [off] to [fin], each leaving for [next] when false. *)
Inductive preds_at (next : nat) : nat -> list TypedPredicate -> nat -> Prop :=
| pa_nil off : preds_at next off [] off
| pa_cons off p ps code fin :
    code_at c off code ->
    Forall plain_in code ->
    (∀ h, heights h code = Some (S h)) ->
    pushes c input source code (TVBool (eval_predicate p input)) ->
    cd_instructions c !! (off + length code)%nat = Some (DBrFalse (N.of_nat next)) ->
    preds_at next (S (off + length code)) ps fin ->
    preds_at next off (p :: ps) fin.

Inductive assigns_at : nat -> list TypedAssignment -> nat -> Prop :=
| aa_nil off : assigns_at off [] off
| aa_cons off a l idx fin :
    cd_instructions c !! off = Some (DPushConst idx) ->
    cd_const_pool c !! N.to_nat idx = Some (asg_value a) ->
    cd_instructions c !! S off = Some (DStoreOutputTos (N.of_nat (output_field a))) ->
    (output_field a < length (cd_output_schema c))%nat ->
    assigns_at (S (S off)) l fin ->
    assigns_at off (a :: l) fin.

(** The end of a rule: [RuleMatched], and under FIRST a jump to [end_]. *)
Definition tail_at (policy : HitPolicy) (end_ off : nat) (r : TypedRule) (next : nat) : Prop :=
  cd_instructions c !! off = Some (DRuleMatched (rule_id r)) ∧
  match policy with
  | Unique => next = S off
  | First => cd_instructions c !! S off = Some (DBr (N.of_nat end_)) ∧ next = S (S off)
  end.

Definition rule_at (policy : HitPolicy) (end_ off : nat) (r : TypedRule) (next : nat) : Prop :=
  ∃ fin1 fin2, preds_at next off (when_preds (rule_when r)) fin1 ∧
    assigns_at fin1 (rule_then r) fin2 ∧ tail_at policy end_ fin2 r next.

Inductive rules_at (policy : HitPolicy) (end_ : nat) : nat -> list TypedRule -> Prop :=
| ra_nil : rules_at policy end_ end_ []
| ra_cons off r l next :
    rule_at policy end_ off r next -> rules_at policy end_ next l -> rules_at policy end_ off (r :: l).

Lemma preds_at_le next off ps fin : preds_at next off ps fin -> (off <= fin)%nat.
Proof. clear Hspans Hsize. induction 1; lia. Qed.
Lemma assigns_at_le off l fin : assigns_at off l fin -> (off <= fin)%nat.
Proof. clear Hspans Hsize. induction 1; lia. Qed.
Lemma rule_at_lt policy end_ off r next : rule_at policy end_ off r next -> (off < next)%nat.
Proof.
  clear Hspans Hsize. intros (f1 & f2 & H1%preds_at_le & H2%assigns_at_le & _ & H3). destruct policy; [lia|].
  destruct H3 as [_ ->]. lia.
Qed.
Lemma rules_at_le policy end_ off l : rules_at policy end_ off l -> (off <= end_)%nat.
Proof. clear Hspans Hsize. induction 1 as [|off r l next H%rule_at_lt _ IH]; lia. Qed.

(** ** Running *)

(** The VM goes from [s] to [k], in at most as many steps as the program
    counter advances. *)
Definition reaches (s : VmState) (pc : nat) (k : Core) : Prop :=
  ∃ n s', vm_runs c input source n s s' ∧ vm_at c s' k ∧ (n + pc <= co_pc k)%nat.

Lemma reaches_refl s k : vm_at c s k -> reaches s (co_pc k) k.
Proof. intros H. exists 0%nat, s. split; [constructor|]. split; [done|lia]. Qed.

Lemma reaches_trans s pc k k' :
  reaches s pc k -> (∀ s', vm_at c s' k -> reaches s' (co_pc k) k') -> reaches s pc k'.
Proof.
  intros (n & s1 & Hr & Hat & Hn) H. destruct (H s1 Hat) as (m & s2 & Hr2 & Hat2 & Hm).
  exists (n + m)%nat, s2. split; [by eapply vm_runs_trans|]. split; [done|lia].
Qed.

Lemma reaches_step s k i k' :
  vm_at c s k -> cd_instructions c !! co_pc k = Some i -> exec_core c input i k = Some k' ->
  (co_pc k < co_pc k' <= length (cd_instructions c))%nat -> reaches s (co_pc k) k'.
Proof.
  intros Hat Hi He [Hlt Hle].
  destruct (step_at c input source Hspans Hsize s k k' i Hat Hi He Hle) as (s' & Hr & Hat').
  exists 1%nat, s'. split; [done|]. split; [done|lia].
Qed.

Lemma run_preds next off ps fin s m o :
  preds_at next off ps fin -> (fin <= next <= length (cd_instructions c))%nat ->
  vm_at c s (mkCore off [] m o) ->
  reaches s off (mkCore (if forallb (λ p, eval_predicate p input) ps then fin else next) [] m o).
Proof.
  intros H Hnext. revert s. induction H as [off|off p ps code fin Hcode _ _ Hp Hbr Hps IH]; intros s Hat.
  - by apply (reaches_refl _ (mkCore off [] m o)).
  - destruct (Hp s _ Hat Hcode) as (s1 & Hr1 & Hat1). cbn in Hat1.
    pose proof (preds_at_le _ _ _ _ Hps). cbn [forallb].
    eapply (reaches_trans _ _ (mkCore (off + length code) [TVBool (eval_predicate p input)] m o)).
    { exists (length code), s1. split; [done|]. split; [done|cbn [co_pc]; lia]. }
    intros s2 Hat2. cbn [co_pc]. destruct (eval_predicate p input) eqn:Ep; cbn [andb].
    + eapply (reaches_trans _ _ (mkCore (S (off + length code)) [] m o)).
      * eapply (reaches_step _ (mkCore (off + length code) [TVBool true] m o)); [done|done|done|cbn [co_pc]; lia].
      * intros s3 Hat3. apply IH; [lia|done].
    + eapply (reaches_step _ (mkCore (off + length code) [TVBool false] m o)); [done|done|cbn; by rewrite Nat2N.id|cbn [co_pc]; lia].
Qed.

Lemma run_assigns off l fin s m o :
  assigns_at off l fin -> (fin <= length (cd_instructions c))%nat ->
  Forall (λ a, (output_field a < length o)%nat) l ->
  vm_at c s (mkCore off [] m o) -> reaches s off (mkCore fin [] m (assign_output o l)).
Proof.
  intros H Hfin. revert s o. induction H as [off|off a l idx fin Hpush Hv Hst _ Hl IH]; intros s o Ho Hat.
  - by apply (reaches_refl _ (mkCore off [] m o)).
  - inversion Ho as [|? ? Ha Ho']; subst. pose proof (assigns_at_le _ _ _ Hl).
    eapply (reaches_trans _ _ (mkCore (S off) [asg_value a] m o)).
    { eapply (reaches_step _ (mkCore off [] m o)); [done|done|cbn; by rewrite Hv|cbn [co_pc]; lia]. }
    intros s2 Hat2. eapply (reaches_trans _ _ (mkCore (S (S off)) [] m (<[output_field a := Some (asg_value a)]> o))).
    + eapply (reaches_step _ (mkCore (S off) [asg_value a] m o)); [done|done| |cbn [co_pc]; lia].
      cbn -[Nat.ltb]. rewrite Nat2N.id.
      destruct (Nat.ltb_spec (output_field a) (length o)); [done|lia].
    + intros s3 Hat3. apply IH; [lia| |done]. by rewrite length_insert.
Qed.

Lemma run_tail policy end_ off r next s m o :
  tail_at policy end_ off r next -> (next <= end_ < length (cd_instructions c))%nat ->
  vm_at c s (mkCore off [] m o) ->
  reaches s off (mkCore (match policy with Unique => next | First => end_ end) [] (m ++ [rule_id r]) o).
Proof.
  intros [Hm Ht] Hend Hat. destruct policy.
  - subst next. eapply (reaches_step _ (mkCore off [] m o)); [done|done|done|cbn [co_pc]; lia].
  - destruct Ht as [Hbr ->]. eapply (reaches_trans _ _ (mkCore (S off) [] (m ++ [rule_id r]) o)).
    + eapply (reaches_step _ (mkCore off [] m o)); [done|done|done|cbn [co_pc]; lia].
    + intros s2 Hat2. eapply (reaches_step _ (mkCore (S off) [] (m ++ [rule_id r]) o)); [done|done|cbn; by rewrite Nat2N.id|cbn [co_pc]; lia].
Qed.

(** One rule: taken, or skipped to the next. *)
Lemma run_rule policy end_ off r next s m o :
  rule_at policy end_ off r next -> (next <= end_ < length (cd_instructions c))%nat ->
  Forall (λ a, (output_field a < length o)%nat) (rule_then r) ->
  vm_at c s (mkCore off [] m o) ->
  reaches s off (if rule_matches r input
                 then mkCore (match policy with Unique => next | First => end_ end) []
                        (m ++ [rule_id r]) (assign_output o (rule_then r))
                 else mkCore next [] m o).
Proof.
  intros (f1 & f2 & Hp & Ha & Ht) Hend Ho Hat.
  assert (f2 < next)%nat by (destruct Ht as [_ Ht]; destruct policy; [lia|destruct Ht; lia]).
  pose proof (assigns_at_le _ _ _ Ha).
  pose proof (run_preds next off _ f1 s m o Hp ltac:(lia) Hat) as H1.
  unfold rule_matches. destruct (forallb _ _); [|done].
  eapply reaches_trans; [exact H1|]. intros s1 Hat1. cbn [co_pc].
  eapply reaches_trans; [apply (run_assigns f1 _ f2 s1 m o Ha); [lia|done|done]|].
  intros s2 Hat2. by apply (run_tail policy end_ f2 r next).
Qed.

Lemma run_rules policy end_ off l s m o :
  rules_at policy end_ off l -> (end_ < length (cd_instructions c))%nat ->
  Forall (λ r, Forall (λ a, (output_field a < length o)%nat) (rule_then r)) l ->
  vm_at c s (mkCore off [] m o) ->
  reaches s off (mkCore end_ [] (rules_result policy l input m o).1 (rules_result policy l input m o).2).
Proof.
  intros H Hend. revert s m o. induction H as [|off r l next Hr Hl IH]; intros s m o Ho Hat.
  - by apply (reaches_refl _ (mkCore end_ [] m o)).
  - inversion Ho as [|? ? Hor Hol]; subst. pose proof (rules_at_le _ _ _ _ Hl).
    pose proof (run_rule policy end_ off r next s m o Hr ltac:(lia) Hor Hat) as H1.
    cbn [rules_result]. destruct (rule_matches r input).
    + destruct policy; [|exact H1].
      eapply reaches_trans; [exact H1|]. intros s1 Hat1. apply IH; [|done].
      by rewrite length_assign_output.
    + eapply reaches_trans; [exact H1|]. intros s1 Hat1. by apply IH.
Qed.
End layout.

(** * dmn-lite: the emitter lays programs out

    The emitter patches branch targets after the fact.  Here the patched
    program is shown to have the layout of the rules above. *)

(** ** Patches *)

(** What patching does to the instruction at a patched position. *)
Definition retarget_false (t : N) (i : DInstr) : DInstr :=
  match i with DBrFalse _ => DBrFalse t | _ => i end.
Definition retarget (t : N) (i : DInstr) : DInstr := match i with DBr _ => DBr t | _ => i end.

Lemma patch_br_false_lookup t ps l j :
  patch_br_false t ps l !! j
  = (if bool_decide (j ∈ ps) then retarget_false t <$> l !! j else l !! j).
Proof.
  unfold patch_br_false. revert l. induction ps as [|p ps IH]; intros l; [done|]. cbn [foldl].
  rewrite IH. destruct (decide (j = p)) as [->|Hne].
  - rewrite (bool_decide_eq_true_2 (p ∈ p :: ps)) by set_solver.
    destruct (l !! p) as [[]|] eqn:E; cbn; rewrite ?E; try by case_bool_decide.
    rewrite list_lookup_insert_eq by (by eapply lookup_lt_Some). by case_bool_decide.
  - rewrite (bool_decide_ext (j ∈ p :: ps) (j ∈ ps)) by set_solver.
    destruct (l !! p) as [[]|] eqn:E; try done. by rewrite list_lookup_insert_ne.
Qed.

Lemma patch_br_lookup t ps l j :
  patch_br t ps l !! j = (if bool_decide (j ∈ ps) then retarget t <$> l !! j else l !! j).
Proof.
  unfold patch_br. revert l. induction ps as [|p ps IH]; intros l; [done|]. cbn [foldl].
  rewrite IH. destruct (decide (j = p)) as [->|Hne].
  - rewrite (bool_decide_eq_true_2 (p ∈ p :: ps)) by set_solver.
    destruct (l !! p) as [[]|] eqn:E; cbn; rewrite ?E; try by case_bool_decide.
    rewrite list_lookup_insert_eq by (by eapply lookup_lt_Some). by case_bool_decide.
  - rewrite (bool_decide_ext (j ∈ p :: ps) (j ∈ ps)) by set_solver.
    destruct (l !! p) as [[]|] eqn:E; try done. by rewrite list_lookup_insert_ne.
Qed.

Lemma length_patch_br_false t ps l : length (patch_br_false t ps l) = length l.
Proof.
  unfold patch_br_false. revert l. induction ps as [|p ps IH]; intros l; [done|]. cbn [foldl].
  rewrite IH. destruct (l !! p) as [[]|]; try done. by rewrite length_insert.
Qed.
Lemma length_patch_br t ps l : length (patch_br t ps l) = length l.
Proof.
  unfold patch_br. revert l. induction ps as [|p ps IH]; intros l; [done|]. cbn [foldl].
  rewrite IH. destruct (l !! p) as [[]|]; try done. by rewrite length_insert.
Qed.

Lemma as_u32_of_nat n : (N.of_nat n <= u32_max)%N -> as_u32 n = N.of_nat n.
Proof. unfold as_u32, u32_max. intros H. apply N.mod_small. lia. Qed.

(** ** The [:when] clause *)

Lemma plain_plain_in n y c i :
  length (cd_input_schema c) = n -> pools_in c y -> plain n y i -> plain_in c i.
Proof.
  intros Hn (H1%prefix_length & H2%prefix_length & H3%prefix_length). destruct i; cbn; try done; lia.
Qed.

(** A program the emitted code fits in. *)
Record fits (n : nat) (c : CompiledDecision) (y : EmitContext) : Prop := {
  fit_spans : length (cd_source_spans c) = length (cd_instructions c);
  fit_size : (N.of_nat (length (cd_instructions c)) <= u32_max)%N;
  fit_inputs : length (cd_input_schema c) = n;
  fit_pools : pools_in c y;
}.

Lemma fits_le n c x y : pools_le x y -> fits n c y -> fits n c x.
Proof. intros H []. split; try done. by eapply pools_in_le. Qed.

(** An instruction of a clause: plain, or the placeholder branch. *)
Definition clause_instr (n : nat) (y : EmitContext) (i : DInstr) : Prop :=
  plain n y i ∨ i = DBrFalse u32_max.

(** Reading the code of an extended context. *)
Lemma extends_old x y code j :
  extends x y code -> (j < length (ec_instructions x))%nat -> ec_instructions y !! j = ec_instructions x !! j.
Proof. intros E Hj. by rewrite (ext_code _ _ _ E), lookup_app_l. Qed.
Lemma extends_new x y code j :
  extends x y code -> ec_instructions y !! (length (ec_instructions x) + j)%nat = code !! j.
Proof. intros E. rewrite (ext_code _ _ _ E), lookup_app_r by lia. f_equal. lia. Qed.

Lemma emit_preds_layout n ps : Forall (pred_ok n) ps -> ∀ patches x,
  pools_ok x -> pools_small x -> room x (preds_size ps + length ps) ->
  ∃ y code new, emit_preds ps patches x = Some (patches ++ new, y) ∧ extends x y code ∧
    length code = (preds_size ps + length ps)%nat ∧ Forall (clause_instr n y) code ∧
    (∀ j a, (length (ec_instructions x) <= j)%nat -> ec_instructions y !! j = Some (DBrFalse a) -> j ∈ new) ∧
    (∀ j, j ∈ new -> (length (ec_instructions x) <= j)%nat) ∧
    ∀ c input source next, fits n c y ->
      (∀ j i, (length (ec_instructions x) <= j)%nat -> ec_instructions y !! j = Some i ->
         cd_instructions c !! j = Some (retarget_false (N.of_nat next) i)) ->
      preds_at c input source next (length (ec_instructions x)) ps (length (ec_instructions y)).
Proof.
  induction 1 as [|p ps Hp Hps IH]; intros patches x Hx Hs Hroom.
  - exists x, [], []. rewrite app_nil_r. split_and!; try done; try set_solver; [| |by constructor].
    + split; try done; rewrite ?app_nil_r; cbn; lia || done.
    + intros j a Hj Hl%lookup_lt_Some. lia.
  - change (preds_size (p :: ps)) with (pred_size p + preds_size ps)%nat in *. cbn [length] in *.
    unfold room in Hroom.
    destruct (pred_emittable n p Hp x Hx Hs) as (y & c1 & Ey & [E1 Hlen1 Hp1 Hh1 Hc1]); [unfold room; lia|].
    pose proof (emit_extends y (DBrFalse u32_max) (pred_span p) (ext_ok _ _ _ E1) (ext_small _ _ _ E1)) as E2.
    pose proof (extends_trans _ _ _ _ _ E1 E2) as E12. pose proof (extends_length _ _ _ E12) as L12.
    rewrite length_app in L12. cbn [length] in L12.
    set (y1 := ec_emit (DBrFalse u32_max) (pred_span p) y) in *.
    destruct (IH (patches ++ [length (ec_instructions y)]) y1) as
      (z & c2 & new & Ez & E3 & Hlen2 & Hcl2 & Hnew & Hge & Hlay); [by apply E2..|unfold room; lia|].
    pose proof (extends_length _ _ _ E1) as L1.
    exists z, ((c1 ++ [DBrFalse u32_max]) ++ c2), (length (ec_instructions y) :: new). split_and!.
    + cbn [emit_preds]. rewrite Ey. cbn [mbind option_bind]. fold y1. rewrite Ez. by rewrite <-app_assoc.
    + by eapply extends_trans.
    + rewrite !length_app. cbn [length]. lia.
    + rewrite !Forall_app, Forall_singleton. split_and!; [|by right|done].
      eapply Forall_impl; [eapply Forall_plain_le; [|exact Hp1]; etrans; [apply E2|apply E3]|]. by left.
    + intros j a Hj Hlook. destruct (decide (length (ec_instructions y1) <= j)%nat) as [Hj'|Hj'].
      { right. by eapply Hnew. }
      rewrite (extends_old _ _ _ _ E3) in Hlook by lia.
      destruct (decide (j = length (ec_instructions y))) as [->|Hne]; [set_solver|]. exfalso.
      rewrite (extends_old _ _ _ _ E2) in Hlook by lia.
      replace j with (length (ec_instructions x) + (j - length (ec_instructions x)))%nat in Hlook by lia.
      rewrite (extends_new _ _ _ _ E1) in Hlook. by pose proof (Forall_lookup_1 _ _ _ _ Hp1 Hlook).
    + intros j [->|Hj]%elem_of_cons; [lia|]. apply Hge in Hj. lia.
    + intros c input source next Hfit Hcode.
      assert (∀ j i, (length (ec_instructions x) + j < length (ec_instructions y1))%nat ->
        (c1 ++ [DBrFalse u32_max]) !! j = Some i ->
        cd_instructions c !! (length (ec_instructions x) + j)%nat = Some (retarget_false (N.of_nat next) i))
        as Hat.
      { intros j i Hj Hi. apply Hcode; [lia|]. rewrite (extends_old _ _ _ _ E3) by lia.
        by rewrite (extends_new _ _ _ _ E12). }
      assert (pools_le y z) as Hyz by (etrans; [apply E2|apply E3]).
      eapply (pa_cons _ _ _ _ _ _ _ c1).
      * intros j i Hi. pose proof (lookup_lt_Some _ _ _ Hi).
        rewrite (Hat j i); [|lia|by apply lookup_app_l_Some].
        pose proof (Forall_lookup_1 _ _ _ _ Hp1 Hi). by destruct i.
      * eapply Forall_impl; [exact Hp1|]. intros i Hi. eapply plain_plain_in; [apply Hfit| |exact Hi].
        by eapply pools_in_le, Hfit.
      * done.
      * apply Hc1; [apply Hfit..|]. by eapply pools_in_le, Hfit.
      * rewrite (Hat (length c1) (DBrFalse u32_max)); [done|lia|]. by apply list_lookup_middle.
      * replace (S (length (ec_instructions x) + length c1)) with (length (ec_instructions y1)) by lia.
        apply Hlay; [done|]. intros j i Hj. apply Hcode. lia.
Qed.

(** ** The [:then] clause *)

Definition assign_instr (i : DInstr) : Prop :=
  match i with DPushConst _ | DStoreOutputTos _ => True | _ => False end.

Lemma emit_assignments_layout n m l :
  Forall (λ a, (output_field a < m)%nat ∧ tv_ok (asg_value a)) l -> (N.of_nat m <= u32_max)%N -> ∀ x,
  pools_ok x -> pools_small x -> room x (2 * length l) ->
  ∃ code, extends x (emit_assignments l x) code ∧
    length code = (2 * length l)%nat ∧ Forall assign_instr code ∧
    ∀ c, fits n c (emit_assignments l x) -> length (cd_output_schema c) = m ->
      code_at c (length (ec_instructions x)) code ->
      assigns_at c (length (ec_instructions x)) l (length (ec_instructions (emit_assignments l x))).
Proof.
  intros Hl Hm. induction Hl as [|a l [Hf Hv] Hl IH]; intros x Hx Hs Hroom.
  - exists []. split_and!; try done; [|by constructor].
    split; try done; rewrite ?app_nil_r; cbn; lia || done.
  - unfold room in *. cbn [length] in Hroom.
    destruct (intern_const_ok (asg_value a) x Hv Hx Hs) as (idx & y & Ey & Hy & Hidx); [lia|].
    pose proof (intern_extends _ _ (DPushConst idx) (asg_span a) Hy) as E1.
    pose proof (emit_extends _ (DStoreOutputTos (as_u32 (output_field a))) (asg_span a)
      (ext_ok _ _ _ E1) (ext_small _ _ _ E1)) as E2.
    set (y1 := ec_emit (DPushConst idx) (asg_span a) y) in *.
    set (y2 := ec_emit (DStoreOutputTos (as_u32 (output_field a))) (asg_span a) y1) in *.
    pose proof (extends_trans _ _ _ _ _ E1 E2) as E12. pose proof (extends_length _ _ _ E12) as L12.
    cbn [length app] in L12.
    destruct (IH y2) as (c2 & E3 & Hlen2 & Hcl2 & Hlay); [by apply E2..|unfold room; lia|].
    assert (emit_assignments (a :: l) x = emit_assignments l y2) as Ea
      by (unfold emit_assignments; cbn [foldl]; by rewrite Ey).
    rewrite Ea. exists (([DPushConst idx] ++ [DStoreOutputTos (as_u32 (output_field a))]) ++ c2). split_and!.
    + by eapply extends_trans.
    + cbn [length app]. lia.
    + by repeat constructor.
    + intros c Hfit Hout [[Hc1%code_at_one Hc2%code_at_one]%code_at_app Hc3]%code_at_app.
      cbn [length app] in Hc2, Hc3. rewrite as_u32_of_nat in Hc2 by lia.
      rewrite <-L12 in Hc3. rewrite Nat.add_1_r in Hc2.
      eapply (aa_cons _ _ _ _ idx); [done| |done|by rewrite Hout|].
      * eapply (prefix_lookup_Some _ _ _ _ Hidx).
        apply (pools_in_le _ y2 _ (ext_le _ _ _ E3) (fit_pools _ _ _ Hfit)).
      * replace (S (S (length (ec_instructions x)))) with (length (ec_instructions y2)) by lia. by apply Hlay.
Qed.

(** ** Rules *)

(** Patching every placeholder behind [pre]. *)
Lemma patch_br_false_suffix t ps pre suf :
  (∀ j, j ∈ ps -> (length pre <= j)%nat) ->
  (∀ j a, suf !! j = Some (DBrFalse a) -> (length pre + j)%nat ∈ ps) ->
  patch_br_false t ps (pre ++ suf) = pre ++ (retarget_false t <$> suf).
Proof.
  intros Hge Hall. apply list_eq. intros j. rewrite patch_br_false_lookup.
  destruct (decide (j < length pre)%nat) as [Hj|Hj].
  - rewrite !lookup_app_l by done. case_bool_decide as Hin; [|done]. apply Hge in Hin. lia.
  - rewrite !lookup_app_r, list_lookup_fmap by lia. case_bool_decide as Hin; [done|].
    destruct (suf !! (j - length pre)%nat) as [i|] eqn:E; [|done]. cbn.
    destruct i; try done. exfalso. apply Hin. apply Hall in E.
    by replace j with (length pre + (j - length pre))%nat by lia.
Qed.

(** What a rule adds to the context: its code, its entry, its jump to the end. *)
Record rule_laid (n m : nat) (policy : HitPolicy) (r : TypedRule) (x z : EmitContext)
    (code : list DInstr) : Prop := {
  rl_code : ec_instructions z = ec_instructions x ++ code;
  rl_size : length code = rule_size policy r;
  rl_spans : length (ec_source_spans z) = (length (ec_source_spans x) + length code)%nat;
  rl_map : ec_rule_map z = ec_rule_map x ++
    [mkRuleEntry (rule_id r) (rule_name r) (N.of_nat (length (ec_instructions x))) (rule_span r)];
  rl_le : pools_le x z;
  rl_ok : pools_ok z;
  rl_small : pools_small z;
  rl_patches : ec_patches_end x ⊆ ec_patches_end z;
  rl_ends : ∀ j a, code !! j = Some (DBr a) ->
    (length (ec_instructions x) + j)%nat ∈ ec_patches_end z;
  rl_layout : ∀ c input source end_, fits n c z -> length (cd_output_schema c) = m ->
    code_at c (length (ec_instructions x)) (retarget (N.of_nat end_) <$> code) ->
    rule_at c input source policy end_ (length (ec_instructions x)) r (length (ec_instructions z));
}.

(** The last instructions of a rule, before they are patched. *)
Definition tail_code (policy : HitPolicy) (r : TypedRule) : list DInstr :=
  DRuleMatched (rule_id r) :: match policy with First => [DBr u32_max] | Unique => [] end.
Definition emit_tail (policy : HitPolicy) (r : TypedRule) (x : EmitContext) : EmitContext :=
  let x := ec_emit (DRuleMatched (rule_id r)) (rule_span r) x in
  match policy with
  | First => push_patch_end (length (ec_instructions x)) (ec_emit (DBr u32_max) (rule_span r) x)
  | Unique => x
  end.

Lemma emit_tail_code policy r x :
  ec_instructions (emit_tail policy r x) = ec_instructions x ++ tail_code policy r.
Proof. destruct policy; [done|]. cbn. by rewrite <-app_assoc. Qed.
Lemma emit_tail_spans policy r x :
  length (ec_source_spans (emit_tail policy r x)) = (length (ec_source_spans x) + length (tail_code policy r))%nat.
Proof. destruct policy; cbn; rewrite !length_app; cbn; lia. Qed.
Lemma emit_tail_map policy r x : ec_rule_map (emit_tail policy r x) = ec_rule_map x.
Proof. by destruct policy. Qed.
Lemma emit_tail_pools policy r x :
  pools_le x (emit_tail policy r x) ∧ (pools_ok x -> pools_ok (emit_tail policy r x)) ∧
  (pools_small x -> pools_small (emit_tail policy r x)).
Proof.
  split_and!; [by destruct policy; repeat split|intros []; by destruct policy; split|].
  intros (?&?&?). repeat split; rewrite emit_tail_code, length_app; destruct policy; cbn; lia.
Qed.
Lemma emit_tail_ends policy r x :
  ec_patches_end x ⊆ ec_patches_end (emit_tail policy r x) ∧
  ∀ j a, tail_code policy r !! j = Some (DBr a) ->
    (length (ec_instructions x) + j)%nat ∈ ec_patches_end (emit_tail policy r x).
Proof.
  destruct policy; cbn; (split; [set_solver|]).
  - by intros [|j] a.
  - intros [|[|j]] a; try done. intros _. rewrite length_app. cbn. set_solver.
Qed.

Lemma emit_rule_eq policy r x :
  emit_rule policy r x =
  ('(patches, y) ← emit_preds (when_preds (rule_when r)) []
      (push_rule_entry (mkRuleEntry (rule_id r) (rule_name r) (ec_pc x) (rule_span r)) x);
   let y := emit_tail policy r (emit_assignments (rule_then r) y) in
   Some (set_instructions (patch_br_false (ec_pc y) patches (ec_instructions y)) y)).
Proof. unfold emit_rule, emit_when. by destruct (rule_when r). Qed.

(** Retargeting leaves the code without the branch concerned alone. *)
Lemma retarget_plain t (code : list DInstr) (f : DInstr -> DInstr) :
  Forall (λ i, retarget t (f i) = f i) code -> retarget t <$> (f <$> code) = f <$> code.
Proof. intros H. rewrite <-list_fmap_compose. by apply list_fmap_ext, Forall_lookup. Qed.
Lemma retarget_false_assign t code : Forall assign_instr code -> retarget_false t <$> code = code.
Proof.
  intros H. rewrite <-(list_fmap_id code) at 2. apply list_fmap_ext.
  intros j i Hi. pose proof (Forall_lookup_1 _ _ _ _ H Hi). by destruct i.
Qed.

(** A rule before its placeholders are patched: [cw] is the code of its
    [:when] clause, [ca] that of its [:then] clause, [new] the placeholders. *)
Record rule_drafted (n m : nat) (policy : HitPolicy) (r : TypedRule) (x y : EmitContext)
    (cw ca : list DInstr) (new : list nat) : Prop := {
  rd_code : ec_instructions y = ec_instructions x ++ (cw ++ ca ++ tail_code policy r);
  rd_when : length cw = (preds_size (when_preds (rule_when r)) + length (when_preds (rule_when r)))%nat;
  rd_then : length ca = (2 * length (rule_then r))%nat;
  rd_clause : Forall (clause_instr n y) cw;
  rd_assign : Forall assign_instr ca;
  rd_spans : length (ec_source_spans y)
    = (length (ec_source_spans x) + length (cw ++ ca ++ tail_code policy r))%nat;
  rd_map : ec_rule_map y = ec_rule_map x ++
    [mkRuleEntry (rule_id r) (rule_name r) (N.of_nat (length (ec_instructions x))) (rule_span r)];
  rd_le : pools_le x y;
  rd_ok : pools_ok y;
  rd_small : pools_small y;
  rd_patches : ec_patches_end x ⊆ ec_patches_end y;
  rd_ends : ∀ j a, tail_code policy r !! j = Some (DBr a) ->
    (length (ec_instructions x) + length cw + length ca + j)%nat ∈ ec_patches_end y;
  rd_new_ge : ∀ j, j ∈ new -> (length (ec_instructions x) <= j)%nat;
  rd_new_all : ∀ j a, cw !! j = Some (DBrFalse a) -> (length (ec_instructions x) + j)%nat ∈ new;
  rd_preds : ∀ c input source next, fits n c y ->
    code_at c (length (ec_instructions x)) (retarget_false (N.of_nat next) <$> cw) ->
    preds_at c input source next (length (ec_instructions x)) (when_preds (rule_when r))
      (length (ec_instructions x) + length cw);
  rd_assigns : ∀ c, fits n c y -> length (cd_output_schema c) = m ->
    code_at c (length (ec_instructions x) + length cw) ca ->
    assigns_at c (length (ec_instructions x) + length cw) (rule_then r)
      (length (ec_instructions x) + length cw + length ca);
}.

Lemma emit_rule_drafted n m policy r x :
  rule_ok n m r -> (N.of_nat m <= u32_max)%N -> pools_ok x -> pools_small x ->
  room x (rule_size policy r) ->
  ∃ y cw ca new,
    emit_rule policy r x = Some (set_instructions (patch_br_false (ec_pc y) new (ec_instructions y)) y) ∧
    rule_drafted n m policy r x y cw ca new.
Proof.
  intros [Hw Ht] Hm Hx Hs Hroom. rewrite emit_rule_eq.
  set (x0 := push_rule_entry _ x). unfold rule_size, room in Hroom.
  destruct (emit_preds_layout n _ Hw [] x0) as (y1 & cw & new & -> & E1 & Hl1 & Hcl1 & Hnew & Hge & Hlay1);
    [by destruct Hx; split|done|unfold room; cbn; lia|].
  pose proof (extends_length _ _ _ E1) as L1.
  change (length (ec_instructions x0)) with (length (ec_instructions x)) in *.
  destruct (emit_assignments_layout n m _ Ht Hm y1) as (ca & E2 & Hl2 & Hcl2 & Hlay2);
    [by apply E1..|unfold room; lia|].
  pose proof (extends_length _ _ _ E2) as L2. set (y2 := emit_assignments (rule_then r) y1) in *.
  destruct (emit_tail_pools policy r y2) as (Tle & Tok & Tsmall).
  destruct (emit_tail_ends policy r y2) as [Tp Te].
  exists (emit_tail policy r y2), cw, ca, new. split; [done|].
  split; rewrite ?emit_tail_code, ?emit_tail_spans, ?emit_tail_map.
  - rewrite (ext_code _ _ _ E2), (ext_code _ _ _ E1). by rewrite <-!app_assoc.
  - done.
  - done.
  - eapply Forall_impl; [exact Hcl1|]. intros i [Hi| ->]; [left|by right].
    eapply plain_le; [|exact Hi]. etrans; [apply E2|done].
  - done.
  - rewrite (ext_spans _ _ _ E2), (ext_spans _ _ _ E1), !length_app.
    change (ec_source_spans x0) with (ec_source_spans x). lia.
  - rewrite (ext_map _ _ _ E2), (ext_map _ _ _ E1). cbn. unfold ec_pc. by rewrite as_u32_of_nat by lia.
  - change (pools_le x0 (emit_tail policy r y2)). etrans; [apply E1|]. etrans; [apply E2|done].
  - apply Tok, E2.
  - apply Tsmall, E2.
  - rewrite (ext_patches _ _ _ E2), (ext_patches _ _ _ E1) in Tp. done.
  - intros j a Hj. rewrite <-L1, <-L2. by eapply Te.
  - done.
  - intros j a Hj. eapply Hnew; [lia|]. by rewrite (extends_new _ _ _ _ E1).
  - intros c input source next Hfit Hcode. rewrite <-L1. apply Hlay1.
    + eapply fits_le; [|exact Hfit]. etrans; [apply E2|done].
    + intros j i Hj Hi. replace j with (length (ec_instructions x) + (j - length (ec_instructions x)))%nat in * by lia.
      rewrite (extends_new _ _ _ _ E1 : _ = _) in Hi. apply Hcode. by rewrite list_lookup_fmap, Hi.
  - intros c Hfit Hout Hcode. rewrite <-L1, <-L2 in *. apply Hlay2; [|done|done]. by eapply fits_le.
Qed.

Lemma emit_rule_layout n m policy r x :
  rule_ok n m r -> (N.of_nat m <= u32_max)%N -> pools_ok x -> pools_small x ->
  room x (rule_size policy r) ->
  ∃ z code, emit_rule policy r x = Some z ∧ rule_laid n m policy r x z code.
Proof.
  intros Hr Hm Hx Hs Hroom.
  destruct (emit_rule_drafted n m policy r x Hr Hm Hx Hs Hroom) as (y & cw & ca & new & -> & D).
  unfold rule_size, room in Hroom. pose proof (rd_when _ _ _ _ _ _ _ _ _ D). pose proof (rd_then _ _ _ _ _ _ _ _ _ D).
  assert (length (tail_code policy r) = match policy with First => 2 | Unique => 1 end)%nat as Hl3
    by by destruct policy.
  pose proof (f_equal length (rd_code _ _ _ _ _ _ _ _ _ D)) as Ly. rewrite !length_app in Ly.
  unfold ec_pc. rewrite as_u32_of_nat by lia. set (next := length (ec_instructions y)) in *.
  rewrite (rd_code _ _ _ _ _ _ _ _ _ D), patch_br_false_suffix.
  2: by eapply rd_new_ge.
  2: { intros j a [Hj|[? [Hj|[? Hj]]%lookup_app_Some]]%lookup_app_Some.
       - by eapply rd_new_all.
       - by pose proof (Forall_lookup_1 _ _ _ _ (rd_assign _ _ _ _ _ _ _ _ _ D) Hj).
       - destruct policy, (j - _ - _)%nat as [|[|]]; done. }
  eexists _, _. split; [done|]. destruct D.
  split; cbn [ec_instructions ec_source_spans ec_rule_map set_instructions ec_patches_end]; try done.
  - rewrite length_fmap, !length_app. unfold rule_size. lia.
  - by rewrite length_fmap.
  - destruct rd_ok0. by split.
  - destruct rd_small0 as (?&?&?). repeat split; cbn; rewrite length_app, length_fmap, !length_app; unfold next in *; lia.
  - intros j a Hj. rewrite list_lookup_fmap in Hj.
    destruct ((cw ++ ca ++ tail_code policy r) !! j) as [i|] eqn:Ei; [|done].
    destruct i; try discriminate Hj.
    apply lookup_app_Some in Ei as [Ei|[? [Ei|[? Ei]]%lookup_app_Some]].
    + pose proof (Forall_lookup_1 _ _ _ _ rd_clause0 Ei) as [[]|[=]].
    + by pose proof (Forall_lookup_1 _ _ _ _ rd_assign0 Ei).
    + apply rd_ends0 in Ei. by replace (length (ec_instructions x) + j)%nat with
        (length (ec_instructions x) + length cw + length ca + (j - length cw - length ca))%nat by lia.
  - intros c input source end_ Hfit Hout Hcode.
    assert (fits n c y) as Hfit' by by destruct Hfit; split.
    replace (length (ec_instructions x ++ _)) with next by (rewrite length_app, length_fmap, !length_app; lia).
    rewrite !fmap_app in Hcode. apply code_at_app in Hcode as [Hc1 [Hc2 Hc3]%code_at_app].
    rewrite !length_fmap in Hc2. rewrite !length_fmap in Hc3. rewrite retarget_plain in Hc1.
    2: { eapply Forall_impl; [exact rd_clause0|]. intros i [Hi| ->]; [by destruct i|done]. }
    rewrite retarget_plain, retarget_false_assign in Hc2; [|done|].
    2: { eapply Forall_impl; [exact rd_assign0|]. by intros []. }
    exists (length (ec_instructions x) + length cw)%nat, (length (ec_instructions x) + length cw + length ca)%nat.
    split; [by apply rd_preds0|]. split; [by apply rd_assigns0|].
    split; [pose proof (Hc3 0%nat _ eq_refl) as Hc0; by rewrite Nat.add_0_r in Hc0|].
    destruct policy; [lia|]. split; [|lia]. pose proof (Hc3 1%nat _ eq_refl) as Hc4. by rewrite Nat.add_1_r in Hc4.
Qed.

(** ** Decisions *)

Record rules_laid (n m : nat) (policy : HitPolicy) (l : list TypedRule) (x z : EmitContext)
    (code : list DInstr) : Prop := {
  rls_code : ec_instructions z = ec_instructions x ++ code;
  rls_size : length code = rules_size policy l;
  rls_spans : length (ec_source_spans z) = (length (ec_source_spans x) + length code)%nat;
  rls_map : rme_rule_id <$> ec_rule_map z = (rme_rule_id <$> ec_rule_map x) ++ (rule_id <$> l);
  rls_le : pools_le x z;
  rls_ok : pools_ok z;
  rls_small : pools_small z;
  rls_patches : ec_patches_end x ⊆ ec_patches_end z;
  rls_ends : ∀ j a, code !! j = Some (DBr a) ->
    (length (ec_instructions x) + j)%nat ∈ ec_patches_end z;
  rls_layout : ∀ c input source, fits n c z -> length (cd_output_schema c) = m ->
    code_at c (length (ec_instructions x)) (retarget (N.of_nat (length (ec_instructions z))) <$> code) ->
    rules_at c input source policy (length (ec_instructions z)) (length (ec_instructions x)) l;
}.

Lemma emit_rules_layout n m policy l :
  Forall (rule_ok n m) l -> (N.of_nat m <= u32_max)%N -> ∀ x, pools_ok x -> pools_small x ->
  room x (rules_size policy l) ->
  ∃ z code, emit_rules policy l x = Some z ∧ rules_laid n m policy l x z code.
Proof.
  intros Hl Hm. induction Hl as [|r l Hr Hl IH]; intros x Hx Hs Hroom.
  - exists x, []. split; [done|]. split; rewrite ?app_nil_r; try done; first [by constructor|cbn; lia].
  - change (rules_size policy (r :: l)) with (rule_size policy r + rules_size policy l)%nat in *.
    unfold room in Hroom.
    destruct (emit_rule_layout n m policy r x Hr Hm Hx Hs) as (y & c1 & Ey & []); [unfold room; lia|].
    pose proof (f_equal length rl_code0) as Ly. rewrite length_app in Ly.
    destruct (IH y) as (z & c2 & Ez & []); [done..|unfold room; lia|].
    exists z, (c1 ++ c2). split; [cbn; by rewrite Ey|]. split.
    + by rewrite rls_code0, rl_code0, app_assoc.
    + rewrite length_app. change (rules_size policy (r :: l)) with (rule_size policy r + rules_size policy l)%nat. lia.
    + rewrite length_app. lia.
    + rewrite rls_map0, rl_map0, fmap_app, <-app_assoc. done.
    + by etrans.
    + done.
    + done.
    + by etrans.
    + intros j a [Hj|[? Hj]]%lookup_app_Some; [by eapply rls_patches0, rl_ends0|].
      apply rls_ends0 in Hj. by replace (length (ec_instructions x) + j)%nat
        with (length (ec_instructions y) + (j - length c1))%nat by lia.
    + intros c input source Hfit Hout Hcode. rewrite fmap_app in Hcode.
      apply code_at_app in Hcode as [Hc1 Hc2]. rewrite length_fmap, <-Ly in Hc2.
      econstructor; [|by apply rls_layout0]. apply rl_layout0; [|done..]. by eapply fits_le.
Qed.

(** What the emitter asks of a decision: rules over the two schemas, and a
    program and an output arity that fit a [u32]. *)
Record decision_ok (d : TypedDecision) : Prop := {
  do_rules : Forall (rule_ok (length (input_schema d)) (length (output_schema d))) (dec_rules d);
  do_size : (N.of_nat (S (rules_size (hit_policy d) (dec_rules d))) <= u32_max)%N;
  do_outputs : (N.of_nat (length (output_schema d)) <= u32_max)%N;
}.

(** The program of a decision: its rules one after the other, then
    [EndDecision]. *)
Record laid_out (d : TypedDecision) (c : CompiledDecision) : Prop := {
  lo_policy : cd_hit_policy c = hit_policy d;
  lo_inputs : cd_input_schema c = input_schema d;
  lo_outputs : cd_output_schema c = output_schema d;
  lo_map : rme_rule_id <$> cd_rule_map c = rule_id <$> dec_rules d;
  lo_spans : length (cd_source_spans c) = length (cd_instructions c);
  lo_size : length (cd_instructions c) = S (rules_size (hit_policy d) (dec_rules d));
  lo_end : cd_instructions c !! rules_size (hit_policy d) (dec_rules d) = Some DEndDecision;
  lo_rules : ∀ input source, rules_at c input source (hit_policy d)
    (rules_size (hit_policy d) (dec_rules d)) 0 (dec_rules d);
}.

Lemma new_pools : pools_ok EmitContext_new ∧ pools_small EmitContext_new.
Proof. split; [|done]. split; intros key idx H; cbn [EmitContext_new ec_const_keys ec_const_set_keys ec_range_keys] in H; by rewrite lookup_empty in H. Qed.

(** Patching every jump in [l], the one instruction behind it left alone. *)
Lemma patch_br_ends t ps l i :
  (∀ j a, l !! j = Some (DBr a) -> j ∈ ps) -> (∀ a, i ≠ DBr a) ->
  patch_br t ps (l ++ [i]) = (retarget t <$> l) ++ [i].
Proof.
  intros Hall Hi. apply list_eq. intros j. rewrite patch_br_lookup.
  destruct (decide (j < length l)%nat) as [Hj|Hj].
  - rewrite !lookup_app_l, list_lookup_fmap by (rewrite ?length_fmap; done).
    case_bool_decide as Hin; [done|]. destruct (l !! j) as [k|] eqn:E; [|done].
    destruct k; try done. exfalso. by eapply Hin, Hall.
  - rewrite !lookup_app_r, length_fmap by (rewrite ?length_fmap; lia).
    destruct (j - length l)%nat; [|by case_bool_decide]. cbn.
    case_bool_decide; [|done]. destruct i; try done. by destruct (Hi addr).
Qed.

Lemma emit_layout `{P : Platform} d source :
  decision_ok d -> ∃ c, emit d source = Some c ∧ laid_out d c.
Proof.
  intros [Hr Hs Ho]. destruct new_pools as [N1 N2]. unfold emit.
  destruct (emit_rules_layout _ _ (hit_policy d) _ Hr Ho _ N1 N2) as (z & code & -> & []);
    [unfold room; cbn; lia|].
  cbn [app EmitContext_new ec_instructions ec_source_spans ec_rule_map length Nat.add fmap list_fmap] in *.
  assert (length (ec_instructions z) = rules_size (hit_policy d) (dec_rules d)) as Lz by congruence.
  eexists. split; [done|]. unfold ec_pc. cbn [ec_emit ec_instructions ec_patches_end].
  rewrite as_u32_of_nat, patch_br_ends by (done || lia || by rewrite rls_code0).
  split; cbn; try done.
  - rewrite !length_app, length_fmap. cbn. lia.
  - rewrite length_app, length_fmap. cbn. lia.
  - rewrite lookup_app_r; rewrite length_fmap; [|lia]. by rewrite Lz, Nat.sub_diag.
  - intros input source'. rewrite <-Lz. apply rls_layout0; cbn; [|done|].
    + split; cbn; rewrite ?length_app, ?length_fmap; cbn; try done; lia.
    + rewrite Lz. intros j i Hj. cbn. rewrite rls_code0. by apply lookup_app_l_Some.
Qed.
