(* ===== verification/DmnRefine.v ===== *)
(** * dmn-lite: the VM refines the reference evaluator, and its code is verified

    The rules the VM collects while it runs over a laid-out program are the
    rules the reference evaluator collects over the typed IR, and the output
    slots it has written are those of the winning rule. *)

From S2P Require Import Prelude RustStr Json Types Platform Canonical CodecFacts Fixtures DmnTypes DmnReference DmnVm DmnEmit DmnVerify DmnSteps DmnCodegen DmnLayout.

(** ** The abstract specification *)

(** A verdict without the rule traces: the VM stops at the first false
    predicate of a rule (and at the first match under FIRST), the reference
    evaluator goes through all of them. *)
Definition verdict (r : Result EvalError EvaluationOutput)
  : Result EvalError (TypedOutputContext * TraceOutcome) :=
  match r with Err e => Err e | Ok e => Ok (ev_output e, tr_outcome (ev_trace e)) end.

(** The rules that match, in order. *)
Definition matching (l : list TypedRule) (input : TypedInputContext) : list TypedRule :=
  filter (λ r, rule_matches r input = true) l.

(** ** The reference side *)

Lemma eval_rule_matches r input source : (eval_rule r input source).1 = rule_matches r input.
Proof.
  unfold eval_rule, rule_matches, when_preds. destruct (rule_when r) as [|preds ?]; [done|].
  cbn. by induction preds as [|p preds IH]; [|cbn; rewrite IH].
Qed.

Lemma eval_rules_matched l input source :
  (eval_rules l input source).2 = (λ r, (rule_id r, rule_then r)) <$> matching l input.
Proof.
  unfold eval_rules.
  assert (∀ acc, (foldl (λ acc rule,
    let '(matched, traces) := eval_rule rule input source in
    (acc.1 ++ [mkRuleTrace (rule_id rule) (rule_name rule) matched traces (rule_span rule)],
     if matched then acc.2 ++ [(rule_id rule, rule_then rule)] else acc.2)) acc l).2
    = acc.2 ++ ((λ r, (rule_id r, rule_then r)) <$> matching l input)) as H; [|by rewrite H].
  unfold matching. induction l as [|r l IH]; intros acc; cbn [foldl]; [by rewrite app_nil_r|].
  pose proof (eval_rule_matches r input source) as Hm.
  destruct (eval_rule r input source) as [b traces]. cbn in Hm. subst b. rewrite IH. cbn [snd].
  destruct (rule_matches r input) eqn:E.
  - rewrite filter_cons_True by done. cbn. by rewrite <-app_assoc.
  - rewrite filter_cons_False by (by rewrite E). done.
Qed.

Lemma assign_slots_outputs o l :
  Forall (λ a, (output_field a < length o)%nat) l ->
  assign_slots (default TVNull <$> o) l = Some (default TVNull <$> assign_output o l).
Proof.
  intros H. revert o H. induction l as [|a l IH]; intros o H; [done|]. cbn [assign_slots].
  inversion H as [|? ? Ha Hl]; subst. rewrite length_fmap.
  destruct (Nat.ltb_spec (output_field a) (length o)); [|lia].
  change (asg_value a) with (default TVNull (Some (asg_value a))). rewrite <-list_fmap_insert.
  rewrite IH; [done|]. by rewrite length_insert.
Qed.

(** ** The VM side *)

Lemma rules_result_first l input m o :
  rules_result First l input m o =
  match matching l input with
  | [] => (m, o)
  | r :: _ => (m ++ [rule_id r], assign_output o (rule_then r))
  end.
Proof.
  unfold matching. induction l as [|r l IH]; [done|]. cbn [rules_result]. destruct (rule_matches r input) eqn:E.
  - by rewrite filter_cons_True.
  - by rewrite filter_cons_False by (by rewrite E).
Qed.

Lemma rules_result_unique l input m o :
  rules_result Unique l input m o =
  (m ++ (rule_id <$> matching l input), foldl (λ o r, assign_output o (rule_then r)) o (matching l input)).
Proof.
  unfold matching. revert m o; induction l as [|r l IH]; intros m o; [by rewrite app_nil_r|].
  cbn [rules_result]. destruct (rule_matches r input) eqn:E.
  - rewrite filter_cons_True by done. rewrite IH. cbn. by rewrite <-app_assoc.
  - by rewrite filter_cons_False by (by rewrite E).
Qed.

(** The run over a laid-out program, to its end. *)
Lemma run_program d c input source fuel :
  decision_ok d -> laid_out d c -> (length (cd_instructions c) <= fuel)%nat ->
  ∃ s, vm_loop fuel c input source (VmState_new c) = VmDone s ∧
    (vm_matched s, vm_output s) = rules_result (hit_policy d) (dec_rules d) input []
      (replicate (length (output_schema d)) None).
Proof.
  intros [Hr Hs Ho] [Lp Li Lo Lm Lsp Lsz Le Lr] Hfuel.
  assert (vm_at c (VmState_new c) (mkCore 0 [] [] (replicate (length (output_schema d)) None))) as Hat
    by (split; try done; cbn; by rewrite Lo).
  destruct (run_rules c input source Lsp ltac:(lia) _ _ _ _ (VmState_new c) []
    (replicate (length (output_schema d)) None) (Lr input source) ltac:(lia)) as (n & s & Hrun & Hats & Hn); [|exact Hat|].
  { rewrite length_replicate. eapply Forall_impl; [exact Hr|]. intros r [_ Hthen].
    eapply Forall_impl; [exact Hthen|]. by intros a []. }
  cbn [co_pc] in Hn. replace fuel with (n + S (fuel - n - 1))%nat by lia.
  rewrite (vm_loop_runs _ _ _ _ _ _ _ Hrun). cbn [vm_loop].
  rewrite (at_running _ _ _ Hats), (at_pc _ _ _ Hats), Nat2N.id. cbn [orb co_pc].
  destruct (Nat.leb_spec (length (cd_instructions c)) (rules_size (hit_policy d) (dec_rules d))); [lia|].
  destruct (end_at c input source Lsp ltac:(lia) s _ Hats Le) as (s' & -> & Hh & Em & Eo).
  exists s'. split; [|rewrite <-Em, <-Eo; symmetry; apply surjective_pairing].
  by destruct (fuel - n - 1)%nat; cbn [vm_loop]; rewrite Hh.
Qed.

(** ** The theorems *)

Section refine.
Context `{P : Platform} (show_domain : DomainId -> string) (schema_hash : list FieldSchema -> N).

(** What the finalised VM state says. *)
Lemma finalize_verdict c s :
  verdict (finalize schema_hash c s) =
  match vm_outcome (cd_hit_policy c) (vm_matched s) with
  | Err e => Err e
  | Ok o => Ok (mkOutput (default TVNull <$> vm_output s) (schema_hash (cd_output_schema c)), o)
  end.
Proof. unfold finalize. by destruct (vm_outcome _ _). Qed.

(** The verdict of the rules on an input the schema check accepts. *)
Definition rules_verdict (d : TypedDecision) (input : TypedInputContext)
  : Result EvalError (TypedOutputContext * TraceOutcome) :=
  let '(m, o) := rules_result (hit_policy d) (dec_rules d) input [] (replicate (length (output_schema d)) None) in
  match vm_outcome (hit_policy d) m with
  | Err e => Err e
  | Ok oc => Ok (mkOutput (default TVNull <$> o) (schema_hash (output_schema d)), oc)
  end.

(** The VM on a laid-out program. *)
Lemma vm_verdict d c input source fuel :
  decision_ok d -> laid_out d c -> (length (cd_instructions c) <= fuel)%nat ->
  ∃ r, vm_evaluate schema_hash fuel c input source = Some r ∧
    verdict r = match check_schema schema_hash (input_schema d) input with
                | Err e => Err e
                | Ok _ => rules_verdict d input
                end.
Proof.
  intros Hd Hc Hfuel. unfold vm_evaluate. rewrite (lo_inputs _ _ Hc).
  destruct (check_schema schema_hash (input_schema d) input) as [[]|e]; [|by eauto].
  destruct (run_program d c input source fuel Hd Hc Hfuel) as (s & -> & Hres).
  eexists. split; [done|]. unfold rules_verdict. rewrite <-Hres.
  by rewrite finalize_verdict, (lo_policy _ _ Hc), (lo_outputs _ _ Hc).
Qed.

Lemma reference_verdict d input source :
  decision_ok d -> check_schema schema_hash (input_schema d) input = Ok tt ->
  validate_input_types show_domain d input = Ok tt ->
  ∃ r, reference_evaluate show_domain schema_hash d input source = Some r ∧
    verdict r = rules_verdict d input.
Proof.
  intros [Hr _ _] Hs Hv. unfold rules_verdict. unfold reference_evaluate. rewrite Hs, Hv.
  pose proof (eval_rules_matched (dec_rules d) input source) as Hm.
  destruct (eval_rules _ _ _) as [traces matched]. cbn in Hm. subst matched.
  assert (∀ r, r ∈ matching (dec_rules d) input -> build_output_context schema_hash (output_schema d) (rule_then r)
    = Some (mkOutput (default TVNull <$> assign_output (replicate (length (output_schema d)) None) (rule_then r))
        (schema_hash (output_schema d)))) as Hout.
  { intros r [_ Hin]%list_elem_of_filter. unfold build_output_context.
    change TVNull with (default TVNull None) at 1.
    rewrite <-(fmap_replicate (default TVNull)), assign_slots_outputs; [done|].
    rewrite length_replicate.
    eapply Forall_impl; [apply (ro_then _ _ _ (proj1 (Forall_forall _ _) Hr _ Hin))|by intros a []]. }
  destruct (hit_policy d).
  - rewrite rules_result_unique. destruct (matching _ _) as [|r [|r' l]]; cbn -[replicate]; [by eauto| |].
    + rewrite (Hout r) by set_solver. cbn. eauto.
    + eexists; split; [done|]. cbn. do 4 f_equal. by rewrite <-list_fmap_compose.
  - rewrite rules_result_first. destruct (matching _ _) as [|r l]; cbn -[replicate]; [by eauto|].
    rewrite (Hout r) by set_solver. cbn. eauto.
Qed.

(** C11: a well-formed decision is compiled, and whatever the schema check
    says of the input, running the emitted bytecode with fuel for its length
    terminates with the verdict of the reference evaluator: the same error, or
    the same output context and the same winning rule (only the rule traces
    differ, the VM evaluating lazily).  The input is one that
    [validate_input_types], which only the reference evaluator runs, accepts. *)
Theorem vm_refines_reference (d : TypedDecision) (input : TypedInputContext) (source : string) (fuel : nat) :
  decision_ok d ->
  validate_input_types show_domain d input = Ok tt ->
  (S (rules_size (hit_policy d) (dec_rules d)) <= fuel)%nat ->
  ∃ c vm ref, emit d source = Some c ∧
    vm_evaluate schema_hash fuel c input source = Some vm ∧
    reference_evaluate show_domain schema_hash d input source = Some ref ∧
    verdict vm = verdict ref.
Proof.
  intros Hd Hv Hfuel. destruct (emit_layout d source Hd) as (c & -> & Hc). exists c.
  destruct (vm_verdict d c input source fuel Hd Hc) as (r & -> & Hr); [by rewrite (lo_size _ _ Hc)|].
  destruct (check_schema schema_hash (input_schema d) input) as [[]|e] eqn:Hs.
  - destruct (reference_verdict d input source Hd Hs Hv) as (r' & -> & Hr'). rewrite <-Hr' in Hr. by eauto 10.
  - exists r, (Err e). split_and!; try done. unfold reference_evaluate. by rewrite Hs.
Qed.

End refine.

(** * dmn-lite: emitted programs pass the verifier

    A straight reading of an emitted program assigns every address a stack
    height; every branch is taken at height zero and lands, further on, at
    height zero.  From this the five passes of [verify] follow. *)

(** ** Heights of a straight reading *)

Definition lin (l : list DInstr) (pc : nat) : option nat := heights 0 (take pc l).

Lemma lin_step l pc i h : l !! pc = Some i -> lin l pc = Some h -> lin l (S pc) = heights h [i].
Proof. intros Hi Hl. unfold lin. rewrite (take_S_r _ _ _ Hi). by apply heights_app. Qed.

Lemma heights_prefix h c1 c2 : is_Some (heights h (c1 ++ c2)) -> is_Some (heights h c1).
Proof.
  revert h; induction c1 as [|i c1 IH]; intros h; cbn; [by eauto|].
  destruct (stack_delta i) as [pop push]. destruct (pop <=? h)%nat; [apply IH|done].
Qed.

Section verified.
Context (c : CompiledDecision) (policy : HitPolicy) (end_ : nat).
Notation l := (cd_instructions c) (only parsing).

Lemma lin_block off code h j :
  code_at c off code -> lin l off = Some h -> (j <= length code)%nat ->
  lin l (off + j) = heights h (take j code).
Proof.
  intros Hc Hl. induction j as [|j IH]; intros Hj; [by rewrite Nat.add_0_r|].
  destruct (lookup_lt_is_Some_2 code j) as [i Hi]; [lia|]. specialize (IH ltac:(lia)).
  rewrite Nat.add_succ_r, (take_S_r _ _ _ Hi). destruct (heights h (take j code)) as [h'|] eqn:E.
  - rewrite (heights_app _ _ _ _ E). eapply lin_step; [by apply Hc|done].
  - assert (heights h (take j code ++ [i]) = None) as ->.
    { destruct (heights h (take j code ++ [i])) eqn:E'; [|done].
      destruct (heights_prefix h (take j code) [i]); [by eauto|congruence]. }
    unfold lin in *. rewrite (take_S_r _ _ i) by (by apply Hc).
    destruct (heights 0 (take (off + j) l ++ [i])) eqn:E'; [|done].
    destruct (heights_prefix 0 (take (off + j) l) [i]); [by eauto|congruence].
Qed.

(** The instruction at [pc] satisfies the local checks; its branch, if it has
    one, is taken at height zero, forward, to one of the targets [T]. *)
Record pc_ok (T : nat -> Prop) (pc : nat) (i : DInstr) : Prop := {
  po_at : l !! pc = Some i;
  po_reserved : is_reserved i = false;
  po_not_end : is_end i = false;
  po_refs : (∀ t, branch_target i = Some t -> (t < length l)%nat) -> check_refs c pc i = Ok tt;
  po_shape : check_hit_policy policy l pc i = Ok tt;
  po_height : is_Some (lin l (S pc));
  po_target : ∀ t, branch_target i = Some t -> (pc < t)%nat ∧ T t ∧ lin l (S pc) = Some 0%nat;
}.
Definition range_ok (T : nat -> Prop) (lo hi : nat) : Prop :=
  ∀ pc, (lo <= pc < hi)%nat -> ∃ i, pc_ok T pc i.

Lemma range_ok_app T lo mid hi : range_ok T lo mid -> range_ok T mid hi -> range_ok T lo hi.
Proof. intros H1 H2 pc Hpc. destruct (decide (pc < mid)%nat); [apply H1|apply H2]; lia. Qed.
Lemma range_ok_one T pc i : pc_ok T pc i -> range_ok T pc (S pc).
Proof. intros H pc' Hpc. replace pc' with pc by lia. by exists i. Qed.
Lemma range_ok_mono (T T' : nat -> Prop) lo hi : (∀ t, T t -> T' t) -> range_ok T lo hi -> range_ok T' lo hi.
Proof.
  intros HT H pc Hpc. destruct (H pc Hpc) as [i []]. exists i. split; try done.
  intros t Ht. destruct (po_target0 t Ht) as (?&?&?). auto.
Qed.

(** ** Clauses *)

Lemma plain_ok T pc i : l !! pc = Some i -> plain_in c i -> is_Some (lin l (S pc)) -> pc_ok T pc i.
Proof.
  intros Hi Hp Hl. split; try done; destruct i; try done.
  all: intros _; cbn [check_refs]; by apply ensure_ok, Nat.ltb_lt.
Qed.

Lemma block_ok T off code h h' :
  code_at c off code -> Forall (plain_in c) code -> lin l off = Some h -> heights h code = Some h' ->
  range_ok T off (off + length code) ∧ lin l (off + length code) = Some h'.
Proof.
  intros Hc Hp Hl Hh. split.
  - intros pc Hpc. destruct (lookup_lt_is_Some_2 code (pc - off)) as [i Hi]; [lia|]. exists i.
    pose proof (Hc _ _ Hi) as Hi'. replace (off + (pc - off))%nat with pc in Hi' by lia.
    apply plain_ok; [done|by eapply Forall_lookup_1|].
    replace (S pc) with (off + (S pc - off))%nat by lia. rewrite (lin_block off code h) by (done || lia).
    eapply heights_prefix. by rewrite take_drop, Hh.
  - by rewrite (lin_block off code h), firstn_all by (done || lia).
Qed.

Lemma preds_ok input source next off ps fin :
  preds_at c input source next off ps fin -> (fin <= next)%nat -> lin l off = Some 0%nat ->
  range_ok (eq next) off fin ∧ lin l fin = Some 0%nat.
Proof.
  induction 1 as [off|off p ps code fin Hcode Hp Hh _ Hbr Hps IH]; intros Hfin Hoff.
  - split; [|done]. intros pc. lia.
  - destruct (block_ok (eq next) off code 0 1 Hcode Hp Hoff (Hh 0%nat)) as [H1 H2].
    pose proof (lin_step _ _ _ _ Hbr H2) as H3. cbn in H3. destruct (IH Hfin H3) as [H4 H5].
    pose proof (preds_at_le c input source _ _ _ _ Hps).
    split; [|done]. eapply range_ok_app; [exact H1|]. eapply range_ok_app; [|exact H4].
    apply range_ok_one with (DBrFalse (N.of_nat next)). split; try done.
    + intros Ht. by apply ensure_ok, Nat.ltb_lt, Ht.
    + cbn. rewrite Nat2N.id. intros t [= <-]. split; [lia|done].
Qed.

Lemma assigns_ok T off asg fin :
  assigns_at c off asg fin -> lin l off = Some 0%nat -> range_ok T off fin ∧ lin l fin = Some 0%nat.
Proof.
  induction 1 as [off|off a asg idx fin Hpush Hv Hst Ho Hasg IH]; intros Hoff.
  - split; [|done]. intros pc. lia.
  - pose proof (lin_step _ _ _ _ Hpush Hoff) as H1. pose proof (lin_step _ _ _ _ Hst H1) as H2.
    destruct (IH H2) as [H3 H4]. split; [|done].
    eapply range_ok_app; [eapply range_ok_one|eapply range_ok_app; [eapply range_ok_one|exact H3]].
    + apply plain_ok; [done| |rewrite H1; by eexists]. cbn. by eapply lookup_lt_Some.
    + split; try done; [|rewrite H2; by eexists]. intros _. apply ensure_ok, Nat.ltb_lt. by rewrite Nat2N.id.
Qed.

Lemma tail_ok off r next :
  tail_at c policy end_ off r next -> (next <= end_)%nat -> (∀ a, l !! next ≠ Some (DBr a)) ->
  rule_id r ∈ rme_rule_id <$> cd_rule_map c -> lin l off = Some 0%nat ->
  range_ok (eq end_) off next ∧ lin l next = Some 0%nat.
Proof.
  intros [Hm Ht] Hnext Hbr Hid Hoff. pose proof (lin_step _ _ _ _ Hm Hoff) as H1. cbn in H1.
  assert (check_hit_policy policy l off (DRuleMatched (rule_id r)) = Ok tt) as Hshape.
  { unfold check_hit_policy. cbn [is_rule_matched]. destruct policy; apply ensure_ok.
    - subst next. destruct (l !! S off) as [[]|] eqn:E; try done. by destruct (Hbr addr).
    - by destruct Ht as [-> _]. }
  assert (pc_ok (eq end_) off (DRuleMatched (rule_id r))) as H2.
  { split; try done. intros _. apply ensure_ok, existsb_exists.
    apply list_elem_of_fmap in Hid as (e & -> & He). exists e. split; [by apply list_elem_of_In|]. apply Nat.eqb_refl. }
  destruct policy; [subst next; split; [by eapply range_ok_one|done]|].
  destruct Ht as [Ht ->]. pose proof (lin_step _ _ _ _ Ht H1) as H3. cbn in H3. split; [|done].
  eapply range_ok_app; [by eapply range_ok_one|]. apply range_ok_one with (DBr (N.of_nat end_)).
  split; try done.
  - intros Hlt. by apply ensure_ok, Nat.ltb_lt, Hlt.
  - cbn. rewrite Nat2N.id. intros t [= <-]. split; [lia|done].
Qed.

(** ** Rules *)

(** The first instruction of a rule is not a jump. *)
Lemma rule_start input source off r next :
  rule_at c input source policy end_ off r next -> ∀ a, l !! off ≠ Some (DBr a).
Proof.
  intros (f1 & f2 & Hp & Ha & Hm & _) a Hoff. destruct Hp as [off|off p ps code fin Hcode Hpl Hh _ _ _].
  - destruct Ha; congruence.
  - destruct code as [|i code]; [by specialize (Hh 0%nat)|].
    specialize (Hcode 0%nat i eq_refl). rewrite Nat.add_0_r in Hcode.
    inversion Hpl as [|? ? Hi]; subst. rewrite Hcode in Hoff. by destruct i.
Qed.

Lemma rule_range_ok input source off r next :
  rule_at c input source policy end_ off r next -> (next <= end_)%nat -> (∀ a, l !! next ≠ Some (DBr a)) ->
  rule_id r ∈ rme_rule_id <$> cd_rule_map c -> lin l off = Some 0%nat ->
  range_ok (λ t, t = next ∨ t = end_) off next ∧ lin l next = Some 0%nat.
Proof.
  intros (f1 & f2 & Hp & Ha & Ht) Hnext Hbr Hid Hoff.
  assert (f2 < next)%nat by (destruct Ht as [_ Ht]; destruct policy; [lia|destruct Ht; lia]).
  pose proof (assigns_at_le _ _ _ _ Ha).
  destruct (preds_ok _ _ _ _ _ _ Hp ltac:(lia) Hoff) as [R1 H1].
  destruct (assigns_ok (λ t, t = next ∨ t = end_) _ _ _ Ha H1) as [R2 H2].
  destruct (tail_ok _ _ _ Ht Hnext Hbr Hid H2) as [R3 H3]. split; [|done].
  eapply range_ok_app; [eapply range_ok_mono; [|exact R1]; auto|].
  eapply range_ok_app; [exact R2|]. eapply range_ok_mono; [|exact R3]; auto.
Qed.

Lemma rules_range_ok input source off rules :
  rules_at c input source policy end_ off rules -> l !! end_ = Some DEndDecision ->
  Forall (λ r, rule_id r ∈ rme_rule_id <$> cd_rule_map c) rules -> lin l off = Some 0%nat ->
  range_ok (λ t, (t <= end_)%nat ∧ lin l t = Some 0%nat) off end_ ∧ lin l end_ = Some 0%nat.
Proof.
  intros H Hend. induction H as [|off r rules next Hr Hrs IH]; intros Hids Hoff.
  - split; [|done]. intros pc. lia.
  - inversion Hids as [|? ? Hid Hids']; subst. pose proof (rules_at_le _ _ _ _ _ _ _ Hrs).
    assert (∀ a, l !! next ≠ Some (DBr a)) as Hbr.
    { inversion Hrs; subst; [by rewrite Hend|by eapply rule_start]. }
    destruct (rule_range_ok _ _ _ _ _ Hr ltac:(lia) Hbr Hid Hoff) as [R1 H1].
    destruct (IH Hids' H1) as [R2 H2]. split; [|done].
    eapply range_ok_app; [|exact R2]. eapply range_ok_mono; [|exact R1]. by intros t [-> | ->].
Qed.
End verified.

(** ** The worklist of [compute_reachable] *)

Definition unseen (l : list DInstr) (seen : gset nat) : nat :=
  size ((set_seq 0 (length l) : gset nat) ∖ seen).

Lemma unseen_visit l seen pc :
  (pc < length l)%nat -> pc ∉ seen -> unseen l seen = S (unseen l ({[pc]} ∪ seen)).
Proof.
  intros Hpc Hseen. unfold unseen.
  replace (set_seq 0 (length l) ∖ seen : gset nat)
    with ({[pc]} ∪ (set_seq 0 (length l) ∖ ({[pc]} ∪ seen)) : gset nat).
  - rewrite size_union, size_singleton; [done|]. set_solver.
  - apply leibniz_equiv. intros x. rewrite elem_of_union, !elem_of_difference, elem_of_union, elem_of_singleton.
    rewrite elem_of_set_seq. destruct (decide (x = pc)) as [->|]; [|tauto].
    split; [|by auto]. intros _. split; [lia|done].
Qed.

Lemma dmn_successors_length i pc : (length (dmn_successors i pc) <= 2)%nat.
Proof. destruct i; cbn; lia. Qed.

(** What the loop maintains: visited addresses lie in the program, and their
    dmn_successors are visited or waiting. *)
Record reach_inv (l : list DInstr) (work : list nat) (seen : gset nat) : Prop := {
  ri_in : ∀ pc, pc ∈ seen -> (pc < length l)%nat;
  ri_succ : ∀ pc i t, pc ∈ seen -> l !! pc = Some i -> t ∈ dmn_successors i pc -> (t < length l)%nat ->
    t ∈ seen ∨ t ∈ work;
}.

Lemma reach_loop_closed fuel l : ∀ work seen,
  reach_inv l work seen -> (length work + 2 * unseen l seen <= fuel)%nat ->
  let r := reach_loop fuel l work seen in
  reach_inv l [] r ∧ seen ⊆ r ∧ ∀ t, t ∈ work -> (t < length l)%nat -> t ∈ r.
Proof.
  induction fuel as [|fuel IH]; intros [|pc work] seen Hinv Hf; cbn in *; try lia;
    try (split_and!; [done..|set_solver]).
  case_bool_decide as Hpc; [|destruct (l !! pc) as [i|] eqn:E].
  - destruct (IH work seen) as (H1 & H2 & H3); [|lia|].
    { destruct Hinv. split; [done|]. intros q i t Hq Hi Ht Hlt. destruct (ri_succ0 q i t Hq Hi Ht Hlt); set_solver. }
    split_and!; [done..|]. intros t [->|Ht]%elem_of_cons; [by auto|by apply H3].
  - pose proof (lookup_lt_Some _ _ _ E) as Hlt. pose proof (dmn_successors_length i pc).
    rewrite (unseen_visit _ _ _ Hlt Hpc) in Hf.
    destruct (IH (dmn_successors i pc ++ work) ({[pc]} ∪ seen)) as (H1 & H2 & H3);
      [|rewrite length_app; lia|].
    { destruct Hinv. split; [intros q [->%elem_of_singleton|Hq]%elem_of_union; auto|].
      intros q j t [->%elem_of_singleton|Hq]%elem_of_union Hj Ht Hlt'.
      - rewrite E in Hj. injection Hj as ->. set_solver.
      - destruct (ri_succ0 q j t Hq Hj Ht Hlt'); set_solver. }
    split_and!; [done|set_solver|]. intros t [->|Ht]%elem_of_cons Hlt'; [set_solver|].
    apply H3; [set_solver|done].
  - apply lookup_ge_None_1 in E. destruct (IH work seen) as (H1 & H2 & H3); [|lia|].
    { destruct Hinv. split; [done|]. intros q i t Hq Hi Ht Hlt. destruct (ri_succ0 q i t Hq Hi Ht Hlt) as [?|Hw]; [by left|].
      apply elem_of_cons in Hw as [->|]; [lia|by right]. }
    split_and!; [done..|]. intros t [->|Ht]%elem_of_cons Hlt; [lia|by apply H3].
Qed.

(** Enough fuel: the set is closed under dmn_successors and holds the entry. *)
Lemma compute_reachable_closed l :
  reach_inv l [] (compute_reachable l) ∧ ((0 < length l)%nat -> 0%nat ∈ compute_reachable l).
Proof.
  destruct (reach_loop_closed (2 * length l + 2) l [0%nat] ∅) as (H1 & _ & H3).
  - split; set_solver.
  - unfold unseen. rewrite difference_empty_L, size_set_seq. cbn. lia.
  - split; [done|]. intros H. apply H3; [set_solver|done].
Qed.

Lemma forward_successor x pc e :
  (∀ t, branch_target x = Some t -> (pc < t <= e)%nat) -> is_end x = false -> (pc < e)%nat ->
  ∃ t, t ∈ dmn_successors x pc ∧ (pc < t <= e)%nat.
Proof.
  intros Ht He Hlt. destruct x; try discriminate He;
    try (exists (S pc); split; [by left|lia]).
  exists (N.to_nat addr). split; [by left|]. by apply Ht.
Qed.

(** ** The passes of [verify] *)

Section passes.
Context (c : CompiledDecision) (policy : HitPolicy) (end_ : nat).
Notation l := (cd_instructions c) (only parsing).
Context (Hlen : length l = S end_) (Hend : l !! end_ = Some DEndDecision).
Context (Hrange : range_ok c policy (λ t, (t <= end_)%nat ∧ lin l t = Some 0%nat) 0 end_).
Context (Hfin : lin l end_ = Some 0%nat).

Lemma each_instr i x : l !! i = Some x ->
  (i = end_ ∧ x = DEndDecision) ∨
  ((i < end_)%nat ∧ pc_ok c policy (λ t, (t <= end_)%nat ∧ lin l t = Some 0%nat) i x).
Proof.
  intros Hi. pose proof (lookup_lt_Some _ _ _ Hi). destruct (decide (i = end_)) as [->|Hne].
  - left. split; [done|]. congruence.
  - right. split; [lia|]. destruct (Hrange i) as [x' Hx]; [lia|].
    pose proof (po_at _ _ _ _ _ Hx). by simplify_eq.
Qed.

Lemma try_enumerate_ok {E} (f : nat -> DInstr -> Result E unit) :
  (∀ i x, l !! i = Some x -> f i x = Ok tt) -> try_enumerate f l = Ok tt.
Proof.
  intros H. apply try_for_each_ok. intros [i x] (j & Hj)%list_elem_of_lookup.
  rewrite list_lookup_imap in Hj. destruct (l !! j) eqn:Ej; [|done]. cbn in Hj. simplify_eq. by apply H.
Qed.

Lemma reserved_pass : try_enumerate check_reserved l = Ok tt.
Proof.
  apply try_enumerate_ok. intros i x [[_ ->]|[_ Hx]]%each_instr; [done|].
  apply ensure_ok. by rewrite (po_reserved _ _ _ _ _ Hx).
Qed.

Lemma refs_pass : try_enumerate (check_refs c) l = Ok tt.
Proof.
  apply try_enumerate_ok. intros i x [[_ ->]|[_ Hx]]%each_instr; [done|].
  apply (po_refs _ _ _ _ _ Hx). intros t Ht. destruct (po_target _ _ _ _ _ Hx t Ht) as (_ & [? _] & _). lia.
Qed.

Lemma shape_pass : try_enumerate (check_hit_policy policy l) l = Ok tt.
Proof.
  apply try_enumerate_ok. intros i x [[_ ->]|[_ Hx]]%each_instr; [done|]. apply (po_shape _ _ _ _ _ Hx).
Qed.

Lemma end_pass : end_positions l = [end_].
Proof.
  unfold end_positions. rewrite <-(take_drop end_ l), (drop_S _ _ _ Hend), imap_app, omap_app.
  rewrite drop_ge by lia. rewrite length_take, Nat.min_l by lia. cbn. rewrite Nat.add_0_r.
  change [end_] with ([] ++ [end_]) at 2. f_equal. apply elem_of_nil_inv. intros j Hj.
  apply list_elem_of_omap in Hj as ([i x] & (k & Hk)%list_elem_of_lookup & Hx).
  rewrite list_lookup_imap in Hk. destruct (take end_ l !! k) eqn:Ek; [|done]. cbn in Hk. simplify_eq. cbn in Hx.
  apply lookup_take_Some in Ek as [Ek Hlt]. apply each_instr in Ek as [[-> _]|[_ Hk]]; [lia|].
  by rewrite (po_not_end _ _ _ _ _ Hk) in Hx.
Qed.

(** Every instruction before the end has a successor further on. *)
Lemma end_reached pc : pc ∈ compute_reachable l -> end_ ∈ compute_reachable l.
Proof.
  destruct (compute_reachable_closed l) as [[Hin Hsucc] _].
  remember (end_ - pc)%nat as k eqn:Ek. revert pc Ek.
  induction k as [k IH] using lt_wf_ind. intros pc Ek Hpc.
  destruct (decide (pc = end_)) as [->|Hne]; [done|]. pose proof (Hin pc Hpc).
  destruct (Hrange pc) as [x Hx]; [lia|].
  assert (∃ t, t ∈ dmn_successors x pc ∧ (pc < t <= end_)%nat) as (t & Ht & Hlt).
  { apply forward_successor; [|apply (po_not_end _ _ _ _ _ Hx)|lia].
    intros t Ht. destruct (po_target _ _ _ _ _ Hx t Ht) as (? & [? _] & _). lia. }
  destruct (Hsucc pc x t Hpc (po_at _ _ _ _ _ Hx) Ht ltac:(lia)) as [Hr|Hr]; [|set_solver].
  eapply IH; [|reflexivity|exact Hr]. lia.
Qed.

Lemma end_reachable : end_ ∈ compute_reachable l.
Proof. apply (end_reached 0). apply compute_reachable_closed. lia. Qed.

Lemma dangling_pass r : try_for_each (check_dangling l) (reachable_order l r) = Ok tt.
Proof.
  apply try_for_each_ok. intros i [_ Hi%elem_of_seq]%list_elem_of_filter. unfold check_dangling.
  destruct (l !! i) as [x|] eqn:E; [|apply lookup_ge_None_1 in E; lia].
  apply each_instr in E as [[-> ->]|[Hlt _]]; [done|].
  assert (ensure (S i <? length l)%nat (DanglingInstruction (as_u32 i)) = Ok tt) as H
    by (apply ensure_ok, Nat.ltb_lt; lia).
  by destruct x.
Qed.

(** Recorded heights are those of the straight reading. *)
Definition heights_ok (hs : list (option nat)) : Prop :=
  ∀ p h, hs !! p = Some (Some h) -> lin l p = Some h.

Lemma set_height_ok hs p h at_ :
  heights_ok hs -> lin l p = Some h -> ∃ hs', set_height hs p h at_ = Ok hs' ∧ heights_ok hs'.
Proof.
  intros Hhs Hp. unfold set_height. destruct (hs !! p) as [[h'|]|] eqn:E; [| |by eauto].
  - assert (h' = h) as -> by (apply Hhs in E; congruence). rewrite Nat.eqb_refl. by eauto.
  - eexists. split; [done|]. intros q h'. destruct (decide (p = q)) as [<-|Hne].
    + rewrite list_lookup_insert_eq by (by eapply lookup_lt_Some). congruence.
    + rewrite list_lookup_insert_ne by done. apply Hhs.
Qed.

Lemma lin_next i x h : l !! i = Some x -> lin l i = Some h -> is_Some (lin l (S i)) ->
  ((stack_delta x).1 <= h)%nat ∧ lin l (S i) = Some (h - (stack_delta x).1 + (stack_delta x).2)%nat.
Proof.
  intros Hx Hh. rewrite (lin_step _ _ _ _ Hx Hh). cbn. destruct (stack_delta x) as [pop push]. cbn.
  destruct (Nat.leb_spec pop h); [done|]. by intros [].
Qed.

Lemma height_step_ok hs i :
  heights_ok hs -> ∃ hs', height_step l hs i = Ok hs' ∧ heights_ok hs'.
Proof.
  intros Hhs. unfold height_step. destruct (hs !! i) as [[h|]|] eqn:Eh; [|by eauto..].
  destruct (l !! i) as [x|] eqn:Ex; [|by eauto]. apply Hhs in Eh.
  destruct (each_instr i x Ex) as [[-> ->]|[Hlt Hx]].
  - rewrite Hfin in Eh. injection Eh as <-. cbn. by eauto.
  - destruct (lin_next i x h Ex Eh (po_height _ _ _ _ _ Hx)) as [Hpop Hn].
    destruct (stack_delta x) as [pop push]. cbn [fst snd] in *.
    rewrite (proj2 (Nat.leb_le _ _) Hpop). cbn [ensure mbind Result_bind].
    assert (∃ hs1, (if falls_through x && (S i <? length l)%nat
      then set_height hs (S i) (h - pop + push) i else Ok hs) = Ok hs1 ∧ heights_ok hs1) as (hs1 & -> & H1).
    { destruct (_ && _); [|by eauto]. by apply set_height_ok. }
    cbn [mbind Result_bind]. rewrite (po_not_end _ _ _ _ _ Hx). cbn [andb negb ensure].
    destruct (branch_target x) as [t|] eqn:Et; cbn [mbind Result_bind]; [|by eauto].
    destruct (po_target _ _ _ _ _ Hx t Et) as (_ & [_ H0] & Hz). rewrite Hn in Hz.
    destruct (set_height_ok hs1 t (h - pop + push) i H1 ltac:(congruence)) as (hs2 & -> & H2).
    cbn. by eauto.
Qed.

Lemma heights_pass order : verify_stack_heights l order = Ok tt.
Proof.
  unfold verify_stack_heights.
  assert (∀ hs, heights_ok hs -> ∃ hs', try_fold (height_step l) hs order = Ok hs') as H.
  { induction order as [|i order IH]; intros hs Hhs; [by eauto|]. cbn.
    destruct (height_step_ok hs i Hhs) as (hs' & -> & H'). by apply IH. }
  edestruct H as [hs' ->]; [|done]. intros p h.
  destruct p as [|p]; [rewrite list_lookup_insert_eq by (rewrite length_replicate; lia); by intros [= <-]|].
  rewrite list_lookup_insert_ne by done. by intros [[=] _]%lookup_replicate.
Qed.

Lemma verify_passes :
  length (cd_source_spans c) = length l -> cd_hit_policy c = policy -> verify c = Ok c.
Proof.
  intros Hsp Hpol. unfold verify. rewrite Hsp, Nat.eqb_refl, Hlen. cbn [ensure mbind Result_bind Nat.eqb negb].
  rewrite reserved_pass, refs_pass, end_pass. cbn [mbind Result_bind].
  rewrite bool_decide_eq_true_2 by apply end_reachable. cbn [ensure mbind Result_bind].
  rewrite dangling_pass, heights_pass. cbn [mbind Result_bind].
  unfold verify_hit_policy_shape. by rewrite Hpol, shape_pass.
Qed.
End passes.

Lemma laid_out_verifies d c : laid_out d c -> verify c = Ok c.
Proof.
  intros [Lp Li Lo Lm Lsp Lsz Le Lr].
  assert (Forall (λ r, rule_id r ∈ rme_rule_id <$> cd_rule_map c) (dec_rules d)) as Hids
    by (apply Forall_forall; intros r Hr; rewrite Lm; by apply list_elem_of_fmap_2).
  destruct (rules_range_ok c (hit_policy d) _ (mkInput [] 0) "" _ _ (Lr _ _) Le Hids)
    as [Hrange Hfin]; [done|].
  by apply (verify_passes c (hit_policy d) (rules_size (hit_policy d) (dec_rules d))).
Qed.

(** The bytecode the emitter produces for a well-formed decision passes
    the bytecode verifier: no reserved opcode, every reference and branch
    target in range, one [EndDecision] that is reachable, nothing falling off
    the end, consistent stack heights with an empty stack at the end, and the
    branch shape of its hit policy. *)
Lemma emitted_verifies `{P : Platform} (d : TypedDecision) (source : string) :
  decision_ok d -> ∃ c, emit d source = Some c ∧ verify c = Ok c.
Proof.
  intros Hd. destruct (emit_layout d source Hd) as (c & Ec & Hc). exists c.
  split; [done|]. by eapply laid_out_verifies.
Qed.
