(* ===== verification/DmnTheorems.v ===== *)
(** * dmn-lite: witnesses, and the limits of the verifier

    A decision on which the refinement theorem and the verifier theorem are
    applied, and programs the verifier accepts although the VM cannot run them
    safely. *)

From S2P Require Import Prelude RustStr Json Types Platform Canonical CodecFacts Fixtures DmnTypes DmnReference DmnVm DmnEmit DmnVerify DmnSteps DmnCodegen DmnLayout DmnRefine.

#[local] Existing Instance toy_platform.

(** ** A sample decision *)

Definition no_span : SourceSpan := mkSpan 0 0.
Definition toy_schema_hash (l : list FieldSchema) : N := N.of_nat (length l).

(** Two inputs, one output, FIRST: nested connectives, a set with a duplicate,
    a half-open range, a catch-all. *)
Definition sample_decision : TypedDecision :=
  mkDecision "d" "sample" First
    [mkField 0 "x" RTInteger no_span; mkField 1 "b" RTBool no_span]
    [mkField 0 "o" RTStr no_span]
    [mkRule 0 "high" (Predicates
       [PAnd [PComparison 0 OpGt (TVInteger 5) no_span; PNot (PIsNull 1 no_span) no_span;
              PInSet 0 [TVInteger 7; TVInteger 6; TVInteger 7] no_span] no_span;
        PComparison 1 OpEq (TVBool true) no_span] no_span) [mkAssignment 0 (TVStr "hi") no_span] no_span;
     mkRule 1 "low" (Predicates [PRange 0 (Some (TVInteger 1)) None true false no_span] no_span)
       [mkAssignment 0 (TVStr "lo") no_span] no_span;
     mkRule 2 "else" (CatchAll no_span) [mkAssignment 0 (TVStr "none") no_span] no_span] [] no_span.
Definition sample_input : TypedInputContext := mkInput [Some (TVInteger 6); Some (TVBool false)] 2.

Lemma sample_decision_ok : decision_ok sample_decision.
Proof. split; [repeat constructor; vm_compute; intuition congruence|vm_compute; congruence..]. Qed.

Lemma vm_refines_reference_witness :
  ∃ c vm ref, emit sample_decision "" = Some c ∧
    vm_evaluate toy_schema_hash 40 c sample_input "" = Some vm ∧
    reference_evaluate (λ _, "") toy_schema_hash sample_decision sample_input "" = Some ref ∧
    verdict vm = verdict ref.
Proof.
  apply (vm_refines_reference (λ _, "") toy_schema_hash sample_decision sample_input "" 40).
  - exact sample_decision_ok.
  - reflexivity.
  - vm_compute. lia.
Defined.

(** Both evaluators pick the second rule. *)
Example sample_verdict :
  (verdict <$> reference_evaluate (λ _, "") toy_schema_hash sample_decision sample_input "")
  = Some (Ok (mkOutput [TVStr "lo"] 1, OutcomeMatch 1)).
Proof. vm_compute. reflexivity. Qed.

Lemma emitted_verifies_witness : ∃ c, emit sample_decision "" = Some c ∧ verify c = Ok c.
Proof. apply (emitted_verifies sample_decision ""). exact sample_decision_ok. Defined.

(** ** Limits of the verifier *)

(** A compiled decision with the given program and constants; two integer
    inputs, no rules. *)
Definition program (l : list DInstr) (consts : list TypedValue) (sets : list (list TypedValue))
  : CompiledDecision :=
  mkCompiled "d" "program" First
    [mkField 0 "x" RTInteger no_span; mkField 1 "y" RTInteger no_span] [] consts sets []
    l (replicate (length l) no_span) [] [] sample_decision.

(** Branches back to its start for ever. *)
Definition looping : CompiledDecision :=
  program [DPushConst 0; DBrFalse 0; DEndDecision] [TVBool false] [].
(** Takes a set index from the input. *)
Definition stray_set : CompiledDecision :=
  program [DLoadField 0; DLoadField 1; DInSet; DPop; DEndDecision] [] [].
(** Reaches a comparison, with an empty stack, through a backward branch. *)
Definition back_entry : CompiledDecision :=
  program [DBr 4; DEq; DPop; DEndDecision; DBr 1] [] [].

Definition at_start (s : VmState) : Prop :=
  vm_pc s = 0%N ∧ vm_stack s = [] ∧ vm_halted s = false ∧ vm_rule_idx s = None.

Lemma looping_round s input source :
  at_start s -> ∃ s1 s2, vm_step looping input source s = Some s1 ∧ vm_halted s1 = false ∧
    vm_pc s1 = 1%N ∧ vm_step looping input source s1 = Some s2 ∧ at_start s2.
Proof.
  destruct s as [pc st m o h tr pr idx]. intros (Hpc & Hst & Hh & Hidx). cbn in *; subst.
  eexists _, _. split_and!; try reflexivity. by split_and!.
Qed.

Lemma looping_never_ends fuel input source : ∀ s,
  at_start s -> vm_loop fuel looping input source s = VmOutOfFuel.
Proof.
  induction fuel as [fuel IH] using lt_wf_ind. intros s Hs.
  destruct (looping_round s input source Hs) as (s1 & s2 & E1 & Hh & Hpc & E2 & H2).
  destruct Hs as (Hpc0 & _ & Hh0 & _). destruct fuel as [|[|fuel]]; cbn [vm_loop].
  - by rewrite Hh0, Hpc0.
  - by rewrite Hh0, Hpc0, E1, Hh, Hpc.
  - rewrite Hh0, Hpc0. cbn -[vm_loop vm_step]. rewrite E1. cbn [vm_loop]. rewrite Hh, Hpc.
    cbn -[vm_loop vm_step]. rewrite E2. apply IH; [lia|done].
Qed.

(** The module documentation of [verify.rs] says that a decision that
    passes verification is safe to execute.  It is not, in three ways: an
    accepted program can run for ever ([looping] exhausts every fuel), can
    index the set pool out of bounds with a value of the input ([stray_set]
    panics), and can reach [Eq] with an empty stack, because the height pass
    goes over the addresses once in ascending order and never looks at an
    address whose height a later, backward branch sets ([back_entry]). *)
Lemma verified_not_safe :
  (verify looping = Ok looping ∧
   ∀ fuel input source, vm_loop fuel looping input source (VmState_new looping) = VmOutOfFuel) ∧
  (verify stray_set = Ok stray_set ∧
   vm_loop 5 stray_set (mkInput [Some (TVInteger 1); Some (TVInteger 7)] 2) "" (VmState_new stray_set) = VmPanic) ∧
  (verify back_entry = Ok back_entry ∧
   ∃ s, vm_runs back_entry (mkInput [] 0) "" 2 (VmState_new back_entry) s ∧
     cd_instructions back_entry !! N.to_nat (vm_pc s) = Some DEq ∧ vm_stack s = []).
Proof.
  split_and!.
  - vm_compute. reflexivity.
  - intros. by apply looping_never_ends.
  - vm_compute. reflexivity.
  - vm_compute. reflexivity.
  - vm_compute. reflexivity.
  - eexists. split.
    + econstructor; [reflexivity|reflexivity|]. econstructor; [reflexivity|reflexivity|]. constructor.
    + split; reflexivity.
Qed.

(** ** Where the two evaluators part *)

(** An input of the wrong type. *)
Definition mistyped_input : TypedInputContext := mkInput [Some (TVStr "six"); None] 2.

(** [vm.rs] promises the contract of [reference::evaluate], but only the
    reference evaluator calls [validate_input_types]: on an input whose slot
    holds a string where the schema says integer the reference evaluator
    returns [InputTypeMismatch] while the VM returns the catch-all's output. *)
Lemma vm_skips_type_validation :
  reference_evaluate (λ _, "") toy_schema_hash sample_decision mistyped_input ""
    = Some (Err (InputTypeMismatch "x" 0 "integer" "string")) ∧
  (verdict <$> (c ← emit sample_decision ""; vm_evaluate toy_schema_hash 40 c mistyped_input ""))
    = Some (Ok (mkOutput [TVStr "none"] 1, OutcomeMatch 2)).
Proof. split; vm_compute; reflexivity. Qed.

(** ** The artifact hash *)

(** A decision over one string, and its source: the rule's set holds the
    string [a;b] or [a;c]. *)
Definition set_decision (member : string) : TypedDecision :=
  mkDecision "d" "d" First [mkField 0 "x" RTStr no_span] [mkField 0 "o" RTBool no_span]
    [mkRule 0 "r" (Predicates [PInSet 0 [TVStr member] no_span] no_span)
       [mkAssignment 0 (TVBool true) no_span] no_span] [] no_span.
Definition newline : string := String (Ascii.ascii_of_nat 10) "".
Definition quote : string := String (Ascii.ascii_of_nat 34) "".
Definition set_source (member : string) : string :=
  "(define-decision d :hit-policy first :inputs ((x :type string :domain D))" +:+ newline +:+
  ":outputs ((o :type bool :domain D))" +:+ newline +:+
  ":rules ((rule r :when ((x in (" +:+ quote +:+ member +:+ quote +:+ ")))" +:+ newline +:+
  ":then ((o = true)))))".
Definition string_input (s : string) : TypedInputContext := mkInput [Some (TVStr s)] 1.

(** The artifact hash does not identify the decision.  [normalise_source]
    strips from a semicolon to the end of the line even inside a string
    literal, and [serialise_ir] hashes the instructions, the constants and the
    ranges but not the constant-set pool: two decisions that differ in a set
    member get the same artifact hash, whatever BLAKE3 is, although they
    decide the same input differently. *)
Lemma artifact_hash_misses_sets `{P : Platform} :
  (cd_artifact_hash <$> emit (set_decision "a;b") (set_source "a;b"))
    = (cd_artifact_hash <$> emit (set_decision "a;c") (set_source "a;c")) ∧
  (verdict <$> (c ← emit (set_decision "a;b") (set_source "a;b");
                vm_evaluate toy_schema_hash 10 c (string_input "a;b") ""))
    = Some (Ok (mkOutput [TVBool true] 1, OutcomeMatch 0)) ∧
  (verdict <$> (c ← emit (set_decision "a;c") (set_source "a;c");
                vm_evaluate toy_schema_hash 10 c (string_input "a;b") ""))
    = Some (Err NoMatch).
Proof.
  split_and!.
  - unfold emit, compute_artifact_hash. cbn [emit_rules]. vm_compute. reflexivity.
  - vm_compute. reflexivity.
  - vm_compute. reflexivity.
Qed.

(** ** Integers and decimals *)

(** A decimal input tested for equality with 5.0, or for lying between. *)
Definition decimal_decision (op : ComparisonOp) : TypedDecision :=
  mkDecision "d" "d" First [mkField 0 "x" RTDecimal no_span] [mkField 0 "o" RTBool no_span]
    [mkRule 0 "r" (Predicates [PComparison 0 op (TVDecimal 4617315517961601024) no_span] no_span)
       [mkAssignment 0 (TVBool true) no_span] no_span] [] no_span.

(** An integer is a legal value of a decimal field, but equality does not widen
    it: 5 is neither equal to 5.0 nor below nor above it, and at once at most
    and at least 5.0. *)
Lemma integer_not_widened_by_equality :
  let run op := verdict <$> reference_evaluate (λ _, "") toy_schema_hash (decimal_decision op)
                  (mkInput [Some (TVInteger 5)] 1) "" in
  let yes := Some (Ok (mkOutput [TVBool true] 1, OutcomeMatch 0)) in
  let no := Some (Err NoMatch) in
  run OpEq = no ∧ run OpLt = no ∧ run OpGt = no ∧ run OpLe = yes ∧ run OpGe = yes.
Proof. vm_compute. auto. Qed.

(** ** Traces *)

(** A trace in which [matched] is not the conjunction of the recorded results. *)
Definition incoherent (t : RuleTrace) : bool :=
  negb (Bool.eqb (rt_matched t) (forallb pt_result (rt_predicates t))).

(** Under FIRST the VM pads the trace with stubs for the rules it never entered:
    not matched, with no predicate recorded. *)
Lemma vm_stub_traces_incoherent :
  (c ← emit sample_decision ""; r ← vm_evaluate toy_schema_hash 40 c sample_input "";
   match r with Ok e => Some (map incoherent (tr_rules (ev_trace e))) | Err _ => None end)
  = Some [false; false; true].
Proof. vm_compute. reflexivity. Qed.
