(* ===== verification/DmnLower.v ===== *)
(** * dmn-lite: from the AST to the typed IR

    [dmn-lite-compiler/src/lower.rs] with the AST of [dmn-lite-types/src/ast.rs],
    the catalogue of [catalogue.rs] and the diagnostics of [errors.rs], and the
    entry points of [dmn-lite-compiler/src/lib.rs].

    The lowering accumulates errors and entity references in vectors it is
    passed by mutable reference; here a small monad threads them.  A
    computation yields a value, leaves with [None] (the [?] of Rust: what was
    pushed stays pushed), or panics. *)

From Stdlib Require Import Floats.SpecFloat Strings.Ascii.
From S2P Require Import Prelude RustStr Json Types Platform CodecFacts DmnTypes DmnEmit DmnVerify.

(** ** Parsing numbers

    [str::parse::<i64>] and [str::parse::<f64>] of Rust's standard library, as
    [lower.rs] uses them on numeric literals. *)

(** A run of digits, its value and its length, and what follows. *)
Fixpoint scan_digits (s : string) (acc : N) (n : nat) : N * nat * string :=
  match s with
  | "" => (acc, n, "")
  | String c s' =>
      match digit_value c with
      | Some d => scan_digits s' (acc * 10 + d) (S n)
      | None => (acc, n, s)
      end
  end.

(** An optional sign; [true] is negative. *)
Definition scan_sign (s : string) : bool * string :=
  match s with
  | String "-" s' => (true, s')
  | String "+" s' => (false, s')
  | _ => (false, s)
  end.

(** [i64::from_str]: a sign, at least one digit, nothing else, in range. *)
Definition parse_i64 (s : string) : option Z :=
  let '(neg, s) := scan_sign s in
  match scan_digits s 0 0 with
  | (n, S _, "") =>
      let z := if neg then (- Z.of_N n)%Z else Z.of_N n in
      if ((- 2 ^ 63 <=? z) && (z <=? 2 ^ 63 - 1))%Z then Some z else None
  | _ => None
  end.

(** ** [f64] *)

(** The bits of a binary64 value. *)
Definition f64_encode (f : spec_float) : N :=
  let signed (sign : bool) (n : N) := ((if sign then 2 ^ 63 else 0) + n)%N in
  (match f with
   | S754_zero s => signed s 0
   | S754_infinity s => signed s (2047 * 2 ^ 52)
   | S754_nan => 2047 * 2 ^ 52 + 2 ^ 51
   | S754_finite s m e =>
       if (Npos m <? 2 ^ 52)%N then signed s (Npos m)
       else signed s (Z.to_N (e + 1075) * 2 ^ 52 + (Npos m - 2 ^ 52))
   end mod 2 ^ 64)%N.

(** [m * 10^e], rounded to nearest, ties to even. *)
Definition f64_of_decimal (sign : bool) (m : N) (e : Z) : spec_float :=
  match m with
  | N0 => S754_zero sign
  | Npos p =>
      match e with
      | Zneg k => SFdiv 53 1024 (S754_finite sign p 0) (S754_finite false (10 ^ k) 0)
      | Zpos k => binary_normalize 53 1024 (cond_Zopp sign (Zpos (p * 10 ^ k))) 0 sign
      | Z0 => binary_normalize 53 1024 (cond_Zopp sign (Zpos p)) 0 sign
      end
  end.

(** [eq_ignore_ascii_case]. *)
Definition lower_ascii (c : ascii) : ascii :=
  let n := N_of_ascii c in
  if (65 <=? n)%N && (n <=? 90)%N then ascii_of_N (n + 32) else c.
Fixpoint lower_string (s : string) : string :=
  match s with "" => "" | String c s' => String (lower_ascii c) (lower_string s') end.

(** The exponent part: absent, or a sign and at least one digit. *)
Definition scan_exponent (s : string) : option Z :=
  match s with
  | "" => Some 0%Z
  | String c s' =>
      if Ascii.eqb (lower_ascii c) "e" then
        let '(neg, s') := scan_sign s' in
        match scan_digits s' 0 0 with
        | (n, S _, "") => Some (if neg then - Z.of_N n else Z.of_N n)%Z
        | _ => None
        end
      else None
  end.

(** The number part: digits with at most one point, at least one digit. *)
Definition scan_number (sign : bool) (s : string) : option spec_float :=
  let '(int, n, rest) := scan_digits s 0 0 in
  let '(m, k, rest) :=
    match rest with String "." rest' => scan_digits rest' int 0 | _ => (int, 0%nat, rest) end in
  match (n + k)%nat with
  | O => None
  | S _ => e ← scan_exponent rest; Some (f64_of_decimal sign m (e - Z.of_nat k))
  end.

(** [f64::from_str], as bits. *)
Definition parse_f64 (s : string) : option N :=
  match s with
  | "" => None
  | _ =>
      let '(neg, rest) := scan_sign s in
      match scan_number neg rest with
      | Some f => Some (f64_encode f)
      | None =>
          let low := lower_string rest in
          if bool_decide (low = "nan") then Some ((if neg then 2 ^ 63 else 0) + f64_encode S754_nan)%N
          else if bool_decide (low = "inf" ∨ low = "infinity") then Some (f64_encode (S754_infinity neg))
          else None
      end
  end.

Example parse_tenth : parse_f64 "0.1" = Some 0x3FB999999999999A%N.
Proof. vm_compute. reflexivity. Qed.
Example parse_pi : parse_f64 "-3.14" = Some 0xC0091EB851EB851F%N.
Proof. vm_compute. reflexivity. Qed.
Example parse_big : parse_f64 "1e400" = Some 0x7FF0000000000000%N.
Proof. vm_compute. reflexivity. Qed.
Example parse_tiny : parse_f64 "5e-324" = Some 1%N.
Proof. vm_compute. reflexivity. Qed.
Example parse_int : parse_f64 "9007199254740993" = Some 0x4340000000000000%N.
Proof. vm_compute. reflexivity. Qed.
Example parse_bad : parse_f64 "1.2.3" = None ∧ parse_f64 "." = None ∧ parse_f64 "+" = None.
Proof. vm_compute. auto. Qed.

(** ** Ranges *)

Lemma parse_i64_range s z : parse_i64 s = Some z -> is_i64 z.
Proof.
  unfold parse_i64, is_i64. destruct (scan_sign s) as [neg s'].
  destruct (scan_digits s' 0 0) as [[n [|k]] [|]]; try done.
  destruct (_ && _) eqn:E; [|done]. intros [= <-]. apply andb_true_iff in E as [H1 H2].
  apply Z.leb_le in H1, H2. by unfold i64_min, i64_max in *.
Qed.

Lemma f64_encode_range f : is_u64 (f64_encode f).
Proof.
  unfold f64_encode, is_u64, u64_max.
  match goal with |- (?x mod _ <= _)%N => pose proof (N.mod_lt x (2 ^ 64)) end. lia.
Qed.

Lemma parse_f64_range s bits : parse_f64 s = Some bits -> is_u64 bits.
Proof.
  unfold parse_f64. destruct s as [|c s]; [done|]. destruct (scan_sign _) as [neg rest].
  destruct (scan_number neg rest); [intros [= <-]; apply f64_encode_range|].
  destruct (bool_decide (_ = "nan")); [intros [= <-]; by destruct neg|].
  destruct (bool_decide _); [|done]. intros [= <-]. apply f64_encode_range.
Qed.

(** ** The AST *)

Inductive NumberKind := NKInteger | NKDecimal.

Record SymbolAst := mkSymbol { sym_name : string; sym_span : SourceSpan }.
Record StringLitAst := mkStringLit { str_value : string; str_span : SourceSpan }.
Record NumberLitAst := mkNumberLit { num_text : string; num_kind : NumberKind; num_span : SourceSpan }.

Inductive LiteralAst :=
| LSymbol (s : SymbolAst)
| LString (s : StringLitAst)
| LNumber (n : NumberLitAst)
| LBoolean (value : bool) (span : SourceSpan).

Definition literal_span (l : LiteralAst) : SourceSpan :=
  match l with
  | LSymbol s => sym_span s | LString s => str_span s | LNumber n => num_span n
  | LBoolean _ span => span
  end.

Inductive RangeBound :=
| Unbounded (span : SourceSpan)
| BoundValue (n : NumberLitAst).

Inductive PredicateAst :=
| AEq (field : SymbolAst) (value : LiteralAst) (span : SourceSpan)
| ANotEq (field : SymbolAst) (value : LiteralAst) (span : SourceSpan)
| ALt (field : SymbolAst) (value : NumberLitAst) (span : SourceSpan)
| ALe (field : SymbolAst) (value : NumberLitAst) (span : SourceSpan)
| AGt (field : SymbolAst) (value : NumberLitAst) (span : SourceSpan)
| AGe (field : SymbolAst) (value : NumberLitAst) (span : SourceSpan)
| AInSet (field : SymbolAst) (values : list LiteralAst) (span : SourceSpan)
| ARange (field : SymbolAst) (lower upper : RangeBound) (lower_inclusive upper_inclusive : bool)
    (span : SourceSpan)
| AIsNull (field : SymbolAst) (span : SourceSpan)
| AIsNotNull (field : SymbolAst) (span : SourceSpan)
| ANot (inner : PredicateAst) (span : SourceSpan)
| AAnd (items : list PredicateAst) (span : SourceSpan)
| AOr (items : list PredicateAst) (span : SourceSpan).

(** Induction that reaches into the connectives. *)
Definition is_leaf (p : PredicateAst) : Prop :=
  match p with ANot _ _ | AAnd _ _ | AOr _ _ => False | _ => True end.

Section PredicateAst_ind'.
Variable P : PredicateAst -> Prop.
Hypothesis HLeaf : ∀ p, is_leaf p -> P p.
Hypothesis HNot : ∀ p s, P p -> P (ANot p s).
Hypothesis HAnd : ∀ items s, Forall P items -> P (AAnd items s).
Hypothesis HOr : ∀ items s, Forall P items -> P (AOr items s).

Fixpoint PredicateAst_ind' (p : PredicateAst) : P p :=
  let go := fix go (l : list PredicateAst) : Forall P l :=
    match l with
    | [] => @List.Forall_nil _ P
    | x :: l' => @List.Forall_cons _ P x l' (PredicateAst_ind' x) (go l')
    end in
  match p with
  | ANot inner s => HNot inner s (PredicateAst_ind' inner)
  | AAnd items s => HAnd items s (go items)
  | AOr items s => HOr items s (go items)
  | leaf => HLeaf leaf I
  end.
End PredicateAst_ind'.

Inductive WhenAst :=
| WCatchAll (span : SourceSpan)
| WPredicates (preds : list PredicateAst) (span : SourceSpan).

Record AssignmentAst := mkAssignAst { aa_output : SymbolAst; aa_value : LiteralAst; aa_span : SourceSpan }.
Record RuleAst := mkRuleAst {
  ra_id : SymbolAst; ra_when : WhenAst; ra_then : list AssignmentAst; ra_span : SourceSpan }.

Inductive TypeRefAst :=
| TREnum (span : SourceSpan)
| TRBool (span : SourceSpan)
| TRInteger (span : SourceSpan)
| TRDecimal (span : SourceSpan)
| TRString (span : SourceSpan).

(** [InputDeclAst] and [OutputDeclAst] have the same fields and are read
    through the trait [AnyFieldDecl]. *)
Record FieldDeclAst := mkFieldDecl {
  decl_name : SymbolAst; decl_type_ref : TypeRefAst; decl_domain_ref : SymbolAst; decl_span : SourceSpan }.

Inductive HitPolicyAst := HPUnique (span : SourceSpan) | HPFirst (span : SourceSpan).

Record DecisionAst := mkDecisionAst {
  da_name : SymbolAst;
  da_decision_id : option StringLitAst;
  da_hit_policy : HitPolicyAst;
  da_inputs : list FieldDeclAst;
  da_outputs : list FieldDeclAst;
  da_rules : list RuleAst;
  da_span : SourceSpan;
}.

Record Source := mkSource { src_decisions : list DecisionAst; src_span : SourceSpan }.

(** ** The catalogue *)

Record DomainValue := mkDomainValue { dv_value_id : ValueId; dv_symbol : string }.
Record Domain := mkDomain {
  dom_id : DomainId;
  dom_name : string;
  dom_description : string;
  values_by_symbol : gmap string ValueId;
  dom_values : gmap ValueId DomainValue;
}.
(** [Domain::new]: the later of two equal keys wins. *)
Definition Domain_new (id : DomainId) (name description : string) (values : list DomainValue) : Domain :=
  mkDomain id name description
    (foldl (λ m v, <[dv_symbol v := dv_value_id v]> m) ∅ values)
    (foldl (λ m v, <[dv_value_id v := v]> m) ∅ values).
Definition resolve_value (d : Domain) (symbol : string) : option ValueId := values_by_symbol d !! symbol.

Record Catalogue := mkCatalogue {
  snapshot_id : N;
  snapshot_version : string;
  created_at : string;
  domains_by_name : gmap string DomainId;
  cat_domains : gmap DomainId Domain;
}.
(** [Catalogue::new]. *)
Definition Catalogue_new (id : N) (version created : string) (domains : list Domain) : Catalogue :=
  mkCatalogue id version created
    (foldl (λ m d, <[dom_name d := dom_id d]> m) ∅ domains)
    (foldl (λ m d, <[dom_id d := d]> m) ∅ domains).
Definition resolve_domain (c : Catalogue) (name : string) : option Domain :=
  id ← domains_by_name c !! name; cat_domains c !! id.
(** [catalogue.domains().find(|d| d.domain_id == id)], in some order of the
    map's values. *)
Definition find_domain_by_id (c : Catalogue) (id : DomainId) : option Domain :=
  snd <$> list_find (λ d, dom_id d = id) (map_to_list (cat_domains c)).*2.

(** ** Diagnostics *)

(** Without the wrapper for catalogue loading errors, which the lowering never
    builds. *)
Inductive CompileError :=
| UnknownDomain (name : string) (span : SourceSpan)
| UnknownDomainValue (domain symbol : string) (span : SourceSpan)
| MissingDomainOnEnum (field : string) (span : SourceSpan)
| UnknownInputField (name : string) (span : SourceSpan)
| UnknownOutputField (name : string) (span : SourceSpan)
| DuplicateInputField (name : string) (span previous : SourceSpan)
| DuplicateOutputField (name : string) (span previous : SourceSpan)
| DuplicateRuleId (name : string) (span previous : SourceSpan)
| PredicateTypeMismatch (field field_type literal_type : string) (span : SourceSpan)
| OrderedComparisonOnNonNumeric (field field_type op : string) (span : SourceSpan)
| RangeOnNonNumeric (field field_type : string) (span : SourceSpan)
| SetMemberTypeMismatch (field field_type element_type : string) (index : nat) (span : SourceSpan)
| AssignmentTypeMismatch (output output_type literal_type : string) (span : SourceSpan)
| MissingOutputAssignment (rule output : string) (span : SourceSpan)
| DuplicateOutputAssignment (rule output : string) (span previous : SourceSpan)
| MultipleCatchAllRules (span previous : SourceSpan)
| UnreachableAfterCatchAll (rule : string) (span catch_all : SourceSpan)
| EmptyInputs (span : SourceSpan)
| EmptyOutputs (span : SourceSpan).

Inductive CompileWarning :=
| DomainOnNonEnum (field type_name domain : string) (span : SourceSpan)
| EmptyRules (span : SourceSpan).

(** ** The monad *)

(** The vectors [errors] and [entities]. *)
Record Diag := mkDiag { dg_errors : list CompileError; dg_entities : list EntityRef }.

Inductive Outcome (A : Type) :=
| Got (a : A)
| Left
| Panicked.
Arguments Got {A} a.
Arguments Left {A}.
Arguments Panicked {A}.

Definition Low (A : Type) : Type := Diag -> Outcome A * Diag.
Global Instance Low_ret : MRet Low := λ A a s, (Got a, s).
Global Instance Low_bind : MBind Low := λ A B f m s,
  match m s with
  | (Got a, s') => f a s'
  | (Left, s') => (Left, s')
  | (Panicked, s') => (Panicked, s')
  end.

(** [errors.push(e)], and the same followed by [return None]. *)
Definition push_error (e : CompileError) : Low unit := λ s,
  (Got tt, mkDiag (dg_errors s ++ [e]) (dg_entities s)).
Definition fail_with {A} (e : CompileError) : Low A := λ s,
  (Left, mkDiag (dg_errors s ++ [e]) (dg_entities s)).
Definition push_entity (e : EntityRef) : Low unit := λ s,
  (Got tt, mkDiag (dg_errors s) (dg_entities s ++ [e])).
(** [o?]. *)
Definition try_some {A} (o : option A) : Low A := λ s,
  (match o with Some a => Got a | None => Left end, s).
(** [l[i]]: out of bounds is a panic. *)
Definition index {A} (l : list A) (i : nat) : Low A := λ s,
  (match l !! i with Some a => Got a | None => Panicked end, s).
Definition panic {A} : Low A := λ s, (Panicked, s).
(** [let x = f(..);] for an [Option] that is not propagated. *)
Definition attempt {A} (m : Low A) : Low (option A) := λ s,
  match m s with
  | (Got a, s') => (Got (Some a), s')
  | (Left, s') => (Got None, s')
  | (Panicked, s') => (Panicked, s')
  end.

(** [iter().filter_map(f).collect()]. *)
Section filter_map.
Context {A B : Type} (f : A -> Low B).
Fixpoint filter_map_low (l : list A) : Low (list B) :=
  match l with
  | [] => mret []
  | x :: l' =>
      o ← attempt (f x);
      rest ← filter_map_low l';
      mret (match o with Some y => y :: rest | None => rest end)
  end.
End filter_map.

(** ** Literals *)

Definition push_type_mismatch {A} (is_assignment : bool) (field field_type literal_type : string)
    (span : SourceSpan) : Low A :=
  fail_with (if is_assignment then AssignmentTypeMismatch field field_type literal_type span
             else PredicateTypeMismatch field field_type literal_type span).

Definition literal_type_name (l : LiteralAst) : string :=
  match l with
  | LSymbol _ => "symbol"
  | LString _ => "string"
  | LNumber n => match num_kind n with NKInteger => "integer" | NKDecimal => "decimal" end
  | LBoolean _ _ => "bool"
  end.

Definition parse_integer (text : string) (span : SourceSpan) : Low TypedValue :=
  match parse_i64 text with
  | Some v => mret (TVInteger v)
  | None => fail_with (PredicateTypeMismatch "" "integer" "overflow" span)
  end.
Definition parse_decimal (text : string) (span : SourceSpan) : Low TypedValue :=
  match parse_f64 text with
  | Some v => mret (TVDecimal v)
  | None => fail_with (PredicateTypeMismatch "" "decimal" "overflow" span)
  end.

Definition lower_number_for_type (n : NumberLitAst) (ftype : ResolvedType) : Low TypedValue :=
  match ftype with
  | RTInteger =>
      match num_kind n with
      | NKDecimal => fail_with (PredicateTypeMismatch "" "integer" "decimal" (num_span n))
      | NKInteger => parse_integer (num_text n) (num_span n)
      end
  | RTDecimal => parse_decimal (num_text n) (num_span n)
  | _ => panic
  end.

Section lower.
Context (catalogue : Catalogue).

Definition lower_literal_for_field_ctx (lit : LiteralAst) (ftype : ResolvedType) (field_name : string)
    (is_assignment : bool) : Low TypedValue :=
  match ftype, lit with
  | RTEnum domain_id, LSymbol sym =>
      domain ← try_some (find_domain_by_id catalogue domain_id);
      match resolve_value domain (sym_name sym) with
      | Some value_id =>
          _ ← push_entity (mkEntity domain_id value_id (sym_span sym));
          mret (TVEnum domain_id value_id)
      | None => fail_with (UnknownDomainValue (dom_name domain) (sym_name sym) (sym_span sym))
      end
  | RTEnum _, other =>
      push_type_mismatch is_assignment field_name "enum" (literal_type_name other) (literal_span lit)
  | RTBool, LBoolean value _ => mret (TVBool value)
  | RTBool, other =>
      push_type_mismatch is_assignment field_name "bool" (literal_type_name other) (literal_span lit)
  | RTInteger, LNumber n =>
      match num_kind n with
      | NKInteger => parse_integer (num_text n) (num_span n)
      | NKDecimal => push_type_mismatch is_assignment field_name "integer" "decimal" (num_span n)
      end
  | RTInteger, other =>
      push_type_mismatch is_assignment field_name "integer" (literal_type_name other) (literal_span lit)
  | RTDecimal, LNumber n => parse_decimal (num_text n) (num_span n)
  | RTDecimal, other =>
      push_type_mismatch is_assignment field_name "decimal" (literal_type_name other) (literal_span lit)
  | RTStr, LString s => mret (TVStr (str_value s))
  | RTStr, other =>
      push_type_mismatch is_assignment field_name "string" (literal_type_name other) (literal_span lit)
  end.
Definition lower_literal_for_field (lit : LiteralAst) (ftype : ResolvedType) (field_name : string)
  : Low TypedValue := lower_literal_for_field_ctx lit ftype field_name false.
Definition lower_literal_for_assignment (lit : LiteralAst) (ftype : ResolvedType) (field_name : string)
  : Low TypedValue := lower_literal_for_field_ctx lit ftype field_name true.

(** ** The [:when] clause *)

Section when.
Context (input_schema : list FieldSchema) (input_map : gmap string FieldId).

Definition resolve_input_field (sym : SymbolAst) : Low (FieldId * ResolvedType) :=
  match input_map !! sym_name sym with
  | Some fid => field ← index input_schema fid; mret (fid, field_type field)
  | None => fail_with (UnknownInputField (sym_name sym) (sym_span sym))
  end.

Definition op_as_str (op : ComparisonOp) : string :=
  match op with
  | OpEq => "=" | OpNotEq => "!=" | OpLt => "<" | OpLe => "<=" | OpGt => ">" | OpGe => ">="
  end.

Definition lower_comparison_pred (field : SymbolAst) (op : ComparisonOp) (value : NumberLitAst)
    (span : SourceSpan) : Low TypedPredicate :=
  '(fid, ftype) ← resolve_input_field field;
  if negb (is_numeric ftype)
  then fail_with (OrderedComparisonOnNonNumeric (sym_name field) (type_name ftype) (op_as_str op) span)
  else tv ← lower_number_for_type value ftype; mret (PComparison fid op tv span).

Definition lower_range_bound (bound : RangeBound) (ftype : ResolvedType) : Low TypedValue :=
  match bound with
  | Unbounded _ => try_some None
  | BoundValue n => lower_number_for_type n ftype
  end.

Definition type_name_of (v : TypedValue) : string :=
  match v with
  | TVEnum _ _ => "enum" | TVBool _ => "bool" | TVInteger _ => "integer"
  | TVDecimal _ => "decimal" | TVStr _ => "string" | TVNull => "null"
  end.

(** The loop over the members of a set. *)
Fixpoint lower_set (field : SymbolAst) (ftype : ResolvedType) (values : list LiteralAst) (i : nat)
    (typed_values : list TypedValue) : Low (list TypedValue) :=
  match values with
  | [] => mret typed_values
  | v :: values' =>
      tv ← attempt (lower_literal_for_field v ftype (sym_name field));
      match tv with
      | None => lower_set field ftype values' (S i) typed_values
      | Some tv =>
          _ ← (match tv with
               | TVEnum d x => push_entity (mkEntity d x (literal_span v))
               | _ => mret tt
               end);
          _ ← (match head typed_values with
               | Some first =>
                   if bool_decide (type_name_of first = type_name_of tv) then mret tt
                   else push_error (SetMemberTypeMismatch (sym_name field) (type_name ftype)
                                      (type_name_of tv) i (literal_span v))
               | None => mret tt
               end);
          lower_set field ftype values' (S i) (typed_values ++ [tv])
      end
  end.

Definition lower_equality (field : SymbolAst) (op : ComparisonOp) (value : LiteralAst) (span : SourceSpan)
  : Low TypedPredicate :=
  '(fid, ftype) ← resolve_input_field field;
  tv ← lower_literal_for_field value ftype (sym_name field);
  mret (PComparison fid op tv span).

Definition lower_range (field : SymbolAst) (lower upper : RangeBound) (li ui : bool) (span : SourceSpan)
  : Low TypedPredicate :=
  '(fid, ftype) ← resolve_input_field field;
  if negb (is_numeric ftype)
  then fail_with (RangeOnNonNumeric (sym_name field) (type_name ftype) span)
  else
    lower_tv ← attempt (lower_range_bound lower ftype);
    upper_tv ← attempt (lower_range_bound upper ftype);
    mret (PRange fid lower_tv upper_tv li ui span).

Fixpoint lower_predicate (pred : PredicateAst) : Low TypedPredicate :=
  match pred with
  | AEq field value span => lower_equality field OpEq value span
  | ANotEq field value span => lower_equality field OpNotEq value span
  | ALt field value span => lower_comparison_pred field OpLt value span
  | ALe field value span => lower_comparison_pred field OpLe value span
  | AGt field value span => lower_comparison_pred field OpGt value span
  | AGe field value span => lower_comparison_pred field OpGe value span
  | AInSet field values span =>
      '(fid, ftype) ← resolve_input_field field;
      typed_values ← lower_set field ftype values 0 [];
      mret (PInSet fid typed_values span)
  | ARange field lower upper li ui span => lower_range field lower upper li ui span
  | AIsNull field span => '(fid, _) ← resolve_input_field field; mret (PIsNull fid span)
  | AIsNotNull field span => '(fid, _) ← resolve_input_field field; mret (PIsNotNull fid span)
  | ANot inner span => inner ← lower_predicate inner; mret (PNot inner span)
  | AAnd items span => items ← filter_map_low lower_predicate items; mret (PAnd items span)
  | AOr items span => items ← filter_map_low lower_predicate items; mret (POr items span)
  end.

Definition lower_when (w : WhenAst) : Low TypedWhen :=
  match w with
  | WCatchAll span => mret (CatchAll span)
  | WPredicates preds span => typed ← filter_map_low lower_predicate preds; mret (Predicates typed span)
  end.
End when.

(** ** The [:then] clause *)

Section then_.
Context (output_schema : list FieldSchema) (output_map : gmap string FieldId) (rule_name : string).

(** The loop over the assignments; [assigned] maps a field to the span of its
    assignment. *)
Fixpoint lower_assignments (l : list AssignmentAst) (typed : list TypedAssignment)
    (assigned : gmap FieldId SourceSpan) : Low (list TypedAssignment * gmap FieldId SourceSpan) :=
  match l with
  | [] => mret (typed, assigned)
  | a :: l' =>
      match output_map !! sym_name (aa_output a) with
      | None =>
          _ ← push_error (UnknownOutputField (sym_name (aa_output a)) (sym_span (aa_output a)));
          lower_assignments l' typed assigned
      | Some fid =>
          field ← index output_schema fid;
          match assigned !! fid with
          | Some prev =>
              _ ← push_error (DuplicateOutputAssignment rule_name (sym_name (aa_output a)) (aa_span a) prev);
              lower_assignments l' typed assigned
          | None =>
              tv ← attempt (lower_literal_for_assignment (aa_value a) (field_type field)
                              (sym_name (aa_output a)));
              lower_assignments l'
                (match tv with Some tv => typed ++ [mkAssignment fid tv (aa_span a)] | None => typed end)
                (<[fid := aa_span a]> assigned)
          end
      end
  end.

(** The completeness loop: every declared output is assigned. *)
Fixpoint check_complete (assignments : list AssignmentAst) (assigned : gmap FieldId SourceSpan)
    (fields : list FieldSchema) : Low unit :=
  match fields with
  | [] => mret tt
  | field :: fields' =>
      _ ← (match assigned !! field_id field with
           | Some _ => mret tt
           | None =>
               push_error (MissingOutputAssignment rule_name (field_name field)
                 (match last assignments with Some a => aa_span a | None => mkSpan 0 0 end))
           end);
      check_complete assignments assigned fields'
  end.

Definition lower_then (assignments : list AssignmentAst) : Low (list TypedAssignment) :=
  '(typed, assigned) ← lower_assignments assignments [] ∅;
  _ ← check_complete assignments assigned output_schema;
  mret typed.
End then_.
End lower.

(** ** Schemas *)

(** [errors] and [warnings] of the pre-flight; the result is [None] when a
    declaration is rejected. *)
Definition domain_warning (name : SymbolAst) (type_name : string) (domain_ref : SymbolAst) : CompileWarning :=
  DomainOnNonEnum (sym_name name) type_name (sym_name domain_ref) (sym_span domain_ref).

Definition resolve_field_type (catalogue : Catalogue) (name : SymbolAst) (type_ref : TypeRefAst)
    (domain_ref : SymbolAst) : Result CompileError (ResolvedType * list CompileWarning) :=
  domain ← ok_or (UnknownDomain (sym_name domain_ref) (sym_span domain_ref))
             (resolve_domain catalogue (sym_name domain_ref));
  Ok (match type_ref with
      | TREnum _ => (RTEnum (dom_id domain), [])
      | TRBool _ => (RTBool, [domain_warning name "bool" domain_ref])
      | TRInteger _ => (RTInteger, [domain_warning name "integer" domain_ref])
      | TRDecimal _ => (RTDecimal, [domain_warning name "decimal" domain_ref])
      | TRString _ => (RTStr, [domain_warning name "string" domain_ref])
      end).

(** The state of the loop of [resolve_field_schema]. *)
Record SchemaLoop := mkSchemaLoop {
  sl_schema : list FieldSchema;
  sl_name_map : gmap string FieldId;
  sl_name_seen : gmap string SourceSpan;
  sl_had_fatal : bool;
  sl_errors : list CompileError;
  sl_warnings : list CompileWarning;
}.

Definition resolve_decl (is_input : bool) (catalogue : Catalogue) (st : SchemaLoop) (idx : nat)
    (decl : FieldDeclAst) : SchemaLoop :=
  let name := decl_name decl in
  match sl_name_seen st !! sym_name name with
  | Some prev =>
      mkSchemaLoop (sl_schema st) (sl_name_map st) (sl_name_seen st) true
        (sl_errors st ++ [if is_input then DuplicateInputField (sym_name name) (sym_span name) prev
                          else DuplicateOutputField (sym_name name) (sym_span name) prev])
        (sl_warnings st)
  | None =>
      let seen := <[sym_name name := sym_span name]> (sl_name_seen st) in
      match resolve_field_type catalogue name (decl_type_ref decl) (decl_domain_ref decl) with
      | Err e =>
          mkSchemaLoop (sl_schema st) (sl_name_map st) seen true (sl_errors st ++ [e]) (sl_warnings st)
      | Ok (ftype, ws) =>
          mkSchemaLoop (sl_schema st ++ [mkField idx (sym_name name) ftype (decl_span decl)])
            (<[sym_name name := idx]> (sl_name_map st)) seen (sl_had_fatal st) (sl_errors st)
            (sl_warnings st ++ ws)
      end
  end.

(** [for (idx, decl) in decls.iter().enumerate()]. *)
Fixpoint resolve_decls (is_input : bool) (catalogue : Catalogue) (decls : list FieldDeclAst) (idx : nat)
    (st : SchemaLoop) : SchemaLoop :=
  match decls with
  | [] => st
  | d :: decls' => resolve_decls is_input catalogue decls' (S idx) (resolve_decl is_input catalogue st idx d)
  end.

(** [resolve_field_schema]: schema and name map, or [None]; then the errors and
    the warnings, appended to those passed in. *)
Definition resolve_field_schema (is_input : bool) (catalogue : Catalogue) (decls : list FieldDeclAst)
    (errors : list CompileError) (warnings : list CompileWarning)
  : option (list FieldSchema * gmap string FieldId) * list CompileError * list CompileWarning :=
  let st := resolve_decls is_input catalogue decls 0 (mkSchemaLoop [] ∅ ∅ false errors warnings) in
  (if sl_had_fatal st then None else Some (sl_schema st, sl_name_map st), sl_errors st, sl_warnings st).

(** ** [lower] *)

Record LowerResult := mkLower {
  lr_decision : option TypedDecision;
  lr_errors : list CompileError;
  lr_warnings : list CompileWarning;
}.

(** The pass over the rule names. *)
Fixpoint duplicate_rule_ids (rules : list RuleAst) (seen : gmap string SourceSpan) : Low unit :=
  match rules with
  | [] => mret tt
  | r :: rules' =>
      match seen !! sym_name (ra_id r) with
      | Some prev =>
          _ ← push_error (DuplicateRuleId (sym_name (ra_id r)) (sym_span (ra_id r)) prev);
          duplicate_rule_ids rules' seen
      | None => duplicate_rule_ids rules' (<[sym_name (ra_id r) := sym_span (ra_id r)]> seen)
      end
  end.

(** Catch-all tracking: the checks of one rule, and the new [catch_all_span]. *)
Definition track_catch_all (policy : HitPolicy) (rule : RuleAst) (catch_all : option SourceSpan)
  : Low (option SourceSpan) :=
  match ra_when rule, catch_all with
  | WCatchAll s, Some prev => _ ← push_error (MultipleCatchAllRules s prev); mret catch_all
  | WCatchAll s, None => mret (Some s)
  | WPredicates _ _, Some ca =>
      match policy with
      | First =>
          _ ← push_error (UnreachableAfterCatchAll (sym_name (ra_id rule)) (ra_span rule) ca);
          mret catch_all
      | Unique => mret catch_all
      end
  | WPredicates _ _, None => mret catch_all
  end.

Section rules.
Context (catalogue : Catalogue) (policy : HitPolicy).
Context (input_schema output_schema : list FieldSchema) (input_map output_map : gmap string FieldId).

(** The loop over the rules. *)
Fixpoint lower_rules (rules : list RuleAst) (rule_idx : nat) (catch_all : option SourceSpan)
  : Low (list TypedRule) :=
  match rules with
  | [] => mret []
  | rule :: rules' =>
      catch_all ← track_catch_all policy rule catch_all;
      typed_when ← lower_when catalogue input_schema input_map (ra_when rule);
      typed_then ← lower_then catalogue output_schema output_map (sym_name (ra_id rule)) (ra_then rule);
      rest ← lower_rules rules' (S rule_idx) catch_all;
      mret (mkRule rule_idx (sym_name (ra_id rule)) typed_when typed_then (ra_span rule) :: rest)
  end.
End rules.

Definition empty_error (b : bool) (e : CompileError) : list CompileError := if b then [e] else [].
Definition is_empty {A} (l : list A) : bool := match l with [] => true | _ => false end.

(** [lower].  [None] is a panic. *)
Definition lower (ast : DecisionAst) (catalogue : Catalogue) : option LowerResult :=
  let '(inputs, errors, warnings) := resolve_field_schema true catalogue (da_inputs ast) [] [] in
  match inputs with
  | None => Some (mkLower None errors warnings)
  | Some (input_schema, input_map) =>
      let '(outputs, errors, warnings) := resolve_field_schema false catalogue (da_outputs ast) errors warnings in
      match outputs with
      | None => Some (mkLower None errors warnings)
      | Some (output_schema, output_map) =>
          if negb (is_empty errors) then Some (mkLower None errors warnings) else
          let errors := errors ++ empty_error (is_empty (da_inputs ast)) (EmptyInputs (da_span ast))
                          ++ empty_error (is_empty (da_outputs ast)) (EmptyOutputs (da_span ast)) in
          if negb (is_empty errors) then Some (mkLower None errors warnings) else
          let warnings := warnings ++ (if is_empty (da_rules ast) then [EmptyRules (da_span ast)] else []) in
          let policy := match da_hit_policy ast with HPUnique _ => Unique | HPFirst _ => First end in
          match (_ ← duplicate_rule_ids (da_rules ast) ∅;
                 lower_rules catalogue policy input_schema output_schema input_map output_map
                   (da_rules ast) 0 None) (mkDiag errors []) with
          | (Got typed_rules, diag) =>
              let decision_id := match da_decision_id ast with
                                 | Some s => str_value s | None => sym_name (da_name ast) end in
              Some (mkLower (Some (mkDecision decision_id (sym_name (da_name ast)) policy input_schema
                                     output_schema typed_rules (dg_entities diag) (da_span ast)))
                      (dg_errors diag) warnings)
          | _ => None
          end
      end
  end.

(** ** The entry points of [lib.rs] *)

Record CompileErrors := mkCompileErrors {
  ce_errors : list CompileError;
  ce_warnings : list CompileWarning;
  partial_decision : option TypedDecision;
}.

Definition lower_to_ir_with_warnings (source : Source) (catalogue : Catalogue) : option CompileErrors :=
  match src_decisions source with
  | [] => Some (mkCompileErrors [EmptyInputs (src_span source)] [] None)
  | ast :: _ =>
      r ← lower ast catalogue;
      Some (mkCompileErrors (lr_errors r) (lr_warnings r) (lr_decision r))
  end.

Inductive CompileAndVerifyError :=
| CompileFailed (e : CompileErrors)
| VerifyFailed (e : VerifierError).

Section compile.
Context {P : Platform}.

(** [compile].  [None] is a panic: of the lowering, of the [expect], or of the
    emitter's assertions. *)
Definition compile (source : Source) (catalogue : Catalogue) (source_text : string)
  : option (Result CompileErrors CompiledDecision) :=
  errs ← lower_to_ir_with_warnings source catalogue;
  if negb (is_empty (ce_errors errs)) then Some (Err errs)
  else typed ← partial_decision errs; compiled ← emit typed source_text; Some (Ok compiled).

Definition compile_and_verify (source : Source) (catalogue : Catalogue) (source_text : string)
  : option (Result CompileAndVerifyError CompiledDecision) :=
  r ← compile source catalogue source_text;
  Some (compiled ← map_err CompileFailed r; map_err VerifyFailed (verify compiled)).
End compile.
