(* ===== verification/DmnLexer.v ===== *)
(** * dmn-lite: the lexer

    [dmn-lite-parser/src/lexer.rs].  The source is a byte string; the lexer is
    the bytes from its position on, the position, and the tokens and errors so
    far.  Slicing the source inside a character is a panic, [None]. *)

From Stdlib Require Import Strings.Ascii.
From S2P Require Import Prelude RustStr Json Types DmnTypes DmnLower.

Inductive TokenKind :=
| TLParen | TRParen | TLBracket | TRBracket | TDotDot
| TEq | TNotEq | TLt | TLe | TGt | TGe | TStar
| TSymbol (s : string)
| TStrLit (s : string)
| TIntLit (s : string)
| TDecLit (s : string)
| TEof.

(** [TokenKind::description]. *)
Definition description (k : TokenKind) : string :=
  match k with
  | TLParen => "'('" | TRParen => "')'" | TLBracket => "'['" | TRBracket => "']'" | TDotDot => "'..'"
  | TEq => "'='" | TNotEq => "'!='" | TLt => "'<'" | TLe => "'<='" | TGt => "'>'" | TGe => "'>='"
  | TStar => "'*'"
  | TSymbol s => "'" +:+ s +:+ "'"
  | TStrLit _ => "string literal"
  | TIntLit s => "integer '" +:+ s +:+ "'"
  | TDecLit s => "decimal '" +:+ s +:+ "'"
  | TEof => "end of input"
  end.

Record Token := mkToken { tok_kind : TokenKind; tok_span : SourceSpan }.

(** A character is its scalar value. *)
Inductive ParseError :=
| UnexpectedChar (ch : N) (span : SourceSpan)
| UnexpectedEofToken (expected : string) (span : SourceSpan)
| UnexpectedToken (expected found : string) (span : SourceSpan)
| MalformedString (reason : string) (span : SourceSpan)
| MalformedNumber (text : string) (span : SourceSpan)
| UnknownHitPolicy (name : string) (span : SourceSpan)
| UnsupportedHitPolicy (name : string) (span : SourceSpan)
| DuplicateField (keyword : string) (span : SourceSpan)
| MissingField (keyword : string) (span : SourceSpan)
| EmptySet (span : SourceSpan)
| TooFewPredicates (combinator : string) (span : SourceSpan)
| WildcardMixedWithPredicates (span : SourceSpan)
| ParseMultipleCatchAllRules (span previous : SourceSpan)
| UnsupportedConstruct (name profile : string) (span : SourceSpan)
| MultipleDecisions (span first_decision : SourceSpan).

(** ** Character classes *)

Definition byte_in (lo hi : N) (b : Byte.byte) : bool := ((lo <=? Byte.to_N b) && (Byte.to_N b <=? hi))%N.
Definition is_digit : Byte.byte -> bool := byte_in 48 57.
Definition is_alpha (b : Byte.byte) : bool := byte_in 65 90 b || byte_in 97 122 b.
(** [is_symbol_start] and [is_symbol_continue]. *)
Definition is_symbol_start (b : Byte.byte) : bool := is_alpha b || Byte.eqb b Byte.x5f.
Definition is_symbol_continue (b : Byte.byte) : bool :=
  is_alpha b || is_digit b || Byte.eqb b Byte.x2d || Byte.eqb b Byte.x5f || Byte.eqb b Byte.x2e.

(** ** The lexer *)

Record Lexer := mkLexer {
  lx_rest : list Byte.byte;
  lx_pos : N;
  lx_tokens : list Token;
  lx_errors : list ParseError;
}.

(** [n as u32] for a position. *)
Definition pos_u32 (n : N) : N := (n mod 4294967296)%N.
Definition span_from (start stop : N) : SourceSpan := mkSpan (pos_u32 start) (pos_u32 stop).

(** Moving on by the bytes [used], to [rest]. *)
Definition advance (used rest : list Byte.byte) (x : Lexer) : Lexer :=
  mkLexer rest (lx_pos x + len used) (lx_tokens x) (lx_errors x).
(** [push]: a token from [start] to the position reached. *)
Definition lex_push (k : TokenKind) (start : N) (x : Lexer) : Lexer :=
  mkLexer (lx_rest x) (lx_pos x) (lx_tokens x ++ [mkToken k (span_from start (lx_pos x))]) (lx_errors x).
Definition lex_error (e : ParseError) (x : Lexer) : Lexer :=
  mkLexer (lx_rest x) (lx_pos x) (lx_tokens x) (lx_errors x ++ [e]).

(** [skip_whitespace_and_comments]: the bytes skipped and the rest. *)
Fixpoint skip_ws (in_comment : bool) (l skipped : list Byte.byte) : list Byte.byte * list Byte.byte :=
  match l with
  | [] => (skipped, [])
  | b :: l' =>
      if in_comment then skip_ws (negb (Byte.eqb b Byte.x0a)) l' (skipped ++ [b])
      else
        match b with
        | Byte.x20 | Byte.x09 | Byte.x0a | Byte.x0d => skip_ws false l' (skipped ++ [b])
        | Byte.x3b => skip_ws true l' (skipped ++ [b])
        | _ => (skipped, l)
        end
  end.

(** The bytes of a symbol after its first: [.] ends it before [..]. *)
Fixpoint take_symbol (l acc : list Byte.byte) : list Byte.byte * list Byte.byte :=
  match l with
  | [] => (acc, [])
  | b :: l' =>
      if is_symbol_continue b then
        match b, l' with
        | Byte.x2e, Byte.x2e :: _ => (acc, l)
        | _, _ => take_symbol l' (acc ++ [b])
        end
      else (acc, l)
  end.

Fixpoint take_digits (l acc : list Byte.byte) : list Byte.byte * list Byte.byte :=
  match l with
  | [] => (acc, [])
  | b :: l' => if is_digit b then take_digits l' (acc ++ [b]) else (acc, l)
  end.

Definition text_of (l : list Byte.byte) : string := String.string_of_list_byte l.

(** [lex_symbol]: [b] is the first byte. *)
Definition lex_symbol (b : Byte.byte) (l : list Byte.byte) (x : Lexer) : Lexer :=
  let '(used, rest) := take_symbol l [b] in
  lex_push (TSymbol (text_of used)) (lx_pos x) (advance used rest x).

(** [lex_number]: [sign] is the minus already seen, if any. *)
Definition lex_number (sign : list Byte.byte) (l : list Byte.byte) (x : Lexer) : Lexer :=
  let '(int, rest) := take_digits l sign in
  let '(used, rest, is_decimal) :=
    match rest with
    | Byte.x2e :: (d :: _) as rest' =>
        if is_digit d then let '(used, rest) := take_digits rest' (int ++ [Byte.x2e]) in (used, rest, true)
        else (int, rest, false)
    | _ => (int, rest, false)
    end in
  lex_push (if is_decimal : bool then TDecLit (text_of used) else TIntLit (text_of used)) (lx_pos x)
    (advance used rest x).

(** [esc as char], printed: a byte above 127 is a two-byte character. *)
Definition as_char (b : Byte.byte) : string :=
  let n := Byte.to_N b in
  if (n <? 128)%N then text_of [b]
  else String (ascii_of_N (192 + n / 64)) (String (ascii_of_N (128 + n mod 64)) "").

(** The loop of [lex_string] from position [pos] on: the value, the position
    reached, what is left, the errors, and whether the literal was closed. *)
Fixpoint string_loop (fuel : nat) (start pos : N) (l value : list Byte.byte) (errs : list ParseError)
  : option (list Byte.byte * N * list Byte.byte * list ParseError * bool) :=
  match fuel with
  | O => None
  | S fuel' =>
      match l with
      | [] =>
          Some (value, pos, [], errs ++ [MalformedString "unterminated string literal" (span_from start pos)], false)
      | Byte.x22 :: l' => Some (value, (pos + 1)%N, l', errs, true)
      | Byte.x5c :: l' =>
          match l' with
          | Byte.x22 :: l'' => string_loop fuel' start (pos + 2)%N l'' (value ++ [Byte.x22]) errs
          | Byte.x5c :: l'' => string_loop fuel' start (pos + 2)%N l'' (value ++ [Byte.x5c]) errs
          | esc :: l'' =>
              string_loop fuel' start (pos + 2)%N l'' value
                (errs ++ [MalformedString ("invalid escape sequence '\" +:+ as_char esc +:+ "'")
                            (span_from pos (pos + 2)%N)])
          | [] =>
              Some (value, (pos + 1)%N, [], errs ++ [MalformedString "unterminated escape sequence"
                                                   (span_from pos (pos + 1)%N)], false)
          end
      | b :: l' =>
          if (Byte.to_N b <? 128)%N then string_loop fuel' start (pos + 1)%N l' (value ++ [b]) errs
          else if is_cont b then None
          else '(_, bs, l'') ← utf8_next l; string_loop fuel' start (pos + len bs)%N l'' (value ++ bs) errs
      end
  end.

(** [lex_string], behind the opening quote. *)
Definition lex_string (l : list Byte.byte) (x : Lexer) : option Lexer :=
  let start := lx_pos x in
  '(value, pos, rest, errs, closed) ← string_loop (S (length l)) start (start + 1)%N l [] (lx_errors x);
  let x' := mkLexer rest pos (lx_tokens x) errs in
  Some (if closed : bool then lex_push (TStrLit (text_of value)) start x' else x').

(** One or two bytes that are a token. *)
Definition lex_simple (k : TokenKind) (used rest : list Byte.byte) (x : Lexer) : Lexer :=
  lex_push k (lx_pos x) (advance used rest x).
Definition lex_bad (ch : N) (used rest : list Byte.byte) (x : Lexer) : Lexer :=
  let x' := advance used rest x in
  lex_error (UnexpectedChar ch (span_from (lx_pos x) (lx_pos x'))) x'.

(** [lex_one]. *)
Definition lex_one (x : Lexer) : option Lexer :=
  match lx_rest x with
  | [] => Some x
  | b :: l =>
      match b with
      | Byte.x28 => Some (lex_simple TLParen [b] l x)
      | Byte.x29 => Some (lex_simple TRParen [b] l x)
      | Byte.x5b => Some (lex_simple TLBracket [b] l x)
      | Byte.x5d => Some (lex_simple TRBracket [b] l x)
      | Byte.x2a => Some (lex_simple TStar [b] l x)
      | Byte.x3d => Some (lex_simple TEq [b] l x)
      | Byte.x21 =>
          Some (match l with
                | Byte.x3d :: l' => lex_simple TNotEq [b; Byte.x3d] l' x
                | _ => lex_bad 33 [b] l x
                end)
      | Byte.x3c =>
          Some (match l with
                | Byte.x3d :: l' => lex_simple TLe [b; Byte.x3d] l' x
                | _ => lex_simple TLt [b] l x
                end)
      | Byte.x3e =>
          Some (match l with
                | Byte.x3d :: l' => lex_simple TGe [b; Byte.x3d] l' x
                | _ => lex_simple TGt [b] l x
                end)
      | Byte.x2e =>
          Some (match l with
                | Byte.x2e :: l' => lex_simple TDotDot [b; Byte.x2e] l' x
                | _ => lex_bad 46 [b] l x
                end)
      | Byte.x22 => lex_string l x
      | Byte.x2d =>
          Some (match l with
                | d :: _ => if is_digit d then lex_number [b] l x else lex_bad 45 [b] l x
                | [] => lex_bad 45 [b] l x
                end)
      | Byte.x3a => Some (lex_symbol b l x)
      | _ =>
          if is_digit b then Some (lex_number [] (b :: l) x)
          else if is_symbol_start b then Some (lex_symbol b l x)
          else if is_cont b then None
          else '(ch, used, rest) ← utf8_next (b :: l); Some (lex_bad ch used rest x)
      end
  end.

(** The loop of [run]; every turn consumes a byte. *)
Fixpoint lex_run (fuel : nat) (x : Lexer) : option Lexer :=
  match lx_rest x with
  | [] => Some x
  | _ =>
      let '(skipped, rest) := skip_ws false (lx_rest x) [] in
      let x := advance skipped rest x in
      match rest, fuel with
      | [], _ => Some x
      | _, O => None
      | _, S fuel' => x ← lex_one x; lex_run fuel' x
      end
  end.

(** [lex]. *)
Definition lex (source : string) : option (list Token * list ParseError) :=
  let l := as_bytes source in
  x ← lex_run (length l) (mkLexer l 0 [] []);
  Some (lx_tokens x ++ [mkToken TEof (span_from (lx_pos x) (lx_pos x))], lx_errors x).

Definition kinds (source : string) : option (list TokenKind) :=
  '(ts, _) ← lex source; Some (map tok_kind ts).

Example lex_range : kinds "(a.b in [-1 .. 2.5)) ; done" =
  Some [TLParen; TSymbol "a.b"; TSymbol "in"; TLBracket; TIntLit "-1"; TDotDot; TDecLit "2.5"; TRParen; TRParen; TEof].
Proof. vm_compute. reflexivity. Qed.
