(* ===== verification/DmnParser.v ===== *)
(** * dmn-lite: the parser

    [dmn-lite-parser/src/parser.rs] and [parse] of [lib.rs].  The parser keeps
    the tokens from its position on; the last one is [Eof] and never consumed.
    A [parse_*] function yields a value, leaves with [None] (its errors stay
    pushed), or, in this model only, runs out of fuel. *)

From Stdlib Require Import Strings.Ascii.
From S2P Require Import Prelude RustStr Json Types DmnTypes DmnLower DmnLexer.

Record Parser := mkParser { ps_rest : list Token; ps_errors : list ParseError }.

Inductive Parsed (A : Type) :=
| PSome (a : A)
| PNone
| PFuel.
Arguments PSome {A} a.
Arguments PNone {A}.
Arguments PFuel {A}.

Definition Parse (A : Type) : Type := Parser -> Parsed A * Parser.
Global Instance Parse_ret : MRet Parse := λ A a s, (PSome a, s).
Global Instance Parse_bind : MBind Parse := λ A B f m s,
  match m s with
  | (PSome a, s') => f a s'
  | (PNone, s') => (PNone, s')
  | (PFuel, s') => (PFuel, s')
  end.

(** ** Tokens *)

Definition peek (s : Parser) : Token :=
  match ps_rest s with t :: _ => t | [] => mkToken TEof (mkSpan 0 0) end.
Definition peek_kind (s : Parser) : TokenKind := tok_kind (peek s).

(** [bump]: the last token stays. *)
Definition bumped (s : Parser) : Parser :=
  match ps_rest s with
  | _ :: (_ :: _) as rest => mkParser rest (ps_errors s)
  | _ => s
  end.
Definition bump : Parse Token := λ s, (PSome (peek s), bumped s).

Definition perror (e : ParseError) : Parse unit := λ s, (PSome tt, mkParser (ps_rest s) (ps_errors s ++ [e])).
(** [self.errors.push(e); return None]. *)
Definition pfail {A} (e : ParseError) : Parse A := λ s, (PNone, mkParser (ps_rest s) (ps_errors s ++ [e])).
Definition pnone {A} : Parse A := λ s, (PNone, s).
(** [if let Some(x) = f(..)]. *)
Definition pattempt {A} (m : Parse A) : Parse (option A) := λ s,
  match m s with
  | (PSome a, s') => (PSome (Some a), s')
  | (PNone, s') => (PSome None, s')
  | (PFuel, s') => (PFuel, s')
  end.
Definition pget {A} (f : Parser -> A) : Parse A := λ s, (PSome (f s), s).

(** The error every [expect_*] pushes, at the current token. *)
Definition unexpected {A} (expected : string) : Parse A := λ s,
  pfail (UnexpectedToken expected (description (peek_kind s)) (tok_span (peek s))) s.

Definition is_symbol (name : string) (k : TokenKind) : bool :=
  match k with TSymbol n => bool_decide (n = name) | _ => false end.
Definition peek_symbol_is (name : string) : Parse bool := pget (λ s, is_symbol name (peek_kind s)).

Definition expect_lparen (context : string) : Parse Token := λ s,
  match peek_kind s with TLParen => bump s | _ => unexpected ("'(' for " +:+ context) s end.
Definition expect_rparen (context : string) : Parse Token := λ s,
  match peek_kind s with TRParen => bump s | _ => unexpected ("')' for " +:+ context) s end.
Definition expect_dotdot : Parse Token := λ s,
  match peek_kind s with TDotDot => bump s | _ => unexpected "'..' range separator" s end.
Definition expect_symbol (context : string) : Parse SymbolAst := λ s,
  match peek_kind s with
  | TSymbol name => (t ← bump; mret (mkSymbol name (tok_span t))) s
  | _ => unexpected ("symbol (" +:+ context +:+ ")") s
  end.
Definition expect_symbol_named (name : string) : Parse Token := λ s,
  if is_symbol name (peek_kind s) then bump s
  else match peek_kind s with
       | TEof => pfail (UnexpectedEofToken ("'" +:+ name +:+ "'") (tok_span (peek s))) s
       | _ => unexpected ("'" +:+ name +:+ "'") s
       end.

(** ** Recovery *)

(** [recover_to_paren_close(depth)], on the tokens: skip until [depth]
    unmatched closing parentheses are consumed; [Eof] stays. *)
Fixpoint skip_to_close (depth : nat) (l : list Token) : list Token :=
  match l with
  | t :: (_ :: _) as l' =>
      match tok_kind t with
      | TEof => l
      | TLParen => skip_to_close (S depth) l'
      | TRParen => match depth with 0%nat | 1%nat => l' | S d => skip_to_close d l' end
      | _ => skip_to_close depth l'
      end
  | _ => l
  end.
Definition recover_to_paren_close (depth : nat) : Parse unit := λ s,
  (PSome tt, mkParser (skip_to_close depth (ps_rest s)) (ps_errors s)).

(** Skips tokens until one satisfies [stop]; the last one stays. *)
Fixpoint skip_until (stop : TokenKind -> bool) (l : list Token) : list Token :=
  match l with
  | t :: (_ :: _) as l' => if stop (tok_kind t) then l else skip_until stop l'
  | _ => l
  end.
Definition is_paren_or_eof (k : TokenKind) : bool :=
  match k with TLParen | TRParen | TEof => true | _ => false end.
Definition recover_past_current_paren_close : Parse unit := λ s,
  match peek_kind s with
  | TLParen => recover_to_paren_close 1 s
  | _ => (PSome tt, mkParser (skip_until is_paren_or_eof (ps_rest s)) (ps_errors s))
  end.

Definition is_keyword (n : string) : bool := match n with String c _ => Ascii.eqb c ":"%char | _ => false end.
Definition recover_to_keyword_or_rparen : Parse unit := λ s,
  (PSome tt, mkParser (skip_until (λ k, match k with TEof | TRParen => true | TSymbol n => is_keyword n | _ => false end)
                         (ps_rest s)) (ps_errors s)).

(** ** Literals *)

Definition parse_literal : Parse LiteralAst := λ s,
  let span := tok_span (peek s) in
  match peek_kind s with
  | TSymbol name =>
      (_ ← bump;
       mret (if bool_decide (name = "true") then LBoolean true span
             else if bool_decide (name = "false") then LBoolean false span
             else LSymbol (mkSymbol name span))) s
  | TStrLit value => (_ ← bump; mret (LString (mkStringLit value span))) s
  | TIntLit text => (_ ← bump; mret (LNumber (mkNumberLit text NKInteger span))) s
  | TDecLit text => (_ ← bump; mret (LNumber (mkNumberLit text NKDecimal span))) s
  | _ => unexpected "literal (symbol, string, number, boolean)" s
  end.
Definition parse_numeric_literal : Parse NumberLitAst := λ s,
  let span := tok_span (peek s) in
  match peek_kind s with
  | TIntLit text => (_ ← bump; mret (mkNumberLit text NKInteger span)) s
  | TDecLit text => (_ ← bump; mret (mkNumberLit text NKDecimal span)) s
  | _ => unexpected "numeric literal" s
  end.
Definition parse_string_lit : Parse StringLitAst := λ s,
  match peek_kind s with
  | TStrLit value => (t ← bump; mret (mkStringLit value (tok_span t))) s
  | _ => unexpected "string literal" s
  end.

(** ** Field predicates *)

(** [SourceSpan::new(start, close.span.end)]. *)
Definition to_close (start : N) (close : Token) : SourceSpan := mkSpan start (span_end (tok_span close)).

Definition parse_range_bound : Parse RangeBound := λ s,
  match peek_kind s with
  | TStar => (t ← bump; mret (Unbounded (tok_span t))) s
  | _ => (n ← parse_numeric_literal; mret (BoundValue n)) s
  end.

Definition parse_range (start : N) (field : SymbolAst) : Parse PredicateAst :=
  k ← pget peek_kind;
  lower_inclusive ← (match k with
                     | TLBracket => _ ← bump; mret true
                     | TLParen => _ ← bump; mret false
                     | _ => unexpected "'[' or '(' for range"
                     end);
  lower ← parse_range_bound;
  _ ← expect_dotdot;
  upper ← parse_range_bound;
  k ← pget peek_kind;
  upper_inclusive ← (match k with
                     | TRBracket => _ ← bump; mret true
                     | TRParen => _ ← bump; mret false
                     | _ => unexpected "']' or ')' to close range"
                     end);
  close ← expect_rparen "')' to close range predicate";
  mret (ARange field lower upper lower_inclusive upper_inclusive (to_close start close)).

Definition at_close (k : TokenKind) : bool := match k with TRParen | TEof => true | _ => false end.

(** The loop over the values of a set; a literal that does not parse ends it. *)
Fixpoint parse_values (fuel : nat) (values : list LiteralAst) : Parse (list LiteralAst) := λ s,
  if at_close (peek_kind s) then (PSome values, s)
  else match fuel with
       | O => (PFuel, s)
       | S fuel' =>
           (lit ← pattempt parse_literal;
            match lit with
            | Some lit => parse_values fuel' (values ++ [lit])
            | None => mret values
            end) s
       end.

Definition parse_set_membership (fuel : nat) (start : N) (field : SymbolAst) : Parse PredicateAst :=
  inner_open ← expect_lparen "'(' for set values";
  k ← pget peek;
  match tok_kind k with
  | TRParen =>
      _ ← perror (EmptySet (mkSpan (span_start (tok_span inner_open)) (span_end (tok_span k))));
      _ ← bump;
      close ← expect_rparen "')' to close predicate";
      mret (AInSet field [] (to_close start close))
  | _ =>
      values ← parse_values fuel [];
      _ ← pattempt (expect_rparen "')' to close set values");
      close ← expect_rparen "')' to close predicate";
      mret (AInSet field values (to_close start close))
  end.

(** [peek_is_range_after_lparen]. *)
Definition peek_is_range (l : list Token) : bool :=
  match l with
  | _ :: t1 :: t2 :: _ =>
      match tok_kind t1 with
      | TIntLit _ | TDecLit _ | TStar => match tok_kind t2 with TDotDot => true | _ => false end
      | _ => false
      end
  | _ => false
  end.

Definition parse_set_or_range (fuel : nat) (start : N) (field : SymbolAst) : Parse PredicateAst :=
  t ← pget peek;
  rest ← pget ps_rest;
  match tok_kind t with
  | TLBracket => parse_range start field
  | TLParen => if peek_is_range rest then parse_range start field else parse_set_membership fuel start field
  | k =>
      _ ← perror (UnexpectedToken "'(' for set or '['/('(' for range" (description k) (tok_span t));
      _ ← recover_to_paren_close 1;
      pnone
  end.

(** The comparison operators and the constructors they select. *)
Definition comparison_op (k : TokenKind) : option (SymbolAst -> NumberLitAst -> SourceSpan -> PredicateAst) :=
  match k with
  | TLt => Some ALt | TLe => Some ALe | TGt => Some AGt | TGe => Some AGe
  | _ => None
  end.

(** The tests behind a field name, in the order of the source. *)
Definition parse_field_test (fuel : nat) (start : N) (field : SymbolAst) : Parse PredicateAst :=
  t ← pget peek;
  match tok_kind t with
  | TEq =>
      _ ← bump; value ← parse_literal; close ← expect_rparen "')' to close predicate";
      mret (AEq field value (to_close start close))
  | TNotEq =>
      _ ← bump; value ← parse_literal; close ← expect_rparen "')' to close predicate";
      mret (ANotEq field value (to_close start close))
  | k =>
      match comparison_op k with
      | Some make =>
          _ ← bump; value ← parse_numeric_literal; close ← expect_rparen "')' to close comparison";
          mret (make field value (to_close start close))
      | None =>
          if is_symbol "in" k then _ ← bump; parse_set_or_range fuel start field
          else if is_symbol "is-null" k then
            _ ← bump; close ← expect_rparen "')' to close 'is-null'"; mret (AIsNull field (to_close start close))
          else if is_symbol "is-not-null" k then
            _ ← bump; close ← expect_rparen "')' to close 'is-not-null'";
            mret (AIsNotNull field (to_close start close))
          else
            _ ← perror (UnexpectedToken "predicate operator (=, !=, <, <=, >, >=, in, is-null, is-not-null)"
                          (description k) (tok_span t));
            _ ← recover_to_paren_close 1;
            pnone
      end
  end.

(** ** Blocks *)

(** A loop up to the closing parenthesis of a block, or the end. *)
Fixpoint parse_loop {S} (step : S -> Parse S) (fuel : nat) (acc : S) : Parse S := λ s,
  if at_close (peek_kind s) then (PSome acc, s)
  else match fuel with
       | O => (PFuel, s)
       | Datatypes.S fuel' => (acc ← step acc; parse_loop step fuel' acc) s
       end.

(** A turn of it: an item, or recovery from one that does not parse. *)
Definition parse_item {A S} (item : Parse A) (recover : Parse unit) (keep : A -> S -> Parse S) (acc : S)
  : Parse S :=
  p ← pattempt item;
  match p with
  | Some p => keep p acc
  | None => _ ← recover; mret acc
  end.
Definition push_item {A} (p : A) (acc : list A) : Parse (list A) := mret (acc ++ [p]).
Definition parse_many {A} (item : Parse A) (fuel : nat) : Parse (list A) :=
  parse_loop (parse_item item recover_past_current_paren_close push_item) fuel [].

(** A block whose opening parenthesis may be missing: no items then. *)
Definition parse_block {A} (fuel : nat) (item : Parse A) (open close : string) : Parse (list A) :=
  o ← pattempt (expect_lparen open);
  match o with
  | None => mret []
  | Some _ =>
      items ← parse_many item fuel;
      _ ← pattempt (expect_rparen close);
      mret items
  end.

(** ** Predicates *)

Definition parse_combinator (item : Parse PredicateAst) (fuel : nat) (start : N) (combinator : string)
  : Parse PredicateAst :=
  items ← parse_many item fuel;
  t ← pget peek;
  _ ← (if (length items <? 2)%nat
       then perror (TooFewPredicates combinator (mkSpan start (span_end (tok_span t))))
       else mret tt);
  close ← expect_rparen ("')' to close '" +:+ combinator +:+ "'");
  mret (if bool_decide (combinator = "and") then AAnd items (to_close start close)
        else AOr items (to_close start close)).

Fixpoint parse_predicate (fuel : nat) : Parse PredicateAst :=
  match fuel with
  | O => λ s, (PFuel, s)
  | S fuel' =>
      open ← expect_lparen "'(' to open predicate";
      let start := span_start (tok_span open) in
      k ← pget peek_kind;
      if is_symbol "not" k then
        _ ← bump;
        inner ← parse_predicate fuel';
        close ← expect_rparen "')' to close 'not'";
        mret (ANot inner (to_close start close))
      else if is_symbol "and" k then _ ← bump; parse_combinator (parse_predicate fuel') fuel' start "and"
      else if is_symbol "or" k then _ ← bump; parse_combinator (parse_predicate fuel') fuel' start "or"
      else
        field ← pattempt (expect_symbol "field name in predicate");
        match field with
        | Some field => parse_field_test fuel' start field
        | None => _ ← recover_to_paren_close 1; pnone
        end
  end.

(** A turn of the loop of [parse_predicate_block]: a star among predicates is
    an error and skipped. *)
Definition parse_when_step (fuel : nat) (preds : list PredicateAst) : Parse (list PredicateAst) := λ s,
  match peek_kind s with
  | TStar => (_ ← perror (WildcardMixedWithPredicates (tok_span (peek s))); _ ← bump; mret preds) s
  | _ => parse_item (parse_predicate fuel) recover_past_current_paren_close push_item preds s
  end.

Definition parse_predicate_block (fuel : nat) : Parse WhenAst :=
  open ← expect_lparen "'(' for :when";
  let start := span_start (tok_span open) in
  t ← pget peek;
  match tok_kind t with
  | TStar =>
      _ ← bump;
      k ← pget peek_kind;
      match k with
      | TRParen =>
          close ← expect_rparen "')' to close catch-all :when";
          mret (WCatchAll (to_close start close))
      | _ =>
          _ ← perror (WildcardMixedWithPredicates (tok_span t));
          _ ← recover_to_paren_close 1;
          pnone
      end
  | _ =>
      preds ← parse_loop (parse_when_step fuel) fuel [];
      close ← expect_rparen "')' to close :when block";
      mret (WPredicates preds (to_close start close))
  end.

(** ** Assignments *)

Definition parse_assignment : Parse AssignmentAst :=
  open ← expect_lparen "'(' to open assignment";
  let start := span_start (tok_span open) in
  output ← expect_symbol "output field name";
  t ← pget peek;
  match tok_kind t with
  | TEq =>
      _ ← bump;
      value ← parse_literal;
      close ← expect_rparen "')' to close assignment";
      mret (mkAssignAst output value (to_close start close))
  | k =>
      _ ← perror (UnexpectedToken "'=' in assignment" (description k) (tok_span t));
      _ ← recover_to_paren_close 1;
      pnone
  end.
Definition parse_assignment_block (fuel : nat) : Parse (list AssignmentAst) :=
  parse_block fuel parse_assignment "'(' for :then" "')' to close :then".

(** ** Rules *)

Definition parse_rule (fuel : nat) : Parse RuleAst :=
  open ← expect_lparen "'(' to open rule";
  _ ← expect_symbol_named "rule";
  id ← expect_symbol "rule identifier";
  _ ← expect_symbol_named ":when";
  w ← parse_predicate_block fuel;
  _ ← expect_symbol_named ":then";
  t ← parse_assignment_block fuel;
  close ← expect_rparen "')' to close rule";
  mret (mkRuleAst id w t (to_close (span_start (tok_span open)) close)).

(** The inner loop after a rule that does not parse. *)
Definition recover_rule : Parse unit := λ s,
  let s' := mkParser (skip_until is_paren_or_eof (ps_rest s)) (ps_errors s) in
  match peek_kind s' with
  | TLParen => recover_to_paren_close 1 s'
  | _ => (PSome tt, s')
  end.

(** The duplicate check: the span of the first catch-all rule so far. *)
Definition note_catch_all (r : RuleAst) (seen : option SourceSpan) : Parse (option SourceSpan) :=
  match ra_when r with
  | WCatchAll sp =>
      match seen with
      | Some prev => _ ← perror (ParseMultipleCatchAllRules sp prev); mret seen
      | None => mret (Some sp)
      end
  | WPredicates _ _ => mret seen
  end.

Definition keep_rule (r : RuleAst) (acc : list RuleAst * option SourceSpan)
  : Parse (list RuleAst * option SourceSpan) :=
  seen ← note_catch_all r (snd acc);
  mret (fst acc ++ [r], seen).

Definition parse_rules_block (fuel : nat) : Parse (list RuleAst) :=
  o ← pattempt (expect_lparen "'(' for :rules");
  match o with
  | None => mret []
  | Some _ =>
      acc ← parse_loop (parse_item (parse_rule fuel) recover_rule keep_rule) fuel ([], None);
      _ ← pattempt (expect_rparen "')' to close :rules");
      mret (fst acc)
  end.

(** ** Field declarations *)

Definition type_ref_of (name : string) (span : SourceSpan) : option TypeRefAst :=
  if bool_decide (name = "enum") then Some (TREnum span)
  else if bool_decide (name = "bool") then Some (TRBool span)
  else if bool_decide (name = "integer") then Some (TRInteger span)
  else if bool_decide (name = "decimal") then Some (TRDecimal span)
  else if bool_decide (name = "string") then Some (TRString span)
  else None.

Definition parse_type_ref : Parse TypeRefAst :=
  t ← pget peek;
  match tok_kind t with
  | TSymbol name =>
      _ ← bump;
      match type_ref_of name (tok_span t) with
      | Some t => mret t
      | None =>
          pfail (UnexpectedToken "type keyword (enum, bool, integer, decimal, string)"
                   ("'" +:+ name +:+ "'") (tok_span t))
      end
  | _ => unexpected "type keyword"
  end.

Definition parse_field_decl_inner : Parse FieldDeclAst :=
  open ← expect_lparen "'(' to open field declaration";
  name ← expect_symbol "field name";
  _ ← expect_symbol_named ":type";
  type_ref ← parse_type_ref;
  _ ← expect_symbol_named ":domain";
  domain_ref ← expect_symbol "domain name";
  close ← expect_rparen "')' to close field declaration";
  mret (mkFieldDecl name type_ref domain_ref (to_close (span_start (tok_span open)) close)).

Definition parse_inputs_block (fuel : nat) : Parse (list FieldDeclAst) :=
  parse_block fuel parse_field_decl_inner "'(' for :inputs" "')' to close :inputs".
Definition parse_outputs_block (fuel : nat) : Parse (list FieldDeclAst) :=
  parse_block fuel parse_field_decl_inner "'(' for :outputs" "')' to close :outputs".

(** ** Decisions *)

Definition parse_hit_policy_kind : Parse HitPolicyAst :=
  t ← pget peek;
  match tok_kind t with
  | TSymbol name =>
      _ ← bump;
      if bool_decide (name = "unique") then mret (HPUnique (tok_span t))
      else if bool_decide (name = "first") then mret (HPFirst (tok_span t))
      else if bool_decide (name ∈ ["collect"; "any"; "rule_order"; "rule-order"])
      then pfail (UnsupportedHitPolicy name (tok_span t))
      else pfail (UnknownHitPolicy name (tok_span t))
  | _ => unexpected "hit policy keyword ('unique' or 'first')"
  end.

(** A required attribute: when its keyword is not next, [MissingField] and
    recovery to a keyword; when it is next then, [m] behind it. *)
Definition required {A} (keyword : string) (absent : A) (m : Parse A) : Parse A :=
  here ← peek_symbol_is keyword;
  t ← pget peek;
  _ ← (if here : bool then mret tt
       else _ ← perror (MissingField keyword (tok_span t)); recover_to_keyword_or_rparen);
  here ← peek_symbol_is keyword;
  if here : bool then _ ← bump; m else mret absent.

Definition parse_decision (fuel : nat) : Parse DecisionAst :=
  open ← expect_lparen "'(define-decision ...'";
  _ ← expect_symbol_named "define-decision";
  name ← expect_symbol "decision name";
  has_id ← peek_symbol_is ":decision-id";
  decision_id ← (if has_id : bool then _ ← bump; pattempt parse_string_lit else mret None);
  hit_policy ← required ":hit-policy" None (pattempt parse_hit_policy_kind);
  inputs ← required ":inputs" [] (parse_inputs_block fuel);
  outputs ← required ":outputs" [] (parse_outputs_block fuel);
  has_rules ← peek_symbol_is ":rules";
  t ← pget peek;
  rules ← (if has_rules : bool then _ ← bump; parse_rules_block fuel
           else
             _ ← perror (MissingField ":rules" (tok_span t));
             _ ← recover_to_paren_close 1;
             mret []);
  close ← expect_rparen "end of decision";
  let span := to_close (span_start (tok_span open)) close in
  mret (mkDecisionAst name decision_id (default (HPUnique span) hit_policy) inputs outputs rules span).

(** ** Sources *)

Definition is_eof (k : TokenKind) : bool := match k with TEof => true | _ => false end.

(** What follows the decision: a second one, or anything else. *)
Definition trailing_error (first_span : SourceSpan) (s : Parser) : ParseError :=
  let t := peek s in
  match tok_kind t, ps_rest s with
  | TLParen, _ :: t' :: _ =>
      if is_symbol "define-decision" (tok_kind t') then MultipleDecisions (tok_span t) first_span
      else UnexpectedToken "end of input after decision" (description (tok_kind t)) (tok_span t)
  | k, _ => UnexpectedToken "end of input after decision" (description k) (tok_span t)
  end.

Definition parse_source (fuel : nat) : Parse Source :=
  t ← pget peek;
  let start := span_start (tok_span t) in
  decision ← (if is_eof (tok_kind t) then mret None else pattempt (parse_decision fuel));
  let decisions := option_list decision in
  k ← pget peek_kind;
  _ ← (if is_eof k then mret tt
       else λ s, perror (trailing_error (from_option da_span (mkSpan start start) decision) s) s);
  errs ← pget ps_errors;
  t ← pget peek;
  _ ← (match decisions, errs with
       | [], [] => perror (UnexpectedEofToken "'(define-decision ...)'" (tok_span t))
       | _, _ => mret tt
       end);
  t ← pget peek;
  mret (mkSource decisions (mkSpan start (span_end (tok_span t)))).

Record ParseErrors := mkParseErrors { pe_errors : list ParseError; partial_ast : option Source }.

(** The parser on the tokens of a source, with a fuel that is enough for them. *)
Definition run_parser (tokens : list Token) : option (Source * list ParseError) :=
  match parse_source (length tokens) (mkParser tokens []) with
  | (PSome ast, s) => Some (ast, ps_errors s)
  | _ => None
  end.

(** [parse]; [None] is a panic of the lexer. *)
Definition parse (source : string) : option (Result ParseErrors Source) :=
  '(tokens, lex_errors) ← lex source;
  '(ast, errors) ← run_parser tokens;
  Some (match lex_errors ++ errors with
        | [] => Ok ast
        | errs => Err (mkParseErrors errs (match src_decisions ast with [] => None | _ => Some ast end))
        end).

(** ** Examples *)

Definition tiny_source : string :=
  "(define-decision d :hit-policy first :inputs ((x :type integer :domain N)) :outputs ((y :type string :domain S)) :rules ((rule r1 :when ((x in [1 .. 5)) (not (x is-null))) :then ((y = a))) (rule r2 :when (*) :then ((y = b)))))".

Example parse_small_source :
  (λ r, (map (sym_name ∘ ra_id) ∘ da_rules <$> src_decisions r)) <$> (parse tiny_source ≫= result_ok)
  = Some [["r1"; "r2"]].
Proof. vm_compute. reflexivity. Qed.

(** The lexer steps two bytes past a backslash: behind a character of more
    bytes it slices the source inside it. *)
Definition bad_escape : string :=
  text_of [Byte.x22; Byte.x5c; Byte.xc3; Byte.xa9; Byte.x22].
Example lexer_panics_on_bad_escape : parse bad_escape = None.
Proof. vm_compute. reflexivity. Qed.

(** At an opening parenthesis the recovery that should skip one group also
    skips the closing parenthesis of the block around it. *)
Definition of_kinds (ks : list TokenKind) : list Token := map (λ k, mkToken k (mkSpan 0 0)) ks.
Example recovery_leaves_the_block :
  ps_rest (snd (recover_past_current_paren_close
    (mkParser (of_kinds [TLParen; TSymbol "a"; TRParen; TRParen; TSymbol ":outputs"; TEof]) [])))
  = of_kinds [TSymbol ":outputs"; TEof].
Proof. reflexivity. Qed.
