(* ===== verification/DmnTyping.v ===== *)
(** * dmn-lite: the typing discipline of the lowering

    What a well-typed decision is, and a program logic for the lowering monad:
    a computation never panics, only appends errors, and when it appends none
    it has produced what its postcondition says. *)

From S2P Require Import Prelude RustStr Json Types Platform Canonical CodecFacts DmnTypes DmnReference DmnVm DmnEmit DmnVerify DmnSteps DmnCodegen DmnLayout DmnLower.

(** ** Well-typed decisions *)

(** A constant of the type of a field. *)
Definition typed_as (t : ResolvedType) (v : TypedValue) : Prop :=
  tv_ok v ∧
  match t, v with
  | RTEnum d, TVEnum d' _ => d' = d
  | RTBool, TVBool _ | RTInteger, TVInteger _ | RTDecimal, TVDecimal _ | RTStr, TVStr _ => True
  | _, _ => False
  end.

Definition field_typed (schema : list FieldSchema) (f : FieldId) (v : TypedValue) : Prop :=
  ∃ fs, schema !! f = Some fs ∧ typed_as (field_type fs) v.
Definition field_numeric (schema : list FieldSchema) (f : FieldId) : Prop :=
  ∃ fs, schema !! f = Some fs ∧ is_numeric (field_type fs) = true.

Definition ordered (op : ComparisonOp) : bool := match op with OpEq | OpNotEq => false | _ => true end.

Section pred_typed.
Context (schema : list FieldSchema).
Inductive pred_typed : TypedPredicate -> Prop :=
| pt_comparison f op rhs span :
    field_typed schema f rhs -> (ordered op = true -> field_numeric schema f) ->
    pred_typed (PComparison f op rhs span)
| pt_in_set f values span :
    (f < length schema)%nat -> Forall (field_typed schema f) values -> pred_typed (PInSet f values span)
| pt_range f lo up li ui span :
    field_numeric schema f -> opt_ok (field_typed schema f) lo -> opt_ok (field_typed schema f) up ->
    pred_typed (PRange f lo up li ui span)
| pt_is_null f span : (f < length schema)%nat -> pred_typed (PIsNull f span)
| pt_is_not_null f span : (f < length schema)%nat -> pred_typed (PIsNotNull f span)
| pt_not p span : pred_typed p -> pred_typed (PNot p span)
| pt_and items span : Forall pred_typed items -> pred_typed (PAnd items span)
| pt_or items span : Forall pred_typed items -> pred_typed (POr items span).
End pred_typed.

(** Every output is assigned exactly once, a value of its type. *)
Record then_typed (schema : list FieldSchema) (l : list TypedAssignment) : Prop := {
  tt_values : Forall (λ a, field_typed schema (output_field a) (asg_value a)) l;
  tt_once : NoDup (output_field <$> l);
  tt_all : ∀ f, (f < length schema)%nat -> f ∈ output_field <$> l;
}.

Definition schema_ids (schema : list FieldSchema) : Prop :=
  ∀ i fs, schema !! i = Some fs -> field_id fs = i.

Record decision_typed (d : TypedDecision) : Prop := {
  dt_inputs : schema_ids (input_schema d);
  dt_outputs : schema_ids (output_schema d);
  dt_when : Forall (λ r, Forall (pred_typed (input_schema d)) (when_preds (rule_when r))) (dec_rules d);
  dt_then : Forall (λ r, then_typed (output_schema d) (rule_then r)) (dec_rules d);
  dt_rules : rule_id <$> dec_rules d = seq 0 (length (dec_rules d));
}.

(** ** Sources the parser produces *)

Definition literal_ok (l : LiteralAst) : Prop :=
  match l with LString s => is_u32 (len (as_bytes (str_value s))) | _ => True end.

(** Connectives have two operands, string literals fit a [u32] length. *)
Inductive pred_ast_ok : PredicateAst -> Prop :=
| po_eq f v s : literal_ok v -> pred_ast_ok (AEq f v s)
| po_not_eq f v s : literal_ok v -> pred_ast_ok (ANotEq f v s)
| po_lt f v s : pred_ast_ok (ALt f v s)
| po_le f v s : pred_ast_ok (ALe f v s)
| po_gt f v s : pred_ast_ok (AGt f v s)
| po_ge f v s : pred_ast_ok (AGe f v s)
| po_in_set f vs s : Forall literal_ok vs -> pred_ast_ok (AInSet f vs s)
| po_range f lo up li ui s : pred_ast_ok (ARange f lo up li ui s)
| po_null f s : pred_ast_ok (AIsNull f s)
| po_not_null f s : pred_ast_ok (AIsNotNull f s)
| po_not p s : pred_ast_ok p -> pred_ast_ok (ANot p s)
| po_and items s : (2 <= length items)%nat -> Forall pred_ast_ok items -> pred_ast_ok (AAnd items s)
| po_or items s : (2 <= length items)%nat -> Forall pred_ast_ok items -> pred_ast_ok (AOr items s).

Definition when_ast (w : WhenAst) : list PredicateAst :=
  match w with WCatchAll _ => [] | WPredicates preds _ => preds end.
Record rule_ast_ok (r : RuleAst) : Prop := {
  rao_when : Forall pred_ast_ok (when_ast (ra_when r));
  rao_then : Forall (λ a, literal_ok (aa_value a)) (ra_then r);
}.

(** Identifiers are UUIDs. *)
Definition catalogue_ok (c : Catalogue) : Prop :=
  ∀ id d, cat_domains c !! id = Some d ->
    is_uuid (dom_id d) ∧ ∀ s v, values_by_symbol d !! s = Some v -> is_uuid v.

(** ** What lowering keeps of a predicate *)

(** The typed predicate has the operator tree of the source, no operand lost. *)
Inductive same_shape : PredicateAst -> TypedPredicate -> Prop :=
| ss_eq f v s i rhs : same_shape (AEq f v s) (PComparison i OpEq rhs s)
| ss_not_eq f v s i rhs : same_shape (ANotEq f v s) (PComparison i OpNotEq rhs s)
| ss_lt f v s i rhs : same_shape (ALt f v s) (PComparison i OpLt rhs s)
| ss_le f v s i rhs : same_shape (ALe f v s) (PComparison i OpLe rhs s)
| ss_gt f v s i rhs : same_shape (AGt f v s) (PComparison i OpGt rhs s)
| ss_ge f v s i rhs : same_shape (AGe f v s) (PComparison i OpGe rhs s)
| ss_in_set f vs s i ws : length ws = length vs -> same_shape (AInSet f vs s) (PInSet i ws s)
| ss_range f lo up li ui s i lo' up' :
    (is_Some lo' ↔ ∃ n, lo = BoundValue n) -> (is_Some up' ↔ ∃ n, up = BoundValue n) ->
    same_shape (ARange f lo up li ui s) (PRange i lo' up' li ui s)
| ss_null f s i : same_shape (AIsNull f s) (PIsNull i s)
| ss_not_null f s i : same_shape (AIsNotNull f s) (PIsNotNull i s)
| ss_not p q s : same_shape p q -> same_shape (ANot p s) (PNot q s)
| ss_and ps qs s : Forall2 same_shape ps qs -> same_shape (AAnd ps s) (PAnd qs s)
| ss_or ps qs s : Forall2 same_shape ps qs -> same_shape (AOr ps s) (POr qs s).

(** ** A logic for the lowering monad *)

(** [m] never panics and only appends errors.  A value it yields satisfies
    [P]; when it has appended no error it has yielded a value, with [Q].
    Unless [k], it always yields a value. *)
Definition sound (k : bool) {A} (m : Low A) (P Q : A -> Prop) : Prop := ∀ s,
  match m s with
  | (Got a, s') =>
      dg_errors s `prefix_of` dg_errors s' ∧ P a ∧ (dg_errors s' = dg_errors s -> Q a)
  | (Left, s') => k = true ∧ dg_errors s `prefix_of` dg_errors s' ∧ dg_errors s' ≠ dg_errors s
  | (Panicked, _) => False
  end.

Lemma prefix_eq {A} (l1 l2 l3 : list A) : l1 `prefix_of` l2 -> l2 `prefix_of` l3 -> l3 = l1 -> l2 = l1.
Proof.
  intros H1 H2%prefix_length ->. symmetry. by apply prefix_length_eq.
Qed.

Section logic.
Context {A B : Type} (k : bool).

Lemma sound_ret (a : A) (P Q : A -> Prop) : P a -> Q a -> sound k (mret a) P Q.
Proof. by intros HP HQ s. Qed.

Lemma sound_bind (m : Low A) (f : A -> Low B) (P Q : A -> Prop) (P' Q' : B -> Prop) :
  sound k m P Q -> (∀ a, P a -> sound k (f a) P' (λ b, Q a -> Q' b)) -> sound k (m ≫= f) P' Q'.
Proof.
  intros Hm Hf s. unfold mbind, Low_bind. specialize (Hm s).
  destruct (m s) as [[a| |] s1]; [|done..]. destruct Hm as (Hp1 & HP & HQ).
  specialize (Hf a HP s1). destruct (f a s1) as [[b| |] s2]; [| |done].
  - destruct Hf as (Hp2 & HP' & HQ'). split; [by etrans|]. split; [done|]. intros E.
    pose proof (prefix_eq _ _ _ Hp1 Hp2 E) as E1. apply HQ'; [congruence|by apply HQ].
  - destruct Hf as (Hk & Hp2 & Hne). split; [done|]. split; [by etrans|]. intros E. apply Hne.
    pose proof (prefix_eq _ _ _ Hp1 Hp2 E) as E1. congruence.
Qed.

Lemma sound_weaken (m : Low A) (P Q P' Q' : A -> Prop) :
  sound k m P Q -> (∀ a, P a -> P' a) -> (∀ a, P a -> Q a -> Q' a) -> sound k m P' Q'.
Proof.
  intros H HP HQ s. specialize (H s). destruct (m s) as [[a| |] s']; [|done..].
  destruct H as (? & ? & ?). auto.
Qed.

Lemma sound_attempt (m : Low A) (P Q : A -> Prop) :
  sound true m P Q -> sound k (attempt m) (λ o, opt_ok P o) (λ o, ∃ a, o = Some a ∧ Q a).
Proof.
  intros H s. specialize (H s). unfold attempt. destruct (m s) as [[a| |] s']; [|by destruct H as (_ & ? & ?)|done].
  destruct H as (? & ? & HQ). split; [done|]. split; [done|]. intros E. exists a. auto.
Qed.

Lemma snoc_ne {C} (l : list C) x : l ++ [x] ≠ l.
Proof. intros H%(f_equal length). rewrite length_app in H. cbn in H. lia. Qed.

Lemma sound_fail e (P Q : A -> Prop) : sound true (fail_with e) P Q.
Proof. intros s. cbn. split; [done|]. split; [by apply prefix_app_r|apply snoc_ne]. Qed.
Lemma sound_push_error e (P Q : unit -> Prop) : P tt -> sound k (push_error e) P Q.
Proof. intros HP s. cbn. split; [by apply prefix_app_r|]. split; [done|]. intros E. by apply snoc_ne in E. Qed.
Lemma sound_push_entity e (P Q : unit -> Prop) : P tt -> Q tt -> sound k (push_entity e) P Q.
Proof. by intros HP HQ s. Qed.
Lemma sound_try_some (a : A) (P Q : A -> Prop) : P a -> Q a -> sound k (try_some (Some a)) P Q.
Proof. by intros HP HQ s. Qed.
Lemma sound_index (l : list A) i a (P Q : A -> Prop) : l !! i = Some a -> P a -> Q a -> sound k (index l i) P Q.
Proof. intros Hi HP HQ s. unfold index. by rewrite Hi. Qed.

End logic.
Arguments sound_ret {A k} a P Q.
Arguments sound_bind {A B k} m f P Q P' Q'.
Arguments sound_weaken {A k} m P Q P' Q'.
Arguments sound_attempt {A k} m P Q.
Arguments sound_push_error {k} e P Q.
Arguments sound_push_entity {k} e P Q.
Arguments sound_try_some {A k} a P Q.
Arguments sound_index {A k} l i a P Q.

(** [filter_map]: without an error nothing is filtered out. *)
Lemma sound_filter_map {A B} k (f : A -> Low B) (P : B -> Prop) (R : A -> B -> Prop) l :
  Forall (λ x, sound true (f x) P (R x)) l -> sound k (filter_map_low f l) (Forall P) (Forall2 R l).
Proof.
  induction 1 as [|x l Hx Hl IH]; cbn [filter_map_low]; [by apply sound_ret|].
  eapply sound_bind; [by apply sound_attempt|]. intros o Ho.
  eapply sound_bind; [exact IH|]. intros rest Hrest.
  apply sound_ret; [destruct o; [by constructor|done]|]. intros H2 (a & -> & Ha). by constructor.
Qed.
