(* ===== verification/DmnParserFacts.v ===== *)
(** * dmn-lite: the parser returns, and what it accepts

    A logic for the parser monad: a step never runs out of fuel on a token
    stream that ends in [Eof], consumes tokens, only appends errors, and has
    pushed an error when it leaves without a value.  From it: the parser
    returns on every token stream the lexer produces, and a source it accepts
    is one the compiler takes. *)

From S2P Require Import Prelude RustStr Json Types DmnTypes DmnLower DmnLexer DmnParser DmnTyping.

(** ** Token streams *)

Definition tok_fits (t : Token) : Prop :=
  match tok_kind t with TStrLit v => is_u32 (len (as_bytes v)) | _ => True end.

(** A stream ends in [Eof]; its string literals have a [u32] length. *)
Record tokens_ok (l : list Token) : Prop := {
  to_eof : ∃ t, last l = Some t ∧ tok_kind t = TEof;
  to_fits : Forall tok_fits l;
}.
Definition ready (s : Parser) : Prop := tokens_ok (ps_rest s).
Definition left (s : Parser) : nat := length (ps_rest s).

Lemma tokens_ok_cons t t' l : tokens_ok (t :: t' :: l) -> tokens_ok (t' :: l).
Proof. intros [(e & He & Hk) Hf]. split; [exists e; by rewrite last_cons_cons in He|by inversion Hf]. Qed.

Lemma ready_peek s : ready s -> ∃ l, ps_rest s = peek s :: l.
Proof.
  intros [(e & He & _) _]. unfold peek. destruct (ps_rest s) as [|t l]; [done|by exists l].
Qed.

Lemma ready_fits s : ready s -> tok_fits (peek s).
Proof.
  intros H. destruct (ready_peek s H) as (l & El). destruct H as [_ Hf].
  rewrite El in Hf. by inversion Hf.
Qed.

(** A token that is not [Eof] is not the last. *)
Lemma ready_more s : ready s -> peek_kind s ≠ TEof -> ∃ t l, ps_rest s = peek s :: t :: l.
Proof.
  intros H Hk. destruct (ready_peek s H) as ([|t l] & El); [|by exists t, l].
  exfalso. destruct H as [(e & He & Hk') _]. rewrite El in He. injection He as <-. done.
Qed.

Lemma bumped_ok s :
  ready s -> peek_kind s ≠ TEof ->
  ready (bumped s) ∧ (left (bumped s) + 1 = left s)%nat ∧ ps_errors (bumped s) = ps_errors s.
Proof.
  intros H Hk. destruct (ready_more s H Hk) as (t & l & El). unfold ready, left, bumped in *.
  rewrite El in *. cbn. split_and!; [by eapply tokens_ok_cons|lia|done].
Qed.

(** ** The logic *)

(** [m] at [s] consumes [c] tokens when it yields a value, which satisfies [Q]
    unless an error was pushed. *)
Definition good_at (c : nat) {A} (m : Parse A) (Q : A -> Prop) (s : Parser) : Prop :=
  match m s with
  | (PSome a, s') =>
      ready s' ∧ (left s' + c <= left s)%nat ∧ ps_errors s `prefix_of` ps_errors s' ∧
      (ps_errors s' = ps_errors s -> Q a)
  | (PNone, s') =>
      ready s' ∧ (left s' <= left s)%nat ∧ ps_errors s `prefix_of` ps_errors s' ∧
      ps_errors s' ≠ ps_errors s
  | (PFuel, _) => False
  end.
(** At every state with at most [n] tokens left. *)
Definition good (n c : nat) {A} (m : Parse A) (Q : A -> Prop) : Prop :=
  ∀ s, ready s -> (left s <= n)%nat -> good_at c m Q s.

Lemma good_at_bind c1 c2 {A B} (m : Parse A) (f : A -> Parse B) Q R s :
  good_at c1 m Q s ->
  (∀ a s', ready s' -> (left s' + c1 <= left s)%nat -> good_at c2 (f a) (λ b, Q a -> R b) s') ->
  good_at (c1 + c2) (m ≫= f) R s.
Proof.
  unfold good_at, mbind, Parse_bind. intros Hm Hf. destruct (m s) as [[a| |] s']; [|done..].
  destruct Hm as (Hr & Hl & Hp & HQ). specialize (Hf a s' Hr Hl).
  destruct (f a s') as [[b| |] s'']; [| |done].
  - destruct Hf as (Hr' & Hl' & Hp' & HR). split_and!; [done|lia|by etrans|].
    intros E. pose proof (prefix_eq _ _ _ Hp Hp' E) as E1. apply HR; [congruence|by apply HQ].
  - destruct Hf as (Hr' & Hl' & Hp' & Hne). split_and!; [done|lia|by etrans|].
    intros E. pose proof (prefix_eq _ _ _ Hp Hp' E) as E1. congruence.
Qed.

Lemma good_bind n c1 c2 {A B} (m : Parse A) (f : A -> Parse B) Q R :
  good n c1 m Q -> (∀ a, good (n - c1) c2 (f a) (λ b, Q a -> R b)) -> good n (c1 + c2) (m ≫= f) R.
Proof.
  intros Hm Hf s Hs Hl. eapply good_at_bind; [by apply Hm|]. intros a s' Hs' Hl'. apply Hf; [done|lia].
Qed.

Lemma good_at_weaken c c' {A} (m : Parse A) (Q Q' : A -> Prop) s :
  good_at c m Q s -> (c' <= c)%nat -> (∀ a, Q a -> Q' a) -> good_at c' m Q' s.
Proof.
  unfold good_at. intros Hm Hc HQ. destruct (m s) as [[a| |] s']; [|done..].
  destruct Hm as (? & ? & ? & H). split_and!; [done|lia|done|]. intros E. by apply HQ, H.
Qed.
Lemma good_weaken n n' c c' {A} (m : Parse A) (Q Q' : A -> Prop) :
  good n c m Q -> (n' <= n)%nat -> (c' <= c)%nat -> (∀ a, Q a -> Q' a) -> good n' c' m Q'.
Proof. intros Hm Hn Hc HQ s Hs Hl. eapply good_at_weaken; [apply Hm; [done|lia]|done..]. Qed.

Lemma good_ret n {A} (a : A) (Q : A -> Prop) : Q a -> good n 0 (mret a) Q.
Proof. intros HQ s Hs Hl. unfold good_at, mret, Parse_ret. split_and!; [done|lia|done|done]. Qed.
Lemma good_get n {A} (f : Parser -> A) : good n 0 (pget f) (λ _, True).
Proof. intros s Hs Hl. unfold good_at, pget. split_and!; [done|lia|done|done]. Qed.

Lemma prefix_snoc_ne {A} (l : list A) x : l ++ [x] ≠ l.
Proof. intros E%(f_equal length). rewrite length_app in E. cbn in E. lia. Qed.

(** Behind a pushed error nothing is claimed of a value. *)
Lemma good_error n e (Q : unit -> Prop) : good n 0 (perror e) Q.
Proof.
  intros s Hs Hl. unfold good_at, perror, ready, left in *. cbn.
  split_and!; [done|lia|by apply prefix_app_r|]. intros E. by apply prefix_snoc_ne in E.
Qed.
Lemma good_fail n c {A} e (Q : A -> Prop) : good n c (pfail e) Q.
Proof.
  intros s Hs Hl. unfold good_at, pfail, ready, left in *. cbn.
  split_and!; [done|lia|by apply prefix_app_r|]. apply prefix_snoc_ne.
Qed.
Lemma good_unexpected n c {A} e (Q : A -> Prop) : good n c (unexpected e) Q.
Proof. intros s Hs Hl. exact (good_fail n c _ Q s Hs Hl). Qed.
(** An error first, then [m]: nothing is claimed of the value. *)
Lemma good_at_pushed c {A} (m : Parse A) (Q Q' : A -> Prop) e s r :
  good_at c m Q (mkParser (ps_rest s) (ps_errors s ++ [e])) ->
  r = m (mkParser (ps_rest s) (ps_errors s ++ [e])) ->
  match r with
  | (PSome a, s') =>
      ready s' ∧ (left s' + c <= left s)%nat ∧ ps_errors s `prefix_of` ps_errors s' ∧
      (ps_errors s' = ps_errors s -> Q' a)
  | (PNone, s') =>
      ready s' ∧ (left s' <= left s)%nat ∧ ps_errors s `prefix_of` ps_errors s' ∧
      ps_errors s' ≠ ps_errors s
  | (PFuel, _) => False
  end.
Proof.
  unfold good_at. intros Hm ->.
  assert (∀ s' : Parser, ps_errors s ++ [e] `prefix_of` ps_errors s' ->
            ps_errors s `prefix_of` ps_errors s' ∧ ps_errors s' ≠ ps_errors s) as H.
  { intros s' Hp. split; [etrans; [|exact Hp]; by apply prefix_app_r|].
    intros E. rewrite E in Hp. apply prefix_length in Hp. rewrite length_app in Hp. cbn in Hp. lia. }
  destruct (m _) as [[a| |] s']; [| |done]; unfold left in *; cbn in *.
  - destruct Hm as (? & ? & Hp & _). destruct (H _ Hp). by split_and!.
  - destruct Hm as (? & ? & Hp & _). destruct (H _ Hp). by split_and!.
Qed.

(** Leaving without a value behind a pushed error. *)
Lemma good_error_none n c {A} e (m : Parse unit) (Q : A -> Prop) :
  good n 0 m (λ _, True) -> good n c (_ ← perror e; _ ← m; pnone) Q.
Proof.
  intros Hm s Hs Hl. specialize (Hm (mkParser (ps_rest s) (ps_errors s ++ [e])) Hs Hl).
  pose proof (good_at_pushed 0 m _ (λ _, True) e s _ Hm eq_refl) as H.
  pose proof Hm as H'. unfold good_at, mbind, Parse_bind, perror, pnone in *.
  destruct (m _) as [[u| |] s']; [|done..]. destruct H as (? & ? & ? & _). destruct H' as (_ & _ & Hp & _).
  split_and!; [done|lia|done|]. intros E. cbn in Hp. rewrite E in Hp. apply prefix_length in Hp.
  rewrite length_app in Hp. cbn in Hp. lia.
Qed.

(** [pattempt] always goes on; a missing value has left an error. *)
Lemma good_at_attempt c {A} (m : Parse A) (Q : A -> Prop) s :
  good_at c m Q s -> good_at 0 (pattempt m) (λ o, ∃ a, o = Some a ∧ Q a) s.
Proof.
  unfold good_at, pattempt. destruct (m s) as [[a| |] s']; [| |done].
  - intros (? & ? & ? & HQ). split_and!; [done|lia|done|]. intros E. exists a. split; [done|by apply HQ].
  - intros (? & ? & ? & Hne). split_and!; [done|lia|done|]. intros E. done.
Qed.
Lemma good_attempt n c {A} (m : Parse A) (Q : A -> Prop) :
  good n c m Q -> good n 0 (pattempt m) (λ o, ∃ a, o = Some a ∧ Q a).
Proof. intros Hm s Hs Hl. eapply good_at_attempt. by apply Hm. Qed.

Lemma good_at_bump s : ready s -> peek_kind s ≠ TEof -> good_at 1 bump (λ t, t = peek s) s.
Proof.
  intros H Hk. destruct (bumped_ok s H Hk) as (Hr & Hl & He). unfold good_at, bump. rewrite He.
  split_and!; [done|lia|done|done].
Qed.
(** [bump] at any token. *)
Lemma good_bump n : good n 0 bump (λ _, True).
Proof.
  intros s Hs Hl. assert (peek_kind s = TEof ∨ peek_kind s ≠ TEof) as [E|Hk] by (destruct (peek_kind s); auto).
  - unfold good_at, bump, bumped. destruct (ps_rest s) as [|t [|t' l]] eqn:Er.
    + split_and!; [done|unfold left in *; rewrite Er; done|done|done].
    + split_and!; [done|lia|done|done].
    + split_and!; [|unfold left; rewrite Er; cbn; lia|done|done].
      unfold ready in *. cbn. rewrite Er in Hs. by eapply tokens_ok_cons.
  - eapply good_at_weaken; [by apply good_at_bump|lia|done].
Qed.
(** A [bump] the current token licenses, and the rest. *)
Lemma good_at_bump_then c {A} (f : Token -> Parse A) (Q : A -> Prop) s :
  ready s -> peek_kind s ≠ TEof ->
  (∀ s', ready s' -> (left s' + 1 <= left s)%nat -> good_at c (f (peek s)) Q s') ->
  good_at (S c) (t ← bump; f t) Q s.
Proof.
  intros Hs Hk Hf. destruct (bumped_ok s Hs Hk) as (Hr & Hl & He).
  specialize (Hf (bumped s) Hr ltac:(lia)). unfold good_at, mbind, Parse_bind, bump in *.
  rewrite He in Hf. destruct (f (peek s) (bumped s)) as [[a| |] s'']; [| |done].
  - destruct Hf as (? & ? & ? & ?). split_and!; [done|lia|done|done].
  - destruct Hf as (? & ? & ? & ?). split_and!; [done|lia|done|done].
Qed.


(** Case analysis on the current token in a step that looks at it. *)
Ltac by_kind :=
  lazymatch goal with
  | |- @good_at ?c ?A _ ?Q ?s =>
      unfold good_at; destruct (peek_kind s) eqn:Ek;
      lazymatch goal with |- (let (_, _) := ?m s in _) => change (@good_at c A m Q s) end
  end.
Ltac gives_up := match goal with |- good_at _ (unexpected _) _ _ => by eapply good_unexpected end.

(** ** Expectations *)

Lemma good_at_bump_any c s : ready s -> peek_kind s ≠ TEof -> (c <= 1)%nat -> good_at c bump (λ _, True) s.
Proof. intros Hs Hk Hc. eapply good_at_weaken; [by apply good_at_bump|done..]. Qed.

Lemma good_expect_lparen n ctx : good n 1 (expect_lparen ctx) (λ _, True).
Proof. intros s Hs Hl. unfold expect_lparen. by_kind; try gives_up. apply good_at_bump_any; [done|congruence|lia]. Qed.
Lemma good_expect_rparen n ctx : good n 1 (expect_rparen ctx) (λ _, True).
Proof. intros s Hs Hl. unfold expect_rparen. by_kind; try gives_up. apply good_at_bump_any; [done|congruence|lia]. Qed.
Lemma good_expect_dotdot n : good n 1 expect_dotdot (λ _, True).
Proof. intros s Hs Hl. unfold expect_dotdot. by_kind; try gives_up. apply good_at_bump_any; [done|congruence|lia]. Qed.
Lemma good_expect_symbol n ctx : good n 1 (expect_symbol ctx) (λ _, True).
Proof.
  intros s Hs Hl. unfold expect_symbol. by_kind; try gives_up.
  apply good_at_bump_then; [done|congruence|]. intros s' Hs' _. by apply (good_ret (left s')).
Qed.
Lemma is_symbol_inv name k : is_symbol name k = true -> k = TSymbol name.
Proof. destruct k; cbn; try done. by intros ->%bool_decide_eq_true. Qed.
Lemma good_expect_symbol_named n name : good n 1 (expect_symbol_named name) (λ _, True).
Proof.
  intros s Hs Hl. unfold expect_symbol_named, good_at. destruct (is_symbol name (peek_kind s)) eqn:E.
  - apply is_symbol_inv in E. apply (good_at_bump_any 1); [done|congruence|lia].
  - assert (good_at 1 (match peek_kind s with
                       | TEof => pfail (UnexpectedEofToken ("'" +:+ name +:+ "'") (tok_span (peek s)))
                       | _ => unexpected ("'" +:+ name +:+ "'") end) (λ _ : Token, True) s) as H.
    { destruct (peek_kind s); first [gives_up|by eapply good_fail]. }
    unfold good_at in H. by destruct (peek_kind s).
Qed.

(** ** Recovery *)

Lemma skip_to_close_ok d l : tokens_ok l -> tokens_ok (skip_to_close d l) ∧ (length (skip_to_close d l) <= length l)%nat.
Proof.
  revert d. induction l as [|t [|t' l] IH]; intros d H; [by split|by split|].
  pose proof (tokens_ok_cons _ _ _ H) as H'. pose proof (λ d, IH d H') as IH'. clear IH.
  change (skip_to_close d (t :: t' :: l)) with
    (match tok_kind t with
     | TEof => t :: t' :: l
     | TLParen => skip_to_close (S d) (t' :: l)
     | TRParen => match d with 0%nat | 1%nat => t' :: l | S d => skip_to_close d (t' :: l) end
     | _ => skip_to_close d (t' :: l)
     end).
  assert (∀ d, tokens_ok (skip_to_close d (t' :: l)) ∧ (length (skip_to_close d (t' :: l)) <= length (t :: t' :: l))%nat) as IH.
  { intros d'. destruct (IH' d') as [? ?]. split; [done|]. cbn [length] in *. lia. }
  destruct (tok_kind t); try apply IH; [|split; [done|lia]].
  destruct d as [|[|d]]; [split; [done|cbn; lia]..|apply IH].
Qed.
Lemma good_recover_to_paren_close n d : good n 0 (recover_to_paren_close d) (λ _, True).
Proof.
  intros s Hs Hl. destruct (skip_to_close_ok d (ps_rest s) Hs) as [H1 H2].
  unfold good_at, recover_to_paren_close, ready, left in *. cbn. split_and!; [done|lia|done|done].
Qed.

Lemma skip_until_cons stop t t' l :
  skip_until stop (t :: t' :: l) = if stop (tok_kind t) then t :: t' :: l else skip_until stop (t' :: l).
Proof. reflexivity. Qed.
Lemma skip_until_ok stop l :
  tokens_ok l -> tokens_ok (skip_until stop l) ∧ (length (skip_until stop l) <= length l)%nat.
Proof.
  induction l as [|t [|t' l] IH]; intros H; [by split|by split|].
  destruct (IH (tokens_ok_cons _ _ _ H)) as [? ?].
  rewrite skip_until_cons.
  destruct (stop _); [split; [done|lia]|]. split; [done|]. cbn [length] in *. lia.
Qed.
Lemma skip_until_less stop s :
  ready s -> peek_kind s ≠ TEof -> stop (peek_kind s) = false ->
  (length (skip_until stop (ps_rest s)) < left s)%nat.
Proof.
  intros H Hk Hst. destruct (ready_more s H Hk) as (t & l & El). unfold left, ready, peek_kind in *.
  rewrite El in *. rewrite skip_until_cons, Hst.
  destruct (skip_until_ok stop (t :: l) (tokens_ok_cons _ _ _ H)) as [_ Hle]. cbn [length] in *. lia.
Qed.
Lemma good_recover_to_keyword n : good n 0 recover_to_keyword_or_rparen (λ _, True).
Proof.
  intros s Hs Hl. unfold good_at, recover_to_keyword_or_rparen.
  match goal with |- context [skip_until ?st _] => destruct (skip_until_ok st (ps_rest s) Hs) as [H1 H2] end.
  unfold ready, left in *. cbn. split_and!; [done|lia|done|done].
Qed.

(** What the loops ask of their recovery: it consumes the current token unless
    that closes the block or opens an item. *)
Definition recovers (r : Parse unit) : Prop :=
  (∀ n, good n 0 r (λ _, True)) ∧
  ∀ s, ready s -> at_close (peek_kind s) = false -> peek_kind s ≠ TLParen -> good_at 1 r (λ _, True) s.

Lemma good_skip_parens c s :
  ready s -> (c = 0%nat ∨ c = 1%nat ∧ at_close (peek_kind s) = false ∧ peek_kind s ≠ TLParen) ->
  good_at c (λ s, (PSome tt, mkParser (skip_until is_paren_or_eof (ps_rest s)) (ps_errors s))) (λ _, True) s.
Proof.
  intros Hs Hc. destruct (skip_until_ok is_paren_or_eof (ps_rest s) Hs) as [H1 H2].
  unfold good_at. split_and!; [done| |done|done]. unfold left in *. cbn.
  destruct Hc as [->|(-> & Hk1 & Hk2)]; [lia|].
  assert (length (skip_until is_paren_or_eof (ps_rest s)) < left s)%nat; [|unfold left in *; lia].
  apply skip_until_less; [done|by destruct (peek_kind s)|by destruct (peek_kind s)].
Qed.
Lemma recovers_past_paren : recovers recover_past_current_paren_close.
Proof.
  split.
  - intros n s Hs Hl. pose proof (good_skip_parens 0 s Hs (or_introl eq_refl)) as H.
    pose proof (good_recover_to_paren_close n 1 s Hs Hl) as H'.
    unfold good_at, recover_past_current_paren_close in *. by destruct (peek_kind s).
  - intros s Hs H1 H2. pose proof (good_skip_parens 1 s Hs (or_intror (conj eq_refl (conj H1 H2)))) as H.
    unfold good_at, recover_past_current_paren_close in *. by destruct (peek_kind s).
Qed.
Lemma recovers_rule : recovers recover_rule.
Proof.
  assert (∀ c s, ready s -> (c = 0%nat ∨ c = 1%nat ∧ at_close (peek_kind s) = false ∧ peek_kind s ≠ TLParen) ->
            good_at c recover_rule (λ _, True) s) as H.
  { intros c s Hs Hc. pose proof (good_skip_parens c s Hs Hc) as H.
    unfold good_at in H. destruct H as (H1 & H2 & H3 & _). unfold good_at, recover_rule.
    set (s' := mkParser _ _) in *.
    pose proof (good_recover_to_paren_close (left s') 1 s' H1 (le_n _)) as H4. unfold good_at in H4.
    destruct (peek_kind s'); try by split_and!.
    destruct (recover_to_paren_close 1 s') as [[u| |] s'']; [| |done].
    - destruct H4 as (? & ? & ? & _). split_and!; [done|lia|done|done].
    - destruct H4 as (? & ? & ? & ?). split_and!; [done|lia|done|done]. }
  split; [intros n s Hs _; apply H; auto|intros s Hs H1 H2; apply H; auto].
Qed.

(** ** Loops *)

Lemma at_close_fuel s : ready s -> at_close (peek_kind s) = false -> (2 <= left s)%nat.
Proof.
  intros H Hk. destruct (ready_more s H) as (t & l & El); [by intros E; rewrite E in Hk|].
  unfold left. rewrite El. cbn. lia.
Qed.

(** A loop whose turns consume a token returns, and keeps what its turns keep. *)
Lemma good_at_loop n {S} (step : S -> Parse S) (I : S -> Prop) :
  (∀ acc s, ready s -> (left s <= n)%nat -> at_close (peek_kind s) = false ->
     good_at 1 (step acc) (λ acc', I acc -> I acc') s) ->
  ∀ fuel acc s, ready s -> (left s <= n)%nat -> (left s <= fuel)%nat ->
    good_at 0 (parse_loop step fuel acc) (λ acc', I acc -> I acc') s.
Proof.
  intros Hstep. induction fuel as [|fuel IH]; intros acc s Hs Hn Hf; unfold good_at; cbn [parse_loop];
    destruct (at_close (peek_kind s)) eqn:Ec; try (by split_and!; [|lia|..]);
    pose proof (at_close_fuel s Hs Ec); [lia|].
  refine (good_at_weaken (1 + 0) 0 (acc' ← step acc; parse_loop step fuel acc') (λ acc', I acc -> I acc') _ s _ _ _);
    [|lia|done].
  eapply good_at_bind; [by apply Hstep|]. intros acc' s' Hs' Hl'.
  eapply good_at_weaken; [apply IH; [done|lia..]|lia|]. intros b H1 H2 H3. by apply H1, H2.
Qed.

(** ** Items *)

Lemma expect_lparen_none ctx s :
  peek_kind s ≠ TLParen -> expect_lparen ctx s = unexpected ("'(' for " +:+ ctx) s.
Proof. unfold expect_lparen. by destruct (peek_kind s) eqn:Ek. Qed.

Section item.
Context {A S : Type} (ctx : string) (body : Token -> Parse A) (Q : A -> Prop).
Context (recover : Parse unit) (keep : A -> S -> Parse S) (I : S -> Prop) (n : nat).
Let item : Parse A := o ← expect_lparen ctx; body o.
Context (Hbody : ∀ o, good (n - 1) 0 (body o) Q).
Context (Hrec : recovers recover).
Context (Hkeep : ∀ p acc, good n 0 (keep p acc) (λ acc', Q p -> I acc -> I acc')).

(** At its opening parenthesis an item consumes a token, whatever its outcome. *)
Lemma good_at_item s :
  ready s -> (left s <= n)%nat -> peek_kind s = TLParen ->
  good_at 1 (pattempt item) (λ o, ∃ a, o = Some a ∧ Q a) s.
Proof.
  intros Hs Hn Hk. destruct (bumped_ok s Hs) as (Hr & Hl & He); [congruence|].
  pose proof (Hbody (peek s) (bumped s) Hr ltac:(lia)) as H.
  unfold good_at, pattempt, item, mbind, Parse_bind, expect_lparen, bump in *. rewrite Hk. rewrite He in H.
  destruct (body (peek s) (bumped s)) as [[a| |] s']; [| |done].
  - destruct H as (? & ? & ? & H). split_and!; [done|lia|done|]. intros E. exists a. split; [done|by apply H].
  - destruct H as (? & ? & ? & H). split_and!; [done|lia|done|]. intros E. done.
Qed.

Lemma good_at_item_step acc s :
  ready s -> (left s <= n)%nat -> at_close (peek_kind s) = false ->
  good_at 1 (parse_item item recover keep acc) (λ acc', I acc -> I acc') s.
Proof.
  intros Hs Hn Hc. destruct Hrec as [Hrec1 Hrec2].
  assert (peek_kind s = TLParen ∨ peek_kind s ≠ TLParen) as [Hk|Hk] by (destruct (peek_kind s); auto).
  - refine (good_at_bind 1 0 _ _ _ _ _ (good_at_item s Hs Hn Hk) _). intros [p|] s' Hs' Hl'.
    + eapply good_at_weaken; [apply Hkeep; [done|lia]|lia|].
      intros acc' H (a & [= <-] & HQ). by apply H.
    + refine (good_at_bind 0 0 _ _ _ _ _ (Hrec1 _ s' Hs' (le_n _)) _). intros [] s'' Hs'' _.
      apply (good_ret (left s'')); [|done|done]. intros _ (a & Ha & _). done.
  - set (e := UnexpectedToken ("'(' for " +:+ ctx) (description (peek_kind s)) (tok_span (peek s))).
    set (s1 := mkParser (ps_rest s) (ps_errors s ++ [e])).
    assert (item s = (PNone, s1)) as E.
    { unfold item, mbind, Parse_bind. by rewrite expect_lparen_none. }
    apply (good_at_pushed 1 (_ ← recover; mret acc) (λ _, True) _ e).
    + refine (good_at_bind 1 0 _ _ _ _ s1 (Hrec2 s1 Hs Hc Hk) _). intros [] s' Hs' _.
      by apply (good_ret (left s')).
    + unfold parse_item, pattempt, mbind, Parse_bind. by rewrite E.
Qed.
End item.

(** The items of a block, each with [Q]. *)
Lemma good_many n {A} ctx (body : Token -> Parse A) (Q : A -> Prop) fuel :
  (∀ o, good (n - 1) 0 (body o) Q) -> (n <= fuel)%nat ->
  good n 0 (parse_many (o ← expect_lparen ctx; body o) fuel) (Forall Q).
Proof.
  intros Hb Hf s Hs Hl. unfold parse_many.
  eapply good_at_weaken.
  - eapply (good_at_loop n _ (Forall Q)); [|done|done|lia]. intros acc s' Hs' Hl' Hc.
    apply (good_at_item_step ctx body Q _ _ _ n Hb recovers_past_paren); [|done..].
    intros p acc'. apply good_ret. intros HQ HI. apply Forall_app. by split; [|constructor].
  - done.
  - intros acc H. by apply H.
Qed.

(** ** Steps in sequence *)

Lemma good_seq n c1 {A B} (m : Parse A) (f : A -> Parse B) Q R :
  good n c1 m Q -> (∀ a, good (n - c1) 0 (f a) (λ b, Q a -> R b)) -> good n 0 (m ≫= f) R.
Proof.
  intros Hm Hf. eapply good_weaken; [by eapply good_bind|lia|lia|done].
Qed.

Lemma good_error_false n e : good n 0 (perror e) (λ _, False).
Proof. apply good_error. Qed.

Create HintDb parse discriminated.
#[export] Hint Resolve good_get good_bump good_expect_lparen good_expect_rparen good_expect_dotdot
  good_expect_symbol good_expect_symbol_named good_recover_to_paren_close good_recover_to_keyword
  good_error_false good_unexpected good_fail good_attempt : parse.
(** One step of a sequence. *)
Ltac pstep := eapply good_seq; [solve [eauto with parse nocore]|intros ?; cbv beta].
(** The steps up to the value. *)
Ltac psteps := repeat pstep; try (apply good_ret; cbv beta; intros).

(** ** Literals and field tests *)

Lemma good_parse_literal n : good n 1 parse_literal literal_ok.
Proof.
  intros s Hs Hl. pose proof (ready_fits s Hs) as Hf. unfold tok_fits, peek_kind in Hf. unfold parse_literal.
  by_kind; try gives_up; (apply good_at_bump_then; [done|congruence|]);
    intros s' Hs' _; apply (good_ret (left s')); try done; unfold literal_ok, peek_kind in *.
  - by repeat case_match.
  - by rewrite Ek in Hf.
Qed.
Lemma good_parse_numeric_literal n : good n 1 parse_numeric_literal (λ _, True).
Proof.
  intros s Hs Hl. unfold parse_numeric_literal. by_kind; try gives_up;
    (apply good_at_bump_then; [done|congruence|]); intros s' Hs' _; by apply (good_ret (left s')).
Qed.
Lemma good_parse_string_lit n : good n 1 parse_string_lit (λ _, True).
Proof.
  intros s Hs Hl. unfold parse_string_lit. by_kind; try gives_up;
    (apply good_at_bump_then; [done|congruence|]); intros s' Hs' _; by apply (good_ret (left s')).
Qed.
#[export] Hint Resolve good_parse_literal good_parse_numeric_literal good_parse_string_lit : parse.

Lemma good_here n c {A} (m : Parse A) (Q : A -> Prop) s :
  good n c m Q -> ready s -> (left s <= n)%nat -> good_at c m Q s.
Proof. intros H. apply H. Qed.
(** A step that looks at the current token: each branch as a sequence. *)
Ltac branches := by_kind; (eapply good_here; [|eassumption|eassumption]).

Lemma good_parse_range_bound n : good n 0 parse_range_bound (λ _, True).
Proof. intros s Hs Hl. unfold parse_range_bound. branches; by psteps. Qed.
#[export] Hint Resolve good_parse_range_bound : parse.

(** A step that branches on a token, nothing claimed of its value. *)
Ltac pbranch := eapply (good_seq _ 0 _ _ (λ _, True)); [repeat case_match; psteps; eauto with parse nocore|intros ?; cbv beta].

Lemma good_parse_range n start field : good n 0 (parse_range start field) pred_ast_ok.
Proof. unfold parse_range. pstep. pbranch. psteps. pbranch. psteps. constructor. Qed.

(** Behind an error a step may leave without one more. *)
Definition quiet_at {A} (m : Parse A) (s : Parser) : Prop :=
  match m s with
  | (PFuel, _) => False
  | (_, s') => ready s' ∧ (left s' <= left s)%nat ∧ ps_errors s `prefix_of` ps_errors s'
  end.
Lemma good_at_quiet c {A} (m : Parse A) Q s : good_at c m Q s -> quiet_at m s.
Proof.
  unfold good_at, quiet_at. destruct (m s) as [[a| |] s']; [| |done]; intros (? & ? & ? & _); split_and!; try done; lia.
Qed.
Lemma quiet_at_recover_none {A} d s : ready s -> quiet_at (_ ← recover_to_paren_close d; @pnone A) s.
Proof. intros Hs. by destruct (good_recover_to_paren_close (left s) d s Hs (le_n _)) as (? & ? & ? & _); split_and!; [|lia|]. Qed.

Lemma good_at_attempt_then c {A B} (m : Parse A) (f : option A -> Parse B) Q R s :
  good_at c m Q s ->
  (∀ a s', ready s' -> (left s' + c <= left s)%nat -> good_at 0 (f (Some a)) (λ b, Q a -> R b) s') ->
  (∀ s', ready s' -> (left s' <= left s)%nat -> quiet_at (f None) s') ->
  good_at 0 (o ← pattempt m; f o) R s.
Proof.
  intros Hm Hsome Hnone. unfold good_at, quiet_at, mbind, Parse_bind, pattempt in *.
  destruct (m s) as [[a| |] s']; [| |done]; destruct Hm as (Hr & Hl & Hp & HQ).
  - specialize (Hsome a s' Hr Hl). destruct (f (Some a) s') as [[b| |] s'']; [| |done];
      destruct Hsome as (? & ? & Hp' & HR); (split_and!; [done|lia|by etrans|]);
      intros E; pose proof (prefix_eq _ _ _ Hp Hp' E) as E1.
    + apply HR; [congruence|by apply HQ].
    + congruence.
  - specialize (Hnone s' Hr Hl). destruct (f None s') as [[b| |] s'']; [| |done];
      destruct Hnone as (? & ? & Hp'); (split_and!; [done|lia|by etrans|]);
      intros E; pose proof (prefix_eq _ _ _ Hp Hp' E) as E1; congruence.
Qed.

Lemma good_at_parse_values fuel values s :
  ready s -> (left s <= fuel)%nat ->
  good_at 0 (parse_values fuel values) (λ vs, Forall literal_ok values -> Forall literal_ok vs) s.
Proof.
  revert values s. induction fuel as [|fuel IH]; intros values s Hs Hf; unfold good_at; cbn [parse_values];
    destruct (at_close (peek_kind s)) eqn:Ec; try (by split_and!; [|lia|..]);
    pose proof (at_close_fuel s Hs Ec); [lia|].
  refine (good_at_attempt_then 1 parse_literal _ _ (λ vs, Forall literal_ok values -> Forall literal_ok vs) s
            (good_parse_literal (left s) s Hs (le_n _)) _ _).
  - intros lit s' Hs' Hl'. eapply good_at_weaken; [apply IH; [done|lia]|done|].
    intros vs H1 H2 H3. apply H1, Forall_app. by split; [|constructor].
  - intros s' Hs' _. by apply (good_at_quiet 0 _ (λ _, True)), (good_ret (left s')).
Qed.
Lemma good_parse_values n fuel : (n <= fuel)%nat -> good n 0 (parse_values fuel []) (Forall literal_ok).
Proof.
  intros Hf s Hs Hl. eapply good_at_weaken; [apply good_at_parse_values; [done|lia]|done|].
  intros vs H. by apply H.
Qed.

Lemma good_parse_set_membership n fuel start field :
  (n <= fuel)%nat -> good n 0 (parse_set_membership fuel start field) pred_ast_ok.
Proof.
  intros Hf. unfold parse_set_membership. pstep. pstep.
  eapply (good_weaken _ _ 0 0 _ (λ b, pred_ast_ok b)); [|done|done|by intros].
  assert (good (n - 1 - 0) 0 (values ← parse_values fuel [];
            _ ← pattempt (expect_rparen "')' to close set values");
            close ← expect_rparen "')' to close predicate";
            mret (AInSet field values (to_close start close))) pred_ast_ok).
  { eapply good_seq; [apply good_parse_values; lia|intros vs]. psteps. by constructor. }
  destruct (tok_kind a0); try done. psteps. by constructor.
Qed.

(** What follows a token looked at, whatever it was. *)
Lemma good_peek n {A B} (f : Parser -> B) (k : B -> Parse A) Q :
  (∀ b, good n 0 (k b) Q) -> good n 0 (b ← pget f; k b) Q.
Proof.
  intros H. eapply good_seq; [apply good_get|]. intros b.
  eapply good_weaken; [apply H|lia|done|by intros].
Qed.

Lemma good_parse_set_or_range n fuel start field :
  (n <= fuel)%nat -> good n 0 (parse_set_or_range fuel start field) pred_ast_ok.
Proof.
  intros Hf. do 2 (apply good_peek; intros ?). pose proof (good_parse_range n start field).
  pose proof (good_parse_set_membership n fuel start field Hf).
  destruct (tok_kind b), (peek_is_range b0); try done; apply good_error_none; eauto with parse.
Qed.

Lemma comparison_op_ok k make f v sp : comparison_op k = Some make -> pred_ast_ok (make f v sp).
Proof. destruct k; intros [= <-]; constructor. Qed.

Lemma good_parse_field_test n fuel start field :
  (n <= fuel)%nat -> good n 0 (parse_field_test fuel start field) pred_ast_ok.
Proof.
  intros Hf. apply good_peek. intros t. destruct (tok_kind t); cbn [comparison_op];
    try (by apply good_error_none; eauto with parse); try (by psteps; constructor).
  destruct (is_symbol "in" _).
  { pstep. eapply good_weaken; [apply (good_parse_set_or_range n fuel); lia|lia|done|by intros]. }
  destruct (is_symbol "is-null" _); [psteps; constructor|].
  destruct (is_symbol "is-not-null" _); [psteps; constructor|].
  apply good_error_none; eauto with parse.
Qed.

(** ** Predicates *)

Lemma good_parse_combinator n ctx body fuel start comb :
  (∀ o, good (n - 1) 0 (body o) pred_ast_ok) -> (n <= fuel)%nat ->
  good n 0 (parse_combinator (o ← expect_lparen ctx; body o) fuel start comb) pred_ast_ok.
Proof.
  intros Hb Hf. unfold parse_combinator. eapply good_seq; [by apply good_many|intros items]. pstep.
  eapply (good_seq _ 0 _ _ (λ _, (2 <= length items)%nat)).
  { destruct (length items <? 2)%nat eqn:E; [apply good_error|]. apply good_ret. apply Nat.ltb_ge in E. lia. }
  intros _. psteps. destruct (bool_decide _); by constructor.
Qed.

(** The parser of a predicate behind its opening parenthesis. *)
Definition predicate_body (fuel : nat) (open : Token) : Parse PredicateAst :=
  let start := span_start (tok_span open) in
  k ← pget peek_kind;
  if is_symbol "not" k then
    _ ← bump;
    inner ← parse_predicate fuel;
    close ← expect_rparen "')' to close 'not'";
    mret (ANot inner (to_close start close))
  else if is_symbol "and" k then _ ← bump; parse_combinator (parse_predicate fuel) fuel start "and"
  else if is_symbol "or" k then _ ← bump; parse_combinator (parse_predicate fuel) fuel start "or"
  else
    field ← pattempt (expect_symbol "field name in predicate");
    match field with
    | Some field => parse_field_test fuel start field
    | None => _ ← recover_to_paren_close 1; pnone
    end.
Lemma parse_predicate_S fuel :
  parse_predicate (S fuel) = (o ← expect_lparen "'(' to open predicate"; predicate_body fuel o).
Proof. reflexivity. Qed.

Lemma good_predicate_body n fuel o : (n <= fuel)%nat -> good n 0 (predicate_body fuel o) pred_ast_ok.
Proof.
  revert n o. induction fuel as [|fuel IH]; intros n o Hn.
  { intros s Hs Hl. destruct (ready_peek s Hs) as (l & El). unfold left in Hl. rewrite El in Hl. cbn in Hl. lia. }
  assert (∀ m o, (m <= S fuel)%nat -> good (m - 1) 0 (predicate_body fuel o) pred_ast_ok) as IH' by (intros; apply IH; lia).
  unfold predicate_body. rewrite parse_predicate_S. apply good_peek. intros k.
  destruct (is_symbol "not" k).
  { pstep. eapply good_seq.
    { eapply good_seq; [apply good_expect_lparen|]. intros o'. eapply good_weaken; [apply (IH' n); lia|lia..|by intros]. }
    intros p. psteps. constructor. eauto. }
  destruct (is_symbol "and" k).
  { pstep. eapply good_weaken; [apply (good_parse_combinator n); [by intros; apply IH'|lia]|lia|done|by intros]. }
  destruct (is_symbol "or" k).
  { pstep. eapply good_weaken; [apply (good_parse_combinator n); [by intros; apply IH'|lia]|lia|done|by intros]. }
  intros s Hs Hl. eapply good_at_attempt_then; [by apply (good_expect_symbol n)|..].
  - intros f s' Hs' Hl'. eapply good_at_weaken; [apply (good_parse_field_test n); [lia|done|lia]|done|by intros].
  - intros s' Hs' Hl'. by apply quiet_at_recover_none.
Qed.

Lemma good_when_step n fuel acc s :
  (n <= fuel)%nat -> ready s -> (left s <= n)%nat -> at_close (peek_kind s) = false ->
  good_at 1 (parse_when_step fuel acc) (λ acc', Forall pred_ast_ok acc -> Forall pred_ast_ok acc') s.
Proof.
  intros Hf Hs Hl Hc. destruct fuel as [|fuel].
  { pose proof (at_close_fuel s Hs Hc). lia. }
  assert (good_at 1 (parse_item (parse_predicate (S fuel)) recover_past_current_paren_close push_item acc)
            (λ acc', Forall pred_ast_ok acc -> Forall pred_ast_ok acc') s) as H.
  { rewrite parse_predicate_S. apply (good_at_item_step _ _ pred_ast_ok _ _ _ n); [|apply recovers_past_paren| |done..].
    - intros o. apply good_predicate_body. lia.
    - intros p acc'. apply good_ret. intros HQ HI. apply Forall_app. by split; [|constructor]. }
  unfold parse_when_step, good_at in *. destruct (peek_kind s) eqn:Ek; try exact H.
  apply (good_at_pushed 1 (_ ← bump; mret acc) (λ _, True) _ (WildcardMixedWithPredicates (tok_span (peek s)))); [|done].
  apply good_at_bump_then; [done|unfold peek_kind, peek in *; cbn; congruence|].
  intros s' Hs' _. by apply (good_ret (left s')).
Qed.

Lemma good_parse_predicate_block n fuel :
  (n <= fuel)%nat -> good n 0 (parse_predicate_block fuel) (λ w, Forall pred_ast_ok (when_ast w)).
Proof.
  intros Hf. unfold parse_predicate_block. pstep. pstep.
  eapply (good_weaken _ _ 0 0 _ (λ w, Forall pred_ast_ok (when_ast w))); [|done|done|by intros].
  assert (good (n - 1 - 0) 0 (preds ← parse_loop (parse_when_step fuel) fuel [];
            close ← expect_rparen "')' to close :when block";
            mret (WPredicates preds (to_close (span_start (tok_span a)) close)))
            (λ w, Forall pred_ast_ok (when_ast w))) as H.
  { eapply (good_seq _ 0 _ _ (Forall pred_ast_ok)).
    - intros s Hs Hl. eapply good_at_weaken.
      + eapply (good_at_loop n _ (Forall pred_ast_ok)); [|done|lia|lia].
        intros acc s' Hs' Hl' Hc. by apply (good_when_step n).
      + done.
      + intros acc H. by apply H.
    - intros preds. psteps. done. }
  destruct (tok_kind a0); try exact H. pstep. pstep.
  destruct a2; try (apply good_error_none; eauto with parse nocore; fail).
  psteps. by cbn.
Qed.

(** ** Assignments, rules, declarations *)

Definition assignment_ok (a : AssignmentAst) : Prop := literal_ok (aa_value a).

Lemma good_parse_block n {A} ctx (body : Token -> Parse A) (Q : A -> Prop) fuel open close :
  (∀ o, good (n - 1) 0 (body o) Q) -> (n <= fuel)%nat ->
  good n 0 (parse_block fuel (o ← expect_lparen ctx; body o) open close) (Forall Q).
Proof.
  intros Hb Hf. unfold parse_block. pstep. destruct a as [o|].
  - eapply good_weaken; [|apply (le_n (n - 0))|done|].
    + eapply good_seq; [apply (good_many _ _ _ Q); [|lia]|].
      * intros o'. eapply good_weaken; [apply (Hb o')|lia|done|done].
      * intros items. psteps. eassumption.
    + by intros.
  - apply good_ret. by intros (a & Ha & _).
Qed.

Lemma good_assignment_block n fuel : (n <= fuel)%nat -> good n 0 (parse_assignment_block fuel) (Forall assignment_ok).
Proof.
  intros Hf. apply good_parse_block; [|done]. intros o. psteps.
  destruct (tok_kind a0); try (apply good_error_none; eauto with parse nocore; fail). psteps. done.
Qed.

Lemma good_parse_type_ref n : good n 0 parse_type_ref (λ _, True).
Proof.
  apply good_peek. intros t. destruct (tok_kind t); try (by eauto with parse). pstep.
  destruct (type_ref_of _ _); [by apply good_ret|apply good_fail].
Qed.
#[export] Hint Resolve good_parse_type_ref : parse.

Lemma good_decl_block n fuel open close :
  (n <= fuel)%nat -> good n 0 (parse_block fuel parse_field_decl_inner open close) (Forall (λ _, True)).
Proof. intros Hf. apply good_parse_block; [|done]. intros o. by psteps. Qed.

Lemma good_rule_body n fuel o :
  (n <= fuel)%nat -> good n 0
    (_ ← expect_symbol_named "rule";
     id ← expect_symbol "rule identifier";
     _ ← expect_symbol_named ":when";
     w ← parse_predicate_block fuel;
     _ ← expect_symbol_named ":then";
     t ← parse_assignment_block fuel;
     close ← expect_rparen "')' to close rule";
     mret (mkRuleAst id w t (to_close (span_start (tok_span o)) close))) rule_ast_ok.
Proof.
  intros Hf. pstep. pstep. pstep. eapply good_seq; [apply good_parse_predicate_block; lia|intros w].
  pstep. eapply good_seq; [apply good_assignment_block; lia|intros t]. psteps. by split.
Qed.

Lemma good_rules_block n fuel : (n <= fuel)%nat -> good n 0 (parse_rules_block fuel) (Forall rule_ast_ok).
Proof.
  intros Hf. unfold parse_rules_block. pstep. destruct a as [o|].
  - eapply (good_seq _ 0 _ _ (λ acc, Forall rule_ast_ok (fst acc))).
    + intros s Hs Hl. eapply good_at_weaken.
      * eapply (good_at_loop n _ (λ acc, Forall rule_ast_ok (fst acc))); [|done|lia|lia].
        intros acc s' Hs' Hl' Hc. unfold parse_rule.
        apply (good_at_item_step _ _ rule_ast_ok _ _ (λ acc, Forall rule_ast_ok (fst acc)) n); [|apply recovers_rule| |done..].
        -- intros o'. apply good_rule_body. lia.
        -- intros r acc'. unfold keep_rule, note_catch_all.
           eapply (good_seq _ 0 _ _ (λ _, True)).
           ++ repeat case_match; psteps; done.
           ++ intros seen. apply good_ret. intros _ HQ HI. cbn. apply Forall_app. by split; [|constructor].
      * done.
      * intros acc H. by apply H.
    + intros acc. psteps. done.
  - apply good_ret. by intros (a & Ha & _).
Qed.

(** ** Decisions *)

Lemma good_parse_hit_policy_kind n : good n 0 parse_hit_policy_kind (λ _, True).
Proof.
  apply good_peek. intros t. destruct (tok_kind t); try (by eauto with parse). pstep.
  repeat case_match; first [by apply good_ret|apply good_fail].
Qed.
#[export] Hint Resolve good_parse_hit_policy_kind : parse.

(** An attribute that is absent has left an error. *)
Lemma good_required n {A} kw (absent : A) (m : Parse A) (Q : A -> Prop) :
  good n 0 m Q -> good n 0 (required kw absent m) Q.
Proof.
  intros Hm s Hs Hl.
  assert (∀ n', (n' <= n)%nat -> good n' 0 (_ ← bump; m) Q) as Hm'.
  { intros n' Hn. pstep. eapply good_weaken; [exact Hm|lia|done|by intros]. }
  destruct (is_symbol kw (peek_kind s)) eqn:Ek.
  - assert (required kw absent m s = (_ ← bump; m) s) as E.
    { unfold required, peek_symbol_is, pget, mbind, Parse_bind, mret, Parse_ret. by rewrite !Ek. }
    unfold good_at. rewrite E. by apply (Hm' n).
  - apply (good_at_pushed 0 (_ ← recover_to_keyword_or_rparen; here ← peek_symbol_is kw;
                             if here : bool then _ ← bump; m else mret absent)
             (λ _, True) _ (MissingField kw (tok_span (peek s)))).
    + eapply good_here; [|exact Hs|exact Hl]. pstep. apply good_peek. intros here. destruct here; [|by apply good_ret].
      eapply good_weaken; [apply (Hm' n); lia|lia|done|by intros].
    + unfold required, peek_symbol_is, pget, mbind, Parse_bind, mret, Parse_ret, perror. by rewrite !Ek.
Qed.

Lemma good_parse_decision n fuel :
  (n <= fuel)%nat -> good n 0 (parse_decision fuel) (λ d, Forall rule_ast_ok (da_rules d)).
Proof.
  intros Hf. unfold parse_decision. do 4 pstep.
  eapply (good_seq _ 0 _ _ (λ _, True)).
  { destruct a2; psteps; [|done]. eapply good_weaken; [exact (good_attempt n 1 _ _ (good_parse_string_lit n))|lia|done|done]. }
  intros decision_id. eapply good_seq; [eapply good_required; eauto with parse nocore|intros hp].
  eapply good_seq; [eapply good_required; apply good_decl_block; lia|intros ins].
  eapply good_seq; [eapply good_required; apply good_decl_block; lia|intros outs].
  pstep. pstep. eapply (good_seq _ 0 _ _ (Forall rule_ast_ok)).
  - destruct a3.
    + pstep. eapply good_weaken; [apply (good_rules_block n fuel); lia|lia|done|by intros].
    + psteps. done.
  - intros rules. psteps. done.
Qed.

(** ** Sources *)

(** What [run_parser] accepts: one decision, whose rules the compiler takes. *)
Definition accepted (ast : Source) : Prop :=
  ∃ d, src_decisions ast = [d] ∧ Forall rule_ast_ok (da_rules d).

Lemma run_parser_returns tokens :
  tokens_ok tokens -> ∃ ast errs, run_parser tokens = Some (ast, errs) ∧ (errs = [] -> accepted ast).
Proof.
  intros Hok. set (s := mkParser tokens []).
  assert (ready s) as Hs by done. pose proof (good_parse_decision (left s) (length tokens) (le_n _) s Hs (le_n _)) as Hd.
  unfold run_parser. fold s. unfold parse_source, mbind, Parse_bind, pget, mret, Parse_ret, pattempt, perror. cbv beta iota zeta.
  unfold good_at in Hd.
  destruct (is_eof (tok_kind (peek s))) eqn:Ee.
  - cbv beta iota zeta. unfold peek_kind. rewrite Ee. cbn. eexists _, _. split; [done|]. by intros [=].
  - destruct (parse_decision (length tokens) s) as [[d| |] s'] eqn:Ed; [| |done];
      cbv beta iota zeta; cbn [option_list].
    + destruct Hd as (_ & _ & _ & HQ).
      destruct (is_eof (peek_kind s')); cbn; eexists _, _; (split; [done|]); cbn; intros E.
      * exists d. split; [done|by apply HQ].
      * by destruct (ps_errors s').
    + destruct Hd as (_ & _ & _ & Hne). cbn in Hne.
      destruct (is_eof (peek_kind s')); cbn; destruct (ps_errors s') as [|e es] eqn:Ees; try done; cbn;
        eexists _, _; (split; [done|]); cbn; rewrite ?Ees; by intros E.
Qed.
