(* ===== verification/DmnReads.v ===== *)
(** * dmn-lite: the concrete syntax of a decision and how the parser reads it

    A reference printer for the grammar the parser reads: the token kinds of a
    decision and their text, what a decision is up to source positions, and
    which decisions have a concrete syntax. *)

From Stdlib Require Import Strings.Ascii.
From S2P Require Import Prelude RustStr Json Types DmnTypes DmnLower DmnLexer DmnParser DmnTyping DmnParserFacts.

(** ** Up to source positions *)

Definition no_span : SourceSpan := mkSpan 0 0.
Definition strip_symbol (s : SymbolAst) : SymbolAst := mkSymbol (sym_name s) no_span.
Definition strip_number (n : NumberLitAst) : NumberLitAst := mkNumberLit (num_text n) (num_kind n) no_span.
Definition strip_string (s : StringLitAst) : StringLitAst := mkStringLit (str_value s) no_span.
Definition strip_literal (l : LiteralAst) : LiteralAst :=
  match l with
  | LSymbol s => LSymbol (strip_symbol s)
  | LString s => LString (strip_string s)
  | LNumber n => LNumber (strip_number n)
  | LBoolean b _ => LBoolean b no_span
  end.
Definition strip_bound (b : RangeBound) : RangeBound :=
  match b with Unbounded _ => Unbounded no_span | BoundValue n => BoundValue (strip_number n) end.
Fixpoint strip_predicate (p : PredicateAst) : PredicateAst :=
  match p with
  | AEq f v _ => AEq (strip_symbol f) (strip_literal v) no_span
  | ANotEq f v _ => ANotEq (strip_symbol f) (strip_literal v) no_span
  | ALt f v _ => ALt (strip_symbol f) (strip_number v) no_span
  | ALe f v _ => ALe (strip_symbol f) (strip_number v) no_span
  | AGt f v _ => AGt (strip_symbol f) (strip_number v) no_span
  | AGe f v _ => AGe (strip_symbol f) (strip_number v) no_span
  | AInSet f vs _ => AInSet (strip_symbol f) (map strip_literal vs) no_span
  | ARange f lo up li ui _ => ARange (strip_symbol f) (strip_bound lo) (strip_bound up) li ui no_span
  | AIsNull f _ => AIsNull (strip_symbol f) no_span
  | AIsNotNull f _ => AIsNotNull (strip_symbol f) no_span
  | ANot p _ => ANot (strip_predicate p) no_span
  | AAnd ps _ => AAnd (map strip_predicate ps) no_span
  | AOr ps _ => AOr (map strip_predicate ps) no_span
  end.
Definition strip_when (w : WhenAst) : WhenAst :=
  match w with
  | WCatchAll _ => WCatchAll no_span
  | WPredicates ps _ => WPredicates (map strip_predicate ps) no_span
  end.
Definition strip_assignment (a : AssignmentAst) : AssignmentAst :=
  mkAssignAst (strip_symbol (aa_output a)) (strip_literal (aa_value a)) no_span.
Definition strip_rule (r : RuleAst) : RuleAst :=
  mkRuleAst (strip_symbol (ra_id r)) (strip_when (ra_when r)) (map strip_assignment (ra_then r)) no_span.
Definition strip_type_ref (t : TypeRefAst) : TypeRefAst :=
  match t with
  | TREnum _ => TREnum no_span | TRBool _ => TRBool no_span | TRInteger _ => TRInteger no_span
  | TRDecimal _ => TRDecimal no_span | TRString _ => TRString no_span
  end.
Definition strip_decl (d : FieldDeclAst) : FieldDeclAst :=
  mkFieldDecl (strip_symbol (decl_name d)) (strip_type_ref (decl_type_ref d)) (strip_symbol (decl_domain_ref d)) no_span.
Definition strip_hit_policy (h : HitPolicyAst) : HitPolicyAst :=
  match h with HPUnique _ => HPUnique no_span | HPFirst _ => HPFirst no_span end.
Definition strip_decision (d : DecisionAst) : DecisionAst :=
  mkDecisionAst (strip_symbol (da_name d)) (strip_string <$> da_decision_id d) (strip_hit_policy (da_hit_policy d))
    (map strip_decl (da_inputs d)) (map strip_decl (da_outputs d)) (map strip_rule (da_rules d)) no_span.

(** ** Tokens *)

Definition number_tokens (n : NumberLitAst) : list TokenKind :=
  [match num_kind n with NKInteger => TIntLit (num_text n) | NKDecimal => TDecLit (num_text n) end].
Definition literal_tokens (l : LiteralAst) : list TokenKind :=
  match l with
  | LSymbol s => [TSymbol (sym_name s)]
  | LString s => [TStrLit (str_value s)]
  | LNumber n => number_tokens n
  | LBoolean b _ => [TSymbol (if b then "true" else "false")]
  end.
Definition bound_tokens (b : RangeBound) : list TokenKind :=
  match b with Unbounded _ => [TStar] | BoundValue n => number_tokens n end.
Definition in_parens (l : list TokenKind) : list TokenKind := TLParen :: l ++ [TRParen].
Definition field_test_tokens (f : SymbolAst) (test : list TokenKind) : list TokenKind :=
  in_parens (TSymbol (sym_name f) :: test).
Fixpoint predicate_tokens (p : PredicateAst) : list TokenKind :=
  match p with
  | AEq f v _ => field_test_tokens f (TEq :: literal_tokens v)
  | ANotEq f v _ => field_test_tokens f (TNotEq :: literal_tokens v)
  | ALt f v _ => field_test_tokens f (TLt :: number_tokens v)
  | ALe f v _ => field_test_tokens f (TLe :: number_tokens v)
  | AGt f v _ => field_test_tokens f (TGt :: number_tokens v)
  | AGe f v _ => field_test_tokens f (TGe :: number_tokens v)
  | AInSet f vs _ => field_test_tokens f (TSymbol "in" :: in_parens (concat (map literal_tokens vs)))
  | ARange f lo up li ui _ =>
      field_test_tokens f
        (TSymbol "in" :: (if li then TLBracket else TLParen) :: bound_tokens lo ++ TDotDot :: bound_tokens up
         ++ [if ui then TRBracket else TRParen])
  | AIsNull f _ => field_test_tokens f [TSymbol "is-null"]
  | AIsNotNull f _ => field_test_tokens f [TSymbol "is-not-null"]
  | ANot p _ => in_parens (TSymbol "not" :: predicate_tokens p)
  | AAnd ps _ => in_parens (TSymbol "and" :: concat (map predicate_tokens ps))
  | AOr ps _ => in_parens (TSymbol "or" :: concat (map predicate_tokens ps))
  end.
Definition when_tokens (w : WhenAst) : list TokenKind :=
  match w with
  | WCatchAll _ => in_parens [TStar]
  | WPredicates ps _ => in_parens (concat (map predicate_tokens ps))
  end.
Definition assignment_tokens (a : AssignmentAst) : list TokenKind :=
  field_test_tokens (aa_output a) (TEq :: literal_tokens (aa_value a)).
Definition rule_tokens (r : RuleAst) : list TokenKind :=
  in_parens (TSymbol "rule" :: TSymbol (sym_name (ra_id r)) :: TSymbol ":when" :: when_tokens (ra_when r)
             ++ TSymbol ":then" :: in_parens (concat (map assignment_tokens (ra_then r)))).
Definition type_ref_name (t : TypeRefAst) : string :=
  match t with
  | TREnum _ => "enum" | TRBool _ => "bool" | TRInteger _ => "integer" | TRDecimal _ => "decimal"
  | TRString _ => "string"
  end.
Definition decl_tokens (d : FieldDeclAst) : list TokenKind :=
  in_parens [TSymbol (sym_name (decl_name d)); TSymbol ":type"; TSymbol (type_ref_name (decl_type_ref d));
             TSymbol ":domain"; TSymbol (sym_name (decl_domain_ref d))].
Definition hit_policy_name (h : HitPolicyAst) : string :=
  match h with HPUnique _ => "unique" | HPFirst _ => "first" end.
Definition decision_id_tokens (i : option StringLitAst) : list TokenKind :=
  match i with Some s => [TSymbol ":decision-id"; TStrLit (str_value s)] | None => [] end.
Definition decision_tokens (d : DecisionAst) : list TokenKind :=
  in_parens ([TSymbol "define-decision"; TSymbol (sym_name (da_name d))]
    ++ decision_id_tokens (da_decision_id d)
    ++ [TSymbol ":hit-policy"; TSymbol (hit_policy_name (da_hit_policy d))]
    ++ TSymbol ":inputs" :: in_parens (concat (map decl_tokens (da_inputs d)))
    ++ TSymbol ":outputs" :: in_parens (concat (map decl_tokens (da_outputs d)))
    ++ TSymbol ":rules" :: in_parens (concat (map rule_tokens (da_rules d)))).

(** ** Decisions with a concrete syntax *)

(** A symbol literal is not read as a boolean. *)
Definition literal_syntax (l : LiteralAst) : Prop :=
  match l with LSymbol s => sym_name s ∉ ["true"; "false"] | _ => True end.
(** A field is not read as a connective. *)
Definition field_syntax (f : SymbolAst) : Prop := sym_name f ∉ ["not"; "and"; "or"].
Inductive pred_syntax : PredicateAst -> Prop :=
| ps_eq f v s : field_syntax f -> literal_syntax v -> pred_syntax (AEq f v s)
| ps_not_eq f v s : field_syntax f -> literal_syntax v -> pred_syntax (ANotEq f v s)
| ps_lt f v s : field_syntax f -> pred_syntax (ALt f v s)
| ps_le f v s : field_syntax f -> pred_syntax (ALe f v s)
| ps_gt f v s : field_syntax f -> pred_syntax (AGt f v s)
| ps_ge f v s : field_syntax f -> pred_syntax (AGe f v s)
| ps_in_set f vs s : field_syntax f -> vs ≠ [] -> Forall literal_syntax vs -> pred_syntax (AInSet f vs s)
| ps_range f lo up li ui s : field_syntax f -> pred_syntax (ARange f lo up li ui s)
| ps_null f s : field_syntax f -> pred_syntax (AIsNull f s)
| ps_not_null f s : field_syntax f -> pred_syntax (AIsNotNull f s)
| ps_not p s : pred_syntax p -> pred_syntax (ANot p s)
| ps_and items s : (2 <= length items)%nat -> Forall pred_syntax items -> pred_syntax (AAnd items s)
| ps_or items s : (2 <= length items)%nat -> Forall pred_syntax items -> pred_syntax (AOr items s).

Definition is_catch_all (r : RuleAst) : bool := match ra_when r with WCatchAll _ => true | _ => false end.
Record rule_syntax (r : RuleAst) : Prop := {
  rs_when : Forall pred_syntax (when_ast (ra_when r));
  rs_then : Forall (λ a, literal_syntax (aa_value a)) (ra_then r);
}.
(** At most one rule is a catch-all. *)
Record decision_syntax (d : DecisionAst) : Prop := {
  ds_rules : Forall rule_syntax (da_rules d);
  ds_catch_all : (length (filter (λ r, is_catch_all r = true) (da_rules d)) <= 1)%nat;
}.

(** ** Text *)

Definition is_special (b : Byte.byte) : bool := Byte.eqb b Byte.x22 || Byte.eqb b Byte.x5c.
(** Quotes and backslashes of a string literal are escaped. *)
Definition escape (l : list Byte.byte) : list Byte.byte :=
  flat_map (λ b, if is_special b then [Byte.x5c; b] else [b]) l.
Definition token_text (k : TokenKind) : list Byte.byte :=
  match k with
  | TLParen => [Byte.x28] | TRParen => [Byte.x29] | TLBracket => [Byte.x5b] | TRBracket => [Byte.x5d]
  | TDotDot => [Byte.x2e; Byte.x2e] | TEq => [Byte.x3d] | TNotEq => [Byte.x21; Byte.x3d]
  | TLt => [Byte.x3c] | TLe => [Byte.x3c; Byte.x3d] | TGt => [Byte.x3e] | TGe => [Byte.x3e; Byte.x3d]
  | TStar => [Byte.x2a]
  | TSymbol s | TIntLit s | TDecLit s => as_bytes s
  | TStrLit s => Byte.x22 :: escape (as_bytes s) ++ [Byte.x22]
  | TEof => []
  end.
(** A space after every token. *)
Definition tokens_text (ks : list TokenKind) : list Byte.byte :=
  flat_map (λ k, token_text k ++ [Byte.x20]) ks.
Definition print_decision (d : DecisionAst) : string := text_of (tokens_text (decision_tokens d)).

(** No [..] inside. *)
Fixpoint no_dotdot (l : list Byte.byte) : bool :=
  match l with
  | Byte.x2e :: (Byte.x2e :: _) => false
  | _ :: l' => no_dotdot l'
  | [] => true
  end.
Definition symbol_syntax (l : list Byte.byte) : bool :=
  match l with
  | b :: l' => (is_symbol_start b || Byte.eqb b Byte.x3a) && forallb is_symbol_continue l' && no_dotdot l'
  | [] => false
  end.
(** Digits, at least one. *)
Definition digits_syntax (l : list Byte.byte) : bool := negb (bool_decide (l = [])) && forallb is_digit l.
(** The digits behind an optional minus. *)
Definition unsigned (l : list Byte.byte) : list Byte.byte :=
  match l with Byte.x2d :: l' => l' | _ => l end.
Fixpoint split_dot (l : list Byte.byte) : option (list Byte.byte * list Byte.byte) :=
  match l with
  | [] => None
  | Byte.x2e :: l' => Some ([], l')
  | b :: l' => '(i, f) ← split_dot l'; Some (b :: i, f)
  end.
Definition int_syntax (l : list Byte.byte) : bool := digits_syntax (unsigned l).
Definition dec_syntax (l : list Byte.byte) : bool :=
  match split_dot l with Some (i, f) => int_syntax i && digits_syntax f | None => false end.

(** A token that has a text. *)
Definition kind_syntax (k : TokenKind) : bool :=
  match k with
  | TSymbol s => symbol_syntax (as_bytes s)
  | TIntLit s => int_syntax (as_bytes s)
  | TDecLit s => dec_syntax (as_bytes s)
  | TStrLit s => bool_decide (is_Some (from_utf8 (as_bytes s)))
  | TEof => false
  | _ => true
  end.

(** * dmn-lite: the parser reads the concrete syntax

    A logic for parsing without errors: which tokens a step consumes, before
    which token, and what it yields.  From it: the parser reads the tokens of a
    decision back as that decision, up to source positions. *)

(** [m] consumes tokens of the kinds [ks] before a token of kind in [N],
    without an error, and yields a value with [Q]. *)
Definition reads {A} (ks : list TokenKind) (N : TokenKind -> Prop) (m : Parse A) (Q : A -> Prop) : Prop :=
  ∀ ts t rest errs, map tok_kind ts = ks -> N (tok_kind t) ->
    ∃ a, m (mkParser (ts ++ t :: rest) errs) = (PSome a, mkParser (t :: rest) errs) ∧ Q a.
Definition anything : TokenKind -> Prop := λ _, True.

Lemma reads_bind {A B} ks1 ks2 N1 N (m : Parse A) (f : A -> Parse B) Q R :
  reads ks1 N1 m Q -> match ks2 with k :: _ => N1 k | [] => ∀ k, N k -> N1 k end ->
  (∀ a, Q a -> reads ks2 N (f a) R) -> reads (ks1 ++ ks2) N (m ≫= f) R.
Proof.
  intros Hm HN Hf ts t rest errs Hts Ht. apply map_eq_app in Hts as (ts1 & ts2 & -> & H1 & H2).
  rewrite <- app_assoc. unfold mbind, Parse_bind.
  assert (∃ t' rest', ts2 ++ t :: rest = t' :: rest' ∧ N1 (tok_kind t')) as (t' & rest' & E & Ht').
  { destruct ts2 as [|t2 ts2]; cbn in H2; subst ks2; [by eexists _, _; split; [|apply HN]|by eexists _, _]. }
  rewrite E. destruct (Hm ts1 t' rest' errs H1 Ht') as (a & -> & HQ). rewrite <- E. by apply (Hf a HQ).
Qed.

Lemma reads_seq {A B} ks1 ks2 N (m : Parse A) (f : A -> Parse B) Q R :
  reads ks1 anything m Q -> (∀ a, Q a -> reads ks2 N (f a) R) -> reads (ks1 ++ ks2) N (m ≫= f) R.
Proof. intros Hm Hf. eapply reads_bind; [exact Hm|by destruct ks2|done]. Qed.

Lemma reads_ret {A} N (a : A) (Q : A -> Prop) : Q a -> reads [] N (mret a) Q.
Proof. intros HQ ts t rest errs Hts Ht; destruct ts; [|done]. by exists a. Qed.
Lemma reads_weaken {A} ks (N N' : _ -> Prop) (m : Parse A) (Q Q' : A -> Prop) :
  reads ks N m Q -> (∀ k, N' k -> N k) -> (∀ a, Q a -> Q' a) -> reads ks N' m Q'.
Proof. intros H HN HQ ts t rest errs Hts Ht. destruct (H ts t rest errs Hts) as (a & E & ?); eauto. Qed.

(** The next token is known. *)
Lemma reads_cons {A} k ks N (m : Parse A) Q :
  (∀ t0 ts t rest errs, tok_kind t0 = k -> map tok_kind ts = ks -> N (tok_kind t) ->
     ∃ a, m (mkParser (t0 :: ts ++ t :: rest) errs) = (PSome a, mkParser (t :: rest) errs) ∧ Q a) ->
  reads (k :: ks) N m Q.
Proof. intros H [|t0 ts] t rest errs Hts Ht; [done|]. injection Hts as H1 H2. by apply H. Qed.

(** Looking at the next token. *)
Lemma reads_peek {A} k ks N (f : Token -> Parse A) Q :
  (∀ t, tok_kind t = k -> reads (k :: ks) N (f t) Q) -> reads (k :: ks) N (t ← pget peek; f t) Q.
Proof.
  intros H. apply reads_cons. intros t0 ts t rest errs H0 Hts Ht.
  apply (H t0 H0 (t0 :: ts)); [cbn; congruence|done].
Qed.
Lemma reads_peek_kind {A} k ks N (f : TokenKind -> Parse A) Q :
  reads (k :: ks) N (f k) Q -> reads (k :: ks) N (k ← pget peek_kind; f k) Q.
Proof.
  intros H. apply reads_cons. intros t0 ts t rest errs <- Hts Ht. apply (H (t0 :: ts)); [cbn; congruence|done].
Qed.
Lemma reads_symbol_is {A} k ks N name (f : bool -> Parse A) Q :
  reads (k :: ks) N (f (is_symbol name k)) Q -> reads (k :: ks) N (b ← peek_symbol_is name; f b) Q.
Proof.
  intros H. apply reads_cons. intros t0 ts t rest errs <- Hts Ht. apply (H (t0 :: ts)); [cbn; congruence|done].
Qed.

Lemma bump_cons t0 ts t rest errs :
  bump (mkParser (t0 :: ts ++ t :: rest) errs) = (PSome t0, mkParser (ts ++ t :: rest) errs).
Proof. by destruct ts. Qed.
Lemma reads_bump {A} k ks N (f : Token -> Parse A) Q :
  (∀ t, tok_kind t = k -> reads ks N (f t) Q) -> reads (k :: ks) N (t ← bump; f t) Q.
Proof.
  intros H. apply reads_cons. intros t0 ts t rest errs H0 Hts Ht. unfold mbind, Parse_bind. rewrite bump_cons.
  by apply (H t0 H0).
Qed.

(** A step that is [bump] on tokens of kind [k]. *)
Lemma reads_expect {A B} k ks N (m : Parse A) (g : Token -> A) (f : A -> Parse B) Q :
  (∀ s, peek_kind s = k -> m s = (t ← bump; mret (g t)) s) ->
  (∀ t, tok_kind t = k -> reads ks N (f (g t)) Q) -> reads (k :: ks) N (a ← m; f a) Q.
Proof.
  intros Hm H. apply reads_cons. intros t0 ts t rest errs H0 Hts Ht. unfold mbind at 1, Parse_bind at 1.
  rewrite Hm by done. unfold mbind, Parse_bind. rewrite bump_cons. by apply (H t0 H0).
Qed.

Section expect.
Context {B : Type} (N : TokenKind -> Prop) (ks : list TokenKind) (Q : B -> Prop).

Lemma reads_lparen ctx (f : Token -> Parse B) :
  (∀ t, reads ks N (f t) Q) -> reads (TLParen :: ks) N (t ← expect_lparen ctx; f t) Q.
Proof.
  intros H. apply (reads_expect TLParen ks N (expect_lparen ctx) id); [|by intros].
  intros s Hk. unfold expect_lparen. by rewrite Hk.
Qed.
Lemma reads_rparen ctx (f : Token -> Parse B) :
  (∀ t, reads ks N (f t) Q) -> reads (TRParen :: ks) N (t ← expect_rparen ctx; f t) Q.
Proof.
  intros H. apply (reads_expect TRParen ks N (expect_rparen ctx) id); [|by intros].
  intros s Hk. unfold expect_rparen. by rewrite Hk.
Qed.
Lemma reads_dotdot (f : Token -> Parse B) :
  (∀ t, reads ks N (f t) Q) -> reads (TDotDot :: ks) N (t ← expect_dotdot; f t) Q.
Proof.
  intros H. apply (reads_expect TDotDot ks N expect_dotdot id); [|by intros].
  intros s Hk. unfold expect_dotdot. by rewrite Hk.
Qed.
Lemma reads_symbol name ctx (f : SymbolAst -> Parse B) :
  (∀ y, sym_name y = name -> reads ks N (f y) Q) -> reads (TSymbol name :: ks) N (t ← expect_symbol ctx; f t) Q.
Proof.
  intros H. apply (reads_expect (TSymbol name) ks N (expect_symbol ctx) (λ t, mkSymbol name (tok_span t))).
  - intros s Hk. unfold expect_symbol. by rewrite Hk.
  - intros t _. by apply H.
Qed.
Lemma reads_named name (f : Token -> Parse B) :
  (∀ t, reads ks N (f t) Q) -> reads (TSymbol name :: ks) N (t ← expect_symbol_named name; f t) Q.
Proof.
  intros H. apply (reads_expect (TSymbol name) ks N (expect_symbol_named name) id); [|by intros].
  intros s Hk. unfold expect_symbol_named. rewrite Hk. cbn. by rewrite bool_decide_true.
Qed.
End expect.

(** Around an attempt that succeeds. *)
Lemma reads_attempt {A} ks N (m : Parse A) Q :
  reads ks N m Q -> reads ks N (pattempt m) (λ o, ∃ a, o = Some a ∧ Q a).
Proof.
  intros H ts t rest errs Hts Ht. unfold pattempt. destruct (H ts t rest errs Hts Ht) as (a & -> & HQ).
  by exists (Some a); eauto.
Qed.
(** A single token read by itself. *)
Lemma reads_lone {A} k N (m : Parse A) Q : reads (k :: []) N (a ← m; mret a) Q -> reads [k] N m Q.
Proof.
  intros H ts t rest errs Hts Ht. destruct (H ts t rest errs Hts Ht) as (a & E & HQ).
  unfold mbind, Parse_bind in E. exists a. split; [|done]. by destruct (m _) as [[] ?].
Qed.

(** The parentheses of a block, which may be missing. *)
Lemma reads_open ctx N : reads [TLParen] N (pattempt (expect_lparen ctx)) (λ o, ∃ t, o = Some t).
Proof.
  eapply reads_weaken; [apply reads_attempt, reads_lone, reads_lparen; intros t; by apply (reads_ret _ t (λ _, True))|done|].
  intros o (t & -> & _). by eexists.
Qed.
Lemma reads_close ctx N : reads [TRParen] N (pattempt (expect_rparen ctx)) (λ _, True).
Proof.
  eapply reads_weaken; [apply reads_attempt, reads_lone, reads_rparen; intros t; by apply (reads_ret _ t (λ _, True))|done|done].
Qed.

(** ** Loops *)

Lemma reads_loop {X S} (pr : X -> list TokenKind) (step : S -> Parse S) (R : list X -> S -> Prop) xs fuel acc :
  (∀ x, x ∈ xs -> ∃ ks, pr x = TLParen :: ks) ->
  (∀ pre x post acc, xs = pre ++ x :: post -> R pre acc -> reads (pr x) anything (step acc) (R (pre ++ [x]))) ->
  (length xs <= fuel)%nat -> R [] acc ->
  reads (concat (map pr xs)) (λ k, k = TRParen) (parse_loop step fuel acc) (R xs).
Proof.
  intros Hpr Hstep.
  assert (∀ post pre fuel acc, xs = pre ++ post -> (length post <= fuel)%nat -> R pre acc ->
            reads (concat (map pr post)) (λ k, k = TRParen) (parse_loop step fuel acc) (R xs)) as H.
  2:{ intros Hf HR. by apply (H xs []). }
  clear fuel acc. induction post as [|x post IH]; intros pre fuel acc Exs Hf HR.
  - intros ts t rest errs Hts Ht; destruct ts; [|done]. exists acc. rewrite app_nil_r in Exs. subst pre. split; [|done].
    destruct fuel; cbn [parse_loop]; unfold peek_kind; cbn; by rewrite Ht.
  - destruct fuel as [|fuel]; [cbn in Hf; lia|].
    destruct (Hpr x) as [ks Ek]; [rewrite Exs; set_solver|].
    assert (reads (pr x ++ concat (map pr post)) (λ k, k = TRParen) (acc' ← step acc; parse_loop step fuel acc') (R xs)) as H.
    { apply (reads_seq _ _ _ _ _ (R (pre ++ [x]))); [by apply (Hstep pre x post)|].
      intros acc' HR'. apply (IH (pre ++ [x])); [by rewrite <- app_assoc|cbn in Hf; lia|done]. }
    cbn [map concat]. rewrite Ek in *. cbn [app] in *. apply reads_cons. intros t0 ts t rest errs H0 Hts Ht.
    destruct (H (t0 :: ts) t rest errs) as (a & E & HQ); [cbn; congruence|done|].
    exists a. split; [|done]. cbn [parse_loop]. unfold peek_kind. cbn. rewrite H0. cbn. exact E.
Qed.

(** Items kept in order. *)
Lemma reads_many {X A} (pr : X -> list TokenKind) (item : Parse A) (strip : A -> X) (norm : X -> X) xs fuel :
  (∀ x, x ∈ xs -> ∃ ks, pr x = TLParen :: ks) ->
  (∀ x, x ∈ xs -> reads (pr x) anything item (λ a, strip a = norm x)) ->
  (length xs <= fuel)%nat ->
  reads (concat (map pr xs)) (λ k, k = TRParen) (parse_many item fuel) (λ l, map strip l = map norm xs).
Proof.
  intros Hpr Hitem Hf. apply (reads_loop _ _ (λ pre acc, map strip acc = map norm pre)); [done| |done|done].
  intros pre x post acc -> HR. rewrite <- (app_nil_r (pr x)).
  eapply reads_seq; [apply reads_attempt, Hitem; set_solver|].
  intros o (a & -> & Ha). apply reads_ret. by rewrite !map_app, HR; cbn; rewrite Ha.
Qed.

Lemma length_concat_le {X} (pr : X -> list TokenKind) xs :
  (∀ x, x ∈ xs -> ∃ ks, pr x = TLParen :: ks) -> (length xs <= length (concat (map pr xs)))%nat.
Proof.
  induction xs as [|x xs IH]; intros H; cbn; [lia|]. rewrite length_app.
  destruct (H x) as [ks ->]; [set_solver|]. specialize (IH ltac:(set_solver)). cbn. lia.
Qed.
Lemma length_in_concat {X} (pr : X -> list TokenKind) xs x :
  x ∈ xs -> (length (pr x) <= length (concat (map pr xs)))%nat.
Proof. induction 1; cbn; rewrite length_app; lia. Qed.

(** ** Literals *)

(** A step that reads one token of kind [k]. *)
Lemma reads_one {A} k N (m : Parse A) (g : Token -> A) (Q : A -> Prop) :
  (∀ s, peek_kind s = k -> m s = (t ← bump; mret (g t)) s) -> (∀ t, tok_kind t = k -> Q (g t)) -> reads [k] N m Q.
Proof.
  intros Hm HQ. apply reads_lone. apply (reads_expect k [] N m g); [done|]. intros t Ht. by apply reads_ret, HQ.
Qed.

Lemma reads_literal v N :
  literal_syntax v -> reads (literal_tokens v) N parse_literal (λ v', strip_literal v' = strip_literal v).
Proof.
  intros Hv. destruct v as [y|y|n|b sp]; cbn [literal_tokens].
  - apply (reads_one _ _ _ (λ t, LSymbol (mkSymbol (sym_name y) (tok_span t)))); [|done].
    intros s Hk. unfold parse_literal. rewrite Hk. cbn in Hv. by rewrite !bool_decide_false by set_solver.
  - apply (reads_one _ _ _ (λ t, LString (mkStringLit (str_value y) (tok_span t)))); [|done].
    intros s Hk. unfold parse_literal. by rewrite Hk.
  - apply (reads_one _ _ _ (λ t, LNumber (mkNumberLit (num_text n) (num_kind n) (tok_span t)))); [|done].
    intros s Hk. unfold parse_literal. by destruct (num_kind n); rewrite Hk.
  - apply (reads_one _ _ _ (λ t, LBoolean b (tok_span t))); [|done].
    intros s Hk. unfold parse_literal. rewrite Hk. by destruct b.
Qed.
Lemma reads_number n N : reads (number_tokens n) N parse_numeric_literal (λ n', strip_number n' = strip_number n).
Proof.
  apply (reads_one _ _ _ (λ t, mkNumberLit (num_text n) (num_kind n) (tok_span t))); [|done].
  intros s Hk. unfold parse_numeric_literal. by destruct (num_kind n); rewrite Hk.
Qed.
Lemma reads_bound b N : reads (bound_tokens b) N parse_range_bound (λ b', strip_bound b' = strip_bound b).
Proof.
  destruct b as [sp|n]; cbn [bound_tokens].
  - apply (reads_one _ _ _ (λ t, Unbounded (tok_span t))); [|done]. intros s Hk. unfold parse_range_bound. by rewrite Hk.
  - assert (reads (number_tokens n ++ []) N (n ← parse_numeric_literal; mret (BoundValue n))
              (λ b', strip_bound b' = strip_bound (BoundValue n))) as H.
    { eapply reads_seq; [apply reads_number|]. intros n' Hn. apply reads_ret. cbn. by rewrite Hn. }
    rewrite app_nil_r in H. unfold number_tokens in *. apply reads_cons. intros t0 ts t rest errs H0 Hts Ht.
    destruct (H (t0 :: ts) t rest errs) as (a & E & HQ); [cbn; congruence|done|]. exists a. split; [|done].
    unfold parse_range_bound, peek_kind. cbn [peek ps_rest]. rewrite H0. by destruct (num_kind n).
Qed.

(** ** Field predicates *)

Lemma strip_symbol_eq y f : sym_name y = sym_name f -> strip_symbol y = strip_symbol f.
Proof. unfold strip_symbol. by intros ->. Qed.

(** The value, then the closing parenthesis. *)
Lemma reads_then_close {A B} ks N (m : Parse A) (k : A -> Token -> B) ctx (Q : A -> Prop) (R : B -> Prop) :
  reads ks anything m Q -> (∀ a t, Q a -> R (k a t)) ->
  reads (ks ++ [TRParen]) N (a ← m; t ← expect_rparen ctx; mret (k a t)) R.
Proof.
  intros Hm HR. eapply reads_seq; [exact Hm|]. intros a HQ. apply reads_rparen. intros t.
  by apply reads_ret, HR.
Qed.

Definition close_of (inclusive : bool) : TokenKind := if inclusive then TRBracket else TRParen.
Definition open_of (inclusive : bool) : TokenKind := if inclusive then TLBracket else TLParen.

Lemma reads_range start field lo up li ui sp N :
  reads (open_of li :: bound_tokens lo ++ TDotDot :: bound_tokens up ++ [close_of ui; TRParen]) N
    (parse_range start field)
    (λ p, strip_predicate p = strip_predicate (ARange field lo up li ui sp)).
Proof.
  unfold parse_range. apply reads_peek_kind.
  assert (∀ N', reads [open_of li] N'
            (match open_of li with
             | TLBracket => _ ← bump; mret true
             | TLParen => _ ← bump; mret false
             | _ => unexpected "'[' or '(' for range"
             end) (λ b, b = li)) as Hopen.
  { intros N'. destruct li; apply reads_bump; intros; by apply reads_ret. }
  eapply (reads_seq [_]); [apply Hopen|]. intros ? ->.
  eapply reads_seq; [apply reads_bound|]. intros lo' Hlo.
  apply reads_dotdot. intros _.
  eapply reads_seq; [apply reads_bound|]. intros up' Hup.
  apply reads_peek_kind.
  eapply (reads_seq [_] _ _ _ _ (λ b, b = ui)).
  { destruct ui; apply reads_bump; intros; by apply reads_ret. }
  intros ? ->. apply reads_rparen. intros t. apply reads_ret. cbn. by rewrite Hlo, Hup.
Qed.

Lemma literal_token v : ∃ k, literal_tokens v = [k] ∧ at_close k = false ∧ k ≠ TDotDot.
Proof. destruct v as [| |n|]; cbn; try (by eexists). unfold number_tokens. destruct (num_kind n); by eexists. Qed.

Lemma reads_values vs fuel acc :
  Forall literal_syntax vs -> (length vs <= fuel)%nat ->
  reads (concat (map literal_tokens vs)) (λ k, k = TRParen) (parse_values fuel acc)
    (λ l, map strip_literal l = map strip_literal (acc ++ vs)).
Proof.
  intros Hvs. revert fuel acc. induction Hvs as [|v vs Hv Hvs IH]; intros fuel acc Hf.
  - intros ts t rest errs Hts Ht. destruct ts; [|done]. exists acc. rewrite app_nil_r. split; [|done].
    destruct fuel; cbn [parse_values]; unfold peek_kind; cbn; by rewrite Ht.
  - destruct fuel as [|fuel]; [cbn in Hf; lia|]. destruct (literal_token v) as (k & Ek & Hk & _).
    assert (reads (literal_tokens v ++ concat (map literal_tokens vs)) (λ k, k = TRParen)
              (lit ← pattempt parse_literal;
               match lit with Some lit => parse_values fuel (acc ++ [lit]) | None => mret acc end)
              (λ l, map strip_literal l = map strip_literal (acc ++ v :: vs))) as H.
    { eapply reads_seq; [by apply reads_attempt, reads_literal|].
      intros o (v' & -> & Hv'). eapply reads_weaken; [apply IH; cbn in Hf; lia|done|].
      intros l ->. rewrite !map_app. cbn. rewrite Hv'. by rewrite <- app_assoc. }
    cbn [map concat]. rewrite Ek in *. cbn [app] in *. apply reads_cons. intros t0 ts t rest errs H0 Hts Ht.
    destruct (H (t0 :: ts) t rest errs) as (a & E & HQ); [cbn; congruence|done|].
    exists a. split; [|done]. cbn [parse_values]. unfold peek_kind. cbn. by rewrite H0, Hk.
Qed.

(** A step that is another one on these tokens. *)
Lemma reads_via {A} ks N (m m' : Parse A) Q :
  reads ks N m' Q ->
  (∀ ts t rest errs, map tok_kind ts = ks -> m (mkParser (ts ++ t :: rest) errs) = m' (mkParser (ts ++ t :: rest) errs)) ->
  reads ks N m Q.
Proof. intros H E ts t rest errs Hts Ht. rewrite E by done. by apply H. Qed.

Lemma reads_set_membership fuel start field vs sp N :
  vs ≠ [] -> Forall literal_syntax vs -> (length vs <= fuel)%nat ->
  reads (in_parens (concat (map literal_tokens vs)) ++ [TRParen]) N (parse_set_membership fuel start field)
    (λ p, strip_predicate p = strip_predicate (AInSet field vs sp)).
Proof.
  intros Hne Hvs Hf. unfold parse_set_membership, in_parens. cbn [app]. apply reads_lparen. intros t.
  assert (reads ((concat (map literal_tokens vs) ++ [TRParen]) ++ [TRParen]) N
            (values ← parse_values fuel [];
             _ ← pattempt (expect_rparen "')' to close set values");
             close ← expect_rparen "')' to close predicate";
             mret (AInSet field values (to_close start close)))
            (λ p, strip_predicate p = strip_predicate (AInSet field vs sp))) as H.
  { rewrite <- app_assoc. eapply reads_bind; [by apply (reads_values vs fuel [])|done|]. intros values Hv.
    eapply (reads_seq [TRParen] [TRParen]); [apply reads_close|].
    intros _ _. apply reads_rparen. intros c. apply reads_ret. cbn in *. by rewrite Hv. }
  destruct vs as [|v vs]; [done|]. cbn [map concat] in *.
  destruct (literal_token v) as (k & Ek & Hk & _). rewrite Ek in *. cbn [app] in *.
  apply reads_peek. intros k' ->. by destruct k.
Qed.

Lemma reads_set_or_range_set fuel start field vs sp N :
  vs ≠ [] -> Forall literal_syntax vs -> (length vs <= fuel)%nat ->
  reads (in_parens (concat (map literal_tokens vs)) ++ [TRParen]) N (parse_set_or_range fuel start field)
    (λ p, strip_predicate p = strip_predicate (AInSet field vs sp)).
Proof.
  intros Hne Hvs Hf. eapply reads_via; [by apply reads_set_membership|].
  intros [|t0 ts] t rest errs Hts; [done|]. injection Hts as H0 Hts.
  assert (peek_is_range ((t0 :: ts) ++ t :: rest) = false) as Hr.
  { destruct vs as [|v vs]; [done|]. destruct (literal_token v) as (k & Ek & _).
    cbn [map concat] in Hts. rewrite Ek in Hts. destruct ts as [|t1 ts]; [done|]. injection Hts as H1 Hts.
    destruct ts as [|t2 ts]; [by destruct (concat _)|]. cbn. cbn in Hts.
    assert (tok_kind t2 ≠ TDotDot) as H2.
    { destruct vs as [|v' vs]; cbn in Hts; [by injection Hts as ->|].
      destruct (literal_token v') as (k' & Ek' & _ & Hk'). rewrite Ek' in Hts. injection Hts as -> _. done. }
    destruct (tok_kind t1); try done; by destruct (tok_kind t2). }
  unfold parse_set_or_range, mbind, Parse_bind, pget. cbn [peek ps_rest app] in *. by rewrite H0, Hr.
Qed.

Lemma reads_set_or_range_range fuel start field lo up li ui sp N :
  reads (open_of li :: bound_tokens lo ++ TDotDot :: bound_tokens up ++ [close_of ui; TRParen]) N
    (parse_set_or_range fuel start field)
    (λ p, strip_predicate p = strip_predicate (ARange field lo up li ui sp)).
Proof.
  eapply reads_via; [apply (reads_range start field)|]. intros [|t0 ts] t rest errs Hts; [done|]. injection Hts as H0 Hts.
  unfold parse_set_or_range, mbind, Parse_bind, pget. cbn [peek ps_rest app]. rewrite H0.
  destruct li; [done|]. cbn [open_of].
  assert (peek_is_range (t0 :: ts ++ t :: rest) = true) as ->; [|done].
  destruct lo as [|n]; cbn in Hts;
    (destruct ts as [|t1 ts]; [done|]; injection Hts as H1 Hts;
     destruct ts as [|t2 ts]; [done|]; injection Hts as H2 Hts; cbn; rewrite H1, H2); [done|].
  by destruct (num_kind n).
Qed.

(** The tests of the leaves, behind the field. *)
Definition field_test (p : PredicateAst) : option (SymbolAst * list TokenKind) :=
  match p with
  | AEq f v _ => Some (f, TEq :: literal_tokens v)
  | ANotEq f v _ => Some (f, TNotEq :: literal_tokens v)
  | ALt f v _ => Some (f, TLt :: number_tokens v)
  | ALe f v _ => Some (f, TLe :: number_tokens v)
  | AGt f v _ => Some (f, TGt :: number_tokens v)
  | AGe f v _ => Some (f, TGe :: number_tokens v)
  | AInSet f vs _ => Some (f, TSymbol "in" :: in_parens (concat (map literal_tokens vs)))
  | ARange f lo up li ui _ =>
      Some (f, TSymbol "in" :: (if li then TLBracket else TLParen) :: bound_tokens lo ++ TDotDot :: bound_tokens up
                ++ [if ui then TRBracket else TRParen])
  | AIsNull f _ => Some (f, [TSymbol "is-null"])
  | AIsNotNull f _ => Some (f, [TSymbol "is-not-null"])
  | ANot _ _ | AAnd _ _ | AOr _ _ => None
  end.

Lemma length_values_le vs : (length vs <= length (concat (map literal_tokens vs)))%nat.
Proof.
  induction vs as [|v vs IH]; cbn; [lia|]. destruct (literal_token v) as (k & -> & _). cbn. lia.
Qed.

Lemma reads_field_test p f test fuel start y N :
  field_test p = Some (f, test) -> pred_syntax p -> sym_name y = sym_name f -> (length test <= fuel)%nat ->
  reads (test ++ [TRParen]) N (parse_field_test fuel start y) (λ p', strip_predicate p' = strip_predicate p).
Proof.
  intros Ef Hp Hy Hf. apply strip_symbol_eq in Hy.
  destruct Hp; cbn in Ef; try discriminate; injection Ef as <- <-; unfold parse_field_test; cbn [app];
    apply reads_peek; intros tk ->; cbn [comparison_op is_symbol]; rewrite ?bool_decide_true by done;
    rewrite ?bool_decide_false by done; apply reads_bump; intros _ _.
  1,2: eapply reads_then_close; [by apply reads_literal|]; intros v' t Hv; cbn; by rewrite Hy, Hv.
  1,2,3,4: eapply reads_then_close; [by apply reads_number|]; intros v' t Hv; cbn; by rewrite Hy, Hv.
  - eapply reads_weaken; [apply (reads_set_or_range_set fuel start y vs s); [done..|]|done|].
    + pose proof (length_values_le vs). cbn in Hf. rewrite length_app in Hf. cbn in Hf. lia.
    + cbn. intros p ->. by rewrite Hy.
  - do 2 (rewrite <- app_assoc; cbn [app]). eapply reads_weaken; [apply (reads_set_or_range_range fuel start y lo up li ui s)|done|].
    cbn. intros p ->. by rewrite Hy.
  - apply reads_rparen. intros t. apply reads_ret. cbn. by rewrite Hy.
  - apply reads_rparen. intros t. apply reads_ret. cbn. by rewrite Hy.
Qed.

(** ** Predicates *)

Lemma predicate_opens p : ∃ ks, predicate_tokens p = TLParen :: ks.
Proof. destruct p; by eexists. Qed.

Lemma leaf_tokens p :
  is_leaf p -> ∃ f test, field_test p = Some (f, test) ∧ predicate_tokens p = field_test_tokens f test.
Proof. destruct p; try done; by eexists _, _. Qed.

Lemma field_syntax_leaf p f test : pred_syntax p -> field_test p = Some (f, test) -> field_syntax f.
Proof. intros Hp E. by destruct Hp; cbn in E; simplify_eq. Qed.

(** [item] reads each of [ps]. *)
Lemma reads_combinator item ps fuel start comb N :
  (∀ p, p ∈ ps -> reads (predicate_tokens p) anything item (λ p', strip_predicate p' = strip_predicate p)) ->
  (2 <= length ps)%nat -> (length ps <= fuel)%nat ->
  reads (concat (map predicate_tokens ps) ++ [TRParen]) N (parse_combinator item fuel start comb)
    (λ p', strip_predicate p' = strip_predicate (if bool_decide (comb = "and") then AAnd ps no_span else AOr ps no_span)).
Proof.
  intros Hitem H2 Hf. unfold parse_combinator.
  eapply reads_bind.
  { apply (reads_many predicate_tokens item strip_predicate strip_predicate ps fuel); [|done|done].
    intros. apply predicate_opens. }
  { done. }
  intros items Hitems. assert (length items = length ps) as Hlen.
  { apply (f_equal length) in Hitems. by rewrite !length_map in Hitems. }
  apply reads_peek. intros t _.
  assert ((length items <? 2)%nat = false) as -> by (apply Nat.ltb_ge; lia).
  eapply (reads_seq [] _ _ _ _ (λ _, True)); [by apply reads_ret|]. intros _ _.
  apply reads_rparen. intros c. apply reads_ret. destruct (bool_decide _); cbn; by rewrite Hitems.
Qed.

Lemma is_symbol_other name (f : SymbolAst) : sym_name f ≠ name -> is_symbol name (TSymbol (sym_name f)) = false.
Proof. intros H. cbn. by apply bool_decide_false. Qed.

Lemma predicate_fuel p fuel : (length (predicate_tokens p) <= fuel)%nat -> ∃ fuel', fuel = S fuel'.
Proof. destruct (predicate_opens p) as [ks ->]. destruct fuel; cbn; [lia|by eexists]. Qed.

(** A connective, when [parse_predicate] reads its operands. *)
Lemma reads_connective comb ps fuel :
  comb = "and" ∨ comb = "or" -> (2 <= length ps)%nat ->
  (length (in_parens (TSymbol comb :: concat (map predicate_tokens ps))) <= S fuel)%nat ->
  Forall (λ p, (length (predicate_tokens p) <= fuel)%nat ->
     reads (predicate_tokens p) anything (parse_predicate fuel) (λ p', strip_predicate p' = strip_predicate p)) ps ->
  reads (in_parens (TSymbol comb :: concat (map predicate_tokens ps))) anything (parse_predicate (S fuel))
    (λ p', strip_predicate p' = strip_predicate (if bool_decide (comb = "and") then AAnd ps no_span else AOr ps no_span)).
Proof.
  intros Hcomb H2 Hfuel Hps. unfold in_parens in *. cbn [app length] in *. rewrite length_app in Hfuel. cbn in Hfuel.
  pose proof (length_concat_le predicate_tokens ps (λ p _, predicate_opens p)).
  rewrite parse_predicate_S. apply reads_lparen. intros o. unfold predicate_body. apply reads_peek_kind.
  assert (reads (concat (map predicate_tokens ps) ++ [TRParen]) anything
            (parse_combinator (parse_predicate fuel) fuel (span_start (tok_span o)) comb)
            (λ p', strip_predicate p' = strip_predicate (if bool_decide (comb = "and") then AAnd ps no_span else AOr ps no_span))).
  { apply (reads_combinator _ ps); [|done|lia]. rewrite Forall_forall in Hps. intros p Hin. apply Hps; [done|].
    pose proof (length_in_concat predicate_tokens ps p Hin). lia. }
  destruct Hcomb as [-> | ->]; by apply reads_bump.
Qed.

Lemma reads_predicate p : pred_syntax p -> ∀ fuel, (length (predicate_tokens p) <= fuel)%nat ->
  reads (predicate_tokens p) anything (parse_predicate fuel) (λ p', strip_predicate p' = strip_predicate p).
Proof.
  induction p as [p Hleaf|p s IH|ps s IH|ps s IH] using PredicateAst_ind'; intros Hp fuel Hfuel;
    destruct (predicate_fuel _ _ Hfuel) as [fuel' ->].
  - destruct (leaf_tokens p Hleaf) as (f & test & Et & Ek). rewrite Ek in *.
    pose proof (field_syntax_leaf _ _ _ Hp Et) as Hfs. unfold field_test_tokens, in_parens in *. cbn [app length] in *.
    rewrite parse_predicate_S. apply reads_lparen. intros o. unfold predicate_body. apply reads_peek_kind.
    unfold field_syntax in Hfs. rewrite !is_symbol_other by set_solver.
    eapply (reads_seq [_]).
    { apply reads_attempt, (reads_one _ _ _ (λ t, mkSymbol (sym_name f) (tok_span t)) (λ y, sym_name y = sym_name f)); [|done].
      intros s Hk. unfold expect_symbol. by rewrite Hk. }
    intros y (y' & -> & Hy). eapply reads_field_test; [done..|]. rewrite length_app in Hfuel. cbn in Hfuel. lia.
  - inversion Hp; subst. cbn [predicate_tokens] in *. unfold in_parens in *. cbn [app length] in *.
    rewrite parse_predicate_S. apply reads_lparen. intros o. unfold predicate_body. apply reads_peek_kind.
    apply reads_bump. intros _ _.
    eapply reads_then_close; [apply IH; [done|rewrite length_app in Hfuel; cbn in Hfuel; lia]|].
    intros p' t Hp'. cbn. by rewrite Hp'.
  - inversion Hp as [| | | | | | | | | | |items s' H2 Hall|]; subst. apply (reads_connective "and"); [by left|done|done|].
    rewrite Forall_forall in *. intros p Hin Hl. apply IH; auto.
  - inversion Hp as [| | | | | | | | | | | |items s' H2 Hall]; subst. apply (reads_connective "or"); [by right|done|done|].
    rewrite Forall_forall in *. intros p Hin Hl. apply IH; auto.
Qed.

(** ** Rules and declarations *)

Lemma reads_predicate_block w fuel N :
  Forall pred_syntax (when_ast w) -> (length (when_tokens w) <= fuel)%nat ->
  reads (when_tokens w) N (parse_predicate_block fuel) (λ w', strip_when w' = strip_when w).
Proof.
  intros Hw Hf. unfold parse_predicate_block. destruct w as [sp|ps sp]; cbn [when_tokens when_ast] in *; unfold in_parens in *.
  - apply reads_lparen. intros o. cbn [app]. apply reads_peek. intros t ->. apply reads_bump. intros _ _.
    apply reads_peek_kind, reads_rparen. intros c. by apply reads_ret.
  - apply reads_lparen. intros o. cbn [length] in Hf. rewrite length_app in Hf. cbn in Hf.
    assert (reads (concat (map predicate_tokens ps) ++ [TRParen]) N
              (preds ← parse_loop (parse_when_step fuel) fuel [];
               close ← expect_rparen "')' to close :when block";
               mret (WPredicates preds (to_close (span_start (tok_span o)) close)))
              (λ w', strip_when w' = strip_when (WPredicates ps sp))) as H.
    { eapply reads_bind.
      - apply (reads_loop predicate_tokens _ (λ pre acc, map strip_predicate acc = map strip_predicate pre) ps);
          [intros; apply predicate_opens| | |done].
        + intros pre p post acc -> HR. destruct (predicate_opens p) as [ks Ek].
          eapply (reads_via _ _ _ (parse_item (parse_predicate fuel) recover_past_current_paren_close push_item acc)).
          * rewrite <- (app_nil_r (predicate_tokens p)). eapply reads_seq.
            { apply reads_attempt, reads_predicate; [by apply Forall_app in Hw as [_ ?%Forall_cons]; tauto|].
              pose proof (length_in_concat predicate_tokens (pre ++ p :: post) p ltac:(set_solver)). lia. }
            intros op (p' & -> & Hp'). apply reads_ret. rewrite !map_app, HR. cbn. by rewrite Hp'.
          * rewrite Ek. intros [|t0 ts] t rest errs Hts; [done|]. injection Hts as H0 _.
            unfold parse_when_step, peek_kind. cbn. by rewrite H0.
        + pose proof (length_concat_le predicate_tokens ps (λ p _, predicate_opens p)). lia.
      - done.
      - intros preds Hpreds. apply reads_rparen. intros c. apply reads_ret. cbn. by rewrite Hpreds. }
    destruct (concat (map predicate_tokens ps) ++ [TRParen]) as [|k ks] eqn:Ek; [by destruct (concat _)|].
    apply reads_peek. intros t ->. assert (k = TLParen ∨ k = TRParen) as [-> | ->]; [|done..].
    destruct ps as [|p ps]; cbn in Ek; [injection Ek as <- _; by right|].
    destruct (predicate_opens p) as [ks' Ek']. rewrite Ek' in Ek. injection Ek as <- _. by left.
Qed.

(** A block of items. *)
Lemma reads_block {X A} (pr : X -> list TokenKind) (item : Parse A) (strip : A -> X) (norm : X -> X) xs fuel open close N :
  (∀ x, x ∈ xs -> ∃ ks, pr x = TLParen :: ks) ->
  (∀ x, x ∈ xs -> reads (pr x) anything item (λ a, strip a = norm x)) ->
  (length (concat (map pr xs)) <= fuel)%nat ->
  reads (in_parens (concat (map pr xs))) N (parse_block fuel item open close) (λ l, map strip l = map norm xs).
Proof.
  intros Hpr Hitem Hf. pose proof (length_concat_le pr xs Hpr). unfold parse_block, in_parens.
  eapply (reads_seq [TLParen]); [apply reads_open|].
  intros o (t & ->). eapply reads_bind; [by apply (reads_many pr item strip norm); [..|lia]|done|].
  intros items Hitems. rewrite <- (app_nil_r [TRParen]). eapply reads_seq; [apply reads_close|].
  intros _ _. by apply reads_ret.
Qed.

Lemma reads_assignment a N :
  literal_syntax (aa_value a) ->
  reads (assignment_tokens a) N parse_assignment (λ a', strip_assignment a' = strip_assignment a).
Proof.
  intros Ha. unfold assignment_tokens, field_test_tokens, in_parens, parse_assignment. cbn [app].
  apply reads_lparen. intros o. apply reads_symbol. intros y Hy%strip_symbol_eq.
  apply reads_peek. intros t ->. apply reads_bump. intros _ _.
  eapply reads_then_close; [by apply reads_literal|]. intros v t' Hv. unfold strip_assignment. cbn. by rewrite Hy, Hv.
Qed.

Lemma reads_rule r fuel N :
  rule_syntax r -> (length (rule_tokens r) <= fuel)%nat ->
  reads (rule_tokens r) N (parse_rule fuel) (λ r', strip_rule r' = strip_rule r).
Proof.
  intros [Hw Ht] Hf. unfold rule_tokens, in_parens, parse_rule in *. cbn [app] in *.
  repeat (rewrite ?length_app in Hf; cbn [length] in Hf).
  apply reads_lparen. intros o. apply reads_named. intros _. apply reads_symbol. intros y Hy%strip_symbol_eq.
  apply reads_named. intros _. rewrite <- app_assoc. eapply reads_seq; [apply reads_predicate_block; [done|lia]|].
  intros w Hw'. cbn [app]. apply reads_named. intros _. rewrite app_comm_cons. eapply reads_seq.
  { apply (reads_block assignment_tokens parse_assignment strip_assignment strip_assignment (ra_then r)).
    - intros a _. by eexists.
    - intros a Ha. apply reads_assignment. rewrite Forall_forall in Ht. by apply Ht.
    - lia. }
  intros t Ht'. apply reads_rparen. intros c. apply reads_ret. unfold strip_rule. cbn. by rewrite Hy, Hw', Ht'.
Qed.

Lemma reads_type_ref t N :
  reads [TSymbol (type_ref_name t)] N parse_type_ref (λ t', strip_type_ref t' = strip_type_ref t).
Proof.
  apply reads_peek. intros k ->. apply reads_bump. intros _ _. by destruct t; apply reads_ret.
Qed.
Lemma reads_decl d N :
  reads (decl_tokens d) N parse_field_decl_inner (λ d', strip_decl d' = strip_decl d).
Proof.
  unfold decl_tokens, in_parens, parse_field_decl_inner. cbn [app].
  apply reads_lparen. intros o. apply reads_symbol. intros y Hy%strip_symbol_eq. apply reads_named. intros _.
  eapply (reads_seq [_]); [apply reads_type_ref|]. intros t Ht. apply reads_named. intros _.
  apply reads_symbol. intros y' Hy'%strip_symbol_eq. apply reads_rparen. intros c. apply reads_ret.
  unfold strip_decl. cbn. by rewrite Hy, Ht, Hy'.
Qed.
Lemma reads_decls ds fuel open close N :
  (length (concat (map decl_tokens ds)) <= fuel)%nat ->
  reads (in_parens (concat (map decl_tokens ds))) N (parse_block fuel parse_field_decl_inner open close)
    (λ l, map strip_decl l = map strip_decl ds).
Proof.
  intros Hf. apply reads_block; [intros d _; by eexists|intros d _; apply reads_decl|done].
Qed.

(** The rules read so far, and whether one is a catch-all. *)
Definition rules_read (pre : list RuleAst) (acc : list RuleAst * option SourceSpan) : Prop :=
  map strip_rule (fst acc) = map strip_rule pre ∧ (snd acc = None -> filter (λ r, is_catch_all r = true) pre = []) ∧
  (is_Some (snd acc) -> filter (λ r, is_catch_all r = true) pre ≠ []).

Lemma is_catch_all_strip r r' : strip_rule r' = strip_rule r -> is_catch_all r' = is_catch_all r.
Proof. unfold is_catch_all. by destruct r as [? [] ? ?], r' as [? [] ? ?]; cbn; intros [=]. Qed.

Lemma reads_keep_rule pre r r' acc N :
  rules_read pre acc -> strip_rule r' = strip_rule r ->
  (length (filter (λ r, is_catch_all r = true) (pre ++ [r])) <= 1)%nat ->
  reads [] N (keep_rule r' acc) (rules_read (pre ++ [r])).
Proof.
  intros (H1 & H2 & H3) Hr Hone. unfold keep_rule, note_catch_all.
  pose proof (is_catch_all_strip _ _ Hr) as Hc. unfold is_catch_all at 1 in Hc. rewrite filter_app in Hone.
  eapply (reads_seq [] [] _ _ _ (λ seen, rules_read (pre ++ [r]) (fst acc ++ [r'], seen))).
  - destruct (ra_when r') as [sp|ps sp].
    + destruct (snd acc) as [prev|] eqn:Es.
      { exfalso. assert (filter (λ r, is_catch_all r = true) [r] = [r]) as E by (cbn; by rewrite decide_True).
        specialize (H3 ltac:(by eexists)). rewrite E, length_app in Hone.
        by destruct (filter _ pre); cbn in Hone; [|lia]. }
      apply reads_ret. split_and!; cbn; [rewrite !map_app, H1; cbn; by rewrite Hr|done|].
      intros _ E. rewrite filter_app in E. apply app_nil in E as [_ E]. cbn in E. by rewrite decide_True in E.
    + apply reads_ret. assert (filter (λ r, is_catch_all r = true) [r] = []) as E by (cbn; by rewrite decide_False by congruence).
      split_and!; cbn [fst snd]; [rewrite !map_app, H1; cbn; by rewrite Hr| |]; rewrite filter_app, E, app_nil_r; auto.
  - intros seen H. by apply reads_ret.
Qed.

Lemma reads_rules_block rs fuel N :
  Forall rule_syntax rs -> (length (filter (λ r, is_catch_all r = true) rs) <= 1)%nat ->
  (length (concat (map rule_tokens rs)) <= fuel)%nat ->
  reads (in_parens (concat (map rule_tokens rs))) N (parse_rules_block fuel) (λ l, map strip_rule l = map strip_rule rs).
Proof.
  intros Hrs Hone Hf. assert (∀ r, r ∈ rs -> ∃ ks, rule_tokens r = TLParen :: ks) as Hopen by (intros; by eexists).
  pose proof (length_concat_le rule_tokens rs Hopen). unfold parse_rules_block, in_parens.
  eapply (reads_seq [TLParen]); [apply reads_open|].
  intros o (t & ->). eapply reads_bind.
  - apply (reads_loop rule_tokens _ rules_read rs); [done| |lia|by split_and!; [|intros|intros [? ?]]].
    intros pre r post acc E HR. rewrite <- (app_nil_r (rule_tokens r)). eapply reads_seq.
    { apply reads_attempt, reads_rule.
      - subst rs. by apply Forall_app in Hrs as [_ ?%Forall_cons]; tauto.
      - pose proof (length_in_concat rule_tokens rs r ltac:(rewrite E; set_solver)). lia. }
    intros op (r' & -> & Hr'). apply reads_keep_rule; [done|done|].
    subst rs. rewrite cons_middle, app_assoc, filter_app, length_app in Hone. lia.
  - done.
  - intros acc (Hacc & _). rewrite <- (app_nil_r [TRParen]). eapply reads_seq; [apply reads_close|].
    intros _ _. by apply reads_ret.
Qed.

(** ** Decisions *)

Lemma reads_required {A} kw (absent : A) (m : Parse A) ks N Q :
  reads ks N m Q -> reads (TSymbol kw :: ks) N (required kw absent m) Q.
Proof.
  intros H. unfold required. apply reads_symbol_is. cbn [is_symbol]. rewrite bool_decide_true by done.
  apply reads_peek. intros t _. eapply (reads_seq [] _ _ _ _ (λ _, True)); [by apply reads_ret|]. intros _ _.
  apply reads_symbol_is. cbn [is_symbol]. rewrite bool_decide_true by done. apply reads_bump. by intros _ _.
Qed.

Lemma reads_hit_policy h N :
  reads [TSymbol (hit_policy_name h)] N (pattempt parse_hit_policy_kind)
    (λ o, ∃ h', o = Some h' ∧ strip_hit_policy h' = strip_hit_policy h).
Proof.
  apply reads_attempt, reads_peek. intros t ->. apply reads_bump. intros _ _. by destruct h; apply reads_ret.
Qed.

Lemma reads_decision_id i ks N {A} (f : option StringLitAst -> Parse A) Q :
  (∀ i', strip_string <$> i' = strip_string <$> i -> reads (TSymbol ":hit-policy" :: ks) N (f i') Q) ->
  reads (decision_id_tokens i ++ TSymbol ":hit-policy" :: ks) N
    (has_id ← peek_symbol_is ":decision-id";
     decision_id ← (if has_id : bool then _ ← bump; pattempt parse_string_lit else mret None);
     f decision_id) Q.
Proof.
  intros H. destruct i as [y|]; cbn [decision_id_tokens app].
  - apply reads_symbol_is. cbn [is_symbol]. rewrite bool_decide_true by done.
    eapply (reads_seq [_; _] _ _ _ _ (λ o, strip_string <$> o = Some (strip_string y))).
    + apply reads_bump. intros _ _. eapply reads_weaken; [apply reads_attempt|done|].
      * apply (reads_one _ _ _ (λ t, mkStringLit (str_value y) (tok_span t)) (λ z, strip_string z = strip_string y)); [|done].
        intros s Hk. unfold parse_string_lit. by rewrite Hk.
      * intros o (z & -> & Hz). cbn. by rewrite Hz.
    + intros i' Hi. by apply H.
  - apply reads_symbol_is. cbn [is_symbol]. rewrite bool_decide_false by done.
    eapply (reads_seq [] _ _ _ _ (λ o, o = None)); [by apply reads_ret|]. intros ? ->. by apply H.
Qed.

(** The tokens of a decision, attribute by attribute. *)
Lemma decision_tokens_split d :
  decision_tokens d =
  TLParen :: TSymbol "define-decision" :: TSymbol (sym_name (da_name d)) ::
  decision_id_tokens (da_decision_id d) ++ TSymbol ":hit-policy" ::
  [TSymbol (hit_policy_name (da_hit_policy d))] ++
  (TSymbol ":inputs" :: in_parens (concat (map decl_tokens (da_inputs d)))) ++
  (TSymbol ":outputs" :: in_parens (concat (map decl_tokens (da_outputs d)))) ++
  (TSymbol ":rules" :: in_parens (concat (map rule_tokens (da_rules d)))) ++ [TRParen].
Proof. unfold decision_tokens, in_parens. repeat (rewrite <- app_assoc; cbn [app]). reflexivity. Qed.

Lemma reads_decision d fuel N :
  decision_syntax d -> (length (decision_tokens d) <= fuel)%nat ->
  reads (decision_tokens d) N (parse_decision fuel) (λ d', strip_decision d' = strip_decision d).
Proof.
  intros [Hrs Hone]. rewrite decision_tokens_split. intros Hf.
  unfold in_parens in Hf. repeat (rewrite ?length_app in Hf; cbn [length app] in Hf). unfold parse_decision.
  apply reads_lparen. intros o. apply reads_named. intros _. apply reads_symbol. intros y Hy%strip_symbol_eq.
  apply reads_decision_id. intros i Hi. rewrite app_comm_cons.
  eapply reads_seq; [apply reads_required, reads_hit_policy|]. intros hp (h' & -> & Hh).
  eapply reads_seq; [apply reads_required, reads_decls; lia|]. intros ins Hins.
  eapply reads_seq; [apply reads_required, reads_decls; lia|]. intros outs Houts. cbn [app].
  apply reads_symbol_is. cbn [is_symbol]. rewrite bool_decide_true by done. apply reads_peek. intros t _.
  rewrite app_comm_cons. eapply reads_seq.
  { apply reads_bump. intros _ _. apply reads_rules_block; [done|done|lia]. }
  intros rules Hrules. apply reads_rparen. intros c. apply reads_ret.
  unfold strip_decision. cbn. by rewrite Hy, Hi, Hh, Hins, Houts, Hrules.
Qed.

(** The parser reads the tokens of a decision back. *)
Lemma run_parser_reads d tokens :
  decision_syntax d -> map tok_kind tokens = decision_tokens d ++ [TEof] ->
  ∃ d' sp, run_parser tokens = Some (mkSource [d'] sp, []) ∧ strip_decision d' = strip_decision d.
Proof.
  intros Hd Htok. apply map_eq_app in Htok as (ts & ts' & -> & Hts & Heof).
  destruct ts' as [|t [|]]; [done| |done]. injection Heof as Ht.
  destruct (reads_decision d (length (ts ++ [t])) anything Hd) with ts t (@nil Token) (@nil ParseError) as (d' & E & Hd'); [|done|done|].
  { rewrite <- Hts, length_map, length_app. lia. }
  unfold run_parser. unfold parse_source, mbind, Parse_bind, pget, mret, Parse_ret, pattempt.
  assert (is_eof (tok_kind (peek (mkParser (ts ++ [t]) []))) = false) as ->.
  { destruct ts as [|t0 ts]; [done|]. injection Hts as H0 _. cbn. by rewrite H0. }
  rewrite E. cbv beta iota zeta. unfold peek_kind. cbn. rewrite Ht. cbn. by eexists _, _.
Qed.
