(* ===== verification/DmnLexerFacts.v ===== *)
(** * dmn-lite: the lexer returns

    On every string in which no backslash stands directly before a character
    that is not ASCII, the lexer returns: every turn of its loops consumes a
    byte, and it only slices the source at character boundaries.  The token
    stream is one the parser takes. *)

From Stdlib Require Import Strings.Ascii.
From S2P Require Import Prelude RustStr Json Types DmnTypes DmnLower DmnLexer DmnParser DmnTyping DmnParserFacts.

(** ** Sources *)

Definition is_ascii (b : Byte.byte) : bool := (Byte.to_N b <? 128)%N.
(** No backslash directly before a byte that is not ASCII. *)
Fixpoint escapes_ascii (l : list Byte.byte) : bool :=
  match l with
  | [] => true
  | b :: l' =>
      (negb (Byte.eqb b Byte.x5c) || match l' with [] => true | b' :: _ => is_ascii b' end) && escapes_ascii l'
  end.

(** The bytes of a UTF-8 string with that property, character by character. *)
Inductive text_ok : list Byte.byte -> Prop :=
| text_nil : text_ok []
| text_ascii b l :
    is_ascii b = true -> (b = Byte.x5c -> from_option is_ascii true (head l) = true) ->
    text_ok l -> text_ok (b :: l)
| text_char b l ch bs rest :
    is_ascii b = false -> utf8_next (b :: l) = Some (ch, bs, rest) -> text_ok rest -> text_ok (b :: l).

Lemma utf8_next_split l ch bs rest :
  utf8_next l = Some (ch, bs, rest) ->
  l = bs ++ rest ∧ (1 <= length bs)%nat ∧
  (∀ b l', l = b :: l' -> is_ascii b = false -> is_cont b = false ∧ Forall (λ b, is_ascii b = false) bs).
Proof.
  destruct l as [|b0 r0]; [done|]. unfold utf8_next.
  assert (∀ b, is_cont b = true -> is_ascii b = false) as Hc.
  { intros b. unfold is_cont, is_ascii. intros E%N.eqb_eq. apply N.ltb_ge.
    destruct (N.lt_ge_cases (Byte.to_N b) 128) as [Hlt|]; [|done].
    pose proof (N.Div0.div_lt_upper_bound (Byte.to_N b) 64 2 Hlt). lia. }
  assert (∀ n b, Byte.to_N b = n -> (192 <= n)%N -> is_cont b = false) as Hn.
  { intros n b <- Hle. unfold is_cont. apply N.eqb_neq.
    pose proof (N.div_le_lower_bound (Byte.to_N b) 64 3 ltac:(lia) Hle). lia. }
  intros H. repeat case_match_in H; try discriminate;
    repeat match goal with
           | E : (_ && _)%bool = true |- _ => apply andb_true_iff in E as [? ?]
           end; injection H as <- <- <-;
    (split; [done|]; split; [cbn; lia|]); intros ?b ?l [= <- <-] Hasc; unfold is_ascii in Hasc; try congruence;
    (split; [eapply Hn; [done|rewrite ?N.leb_le in *; lia]|]);
    repeat (apply Forall_cons; split; [by auto|]); auto.
Qed.

Lemma from_utf8_text fuel l cs :
  utf8_chars fuel l = Some cs -> escapes_ascii l = true -> text_ok l.
Proof.
  revert l cs. induction fuel as [|fuel IH]; intros l cs; destruct l as [|b l]; cbn [utf8_chars];
    try done; [intros; constructor..|].
  destruct (utf8_next (b :: l)) as [[[ch bs] rest]|] eqn:En; [|done].
  destruct (utf8_chars fuel rest) as [cs'|] eqn:Ec; [|done]. intros _ He.
  destruct (utf8_next_split _ _ _ _ En) as (Hl & Hlen & _).
  assert (escapes_ascii rest = true) as Hr.
  { clear -He Hl. rewrite Hl in He. clear Hl. induction bs as [|b' bs IH]; [done|].
    apply IH. cbn [app escapes_ascii] in He. by apply andb_true_iff in He as [_ ?]. }
  destruct (is_ascii b) eqn:Eb.
  - assert (rest = l) as ->.
    { unfold utf8_next, is_ascii in *. rewrite Eb in En. by injection En. }
    constructor; [done| |by eapply IH]. intros ->. cbn [escapes_ascii] in He.
    apply andb_true_iff in He as [He _]. by destruct l.
  - by eapply text_char; [| |eapply IH].
Qed.

Lemma text_ok_ascii b l :
  text_ok (b :: l) -> is_ascii b = true ->
  text_ok l ∧ (b = Byte.x5c -> from_option is_ascii true (head l) = true).
Proof. inversion 1; subst; [by split|congruence]. Qed.
Lemma text_ok_char b l :
  text_ok (b :: l) -> is_ascii b = false ->
  is_cont b = false ∧ ∃ ch bs rest, utf8_next (b :: l) = Some (ch, bs, rest) ∧ text_ok rest ∧
    b :: l = bs ++ rest ∧ (1 <= length bs)%nat ∧ Forall (λ b, is_ascii b = false) bs.
Proof.
  inversion 1; subst; [congruence|]. intros Hb.
  destruct (utf8_next_split _ _ _ _ H3) as (Hl & Hlen & Hc). destruct (Hc _ _ eq_refl Hb).
  split; [done|]. by eexists _, _, _.
Qed.

(** ** White space, symbols, digits *)

Lemma skip_ws_ok l :
  text_ok l -> ∀ c acc, text_ok (snd (skip_ws c l acc)) ∧ (length (snd (skip_ws c l acc)) <= length l)%nat.
Proof.
  induction 1 as [|b l Hb He H IH|b l ch bs rest Hb Hn H IH]; intros c acc.
  - by split; [constructor|].
  - assert (∀ c acc, text_ok (snd (skip_ws c l acc)) ∧ (length (snd (skip_ws c l acc)) <= length (b :: l))%nat) as IH'.
    { intros c' acc'. destruct (IH c' acc'). split; [done|]. cbn [length]. lia. }
    assert (text_ok (b :: l) ∧ (length (b :: l) <= length (b :: l))%nat) as Hsame by (by split; [constructor|]).
    cbn [skip_ws]. destruct c; [apply IH'|]. destruct b; first [apply IH'|exact Hsame].
  - destruct (utf8_next_split _ _ _ _ Hn) as (Hl & Hlen & Hc). destruct (Hc _ _ eq_refl Hb) as [_ Hbs].
    assert (text_ok (b :: l)) as Hok by (by eapply text_char).
    destruct c.
    + rewrite Hl. clear Hl Hn Hc Hok Hb Hlen. revert acc. induction Hbs as [|b' bs Hb' Hbs IHb]; intros acc; [apply IH|].
      cbn [app skip_ws]. assert (Byte.eqb b' Byte.x0a = false) as ->.
      { by destruct b'. }
      destruct (IHb (acc ++ [b'])). cbn [negb]. split; [done|]. cbn [length]. lia.
    + cbn [skip_ws]. destruct b; first [exact (conj Hok (le_n _))|vm_compute in Hb; discriminate Hb].
Qed.

Lemma ascii_symbol b : is_symbol_continue b = true -> is_ascii b = true ∧ b ≠ Byte.x5c.
Proof. by destruct b. Qed.
Lemma ascii_digit b : is_digit b = true -> is_ascii b = true.
Proof. by destruct b. Qed.

Lemma take_symbol_ok l acc :
  text_ok l -> text_ok (snd (take_symbol l acc)) ∧ (length (snd (take_symbol l acc)) <= length l)%nat.
Proof.
  revert acc. induction l as [|b l IH]; intros acc H; [by split|]. cbn [take_symbol].
  destruct (is_symbol_continue b) eqn:Eb; [|by split].
  destruct (text_ok_ascii _ _ H) as [Hl _]; [by apply ascii_symbol|].
  destruct (IH (acc ++ [b]) Hl) as [H1 H2].
  assert (text_ok (snd (take_symbol l (acc ++ [b]))) ∧ (length (snd (take_symbol l (acc ++ [b]))) <= length (b :: l))%nat)
    as Hgo by (split; [done|cbn [length]; lia]).
  destruct b; try exact Hgo. destruct l as [|b' l]; [exact Hgo|].
  destruct b'; first [exact Hgo|exact (conj H (le_n _))].
Qed.
Lemma take_digits_ok l acc :
  text_ok l -> text_ok (snd (take_digits l acc)) ∧ (length (snd (take_digits l acc)) <= length l)%nat.
Proof.
  revert acc. induction l as [|b l IH]; intros acc H; [by split|]. cbn [take_digits].
  destruct (is_digit b) eqn:Eb; [|by split].
  destruct (text_ok_ascii _ _ H) as [Hl _]; [by apply ascii_digit|].
  destruct (IH (acc ++ [b]) Hl) as [H1 H2]. split; [done|]. cbn [length]. lia.
Qed.

(** ** Strings *)

(** One turn of the loop, by tests on the bytes. *)
Definition string_turn (fuel : nat) (start pos : N) (b : Byte.byte) (l value : list Byte.byte) (errs : list ParseError) :=
  if Byte.eqb b Byte.x22 then Some (value, (pos + 1)%N, l, errs, true)
  else if Byte.eqb b Byte.x5c then
    match l with
    | [] =>
        Some (value, (pos + 1)%N, [], errs ++ [MalformedString "unterminated escape sequence"
                                             (span_from pos (pos + 1)%N)], false)
    | esc :: l' =>
        if Byte.eqb esc Byte.x22 || Byte.eqb esc Byte.x5c
        then string_loop fuel start (pos + 2)%N l' (value ++ [esc]) errs
        else string_loop fuel start (pos + 2)%N l' value
               (errs ++ [MalformedString ("invalid escape sequence '\" +:+ as_char esc +:+ "'")
                           (span_from pos (pos + 2)%N)])
    end
  else if is_ascii b then string_loop fuel start (pos + 1)%N l (value ++ [b]) errs
  else if is_cont b then None
  else '(_, bs, l') ← utf8_next (b :: l); string_loop fuel start (pos + len bs)%N l' (value ++ bs) errs.
Lemma string_loop_S fuel start pos b l value errs :
  string_loop (S fuel) start pos (b :: l) value errs = string_turn fuel start pos b l value errs.
Proof. destruct b; try reflexivity. destruct l as [|b' l]; [reflexivity|]. by destruct b'. Qed.

Lemma string_loop_ok fuel start pos l value errs :
  text_ok l -> (length l < fuel)%nat ->
  ∃ v p r es c, string_loop fuel start pos l value errs = Some (v, p, r, es, c) ∧
    text_ok r ∧ (length v + length r <= length value + length l)%nat ∧ (length r <= length l)%nat.
Proof.
  revert pos l value errs. induction fuel as [|fuel IH]; intros pos l value errs H Hf; [lia|].
  destruct l as [|b l]; [by eexists _, _, _, _, _; split_and!|].
  assert (∀ p v es l', text_ok l' -> (length v + length l' <= length value + length (b :: l))%nat ->
            (length l' <= length l)%nat ->
            ∃ v' p' r es' c, string_loop fuel start p l' v es = Some (v', p', r, es', c) ∧ text_ok r ∧
              (length v' + length r <= length value + length (b :: l))%nat ∧ (length r <= length (b :: l))%nat) as Hgo.
  { intros p v es l' Hok' H1 H2. cbn [length] in *.
    destruct (IH p l' v es Hok') as (v' & p' & r & es' & c & E & Hr & H3 & H4); [lia|].
    exists v', p', r, es', c. split_and!; [done|done|lia|lia]. }
  rewrite string_loop_S. unfold string_turn. destruct (is_ascii b) eqn:Eb.
  - destruct (text_ok_ascii _ _ H Eb) as [Hl Hesc].
    destruct (Byte.eqb b Byte.x22); [eexists _, _, _, _, _; split_and!; [done|done|cbn; lia|cbn; lia]|].
    destruct (Byte.eqb b Byte.x5c) eqn:Es; [|apply Hgo; [done|rewrite length_app; cbn; lia|lia]].
    apply Byte.byte_dec_bl in Es as ->. specialize (Hesc eq_refl). destruct l as [|b' l].
    { eexists _, _, _, _, _. split_and!; [done|constructor|cbn; lia|cbn; lia]. }
    destruct (text_ok_ascii _ _ Hl Hesc) as [Hl' _].
    destruct (_ || _); apply Hgo; [done|rewrite length_app; cbn; lia|cbn; lia|done|cbn; lia|cbn; lia].
  - destruct (text_ok_char _ _ H Eb) as (Hc & ch & bs & rest & En & Hr & Hl & Hlen & _).
    assert (Byte.eqb b Byte.x22 = false ∧ Byte.eqb b Byte.x5c = false) as [-> ->] by (by destruct b).
    rewrite Hc, En. cbn [mbind option_bind].
    apply (f_equal length) in Hl. rewrite length_app in Hl.
    apply Hgo; [done|rewrite length_app; lia|cbn [length] in Hl; lia].
Qed.

(** ** Tokens *)

(** At most [n] bytes are left, and the tokens so far fit. *)
Record lexing (n : nat) (x : Lexer) : Prop := {
  lg_text : text_ok (lx_rest x);
  lg_left : (length (lx_rest x) <= n)%nat;
  lg_fits : Forall tok_fits (lx_tokens x);
}.
Definition not_string (k : TokenKind) : Prop := match k with TStrLit _ => False | _ => True end.

Lemma lexing_push n k start x used rest :
  not_string k -> text_ok rest -> (length rest <= n)%nat -> Forall tok_fits (lx_tokens x) ->
  lexing n (lex_push k start (advance used rest x)).
Proof.
  intros Hk Ht Hl Hf. split; [done|done|]. cbn. apply Forall_app. split; [done|]. constructor; [|done].
  unfold tok_fits. cbn. by destruct k.
Qed.
Lemma lexing_bad n ch x used rest :
  text_ok rest -> (length rest <= n)%nat -> Forall tok_fits (lx_tokens x) -> lexing n (lex_bad ch used rest x).
Proof. by split. Qed.

Lemma lex_symbol_ok n b l x :
  text_ok l -> (length l <= n)%nat -> Forall tok_fits (lx_tokens x) -> lexing n (lex_symbol b l x).
Proof.
  intros Ht Hl Hf. destruct (take_symbol_ok l [b] Ht) as [H1 H2]. unfold lex_symbol.
  destruct (take_symbol l [b]) as [used rest]. cbn in *. apply lexing_push; [done|done|lia|done].
Qed.

Lemma take_digits_more b l acc :
  text_ok (b :: l) -> is_digit b = true ->
  text_ok (snd (take_digits (b :: l) acc)) ∧ (length (snd (take_digits (b :: l) acc)) <= length l)%nat.
Proof.
  intros H Eb. destruct (text_ok_ascii _ _ H) as [Hl _]; [by apply ascii_digit|].
  cbn [take_digits]. rewrite Eb. by apply take_digits_ok.
Qed.

Lemma lex_number_ok n sign b l x :
  text_ok (b :: l) -> is_digit b = true -> (length l <= n)%nat -> Forall tok_fits (lx_tokens x) ->
  lexing n (lex_number sign (b :: l) x).
Proof.
  intros Ht Eb Hl Hf. destruct (take_digits_more b l sign Ht Eb) as [H1 H2]. unfold lex_number.
  destruct (take_digits (b :: l) sign) as [int rest]. cbn [snd] in *.
  assert (lexing n (lex_push (TIntLit (text_of int)) (lx_pos x) (advance int rest x))) as Hint
    by (apply lexing_push; [done|done|lia|done]).
  destruct rest as [|b1 rest]; [exact Hint|]. destruct b1; try exact Hint.
  destruct rest as [|d rest]; [exact Hint|]. destruct (is_digit d) eqn:Ed; [|exact Hint].
  destruct (text_ok_ascii _ _ H1) as [Ht' _]; [done|].
  destruct (take_digits_more d rest (int ++ [Byte.x2e]) Ht' Ed) as [H3 H4].
  destruct (take_digits _ _) as [used rest']. cbn in *. apply lexing_push; [done|done|lia|done].
Qed.

Lemma text_of_bytes l : as_bytes (text_of l) = l.
Proof. apply String.list_byte_of_string_of_list_byte. Qed.

Lemma lex_string_ok n l x :
  is_u32 (N.of_nat n) -> text_ok l -> (length l <= n)%nat -> Forall tok_fits (lx_tokens x) ->
  ∃ x', lex_string l x = Some x' ∧ lexing n x'.
Proof.
  intros Hn Ht Hl Hf.
  destruct (string_loop_ok (S (length l)) (lx_pos x) (lx_pos x + 1) l [] (lx_errors x) Ht)
    as (v & p & r & es & c & E & Hr & H1 & H2); [lia|].
  unfold lex_string. rewrite E. eexists. split; [done|]. destruct c; (split; [done|cbn in *; lia|]); [|done].
  cbn. apply Forall_app. split; [done|]. constructor; [|done]. unfold tok_fits. cbn. rewrite text_of_bytes.
  unfold is_u32, len in *. cbn in H1. lia.
Qed.

(** A byte that starts no punctuation. *)
Definition lex_other (b : Byte.byte) (l : list Byte.byte) (x : Lexer) : option Lexer :=
  if is_digit b then Some (lex_number [] (b :: l) x)
  else if is_symbol_start b then Some (lex_symbol b l x)
  else if is_cont b then None
  else '(ch, used, rest) ← utf8_next (b :: l); Some (lex_bad ch used rest x).

Section lex_one.
Context (n : nat) (b : Byte.byte) (l : list Byte.byte) (x : Lexer).
Hypothesis Hx : lx_rest x = b :: l.
Hypothesis Ht : text_ok (b :: l).
Hypothesis Hn : is_u32 (N.of_nat n).
Hypothesis Hl : (length l <= n)%nat.
Hypothesis Hf : Forall tok_fits (lx_tokens x).

Lemma ascii_symbol_start : is_symbol_start b = true -> is_ascii b = true.
Proof. clear. by destruct b. Qed.

Lemma lex_other_ok : ∃ x', lex_other b l x = Some x' ∧ lexing n x'.
Proof.
  unfold lex_other. destruct (is_digit b) eqn:Ed.
  { eexists. split; [done|]. by apply lex_number_ok. }
  destruct (is_symbol_start b) eqn:Es.
  { eexists. split; [done|]. destruct (text_ok_ascii _ _ Ht (ascii_symbol_start Es)). by apply lex_symbol_ok. }
  destruct (is_ascii b) eqn:Eb.
  - destruct (text_ok_ascii _ _ Ht Eb) as [Hl' _]. assert (is_cont b = false) as -> by (clear -Eb; by destruct b).
    unfold utf8_next. unfold is_ascii in Eb. rewrite Eb. eexists. split; [done|]. by apply lexing_bad.
  - destruct (text_ok_char _ _ Ht Eb) as (Hc & ch & bs & rest & En & Hr & Hs & Hlen & _).
    rewrite Hc, En. eexists. split; [done|]. apply lexing_bad; [done| |done].
    apply (f_equal length) in Hs. rewrite length_app in Hs. cbn [length] in Hs. lia.
Qed.

(** [lex_simple] on one byte or on two. *)
Lemma lex_simple_1 k : is_ascii b = true -> not_string k -> lexing n (lex_simple k [b] l x).
Proof. intros Eb Hk. destruct (text_ok_ascii _ _ Ht Eb). by apply lexing_push. Qed.
Lemma lex_simple_2 k b' l' :
  is_ascii b = true -> l = b' :: l' -> is_ascii b' = true -> not_string k -> lexing n (lex_simple k [b; b'] l' x).
Proof.
  intros Eb -> Eb' Hk. destruct (text_ok_ascii _ _ Ht Eb) as [Hl' _]. destruct (text_ok_ascii _ _ Hl' Eb') as [Hl'' _].
  apply lexing_push; [done|done|cbn in Hl; lia|done].
Qed.
Lemma lex_bad_1 ch : is_ascii b = true -> lexing n (lex_bad ch [b] l x).
Proof. intros Eb. destruct (text_ok_ascii _ _ Ht Eb). by apply lexing_bad. Qed.
End lex_one.

Lemma lex_one_ok n x b l :
  lx_rest x = b :: l -> is_u32 (N.of_nat n) -> lexing (S n) x -> ∃ x', lex_one x = Some x' ∧ lexing n x'.
Proof.
  intros Hx Hn [Ht Hl Hf]. rewrite Hx in Ht, Hl. cbn [length] in Hl. apply le_S_n in Hl.
  pose proof (lex_other_ok n b l x Ht Hl Hf) as Hother.
  unfold lex_one. rewrite Hx.
  destruct b; first [exact Hother|eexists; split; [reflexivity|by apply lex_simple_1]|idtac].
  - eexists. split; [reflexivity|]. pose proof (lex_bad_1 n _ l x Ht Hl Hf 33 eq_refl).
    destruct l as [|[] l]; first [assumption|by eapply lex_simple_2].
  - by apply lex_string_ok; [|apply (text_ok_ascii _ _ Ht)| |].
  - eexists. split; [reflexivity|]. pose proof (lex_bad_1 n _ l x Ht Hl Hf 45 eq_refl).
    destruct l as [|d l]; [done|]. destruct (text_ok_ascii _ _ Ht eq_refl) as [Ht' _].
    destruct (is_digit d) eqn:Ed; [|done]. apply lex_number_ok; [done|done|cbn in Hl; lia|done].
  - eexists. split; [reflexivity|]. pose proof (lex_bad_1 n _ l x Ht Hl Hf 46 eq_refl).
    destruct l as [|[] l]; first [assumption|by eapply lex_simple_2].
  - eexists. split; [reflexivity|]. by apply lex_symbol_ok; [apply (text_ok_ascii _ _ Ht)| |].
  - eexists. split; [reflexivity|]. pose proof (lex_simple_1 n _ l x Ht Hl Hf TLt eq_refl I).
    destruct l as [|[] l]; first [assumption|by eapply lex_simple_2].
  - eexists. split; [reflexivity|]. pose proof (lex_simple_1 n _ l x Ht Hl Hf TGt eq_refl I).
    destruct l as [|[] l]; first [assumption|by eapply lex_simple_2].
Qed.

Lemma lex_run_ok n x :
  is_u32 (N.of_nat n) -> lexing n x -> ∃ x', lex_run n x = Some x' ∧ Forall tok_fits (lx_tokens x').
Proof.
  revert x. induction n as [|n IH]; intros x Hn [Ht Hl Hf].
  { destruct (lx_rest x) eqn:E; [|cbn in Hl; lia]. exists x. cbn [lex_run]. by rewrite E. }
  destruct (skip_ws_ok (lx_rest x) Ht false []) as [H1 H2].
  cbn [lex_run]. destruct (lx_rest x) as [|b0 l0] eqn:E; [by exists x|].
  destruct (skip_ws false (b0 :: l0) []) as [skipped rest]. cbn [snd] in *.
  destruct rest as [|b l]; [by eexists|].
  destruct (lex_one_ok n (advance skipped (b :: l) x) b l eq_refl) as (x' & E1 & Hx').
  { unfold is_u32 in *. lia. }
  { split; cbn [advance lx_rest lx_tokens]; [done|lia|done]. }
  rewrite E1. cbn [mbind option_bind]. apply IH; [unfold is_u32 in *; lia|done].
Qed.

(** The lexer on a source of at most [u32::MAX] bytes. *)
Definition lexable (source : string) : Prop :=
  is_Some (from_utf8 (as_bytes source)) ∧ escapes_ascii (as_bytes source) = true ∧
  is_u32 (len (as_bytes source)).

Lemma lex_returns source :
  lexable source -> ∃ tokens errs, lex source = Some (tokens, errs) ∧ tokens_ok tokens.
Proof.
  intros ([s Hs] & Hesc & Hlen). unfold from_utf8 in Hs. set (l := as_bytes source) in *.
  destruct (utf8_chars (length l) l) as [cs|] eqn:Ec; [|done].
  destruct (lex_run_ok (length l) (mkLexer l 0 [] [])) as (x & Ex & Hf); [done| |].
  { split; [by eapply from_utf8_text|done|constructor]. }
  unfold lex. fold l. rewrite Ex. eexists _, _. split; [done|]. split.
  - eexists. by rewrite last_snoc.
  - apply Forall_app. by split; [|repeat constructor].
Qed.
