(* ===== verification/DmnRoundTrip.v ===== *)
(** * dmn-lite: printing and parsing

    The lexer reads the text of a token sequence back as that sequence, and
    [parse] reads the text of a decision back as that decision. *)

From Stdlib Require Import Strings.Ascii.
From S2P Require Import Prelude RustStr Json Types DmnTypes DmnLower DmnLexer DmnParser DmnTyping DmnParserFacts DmnReads DmnLexerFacts.

(** ** Symbols and numbers *)

Lemma take_symbol_reads l r acc :
  forallb is_symbol_continue l = true -> no_dotdot l = true ->
  take_symbol (l ++ Byte.x20 :: r) acc = (acc ++ l, Byte.x20 :: r).
Proof.
  revert acc. induction l as [|b l IH]; intros acc Hl Hd; [by rewrite app_nil_r|].
  cbn [forallb] in Hl. apply andb_true_iff in Hl as [Hb Hl].
  assert (no_dotdot l = true) as Hd'.
  { destruct b; try exact Hd. destruct l as [|b' l]; [done|]. by destruct b'. }
  assert (take_symbol ((b :: l) ++ Byte.x20 :: r) acc = take_symbol (l ++ Byte.x20 :: r) (acc ++ [b])) as ->.
  { cbn [app take_symbol]. rewrite Hb. destruct b; try reflexivity. destruct l as [|b' l]; [done|]. by destruct b'. }
  rewrite IH by done. by rewrite <- app_assoc.
Qed.

Lemma take_digits_reads l b r acc :
  forallb is_digit l = true -> is_digit b = false -> take_digits (l ++ b :: r) acc = (acc ++ l, b :: r).
Proof.
  revert acc. induction l as [|d l IH]; intros acc Hl Hb; cbn [app take_digits].
  - by rewrite Hb, app_nil_r.
  - cbn [forallb] in Hl. apply andb_true_iff in Hl as [Hd Hl]. rewrite Hd, IH by done. by rewrite <- app_assoc.
Qed.

(** ** One token *)

(** [lex_one] reads one token of kind [k] and stops before [r]. *)
Definition lexes (k : TokenKind) (r : list Byte.byte) (x : Lexer) : Prop :=
  ∃ x', lex_one x = Some x' ∧ lx_rest x' = r ∧ lx_errors x' = lx_errors x ∧
    map tok_kind (lx_tokens x') = map tok_kind (lx_tokens x) ++ [k].

Lemma lexes_push k start used r x x0 :
  lex_one x = Some (lex_push k start (advance used r x)) -> x0 = x -> lexes k r x0.
Proof. intros E ->. eexists. split; [exact E|]. cbn. by rewrite map_app. Qed.

Lemma bytes_text l : text_of (as_bytes l) = l.
Proof. apply String.string_of_list_byte_of_string. Qed.

Lemma lexes_symbol s r x :
  symbol_syntax (as_bytes s) = true -> lx_rest x = as_bytes s ++ Byte.x20 :: r -> lexes (TSymbol s) (Byte.x20 :: r) x.
Proof.
  intros Hs Hx. destruct (as_bytes s) as [|b l] eqn:Es; [done|]. cbn [symbol_syntax] in Hs.
  apply andb_true_iff in Hs as [[Hb Hl]%andb_true_iff Hd].
  apply (lexes_push _ (lx_pos x) (b :: l) _ x); [|done].
  assert (lex_one x = Some (lex_symbol b (l ++ Byte.x20 :: r) x)) as ->.
  { unfold lex_one. rewrite Hx. cbn [app]. clear -Hb. by destruct b. }
  unfold lex_symbol. rewrite take_symbol_reads by done. cbn [app]. by rewrite <- Es, bytes_text.
Qed.

Lemma digits_inv l : digits_syntax l = true -> forallb is_digit l = true ∧ ∃ b l', l = b :: l' ∧ is_digit b = true.
Proof.
  unfold digits_syntax. intros [Hne Hd]%andb_true_iff. split; [done|]. destruct l as [|b l]; [done|].
  exists b, l. split; [done|]. cbn in Hd. by apply andb_true_iff in Hd as [? _].
Qed.

(** A number behind its optional minus. *)
Lemma lex_one_number l r x :
  (∃ b l', unsigned l = b :: l' ∧ is_digit b = true) -> lx_rest x = l ++ r ->
  ∃ sign, l = sign ++ unsigned l ∧ lex_one x = Some (lex_number sign (unsigned l ++ r) x).
Proof.
  intros (b & l' & Eu & Hb) Hx. unfold lex_one. rewrite Hx. destruct l as [|b0 l0]; [done|].
  assert (b0 = Byte.x2d ∨ unsigned (b0 :: l0) = b0 :: l0) as [-> | Es] by (destruct b0; auto).
  - cbn [unsigned] in *. subst l0. exists [Byte.x2d]. split; [done|]. cbn [app]. by rewrite Hb.
  - rewrite Es in *. injection Eu as -> ->. exists []. split; [done|]. cbn [app]. clear -Hb. by destruct b.
Qed.

Lemma lexes_int s r x :
  int_syntax (as_bytes s) = true -> lx_rest x = as_bytes s ++ Byte.x20 :: r -> lexes (TIntLit s) (Byte.x20 :: r) x.
Proof.
  intros [Hd Hne]%digits_inv Hx. destruct (lex_one_number _ _ _ Hne Hx) as (sign & Es & E).
  apply (lexes_push _ (lx_pos x) (as_bytes s) _ x); [|done]. rewrite E. unfold lex_number.
  rewrite take_digits_reads by done. rewrite <- Es. by rewrite bytes_text.
Qed.

Lemma split_dot_app l i f : split_dot l = Some (i, f) -> l = i ++ Byte.x2e :: f.
Proof.
  revert i f. induction l as [|b l IH]; intros i f E; [done|].
  assert ((b = Byte.x2e ∧ i = [] ∧ f = l) ∨ ∃ i', i = b :: i' ∧ split_dot l = Some (i', f)) as [(-> & -> & ->)|(i' & -> & E')].
  { destruct b; cbn [split_dot] in E; try (by injection E as <- <-; left);
      right; (destruct (split_dot l) as [[i' f']|]; [|done]); injection E as <- <-; by eexists. }
  - done.
  - cbn. by rewrite (IH _ _ E').
Qed.

Lemma unsigned_app i f : digits_syntax (unsigned i) = true -> unsigned (i ++ f) = unsigned i ++ f.
Proof. destruct i as [|b i]; [done|]. by destruct b. Qed.

Lemma lexes_dec s r x :
  dec_syntax (as_bytes s) = true -> lx_rest x = as_bytes s ++ Byte.x20 :: r -> lexes (TDecLit s) (Byte.x20 :: r) x.
Proof.
  intros Hs Hx. unfold dec_syntax in Hs. destruct (split_dot (as_bytes s)) as [[i f]|] eqn:Esp; [|done].
  apply split_dot_app in Esp. apply andb_true_iff in Hs as [Hi Hf]. unfold int_syntax in Hi.
  pose proof (unsigned_app i (Byte.x2e :: f) Hi) as Hu. rewrite <- Esp in Hu.
  pose proof (digits_inv _ Hi) as [Hid (b & l' & Eb & Hb)]. pose proof (digits_inv _ Hf) as [Hfd (b' & f' & Ef & Hb')].
  destruct (lex_one_number (as_bytes s) (Byte.x20 :: r) x) as (sign & Es & E); [|done|].
  { rewrite Hu, Eb. by eexists _, _. }
  apply (lexes_push _ (lx_pos x) (as_bytes s) _ x); [|done]. rewrite E, Hu. unfold lex_number.
  rewrite <- app_assoc. cbn [app]. rewrite take_digits_reads by done.
  subst f. cbn [app]. rewrite Hb'.
  change (b' :: f' ++ Byte.x20 :: r) with ((b' :: f') ++ Byte.x20 :: r). rewrite take_digits_reads by done.
  assert ((sign ++ unsigned i) ++ [Byte.x2e] ++ b' :: f' = as_bytes s) as Hall.
  { rewrite Es at 1. rewrite Hu. by rewrite <- app_assoc. }
  rewrite <- app_assoc, Hall. by rewrite bytes_text.
Qed.

(** ** Strings *)

Lemma utf8_next_app bs rest ch r :
  utf8_next (bs ++ rest) = Some (ch, bs, rest) -> utf8_next (bs ++ r) = Some (ch, bs, r).
Proof.
  destruct (bs ++ rest) as [|b0 l] eqn:E; [done|]. unfold utf8_next at 1. intros H.
  repeat case_match_in H; try discriminate; injection H as <- <- <-; cbn in E; simplify_eq; cbn -[N.ltb N.leb N.mul N.sub N.add];
    repeat match goal with H : _ = true |- _ => rewrite H | H : _ = false |- _ => rewrite H end; done.
Qed.

Lemma escape_char bs l : Forall (λ b, is_ascii b = false) bs -> escape (bs ++ l) = bs ++ escape l.
Proof.
  induction 1 as [|b bs Hb _ IH]; [done|]. unfold escape in *. cbn [app flat_map].
  assert (is_special b = false) as -> by (by destruct b). cbn. by rewrite IH.
Qed.

Lemma length_escape l : (length l <= length (escape l))%nat.
Proof. induction l as [|b l IH]; [done|]. unfold escape in *. cbn [flat_map length]. rewrite length_app. destruct (is_special b); cbn; lia. Qed.

(** Behind the opening quote the loop reads the value back. *)
Lemma string_loop_reads cfuel v cs :
  utf8_chars cfuel v = Some cs -> ∀ fuel start pos acc errs r,
  (length (escape v) < fuel)%nat ->
  ∃ p, string_loop fuel start pos (escape v ++ Byte.x22 :: r) acc errs = Some (acc ++ v, p, r, errs, true).
Proof.
  revert v cs. induction cfuel as [|cfuel IH]; intros v cs Hv fuel start pos acc errs r Hf;
    (destruct v as [|b v]; [destruct fuel; [lia|]; eexists; cbn; by rewrite app_nil_r|]); [done|].
  destruct fuel as [|fuel]; [lia|]. cbn [utf8_chars] in Hv.
  destruct (utf8_next (b :: v)) as [[[ch bs] rest]|] eqn:En; [|done].
  destruct (utf8_chars cfuel rest) as [cs'|] eqn:Ec; [|done].
  destruct (utf8_next_split _ _ _ _ En) as (Hl & Hlen & Hc).
  destruct (is_ascii b) eqn:Eb.
  - assert (rest = v) as -> by (unfold utf8_next, is_ascii in *; rewrite Eb in En; by injection En).
    assert (∀ p, (length (escape v) < fuel)%nat -> ∃ p', string_loop fuel start p (escape v ++ Byte.x22 :: r) (acc ++ [b]) errs
              = Some (acc ++ b :: v, p', r, errs, true)) as Hgo.
    { intros p Hf'. destruct (IH v cs' Ec fuel start p (acc ++ [b]) errs r Hf') as [p' E]. exists p'. by rewrite E, <- app_assoc. }
    unfold escape in *. cbn [flat_map] in *. destruct (is_special b) eqn:Es; cbn [app length] in *.
    + rewrite string_loop_S. unfold string_turn. cbn [Byte.eqb]. unfold is_special in Es. rewrite Es. apply Hgo. lia.
    + rewrite string_loop_S. unfold string_turn. unfold is_special in Es. apply orb_false_iff in Es as [-> ->].
      rewrite Eb. apply Hgo. lia.
  - destruct (Hc _ _ eq_refl Eb) as [Hcont Hbs]. rewrite Hl, escape_char in * by done. rewrite length_app in Hf.
    destruct bs as [|b' bs]; [cbn in Hlen; lia|]. cbn [app] in Hl. injection Hl as <- Hv'.
    assert (utf8_next (b :: bs ++ (escape rest ++ Byte.x22 :: r)) = Some (ch, b :: bs, escape rest ++ Byte.x22 :: r)) as En'.
    { exact (utf8_next_app (b :: bs) rest _ _ En). }
    rewrite <- app_assoc. cbn [app]. rewrite string_loop_S. unfold string_turn.
    assert (Byte.eqb b Byte.x22 = false ∧ Byte.eqb b Byte.x5c = false) as [-> ->] by (clear -Eb; by destruct b).
    rewrite Eb, Hcont, En'. cbn [mbind option_bind].
    destruct (IH rest cs' Ec fuel start (pos + len (b :: bs))%N (acc ++ b :: bs) errs r) as [p E].
    { cbn in Hf. lia. }
    exists p. by rewrite E, <- app_assoc.
Qed.

Lemma lexes_string s r x :
  is_Some (from_utf8 (as_bytes s)) -> lx_rest x = token_text (TStrLit s) ++ Byte.x20 :: r ->
  lexes (TStrLit s) (Byte.x20 :: r) x.
Proof.
  intros [t Ht] Hx. unfold from_utf8 in Ht. destruct (utf8_chars _ _) as [cs|] eqn:Ec; [|done].
  cbn [token_text app] in Hx. rewrite <- app_assoc in Hx. cbn [app] in Hx.
  destruct (string_loop_reads _ _ _ Ec (S (length (escape (as_bytes s) ++ Byte.x22 :: Byte.x20 :: r))) (lx_pos x)
              (lx_pos x + 1)%N [] (lx_errors x) (Byte.x20 :: r)) as [p E].
  { rewrite length_app. lia. }
  unfold lexes, lex_one. rewrite Hx. unfold lex_string. rewrite E. cbn [mbind option_bind app].
  eexists. split; [done|]. cbn. by rewrite map_app, bytes_text.
Qed.

Lemma lexes_kind k r x :
  kind_syntax k = true -> lx_rest x = token_text k ++ Byte.x20 :: r -> lexes k (Byte.x20 :: r) x.
Proof.
  intros Hk Hx. destruct k; cbn [kind_syntax] in Hk;
    first [ by apply lexes_symbol | by apply lexes_int | by apply lexes_dec | discriminate
          | by apply lexes_string; [apply bool_decide_eq_true in Hk|]
          | eapply (lexes_push _ (lx_pos x) _ _ x); [unfold lex_one; rewrite Hx; reflexivity|done] ].
Qed.

(** A token's text starts with neither white space nor a comment. *)
Lemma token_text_start k l :
  kind_syntax k = true -> skip_ws false (token_text k ++ l) [] = ([], token_text k ++ l).
Proof.
  assert (∀ b l', is_symbol_start b || Byte.eqb b Byte.x3a = true ∨ is_digit b = true ∨ b = Byte.x2d ->
            skip_ws false (b :: l') [] = ([], b :: l')) as H.
  { intros b l' [Hb|[Hb| ->]]; [destruct b; try done..|]; done. }
  intros Hk. destruct k; try done; cbn [kind_syntax token_text] in *; destruct (as_bytes s) as [|b s'] eqn:Es; try done.
  - cbn [symbol_syntax] in Hk. apply andb_true_iff in Hk as [[Hb _]%andb_true_iff _]. apply H. by left.
  - apply digits_inv in Hk as [_ (d & l' & E & Hd)]. apply H. destruct b; cbn in E; simplify_eq; auto.
  - unfold dec_syntax in Hk. destruct (split_dot (b :: s')) as [[i f]|] eqn:Esp; [|done].
    apply split_dot_app in Esp. apply andb_true_iff in Hk as [[_ (d & l' & E & Hd)]%digits_inv _].
    apply H. destruct i as [|b' i]; [done|]. injection Esp as -> ->. destruct b'; cbn in E; simplify_eq; auto.
Qed.
Lemma token_text_nonempty k : kind_syntax k = true -> token_text k ≠ [].
Proof.
  intros Hk. destruct k; try done; cbn [kind_syntax token_text] in *; by destruct (as_bytes s).
Qed.

Lemma skip_ws_space l : skip_ws false (Byte.x20 :: l) [] = (Byte.x20 :: fst (skip_ws false l []), snd (skip_ws false l [])).
Proof.
  assert (∀ l c acc, skip_ws c l acc = (acc ++ fst (skip_ws c l []), snd (skip_ws c l []))) as H.
  { clear l. induction l as [|b l IH]; intros c acc; [cbn; by rewrite app_nil_r|].
    cbn [skip_ws]. destruct c.
    - rewrite IH. rewrite (IH _ ([] ++ [b])). cbn. by rewrite <- app_assoc.
    - assert (∀ c', skip_ws c' l (acc ++ [b]) = (acc ++ fst (skip_ws c' l ([] ++ [b])), snd (skip_ws c' l ([] ++ [b])))) as Hgo.
      { intros c'. rewrite IH. rewrite (IH c' ([] ++ [b])). cbn. by rewrite <- app_assoc. }
      destruct b; first [apply Hgo|cbn; by rewrite app_nil_r]. }
  cbn [skip_ws]. by rewrite H.
Qed.

(** The loop reads the text of a token sequence back. *)
Lemma lex_run_reads ks : forallb kind_syntax ks = true -> ∀ fuel x pre,
  (length ks <= fuel)%nat -> (pre = [] ∨ pre = [Byte.x20]) -> lx_rest x = pre ++ tokens_text ks ->
  ∃ x', lex_run fuel x = Some x' ∧ lx_errors x' = lx_errors x ∧
    map tok_kind (lx_tokens x') = map tok_kind (lx_tokens x) ++ ks.
Proof.
  induction ks as [|k ks IH]; intros Hks fuel x pre Hf Hpre Hx.
  - cbn in Hx. rewrite app_nil_r in Hx.
    destruct fuel, Hpre as [-> | ->]; cbn [lex_run]; rewrite Hx; (eexists; split; [done|]; split; [done|]; by rewrite app_nil_r).
  - cbn [forallb] in Hks. apply andb_true_iff in Hks as [Hk Hks].
    destruct fuel as [|fuel]; [cbn in Hf; lia|]. cbn [tokens_text flat_map] in Hx. rewrite <- app_assoc in Hx. cbn [app] in Hx.
    fold (tokens_text ks) in Hx. set (l := token_text k ++ Byte.x20 :: tokens_text ks) in *.
    assert (∃ skipped, skip_ws false (lx_rest x) [] = (skipped, l)) as [skipped Esk].
    { rewrite Hx. destruct Hpre as [-> | ->]; cbn [app]; unfold l.
      - eexists. by apply token_text_start.
      - rewrite skip_ws_space, token_text_start by done. by eexists. }
    assert (∃ b l', l = b :: l') as (b & l' & El).
    { unfold l. pose proof (token_text_nonempty k Hk). destruct (token_text k); [done|by eexists _, _]. }
    destruct (lexes_kind k (tokens_text ks) (advance skipped l x) Hk eq_refl) as (x' & E1 & Hr & He & Ht).
    destruct (IH Hks fuel x' [Byte.x20]) as (x'' & E2 & He' & Ht'); [cbn in Hf; lia|by right|done|].
    exists x''. split; [|split].
    + cbn [lex_run]. rewrite Esk. destruct (lx_rest x) as [|b0 l0] eqn:Er.
      { exfalso. rewrite El in Hx. by destruct Hpre as [-> | ->]. }
      rewrite El in *. rewrite E1. cbn [mbind option_bind]. exact E2.
    + by rewrite He', He.
    + rewrite Ht', Ht. cbn. by rewrite <- app_assoc.
Qed.

Lemma length_tokens_text ks : (length ks <= length (tokens_text ks))%nat.
Proof.
  induction ks as [|k ks IH]; [done|]. cbn [tokens_text flat_map length]. rewrite !length_app. cbn. unfold tokens_text in IH. lia.
Qed.

Lemma lex_reads ks :
  forallb kind_syntax ks = true ->
  ∃ tokens, lex (text_of (tokens_text ks)) = Some (tokens, []) ∧ map tok_kind tokens = ks ++ [TEof].
Proof.
  intros Hks. unfold lex. rewrite text_of_bytes.
  destruct (lex_run_reads ks Hks (length (tokens_text ks)) (mkLexer (tokens_text ks) 0 [] []) []) as (x & -> & He & Ht);
    [apply length_tokens_text|by left|done|].
  cbn [mbind option_bind]. rewrite He. eexists. split; [done|]. by rewrite map_app, Ht.
Qed.

(** C28: the parser reads every decision.  For a decision of the grammar (its
    connectives have two operands or more, its sets at least one value, one
    rule at most is a catch-all, its symbols and numbers are spelled as the
    lexer spells them, no field is named like a connective and no symbol
    literal like a boolean), parsing its text gives exactly that decision, up
    to source positions, and no error. *)
Theorem parse_reads_back (d : DecisionAst) :
  decision_syntax d -> forallb kind_syntax (decision_tokens d) = true ->
  ∃ d' sp, parse (print_decision d) = Some (Ok (mkSource [d'] sp)) ∧ strip_decision d' = strip_decision d.
Proof.
  intros Hd Hks. destruct (lex_reads _ Hks) as (tokens & El & Ht).
  destruct (run_parser_reads d tokens Hd Ht) as (d' & sp & Er & Hd').
  exists d', sp. split; [|done]. unfold parse, print_decision. rewrite El. cbn [mbind option_bind].
  by rewrite Er.
Qed.

(** ** A decision with every construct of the grammar *)

Definition y (s : string) : SymbolAst := mkSymbol s no_span.
Definition num (s : string) : NumberLitAst := mkNumberLit s NKInteger no_span.
Definition dec (s : string) : NumberLitAst := mkNumberLit s NKDecimal no_span.
Definition grammar_sample : DecisionAst :=
  mkDecisionAst (y "fee") (Some (mkStringLit "a\b" no_span)) (HPFirst no_span)
    [mkFieldDecl (y "where") (TREnum no_span) (y "Place") no_span; mkFieldDecl (y "aum") (TRDecimal no_span) (y "Money") no_span]
    [mkFieldDecl (y "bps") (TRInteger no_span) (y "Rate") no_span]
    [mkRuleAst (y "r1") (WPredicates
       [AOr [ANot (AIsNull (y "where") no_span) no_span;
             AAnd [AEq (y "where") (LSymbol (y "LU")) no_span; ARange (y "aum") (BoundValue (dec "-0.5")) (Unbounded no_span) false true no_span] no_span] no_span;
        AInSet (y "where") [LSymbol (y "IE"); LString (mkStringLit "x" no_span); LBoolean true no_span; LNumber (num "-7")] no_span;
        ALt (y "aum") (num "3") no_span; AGe (y "aum") (dec "1.25") no_span] no_span)
       [mkAssignAst (y "bps") (LNumber (num "-5")) no_span] no_span;
     mkRuleAst (y "r2") (WCatchAll no_span) [mkAssignAst (y "bps") (LNumber (num "8")) no_span] no_span] no_span.

Lemma grammar_sample_syntax : decision_syntax grammar_sample.
Proof.
  assert (∀ s, bool_decide (s ∉ ["not"; "and"; "or"]) = true -> field_syntax (y s)) as Hf by (intros s; by rewrite bool_decide_eq_true).
  split; [|vm_compute; apply le_n].
  repeat first [constructor | apply Hf; reflexivity | discriminate | cbn; lia | cbn; set_solver].
Qed.

Lemma parse_reads_back_witness :
  ∃ d' sp, parse (print_decision grammar_sample) = Some (Ok (mkSource [d'] sp)) ∧ strip_decision d' = grammar_sample.
Proof.
  apply (parse_reads_back grammar_sample); [exact grammar_sample_syntax|vm_compute; reflexivity].
Defined.
