(* ===== verification/DmnCompile.v ===== *)
(** * dmn-lite: the lowering is sound, and compilation end to end

    Each function of [lower.rs] in the logic of file DmnTyping, compilation end to
    end, and what holds of every source text. *)

From S2P Require Import Prelude RustStr Json Types Platform Canonical CodecFacts Fixtures DmnTypes DmnReference DmnVm DmnEmit DmnVerify DmnSteps DmnCodegen DmnLayout DmnRefine DmnLower DmnLexer DmnParser DmnTyping DmnParserFacts DmnLexerFacts.

Section facts.
Context (cat : Catalogue) (Hcat : catalogue_ok cat).

(** ** Types of the catalogue *)

Definition type_ok (t : ResolvedType) : Prop :=
  match t with RTEnum d => is_Some (find_domain_by_id cat d) | _ => True end.

Lemma find_domain_ok d dom : find_domain_by_id cat d = Some dom ->
  dom_id dom = d ∧ is_uuid d ∧ ∀ s v, values_by_symbol dom !! s = Some v -> is_uuid v.
Proof.
  unfold find_domain_by_id. destruct (list_find _ _) as [[i dom']|] eqn:E; [|done]. intros [= ->].
  apply list_find_Some in E as (Hi & <- & _). apply list_elem_of_lookup_2 in Hi.
  apply list_elem_of_fmap in Hi as ([id dom'] & -> & Hin%elem_of_map_to_list).
  destruct (Hcat _ _ Hin). done.
Qed.

Lemma resolve_domain_found name dom : resolve_domain cat name = Some dom -> type_ok (RTEnum (dom_id dom)).
Proof.
  unfold resolve_domain. intros (id & _ & Hid)%bind_Some. cbn. unfold find_domain_by_id.
  destruct (list_find _ _) eqn:E; [by eexists|].
  apply list_find_None in E. rewrite Forall_forall in E. exfalso.
  apply (E dom); [|done]. apply list_elem_of_fmap. exists (id, dom). split; [done|]. by apply elem_of_map_to_list.
Qed.

(** ** Literals *)

Lemma sound_mismatch {A} b f t l s (P Q : A -> Prop) : sound true (push_type_mismatch b f t l s) P Q.
Proof. apply sound_fail. Qed.

Lemma sound_parse_integer text span : sound true (parse_integer text span) (typed_as RTInteger) (λ _, True).
Proof.
  unfold parse_integer. destruct (parse_i64 text) eqn:E; [|apply sound_fail].
  apply sound_ret; [|done]. split; [by eapply parse_i64_range|done].
Qed.
Lemma sound_parse_decimal text span : sound true (parse_decimal text span) (typed_as RTDecimal) (λ _, True).
Proof.
  unfold parse_decimal. destruct (parse_f64 text) eqn:E; [|apply sound_fail].
  apply sound_ret; [|done]. split; [by eapply parse_f64_range|done].
Qed.

Lemma sound_number n t : is_numeric t = true -> sound true (lower_number_for_type n t) (typed_as t) (λ _, True).
Proof.
  destruct t; try done; intros _; cbn [lower_number_for_type].
  - destruct (num_kind n); [apply sound_parse_integer|apply sound_fail].
  - apply sound_parse_decimal.
Qed.

Lemma sound_literal lit t name b :
  type_ok t -> literal_ok lit -> sound true (lower_literal_for_field_ctx cat lit t name b) (typed_as t) (λ _, True).
Proof.
  intros Ht Hlit.
  destruct t as [d| | | |], lit as [sym|str|n|v ?]; cbn [lower_literal_for_field_ctx];
    try apply sound_mismatch; try apply sound_parse_decimal.
  - destruct Ht as [dom Hdom]. destruct (find_domain_ok d dom Hdom) as (<- & Hd & Hv). rewrite Hdom.
    eapply sound_bind; [by eapply (sound_try_some dom (λ x, x = dom) (λ _, True))|]. intros ? ->.
    unfold resolve_value. destruct (values_by_symbol dom !! _) as [x|] eqn:E; [|apply sound_fail].
    eapply sound_bind; [by eapply (sound_push_entity _ (λ _, True) (λ _, True))|]. intros ? _.
    apply sound_ret; [|done]. split; [|done]. split; [done|by eapply Hv].
  - by apply sound_ret.
  - destruct (num_kind n); [apply sound_parse_integer|apply sound_mismatch].
  - by apply sound_ret.
Qed.

(** ** Predicates *)

(** A resolved schema: fields at their positions, types of the catalogue, and
    a name map into it. *)
Record schema_ok (schema : list FieldSchema) (names : gmap string FieldId) : Prop := {
  so_ids : schema_ids schema;
  so_types : Forall (λ fs, type_ok (field_type fs)) schema;
  so_names : ∀ name fid, names !! name = Some fid -> (fid < length schema)%nat;
}.

Section predicates.
Context (schema : list FieldSchema) (names : gmap string FieldId) (Hschema : schema_ok schema names).

Definition resolved (r : FieldId * ResolvedType) : Prop :=
  type_ok r.2 ∧ ∃ fs, schema !! r.1 = Some fs ∧ field_type fs = r.2.

Lemma sound_resolve sym : sound true (resolve_input_field schema names sym) resolved (λ _, True).
Proof.
  unfold resolve_input_field. destruct (names !! _) as [fid|] eqn:E; [|apply sound_fail].
  destruct (lookup_lt_is_Some_2 schema fid) as [fs Hfs]; [by eapply so_names|].
  eapply sound_bind; [by apply (sound_index _ _ fs (λ x, x = fs) (λ _, True))|]. intros ? ->.
  apply sound_ret; [|done]. split; [|by exists fs].
  apply (Forall_lookup_1 _ _ _ _ (so_types _ _ Hschema) Hfs).
Qed.

Lemma resolved_typed f t v : resolved (f, t) -> typed_as t v -> field_typed schema f v.
Proof. intros [_ (fs & Hfs & E)]; cbn in E; subst t; intros Hv. by exists fs. Qed.
Lemma resolved_lt f t : resolved (f, t) -> (f < length schema)%nat.
Proof. intros [_ (fs & Hfs & _)]. by eapply lookup_lt_Some. Qed.
Lemma resolved_numeric f t : resolved (f, t) -> is_numeric t = true -> field_numeric schema f.
Proof. intros [_ (fs & Hfs & E)]; cbn in E; subst t; intros Hn. by exists fs. Qed.

Lemma sound_equality field op value span :
  literal_ok value -> ordered op = false ->
  sound true (lower_equality cat schema names field op value span) (pred_typed schema)
    (λ p, ∃ i rhs, p = PComparison i op rhs span).
Proof.
  intros Hv Hop. eapply sound_bind; [apply sound_resolve|]. intros [fid t] Hr.
  eapply sound_bind; [apply (sound_literal _ _ _ _ (proj1 Hr) Hv)|]. intros tv Htv.
  apply sound_ret; [|by eauto]. constructor; [by eapply resolved_typed|]. by rewrite Hop.
Qed.

Lemma sound_comparison field op value span :
  sound true (lower_comparison_pred schema names field op value span) (pred_typed schema)
    (λ p, ∃ i rhs, p = PComparison i op rhs span).
Proof.
  eapply sound_bind; [apply sound_resolve|]. intros [fid t] Hr.
  destruct (is_numeric t) eqn:Hn; cbn [negb]; [|apply sound_fail].
  eapply sound_bind; [by apply sound_number|]. intros tv Htv.
  apply sound_ret; [|by eauto]. constructor; [by eapply resolved_typed|]. intros _. by eapply resolved_numeric.
Qed.

Lemma sound_bound b t :
  is_numeric t = true ->
  sound true (attempt (lower_range_bound b t)) (opt_ok (typed_as t)) (λ o, is_Some o ↔ ∃ n, b = BoundValue n).
Proof.
  intros Hn. destruct b as [span|n]; cbn [lower_range_bound].
  - intros s. cbn. split; [done|]. split; [done|]. intros _. split; [by intros []|by intros []].
  - eapply sound_weaken; [by apply sound_attempt, sound_number|done|].
    intros o _ (a & -> & _). split; [by eauto|done].
Qed.

Lemma sound_range field lo up li ui span :
  sound true (lower_range schema names field lo up li ui span) (pred_typed schema)
    (λ p, same_shape (ARange field lo up li ui span) p).
Proof.
  eapply sound_bind; [apply sound_resolve|]. intros [fid t] Hr.
  destruct (is_numeric t) eqn:Hn; cbn [negb]; [|apply sound_fail].
  eapply sound_bind; [by apply sound_bound|]. intros lo' Hlo.
  eapply sound_bind; [by apply sound_bound|]. intros up' Hup.
  apply sound_ret; [|intros; by constructor].
  constructor; [by eapply resolved_numeric| |].
  - destruct lo' as [v|]; [by eapply resolved_typed|done].
  - destruct up' as [v|]; [by eapply resolved_typed|done].
Qed.

Lemma sound_set field t vs i acc :
  type_ok t -> Forall literal_ok vs -> Forall (typed_as t) acc ->
  sound true (lower_set cat field t vs i acc) (Forall (typed_as t)) (λ l, length l = (length acc + length vs)%nat).
Proof.
  intros Ht Hvs. revert i acc. induction Hvs as [|v vs Hv Hvs IH]; intros i acc Hacc; cbn [lower_set].
  { apply sound_ret; [done|]. cbn. lia. }
  eapply sound_bind; [by apply sound_attempt, sound_literal|]. intros [tv|] Htv; cbn [opt_ok] in Htv.
  - eapply (sound_bind _ _ (λ _, True) (λ _, True)); [destruct tv; by first [apply sound_ret|apply sound_push_entity]|].
    intros ? _. eapply (sound_bind _ _ (λ _, True) (λ _, True)).
    { destruct (head acc); [|by apply sound_ret]. destruct (bool_decide _); [by apply sound_ret|by apply sound_push_error]. }
    intros ? _. eapply sound_weaken; [apply (IH (S i))|done|].
    + rewrite Forall_app, Forall_singleton. done.
    + intros l _ Hl _ _ _. rewrite Hl, length_app. cbn. lia.
  - eapply sound_weaken; [by apply (IH (S i))|done|]. by intros l _ _ (? & ? & _).
Qed.

Lemma sound_null field span (mk : FieldId -> SourceSpan -> TypedPredicate) (Q : TypedPredicate -> Prop) :
  (∀ f, (f < length schema)%nat -> pred_typed schema (mk f span)) -> (∀ f, Q (mk f span)) ->
  sound true ('(fid, _) ← resolve_input_field schema names field; mret (mk fid span)) (pred_typed schema) Q.
Proof.
  intros Hmk HQ. eapply sound_bind; [apply sound_resolve|]. intros [fid t] Hr.
  apply sound_ret; [by eapply Hmk, resolved_lt|]. intros _. apply HQ.
Qed.

Lemma sound_leaf p :
  is_leaf p -> pred_ast_ok p -> sound true (lower_predicate cat schema names p) (pred_typed schema) (same_shape p).
Proof.
  intros Hleaf Hok. destruct p; try done; cbn [lower_predicate]; inversion Hok; subst.
  1-2: eapply sound_weaken; [by apply sound_equality|done|intros ? _ (? & ? & ->); constructor].
  1-4: eapply sound_weaken; [apply sound_comparison|done|intros ? _ (? & ? & ->); constructor].
  - eapply sound_bind; [apply sound_resolve|]. intros [fid t] Hr.
    eapply sound_bind; [apply sound_set; [apply Hr|done|constructor]|]. intros l Hl.
    apply sound_ret; [|intros; by constructor].
    constructor; [by eapply resolved_lt|]. eapply Forall_impl; [exact Hl|]. intros v. by eapply resolved_typed.
  - apply sound_range.
  - by apply sound_null; constructor.
  - by apply sound_null; constructor.
Qed.

Lemma Forall_sound {A B} (f : A -> Low B) P (Q : A -> B -> Prop) (ok : A -> Prop) l :
  Forall (λ x, ok x -> sound true (f x) P (Q x)) l -> Forall ok l -> Forall (λ x, sound true (f x) P (Q x)) l.
Proof. intros H Hok. apply Forall_forall. intros x Hx. rewrite !Forall_forall in *. auto. Qed.

Lemma sound_predicate p :
  pred_ast_ok p -> sound true (lower_predicate cat schema names p) (pred_typed schema) (same_shape p).
Proof.
  induction p as [p Hleaf|p span IH|items span IH|items span IH] using PredicateAst_ind'.
  - by apply sound_leaf.
  - inversion 1; subst. cbn [lower_predicate]. eapply sound_bind; [by apply IH|]. intros q Hq.
    apply sound_ret; [by constructor|]. intros. by constructor.
  - inversion 1; subst. cbn [lower_predicate].
    eapply sound_bind; [eapply sound_filter_map, Forall_sound; [exact IH|done]|]. intros qs Hqs.
    apply sound_ret; [by constructor|]. intros. by constructor.
  - inversion 1; subst. cbn [lower_predicate].
    eapply sound_bind; [eapply sound_filter_map, Forall_sound; [exact IH|done]|]. intros qs Hqs.
    apply sound_ret; [by constructor|]. intros. by constructor.
Qed.

Lemma sound_when w :
  Forall pred_ast_ok (when_ast w) ->
  sound false (lower_when cat schema names w) (λ tw, Forall (pred_typed schema) (when_preds tw))
    (λ tw, Forall2 same_shape (when_ast w) (when_preds tw)).
Proof.
  intros Hw. destruct w as [span|preds span]; cbn [lower_when].
  - apply sound_ret; constructor.
  - eapply sound_bind; [apply sound_filter_map|].
    + eapply Forall_impl; [exact Hw|]. apply sound_predicate.
    + intros qs Hqs. by apply sound_ret.
Qed.
End predicates.

(** ** Assignments *)

Section assignments.
Context (schema : list FieldSchema) (names : gmap string FieldId) (Hschema : schema_ok schema names).
Context (rule_name : string).

(** The loop state: assignments of distinct fields, all recorded as assigned. *)
Definition assigns_typed (l : list TypedAssignment) (assigned : gmap FieldId SourceSpan) : Prop :=
  Forall (λ a, field_typed schema (output_field a) (asg_value a)) l ∧
  NoDup (output_field <$> l) ∧ ∀ f, f ∈ output_field <$> l -> is_Some (assigned !! f).
Definition assigns_all (l : list TypedAssignment) (assigned : gmap FieldId SourceSpan) : Prop :=
  ∀ f, is_Some (assigned !! f) -> f ∈ output_field <$> l.

Lemma assigns_typed_add l assigned fid tv span :
  assigns_typed l assigned -> assigned !! fid = None -> field_typed schema fid tv ->
  assigns_typed (l ++ [mkAssignment fid tv span]) (<[fid := span]> assigned).
Proof.
  intros (H1 & H2 & H3) Hf Htv. split_and!.
  - by rewrite Forall_app, Forall_singleton.
  - rewrite fmap_app. apply NoDup_app. split; [done|]. split; [|apply NoDup_singleton].
    intros f Hin%H3 ->%list_elem_of_singleton. cbn in Hin. rewrite Hf in Hin. by destruct Hin.
  - intros f. rewrite fmap_app, elem_of_app. cbn. rewrite list_elem_of_singleton, lookup_insert_is_Some'.
    intros [Hin%H3| ->]; auto.
Qed.

Lemma sound_assignments l typed assigned :
  Forall (λ a, literal_ok (aa_value a)) l -> assigns_typed typed assigned ->
  sound false (lower_assignments cat schema names rule_name l typed assigned)
    (λ r, assigns_typed r.1 r.2) (λ r, assigns_all typed assigned -> assigns_all r.1 r.2).
Proof.
  intros Hl. revert typed assigned. induction Hl as [|a l Ha Hl IH]; intros typed assigned Ht;
    cbn [lower_assignments]; [by apply sound_ret|].
  destruct (names !! _) as [fid|] eqn:En.
  2: { eapply sound_bind; [by apply (sound_push_error _ (λ _, True) (λ _, False))|]. intros ? _.
       eapply sound_weaken; [by apply IH|done|]. done. }
  destruct (lookup_lt_is_Some_2 schema fid) as [fs Hfs]; [by eapply so_names|].
  eapply sound_bind; [by apply (sound_index _ _ fs (λ x, x = fs) (λ _, True))|]. intros ? ->.
  destruct (assigned !! fid) as [prev|] eqn:Ea.
  { eapply sound_bind; [by apply (sound_push_error _ (λ _, True) (λ _, False))|]. intros ? _.
    eapply sound_weaken; [by apply IH|done|]. done. }
  eapply sound_bind; [apply sound_attempt, sound_literal; [|done]|].
  { apply (Forall_lookup_1 _ _ _ _ (so_types _ _ Hschema) Hfs). }
  intros [tv|] Htv; cbn [opt_ok] in Htv.
  - eapply sound_weaken; [apply IH, assigns_typed_add; [done|done|by exists fs]|done|].
    intros r _ Hr _ _ Hall. apply Hr. intros f. rewrite lookup_insert_is_Some', fmap_app, elem_of_app. cbn.
    intros [->|Hf%Hall]; [right; by left|by left].
  - eapply sound_weaken; [apply IH|done|by intros r _ _ (? & ? & _)].
    destruct Ht as (H1 & H2 & H3). split_and!; [done..|]. intros f Hf%H3.
    rewrite lookup_insert_is_Some'. by right.
Qed.

Lemma sound_complete all assigned fields :
  sound false (check_complete rule_name all assigned fields) (λ _, True)
    (λ _, ∀ fs, fs ∈ fields -> is_Some (assigned !! field_id fs)).
Proof.
  induction fields as [|fs fields IH]; cbn [check_complete]; [apply sound_ret; [done|set_solver]|].
  destruct (assigned !! field_id fs) as [sp|] eqn:E.
  - eapply sound_bind; [by apply (sound_ret tt (λ _, True) (λ _, True))|]. intros ? _.
    eapply sound_weaken; [exact IH|done|]. intros ? _ H _ fs' [->|Hin]%elem_of_cons; [by eexists|auto].
  - eapply sound_bind; [by apply (sound_push_error _ (λ _, True) (λ _, False))|]. intros ? _.
    eapply sound_weaken; [exact IH|done|]. done.
Qed.

Lemma sound_then l :
  Forall (λ a, literal_ok (aa_value a)) l ->
  sound false (lower_then cat schema names rule_name l)
    (λ t, Forall (λ a, field_typed schema (output_field a) (asg_value a)) t) (then_typed schema).
Proof.
  intros Hl. unfold lower_then. eapply sound_bind; [apply sound_assignments; [done|]|].
  { split_and!; [constructor..|set_solver]. }
  intros [typed assigned] (H1 & H2 & H3). cbn [fst snd] in *.
  eapply sound_bind; [apply sound_complete|]. intros ? _.
  apply sound_ret; [done|]. intros Hc Hall. split; [done..|]. intros f Hf. apply Hall.
  - intros g Hg. rewrite lookup_empty in Hg. by destruct Hg.
  - destruct (lookup_lt_is_Some_2 schema f Hf) as [fs Hfs].
    rewrite <-(so_ids _ _ Hschema _ _ Hfs). apply Hc. by eapply list_elem_of_lookup_2.
Qed.
End assignments.
End facts.

(** * dmn-lite: compilation is sound, end to end

    A source that lowers without errors is a well-typed decision; a well-typed
    decision is compiled, verified and evaluated, and its outputs have the
    types the output schema declares. *)

Section compile.
Context (cat : Catalogue) (Hcat : catalogue_ok cat).

(** ** Schemas *)

(** The loop of [resolve_field_schema] after [idx] declarations. *)
Record loop_ok (errors : list CompileError) (idx : nat) (st : SchemaLoop) : Prop := {
  lo_fatal : sl_had_fatal st = true -> sl_errors st ≠ [];
  lo_clean : sl_had_fatal st = false ->
    sl_errors st = errors ∧ length (sl_schema st) = idx ∧ schema_ok cat (sl_schema st) (sl_name_map st);
}.

Lemma resolve_field_type_ok name t dom ty ws :
  resolve_field_type cat name t dom = Ok (ty, ws) -> type_ok cat ty.
Proof.
  unfold resolve_field_type. destruct (resolve_domain cat _) as [d|] eqn:E; [|done]. cbn.
  destruct t; intros [= <- <-]; try done. by eapply resolve_domain_found.
Qed.

Lemma app_snoc_ne {A} (l : list A) x : l ++ [x] ≠ [].
Proof. by destruct l. Qed.

Lemma resolve_decl_ok is_input errors st idx decl :
  loop_ok errors idx st -> loop_ok errors (S idx) (resolve_decl is_input cat st idx decl).
Proof.
  intros [Hf Hc]. unfold resolve_decl.
  destruct (sl_name_seen st !! _) as [prev|]; [split; cbn; [intros _; apply app_snoc_ne|done]|].
  destruct (resolve_field_type _ _ _ _) as [[ty ws]|e] eqn:E;
    [|split; cbn; [intros _; apply app_snoc_ne|done]].
  split; cbn; [done|]. intros Hn. destruct (Hc Hn) as (-> & Hlen & [Hids Hty Hnames]).
  split; [done|]. split; [rewrite length_app, Hlen; cbn; lia|]. split.
  - intros i fs [Hi|[Hge Hi]]%lookup_app_Some; [by apply Hids|].
    apply list_lookup_singleton_Some in Hi as [? <-]. cbn. lia.
  - rewrite Forall_app, Forall_singleton. split; [done|]. by eapply resolve_field_type_ok.
  - intros name fid. rewrite length_app, Hlen. cbn.
    intros [[<- <-]|[? Hfid%Hnames]]%lookup_insert_Some; lia.
Qed.

Lemma resolve_decls_ok is_input errors decls : ∀ idx st,
  loop_ok errors idx st -> loop_ok errors (idx + length decls) (resolve_decls is_input cat decls idx st).
Proof.
  induction decls as [|d decls IH]; intros idx st H; cbn; [by rewrite Nat.add_0_r|].
  rewrite <-Nat.add_succ_comm. by apply IH, resolve_decl_ok.
Qed.

Lemma resolve_field_schema_ok is_input decls errors warnings r errors' warnings' :
  resolve_field_schema is_input cat decls errors warnings = (r, errors', warnings') ->
  match r with
  | None => errors' ≠ []
  | Some (schema, names) => errors' = errors ∧ schema_ok cat schema names
  end.
Proof.
  unfold resolve_field_schema.
  pose proof (resolve_decls_ok is_input errors decls 0 (mkSchemaLoop [] ∅ ∅ false errors warnings)) as [Hf Hc].
  { split; cbn; [done|]. intros _. split_and!; [done..|]. split; [by intros i fs|constructor|].
    intros name fid. by rewrite lookup_empty. }
  destruct (sl_had_fatal _) eqn:E; intros [= <- <- <-]; [by apply Hf|]. by destruct (Hc eq_refl) as (? & _ & ?).
Qed.

(** ** Rules *)

Lemma sound_track policy rule ca : sound false (track_catch_all policy rule ca) (λ _, True) (λ _, True).
Proof.
  unfold track_catch_all. destruct (ra_when rule), ca as [ca|]; try by apply sound_ret.
  - eapply sound_bind; [by apply (sound_push_error _ (λ _, True) (λ _, True))|]. intros ? _. by apply sound_ret.
  - destruct policy; [by apply sound_ret|].
    eapply sound_bind; [by apply (sound_push_error _ (λ _, True) (λ _, True))|]. intros ? _. by apply sound_ret.
Qed.

Lemma sound_duplicates rules seen : sound false (duplicate_rule_ids rules seen) (λ _, True) (λ _, True).
Proof.
  revert seen. induction rules as [|r rules IH]; intros seen; cbn [duplicate_rule_ids]; [by apply sound_ret|].
  destruct (seen !! _); [|apply IH].
  eapply sound_bind; [by apply (sound_push_error _ (λ _, True) (λ _, True))|]. intros ? _.
  by eapply sound_weaken; [apply IH|..].
Qed.

(** A rule of the source and its lowered form. *)
Record rule_lowered (ins outs : list FieldSchema) (a : RuleAst) (r : TypedRule) : Prop := {
  rlo_name : rule_name r = sym_name (ra_id a);
  rlo_shape : Forall2 same_shape (when_ast (ra_when a)) (when_preds (rule_when r));
  rlo_when : Forall (pred_typed ins) (when_preds (rule_when r));
  rlo_then : then_typed outs (rule_then r);
}.

Section rules.
Context (ins outs : list FieldSchema) (in_names out_names : gmap string FieldId) (policy : HitPolicy).
Context (Hins : schema_ok cat ins in_names) (Houts : schema_ok cat outs out_names).

Lemma sound_rules rules : Forall rule_ast_ok rules -> ∀ idx ca,
  sound false (lower_rules cat policy ins outs in_names out_names rules idx ca) (λ _, True)
    (λ l, Forall2 (rule_lowered ins outs) rules l ∧ rule_id <$> l = seq idx (length l)).
Proof.
  induction 1 as [|rule rules [Hw Ht] Hrules IH]; intros idx ca; cbn [lower_rules].
  { apply sound_ret; [done|]. split; [constructor|done]. }
  eapply sound_bind; [apply sound_track|]. intros ca' _.
  eapply sound_bind; [by apply sound_when|]. intros tw Htw.
  eapply sound_bind; [by apply sound_then|]. intros tt' Htt.
  eapply sound_bind; [apply IH|]. intros rest _.
  apply sound_ret; [done|]. intros [Hrest Hids] Hthen Hshape _.
  split; [constructor; [by split|done]|]. cbn. by rewrite Hids.
Qed.
End rules.

(** ** [lower] *)

Record decision_lowered (ast : DecisionAst) (d : TypedDecision) : Prop := {
  dl_typed : decision_typed d;
  dl_policy : hit_policy d = match da_hit_policy ast with HPUnique _ => Unique | HPFirst _ => First end;
  dl_rules : Forall2 (rule_lowered (input_schema d) (output_schema d)) (da_rules ast) (dec_rules d);
}.

Lemma is_empty_nil {A} (l : list A) : is_empty l = true ↔ l = [].
Proof. by destruct l. Qed.

Lemma lower_sound ast :
  Forall rule_ast_ok (da_rules ast) ->
  ∃ r, lower ast cat = Some r ∧
    (lr_errors r = [] -> ∃ d, lr_decision r = Some d ∧ decision_lowered ast d).
Proof.
  intros Hok. unfold lower.
  destruct (resolve_field_schema true _ _ _ _) as [[ins e1] w1] eqn:E1. apply resolve_field_schema_ok in E1.
  destruct ins as [[ins in_names]|]; [|by eexists; split].
  destruct (resolve_field_schema false _ _ _ _) as [[outs e2] w2] eqn:E2. apply resolve_field_schema_ok in E2.
  destruct outs as [[outs out_names]|]; [|by eexists; split].
  destruct E1 as [-> Hins], E2 as [-> Houts]. cbn [is_empty negb app].
  destruct (is_empty (empty_error _ _ ++ _)) eqn:Ee; cbn [negb].
  2: { eexists. split; [done|]. cbn. intros Hnil. by rewrite Hnil in Ee. }
  apply is_empty_nil in Ee. rewrite Ee.
  set (policy := match da_hit_policy ast with HPUnique _ => Unique | HPFirst _ => First end).
  set (m := duplicate_rule_ids (da_rules ast) ∅ ≫= _).
  assert (sound false m (λ _, True)
    (λ l, Forall2 (rule_lowered ins outs) (da_rules ast) l ∧ rule_id <$> l = seq 0 (length l))) as Hs.
  { eapply sound_bind; [apply sound_duplicates|]. intros ? _.
    eapply sound_weaken; [by apply sound_rules|done|]. intros l _ H _. exact H. }
  specialize (Hs (mkDiag [] [])). destruct (m (mkDiag [] [])) as [[typed| |] diag]; [|by destruct Hs|done].
  destruct Hs as (_ & _ & HQ). eexists. split; [done|]. cbn. intros Hnil.
  destruct (HQ Hnil) as [Hl Hids]. eexists. split; [done|].
  split; [|done|done]. split; cbn; [apply Hins|apply Houts| |  |done].
  - clear -Hl. by induction Hl as [|???? []]; constructor.
  - clear -Hl. by induction Hl as [|???? []]; constructor.
Qed.
End compile.

(** ** From typed to executable *)

Lemma Forall2_transfer {A B} (ok : A -> Prop) (R : A -> B -> Prop) (typed P : B -> Prop) l k :
  Forall (λ a, ∀ b, ok a -> R a b -> typed b -> P b) l -> Forall ok l -> Forall2 R l k -> Forall typed k ->
  Forall P k.
Proof. intros H Hok HR Ht. induction HR; inversion H; inversion Hok; inversion Ht; subst; constructor; auto. Qed.

Lemma pred_typed_ok schema a : ∀ p,
  pred_ast_ok a -> same_shape a p -> pred_typed schema p -> pred_ok (length schema) p.
Proof.
  assert (∀ f v, field_typed schema f v -> (f < length schema)%nat ∧ tv_ok v) as Hfield.
  { intros f v (fs & Hf%lookup_lt_Some & Hv & _). done. }
  assert (∀ f, field_numeric schema f -> (f < length schema)%nat) as Hnum.
  { by intros f (fs & Hf%lookup_lt_Some & _). }
  induction a as [a Hleaf|a span IH|items span IH|items span IH] using PredicateAst_ind'; intros p Ha Hs Ht.
  - destruct Ht as [f op rhs sp Hf _|f vs sp Hf Hvs|f lo up li ui sp Hf Hlo Hup|f sp Hf|f sp Hf|p' sp|items sp|items sp];
      try (inversion Hs; by subst); cbn.
    + by apply Hfield.
    + split; [done|]. eapply Forall_impl; [exact Hvs|]. intros v Hv. by apply (Hfield f).
    + split; [by apply Hnum|]. split; [destruct lo|destruct up]; cbn in *; try done; by apply (Hfield f).
  - inversion Hs; subst. inversion Ha; subst. inversion Ht; subst. cbn. by apply IH.
  - inversion Hs as [| | | | | | | | | | |ps qs s Hall|]; subst. inversion Ha; subst. inversion Ht; subst. cbn.
    rewrite pred_ok_all, <-(Forall2_length _ _ _ Hall). split; [done|].
    by eapply Forall2_transfer.
  - inversion Hs as [| | | | | | | | | | | |ps qs s Hall]; subst. inversion Ha; subst. inversion Ht; subst. cbn.
    rewrite pred_ok_all, <-(Forall2_length _ _ _ Hall). split; [done|].
    by eapply Forall2_transfer.
Qed.

Lemma rule_lowered_ok ins outs a r :
  rule_ast_ok a -> rule_lowered ins outs a r -> rule_ok (length ins) (length outs) r.
Proof.
  intros [Ha _] [_ Hshape Hwhen [Hthen _ _]]. split.
  - clear Hthen. induction Hshape; inversion Ha; inversion Hwhen; subst; constructor; eauto using pred_typed_ok.
  - eapply Forall_impl; [exact Hthen|]. intros x (fs & Hf%lookup_lt_Some & Hv & _). done.
Qed.

Lemma decision_lowered_ok ast d :
  Forall rule_ast_ok (da_rules ast) -> decision_lowered ast d ->
  (N.of_nat (S (rules_size (hit_policy d) (dec_rules d))) <= u32_max)%N ->
  (N.of_nat (length (output_schema d)) <= u32_max)%N -> decision_ok d.
Proof.
  intros Hok [_ _ Hr] H1 H2. split; [|done|done].
  clear -Hok Hr. induction Hr; inversion Hok; subst; constructor; eauto using rule_lowered_ok.
Qed.

(** ** Outputs *)

Lemma assign_output_other o l f : f ∉ output_field <$> l -> assign_output o l !! f = o !! f.
Proof.
  revert o. induction l as [|a l IH]; intros o Hf; [done|]. cbn in *. apply not_elem_of_cons in Hf as [Hne Hf].
  unfold assign_output in *. by rewrite IH, list_lookup_insert_ne.
Qed.

Lemma assign_output_last o l a :
  NoDup (output_field <$> l) -> a ∈ l -> (output_field a < length o)%nat ->
  assign_output o l !! output_field a = Some (Some (asg_value a)).
Proof.
  revert o. induction l as [|b l IH]; intros o Hn Ha Hlt; [by apply not_elem_of_nil in Ha|].
  cbn in Hn. apply NoDup_cons in Hn as [Hb Hn]. apply elem_of_cons in Ha as [->|Ha].
  - change (assign_output o (b :: l)) with (assign_output (<[output_field b := Some (asg_value b)]> o) l).
    by rewrite assign_output_other, list_lookup_insert_eq.
  - change (assign_output o (b :: l)) with (assign_output (<[output_field b := Some (asg_value b)]> o) l).
    apply IH; [done..|]. by rewrite length_insert.
Qed.

(** A rule's outputs have the declared types. *)
Lemma then_typed_outputs outs l :
  then_typed outs l ->
  Forall2 (λ fs v, typed_as (field_type fs) v) outs
    (default TVNull <$> assign_output (replicate (length outs) None) l).
Proof.
  intros [Hv Hn Hall]. apply Forall2_same_length_lookup.
  split; [by rewrite length_fmap, length_assign_output, length_replicate|].
  intros f fs v Hfs Hlook. pose proof (lookup_lt_Some _ _ _ Hfs) as Hlt.
  specialize (Hall f Hlt). apply list_elem_of_fmap in Hall as (a & -> & Ha).
  rewrite list_lookup_fmap, assign_output_last in Hlook by (rewrite ?length_replicate; done).
  cbn in Hlook. injection Hlook as <-. rewrite Forall_forall in Hv.
  destruct (Hv a Ha) as (fs' & Hfs' & Ht). by simplify_eq.
Qed.

(** An output the rules give is that of one rule. *)
Lemma rules_verdict_rule schema_hash d input out oc :
  rules_verdict schema_hash d input = Ok (out, oc) ->
  ∃ r, r ∈ dec_rules d ∧ oc = OutcomeMatch (rule_id r) ∧
    out_slots out = default TVNull <$> assign_output (replicate (length (output_schema d)) None) (rule_then r).
Proof.
  unfold rules_verdict. destruct (hit_policy d).
  - rewrite rules_result_unique. destruct (matching (dec_rules d) input) as [|r [|]] eqn:E; try done.
    cbn -[replicate]. intros [= <- <-]. exists r. split; [|done].
    assert (r ∈ matching (dec_rules d) input) as [_ H]%list_elem_of_filter by (rewrite E; set_solver). done.
  - rewrite rules_result_first. destruct (matching (dec_rules d) input) as [|r rest] eqn:E; [done|].
    cbn -[replicate]. intros [= <- <-]. exists r. split; [|done].
    assert (r ∈ matching (dec_rules d) input) as [_ H]%list_elem_of_filter by (rewrite E; set_solver). done.
Qed.

(** ** The theorem *)

(** A decision as the parser produces it: the lowering never panics; without
    errors, the decision is well typed and complete; it is then emitted and
    verified when it fits 32-bit addresses, and the VM's outputs are typed. *)
Lemma compile_sound `{P : Platform} (schema_hash : list FieldSchema -> N)
    (cat : Catalogue) (ast : DecisionAst) (span : SourceSpan) (text : string) :
  catalogue_ok cat -> Forall rule_ast_ok (da_rules ast) ->
  ∃ r, lower ast cat = Some r ∧
    (lr_errors r = [] ->
     ∃ d, lr_decision r = Some d ∧ decision_lowered ast d ∧
       ((N.of_nat (S (rules_size (hit_policy d) (dec_rules d))) <= u32_max)%N ->
        (N.of_nat (length (output_schema d)) <= u32_max)%N ->
        ∃ c, compile_and_verify (mkSource [ast] span) cat text = Some (Ok c) ∧
          ∀ input fuel, (length (cd_instructions c) <= fuel)%nat ->
            ∃ v, vm_evaluate schema_hash fuel c input text = Some v ∧
              ∀ out oc, verdict v = Ok (out, oc) ->
                (∃ rule, rule ∈ dec_rules d ∧ oc = OutcomeMatch (rule_id rule)) ∧
                Forall2 (λ fs x, typed_as (field_type fs) x) (output_schema d) (out_slots out))).
Proof.
  intros Hcat Hok. destruct (lower_sound cat Hcat ast Hok) as (r & Er & Hr).
  exists r. split; [done|]. intros Hnil. destruct (Hr Hnil) as (d & Hd & Hlow).
  exists d. split; [done|]. split; [done|]. intros Hs1 Hs2.
  pose proof (decision_lowered_ok _ _ Hok Hlow Hs1 Hs2) as Hdok.
  destruct (emit_layout d text Hdok) as (c & Ec & Hc). exists c. split.
  { unfold compile_and_verify, compile, lower_to_ir_with_warnings. cbn [src_decisions].
    rewrite Er. cbn -[emit verify]. rewrite Hnil, Hd. cbn -[emit verify]. rewrite Ec. cbn -[verify].
    by rewrite (laid_out_verifies d c Hc). }
  intros input fuel Hfuel.
  destruct (vm_verdict schema_hash d c input text fuel Hdok Hc Hfuel) as (v & Ev & Hv).
  exists v. split; [done|]. intros out oc Hout. rewrite Hout in Hv.
  destruct (check_schema _ _ _); [|done]. symmetry in Hv.
  apply rules_verdict_rule in Hv as (rule & Hin & -> & Hslots). split; [by eauto|]. rewrite Hslots.
  apply then_typed_outputs. pose proof (dt_then _ (dl_typed _ _ Hlow)) as Hthen.
  rewrite Forall_forall in Hthen. by apply Hthen.
Qed.

(** ** A sample source *)

#[local] Existing Instance toy_platform.
Definition sample_hash (l : list FieldSchema) : N := N.of_nat (length l).

Definition sp0 : SourceSpan := mkSpan 0 0.
Definition sym (s : string) : SymbolAst := mkSymbol s sp0.
Definition int_lit (s : string) : NumberLitAst := mkNumberLit s NKInteger sp0.

Definition sample_catalogue : Catalogue :=
  Catalogue_new 1 "v1" "" [Domain_new 7 "Jurisdiction" "" [mkDomainValue 70 "LU"; mkDomainValue 71 "IE"]].

(** An enum and a decimal input, an integer output, UNIQUE. *)
Definition sample_ast : DecisionAst :=
  mkDecisionAst (sym "fee") None (HPUnique sp0)
    [mkFieldDecl (sym "where") (TREnum sp0) (sym "Jurisdiction") sp0;
     mkFieldDecl (sym "aum") (TRDecimal sp0) (sym "Jurisdiction") sp0]
    [mkFieldDecl (sym "bps") (TRInteger sp0) (sym "Jurisdiction") sp0]
    [mkRuleAst (sym "r1") (WPredicates
       [AAnd [AEq (sym "where") (LSymbol (sym "LU")) sp0; AGe (sym "aum") (int_lit "100") sp0] sp0] sp0)
       [mkAssignAst (sym "bps") (LNumber (int_lit "-5")) sp0] sp0;
     mkRuleAst (sym "r2") (WPredicates [AInSet (sym "where") [LSymbol (sym "IE")] sp0] sp0)
       [mkAssignAst (sym "bps") (LNumber (int_lit "8")) sp0] sp0] sp0.

Lemma sample_catalogue_ok : catalogue_ok sample_catalogue.
Proof.
  intros id d. unfold sample_catalogue, Catalogue_new. cbn [foldl cat_domains].
  rewrite lookup_insert_Some, lookup_empty. intros [[<- <-]|[_ [=]]]. split; [done|].
  intros s v. unfold Domain_new. cbn [foldl values_by_symbol]. rewrite !lookup_insert_Some, lookup_empty.
  by intros [[_ <-]|[_ [[_ <-]|[_ [=]]]]].
Qed.

Lemma sample_ast_ok : Forall rule_ast_ok (da_rules sample_ast).
Proof. repeat constructor. Qed.

(** The sample compiles without errors. *)
Example sample_ast_clean : lr_errors <$> lower sample_ast sample_catalogue = Some [].
Proof. vm_compute. reflexivity. Qed.

(** A member of a set is recorded twice among the resolved entities: once by
    the literal, once by the loop over the set. *)
Example set_members_recorded_twice :
  (map entity_value ∘ resolved_entities) <$> (lower sample_ast sample_catalogue ≫= lr_decision)
  = Some [70; 71; 71]%N.
Proof. vm_compute. reflexivity. Qed.

(** ** From the text to the verdict

    The lexer, the parser, the lowering, the emitter, the verifier and the VM in
    sequence: what holds of every source text. *)

(** [parse] on a source it can read. *)
Lemma parse_accepts text :
  lexable text ->
  ∃ r, parse text = Some r ∧
    match r with
    | Ok ast => accepted ast
    | Err e => pe_errors e ≠ [] ∧ (∀ ast, partial_ast e = Some ast -> src_decisions ast ≠ [])
    end.
Proof.
  intros (tokens & lerrs & El & Htok)%lex_returns.
  destruct (run_parser_returns tokens Htok) as (ast & perrs & Er & Hacc).
  unfold parse. rewrite El. cbn [mbind option_bind]. rewrite Er. cbn [mbind option_bind].
  eexists. split; [done|]. destruct (lerrs ++ perrs) as [|e es] eqn:E.
  - apply app_nil in E as [-> ->]. by apply Hacc.
  - split; [done|]. cbn. intros ast' H. destruct (src_decisions ast) eqn:Ed; [done|]. injection H as <-. by rewrite Ed.
Qed.

(** C30: the parser returns on every source (UTF-8, at most [u32::MAX] bytes, no
    backslash directly before a character that is not ASCII): no loop of the
    lexer, of the parser or of its error recovery runs without consuming input,
    and no slice of the source is off a character boundary.  It answers with an
    AST of exactly one decision, whose connectives have at least two operands,
    or with at least one error; a partial AST it hands out with errors has a
    decision. *)
Theorem parse_returns (text : string) :
  lexable text ->
  ∃ r, parse text = Some r ∧
    match r with
    | Ok ast => ∃ d, src_decisions ast = [d] ∧ Forall rule_ast_ok (da_rules d)
    | Err e => pe_errors e ≠ [] ∧ (∀ ast, partial_ast e = Some ast -> src_decisions ast ≠ [])
    end.
Proof. apply parse_accepts. Qed.

(** C12: compilation is type-sound, from the text.  The parser returns on every
    source it can read; a source it accepts has one decision, which the
    lowering never panics on; when it reports no error the decision is well
    typed (every constant has the type of its field, ordered comparisons and
    ranges only on numeric fields, every output assigned exactly once) and no
    predicate or operand of the source is lost; the emitter and the verifier
    then accept it when it fits 32-bit addresses; and for every input and every
    fuel that covers the program the VM returns a verdict, whose output
    context, if it is a match, has in each slot a value of the type the output
    schema declares, the winning rule being one of the decision. *)
Theorem text_decisions_typed `{P : Platform} (schema_hash : list FieldSchema -> N) (cat : Catalogue) (text : string) :
  catalogue_ok cat -> lexable text ->
  ∃ r, parse text = Some r ∧
    ∀ source, r = Ok source ->
    ∃ ast lr, src_decisions source = [ast] ∧ lower ast cat = Some lr ∧
    (lr_errors lr = [] ->
     ∃ d, lr_decision lr = Some d ∧ decision_lowered ast d ∧
       ((N.of_nat (S (rules_size (hit_policy d) (dec_rules d))) <= u32_max)%N ->
        (N.of_nat (length (output_schema d)) <= u32_max)%N ->
        ∃ c, compile_and_verify source cat text = Some (Ok c) ∧
          ∀ input fuel, (length (cd_instructions c) <= fuel)%nat ->
            ∃ v, vm_evaluate schema_hash fuel c input text = Some v ∧
              ∀ out oc, verdict v = Ok (out, oc) ->
                (∃ rule, rule ∈ dec_rules d ∧ oc = OutcomeMatch (rule_id rule)) ∧
                Forall2 (λ fs x, typed_as (field_type fs) x) (output_schema d) (out_slots out))).
Proof.
  intros Hcat (r & Er & Hr)%parse_accepts. exists r. split; [done|]. intros source ->.
  destruct source as [ds span]. destruct Hr as (ast & Eds & Hok). cbn in Eds. subst ds.
  destruct (compile_sound schema_hash cat ast span text Hcat Hok) as (lr & El & Hl).
  by exists ast, lr.
Qed.

(** ** A sample source *)

#[local] Existing Instance toy_platform.

Definition sample_text : string :=
  "; fees by place" +:+ String (Ascii.ascii_of_N 10)
  "(define-decision fee :hit-policy unique :inputs ((where :type enum :domain Jurisdiction) (aum :type decimal :domain Jurisdiction)) :outputs ((bps :type integer :domain Jurisdiction)) :rules ((rule r1 :when ((and (where = LU) (aum in [100 .. *)))) :then ((bps = -5))) (rule r2 :when ((where in (IE))) :then ((bps = 8)))))".

Lemma sample_text_lexable : lexable sample_text.
Proof.
  split_and!.
  - by vm_compute; eexists.
  - vm_compute. reflexivity.
  - apply N.leb_le. vm_compute. reflexivity.
Qed.

Lemma parse_returns_witness :
  ∃ ast d, parse sample_text = Some (Ok ast) ∧ src_decisions ast = [d] ∧ Forall rule_ast_ok (da_rules d).
Proof.
  destruct (parse_returns sample_text sample_text_lexable) as (r & Er & Hr).
  assert (Some r = parse sample_text) as Er' by (symmetry; exact Er).
  vm_compute in Er'. injection Er' as ->. destruct Hr as (d & Hd & Hok).
  eexists _, d. split; [exact Er|]. exact (conj Hd Hok).
Defined.

Lemma text_decisions_typed_witness :
  ∃ source c, parse sample_text = Some (Ok source) ∧
    compile_and_verify source sample_catalogue sample_text = Some (Ok c).
Proof.
  destruct (text_decisions_typed sample_hash sample_catalogue sample_text sample_catalogue_ok sample_text_lexable)
    as (r & Er & Hr).
  assert (Some r = parse sample_text) as Er' by (symmetry; exact Er).
  vm_compute in Er'. injection Er' as ->. destruct (Hr _ eq_refl) as (ast & lr & Hd & Hl & Hc). clear Hr.
  injection Hd as <-. vm_compute in Hl. injection Hl as <-.
  destruct (Hc eq_refl) as (d & Ed & Hd & Hcc). clear Hc. injection Ed as <-.
  destruct Hcc as (c & Hc & _); [vm_compute; congruence..|].
  eexists _, c. split; [exact Er|exact Hc].
Defined.

(** An empty [:when] block is read without an error and matches every input,
    like the catch-all it is not. *)
Definition empty_when_text : string :=
  "(define-decision d :hit-policy first :inputs ((x :type integer :domain N)) :outputs ((y :type integer :domain N)) :rules ((rule r :when () :then ((y = 1)))))".
Example empty_when_accepted :
  (λ s, (map (λ r, when_ast (ra_when r)) ∘ da_rules) <$> src_decisions s) <$> (parse empty_when_text ≫= result_ok)
  = Some [[[]]].
Proof. vm_compute. reflexivity. Qed.
