(* ===== verification/DmnIntervalFacts.v ===== *)
(** * dmn-lite: interval sets are sets

    Membership in the union, the intersection and the complement of interval
    sets; when the results are sorted, disjoint and without adjacency. *)

From S2P Require Import Prelude DmnIntervals.

(** ** Closed bounds *)

(** The least integer a lower bound admits, the greatest an upper bound does. *)
Definition lo (b : Bound) : option Z :=
  match b with Inclusive v => Some v | Exclusive v => Some (v + 1)%Z | BUnbounded => None end.
Definition hi (b : Bound) : option Z :=
  match b with Inclusive v => Some v | Exclusive v => Some (v - 1)%Z | BUnbounded => None end.

(** Bounds that are [i64] values and whose increment does not overflow. *)
Definition bound_ok (b : Bound) : Prop :=
  match b with Inclusive v | Exclusive v => (i64_min <= v < i64_max)%Z | BUnbounded => True end.
Definition nonempty (iv : Interval) : Prop :=
  match lo (iv_lower iv), hi (iv_upper iv) with Some a, Some b => (a <= b)%Z | _, _ => True end.
Record iv_ok (iv : Interval) : Prop := {
  io_lower : bound_ok (iv_lower iv);
  io_upper : bound_ok (iv_upper iv);
  io_nonempty : nonempty iv;
}.
Definition in_iv (iv : Interval) (z : Z) : Prop :=
  match lo (iv_lower iv) with Some a => (a <= z)%Z | None => True end ∧
  match hi (iv_upper iv) with Some b => (z <= b)%Z | None => True end.
Definition in_set (s : IntervalSet) (z : Z) : Prop := ∃ iv, iv ∈ s ∧ in_iv iv z.

Definition le_lower (a b : Interval) : Prop :=
  match lo (iv_lower a), lo (iv_lower b) with
  | None, _ => True
  | Some _, None => False
  | Some x, Some y => (x <= y)%Z
  end.
Definition touches (a b : Interval) : Prop :=
  match hi (iv_upper a), lo (iv_lower b) with
  | None, _ => True
  | Some _, None => False
  | Some u, Some l => (l <= u + 1)%Z
  end.
(** [b] starts behind [a], and not next to it. *)
Definition apart (a b : Interval) : Prop :=
  match hi (iv_upper a), lo (iv_lower b) with Some u, Some l => (u + 1 < l)%Z | _, _ => False end.

Lemma in_iv_contains iv z : in_iv iv z ↔ interval_contains iv z = true.
Proof.
  unfold in_iv, interval_contains. rewrite andb_true_iff.
  destruct iv as [[] []]; cbn; rewrite ?Z.leb_le, ?Z.ltb_lt; intuition lia.
Qed.
Lemma in_set_contains s z : in_set s z ↔ iset_contains s z = true.
Proof.
  unfold in_set, iset_contains. rewrite existsb_exists. split.
  - intros (iv & Hin & Hz). exists iv. split; [by apply list_elem_of_In|by apply in_iv_contains].
  - intros (iv & Hin & Hz). exists iv. split; [by apply list_elem_of_In|by apply in_iv_contains].
Qed.

Lemma in_set_nil z : ¬ in_set [] z.
Proof. intros (iv & H & _). set_solver. Qed.
Lemma in_set_cons iv s z : in_set (iv :: s) z ↔ in_iv iv z ∨ in_set s z.
Proof. unfold in_set. set_solver. Qed.
Lemma in_set_app s s' z : in_set (s ++ s') z ↔ in_set s z ∨ in_set s' z.
Proof. unfold in_set. set_solver. Qed.

(** ** Sorting *)

Section sort_by.
Context {A : Type} (cmp : A -> A -> comparison).
Lemma insert_by_perm x l : insert_by cmp x l ≡ₚ x :: l.
Proof.
  induction l as [|y l IH]; [done|]. cbn [insert_by]. destruct (cmp x y); [done..|].
  by rewrite IH, Permutation_swap.
Qed.
Lemma sort_by_perm l : sort_by cmp l ≡ₚ l.
Proof. induction l as [|x l IH]; [done|]. cbn. by rewrite insert_by_perm, IH. Qed.

Context (R : A -> A -> Prop).
Hypothesis cmp_le : ∀ x y, cmp x y ≠ Gt -> R x y.
Hypothesis cmp_gt : ∀ x y, cmp x y = Gt -> R y x.
Hypothesis R_trans : ∀ x y z, R x y -> R y z -> R x z.
Lemma insert_by_sorted x l : StronglySorted R l -> StronglySorted R (insert_by cmp x l).
Proof.
  induction 1 as [|y l Hl IH Hy]; cbn [insert_by]; [by repeat constructor|].
  destruct (cmp x y) eqn:E.
  1,2: assert (R x y) as Hxy by (apply cmp_le; congruence);
    constructor; [by constructor|constructor; [done|]];
    eapply Forall_impl; [exact Hy|]; intros z Hz; by eapply R_trans.
  constructor; [done|]. rewrite insert_by_perm. constructor; [by apply cmp_gt|done].
Qed.
Lemma sort_by_sorted l : StronglySorted R (sort_by cmp l).
Proof. induction l as [|x l IH]; [constructor|]. by apply insert_by_sorted. Qed.
End sort_by.

Section facts.
Context (checks : bool).

Lemma add_one_ok a : (i64_min <= a < i64_max)%Z -> add_one checks a = Some (a + 1)%Z.
Proof. intros H. unfold add_one. destruct (Z.eqb_spec a i64_max); [lia|done]. Qed.

(** ** Single intervals *)

Lemma interval_is_empty_spec iv :
  bound_ok (iv_lower iv) -> bound_ok (iv_upper iv) ->
  ∃ e, interval_is_empty checks iv = Some e ∧ (e = false ↔ nonempty iv).
Proof.
  intros Hl Hu. unfold interval_is_empty. destruct iv as [[a|a|] [b|b|]]; cbn in *;
    rewrite ?add_one_ok by done; cbn; eexists; (split; [done|]); unfold nonempty; cbn;
    rewrite ?Z.leb_gt, ?Z.ltb_ge; try done; lia.
Qed.

Lemma touch_spec a b :
  iv_ok a -> iv_ok b -> ∃ t, intervals_touch_or_overlap checks a b = Some t ∧ (t = true ↔ touches a b).
Proof.
  intros [_ Ha _] [Hb _ _]. unfold intervals_touch_or_overlap.
  destruct a as [al [u|u|]], b as [[l|l|] bu]; cbn in *; rewrite ?add_one_ok by done; cbn;
    eexists; (split; [done|]); unfold touches; cbn; rewrite ?Z.leb_le, ?Z.ltb_lt; try done; lia.
Qed.

Lemma cmp_lower_le a b : cmp_lower_bound (iv_lower a) (iv_lower b) ≠ Gt -> le_lower a b.
Proof.
  destruct a as [[x|x|] au], b as [[y|y|] bu]; unfold le_lower; cbn; try done; unfold then_;
    destruct (Z.compare_spec x y); try done; lia.
Qed.
Lemma cmp_lower_gt a b : cmp_lower_bound (iv_lower a) (iv_lower b) = Gt -> le_lower b a.
Proof.
  destruct a as [[x|x|] au], b as [[y|y|] bu]; unfold le_lower; cbn; try done; unfold then_;
    destruct (Z.compare_spec x y); try done; lia.
Qed.
Lemma le_lower_trans a b c : le_lower a b -> le_lower b c -> le_lower a c.
Proof. unfold le_lower. destruct (lo (iv_lower a)), (lo (iv_lower b)), (lo (iv_lower c)); try done; lia. Qed.

(** The merged interval of two that touch. *)
Definition join (a b : Interval) : Interval :=
  mkInterval (iv_lower a) (max_upper_bound (iv_upper a) (iv_upper b)).
Lemma hi_max a b :
  hi (max_upper_bound a b) =
  match hi a, hi b with Some x, Some y => Some (Z.max x y) | _, _ => None end.
Proof.
  destruct a as [x|x|], b as [y|y|]; cbn; try done; unfold max_upper_bound, cmp_upper_bound, then_;
    destruct (Z.compare_spec x y); cbn; f_equal; lia.
Qed.
Lemma hi_min a b :
  hi (min_upper_bound a b) =
  match hi a, hi b with Some x, Some y => Some (Z.min x y) | Some x, None | None, Some x => Some x | _, _ => None end.
Proof.
  destruct a as [x|x|], b as [y|y|]; cbn; try done; unfold min_upper_bound, cmp_upper_bound, then_;
    destruct (Z.compare_spec x y); cbn; f_equal; lia.
Qed.
Lemma lo_max a b :
  lo (max_lower_bound a b) =
  match lo a, lo b with Some x, Some y => Some (Z.max x y) | Some x, None | None, Some x => Some x | _, _ => None end.
Proof.
  destruct a as [x|x|], b as [y|y|]; cbn; try done; unfold max_lower_bound, cmp_lower_bound, then_;
    destruct (Z.compare_spec x y); cbn; f_equal; lia.
Qed.
Lemma bound_ok_pick (a b : Bound) : bound_ok a -> bound_ok b ->
  bound_ok (max_upper_bound a b) ∧ bound_ok (min_upper_bound a b) ∧ bound_ok (max_lower_bound a b).
Proof.
  intros Ha Hb. unfold max_upper_bound, min_upper_bound, max_lower_bound. by repeat case_match.
Qed.

Lemma join_ok a b : iv_ok a -> iv_ok b -> iv_ok (join a b).
Proof.
  intros [Ha1 Ha2 Ha3] [Hb1 Hb2 _]. split; cbn; [done|by apply bound_ok_pick|].
  unfold nonempty in *. cbn. rewrite hi_max. destruct (lo (iv_lower a)), (hi (iv_upper a)), (hi (iv_upper b)); try done; lia.
Qed.
Lemma join_in a b z : le_lower a b -> iv_ok a -> touches a b -> in_iv (join a b) z ↔ in_iv a z ∨ in_iv b z.
Proof.
  intros Hle [_ _ Hne] Ht. unfold in_iv, touches, le_lower, nonempty in *. cbn. rewrite hi_max.
  destruct (lo (iv_lower a)), (hi (iv_upper a)), (lo (iv_lower b)), (hi (iv_upper b)); try done; intuition lia.
Qed.

(** ** Sorting and merging *)

Lemma sort_sorted l : StronglySorted le_lower (sort_intervals l).
Proof.
  apply sort_by_sorted; [exact cmp_lower_le|exact cmp_lower_gt|exact le_lower_trans].
Qed.
Lemma sort_perm l : sort_intervals l ≡ₚ l.
Proof. apply sort_by_perm. Qed.

(** Sorted, disjoint, without adjacency. *)
Inductive norm : IntervalSet -> Prop :=
| norm_nil : norm []
| norm_one a : iv_ok a -> norm [a]
| norm_cons a b l : iv_ok a -> apart a b -> norm (b :: l) -> norm (a :: b :: l).

(** At most the first interval is unbounded below. *)
Definition bounded_below (iv : Interval) : Prop := lo (iv_lower iv) ≠ None.

Lemma merge_loop_spec l last :
  iv_ok last -> Forall iv_ok l -> StronglySorted le_lower (last :: l) ->
  ∃ out, merge_loop checks last l = Some out ∧ Forall iv_ok out ∧
    (∀ z, in_set out z ↔ in_set (last :: l) z) ∧
    StronglySorted le_lower out ∧
    (∃ first out', out = first :: out' ∧ iv_lower first = iv_lower last) ∧
    (Forall bounded_below l -> norm out).
Proof.
  revert last. induction l as [|next l IH]; intros last Hlast Hl Hs.
  { exists [last]. split_and!; [done|by constructor|done|done|by eexists _, _|intros; by constructor]. }
  inversion Hl as [|? ? Hnext Hl']; subst. inversion Hs as [|? ? Hs' Hle]; subst. inversion Hle as [|? ? Hln Hle']; subst.
  destruct (touch_spec last next Hlast Hnext) as (t & Et & Ht). cbn [merge_loop]. rewrite Et. cbn [mbind option_bind].
  destruct t.
  - assert (touches last next) as Htt by (by apply Ht).
    destruct (IH (join last next)) as (out & E & Hok & Hin & Hso & Hfirst & Hnorm).
    + by apply join_ok.
    + done.
    + inversion Hs'; subst. constructor; [done|]. eapply Forall_impl; [exact Hle'|]. done.
    + exists out. split_and!; [exact E|done| |done|done|].
      * intros z. rewrite Hin, !in_set_cons, join_in by done. tauto.
      * intros Hb. apply Hnorm. by inversion Hb.
  - assert (¬ touches last next) as Hnt by (by intros H%Ht).
    destruct (IH next Hnext Hl' Hs') as (out & E & Hok & Hin & Hso & (first & out' & -> & Hfirst) & Hnorm).
    rewrite E. cbn [mbind option_bind]. exists (last :: first :: out'). split_and!; [done|by constructor| |..].
    + intros z. by rewrite in_set_cons, Hin, !in_set_cons.
    + constructor; [done|]. inversion Hso as [|? ? ? Hfo]; subst.
      assert (le_lower last first) as Hlf by (unfold le_lower in *; by rewrite Hfirst).
      constructor; [done|]. eapply Forall_impl; [exact Hfo|]. intros z Hz. by eapply le_lower_trans.
    + by eexists _, _.
    + intros Hb. inversion Hb as [|? ? Hbn Hb']; subst. constructor; [done| |by apply Hnorm].
      unfold apart, touches, bounded_below in *. rewrite Hfirst.
      destruct (hi (iv_upper last)), (lo (iv_lower next)); try done; lia.
Qed.

Lemma in_set_perm l l' z : l ≡ₚ l' -> in_set l z ↔ in_set l' z.
Proof. intros H. unfold in_set. by setoid_rewrite H. Qed.

(** What [normalise] gives. *)
Definition good_set (s : IntervalSet) : Prop := Forall iv_ok s ∧ StronglySorted le_lower s.

Lemma sorted_bounded l x :
  StronglySorted le_lower (x :: l) -> (length (filter (λ iv, lo (iv_lower iv) = None) (x :: l)) <= 1)%nat ->
  Forall bounded_below l.
Proof.
  intros Hs Hc. apply Forall_forall. intros iv Hin Hnone.
  inversion Hs as [|? ? ? Hle]; subst. rewrite Forall_forall in Hle. specialize (Hle iv Hin). unfold le_lower in Hle.
  rewrite Hnone in Hle. destruct (lo (iv_lower x)) eqn:Ex; [done|].
  rewrite filter_cons_True in Hc by done. cbn in Hc.
  assert (iv ∈ filter (λ iv, lo (iv_lower iv) = None) l) as Hel by (by apply list_elem_of_filter).
  destruct (filter _ l); [set_solver|cbn in Hc; lia].
Qed.

Lemma normalise_spec l :
  Forall iv_ok l ->
  ∃ s, normalise checks l = Some s ∧ good_set s ∧ (∀ z, in_set s z ↔ in_set l z) ∧
    ((length (filter (λ iv, lo (iv_lower iv) = None) l) <= 1)%nat -> norm s) ∧ (s = [] ↔ l = []).
Proof.
  intros Hl. unfold normalise. pose proof (sort_perm l) as Hp. pose proof (sort_sorted l) as Hs.
  destruct (sort_intervals l) as [|x l'] eqn:E.
  - apply Permutation_nil_l in Hp. subst l. exists []. split; [reflexivity|]. split; [by repeat constructor|]. split; [intros z; tauto|]. split; [intros; constructor|tauto].
  - assert (Forall iv_ok (x :: l')) as Hok by (by rewrite Hp). inversion Hok; subst.
    destruct (merge_loop_spec l' x) as (out & Eo & Ho & Hin & Hso & (f & o & -> & _) & Hnorm); [done..|].
    exists (f :: o). split_and!; [done|by split| | |].
    + intros z. rewrite Hin. by apply in_set_perm.
    + intros Hc. apply Hnorm, (sorted_bounded l' x); [done|]. by rewrite Hp.
    + split; [done|]. intros ->. by apply Permutation_nil_r in Hp.
Qed.

(** ** The operations *)

Lemma union_spec a b :
  Forall iv_ok a -> Forall iv_ok b ->
  ∃ s, iset_union checks a b = Some s ∧ good_set s ∧ ∀ z, in_set s z ↔ in_set a z ∨ in_set b z.
Proof.
  intros Ha Hb. destruct (normalise_spec (a ++ b)) as (s & E & Hs & Hin & _); [by apply Forall_app|].
  exists s. split_and!; [done|done|]. intros z. by rewrite Hin, in_set_app.
Qed.

Lemma interval_intersect_spec a b :
  iv_ok a -> iv_ok b ->
  ∃ o, interval_intersect checks a b = Some o ∧ (∀ i, o = Some i -> iv_ok i) ∧
    ∀ z, (∃ i, o = Some i ∧ in_iv i z) ↔ in_iv a z ∧ in_iv b z.
Proof.
  intros [Ha1 Ha2 Ha3] [Hb1 Hb2 Hb3]. unfold interval_intersect.
  set (out := mkInterval _ _).
  destruct (interval_is_empty_spec out) as (e & Ee & He); [by apply bound_ok_pick..|].
  rewrite Ee. cbn [mbind option_bind]. eexists. split; [done|].
  assert (∀ z, in_iv out z ↔ in_iv a z ∧ in_iv b z) as Hin.
  { intros z. unfold in_iv, out. cbn. rewrite hi_min, lo_max.
    destruct (lo (iv_lower a)), (hi (iv_upper a)), (lo (iv_lower b)), (hi (iv_upper b)); intuition lia. }
  split.
  - intros i. destruct e; [done|]. intros [= <-]. split; [by apply bound_ok_pick..|by apply He].
  - intros z. rewrite <- Hin. destruct e; [|by split; [intros (? & [= <-] & ?)|eauto]].
    split; [by intros (? & ? & _)|]. intros Hz. exfalso.
    assert (nonempty out) as Hne; [|by apply He in Hne].
    unfold nonempty, in_iv in *. destruct (lo (iv_lower out)), (hi (iv_upper out)); try done; lia.
Qed.

Lemma intersect_all_spec l :
  Forall (λ p, iv_ok p.1 ∧ iv_ok p.2) l ->
  ∃ out, intersect_all checks l = Some out ∧ Forall iv_ok out ∧
    (∀ z, in_set out z ↔ ∃ p, p ∈ l ∧ in_iv p.1 z ∧ in_iv p.2 z).
Proof.
  induction 1 as [|[a b] l [Ha Hb] Hl IH]; cbn [intersect_all].
  { exists []. split_and!; [done|constructor|]. intros z. split; [by intros ?%in_set_nil|intros (? & ? & _); set_solver]. }
  destruct (interval_intersect_spec a b Ha Hb) as (o & Eo & Hok & Hin). cbn in Ha, Hb.
  destruct IH as (out & E & Hout & Hin'). rewrite Eo, E. cbn [mbind option_bind].
  assert (∀ z, (∃ p, p ∈ (a, b) :: l ∧ in_iv p.1 z ∧ in_iv p.2 z) ↔
               (in_iv a z ∧ in_iv b z) ∨ ∃ p, p ∈ l ∧ in_iv p.1 z ∧ in_iv p.2 z) as Hcons.
  { intros z. split; [intros (p & [-> | Hp]%elem_of_cons & H1 & H2); [by left|right; eauto]|].
    intros [[H1 H2]|(p & Hp & H1 & H2)]; [exists (a, b); set_solver|exists p; set_solver]. }
  eexists. split; [done|]. split_and!.
  - destruct o as [i|]; [|done]. constructor; [by apply Hok|done].
  - intros z. rewrite Hcons, <- Hin, <- Hin'. destruct o as [i|].
    + rewrite in_set_cons. split; [intros [?|?]; eauto|intros [(? & [= <-] & ?)|?]; auto].
    + split; [by auto|by intros [(? & ? & _)|?]].
Qed.

Lemma intersect_spec a b :
  Forall iv_ok a -> Forall iv_ok b ->
  ∃ s, iset_intersect checks a b = Some s ∧ good_set s ∧ (∀ z, in_set s z ↔ in_set a z ∧ in_set b z).
Proof.
  intros Ha Hb. unfold iset_intersect. set (l := flat_map _ a).
  assert (∀ p, p ∈ l ↔ p.1 ∈ a ∧ p.2 ∈ b) as Hl.
  { intros [x y]. unfold l. rewrite list_elem_of_In, in_flat_map. cbn. split.
    - intros (x' & Hx & (y' & [= <- <-] & Hy)%in_map_iff). by rewrite !list_elem_of_In.
    - rewrite !list_elem_of_In. intros [Hx Hy]. exists x. split; [done|]. by apply in_map_iff; eauto. }
  destruct (intersect_all_spec l) as (out & E & Hout & Hin).
  { rewrite Forall_forall in Ha, Hb. apply Forall_forall. intros p [H1 H2]%Hl. split; [by apply Ha|by apply Hb]. }
  rewrite E. cbn [mbind option_bind]. destruct (normalise_spec out Hout) as (s & Es & Hs & Hin' & _).
  exists s. split_and!; [done|done|]. intros z. rewrite Hin', Hin. setoid_rewrite Hl. unfold in_set. split.
  - intros ([x y] & [? ?] & ? & ?). split; [by exists x|by exists y].
  - intros [(x & ? & ?) (y & ? & ?)]. by exists (x, y).
Qed.

(** ** Complements *)

Definition above (a : Interval) (z : Z) : Prop := ∃ u, hi (iv_upper a) = Some u ∧ (u < z)%Z.

(** Outside an interval is before or above it. *)
Lemma outside iv z : ¬ in_iv iv z -> (∃ l, lo (iv_lower iv) = Some l ∧ (z < l)%Z) ∨ above iv z.
Proof.
  unfold in_iv, above. intros H.
  destruct (lo (iv_lower iv)) as [l|], (hi (iv_upper iv)) as [u|]; try tauto.
  - destruct (Z.lt_ge_cases z l); [left; eauto|]. right. exists u. split; [done|]. apply Z.nle_gt. tauto.
  - left. exists l. split; [done|]. apply Z.nle_gt. tauto.
  - right. exists u. split; [done|]. apply Z.nle_gt. tauto.
Qed.

Lemma flip_ok b : bound_ok b -> bound_ok (flip_bound b).
Proof. by destruct b. Qed.
Lemma hi_flip b : hi (flip_bound b) = (λ v, v - 1)%Z <$> lo b.
Proof. destruct b; cbn; f_equal; lia. Qed.
Lemma lo_flip b : lo (flip_bound b) = (λ v, v + 1)%Z <$> hi b.
Proof. destruct b; cbn; f_equal; lia. Qed.
Lemma unbounded_lo b : is_unbounded b = true ↔ lo b = None.
Proof. by destruct b. Qed.
Lemma unbounded_hi b : is_unbounded b = true ↔ hi b = None.
Proof. by destruct b. Qed.

Lemma piece_spec l u :
  bound_ok l -> bound_ok u ->
  ∃ p, piece checks l u = Some p ∧ Forall iv_ok p ∧ ∀ z, in_set p z ↔ in_iv (mkInterval l u) z.
Proof.
  intros Hl Hu. unfold piece. set (iv := mkInterval l u).
  destruct (interval_is_empty_spec iv) as (e & -> & He); [done..|]. cbn [mbind option_bind]. eexists. split; [done|].
  destruct e.
  - split; [done|]. intros z. split; [by intros ?%in_set_nil|]. intros Hz. exfalso.
    assert (nonempty iv) as Hne; [|by apply He in Hne].
    unfold nonempty, in_iv in *. destruct (lo (iv_lower iv)), (hi (iv_upper iv)); try done; lia.
  - split; [constructor; [|done]; split; [done..|by apply He]|]. intros z. rewrite in_set_cons.
    split; [by intros [?|?%in_set_nil]|by left].
Qed.

Lemma norm_above a l z : norm (a :: l) -> in_set l z -> above a z.
Proof.
  revert a. induction l as [|b l IH]; intros a Hn Hz; [by apply in_set_nil in Hz|].
  inversion Hn as [| |? ? ? Ha Hap Hn']; subst.
  unfold apart, above in *. destruct (hi (iv_upper a)) as [u|]; [|done]. destruct (lo (iv_lower b)) as [lb|] eqn:Elb; [|done].
  exists u. split; [done|]. apply in_set_cons in Hz as [[Hz _]|Hz].
  - rewrite Elb in Hz. lia.
  - destruct (IH b Hn' Hz) as (ub & Eub & Hub).
    assert (iv_ok b) as [_ _ Hne] by (by inversion Hn'). unfold nonempty in Hne. rewrite Elb, Eub in Hne. lia.
Qed.
Lemma norm_ok s : norm s -> Forall iv_ok s.
Proof. induction 1; [apply List.Forall_nil|by constructor|by constructor]. Qed.

(** Behind [prev]: nothing uncovered is missed, and on normalised sets nothing
    covered is in. *)
Lemma pieces_after_spec l prev :
  Forall iv_ok (prev :: l) ->
  ∃ out, pieces_after checks prev l = Some out ∧ Forall iv_ok out ∧
    (∀ z, above prev z -> ¬ in_set l z -> in_set out z) ∧
    (norm (prev :: l) -> ∀ z, in_set out z -> above prev z ∧ ¬ in_set l z).
Proof.
  revert prev. induction l as [|next l IH]; intros prev Hok; inversion Hok as [|? ? [Hp1 Hp2 Hp3] Hl]; subst; cbn [pieces_after].
  - destruct (is_unbounded (iv_upper prev)) eqn:Eu.
    + apply unbounded_hi in Eu. eexists. split_and!; [done|done|intros z (u & E & _); congruence|by intros _ z ?%in_set_nil].
    + destruct (piece_spec (flip_bound (iv_upper prev)) BUnbounded) as (p & -> & Hp & Hin); [by apply flip_ok|done|].
      exists p. split_and!; [done|done|..].
      * intros z (u & E & Hu) _. rewrite Hin. unfold in_iv. cbn. rewrite lo_flip, E. cbn. lia.
      * intros _ z Hz. rewrite Hin in Hz. unfold in_iv in Hz. cbn in Hz. rewrite lo_flip in Hz.
        split; [|apply in_set_nil]. unfold above. destruct (hi (iv_upper prev)) as [u|] eqn:E.
        -- exists u. cbn in Hz. split; [done|lia].
        -- apply unbounded_hi in E. congruence.
  - inversion Hl as [|? ? [Hn1 Hn2 Hn3] Hl']; subst. destruct (IH next Hl) as (rest & Er & Hr & Hmiss & Hcov).
    set (skip := is_unbounded (iv_upper prev) || is_unbounded (iv_lower next)).
    assert (∃ p, (if skip then Some [] else piece checks (flip_bound (iv_upper prev)) (flip_bound (iv_lower next))) = Some p ∧
              Forall iv_ok p ∧ ∀ z, in_set p z ↔ above prev z ∧ ∃ l, lo (iv_lower next) = Some l ∧ (z < l)%Z) as (p & Ep & Hp & Hin).
    { destruct skip eqn:Es; unfold skip in Es.
      - exists []. split_and!; [done|done|]. intros z. split; [by intros ?%in_set_nil|].
        intros [(u & E1 & _) (l' & E2 & _)]. exfalso.
        apply orb_true_iff in Es as [E%unbounded_hi|E%unbounded_lo]; congruence.
      - apply orb_false_iff in Es as [E1 E2].
        destruct (piece_spec (flip_bound (iv_upper prev)) (flip_bound (iv_lower next))) as (p & Ep & Hp & Hin); [by apply flip_ok..|].
        exists p. split_and!; [done|done|]. intros z. rewrite Hin. unfold in_iv. cbn. rewrite lo_flip, hi_flip. unfold above.
        destruct (hi (iv_upper prev)) as [u|] eqn:Eu; [|apply unbounded_hi in Eu; congruence].
        destruct (lo (iv_lower next)) as [ln|] eqn:El; [|apply unbounded_lo in El; congruence].
        cbn. split; [intros [? ?]; split; eexists; (split; [done|lia])|].
        intros [(? & [= <-] & ?) (? & [= <-] & ?)]. lia. }
    rewrite Ep, Er. cbn [mbind option_bind]. exists (p ++ rest). split_and!; [done|by apply Forall_app|..].
    + intros z Ha Hz. rewrite in_set_app. rewrite in_set_cons in Hz. apply Decidable.not_or in Hz as [Hz1 Hz2].
      destruct (outside next z Hz1) as [Hb|Hab]; [left; by apply Hin|right; by apply Hmiss].
    + intros Hn z Hz. inversion Hn as [| |? ? ? Hpok Hap Hn']; subst. rewrite in_set_cons. rewrite in_set_app in Hz.
      destruct Hz as [[Ha (ln & El & Hlt)]%Hin|Hz].
      * split; [done|]. intros [[Hz _]|Hz].
        -- rewrite El in Hz. lia.
        -- destruct (norm_above next l z Hn' Hz) as (un & Eun & Hun).
           unfold nonempty in Hn3. rewrite El, Eun in Hn3. lia.
      * destruct (Hcov Hn' z Hz) as [(un & Eun & Hun) Hzl]. split.
        -- unfold apart, above in *. destruct (hi (iv_upper prev)) as [u|]; [|done].
           destruct (lo (iv_lower next)) as [ln|] eqn:El; [|done].
           unfold nonempty in Hn3. rewrite El, Eun in Hn3. exists u. split; [done|lia].
        -- intros [[_ Hz']|Hz']; [|done]. rewrite Eun in Hz'. lia.
Qed.

(** The complement of a set: nothing uncovered is missed; on normalised sets it
    is exact. *)
Lemma complement_spec s :
  Forall iv_ok s ->
  ∃ c, iset_complement checks s = Some c ∧ Forall iv_ok c ∧ (∀ z, ¬ in_set s z -> in_set c z) ∧
    (norm s -> ∀ z, in_set c z ↔ ¬ in_set s z).
Proof.
  intros Hs. destruct s as [|first l]; cbn [iset_complement].
  { exists iset_full. assert (∀ z, in_set iset_full z) as Hf by (intros z; eexists; split; [by left|done]).
    split_and!; [done|by repeat constructor|by intros|]. intros _ z. split; [by intros _ ?%in_set_nil|by intros]. }
  destruct (pieces_after_spec l first Hs) as (rest & Er & Hr & Hmiss & Hcov). inversion Hs as [|? ? [H1 H2 H3] Hl]; subst.
  assert (∃ p, (if is_unbounded (iv_lower first) then Some [] else piece checks BUnbounded (flip_bound (iv_lower first))) = Some p ∧
            Forall iv_ok p ∧ ∀ z, in_set p z ↔ ∃ l, lo (iv_lower first) = Some l ∧ (z < l)%Z) as (p & Ep & Hp & Hin).
  { destruct (is_unbounded (iv_lower first)) eqn:E.
    - apply unbounded_lo in E. exists []. split_and!; [done|done|]. intros z.
      split; [by intros ?%in_set_nil|intros (? & ? & _); congruence].
    - destruct (piece_spec BUnbounded (flip_bound (iv_lower first))) as (p & -> & Hp & Hin); [done|by apply flip_ok|].
      exists p. split_and!; [done|done|]. intros z. rewrite Hin. unfold in_iv. cbn. rewrite hi_flip.
      destruct (lo (iv_lower first)) as [v|] eqn:El; [|apply unbounded_lo in El; congruence]. cbn.
      split; [intros [_ ?]; exists v; split; [done|lia]|intros (? & [= <-] & ?); lia]. }
  rewrite Ep, Er. cbn [mbind option_bind]. exists (p ++ rest).
  assert (∀ z, ¬ in_set (first :: l) z -> in_set (p ++ rest) z) as Hout.
  { intros z Hz. rewrite in_set_app. rewrite in_set_cons in Hz. apply Decidable.not_or in Hz as [Hz1 Hz2].
    destruct (outside first z Hz1) as [Hb|Hab]; [left; by apply Hin|right; by apply Hmiss]. }
  split_and!; [done|by apply Forall_app|done|]. intros Hn z. split; [|apply Hout].
  rewrite in_set_app, in_set_cons. intros [(v & El & Hv)%Hin|Hz].
  - intros [[Hz _]|Hz]; [rewrite El in Hz; lia|].
    destruct (norm_above first l z Hn Hz) as (u & Eu & Hu). unfold nonempty in H3. rewrite El, Eu in H3. lia.
  - destruct (Hcov Hn z Hz) as [(u & Eu & Hu) Hzl]. intros [[_ Hz']|?]; [|done]. rewrite Eu in Hz'. lia.
Qed.

(** ** Witnesses *)

Lemma interval_witness_spec iv :
  iv_ok iv -> ∃ w, interval_witness checks iv = Some w ∧ ∀ z, w = Some z -> in_iv iv z.
Proof.
  intros [H1 H2 H3]. destruct (interval_is_empty_spec iv H1 H2) as (e & E & He). unfold interval_witness. rewrite E.
  cbn [mbind option_bind]. eexists. split; [done|]. intros z. destruct e; [done|]. clear E He.
  destruct iv as [[l|l|] [u|u|]]; cbn in *; unfold nonempty, in_iv in *; cbn in *; repeat case_match; intros [= <-]; lia.
Qed.
Lemma pick_witness_spec s :
  Forall iv_ok s -> ∃ w, pick_witness checks s = Some w ∧ ∀ z, w = Some z -> in_set s z.
Proof.
  induction 1 as [|iv s Hiv Hs (w & E & Hw)]; cbn [pick_witness]; [by exists None|].
  destruct (interval_witness_spec iv Hiv) as (w' & -> & Hw'). cbn [mbind option_bind]. destruct w' as [v|].
  - eexists. split; [done|]. intros z [= <-]. apply in_set_cons. left. by apply Hw'.
  - exists w. split; [done|]. intros z Hz. apply in_set_cons. right. by apply Hw.
Qed.
End facts.
