(* ===== verification/DmnRegion.v ===== *)
(** * dmn-lite: the input region of a rule

    [dmn-lite-analysis/src/region.rs]: each rule is abstracted to one
    constraint per input field.  A panic (an index out of range, a domain that
    is not in the catalogue, an overflow of the interval arithmetic in a build
    that checks) is [None]. *)

From S2P Require Import Prelude RustStr Json Types DmnTypes DmnLower DmnIntervals.

Inductive FieldRegion :=
| REmpty
| RAny
| RNotNull
| RNullOnly
| REnumSet (domain_id : DomainId) (values : gset ValueId)
| RBoolSet (s : gset bool)
| RIntegerInterval (s : IntervalSet)
| RDecimalOpaque
| RStringSet (s : gset string)
| RStringOpaque
| ROpaque (reason : string).

Record RuleRegion := mkRegion { rr_fields : list FieldRegion; rr_is_catch_all : bool }.

(** [fields[i] = x]. *)
Definition set_index {A} (l : list A) (i : nat) (x : A) : option (list A) :=
  _ ← l !! i; Some (<[i := x]> l).

(** [catalogue_values]: sorted. *)
Definition catalogue_values (domain_id : DomainId) (catalogue : Catalogue) : option (list ValueId) :=
  domain ← find_domain_by_id catalogue domain_id;
  Some (merge_sort N.le (dv_value_id <$> (map_to_list (dom_values domain)).*2)).

Section region.
Context (checks : bool).

(** ** Operations on field regions *)

(** A set kept unless it is empty. *)
Definition or_empty {A} `{Countable A} (mk : gset A -> FieldRegion) (s : gset A) : FieldRegion :=
  if bool_decide (s = ∅) then REmpty else mk s.

Definition intersect (a b : FieldRegion) : option FieldRegion :=
  match a, b with
  | REmpty, _ | _, REmpty => Some REmpty
  | RAny, x | x, RAny => Some x
  | RNullOnly, RNullOnly => Some RNullOnly
  | RNullOnly, _ | _, RNullOnly => Some REmpty
  | RNotNull, x | x, RNotNull => Some x
  | REnumSet d1 v1, REnumSet d2 v2 =>
      Some (if (d1 =? d2)%N then or_empty (REnumSet d1) (v1 ∩ v2) else REmpty)
  | RBoolSet x, RBoolSet y => Some (or_empty RBoolSet (x ∩ y))
  | RIntegerInterval x, RIntegerInterval y =>
      i ← iset_intersect checks x y;
      Some (match i with [] => REmpty | _ => RIntegerInterval i end)
  | RDecimalOpaque, _ | _, RDecimalOpaque => Some RDecimalOpaque
  | RStringSet x, RStringSet y => Some (or_empty RStringSet (x ∩ y))
  | RStringOpaque, _ | _, RStringOpaque => Some RStringOpaque
  | ROpaque reason, _ | _, ROpaque reason => Some (ROpaque reason)
  | _, _ => Some REmpty
  end.

(** [intersect_field(&mut fields[i], other)]. *)
Definition intersect_field (fields : list FieldRegion) (i : FieldId) (other : FieldRegion)
  : option (list FieldRegion) :=
  old ← fields !! i;
  new ← intersect old other;
  set_index fields i new.

Definition union_field (a b : FieldRegion) : option FieldRegion :=
  let mixed := Some (ROpaque "union of mixed region kinds") in
  match a, b with
  | REmpty, x | x, REmpty => Some x
  | RAny, _ | _, RAny => Some RAny
  | RNullOnly, RNullOnly => Some RNullOnly
  | RNotNull, RNotNull => Some RNotNull
  | REnumSet d1 v1, REnumSet d2 v2 => if (d1 =? d2)%N then Some (REnumSet d1 (v1 ∪ v2)) else mixed
  | RBoolSet x, RBoolSet y => Some (RBoolSet (x ∪ y))
  | RIntegerInterval x, RIntegerInterval y => u ← iset_union checks x y; Some (RIntegerInterval u)
  | RStringSet x, RStringSet y => Some (RStringSet (x ∪ y))
  | _, _ => mixed
  end.

Definition is_subset_of (a b : FieldRegion) : option bool :=
  match a, b with
  | REmpty, _ => Some true
  | _, RAny => Some true
  | RAny, _ => Some false
  | RNotNull, RNotNull | RNullOnly, RNullOnly => Some true
  | RNotNull, RNullOnly | RNullOnly, RNotNull => Some false
  | REnumSet d1 v1, REnumSet d2 v2 => Some ((d1 =? d2)%N && bool_decide (v1 ⊆ v2))
  | RBoolSet x, RBoolSet y => Some (bool_decide (x ⊆ y))
  | RIntegerInterval x, RIntegerInterval y =>
      c ← iset_complement checks y;
      i ← iset_intersect checks x c;
      Some (match i with [] => true | _ => false end)
  | RStringSet x, RStringSet y => Some (bool_decide (x ⊆ y))
  | RNotNull, (REnumSet _ _ | RBoolSet _ | RIntegerInterval _ | RStringSet _) => Some false
  | (REnumSet _ _ | RBoolSet _ | RIntegerInterval _ | RStringSet _), RNotNull => Some true
  | _, _ => Some false
  end.

(** ** From a predicate to its regions *)

Section apply.
Context (schema : list FieldSchema) (catalogue : Catalogue).

Definition integer_comparison (op : ComparisonOp) (v : Z) : option FieldRegion :=
  s ← (match op with
       | OpEq => Some (iset_singleton v)
       | OpNotEq => iset_complement checks (iset_singleton v)
       | OpLt => iset_from_range checks None (Some v) false false
       | OpLe => iset_from_range checks None (Some v) false true
       | OpGt => iset_from_range checks (Some v) None false false
       | OpGe => iset_from_range checks (Some v) None true false
       end);
  Some (RIntegerInterval s).

Definition comparison_region (op : ComparisonOp) (field_type : ResolvedType) (rhs : TypedValue) : option FieldRegion :=
  match op, field_type, rhs with
  | OpEq, RTEnum domain_id, TVEnum _ value_id => Some (REnumSet domain_id {[value_id]})
  | OpNotEq, RTEnum domain_id, TVEnum _ value_id =>
      all ← catalogue_values domain_id catalogue;
      Some (REnumSet domain_id (list_to_set all ∖ {[value_id]}))
  | OpEq, RTBool, TVBool b => Some (RBoolSet {[b]})
  | OpNotEq, RTBool, TVBool b => Some (RBoolSet {[negb b]})
  | op, RTInteger, TVInteger v => integer_comparison op v
  | _, RTDecimal, _ => Some RDecimalOpaque
  | OpEq, RTStr, TVStr s => Some (RStringSet {[s]})
  | _, RTStr, TVStr _ => Some RStringOpaque
  | _, _, _ => Some (ROpaque "unsupported comparison/type combination")
  end.
Definition apply_comparison (field : FieldId) (op : ComparisonOp) (rhs : TypedValue) (fields : list FieldRegion)
  : option (list FieldRegion) :=
  fs ← schema !! field;
  region ← comparison_region op (field_type fs) rhs;
  intersect_field fields field region.

Definition enum_value (v : TypedValue) : option ValueId := match v with TVEnum _ x => Some x | _ => None end.
Definition bool_value (v : TypedValue) : option bool := match v with TVBool b => Some b | _ => None end.
Definition int_value (v : TypedValue) : option Z := match v with TVInteger i => Some i | _ => None end.
Definition str_value_of (v : TypedValue) : option string := match v with TVStr s => Some s | _ => None end.

(** The loop over the integers of a set. *)
Fixpoint union_singletons (s : IntervalSet) (values : list Z) : option IntervalSet :=
  match values with
  | [] => Some s
  | i :: values' => s' ← iset_union checks s (iset_singleton i); union_singletons s' values'
  end.
Definition in_set_region (field_type : ResolvedType) (values : list TypedValue) : option FieldRegion :=
  match field_type with
  | RTEnum domain_id => Some (REnumSet domain_id (list_to_set (omap enum_value values)))
  | RTInteger => s ← union_singletons iset_empty (omap int_value values); Some (RIntegerInterval s)
  | RTBool => Some (RBoolSet (list_to_set (omap bool_value values)))
  | RTStr => Some (RStringSet (list_to_set (omap str_value_of values)))
  | RTDecimal => Some RDecimalOpaque
  end.
Definition apply_in_set (field : FieldId) (values : list TypedValue) (fields : list FieldRegion)
  : option (list FieldRegion) :=
  fs ← schema !! field;
  region ← in_set_region (field_type fs) values;
  intersect_field fields field region.

Definition is_decimal (o : option TypedValue) : bool := match o with Some (TVDecimal _) => true | _ => false end.
Definition range_region (lower upper : option TypedValue) (lower_inc upper_inc : bool) : option FieldRegion :=
  if is_decimal lower || is_decimal upper then Some RDecimalOpaque
  else s ← iset_from_range checks (lower ≫= int_value) (upper ≫= int_value) lower_inc upper_inc;
       Some (RIntegerInterval s).
Definition apply_range (field : FieldId) (lower upper : option TypedValue) (lower_inc upper_inc : bool)
    (fields : list FieldRegion) : option (list FieldRegion) :=
  region ← range_region lower upper lower_inc upper_inc;
  intersect_field fields field region.

(** [collect_touched_fields], ascending and without duplicates. *)
Fixpoint collect_touched_fields (p : TypedPredicate) : gset nat :=
  match p with
  | PComparison f _ _ _ | PInSet f _ _ | PRange f _ _ _ _ _ | PIsNull f _ | PIsNotNull f _ => {[f]}
  | PNot inner _ => collect_touched_fields inner
  | PAnd items _ | POr items _ => ⋃ (map collect_touched_fields items)
  end.

Definition flip_op (op : ComparisonOp) : ComparisonOp :=
  match op with
  | OpEq => OpNotEq | OpNotEq => OpEq | OpLt => OpGe | OpLe => OpGt | OpGt => OpLe | OpGe => OpLt
  end.
Fixpoint mark_opaque (touched : list nat) (fields : list FieldRegion) : option (list FieldRegion) :=
  match touched with
  | [] => Some fields
  | i :: touched' =>
      fields ← intersect_field fields i (ROpaque "negation of compound predicate");
      mark_opaque touched' fields
  end.
Definition apply_not (inner : TypedPredicate) (fields : list FieldRegion) : option (list FieldRegion) :=
  match inner with
  | PComparison field op rhs _ => apply_comparison field (flip_op op) rhs fields
  | PIsNull field _ => intersect_field fields field RNotNull
  | PIsNotNull field _ => intersect_field fields field RNullOnly
  | _ => mark_opaque (merge_sort le (elements (collect_touched_fields inner))) fields
  end.

(** Field by field: the union over the branches, intersected with the field. *)
Fixpoint fold_union (acc : FieldRegion) (l : list FieldRegion) : option FieldRegion :=
  match l with
  | [] => Some acc
  | r :: l' => acc ← union_field acc r; fold_union acc l'
  end.
Fixpoint column (i : nat) (branches : list (list FieldRegion)) : option (list FieldRegion) :=
  match branches with
  | [] => Some []
  | b :: branches' => r ← b !! i; rest ← column i branches'; Some (r :: rest)
  end.
Definition union_column (branches : list (list FieldRegion)) (i : nat) (fields : list FieldRegion)
  : option (list FieldRegion) :=
  c ← column i branches;
  match c with
  | [] => Some fields
  | r :: c' => u ← fold_union r c'; intersect_field fields i u
  end.
Fixpoint union_columns (branches : list (list FieldRegion)) (idx : list nat) (fields : list FieldRegion)
  : option (list FieldRegion) :=
  match idx with
  | [] => Some fields
  | i :: idx' => fields ← union_column branches i fields; union_columns branches idx' fields
  end.

Definition fresh_fields : list FieldRegion := replicate (length schema) RAny.

Fixpoint apply_predicate (p : TypedPredicate) (fields : list FieldRegion) : option (list FieldRegion) :=
  match p with
  | PComparison field op rhs _ => apply_comparison field op rhs fields
  | PInSet field values _ => apply_in_set field values fields
  | PRange field lower upper li ui _ => apply_range field lower upper li ui fields
  | PIsNull field _ => intersect_field fields field RNullOnly
  | PIsNotNull field _ => intersect_field fields field RNotNull
  | PNot inner _ => apply_not inner fields
  | PAnd items _ =>
      (fix go (l : list TypedPredicate) (fields : list FieldRegion) : option (list FieldRegion) :=
         match l with
         | [] => Some fields
         | p :: l' => fields ← apply_predicate p fields; go l' fields
         end) items fields
  | POr items _ =>
      branches ← (fix go (l : list TypedPredicate) : option (list (list FieldRegion)) :=
         match l with
         | [] => Some []
         | p :: l' => b ← apply_predicate p fresh_fields; rest ← go l'; Some (b :: rest)
         end) items;
      union_columns branches (seq 0 (length fields)) fields
  end.

(** The predicates of a rule, in sequence; the branches of a disjunction. *)
Fixpoint apply_predicates (l : list TypedPredicate) (fields : list FieldRegion) : option (list FieldRegion) :=
  match l with
  | [] => Some fields
  | p :: l' => fields ← apply_predicate p fields; apply_predicates l' fields
  end.
Fixpoint branch_regions (l : list TypedPredicate) : option (list (list FieldRegion)) :=
  match l with
  | [] => Some []
  | p :: l' => b ← apply_predicate p fresh_fields; rest ← branch_regions l'; Some (b :: rest)
  end.

Definition compute_one (rule : TypedRule) : option RuleRegion :=
  match rule_when rule with
  | CatchAll _ => Some (mkRegion fresh_fields true)
  | Predicates preds _ => fields ← apply_predicates preds fresh_fields; Some (mkRegion fields false)
  end.
Fixpoint compute_rules (l : list TypedRule) : option (list RuleRegion) :=
  match l with
  | [] => Some []
  | r :: l' => x ← compute_one r; rest ← compute_rules l'; Some (x :: rest)
  end.
End apply.

Definition compute_all (decision : TypedDecision) (catalogue : Catalogue) : option (list RuleRegion) :=
  compute_rules (input_schema decision) catalogue (dec_rules decision).

Lemma apply_and_eq schema catalogue items s fields :
  apply_predicate schema catalogue (PAnd items s) fields = apply_predicates schema catalogue items fields.
Proof. revert fields. induction items as [|p items IH]; intros fields; [done|]. cbn. by destruct (apply_predicate _ _ _ _); cbn. Qed.
Lemma apply_or_eq schema catalogue items s fields :
  apply_predicate schema catalogue (POr items s) fields =
  branches ← branch_regions schema catalogue items; union_columns branches (seq 0 (length fields)) fields.
Proof. reflexivity. Qed.
End region.
