(* ===== verification/DmnAnalysis.v ===== *)
(** * dmn-lite: the table analyser

    [dmn-lite-analysis/src] over the types of [dmn-lite-types/src/analysis.rs]:
    SA-001, the cost bound, pairwise overlap, unreachable rules, gaps, and the
    report that collects them.  A panic is [None].  [usize] is 64 bits wide. *)

From S2P Require Import Prelude RustStr Json Types Platform DmnTypes DmnLower DmnIntervals DmnRegion.

(** ** Reports *)

Inductive Severity := SevError | SevWarning | SevInfo.

Inductive FieldOverlap :=
| OAny
| OEnumSet (values : list ValueId)
| OIntegerInterval (lower upper : option Z) (lower_inclusive upper_inclusive : bool)
| OBoolean (b : bool)
| OStringOpaque (description : string)
| OOpaque (reason : string).
(** An [OverlapSummary] is its [per_field]; an [UncoveredInputExample] its
    [field_values]. *)
Record GapSummary := mkGap { examples : list (list TypedValue); approximate_count : option N }.

Inductive FindingKind :=
| UniqueWithCatchAll (catch_all_rule : RuleId)
| Overlap (rule_a rule_b : RuleId) (per_field : list FieldOverlap)
| UnreachableRule (unreachable shadowing : RuleId)
| Gap (gap_summary : GapSummary) (catch_all_present : bool)
| CostCeilingExceeded (computed ceiling : N)
| AnalysisLimitedByStringInput (affected_fields : list string).

Record AnalysisFinding := mkFinding {
  fd_severity : Severity;
  fd_kind : FindingKind;
  fd_source_span : SourceSpan;
  fd_description : string;
}.
Record CostBound := mkCostBound { total_predicates : N; cost_exact : bool }.
Record AnalysisReport := mkReport { findings : list AnalysisFinding; cost_bound : CostBound }.

Record AnalysisConfig := mkConfig { cost_ceiling : N; max_gap_examples : nat; emit_info : bool }.
Definition default_config : AnalysisConfig := mkConfig 10000 3 true.

Definition is_info (s : Severity) : bool := match s with SevInfo => true | _ => false end.

(** ** SA-001 and the cost bound *)

Definition is_catch_all (r : TypedRule) : bool :=
  match rule_when r with CatchAll _ => true | Predicates _ _ => false end.

Definition hit_policy_check (decision : TypedDecision) : option AnalysisFinding :=
  match hit_policy decision with
  | First => None
  | Unique =>
      catch_all ← List.find is_catch_all (dec_rules decision);
      Some (mkFinding SevError (UniqueWithCatchAll (rule_id catch_all)) (rule_span catch_all)
              ("rule " +:+ rule_name catch_all
               +:+ " is a catch-all under :hit-policy unique; will always produce MultipleMatches when any specific rule fires"))
  end.

Fixpoint count_predicate (p : TypedPredicate) : nat :=
  match p with
  | PComparison _ _ _ _ | PInSet _ _ _ | PRange _ _ _ _ _ _ | PIsNull _ _ | PIsNotNull _ _ => 1
  | PNot inner _ => 1 + count_predicate inner
  | PAnd items _ | POr items _ => 1 + list_sum (map count_predicate items)
  end.
Definition rule_cost (rule : TypedRule) : nat :=
  match rule_when rule with
  | CatchAll _ => 0
  | Predicates preds _ => list_sum (map count_predicate preds)
  end.
Definition cost_compute (decision : TypedDecision) : CostBound :=
  mkCostBound (N.of_nat (list_sum (map rule_cost (dec_rules decision)))) true.

(** ** Text *)

(** [{:?}] of a sequence of strings, between the given brackets. *)
Definition debug_strs `{Platform} (l : list string) : string :=
  match l with
  | [] => ""
  | s :: l' => foldl (λ acc s, acc +:+ ", " +:+ debug_str unicode_plain s) (debug_str unicode_plain s) l'
  end.

Section analysis.
Context {P : Platform} (checks : bool).

(** ** Overlap *)

(** Iteration over a [BTreeSet<bool>]. *)
Definition bool_elems (s : gset bool) : list bool := filter (λ b, b ∈ s) [false; true].
Definition bound_parts (b : Bound) : option Z * bool :=
  match b with Inclusive v => (Some v, true) | Exclusive v => (Some v, false) | BUnbounded => (None, false) end.

Definition field_region_to_overlap (r : FieldRegion) : option FieldOverlap :=
  match r with
  | RAny => Some OAny
  | RNotNull => Some (OOpaque "any non-null value")
  | RNullOnly => Some (OOpaque "null only")
  | REnumSet _ values => Some (OEnumSet (btree_elems values))
  | RBoolSet s =>
      Some (match bool_elems s with [b] => OBoolean b | _ => OOpaque "both boolean values" end)
  | RIntegerInterval set =>
      Some (match set with
            | first :: _ =>
                let '(lo, lo_inc) := bound_parts (iv_lower first) in
                let '(up, up_inc) := bound_parts (iv_upper first) in
                OIntegerInterval lo up lo_inc up_inc
            | [] => OOpaque "empty interval (should not happen)"
            end)
  | RDecimalOpaque => Some (OOpaque "decimal field (v0.1 limitation)")
  | RStringSet s => Some (OStringOpaque ("string values: {" +:+ debug_strs (btree_elems s) +:+ "}"))
  | RStringOpaque => Some (OStringOpaque "string field (opaque)")
  | ROpaque reason => Some (OOpaque reason)
  | REmpty => None
  end.

(** The loop over the fields; an empty intersection ends it. *)
Fixpoint intersect_fields (a b : list FieldRegion) : option (option (list FieldOverlap)) :=
  match a, b with
  | fa :: a', fb :: b' =>
      merged ← intersect checks fa fb;
      match merged with
      | REmpty => Some None
      | _ =>
          o ← field_region_to_overlap merged;
          rest ← intersect_fields a' b';
          Some (option_map (cons o) rest)
      end
  | _, _ => Some (Some [])
  end.
Definition intersect_regions (a b : RuleRegion) : option (option (list FieldOverlap)) :=
  intersect_fields (rr_fields a) (rr_fields b).

Definition overlap_severity (decision : TypedDecision) : Severity :=
  match hit_policy decision with Unique => SevWarning | First => SevInfo end.

(** The rules paired with their regions; the inner loop of rule [a], the outer
    loop. *)
Fixpoint overlaps_of (decision : TypedDecision) (config : AnalysisConfig) (a : TypedRule * RuleRegion)
    (l : list (TypedRule * RuleRegion)) : option (list AnalysisFinding) :=
  match l with
  | [] => Some []
  | b :: l' =>
      if rr_is_catch_all b.2 then overlaps_of decision config a l'
      else
        o ← intersect_regions a.2 b.2;
        rest ← overlaps_of decision config a l';
        Some (match o with
              | None => rest
              | Some summary =>
                  let severity := overlap_severity decision in
                  if is_info severity && negb (emit_info config) then rest
                  else mkFinding severity (Overlap (rule_id a.1) (rule_id b.1) summary) (rule_span a.1)
                         ("rules " +:+ rule_name a.1 +:+ " and " +:+ rule_name b.1
                          +:+ " share a non-empty input region") :: rest
              end)
  end.
Fixpoint overlap_loop (decision : TypedDecision) (config : AnalysisConfig) (l : list (TypedRule * RuleRegion))
  : option (list AnalysisFinding) :=
  match l with
  | [] => Some []
  | a :: l' =>
      if rr_is_catch_all a.2 then overlap_loop decision config l'
      else
        here ← overlaps_of decision config a l';
        rest ← overlap_loop decision config l';
        Some (here ++ rest)
  end.
Definition overlap_analyse (decision : TypedDecision) (regions : list RuleRegion) (config : AnalysisConfig)
  : option (list AnalysisFinding) := overlap_loop decision config (zip (dec_rules decision) regions).

(** ** Unreachable rules *)

Fixpoint fields_subset (inner outer : list FieldRegion) : option bool :=
  match inner, outer with
  | a :: inner', b :: outer' =>
      s ← is_subset_of checks a b;
      if s : bool then fields_subset inner' outer' else Some false
  | _, _ => Some true
  end.
Definition region_is_subset (inner outer : RuleRegion) : option bool :=
  fields_subset (rr_fields inner) (rr_fields outer).

(** The first earlier rule, not a catch-all, whose region covers [b]'s. *)
Fixpoint shadowing_rule (b : RuleRegion) (earlier : list (TypedRule * RuleRegion)) : option (option TypedRule) :=
  match earlier with
  | [] => Some None
  | a :: earlier' =>
      if rr_is_catch_all a.2 then shadowing_rule b earlier'
      else s ← region_is_subset b a.2;
           if s : bool then Some (Some a.1) else shadowing_rule b earlier'
  end.
Fixpoint unreachable_loop (earlier l : list (TypedRule * RuleRegion)) : option (list AnalysisFinding) :=
  match l with
  | [] => Some []
  | b :: l' =>
      here ← (if rr_is_catch_all b.2 then Some None else shadowing_rule b.2 earlier);
      rest ← unreachable_loop (earlier ++ [b]) l';
      Some (match here with
            | None => rest
            | Some a =>
                mkFinding SevError (UnreachableRule (rule_id b.1) (rule_id a)) (rule_span b.1)
                  ("rule " +:+ rule_name b.1 +:+ " is unreachable: rule " +:+ rule_name a
                   +:+ " accepts a superset of its input region") :: rest
            end)
  end.
Definition unreachable_analyse (decision : TypedDecision) (regions : list RuleRegion)
  : option (list AnalysisFinding) :=
  match hit_policy decision with
  | Unique => Some []
  | First => unreachable_loop [] (zip (dec_rules decision) regions)
  end.

(** ** Gaps *)

Section gap.
Context (catalogue : Catalogue).

Definition union_two (a b : FieldRegion) : option FieldRegion :=
  let mixed := Some (ROpaque "mixed-region union; gap precision reduced") in
  match a, b with
  | REmpty, x | x, REmpty => Some x
  | RAny, _ | _, RAny => Some RAny
  | RNotNull, RNotNull => Some RNotNull
  | RNullOnly, RNullOnly => Some RNullOnly
  | RNotNull, RNullOnly | RNullOnly, RNotNull => Some RAny
  | REnumSet d1 v1, REnumSet d2 v2 =>
      if (d1 =? d2)%N then
        all ← catalogue_values d1 catalogue;
        Some (if bool_decide (v1 ∪ v2 = list_to_set all) then RNotNull else REnumSet d1 (v1 ∪ v2))
      else mixed
  | RBoolSet x, RBoolSet y =>
      Some (if (size (x ∪ y) =? 2)%nat then RNotNull else RBoolSet (x ∪ y))
  | RIntegerInterval x, RIntegerInterval y => u ← iset_union checks x y; Some (RIntegerInterval u)
  | RStringSet x, RStringSet y => Some (RStringSet (x ∪ y))
  | _, _ => mixed
  end.

(** [unions[idx] = union_two(..)] for each field of a rule. *)
Fixpoint union_fields (unions fields : list FieldRegion) : option (list FieldRegion) :=
  match fields, unions with
  | [], _ => Some unions
  | _ :: _, [] => None
  | fr :: fields', u :: unions' =>
      u' ← union_two u fr;
      rest ← union_fields unions' fields';
      Some (u' :: rest)
  end.
Fixpoint union_regions (unions : list FieldRegion) (regions : list RuleRegion) : option (list FieldRegion) :=
  match regions with
  | [] => Some unions
  | r :: regions' => unions ← union_fields unions (rr_fields r); union_regions unions regions'
  end.
Definition compute_per_field_union (decision : TypedDecision) (regions : list RuleRegion)
  : option (list FieldRegion) :=
  let n_fields := length (input_schema decision) in
  if existsb rr_is_catch_all regions then Some (replicate n_fields RAny)
  else union_regions (replicate n_fields REmpty) regions.

Definition sample_value (t : ResolvedType) : option (option TypedValue) :=
  match t with
  | RTBool => Some (Some (TVBool false))
  | RTInteger => Some (Some (TVInteger 0))
  | RTDecimal => Some (Some (TVDecimal 0))
  | RTStr => Some (Some (TVStr ""))
  | RTEnum domain_id =>
      vs ← catalogue_values domain_id catalogue;
      Some (option_map (TVEnum domain_id) (head vs))
  end.

(** Whether the field has a gap, and an uncovered value. *)
Definition field_gap (union : FieldRegion) (t : ResolvedType) : option (bool * option TypedValue) :=
  match union, t with
  | RAny, _ | RNotNull, _ => Some (false, None)
  | REmpty, _ => v ← sample_value t; Some (true, v)
  | REnumSet domain_id values, RTEnum _ =>
      all ← catalogue_values domain_id catalogue;
      Some (match btree_elems (list_to_set all ∖ values) with
            | [] => (false, None)
            | v :: _ => (true, Some (TVEnum domain_id v))
            end)
  | RBoolSet s, RTBool =>
      Some (if bool_decide (false ∈ s)
            then if bool_decide (true ∈ s) then (false, None) else (true, Some (TVBool true))
            else (true, Some (TVBool false)))
  | RIntegerInterval set, RTInteger =>
      complement ← iset_complement checks set;
      match complement with
      | [] => Some (false, None)
      | _ => w ← pick_witness checks complement; Some (true, option_map TVInteger w)
      end
  | RNullOnly, _ => v ← sample_value t; Some (true, v)
  | _, _ => Some (false, None)
  end.
Fixpoint field_gaps (unions : list FieldRegion) (schema : list FieldSchema)
  : option (list (bool * option TypedValue)) :=
  match schema, unions with
  | [], _ => Some []
  | _ :: _, [] => None
  | fs :: schema', u :: unions' =>
      g ← field_gap u (field_type fs);
      rest ← field_gaps unions' schema';
      Some (g :: rest)
  end.

Definition sample_covered_value (union : FieldRegion) (t : ResolvedType) : option (option TypedValue) :=
  match union with
  | RAny | RNotNull => sample_value t
  | REnumSet domain_id values => Some (option_map (TVEnum domain_id) (head (btree_elems values)))
  | RBoolSet s => Some (option_map TVBool (head (bool_elems s)))
  | RIntegerInterval set => w ← pick_witness checks set; Some (option_map TVInteger w)
  | RStringSet s => Some (option_map TVStr (head (btree_elems s)))
  | _ => sample_value t
  end.
(** [defaults]. *)
Fixpoint default_values (unions : list FieldRegion) (schema : list FieldSchema) : option (list TypedValue) :=
  match schema, unions with
  | [], _ => Some []
  | _ :: _, [] => None
  | fs :: schema', u :: unions' =>
      v ← sample_covered_value u (field_type fs);
      rest ← default_values unions' schema';
      Some (default TVNull v :: rest)
  end.

(** The loop over the fields with a gap, [room] examples short of the limit. *)
Fixpoint witness_loop (defaults : list TypedValue) (gaps : list (nat * (bool * option TypedValue))) (room : nat)
  : list (list TypedValue) :=
  match gaps with
  | [] => []
  | (gf, (has_gap, witness)) :: gaps' =>
      match has_gap, witness with
      | true, Some gap_val =>
          match room with
          | O => []
          | S room' => <[gf := gap_val]> defaults :: witness_loop defaults gaps' room'
          end
      | _, _ => witness_loop defaults gaps' room
      end
  end.
Definition collect_witnesses (decision : TypedDecision) (unions : list FieldRegion)
    (gaps : list (bool * option TypedValue)) (max : nat) : option (list (list TypedValue)) :=
  if existsb fst gaps then
    defaults ← default_values unions (input_schema decision);
    Some (witness_loop defaults (imap pair gaps) max)
  else Some [].

(** [None] outside is a panic, inside it is the [None] of the code. *)
Fixpoint finite_gap_count (total : N) (schema : list FieldSchema) (unions : list FieldRegion)
    (gaps : list (bool * option TypedValue)) : option (option N) :=
  match schema, unions, gaps with
  | [], _, _ => Some (Some total)
  | fs :: schema', u :: unions', (has_gap, _) :: gaps' =>
      let known (domain_size : N) : option (option N) :=
        let uncovered :=
          if has_gap : bool
          then match u with
               | REnumSet _ values => Some (domain_size - N.of_nat (size values))%N
               | RBoolSet s => Some (2 - N.of_nat (size s))%N
               | REmpty => Some domain_size
               | _ => None
               end
          else Some domain_size in
        match uncovered with
        | None => Some None
        | Some n =>
            if (total * n <=? u64_max)%N then finite_gap_count (total * n) schema' unions' gaps' else Some None
        end in
      match field_type fs with
      | RTBool => known 2%N
      | RTEnum domain_id => vs ← catalogue_values domain_id catalogue; known (N.of_nat (length vs))
      | _ => Some None
      end
  | _ :: _, _, _ => None
  end.

Definition gap_description (catch_all_present : bool) (n : nat) : string :=
  if catch_all_present
  then "gap region exists in specific rules; the catch-all rule covers it (" +:+ show_N (N.of_nat n) +:+ " representative inputs)"
  else "gap region exists; no rule (and no catch-all) matches " +:+ show_N (N.of_nat n) +:+ " representative inputs".

Definition gap_analyse (decision : TypedDecision) (regions : list RuleRegion) (config : AnalysisConfig)
  : option (list AnalysisFinding) :=
  let catch_all_present := existsb rr_is_catch_all regions in
  unions ← compute_per_field_union decision regions;
  gaps ← field_gaps unions (input_schema decision);
  if existsb fst gaps then
    witnesses ← collect_witnesses decision unions gaps (max_gap_examples config);
    approximate_count ← finite_gap_count 1 (input_schema decision) unions gaps;
    let severity := if catch_all_present then SevInfo else SevWarning in
    if is_info severity && negb (emit_info config) then Some []
    else Some [mkFinding severity (Gap (mkGap witnesses approximate_count) catch_all_present) (dec_span decision)
                 (gap_description catch_all_present (length witnesses))]
  else Some [].
End gap.

(** ** The report *)

Definition severity_rank (s : Severity) : N := match s with SevError => 0 | SevWarning => 1 | SevInfo => 2 end.
Definition primary_rule_id (kind : FindingKind) : N :=
  match kind with
  | UniqueWithCatchAll r | Overlap r _ _ | UnreachableRule r _ => N.of_nat r
  | Gap _ _ => u64_max - 1
  | CostCeilingExceeded _ _ => u64_max - 2
  | AnalysisLimitedByStringInput _ => u64_max - 3
  end.
Definition kind_discriminant (kind : FindingKind) : N :=
  match kind with
  | UniqueWithCatchAll _ => 0
  | Overlap _ _ _ => 1
  | UnreachableRule _ _ => 2
  | Gap _ _ => 3
  | CostCeilingExceeded _ _ => 4
  | AnalysisLimitedByStringInput _ => 5
  end.
Definition finding_cmp (a b : AnalysisFinding) : comparison :=
  then_ (N.compare (severity_rank (fd_severity a)) (severity_rank (fd_severity b)))
    (then_ (N.compare (primary_rule_id (fd_kind a)) (primary_rule_id (fd_kind b)))
       (N.compare (kind_discriminant (fd_kind a)) (kind_discriminant (fd_kind b)))).

Definition cost_findings (typed : TypedDecision) (config : AnalysisConfig) : list AnalysisFinding :=
  let total := total_predicates (cost_compute typed) in
  if (cost_ceiling config <? total)%N
  then [mkFinding SevError (CostCeilingExceeded total (cost_ceiling config)) (dec_span typed)
          ("evaluation cost (" +:+ show_N total +:+ " predicates) exceeds ceiling ("
           +:+ show_N (cost_ceiling config) +:+ ")")]
  else [].
Definition string_findings (typed : TypedDecision) (config : AnalysisConfig) : list AnalysisFinding :=
  let string_fields :=
    field_name <$> List.filter (λ f, match field_type f with RTStr => true | _ => false end) (input_schema typed) in
  match string_fields with
  | [] => []
  | _ =>
      if emit_info config
      then [mkFinding SevInfo (AnalysisLimitedByStringInput string_fields) (dec_span typed)
              ("string-typed input fields [" +:+ debug_strs string_fields
               +:+ "] reduce overlap/gap precision in Profile v0.1")]
      else []
  end.

(** [analyse_with_config], on [decision.as_compiled().typed_ir]. *)
Definition analyse_with_config (decision : CompiledDecision) (catalogue : Catalogue) (config : AnalysisConfig)
  : option AnalysisReport :=
  let typed := cd_typed_ir decision in
  regions ← compute_all checks typed catalogue;
  overlaps ← overlap_analyse typed regions config;
  unreachables ← unreachable_analyse typed regions;
  gaps ← gap_analyse catalogue typed regions config;
  let found := option_list (hit_policy_check typed) ++ cost_findings typed config
                 ++ string_findings typed config ++ overlaps ++ unreachables ++ gaps in
  let kept := if emit_info config then found else List.filter (λ f, negb (is_info (fd_severity f))) found in
  Some (mkReport (sort_by finding_cmp kept) (cost_compute typed)).
Definition analyse (decision : CompiledDecision) (catalogue : Catalogue) : option AnalysisReport :=
  analyse_with_config decision catalogue default_config.
End analysis.
