(* ===== verification/DmnRegionSound.v ===== *)
(** * dmn-lite: what the region of a rule stands for

    A region is read twice: as the values it may admit (an opaque region admits
    all) and as the values it surely admits (an opaque region admits none).
    The region of a predicate may admit every value the predicate accepts, and
    where disjunctions keep to one field it surely admits no other. *)

From S2P Require Import Prelude RustStr Json Types CodecFacts DmnTypes DmnReference DmnSteps DmnLayout DmnLower DmnTyping DmnIntervals DmnIntervalFacts DmnRegion.

(** ** Regions as sets of values *)

(** [q] is what is claimed of a region that is opaque. *)
Definition holds (q : Prop) (r : FieldRegion) (v : TypedValue) : Prop :=
  match r with
  | REmpty | RNullOnly => False
  | RAny | RNotNull => True
  | REnumSet d s => ∃ x, v = TVEnum d x ∧ x ∈ s
  | RBoolSet s => ∃ b, v = TVBool b ∧ b ∈ s
  | RIntegerInterval s =>
      match v with
      | TVInteger z => in_set s z
      | TVDecimal _ => ∀ z, in_set s z
      | _ => False
      end
  | RStringSet s => ∃ x, v = TVStr x ∧ x ∈ s
  | RDecimalOpaque | RStringOpaque | ROpaque _ => q
  end.
Notation may := (holds True).
Notation surely := (holds False).

Lemma surely_may r v : surely r v -> may r v.
Proof. by destruct r. Qed.

Section facts.
Context (checks : bool) (schema : list FieldSchema) (catalogue : Catalogue).

(** The regions a field of type [t] can have. *)
Definition region_ok (t : ResolvedType) (r : FieldRegion) : Prop :=
  match r with
  | REnumSet d _ => t = RTEnum d
  | RBoolSet _ => t = RTBool
  | RIntegerInterval s => is_numeric t = true ∧ Forall iv_ok s
  | RStringSet _ => t = RTStr
  | _ => True
  end.

(** A non-null value the analyser has in mind for a field of type [t]. *)
Definition fits (t : ResolvedType) (v : TypedValue) : Prop :=
  match t, v with
  | RTEnum d, TVEnum d' x => d' = d ∧ ∃ vs, catalogue_values d catalogue = Some vs ∧ x ∈ vs
  | RTBool, TVBool _ | RTInteger, TVInteger _ | RTDecimal, (TVDecimal _ | TVInteger _) | RTStr, TVStr _ => True
  | _, _ => False
  end.

Lemma or_empty_holds `{Countable A} q (mk : gset A -> FieldRegion) (s : gset A) v :
  (holds q (mk ∅) v -> False) -> holds q (or_empty mk s) v ↔ holds q (mk s) v.
Proof. intros Hempty. unfold or_empty. case_bool_decide as E; [|done]. rewrite E. split; [done|exact Hempty]. Qed.
Lemma or_empty_ok `{Countable A} t (mk : gset A -> FieldRegion) (s : gset A) :
  region_ok t (mk s) -> region_ok t (or_empty mk s).
Proof. intros Hok. unfold or_empty. by case_bool_decide. Qed.

Definition meets (a b c : FieldRegion) : Prop :=
  (∀ v, may a v -> may b v -> may c v) ∧ (∀ v, surely c v -> surely a v ∧ surely b v).

Lemma interval_holds q s v :
  holds q (match s with [] => REmpty | _ => RIntegerInterval s end) v ↔ holds q (RIntegerInterval s) v.
Proof.
  destruct s; [|done]. cbn. split; [done|]. destruct v; try done; [apply in_set_nil|].
  intros H. by apply (in_set_nil 0).
Qed.

Lemma intersect_meets t a b :
  region_ok t a -> region_ok t b -> ∃ c, intersect checks a b = Some c ∧ region_ok t c ∧ meets a b c.
Proof.
  intros Ha Hb. unfold meets.
  destruct a, b; cbn [intersect];
    try by (eexists; split_and!; [reflexivity|cbn; auto|cbn; try done; naive_solver|cbn; try done; naive_solver]).
  - cbn in Ha, Hb. subst t. injection Hb as ->. rewrite N.eqb_refl. eexists. split_and!; [done|by apply or_empty_ok|..];
      intros v; rewrite or_empty_holds; cbn; set_solver.
  - cbn in Ha, Hb. subst t. eexists. split_and!; [done|by apply or_empty_ok|..];
      intros v; rewrite or_empty_holds; cbn; set_solver.
  - destruct Ha as [Ht Ha], Hb as [_ Hb]. destruct (intersect_spec checks s s0 Ha Hb) as (i & -> & [Hi _] & Hin).
    cbn [mbind option_bind]. eexists. split_and!; [done|by destruct i|..]; intros v; rewrite interval_holds; cbn.
    + destruct v; try done; [by rewrite Hin|]. intros H1 H2 z. by rewrite Hin.
    + destruct v; try done; [by rewrite Hin|]. intros H. split; intros z; by apply Hin.
  - cbn in Ha, Hb. subst t. eexists. split_and!; [done|by apply or_empty_ok|..];
      intros v; rewrite or_empty_holds; cbn; set_solver.
Qed.

Definition not_decimal (v : TypedValue) : Prop := match v with TVDecimal _ => False | _ => True end.
Definition joins (a b c : FieldRegion) : Prop :=
  (∀ v, may a v ∨ may b v -> may c v) ∧ (∀ v, not_decimal v -> surely c v -> surely a v ∨ surely b v).

Lemma union_joins t a b :
  region_ok t a -> region_ok t b -> ∃ c, union_field checks a b = Some c ∧ region_ok t c ∧ joins a b c.
Proof.
  intros Ha Hb. unfold joins.
  destruct a, b; cbn [union_field];
    try by (eexists; split_and!; [reflexivity|cbn; auto|cbn; try done; naive_solver|cbn; try done; naive_solver]).
  - cbn in Ha, Hb. subst t. injection Hb as ->. rewrite N.eqb_refl. eexists. split_and!; [done|done|..];
      intros v; cbn; set_solver.
  - cbn in Ha, Hb. eexists. split_and!; [done|done|..]; intros v; cbn; set_solver.
  - destruct Ha as [Ht Ha], Hb as [_ Hb]. destruct (union_spec checks s s0 Ha Hb) as (i & -> & [Hi _] & Hin).
    cbn [mbind option_bind]. eexists. split_and!; [done|done|..]; intros v; cbn.
    + destruct v; try tauto; [by rewrite Hin|]. intros [H|H] z; rewrite Hin; auto.
    + destruct v; try done. intros _. by rewrite Hin.
  - cbn in Ha, Hb. eexists. split_and!; [done|done|..]; intros v; cbn; set_solver.
Qed.

(** [is_subset_of] is right on what the inner region may and the outer one
    surely admits. *)
Lemma subset_spec t a b :
  region_ok t a -> region_ok t b ->
  ∃ s, is_subset_of checks a b = Some s ∧ (s = true -> ∀ v, may a v -> surely b v).
Proof.
  intros Ha Hb. destruct a, b; cbn [is_subset_of];
    try by (eexists; split; [reflexivity|]; try done; cbn; naive_solver).
  - eexists. split; [done|]. intros [->%N.eqb_eq Hs%bool_decide_eq_true]%andb_true_iff v. cbn. set_solver.
  - eexists. split; [done|]. intros Hs%bool_decide_eq_true v. cbn. set_solver.
  - destruct Ha as [Ht Ha], Hb as [_ Hb]. destruct (complement_spec checks s0 Hb) as (c & -> & Hc & Hout & _). cbn [mbind option_bind].
    destruct (intersect_spec checks s c Ha Hc) as (i & -> & _ & Hin). cbn [mbind option_bind].
    eexists. split; [done|]. intros Hi. assert (∀ z, in_set s z -> in_set s0 z) as Hsub.
    { intros z Hz. destruct i; [|done]. destruct (iset_contains s0 z) eqn:E; [by apply in_set_contains|].
      exfalso. apply (in_set_nil z), Hin. split; [done|]. apply Hout. rewrite in_set_contains. congruence. }
    intros v. cbn. destruct v; try done; auto.
  - eexists. split; [done|]. intros Hs%bool_decide_eq_true v. cbn. set_solver.
Qed.
(** ** Narrowing the fields of a rule *)

Definition fields_ok (fields : list FieldRegion) : Prop :=
  Forall2 (λ fs r, region_ok (field_type fs) r) schema fields.
Definition fits_at (input : TypedInputContext) (f : FieldId) : Prop :=
  ∀ fs v, schema !! f = Some fs -> present input f = Some v -> fits (field_type fs) v.
Definition complete (input : TypedInputContext) : Prop :=
  ∀ f, (f < length schema)%nat -> is_Some (present input f).
Definition at_field (q : Prop) (input : TypedInputContext) (f : FieldId) (fields : list FieldRegion) : Prop :=
  ∀ r v, fields !! f = Some r -> present input f = Some v -> holds q r v.

(** From [fields] to [fields'] by a predicate that reads [touched] and decides
    [P]; [sep] is when the result is exact. *)
Record narrowed (fields fields' : list FieldRegion) (touched : gset nat) (P : TypedInputContext -> bool) (sep : Prop)
  : Prop := {
  nw_ok : fields_ok fields';
  nw_may : ∀ input f, fits_at input f -> P input = true -> at_field True input f fields -> at_field True input f fields';
  nw_back : ∀ input f, at_field False input f fields' -> at_field False input f fields;
  nw_frame : ∀ f, f ∉ touched -> fields' !! f = fields !! f;
  nw_surely : sep -> ∀ input, complete input -> (∀ f, fits_at input f) -> (∀ f, at_field False input f fields') ->
    P input = true;
}.

Lemma fields_ok_length fields : fields_ok fields -> length fields = length schema.
Proof. intros H. symmetry. by eapply Forall2_length. Qed.
Lemma fields_ok_lookup fields i fs r :
  fields_ok fields -> schema !! i = Some fs -> fields !! i = Some r -> region_ok (field_type fs) r.
Proof. intros H H1 H2. exact (Forall2_lookup_lr _ _ _ _ _ _ H H1 H2). Qed.

Lemma intersect_field_spec fields i fs other :
  fields_ok fields -> schema !! i = Some fs -> region_ok (field_type fs) other ->
  ∃ fields', intersect_field checks fields i other = Some fields' ∧ fields_ok fields' ∧
    (∀ input f, (f = i -> ∀ v, present input i = Some v -> may other v) ->
       at_field True input f fields -> at_field True input f fields') ∧
    (∀ input f, at_field False input f fields' -> at_field False input f fields) ∧
    (∀ input v, at_field False input i fields' -> present input i = Some v -> surely other v) ∧
    (∀ f, f ≠ i -> fields' !! f = fields !! f).
Proof.
  intros Hok Hfs Hother. assert (is_Some (fields !! i)) as [old Hold].
  { apply lookup_lt_is_Some. rewrite (fields_ok_length _ Hok). by apply lookup_lt_Some in Hfs. }
  assert (region_ok (field_type fs) old) as Hr by by eapply fields_ok_lookup.
  destruct (intersect_meets (field_type fs) old other Hr Hother) as (new & E & Hnew & Hmay & Hsurely).
  unfold intersect_field, set_index. rewrite Hold. cbn [mbind option_bind]. rewrite E. cbn [mbind option_bind].
  assert (i < length fields)%nat as Hlt by by apply lookup_lt_Some in Hold.
  exists (<[i:=new]> fields). split_and!; [done|..].
  - unfold fields_ok. rewrite <- (list_insert_id schema i fs Hfs). by apply Forall2_insert.
  - intros input f Ho Hat r v Hr' Hv. destruct (decide (f = i)) as [->|Hne].
    + rewrite list_lookup_insert_eq in Hr' by done. injection Hr' as <-. apply Hmay; [by eapply Hat|by apply Ho].
    + rewrite list_lookup_insert_ne in Hr' by done. by eapply Hat.
  - intros input f Hat r v Hr' Hv. destruct (decide (f = i)) as [->|Hne].
    + rewrite Hold in Hr'. injection Hr' as <-. apply (Hsurely v). eapply Hat; [|done]. by apply list_lookup_insert_eq.
    + eapply Hat; [|done]. by rewrite list_lookup_insert_ne.
  - intros input v Hat Hv. apply (Hsurely v). eapply Hat; [|done]. by apply list_lookup_insert_eq.
  - intros f Hne. by rewrite list_lookup_insert_ne.
Qed.

(** A predicate on one field, from the region it gives that field. *)
Lemma leaf_narrowed fields i fs other P (sep : Prop) :
  fields_ok fields -> schema !! i = Some fs -> region_ok (field_type fs) other ->
  (∀ input v, fits_at input i -> P input = true -> present input i = Some v -> may other v) ->
  (∀ input v, fits_at input i -> present input i = Some v -> surely other v -> P input = true) ->
  ∃ fields', intersect_field checks fields i other = Some fields' ∧ narrowed fields fields' {[i]} P sep.
Proof.
  intros Hok Hfs Hother Hmay Hsurely.
  destruct (intersect_field_spec fields i fs other Hok Hfs Hother) as (fields' & E & Hok' & H1 & H2 & H3 & H4).
  exists fields'. split; [done|]. split; [done|..].
  - intros input f Hf HP. apply H1. intros -> v Hv. by eapply Hmay.
  - exact H2.
  - intros f Hf. apply H4. set_solver.
  - intros _ input Hc Hf Hat. destruct (Hc i) as [v Hv]; [by apply lookup_lt_Some in Hfs|].
    apply (Hsurely input v); [apply Hf|done|by apply (H3 input)].
Qed.
End facts.

(** * dmn-lite: the region of a predicate is sound

    Comparisons, sets and ranges give the values they accept; from there, by
    induction on the predicate, the region of a rule. *)

(** Constants of a predicate. *)
Fixpoint pred_consts (p : TypedPredicate) : list TypedValue :=
  match p with
  | PComparison _ _ rhs _ => [rhs]
  | PInSet _ values _ => values
  | PRange _ lower upper _ _ _ => option_list lower ++ option_list upper
  | PIsNull _ _ | PIsNotNull _ _ => []
  | PNot inner _ => pred_consts inner
  | PAnd items _ | POr items _ => flat_map pred_consts items
  end.
(** Not [i64::MAX], whose increment overflows. *)
Definition below_max (v : TypedValue) : bool :=
  match v with TVInteger z => (z <? i64_max)%Z | _ => true end.

(** Predicates whose disjunctions each keep to one field, not a decimal one;
    the region is exact for them. *)
Inductive separable (schema : list FieldSchema) : TypedPredicate -> Prop :=
| sep_comparison f op rhs s : separable schema (PComparison f op rhs s)
| sep_in_set f vs s : separable schema (PInSet f vs s)
| sep_range f lo up li ui s : separable schema (PRange f lo up li ui s)
| sep_is_null f s : separable schema (PIsNull f s)
| sep_is_not_null f s : separable schema (PIsNotNull f s)
| sep_not p s : collect_touched_fields p ≠ ∅ -> separable schema (PNot p s)
| sep_and items s : Forall (separable schema) items -> separable schema (PAnd items s)
| sep_or items f fs s :
    items ≠ [] -> schema !! f = Some fs -> field_type fs ≠ RTDecimal ->
    Forall (λ p, separable schema p ∧ collect_touched_fields p ⊆ {[f]}) items ->
    separable schema (POr items s).

(** [eval_comparison] on a value that is there. *)
Definition compare_values (op : ComparisonOp) (lhs rhs : TypedValue) : bool :=
  match op with
  | OpEq => ref_values_equal lhs rhs
  | OpNotEq => match rhs with TVNull => false | _ => negb (ref_values_equal lhs rhs) end
  | OpLt => is_some_and (compare_numeric lhs rhs) is_lt
  | OpLe => is_some_and (compare_numeric lhs rhs) (λ o, negb (is_gt o))
  | OpGt => is_some_and (compare_numeric lhs rhs) is_gt
  | OpGe => is_some_and (compare_numeric lhs rhs) (λ o, negb (is_lt o))
  end.
Lemma eval_comparison_present f op rhs input v :
  present input f = Some v -> eval_comparison f op rhs input = compare_values op v rhs.
Proof. intros E. unfold eval_comparison. by rewrite E. Qed.

Section leaves.
Context (checks : bool) (schema : list FieldSchema) (catalogue : Catalogue).

Lemma bound_ok_below z : is_i64 z -> below_max (TVInteger z) = true -> bound_ok (Inclusive z).
Proof. intros H1 H2%Z.ltb_lt. unfold bound_ok. unfold is_i64 in H1. lia. Qed.

Lemma singleton_spec v : bound_ok (Inclusive v) -> norm (iset_singleton v) ∧ ∀ z, in_set (iset_singleton v) z ↔ z = v.
Proof.
  intros Hv. split; [constructor; split; cbn; [done..|unfold nonempty; cbn; lia]|].
  intros z. unfold iset_singleton. rewrite in_set_cons. unfold in_iv. cbn.
  split; [intros [?|?%in_set_nil]; [lia|done]|intros ->; left; lia].
Qed.

Definition range_contains (lower upper : option Z) (li ui : bool) (z : Z) : Prop :=
  match lower with Some l => if li then (l <= z)%Z else (l < z)%Z | None => True end ∧
  match upper with Some u => if ui then (z <= u)%Z else (z < u)%Z | None => True end.
Lemma from_range_spec lower upper li ui :
  opt_ok (λ z, bound_ok (Inclusive z)) lower -> opt_ok (λ z, bound_ok (Inclusive z)) upper ->
  ∃ s, iset_from_range checks lower upper li ui = Some s ∧ Forall iv_ok s ∧
    ∀ z, in_set s z ↔ range_contains lower upper li ui z.
Proof.
  intros Hl Hu. destruct (piece_spec checks (range_bound lower li) (range_bound upper ui)) as (p & E & Hp & Hin).
  { destruct lower as [l|]; [|done]. by destruct li. }
  { destruct upper as [u|]; [|done]. by destruct ui. }
  exists p. split_and!; [exact E|done|]. intros z. rewrite Hin. unfold in_iv, range_contains. cbn.
  destruct lower as [l|], upper as [u|]; try destruct li; try destruct ui; cbn; intuition lia.
Qed.

Lemma integer_comparison_spec op v :
  bound_ok (Inclusive v) ->
  ∃ s, integer_comparison checks op v = Some (RIntegerInterval s) ∧ Forall iv_ok s ∧
    ∀ z, in_set s z ↔ compare_values op (TVInteger z) (TVInteger v) = true.
Proof.
  intros Hv. destruct (singleton_spec v Hv) as [Hn Hs].
  assert (∀ lower upper li ui, opt_ok (λ z, bound_ok (Inclusive z)) lower -> opt_ok (λ z, bound_ok (Inclusive z)) upper ->
    (∀ z, range_contains lower upper li ui z ↔ compare_values op (TVInteger z) (TVInteger v) = true) ->
    ∃ s, (s ← iset_from_range checks lower upper li ui; Some (RIntegerInterval s)) = Some (RIntegerInterval s) ∧
      Forall iv_ok s ∧ ∀ z, in_set s z ↔ compare_values op (TVInteger z) (TVInteger v) = true) as Hrange.
  { intros lower upper li ui Hl Hu Heq. destruct (from_range_spec lower upper li ui Hl Hu) as (s & -> & Hok & Hin).
    exists s. split_and!; [done|done|]. intros z. by rewrite Hin. }
  destruct op; cbn [integer_comparison].
  - exists (iset_singleton v). split_and!; [done|by apply norm_ok|]. intros z. rewrite Hs. cbn. by rewrite Z.eqb_eq.
  - destruct (complement_spec checks (iset_singleton v)) as (c & E & Hc & _ & Hin); [by apply norm_ok|].
    unfold integer_comparison. rewrite E. exists c. split_and!; [done|done|]. intros z. rewrite (Hin Hn), Hs. cbn.
    by rewrite negb_true_iff, Z.eqb_neq.
  - apply Hrange; [done|done|]. intros z. unfold range_contains. cbn. unfold is_lt. destruct (Z.compare_spec z v); intuition (done || lia).
  - apply Hrange; [done|done|]. intros z. unfold range_contains. cbn. unfold is_gt. destruct (Z.compare_spec z v); cbn; intuition (done || lia).
  - apply Hrange; [done|done|]. intros z. unfold range_contains. cbn. unfold is_gt. destruct (Z.compare_spec z v); intuition (done || lia).
  - apply Hrange; [done|done|]. intros z. unfold range_contains. cbn. unfold is_lt. destruct (Z.compare_spec z v); cbn; intuition (done || lia).
Qed.

Definition known (t : ResolvedType) : Prop := ∀ d, t = RTEnum d -> is_Some (catalogue_values d catalogue).

(** The region [r] is that of the test [test] on a field of type [t]. *)
Definition exact (t : ResolvedType) (r : FieldRegion) (test : TypedValue -> bool) : Prop :=
  region_ok t r ∧ ∀ v, fits catalogue t v -> (test v = true -> may r v) ∧ (surely r v -> test v = true).

Lemma exact_opaque t r test : region_ok t r -> (∀ v, may r v) -> (∀ v, ¬ surely r v) -> exact t r test.
Proof. intros Hok H1 H2. split; [done|]. intros v _. split; [intros; apply H1|]. by intros H%H2. Qed.
Lemma exact_iff t r test :
  region_ok t r -> (∀ v, fits catalogue t v -> test v = true ↔ surely r v) -> exact t r test.
Proof. intros Hok H. split; [done|]. intros v Hv. rewrite (H v Hv). split; [apply surely_may|done]. Qed.

Lemma comparison_region_spec op t rhs :
  typed_as t rhs -> (ordered op = true -> is_numeric t = true) -> below_max rhs = true -> known t ->
  ∃ r, comparison_region checks catalogue op t rhs = Some r ∧ exact t r (λ v, compare_values op v rhs).
Proof.
  intros [Hok Ht] Hop Hmax Hk. destruct t as [d| | | |]; destruct rhs; try done; cbn in Ht.
  - subst. destruct op; try (by discriminate Hop); cbn [comparison_region].
    + eexists. split; [done|]. apply exact_iff; [done|]. intros [] Hv; try done. cbn in *. destruct Hv as [-> Hv].
      rewrite andb_true_iff, !N.eqb_eq. set_solver.
    + destruct (Hk d eq_refl) as [vs E]. rewrite E. cbn [mbind option_bind]. eexists. split; [done|].
      apply exact_iff; [done|]. intros [] Hv; try done. cbn in *. destruct Hv as [-> (vs' & E' & Hin)].
      rewrite E in E'. injection E' as <-. rewrite negb_true_iff, andb_false_iff, !N.eqb_neq.
      split; [intros [?|?]; [done|]; eexists; split; [done|]; set_solver|set_solver].
  - destruct op; try (by discriminate Hop); cbn [comparison_region]; eexists; (split; [done|]);
      (apply exact_iff; [done|]); intros [|c| | | |] Hv; try done; cbn.
    + rewrite Bool.eqb_true_iff. set_solver.
    + rewrite negb_true_iff, Bool.eqb_false_iff. split; [|intros (x & [= ->] & Hx)].
      * intros Hne. exists c. split; [done|]. destruct b, c; set_solver.
      * destruct b, x; set_solver.
  - assert (bound_ok (Inclusive z)) as Hz by by apply bound_ok_below.
    destruct (integer_comparison_spec op z Hz) as (s & E & Hs & Hin).
    exists (RIntegerInterval s). split; [destruct op; exact E|]. apply exact_iff; [done|].
    intros [] Hv; try done. symmetry. apply Hin.
  - exists RDecimalOpaque. split; [by destruct op|]. apply exact_opaque; [done|done|by intros ? []].
  - destruct op; try (by discriminate Hop); cbn [comparison_region]; eexists; (split; [done|]).
    + apply exact_iff; [done|]. intros [] Hv; try done. cbn. rewrite bool_decide_eq_true. set_solver.
    + apply exact_opaque; [done|done|by intros ? []].
Qed.

(** Negating a comparison flips its operator, decimals apart. *)
Lemma flip_values op t rhs v :
  typed_as t rhs -> (ordered op = true -> is_numeric t = true) -> t ≠ RTDecimal -> fits catalogue t v ->
  compare_values (flip_op op) v rhs = negb (compare_values op v rhs).
Proof.
  intros [_ Ht] Hop Hd Hv. destruct t, rhs; try done; destruct v; try done; destruct op; try (by discriminate Hop);
    cbn; rewrite ?negb_involutive; try done; unfold is_lt, is_gt; by destruct (Z.compare _ _).
Qed.
Lemma negation_region_spec op t rhs :
  typed_as t rhs -> (ordered op = true -> is_numeric t = true) -> below_max rhs = true -> known t ->
  ∃ r, comparison_region checks catalogue (flip_op op) t rhs = Some r ∧ exact t r (λ v, negb (compare_values op v rhs)).
Proof.
  intros Ht Hop Hmax Hk. assert (t = RTDecimal ∨ t ≠ RTDecimal) as [->|Hd] by (destruct t; auto).
  { exists RDecimalOpaque. split; [by destruct op, rhs|]. apply exact_opaque; [done|done|by intros ? []]. }
  destruct (comparison_region_spec (flip_op op) t rhs) as (r & E & Hok & Hx); [done|by destruct op|done..|].
  exists r. split; [done|]. split; [done|]. intros v Hv. rewrite <- (flip_values op t rhs v) by done. by apply Hx.
Qed.

Lemma union_singletons_spec s l :
  Forall iv_ok s -> Forall (λ z, bound_ok (Inclusive z)) l ->
  ∃ s', union_singletons checks s l = Some s' ∧ Forall iv_ok s' ∧ ∀ z, in_set s' z ↔ in_set s z ∨ z ∈ l.
Proof.
  intros Hs Hl. revert s Hs. induction Hl as [|v l Hv Hl IH]; intros s Hs; cbn [union_singletons].
  { exists s. split_and!; [done|done|]. set_solver. }
  destruct (singleton_spec v Hv) as [Hn Hin]. apply norm_ok in Hn.
  destruct (union_spec checks s (iset_singleton v) Hs Hn) as (u & -> & [Hu _] & Hu'). cbn [mbind option_bind].
  destruct (IH u Hu) as (s' & E & Hs' & Hin'). exists s'. split_and!; [done|done|].
  intros z. rewrite Hin', Hu', Hin. set_solver.
Qed.

Lemma existsb_value v l : existsb (ref_values_equal v) l = true ↔ ∃ x, x ∈ l ∧ ref_values_equal v x = true.
Proof. rewrite existsb_exists. by setoid_rewrite list_elem_of_In. Qed.

Lemma in_set_region_spec t values :
  Forall (typed_as t) values -> Forall (λ v, below_max v = true) values ->
  ∃ r, in_set_region checks t values = Some r ∧ exact t r (λ v, existsb (ref_values_equal v) values).
Proof.
  intros Ht Hmax. rewrite Forall_forall in Ht, Hmax.
  assert (∀ r, region_ok t r -> (∀ v, fits catalogue t v -> (∃ x, x ∈ values ∧ ref_values_equal v x = true) ↔ surely r v) ->
    exact t r (λ v, existsb (ref_values_equal v) values)) as Hex.
  { intros r Hok H. apply exact_iff; [done|]. intros v Hv. rewrite existsb_value. by apply H. }
  destruct t as [d| | | |]; cbn [in_set_region].
  - eexists. split; [done|]. apply Hex; [done|]. intros [d' x| | | | |] Hv; try done. destruct Hv as [-> _]. cbn. split.
    + intros (w & Hin & Hw). destruct w as [d' y| | | | |]; try done. cbn in Hw. apply andb_true_iff in Hw as [_ ->%N.eqb_eq].
      exists y. split; [done|]. apply elem_of_list_to_set, list_elem_of_omap. eauto.
    + intros (y & [= <-] & (w & Hin & Hw)%elem_of_list_to_set%list_elem_of_omap). exists w. split; [done|].
      destruct (Ht _ Hin) as [_ Hd]. destruct w; try done. cbn in *. injection Hw as ->. subst. by rewrite !N.eqb_refl.
  - eexists. split; [done|]. apply Hex; [done|]. intros [|b| | | |] Hv; try done. cbn. split.
    + intros (w & Hin & Hw). destruct w as [|b'| | | |]; try done. apply Bool.eqb_prop in Hw as ->.
      exists b'. split; [done|]. apply elem_of_list_to_set, list_elem_of_omap. eauto.
    + intros (y & [= <-] & (w & Hin & Hw)%elem_of_list_to_set%list_elem_of_omap). exists w. split; [done|].
      destruct w; try done. injection Hw as ->. cbn. apply Bool.eqb_reflx.
  - destruct (union_singletons_spec iset_empty (omap int_value values)) as (s & -> & Hs & Hin); [done|..].
    { apply Forall_forall. intros z (w & Hw & E)%list_elem_of_omap. destruct w; try done. injection E as ->.
      destruct (Ht _ Hw) as [Hz _]. apply bound_ok_below; [done|by apply Hmax]. }
    cbn [mbind option_bind]. eexists. split; [done|]. apply Hex; [done|]. intros [| |z| | |] Hv; try done. cbn.
    rewrite Hin. split.
    + intros (w & Hw & E). destruct w; try done. apply Z.eqb_eq in E as ->. right. apply list_elem_of_omap. eauto.
    + intros [?%in_set_nil|(w & Hw & E)%list_elem_of_omap]; [done|]. exists w. split; [done|].
      destruct w; try done. injection E as ->. cbn. apply Z.eqb_refl.
  - eexists. split; [done|]. apply exact_opaque; [done|done|by intros ? []].
  - eexists. split; [done|]. apply Hex; [done|]. intros [| | | |x|] Hv; try done. cbn. split.
    + intros (w & Hin & Hw). destruct w as [| | | |y|]; try done. cbn in Hw. apply bool_decide_eq_true in Hw as ->.
      exists y. split; [done|]. apply elem_of_list_to_set, list_elem_of_omap. eauto.
    + intros (y & [= <-] & (w & Hin & Hw)%elem_of_list_to_set%list_elem_of_omap). exists w. split; [done|].
      destruct w; try done. injection Hw as ->. cbn. by apply bool_decide_eq_true.
Qed.

Definition range_values (lower upper : option TypedValue) (li ui : bool) (v : TypedValue) : bool :=
  lower_bound_ok v lower li && upper_bound_ok v upper ui.
Lemma range_region_spec t lower upper li ui :
  is_numeric t = true -> opt_ok (typed_as t) lower -> opt_ok (typed_as t) upper ->
  Forall (λ v, below_max v = true) (option_list lower ++ option_list upper) ->
  ∃ r, range_region checks lower upper li ui = Some r ∧ exact t r (range_values lower upper li ui).
Proof.
  intros Hn Hl Hu [Hml Hmu]%Forall_app. unfold range_region. destruct t; try done.
  - assert (∀ o, opt_ok (typed_as RTInteger) o -> Forall (λ v, below_max v = true) (option_list o) ->
      is_decimal o = false ∧ o = TVInteger <$> (o ≫= int_value) ∧ opt_ok (λ z, bound_ok (Inclusive z)) (o ≫= int_value)) as Hint.
    { intros [w|] Ho Hm; [|done]. destruct Ho as [Hok Ho]. destruct w; try done. cbn. inversion Hm; subst.
      split; [done|]. split; [done|]. by apply (bound_ok_below z). }
    destruct (Hint lower Hl Hml) as (-> & El & Hl'), (Hint upper Hu Hmu) as (-> & Eu & Hu'). cbn [orb].
    destruct (from_range_spec _ _ li ui Hl' Hu') as (s & -> & Hs & Hin). cbn [mbind option_bind].
    eexists. split; [done|]. apply exact_iff; [done|]. intros [| |z| | |] Hv; try done. cbn [holds]. rewrite Hin.
    rewrite El, Eu. unfold range_values, range_contains. rewrite andb_true_iff.
    destruct (lower ≫= int_value) as [l|], (upper ≫= int_value) as [u|]; cbn; try destruct (Z.compare_spec z l);
      try destruct (Z.compare_spec z u); destruct li, ui; intuition (done || lia).
  - destruct lower as [w|]; [destruct Hl as [_ Hw]; destruct w; try done; exists RDecimalOpaque; split; [done|]; apply exact_opaque; [done|done|by intros ? []]|].
    destruct upper as [w|]; [destruct Hu as [_ Hw]; destruct w; try done; exists RDecimalOpaque; split; [done|]; apply exact_opaque; [done|done|by intros ? []]|].
    cbn. eexists. split; [done|]. apply exact_iff; [split; [done|by repeat constructor]|].
    intros [] Hv; try done; cbn; (split; [|done]); intros _; [|intros z'];
      (exists (mkInterval BUnbounded BUnbounded); split; [by left|done]).
Qed.
End leaves.

Section predicates.
Context (checks : bool) (schema : list FieldSchema) (catalogue : Catalogue).

Lemma leaf_exact fields i fs r test P (sep : Prop) :
  fields_ok schema fields -> schema !! i = Some fs -> exact catalogue (field_type fs) r test ->
  (∀ input v, present input i = Some v -> P input = test v) ->
  ∃ fields', intersect_field checks fields i r = Some fields' ∧ narrowed schema catalogue fields fields' {[i]} P sep.
Proof.
  intros Hok Hfs [Hr Hx] HP. apply (leaf_narrowed checks schema catalogue fields i fs); [done..|intros input v Hf HPt Hv|intros input v Hf Hv Hs].
  - apply (Hx v); [by eapply Hf|]. by rewrite <- (HP input).
  - rewrite (HP input v Hv). apply (Hx v); [by eapply Hf|done].
Qed.

Lemma narrowed_refl fields P (sep : Prop) t :
  fields_ok schema fields -> (sep -> ∀ input, P input = true) -> narrowed schema catalogue fields fields t P sep.
Proof. intros Hok HP. split; [done|auto|auto|done|]. intros Hs input _ _ _. by apply HP. Qed.

Lemma narrowed_trans f0 f1 f2 t1 t2 P1 P2 (s1 s2 : Prop) :
  narrowed schema catalogue f0 f1 t1 P1 s1 -> narrowed schema catalogue f1 f2 t2 P2 s2 ->
  narrowed schema catalogue f0 f2 (t1 ∪ t2) (λ i, P1 i && P2 i) (s1 ∧ s2).
Proof.
  intros [A1 A2 A3 A4 A5] [B1 B2 B3 B4 B5]. split; [done|..].
  - intros input f Hf [H1 H2]%andb_true_iff Hat. apply B2; [done..|]. by apply A2.
  - intros input f Hat. by apply A3, B3.
  - intros f Hf. rewrite B4, A4; [done|set_solver|set_solver].
  - intros [Hs1 Hs2] input Hc Hf Hat. apply andb_true_iff. split; [|by apply B5].
    apply A5; [done..|]. intros f. by apply B3.
Qed.
Lemma narrowed_ext f0 f1 t t' P P' (s s' : Prop) :
  narrowed schema catalogue f0 f1 t P s -> t ⊆ t' -> (∀ i, P' i = P i) -> (s' -> s) ->
  narrowed schema catalogue f0 f1 t' P' s'.
Proof.
  intros [A1 A2 A3 A4 A5] Ht HP Hs. split; [done|..].
  - intros input f Hf H. rewrite HP in H. by apply A2.
  - done.
  - intros f Hf. apply A4. set_solver.
  - intros H input Hc Hf Hat. rewrite HP. apply A5; auto.
Qed.

Lemma mark_opaque_spec l fields P (sep : Prop) :
  fields_ok schema fields -> Forall (λ i, (i < length schema)%nat) l -> (sep -> l ≠ []) ->
  ∃ fields', mark_opaque checks l fields = Some fields' ∧ narrowed schema catalogue fields fields' (list_to_set l) P sep.
Proof.
  intros Hok Hl. revert fields sep Hok. induction Hl as [|i l Hi Hl IH]; intros fields sep Hok Hsep; cbn [mark_opaque].
  { exists fields. split; [done|]. apply narrowed_refl; [done|]. intros Hs. by destruct (Hsep Hs). }
  destruct (lookup_lt_is_Some_2 schema i Hi) as [fs Hfs].
  destruct (leaf_narrowed checks schema catalogue fields i fs (ROpaque "negation of compound predicate") P True)
    as (f1 & -> & A); [done|done|done|done|by intros ? ? ? ? []|]. cbn [mbind option_bind].
  destruct (IH f1 False (nw_ok _ _ _ _ _ _ _ A)) as (f2 & E & B); [done|]. exists f2. split; [done|].
  destruct A as [A1 A2 A3 A4 A5], B as [B1 B2 B3 B4 B5]. split; [done|..].
  - intros input f Hf HP Hat. apply B2; [done..|]. by apply A2.
  - intros input f Hat. by apply A3, B3.
  - intros f Hf. rewrite B4, A4; [done|set_solver|set_solver].
  - intros _ input Hc Hf Hat. apply A5; [done..|]. intros f. by apply B3.
Qed.

(** ** Disjunctions *)

Lemma fold_union_spec t acc l :
  region_ok t acc -> Forall (region_ok t) l ->
  ∃ u, fold_union checks acc l = Some u ∧ region_ok t u ∧
    (∀ v, (∃ r, r ∈ acc :: l ∧ may r v) -> may u v) ∧
    (∀ v, not_decimal v -> surely u v -> ∃ r, r ∈ acc :: l ∧ surely r v) ∧
    (Forall (eq RAny) (acc :: l) -> u = RAny).
Proof.
  intros Ha Hl. revert acc Ha. induction Hl as [|r l Hr Hl IH]; intros acc Ha; cbn [fold_union].
  { exists acc. split_and!; [done|done|..].
    - intros v (r & ->%list_elem_of_singleton & H). done.
    - intros v _ H. exists acc. set_solver.
    - intros H. by inversion H. }
  destruct (union_joins checks t acc r Ha Hr) as (c & E & Hc & Hmay & Hsurely). rewrite E. cbn [mbind option_bind].
  destruct (IH c Hc) as (u & Eu & Hu & Hmay' & Hsurely' & Hany). exists u. split_and!; [done|done|..].
  - intros v (r' & Hin & H). apply Hmay'. apply elem_of_cons in Hin as [->|[->|Hin]%elem_of_cons].
    + exists c. split; [by left|]. apply Hmay. by left.
    + exists c. split; [by left|]. apply Hmay. by right.
    + exists r'. split; [by right|done].
  - intros v Hd H. destruct (Hsurely' v Hd H) as (r' & [->|Hin]%elem_of_cons & Hr').
    + destruct (Hsurely v Hd Hr'); [exists acc|exists r]; set_solver.
    + exists r'. set_solver.
  - intros Hall. inversion Hall as [|? ? <- Hall']; subst. inversion Hall' as [|? ? <- Hall'']; subst. apply Hany.
    cbn in E. injection E as <-. by constructor.
Qed.

Lemma column_spec i fs branches :
  Forall (fields_ok schema) branches -> schema !! i = Some fs ->
  ∃ c, column i branches = Some c ∧ Forall (region_ok (field_type fs)) c ∧ length c = length branches ∧
    ∀ r, r ∈ c ↔ ∃ b, b ∈ branches ∧ b !! i = Some r.
Proof.
  intros Hb Hfs. induction Hb as [|b branches Hb Hbs (c & E & Hc & Hlen & Hin)]; cbn [column].
  { exists []. split_and!; [done|done|done|]. set_solver. }
  assert (is_Some (b !! i)) as [r Hr].
  { apply lookup_lt_is_Some. rewrite (fields_ok_length _ _ Hb). by apply lookup_lt_Some in Hfs. }
  rewrite Hr, E. cbn [mbind option_bind]. exists (r :: c). split_and!; [done| |cbn; by f_equal|].
  - constructor; [|done]. by eapply fields_ok_lookup.
  - intros r'. rewrite elem_of_cons, Hin. setoid_rewrite elem_of_cons. split.
    + intros [->|(b' & ? & ?)]; eauto.
    + intros (b' & [->|?] & E'); [left; congruence|eauto].
Qed.

(** What the columns [idx] contribute. *)
Record joined (branches : list (list FieldRegion)) (idx : list nat) (fields fields' : list FieldRegion) : Prop := {
  jn_ok : fields_ok schema fields';
  jn_may : ∀ input f, (∃ b, b ∈ branches ∧ at_field True input f b) ->
    at_field True input f fields -> at_field True input f fields';
  jn_back : ∀ input f, at_field False input f fields' -> at_field False input f fields;
  jn_frame : ∀ f, (∀ b, b ∈ branches -> b !! f = Some RAny) -> fields' !! f = fields !! f;
  jn_surely : ∀ input f v, f ∈ idx -> at_field False input f fields' -> present input f = Some v -> not_decimal v ->
    ∃ b r, b ∈ branches ∧ b !! f = Some r ∧ surely r v;
}.

Lemma union_column_spec branches i fields :
  branches ≠ [] -> Forall (fields_ok schema) branches -> fields_ok schema fields -> (i < length schema)%nat ->
  ∃ fields', union_column checks branches i fields = Some fields' ∧ joined branches [i] fields fields'.
Proof.
  intros Hne Hb Hok Hi. destruct (lookup_lt_is_Some_2 schema i Hi) as [fs Hfs].
  destruct (column_spec i fs branches Hb Hfs) as (c & Ec & Hc & Hlen & Hin).
  unfold union_column. rewrite Ec. cbn [mbind option_bind].
  destruct c as [|r c]; [by destruct branches|]. inversion Hc as [|? ? Hr Hc']; subst.
  destruct (fold_union_spec (field_type fs) r c Hr Hc') as (u & Eu & Hu & Hmay & Hsurely & Hany).
  rewrite Eu. cbn [mbind option_bind].
  destruct (intersect_field_spec checks schema fields i fs u Hok Hfs Hu) as (fields' & E & Hok' & H1 & H2 & H3 & H4).
  exists fields'. split; [done|]. split; [done|..].
  - intros input f (b & Hbin & Hbat). apply H1. intros -> v Hv. apply Hmay.
    assert (is_Some (b !! i)) as [r' Hr'].
    { apply lookup_lt_is_Some. rewrite Forall_forall in Hb. by rewrite (fields_ok_length _ _ (Hb b Hbin)). }
    exists r'. split; [apply Hin; eauto|]. by eapply Hbat.
  - exact H2.
  - intros f Hf. destruct (decide (f = i)) as [->|Hne']; [|by apply H4].
    assert (u = RAny) as ->.
    { apply Hany, Forall_forall. intros r' (b & Hbin & Hbr)%Hin. rewrite (Hf b Hbin) in Hbr. congruence. }
    unfold intersect_field, set_index in E. destruct (fields !! i) as [old|] eqn:Ho; [|done]. cbn [mbind option_bind] in E.
    assert (intersect checks old RAny = Some old) as Hold by (by destruct old). rewrite Hold in E. cbn in E.
    injection E as <-. apply list_lookup_insert_eq. by apply lookup_lt_Some in Ho.
  - intros input f v ->%list_elem_of_singleton Hat Hv Hd.
    destruct (Hsurely v Hd) as (r' & (b & Hbin & Hbr)%Hin & Hs); [by apply (H3 input)|]. by exists b, r'.
Qed.

Lemma union_columns_spec branches idx fields :
  branches ≠ [] -> Forall (fields_ok schema) branches -> fields_ok schema fields ->
  Forall (λ i, (i < length schema)%nat) idx ->
  ∃ fields', union_columns checks branches idx fields = Some fields' ∧ joined branches idx fields fields'.
Proof.
  intros Hne Hb Hok Hidx. revert fields Hok. induction Hidx as [|i idx Hi Hidx IH]; intros fields Hok; cbn [union_columns].
  { exists fields. split; [done|]. split; [done|auto|auto|auto|set_solver]. }
  destruct (union_column_spec branches i fields Hne Hb Hok Hi) as (f1 & -> & A). cbn [mbind option_bind].
  destruct (IH f1 (jn_ok _ _ _ _ A)) as (f2 & E & B). exists f2. split; [done|].
  destruct A as [A1 A2 A3 A4 A5], B as [B1 B2 B3 B4 B5]. split; [done|..].
  - intros input f Hbr Hat. apply B2; [done|]. by apply A2.
  - intros input f Hat. by apply A3, B3.
  - intros f Hf. by rewrite B4, A4.
  - intros input f v [->|Hf]%elem_of_cons Hat Hv Hd; [|by eapply B5].
    eapply A5; [by left| |done|done]. by apply B3.
Qed.

(** ** Every predicate *)

Context (Hknown : ∀ i fs, schema !! i = Some fs -> known catalogue (field_type fs)).

Definition consts_ok (p : TypedPredicate) : Prop := Forall (λ v, below_max v = true) (pred_consts p).
Definition sound_region (p : TypedPredicate) : Prop :=
  ∀ fields, fields_ok schema fields ->
  ∃ fields', apply_predicate checks schema catalogue p fields = Some fields' ∧
    narrowed schema catalogue fields fields' (collect_touched_fields p) (eval_predicate p) (separable schema p).

Lemma comparison_sound f op rhs s :
  pred_typed schema (PComparison f op rhs s) -> consts_ok (PComparison f op rhs s) -> sound_region (PComparison f op rhs s).
Proof.
  intros Ht Hc fields Hok. inversion Ht as [? ? ? ? (fs & Hfs & Hty) Hnum| | | | | | |]; subst. inversion Hc; subst.
  cbn [apply_predicate]. unfold apply_comparison. rewrite Hfs. cbn [mbind option_bind].
  destruct (comparison_region_spec checks catalogue op (field_type fs) rhs) as (r & -> & Hr); [done| |done|by eapply Hknown|].
  { intros Ho. destruct (Hnum Ho) as (fs' & E & ?). congruence. }
  cbn [mbind option_bind]. eapply leaf_exact; [done|done|exact Hr|]. intros input v Hv. by apply eval_comparison_present.
Qed.

Lemma in_set_sound f values s :
  pred_typed schema (PInSet f values s) -> consts_ok (PInSet f values s) -> sound_region (PInSet f values s).
Proof.
  intros Ht Hc fields Hok. inversion Ht as [|? ? ? Hf Hty| | | | | |]; subst.
  destruct (lookup_lt_is_Some_2 schema f Hf) as [fs Hfs].
  cbn [apply_predicate]. unfold apply_in_set. rewrite Hfs. cbn [mbind option_bind].
  destruct (in_set_region_spec checks catalogue (field_type fs) values) as (r & -> & Hr); [|done|].
  { eapply Forall_impl; [exact Hty|]. intros w (fs' & E & ?). congruence. }
  cbn [mbind option_bind]. eapply leaf_exact; [done|done|exact Hr|]. intros input v Hv. cbn. unfold eval_in_set. by rewrite Hv.
Qed.

Lemma range_sound f lo up li ui s :
  pred_typed schema (PRange f lo up li ui s) -> consts_ok (PRange f lo up li ui s) -> sound_region (PRange f lo up li ui s).
Proof.
  intros Ht Hc fields Hok. inversion Ht as [| |? ? ? ? ? ? (fs & Hfs & Hn) Hlo Hup| | | | |]; subst.
  assert (∀ o, opt_ok (field_typed schema f) o -> opt_ok (typed_as (field_type fs)) o) as Hopt.
  { intros [w|]; [|done]. intros (fs' & E & ?). cbn. congruence. }
  cbn [apply_predicate]. unfold apply_range.
  destruct (range_region_spec checks catalogue (field_type fs) lo up li ui) as (r & -> & Hr); [done|by apply Hopt..|done|].
  cbn [mbind option_bind]. eapply leaf_exact; [done|done|exact Hr|]. intros input v Hv. cbn. unfold eval_range. by rewrite Hv.
Qed.

Lemma null_test_narrowed fields f (b : bool) P (sep : Prop) :
  (f < length schema)%nat -> fields_ok schema fields ->
  (∀ input, P input = (if b then eval_is_null f input else eval_is_not_null f input)) ->
  ∃ fields', intersect_field checks fields f (if b then RNullOnly else RNotNull) = Some fields' ∧
    narrowed schema catalogue fields fields' {[f]} P sep.
Proof.
  intros Hf Hok HP. destruct (lookup_lt_is_Some_2 schema f Hf) as [fs Hfs].
  apply (leaf_narrowed checks schema catalogue fields f fs); [done|done|by destruct b|..];
    intros input v _; rewrite HP; unfold eval_is_null, eval_is_not_null; destruct b; cbn; intros H1 H2; try done; by rewrite ?H1, ?H2 in *.
Qed.

Lemma touched_lt p : pred_typed schema p -> ∀ i, i ∈ collect_touched_fields p -> (i < length schema)%nat.
Proof.
  assert (∀ f v, field_typed schema f v -> (f < length schema)%nat) as Hft
    by (intros f v (fs & Hfs & _); by apply lookup_lt_Some in Hfs).
  assert (∀ items, Forall (λ p, pred_typed schema p -> ∀ i, i ∈ collect_touched_fields p -> (i < length schema)%nat) items ->
    Forall (pred_typed schema) items -> ∀ i, i ∈ ⋃ (map collect_touched_fields items) -> (i < length schema)%nat) as Hall.
  { intros items IH Hty i (X & (q & <- & Hq%list_elem_of_In)%list_elem_of_In%in_map_iff & Hi)%elem_of_union_list.
    rewrite Forall_forall in IH, Hty. eauto. }
  induction p using TypedPredicate_ind'; intros Ht i Hi; inversion Ht; subst; cbn [collect_touched_fields] in Hi;
    try apply elem_of_singleton in Hi as ->; eauto.
  match goal with H : field_numeric _ _ |- _ => destruct H as (fs & Hfs & _) end. by apply lookup_lt_Some in Hfs.
Qed.

Lemma not_sound inner s :
  pred_typed schema inner -> consts_ok inner -> sound_region (PNot inner s).
Proof.
  intros Ht Hc fields Hok. cbn [apply_predicate collect_touched_fields]. unfold apply_not.
  assert (∃ fields', mark_opaque checks (merge_sort le (elements (collect_touched_fields inner))) fields = Some fields' ∧
    narrowed schema catalogue fields fields' (collect_touched_fields inner) (eval_predicate (PNot inner s))
      (separable schema (PNot inner s))) as Hgen.
  { destruct (mark_opaque_spec (merge_sort le (elements (collect_touched_fields inner))) fields
      (eval_predicate (PNot inner s)) (separable schema (PNot inner s))) as (fields' & E & Hn); [done|..].
    - apply Forall_forall. intros i Hi. rewrite merge_sort_Permutation in Hi. apply elem_of_elements in Hi.
      by eapply touched_lt.
    - intros Hs Hnil. inversion Hs as [| | | | |? ? Hne| |]; subst. apply Hne, leibniz_equiv, elements_empty_inv.
      apply Permutation_nil_r. by rewrite <- Hnil, merge_sort_Permutation.
    - exists fields'. split; [done|]. eapply narrowed_ext; [exact Hn| |done|done].
      intros i. rewrite elem_of_list_to_set, merge_sort_Permutation. by rewrite elem_of_elements. }
  destruct inner as [f op rhs s'| | |f s'|f s'| | |]; try exact Hgen; clear Hgen.
  - inversion Ht as [? ? ? ? (fs & Hfs & Hty) Hnum| | | | | | |]; subst. inversion Hc; subst.
    unfold apply_comparison. rewrite Hfs. cbn [mbind option_bind].
    destruct (negation_region_spec checks catalogue op (field_type fs) rhs) as (r & -> & Hr); [done| |done|by eapply Hknown|].
    { intros Ho. destruct (Hnum Ho) as (fs' & E & ?). congruence. }
    cbn [mbind option_bind]. eapply leaf_exact; [done|done|exact Hr|].
    intros input v Hv. cbn. by rewrite (eval_comparison_present _ _ _ _ _ Hv).
  - inversion Ht; subst. apply (null_test_narrowed fields f false); [done|done|]. intros input. cbn.
    unfold eval_is_null, eval_is_not_null. by destruct (present input f).
  - inversion Ht; subst. apply (null_test_narrowed fields f true); [done|done|]. intros input. cbn.
    unfold eval_is_null, eval_is_not_null. by destruct (present input f).
Qed.

Lemma apply_predicates_spec items fields :
  Forall sound_region items -> fields_ok schema fields ->
  ∃ fields', apply_predicates checks schema catalogue items fields = Some fields' ∧
    narrowed schema catalogue fields fields' (⋃ (map collect_touched_fields items))
      (λ input, forallb (λ q, eval_predicate q input) items) (Forall (separable schema) items).
Proof.
  intros Hall. revert fields. induction Hall as [|p items Hp Hall IH]; intros fields Hok; cbn [apply_predicates].
  { exists fields. split; [done|]. by apply narrowed_refl. }
  destruct (Hp fields Hok) as (f1 & -> & A). cbn [mbind option_bind].
  destruct (IH f1 (nw_ok _ _ _ _ _ _ _ A)) as (f2 & E & B). exists f2. split; [done|].
  eapply narrowed_ext; [exact (narrowed_trans _ _ _ _ _ _ _ _ _ A B)|done|done|by intros H; inversion H].
Qed.

Lemma forallb_results {A} (f : A -> bool) l : forallb (λ r, r) (map f l) = forallb f l.
Proof. induction l as [|x l IH]; [done|]. cbn. by rewrite IH. Qed.
Lemma existsb_results {A} (f : A -> bool) l : existsb (λ r, r) (map f l) = existsb f l.
Proof. induction l as [|x l IH]; [done|]. cbn. by rewrite IH. Qed.

Lemma and_sound items s : Forall sound_region items -> sound_region (PAnd items s).
Proof.
  intros Hall fields Hok. rewrite apply_and_eq. destruct (apply_predicates_spec items fields Hall Hok) as (fields' & E & Hn).
  exists fields'. split; [done|]. eapply narrowed_ext; [exact Hn|done|intros input; apply forallb_results|by intros H; inversion H].
Qed.

Lemma fresh_ok : fields_ok schema (fresh_fields schema).
Proof.
  unfold fields_ok, fresh_fields. apply Forall2_same_length_lookup_2; [by rewrite length_replicate|].
  intros i fs r _ [-> _]%lookup_replicate. done.
Qed.
Lemma fresh_at q input f : at_field q input f (fresh_fields schema).
Proof. by intros r v [-> _]%lookup_replicate _. Qed.

Lemma branch_regions_spec items :
  Forall sound_region items ->
  ∃ bs, branch_regions checks schema catalogue items = Some bs ∧
    Forall2 (λ p b, narrowed schema catalogue (fresh_fields schema) b (collect_touched_fields p) (eval_predicate p)
      (separable schema p)) items bs.
Proof.
  induction 1 as [|p items Hp Hall (bs & E & Hbs)]; cbn [branch_regions]; [by exists []; auto|].
  destruct (Hp _ fresh_ok) as (b & -> & Hn). cbn [mbind option_bind]. rewrite E. cbn [mbind option_bind].
  exists (b :: bs). split; [done|]. by constructor.
Qed.

(** The branch whose field the region surely admits accepts the input. *)
Lemma branch_accepts p b f r v input :
  narrowed schema catalogue (fresh_fields schema) b (collect_touched_fields p) (eval_predicate p) (separable schema p) ->
  separable schema p -> collect_touched_fields p ⊆ {[f]} -> b !! f = Some r -> present input f = Some v -> surely r v ->
  complete schema input -> (∀ g, fits_at schema catalogue input g) -> eval_predicate p input = true.
Proof.
  intros Hn Hsep Ht Hr Hv Hs Hc Hf. apply (nw_surely _ _ _ _ _ _ _ Hn); [done..|]. intros g r' v' Hr' Hv'.
  destruct (decide (g = f)) as [->|Hne]; [congruence|]. rewrite (nw_frame _ _ _ _ _ _ _ Hn) in Hr' by set_solver.
  by eapply fresh_at.
Qed.

Lemma fits_not_decimal t v : t ≠ RTDecimal -> fits catalogue t v -> not_decimal v.
Proof. by destruct t, v. Qed.

Lemma or_sound items s : Forall sound_region items -> sound_region (POr items s).
Proof.
  intros Hall fields Hok. rewrite apply_or_eq. destruct (branch_regions_spec items Hall) as (bs & -> & Hbs). cbn [mbind option_bind].
  destruct items as [|p0 items0] eqn:Eitems.
  { inversion Hbs; subst. exists fields. split.
    - generalize (seq 0 (length fields)). intros idx. induction idx as [|i idx IH]; [done|]. exact IH.
    - split; [done|by intros ? ? ? [=]|done|done|]. intros Hs. inversion Hs; subst. done. }
  rewrite <- Eitems in *.
  assert (bs ≠ []) as Hne by (subst items; by inversion Hbs).
  assert (Forall (fields_ok schema) bs) as Hbok by (clear -Hbs; induction Hbs; constructor; [by eapply nw_ok|done]).
  destruct (union_columns_spec bs (seq 0 (length fields)) fields Hne Hbok Hok) as (fields' & E & J).
  { apply Forall_forall. intros i [_ Hi]%elem_of_seq. rewrite (fields_ok_length _ _ Hok) in Hi. lia. }
  exists fields'. split; [done|]. destruct J as [J1 J2 J3 J4 J5]. split; [done|..].
  - intros input f Hf Hev Hat. apply J2; [|done]. cbn in Hev. rewrite existsb_results in Hev.
    apply existsb_exists in Hev as (q & [j Hj]%list_elem_of_In%list_elem_of_lookup & Hq).
    destruct (Forall2_lookup_l _ _ _ _ _ Hbs Hj) as (b & Hb & Hn). exists b. split; [by eapply list_elem_of_lookup_2|].
    apply (nw_may _ _ _ _ _ _ _ Hn); [done..|apply fresh_at].
  - done.
  - intros f Hf. destruct (decide (f < length schema)%nat) as [Hlt|Hge].
    + apply J4. intros b [j Hj]%list_elem_of_lookup. destruct (Forall2_lookup_r _ _ _ _ _ Hbs Hj) as (q & Hq & Hn).
      rewrite (nw_frame _ _ _ _ _ _ _ Hn); [by apply lookup_replicate|]. intros Hin. apply Hf. cbn [collect_touched_fields].
      apply elem_of_union_list. exists (collect_touched_fields q). split; [|done].
      apply list_elem_of_fmap_2. by eapply list_elem_of_lookup_2.
    + rewrite !lookup_ge_None_2; [done|rewrite (fields_ok_length _ _ Hok); lia|rewrite (fields_ok_length _ _ J1); lia].
  - intros Hsep input Hc Hf Hat. inversion Hsep as [| | | | | | |? f fs ? _ Hfs Hdec Hitems]; subst.
    assert (f < length schema)%nat as Hlt by by apply lookup_lt_Some in Hfs. destruct (Hc f Hlt) as [v Hv].
    destruct (J5 input f v) as (b & r & [j Hj]%list_elem_of_lookup & Hr & Hs); [|done|done|..].
    { apply elem_of_seq. rewrite (fields_ok_length _ _ Hok). lia. }
    { eapply fits_not_decimal; [exact Hdec|]. by eapply Hf. }
    destruct (Forall2_lookup_r _ _ _ _ _ Hbs Hj) as (q & Hq & Hn).
    rewrite Forall_lookup in Hitems. destruct (Hitems j q Hq) as [Hsepq Htouch].
    cbn [eval_predicate]. rewrite existsb_results, existsb_exists. exists q.
    split; [by eapply list_elem_of_In, list_elem_of_lookup_2|]. by eapply branch_accepts.
Qed.

(** Every typed predicate. *)
Lemma predicate_sound p : pred_typed schema p -> consts_ok p -> sound_region p.
Proof.
  assert (∀ items, Forall (λ p, pred_typed schema p -> consts_ok p -> sound_region p) items ->
    Forall (pred_typed schema) items -> Forall (λ v, below_max v = true) (flat_map pred_consts items) ->
    Forall sound_region items) as Hall.
  { induction 1 as [|q items Hp Hitems IH]; intros Ht Hc; [constructor|]. inversion Ht; subst.
    cbn in Hc. apply Forall_app in Hc as [Hc1 Hc2]. constructor; auto. }
  induction p using TypedPredicate_ind'; intros Ht Hc.
  - by apply comparison_sound.
  - by apply in_set_sound.
  - by apply range_sound.
  - inversion Ht; subst. intros fields Hok. by apply (null_test_narrowed fields f true).
  - inversion Ht; subst. intros fields Hok. by apply (null_test_narrowed fields f false).
  - inversion Ht; subst. by apply not_sound.
  - inversion Ht; subst. by apply and_sound, Hall.
  - inversion Ht; subst. by apply or_sound, Hall.
Qed.

(** ** Rules *)

Record region_of (r : TypedRule) (x : RuleRegion) : Prop := {
  ro_ok : fields_ok schema (rr_fields x);
  ro_catch_all : rr_is_catch_all x = match rule_when r with CatchAll _ => true | Predicates _ _ => false end;
  ro_may : ∀ input f, fits_at schema catalogue input f -> rule_matches r input = true ->
    at_field True input f (rr_fields x);
  ro_surely : Forall (separable schema) (when_preds (rule_when r)) -> ∀ input, complete schema input ->
    (∀ f, fits_at schema catalogue input f) -> (∀ f, at_field False input f (rr_fields x)) -> rule_matches r input = true;
}.
Definition rule_analysable (r : TypedRule) : Prop :=
  Forall (λ p, pred_typed schema p ∧ consts_ok p) (when_preds (rule_when r)).

Lemma compute_one_spec r : rule_analysable r -> ∃ x, compute_one checks schema catalogue r = Some x ∧ region_of r x.
Proof.
  intros Hr. unfold rule_analysable in Hr. unfold compute_one. destruct (rule_when r) as [s|preds s] eqn:Ew; cbn [when_preds] in Hr.
  { eexists. split; [done|]. split; cbn; rewrite ?Ew; try done; [apply fresh_ok|intros; apply fresh_at|].
    unfold rule_matches. by rewrite Ew. }
  destruct (apply_predicates_spec preds (fresh_fields schema)) as (fields & -> & Hn); [|apply fresh_ok|].
  { eapply Forall_impl; [exact Hr|]. intros p [? ?]. by apply predicate_sound. }
  cbn [mbind option_bind]. eexists. split; [done|]. destruct Hn as [N1 N2 N3 N4 N5].
  split; cbn; unfold rule_matches; rewrite ?Ew; [done|done|..].
  - intros input f Hf Hm. apply N2; [done..|apply fresh_at].
  - intros Hs input Hc Hf Hat. by apply N5.
Qed.
Lemma compute_rules_spec l :
  Forall rule_analysable l -> ∃ xs, compute_rules checks schema catalogue l = Some xs ∧ Forall2 region_of l xs.
Proof.
  induction 1 as [|r l Hr Hl (xs & E & Hxs)]; cbn [compute_rules]; [by exists []; auto|].
  destruct (compute_one_spec r Hr) as (x & -> & Hx). cbn [mbind option_bind]. rewrite E. cbn [mbind option_bind].
  exists (x :: xs). split; [done|]. by constructor.
Qed.
End predicates.
