(* ===== verification/DmnAnalysisFacts.v ===== *)
(** * dmn-lite: what the analyses find

    On a decision the analyser is made for ([analysable]) every analysis
    returns, and its findings mean what they say for inputs without nulls. *)

From S2P Require Import Prelude RustStr Json Types Platform CodecFacts DmnTypes DmnReference DmnSteps DmnLayout DmnRefine DmnLower DmnTyping DmnIntervals DmnIntervalFacts DmnRegion DmnAnalysis DmnRegionSound.

(** A typed decision over known domains, without the constant [i64::MAX]. *)
Record analysable (d : TypedDecision) (catalogue : Catalogue) : Prop := {
  an_typed : decision_typed d;
  an_known : ∀ i fs, input_schema d !! i = Some fs -> known catalogue (field_type fs);
  an_consts : Forall (λ r, Forall consts_ok (when_preds (rule_when r))) (dec_rules d);
}.

Section facts.
Context {P : Platform} (checks : bool) (catalogue : Catalogue).

Lemma compute_all_spec d :
  analysable d catalogue ->
  ∃ xs, compute_all checks d catalogue = Some xs ∧ Forall2 (region_of (input_schema d) catalogue) (dec_rules d) xs.
Proof.
  intros [Ht Hk Hc]. apply compute_rules_spec; [done|]. apply dt_when in Ht.
  rewrite Forall_forall in Ht, Hc. apply Forall_forall. intros r Hr.
  specialize (Ht r Hr). specialize (Hc r Hr). cbn in Ht, Hc. unfold rule_analysable.
  rewrite Forall_forall in Ht, Hc. apply Forall_forall. auto.
Qed.

(** ** The values of a complete input *)

Definition input_values (n : nat) (input : TypedInputContext) : list TypedValue :=
  (λ f, default TVNull (present input f)) <$> seq 0 n.
Lemma at_fields_values q schema fields input :
  fields_ok schema fields -> complete schema input -> (∀ f, at_field q input f fields) ->
  Forall2 (holds q) fields (input_values (length schema) input).
Proof.
  intros Hok Hc Hat. pose proof (fields_ok_length _ _ Hok) as Hlen.
  apply Forall2_same_length_lookup_2; [unfold input_values; by rewrite length_fmap, length_seq|].
  intros i r v Hr Hv. unfold input_values in Hv. rewrite list_lookup_fmap in Hv.
  assert (i < length schema)%nat as Hi by (rewrite <- Hlen; by apply lookup_lt_Some in Hr).
  rewrite lookup_seq_lt in Hv by done. injection Hv as <-. destruct (Hc i Hi) as [v Ev]. cbn. rewrite Ev. cbn. by eapply Hat.
Qed.
Lemma values_at_fields q schema fields input :
  complete schema input -> Forall2 (holds q) fields (input_values (length schema) input) -> ∀ f, at_field q input f fields.
Proof.
  intros Hc Hall f r v Hr Hv. destruct (Forall2_lookup_l _ _ _ _ _ Hall Hr) as (v' & Hv' & H).
  unfold input_values in Hv'. rewrite list_lookup_fmap in Hv'.
  destruct (seq 0 (length schema) !! f) as [g|] eqn:Eg; [|done]. apply lookup_seq in Eg as [-> _]. cbn in Hv'. rewrite Hv in Hv'.
  by injection Hv' as <-.
Qed.

(** ** Overlap *)

Lemma overlap_some r : r ≠ REmpty -> is_Some (field_region_to_overlap r).
Proof. destruct r; try done; by eexists. Qed.

Lemma intersect_fields_spec (schema : list FieldSchema) a b :
  fields_ok schema a -> fields_ok schema b ->
  ∃ o, intersect_fields checks a b = Some o ∧ ∀ vals, Forall2 may a vals -> Forall2 may b vals -> is_Some o.
Proof.
  intros Ha. revert b. induction Ha as [|fs ra schema a Hra Ha IH]; intros b Hb; inversion Hb as [|? rb ? b' Hrb Hb']; subst;
    cbn [intersect_fields]; [by eexists|].
  destruct (intersect_meets checks (field_type fs) ra rb Hra Hrb) as (c & -> & Hc & Hmay & _). cbn [mbind option_bind].
  destruct (IH b' Hb') as (o & E & Ho). assert (c = REmpty ∨ c ≠ REmpty) as [->|Hne] by (destruct c; auto).
  { eexists. split; [done|]. intros vals H1 H2. inversion H1; subst. inversion H2; subst. exfalso.
    by eapply Hmay. }
  destruct (overlap_some c Hne) as [x Ex]. exists (option_map (cons x) o). split; [destruct c; try done; by rewrite Ex, E|].
  intros vals H1 H2. inversion H1; subst. inversion H2; subst. destruct (Ho l') as [o' ->]; [done..|]. by eexists.
Qed.

(** Two rules an input satisfies have regions that meet. *)
Lemma regions_meet d ra xa rb xb :
  region_of (input_schema d) catalogue ra xa -> region_of (input_schema d) catalogue rb xb ->
  ∃ o, intersect_regions checks xa xb = Some o ∧
    ∀ input, complete (input_schema d) input -> (∀ f, fits_at (input_schema d) catalogue input f) ->
      rule_matches ra input = true -> rule_matches rb input = true -> is_Some o.
Proof.
  intros Ha Hb. destruct (intersect_fields_spec (input_schema d) (rr_fields xa) (rr_fields xb)) as (o & E & Ho);
    [eapply ro_ok; eauto..|].
  exists o. split; [done|]. intros input Hc Hf Hma Hmb.
  apply (Ho (input_values (length (input_schema d)) input)); apply at_fields_values; eauto using ro_ok, ro_may.
Qed.

Definition overlaps_pair (sev : Severity) (a b : TypedRule) (fd : AnalysisFinding) : Prop :=
  fd_severity fd = sev ∧ ∃ summary, fd_kind fd = Overlap (rule_id a) (rule_id b) summary.

Lemma overlaps_of_spec d config ra xa l xs :
  region_of (input_schema d) catalogue ra xa -> Forall2 (region_of (input_schema d) catalogue) l xs ->
  ∃ out, overlaps_of checks d config (ra, xa) (zip l xs) = Some out ∧
    (is_info (overlap_severity d) && negb (emit_info config) = false ->
    ∀ input rb, complete (input_schema d) input -> (∀ f, fits_at (input_schema d) catalogue input f) ->
      rule_matches ra input = true -> rule_matches rb input = true -> rb ∈ l -> is_catch_all rb = false ->
      Exists (overlaps_pair (overlap_severity d) ra rb) out).
Proof.
  intros Ha Hl. induction Hl as [|rb xb l xs Hb Hl (out & E & IH)]; cbn [zip zip_with overlaps_of].
  { exists []. split; [done|]. set_solver. }
  cbn [fst snd]. destruct (regions_meet d ra xa rb xb Ha Hb) as (o & Eo & Ho). pose proof (ro_catch_all _ _ _ _ Hb) as Hcb.
  destruct (rr_is_catch_all xb) eqn:Ecb.
  { exists out. split; [done|]. intros Hinfo input rb' Hc Hf Hma Hmb [->|Hin]%elem_of_cons Hnc; [|by eapply IH].
    unfold is_catch_all in Hnc. by rewrite <- Hcb in Hnc. }
  rewrite Eo. cbn [mbind option_bind]. rewrite E. cbn [mbind option_bind]. eexists. split; [done|].
  intros Hinfo input rb' Hc Hf Hma Hmb [->|Hin]%elem_of_cons Hnc.
  - destruct (Ho input) as [summary ->]; [done..|]. rewrite Hinfo. left. split; [done|]. by eexists.
  - specialize (IH Hinfo input rb' Hc Hf Hma Hmb Hin Hnc). rewrite Hinfo. destruct o; [by right|done].
Qed.

Lemma overlap_loop_spec d config l xs :
  Forall2 (region_of (input_schema d) catalogue) l xs ->
  ∃ out, overlap_loop checks d config (zip l xs) = Some out ∧
    (is_info (overlap_severity d) && negb (emit_info config) = false ->
    ∀ input l1 ra l2 rb, l = l1 ++ ra :: l2 -> rb ∈ l2 ->
      complete (input_schema d) input -> (∀ f, fits_at (input_schema d) catalogue input f) ->
      rule_matches ra input = true -> rule_matches rb input = true -> is_catch_all ra = false -> is_catch_all rb = false ->
      Exists (overlaps_pair (overlap_severity d) ra rb) out).
Proof.
  intros Hl. induction Hl as [|ra xa l xs Ha Hl (out & E & IH)]; cbn [zip zip_with overlap_loop].
  { exists []. split; [done|]. intros _ input l1 ra l2 rb. by destruct l1. }
  cbn [fst snd]. pose proof (ro_catch_all _ _ _ _ Ha) as Hca.
  destruct (rr_is_catch_all xa) eqn:Eca.
  { exists out. split; [done|]. intros Hinfo input [|r l1] ra' l2 rb [= -> ->] Hin Hc Hf Hma Hmb Hna Hnb; [|by eapply IH].
    unfold is_catch_all in Hna. by rewrite <- Hca in Hna. }
  destruct (overlaps_of_spec d config ra xa l xs Ha Hl) as (here & Eh & Hh). rewrite Eh. cbn [mbind option_bind].
  rewrite E. cbn [mbind option_bind]. eexists. split; [done|].
  intros Hinfo input [|r l1] ra' l2 rb [= -> ->] Hin Hc Hf Hma Hmb Hna Hnb; apply Exists_app; [left|right].
  - by eapply Hh.
  - by eapply IH.
Qed.

Lemma overlap_analyse_spec d config xs :
  Forall2 (region_of (input_schema d) catalogue) (dec_rules d) xs ->
  is_Some (overlap_analyse checks d xs config).
Proof. intros H. destruct (overlap_loop_spec d config _ _ H) as (out & E & _). by exists out. Qed.

(** ** Unreachable rules *)

Lemma fields_subset_spec (schema : list FieldSchema) a b :
  fields_ok schema a -> fields_ok schema b ->
  ∃ s, fields_subset checks a b = Some s ∧ (s = true -> ∀ vals, Forall2 may a vals -> Forall2 surely b vals).
Proof.
  intros Ha. revert b. induction Ha as [|fs ra schema a Hra Ha IH]; intros b Hb; inversion Hb as [|? rb ? b' Hrb Hb']; subst;
    cbn [fields_subset].
  { eexists. split; [done|]. intros _ vals H. inversion H; subst. constructor. }
  destruct (subset_spec checks (field_type fs) ra rb Hra Hrb) as (s & -> & Hs). cbn [mbind option_bind].
  destruct s; [|by eexists]. destruct (IH b' Hb') as (s & E & Hs'). exists s. split; [done|].
  intros -> vals H. inversion H; subst. constructor; auto.
Qed.

(** Rule [b] matches only where rule [a] does. *)
Definition shadows (schema : list FieldSchema) (a b : TypedRule) : Prop :=
  Forall (separable schema) (when_preds (rule_when a)) -> ∀ input, complete schema input ->
  (∀ f, fits_at schema catalogue input f) -> rule_matches b input = true -> rule_matches a input = true.

Lemma region_subset_shadows d ra xa rb xb :
  region_of (input_schema d) catalogue ra xa -> region_of (input_schema d) catalogue rb xb ->
  ∃ s, region_is_subset checks xb xa = Some s ∧ (s = true -> shadows (input_schema d) ra rb).
Proof.
  intros Ha Hb. destruct (fields_subset_spec (input_schema d) (rr_fields xb) (rr_fields xa)) as (s & E & Hs);
    [eapply ro_ok; eauto..|].
  exists s. split; [done|]. intros -> Hsep input Hc Hf Hm. apply (ro_surely _ _ _ _ Ha); [done..|].
  apply (values_at_fields _ (input_schema d)); [done|]. apply Hs; [done|].
  apply at_fields_values; eauto using ro_ok, ro_may.
Qed.

Lemma shadowing_rule_spec d rb xb l xs :
  region_of (input_schema d) catalogue rb xb -> Forall2 (region_of (input_schema d) catalogue) l xs ->
  ∃ o, shadowing_rule checks xb (zip l xs) = Some o ∧ ∀ ra, o = Some ra -> ra ∈ l ∧ shadows (input_schema d) ra rb.
Proof.
  intros Hb Hl. induction Hl as [|ra xa l xs Ha Hl (o & E & IH)]; cbn [zip zip_with shadowing_rule]; [by eexists|].
  cbn [fst snd]. assert (∀ ra', o = Some ra' -> ra' ∈ ra :: l ∧ shadows (input_schema d) ra' rb) as IH'.
  { intros ra' E'. destruct (IH ra' E'). split; [by right|done]. }
  destruct (rr_is_catch_all xa); [by exists o|].
  destruct (region_subset_shadows d ra xa rb xb Ha Hb) as (s & -> & Hs). cbn [mbind option_bind].
  destruct s; [|by exists o]. eexists. split; [done|]. intros ? [= <-]. split; [by left|]. by apply Hs.
Qed.

(** A finding about [l] behind the rules [before]. *)
Definition shadow_finding (d : TypedDecision) (before l : list TypedRule) (fd : AnalysisFinding) : Prop :=
  ∃ l1 rb l2 ra, l = l1 ++ rb :: l2 ∧ ra ∈ before ++ l1 ∧ fd_severity fd = SevError ∧
    fd_kind fd = UnreachableRule (rule_id rb) (rule_id ra) ∧ shadows (input_schema d) ra rb.

Lemma unreachable_loop_spec d before bs l xs :
  Forall2 (region_of (input_schema d) catalogue) before bs -> Forall2 (region_of (input_schema d) catalogue) l xs ->
  ∃ out, unreachable_loop checks (zip before bs) (zip l xs) = Some out ∧ Forall (shadow_finding d before l) out.
Proof.
  intros Hbefore Hl. revert before bs Hbefore.
  induction Hl as [|rb xb l xs Hb Hl IH]; intros before bs Hbefore; cbn [zip zip_with unreachable_loop].
  { exists []. split; [done|constructor]. }
  cbn [fst snd]. destruct (IH (before ++ [rb]) (bs ++ [xb])) as (out & E & Hout).
  { apply Forall2_app; [done|]. apply Forall2_cons. split; [done|apply Forall2_nil_2]. }
  rewrite zip_with_app in E by (by eapply Forall2_length). cbn in E.
  assert (∃ o, (if rr_is_catch_all xb then Some None else shadowing_rule checks xb (zip before bs)) = Some o ∧
    ∀ ra, o = Some ra -> ra ∈ before ∧ shadows (input_schema d) ra rb) as (o & Eo & Ho).
  { destruct (rr_is_catch_all xb); [by eexists|]. by apply shadowing_rule_spec. }
  rewrite Eo. cbn [mbind option_bind]. rewrite E. cbn [mbind option_bind]. eexists. split; [done|].
  assert (Forall (shadow_finding d before (rb :: l)) out) as Hrest.
  { eapply Forall_impl; [exact Hout|]. intros fd (l1 & rb' & l2 & ra & -> & Hra & H). exists (rb :: l1), rb', l2, ra.
    split; [done|]. split; [|done]. by rewrite <- app_assoc in Hra. }
  destruct o as [ra|]; [|done]. constructor; [|done]. destruct (Ho ra eq_refl) as [Hin Hs].
  exists [], rb, l, ra. rewrite app_nil_r. done.
Qed.

Lemma unreachable_analyse_spec d xs :
  Forall2 (region_of (input_schema d) catalogue) (dec_rules d) xs ->
  ∃ out, unreachable_analyse checks d xs = Some out ∧ Forall (shadow_finding d [] (dec_rules d)) out.
Proof.
  intros H. unfold unreachable_analyse. destruct (hit_policy d); [by exists []|].
  exact (unreachable_loop_spec d [] [] _ _ (Forall2_nil_2 _ _ _) H).
Qed.
End facts.

(** * dmn-lite: the gap analysis

    The union of a field over all rules may admit every value some rule accepts
    there, so a value outside it is accepted by none. *)

Lemma witness_loop_spec ds gaps room e :
  e ∈ witness_loop ds gaps room -> ∃ gf v, (gf, (true, Some v)) ∈ gaps ∧ e = <[gf := v]> ds.
Proof.
  revert room. induction gaps as [|[gf [g w]] gaps IH]; intros room; cbn [witness_loop]; [set_solver|].
  assert (∀ room, e ∈ witness_loop ds gaps room -> ∃ gf' v, (gf', (true, Some v)) ∈ (gf, (g, w)) :: gaps ∧ e = <[gf' := v]> ds) as IH'.
  { intros room' (gf' & v & H & ->)%IH. exists gf', v. split; [by right|done]. }
  destruct g, w as [v|]; try apply IH'. destruct room as [|room]; [set_solver|].
  intros [->|H]%elem_of_cons; [|by eapply IH']. exists gf, v. split; [by left|done].
Qed.

Section gaps.
Context (checks : bool) (schema : list FieldSchema) (catalogue : Catalogue).
Context (Hknown : ∀ i fs, schema !! i = Some fs -> known catalogue (field_type fs)).

(** ** Unions *)

Lemma union_two_spec t a b :
  known catalogue t -> region_ok t a -> region_ok t b ->
  ∃ c, union_two checks catalogue a b = Some c ∧ region_ok t c ∧ ∀ v, may a v ∨ may b v -> may c v.
Proof.
  intros Hk Ha Hb. destruct a, b; cbn [union_two];
    try by (eexists; split_and!; [reflexivity|cbn; auto|cbn; try done; naive_solver]).
  - cbn in Ha, Hb. subst t. injection Hb as ->. rewrite N.eqb_refl. destruct (Hk _ eq_refl) as [vs ->]. cbn [mbind option_bind].
    eexists. split_and!; [done|by case_bool_decide|]. intros v Hv. case_bool_decide; [done|]. cbn in *. set_solver.
  - eexists. split_and!; [done|by case_match|]. intros v Hv. case_match; [done|]. cbn in *. set_solver.
  - destruct Ha as [Ht Ha], Hb as [_ Hb]. destruct (union_spec checks s s0 Ha Hb) as (i & -> & [Hi _] & Hin).
    cbn [mbind option_bind]. eexists. split_and!; [done|done|]. intros v. cbn.
    destruct v; try tauto; [by rewrite Hin|]. intros [H|H] z; rewrite Hin; auto.
  - eexists. split_and!; [done|done|]. intros v. cbn. set_solver.
Qed.

Lemma union_fields_spec sch unions fields :
  (∀ fs, fs ∈ sch -> known catalogue (field_type fs)) -> fields_ok sch unions -> fields_ok sch fields ->
  ∃ u, union_fields checks catalogue unions fields = Some u ∧ fields_ok sch u ∧
    ∀ i ra rb rc v, unions !! i = Some ra -> fields !! i = Some rb -> u !! i = Some rc -> may ra v ∨ may rb v -> may rc v.
Proof.
  intros Hk Hu. revert fields. induction Hu as [|fs a sch unions Ha Hu IH]; intros fields Hf; inversion Hf as [|? b ? fields' Hb Hf']; subst;
    cbn [union_fields].
  { exists []. split_and!; [done|constructor|]. intros i. by rewrite lookup_nil. }
  destruct (union_two_spec (field_type fs) a b) as (c & -> & Hc & Hmay); [apply Hk; by left|done..|]. cbn [mbind option_bind].
  destruct (IH (λ fs H, Hk fs (list_elem_of_further _ _ _ H)) fields' Hf') as (u & E & Hok & Hat). rewrite E. cbn [mbind option_bind].
  exists (c :: u). split_and!; [done|by constructor|]. intros [|i] ra rb rc v; cbn; [intros [= <-] [= <-] [= <-]; apply Hmay|].
  apply Hat.
Qed.

(** [unions] may admit, field by field, what the regions [xs] may. *)
Lemma union_regions_spec unions xs :
  fields_ok schema unions -> Forall (λ x, fields_ok schema (rr_fields x)) xs ->
  ∃ u, union_regions checks catalogue unions xs = Some u ∧ fields_ok schema u ∧
    (∀ input f, at_field True input f unions -> at_field True input f u) ∧
    (∀ input f x, x ∈ xs -> at_field True input f (rr_fields x) -> at_field True input f u).
Proof.
  intros Hu Hxs. revert unions Hu. induction Hxs as [|x xs Hx Hxs IH]; intros unions Hu; cbn [union_regions].
  { exists unions. split_and!; [done|done|done|set_solver]. }
  destruct (union_fields_spec schema unions (rr_fields x)) as (u & -> & Hok & Hat); [|done..|].
  { intros fs [i Hi]%list_elem_of_lookup. by eapply Hknown. }
  cbn [mbind option_bind]. destruct (IH u Hok) as (u' & E & Hok' & H1 & H2). exists u'.
  assert (∀ fields input f, fields_ok schema fields ->
    (∀ i r rc v, fields !! i = Some r -> u !! i = Some rc -> may r v -> may rc v) ->
    at_field True input f fields -> at_field True input f u) as Hlift.
  { intros fields input f Hfok Hp Hf r v Hr Hv. destruct (lookup_lt_is_Some_2 fields f) as [r' Hr'].
    { rewrite (fields_ok_length _ _ Hfok), <- (fields_ok_length _ _ Hok). by apply lookup_lt_Some in Hr. }
    eapply Hp; [exact Hr'|done|]. by eapply Hf. }
  assert (∀ f l l', fields_ok schema l -> fields_ok schema l' -> is_Some (l !! f) -> is_Some (l' !! f)) as Hboth.
  { intros f l l' Hl Hl'. rewrite !lookup_lt_is_Some. by rewrite (fields_ok_length _ _ Hl), (fields_ok_length _ _ Hl'). }
  split_and!; [done|done|..].
  - intros input f Hf. apply H1. revert Hf. apply Hlift; [done|]. intros i r rc v Hr Hrc Hm.
    destruct (Hboth i unions (rr_fields x)) as [rb Hrb]; [done..|by eexists|]. eapply Hat; eauto.
  - intros input f x' [->|Hin]%elem_of_cons Hf; [|by eapply H2].
    apply H1. revert Hf. apply Hlift; [done|]. intros i r rc v Hr Hrc Hm.
    destruct (Hboth i (rr_fields x) unions) as [rb Hrb]; [done..|by eexists|]. eapply Hat; eauto.
Qed.

(** ** Values outside a union *)

Definition region_norm (r : FieldRegion) : Prop := match r with RIntegerInterval s => norm s | _ => True end.
(** A value the evaluators take for a field of type [t]. *)
Definition accepted (t : ResolvedType) (v : TypedValue) : Prop :=
  match t, v with
  | RTEnum d, TVEnum d' _ => d' = d
  | RTBool, TVBool _ | RTInteger, TVInteger _ | RTDecimal, (TVDecimal _ | TVInteger _) | RTStr, TVStr _ => True
  | _, _ => False
  end.
Lemma fits_accepted t v : fits catalogue t v -> accepted t v.
Proof. destruct t, v; try done. by intros [-> _]. Qed.

Lemma sample_value_spec t :
  known catalogue t -> ∃ w, sample_value catalogue t = Some w ∧ ∀ v, w = Some v -> fits catalogue t v.
Proof.
  intros Hk. destruct t as [d| | | |]; cbn [sample_value]; try by (eexists; split; [done|]; intros v [= <-]).
  destruct (Hk d eq_refl) as [vs E]. rewrite E. cbn [mbind option_bind]. eexists. split; [done|].
  destruct vs as [|x vs]; [done|]. intros v [= <-]. split; [done|]. exists (x :: vs). split; [done|by left].
Qed.

Lemma field_gap_spec t u :
  known catalogue t -> region_ok t u ->
  ∃ g w, field_gap checks catalogue u t = Some (g, w) ∧ ∀ v, w = Some v -> fits catalogue t v ∧ (region_norm u -> ¬ may u v).
Proof.
  intros Hk Hok. assert (∀ u, (∀ v, ¬ may u v) -> ∃ g w, (v ← sample_value catalogue t; Some (true, v)) = Some (g, w) ∧
    ∀ v, w = Some v -> fits catalogue t v ∧ (region_norm u -> ¬ may u v)) as Hsample.
  { intros u' Hu'. destruct (sample_value_spec t Hk) as (w & -> & Hw). eexists _, _. split; [done|]. auto. }
  destruct u as [| | | |d vals|s|s| |s| |reason]; cbn [field_gap];
    try by (destruct t; eexists _, _; (split; [reflexivity|])).
  - replace (field_gap checks catalogue REmpty t) with (v ← sample_value catalogue t; Some (true, v)) by (by destruct t).
    apply Hsample. auto.
  - replace (field_gap checks catalogue RNullOnly t) with (v ← sample_value catalogue t; Some (true, v)) by (by destruct t).
    apply Hsample. auto.
  - cbn in Hok. subst t. destruct (Hk d eq_refl) as [vs E]. cbn [field_gap]. rewrite E. cbn [mbind option_bind].
    destruct (btree_elems _) as [|x l] eqn:El; [by eexists _, _|]. eexists _, _. split; [done|]. intros v [= <-].
    assert (x ∈ (list_to_set vs ∖ vals : gset N)) as Hx by (apply elem_of_btree_elems; rewrite El; by left).
    apply elem_of_difference in Hx as [Hx1%elem_of_list_to_set Hx2].
    split; [by split; [|exists vs]|]. intros _ (y & [= <-] & Hy). done.
  - cbn in Hok. subst t. cbn [field_gap]. repeat case_bool_decide; eexists _, _; (split; [done|]); intros v [= <-];
      (split; [done|]); by intros _ (y & [= <-] & Hy).
  - destruct Hok as [Ht Hs]. destruct t; try done; cbn [field_gap]; [|by eexists _, _].
    destruct (complement_spec checks s Hs) as (c & -> & Hc & _ & Hin). cbn [mbind option_bind].
    destruct (pick_witness_spec checks c Hc) as (w & E & Hw). destruct c as [|iv c]; [by eexists _, _|].
    rewrite E. cbn [mbind option_bind]. eexists _, _. split; [done|]. intros v. destruct w as [z|]; [|done].
    intros [= <-]. split; [done|]. intros Hn. cbn. apply (Hin Hn), Hw. done.
Qed.

Lemma field_gaps_spec sch unions :
  (∀ fs, fs ∈ sch -> known catalogue (field_type fs)) -> fields_ok sch unions ->
  ∃ gaps, field_gaps checks catalogue unions sch = Some gaps ∧ length gaps = length sch ∧
    ∀ i g v fs u, gaps !! i = Some (g, Some v) -> sch !! i = Some fs -> unions !! i = Some u ->
      fits catalogue (field_type fs) v ∧ (region_norm u -> ¬ may u v).
Proof.
  intros Hk Hu. induction Hu as [|fs u sch unions Hok Hu IH]; cbn [field_gaps]; [by exists []|].
  destruct (field_gap_spec (field_type fs) u) as (g & w & -> & Hw); [apply Hk; by left|done|]. cbn [mbind option_bind].
  destruct IH as (gaps & E & Hlen & Hall); [intros fs' H; apply Hk; by right|]. rewrite E. cbn [mbind option_bind].
  exists ((g, w) :: gaps). split_and!; [done|cbn; by f_equal|]. intros [|i] g' v fs' u'; cbn.
  - intros [= <- ->] [= <-] [= <-]. by apply Hw.
  - apply Hall.
Qed.

(** ** Examples *)

Lemma sample_covered_spec t u :
  known catalogue t -> region_ok t u ->
  ∃ w, sample_covered_value checks catalogue u t = Some w ∧ ∀ v, w = Some v -> accepted t v.
Proof.
  intros Hk Hok. destruct (sample_value_spec t Hk) as (w & E & Hw).
  assert (∃ w, sample_value catalogue t = Some w ∧ ∀ v, w = Some v -> accepted t v) as Hs by (eauto using fits_accepted).
  destruct u as [| | | |d vals|s|s| |s| |reason]; cbn [sample_covered_value]; try exact Hs; clear Hs.
  - cbn in Hok. subst t. eexists. split; [done|]. destruct (head _); [|done]. by intros v [= <-].
  - cbn in Hok. subst t. eexists. split; [done|]. destruct (head _); [|done]. by intros v [= <-].
  - destruct Hok as [Ht Hiv]. destruct (pick_witness_spec checks s Hiv) as (w' & -> & _). cbn [mbind option_bind].
    eexists. split; [done|]. destruct w'; [|done]. intros v [= <-]. by destruct t.
  - cbn in Hok. subst t. eexists. split; [done|]. destruct (head _); [|done]. by intros v [= <-].
Qed.

Definition slot_ok (fs : FieldSchema) (v : TypedValue) : Prop := v = TVNull ∨ accepted (field_type fs) v.
Lemma default_values_spec sch unions :
  (∀ fs, fs ∈ sch -> known catalogue (field_type fs)) -> fields_ok sch unions ->
  ∃ ds, default_values checks catalogue unions sch = Some ds ∧ Forall2 slot_ok sch ds.
Proof.
  intros Hk Hu. induction Hu as [|fs u sch unions Hok Hu IH]; cbn [default_values]; [by exists []; auto|].
  destruct (sample_covered_spec (field_type fs) u) as (w & -> & Hw); [apply Hk; by left|done|]. cbn [mbind option_bind].
  destruct IH as (ds & E & Hds); [intros fs' H; apply Hk; by right|]. rewrite E. cbn [mbind option_bind].
  eexists. split; [done|]. constructor; [|done]. destruct w as [v|]; [right; by apply Hw|by left].
Qed.

Lemma finite_gap_count_some sch : ∀ total unions gaps,
  (∀ fs, fs ∈ sch -> known catalogue (field_type fs)) -> length unions = length sch -> length gaps = length sch ->
  is_Some (finite_gap_count catalogue total sch unions gaps).
Proof.
  induction sch as [|fs sch IH]; intros total unions gaps Hk Hu Hg; [by eexists|].
  destruct unions as [|u unions]; [done|]. destruct gaps as [|[g w] gaps]; [done|]. cbn in Hu, Hg.
  assert (∀ total, is_Some (finite_gap_count catalogue total sch unions gaps)) as IH'.
  { intros total'. apply IH; [intros fs' H; apply Hk; by right|lia|lia]. }
  cbn [finite_gap_count]. destruct (field_type fs) as [d| | | |] eqn:Et; try by eexists.
  - destruct (Hk fs (list_elem_of_here _ _) d Et) as [vs ->]. cbn [mbind option_bind]. repeat case_match; try apply IH'; by eexists.
  - repeat case_match; try apply IH'; by eexists.
Qed.
End gaps.

Section gap_analyse.
Context {P : Platform} (checks : bool) (catalogue : Catalogue) (d : TypedDecision) (xs : list RuleRegion).
Context (Hknown : ∀ i fs, input_schema d !! i = Some fs -> known catalogue (field_type fs)).
Context (Hxs : Forall2 (region_of (input_schema d) catalogue) (dec_rules d) xs).

Lemma schema_known fs : fs ∈ input_schema d -> known catalogue (field_type fs).
Proof. intros [i Hi]%list_elem_of_lookup. by eapply Hknown. Qed.

Lemma per_field_union_spec :
  ∃ u, compute_per_field_union checks catalogue d xs = Some u ∧ fields_ok (input_schema d) u ∧
    ∀ input f x, x ∈ xs -> at_field True input f (rr_fields x) -> at_field True input f u.
Proof.
  assert (∀ r, (∀ t, region_ok t r) -> fields_ok (input_schema d) (replicate (length (input_schema d)) r)) as Hrep.
  { intros r Hr. apply Forall2_same_length_lookup_2; [by rewrite length_replicate|]. by intros i fs r' _ [-> _]%lookup_replicate. }
  unfold compute_per_field_union. destruct (existsb rr_is_catch_all xs).
  - eexists. split_and!; [done|by apply Hrep|]. by intros input f x _ _ r v [-> _]%lookup_replicate _.
  - destruct (union_regions_spec checks (input_schema d) catalogue Hknown (replicate (length (input_schema d)) REmpty) xs)
      as (u & E & Hok & _ & H); [by apply Hrep| |by exists u].
    apply Forall_forall. intros x [j Hj]%list_elem_of_lookup. destruct (Forall2_lookup_r _ _ _ _ _ Hxs Hj) as (r & _ & Hr).
    by eapply ro_ok.
Qed.

(** An input every slot of which is null or well typed, that no rule accepts. *)
Definition real_gap (e : list TypedValue) : Prop :=
  Forall2 slot_ok (input_schema d) e ∧ ∀ h r, r ∈ dec_rules d -> rule_matches r (mkInput (Some <$> e) h) = false.

Lemma present_slot e h f v : v ≠ TVNull -> e !! f = Some v -> present (mkInput (Some <$> e) h) f = Some v.
Proof.
  intros Hv He. unfold present, input_get. cbn. rewrite list_lookup_fmap, He. cbn. by destruct v.
Qed.

Lemma example_real_gap unions gf fs u v ds :
  fields_ok (input_schema d) unions ->
  (∀ input f x, x ∈ xs -> at_field True input f (rr_fields x) -> at_field True input f unions) ->
  Forall2 slot_ok (input_schema d) ds -> input_schema d !! gf = Some fs -> unions !! gf = Some u ->
  fits catalogue (field_type fs) v -> ¬ may u v -> real_gap (<[gf := v]> ds).
Proof.
  intros Hok Hu Hds Hfs Hgu Hfit Hno. split.
  - rewrite <- (list_insert_id (input_schema d) gf fs Hfs). apply Forall2_insert; [done|]. right. by eapply fits_accepted.
  - intros h r [j Hj]%list_elem_of_lookup. apply not_true_is_false. intros Hm.
    destruct (Forall2_lookup_l _ _ _ _ _ Hxs Hj) as (x & Hx & Hreg). apply Hno.
    set (input := mkInput _ h) in *. assert (present input gf = Some v) as Hv.
    { apply present_slot; [by intros ->; destruct (field_type fs)|]. apply list_lookup_insert_eq.
      rewrite <- (Forall2_length _ _ _ Hds). by apply lookup_lt_Some in Hfs. }
    eapply (Hu input gf x); [by eapply list_elem_of_lookup_2| |done|done].
    apply (ro_may _ _ _ _ Hreg); [|done]. intros fs' v' Hfs' Hv'. by simplify_eq.
Qed.

(** The analysis returns; its examples are real gaps as long as the integer
    unions have kept their normal form. *)
Lemma gap_analyse_spec config :
  ∃ out, gap_analyse checks catalogue d xs config = Some out ∧
    ∀ fd, fd ∈ out -> ∃ g c, fd_kind fd = Gap g c ∧
      ((∃ unions, compute_per_field_union checks catalogue d xs = Some unions ∧ Forall region_norm unions) ->
       Forall real_gap (examples g)).
Proof.
  destruct per_field_union_spec as (unions & Eu & Hok & Hu).
  destruct (field_gaps_spec checks catalogue (input_schema d) unions schema_known Hok) as (gaps & Eg & Hlen & Hgaps).
  destruct (default_values_spec checks catalogue (input_schema d) unions schema_known Hok) as (ds & Ed & Hds).
  destruct (finite_gap_count_some catalogue (input_schema d) 1%N unions gaps schema_known) as [n En];
    [by rewrite (fields_ok_length _ _ Hok)|done|].
  unfold gap_analyse. rewrite Eu. cbn [mbind option_bind]. rewrite Eg. cbn [mbind option_bind].
  unfold collect_witnesses. destruct (existsb fst gaps); [|by exists []; split; [done|set_solver]].
  rewrite Ed. cbn [mbind option_bind]. rewrite En. cbn [mbind option_bind].
  destruct (is_info _ && _); [by exists []; split; [done|set_solver]|]. eexists. split; [done|].
  intros fd ->%list_elem_of_singleton. eexists _, _. split; [done|]. cbn [examples].
  intros (? & [= <-] & Hnorm). apply Forall_forall. intros e (gf & v & Hin & ->)%witness_loop_spec.
  apply elem_of_lookup_imap in Hin as (i & y & [= -> <-] & Hi).
  destruct (lookup_lt_is_Some_2 (input_schema d) i) as [fs Hfs]; [rewrite <- Hlen; by apply lookup_lt_Some in Hi|].
  destruct (lookup_lt_is_Some_2 unions i) as [u Hgu]; [rewrite (fields_ok_length _ _ Hok), <- Hlen; by apply lookup_lt_Some in Hi|].
  destruct (Hgaps _ _ _ _ _ Hi Hfs Hgu) as [Hfit Hno]. rewrite Forall_lookup in Hnorm. eapply example_real_gap; eauto.
Qed.
End gap_analyse.
