(* ===== verification/DmnAnalysisTheorems.v ===== *)
(** * dmn-lite: the analyser's report and the evaluator

    What the findings of a report say about evaluation by the reference
    evaluator: overlaps are complete, unreachable rules and gap examples are
    real, on the decisions and inputs stated; and where they are not. *)

From S2P Require Import Prelude RustStr Json Types Platform CodecFacts Fixtures DmnTypes DmnReference DmnSteps DmnLayout DmnRefine DmnTheorems DmnLower DmnTyping DmnIntervals DmnIntervalFacts DmnRegion DmnAnalysis DmnRegionSound DmnAnalysisFacts.

Section report.
Context {P : Platform} (checks : bool) (catalogue : Catalogue).

(** ** The report *)

(** Sorted by severity, then primary rule, then kind. *)
Definition finding_le (a b : AnalysisFinding) : Prop := finding_cmp a b ≠ Gt.

Lemma then_not_gt c d : then_ c d ≠ Gt ↔ c = Lt ∨ (c = Eq ∧ d ≠ Gt).
Proof. destruct c; cbn; naive_solver. Qed.
Lemma finding_le_lex a b :
  finding_le a b ↔
  let s x := severity_rank (fd_severity x) in let p x := primary_rule_id (fd_kind x) in let k x := kind_discriminant (fd_kind x) in
  (s a < s b ∨ (s a = s b ∧ (p a < p b ∨ (p a = p b ∧ k a <= k b))))%N.
Proof.
  unfold finding_le, finding_cmp. rewrite !then_not_gt, !N.compare_lt_iff, !N.compare_eq_iff. cbn. by rewrite N.compare_le_iff.
Qed.

Lemma sort_findings_sorted l : StronglySorted finding_le (sort_by finding_cmp l).
Proof.
  apply sort_by_sorted.
  - done.
  - intros x y. unfold finding_le, finding_cmp. intros E.
    assert (∀ a b c, then_ a (then_ b c) = Gt -> then_ (CompOpp a) (then_ (CompOpp b) (CompOpp c)) ≠ Gt) as H
      by (by intros [] [] []).
    apply H in E. by rewrite <- !N.compare_antisym in E.
  - intros x y z. rewrite !finding_le_lex. cbn. lia.
Qed.

(** What an analysis of an analysable decision consists of. *)
Record report_of (d : TypedDecision) (config : AnalysisConfig) (xs : list RuleRegion)
    (overlaps unreachables gaps : list AnalysisFinding) (report : AnalysisReport) : Prop := {
  rp_regions : Forall2 (region_of (input_schema d) catalogue) (dec_rules d) xs;
  rp_compute : compute_all checks d catalogue = Some xs;
  rp_overlaps : overlap_analyse checks d xs config = Some overlaps;
  rp_unreachables : unreachable_analyse checks d xs = Some unreachables;
  rp_gaps : gap_analyse checks catalogue d xs config = Some gaps;
  rp_findings : ∀ fd, fd ∈ findings report ↔
    (emit_info config = true ∨ is_info (fd_severity fd) = false) ∧
    fd ∈ option_list (hit_policy_check d) ++ cost_findings d config ++ string_findings d config ++ overlaps ++ unreachables ++ gaps;
  rp_sorted : StronglySorted finding_le (findings report);
  rp_cost : cost_bound report = cost_compute d;
}.

Lemma report_exists c config :
  analysable (cd_typed_ir c) catalogue ->
  ∃ report xs o u g, analyse_with_config checks c catalogue config = Some report ∧
    report_of (cd_typed_ir c) config xs o u g report.
Proof.
  intros Ha. set (d := cd_typed_ir c) in *. destruct (compute_all_spec checks catalogue d Ha) as (xs & Ex & Hxs).
  destruct (overlap_analyse_spec checks catalogue d config xs Hxs) as [o Eo].
  destruct (unreachable_analyse_spec checks catalogue d xs Hxs) as (u & Eu & _).
  destruct (gap_analyse_spec checks catalogue d xs (an_known _ _ Ha) Hxs config) as (g & Eg & _).
  unfold analyse_with_config. fold d. rewrite Ex. cbn [mbind option_bind]. rewrite Eo. cbn [mbind option_bind].
  rewrite Eu. cbn [mbind option_bind]. rewrite Eg. cbn [mbind option_bind].
  eexists _, xs, o, u, g. split; [done|]. split; try done; cbn [findings cost_bound]; [|apply sort_findings_sorted].
  intros fd. rewrite sort_by_perm. destruct (emit_info config); [tauto|].
  rewrite list_elem_of_In, filter_In, <- list_elem_of_In, negb_true_iff. intuition congruence.
Qed.

Lemma report_determined c config report :
  analysable (cd_typed_ir c) catalogue -> analyse_with_config checks c catalogue config = Some report ->
  ∃ xs o u g, report_of (cd_typed_ir c) config xs o u g report.
Proof. intros Ha E. destruct (report_exists c config Ha) as (report' & xs & o & u & g & E' & H). simplify_eq. eauto. Qed.

(** ** Inputs *)

Definition members (input : TypedInputContext) : Prop :=
  ∀ f d x, present input f = Some (TVEnum d x) -> ∃ vs, catalogue_values d catalogue = Some vs ∧ x ∈ vs.

Context (show_domain : DomainId -> string) (schema_hash : list FieldSchema -> N).

Lemma check_accepted i name t v :
  check_input_type_match show_domain i name t v = Ok tt ↔ accepted t v.
Proof.
  destruct t, v; cbn; try done. destruct (N.eqb_spec domain_id domain_id0); [by subst|]. by split; [|intros ->].
Qed.
Lemma validated_fits d input :
  schema_ids (input_schema d) -> validate_input_types show_domain d input = Ok tt -> members input ->
  ∀ f, fits_at (input_schema d) catalogue input f.
Proof.
  intros Hids Hv Hm f fs v Hfs Hp. unfold validate_input_types in Hv. rewrite try_for_each_ok in Hv.
  assert (fs ∈ input_schema d) as Hin by by eapply list_elem_of_lookup_2.
  specialize (Hv fs Hin). rewrite (Hids f fs Hfs), Hp, check_accepted in Hv.
  destruct (field_type fs), v; try done. cbn in Hv. subst. split; [done|]. by eapply Hm.
Qed.

Lemma check_schema_single schema input ids : check_schema schema_hash schema input ≠ Err (MultipleMatches ids).
Proof. unfold check_schema, ensure. cbn. by repeat case_match. Qed.
Lemma validate_single d input ids : validate_input_types show_domain d input ≠ Err (MultipleMatches ids).
Proof.
  unfold validate_input_types. induction (input_schema d) as [|fs l IH]; [done|]. cbn [try_for_each].
  destruct (present input (field_id fs)) as [v|]; [|exact IH].
  destruct (check_input_type_match _ _ _ _ _) as [?|e] eqn:E; [exact IH|]. intros [= ->].
  by destruct (field_type fs), v; cbn in E; repeat case_match.
Qed.

(** Two matches, and the winner under FIRST. *)
Lemma reference_multiple d input source ids :
  reference_evaluate show_domain schema_hash d input source = Some (Err (MultipleMatches ids)) ->
  validate_input_types show_domain d input = Ok tt ∧ hit_policy d = Unique ∧
  ids = rule_id <$> matching (dec_rules d) input ∧ ∃ a b l, matching (dec_rules d) input = a :: b :: l.
Proof.
  unfold reference_evaluate. intros E. pose proof (check_schema_single (input_schema d) input ids) as H1.
  pose proof (validate_single d input ids) as H2.
  destruct (check_schema _ _ _); [|congruence]. destruct (validate_input_types _ _ _) as [[]|]; [|congruence].
  pose proof (eval_rules_matched (dec_rules d) input source) as Hm. destruct (eval_rules _ _ _) as [traces matched].
  cbn in Hm. subst matched. destruct (hit_policy d); destruct (matching (dec_rules d) input) as [|ra [|rb l]]; cbn in E; try done;
    try (destruct (build_output_context _ _ _); done).
  injection E as <-. split_and!; [done|done| |by eexists _, _, _]. cbn. do 2 f_equal. by rewrite <- list_fmap_compose.
Qed.
Lemma reference_winner d input source ev :
  reference_evaluate show_domain schema_hash d input source = Some (Ok ev) -> hit_policy d = First ->
  validate_input_types show_domain d input = Ok tt ∧
  ∃ w l, matching (dec_rules d) input = w :: l ∧ tr_outcome (ev_trace ev) = OutcomeMatch (rule_id w).
Proof.
  unfold reference_evaluate. intros E Hp.
  destruct (check_schema _ _ _); [|congruence]. destruct (validate_input_types _ _ _) as [[]|]; [|congruence].
  pose proof (eval_rules_matched (dec_rules d) input source) as Hm. destruct (eval_rules _ _ _) as [traces matched].
  cbn in Hm. subst matched. rewrite Hp in E. destruct (matching (dec_rules d) input) as [|w l]; [done|]. cbn in E.
  destruct (build_output_context _ _ _); [|done]. cbn in E. injection E as <-. split; [done|]. by eexists _, _.
Qed.
Lemma reference_no_match d input source :
  check_schema schema_hash (input_schema d) input = Ok tt -> validate_input_types show_domain d input = Ok tt ->
  matching (dec_rules d) input = [] -> reference_evaluate show_domain schema_hash d input source = Some (Err NoMatch).
Proof.
  intros H1 H2 H3. unfold reference_evaluate. rewrite H1, H2.
  pose proof (eval_rules_matched (dec_rules d) input source) as Hm. destruct (eval_rules _ _ _) as [traces matched].
  cbn in Hm. subst matched. rewrite H3. by destruct (hit_policy d).
Qed.

Lemma filter_cons_split {A} (Q : A -> Prop) `{∀ x, Decision (Q x)} l x l' :
  filter Q l = x :: l' -> ∃ l1 l2, l = l1 ++ x :: l2 ∧ Q x ∧ filter Q l1 = [] ∧ filter Q l2 = l'.
Proof.
  induction l as [|y l IH]; [done|]. destruct (decide (Q y)) as [Hy|Hy].
  - rewrite filter_cons_True by done. intros [= -> E]. by exists [], l.
  - rewrite filter_cons_False by done. intros (l1 & l2 & -> & Hx & H1 & H2)%IH. exists (y :: l1), l2.
    by rewrite filter_cons_False.
Qed.

Lemma catch_all_found d r :
  hit_policy d = Unique -> r ∈ dec_rules d -> is_catch_all r = true ->
  ∃ fd x, hit_policy_check d = Some fd ∧ fd_severity fd = SevError ∧ fd_kind fd = UniqueWithCatchAll x.
Proof.
  intros Hp Hr Hc. unfold hit_policy_check. rewrite Hp. destruct (List.find is_catch_all (dec_rules d)) as [x|] eqn:E.
  - cbn [mbind option_bind]. by eexists _, _.
  - apply list_elem_of_In in Hr. by rewrite (List.find_none _ _ E r Hr) in Hc.
Qed.

(** Each list of findings has its own kind. *)
Definition of_kind (n : N) (fd : AnalysisFinding) : Prop := kind_discriminant (fd_kind fd) = n.
Lemma overlaps_kind d config l out : overlap_loop checks d config l = Some out -> Forall (of_kind 1) out.
Proof.
  assert (∀ a l out, overlaps_of checks d config a l = Some out -> Forall (of_kind 1) out) as Hof.
  { intros a l0. induction l0 as [|b l' IH]; intros out'; cbn [overlaps_of]; [by intros [= <-]|].
    destruct (rr_is_catch_all b.2); [apply IH|]. destruct (intersect_regions _ _ _) as [o|]; [|done]. cbn [mbind option_bind].
    destruct (overlaps_of checks d config a l') as [rest|]; [|done]. cbn [mbind option_bind]. intros [= <-].
    repeat case_match; try by apply IH. constructor; [done|by apply IH]. }
  revert out. induction l as [|a l IH]; intros out; cbn [overlap_loop]; [by intros [= <-]|].
  destruct (rr_is_catch_all a.2); [apply IH|]. destruct (overlaps_of checks d config a l) as [here|] eqn:Eh; [|done]. cbn [mbind option_bind].
  destruct (overlap_loop checks d config l) as [rest|]; [|done]. cbn [mbind option_bind]. intros [= <-].
  apply Forall_app. split; [by eapply Hof|by apply IH].
Qed.
Lemma finding_origin d config xs o u g report fd :
  report_of d config xs o u g report -> analysable d catalogue -> fd ∈ findings report ->
  (kind_discriminant (fd_kind fd) = 2%N -> fd ∈ u) ∧ (kind_discriminant (fd_kind fd) = 3%N -> fd ∈ g).
Proof.
  intros H Ha [_ Hin]%(rp_findings _ _ _ _ _ _ _ H).
  assert (Forall (of_kind 1) o) as Ho by (eapply overlaps_kind, (rp_overlaps _ _ _ _ _ _ _ H)).
  assert (Forall (of_kind 2) u) as Hu.
  { destruct (unreachable_analyse_spec checks catalogue d xs (rp_regions _ _ _ _ _ _ _ H)) as (u' & E & Hu).
    rewrite (rp_unreachables _ _ _ _ _ _ _ H) in E. injection E as <-. eapply Forall_impl; [exact Hu|].
    intros f (? & ? & ? & ? & _ & _ & _ & Hk & _). unfold of_kind. by rewrite Hk. }
  assert (Forall (of_kind 3) g) as Hg.
  { destruct (gap_analyse_spec checks catalogue d xs (an_known _ _ Ha) (rp_regions _ _ _ _ _ _ _ H) config) as (g' & E & Hg).
    rewrite (rp_gaps _ _ _ _ _ _ _ H) in E. injection E as <-. apply Forall_forall. intros f Hf.
    destruct (Hg f Hf) as (? & ? & Hk & _). unfold of_kind. by rewrite Hk. }
  assert (Forall (of_kind 0) (option_list (hit_policy_check d))) as Hh.
  { unfold hit_policy_check. destruct (hit_policy d); [|done]. by destruct (List.find _ _); [constructor|]. }
  assert (Forall (of_kind 4) (cost_findings d config)) as Hc by (unfold cost_findings; case_match; by repeat constructor).
  assert (Forall (of_kind 5) (string_findings d config)) as Hs by (unfold string_findings; repeat case_match; by repeat constructor).
  rewrite !Forall_forall in *. unfold of_kind in *. rewrite !elem_of_app in Hin.
  repeat match goal with H : ∀ x, x ∈ _ -> kind_discriminant _ = _ |- _ => specialize (H fd) end. intuition congruence.
Qed.

Lemma cost_sum l :
  list_sum (map rule_cost l) = list_sum (flat_map (λ r, map count_predicate (when_preds (rule_when r))) l).
Proof.
  induction l as [|r l IH]; [done|]. cbn [map flat_map]. rewrite list_sum_app, <- IH.
  change (rule_cost r + list_sum (map rule_cost l) = list_sum (map count_predicate (when_preds (rule_when r))) + list_sum (map rule_cost l))%nat.
  f_equal. unfold rule_cost. by destruct (rule_when r).
Qed.

(** ** The theorems *)

(** C33: the analyser returns a report on every typed decision whose enumerated
    inputs have known domains and that nowhere names [i64::MAX], whether or not
    the build checks for overflow; the report is sorted by severity, primary
    rule and kind, holds no informational finding when those are disabled, and
    states the number of predicates. *)
Theorem analysis_returns c config :
  analysable (cd_typed_ir c) catalogue ->
  ∃ report, analyse_with_config checks c catalogue config = Some report ∧
    StronglySorted finding_le (findings report) ∧
    (emit_info config = false -> Forall (λ fd, fd_severity fd ≠ SevInfo) (findings report)) ∧
    total_predicates (cost_bound report)
    = N.of_nat (list_sum (flat_map (λ r, map count_predicate (when_preds (rule_when r))) (dec_rules (cd_typed_ir c)))).
Proof.
  intros Ha. destruct (report_exists c config Ha) as (report & xs & o & u & g & E & H). exists report.
  split_and!; [done|apply (rp_sorted _ _ _ _ _ _ _ H)|..].
  - intros Hinfo. apply Forall_forall. intros fd [[Hi|Hi] _]%(rp_findings _ _ _ _ _ _ _ H); [congruence|]. by destruct (fd_severity fd).
  - rewrite (rp_cost _ _ _ _ _ _ _ H). unfold cost_compute. cbn [total_predicates]. by rewrite cost_sum.
Qed.

(** C31: overlap analysis is complete.  When a complete input over catalogue
    values makes the reference evaluator report several matching rules, the
    report of the analyser has the SA-001 error or an overlap of two of them. *)
Theorem multiple_matches_reported c config report input source ids :
  analysable (cd_typed_ir c) catalogue -> analyse_with_config checks c catalogue config = Some report ->
  complete (input_schema (cd_typed_ir c)) input -> members input ->
  reference_evaluate show_domain schema_hash (cd_typed_ir c) input source = Some (Err (MultipleMatches ids)) ->
  ∃ fd, fd ∈ findings report ∧
    ((fd_severity fd = SevError ∧ ∃ r, fd_kind fd = UniqueWithCatchAll r) ∨
     (fd_severity fd = SevWarning ∧ ∃ a b s, fd_kind fd = Overlap a b s ∧ a ∈ ids ∧ b ∈ ids)).
Proof.
  intros Ha Er Hc Hm He. destruct (report_determined c config report Ha Er) as (xs & o & u & g & H).
  set (d := cd_typed_ir c) in *. destruct (reference_multiple d input source ids He) as (Hv & Hp & -> & ra & rb & l & Hl).
  assert (∀ f, fits_at (input_schema d) catalogue input f) as Hf.
  { apply validated_fits; [apply (dt_inputs _ (an_typed _ _ Ha))|done..]. }
  rewrite Hl. apply filter_cons_split in Hl as (l1 & l2 & Hd & Hma & _ & (l3 & l4 & -> & Hmb & _)%filter_cons_split).
  assert (is_catch_all ra = true ∨ is_catch_all rb = true ∨ is_catch_all ra = false ∧ is_catch_all rb = false) as Hcase
    by (destruct (is_catch_all ra), (is_catch_all rb); auto).
  assert (∀ r, r ∈ dec_rules d -> is_catch_all r = true -> ∃ fd, fd ∈ findings report ∧ fd_severity fd = SevError ∧
    ∃ x, fd_kind fd = UniqueWithCatchAll x) as Hcatch.
  { intros r Hr Hrc. destruct (catch_all_found d r Hp Hr Hrc) as (fd & x & E & Hs & Hk). exists fd.
    split; [|by eauto]. apply (rp_findings _ _ _ _ _ _ _ H). rewrite Hs, E. split; [by right|]. by left. }
  destruct Hcase as [Hra|[Hrb|[Hra Hrb]]].
  - destruct (Hcatch ra) as (fd & Hin & H'); [rewrite Hd; set_solver|done|]. eauto.
  - destruct (Hcatch rb) as (fd & Hin & H'); [rewrite Hd; set_solver|done|]. eauto.
  - destruct (overlap_loop_spec checks catalogue d config (dec_rules d) xs) as (o' & Eo & Ho); [apply (rp_regions _ _ _ _ _ _ _ H)|].
    pose proof (rp_overlaps _ _ _ _ _ _ _ H) as Eo'. unfold overlap_analyse in Eo'. simplify_eq.
    assert (overlap_severity d = SevWarning) as Hsev by (unfold overlap_severity; by rewrite Hp).
    rewrite Hsev in Ho. specialize (Ho eq_refl input l1 ra (l3 ++ rb :: l4) rb Hd).
    apply Exists_exists in Ho as (fd & Hin & Hs & summary & Hk); [|set_solver|done..].
    exists fd. split; [|right; split; [done|]; exists (rule_id ra), (rule_id rb), summary; set_solver].
    apply (rp_findings _ _ _ _ _ _ _ H). rewrite Hs. split; [by right|]. rewrite !elem_of_app. tauto.
Qed.

(** C32: a rule reported unreachable never wins.  When the disjunctions of the
    rule said to shadow it keep to one field each, no complete input over
    catalogue values makes the reference evaluator pick the unreachable rule. *)
Theorem unreachable_rule_never_wins c config report fd ra b a input source ev :
  analysable (cd_typed_ir c) catalogue -> analyse_with_config checks c catalogue config = Some report ->
  fd ∈ findings report -> fd_kind fd = UnreachableRule b a ->
  dec_rules (cd_typed_ir c) !! a = Some ra ->
  Forall (separable (input_schema (cd_typed_ir c))) (when_preds (rule_when ra)) ->
  complete (input_schema (cd_typed_ir c)) input -> members input ->
  reference_evaluate show_domain schema_hash (cd_typed_ir c) input source = Some (Ok ev) ->
  tr_outcome (ev_trace ev) ≠ OutcomeMatch b.
Proof.
  intros Ha Er Hfd Hk Hra Hsep Hc Hm He Hout. destruct (report_determined c config report Ha Er) as (xs & o & u & g & H).
  set (d := cd_typed_ir c) in *.
  destruct (finding_origin d config xs o u g report fd H Ha Hfd) as [Hu _]. specialize (Hu ltac:(by rewrite Hk)).
  destruct (unreachable_analyse_spec checks catalogue d xs (rp_regions _ _ _ _ _ _ _ H)) as (u' & E & Hall).
  pose proof (rp_unreachables _ _ _ _ _ _ _ H) as E'. rewrite E in E'. injection E' as ->.
  assert (hit_policy d = First) as Hp.
  { unfold unreachable_analyse in E. destruct (hit_policy d); [|done]. injection E as <-. set_solver. }
  rewrite Forall_forall in Hall. destruct (Hall fd Hu) as (l1 & rb & l2 & ra' & Hd & Hin & _ & Hk' & Hsh).
  rewrite Hk in Hk'. injection Hk' as -> ->. cbn [app] in Hin.
  destruct (reference_winner d input source ev He Hp) as (Hv & w & l & Hl & Hw). rewrite Hw in Hout. injection Hout as Hid.
  pose proof (dt_rules _ (an_typed _ _ Ha)) as Hids. fold d in Hids.
  assert (∀ i r, dec_rules d !! i = Some r -> rule_id r = i) as Hpos.
  { intros i r Hi. assert (seq 0 (length (dec_rules d)) !! i = Some (rule_id r)) as Hseq
      by (rewrite <- Hids, list_lookup_fmap, Hi; done). apply lookup_seq in Hseq as [-> _]. done. }
  assert (ra' = ra) as ->.
  { apply list_elem_of_lookup in Hin as [j Hj]. assert (dec_rules d !! j = Some ra') as Hj'.
    { rewrite Hd. by apply lookup_app_l_Some. }
    pose proof (Hpos _ _ Hj') as Hj2. rewrite Hj2 in Hra. congruence. }
  apply filter_cons_split in Hl as (m1 & m2 & Hd' & Hmw & Hm1 & _).
  assert (w = rb ∧ m1 = l1) as [-> ->].
  { assert (dec_rules d !! length m1 = Some w) as H1 by (rewrite Hd'; by apply list_lookup_middle).
    assert (dec_rules d !! length l1 = Some rb) as H2 by (rewrite Hd; by apply list_lookup_middle).
    assert (length m1 = length l1) as Hlen by (rewrite <- (Hpos _ _ H1), <- (Hpos _ _ H2); done).
    split; [congruence|]. rewrite Hd in Hd'. by apply app_inj_1 in Hd' as [-> _]. }
  assert (rule_matches ra input = true) as Hmr.
  { apply (Hsh Hsep input Hc); [|done]. apply validated_fits; [apply (dt_inputs _ (an_typed _ _ Ha))|done..]. }
  assert (ra ∈ filter (λ r, rule_matches r input = true) l1) as Hbad by by apply list_elem_of_filter.
  rewrite Hm1 in Hbad. set_solver.
Qed.

(** The examples of a gap are gaps.  As long as the unions of the integer
    fields are sorted, disjoint and without adjacent intervals, the reference
    evaluator answers [NoMatch] on every example of a gap finding. *)
Lemma gap_examples_match_no_rule c config report fd g present_ e source :
  analysable (cd_typed_ir c) catalogue -> analyse_with_config checks c catalogue config = Some report ->
  (∃ xs unions, compute_all checks (cd_typed_ir c) catalogue = Some xs ∧
     compute_per_field_union checks catalogue (cd_typed_ir c) xs = Some unions ∧ Forall region_norm unions) ->
  fd ∈ findings report -> fd_kind fd = Gap g present_ -> e ∈ examples g ->
  reference_evaluate show_domain schema_hash (cd_typed_ir c)
    (mkInput (Some <$> e) (schema_hash (input_schema (cd_typed_ir c)))) source = Some (Err NoMatch).
Proof.
  intros Ha Er (xs' & unions & Ex & Eu & Hnorm) Hfd Hk He.
  destruct (report_determined c config report Ha Er) as (xs & o & u & gs & H). set (d := cd_typed_ir c) in *.
  rewrite (rp_compute _ _ _ _ _ _ _ H) in Ex. injection Ex as <-.
  destruct (finding_origin d config xs o u gs report fd H Ha Hfd) as [_ Hg]. specialize (Hg ltac:(by rewrite Hk)).
  destruct (gap_analyse_spec checks catalogue d xs (an_known _ _ Ha) (rp_regions _ _ _ _ _ _ _ H) config) as (g' & E & Hall).
  rewrite (rp_gaps _ _ _ _ _ _ _ H) in E. injection E as <-. destruct (Hall fd Hg) as (g0 & c0 & Hk' & Hreal).
  rewrite Hk in Hk'. injection Hk' as <- <-. rewrite Forall_forall in Hreal.
  destruct (Hreal ltac:(eauto) e He) as [Hslots Hno]. apply reference_no_match.
  - unfold check_schema, ensure. cbn. rewrite N.eqb_refl, length_fmap, (Forall2_length _ _ _ Hslots), Nat.eqb_refl. done.
  - unfold validate_input_types. apply try_for_each_ok. intros fs [i Hi]%list_elem_of_lookup.
    rewrite (dt_inputs _ (an_typed _ _ Ha) i fs Hi). destruct (Forall2_lookup_l _ _ _ _ _ Hslots Hi) as (v & Hv & Hs).
    destruct Hs as [->|Hs]; [unfold present, input_get; cbn; by rewrite list_lookup_fmap, Hv|].
    rewrite (present_slot e _ i v) by (done || (intros ->; by destruct (field_type fs))). by apply check_accepted.
  - destruct (matching (dec_rules d) _) as [|r l] eqn:El; [done|].
    apply filter_cons_split in El as (l1 & l2 & Hd & Hr & _). rewrite Hno in Hr; [done|]. rewrite Hd. set_solver.
Qed.
End report.

(** ** Sample tables *)

#[local] Existing Instance toy_platform.

Definition colours : Domain :=
  Domain_new 1 "colours" "" [mkDomainValue 10 "red"; mkDomainValue 11 "green"; mkDomainValue 12 "blue"].
Definition colour_catalogue : Catalogue := Catalogue_new 7 "v1" "" [colours].
Definition table_schema : list FieldSchema := [mkField 0 "x" RTInteger no_span; mkField 1 "c" (RTEnum 1) no_span].
Definition table (policy : HitPolicy) (rules : list (list TypedPredicate)) : CompiledDecision :=
  mkCompiled "t" "table" policy table_schema [] [] [] [] [] [] [] []
    (mkDecision "t" "table" policy table_schema [] (imap (λ i preds, mkRule i "" (Predicates preds no_span) [] no_span) rules) [] no_span).
Definition x_is (op : ComparisonOp) (v : Z) : TypedPredicate := PComparison 0 op (TVInteger v) no_span.
Definition c_is (op : ComparisonOp) (v : ValueId) : TypedPredicate := PComparison 1 op (TVEnum 1 v) no_span.
Definition x_in (lo up : Z) : TypedPredicate := PRange 0 (Some (TVInteger lo)) (Some (TVInteger up)) true true no_span.
Definition row (x : Z) (c : ValueId) : TypedInputContext := mkInput [Some (TVInteger x); Some (TVEnum 1 c)] 2.

(** Two rules that overlap, leaving a gap in each field. *)
Definition unique_table : CompiledDecision := table Unique [[x_in 0 10; c_is OpEq 10]; [x_is OpGt 5; c_is OpNotEq 11]].
(** The second rule is shadowed by the first. *)
Definition shadowed_table : CompiledDecision :=
  table First [[POr [x_is OpLe 10; x_is OpEq 50] no_span]; [x_in 1 5; c_is OpEq 10]; [x_is OpGt 10]].

Lemma table_known i fs : table_schema !! i = Some fs -> known colour_catalogue (field_type fs).
Proof. intros H d. destruct i as [|[|i]]; [injection H as <-; done|injection H as <-|done]. intros [= <-]. vm_compute. by eexists. Qed.
Lemma table_analysable policy rules :
  Forall (Forall (λ p, pred_typed table_schema p ∧ consts_ok p)) rules ->
  analysable (cd_typed_ir (table policy rules)) colour_catalogue.
Proof.
  intros Hr. assert (∀ Q : TypedRule -> Prop, (∀ i preds, Forall (λ p, pred_typed table_schema p ∧ consts_ok p) preds ->
    Q (mkRule i "" (Predicates preds no_span) [] no_span)) -> Forall Q (dec_rules (cd_typed_ir (table policy rules)))) as Hall.
  { intros Q HQ. apply Forall_forall. cbn. intros r (i & preds & -> & Hi)%elem_of_lookup_imap. apply HQ.
    rewrite Forall_forall in Hr. by eapply Hr, list_elem_of_lookup_2. }
  split; [|exact table_known|apply Hall; intros i preds H; cbn; eapply Forall_impl; [exact H|by intros p []]]. split.
  - intros [|[|i]] fs H; [by injection H as <-..|done].
  - intros i fs H. cbn in H. by rewrite lookup_nil in H.
  - apply Hall. intros i preds H. cbn. eapply Forall_impl; [exact H|by intros p []].
  - apply Hall. intros i preds _. split; [constructor|constructor|]. cbn. lia.
  - cbn. apply list_eq. intros i. rewrite list_lookup_fmap, list_lookup_imap, length_imap.
    destruct (rules !! i) as [preds|] eqn:E; cbn.
    + symmetry. apply lookup_seq. apply lookup_lt_Some in E. lia.
    + symmetry. apply lookup_ge_None. rewrite length_seq. by apply lookup_ge_None.
Qed.

(** Typed predicates without the constant [i64::MAX], by computation. *)
Ltac typed_table :=
  repeat first
    [ apply List.Forall_nil
    | apply List.Forall_cons
    | split
    | match goal with
      | |- consts_ok _ => unfold consts_ok; cbn [pred_consts flat_map option_list app]
      | |- pred_typed _ _ => constructor
      | |- field_typed _ _ _ => eexists; split; [reflexivity|]
      | |- field_numeric _ _ => eexists; split; [reflexivity|]
      | |- ordered _ = true -> _ => intros ?
      | |- below_max _ = true => reflexivity
      end
    | progress cbn
    | progress unfold typed_as, is_i64, is_uuid, i64_min, i64_max
    | lia | done ].

Lemma unique_table_analysable : analysable (cd_typed_ir unique_table) colour_catalogue.
Proof. apply table_analysable. typed_table. Qed.
Lemma shadowed_table_analysable : analysable (cd_typed_ir shadowed_table) colour_catalogue.
Proof. apply table_analysable. typed_table. Qed.

Definition report_on (c : CompiledDecision) : AnalysisReport :=
  default (mkReport [] (mkCostBound 0 true)) (analyse_with_config true c colour_catalogue default_config).
Lemma row_complete x c : complete table_schema (row x c).
Proof. intros [|[|f]] Hf; [by eexists..|cbn in Hf; lia]. Qed.
Lemma row_members x c : c ∈ [10; 11; 12]%N -> members colour_catalogue (row x c).
Proof.
  intros Hc f d v H. destruct f as [|[|f]]; cbn in H; try done. injection H as <- <-.
  exists [10; 11; 12]%N. split; [vm_compute; reflexivity|done].
Qed.

Lemma analysis_returns_witness :
  ∃ report, analyse_with_config true unique_table colour_catalogue default_config = Some report ∧
    StronglySorted finding_le (findings report) ∧
    (emit_info default_config = false -> Forall (λ fd, fd_severity fd ≠ SevInfo) (findings report)) ∧
    total_predicates (cost_bound report) = 4%N.
Proof. apply (analysis_returns true colour_catalogue unique_table default_config). exact unique_table_analysable. Defined.

Lemma multiple_matches_reported_witness :
  ∃ fd, fd ∈ findings (report_on unique_table) ∧
    ((fd_severity fd = SevError ∧ ∃ r, fd_kind fd = UniqueWithCatchAll r) ∨
     (fd_severity fd = SevWarning ∧ ∃ a b s, fd_kind fd = Overlap a b s ∧ a ∈ [0%nat; 1%nat] ∧ b ∈ [0%nat; 1%nat])).
Proof.
  apply (multiple_matches_reported true colour_catalogue (λ _, "") toy_schema_hash unique_table default_config
           (report_on unique_table) (row 7 10) "").
  - exact unique_table_analysable.
  - vm_compute. reflexivity.
  - apply row_complete.
  - apply row_members. set_solver.
  - vm_compute. reflexivity.
Defined.

Lemma gap_examples_match_no_rule_witness :
  reference_evaluate (λ _, "") toy_schema_hash (cd_typed_ir unique_table)
    (mkInput (Some <$> [TVInteger (-1); TVEnum 1 10]) 2) "" = Some (Err NoMatch).
Proof.
  apply (gap_examples_match_no_rule true colour_catalogue (λ _, "") toy_schema_hash unique_table default_config
           (report_on unique_table) (default (mkFinding SevInfo (CostCeilingExceeded 0 0) no_span "") (findings (report_on unique_table) !! 1%nat))
           (mkGap [[TVInteger (-1); TVEnum 1 10]; [TVInteger 0; TVEnum 1 11]] None) false).
  - exact unique_table_analysable.
  - vm_compute. reflexivity.
  - eexists _, _. split; [vm_compute; reflexivity|]. split; [vm_compute; reflexivity|].
    repeat constructor; unfold bound_ok, nonempty, i64_min, i64_max; cbn; try lia; done.
  - vm_compute. right. left.
  - vm_compute. reflexivity.
  - left.
Defined.

Definition shadowed_result : EvaluationOutput :=
  match reference_evaluate (λ _, "") toy_schema_hash (cd_typed_ir shadowed_table) (row 3 10) "" with
  | Some (Ok ev) => ev
  | _ => mkEvaluation (mkOutput [] 0) (mkTrace [] OutcomeNoMatch)
  end.
Lemma unreachable_rule_never_wins_witness : tr_outcome (ev_trace shadowed_result) ≠ OutcomeMatch 1.
Proof.
  apply (unreachable_rule_never_wins true colour_catalogue (λ _, "") toy_schema_hash shadowed_table default_config
           (report_on shadowed_table)
           (default (mkFinding SevInfo (CostCeilingExceeded 0 0) no_span "") (findings (report_on shadowed_table) !! 0%nat))
           (mkRule 0 "" (Predicates [POr [x_is OpLe 10; x_is OpEq 50] no_span] no_span) [] no_span) 1 0 (row 3 10) "").
  - exact shadowed_table_analysable.
  - vm_compute. reflexivity.
  - vm_compute. left.
  - vm_compute. reflexivity.
  - reflexivity.
  - constructor; [|constructor]. apply (sep_or _ _ 0 (mkField 0 "x" RTInteger no_span)); [done|reflexivity|done|].
    repeat constructor; cbn; set_solver.
  - apply row_complete.
  - apply row_members. set_solver.
  - vm_compute. reflexivity.
Defined.

(** ** Where the analyser is wrong *)

(** [x <= 10] before [x <= 5]: 6 is reported as a gap. *)
Definition nested_table : CompiledDecision := table First [[x_is OpLe 10]; [x_is OpLe 5]].
(** A disjunction over two fields, and a rule it does not cover. *)
Definition mixed_or_table : CompiledDecision :=
  table First [[POr [x_is OpEq 1; c_is OpEq 10] no_span]; [x_is OpEq 7]].
(** Two rules that both accept a null. *)
Definition null_table : CompiledDecision :=
  table Unique [[POr [PIsNull 0 no_span; x_is OpEq 5] no_span]; [PIsNull 0 no_span]].
(** The largest integer. *)
Definition max_table : CompiledDecision :=
  table Unique [[x_is OpGt i64_max; x_is OpLt 6]].

(** Findings the documentation of the analyser rules out.  A gap example
    that a rule accepts (the union of two sets unbounded below is not merged);
    a rule reported unreachable, as an error, that wins; two rules that match
    the same null without an overlap finding; and a panic on the constant
    [i64::MAX] in a build with overflow checks. *)
Lemma analysis_limits :
  (map fd_kind (findings (report_on nested_table))
   = [UnreachableRule 1 0; Gap (mkGap [[TVInteger 6; TVEnum 1 10]] None) false; Overlap 0 1 [OIntegerInterval None (Some 5%Z) false true; OAny]] ∧
   (verdict <$> reference_evaluate (λ _, "") toy_schema_hash (cd_typed_ir nested_table) (row 6 10) "")
   = Some (Ok (mkOutput [] 0, OutcomeMatch 0))) ∧
  (In (UnreachableRule 1 0) (map fd_kind (findings (report_on mixed_or_table))) ∧
   (verdict <$> reference_evaluate (λ _, "") toy_schema_hash (cd_typed_ir mixed_or_table) (row 7 11) "")
   = Some (Ok (mkOutput [] 0, OutcomeMatch 1))) ∧
  (findings (report_on null_table) = [] ∧
   reference_evaluate (λ _, "") toy_schema_hash (cd_typed_ir null_table) (mkInput [None; None] 2) ""
   = Some (Err (MultipleMatches [0%nat; 1%nat]))) ∧
  (analyse true max_table colour_catalogue = None ∧ is_Some (analyse false max_table colour_catalogue)).
Proof.
  split_and!; [vm_compute; reflexivity..|vm_compute; by left|vm_compute; reflexivity|vm_compute; reflexivity|vm_compute; reflexivity|
    vm_compute; reflexivity|vm_compute; by eexists].
Qed.
