(* ===== verification/BpmnIr.v ===== *)
(** * The workflow compiler's intermediate representation

    [bpmn-lite-compiler/src/ir.rs] with the data-object types of
    [bpmn-lite-types/src/ffi_bindings.rs] and [CompiledProgram] of
    [bpmn-lite-types/src/types.rs]: the nodes and edges of the IR graph, the
    graph itself, and the part of [petgraph] the compiler calls.

    [DiGraph<IRNode, IREdge>] is its two tables: a [NodeIndex] is a position in
    [ig_nodes], an [EdgeIndex] one in [ig_edges], both in insertion order.  The
    library's traversals are the operations of the class [PetGraph] and their
    documented behaviour the class [PetGraphLaws]; nothing is said about the
    order in which neighbours are listed, so the theorems hold for every order.
    [pg_ref] is one implementation that satisfies the laws. *)

From S2P Require Import Prelude RustStr Json Types Effects Transition.

(** ** Nodes and edges *)

Inductive GatewayDirection := Diverging | Converging.

Inductive TimerSpec :=
| TSDuration (ms : N)
| TSDate (deadline_ms : N)
| TSCycle (interval_ms max_fires : N).

Inductive ConditionOp := CEq | CNeq | CLt | CGt.

Inductive ConditionLiteral :=
| CLBool (b : bool)
| CLI64 (z : Z).

Record ConditionExpr := {
  ce_flag_name : string;
  ce_op : ConditionOp;
  ce_literal : ConditionLiteral;
}.

(** ** Data objects *)

Inductive PrimitiveType := PTBool | PTI64 | PTF64 | PTString.

Inductive DataObjectType :=
| DOPrimitive (t : PrimitiveType)
| DOSemOsDomain (domain_id : Uuid) (version_hash : Hash).

Inductive DataObjectStorage :=
| DSFlag (key : FlagKey)
| DSDomainPayload (path : list string).

Inductive DataObjectRole := DRInput | DROutput | DRInternal.

Record DataObjectDecl := {
  dod_id : string;
  dod_type_decl : DataObjectType;
  dod_storage : DataObjectStorage;
  dod_role : DataObjectRole;
}.

(** ** Expressions *)

(** [IrLiteral::F64] carries the bits of the float. *)
Inductive IrLiteral :=
| ILBool (b : bool)
| ILI64 (z : Z)
| ILF64 (bits : N)
| ILString (s : string).

Inductive Expression :=
| ELiteral (l : IrLiteral)
| EVarRef (path : list string).

Record FfiInputBinding := {
  fi_target_field : string;
  fi_expression : Expression;
}.

Record FfiOutputBinding := {
  fo_source_field : string;
  fo_target_variable : string;
}.

Inductive IRNode :=
| NStart (id : string)
| NEnd (id : string) (terminate : bool)
| NServiceTask (id name task_type : string)
| NGatewayXor (id name : string)
| NGatewayAnd (id name : string) (direction : GatewayDirection)
| NTimerWait (id : string) (spec : TimerSpec)
| NMessageWait (id name corr_key_source : string)
| NHumanWait (id name task_kind corr_key_source : string)
| NBoundaryTimer (id attached_to : string) (spec : TimerSpec) (interrupting : bool)
    (failure_budget : option N)
| NBoundaryError (id attached_to : string) (error_code : option string)
    (failure_budget : option N)
| NGatewayInclusive (id name : string) (direction : GatewayDirection)
| NDataObject (id name : string) (type_decl : DataObjectType) (role : DataObjectRole)
| NFfiServiceTask (id name : string) (template_id : Hash) (inputs : list FfiInputBinding)
    (outputs : list FfiOutputBinding)
| NSendTask (id name message_name corr_key_source : string)
| NMultiInstance (id name task_type collection_flag_name : string) (declared_max : N).

(** [IRNode::id]. *)
Definition node_id (n : IRNode) : string :=
  match n with
  | NStart id => id
  | NEnd id _ => id
  | NServiceTask id _ _ => id
  | NGatewayXor id _ => id
  | NGatewayAnd id _ _ => id
  | NTimerWait id _ => id
  | NMessageWait id _ _ => id
  | NHumanWait id _ _ _ => id
  | NBoundaryTimer id _ _ _ _ => id
  | NBoundaryError id _ _ _ => id
  | NGatewayInclusive id _ _ => id
  | NDataObject id _ _ _ => id
  | NFfiServiceTask id _ _ _ _ => id
  | NSendTask id _ _ _ => id
  | NMultiInstance id _ _ _ _ => id
  end.

Record IREdge := {
  ie_id : string;
  ie_condition : option ConditionExpr;
}.

(** ** The graph *)

(** [DiGraph]: the node weights, and the edges with source, target and weight. *)
Record IRGraph := mkGraph {
  ig_nodes : list IRNode;
  ig_edges : list (nat * nat * IREdge);
}.

(** [add_node] and [add_edge]; the first returns the new index, the second
    panics on an index that is not a node's ([graph_wf] below). *)
Definition add_node (w : IRNode) (g : IRGraph) : IRGraph * nat :=
  (mkGraph (ig_nodes g ++ [w]) (ig_edges g), length (ig_nodes g)).
Definition add_edge (a b : nat) (w : IREdge) (g : IRGraph) : IRGraph :=
  mkGraph (ig_nodes g) (ig_edges g ++ [(a, b, w)]).

Definition node_count (g : IRGraph) : nat := length (ig_nodes g).
Definition node_indices (g : IRGraph) : list nat := seq 0 (node_count g).
(** [graph[idx]]. *)
Definition node_at (g : IRGraph) (i : nat) : option IRNode := ig_nodes g !! i.
(** [graph[idx].id()]. *)
Definition node_id_at (g : IRGraph) (i : nat) : string :=
  match node_at g i with Some n => node_id n | None => "" end.

(** [find_start]. *)
Definition is_start (n : option IRNode) : bool :=
  match n with Some (NStart _) => true | _ => false end.
Definition find_start (g : IRGraph) : option nat :=
  head (filter (λ i, is_start (node_at g i) = true) (node_indices g)).

(** What [petgraph] maintains: every edge joins two nodes of the graph. *)
Definition graph_wf (g : IRGraph) : Prop :=
  ∀ a b w, (a, b, w) ∈ ig_edges g -> a < node_count g ∧ b < node_count g.

(** There is an edge from [a] to [b]. *)
Definition edge (g : IRGraph) (a b : nat) : Prop := ∃ w, (a, b, w) ∈ ig_edges g.

Definition acyclic (g : IRGraph) : Prop := ∀ n, ¬ tc (edge g) n n.

(** The edges out of and into a node, in insertion order. *)
Definition out_edges (g : IRGraph) (n : nat) : list (nat * IREdge) :=
  omap (λ e : nat * nat * IREdge, let '(a, b, w) := e in
    if decide (a = n) then Some (b, w) else None) (ig_edges g).
Definition in_edges (g : IRGraph) (n : nat) : list (nat * IREdge) :=
  omap (λ e : nat * nat * IREdge, let '(a, b, w) := e in
    if decide (b = n) then Some (a, w) else None) (ig_edges g).

(** ** petgraph *)

(** The calls the compiler makes: [edges_directed(n, Outgoing)] and
    [edges_directed(n, Incoming)] (other endpoint and weight), [neighbors(n)],
    which is [neighbors_directed(n, Outgoing)], [neighbors_directed(n,
    Incoming)], [petgraph::algo::is_cyclic_directed], and the nodes
    [petgraph::visit::Dfs] yields from a start node. *)
Class PetGraph := {
  pg_edges_out : IRGraph -> nat -> list (nat * IREdge);
  pg_edges_in : IRGraph -> nat -> list (nat * IREdge);
  pg_neighbors : IRGraph -> nat -> list nat;
  pg_neighbors_in : IRGraph -> nat -> list nat;
  pg_is_cyclic_directed : IRGraph -> bool;
  pg_dfs : IRGraph -> nat -> list nat;
}.

Class PetGraphLaws (PG : PetGraph) : Prop := {
  pg_edges_out_perm g n : pg_edges_out g n ≡ₚ out_edges g n;
  pg_edges_in_perm g n : pg_edges_in g n ≡ₚ in_edges g n;
  pg_neighbors_perm g n : pg_neighbors g n ≡ₚ (out_edges g n).*1;
  pg_neighbors_in_perm g n : pg_neighbors_in g n ≡ₚ (in_edges g n).*1;
  pg_is_cyclic_spec g : graph_wf g -> pg_is_cyclic_directed g = true ↔ ¬ acyclic g;
  pg_dfs_spec g n m : graph_wf g -> n < node_count g ->
    m ∈ pg_dfs g n ↔ rtc (edge g) n m;
}.

(** ** Compiled programs *)

(** [CompiledProgram], the input of the artifact verifier. *)
Record CompiledProgram := mkProgram {
  cp_bytecode_version : Hash;
  cp_program : list Instr;
  cp_debug_map : gmap N string;
  cp_join_plan : gmap N JoinPlanEntry;
  cp_wait_plan : gmap N WaitPlanEntry;
  cp_message_name_map : gmap N string;
  cp_write_set : gmap string (gset N);
  cp_task_manifest : list string;
  cp_flag_symbol_table : gmap N string;
  cp_data_objects : gmap string DataObjectDecl;
  cp_ffi_task_decls : gmap N FfiTaskDecl;
  cp_v2_ffi_task_decls : gmap N FfiTaskDecl;
  cp_v2_corr_sources : gmap N BindingSource;
  cp_v2_guard_budgets : gmap N ScopeFailureBudget;
  cp_default_guard_budget : ScopeFailureBudget;
  cp_default_retry_policy : RetryPolicy;
}.

(** The side tables [ArtifactEnvelope::from_legacy_program] puts in the
    envelope's metadata, as far as [ArtifactMetadata] carries them. *)
Definition legacy_metadata (p : CompiledProgram) : ArtifactMetadata := {|
  debug_map := cp_debug_map p;
  join_plan := cp_join_plan p;
  wait_plan := cp_wait_plan p;
  message_name_map := cp_message_name_map p;
  task_manifest := cp_task_manifest p;
  ffi_task_decls := cp_ffi_task_decls p;
  v2_ffi_task_decls := cp_v2_ffi_task_decls p;
  v2_corr_sources := cp_v2_corr_sources p;
  v2_guard_budgets := cp_v2_guard_budgets p;
  default_guard_budget := cp_default_guard_budget p;
  default_retry_policy := cp_default_retry_policy p;
|}.

(** ** Loops and casts *)

(** A [for] loop over a vector whose body may run out of fuel. *)
Fixpoint fold_opt {A B} (f : B -> A -> option B) (b : B) (l : list A) : option B :=
  match l with
  | [] => Some b
  | x :: l' => match f b x with Some b' => fold_opt f b' l' | None => None end
  end.

(** [x as u32], [x as u16], and [Addr + u32] in a build without overflow
    checks. *)
Definition as_u32 (n : N) : N := (n mod 4294967296)%N.
Definition as_u16 (n : N) : N := (n mod 65536)%N.
Definition addr_add (a : Addr) (n : N) : Addr := as_u32 (a + n).

(** [iter().enumerate()]. *)
Definition enumerate {A} (l : list A) : list (N * A) := imap (λ i x, (N.of_nat i, x)) l.

(** ** Facts *)

Lemma elem_of_out_edges g n b w : (b, w) ∈ out_edges g n ↔ (n, b, w) ∈ ig_edges g.
Proof.
  unfold out_edges. rewrite list_elem_of_omap. split.
  - intros ([[a b'] w'] & Hin & H). case_decide; naive_solver.
  - intros Hin. exists (n, b, w). split; [done|]. by rewrite decide_True.
Qed.

Lemma elem_of_in_edges g n a w : (a, w) ∈ in_edges g n ↔ (a, n, w) ∈ ig_edges g.
Proof.
  unfold in_edges. rewrite list_elem_of_omap. split.
  - intros ([[a' b] w'] & Hin & H). case_decide; naive_solver.
  - intros Hin. exists (a, n, w). split; [done|]. by rewrite decide_True.
Qed.

Lemma elem_of_out_targets g n b : b ∈ (out_edges g n).*1 ↔ edge g n b.
Proof.
  rewrite list_elem_of_fmap. unfold edge. split.
  - intros ([b' w] & -> & H). exists w. by apply elem_of_out_edges.
  - intros [w H]. exists (b, w). split; [done|]. by apply elem_of_out_edges.
Qed.

Lemma elem_of_in_sources g n a : a ∈ (in_edges g n).*1 ↔ edge g a n.
Proof.
  rewrite list_elem_of_fmap. unfold edge. split.
  - intros ([b' w] & -> & H). exists w. by apply elem_of_in_edges.
  - intros [w H]. exists (a, w). split; [done|]. by apply elem_of_in_edges.
Qed.

Lemma edge_nodes g a b : graph_wf g -> edge g a b -> a < node_count g ∧ b < node_count g.
Proof. intros Hwf [w H]. eauto. Qed.

Lemma elem_of_node_indices g n : n ∈ node_indices g ↔ n < node_count g.
Proof. unfold node_indices. rewrite elem_of_seq. lia. Qed.

Lemma NoDup_node_indices g : NoDup (node_indices g).
Proof. apply NoDup_seq. Qed.

Section laws.
Context {PG : PetGraph} {HL : PetGraphLaws PG}.

Lemma elem_of_edges_out g n b w : (b, w) ∈ pg_edges_out g n ↔ (n, b, w) ∈ ig_edges g.
Proof. by rewrite pg_edges_out_perm, elem_of_out_edges. Qed.

Lemma elem_of_neighbors g n b : b ∈ pg_neighbors g n ↔ edge g n b.
Proof. by rewrite pg_neighbors_perm, elem_of_out_targets. Qed.

Lemma elem_of_neighbors_in g n a : a ∈ pg_neighbors_in g n ↔ edge g a n.
Proof. by rewrite pg_neighbors_in_perm, elem_of_in_sources. Qed.

(** The neighbours and the outgoing edges of a node are equally many. *)
Lemma neighbors_length g n : length (pg_neighbors g n) = length (pg_edges_out g n).
Proof. by rewrite pg_neighbors_perm, pg_edges_out_perm, length_fmap. Qed.

Lemma not_cyclic_acyclic g :
  graph_wf g -> pg_is_cyclic_directed g = false -> acyclic g.
Proof.
  intros Hwf H n Hn.
  assert (Hc : pg_is_cyclic_directed g = true).
  { apply pg_is_cyclic_spec; [done|]. intros Ha. exact (Ha n Hn). }
  congruence.
Qed.
End laws.

(** ** A lawful implementation *)

(** The nodes reachable in at most [k] steps, as petgraph's adjacency lists
    (newest edge first) spell them. *)
Definition reach_step (g : IRGraph) (s : gset nat) : gset nat :=
  s ∪ list_to_set (elements s ≫= λ n, (out_edges g n).*1).
Fixpoint reach_upto (g : IRGraph) (k : nat) (s : gset nat) : gset nat :=
  match k with
  | O => s
  | S k' => reach_upto g k' (reach_step g s)
  end.

Global Instance pg_ref : PetGraph := {|
  pg_edges_out g n := reverse (out_edges g n);
  pg_edges_in g n := reverse (in_edges g n);
  pg_neighbors g n := (reverse (out_edges g n)).*1;
  pg_neighbors_in g n := (reverse (in_edges g n)).*1;
  pg_is_cyclic_directed g :=
    existsb (λ n, bool_decide
      (n ∈ reach_upto g (node_count g) (list_to_set (out_edges g n).*1))) (node_indices g);
  pg_dfs g n := elements (reach_upto g (node_count g) {[n]});
|}.

Lemma elem_of_reach_step g s m :
  m ∈ reach_step g s ↔ m ∈ s ∨ ∃ n, n ∈ s ∧ edge g n m.
Proof.
  unfold reach_step. rewrite elem_of_union, elem_of_list_to_set, list_elem_of_bind.
  setoid_rewrite elem_of_elements. setoid_rewrite elem_of_out_targets. naive_solver.
Qed.

Lemma reach_upto_sound g k s m :
  m ∈ reach_upto g k s -> ∃ n, n ∈ s ∧ rtc (edge g) n m.
Proof.
  revert s; induction k as [|k IH]; intros s; cbn; [by eauto using rtc_refl|].
  intros (n & Hn & Hr)%IH.
  apply elem_of_reach_step in Hn as [Hn|(n' & Hn & He)]; [by eauto|].
  exists n'. split; [done|]. by eapply rtc_l.
Qed.

(** After as many rounds as there are nodes nothing is added any more: each
    round that adds something adds a node. *)
Lemma reach_upto_closed g k s :
  graph_wf g -> (∀ n, n ∈ s -> n < node_count g) -> node_count g <= k + size s ->
  s ⊆ reach_upto g k s ∧
  ∀ n m, n ∈ reach_upto g k s -> edge g n m -> m ∈ reach_upto g k s.
Proof.
  intros Hwf. revert s; induction k as [|k IH]; intros s Hs Hk; cbn.
  - split; [done|]. intros n m Hn He.
    assert (Hsub : s ⊆ list_to_set (node_indices g)).
    { intros x Hx. apply elem_of_list_to_set, elem_of_node_indices. by apply Hs. }
    assert (Heq : s ≡ list_to_set (node_indices g)).
    { apply set_subseteq_size_equiv; [done|].
      rewrite size_list_to_set by apply NoDup_node_indices.
      unfold node_indices. rewrite length_seq. lia. }
    apply Heq, elem_of_list_to_set, elem_of_node_indices.
    by apply (edge_nodes g n m).
  - assert (Hsub : s ⊆ reach_step g s) by (unfold reach_step; set_solver).
    destruct (decide (reach_step g s ⊆ s)) as [Hin|Hout].
    + assert (Heq : reach_step g s = s) by set_solver.
      rewrite Heq. clear IH Hk.
      assert (Hfix : ∀ k, reach_upto g k s = s).
      { intros k'. induction k' as [|k' IH]; [done|]. cbn.
        by rewrite Heq. }
      rewrite Hfix. split; [done|]. intros n m Hn He. rewrite <- Heq.
      apply elem_of_reach_step. eauto.
    + destruct (IH (reach_step g s)) as [H1 H2].
      * intros n [Hn|(n' & _ & He)]%elem_of_reach_step; [by apply Hs|].
        by apply (edge_nodes g n' n).
      * assert (size s < size (reach_step g s)); [|lia].
        apply subset_size. set_solver.
      * split; [set_solver|done].
Qed.

Lemma reach_upto_spec g s m :
  graph_wf g -> (∀ n, n ∈ s -> n < node_count g) ->
  m ∈ reach_upto g (node_count g) s ↔ ∃ n, n ∈ s ∧ rtc (edge g) n m.
Proof.
  intros Hwf Hs. split; [apply reach_upto_sound|]. intros (n & Hn & Hr).
  destruct (reach_upto_closed g (node_count g) s Hwf Hs) as [H1 H2]; [lia|].
  apply H1 in Hn. induction Hr as [|a b c He Hr IH]; [done|]. apply IH. by eapply H2.
Qed.

Lemma tc_first {A} (R : relation A) x z : tc R x z ↔ ∃ y, R x y ∧ rtc R y z.
Proof.
  split.
  - intros H. induction H as [x y|x y z Hxy Hyz IH]; [by eauto using rtc_refl|].
    exists y. split; [done|]. by apply tc_rtc.
  - intros (y & H1 & H2). eapply tc_rtc_r; [by apply tc_once|done].
Qed.

Lemma is_cyclic_ref_spec g :
  graph_wf g -> pg_is_cyclic_directed g = true ↔ ∃ n, tc (edge g) n n.
Proof.
  intros Hwf. cbn. rewrite existsb_exists. setoid_rewrite <- list_elem_of_In.
  setoid_rewrite elem_of_node_indices. setoid_rewrite bool_decide_eq_true.
  assert (Hs : ∀ n m, m ∈ (list_to_set (out_edges g n).*1 : gset nat) ↔ edge g n m).
  { intros n m. by rewrite elem_of_list_to_set, elem_of_out_targets. }
  assert (Hr : ∀ n, n ∈ reach_upto g (node_count g) (list_to_set (out_edges g n).*1) ↔
      tc (edge g) n n).
  { intros n. rewrite reach_upto_spec, tc_first by
      (try done; intros m [_ ?]%Hs%(edge_nodes g n m Hwf); done).
    by setoid_rewrite Hs. }
  setoid_rewrite Hr. split; [naive_solver|]. intros (n & Hn). exists n. split; [|done].
  apply tc_first in Hn as (m & He & _). by apply (edge_nodes g n m).
Qed.

Global Instance pg_ref_laws : PetGraphLaws pg_ref.
Proof.
  split; intros; cbn -[pg_is_cyclic_directed].
  - apply reverse_Permutation.
  - apply reverse_Permutation.
  - by rewrite reverse_Permutation.
  - by rewrite reverse_Permutation.
  - rewrite is_cyclic_ref_spec by done. unfold acyclic. split; [naive_solver|].
    intros Hn. destruct (pg_is_cyclic_directed g) eqn:E; [by apply is_cyclic_ref_spec|].
    exfalso. apply Hn. intros n Ht.
    assert (pg_is_cyclic_directed g = true); [|congruence].
    apply is_cyclic_ref_spec; eauto.
  - cbn. rewrite elem_of_elements, reach_upto_spec; [set_solver | done | set_solver].
Qed.
