(* ===== verification/BpmnVerify.v ===== *)
(** * Admission of an IR graph and of its bytecode

    [bpmn-lite-compiler/src/verifier.rs]: [verify] runs the structural checks
    of the IR in order and collects every error, [check_gateway_and_nesting]
    is its depth-first walk over the parallel and inclusive gateways,
    [verify_data_objects] resolves the FFI bindings, [verify_bytecode] checks
    the jump targets of a lowered program.

    The walk is bounded by a fuel of one more than the number of nodes; it
    returns [None] when that runs out, which [verify_returns] excludes.  The
    per-host tables of checks 7 and 8 are iterated in the order of their
    [HashMap], here some order of the entries. *)

From Stdlib Require Import Strings.Ascii.
From S2P Require Import Prelude RustStr Json Types Effects Transition BpmnIr.

Open Scope string_scope.
Open Scope list_scope.

Record VerifyError := mkVerifyError {
  ve_message : string;
  ve_element_id : option string;
}.

(** [impl Display for VerifyError]. *)
Definition show_verify_error (e : VerifyError) : string :=
  match ve_element_id e with
  | Some id => "[" +:+ id +:+ "] " +:+ ve_message e
  | None => ve_message e
  end.

Definition show_usize (n : nat) : string := show_N (N.of_nat n).
(** A double quote. *)
Definition dquote : string := String (ascii_of_nat 34) EmptyString.
Definition newline : string := String (ascii_of_nat 10) EmptyString.

(** ** Gateway nesting *)

Inductive GatewayKind := GKAnd | GKInclusive.

Global Instance GatewayKind_eq_dec : EqDecision GatewayKind.
Proof. solve_decision. Defined.

(** [impl Display for GatewayKind]. *)
Definition show_kind (k : GatewayKind) : string :=
  match k with GKAnd => "GatewayAnd" | GKInclusive => "GatewayInclusive" end.

Record GatewayClosureTracker := mkTracker {
  all_diverging : gmap string N;
  closed : gset (string * N);
}.

(** The [&mut] state of the walk: [visited], [tracker] and [errors]. *)
Record NestState := mkNest {
  ns_visited : gset nat;
  ns_tracker : GatewayClosureTracker;
  ns_errors : list VerifyError;
}.

Definition ForkStack := list (GatewayKind * string * N).

Definition nest_push_error (e : VerifyError) (st : NestState) : NestState :=
  mkNest (ns_visited st) (ns_tracker st) (ns_errors st ++ [e]).
Definition nest_close (id : string) (branch : N) (st : NestState) : NestState :=
  mkNest (ns_visited st)
    (mkTracker (all_diverging (ns_tracker st)) ({[(id, branch)]} ∪ closed (ns_tracker st)))
    (ns_errors st).
Definition nest_diverging (id : string) (branches : N) (st : NestState) : NestState :=
  mkNest (ns_visited st)
    (mkTracker (<[id := branches]> (all_diverging (ns_tracker st))) (closed (ns_tracker st)))
    (ns_errors st).
Definition nest_visit (n : nat) (st : NestState) : NestState :=
  mkNest ({[n]} ∪ ns_visited st) (ns_tracker st) (ns_errors st).

(** The kind of a converging gateway, of a diverging one. *)
Definition converging_kind (n : option IRNode) : option GatewayKind :=
  match n with
  | Some (NGatewayAnd _ _ Converging) => Some GKAnd
  | Some (NGatewayInclusive _ _ Converging) => Some GKInclusive
  | _ => None
  end.
Definition diverging_kind (n : option IRNode) : option GatewayKind :=
  match n with
  | Some (NGatewayAnd _ _ Diverging) => Some GKAnd
  | Some (NGatewayInclusive _ _ Diverging) => Some GKInclusive
  | _ => None
  end.

Definition check_gateway_nesting_pop (g : IRGraph) (curr : nat) (fork_stack : ForkStack)
    (st : NestState) : ForkStack * NestState :=
  match converging_kind (node_at g curr) with
  | None => (fork_stack, st)
  | Some this_kind =>
      match vec_pop fork_stack with
      | None =>
          (fork_stack, nest_push_error (mkVerifyError
            ("Unmatched " +:+ show_kind this_kind +:+ " (converging): no open diverging "
             +:+ show_kind this_kind +:+ " found — non-well-nested gateway topology")
            (Some (node_id_at g curr))) st)
      | Some (rest, (open_kind, open_id, branch_index)) =>
          if decide (open_kind = this_kind) then (rest, nest_close open_id branch_index st)
          else (rest, nest_push_error (mkVerifyError
            ("Crossing gateway-kind boundaries: " +:+ show_kind this_kind +:+ " (converging) '"
             +:+ node_id_at g curr +:+ "' reached while a nested " +:+ show_kind open_kind +:+ " '"
             +:+ open_id +:+ "' is still open — non-well-nested gateway topology")
            (Some (node_id_at g curr))) st)
      end
  end.

Section verify.
Context {PG : PetGraph}.

Fixpoint check_gateway_and_nesting (fuel : nat) (g : IRGraph) (curr : nat)
    (fork_stack : ForkStack) (st : NestState) : option (ForkStack * NestState) :=
  match fuel with
  | O => None
  | S fuel' =>
      if decide (curr ∈ ns_visited st)
      then Some (check_gateway_nesting_pop g curr fork_stack st)
      else
        let st := nest_visit curr st in
        let diverging := diverging_kind (node_at g curr) in
        (* the pop of a converging node's first arrival; no other node pops *)
        let '(fork_stack, st) := check_gateway_nesting_pop g curr fork_stack st in
        let neighbors := pg_neighbors g curr in
        match diverging with
        | None =>
            if (length neighbors <=? 1)%nat then
              fold_opt (λ '(stack, st) n, check_gateway_and_nesting fuel' g n stack st)
                (fork_stack, st) neighbors
            else
              st ← fold_opt (λ st n,
                     snd <$> check_gateway_and_nesting fuel' g n fork_stack st) st neighbors;
              Some (fork_stack, st)
        | Some kind =>
            let id := node_id_at g curr in
            let st := nest_diverging id (as_u32 (len neighbors)) st in
            st ← fold_opt (λ st bn,
                   snd <$> check_gateway_and_nesting fuel' g (bn.2 : nat)
                     (fork_stack ++ [(kind, id, as_u32 bn.1)]) st) st (enumerate neighbors);
            Some (fork_stack, st)
        end
  end.

(** The ids of the diverging gateways with a branch that was never closed,
    sorted. *)
Definition unclosed (t : GatewayClosureTracker) : list string :=
  merge_sort String.le
    (omap (λ entry : string * N,
       if existsb (λ b, bool_decide ((entry.1, N.of_nat b) ∉ closed t)) (seq 0 (N.to_nat entry.2))
       then Some entry.1 else None)
     (map_to_list (all_diverging t))).

(** Check 4a. *)
Definition check_nesting (g : IRGraph) : option (list VerifyError) :=
  match find_start g with
  | None => Some []
  | Some start_idx =>
      '(_, st) ← check_gateway_and_nesting (S (node_count g)) g start_idx []
                   (mkNest ∅ (mkTracker ∅ ∅) []);
      Some (ns_errors st ++
        match unclosed (ns_tracker st) with
        | [] => []
        | ids => [mkVerifyError
            ("Unclosed diverging gateway node(s) — a branch never reaches its matching converging gateway: ["
             +:+ String.concat ", " ids +:+ "]") None]
        end)
  end.

(** ** The structural checks *)

(** The nodes of the graph for which [p] holds, by index. *)
Definition indices_where (g : IRGraph) (p : IRNode -> bool) : list nat :=
  filter (λ i, match node_at g i with Some n => p n | None => false end = true) (node_indices g).

(** One [for idx in graph.node_indices()] loop that pushes errors. *)
Definition for_nodes (g : IRGraph) (f : nat -> IRNode -> list VerifyError) : list VerifyError :=
  node_indices g ≫= λ i, match node_at g i with Some n => f i n | None => [] end.

(** Check 0: [seen.insert(id)] is false on the second occurrence. *)
Definition duplicate_errors (what : string) (ids : list string) : list VerifyError :=
  (foldl (λ (acc : gset string * list VerifyError) id,
     if decide (id ∈ acc.1)
     then (acc.1, acc.2 ++ [mkVerifyError (what +:+ " '" +:+ id +:+ "'") (Some id)])
     else ({[id]} ∪ acc.1, acc.2)) (∅, []) ids).2.

Definition check_unique_ids (g : IRGraph) : list VerifyError :=
  duplicate_errors "Duplicate node id" (node_id_at g <$> node_indices g) ++
  duplicate_errors "Duplicate sequence-flow id" ((λ e, ie_id e.2) <$> ig_edges g).

Definition is_start_node (n : IRNode) : bool := match n with NStart _ => true | _ => false end.
Definition is_end_node (n : IRNode) : bool := match n with NEnd _ _ => true | _ => false end.
Definition is_boundary (n : IRNode) : bool :=
  match n with NBoundaryTimer _ _ _ _ _ | NBoundaryError _ _ _ _ => true | _ => false end.
Definition is_data_object (n : IRNode) : bool :=
  match n with NDataObject _ _ _ _ => true | _ => false end.
Definition is_fork (n : IRNode) : bool :=
  match n with NGatewayAnd _ _ Diverging => true | _ => false end.
Definition is_join (n : IRNode) : bool :=
  match n with NGatewayAnd _ _ Converging => true | _ => false end.

(** Check 1. *)
Definition check_starts (starts : list nat) : list VerifyError :=
  match starts with
  | [] => [mkVerifyError "No StartEvent found" None]
  | [_] => []
  | _ => [mkVerifyError ("Multiple StartEvents found (" +:+ show_usize (length starts) +:+ ")") None]
  end.

(** Check 2. *)
Definition check_ends (ends : list nat) : list VerifyError :=
  match ends with
  | [] => [mkVerifyError "No EndEvent found" None]
  | _ => []
  end.

(** Check 2b. *)
Definition check_cycles (g : IRGraph) : list VerifyError :=
  if pg_is_cyclic_directed g then
    [mkVerifyError "Graph contains a cycle — raw sequence-flow back edges are not supported; express a bounded loop via multi-instance or a cyclic boundary timer instead" None]
  else [].

(** Check 3: a walk from the start node, then one from each boundary node not
    reached yet. *)
Definition reachable_set (g : IRGraph) (start_idx : nat) : gset nat :=
  foldl (λ reachable idx,
    if match node_at g idx with Some n => is_boundary n | None => false end
       && negb (bool_decide (idx ∈ reachable))
    then {[idx]} ∪ reachable ∪ list_to_set (pg_dfs g idx)
    else reachable)
    (list_to_set (pg_dfs g start_idx)) (node_indices g).

Definition check_reachable (g : IRGraph) (starts : list nat) : list VerifyError :=
  match starts with
  | [] => []
  | start_idx :: _ =>
      let reachable := reachable_set g start_idx in
      for_nodes g (λ idx n,
        if is_data_object n then []
        else if decide (idx ∈ reachable) then []
        else [mkVerifyError ("Unreachable node: " +:+ node_id n) (Some (node_id n))])
  end.

(** Check 4. *)
Definition check_fork_count (forks joins : list nat) : list VerifyError :=
  if decide (length forks = length joins) then [] else
  [mkVerifyError ("Mismatched parallel gateways: " +:+ show_usize (length forks) +:+ " forks, "
     +:+ show_usize (length joins) +:+ " joins") None].

(** Check 5. *)
Definition check_task_types (g : IRGraph) : list VerifyError :=
  for_nodes g (λ _ n,
    match n with
    | NServiceTask id _ EmptyString =>
        [mkVerifyError "ServiceTask has empty task_type" (Some id)]
    | _ => []
    end).

(** Check 6. *)
Definition check_xor_defaults (g : IRGraph) : list VerifyError :=
  for_nodes g (λ idx n,
    match n with
    | NGatewayXor id _ =>
        let outgoing := pg_edges_out g idx in
        if (1 <? length outgoing)%nat then
          let with_condition :=
            length (filter (λ e : nat * IREdge, is_Some (ie_condition e.2)) outgoing) in
          let without_condition := (length outgoing - with_condition)%nat in
          if decide (without_condition = 1%nat) then []
          else [mkVerifyError ("XOR gateway should have exactly 1 default edge, found "
                  +:+ show_usize without_condition) (Some id)]
        else []
    | _ => []
    end).

(** [map.entry(key).or_default().push(id)]. *)
Definition entry_push `{Countable K} (key : K) (id : string) (m : gmap K (list string))
  : gmap K (list string) :=
  <[key := default [] (m !! key) ++ [id]]> m.

(** The nodes a boundary timer may be attached to (7a), and an error (8a). *)
Definition hosts_timer (attached_to : string) (n : IRNode) : bool :=
  match n with
  | NServiceTask id _ _ | NFfiServiceTask id _ _ _ _ | NMessageWait id _ _
  | NHumanWait id _ _ _ => bool_decide (id = attached_to)
  | _ => false
  end.
Definition hosts_error (attached_to : string) (n : IRNode) : bool :=
  match n with
  | NServiceTask id _ _ | NFfiServiceTask id _ _ _ _ => bool_decide (id = attached_to)
  | _ => false
  end.

(** Checks 7a-7c for one node. *)
Definition check_boundary_timer (g : IRGraph) (idx : nat) (n : IRNode) : list VerifyError :=
  match n with
  | NBoundaryTimer id attached_to spec interrupting _ =>
      (if existsb (hosts_timer attached_to) (ig_nodes g) then [] else
       [mkVerifyError ("BoundaryTimer '" +:+ id +:+ "' attachedToRef '" +:+ attached_to
          +:+ "' does not reference a task") (Some id)]) ++
      (match spec with
       | TSCycle _ _ =>
           if interrupting then
             [mkVerifyError ("BoundaryTimer '" +:+ id
                +:+ "': cycle timers must be non-interrupting (cancelActivity=" +:+ dquote
                +:+ "false" +:+ dquote +:+ ")") (Some id)]
           else []
       | _ => []
       end) ++
      (if decide (length (pg_edges_out g idx) = 0%nat) then
         [mkVerifyError ("BoundaryTimer '" +:+ id +:+ "' has no outgoing sequence flow") (Some id)]
       else [])
  | _ => []
  end.

Definition host_boundary_count (g : IRGraph) : gmap string (list string) :=
  foldl (λ m n, match n with
                | NBoundaryTimer id attached_to _ _ _ => entry_push attached_to id m
                | _ => m
                end) ∅ (ig_nodes g).

(** Check 7. *)
Definition check_boundary_timers (g : IRGraph) : list VerifyError :=
  for_nodes g (check_boundary_timer g) ++
  (map_to_list (host_boundary_count g) ≫= λ '(host_id, boundary_ids),
     if (1 <? length boundary_ids)%nat then
       [mkVerifyError ("Task '" +:+ host_id +:+ "' has " +:+ show_usize (length boundary_ids)
          +:+ " boundary timers (max 1 supported in this version): ["
          +:+ String.concat ", " boundary_ids +:+ "]") (Some host_id)]
     else []).

(** Checks 8a and 8b for one node. *)
Definition check_boundary_error (g : IRGraph) (idx : nat) (n : IRNode) : list VerifyError :=
  match n with
  | NBoundaryError id attached_to _ _ =>
      (if existsb (hosts_error attached_to) (ig_nodes g) then [] else
       [mkVerifyError ("BoundaryError '" +:+ id +:+ "' attachedToRef '" +:+ attached_to
          +:+ "' does not reference a task") (Some id)]) ++
      (let outgoing := length (pg_edges_out g idx) in
       if decide (outgoing = 1%nat) then [] else
       [mkVerifyError ("BoundaryError '" +:+ id +:+ "' must have exactly 1 outgoing edge, found "
          +:+ show_usize outgoing) (Some id)])
  | _ => []
  end.

Definition host_catch_all_count (g : IRGraph) : gmap string (list string) :=
  foldl (λ m n, match n with
                | NBoundaryError id attached_to None _ => entry_push attached_to id m
                | _ => m
                end) ∅ (ig_nodes g).
Definition host_specific_code_ids (g : IRGraph) : gmap (string * string) (list string) :=
  foldl (λ m n, match n with
                | NBoundaryError id attached_to (Some code) _ =>
                    entry_push (attached_to, code) id m
                | _ => m
                end) ∅ (ig_nodes g).

(** Check 8. *)
Definition check_boundary_errors (g : IRGraph) : list VerifyError :=
  for_nodes g (check_boundary_error g) ++
  (map_to_list (host_catch_all_count g) ≫= λ '(host_id, ids),
     if (1 <? length ids)%nat then
       [mkVerifyError ("Task '" +:+ host_id +:+ "' has " +:+ show_usize (length ids)
          +:+ " catch-all error boundaries (max 1): [" +:+ String.concat ", " ids +:+ "]")
          (Some host_id)]
     else []) ++
  (map_to_list (host_specific_code_ids g) ≫= λ '((host_id, code), ids),
     if (1 <? length ids)%nat then
       [mkVerifyError ("Task '" +:+ host_id +:+ "' has " +:+ show_usize (length ids)
          +:+ " error boundaries for code '" +:+ code +:+ "' (max 1): ["
          +:+ String.concat ", " ids +:+ "]") (Some host_id)]
     else []).

(** Check 9. *)
Definition check_inclusive (g : IRGraph) : list VerifyError :=
  for_nodes g (λ idx n,
    match n with
    | NGatewayInclusive id _ Diverging =>
        let outgoing := length (pg_edges_out g idx) in
        if (outgoing <? 2)%nat then
          [mkVerifyError ("Inclusive gateway (diverging) must have ≥2 outgoing edges, found "
             +:+ show_usize outgoing) (Some id)]
        else []
    | NGatewayInclusive id _ Converging =>
        let incoming := length (pg_edges_in g idx) in
        let outgoing := length (pg_edges_out g idx) in
        (if (incoming <? 2)%nat then
           [mkVerifyError ("Inclusive gateway (converging) must have ≥2 incoming edges, found "
              +:+ show_usize incoming) (Some id)]
         else []) ++
        (if decide (outgoing = 1%nat) then [] else
           [mkVerifyError ("Inclusive gateway (converging) must have exactly 1 outgoing edge, found "
              +:+ show_usize outgoing) (Some id)])
    | _ => []
    end).

(** ** Data objects *)

Definition declared_objects (g : IRGraph) : gset string :=
  list_to_set (omap (λ n, match n with NDataObject id _ _ _ => Some id | _ => None end) (ig_nodes g)).

Definition check_input (declared : gset string) (id : string) (b : FfiInputBinding)
  : list VerifyError :=
  match fi_expression b with
  | EVarRef path =>
      let first := default "" (head path) in
      if decide (first ∈ declared) then [] else
      [mkVerifyError ("unresolved input var ref '" +:+ String.concat "." path +:+ "' in task '"
         +:+ id +:+ "': no data object with id '" +:+ first +:+ "'") (Some id)]
  | ELiteral _ => []
  end.

Definition check_output (declared : gset string) (id : string) (b : FfiOutputBinding)
  : list VerifyError :=
  let target := fo_target_variable b in
  if decide (target ∈ declared) then [] else
  [mkVerifyError ("unresolved output target '" +:+ target +:+ "' in task '" +:+ id
     +:+ "': no data object with id '" +:+ target +:+ "'") (Some id)].

Definition verify_data_objects (g : IRGraph) : list VerifyError :=
  duplicate_errors "duplicate data-object id:"
    (omap (λ n, match n with NDataObject id _ _ _ => Some id | _ => None end) (ig_nodes g)) ++
  for_nodes g (λ _ n,
    match n with
    | NFfiServiceTask id _ _ inputs outputs =>
        (inputs ≫= check_input (declared_objects g) id) ++
        (outputs ≫= check_output (declared_objects g) id)
    | _ => []
    end).

(** ** The entry points *)

Definition verify (g : IRGraph) : option (list VerifyError) :=
  let starts := indices_where g is_start_node in
  let ends := indices_where g is_end_node in
  nesting ← check_nesting g;
  Some (check_unique_ids g ++
        check_starts starts ++
        check_ends ends ++
        check_cycles g ++
        check_reachable g starts ++
        check_fork_count (indices_where g is_fork) (indices_where g is_join) ++
        nesting ++
        check_task_types g ++
        check_xor_defaults g ++
        check_boundary_timers g ++
        check_boundary_errors g ++
        check_inclusive g ++
        verify_data_objects g).

Definition verify_or_err (g : IRGraph) : option (Result string unit) :=
  errors ← verify g;
  Some match errors with
  | [] => Ok tt
  | _ => Err ("Verification failed:" +:+ newline
              +:+ String.concat newline (show_verify_error <$> errors))
  end.
End verify.

(** ** Bytecode *)

Definition check_target (p : CompiledProgram) (addr target program_len : Addr)
  : list VerifyError :=
  if (program_len <=? target)%N then
    [mkVerifyError ("Bytecode target out of bounds at addr " +:+ show_N addr +:+ ": target "
       +:+ show_N target +:+ " >= program len " +:+ show_N program_len) (cp_debug_map p !! addr)]
  else [].

Definition check_forward_jump (p : CompiledProgram) (addr target : Addr) : list VerifyError :=
  if (target <? addr)%N then
    [mkVerifyError ("Backward jump at addr " +:+ show_N addr +:+ " to " +:+ show_N target
       +:+ " — only BrCounterLt may jump backward") (cp_debug_map p !! addr)]
  else [].

Definition verify_instr (p : CompiledProgram) (program_len addr : Addr) (i : Instr)
  : list VerifyError :=
  match i with
  | IJump target | IBrIf target | IBrIfNot target =>
      check_target p addr target program_len ++ check_forward_jump p addr target
  | IBrCounterLt _ _ target => check_target p addr target program_len
  | IV2Fork targets _ => targets ≫= λ target, check_target p addr target program_len
  | _ => []
  end.

Definition verify_bytecode (p : CompiledProgram) : list VerifyError :=
  let program_len := as_u32 (len (cp_program p)) in
  enumerate (cp_program p) ≫= λ ai, verify_instr p program_len (as_u32 ai.1) ai.2.
