(* ===== verification/BpmnLower.v ===== *)
(** * Lowering an IR graph to bytecode

    [bpmn-lite-compiler/src/lowering.rs] and [Compiler::lower_with_default] of
    [lib.rs]: post-dominators, the region map and the layout order they give,
    the gateway pairing, the address assignment, and the emission of each
    node's instructions with the side tables of the program.

    [std::time::SystemTime::now] and the JSON text of the instructions (the
    input of the version hash) are arguments.  The emission pass is a state
    monad with errors, [LM]: the [&mut] tables of the pass are [LowerState],
    [LReject] is an [anyhow] error and [LPanic] an index of a map or an
    [expect] that fails (debug assertions are off).  The loops of the dominance computation and of the
    layout take a fuel, [None] when it runs out; [BpmnDominators] and
    [BpmnLayout] show that it does not. *)

From Stdlib Require Import Strings.Ascii.
From S2P Require Import Prelude RustStr Json Types Platform Effects Transition Verifier BpmnIr BpmnVerify.

Open Scope string_scope.
Open Scope list_scope.

(** The [visited] and [order] of the layout. *)
Notation LayoutState := (gset nat * list nat)%type (only parsing).

(** ** Post-dominators *)

Section structure.
Context {PG : PetGraph}.

(** [work]: the graph with a virtual exit every sink has an edge to. *)
Definition virtual_exit_node : IRNode := NEnd "__pdom_virtual_exit__" false.
Definition virtual_edge : IREdge := {| ie_id := "__pdom_virtual_edge__"; ie_condition := None |}.
Definition sinks (g : IRGraph) : list nat :=
  filter (λ i, pg_edges_out g i = []) (node_indices g).
Definition pdom_work (g : IRGraph) : IRGraph * nat :=
  let '(work, virtual_exit) := add_node virtual_exit_node g in
  (foldl (λ w sink, add_edge sink virtual_exit virtual_edge w) work (sinks g), virtual_exit).

(** The explicit-stack depth-first walk, the top of the stack first. *)
Fixpoint pdom_dfs (fuel : nat) (work : IRGraph) (stack : list (nat * bool)) (visited : gset nat)
    (postorder : list nat) : option (list nat) :=
  match stack with
  | [] => Some postorder
  | (node, expanded) :: stack' =>
      match fuel with
      | O => None
      | S fuel' =>
          if (expanded : bool) then pdom_dfs fuel' work stack' visited (postorder ++ [node])
          else if decide (node ∈ visited) then pdom_dfs fuel' work stack' visited postorder
          else
            let visited := {[node]} ∪ visited in
            let stack := foldl (λ st child,
                           if decide (child ∈ visited) then st else (child, false) :: st)
                         ((node, true) :: stack') (pg_neighbors_in work node) in
            pdom_dfs fuel' work stack visited postorder
      end
  end.

(** Each node is expanded once, pushing itself and its unvisited children. *)
Definition pdom_fuel (work : IRGraph) : nat :=
  S (sum_list_with (λ n, S (length (pg_neighbors_in work n))) (node_indices work)).
Definition pdom_rpo (work : IRGraph) (virtual_exit : nat) : option (list nat) :=
  reverse <$> pdom_dfs (pdom_fuel work) work [(virtual_exit, false)] ∅ [].

Definition rpo_index (rpo : list nat) : gmap nat nat :=
  list_to_map (imap (λ i n, (n, i)) rpo).

(** [while rpo_index[&a] > rpo_index[&b] { a = idom[&a] }]. *)
Fixpoint climb (fuel : nat) (idom index : gmap nat nat) (a b : nat) : option nat :=
  ia ← index !! a;
  ib ← index !! b;
  if (ib <? ia)%nat then
    match fuel with
    | O => None
    | S fuel' => a' ← idom !! a; climb fuel' idom index a' b
    end
  else Some a.

Fixpoint intersect (fuel : nat) (idom index : gmap nat nat) (a b : nat) : option nat :=
  if decide (a = b) then Some a else
  match fuel with
  | O => None
  | S fuel' =>
      a ← climb (size index) idom index a b;
      b ← climb (size index) idom index b a;
      intersect fuel' idom index a b
  end.

(** The two loops over [rpo.iter().skip(1)] and over a node's predecessors. *)
Definition pdom_pred (idom index : gmap nat nat) (new_idom : option nat) (pred : nat)
  : option (option nat) :=
  match idom !! pred with
  | None => Some new_idom
  | Some _ =>
      match new_idom with
      | None => Some (Some pred)
      | Some existing => Some <$> intersect (size index) idom index existing pred
      end
  end.
Definition pdom_node (work : IRGraph) (index idom : gmap nat nat) (node : nat)
  : option (gmap nat nat) :=
  new_idom ← fold_opt (pdom_pred idom index) None (pg_neighbors work node);
  Some match new_idom with
  | Some chosen => <[node := chosen]> idom
  | None => idom
  end.
Definition pdom_idom (work : IRGraph) (virtual_exit : nat) (rpo : list nat)
  : option (gmap nat nat) :=
  fold_opt (pdom_node work (rpo_index rpo)) {[virtual_exit := virtual_exit]} (drop 1 rpo).

Definition compute_post_dominators (g : IRGraph) : option (gmap nat nat) :=
  let '(work, virtual_exit) := pdom_work g in
  rpo ← pdom_rpo work virtual_exit;
  idom ← pdom_idom work virtual_exit rpo;
  Some (filter (λ nv : nat * nat, nv.2 ≠ virtual_exit) (delete virtual_exit idom)).

(** ** Layout order *)

Definition compute_region_map (g : IRGraph) (post_doms : gmap nat nat) : gmap nat nat :=
  list_to_map (omap (λ idx,
    if (1 <? length (pg_edges_out g idx))%nat
    then (λ merge, (idx, merge)) <$> post_doms !! idx
    else None) (node_indices g)).

Fixpoint layout_region (fuel : nat) (g : IRGraph) (region_map : gmap nat nat) (node : nat)
    (stop_at : option nat) (st : LayoutState) : option LayoutState :=
  if decide (Some node = stop_at) then Some st
  else if decide (node ∈ st.1) then Some st
  else match fuel with
  | O => None
  | S fuel' =>
      let st := ({[node]} ∪ st.1, st.2 ++ [node]) in
      let neighbors := pg_neighbors g node in
      match neighbors with
      | [] => Some st
      | [next] => layout_region fuel' g region_map next stop_at st
      | _ =>
          match region_map !! node with
          | Some merge =>
              st ← fold_opt (λ st n, layout_region fuel' g region_map n (Some merge) st) st neighbors;
              layout_region fuel' g region_map merge stop_at st
          | None =>
              fold_opt (λ st n, layout_region fuel' g region_map n stop_at st) st neighbors
          end
      end
  end.

Definition structured_order (g : IRGraph) (start : nat) (region_map : gmap nat nat)
  : option (list nat) :=
  st ← layout_region (node_count g) g region_map start None (∅, []);
  st ← fold_opt (λ st idx,
         if decide (idx ∈ st.1) then Some st
         else layout_region (node_count g) g region_map idx None st) st (node_indices g);
  Some st.2.

Definition get_successors (g : IRGraph) (node : nat) : list nat := pg_neighbors g node.

(** ** Gateway pairing *)

Definition kinds_pair (a b : option IRNode) : bool :=
  match a, b with
  | Some (NGatewayAnd _ _ Diverging), Some (NGatewayAnd _ _ Converging) => true
  | Some (NGatewayInclusive _ _ Diverging), Some (NGatewayInclusive _ _ Converging) => true
  | _, _ => false
  end.

Definition gateway_pairs (g : IRGraph) : option (gmap nat nat) :=
  post_doms ← compute_post_dominators g;
  Some (foldl (λ pairs diverging_idx,
    match post_doms !! diverging_idx with
    | None => pairs
    | Some join_idx =>
        if kinds_pair (node_at g diverging_idx) (node_at g join_idx)
        then <[diverging_idx := join_idx]> pairs else pairs
    end) ∅ (node_indices g)).

(** ** Instruction counts *)

Record InclusiveBranchInfo := { always_live : bool }.

Definition collect_inclusive_branches (g : IRGraph) (order : list nat)
  : gmap nat (list InclusiveBranchInfo) :=
  foldl (λ result node_idx,
    match node_at g node_idx with
    | Some (NGatewayInclusive _ _ Diverging) =>
        <[node_idx := (λ e : nat * IREdge,
             {| always_live := bool_decide (ie_condition e.2 = None) |}) <$> pg_edges_out g node_idx]> result
    | _ => result
    end) ∅ order.

Definition inclusive_precheck_len (branches : list InclusiveBranchInfo) : N :=
  if existsb always_live branches then 0 else
  let conditional_count := as_u32 (len (filter (λ b, always_live b = false) branches)) in
  as_u32 (sat_mul u32_max conditional_count 2 + 1).

Definition inclusive_diverging_instr_count (branches : list InclusiveBranchInfo) : N :=
  let headers := foldr N.add 0%N ((λ b, if always_live b then 1%N else 3%N) <$> branches) in
  as_u32 (inclusive_precheck_len branches + 1 + headers).

Definition estimate_instr_count (g : IRGraph) (node : nat) : N :=
  match node_at g node with
  | Some (NStart _) => 1
  | Some (NEnd _ _) => 1
  | Some (NServiceTask _ _ _) => 2
  | Some (NGatewayXor _ _) =>
      let outgoing := as_u32 (len (pg_edges_out g node)) in
      as_u32 (N.max (as_u32 (outgoing * 2)) 1 + 1)
  | Some (NGatewayAnd _ _ Diverging) => 1
  | Some (NGatewayAnd _ _ Converging) => 2
  | Some (NGatewayInclusive _ _ _) => 1
  | Some (NTimerWait _ _) => 3
  | Some (NMessageWait _ _ _) => 2
  | Some (NHumanWait _ _ _ _) => 2
  | Some (NBoundaryTimer _ _ _ _ _) => 0
  | Some (NBoundaryError _ _ _ _) => 0
  | Some (NDataObject _ _ _ _) => 0
  | Some (NFfiServiceTask _ _ _ _ _) => 2
  | Some (NSendTask _ _ _ _) => 2
  | Some (NMultiInstance _ _ _ _ _) => 0
  | None => 0
  end%N.

Definition BoundaryLookup := gmap string (nat * TimerSpec).
Definition BoundaryErrorLookup := gmap string (list (nat * option string)).

Definition is_cycle (spec : TimerSpec) : bool :=
  match spec with TSCycle _ _ => true | _ => false end.

(** The tables the first pass builds, read by everything that follows. *)
Record LowerTables := mkTables {
  boundary_lookup : BoundaryLookup;
  boundary_error_lookup : BoundaryErrorLookup;
  inclusive_branches : gmap nat (list InclusiveBranchInfo);
  guardn_close_before_end : gset nat;
}.

(** The count of a task or wait that may carry boundary events. *)
Definition guarded_instr_count (t : LowerTables) (id : string) (base : N) : N :=
  let timer := boundary_lookup t !! id in
  let error_count := length (default [] (boundary_error_lookup t !! id)) in
  match timer, error_count with
  | None, O => base
  | _, _ =>
      let extra := (2 + match timer with
                        | Some (_, spec) => 2 + (if is_cycle spec then 1 else 0)
                        | None => 0
                        end + as_u32 (N.of_nat error_count))%N in
      as_u32 (base + extra)
  end.

Definition instr_count_for (g : IRGraph) (t : LowerTables) (node_idx : nat) : N :=
  match node_at g node_idx with
  | Some (NServiceTask id _ _) | Some (NFfiServiceTask id _ _ _ _)
  | Some (NMessageWait id _ _) | Some (NHumanWait id _ _ _) =>
      guarded_instr_count t id (estimate_instr_count g node_idx)
  | Some (NGatewayInclusive _ _ Diverging) =>
      inclusive_diverging_instr_count (default [] (inclusive_branches t !! node_idx))
  | Some (NGatewayInclusive _ _ Converging) => 2
  | Some (NMultiInstance _ _ _ _ declared_max) => as_u32 (sat_mul u32_max declared_max 6 + 4)
  | Some (NEnd _ _) =>
      if decide (node_idx ∈ guardn_close_before_end t)
      then estimate_instr_count g node_idx + 1 else estimate_instr_count g node_idx
  | _ => estimate_instr_count g node_idx
  end%N.

(** ** The first pass *)

Definition build_boundary_lookup (g : IRGraph) (order : list nat) : BoundaryLookup :=
  foldl (λ m node_idx,
    match node_at g node_idx with
    | Some (NBoundaryTimer _ attached_to spec _ _) => <[attached_to := (node_idx, spec)]> m
    | _ => m
    end) ∅ order.

Definition build_boundary_error_lookup (g : IRGraph) (order : list nat) : BoundaryErrorLookup :=
  foldl (λ m node_idx,
    match node_at g node_idx with
    | Some (NBoundaryError _ attached_to error_code _) =>
        <[attached_to := default [] (m !! attached_to) ++ [(node_idx, error_code)]]> m
    | _ => m
    end) ∅ order.

Definition is_interrupting (g : IRGraph) (idx : nat) : bool :=
  match node_at g idx with
  | Some (NBoundaryTimer _ _ _ true _) => true
  | _ => false
  end.

(** The walk along single successors to an escalation's end event; the fuel is
    the bound the loop itself keeps on its steps. *)
Fixpoint escalation_end (fuel : nat) (g : IRGraph) (cursor : option nat) : option nat :=
  match fuel, cursor with
  | S fuel', Some idx =>
      match node_at g idx with
      | Some (NEnd _ _) => Some idx
      | _ =>
          match get_successors g idx with
          | [next] => escalation_end fuel' g (Some next)
          | _ => None
          end
      end
  | _, _ => None
  end.

Definition build_guardn_close (g : IRGraph) (lookup : BoundaryLookup) : gset nat :=
  list_to_set (omap (λ entry : string * (nat * TimerSpec),
    let host_idx := entry.2.1 in
    if is_interrupting g host_idx then None
    else escalation_end (node_count g) g (head (get_successors g host_idx)))
    (map_to_list lookup)).

Definition build_tables (g : IRGraph) (order : list nat) : LowerTables :=
  let lookup := build_boundary_lookup g order in
  mkTables lookup (build_boundary_error_lookup g order) (collect_inclusive_branches g order)
    (build_guardn_close g lookup).

(** [node_addr]: a base address for every node, in layout order. *)
Definition assign_addresses (g : IRGraph) (t : LowerTables) (order : list nat) : gmap nat N :=
  (foldl (λ (acc : gmap nat N * N) node_idx,
     (<[node_idx := acc.2]> acc.1, addr_add acc.2 (instr_count_for g t node_idx)))
     (∅, 0%N) order).1.

(** The maps [compute_gateway_pairing] returns. *)
Record Pairing := mkPairing {
  fork_pairing : gmap nat N;
  inclusive_join_addr : gmap nat N;
  inclusive_fork_addr : gmap nat N;
}.

(** One diverging gateway of its loop; an address that is missing from
    [node_addr] panics. *)
Definition pair_gateway (g : IRGraph) (post_doms : gmap nat nat) (node_addr : gmap nat N)
    (t : LowerTables) (p : Pairing) (diverging_idx : nat) : option Pairing :=
  match post_doms !! diverging_idx with
  | None => Some p
  | Some join_idx =>
      match node_at g diverging_idx, node_at g join_idx with
      | Some (NGatewayAnd _ _ Diverging), Some (NGatewayAnd _ _ Converging) =>
          fork ← node_addr !! diverging_idx;
          Some (mkPairing (<[join_idx := fork]> (fork_pairing p)) (inclusive_join_addr p)
                 (inclusive_fork_addr p))
      | Some (NGatewayInclusive _ _ Diverging), Some (NGatewayInclusive _ _ Converging) =>
          join ← node_addr !! join_idx;
          fork ← node_addr !! diverging_idx;
          let precheck_len :=
            from_option inclusive_precheck_len 0%N (inclusive_branches t !! diverging_idx) in
          Some (mkPairing (fork_pairing p) (<[diverging_idx := join]> (inclusive_join_addr p))
                 (<[join_idx := addr_add fork precheck_len]> (inclusive_fork_addr p)))
      | _, _ => Some p
      end
  end.
Definition compute_gateway_pairing (g : IRGraph) (post_doms : gmap nat nat)
    (node_addr : gmap nat N) (t : LowerTables) : option Pairing :=
  fold_opt (pair_gateway g post_doms node_addr t) (mkPairing ∅ ∅ ∅) (node_indices g).

Definition boundary_failure_budget (g : IRGraph) (idx : nat) : option N :=
  match node_at g idx with
  | Some (NBoundaryTimer _ _ _ _ failure_budget) => failure_budget
  | Some (NBoundaryError _ _ _ failure_budget) => failure_budget
  | _ => None
  end.
End structure.

(** ** The emission pass: state and errors *)

Inductive LowerError :=
| LReject (message : string)
| LMalformedKey (source : string)
| LPanic (what : string).

Record LowerState := mkLower {
  ls_task_intern : gmap string N;
  ls_task_manifest : list string;
  ls_flag_intern : gmap string N;
  ls_instructions : list Instr;
  ls_debug_map : gmap N string;
  ls_message_name_map : gmap N string;
  ls_ffi_task_decls : gmap N FfiTaskDecl;
  ls_v2_corr_sources : gmap N BindingSource;
  ls_v2_guard_budgets : gmap N ScopeFailureBudget;
}.

Definition LM (A : Type) : Type := LowerState -> Result LowerError (A * LowerState).

Global Instance LM_ret : MRet LM := λ A a s, Ok (a, s).
Global Instance LM_bind : MBind LM := λ A B f m s,
  match m s with Ok (a, s') => f a s' | Err e => Err e end.

Definition lm_fail {A} (e : LowerError) : LM A := λ _, Err e.
(** [r?] and [o.ok_or_else(..)?]. *)
Definition lm_lift {A} (r : Result LowerError A) : LM A := λ s,
  match r with Ok a => Ok (a, s) | Err e => Err e end.
Definition lm_ok_or {A} (message : string) (o : option A) : LM A := lm_lift (ok_or (LReject message) o).
Definition lm_expect {A} (what : string) (o : option A) : LM A := lm_lift (ok_or (LPanic what) o).

(** [for x in l { .. }] with [?] inside. *)
Fixpoint lm_for {A} (f : A -> LM unit) (l : list A) : LM unit :=
  match l with
  | [] => mret tt
  | x :: l' => f x ≫= λ _, lm_for f l'
  end.

(** [Addr::new(instructions.len() as u32)]. *)
Definition here : LM Addr := λ s, Ok (as_u32 (len (ls_instructions s)), s).

(** [instructions.push(i)] and the insertions in the side tables. *)
Definition emit (i : Instr) : LM unit := λ s,
  Ok (tt, mkLower (ls_task_intern s) (ls_task_manifest s) (ls_flag_intern s)
    (ls_instructions s ++ [i]) (ls_debug_map s) (ls_message_name_map s) (ls_ffi_task_decls s)
    (ls_v2_corr_sources s) (ls_v2_guard_budgets s)).
Definition put_debug (a : Addr) (id : string) : LM unit := λ s,
  Ok (tt, mkLower (ls_task_intern s) (ls_task_manifest s) (ls_flag_intern s)
    (ls_instructions s) (<[a := id]> (ls_debug_map s)) (ls_message_name_map s)
    (ls_ffi_task_decls s) (ls_v2_corr_sources s) (ls_v2_guard_budgets s)).
Definition put_message_name (k : N) (name : string) : LM unit := λ s,
  Ok (tt, mkLower (ls_task_intern s) (ls_task_manifest s) (ls_flag_intern s)
    (ls_instructions s) (ls_debug_map s) (<[k := name]> (ls_message_name_map s))
    (ls_ffi_task_decls s) (ls_v2_corr_sources s) (ls_v2_guard_budgets s)).
Definition put_ffi_decl (a : Addr) (d : FfiTaskDecl) : LM unit := λ s,
  Ok (tt, mkLower (ls_task_intern s) (ls_task_manifest s) (ls_flag_intern s)
    (ls_instructions s) (ls_debug_map s) (ls_message_name_map s)
    (<[a := d]> (ls_ffi_task_decls s)) (ls_v2_corr_sources s) (ls_v2_guard_budgets s)).
Definition put_corr_source (a : Addr) (b : BindingSource) : LM unit := λ s,
  Ok (tt, mkLower (ls_task_intern s) (ls_task_manifest s) (ls_flag_intern s)
    (ls_instructions s) (ls_debug_map s) (ls_message_name_map s) (ls_ffi_task_decls s)
    (<[a := b]> (ls_v2_corr_sources s)) (ls_v2_guard_budgets s)).
Definition put_guard_budget (a : Addr) (b : ScopeFailureBudget) : LM unit := λ s,
  Ok (tt, mkLower (ls_task_intern s) (ls_task_manifest s) (ls_flag_intern s)
    (ls_instructions s) (ls_debug_map s) (ls_message_name_map s) (ls_ffi_task_decls s)
    (ls_v2_corr_sources s) (<[a := b]> (ls_v2_guard_budgets s))).

(** ** Interning *)

Definition intern_flag (m : gmap string N) (name : string) : N * gmap string N :=
  match m !! name with
  | Some key => (key, m)
  | None => let key := as_u32 (N.of_nat (size m)) in (key, <[name := key]> m)
  end.

Definition intern_task (m : gmap string N) (manifest : list string) (name : string)
  : N * gmap string N * list string :=
  match m !! name with
  | Some id => (id, m, manifest)
  | None =>
      let id := as_u32 (len manifest) in
      (id, <[name := id]> m, manifest ++ [name])
  end.

(** The two on the tables of the pass. *)
Definition lm_intern_flag (name : string) : LM N := λ s,
  let '(key, m) := intern_flag (ls_flag_intern s) name in
  Ok (key, mkLower (ls_task_intern s) (ls_task_manifest s) m (ls_instructions s)
    (ls_debug_map s) (ls_message_name_map s) (ls_ffi_task_decls s) (ls_v2_corr_sources s)
    (ls_v2_guard_budgets s)).
Definition lm_intern_task (name : string) : LM N := λ s,
  let '(id, m, manifest) := intern_task (ls_task_intern s) (ls_task_manifest s) name in
  Ok (id, mkLower m manifest (ls_flag_intern s) (ls_instructions s)
    (ls_debug_map s) (ls_message_name_map s) (ls_ffi_task_decls s) (ls_v2_corr_sources s)
    (ls_v2_guard_budgets s)).

(** ** Data objects and expressions *)

Definition assign_storage (type_decl : DataObjectType) (id : string) (flag_intern : gmap string N)
  : DataObjectStorage * gmap string N :=
  match type_decl with
  | DOPrimitive PTBool | DOPrimitive PTI64 =>
      let '(key, m) := intern_flag flag_intern id in (DSFlag key, m)
  | DOPrimitive PTF64 | DOPrimitive PTString | DOSemOsDomain _ _ =>
      (DSDomainPayload [id], flag_intern)
  end.

Definition lower_literal (l : IrLiteral) : Literal :=
  match l with
  | ILBool b => LitBool b
  | ILI64 n => LitI64 n
  | ILF64 f => LitF64 f
  | ILString s => LitString s
  end.

Definition resolve_expression (expr : Expression) (data_objects : gmap string DataObjectDecl)
  : Result LowerError BindingSource :=
  match expr with
  | ELiteral l => Ok (BSLiteral (lower_literal l))
  | EVarRef path =>
      match path with
      | [] => Err (LReject "empty var ref path")
      | first :: rest =>
          decl ← ok_or (LReject ("unresolved variable reference '" +:+ String.concat "." path
                   +:+ "': no data object with id '" +:+ first +:+ "'")) (data_objects !! first);
          match dod_storage decl with
          | DSFlag key =>
              match rest with
              | [] => Ok (BSFlagRef key)
              | _ => Err (LReject ("flag-typed data object '" +:+ first
                       +:+ "' cannot have sub-path segments (got '" +:+ String.concat "." rest
                       +:+ "')"))
              end
          | DSDomainPayload base_path => Ok (BSDomainPayloadRef (base_path ++ rest))
          end
      end
  end.

Definition resolve_output_target (target_variable : string)
    (data_objects : gmap string DataObjectDecl) : Result LowerError BindingTarget :=
  decl ← ok_or (LReject ("unresolved output target '" +:+ target_variable
           +:+ "': no data object with this id")) (data_objects !! target_variable);
  match dod_storage decl with
  | DSFlag key => Ok (BTFlagWrite key)
  | DSDomainPayload path => Ok (BTDomainPayloadWrite path)
  end.

(** [str::split('.')]: the segments between dots, one for the empty string. *)
Fixpoint split_dot (s : string) : list string :=
  match s with
  | EmptyString => [EmptyString]
  | String c s' =>
      if Ascii.eqb c "." then EmptyString :: split_dot s'
      else match split_dot s' with
           | [] => [String c EmptyString]
           | seg :: segs => String c seg :: segs
           end
  end.

Definition is_float_object (d : DataObjectDecl) : bool :=
  match dod_type_decl d with DOPrimitive PTF64 => true | _ => false end.

Definition resolve_correlation_source (source : string)
    (data_objects : gmap string DataObjectDecl) : Result LowerError BindingSource :=
  let path := split_dot source in
  if existsb (λ seg, bool_decide (seg = "")) path then Err (LMalformedKey source)
  else
    let first_decl := first ← head path; data_objects !! first in
    if from_option is_float_object false first_decl then
      Err (LReject ("correlationKey '" +:+ source
             +:+ "' is float-typed; correlation keys must be bool, integer, or string"))
    else resolve_expression (EVarRef path) data_objects.

(** The data-object pre-pass: one [for] over the layout order. *)
Definition declare_objects (g : IRGraph) (order : list nat)
  : gmap string DataObjectDecl * gmap string N :=
  foldl (λ (acc : gmap string DataObjectDecl * gmap string N) node_idx,
    match node_at g node_idx with
    | Some (NDataObject id _ type_decl role) =>
        let '(storage, flag_intern) := assign_storage type_decl id acc.2 in
        (<[id := {| dod_id := id; dod_type_decl := type_decl; dod_storage := storage;
                    dod_role := role |}]> acc.1, flag_intern)
    | _ => acc
    end) (∅, ∅) order.

(** ** Emission of one node *)

Inductive GuardedBody :=
| GBNative (task_type : string)
| GBWaitMsg (name_id : N).

(** [fn lower_inclusive_diverging_v2]'s [struct Branch]. *)
Record Branch := {
  br_always_live : bool;
  br_flag_name : option string;
  br_target_idx : nat;
}.

(** Addresses of consecutive blocks of the given sizes, from [a] on. *)
Fixpoint header_addrs (a : Addr) (sizes : list N) : list Addr :=
  match sizes with
  | [] => []
  | n :: sizes' => a :: header_addrs (addr_add a n) sizes'
  end.

(** [let mut sorted = ..; sorted.sort_by_key(|(_, code)| code.is_none())]: the
    sort is stable. *)
Definition sort_error_arms (l : list (nat * option string)) : list (nat * option string) :=
  filter (λ b : nat * option string, is_Some b.2) l ++
  filter (λ b : nat * option string, b.2 = None) l.

Section emit.
Context {PG : PetGraph}.
(** [SystemTime::now()] in milliseconds since the epoch. *)
Variable now_ms : N.
Variables (g : IRGraph) (t : LowerTables) (node_addr : gmap nat N).

Definition timer_spec_duration_ms (spec : TimerSpec) : N :=
  match spec with
  | TSDuration ms => ms
  | TSDate deadline_ms => sat_sub deadline_ms now_ms
  | TSCycle interval_ms _ => interval_ms
  end.

(** [successors.first().and_then(|s| node_addr.get(s).copied())]. *)
Definition first_successor_addr (node_idx : nat) : option Addr :=
  next ← head (get_successors g node_idx); node_addr !! next.

Definition push_error_guard_arm (host_id : string) (b : nat * option string) : LM unit :=
  successor_idx ← lm_ok_or ("boundary error on '" +:+ host_id
     +:+ "' has no outgoing flow — its handler target cannot be resolved")
     (head (get_successors g b.1));
  handler ← lm_ok_or ("boundary error on '" +:+ host_id
     +:+ "' successor has no assigned bytecode address") (node_addr !! successor_idx);
  emit (IV2GuardArmError b.2 handler).

Definition push_error_guard_arms (host_id : string) : LM unit :=
  match boundary_error_lookup t !! host_id with
  | None => mret tt
  | Some boundaries => lm_for (push_error_guard_arm host_id) (sort_error_arms boundaries)
  end.

(** The timer and the errors attached to a host. *)
Definition timer_boundary (id : string) : option (nat * TimerSpec) := boundary_lookup t !! id.
Definition error_boundaries (id : string) : list (nat * option string) :=
  default [] (boundary_error_lookup t !! id).
Definition has_errors (id : string) : bool :=
  match error_boundaries id with [] => false | _ => true end.

(** [let interrupting = has_errors || timer_interrupting.unwrap_or(true)]. *)
Definition guard_interrupting (id : string) : bool :=
  has_errors id ||
  match timer_boundary id with
  | Some (bt_node_idx, _) => is_interrupting g bt_node_idx
  | None => true
  end.

(** [let handler = ..]. *)
Definition guard_handler (id : string) : LM Addr :=
  match timer_boundary id with
  | Some (bt_node_idx, _) =>
      lm_ok_or ("boundary timer on '" +:+ id
        +:+ "' has no outgoing flow — its handler target cannot be resolved")
        (first_successor_addr bt_node_idx)
  | None =>
      first ← lm_expect "has_errors implies error_boundaries is Some and non-empty"
                (head (error_boundaries id));
      lm_ok_or ("boundary error on '" +:+ id
        +:+ "' has no outgoing flow — its handler target cannot be resolved")
        (first_successor_addr first.1)
  end.

(** [let budget_max = ..]: the timer's budget, else the first error's. *)
Definition guard_budget_max (id : string) : option N :=
  match (bt ← timer_boundary id; boundary_failure_budget g (bt.1 : nat)) with
  | Some n => Some n
  | None => err ← head (error_boundaries id); boundary_failure_budget g (err.1 : nat)
  end.

(** From [PushI64] to the last arm: what precedes a guarded body. *)
Definition open_guard (id : string) (interrupting : bool) (handler : Addr) : LM unit :=
  (match timer_boundary id with
   | Some (_, spec) => emit (IPushI64 (u64_as_i64 (timer_spec_duration_ms spec)))
   | None => mret tt
   end) ≫= λ _,
  here ≫= λ guard_open_addr,
  (match guard_budget_max id with
   | Some max_failures =>
       match ScopeFailureBudget_new 1 max_failures with
       | Ok budget => put_guard_budget guard_open_addr budget
       | Err error => lm_fail (LReject ("boundary event on '" +:+ id
           +:+ "' has invalid failureBudget " +:+ show_N max_failures +:+ ": " +:+ error))
       end
   | None => mret tt
   end) ≫= λ _,
  emit (if interrupting then IV2Guard handler else IV2GuardN handler) ≫= λ _,
  (match timer_boundary id with
   | Some (_, spec) =>
       emit IV2GuardArmTimer ≫= λ _,
       match spec with
       | TSCycle _ max_fires => emit (IV2GuardTimerCycle max_fires)
       | _ => mret tt
       end
   | None => mret tt
   end) ≫= λ _,
  push_error_guard_arms id.

(** The guard close and the jump of the normal path. *)
Definition close_guard (interrupting : bool) (node_idx : nat) : LM unit :=
  emit (if interrupting then IV2GuardEnd else IV2GuardNEnd) ≫= λ _,
  here ≫= λ addr,
  emit (IJump (default (addr_add addr 1) (first_successor_addr node_idx))).

Definition is_unguarded (id : string) : bool :=
  match timer_boundary id with Some _ => false | None => negb (has_errors id) end.

(** [push_body]. *)
Definition push_body (body : GuardedBody) : LM Addr :=
  here ≫= λ addr,
  (match body with
   | GBNative task_type => lm_intern_task task_type ≫= λ task_id, emit (IExecNative task_id 0 0)
   | GBWaitMsg name_id => emit (IV2WaitMsg name_id)
   end) ≫= λ _,
  mret addr.

(** Every path returns [Ok(Some(body_addr))]: the model returns the address. *)
Definition lower_boundary_guarded_task_v2 (node_idx : nat) (id : string) (body : GuardedBody)
    (base : Addr) : LM Addr :=
  if is_unguarded id then
    push_body body ≫= λ body_addr,
    emit (IJump (default (addr_add base 2) (first_successor_addr node_idx))) ≫= λ _,
    mret body_addr
  else
    let interrupting := guard_interrupting id in
    guard_handler id ≫= λ handler,
    open_guard id interrupting handler ≫= λ _,
    push_body body ≫= λ body_addr,
    close_guard interrupting node_idx ≫= λ _,
    mret body_addr.

(** The [FfiServiceTask] arm. *)
Definition compile_inputs (inputs : list FfiInputBinding)
    (data_objects : gmap string DataObjectDecl) : Result LowerError (list CompiledFfiInputBinding) :=
  mapM (λ b, source ← resolve_expression (fi_expression b) data_objects;
             Ok {| fib_target_field := fi_target_field b; fib_source := source |}) inputs.
Definition compile_outputs (outputs : list FfiOutputBinding)
    (data_objects : gmap string DataObjectDecl) : Result LowerError (list CompiledFfiOutputBinding) :=
  mapM (λ b, target ← resolve_output_target (fo_target_variable b) data_objects;
             Ok {| fob_source_field := fo_source_field b; fob_target := target |}) outputs.

Definition lower_ffi_task (node_idx : nat) (id : string) (template_id : Hash)
    (inputs : list FfiInputBinding) (outputs : list FfiOutputBinding) (base : Addr)
    (data_objects : gmap string DataObjectDecl) : LM unit :=
  lm_lift (compile_inputs inputs data_objects) ≫= λ compiled_inputs,
  lm_lift (compile_outputs outputs data_objects) ≫= λ compiled_outputs,
  let argc := as_u16 (len compiled_inputs) in
  let retc := as_u16 (len compiled_outputs) in
  (if is_unguarded id then
     here ≫= λ exec_addr,
     emit (IExecFfi template_id argc retc) ≫= λ _,
     emit (IJump (default (addr_add base 2) (first_successor_addr node_idx))) ≫= λ _,
     mret exec_addr
   else
     let interrupting := guard_interrupting id in
     guard_handler id ≫= λ handler,
     open_guard id interrupting handler ≫= λ _,
     here ≫= λ exec_addr,
     emit (IExecFfi template_id argc retc) ≫= λ _,
     close_guard interrupting node_idx ≫= λ _,
     mret exec_addr) ≫= λ exec_addr,
  put_ffi_decl exec_addr
    {| ffi_template_id := template_id; ffi_inputs := compiled_inputs; ffi_outputs := compiled_outputs |}.

(** The [MessageWait] and [HumanWait] arms. *)
Definition lower_wait (node_idx : nat) (name corr_key_source : string) (base : Addr)
    (data_objects : gmap string DataObjectDecl) : LM unit :=
  lm_intern_flag name ≫= λ name_id,
  put_message_name name_id name ≫= λ _,
  lm_lift (resolve_correlation_source corr_key_source data_objects) ≫= λ corr_source,
  lower_boundary_guarded_task_v2 node_idx (node_id_at g node_idx) (GBWaitMsg name_id) base
    ≫= λ body_addr,
  put_corr_source body_addr corr_source.

(** The [SendTask] arm. *)
Definition lower_send (node_idx : nat) (message_name corr_key_source : string)
    (data_objects : gmap string DataObjectDecl) : LM unit :=
  lm_intern_flag message_name ≫= λ name_id,
  put_message_name name_id message_name ≫= λ _,
  here ≫= λ corr_addr,
  lm_lift (resolve_correlation_source corr_key_source data_objects) ≫= λ corr_source,
  put_corr_source corr_addr corr_source ≫= λ _,
  emit (IPublishMessage name_id) ≫= λ _,
  match head (get_successors g node_idx) with
  | Some next =>
      lm_ok_or ("lowering: node '" +:+ node_id_at g node_idx +:+ "' routes to '"
        +:+ node_id_at g next +:+ "', which has no lowered address (fail-closed reject)")
        (node_addr !! next) ≫= λ target,
      emit (IJump target)
  | None => mret tt
  end.

(** The branch an exclusive gateway emits for a condition. *)
Definition xor_branch (c : ConditionExpr) (target : Addr) : Instr :=
  match ce_op c, ce_literal c with
  | CEq, CLBool true => IBrIf target
  | CEq, CLBool false => IBrIfNot target
  | CNeq, CLBool true => IBrIfNot target
  | CNeq, CLBool false => IBrIf target
  | _, _ => IBrIf target
  end.

(** The loop over the outgoing edges, with [default_target]. *)
Fixpoint lower_xor_edges (node_idx : nat) (edges : list (nat * IREdge)) (default_target : option Addr)
  : LM (option Addr) :=
  match edges with
  | [] => mret default_target
  | (target_idx, weight) :: edges' =>
      lm_ok_or ("lowering: XOR '" +:+ node_id_at g node_idx +:+ "' routes to '"
        +:+ node_id_at g target_idx
        +:+ "', which has no lowered address - dangling or non-well-formed successor (fail-closed reject)")
        (node_addr !! target_idx) ≫= λ target_addr,
      match ie_condition weight with
      | Some cond =>
          lm_intern_flag (ce_flag_name cond) ≫= λ flag_key,
          emit (ILoadFlag flag_key) ≫= λ _,
          emit (xor_branch cond target_addr) ≫= λ _,
          lower_xor_edges node_idx edges' default_target
      | None => lower_xor_edges node_idx edges' (Some target_addr)
      end
  end.

(** The [GatewayXor] arm. *)
Definition lower_xor (node_idx : nat) : LM unit :=
  lower_xor_edges node_idx (pg_edges_out g node_idx) None ≫= λ default_target,
  match default_target with
  | Some target => emit (IJump target)
  | None => mret tt
  end.

(** The [GatewayAnd] arms; the second is also the converging inclusive one. *)
Definition fork_target (node_idx s : nat) : Result LowerError Addr :=
  ok_or (LReject ("lowering: fork '" +:+ node_id_at g node_idx +:+ "' branch head '"
    +:+ node_id_at g s +:+ "' has no lowered address (fail-closed reject)")) (node_addr !! s).
Definition lower_fork (node_idx : nat) (base : Addr) : LM unit :=
  lm_lift (mapM (fork_target node_idx) (get_successors g node_idx)) ≫= λ targets,
  emit (IV2Fork targets base).
Definition lower_join (node_idx : nat) (pairing : Addr) : LM unit :=
  emit (IV2Join pairing) ≫= λ _,
  lm_ok_or ("lowering: node '" +:+ node_id_at g node_idx
    +:+ "' has no lowered successor - dangling or spliced flow (fail-closed reject)")
    (first_successor_addr node_idx) ≫= λ next,
  emit (IJump next).

(** [fn lower_inclusive_diverging_v2]. *)
Definition inclusive_branch (e : nat * IREdge) : Branch :=
  {| br_always_live := bool_decide (ie_condition e.2 = None);
     br_flag_name := ce_flag_name <$> ie_condition e.2;
     br_target_idx := e.1 |}.
Definition branch_flag (b : Branch) : LM N :=
  lm_expect "non-always-live branch always carries a condition" (br_flag_name b) ≫= lm_intern_flag.
Definition inclusive_precheck (fork_addr : Addr) (b : Branch) : LM unit :=
  branch_flag b ≫= λ key,
  emit (ILoadFlag key) ≫= λ _, emit (IBrIf fork_addr).
Definition inclusive_header (node_idx : nat) (join_addr : Addr) (b : Branch) : LM unit :=
  lm_ok_or ("lowering: inclusive fork '" +:+ node_id_at g node_idx +:+ "' branch head '"
    +:+ node_id_at g (br_target_idx b) +:+ "' has no lowered address (fail-closed reject)")
    (node_addr !! br_target_idx b) ≫= λ real_target,
  if br_always_live b then emit (IJump real_target)
  else
    branch_flag b ≫= λ key,
    emit (ILoadFlag key) ≫= λ _,
    emit (IBrIfNot join_addr) ≫= λ _,
    emit (IJump real_target).
Definition lower_inclusive_diverging_v2 (node_idx : nat) (base join_addr : Addr) : LM unit :=
  let branches := inclusive_branch <$> pg_edges_out g node_idx in
  let has_always_live := existsb br_always_live branches in
  let conditional_count := as_u32 (len (filter (λ b, br_always_live b = false) branches)) in
  let fork_addr := if has_always_live then base
                   else addr_add (addr_add base (sat_mul u32_max conditional_count 2)) 1 in
  (if has_always_live then mret tt
   else lm_for (inclusive_precheck fork_addr) branches ≫= λ _, emit IV2RouteZeroMatch) ≫= λ _,
  let headers := header_addrs (addr_add fork_addr 1)
                   ((λ b, if br_always_live b then 1%N else 3%N) <$> branches) in
  emit (IV2Fork headers fork_addr) ≫= λ _,
  lm_for (inclusive_header node_idx join_addr) branches.

(** [fn lower_multi_instance_v2]. *)
Definition mi_branch (id : string) (collection_flag task_id join_addr index : N) : LM unit :=
  lm_intern_flag (id +:+ "_mi_element_" +:+ show_N index) ≫= λ element_flag,
  emit (IV2MiIndexLive collection_flag index) ≫= λ _,
  emit (IBrIfNot join_addr) ≫= λ _,
  emit (IV2MiLoadElement collection_flag index) ≫= λ _,
  emit (IStoreFlag element_flag) ≫= λ _,
  emit (IExecNative task_id 0 0) ≫= λ _,
  emit (IJump join_addr).
Definition lower_multi_instance_v2 (node_idx : nat) (base : Addr)
    (id task_type collection_flag_name : string) (declared_max : N) : LM unit :=
  lm_intern_flag collection_flag_name ≫= λ collection_flag,
  lm_intern_task task_type ≫= λ task_id,
  let fork_addr := addr_add base 1 in
  let join_addr := addr_add (addr_add fork_addr 1) (sat_mul u32_max declared_max 6) in
  let indices := N.of_nat <$> seq 0 (N.to_nat declared_max) in
  emit (IV2MiArityCheck collection_flag declared_max) ≫= λ _,
  emit (IV2Fork (header_addrs (addr_add fork_addr 1) ((λ _, 6%N) <$> indices)) fork_addr) ≫= λ _,
  lm_for (mi_branch id collection_flag task_id join_addr) indices ≫= λ _,
  emit (IV2Join fork_addr) ≫= λ _,
  lm_ok_or ("lowering: MI activity '" +:+ node_id_at g node_idx
    +:+ "' has no lowered successor - dangling or spliced flow (fail-closed reject)")
    (first_successor_addr node_idx) ≫= λ next,
  emit (IJump next).

(** The [TimerWait] arm. *)
Definition lower_timer_wait (node_idx : nat) (spec : TimerSpec) : LM unit :=
  (match spec with
   | TSDuration ms => emit (IPushI64 (u64_as_i64 ms)) ≫= λ _, emit IV2WaitFor
   | TSDate deadline_ms => emit (IPushI64 (u64_as_i64 deadline_ms)) ≫= λ _, emit IV2WaitUntil
   | TSCycle interval_ms _ => emit (IPushI64 (u64_as_i64 interval_ms)) ≫= λ _, emit IV2WaitFor
   end) ≫= λ _,
  match head (get_successors g node_idx) with
  | Some next => emit (IJump (default 0%N (node_addr !! next)))
  | None => mret tt
  end.
End emit.

(** ** The lowering *)

Section lower.
Context {PG : PetGraph} {P : Platform}.
Variable now_ms : N.
(** [serde_json::to_string] of the instructions. *)
Variable instructions_json : list Instr -> Result string (list Byte.byte).

(** What the emission pass reads: the graph, the tables, the addresses, the
    gateway pairing and the declared data objects. *)
Record LowerPlan := mkPlan {
  lp_tables : LowerTables;
  lp_node_addr : gmap nat N;
  lp_pairing : Pairing;
  lp_data_objects : gmap string DataObjectDecl;
}.

(** The [match node] of the second pass. *)
Definition emit_node (g : IRGraph) (p : LowerPlan) (node_idx : nat) (base : Addr) (node : IRNode)
  : LM unit :=
  let t := lp_tables p in
  let node_addr := lp_node_addr p in
  match node with
  | NStart _ =>
      match head (get_successors g node_idx) with
      | Some next => emit (IJump (default (addr_add base 1) (node_addr !! next)))
      | None => emit IEnd
      end
  | NEnd _ terminate =>
      (if decide (node_idx ∈ guardn_close_before_end t) then emit IV2GuardNEnd else mret tt) ≫= λ _,
      emit (if (terminate : bool) then IEndTerminate else IEnd)
  | NServiceTask id _ task_type =>
      lower_boundary_guarded_task_v2 now_ms g t node_addr node_idx id (GBNative task_type) base
        ≫= λ _, mret tt
  | NGatewayXor _ _ => lower_xor g node_addr node_idx
  | NGatewayAnd _ _ Diverging => lower_fork g node_addr node_idx base
  | NGatewayAnd _ _ Converging =>
      lm_ok_or ("GatewayAnd '" +:+ node_id node +:+ "' (converging) has no matching diverging GatewayAnd on the fork-pairing stack — non-well-nested parallel-gateway topology")
        (fork_pairing (lp_pairing p) !! node_idx) ≫= λ pairing,
      lower_join g node_addr node_idx pairing
  | NGatewayInclusive _ _ Diverging =>
      lm_ok_or ("GatewayInclusive '" +:+ node_id node +:+ "' (diverging) has no matching converging GatewayInclusive — non-well-nested inclusive-gateway topology")
        (inclusive_join_addr (lp_pairing p) !! node_idx) ≫= λ join_addr,
      lower_inclusive_diverging_v2 g node_addr node_idx base join_addr
  | NGatewayInclusive _ _ Converging =>
      lm_ok_or ("GatewayInclusive '" +:+ node_id node +:+ "' (converging) has no matching diverging GatewayInclusive — non-well-nested inclusive-gateway topology")
        (inclusive_fork_addr (lp_pairing p) !! node_idx) ≫= λ pairing,
      lower_join g node_addr node_idx pairing
  | NTimerWait _ spec => lower_timer_wait g node_addr node_idx spec
  | NMessageWait _ name corr_key_source =>
      lower_wait now_ms g t node_addr node_idx name corr_key_source base (lp_data_objects p)
  | NHumanWait _ name _ corr_key_source =>
      lower_wait now_ms g t node_addr node_idx name corr_key_source base (lp_data_objects p)
  | NSendTask _ _ message_name corr_key_source =>
      lower_send g node_addr node_idx message_name corr_key_source (lp_data_objects p)
  | NBoundaryTimer _ _ _ _ _ => mret tt
  | NBoundaryError _ _ _ _ => mret tt
  | NDataObject _ _ _ _ => mret tt
  | NFfiServiceTask id _ template_id inputs outputs =>
      lower_ffi_task now_ms g t node_addr node_idx id template_id inputs outputs base
        (lp_data_objects p)
  | NMultiInstance id _ task_type collection_flag_name declared_max =>
      lower_multi_instance_v2 g node_addr node_idx base id task_type collection_flag_name
        declared_max
  end.

(** [while instructions.len() < base.index() { instructions.push(Jump base) }]. *)
Definition pad (base : Addr) : LM unit := λ s,
  lm_for emit (replicate (addr_index base - length (ls_instructions s)) (IJump base)) s.

(** One iteration of the second pass. *)
Definition lower_node (g : IRGraph) (p : LowerPlan) (node_idx : nat) : LM unit :=
  lm_expect "node_addr[&node_idx]" (lp_node_addr p !! node_idx) ≫= λ base,
  lm_expect "graph[node_idx]" (node_at g node_idx) ≫= λ node,
  pad base ≫= λ _,
  (if (0 <? instr_count_for g (lp_tables p) node_idx)%N
   then put_debug base (node_id node) else mret tt) ≫= λ _,
  emit_node g p node_idx base node.

(** Everything before the second pass. *)
Definition plan_lowering (g : IRGraph)
  : Result LowerError (list nat * LowerPlan * gmap string N) :=
  start_idx ← ok_or (LReject "No Start node in IR graph") (find_start g);
  post_doms ← ok_or (LPanic "compute_post_dominators") (compute_post_dominators g);
  order ← ok_or (LPanic "structured_order")
            (structured_order g start_idx (compute_region_map g post_doms));
  let t := build_tables g order in
  let node_addr := assign_addresses g t order in
  pairing ← ok_or (LPanic "compute_gateway_pairing")
              (compute_gateway_pairing g post_doms node_addr t);
  let '(data_objects, flag_intern) := declare_objects g order in
  Ok (order, mkPlan t node_addr pairing data_objects, flag_intern).

(** Everything after it. *)
Definition finish_program (default_guard_budget : ScopeFailureBudget)
    (data_objects : gmap string DataObjectDecl) (s : LowerState)
  : Result LowerError CompiledProgram :=
  serialized ← map_err LReject (instructions_json (ls_instructions s));
  Ok {| cp_bytecode_version := blake3 serialized;
        cp_program := ls_instructions s;
        cp_debug_map := ls_debug_map s;
        cp_join_plan := ∅;
        cp_wait_plan := ∅;
        cp_message_name_map := ls_message_name_map s;
        cp_write_set := (λ key, {[key]}) <$> ls_flag_intern s;
        cp_task_manifest := ls_task_manifest s;
        cp_flag_symbol_table :=
          list_to_map ((λ nk : string * N, (nk.2, nk.1)) <$> map_to_list (ls_flag_intern s));
        cp_data_objects := data_objects;
        cp_ffi_task_decls := ls_ffi_task_decls s;
        cp_v2_ffi_task_decls := ∅;
        cp_v2_corr_sources := ls_v2_corr_sources s;
        cp_v2_guard_budgets := ls_v2_guard_budgets s;
        cp_default_guard_budget := default_guard_budget;
        cp_default_retry_policy := RetryPolicy_conservative_default |}.

Definition process_budget (default_failure_budget : option N)
  : Result LowerError ScopeFailureBudget :=
  match default_failure_budget with
  | Some max_failures =>
      map_err (λ error, LReject ("process defaultFailureBudget " +:+ show_N max_failures
                 +:+ " is invalid: " +:+ error)) (ScopeFailureBudget_new 1 max_failures)
  | None => Ok ScopeFailureBudget_conservative_default
  end.

Definition lower_with_default (g : IRGraph) (default_failure_budget : option N)
  : Result LowerError CompiledProgram :=
  default_guard_budget ← process_budget default_failure_budget;
  '(order, plan, flag_intern) ← plan_lowering g;
  '(_, s) ← lm_for (lower_node g plan) order
              (mkLower ∅ [] flag_intern [] ∅ ∅ ∅ ∅ ∅);
  finish_program default_guard_budget (lp_data_objects plan) s.

Definition lower (g : IRGraph) : Result LowerError CompiledProgram := lower_with_default g None.
(** [lower_v2] is an alias of [lower]. *)
Definition lower_v2 (g : IRGraph) : Result LowerError CompiledProgram := lower g.

(** ** The compiler entry point *)

Inductive CompileError :=
| CEDiverges
| CEVerify (message : string)
| CELower (e : LowerError)
| CEBytecode (message : string)
| CEArtifact (e : ArtifactError)
| CELimitMismatch
| CESerialization.

(** [ArtifactEnvelope::canonical_bytes]: the JSON of the envelope. *)
Variable envelope_json : N -> string -> list Instr -> CompiledProgram -> VerifiedLimits ->
  option (list Byte.byte).
(** [env!("CARGO_PKG_VERSION")]. *)
Variable pkg_version : string.

Global Instance VerifiedLimits_eq_dec : EqDecision VerifiedLimits.
Proof. solve_decision. Defined.

(** [ArtifactEnvelope::from_legacy_program] then
    [ExecutableWorkflow::from_verified_envelope]. *)
Definition executable_workflow (p : CompiledProgram) : Result CompileError ExecutableWorkflow :=
  limits ← map_err CEArtifact (verify_program (cp_program p) (legacy_metadata p));
  computed ← map_err CEArtifact (verify_program (cp_program p) (legacy_metadata p));
  _ ← ensure (bool_decide (computed = limits)) CELimitMismatch;
  canonical ← ok_or CESerialization
                (envelope_json CURRENT_ARTIFACT_ABI pkg_version (cp_program p) p limits);
  Ok {| wf_abi_version := CURRENT_ARTIFACT_ABI;
        wf_compiler_version := pkg_version;
        wf_instructions := cp_program p;
        wf_metadata := legacy_metadata p;
        wf_limits := limits;
        wf_hash := blake3 canonical |}.

(** [Compiler::lower_with_default]. *)
Definition compile (g : IRGraph) (default_failure_budget : option N)
  : Result CompileError ExecutableWorkflow :=
  admitted ← ok_or CEDiverges (verify_or_err g);
  _ ← map_err CEVerify admitted;
  legacy ← map_err CELower (lower_with_default g default_failure_budget);
  _ ← match verify_bytecode legacy with
      | [] => Ok tt
      | errors => Err (CEBytecode ("Bytecode verification failed:" +:+ newline
                    +:+ String.concat newline (show_verify_error <$> errors)))
      end;
  executable_workflow legacy.
End lower.
