(* ===== verification/BpmnDominators.v ===== *)
(** * Post-dominators

    [compute_post_dominators] is correct on every acyclic graph: it returns,
    and the map it returns is the immediate post-dominator relation.

    The proof has the three steps of the algorithm.  The depth-first walk from
    the virtual exit lists every node before its successors' reverse
    ([topo]); along that order the [idom] entries form a tree whose ancestor
    chains are the post-dominators; [intersect] climbs two chains to the
    chain they share. *)

From S2P Require Import Prelude RustStr Json Types Effects Transition BpmnIr BpmnVerify BpmnLower.

(** ** Paths and post-dominance *)

(** A path of edges from [n] to [m] through the nodes listed. *)
Inductive path (R : nat -> nat -> Prop) : nat -> list nat -> nat -> Prop :=
| path_here n : path R n [n] n
| path_step n m l k : R n m -> path R m l k -> path R n (n :: l) k.

(** A node of the graph without outgoing edges. *)
Definition is_sink (g : IRGraph) (n : nat) : Prop := n < node_count g ∧ ∀ m, ¬ edge g n m.

(** Every path from [n] to a sink passes [d]. *)
Definition post_dominates (g : IRGraph) (d n : nat) : Prop :=
  ∀ l s, path (edge g) n l s -> is_sink g s -> d ∈ l.

(** The closest node other than [n] that post-dominates [n]. *)
Definition immediate_post_dominator (g : IRGraph) (n d : nat) : Prop :=
  d ≠ n ∧ post_dominates g d n ∧
  ∀ d', d' ≠ n -> post_dominates g d' n -> post_dominates g d' d.

Lemma path_rtc R n l m : path R n l m ↔ path R n l m ∧ rtc R n m.
Proof.
  split; [|tauto]. intros H. split; [done|].
  induction H; [constructor|]. by eapply rtc_l.
Qed.

Lemma rtc_path R n m : rtc R n m -> ∃ l, path R n l m.
Proof.
  induction 1 as [n|n m k Hnm _ [l IH]]; [eauto using path_here|].
  eexists. by eapply path_step.
Qed.

Lemma path_head R n l m : path R n l m -> n ∈ l.
Proof. intros H; destruct H; set_solver. Qed.

(** ** Acyclic graphs *)

(** The nodes reachable in one step or more. *)
Definition below (g : IRGraph) (n : nat) : gset nat :=
  reach_upto g (node_count g) (list_to_set (out_edges g n).*1).

Lemma elem_of_below g n m : graph_wf g -> m ∈ below g n ↔ tc (edge g) n m.
Proof.
  intros Hwf. unfold below. rewrite reach_upto_spec; [|done|].
  - setoid_rewrite elem_of_list_to_set. setoid_rewrite elem_of_out_targets.
    by rewrite tc_first.
  - intros k. rewrite elem_of_list_to_set, elem_of_out_targets. intros He.
    by apply (edge_nodes g n k).
Qed.

(** Induction on an acyclic graph, successors first. *)
Lemma acyclic_ind g (P : nat -> Prop) :
  graph_wf g -> acyclic g -> (∀ n, (∀ m, edge g n m -> P m) -> P n) -> ∀ n, P n.
Proof.
  intros Hwf Hac Hstep n.
  remember (size (below g n)) as k eqn:Hk. revert n Hk.
  induction (lt_wf k) as [k _ IH]. intros n ->. apply Hstep. intros m He.
  eapply IH; [|done]. apply subset_size. split.
  - intros x. rewrite !elem_of_below by done. by apply tc_l.
  - intros Hsub. apply (Hac m). rewrite <- elem_of_below by done. apply Hsub.
    rewrite elem_of_below by done. by apply tc_once.
Qed.

Lemma edge_dec g n : {m | edge g n m} + {∀ m, ¬ edge g n m}.
Proof.
  destruct (out_edges g n).*1 as [|m l] eqn:E.
  - right. intros m. rewrite <- elem_of_out_targets, E. set_solver.
  - left. exists m. rewrite <- elem_of_out_targets, E. set_solver.
Qed.

(** Every node of an acyclic graph has a path to a sink. *)
Lemma reaches_sink g n :
  graph_wf g -> acyclic g -> n < node_count g -> ∃ s, rtc (edge g) n s ∧ is_sink g s.
Proof.
  intros Hwf Hac. revert n. apply (acyclic_ind g (λ n, n < node_count g -> _) Hwf Hac).
  intros n IH Hn. destruct (edge_dec g n) as [[m He]|Hno].
  - destruct (IH m He) as (s & Hr & Hs); [by apply (edge_nodes g n m)|].
    exists s. split; [by eapply rtc_l|done].
  - exists n. split; [constructor|done].
Qed.

(** ** The graph with its virtual exit *)

Section work.
Context {PG : PetGraph} {HL : PetGraphLaws PG}.

Lemma elem_of_sinks g n : n ∈ sinks g ↔ is_sink g n.
Proof.
  unfold sinks, is_sink. rewrite list_elem_of_filter, elem_of_node_indices.
  assert (Hnil : pg_edges_out g n = [] ↔ ∀ m, ¬ edge g n m).
  { split.
    - intros Hn m [w He]. rewrite <- elem_of_edges_out, Hn in He. set_solver.
    - intros Hn. destruct (pg_edges_out g n) as [|[m w] l] eqn:E; [done|].
      destruct (Hn m). exists w. rewrite <- elem_of_edges_out, E. set_solver. }
  rewrite Hnil. tauto.
Qed.

Lemma foldl_add_edges (r : nat) (l : list nat) (w : IRGraph) :
  foldl (λ w sink, add_edge sink r virtual_edge w) w l =
  mkGraph (ig_nodes w) (ig_edges w ++ ((λ s, (s, r, virtual_edge)) <$> l)).
Proof.
  revert w; induction l as [|s l IH]; intros w; cbn.
  - rewrite app_nil_r. by destruct w.
  - rewrite IH. cbn. by rewrite <- app_assoc.
Qed.

Definition work (g : IRGraph) : IRGraph := (pdom_work g).1.
Definition exit_ (g : IRGraph) : nat := node_count g.

Lemma pdom_work_eq g : pdom_work g = (work g, exit_ g).
Proof. done. Qed.

Lemma work_nodes g : node_count (work g) = S (node_count g).
Proof.
  unfold work, pdom_work. cbn. rewrite foldl_add_edges. unfold node_count. cbn.
  rewrite length_app. cbn. lia.
Qed.

Lemma work_edge g a b :
  edge (work g) a b ↔ edge g a b ∨ (is_sink g a ∧ b = exit_ g).
Proof.
  unfold work, pdom_work. cbn. rewrite foldl_add_edges. unfold edge. cbn.
  setoid_rewrite elem_of_app. setoid_rewrite list_elem_of_fmap. split.
  - intros [w [H|(s & [= -> -> ->] & Hs)]]; [eauto|]. right. by apply elem_of_sinks in Hs.
  - intros [[w H]|[Hs ->]]; [eauto|]. exists virtual_edge. right. exists a.
    split; [done|]. by apply elem_of_sinks.
Qed.

Lemma work_wf g : graph_wf g -> graph_wf (work g).
Proof.
  intros Hwf a b w H. rewrite work_nodes.
  assert (He : edge (work g) a b) by by exists w.
  apply work_edge in He as [He|[[? _] ->]]; [|unfold exit_; lia].
  apply edge_nodes in He; [lia|done].
Qed.

Lemma exit_no_edge g b : graph_wf g -> ¬ edge (work g) (exit_ g) b.
Proof.
  intros Hwf [He|[[? _] _]]%work_edge; unfold exit_ in *; [|lia].
  apply edge_nodes in He; [lia|done].
Qed.

Lemma work_tc g a b :
  graph_wf g -> tc (edge (work g)) a b -> tc (edge g) a b ∨ b = exit_ g.
Proof.
  intros Hwf. induction 1 as [a b He|a b c He Ht IH].
  - apply work_edge in He as [He|[_ ->]]; [left; by apply tc_once | by right].
  - destruct IH as [IH| ->]; [|by right].
    apply work_edge in He as [He|[_ ->]]; [left; by eapply tc_l|].
    apply tc_first in Ht as (x & Hx & _). by apply exit_no_edge in Hx.
Qed.

Lemma work_acyclic g : graph_wf g -> acyclic g -> acyclic (work g).
Proof.
  intros Hwf Hac n Hn. destruct (work_tc g n n Hwf Hn) as [H| ->]; [by apply (Hac n)|].
  apply tc_first in Hn as (x & Hx & _). by apply exit_no_edge in Hx.
Qed.

Lemma work_rtc g a b : rtc (edge g) a b -> rtc (edge (work g)) a b.
Proof. apply rtc_subrel. intros ? ? ?. apply work_edge. by left. Qed.

(** Every node reaches the virtual exit. *)
Lemma reaches_exit g n :
  graph_wf g -> acyclic g -> n < node_count (work g) -> rtc (edge (work g)) n (exit_ g).
Proof.
  intros Hwf Hac Hn. rewrite work_nodes in Hn.
  destruct (decide (n = exit_ g)) as [->|Hne]; [done|].
  destruct (reaches_sink g n Hwf Hac) as (s & Hr & Hs); [unfold exit_ in *; lia|].
  eapply rtc_r; [by apply work_rtc|]. apply work_edge. by right.
Qed.

(** The paths to the virtual exit are the paths to a sink. *)
Lemma work_path g n l : graph_wf g -> n ≠ exit_ g ->
  path (edge (work g)) n l (exit_ g) ↔
  ∃ l' s, l = l' ++ [exit_ g] ∧ path (edge g) n l' s ∧ is_sink g s.
Proof.
  intros Hwf Hn. split.
  - intros Hp. remember (exit_ g) as r eqn:Hr. revert Hn.
    induction Hp as [n|n m l k He Hp IH]; intros Hn; [done|]. subst k.
    apply work_edge in He as [He|[Hs ->]].
    + destruct IH as (l' & s & -> & Hp' & Hs); [done| |].
      { apply edge_nodes in He; [unfold exit_; lia|done]. }
      exists (n :: l'), s. split; [done|]. split; [by eapply path_step|done].
    + exists [n], n. split; [|split; [constructor|done]].
      inversion Hp as [|? ? ? ? Hx]; subst; [done|]. exfalso. by apply (exit_no_edge g m Hwf).
  - intros (l' & s & -> & Hp & Hs). clear Hn. induction Hp as [n|n m l k He Hp IH]; cbn.
    + eapply path_step; [|constructor]. apply work_edge. by right.
    + eapply path_step; [apply work_edge; by left|]. by apply IH.
Qed.
End work.

(** ** The depth-first walk *)

(** Every node listed comes after all the nodes with an edge to it. *)
Definition topo (w : IRGraph) (l : list nat) : Prop :=
  ∀ l1 n l2, l = l1 ++ n :: l2 -> ∀ c, edge w c n -> c ∈ l1.

Lemma topo_snoc w l n :
  topo w l -> (∀ c, edge w c n -> c ∈ l) -> topo w (l ++ [n]).
Proof.
  intros Hl Hn l1 m l2 Heq c He. destruct l2 as [|x l2 _] using rev_ind.
  - apply app_inj_tail in Heq as [-> ->]. by apply Hn.
  - rewrite app_comm_cons, app_assoc in Heq. apply app_inj_tail in Heq as [-> ->].
    by eapply Hl.
Qed.

Section dfs.
Context {PG : PetGraph} {HL : PetGraphLaws PG}.
Variables (w : IRGraph) (r : nat).
Hypothesis Hwf : graph_wf w.
Hypothesis Hac : acyclic w.

(** The state of the walk.  An expanded entry is a node whose children are all
    listed or above it on the stack; everything above it has a path to it. *)
Record dfs_inv (stack : list (nat * bool)) (visited : gset nat) (post : list nat) : Prop := {
  di_nodup : NoDup post;
  di_visited x : x ∈ visited ↔ x ∈ post ∨ (x, true) ∈ stack;
  di_gray x : (x, true) ∈ stack -> x ∉ post;
  di_topo : topo w post;
  di_children s1 n s2 c : stack = s1 ++ (n, true) :: s2 -> edge w c n ->
    c ∈ post ∨ ∃ b, (c, b) ∈ s1;
  di_above s1 m s2 x b : stack = s1 ++ (m, true) :: s2 -> (x, b) ∈ s1 -> tc (edge w) x m;
  di_reach x : x ∈ stack.*1 ∨ x ∈ post -> rtc (edge w) x r;
  di_root : r ∈ visited ∨ (r, false) ∈ stack;
}.

Lemma dfs_init : dfs_inv [(r, false)] ∅ [].
Proof.
  split.
  - constructor.
  - intros x. rewrite list_elem_of_singleton. set_solver.
  - intros x. rewrite list_elem_of_singleton. set_solver.
  - intros l1 n l2. by destruct l1.
  - intros [|? [|? ?]] n s2 c; [done|naive_solver|naive_solver].
  - intros [|? [|? ?]] n s2 c b; [done|naive_solver|naive_solver].
  - intros x [->%list_elem_of_singleton|?]; [done|set_solver].
  - right. set_solver.
Qed.

(** Below an expanded entry [m] nothing with an edge to [m] is expanded. *)
Lemma gray_not_below s1 m s2 n visited post :
  dfs_inv (s1 ++ (m, true) :: s2) visited post -> edge w n m ->
  n ∈ visited -> n ∈ post ∨ (n, true) ∈ s1.
Proof.
  intros Hi He Hv. apply (di_visited _ _ _ Hi) in Hv as [Hv|Hv]; [by left|].
  apply elem_of_app in Hv as [Hv|Hv]; [by right|].
  exfalso. apply elem_of_cons in Hv as [[= ->]|Hv]; [by apply (Hac m), tc_once|].
  apply list_elem_of_split in Hv as (s3 & s4 & ->).
  apply (Hac n). eapply tc_l; [done|].
  eapply (di_above _ _ _ Hi (s1 ++ (m, true) :: s3) _ _ _ true); [by rewrite <- app_assoc|]. set_solver.
Qed.

Lemma dfs_close n stack visited post :
  dfs_inv ((n, true) :: stack) visited post -> dfs_inv stack visited (post ++ [n]).
Proof.
  intros Hi.
  assert (Hn : n ∉ post) by (apply (di_gray _ _ _ Hi); set_solver).
  split.
  - apply NoDup_app. split; [apply (di_nodup _ _ _ Hi)|]. split; [|apply NoDup_singleton].
    set_solver.
  - intros x. rewrite (di_visited _ _ _ Hi), elem_of_app, elem_of_cons, list_elem_of_singleton.
    naive_solver.
  - intros x Hx. rewrite elem_of_app, list_elem_of_singleton. intros [Hp| ->].
    + apply (di_gray _ _ _ Hi x); [set_solver|done].
    + apply list_elem_of_split in Hx as (s1 & s2 & ->).
      apply (Hac n). eapply (di_above _ _ _ Hi ((n, true) :: s1) _ _ _ true); [done|]. set_solver.
  - apply topo_snoc; [apply (di_topo _ _ _ Hi)|]. intros c He.
    destruct (di_children _ _ _ Hi [] n stack c) as [?|[b ?]]; [done|done|done|set_solver].
  - intros s1 m s2 c -> He.
    destruct (di_children _ _ _ Hi ((n, true) :: s1) m s2 c) as [?|[b Hb]]; [done..|set_solver|].
    apply elem_of_cons in Hb as [[= -> ->]|Hb]; [left; set_solver|right; eauto].
  - intros s1 m s2 x b -> Hx. eapply (di_above _ _ _ Hi ((n, true) :: s1) _ _ _ b); [done|]. set_solver.
  - intros x Hx. apply (di_reach _ _ _ Hi). rewrite elem_of_app, list_elem_of_singleton in Hx.
    cbn. rewrite elem_of_cons. naive_solver.
  - destruct (di_root _ _ _ Hi) as [?|Hr]; [by left|]. right. set_solver.
Qed.

Lemma dfs_skip n stack visited post :
  n ∈ visited -> dfs_inv ((n, false) :: stack) visited post -> dfs_inv stack visited post.
Proof.
  intros Hv Hi. split.
  - apply (di_nodup _ _ _ Hi).
  - intros x. rewrite (di_visited _ _ _ Hi), elem_of_cons. naive_solver.
  - intros x Hx. apply (di_gray _ _ _ Hi). set_solver.
  - apply (di_topo _ _ _ Hi).
  - intros s1 m s2 c -> He.
    destruct (di_children _ _ _ Hi ((n, false) :: s1) m s2 c) as [?|[b Hb]]; [done..|by left|].
    apply elem_of_cons in Hb as [[= -> ->]|Hb]; [|eauto].
    destruct (gray_not_below ((n, false) :: s1) m s2 n visited post) as [?|Hg]; [done..|by left|].
    apply elem_of_cons in Hg as [?|Hg]; [done|eauto].
  - intros s1 m s2 x b -> Hx. eapply (di_above _ _ _ Hi ((n, false) :: s1) _ _ _ b); [done|]. set_solver.
  - intros x Hx. apply (di_reach _ _ _ Hi). cbn. rewrite elem_of_cons. naive_solver.
  - destruct (di_root _ _ _ Hi) as [?|Hr]; [by left|].
    apply elem_of_cons in Hr as [[= ->]|Hr]; [by left|by right].
Qed.

(** The entries pushed for the children of a node. *)
Lemma push_children (visited : gset nat) (base : list (nat * bool)) (l : list nat) :
  ∃ pre, foldl (λ st child, if decide (child ∈ visited) then st else (child, false) :: st) base l
      = pre ++ base ∧ length pre <= length l ∧
    ∀ x b, (x, b) ∈ pre ↔ b = false ∧ x ∈ l ∧ x ∉ visited.
Proof.
  revert base; induction l as [|c l IH]; intros base; cbn.
  - exists []. split; [done|]. split; [cbn; lia|]. set_solver.
  - case_decide as Hc.
    + destruct (IH base) as (pre & -> & Hlen & Hpre). exists pre. split; [done|].
      split; [lia|]. intros x b. rewrite Hpre, elem_of_cons. naive_solver.
    + destruct (IH ((c, false) :: base)) as (pre & -> & Hlen & Hpre).
      exists (pre ++ [(c, false)]). rewrite <- app_assoc. split; [done|].
      rewrite length_app. cbn. split; [lia|].
      intros x b. rewrite elem_of_app, Hpre, list_elem_of_singleton, elem_of_cons. naive_solver.
Qed.

(** Where an expanded entry can be in a stack with fresh entries on top. *)
Lemma split_pushed (pre s1 s2 stack : list (nat * bool)) n m :
  (∀ x b, (x, b) ∈ pre -> b = false) ->
  pre ++ (n, true) :: stack = s1 ++ (m, true) :: s2 ->
  (s1 = pre ∧ m = n) ∨ ∃ s1', s1 = pre ++ (n, true) :: s1' ∧ stack = s1' ++ (m, true) :: s2.
Proof.
  revert s1; induction pre as [|[x b] pre IH]; intros s1 Hpre Heq; cbn in *.
  - destruct s1 as [|y s1]; cbn in Heq; [left; naive_solver|]. right.
    injection Heq as -> ->. by exists s1.
  - assert (b = false) as -> by (apply (Hpre x); set_solver).
    destruct s1 as [|y s1]; cbn in Heq; [done|]. injection Heq as <- Heq.
    destruct (IH s1) as [[-> ->]|(s1' & -> & ->)]; [set_solver|done|by left|].
    right. by exists s1'.
Qed.

Lemma dfs_expand n stack visited post pre :
  n ∉ visited -> dfs_inv ((n, false) :: stack) visited post ->
  (∀ x b, (x, b) ∈ pre ↔ b = false ∧ edge w x n ∧ x ∉ ({[n]} ∪ visited : gset nat)) ->
  dfs_inv (pre ++ (n, true) :: stack) ({[n]} ∪ visited) post.
Proof.
  intros Hn Hi Hpre.
  assert (Hpost : n ∉ post).
  { intros Hp. apply Hn, (di_visited _ _ _ Hi). by left. }
  assert (Hfalse : ∀ x b, (x, b) ∈ pre -> b = false) by (intros x b [-> _]%Hpre; done).
  assert (Habove : ∀ s1' m s2, stack = s1' ++ (m, true) :: s2 -> tc (edge w) n m).
  { intros s1' m s2 ->. eapply (di_above _ _ _ Hi ((n, false) :: s1') _ _ _ false); [done|]. set_solver. }
  split.
  - apply (di_nodup _ _ _ Hi).
  - intros x. rewrite elem_of_union, elem_of_singleton, (di_visited _ _ _ Hi), elem_of_app,
      !elem_of_cons. split; [naive_solver|]. intros [?|[Hx|[[= ->]|?]]]; [naive_solver| |naive_solver..].
    by apply Hfalse in Hx.
  - intros x Hx. apply elem_of_app in Hx as [Hx|Hx]; [by apply Hfalse in Hx|].
    apply elem_of_cons in Hx as [[= ->]|Hx]; [done|]. apply (di_gray _ _ _ Hi). set_solver.
  - apply (di_topo _ _ _ Hi).
  - intros s1 m s2 c Heq He.
    apply split_pushed in Heq as [[-> ->]|(s1' & -> & ->)]; [| |done].
    + destruct (decide (c ∈ ({[n]} ∪ visited : gset nat))) as [Hc|Hc];
        [|right; exists false; by apply Hpre].
      apply elem_of_union in Hc as [Hc|Hc].
      { apply elem_of_singleton in Hc as ->. exfalso. by apply (Hac n), tc_once. }
      apply (di_visited _ _ _ Hi) in Hc as [Hc|Hc]; [by left|]. exfalso.
      apply elem_of_cons in Hc as [?|Hc]; [done|].
      apply list_elem_of_split in Hc as (s3 & s4 & ->).
      apply (Hac c). eapply tc_l; [done|]. by eapply Habove.
    + destruct (di_children _ _ _ Hi ((n, false) :: s1') m s2 c) as [?|[b Hb]]; [done..|by left|].
      right. apply elem_of_cons in Hb as [[= -> ->]|Hb]; [exists true|exists b]; set_solver.
  - intros s1 m s2 x b Heq Hx.
    apply split_pushed in Heq as [[-> ->]|(s1' & -> & ->)]; [| |done].
    + apply Hpre in Hx as (_ & He & _). by apply tc_once.
    + assert (Hnm : tc (edge w) n m) by by eapply Habove.
      apply elem_of_app in Hx as [Hx|Hx].
      { apply Hpre in Hx as (_ & He & _). by eapply tc_l. }
      apply elem_of_cons in Hx as [[= -> ->]|Hx]; [done|].
      eapply (di_above _ _ _ Hi ((n, false) :: s1') _ _ _ b); [done|]. set_solver.
  - assert (Hr : rtc (edge w) n r) by (apply (di_reach _ _ _ Hi); cbn; set_solver).
    intros x Hx. rewrite fmap_app, elem_of_app in Hx. cbn in Hx. rewrite elem_of_cons in Hx.
    destruct Hx as [[Hx|[->|Hx]]|Hx]; [|done|apply (di_reach _ _ _ Hi); cbn; set_solver..].
    apply list_elem_of_fmap in Hx as ([y b] & -> & (_ & He & _)%Hpre). by eapply rtc_l.
  - destruct (di_root _ _ _ Hi) as [?|Hr]; [left; set_solver|].
    apply elem_of_cons in Hr as [[= ->]|Hr]; [left; set_solver|right; set_solver].
Qed.

(** The work left: the stack, and what the unvisited nodes will push. *)
Definition unvisited_cost (visited : gset nat) (l : list nat) : nat :=
  sum_list_with (λ n, if decide (n ∈ visited) then 0 else S (length (pg_neighbors_in w n))) l.

Lemma unvisited_cost_visit visited n l : NoDup l -> n ∈ l -> n ∉ visited ->
  unvisited_cost visited l =
  S (length (pg_neighbors_in w n)) + unvisited_cost ({[n]} ∪ visited) l.
Proof.
  unfold unvisited_cost.
  assert (Hother : ∀ l, n ∉ l -> 
      sum_list_with (λ n0, if decide (n0 ∈ ({[n]} ∪ visited : gset nat)) then 0
        else S (length (pg_neighbors_in w n0))) l =
      sum_list_with (λ n0, if decide (n0 ∈ visited) then 0
        else S (length (pg_neighbors_in w n0))) l).
  { intros l'. induction l' as [|x l' IH]; intros Hn; [done|]. cbn.
    rewrite IH by set_solver. f_equal. repeat case_decide; set_solver. }
  induction 1 as [|x l Hx Hnd IH]; [set_solver|]. intros Hn Hv. cbn.
  destruct (decide (x = n)) as [->|Hne].
  - rewrite Hother by done. rewrite decide_False by done. rewrite decide_True by set_solver. lia.
  - rewrite IH by set_solver. destruct (decide (x ∈ visited)).
    + rewrite decide_True by set_solver. lia.
    + rewrite decide_False by set_solver. lia.
Qed.

Lemma dfs_runs fuel stack visited post :
  (∀ x, x ∈ stack.*1 -> x < node_count w) ->
  length stack + unvisited_cost visited (node_indices w) <= fuel ->
  dfs_inv stack visited post ->
  ∃ post' visited', pdom_dfs fuel w stack visited post = Some post' ∧ dfs_inv [] visited' post'.
Proof.
  revert stack visited post. induction fuel as [|fuel IH]; intros stack visited post Hnodes Hfuel Hi.
  - destruct stack as [|e stack]; [|cbn in Hfuel; lia]. eauto.
  - destruct stack as [|[n expanded] stack]; cbn; [eauto|]. destruct expanded.
    + apply IH; [set_solver|cbn in Hfuel; lia|by apply dfs_close].
    + case_decide as Hv.
      * apply IH; [set_solver|cbn in Hfuel; lia|by eapply dfs_skip].
      * destruct (push_children ({[n]} ∪ visited) ((n, true) :: stack) (pg_neighbors_in w n))
          as (pre & -> & Hlen & Hpre).
        setoid_rewrite elem_of_neighbors_in in Hpre.
        assert (Hn : n < node_count w) by (apply Hnodes; cbn; set_solver).
        apply IH.
        -- intros x. rewrite fmap_app, elem_of_app. cbn. rewrite elem_of_cons.
           intros [Hx|[->|Hx]]; [|done|apply Hnodes; cbn; set_solver].
           apply list_elem_of_fmap in Hx as ([y b] & -> & (_ & He & _)%Hpre).
           by apply (edge_nodes w y n).
        -- rewrite (unvisited_cost_visit visited n) in Hfuel;
             [|apply NoDup_node_indices|by apply elem_of_node_indices|done].
           rewrite length_app. cbn in *. lia.
        -- by apply dfs_expand.
Qed.

(** The reverse of the walk's list: the root first, every node that reaches
    the root once, each after its successors. *)
Record rpo_spec (rpo : list nat) : Prop := {
  rpo_nodup : NoDup rpo;
  rpo_complete n : n ∈ rpo ↔ rtc (edge w) n r;
  rpo_sorted i j a b : edge w a b -> rpo !! i = Some a -> rpo !! j = Some b -> j < i;
}.

Lemma topo_closed l n m : topo w l -> rtc (edge w) n m -> m ∈ l -> n ∈ l.
Proof.
  intros Ht. induction 1 as [|n k m He _ IH]; [done|]. intros Hm.
  apply IH in Hm. apply list_elem_of_split in Hm as (l1 & l2 & ->).
  eapply Ht in He; [|done]. set_solver.
Qed.

Lemma topo_sorted l i j a b :
  NoDup l -> topo w l -> edge w a b -> l !! i = Some a -> l !! j = Some b -> i < j.
Proof.
  intros Hnd Ht He Hi Hj.
  assert (Hsplit := take_drop_middle l j b Hj). symmetry in Hsplit.
  pose proof (Ht _ _ _ Hsplit a He) as Ha. apply list_elem_of_lookup in Ha as [k Hk].
  apply lookup_take_Some in Hk as [Hk Hlt].
  assert (k = i) by (by eapply NoDup_lookup). lia.
Qed.

Lemma pdom_rpo_spec : r < node_count w -> ∃ rpo, pdom_rpo w r = Some rpo ∧ rpo_spec rpo.
Proof.
  intros Hr. unfold pdom_rpo.
  destruct (dfs_runs (pdom_fuel w) [(r, false)] ∅ []) as (post & visited & -> & Hi).
  - cbn. set_solver.
  - unfold pdom_fuel, unvisited_cost. cbn. apply le_n_S.
    induction (node_indices w); cbn; [lia|]. rewrite decide_False by set_solver. lia.
  - apply dfs_init.
  - exists (reverse post). split; [done|].
    assert (Hnd := di_nodup _ _ _ Hi).
    assert (Hroot : r ∈ post).
    { destruct (di_root _ _ _ Hi) as [Hv|?]; [|set_solver].
      apply (di_visited _ _ _ Hi) in Hv as [?|?]; [done|set_solver]. }
    split.
    + by rewrite reverse_Permutation.
    + intros n. rewrite elem_of_reverse. split.
      * intros Hn. apply (di_reach _ _ _ Hi). by right.
      * intros Hn. by eapply topo_closed; [apply (di_topo _ _ _ Hi)|..].
    + intros i j a b He Ha Hb.
      assert (Hi' := lookup_lt_Some _ _ _ Ha). assert (Hj' := lookup_lt_Some _ _ _ Hb).
      rewrite length_reverse in Hi', Hj'.
      rewrite reverse_lookup in Ha, Hb by done.
      pose proof (topo_sorted _ _ _ _ _ Hnd (di_topo _ _ _ Hi) He Ha Hb). lia.
Qed.
End dfs.

(** ** The dominator tree *)

Section tree.
Context {PG : PetGraph} {HL : PetGraphLaws PG}.
Variables (w : IRGraph) (r : nat) (rpo : list nat).
Hypothesis Hspec : rpo_spec w r rpo.
Hypothesis Hroot : ∀ m, ¬ edge w r m.

Lemma rpo_index_keys : (imap (λ i n, (n, i)) rpo).*1 = rpo.
Proof.
  rewrite fmap_imap. clear Hspec.
  enough (H : ∀ f : nat -> nat -> nat, (∀ i n, f i n = n) -> imap f rpo = rpo) by by apply H.
  induction rpo as [|x l IH]; intros f Hf; [done|]. cbn. rewrite Hf. f_equal. apply IH.
  intros i n. apply Hf.
Qed.

Lemma rpo_index_lookup n i : rpo_index rpo !! n = Some i ↔ rpo !! i = Some n.
Proof.
  unfold rpo_index.
  rewrite <- elem_of_list_to_map by (rewrite rpo_index_keys; apply (rpo_nodup _ _ _ Hspec)).
  rewrite list_elem_of_lookup. setoid_rewrite list_lookup_imap_Some. naive_solver.
Qed.

Lemma rpo_index_size : size (rpo_index rpo) = length rpo.
Proof.
  unfold rpo_index. rewrite <- length_map_to_list, map_to_list_to_map; [by rewrite length_imap|].
  rewrite rpo_index_keys. apply (rpo_nodup _ _ _ Hspec).
Qed.

Definition at_ (n i : nat) : Prop := rpo !! i = Some n.

Lemma at_inj n m i : at_ n i -> at_ m i -> n = m.
Proof. unfold at_. congruence. Qed.

(** [idom] on the part of the order already processed: a tree with its root at
    [r] whose links go towards the front of the order. *)
Definition parent (idom : gmap nat nat) (a b : nat) : Prop := idom !! a = Some b.
Definition anc (idom : gmap nat nat) : nat -> nat -> Prop := rtc (parent idom).

Record tree_ok (idom : gmap nat nat) : Prop := {
  tr_root : idom !! r = Some r;
  tr_in n : is_Some (idom !! n) -> n ∈ rpo;
  tr_parent n d : idom !! n = Some d -> is_Some (idom !! d);
  tr_up n d i j : idom !! n = Some d -> n ≠ r -> at_ n i -> at_ d j -> j < i;
}.

Section chains.
Variable idom : gmap nat nat.
Hypothesis Ht : tree_ok idom.

Lemma tree_at n : is_Some (idom !! n) -> ∃ i, at_ n i ∧ i < length rpo.
Proof.
  intros H. apply (tr_in _ Ht) in H. apply list_elem_of_lookup in H as [i Hi].
  exists i. split; [done|]. by eapply lookup_lt_Some.
Qed.

Lemma anc_in n d : anc idom n d -> is_Some (idom !! n) -> is_Some (idom !! d).
Proof. induction 1 as [|n m d Hp _ IH]; [done|]. intros _. apply IH. by eapply (tr_parent _ Ht). Qed.

Lemma anc_root d : anc idom r d -> d = r.
Proof.
  intros H. remember r as n eqn:Hn in H. revert Hn.
  induction H as [|n m d Hp _ IH]; [done|]. intros ->. apply IH.
  unfold parent in Hp. rewrite (tr_root _ Ht) in Hp. congruence.
Qed.

Lemma root_front n i j : is_Some (idom !! n) -> at_ n i -> at_ r j -> j <= i.
Proof.
  intros Hn. remember (length rpo + i) as k eqn:Hk.
  revert n i Hk Hn. induction (lt_wf k) as [k _ IH]. intros n i -> Hn Hi Hj.
  destruct (decide (n = r)) as [->|Hne].
  { assert (i = j); [|lia]. eapply NoDup_lookup; [apply (rpo_nodup _ _ _ Hspec)|done..]. }
  destruct Hn as [d Hd]. destruct (tree_at d) as (i' & Hi' & _); [by eapply (tr_parent _ Ht)|].
  pose proof (tr_up _ Ht n d i i' Hd Hne Hi Hi').
  assert (j <= i'); [|lia]. eapply (IH (length rpo + i')); [lia|done| |done..].
  by eapply (tr_parent _ Ht).
Qed.

(** Ancestors are in front. *)
Lemma anc_front n d i j :
  anc idom n d -> is_Some (idom !! n) -> at_ n i -> at_ d j -> j <= i.
Proof.
  intros H. revert i. induction H as [n|n m d Hp Hr IH]; intros i Hn Hi Hj.
  - assert (i = j); [|lia]. eapply NoDup_lookup; [apply (rpo_nodup _ _ _ Hspec)|done..].
  - destruct (decide (n = r)) as [->|Hne].
    + assert (m = r) as ->.
      { unfold parent in Hp. rewrite (tr_root _ Ht) in Hp. congruence. }
      apply anc_root in Hr as ->.
      assert (i = j); [|lia]. eapply NoDup_lookup; [apply (rpo_nodup _ _ _ Hspec)|done..].
    + assert (Hm : is_Some (idom !! m)) by by eapply (tr_parent _ Ht).
      destruct (tree_at m Hm) as (k & Hk & _).
      pose proof (tr_up _ Ht n m i k Hp Hne Hi Hk). pose proof (IH k Hm Hk Hj). lia.
Qed.

Lemma anc_antisym a b :
  anc idom a b -> anc idom b a -> is_Some (idom !! a) -> is_Some (idom !! b) -> a = b.
Proof.
  intros Hab Hba Ha Hb. destruct (tree_at a Ha) as (i & Hi & _).
  destruct (tree_at b Hb) as (j & Hj & _).
  pose proof (anc_front _ _ _ _ Hab Ha Hi Hj). pose proof (anc_front _ _ _ _ Hba Hb Hj Hi).
  eapply at_inj; [done|]. by replace i with j by lia.
Qed.

Lemma anc_step n m d : idom !! n = Some m -> anc idom n d ↔ d = n ∨ anc idom m d.
Proof.
  intros Hp. split.
  - intros [->|(m' & Hp' & Hr)]%rtc_inv; [by left|]. right.
    unfold parent in Hp'. rewrite Hp in Hp'. by injection Hp' as ->.
  - intros [->|H]; [constructor|]. by eapply rtc_l.
Qed.

(** ** Intersection *)

(** Climbing from [a] to [b]'s position keeps the common ancestors. *)
Lemma climb_spec fuel a b ia ib :
  is_Some (idom !! a) -> is_Some (idom !! b) -> at_ a ia -> at_ b ib -> ia <= fuel ->
  ∃ a' ia', climb fuel idom (rpo_index rpo) a b = Some a' ∧ is_Some (idom !! a') ∧
    at_ a' ia' ∧ ia' <= ib ∧ ia' <= ia ∧ (ib < ia -> ia' < ia) ∧ (ia <= ib -> a' = a) ∧
    ∀ d, anc idom a d ∧ anc idom b d ↔ anc idom a' d ∧ anc idom b d.
Proof.
  intros Ha Hb Hia Hib Hf. revert a ia Ha Hia Hf.
  induction fuel as [|fuel IH]; intros a ia Ha Hia Hf;
    cbn [climb]; rewrite (proj2 (rpo_index_lookup a ia) Hia), (proj2 (rpo_index_lookup b ib) Hib);
    cbn [mbind option_bind]; destruct (Nat.ltb_spec ib ia) as [Hlt|Hge].
  - lia.
  - exists a, ia. split; [done|]. do 2 (split; [done|]). split; [lia|]. split; [lia|]. split; [lia|]. by split.
  - destruct Ha as [m Hm]. rewrite Hm. cbn.
    assert (Hne : a ≠ r).
    { intros ->. assert (ia <= ib); [|lia]. by eapply root_front. }
    assert (Hin : is_Some (idom !! m)) by by eapply (tr_parent _ Ht).
    destruct (tree_at m Hin) as (im & Him & _).
    pose proof (tr_up _ Ht a m ia im Hm Hne Hia Him).
    destruct (IH m im Hin Him) as (a' & ia' & -> & Hin' & Hat' & H1 & H2 & H3 & H4 & H5); [lia|].
    exists a', ia'. split; [done|]. do 2 (split; [done|]). split; [done|].
    split; [lia|]. split; [lia|]. split; [lia|].
    intros d. rewrite <- H5, (anc_step a m d Hm). split; [|tauto].
    intros [[->|Hmd] Hbd]; [|done]. exfalso.
    pose proof (anc_front _ _ _ _ Hbd Hb Hib Hia). lia.
  - exists a, ia. split; [done|]. do 2 (split; [done|]). split; [lia|]. split; [lia|]. split; [lia|]. by split.
Qed.

(** [intersect] returns the node whose ancestors are the common ones. *)
Lemma intersect_meet fuel a b ia ib :
  is_Some (idom !! a) -> is_Some (idom !! b) -> at_ a ia -> at_ b ib -> Nat.max ia ib <= fuel ->
  ∃ c, intersect fuel idom (rpo_index rpo) a b = Some c ∧ is_Some (idom !! c) ∧
    ∀ d, anc idom c d ↔ anc idom a d ∧ anc idom b d.
Proof.
  intros Ha Hb Hia Hib Hf. revert a b ia ib Ha Hb Hia Hib Hf.
  induction fuel as [|fuel IH]; intros a b ia ib Ha Hb Hia Hib Hf; cbn; case_decide as Hab.
  - subst b. exists a. split; [done|]. split; [done|]. tauto.
  - destruct Hab. eapply at_inj; [done|]. by replace ia with ib by lia.
  - subst b. exists a. split; [done|]. split; [done|]. tauto.
  - assert (Hsz : ∀ n i, at_ n i -> i <= size (rpo_index rpo)).
    { intros n i Hn. rewrite rpo_index_size. apply lookup_lt_Some in Hn. lia. }
    assert (Hii : ia ≠ ib) by (intros ->; apply Hab; by eapply at_inj).
    destruct (climb_spec (size (rpo_index rpo)) a b ia ib) as
      (a' & ia' & -> & Ha' & Hia' & H1 & H2 & H3 & H4 & H5); [by eauto..|]. cbn.
    destruct (climb_spec (size (rpo_index rpo)) b a' ib ia') as
      (b' & ib' & -> & Hb' & Hib' & G1 & G2 & G3 & G4 & G5); [by eauto..|]. cbn.
    destruct (IH a' b' ia' ib') as (c & -> & Hc & Hanc); [done..| |].
    { destruct (decide (ib < ia)); [specialize (H3 ltac:(lia)); lia|].
      assert (a' = a) as -> by (apply H4; lia).
      assert (ia' = ia); [|lia]. eapply NoDup_lookup; [apply (rpo_nodup _ _ _ Hspec)|done..]. }
    exists c. split; [done|]. split; [done|]. intros d. rewrite Hanc, H5. specialize (G5 d). tauto.
Qed.
End chains.

(** ** The pass over the order *)

Hypothesis Hall : ∀ a b, edge w a b -> rtc (edge w) b r.

(** [d] is on every path from [n] to the root. *)
Definition on_all_paths (d n : nat) : Prop := ∀ l, path (edge w) n l r -> d ∈ l.

Lemma on_all_paths_root d : on_all_paths d r ↔ d = r.
Proof.
  split.
  - intros H. specialize (H [r] (path_here _ _)). set_solver.
  - intros -> l Hp. by eapply path_head.
Qed.

Lemma on_all_paths_step d n : n ≠ r ->
  on_all_paths d n ↔ d = n ∨ ∀ m, edge w n m -> on_all_paths d m.
Proof.
  intros Hn. split.
  - intros H. destruct (decide (d = n)) as [->|Hd]; [by left|]. right.
    intros m He l Hp. specialize (H (n :: l) ltac:(by eapply path_step)). set_solver.
  - intros [->|H] l Hp; [by eapply path_head|].
    inversion Hp as [|? m l' ? He Hp']; subst; [done|].
    apply elem_of_cons. right. by apply (H m He).
Qed.

(** The table after the nodes [pre]: a tree on them, its chains the nodes on
    all paths. *)
Record pass_inv (pre : list nat) (idom : gmap nat nat) : Prop := {
  pi_tree : tree_ok idom;
  pi_dom n : is_Some (idom !! n) ↔ n ∈ pre;
  pi_chain n d : n ∈ pre -> anc idom n d ↔ on_all_paths d n;
}.

Lemma rpo_head : ∃ rest, rpo = r :: rest.
Proof.
  assert (Hr : r ∈ rpo) by by apply (rpo_complete _ _ _ Hspec).
  destruct rpo as [|h rest] eqn:E; [set_solver|]. exists rest. f_equal.
  assert (Hh : rtc (edge w) h r) by (apply (rpo_complete _ _ _ Hspec); set_solver).
  apply rtc_inv in Hh as [?|(m & He & Hm)]; [done|].
  apply (rpo_complete _ _ _ Hspec) in Hm. apply list_elem_of_lookup in Hm as [j Hj].
  pose proof (rpo_sorted _ _ _ Hspec 0 j h m He eq_refl Hj). lia.
Qed.

Lemma tree_init : tree_ok {[r := r]}.
Proof.
  split.
  - by rewrite lookup_singleton_eq.
  - intros n [d [<- _]%lookup_singleton_Some]. by apply (rpo_complete _ _ _ Hspec).
  - intros n d [<- <-]%lookup_singleton_Some. by rewrite lookup_singleton_eq.
  - intros n d i j [<- _]%lookup_singleton_Some. done.
Qed.

Lemma pass_init : pass_inv [r] {[r := r]}.
Proof.
  split; [apply tree_init| |].
  - intros n. rewrite list_elem_of_singleton. split.
    + intros [d [<- _]%lookup_singleton_Some]. done.
    + intros ->. by rewrite lookup_singleton_eq.
  - intros n d ->%list_elem_of_singleton. rewrite on_all_paths_root. split.
    + apply anc_root, tree_init.
    + intros ->. constructor.
Qed.

Lemma at_nodes n : n ∈ rpo -> ∃ i, at_ n i ∧ i <= size (rpo_index rpo).
Proof.
  intros H. apply list_elem_of_lookup in H as [i Hi]. exists i. split; [done|].
  rewrite rpo_index_size. apply lookup_lt_Some in Hi. lia.
Qed.

Lemma fold_preds idom l x :
  tree_ok idom -> (∀ m, m ∈ l -> is_Some (idom !! m)) -> is_Some (idom !! x) ->
  ∃ c, fold_opt (pdom_pred idom (rpo_index rpo)) (Some x) l = Some (Some c) ∧
    is_Some (idom !! c) ∧ ∀ d, anc idom c d ↔ anc idom x d ∧ ∀ m, m ∈ l -> anc idom m d.
Proof.
  intros Ht. revert x. induction l as [|m l IH]; intros x Hl Hx.
  - exists x. split; [done|]. split; [done|]. set_solver.
  - cbn. unfold pdom_pred at 1. destruct (Hl m) as [dm Hm]; [set_solver|]. rewrite Hm.
    destruct (at_nodes x) as (ix & Hix & ?); [by apply (tr_in _ Ht)|].
    destruct (at_nodes m) as (im & Him & ?); [apply (tr_in _ Ht); by rewrite Hm|].
    destruct (intersect_meet idom Ht (size (rpo_index rpo)) x m ix im) as (c & -> & Hc & Hanc);
      [done|by rewrite Hm|done|done|lia|].
    cbn. destruct (IH c) as (c' & -> & Hc' & Hanc'); [set_solver|done|].
    exists c'. split; [done|]. split; [done|]. intros d. rewrite Hanc', Hanc. set_solver.
Qed.

Lemma anc_insert idom n c a d :
  tree_ok idom -> idom !! n = None -> is_Some (idom !! a) ->
  anc (<[n := c]> idom) a d ↔ anc idom a d.
Proof.
  intros Ht Hn Ha. split.
  - intros H. induction H as [|a b d Hp _ IH]; [constructor|]. unfold parent in Hp.
    rewrite lookup_insert_ne in Hp by (intros ->; rewrite Hn in Ha; by destruct Ha).
    eapply rtc_l; [done|]. apply IH. by eapply (tr_parent _ Ht).
  - intros H. induction H as [|a b d Hp _ IH]; [constructor|]. eapply rtc_l.
    + unfold parent. rewrite lookup_insert_ne; [done|]. intros ->. unfold parent in Hp. congruence.
    + apply IH. by eapply (tr_parent _ Ht).
Qed.

(** The next node of the order: its successors are processed. *)
Record next_node (pre : list nat) (n : nat) : Prop := {
  nn_ne : n ≠ r;
  nn_at : at_ n (length pre);
  nn_in : n ∈ rpo;
  nn_new : n ∉ pre;
  nn_pre m j : at_ m j -> m ∈ pre ↔ j < length pre;
  nn_succ m : edge w n m -> m ∈ pre;
  nn_ex : ∃ m, edge w n m;
}.

Lemma next_node_intro pre n rest : rpo = pre ++ n :: rest -> r ∈ pre -> next_node pre n.
Proof.
  intros Hrpo Hr. pose proof (rpo_nodup _ _ _ Hspec) as Hnd.
  assert (Hn : n ∈ rpo) by (rewrite Hrpo; set_solver).
  assert (Hnpre : n ∉ pre).
  { rewrite Hrpo in Hnd. apply NoDup_app in Hnd as (_ & Hd & _). intros Hin.
    apply (Hd n Hin). set_solver. }
  assert (Hat : at_ n (length pre)) by (unfold at_; by rewrite Hrpo, list_lookup_middle).
  assert (Hpre : ∀ m j, at_ m j -> m ∈ pre ↔ j < length pre).
  { intros m j Hj. split.
    - intros Hm. apply list_elem_of_lookup in Hm as [k Hk].
      pose proof (lookup_lt_Some _ _ _ Hk). assert (j = k); [|lia].
      eapply NoDup_lookup; [exact Hnd|exact Hj|]. by rewrite Hrpo, lookup_app_l.
    - intros Hlt. unfold at_ in Hj. rewrite Hrpo, lookup_app_l in Hj by done.
      by eapply list_elem_of_lookup_2. }
  split; [set_solver|done..| |].
  - intros m He. destruct (at_nodes m) as (j & Hj & _).
    { apply (rpo_complete _ _ _ Hspec). by eapply Hall. }
    apply (Hpre m j Hj). by eapply (rpo_sorted _ _ _ Hspec).
  - apply (rpo_complete _ _ _ Hspec) in Hn.
    apply rtc_inv in Hn as [->|(m & He & _)]; [done|eauto].
Qed.

Lemma pass_preds pre n idom : next_node pre n -> pass_inv pre idom ->
  ∃ c, pdom_node w (rpo_index rpo) idom n = Some (<[n := c]> idom) ∧ c ∈ pre ∧
    ∀ d, anc idom c d ↔ ∀ m, edge w n m -> anc idom m d.
Proof.
  intros [_ _ _ _ _ Hsucc Hex] Hi. unfold pdom_node.
  setoid_rewrite <- elem_of_neighbors. setoid_rewrite <- elem_of_neighbors in Hsucc.
  setoid_rewrite <- elem_of_neighbors in Hex.
  destruct (pg_neighbors w n) as [|m l] eqn:E; [destruct Hex; set_solver|].
  cbn. unfold pdom_pred at 1.
  destruct (proj2 (pi_dom _ _ Hi m)) as [dm Hm]; [apply Hsucc; set_solver|]. rewrite Hm.
  destruct (fold_preds idom l m (pi_tree _ _ Hi)) as (c & -> & Hc & Hanc).
  { intros x Hx. apply (pi_dom _ _ Hi), Hsucc. set_solver. }
  { by rewrite Hm. }
  exists c. split; [done|]. split; [by apply (pi_dom _ _ Hi)|].
  intros d. rewrite Hanc. set_solver.
Qed.

Lemma tree_insert pre n c idom : next_node pre n -> pass_inv pre idom -> c ∈ pre ->
  tree_ok (<[n := c]> idom).
Proof.
  intros Hn Hi Hc. pose proof (pi_tree _ _ Hi) as Ht. destruct Hn as [Hne Hat Hin Hnew Hpre _ _].
  split.
  - rewrite lookup_insert_ne by done. apply (tr_root _ Ht).
  - intros a. destruct (decide (a = n)) as [->|]; [done|].
    rewrite lookup_insert_ne by done. apply (tr_in _ Ht).
  - intros a d Hd. destruct (decide (d = n)) as [->|]; [by rewrite lookup_insert_eq|].
    rewrite lookup_insert_ne by done. destruct (decide (a = n)) as [->|].
    + rewrite lookup_insert_eq in Hd. injection Hd as <-. by apply (pi_dom _ _ Hi).
    + rewrite lookup_insert_ne in Hd by done. by eapply (tr_parent _ Ht).
  - intros a d i j Hd Ha Hi' Hj. destruct (decide (a = n)) as [->|].
    + rewrite lookup_insert_eq in Hd. injection Hd as <-.
      assert (i = length pre) as -> by (eapply NoDup_lookup; [apply (rpo_nodup _ _ _ Hspec)|done..]).
      by apply (Hpre c j Hj).
    + rewrite lookup_insert_ne in Hd by done. by eapply (tr_up _ Ht).
Qed.

Lemma pass_step pre n idom :
  next_node pre n -> pass_inv pre idom ->
  ∃ idom', pdom_node w (rpo_index rpo) idom n = Some idom' ∧ pass_inv (pre ++ [n]) idom'.
Proof.
  intros Hn Hi. destruct (pass_preds pre n idom Hn Hi) as (c & -> & Hc & Hanc).
  eexists. split; [done|]. pose proof (pi_tree _ _ Hi) as Ht.
  assert (Hnone : idom !! n = None).
  { apply eq_None_not_Some. rewrite (pi_dom _ _ Hi). apply Hn. }
  assert (Hcs : is_Some (idom !! c)) by by apply (pi_dom _ _ Hi).
  split.
  - by eapply tree_insert.
  - intros a. rewrite elem_of_app, list_elem_of_singleton, <- (pi_dom _ _ Hi).
    destruct (decide (a = n)) as [->|]; [rewrite lookup_insert_eq; naive_solver|].
    rewrite lookup_insert_ne by done. naive_solver.
  - intros a d [Ha| ->%list_elem_of_singleton]%elem_of_app.
    { rewrite anc_insert; [by apply (pi_chain _ _ Hi)|done|done|]. by apply (pi_dom _ _ Hi). }
    rewrite on_all_paths_step by apply Hn.
    transitivity (d = n ∨ anc (<[n:=c]> idom) c d).
    { apply anc_step. by rewrite lookup_insert_eq. }
    rewrite anc_insert by done. rewrite Hanc.
    assert (Hiff : (∀ m, edge w n m -> anc idom m d) ↔ (∀ m, edge w n m -> on_all_paths d m)); [|tauto].
    split; intros H m He; (apply (pi_chain _ _ Hi); [by apply Hn|auto]).
Qed.

Lemma pass_all : ∃ idom, pdom_idom w r rpo = Some idom ∧ pass_inv rpo idom.
Proof.
  destruct rpo_head as [rest0 Hrpo]. unfold pdom_idom.
  assert (Hgen : ∀ rest pre idom, rpo = pre ++ rest -> r ∈ pre -> pass_inv pre idom ->
    ∃ idom', fold_opt (pdom_node w (rpo_index rpo)) idom rest = Some idom' ∧ pass_inv rpo idom').
  { intros rest. induction rest as [|n rest IH]; intros pre idom Heq Hr Hi.
    - rewrite app_nil_r in Heq. exists idom. split; [done|]. by rewrite Heq.
    - destruct (pass_step pre n idom) as (idom' & Hstep & Hi'); [by eapply next_node_intro|done|].
      cbn. rewrite Hstep. apply (IH (pre ++ [n])); [by rewrite <- app_assoc|set_solver|done]. }
  replace (drop 1 rpo) with rest0 by by rewrite Hrpo.
  apply (Hgen rest0 [r]); [done|set_solver|]. apply pass_init.
Qed.
End tree.

(** ** Exactness *)

Section exact.
Context {PG : PetGraph} {HL : PetGraphLaws PG}.
Variable g : IRGraph.
Hypothesis Hwf : graph_wf g.
Hypothesis Hac : acyclic g.

Notation onp := (on_all_paths (work g) (exit_ g)).

(** On the nodes of the graph, the nodes on all paths to the virtual exit are
    the post-dominators and the exit. *)
Lemma on_all_paths_pdom d n :
  n ≠ exit_ g -> d ≠ exit_ g -> onp d n ↔ post_dominates g d n.
Proof.
  intros Hn Hd. split.
  - intros H l s Hp Hs. specialize (H (l ++ [exit_ g])).
    rewrite elem_of_app, list_elem_of_singleton in H. destruct H as [?|?]; [|done|done].
    apply work_path; [done|done|]. eauto.
  - intros H l Hp. apply work_path in Hp as (l' & s & -> & Hp & Hs); [|done|done].
    apply elem_of_app. left. eauto.
Qed.

Lemma post_dominator_lt d n : n < node_count g -> post_dominates g d n -> d < node_count g.
Proof.
  intros Hn H. destruct (reaches_sink g n Hwf Hac Hn) as (s & Hr & Hs).
  apply rtc_path in Hr as [l Hp]. pose proof (H l s Hp Hs) as Hin. clear H.
  induction Hp as [n|n m l k He Hp IH].
  - by apply list_elem_of_singleton in Hin as ->.
  - apply elem_of_cons in Hin as [->|Hin]; [done|]. apply IH; [|done|done].
    by apply (edge_nodes g n m).
Qed.

Lemma post_dominator_is_node d n :
  n < node_count g -> post_dominates g d n -> d ≠ exit_ g.
Proof. intros Hn H%post_dominator_lt; [|done]. unfold exit_. lia. Qed.

(** The last table of the pass: its links are the immediate post-dominators,
    or the exit. *)
Lemma link_immediate rpo idom n d :
  rpo_spec (work g) (exit_ g) rpo -> pass_inv (work g) (exit_ g) rpo rpo idom ->
  n < node_count g -> d ≠ exit_ g ->
  idom !! n = Some d ↔ immediate_post_dominator g n d.
Proof.
  intros Hs Hi Hn Hd. set (r := exit_ g) in *.
  assert (Hnr : n ≠ r) by (unfold r, exit_; lia).
  pose proof (pi_tree _ _ _ _ _ Hi) as Ht.
  assert (Hin : ∀ x, x < node_count (work g) -> x ∈ rpo).
  { intros x Hx. apply (rpo_complete _ _ _ Hs). by apply reaches_exit. }
  assert (Hnin : n ∈ rpo) by (apply Hin; rewrite work_nodes; lia).
  assert (Hlink : ∀ x, idom !! n = Some x -> x ≠ r -> immediate_post_dominator g n x).
  { intros x Hx Hxr. assert (Hxin : x ∈ rpo).
    { apply (pi_dom _ _ _ _ _ Hi). by eapply (tr_parent _ _ _ Ht). }
    split; [|split].
    - intros ->. apply list_elem_of_lookup in Hnin as [i Hi'].
      pose proof (tr_up _ _ _ Ht n n i i Hx Hnr Hi' Hi'). lia.
    - apply on_all_paths_pdom; [done|done|]. apply (pi_chain _ _ _ _ _ Hi); [done|].
      eapply rtc_l; [exact Hx|constructor].
    - intros d' Hd' Hpd. assert (Hd'r : d' ≠ r) by by eapply post_dominator_is_node.
      apply on_all_paths_pdom in Hpd; [|done|done].
      apply (pi_chain _ _ _ _ _ Hi) in Hpd; [|done].
      apply (anc_step _ _ _ _ Hx) in Hpd as [?|Hpd]; [done|].
      apply on_all_paths_pdom; [done|done|]. by apply (pi_chain _ _ _ _ _ Hi). }
  split; [intros Hx; by apply Hlink|].
  intros (Hdn & Hpd & Hmin).
  destruct (proj2 (pi_dom _ _ _ _ _ Hi n) Hnin) as [x Hx].
  pose proof Hpd as Honp. apply on_all_paths_pdom in Honp; [|done|done].
  apply (pi_chain _ _ _ _ _ Hi) in Honp; [|done].
  apply (anc_step _ _ _ _ Hx) in Honp as [?|Hxd]; [done|].
  assert (Hxin : is_Some (idom !! x)) by by eapply (tr_parent _ _ _ Ht).
  assert (Hdin : is_Some (idom !! d)) by by eapply (anc_in _ _ _ Ht).
  destruct (decide (x = r)) as [->|Hxr].
  { by apply (anc_root _ _ _ Ht) in Hxd. }
  destruct (Hlink x Hx Hxr) as (Hxn & Hxpd & _).
  pose proof (Hmin x Hxn Hxpd) as Hdx. apply on_all_paths_pdom in Hdx; [|done|done].
  apply (pi_chain _ _ _ _ _ Hi) in Hdx; [|by apply (pi_dom _ _ _ _ _ Hi)].
  rewrite Hx. f_equal. by eapply (anc_antisym _ _ _ Hs).
Qed.

(** [compute_post_dominators] returns the immediate post-dominators. *)
Lemma compute_post_dominators_spec :
  ∃ pd, compute_post_dominators g = Some pd ∧
    ∀ n d, pd !! n = Some d ↔ n < node_count g ∧ immediate_post_dominator g n d.
Proof.
  unfold compute_post_dominators. rewrite pdom_work_eq.
  assert (Hwac : acyclic (work g)) by by apply work_acyclic.
  assert (Hwwf : graph_wf (work g)) by by apply work_wf.
  destruct (pdom_rpo_spec (work g) (exit_ g) Hwwf Hwac) as (rpo & -> & Hs).
  { rewrite work_nodes. unfold exit_. lia. }
  destruct (pass_all (work g) (exit_ g) rpo Hs) as (idom & Hpass & Hi).
  { intros m. by apply exit_no_edge. }
  { intros a b He. apply reaches_exit; [done..|]. by apply (edge_nodes (work g) a b). }
  cbn [mbind option_bind]. rewrite Hpass. cbn [mbind option_bind]. eexists. split; [done|].
  intros n d. rewrite map_lookup_filter_Some, lookup_delete_Some. cbn. split.
  - intros [[Hn Hx] Hd].
    assert (Hlt : n < node_count g).
    { assert (Hin : n ∈ rpo) by (apply (pi_dom _ _ _ _ _ Hi); eauto).
      apply (rpo_complete _ _ _ Hs) in Hin. apply rtc_inv in Hin as [->|(m & He & _)]; [done|].
      apply work_edge in He as [He|[[? _] _]]; [|done]. by apply (edge_nodes g n m). }
    split; [done|]. by eapply link_immediate.
  - intros [Hlt Hipd].
    assert (Hd : d ≠ exit_ g) by (eapply post_dominator_is_node; [done|]; apply Hipd).
    split; [|done]. split; [unfold exit_; lia|]. by eapply link_immediate.
Qed.
End exact.
