(* ===== verification/BpmnLayout.v ===== *)
(** * Layout and emission

    [structured_order] lists every node once.  Emission keeps to the addresses
    the first pass assigned: each node's instructions start at its base address
    and fit the count reserved for it, the gap to the next node is filled with
    jumps.  [wr] is the logic these facts are proved in: what a computation of
    the emission monad appends to the program. *)

From S2P Require Import Prelude RustStr Json Types Platform Effects Transition Verifier BpmnIr BpmnVerify BpmnLower BpmnDominators.

(** ** Layout order *)

Section order.
Context {PG : PetGraph} {HL : PetGraphLaws PG}.
Variables (g : IRGraph) (region_map : gmap nat nat).
Hypothesis Hwf : graph_wf g.
Hypothesis Hmerge : ∀ n m, region_map !! n = Some m -> m < node_count g.

(** [visited] is the set of the nodes of [order], without repetition. *)
Record layout_ok (st : LayoutState) : Prop := {
  lo_nodup : NoDup st.2;
  lo_visited x : x ∈ st.1 ↔ x ∈ st.2;
  lo_nodes x : x ∈ st.2 -> x < node_count g;
}.

(** The nodes still to be laid out. *)
Definition left_over (st : LayoutState) : nat := node_count g - size st.1.

Lemma layout_full st x :
  layout_ok st -> left_over st = 0 -> x < node_count g -> x ∈ st.1.
Proof.
  intros Hst Hz Hx. unfold left_over in Hz.
  assert (Hsub : st.1 ⊆ list_to_set (node_indices g)).
  { intros y Hy. apply elem_of_list_to_set, elem_of_node_indices, (lo_nodes _ Hst).
    by apply (lo_visited _ Hst). }
  assert (Heq : st.1 ≡ list_to_set (node_indices g)).
  { apply set_subseteq_size_equiv; [done|].
    rewrite size_list_to_set by apply NoDup_node_indices.
    unfold node_indices. rewrite length_seq. lia. }
  by apply Heq, elem_of_list_to_set, elem_of_node_indices.
Qed.

Lemma layout_visit st n :
  layout_ok st -> n ∉ st.1 -> n < node_count g ->
  layout_ok ({[n]} ∪ st.1, st.2 ++ [n]) ∧
  S (left_over ({[n]} ∪ st.1, st.2 ++ [n])) = left_over st.
Proof.
  intros Hst Hn Hlt. pose proof (lo_visited _ Hst) as Hv. split.
  - split; cbn.
    + apply NoDup_app. split; [apply (lo_nodup _ Hst)|]. split; [|apply NoDup_singleton].
      intros x Hx ->%list_elem_of_singleton. by apply Hn, Hv.
    + intros x. rewrite elem_of_union, elem_of_singleton, elem_of_app, list_elem_of_singleton, Hv.
      tauto.
    + intros x [Hx| ->%list_elem_of_singleton]%elem_of_app; [by apply (lo_nodes _ Hst)|done].
  - unfold left_over. cbn. rewrite size_union by set_solver. rewrite size_singleton.
    assert (size st.1 < node_count g); [|lia].
    destruct (decide (size st.1 < node_count g)); [done|].
    destruct Hn. apply layout_full; [done|unfold left_over; lia|done].
Qed.

(** What a call adds: it keeps the order so far, and lays out the node it is
    called on unless that is the boundary. *)
Definition laid (node : nat) (stop_at : option nat) (st st' : LayoutState) : Prop :=
  layout_ok st' ∧ st.2 `prefix_of` st'.2 ∧ (Some node ≠ stop_at -> node ∈ st'.1) ∧
  (Some node ≠ stop_at -> node ∉ st.1 -> st.2 ++ [node] `prefix_of` st'.2).

Lemma left_over_mono st st' :
  layout_ok st -> layout_ok st' -> st.2 `prefix_of` st'.2 -> left_over st' <= left_over st.
Proof.
  intros Hst Hst' [l Hl]. unfold left_over.
  assert (size st.1 <= size st'.1); [|lia]. apply subseteq_size. intros x.
  rewrite (lo_visited _ Hst), (lo_visited _ Hst'), Hl. set_solver.
Qed.

(** A loop of calls. *)
Lemma fold_layout (f : LayoutState -> nat -> option LayoutState) fuel l st :
  (∀ st n, n ∈ l -> layout_ok st -> left_over st <= fuel ->
     ∃ st', f st n = Some st' ∧ layout_ok st' ∧ st.2 `prefix_of` st'.2) ->
  layout_ok st -> left_over st <= fuel ->
  ∃ st', fold_opt f st l = Some st' ∧ layout_ok st' ∧ st.2 `prefix_of` st'.2.
Proof.
  revert st; induction l as [|n l IH]; intros st Hf Hst Hfuel; cbn; [eauto|].
  destruct (Hf st n) as (st1 & -> & Hst1 & Hp1); [set_solver|done|done|].
  destruct (IH st1) as (st2 & -> & Hst2 & Hp2); [set_solver|done| |].
  { pose proof (left_over_mono _ _ Hst Hst1 Hp1). lia. }
  exists st2. split; [done|]. split; [done|]. by etrans.
Qed.

Lemma layout_region_spec fuel node stop_at st :
  node < node_count g -> layout_ok st -> left_over st <= fuel ->
  ∃ st', layout_region fuel g region_map node stop_at st = Some st' ∧ laid node stop_at st st'.
Proof.
  revert node stop_at st. induction fuel as [|fuel IH]; intros node stop_at st Hn Hst Hf; cbn;
    (case_decide as Hs; [exists st; by split_and!|]);
    (case_decide as Hv; [exists st; by split_and!|]).
  { destruct Hv. apply layout_full; [done|lia|done]. }
  destruct (layout_visit st node Hst Hv Hn) as [Hst1 Hleft].
  set (st1 := ({[node]} ∪ st.1, st.2 ++ [node])) in *.
  assert (Hp1 : st.2 `prefix_of` st1.2) by by exists [node].
  assert (Hin1 : node ∈ st1.2) by (cbn; set_solver).
  assert (Hdone : ∀ st', layout_ok st' -> st1.2 `prefix_of` st'.2 -> laid node stop_at st st').
  { intros st' Hst' Hp. split; [done|]. split; [by etrans|]. split; [|done]. intros _.
    apply (lo_visited _ Hst'). destruct Hp as [l ->]. set_solver. }
  assert (Hfold : ∀ stop l, (∀ m, m ∈ l -> edge g node m) ->
      ∃ st', fold_opt (λ st n, layout_region fuel g region_map n stop st) st1 l = Some st' ∧
        layout_ok st' ∧ st1.2 `prefix_of` st'.2).
  { intros stop l Hl. apply (fold_layout _ fuel); [|done|lia]. intros st' m Hm Hst' Hf'.
    destruct (IH m stop st') as (st2 & -> & Hst2 & Hp2 & _); [|done|done|by eauto].
    by apply (edge_nodes g node m); [|apply Hl]. }
  assert (Hnb : ∀ m, m ∈ pg_neighbors g node -> edge g node m) by (intros m; apply elem_of_neighbors).
  destruct (pg_neighbors g node) as [|m [|m' l]] eqn:E.
  - exists st1. split; [done|]. by apply Hdone.
  - destruct (IH m stop_at st1) as (st2 & -> & Hst2 & Hp2 & _); [|done|lia|].
    { apply (edge_nodes g node m); [done|]. apply Hnb. set_solver. }
    exists st2. split; [done|]. by apply Hdone.
  - destruct (region_map !! node) as [merge|] eqn:Em.
    + destruct (Hfold (Some merge) (m :: m' :: l) Hnb) as (st2 & -> & Hst2 & Hp2). cbn.
      destruct (IH merge stop_at st2) as (st3 & -> & Hst3 & Hp3 & _); [by eapply Hmerge|done| |].
      { pose proof (left_over_mono _ _ Hst1 Hst2 Hp2). lia. }
      exists st3. split; [done|]. apply Hdone; [done|]. by etrans.
    + destruct (Hfold stop_at (m :: m' :: l) Hnb) as (st2 & -> & Hst2 & Hp2).
      exists st2. split; [done|]. by apply Hdone.
Qed.

Lemma sweep_spec l st :
  (∀ n, n ∈ l -> n < node_count g) -> layout_ok st ->
  ∃ st', fold_opt (λ st idx, if decide (idx ∈ st.1) then Some st
           else layout_region (node_count g) g region_map idx None st) st l = Some st' ∧
    layout_ok st' ∧ st.2 `prefix_of` st'.2 ∧ ∀ n, n ∈ l -> n ∈ st'.1.
Proof.
  revert st; induction l as [|n l IH]; intros st Hl Hst; cbn [fold_opt].
  { exists st. split_and!; [done..|set_solver]. }
  assert (Hstep : ∃ st1, (if decide (n ∈ st.1) then Some st
      else layout_region (node_count g) g region_map n None st) = Some st1 ∧
      layout_ok st1 ∧ st.2 `prefix_of` st1.2 ∧ n ∈ st1.1).
  { case_decide; [by exists st|].
    destruct (layout_region_spec (node_count g) n None st) as (st1 & -> & H1 & H2 & H3 & _);
      [apply Hl; set_solver|done|unfold left_over; lia|]. exists st1. split_and!; [done..|].
    by apply H3. }
  destruct Hstep as (st1 & -> & Hst1 & Hp1 & Hin).
  destruct (IH st1) as (st2 & -> & Hst2 & Hp2 & Hall); [set_solver|done|].
  exists st2. split_and!; [done|done|by etrans|]. intros m [->|Hm]%elem_of_cons; [|by apply Hall].
  apply (lo_visited _ Hst2). apply (lo_visited _ Hst1) in Hin. destruct Hp2 as [l' ->]. set_solver.
Qed.

(** The order is a list of all the nodes, the start node first. *)
Lemma structured_order_spec start :
  start < node_count g ->
  ∃ order, structured_order g start region_map = Some order ∧ order ≡ₚ node_indices g ∧
    head order = Some start.
Proof.
  intros Hs. unfold structured_order.
  assert (Hinit : layout_ok (∅, [])) by (split; cbn; [constructor|set_solver|set_solver]).
  destruct (layout_region_spec (node_count g) start None (∅, [])) as (st1 & E1 & Hst1 & _ & _ & Hpre);
    [done|done|unfold left_over; lia|].
  destruct Hpre as [l1 Hl1]; [done|set_solver|].
  rewrite E1. cbn [mbind option_bind].
  destruct (sweep_spec (node_indices g) st1) as (st2 & -> & Hst2 & [l Hl] & Hall); [|done|].
  { intros n. apply elem_of_node_indices. }
  cbn. exists st2.2. split; [done|]. split.
  - apply NoDup_Permutation; [apply (lo_nodup _ Hst2)|apply NoDup_node_indices|].
    intros x. rewrite elem_of_node_indices. split; [apply (lo_nodes _ Hst2)|].
    intros Hx. apply (lo_visited _ Hst2), Hall. by apply elem_of_node_indices.
  - by rewrite Hl, Hl1.
Qed.
End order.

(** ** What a computation appends *)

Definition wr {A} (m : LM A) (Q : A -> list Instr -> Prop) : Prop :=
  ∀ s a s', m s = Ok (a, s') ->
    ∃ code, ls_instructions s' = ls_instructions s ++ code ∧ Q a code.

Section wr.
Context {A B : Type}.
Implicit Types Q : A -> list Instr -> Prop.

Lemma wr_ret (a : A) Q : Q a [] -> wr (mret a) Q.
Proof. intros H s a' s' [= <- <-]. exists []. by rewrite app_nil_r. Qed.

Lemma wr_bind (m : LM A) (f : A -> LM B) Q (Q2 : B -> list Instr -> Prop) :
  wr m Q -> (∀ a c1, Q a c1 -> wr (f a) (λ b c2, Q2 b (c1 ++ c2))) -> wr (m ≫= f) Q2.
Proof.
  intros Hm Hf s b s' H. unfold mbind, LM_bind in H.
  destruct (m s) as [[a s1]|] eqn:Em; [|done].
  destruct (Hm s a s1 Em) as (c1 & Hc1 & HQ). destruct (Hf a c1 HQ s1 b s' H) as (c2 & Hc2 & HQ2).
  exists (c1 ++ c2). split; [|done]. by rewrite Hc2, Hc1, app_assoc.
Qed.

Lemma wr_mono (m : LM A) Q Q' : wr m Q -> (∀ a c, Q a c -> Q' a c) -> wr m Q'.
Proof. intros Hm HQ s a s' H. destruct (Hm s a s' H) as (c & ? & ?). eauto. Qed.

Lemma wr_fail e Q : wr (lm_fail e) Q.
Proof. intros s a s' [=]. Qed.

Lemma wr_lift (r : Result LowerError A) Q : (∀ a, r = Ok a -> Q a []) -> wr (lm_lift r) Q.
Proof.
  intros H s a s'. unfold lm_lift. destruct r as [a'|]; [|done]. intros [= <- <-].
  exists []. rewrite app_nil_r. auto.
Qed.

Lemma wr_ok_or msg (o : option A) Q : (∀ a, o = Some a -> Q a []) -> wr (lm_ok_or msg o) Q.
Proof. intros H. apply wr_lift. intros a Ha. apply H. by apply ok_or_ok in Ha. Qed.

Lemma wr_expect msg (o : option A) Q : (∀ a, o = Some a -> Q a []) -> wr (lm_expect msg o) Q.
Proof. intros H. apply wr_lift. intros a Ha. apply H. by apply ok_or_ok in Ha. Qed.
End wr.

(** The primitives: one instruction appended, or none. *)
Lemma wr_emit i (Q : unit -> list Instr -> Prop) : Q tt [i] -> wr (emit i) Q.
Proof. intros H s [] s' [= <-]. by exists [i]. Qed.

(** A computation that leaves the program as it is. *)
Definition silent {A} (m : LM A) : Prop :=
  ∀ s a s', m s = Ok (a, s') -> ls_instructions s' = ls_instructions s.
Lemma wr_silent {A} (m : LM A) (Q : A -> list Instr -> Prop) : silent m -> (∀ a, Q a []) -> wr m Q.
Proof. intros Hm HQ s a s' H. exists []. rewrite app_nil_r. eauto. Qed.

Lemma here_silent : silent here. Proof. by intros s a s' [= _ <-]. Qed.
Lemma put_debug_silent a i : silent (put_debug a i). Proof. by intros s x s' [= _ <-]. Qed.
Lemma put_message_name_silent a i : silent (put_message_name a i). Proof. by intros s x s' [= _ <-]. Qed.
Lemma put_ffi_decl_silent a i : silent (put_ffi_decl a i). Proof. by intros s x s' [= _ <-]. Qed.
Lemma put_corr_source_silent a i : silent (put_corr_source a i). Proof. by intros s x s' [= _ <-]. Qed.
Lemma put_guard_budget_silent a i : silent (put_guard_budget a i). Proof. by intros s x s' [= _ <-]. Qed.
Lemma lm_intern_flag_silent n : silent (lm_intern_flag n).
Proof. intros s x s'. unfold lm_intern_flag. destruct (intern_flag _ _). by intros [= _ <-]. Qed.
Lemma lm_intern_task_silent n : silent (lm_intern_task n).
Proof. intros s x s'. unfold lm_intern_task. destruct (intern_task _ _ _) as [[? ?] ?]. by intros [= _ <-]. Qed.

Create HintDb lowering.
#[export] Hint Resolve here_silent put_debug_silent put_message_name_silent put_ffi_decl_silent
  put_corr_source_silent put_guard_budget_silent lm_intern_flag_silent lm_intern_task_silent : lowering.

(** A loop: the concatenation of what its iterations append. *)
Lemma wr_for {A} (f : A -> LM unit) (R : A -> list Instr -> Prop) (l : list A) :
  (∀ x, x ∈ l -> wr (f x) (λ _, R x)) ->
  wr (lm_for f l) (λ _ code, ∃ cs, code = mjoin cs ∧ Forall2 R l cs).
Proof.
  induction l as [|x l IH]; intros Hf; cbn [lm_for].
  - apply wr_ret. by exists [].
  - eapply wr_bind; [apply Hf; set_solver|]. intros [] c1 Hc1.
    eapply wr_mono; [apply IH; set_solver|]. intros [] c2 (cs & -> & Hcs).
    exists (c1 :: cs). split; [done|]. by constructor.
Qed.

(** All the instructions appended satisfy [P], and they are at most [k]. *)
Definition blk (P : Instr -> Prop) (k : N) (code : list Instr) : Prop :=
  Forall P code ∧ (len code <= k)%N.

Lemma blk_app P k1 k2 c1 c2 : blk P k1 c1 -> blk P k2 c2 -> blk P (k1 + k2) (c1 ++ c2).
Proof.
  intros [H1 L1] [H2 L2]. split; [by apply Forall_app|].
  unfold len in *. rewrite length_app. lia.
Qed.

Lemma len_app {A} (l1 l2 : list A) : len (l1 ++ l2) = (len l1 + len l2)%N.
Proof. unfold len. rewrite length_app. lia. Qed.

Lemma blk_mjoin {A} P (size : A -> N) (l : list A) cs :
  Forall2 (λ x c, blk P (size x) c) l cs -> blk P (foldr N.add 0%N (size <$> l)) (mjoin cs).
Proof.
  induction 1 as [|x c l cs Hc _ IH]; cbn; [by split|]. by apply blk_app.
Qed.

(** Exactly [size x] instructions per iteration. *)
Lemma len_mjoin {A} (size : A -> N) (l : list A) (cs : list (list Instr)) :
  Forall2 (λ x c, len c = size x) l cs -> len (mjoin cs) = foldr N.add 0%N (size <$> l).
Proof.
  induction 1 as [|x c l cs Hc _ IH]; [done|].
  change (mjoin (c :: cs)) with (c ++ mjoin cs). by rewrite len_app, Hc, IH.
Qed.

Lemma sum_const {A} (k : N) (l : list A) : foldr N.add 0%N ((λ _, k) <$> l) = (k * len l)%N.
Proof.
  unfold len. induction l as [|x l IH]; [by rewrite N.mul_0_r|]. cbn [fmap list_fmap foldr length].
  change (list_fmap _ _ ?f ?l) with (f <$> l). rewrite IH. lia.
Qed.

(** ** Addresses without overflow *)

Definition u32_size : N := 4294967296.

Lemma as_u32_id n : (n < u32_size)%N -> as_u32 n = n.
Proof. apply N.mod_small. Qed.

Lemma addr_add_id a n : (a + n < u32_size)%N -> addr_add a n = (a + n)%N.
Proof. apply as_u32_id. Qed.

Lemma header_addrs_range a sizes h :
  (a + foldr N.add 0%N sizes < u32_size)%N -> (∀ n, n ∈ sizes -> (1 <= n)%N) ->
  h ∈ header_addrs a sizes -> (a <= h < a + foldr N.add 0 sizes)%N.
Proof.
  revert a; induction sizes as [|n sizes IH]; intros a Hfit Hpos; [set_solver|].
  cbn in *. assert (1 <= n)%N by (apply Hpos; set_solver).
  intros [->|Hh]%elem_of_cons; [lia|].
  rewrite addr_add_id in Hh by lia. apply IH in Hh; [lia|lia|set_solver].
Qed.

(** ** Blocks *)

(** A computation that appends at most [k] instructions, all of them [P], and
    returns a value in [R]. *)
Definition wb {A} (P : Instr -> Prop) (k : N) (m : LM A) (R : A -> Prop) : Prop :=
  wr m (λ a c, R a ∧ blk P k c).

Section wb.
Context (P : Instr -> Prop).

Lemma wb_ret {A} k (a : A) (R : A -> Prop) : R a -> wb P k (mret a) R.
Proof. intros H. apply wr_ret. split; [done|]. split; [done|]. unfold len. cbn. lia. Qed.

Lemma wb_bind {A B} k1 k2 k (m : LM A) (f : A -> LM B) R1 R2 :
  (k1 + k2 <= k)%N -> wb P k1 m R1 -> (∀ a, R1 a -> wb P k2 (f a) R2) -> wb P k (m ≫= f) R2.
Proof.
  intros Hk Hm Hf. eapply wr_bind; [exact Hm|]. intros a c1 [HR Hc1].
  eapply wr_mono; [by apply Hf|]. intros b c2 [HR2 Hc2]. split; [done|].
  destruct (blk_app _ _ _ _ _ Hc1 Hc2) as [HF HL]. split; [done|lia].
Qed.

Lemma wb_weaken {A} k k' (m : LM A) (R R' : A -> Prop) :
  wb P k m R -> (k <= k')%N -> (∀ a, R a -> R' a) -> wb P k' m R'.
Proof.
  intros Hm Hk HR. eapply wr_mono; [exact Hm|]. intros a c [Ha [HF HL]].
  split; [by apply HR|]. split; [done|lia].
Qed.

Lemma wb_emit i k (R : unit -> Prop) : (1 <= k)%N -> P i -> R tt -> wb P k (emit i) R.
Proof. intros Hk Hi HR. apply wr_emit. split; [done|]. split; [by constructor|]. unfold len. cbn. lia. Qed.

Lemma wb_silent {A} k (m : LM A) (R : A -> Prop) : silent m -> (∀ a, R a) -> wb P k m R.
Proof. intros Hm HR. apply wr_silent; [done|]. intros a. split; [done|]. split; [done|]. unfold len. cbn. lia. Qed.

Lemma wb_fail {A} k e (R : A -> Prop) : wb P k (lm_fail e) R.
Proof. apply wr_fail. Qed.

Lemma wb_lift {A} k (r : Result LowerError A) (R : A -> Prop) :
  (∀ a, r = Ok a -> R a) -> wb P k (lm_lift r) R.
Proof.
  intros H. apply wr_lift. intros a Ha. split; [by apply H|]. split; [done|]. unfold len. cbn. lia.
Qed.

Lemma wb_ok_or {A} k msg (o : option A) (R : A -> Prop) :
  (∀ a, o = Some a -> R a) -> wb P k (lm_ok_or msg o) R.
Proof. intros H. apply wb_lift. intros a Ha. apply H. by apply ok_or_ok in Ha. Qed.

Lemma wb_expect {A} k msg (o : option A) (R : A -> Prop) :
  (∀ a, o = Some a -> R a) -> wb P k (lm_expect msg o) R.
Proof. intros H. apply wb_lift. intros a Ha. apply H. by apply ok_or_ok in Ha. Qed.

Lemma wb_for {A} (size : A -> N) (f : A -> LM unit) (l : list A) k (R : unit -> Prop) :
  (foldr N.add 0%N (size <$> l) <= k)%N -> R tt ->
  (∀ x, x ∈ l -> wb P (size x) (f x) (λ _, True)) -> wb P k (lm_for f l) R.
Proof.
  intros Hk HR Hf. eapply wr_mono.
  - apply (wr_for f (λ x c, blk P (size x) c)). intros x Hx.
    eapply wr_mono; [by apply Hf|]. by intros ? ? [_ ?].
  - intros [] c (cs & -> & Hcs). split; [done|].
    destruct (blk_mjoin P size l cs Hcs) as [HF HL]. split; [done|lia].
Qed.
End wb.

(** Exactly [k] instructions, all of them [P]. *)
Definition we {A} (P : Instr -> Prop) (k : N) (m : LM A) : Prop :=
  wr m (λ _ c, Forall P c ∧ len c = k).

Section we.
Context (P : Instr -> Prop).

Lemma we_bind {A B} k1 k2 k (m : LM A) (f : A -> LM B) :
  (k1 + k2 = k)%N -> we P k1 m -> (∀ a, we P k2 (f a)) -> we P k (m ≫= f).
Proof.
  intros <- Hm Hf. eapply wr_bind; [exact Hm|]. intros a c1 [F1 L1].
  eapply wr_mono; [apply Hf|]. intros b c2 [F2 L2]. split; [by apply Forall_app|].
  rewrite len_app. lia.
Qed.

Lemma we_emit i : P i -> we P 1 (emit i).
Proof. intros Hi. apply wr_emit. split; [by constructor|done]. Qed.

Lemma we_silent {A} (m : LM A) : silent m -> we P 0 m.
Proof. intros Hm. by apply wr_silent. Qed.

Lemma we_for {A} k (f : A -> LM unit) (l : list A) :
  (∀ x, x ∈ l -> we P k (f x)) -> we P (k * len l) (lm_for f l).
Proof.
  intros Hf. eapply wr_mono; [apply (wr_for f (λ _ c, Forall P c ∧ len c = k)); exact Hf|].
  intros [] c (cs & -> & Hcs). split.
  - induction Hcs as [|x c l cs [Hc _] _ IH]; [done|].
    change (mjoin (c :: cs)) with (c ++ mjoin cs). apply Forall_app. split; [done|].
    apply IH. set_solver.
  - rewrite (len_mjoin (λ _, k) l cs), sum_const; [done|].
    eapply Forall2_impl; [exact Hcs|]. by intros ? ? [_ ?].
Qed.
End we.

Lemma we_wb {A} P k (m : LM A) : we P k m -> wb P k m (λ _, True).
Proof. intros H. eapply wr_mono; [exact H|]. intros a c [? ?]. split; [done|]. split; [done|lia]. Qed.

(** ** Where the emitted code may transfer control *)

Definition instr_targets (i : Instr) : list Addr :=
  match i with
  | IJump target | IBrIf target | IBrIfNot target | IBrCounterLt _ _ target => [target]
  | IV2Fork targets _ => targets
  | IV2Guard handler | IV2GuardN handler | IV2GuardArmError _ handler => [handler]
  | _ => []
  end.

(** The boundary node [b] is attached to the node with this id. *)
Definition attached (g : IRGraph) (b : nat) (id : string) : Prop :=
  match node_at g b with
  | Some (NBoundaryTimer _ attached_to _ _ _) => attached_to = id
  | Some (NBoundaryError _ attached_to _ _) => attached_to = id
  | _ => False
  end.

(** What an address in the code of node [idx] may be: the code of a node its
    sequence flow leads to, of a node the flow of one of its boundary events
    leads to, of the inclusive join its skipped branches go to, or inside its
    own code.  Only a node without outgoing flow may name another address. *)
Inductive flow_target {PG : PetGraph} (g : IRGraph) (p : LowerPlan) (idx : nat) (base : Addr)
    (a : Addr) : Prop :=
| FTFlow m : edge g idx m -> lp_node_addr p !! m = Some a -> flow_target g p idx base a
| FTBoundary b m : attached g b (node_id_at g idx) -> edge g b m ->
    lp_node_addr p !! m = Some a -> flow_target g p idx base a
| FTSkip : inclusive_join_addr (lp_pairing p) !! idx = Some a -> flow_target g p idx base a
| FTInside : (base <= a < base + instr_count_for g (lp_tables p) idx)%N -> flow_target g p idx base a
| FTDangling : (∀ m, ¬ edge g idx m) -> flow_target g p idx base a.

(** The fork a join in the code of [idx] names. *)
Definition join_of (g : IRGraph) (p : LowerPlan) (idx : nat) (base pairing : Addr) : Prop :=
  fork_pairing (lp_pairing p) !! idx = Some pairing ∨
  inclusive_fork_addr (lp_pairing p) !! idx = Some pairing ∨
  (pairing = (base + 1)%N ∧
   match node_at g idx with Some (NMultiInstance _ _ _ _ _) => True | _ => False end).

Definition ok_instr {PG : PetGraph} (g : IRGraph) (p : LowerPlan) (idx : nat) (base : Addr)
    (i : Instr) : Prop :=
  (∀ a, a ∈ instr_targets i -> flow_target g p idx base a) ∧
  (∀ pairing, i = IV2Join pairing -> join_of g p idx base pairing).

(** The position of the fork in the code of a node that forks. *)
Definition fork_position {PG : PetGraph} (g : IRGraph) (t : LowerTables) (idx : nat) : option N :=
  match node_at g idx with
  | Some (NGatewayAnd _ _ Diverging) => Some 0%N
  | Some (NGatewayInclusive _ _ Diverging) =>
      Some (inclusive_precheck_len (default [] (inclusive_branches t !! idx)))
  | Some (NMultiInstance _ _ _ _ _) => Some 1%N
  | _ => None
  end.

(** ** The tables of the first pass *)

Section tables.
Context {PG : PetGraph}.
Variable g : IRGraph.

Lemma boundary_lookup_attached order id b spec :
  build_boundary_lookup g order !! id = Some (b, spec) -> attached g b id.
Proof.
  unfold build_boundary_lookup.
  assert (Hgen : ∀ m : BoundaryLookup, (∀ id b spec, m !! id = Some (b, spec) -> attached g b id) ->
    ∀ id b spec, foldl (λ m node_idx,
      match node_at g node_idx with
      | Some (NBoundaryTimer _ attached_to spec _ _) => <[attached_to := (node_idx, spec)]> m
      | _ => m
      end) m order !! id = Some (b, spec) -> attached g b id); [|by apply Hgen].
  clear. induction order as [|n order IH]; intros m Hm; [done|]. cbn. apply IH.
  destruct (node_at g n) as [[]|] eqn:En; try exact Hm.
  intros id' b' spec' [[-> [= -> _]]|[_ H]]%lookup_insert_Some; [|by eapply Hm].
  unfold attached. by rewrite En.
Qed.

Lemma boundary_error_attached order id l :
  build_boundary_error_lookup g order !! id = Some l ->
  length l <= length order ∧ ∀ b code, (b, code) ∈ l -> attached g b id.
Proof.
  unfold build_boundary_error_lookup.
  assert (Hgen : ∀ k (m : BoundaryErrorLookup),
    (∀ id l, m !! id = Some l -> length l <= k ∧ ∀ b code, (b, code) ∈ l -> attached g b id) ->
    ∀ id l, foldl (λ m node_idx,
      match node_at g node_idx with
      | Some (NBoundaryError _ attached_to error_code _) =>
          <[attached_to := default [] (m !! attached_to) ++ [(node_idx, error_code)]]> m
      | _ => m
      end) m order !! id = Some l ->
      length l <= k + length order ∧ ∀ b code, (b, code) ∈ l -> attached g b id);
    [|by apply (Hgen 0)].
  clear. induction order as [|n order IH]; intros k m Hm id l.
  { cbn. intros [? ?]%Hm. split; [lia|done]. }
  cbn [foldl length]. intros H. apply (IH (S k)) in H as [H1 H2]; [split; [lia|done]|].
  assert (Hold : ∀ id l, m !! id = Some l ->
     length l <= S k ∧ ∀ b code, (b, code) ∈ l -> attached g b id).
  { intros id' l' [? ?]%Hm. split; [lia|done]. }
  destruct (node_at g n) as [[]|] eqn:En; try exact Hold.
  intros id' l' [[-> <-]|[_ Hl]]%lookup_insert_Some; [|by eapply Hold].
  assert (Hprev : length (default [] (m !! id')) <= k ∧
     ∀ b code, (b, code) ∈ default [] (m !! id') -> attached g b id').
  { destruct (m !! id') as [l0|] eqn:E; [by apply Hm|]. cbn. split; [lia|set_solver]. }
  rewrite length_app. cbn. split; [lia|]. intros b code Hin.
  apply elem_of_app in Hin as [Hin|Hin]; [by eapply Hprev|].
  apply list_elem_of_singleton in Hin as [= -> ->]. unfold attached. by rewrite En.
Qed.

Lemma inclusive_branches_lookup order idx id name :
  idx ∈ order -> node_at g idx = Some (NGatewayInclusive id name Diverging) ->
  collect_inclusive_branches g order !! idx =
  Some ((λ e : nat * IREdge, {| always_live := bool_decide (ie_condition e.2 = None) |})
          <$> pg_edges_out g idx).
Proof.
  intros Hin Hn. unfold collect_inclusive_branches.
  set (f := λ (result : gmap nat (list InclusiveBranchInfo)) node_idx, _).
  assert (Hkeep : ∀ l m v, m !! idx = Some v -> v = ((λ e : nat * IREdge,
      {| always_live := bool_decide (ie_condition e.2 = None) |}) <$> pg_edges_out g idx) ->
      foldl f m l !! idx = Some v).
  { intros l. induction l as [|n l IH]; intros m v Hm Hv; [done|]. cbn. apply IH; [|done].
    unfold f. destruct (decide (n = idx)) as [->|Hne].
    - rewrite Hn. rewrite lookup_insert_eq. by rewrite Hv.
    - destruct (node_at g n) as [[]|]; try done. destruct direction; [|done].
      by rewrite lookup_insert_ne. }
  generalize (∅ : gmap nat (list InclusiveBranchInfo)) as m. clear -Hin Hkeep Hn.
  induction order as [|n order IH]; intros m; [set_solver|]. cbn.
  apply elem_of_cons in Hin as [<-|Hin]; [|by apply IH].
  apply Hkeep; [|done]. unfold f. by rewrite Hn, lookup_insert_eq.
Qed.
End tables.

(** ** The code of one node *)

(** The bounds that keep the [u32] arithmetic of the sizes exact. *)
Definition size_limit : N := 536870912.

Record fits (g : IRGraph) : Prop := {
  fits_nodes : (N.of_nat (node_count g) < size_limit)%N;
  fits_edges : (len (ig_edges g) < size_limit)%N;
  fits_mi idx id name task flag max :
    node_at g idx = Some (NMultiInstance id name task flag max) -> (max < size_limit)%N;
}.

Lemma out_edges_le g idx : length (out_edges g idx) <= length (ig_edges g).
Proof.
  unfold out_edges. induction (ig_edges g) as [|[[a b] w] l IH]; cbn; [lia|].
  case_decide; cbn; lia.
Qed.

Section node.
Context {PG : PetGraph} {HL : PetGraphLaws PG}.
Variable now_ms : N.
Variables (g : IRGraph) (order : list nat) (p : LowerPlan).
Hypothesis Hwf : graph_wf g.
Hypothesis Hfits : fits g.
Hypothesis Htables : lp_tables p = build_tables g order.
Hypothesis Hperm : order ≡ₚ node_indices g.
Hypothesis Haddr : ∀ m, m < node_count g -> is_Some (lp_node_addr p !! m).

Variables (idx : nat) (base : Addr).
Hypothesis Hidx : idx < node_count g.
Hypothesis Hroom : (base + instr_count_for g (lp_tables p) idx < u32_size)%N.

Notation ok := (ok_instr g p idx base).
Notation t := (lp_tables p).
Notation node_addr := (lp_node_addr p).

(** An instruction that neither names an address nor joins. *)
Lemma ok_plain i : instr_targets i = [] -> (∀ q, i ≠ IV2Join q) -> ok i.
Proof. intros Ht Hj. split; [rewrite Ht; set_solver|]. intros q ->. by destruct (Hj q). Qed.

Lemma ok_target i a :
  instr_targets i = [a] -> (∀ q, i ≠ IV2Join q) -> flow_target g p idx base a -> ok i.
Proof.
  intros Ht Hj Ha. split; [rewrite Ht; set_solver|]. intros q ->. by destruct (Hj q).
Qed.

Ltac wb_seq k1 k2 := eapply (wb_bind _ k1 k2 _ _ _ (λ _, True)); [lia| |intros ? _].
Ltac wb_plain := apply wb_emit; [lia|by apply ok_plain|done].
Ltac wb_quiet := by apply wb_silent; auto with lowering.

Lemma successor_edge n m : head (get_successors g n) = Some m -> edge g n m.
Proof. intros H. apply elem_of_neighbors. unfold get_successors in H. apply head_Some_elem_of in H. done. Qed.

Lemma first_successor_flow n a :
  first_successor_addr g node_addr n = Some a -> ∃ m, edge g n m ∧ node_addr !! m = Some a.
Proof.
  unfold first_successor_addr. intros (m & Hm & Ha)%bind_Some. exists m.
  split; [by apply successor_edge|done].
Qed.

(** Without a successor address there is no outgoing flow. *)
Lemma first_successor_none : first_successor_addr g node_addr idx = None -> ∀ m, ¬ edge g idx m.
Proof.
  unfold first_successor_addr. intros H m He. apply elem_of_neighbors in He.
  unfold get_successors in H. destruct (pg_neighbors g idx) as [|m' l] eqn:E; [set_solver|].
  cbn in H. destruct (Haddr m') as [a Ha]; [|congruence].
  apply (edge_nodes g idx m'); [done|]. apply elem_of_neighbors. rewrite E. set_solver.
Qed.

Lemma default_successor_flow x :
  flow_target g p idx base (default x (first_successor_addr g node_addr idx)).
Proof.
  destruct (first_successor_addr g node_addr idx) as [a|] eqn:E; cbn.
  - apply first_successor_flow in E as (m & ? & ?). by eapply FTFlow.
  - by eapply FTDangling, first_successor_none.
Qed.

Lemma head_successor_flow m x : head (get_successors g idx) = Some m ->
  flow_target g p idx base (default x (node_addr !! m)).
Proof.
  intros Hm. apply successor_edge in Hm. destruct (Haddr m) as [a Ha].
  { by apply (edge_nodes g idx m). }
  rewrite Ha. by eapply FTFlow.
Qed.

(** Guards: the handler addresses come from the boundary events of the host. *)

Lemma timer_attached b spec :
  timer_boundary t (node_id_at g idx) = Some (b, spec) -> attached g b (node_id_at g idx).
Proof. unfold timer_boundary. rewrite Htables. cbn. apply boundary_lookup_attached. Qed.

Lemma error_attached b code :
  (b, code) ∈ error_boundaries t (node_id_at g idx) -> attached g b (node_id_at g idx).
Proof.
  unfold error_boundaries. rewrite Htables. cbn.
  destruct (build_boundary_error_lookup g order !! _) as [l|] eqn:E; cbn; [|set_solver].
  apply boundary_error_attached in E as [_ E]. apply E.
Qed.

Lemma error_count_fits id : (len (error_boundaries t id) < size_limit)%N.
Proof.
  unfold error_boundaries. rewrite Htables. cbn.
  destruct (build_boundary_error_lookup g order !! id) as [l|] eqn:E; cbn; [|done].
  apply boundary_error_attached in E as [E _]. rewrite Hperm in E.
  unfold node_indices in E. rewrite length_seq in E.
  pose proof (fits_nodes _ Hfits). unfold len. lia.
Qed.

Lemma wb_handler k : wb ok k (guard_handler g t node_addr (node_id_at g idx)) (flow_target g p idx base).
Proof.
  unfold guard_handler. destruct (timer_boundary t _) as [[b spec]|] eqn:Et.
  - apply wb_ok_or. intros a (m & ? & ?)%first_successor_flow.
    eapply FTBoundary; [by eapply timer_attached|done..].
  - eapply (wb_bind _ 0 0); [lia| |].
    + apply (wb_expect _ _ _ _ (λ e, e ∈ error_boundaries t (node_id_at g idx))).
      intros e He. by apply head_Some_elem_of in He.
    + intros [b code] Hb. apply wb_ok_or. intros a (m & ? & ?)%first_successor_flow.
      eapply FTBoundary; [by eapply error_attached|done..].
Qed.

Lemma length_sort_error_arms l : length (sort_error_arms l) = length l.
Proof.
  unfold sort_error_arms. rewrite length_app.
  induction l as [|[b [c|]] l IH]; [done| |].
  - rewrite filter_cons_True, filter_cons_False by (cbn; first [done|by eexists]). cbn. lia.
  - rewrite filter_cons_False, filter_cons_True by (cbn; first [done|by intros [? ?]]). cbn. lia.
Qed.

Lemma elem_of_sort_error_arms e l : e ∈ sort_error_arms l -> e ∈ l.
Proof. unfold sort_error_arms. rewrite elem_of_app, !list_elem_of_filter. tauto. Qed.

Lemma wb_error_arms :
  wb ok (len (error_boundaries t (node_id_at g idx)))
    (push_error_guard_arms g t node_addr (node_id_at g idx)) (λ _, True).
Proof.
  unfold push_error_guard_arms, error_boundaries at 1.
  pose proof error_attached as Hatt. unfold error_boundaries in Hatt.
  destruct (boundary_error_lookup t !! node_id_at g idx) as [l|] eqn:E; cbn in *; [|by apply wb_ret].
  apply (wb_for _ (λ _, 1%N)); [|done|].
  { rewrite sum_const. unfold len. rewrite length_sort_error_arms. lia. }
  intros [b code] Hin%elem_of_sort_error_arms. unfold push_error_guard_arm. cbn.
  eapply (wb_bind _ 0 1); [lia| |].
  { apply (wb_ok_or _ _ _ _ (λ m, edge g b m)). intros m. apply successor_edge. }
  intros m He. eapply (wb_bind _ 0 1); [lia| |].
  { apply (wb_ok_or _ _ _ _ (λ a, node_addr !! m = Some a)). done. }
  intros a Ha. apply wb_emit; [lia| |done]. eapply ok_target; [done|done|].
  eapply FTBoundary; [by eapply Hatt|done..].
Qed.

(** What a guard adds in front of its body. *)
Definition guard_open_len (id : string) : N :=
  (1 + match timer_boundary t id with
       | Some (_, spec) => 2 + (if is_cycle spec then 1 else 0)
       | None => 0
       end + len (error_boundaries t id))%N.

Lemma wb_open_guard interrupting handler :
  flow_target g p idx base handler ->
  wb ok (guard_open_len (node_id_at g idx))
    (open_guard now_ms g t node_addr (node_id_at g idx) interrupting handler) (λ _, True).
Proof.
  intros Hh. unfold open_guard, guard_open_len.
  set (errs := len (error_boundaries t (node_id_at g idx))).
  set (timer := match timer_boundary t (node_id_at g idx) with
                | Some (_, spec) => (2 + (if is_cycle spec then 1 else 0))%N | None => 0%N end).
  set (push := match timer_boundary t (node_id_at g idx) with Some _ => 1%N | None => 0%N end).
  assert (Htimer : (push <= timer)%N).
  { unfold push, timer. destruct (timer_boundary _ _) as [[? ?]|]; lia. }
  wb_seq push (1 + (timer - push) + errs)%N.
  { unfold push. destruct (timer_boundary _ _) as [[? ?]|]; [wb_plain|by apply wb_ret]. }
  wb_seq 0%N (1 + (timer - push) + errs)%N; [wb_quiet|].
  wb_seq 0%N (1 + (timer - push) + errs)%N.
  { destruct (guard_budget_max _ _ _); [|by apply wb_ret].
    destruct (ScopeFailureBudget_new _ _); [wb_quiet|apply wb_fail]. }
  wb_seq 1%N (timer - push + errs)%N.
  { apply wb_emit; [lia| |done]. destruct interrupting; by eapply ok_target. }
  wb_seq (timer - push)%N errs; [|apply wb_error_arms].
  unfold push, timer. destruct (timer_boundary _ _) as [[b spec]|]; [|by apply wb_ret].
  wb_seq 1%N (if is_cycle spec then 1%N else 0%N); [wb_plain|].
  destruct spec; cbn; try by apply wb_ret. wb_plain.
Qed.

Lemma wb_close_guard interrupting :
  wb ok 2 (close_guard g node_addr interrupting idx) (λ _, True).
Proof.
  unfold close_guard. wb_seq 1%N 1%N.
  { destruct interrupting; wb_plain. }
  wb_seq 0%N 1%N; [wb_quiet|]. apply wb_emit; [lia| |done].
  eapply ok_target; [done|done|apply default_successor_flow].
Qed.

Lemma wb_body body : wb ok 1 (push_body body) (λ _, True).
Proof.
  unfold push_body. wb_seq 0%N 1%N; [wb_quiet|]. wb_seq 1%N 0%N; [|by apply wb_ret].
  destruct body; [|wb_plain]. wb_seq 0%N 1%N; [wb_quiet|wb_plain].
Qed.

(** The count reserved for a host, guarded or not. *)
Lemma guarded_count id :
  guarded_instr_count t id 2 = if is_unguarded t id then 2%N else (3 + guard_open_len id)%N.
Proof.
  pose proof (error_count_fits id) as Hc. unfold guarded_instr_count, is_unguarded, guard_open_len,
    has_errors, timer_boundary. unfold error_boundaries in *.
  set (errs := default [] (boundary_error_lookup t !! id)) in *.
  unfold len, size_limit in *.
  assert (Hno : as_u32 (N.of_nat (length errs)) = N.of_nat (length errs)).
  { apply as_u32_id. unfold u32_size. lia. }
  destruct (boundary_lookup t !! id) as [[b spec]|].
  - rewrite Hno, as_u32_id; [destruct (is_cycle spec); lia|].
    unfold u32_size. destruct (is_cycle spec); lia.
  - destruct errs as [|e errs]; [done|]. cbn [length negb] in *.
    rewrite Hno, as_u32_id; [lia|]. unfold u32_size. lia.
Qed.

Lemma wb_guarded_task body :
  wb ok (guarded_instr_count t (node_id_at g idx) 2)
    (lower_boundary_guarded_task_v2 now_ms g t node_addr idx (node_id_at g idx) body base)
    (λ _, True).
Proof.
  rewrite guarded_count. unfold lower_boundary_guarded_task_v2.
  destruct (is_unguarded _ _).
  - wb_seq 1%N 1%N; [apply wb_body|]. wb_seq 1%N 0%N; [|by apply wb_ret].
    apply wb_emit; [lia| |done]. eapply ok_target; [done|done|apply default_successor_flow].
  - eapply (wb_bind _ 0 (3 + guard_open_len (node_id_at g idx))); [lia|apply wb_handler|].
    intros handler Hh.
    wb_seq (guard_open_len (node_id_at g idx)) 3%N; [by apply wb_open_guard|].
    wb_seq 1%N 2%N; [apply wb_body|]. wb_seq 2%N 0%N; [apply wb_close_guard|by apply wb_ret].
Qed.

Lemma wb_ffi_task template_id inputs outputs objs :
  wb ok (guarded_instr_count t (node_id_at g idx) 2)
    (lower_ffi_task now_ms g t node_addr idx (node_id_at g idx) template_id inputs outputs base objs)
    (λ _, True).
Proof.
  rewrite guarded_count. unfold lower_ffi_task.
  set (k := if is_unguarded _ _ then _ else _).
  wb_seq 0%N k; [by apply wb_lift|]. wb_seq 0%N k; [by apply wb_lift|].
  wb_seq k 0%N; [|wb_quiet]. unfold k. destruct (is_unguarded _ _).
  - wb_seq 0%N 2%N; [wb_quiet|]. wb_seq 1%N 1%N; [wb_plain|]. wb_seq 1%N 0%N; [|by apply wb_ret].
    apply wb_emit; [lia| |done]. eapply ok_target; [done|done|apply default_successor_flow].
  - eapply (wb_bind _ 0 (3 + guard_open_len (node_id_at g idx))); [lia|apply wb_handler|].
    intros handler Hh.
    wb_seq (guard_open_len (node_id_at g idx)) 3%N; [by apply wb_open_guard|].
    wb_seq 0%N 3%N; [wb_quiet|]. wb_seq 1%N 2%N; [wb_plain|].
    wb_seq 2%N 0%N; [apply wb_close_guard|by apply wb_ret].
Qed.

Lemma wb_wait name corr objs :
  wb ok (guarded_instr_count t (node_id_at g idx) 2)
    (lower_wait now_ms g t node_addr idx name corr base objs) (λ _, True).
Proof.
  unfold lower_wait. set (k := guarded_instr_count _ _ _).
  wb_seq 0%N k; [wb_quiet|]. wb_seq 0%N k; [wb_quiet|]. wb_seq 0%N k; [by apply wb_lift|].
  wb_seq k 0%N; [apply wb_guarded_task|wb_quiet].
Qed.

Lemma wb_send name corr objs : wb ok 2 (lower_send g node_addr idx name corr objs) (λ _, True).
Proof.
  unfold lower_send. wb_seq 0%N 2%N; [wb_quiet|]. wb_seq 0%N 2%N; [wb_quiet|].
  wb_seq 0%N 2%N; [wb_quiet|]. wb_seq 0%N 2%N; [by apply wb_lift|]. wb_seq 0%N 2%N; [wb_quiet|].
  wb_seq 1%N 1%N; [wb_plain|].
  destruct (head (get_successors g idx)) as [next|] eqn:E; [|by apply wb_ret].
  eapply (wb_bind _ 0 1); [lia|apply (wb_ok_or _ _ _ _ (λ a, node_addr !! next = Some a)); done|].
  intros target Ha. apply wb_emit; [lia| |done]. eapply ok_target; [done|done|].
  eapply FTFlow; [by apply successor_edge|done].
Qed.

Lemma wb_timer_wait spec : wb ok 3 (lower_timer_wait g node_addr idx spec) (λ _, True).
Proof.
  unfold lower_timer_wait. wb_seq 2%N 1%N.
  { destruct spec; (wb_seq 1%N 1%N; wb_plain). }
  destruct (head (get_successors g idx)) as [next|] eqn:E; [|by apply wb_ret].
  apply wb_emit; [lia| |done]. eapply ok_target; [done|done|by apply head_successor_flow].
Qed.

(** Exclusive gateways. *)
Lemma wb_xor_edges edges d :
  (∀ e, e ∈ edges -> edge g idx e.1) -> (∀ a, d = Some a -> flow_target g p idx base a) ->
  wb ok (2 * len edges) (lower_xor_edges g node_addr idx edges d)
    (λ o, ∀ a, o = Some a -> flow_target g p idx base a).
Proof.
  revert d. induction edges as [|[m w] edges IH]; intros d Hedges Hd; cbn [lower_xor_edges].
  { by apply wb_ret. }
  assert (Hlen : len ((m, w) :: edges) = (1 + len edges)%N) by (unfold len; cbn; lia). rewrite Hlen.
  assert (He : edge g idx m) by (apply (Hedges (m, w)); set_solver).
  eapply (wb_bind _ 0 (2 * (1 + len edges))); [lia|apply (wb_ok_or _ 0 _ _ (λ a, node_addr !! m = Some a)); done|].
  intros a Ha. assert (Hfa : flow_target g p idx base a) by by eapply FTFlow.
  destruct (ie_condition w) as [c|].
  - wb_seq 0%N (2 * (1 + len edges))%N; [wb_quiet|].
    wb_seq 1%N (1 + 2 * len edges)%N; [wb_plain|].
    wb_seq 1%N (2 * len edges)%N; [|apply IH; [set_solver|done]].
    apply wb_emit; [lia| |done]. unfold xor_branch.
    destruct (ce_op c), (ce_literal c) as [[]|]; by eapply ok_target.
  - eapply wb_weaken; [apply IH; [set_solver|naive_solver]|lia|done].
Qed.

Lemma wb_xor : wb ok (2 * len (pg_edges_out g idx) + 1) (lower_xor g node_addr idx) (λ _, True).
Proof.
  unfold lower_xor. eapply (wb_bind _ (2 * len (pg_edges_out g idx)) 1); [lia| |].
  - apply wb_xor_edges; [|done]. intros [m w] He. exists w. by apply elem_of_edges_out.
  - intros [a|] Ha; [|by apply wb_ret]. apply wb_emit; [lia| |done].
    eapply ok_target; [done|done|by apply Ha].
Qed.

(** Parallel gateways and joins. *)
Lemma wr_fork :
  wr (lower_fork g node_addr idx base)
    (λ _ code, ∃ ts, code = [IV2Fork ts base] ∧ ok (IV2Fork ts base)).
Proof.
  unfold lower_fork. eapply wr_bind.
  { apply (wr_lift _ (λ ts c, c = [] ∧ ∀ a, a ∈ ts -> flow_target g p idx base a)).
    intros ts Hts. split; [done|]. unfold get_successors in Hts.
    assert (Hsub : ∀ m, m ∈ pg_neighbors g idx -> edge g idx m) by (intros m; apply elem_of_neighbors).
    revert ts Hts. induction (pg_neighbors g idx) as [|m l IH]; intros ts.
    - intros [= <-]. set_solver.
    - intros Hts. apply bind_ok_inv in Hts as (a & Ea & Hts).
      apply bind_ok_inv in Hts as (ts' & El & [= <-]). apply ok_or_ok in Ea.
      intros x [->|Hx]%elem_of_cons; [|eapply IH; [set_solver|exact El|exact Hx]].
      eapply (FTFlow _ _ _ _ _ m); [apply Hsub; set_solver|done]. }
  intros ts c [-> Hts]. apply wr_emit. exists ts. split; [done|]. split; [done|]. by intros q.
Qed.

Lemma wb_join pairing : join_of g p idx base pairing ->
  wb ok 2 (lower_join g node_addr idx pairing) (λ _, True).
Proof.
  intros Hj. unfold lower_join. wb_seq 1%N 1%N.
  { apply wb_emit; [lia| |done]. split; [cbn; set_solver|]. by intros q [= <-]. }
  eapply (wb_bind _ 0 1); [lia|apply (wb_ok_or _ _ _ _ (flow_target g p idx base))|].
  { intros next (m & ? & ?)%first_successor_flow. by eapply FTFlow. }
  intros next Hnext. apply wb_emit; [lia| |done]. by eapply ok_target.
Qed.

(** Inclusive gateways: the classification the first pass made is the one the
    emission makes. *)
Notation branches := (inclusive_branch <$> pg_edges_out g idx).
Definition header_size (b : Branch) : N := if br_always_live b then 1%N else 3%N.

Lemma inclusive_info id name :
  node_at g idx = Some (NGatewayInclusive id name Diverging) ->
  default [] (inclusive_branches t !! idx) = (λ b, {| always_live := br_always_live b |}) <$> branches.
Proof.
  intros Hn. rewrite Htables. cbn [build_tables inclusive_branches].
  erewrite inclusive_branches_lookup; [|by rewrite Hperm, elem_of_node_indices|done].
  cbn. by rewrite <- list_fmap_compose.
Qed.

Lemma existsb_live (bs : list Branch) :
  existsb always_live ((λ b, {| always_live := br_always_live b |}) <$> bs) = existsb br_always_live bs.
Proof. induction bs as [|b bs IH]; cbn; [done|]. by rewrite IH. Qed.

Lemma filter_live (bs : list Branch) :
  len (filter (λ b, always_live b = false) ((λ b, {| always_live := br_always_live b |}) <$> bs)) =
  len (filter (λ b, br_always_live b = false) bs).
Proof.
  unfold len. f_equal. induction bs as [|b bs IH]; [done|]. rewrite fmap_cons, !filter_cons. cbn.
  destruct (decide (br_always_live b = false)); cbn; by rewrite IH.
Qed.

Lemma branches_fit : (len branches < size_limit)%N.
Proof.
  unfold len. rewrite length_fmap, (Permutation_length (pg_edges_out_perm g idx)).
  pose proof (out_edges_le g idx). pose proof (fits_edges _ Hfits). unfold len in *. lia.
Qed.

(** Without an always-live branch every branch is conditional. *)
Lemma all_conditional (bs : list Branch) :
  existsb br_always_live bs = false -> filter (λ b, br_always_live b = false) bs = bs.
Proof.
  induction bs as [|b bs IH]; [done|]. intros H. cbn in H. apply orb_false_iff in H as [Hb Hbs].
  rewrite filter_cons_True by done. by rewrite IH.
Qed.

Definition precheck : N := if existsb br_always_live branches then 0%N else (2 * len branches + 1)%N.

Lemma precheck_len_spec id name :
  node_at g idx = Some (NGatewayInclusive id name Diverging) ->
  inclusive_precheck_len (default [] (inclusive_branches t !! idx)) = precheck.
Proof.
  intros Hn. rewrite (inclusive_info id name Hn). unfold inclusive_precheck_len, precheck.
  rewrite existsb_live. destruct (existsb br_always_live branches) eqn:E; [done|].
  rewrite filter_live, all_conditional by done. pose proof branches_fit as Hb. unfold size_limit in Hb.
  rewrite (as_u32_id (len branches)) by (unfold u32_size; lia).
  unfold sat_mul. rewrite N.min_r by (unfold u32_max; lia).
  rewrite as_u32_id by (unfold u32_size; lia). lia.
Qed.

Lemma headers_bound (bs : list Branch) :
  (foldr N.add 0%N (header_size <$> bs) <= 3 * len bs)%N.
Proof.
  unfold len. induction bs as [|b bs IH]; [done|].
  cbn [fmap list_fmap foldr length]. change (list_fmap _ _ ?f ?l) with (f <$> l).
  unfold header_size at 1. destruct (br_always_live b); lia.
Qed.

Lemma inclusive_count id name :
  node_at g idx = Some (NGatewayInclusive id name Diverging) ->
  instr_count_for g t idx = (precheck + 1 + foldr N.add 0%N (header_size <$> branches))%N.
Proof.
  intros Hn. unfold instr_count_for. rewrite Hn. unfold inclusive_diverging_instr_count.
  rewrite (precheck_len_spec id name Hn), (inclusive_info id name Hn), <- list_fmap_compose.
  change (compose _ _) with header_size.
  pose proof branches_fit as Hb. pose proof (headers_bound branches) as Hh.
  unfold size_limit in Hb. apply as_u32_id. unfold u32_size, precheck.
  destruct (existsb _ _); lia.
Qed.

Lemma branch_flag_silent b : silent (branch_flag b).
Proof.
  intros s k s'. unfold branch_flag, mbind, LM_bind, lm_expect, lm_lift.
  destruct (br_flag_name b); cbn; [|done]. apply lm_intern_flag_silent.
Qed.

Lemma fork_inside k : (k < instr_count_for g t idx)%N -> flow_target g p idx base (base + k).
Proof. intros Hk. apply FTInside. lia. Qed.

Lemma we_precheck f b : flow_target g p idx base f -> we ok 2 (inclusive_precheck f b).
Proof.
  intros Hf. unfold inclusive_precheck.
  eapply (we_bind _ 0 2); [done|apply we_silent, branch_flag_silent|]. intros key.
  eapply (we_bind _ 1 1); [done|by apply we_emit, ok_plain|]. intros _.
  apply we_emit. by eapply ok_target.
Qed.

Lemma wb_header join_addr b :
  inclusive_join_addr (lp_pairing p) !! idx = Some join_addr -> b ∈ branches ->
  wb ok (header_size b) (inclusive_header g node_addr idx join_addr b) (λ _, True).
Proof.
  intros Hj Hb. unfold inclusive_header, header_size.
  assert (He : edge g idx (br_target_idx b)).
  { apply list_elem_of_fmap in Hb as ([m w] & -> & Hb). exists w. by apply elem_of_edges_out. }
  set (k := if br_always_live b then 1%N else 3%N).
  eapply (wb_bind _ 0 k); [lia|apply (wb_ok_or _ 0 _ _ (flow_target g p idx base))|].
  { intros a Ha. by eapply FTFlow. }
  intros target Ht. unfold k. destruct (br_always_live b).
  { apply wb_emit; [lia| |done]. by eapply ok_target. }
  wb_seq 0%N 3%N; [apply wb_silent; [apply branch_flag_silent|done]|].
  wb_seq 1%N 2%N; [wb_plain|]. wb_seq 1%N 1%N.
  { apply wb_emit; [lia| |done]. eapply ok_target; [done|done|by apply FTSkip]. }
  apply wb_emit; [lia| |done]. by eapply ok_target.
Qed.

(** The fork sits right behind the precheck. *)
Lemma wr_inclusive id name join_addr :
  node_at g idx = Some (NGatewayInclusive id name Diverging) ->
  inclusive_join_addr (lp_pairing p) !! idx = Some join_addr ->
  wr (lower_inclusive_diverging_v2 g node_addr idx base join_addr)
    (λ _ code, blk ok (instr_count_for g t idx) code ∧
       ∃ hs, code !! N.to_nat precheck = Some (IV2Fork hs (base + precheck))).
Proof.
  intros Hn Hj. pose proof Hroom as Hr. pose proof (inclusive_count id name Hn) as Hcount.
  set (hsum := foldr N.add 0%N (header_size <$> branches)) in Hcount. rewrite Hcount in Hr.
  unfold lower_inclusive_diverging_v2.
  assert (Hfork : (if existsb br_always_live branches then base
      else addr_add (addr_add base (sat_mul u32_max
             (as_u32 (len (filter (λ b, br_always_live b = false) branches))) 2)) 1)
      = (base + precheck)%N).
  { pose proof branches_fit as Hb. unfold size_limit in Hb. unfold precheck in *.
    destruct (existsb br_always_live branches) eqn:E; [lia|].
    rewrite all_conditional by done. rewrite (as_u32_id (len branches)) by (unfold u32_size; lia).
    unfold sat_mul. rewrite N.min_r by (unfold u32_max; lia).
    rewrite (addr_add_id base) by lia. rewrite addr_add_id by lia. lia. }
  rewrite Hfork. eapply wr_bind.
  { apply (λ H, H : we ok precheck _). unfold precheck in *. destruct (existsb br_always_live branches).
    - by apply we_silent; intros s a s' [= _ <-].
    - eapply (we_bind _ (2 * len branches) 1); [lia| |].
      + apply we_for. intros b _. apply we_precheck, fork_inside. lia.
      + intros _. by apply we_emit, ok_plain. }
  intros [] pre [Fpre Lpre]. rewrite addr_add_id by lia.
  set (hs := header_addrs _ _). eapply wr_bind; [apply (wr_emit _ (λ _ c, c = [IV2Fork hs (base + precheck)])); done|].
  intros [] c1 ->. eapply wr_mono.
  { apply (wb_for ok header_size _ branches hsum (λ _, True)); [lia|done|].
    intros b Hb. by apply wb_header. }
  intros [] c2 [_ [F2 L2]]. split.
  - split; [|rewrite !len_app, Lpre; change (len [_]) with 1%N; lia].
    apply Forall_app. split; [done|]. apply Forall_cons. split; [|done]. split; [|by intros q].
    intros a Ha. apply FTInside. rewrite Hcount.
    apply (header_addrs_range (base + precheck + 1) (header_size <$> branches)) in Ha; [| |].
    + unfold hsum. lia.
    + fold hsum. lia.
    + intros n (b & -> & _)%list_elem_of_fmap. unfold header_size. destruct (br_always_live b); lia.
  - exists hs. unfold len in Lpre. rewrite lookup_app_r by lia.
    replace (N.to_nat precheck - length pre) with 0 by lia. done.
Qed.

(** Multi-instance activities: one block of six instructions per instance. *)
Lemma we_mi_branch id flag task join_addr index :
  flow_target g p idx base join_addr -> we ok 6 (mi_branch id flag task join_addr index).
Proof.
  intros Hj. unfold mi_branch.
  eapply (we_bind _ 0 6); [done|apply we_silent; auto with lowering|]. intros element.
  eapply (we_bind _ 1 5); [done|by apply we_emit, ok_plain|]. intros _.
  eapply (we_bind _ 1 4); [done|by eapply we_emit, ok_target|]. intros _.
  eapply (we_bind _ 1 3); [done|by apply we_emit, ok_plain|]. intros _.
  eapply (we_bind _ 1 2); [done|by apply we_emit, ok_plain|]. intros _.
  eapply (we_bind _ 1 1); [done|by apply we_emit, ok_plain|]. intros _.
  by eapply we_emit, ok_target.
Qed.

Lemma wr_multi_instance id name task flag max :
  node_at g idx = Some (NMultiInstance id name task flag max) ->
  wr (lower_multi_instance_v2 g node_addr idx base id task flag max)
    (λ _ code, blk ok (instr_count_for g t idx) code ∧
       ∃ hs, code !! 1%nat = Some (IV2Fork hs (base + 1))).
Proof.
  intros Hn. pose proof (fits_mi _ Hfits idx id name task flag max Hn) as Hmax. unfold size_limit in Hmax.
  assert (Hcount : instr_count_for g t idx = (max * 6 + 4)%N).
  { unfold instr_count_for. rewrite Hn. unfold sat_mul. rewrite N.min_r by (unfold u32_max; lia).
    apply as_u32_id. unfold u32_size. lia. }
  pose proof Hroom as Hr. rewrite Hcount in Hr.
  unfold lower_multi_instance_v2, sat_mul. rewrite N.min_r by (unfold u32_max; lia).
  rewrite (addr_add_id base 1) by lia. rewrite (addr_add_id (base + 1) 1) by lia.
  rewrite (addr_add_id (base + 1 + 1)) by lia.
  set (join_addr := (base + 1 + 1 + max * 6)%N). set (indices := N.of_nat <$> seq 0 (N.to_nat max)).
  assert (Hlen : len indices = max) by (unfold len, indices; rewrite length_fmap, length_seq; lia).
  assert (Hjoin : flow_target g p idx base join_addr).
  { apply FTInside. rewrite Hcount. unfold join_addr. lia. }
  eapply wr_bind; [apply (wr_silent _ (λ _ c, c = [])); auto with lowering|]. intros cf c0 ->.
  eapply wr_bind; [apply (wr_silent _ (λ _ c, c = [])); auto with lowering|]. intros tid c0 ->.
  eapply wr_bind; [by apply (wr_emit _ (λ _ c, c = [IV2MiArityCheck cf max]))|]. intros _ c0 ->.
  set (hs := header_addrs _ _).
  eapply wr_bind; [by apply (wr_emit _ (λ _ c, c = [IV2Fork hs (base + 1)]))|]. intros _ c0 ->.
  eapply wr_bind.
  { apply (we_for ok 6). intros index _. by apply we_mi_branch. }
  intros _ c2 [F2 L2]. rewrite Hlen in L2. eapply wr_mono.
  { apply (wb_bind ok 1 1 2 _ _ (λ _, True) (λ _, True)); [lia| |].
    { apply wb_emit; [lia| |done]. split; [cbn; set_solver|]. intros q [= <-]. right. right.
      by rewrite Hn. }
    intros _ _. eapply (wb_bind _ 0 1); [lia|apply (wb_ok_or _ 0 _ _ (flow_target g p idx base))|].
    { intros next (m & ? & ?)%first_successor_flow. by eapply FTFlow. }
    intros next Hnext. apply wb_emit; [lia| |done]. by eapply ok_target. }
  intros [] c3 [_ [F3 L3]]. split; [|by exists hs].
  split.
  - rewrite !app_nil_l. apply Forall_cons. split; [by apply ok_plain|].
    apply Forall_cons. split; [|by apply Forall_app].
    split; [|by intros q]. intros a Ha. apply FTInside. rewrite Hcount.
    apply header_addrs_range in Ha.
    + rewrite sum_const, Hlen in Ha. lia.
    + rewrite sum_const, Hlen. unfold u32_size in *. lia.
    + intros n (x & -> & _)%list_elem_of_fmap. lia.
  - rewrite !len_app, L2. change (len [_]) with 1%N. change (len []) with 0%N. rewrite Hcount. lia.
Qed.

(** What the code of a node satisfies: it fits its slot, its addresses follow
    the graph, and its fork is where [fork_position] says. *)
Definition node_code (code : list Instr) : Prop :=
  blk ok (instr_count_for g t idx) code ∧
  ∀ k, fork_position g t idx = Some k -> ∃ ts, code !! N.to_nat k = Some (IV2Fork ts (base + k)).

(** A node that does not fork. *)
Lemma node_code_plain k (m : LM unit) :
  wb ok k m (λ _, True) -> (k <= instr_count_for g t idx)%N -> fork_position g t idx = None ->
  wr m (λ _, node_code).
Proof.
  intros Hm Hk Hf. eapply wr_mono; [exact Hm|]. intros a c [_ [F L]].
  split; [split; [done|lia]|]. rewrite Hf. done.
Qed.

Lemma wr_emit_node node :
  node_at g idx = Some node -> wr (emit_node now_ms g p idx base node) (λ _, node_code).
Proof.
  intros Hn. assert (Hid : node_id_at g idx = node_id node) by (unfold node_id_at; by rewrite Hn).
  destruct node as [id|id term|id nm ty|id nm|id nm [] |id spec|id nm c|id nm k c|id a sp i f|id a c f
    |id nm []|id nm ty r|id nm ti ins outs|id nm m c|id nm ty fl mx]; cbn [emit_node];
    cbn in Hid; rewrite <- ?Hid.
  - apply (node_code_plain 1); [|unfold instr_count_for, estimate_instr_count|unfold fork_position];
      [|by rewrite Hn..].
    destruct (head _) as [next|] eqn:E; [|wb_plain].
    apply wb_emit; [lia| |done]. eapply ok_target; [done|done|by apply head_successor_flow].
  - apply (node_code_plain (if decide (idx ∈ guardn_close_before_end t) then 2 else 1));
      [|unfold instr_count_for, estimate_instr_count|unfold fork_position];
      [|rewrite Hn; by case_decide|by rewrite Hn].
    set (k := if decide _ then _ else _). assert (Hk : (1 <= k)%N) by (unfold k; case_decide; lia).
    wb_seq (k - 1)%N 1%N; [|destruct term; wb_plain].
    unfold k. case_decide; [wb_plain|by apply wb_ret].
  - eapply node_code_plain; [|unfold instr_count_for, estimate_instr_count|unfold fork_position];
      [|rewrite Hn, <- Hid; reflexivity|by rewrite Hn].
    wb_seq (guarded_instr_count t (node_id_at g idx) 2) 0%N; [apply wb_guarded_task|by apply wb_ret].
  - eapply node_code_plain; [apply wb_xor| |unfold fork_position; by rewrite Hn].
    unfold instr_count_for, estimate_instr_count. rewrite Hn. pose proof branches_fit as Hb.
    unfold len in Hb. rewrite length_fmap in Hb. fold (len (pg_edges_out g idx)) in Hb. unfold size_limit in Hb.
    rewrite (as_u32_id (len _)) by (unfold u32_size; lia). rewrite (as_u32_id (_ * 2)) by (unfold u32_size; lia).
    rewrite as_u32_id by (unfold u32_size; lia). lia.
  - eapply wr_mono; [apply wr_fork|]. intros [] c (ts & -> & Hok).
    unfold node_code, instr_count_for, estimate_instr_count, fork_position. rewrite Hn.
    split; [split; [by constructor|done]|]. intros k [= <-]. exists ts. by rewrite N.add_0_r.
  - eapply node_code_plain; [|unfold instr_count_for, estimate_instr_count; by rewrite Hn|
      unfold fork_position; by rewrite Hn].
    eapply (wb_bind _ 0 2); [lia|apply (wb_ok_or _ 0 _ _ (join_of g p idx base))|apply wb_join].
    intros q Hq. by left.
  - eapply node_code_plain; [apply wb_timer_wait|unfold instr_count_for, estimate_instr_count; by rewrite Hn|
      unfold fork_position; by rewrite Hn].
  - eapply node_code_plain; [apply wb_wait|unfold instr_count_for, estimate_instr_count; rewrite Hn, <- Hid; reflexivity|
      unfold fork_position; by rewrite Hn].
  - eapply node_code_plain; [apply wb_wait|unfold instr_count_for, estimate_instr_count; rewrite Hn, <- Hid; reflexivity|
      unfold fork_position; by rewrite Hn].
  - apply (node_code_plain 0); [by apply wb_ret|lia|unfold fork_position; by rewrite Hn].
  - apply (node_code_plain 0); [by apply wb_ret|lia|unfold fork_position; by rewrite Hn].
  - eapply wr_bind.
    { apply (wr_ok_or _ _ (λ j c, c = [] ∧ inclusive_join_addr (lp_pairing p) !! idx = Some j)). done. }
    intros j c [-> Hj]. eapply wr_mono; [by eapply wr_inclusive|]. intros [] c [Hc Hf].
    split; [done|]. intros k. unfold fork_position. rewrite Hn, (precheck_len_spec id nm Hn).
    by intros [= <-].
  - eapply node_code_plain; [|unfold instr_count_for; by rewrite Hn|unfold fork_position; by rewrite Hn].
    eapply (wb_bind _ 0 2); [lia|apply (wb_ok_or _ 0 _ _ (join_of g p idx base))|apply wb_join].
    intros q Hq. right. by left.
  - apply (node_code_plain 0); [by apply wb_ret|lia|unfold fork_position; by rewrite Hn].
  - eapply node_code_plain; [apply wb_ffi_task|unfold instr_count_for, estimate_instr_count; rewrite Hn, <- Hid; reflexivity|
      unfold fork_position; by rewrite Hn].
  - eapply node_code_plain; [apply wb_send|unfold instr_count_for, estimate_instr_count; by rewrite Hn|
      unfold fork_position; by rewrite Hn].
  - rewrite Hid. eapply wr_mono; [by eapply wr_multi_instance|]. intros [] c [Hc Hf].
    split; [done|]. intros k. unfold fork_position. rewrite Hn. by intros [= <-].
Qed.
End node.

(** ** Interned flags *)

(** Keys are smaller than the table, and no two names share one. *)
Record intern_ok (m : gmap string N) : Prop := {
  io_bound name key : m !! name = Some key -> (key < N.of_nat (size m))%N;
  io_inj n1 n2 key : m !! n1 = Some key -> m !! n2 = Some key -> n1 = n2;
}.

(** A table that only grows, keeping distinct keys while they fit a [u32]. *)
Definition grows (m m' : gmap string N) : Prop :=
  m ⊆ m' ∧ (intern_ok m -> (N.of_nat (size m') <= u32_size)%N -> intern_ok m').

Lemma grows_refl m : grows m m.
Proof. by split. Qed.

Lemma grows_trans m1 m2 m3 : grows m1 m2 -> grows m2 m3 -> grows m1 m3.
Proof.
  intros [H1 H2] [H3 H4]. split; [by etrans|]. intros Hok Hsz. apply H4; [|done]. apply H2; [done|].
  apply map_subseteq_size in H3. lia.
Qed.

Lemma intern_flag_spec m name :
  (intern_flag m name).2 !! name = Some (intern_flag m name).1 ∧ grows m (intern_flag m name).2.
Proof.
  unfold intern_flag. destruct (m !! name) as [k|] eqn:E; cbn; [by split; [|apply grows_refl]|].
  split; [by rewrite lookup_insert_eq|]. split; [by apply insert_subseteq|].
  rewrite map_size_insert_None by done. intros Hok Hsz.
  assert (Hkey : as_u32 (N.of_nat (size m)) = N.of_nat (size m)) by (apply as_u32_id; lia).
  rewrite Hkey. split.
  - intros n k. rewrite map_size_insert_None by done.
    intros [[_ <-]|[_ H%(io_bound _ Hok)]]%lookup_insert_Some; lia.
  - intros n1 n2 k [[<- <-]|[Hn1 H1]]%lookup_insert_Some [[<- Hk]|[Hn2 H2]]%lookup_insert_Some; [done| | |].
    + apply (io_bound _ Hok) in H2. lia.
    + subst k. apply (io_bound _ Hok) in H1. lia.
    + by eapply (io_inj _ Hok).
Qed.

Lemma intern_empty : intern_ok ∅.
Proof. by split. Qed.

(** A computation that only grows the flag table. *)
Definition gr {A} (m : LM A) : Prop :=
  ∀ s a s', m s = Ok (a, s') -> grows (ls_flag_intern s) (ls_flag_intern s').

Lemma gr_ret {A} (a : A) : gr (mret a).
Proof. intros s a' s' [= _ <-]. apply grows_refl. Qed.
Lemma gr_bind {A B} (m : LM A) (f : A -> LM B) : gr m -> (∀ a, gr (f a)) -> gr (m ≫= f).
Proof.
  intros Hm Hf s b s'. unfold mbind, LM_bind. destruct (m s) as [[a s1]|] eqn:E; [|done].
  intros H. eapply grows_trans; [by eapply Hm|by eapply Hf].
Qed.
Lemma gr_fail {A} e : gr (lm_fail (A := A) e).
Proof. by intros s a s'. Qed.
Lemma gr_lift {A} (r : Result LowerError A) : gr (lm_lift r).
Proof. intros s a s'. unfold lm_lift. destruct r; [|done]. intros [= _ <-]. apply grows_refl. Qed.
Lemma gr_ok_or {A} msg (o : option A) : gr (lm_ok_or msg o).
Proof. apply gr_lift. Qed.
Lemma gr_expect {A} msg (o : option A) : gr (lm_expect msg o).
Proof. apply gr_lift. Qed.
Lemma gr_emit i : gr (emit i). Proof. intros s a s' [= _ <-]. apply grows_refl. Qed.
Lemma gr_here : gr here. Proof. intros s a s' [= _ <-]. apply grows_refl. Qed.
Lemma gr_put_debug a i : gr (put_debug a i). Proof. intros s x s' [= _ <-]. apply grows_refl. Qed.
Lemma gr_put_message_name a i : gr (put_message_name a i). Proof. intros s x s' [= _ <-]. apply grows_refl. Qed.
Lemma gr_put_ffi_decl a i : gr (put_ffi_decl a i). Proof. intros s x s' [= _ <-]. apply grows_refl. Qed.
Lemma gr_put_corr_source a i : gr (put_corr_source a i). Proof. intros s x s' [= _ <-]. apply grows_refl. Qed.
Lemma gr_put_guard_budget a i : gr (put_guard_budget a i). Proof. intros s x s' [= _ <-]. apply grows_refl. Qed.
Lemma gr_intern_flag n : gr (lm_intern_flag n).
Proof.
  intros s a s'. unfold lm_intern_flag.
  destruct (intern_flag _ _) as [k m] eqn:E. intros [= _ <-]. cbn.
  pose proof (intern_flag_spec (ls_flag_intern s) n) as [_ H]. by rewrite E in H.
Qed.
Lemma gr_intern_task n : gr (lm_intern_task n).
Proof.
  intros s a s'. unfold lm_intern_task. destruct (intern_task _ _ _) as [[? ?] ?].
  intros [= _ <-]. apply grows_refl.
Qed.
Lemma gr_for {A} (f : A -> LM unit) l : (∀ x, gr (f x)) -> gr (lm_for f l).
Proof. intros Hf. induction l as [|x l IH]; cbn; [apply gr_ret|]. by apply gr_bind. Qed.

#[export] Hint Resolve gr_ret gr_fail gr_lift gr_ok_or gr_expect gr_emit gr_here gr_put_debug
  gr_put_message_name gr_put_ffi_decl gr_put_corr_source gr_put_guard_budget gr_intern_flag
  gr_intern_task : lowering.

Ltac gr_go := repeat first
  [ solve [auto with lowering]
  | apply gr_for; intros ?
  | apply gr_bind; [|intros ?]
  | match goal with |- ∀ _, gr _ => intros ? end
  | match goal with |- gr (match ?x with _ => _ end) => destruct x eqn:? end ].

Section lower_gr.
Context {PG : PetGraph}.
Variables (now_ms : N) (g : IRGraph).

Lemma open_guard_gr t na id i h : gr (open_guard now_ms g t na id i h).
Proof. unfold open_guard, push_error_guard_arms, push_error_guard_arm. gr_go. Qed.
#[local] Hint Resolve open_guard_gr : lowering.

Lemma guarded_task_gr t na idx id body base :
  gr (lower_boundary_guarded_task_v2 now_ms g t na idx id body base).
Proof.
  unfold lower_boundary_guarded_task_v2, push_body, close_guard, guard_handler. gr_go.
Qed.
#[local] Hint Resolve guarded_task_gr : lowering.

Lemma xor_edges_gr na idx edges d : gr (lower_xor_edges g na idx edges d).
Proof. revert d; induction edges as [|[m w] edges IH]; intros d; cbn; [apply gr_ret|]. gr_go; apply IH. Qed.
#[local] Hint Resolve xor_edges_gr : lowering.

Lemma emit_node_gr p idx base node : gr (emit_node now_ms g p idx base node).
Proof.
  destruct node; cbn [emit_node]; unfold lower_join, lower_fork, lower_xor, lower_wait, lower_send,
    lower_ffi_task, lower_timer_wait, lower_inclusive_diverging_v2, inclusive_precheck, inclusive_header,
    branch_flag, lower_multi_instance_v2, mi_branch, guard_handler, close_guard; gr_go.
Qed.
#[local] Hint Resolve emit_node_gr : lowering.

Lemma lower_node_gr p idx : gr (lower_node now_ms g p idx).
Proof.
  unfold lower_node. assert (Hpad : ∀ b, gr (pad b)).
  { intros b s a s'. unfold pad. apply gr_for, gr_emit. }
  gr_go.
Qed.
End lower_gr.

(** ** The whole program *)

(** The code [code] stands at [base]. *)
Definition block_at (program : list Instr) (base : Addr) (code : list Instr) : Prop :=
  ∃ l1 l2, program = l1 ++ code ++ l2 ∧ len l1 = base.

Lemma block_lookup program base code k i :
  block_at program base code -> code !! k = Some i -> program !! (N.to_nat base + k) = Some i.
Proof.
  intros (l1 & l2 & -> & <-) Hk. unfold len. rewrite Nat2N.id, lookup_app_r by lia.
  replace (length l1 + k - length l1) with k by lia.
  rewrite lookup_app_l; [done|]. by eapply lookup_lt_Some.
Qed.

(** The slots of a list of nodes add up. *)
Definition slots {PG : PetGraph} (g : IRGraph) (t : LowerTables) (l : list nat) : N :=
  foldr N.add 0%N (instr_count_for g t <$> l).

Lemma slots_app {PG : PetGraph} g t l1 l2 : slots g t (l1 ++ l2) = (slots g t l1 + slots g t l2)%N.
Proof.
  unfold slots. rewrite fmap_app. induction (instr_count_for g t <$> l1) as [|n l IH]; cbn; [done|].
  rewrite IH. lia.
Qed.

Lemma assign_addresses_spec {PG : PetGraph} g t order pre n post :
  NoDup order -> (slots g t order < u32_size)%N -> order = pre ++ n :: post ->
  assign_addresses g t order !! n = Some (slots g t pre).
Proof.
  intros Hnd Hfit ->. unfold assign_addresses.
  set (f := λ (acc : gmap nat N * N) node_idx, _).
  assert (Hkeep : ∀ l acc, n ∉ l -> (foldl f acc l).1 !! n = acc.1 !! n).
  { intros l. induction l as [|x l IH]; intros acc Hl; [done|]. cbn. rewrite IH by set_solver.
    cbn. rewrite lookup_insert_ne; [done|set_solver]. }
  assert (Hpre : ∀ l acc, (acc.2 + slots g t l < u32_size)%N ->
      (foldl f acc l).2 = (acc.2 + slots g t l)%N).
  { intros l. induction l as [|x l IH]; intros acc Hl; [by cbn; rewrite N.add_0_r|].
    change (slots g t (x :: l)) with (instr_count_for g t x + slots g t l)%N in *.
    cbn [foldl]. rewrite IH; cbn; rewrite addr_add_id by lia; lia. }
  rewrite foldl_app. cbn [foldl]. apply NoDup_app in Hnd as (_ & Hd & Hpost).
  apply NoDup_cons in Hpost as [Hpost _].
  rewrite slots_app in Hfit. rewrite Hkeep by done. cbn. rewrite lookup_insert_eq.
  rewrite Hpre; cbn; [done|lia].
Qed.

Section program.
Context {PG : PetGraph} {HL : PetGraphLaws PG}.
Variable now_ms : N.
Variables (g : IRGraph) (order : list nat) (p : LowerPlan).
Hypothesis Hwf : graph_wf g.
Hypothesis Hfits : fits g.
Hypothesis Hperm : order ≡ₚ node_indices g.
Hypothesis Htables : lp_tables p = build_tables g order.
Hypothesis Haddrs : lp_node_addr p = assign_addresses g (lp_tables p) order.
Hypothesis Htotal : (slots g (lp_tables p) order < u32_size)%N.

Notation t := (lp_tables p).

Lemma order_nodup : NoDup order.
Proof. rewrite Hperm. apply NoDup_node_indices. Qed.

Lemma node_base n pre post : order = pre ++ n :: post -> lp_node_addr p !! n = Some (slots g t pre).
Proof. intros H. rewrite Haddrs. eapply assign_addresses_spec; [apply order_nodup|done|done]. Qed.

Lemma all_addressed m : m < node_count g -> is_Some (lp_node_addr p !! m).
Proof.
  intros Hm. assert (Hin : m ∈ order) by by rewrite Hperm, elem_of_node_indices.
  apply list_elem_of_split in Hin as (pre & post & Heq). eexists. by eapply node_base.
Qed.

(** An instruction of the program: in the code of a node, or a jump to one. *)
Definition from_node (i : Instr) : Prop :=
  ∃ n base, lp_node_addr p !! n = Some base ∧ (ok_instr g p n base i ∨ i = IJump base).

(** The code is what the node emits in some state of the pass, and the flags it
    interned are still there. *)
Definition emits_code (n : nat) (base : Addr) (code : list Instr) (s : LowerState) : Prop :=
  ∃ node s1 s2, node_at g n = Some node ∧ emit_node now_ms g p n base node s1 = Ok (tt, s2) ∧
    ls_instructions s2 = ls_instructions s1 ++ code ∧ ls_flag_intern s2 ⊆ ls_flag_intern s.

Record emitted (nodes : list nat) (s : LowerState) : Prop := {
  em_blocks n : n ∈ nodes -> ∃ base code,
    lp_node_addr p !! n = Some base ∧ block_at (ls_instructions s) base code ∧
    node_code g p n base code ∧ emits_code n base code s;
  em_origin i : i ∈ ls_instructions s -> from_node i;
}.

Lemma emitted_prefix nodes s s' l' :
  emitted nodes s -> ls_instructions s' = ls_instructions s ++ l' ->
  ls_flag_intern s ⊆ ls_flag_intern s' -> (∀ i, i ∈ l' -> from_node i) -> emitted nodes s'.
Proof.
  intros He Hs' Hf Hl. split.
  - intros n (base & code & Hb & (l1 & l2 & Heq & Hlen) & Hc & Hem)%(em_blocks _ _ He).
    exists base, code. split; [done|]. split; [|split; [done|]].
    + exists l1, (l2 ++ l'). split; [|done]. by rewrite Hs', Heq, <- !app_assoc.
    + destruct Hem as (node & s1 & s2 & ? & ? & ? & ?). exists node, s1, s2. split_and!; [done..|].
      by etrans.
  - intros i. rewrite Hs'. intros [Hi|Hi]%elem_of_app; [by apply (em_origin _ _ He)|by apply Hl].
Qed.

Lemma lm_for_emit l s s' : lm_for emit l s = Ok (tt, s') -> ls_instructions s' = ls_instructions s ++ l.
Proof.
  revert s; induction l as [|i l IH]; intros s; cbn.
  - intros [= <-]. by rewrite app_nil_r.
  - intros H%IH. rewrite H. cbn. by rewrite <- app_assoc.
Qed.

(** One iteration: padding up to the base, then the node's code. *)
Lemma lower_node_inv n s s' base : lp_node_addr p !! n = Some base ->
  lower_node now_ms g p n s = Ok (tt, s') ->
  ∃ node s1 u, node_at g n = Some node ∧
    ls_instructions s1 = ls_instructions s ++
      replicate (addr_index base - length (ls_instructions s)) (IJump base) ∧
    emit_node now_ms g p n base node s1 = Ok (u, s').
Proof.
  intros Hb. unfold lower_node, lm_expect, mbind, LM_bind, lm_lift. rewrite Hb. cbn [ok_or].
  destruct (node_at g n) as [node|]; cbn [ok_or]; [|done].
  destruct (pad base s) as [[[] s1]|] eqn:Ep; [|done]. apply lm_for_emit in Ep.
  destruct (_ <? _)%N; cbn; intros H; eexists node, _, _; (split; [done|]); (split; [|exact H]); exact Ep.
Qed.

Lemma lower_nodes_spec rest pre s s' :
  order = pre ++ rest -> emitted pre s -> (len (ls_instructions s) <= slots g t pre)%N ->
  lm_for (lower_node now_ms g p) rest s = Ok (tt, s') -> emitted order s'.
Proof.
  revert pre s. induction rest as [|n rest IH]; intros pre s Heq He Hlen.
  { intros [= <-]. rewrite app_nil_r in Heq. by rewrite Heq. }
  cbn [lm_for]. unfold mbind, LM_bind. destruct (lower_node now_ms g p n s) as [[[] s2]|] eqn:En; [|done].
  assert (Hbase := node_base n pre rest Heq). set (base := slots g t pre) in *.
  destruct (lower_node_inv n s s2 base Hbase En) as (node & s1 & [] & Hn & Hs1 & Hemit).
  assert (Hslots : slots g t (pre ++ [n]) = (base + instr_count_for g t n)%N).
  { rewrite slots_app. unfold slots at 2. cbn. lia. }
  assert (Hroom : (base + instr_count_for g t n < u32_size)%N).
  { rewrite <- Hslots. rewrite Heq in Htotal. change (n :: rest) with ([n] ++ rest) in Htotal.
    rewrite app_assoc, slots_app in Htotal. lia. }
  assert (Hidx : n < node_count g).
  { rewrite <- elem_of_node_indices, <- Hperm, Heq. set_solver. }
  destruct (wr_emit_node now_ms g order p Hwf Hfits Htables Hperm all_addressed n base
    Hidx Hroom node Hn s1 tt s2 Hemit) as (code & Hs2 & Hcode).
  assert (Hs1len : len (ls_instructions s1) = base).
  { rewrite Hs1. unfold len, addr_index in *. rewrite length_app, length_replicate. lia. }
  apply (IH (pre ++ [n])); [by rewrite <- app_assoc| |].
  - assert (He2 : emitted pre s2).
    { eapply (emitted_prefix pre s s2 (_ ++ code)); [done| | |].
      - by rewrite Hs2, Hs1, <- app_assoc.
      - by apply (lower_node_gr _ _ _ _ _ _ _ En).
      - intros i [Hi|Hi]%elem_of_app; exists n, base; (split; [done|]).
        + right. by apply elem_of_replicate in Hi as [-> _].
        + left. destruct Hcode as [[HF _] _]. by eapply Forall_forall in HF. }
    split; [|apply (em_origin _ _ He2)].
    intros m [Hm| ->%list_elem_of_singleton]%elem_of_app; [by apply (em_blocks _ _ He2)|].
    exists base, code. split; [done|]. split; [|split; [done|]].
    + exists (ls_instructions s1), []. by rewrite app_nil_r.
    + exists node, s1, s2. by split_and!.
  - rewrite Hslots, Hs2, len_app, Hs1len. destruct Hcode as [[_ HL'] _]. lia.
Qed.
End program.
