(* ===== verification/BpmnTheorems.v ===== *)
(** * The workflow compiler: properties

    The properties of [bpmn-lite-compiler]: what [verify] admits, that the
    post-dominators are exact, that the layout lists every node, that lowering
    never panics, keeps to the assigned addresses, follows the sequence flow
    and pairs every join with its fork, and what [verify_bytecode] accepts. *)

From S2P Require Import Prelude RustStr Json Types Platform Effects Transition Verifier KernelBase KernelTick Fixtures BpmnIr BpmnVerify BpmnLower BpmnDominators BpmnLayout.

Open Scope string_scope.
Open Scope list_scope.

(** ** The plan *)

Section plan.
Context {PG : PetGraph} {HL : PetGraphLaws PG}.
Variable g : IRGraph.
Hypothesis Hwf : graph_wf g.
Hypothesis Hac : acyclic g.

Lemma compute_region_map_lookup post_doms n m :
  compute_region_map g post_doms !! n = Some m -> post_doms !! n = Some m.
Proof.
  unfold compute_region_map. intros H. apply elem_of_list_to_map_2 in H.
  apply list_elem_of_omap in H as (k & _ & H). destruct (_ <? _)%nat; [|done].
  destruct (post_doms !! k) eqn:E; [|done]. by injection H as -> ->.
Qed.

Lemma assign_addresses_total t order m :
  m ∈ order -> is_Some (assign_addresses g t order !! m).
Proof.
  unfold assign_addresses. set (f := λ (acc : gmap nat N * N) node_idx, _).
  assert (Hkeep : ∀ l acc, is_Some (acc.1 !! m) -> is_Some ((foldl f acc l).1 !! m)).
  { intros l. induction l as [|x l IH]; intros acc H; [done|]. cbn. apply IH. cbn.
    destruct (decide (x = m)) as [->|]; [by rewrite lookup_insert_eq|by rewrite lookup_insert_ne]. }
  generalize (∅ : gmap nat N, 0%N) as acc. induction order as [|x order IH]; intros acc Hin; [set_solver|].
  cbn. apply elem_of_cons in Hin as [->|Hin]; [|by apply IH].
  apply Hkeep. cbn. by rewrite lookup_insert_eq.
Qed.

(** The pairing the loop builds: a join's entry comes from the fork it is the
    immediate post-dominator of. *)
Record pairing_ok (post_doms : gmap nat nat) (node_addr : gmap nat N) (t : LowerTables)
    (pr : Pairing) : Prop := {
  pk_and j a : fork_pairing pr !! j = Some a -> ∃ d id name,
    post_doms !! d = Some j ∧ node_at g d = Some (NGatewayAnd id name Diverging) ∧
    node_addr !! d = Some a;
  pk_inclusive j a : inclusive_fork_addr pr !! j = Some a -> ∃ d id name b,
    post_doms !! d = Some j ∧ node_at g d = Some (NGatewayInclusive id name Diverging) ∧
    node_addr !! d = Some b ∧
    a = addr_add b (from_option inclusive_precheck_len 0%N (inclusive_branches t !! d));
  pk_join d a : inclusive_join_addr pr !! d = Some a -> ∃ j,
    post_doms !! d = Some j ∧ node_addr !! j = Some a;
}.

Lemma pair_gateway_ok post_doms node_addr t pr d :
  (∀ n m, post_doms !! n = Some m -> is_Some (node_addr !! n) ∧ is_Some (node_addr !! m)) ->
  pairing_ok post_doms node_addr t pr ->
  ∃ pr', pair_gateway g post_doms node_addr t pr d = Some pr' ∧ pairing_ok post_doms node_addr t pr'.
Proof.
  intros Hadd Hok. unfold pair_gateway. destruct (post_doms !! d) as [j|] eqn:Ed; [|by eauto].
  destruct (Hadd d j Ed) as [[ad Had] [aj Haj]].
  destruct (node_at g d) as [[| | | |id name []| | | | | |id name []| | | |]|] eqn:En; try by eauto.
  - destruct (node_at g j) as [[| | | |? ? []| | | | | |? ? []| | | |]|]; try by eauto.
    rewrite Had. cbn. eexists. split; [done|]. split; cbn; [|apply Hok..].
    intros j' a [[-> <-]|[_ H]]%lookup_insert_Some; [eauto 10|by eapply Hok].
  - destruct (node_at g j) as [[| | | |? ? []| | | | | |? ? []| | | |]|]; try by eauto.
    rewrite Haj, Had. cbn. eexists. split; [done|]. split; cbn; [apply Hok| |].
    + intros j' a [[-> <-]|[_ H]]%lookup_insert_Some; [eauto 10|by eapply Hok].
    + intros d' a [[-> <-]|[_ H]]%lookup_insert_Some; [eauto|by eapply Hok].
Qed.

Lemma compute_gateway_pairing_ok post_doms node_addr t :
  (∀ n m, post_doms !! n = Some m -> is_Some (node_addr !! n) ∧ is_Some (node_addr !! m)) ->
  ∃ pr, compute_gateway_pairing g post_doms node_addr t = Some pr ∧
    pairing_ok post_doms node_addr t pr.
Proof.
  intros Hadd. unfold compute_gateway_pairing.
  assert (Hinit : pairing_ok post_doms node_addr t (mkPairing ∅ ∅ ∅)) by by split.
  revert Hinit. generalize (mkPairing ∅ ∅ ∅) as pr.
  induction (node_indices g) as [|n l IH]; intros pr Hpr; cbn; [eauto|].
  destruct (pair_gateway_ok post_doms node_addr t pr n Hadd Hpr) as (pr' & -> & Hpr'). by apply IH.
Qed.

Lemma find_start_node start : find_start g = Some start -> start < node_count g.
Proof.
  unfold find_start. intros H%head_Some_elem_of.
  by apply list_elem_of_filter in H as [_ H%elem_of_node_indices].
Qed.

(** What the first pass returns. *)
Record plan_ok (order : list nat) (p : LowerPlan) (post_doms : gmap nat nat) : Prop := {
  po_perm : order ≡ₚ node_indices g;
  po_head : head order = find_start g;
  po_tables : lp_tables p = build_tables g order;
  po_addr : lp_node_addr p = assign_addresses g (lp_tables p) order;
  po_doms n d : post_doms !! n = Some d ↔ n < node_count g ∧ immediate_post_dominator g n d;
  po_pairing : pairing_ok post_doms (lp_node_addr p) (lp_tables p) (lp_pairing p);
}.

Lemma plan_lowering_ok start : find_start g = Some start ->
  ∃ order p fi post_doms, plan_lowering g = Ok (order, p, fi) ∧ plan_ok order p post_doms.
Proof.
  intros Hstart. unfold plan_lowering. rewrite Hstart. cbn [ok_or mbind Result_bind].
  destruct (compute_post_dominators_spec g Hwf Hac) as (pd & -> & Hpd). cbn [ok_or mbind Result_bind].
  assert (Hnodes : ∀ n m, pd !! n = Some m -> n < node_count g ∧ m < node_count g).
  { intros n m [Hn (_ & Hd & _)]%Hpd. split; [done|]. by eapply post_dominator_lt. }
  destruct (structured_order_spec g (compute_region_map g pd) Hwf) with (start := start)
    as (order & -> & Hperm & Hhead).
  { intros n m Hm%compute_region_map_lookup. by eapply Hnodes. }
  { by apply find_start_node. }
  cbn [ok_or mbind Result_bind].
  set (t := build_tables g order). set (na := assign_addresses g t order).
  destruct (compute_gateway_pairing_ok pd na t) as (pr & -> & Hpr).
  { intros n m [H1 H2]%Hnodes. split; apply assign_addresses_total; by rewrite Hperm, elem_of_node_indices. }
  cbn [ok_or mbind Result_bind]. destruct (declare_objects g order) as [objs fi].
  exists order, (mkPlan t na pr objs), fi, pd. split; [done|]. split; try done. by rewrite Hhead, Hstart.
Qed.

(** The flags of the data objects are interned first. *)
Lemma declare_objects_grow order : grows ∅ (declare_objects g order).2.
Proof.
  unfold declare_objects. set (f := λ (acc : _ * gmap string N) node_idx, _).
  assert (Hstep : ∀ acc n, grows acc.2 (f acc n).2).
  { intros acc n. unfold f. destruct (node_at g n) as [[]|]; try apply grows_refl.
    destruct (assign_storage type_decl id acc.2) as [st m] eqn:E. cbn.
    unfold assign_storage in E. destruct type_decl as [[]|]; try (injection E as _ <-; apply grows_refl).
    all: pose proof (intern_flag_spec acc.2 id) as [_ H]; destruct (intern_flag acc.2 id);
      injection E as _ <-; exact H. }
  assert (Hgen : ∀ l acc, grows acc.2 (foldl f acc l).2).
  { intros l. induction l as [|n l IH]; intros acc; [apply grows_refl|]. cbn.
    eapply grows_trans; [apply Hstep|apply IH]. }
  apply (Hgen order (∅, ∅)).
Qed.

Lemma declared_flags_grow order p fi : plan_lowering g = Ok (order, p, fi) -> grows ∅ fi.
Proof.
  unfold plan_lowering. intros H. do 4 (apply bind_ok_inv in H as (? & _ & H)).
  pose proof (declare_objects_grow x1) as Hg. destruct (declare_objects g x1) as [objs m].
  injection H as <- <- <-. exact Hg.
Qed.

(** A start node is found or lowering rejects the graph. *)
Lemma plan_lowering_inv order p fi : plan_lowering g = Ok (order, p, fi) ->
  ∃ post_doms, plan_ok order p post_doms.
Proof.
  intros H. destruct (find_start g) as [start|] eqn:E.
  - destruct (plan_lowering_ok start E) as (order' & p' & fi' & pd & H' & Hok).
    rewrite H' in H. injection H as <- <- <-. eauto.
  - unfold plan_lowering in H. by rewrite E in H.
Qed.
End plan.

(** ** No panic *)

(** A computation that never indexes a missing entry. *)
Definition np {A} (m : LM A) : Prop := ∀ s w, m s ≠ Err (LPanic w).

Section np.
Lemma np_ret {A} (a : A) : np (mret a).
Proof. by intros s w. Qed.
Lemma np_bind {A B} (m : LM A) (f : A -> LM B) : np m -> (∀ a, np (f a)) -> np (m ≫= f).
Proof.
  intros Hm Hf s w. unfold mbind, LM_bind. destruct (m s) as [[a s']|e] eqn:E; [apply Hf|].
  intros [= ->]. by eapply Hm.
Qed.
(** The continuation only runs on a value the first part can return. *)
Lemma np_bind_val {A B} (m : LM A) (f : A -> LM B) (R : A -> Prop) :
  np m -> (∀ s a s', m s = Ok (a, s') -> R a) -> (∀ a, R a -> np (f a)) -> np (m ≫= f).
Proof.
  intros Hm HR Hf s w. unfold mbind, LM_bind. destruct (m s) as [[a s']|e] eqn:E; [apply Hf; eauto|].
  intros [= ->]. by eapply Hm.
Qed.
Lemma np_fail {A} msg : np (lm_fail (A := A) (LReject msg)).
Proof. by intros s w. Qed.
Lemma np_ok_or {A} msg (o : option A) : np (lm_ok_or msg o).
Proof. intros s w. unfold lm_ok_or, lm_lift. by destruct o. Qed.
Lemma np_expect {A} msg (o : option A) : is_Some o -> np (lm_expect msg o).
Proof. intros [a ->] s w. done. Qed.
Lemma np_emit i : np (emit i). Proof. by intros s w. Qed.
Lemma np_here : np here. Proof. by intros s w. Qed.
Lemma np_put_debug a i : np (put_debug a i). Proof. by intros s w. Qed.
Lemma np_put_message_name a i : np (put_message_name a i). Proof. by intros s w. Qed.
Lemma np_put_ffi_decl a i : np (put_ffi_decl a i). Proof. by intros s w. Qed.
Lemma np_put_corr_source a i : np (put_corr_source a i). Proof. by intros s w. Qed.
Lemma np_put_guard_budget a i : np (put_guard_budget a i). Proof. by intros s w. Qed.
Lemma np_intern_flag n : np (lm_intern_flag n).
Proof. intros s w. unfold lm_intern_flag. by destruct (intern_flag _ _). Qed.
Lemma np_intern_task n : np (lm_intern_task n).
Proof. intros s w. unfold lm_intern_task. by destruct (intern_task _ _ _) as [[? ?] ?]. Qed.
Lemma np_for {A} (f : A -> LM unit) l : (∀ x, x ∈ l -> np (f x)) -> np (lm_for f l).
Proof.
  induction l as [|x l IH]; intros Hf; cbn; [apply np_ret|].
  apply np_bind; [apply Hf; set_solver|]. intros _. apply IH. set_solver.
Qed.
Lemma np_lift {A} (r : Result LowerError A) : (∀ w, r ≠ Err (LPanic w)) -> np (lm_lift r).
Proof. intros H s w. unfold lm_lift. destruct r; [done|]. intros [= ->]. by eapply H. Qed.
End np.

#[export] Hint Resolve np_ret np_fail np_ok_or np_emit np_here np_put_debug np_put_message_name
  np_put_ffi_decl np_put_corr_source np_put_guard_budget np_intern_flag np_intern_task : lowering.

(** Chains of steps that cannot panic. *)
Ltac np_go := repeat first
  [ solve [auto with lowering]
  | apply np_bind; [|intros ?]
  | match goal with |- ∀ _, np _ => intros ? end
  | match goal with |- np (match ?x with _ => _ end) => destruct x eqn:? end ].

Section lower_np.
Context {PG : PetGraph} {HL : PetGraphLaws PG}.
Variables (now_ms : N) (g : IRGraph) (t : LowerTables) (node_addr : gmap nat N).

Lemma resolve_expression_np e objs w : resolve_expression e objs ≠ Err (LPanic w).
Proof.
  destruct e as [l|[|x path]]; cbn; [done|done|]. destruct (objs !! x) as [d|]; cbn; [|done].
  destruct (dod_storage d); [by destruct path|done].
Qed.

Lemma resolve_correlation_np e objs w : resolve_correlation_source e objs ≠ Err (LPanic w).
Proof.
  unfold resolve_correlation_source. destruct (existsb _ _); [done|].
  destruct (from_option _ _ _); [done|]. apply resolve_expression_np.
Qed.

Lemma mapM_np {A B} (f : A -> Result LowerError B) l w :
  (∀ x w, f x ≠ Err (LPanic w)) -> mapM f l ≠ Err (LPanic w).
Proof.
  intros Hf. induction l as [|x l IH]; [done|].
  change (mapM f (x :: l)) with (f x ≫= λ y, mapM f l ≫= λ ys, mret (y :: ys)).
  destruct (f x) as [y|e] eqn:E; cbn [mbind Result_bind]; [|intros [= ->]; by eapply Hf].
  destruct (mapM f l) as [ys|e] eqn:E'; cbn; [done|]. intros [= ->]. by apply IH.
Qed.

Lemma guard_np id : is_unguarded t id = false -> np (guard_handler g t node_addr id).
Proof.
  unfold is_unguarded, guard_handler, has_errors. intros H.
  destruct (timer_boundary t id) as [[b spec]|]; [auto with lowering|].
  apply np_bind; [|auto with lowering]. apply np_expect.
  destruct (error_boundaries t id); [done|by eexists].
Qed.

Lemma open_guard_np id i h : np (open_guard now_ms g t node_addr id i h).
Proof.
  unfold open_guard, push_error_guard_arms. np_go.
  apply np_for. intros x _. unfold push_error_guard_arm. np_go.
Qed.

Lemma guarded_task_np idx id body base :
  np (lower_boundary_guarded_task_v2 now_ms g t node_addr idx id body base).
Proof.
  unfold lower_boundary_guarded_task_v2, push_body, close_guard.
  destruct (is_unguarded t id) eqn:E; [np_go|].
  apply np_bind; [by apply guard_np|]. intros h.
  apply np_bind; [apply open_guard_np|]. intros _. np_go.
Qed.

Lemma ffi_task_np idx id ti ins outs base objs :
  np (lower_ffi_task now_ms g t node_addr idx id ti ins outs base objs).
Proof.
  unfold lower_ffi_task, close_guard.
  apply np_bind; [|intros cis; apply np_bind; [|intros cos; apply np_bind; [|np_go]]].
  - apply np_lift. intros w. apply mapM_np. intros b w'.
    destruct (resolve_expression (fi_expression b) objs) as [s|e] eqn:E; cbn; [done|].
    intros [= ->]. by eapply resolve_expression_np.
  - apply np_lift. intros w. apply mapM_np. intros b w'. unfold resolve_output_target.
    destruct (objs !! fo_target_variable b) as [d|]; cbn; [|done]. by destruct (dod_storage d).
  - destruct (is_unguarded t id) eqn:E; [np_go|].
    apply np_bind; [by apply guard_np|]. intros h.
    apply np_bind; [apply open_guard_np|]. intros _. np_go.
Qed.

Lemma xor_edges_np idx edges d : np (lower_xor_edges g node_addr idx edges d).
Proof.
  revert d; induction edges as [|[m w] edges IH]; intros d; cbn; [apply np_ret|]. np_go; apply IH.
Qed.

Lemma fork_np idx base : np (lower_fork g node_addr idx base).
Proof.
  unfold lower_fork. apply np_bind; [|np_go]. apply np_lift. intros w. apply mapM_np.
  intros x w'. unfold fork_target. by destruct (node_addr !! x).
Qed.

(** A branch without a condition is always live, so the flag is there. *)
Lemma branch_flag_np b e : b = inclusive_branch e -> br_always_live b = false -> np (branch_flag b).
Proof.
  intros -> Hb. unfold branch_flag. apply np_bind; [|auto with lowering]. apply np_expect. cbn in *.
  apply bool_decide_eq_false in Hb. destruct (ie_condition e.2); [by eexists|done].
Qed.

Lemma inclusive_np idx base j : np (lower_inclusive_diverging_v2 g node_addr idx base j).
Proof.
  unfold lower_inclusive_diverging_v2.
  set (bs := inclusive_branch <$> pg_edges_out g idx).
  assert (Hbs : ∀ b, b ∈ bs -> ∃ e, b = inclusive_branch e).
  { intros b (e & -> & _)%list_elem_of_fmap. eauto. }
  apply np_bind; [|intros _; apply np_bind; [auto with lowering|intros _]].
  - destruct (existsb br_always_live bs) eqn:E; [np_go|]. apply np_bind; [|np_go].
    apply np_for. intros b Hb. unfold inclusive_precheck. apply np_bind; [|np_go].
    destruct (Hbs b Hb) as [e He]. eapply branch_flag_np; [done|].
    destruct (br_always_live b) eqn:Hl; [|done]. exfalso.
    assert (existsb br_always_live bs = true); [|congruence].
    apply existsb_exists. exists b. split; [by apply list_elem_of_In|done].
  - apply np_for. intros b Hb. unfold inclusive_header. apply np_bind; [auto with lowering|].
    intros target. destruct (br_always_live b) eqn:Hl; [auto with lowering|].
    destruct (Hbs b Hb) as [e He]. apply np_bind; [by eapply branch_flag_np|np_go].
Qed.
End lower_np.

Section lower_total.
Context {PG : PetGraph} {HL : PetGraphLaws PG}.
Variables (now_ms : N) (g : IRGraph).

Lemma emit_node_np p idx base node : np (emit_node now_ms g p idx base node).
Proof.
  destruct node as [id|id term|id nm ty|id nm|id nm [] |id spec|id nm c|id nm k c|id a sp i f|id a c f
    |id nm []|id nm ty r|id nm ti ins outs|id nm m c|id nm ty fl mx]; cbn [emit_node].
  - np_go.
  - np_go.
  - apply np_bind; [apply guarded_task_np|np_go].
  - apply np_bind; [apply xor_edges_np|np_go].
  - apply fork_np.
  - unfold lower_join. np_go.
  - unfold lower_timer_wait. np_go.
  - unfold lower_wait. do 2 (apply np_bind; [np_go|intros ?]).
    apply np_bind; [apply np_lift; intros w; apply resolve_correlation_np|intros ?].
    apply np_bind; [apply guarded_task_np|np_go].
  - unfold lower_wait. do 2 (apply np_bind; [np_go|intros ?]).
    apply np_bind; [apply np_lift; intros w; apply resolve_correlation_np|intros ?].
    apply np_bind; [apply guarded_task_np|np_go].
  - np_go.
  - np_go.
  - apply np_bind; [np_go|intros j]. apply inclusive_np.
  - unfold lower_join. np_go.
  - np_go.
  - apply ffi_task_np.
  - unfold lower_send. do 3 (apply np_bind; [np_go|intros ?]).
    apply np_bind; [apply np_lift; intros w; apply resolve_correlation_np|intros ?]. np_go.
  - unfold lower_multi_instance_v2. do 4 (apply np_bind; [np_go|intros ?]).
    apply np_bind; [|np_go]. apply np_for. intros x _. unfold mi_branch. np_go.
Qed.

Lemma lower_node_np p idx :
  idx < node_count g -> is_Some (lp_node_addr p !! idx) -> np (lower_node now_ms g p idx).
Proof.
  intros Hidx Haddr. unfold lower_node. apply np_bind; [by apply np_expect|]. intros base.
  apply np_bind; [apply np_expect; by apply lookup_lt_is_Some_2|]. intros node.
  apply np_bind; [intros s w; apply np_for; auto with lowering|]. intros _.
  apply np_bind; [np_go|]. intros _. apply emit_node_np.
Qed.

Context {P : Platform}.
Variable to_json : list Instr -> Result string (list Byte.byte).

Lemma lower_no_panic budget w :
  graph_wf g -> acyclic g -> lower_with_default now_ms to_json g budget ≠ Err (LPanic w).
Proof.
  intros Hwf Hac. unfold lower_with_default.
  destruct (process_budget budget) as [b|e] eqn:Eb; cbn [mbind Result_bind].
  2:{ intros [= ->]. unfold process_budget in Eb. destruct budget as [m|]; [|done].
      by destruct (ScopeFailureBudget_new 1 m). }
  destruct (find_start g) as [start|] eqn:Es; [|unfold plan_lowering; by rewrite Es].
  destruct (plan_lowering_ok g Hwf Hac start Es) as (order & p & fi & pd & -> & Hok).
  cbn [mbind Result_bind].
  destruct (lm_for _ _ _) as [[u s]|e] eqn:El; cbn [mbind Result_bind].
  - unfold finish_program. by destruct (to_json _).
  - intros [= ->]. revert El. apply np_for. intros n Hn.
    assert (Hlt : n < node_count g) by by rewrite <- elem_of_node_indices, <- (po_perm _ _ _ _ Hok).
    apply lower_node_np; [done|]. rewrite (po_addr _ _ _ _ Hok). by apply assign_addresses_total.
Qed.

(** The addresses of the program fit a [u32]. *)
Definition program_fits : Prop :=
  fits g ∧ ∀ order p fi, plan_lowering g = Ok (order, p, fi) ->
    (slots g (lp_tables p) order < u32_size)%N.

(** A successful lowering, taken apart. *)
Lemma lower_inv budget prog :
  graph_wf g -> acyclic g -> program_fits ->
  lower_with_default now_ms to_json g budget = Ok prog ->
  ∃ order p fi pd s, plan_lowering g = Ok (order, p, fi) ∧ plan_ok g order p pd ∧
    emitted now_ms g p order s ∧ grows ∅ (ls_flag_intern s) ∧
    cp_program prog = ls_instructions s ∧
    cp_write_set prog = (λ key, {[key]}) <$> ls_flag_intern s ∧
    cp_flag_symbol_table prog =
      list_to_map ((λ nk : string * N, (nk.2, nk.1)) <$> map_to_list (ls_flag_intern s)).
Proof.
  intros Hwf Hac [Hfits Htotal] H. unfold lower_with_default in H.
  apply bind_ok_inv in H as (b & _ & H). apply bind_ok_inv in H as ([[order p] fi] & Hp & H).
  apply bind_ok_inv in H as ([[] s] & Hl & H).
  unfold finish_program in H. apply bind_ok_inv in H as (bytes & _ & [= <-]). cbn.
  destruct (plan_lowering_inv g Hwf Hac order p fi Hp) as [pd Hok].
  exists order, p, fi, pd, s. split; [done|]. split; [done|]. split; [|split; [|done]].
  - eapply (lower_nodes_spec now_ms g order p Hwf Hfits (po_perm _ _ _ _ Hok) (po_tables _ _ _ _ Hok)
      (po_addr _ _ _ _ Hok) (Htotal _ _ _ Hp) order []); [done| | |exact Hl]; cbn; [|done].
    split; set_solver.
  - eapply grows_trans; [|eapply gr_for; [intros; apply lower_node_gr|exact Hl]]. cbn.
    by eapply declared_flags_grow.
Qed.
End lower_total.


(** ** What [verify] admits *)

Lemma bind_nil {A B} (f : A -> list B) (l : list A) : l ≫= f = [] ↔ ∀ x, x ∈ l -> f x = [].
Proof.
  induction l as [|x l IH]; [set_solver|]. rewrite bind_cons. split.
  - intros [H1 H2]%app_nil y [->|Hy]%elem_of_cons; [done|]. by apply IH.
  - intros H. apply app_nil. split; [apply H; set_solver|]. apply IH. set_solver.
Qed.

Lemma for_nodes_nil g f :
  for_nodes g f = [] ↔ ∀ i n, node_at g i = Some n -> f i n = [].
Proof.
  unfold for_nodes. rewrite bind_nil. split.
  - intros H i n Hn. specialize (H i). rewrite Hn in H. apply H.
    apply elem_of_node_indices. by eapply lookup_lt_Some.
  - intros H i _. destruct (node_at g i) eqn:E; [by apply H|done].
Qed.

Lemma duplicate_errors_nil what ids : duplicate_errors what ids = [] -> NoDup ids.
Proof.
  unfold duplicate_errors. set (f := λ (acc : gset string * list VerifyError) id, _).
  assert (Hmono : ∀ l acc, (foldl f acc l).2 = [] -> acc.2 = []).
  { intros l. induction l as [|x l IH]; intros acc H; [done|]. cbn in H. apply IH in H.
    unfold f in H. case_decide; [by destruct acc.2|done]. }
  assert (Hgen : ∀ l acc, (foldl f acc l).2 = [] -> NoDup l ∧ ∀ x, x ∈ l -> x ∉ acc.1).
  { intros l. induction l as [|x l IH]; intros acc H; [split; [constructor|set_solver]|].
    cbn in H. pose proof (Hmono _ _ H) as Hx. destruct (IH _ H) as [Hnd Hl].
    unfold f in Hx, Hl. case_decide as Hd; [by destruct acc.2|]. cbn in Hl.
    split; [constructor; [|done]; intros Hin; apply (Hl x Hin); set_solver|]. set_solver. }
  intros H. by apply (Hgen ids (∅, [])).
Qed.

(** The entries of a per-host table. *)
Lemma entry_push_lookup `{Countable K} (k k' : K) (id : string) (m : gmap K (list string)) :
  default [] (entry_push k id m !! k') = default [] (m !! k') ++ (if decide (k = k') then [id] else []).
Proof.
  unfold entry_push. case_decide as Hk; [subst; by rewrite lookup_insert_eq|].
  by rewrite lookup_insert_ne, app_nil_r.
Qed.

(** The ids [key] collects for [k], in order. *)
Definition collected `{EqDecision K} (key : IRNode -> option (K * string)) (k : K) (l : list IRNode)
  : list string :=
  omap (λ n, match key n with Some (k', id) => if decide (k' = k) then Some id else None | None => None end) l.

Lemma fold_entry_push `{Countable K} (key : IRNode -> option (K * string)) k (l : list IRNode) m :
  default [] (foldl (λ m n, match key n with Some (k', id) => entry_push k' id m | None => m end) m l !! k) =
  default [] (m !! k) ++ collected key k l.
Proof.
  revert m; induction l as [|n l IH]; intros m; cbn; [by rewrite app_nil_r|].
  rewrite IH. destruct (key n) as [[k' id]|]; [|done]. rewrite entry_push_lookup, <- app_assoc.
  by case_decide.
Qed.

Lemma fold_entry_push_empty `{Countable K} (key : IRNode -> option (K * string)) k (l : list IRNode) :
  default [] (foldl (λ m n, match key n with Some (k', id) => entry_push k' id m | None => m end) ∅ l !! k) =
  collected key k l.
Proof. by rewrite fold_entry_push, lookup_empty. Qed.

Lemma fold_same {A B} (f h : A -> B -> A) (a : A) (l : list B) :
  (∀ a b, f a b = h a b) -> foldl f a l = foldl h a l.
Proof. intros H. revert a. induction l as [|b l IH]; intros a; cbn; [done|]. by rewrite H. Qed.

Definition timer_key (n : IRNode) : option (string * string) :=
  match n with NBoundaryTimer id attached_to _ _ _ => Some (attached_to, id) | _ => None end.
Definition catch_all_key (n : IRNode) : option (string * string) :=
  match n with NBoundaryError id attached_to None _ => Some (attached_to, id) | _ => None end.
Definition code_key (n : IRNode) : option ((string * string) * string) :=
  match n with NBoundaryError id attached_to (Some code) _ => Some ((attached_to, code), id) | _ => None end.

(** A table none of whose entries has two ids. *)
Lemma single_entries `{Countable K} (m : gmap K (list string)) (f : K * list string -> list VerifyError) :
  (∀ k ids, 1 < length ids -> f (k, ids) ≠ []) ->
  map_to_list m ≫= f = [] -> ∀ k, length (default [] (m !! k)) <= 1.
Proof.
  intros Hf Hnil k. rewrite bind_nil in Hnil. destruct (m !! k) as [ids|] eqn:E; cbn; [|lia].
  destruct (decide (1 < length ids)); [|lia]. exfalso. eapply Hf; [done|].
  apply Hnil. by apply elem_of_map_to_list.
Qed.

Section admitted.
Context {PG : PetGraph} {HL : PetGraphLaws PG}.
Variable g : IRGraph.

(** What an admitted graph satisfies.  The gateway-nesting walk (check 4a) is
    not part of it. *)
Record admitted : Prop := {
  ad_node_ids : NoDup (node_id <$> ig_nodes g);
  ad_flow_ids : NoDup ((λ e, ie_id e.2) <$> ig_edges g);
  ad_start : ∃ s, find_start g = Some s ∧
    ∀ i id, node_at g i = Some (NStart id) -> i = s;
  ad_end : ∃ i id t, node_at g i = Some (NEnd id t);
  ad_acyclic : acyclic g;
  ad_reachable i n : node_at g i = Some n -> is_data_object n = false ->
    ∃ r, (find_start g = Some r ∨ ∃ b, node_at g r = Some b ∧ is_boundary b = true) ∧
      rtc (edge g) r i;
  ad_xor i id name : node_at g i = Some (NGatewayXor id name) -> 1 < length (out_edges g i) ->
    length (filter (λ e : nat * IREdge, ie_condition e.2 = None) (out_edges g i)) = 1;
  ad_timer i id host spec interrupting budget :
    node_at g i = Some (NBoundaryTimer id host spec interrupting budget) ->
    (∃ h n, node_at g h = Some n ∧ hosts_timer host n = true) ∧
    (is_cycle spec = true -> interrupting = false) ∧ (∃ m, edge g i m);
  ad_one_timer host : length (collected timer_key host (ig_nodes g)) <= 1;
  ad_error i id host code budget :
    node_at g i = Some (NBoundaryError id host code budget) ->
    (∃ h n, node_at g h = Some n ∧ hosts_error host n = true) ∧ length (out_edges g i) = 1;
  ad_one_catch_all host : length (collected catch_all_key host (ig_nodes g)) <= 1;
  ad_one_code host code : length (collected code_key (host, code) (ig_nodes g)) <= 1;
}.

Lemma node_ids_indices : node_id_at g <$> node_indices g = node_id <$> ig_nodes g.
Proof.
  apply list_eq. intros i. unfold node_indices, node_id_at, node_at, node_count.
  rewrite !list_lookup_fmap. destruct (decide (i < length (ig_nodes g))) as [Hi|Hi].
  - rewrite lookup_seq_lt by done. cbn.
    destruct (ig_nodes g !! i) as [n|] eqn:E; [done|]. apply lookup_ge_None in E. lia.
  - rewrite lookup_seq_ge, lookup_ge_None_2 by lia. done.
Qed.

Lemma elem_of_indices_where p i :
  i ∈ indices_where g p ↔ ∃ n, node_at g i = Some n ∧ p n = true.
Proof.
  unfold indices_where. rewrite list_elem_of_filter, elem_of_node_indices. split.
  - intros [H _]. destruct (node_at g i); [eauto|done].
  - intros (n & Hn & Hp). rewrite Hn. split; [done|]. by eapply lookup_lt_Some.
Qed.

Lemma find_start_where : find_start g = head (indices_where g is_start_node).
Proof.
  unfold find_start, indices_where. f_equal.
Qed.

Lemma reachable_set_sound s x :
  graph_wf g -> s < node_count g -> x ∈ reachable_set g s ->
  ∃ r, (r = s ∨ ∃ b, node_at g r = Some b ∧ is_boundary b = true) ∧ rtc (edge g) r x.
Proof.
  intros Hwf Hs. unfold reachable_set.
  set (f := λ (reachable : gset nat) idx, _).
  assert (Hgen : ∀ l acc, (∀ i, i ∈ l -> i < node_count g) ->
    (∀ x, x ∈ acc -> ∃ r, (r = s ∨ ∃ b, node_at g r = Some b ∧ is_boundary b = true) ∧ rtc (edge g) r x) ->
    ∀ x, x ∈ foldl f acc l -> ∃ r, (r = s ∨ ∃ b, node_at g r = Some b ∧ is_boundary b = true) ∧ rtc (edge g) r x).
  { intros l. induction l as [|i l IH]; intros acc Hl Hacc; [done|]. cbn. apply IH; [set_solver|].
    intros y. unfold f. destruct (node_at g i) as [n|] eqn:En; [|apply Hacc].
    destruct (is_boundary n) eqn:Eb; [|apply Hacc]. cbn. destruct (negb _); [|apply Hacc].
    rewrite !elem_of_union, elem_of_singleton, elem_of_list_to_set. intros [[->|Hy]|Hy]; [|by apply Hacc|].
    - exists i. split; [eauto|done].
    - exists i. split; [eauto|]. apply pg_dfs_spec in Hy; [done..|]. apply Hl. set_solver. }
  apply Hgen; [intros i; apply elem_of_node_indices|]. intros y. rewrite elem_of_list_to_set.
  intros Hy%pg_dfs_spec; [eauto|done..].
Qed.

Lemma xor_conditions (l : list (nat * IREdge)) :
  length l - length (filter (λ e : nat * IREdge, is_Some (ie_condition e.2)) l) =
  length (filter (λ e : nat * IREdge, ie_condition e.2 = None) l).
Proof.
  assert (H : length (filter (λ e : nat * IREdge, is_Some (ie_condition e.2)) l) +
    length (filter (λ e : nat * IREdge, ie_condition e.2 = None) l) = length l); [|lia].
  induction l as [|e l IH]; [done|]. rewrite !filter_cons. destruct (ie_condition e.2) as [c|] eqn:E.
  - rewrite decide_True by by eexists. rewrite decide_False by done. cbn. lia.
  - rewrite decide_False by by intros [? ?]. rewrite decide_True by done. cbn. lia.
Qed.

Lemma existsb_host (p : IRNode -> bool) :
  existsb p (ig_nodes g) = true -> ∃ h n, node_at g h = Some n ∧ p n = true.
Proof.
  intros (n & Hn & Hp)%existsb_exists. apply list_elem_of_In, list_elem_of_lookup in Hn as [h Hh].
  eauto.
Qed.

Lemma if_nil {A} (b : bool) (x : A) : (if b then [] else [x]) = [] -> b = true.
Proof. by destruct b. Qed.

Lemma verify_inv errs : verify g = Some errs -> errs = [] ->
  check_unique_ids g = [] ∧ check_starts (indices_where g is_start_node) = [] ∧
  check_ends (indices_where g is_end_node) = [] ∧ check_cycles g = [] ∧
  check_reachable g (indices_where g is_start_node) = [] ∧ check_xor_defaults g = [] ∧
  check_boundary_timers g = [] ∧ check_boundary_errors g = [].
Proof.
  unfold verify. intros (nesting & _ & [= <-])%bind_Some H.
  repeat (apply app_nil in H as [? H]). done.
Qed.

Lemma timer_hosts host :
  default [] (host_boundary_count g !! host) = collected timer_key host (ig_nodes g).
Proof.
  rewrite <- fold_entry_push_empty. unfold host_boundary_count.
  by erewrite fold_same; [|intros m []].
Qed.
Lemma catch_all_hosts host :
  default [] (host_catch_all_count g !! host) = collected catch_all_key host (ig_nodes g).
Proof.
  rewrite <- fold_entry_push_empty. unfold host_catch_all_count.
  erewrite fold_same; [done|]. intros m []; try done. by destruct error_code.
Qed.
Lemma code_hosts key :
  default [] (host_specific_code_ids g !! key) = collected code_key key (ig_nodes g).
Proof.
  rewrite <- fold_entry_push_empty. unfold host_specific_code_ids.
  erewrite fold_same; [done|]. intros m []; try done. by destruct error_code.
Qed.

Lemma boundary_timer_nil i n : check_boundary_timer g i n = [] ->
  match n with
  | NBoundaryTimer id host spec interrupting budget =>
      existsb (hosts_timer host) (ig_nodes g) = true ∧
      (is_cycle spec = true -> interrupting = false) ∧ pg_edges_out g i ≠ []
  | _ => True
  end.
Proof.
  destruct n; try done. cbn. intros [H1 [H2 H3]%app_nil]%app_nil. split; [by eapply if_nil|]. split.
  - destruct spec, interrupting; done.
  - case_decide as Hd; [done|]. by destruct (pg_edges_out g i).
Qed.

Lemma verify_sound : graph_wf g -> verify g = Some [] -> admitted.
Proof.
  intros Hwf (Hids & Hst & Hen & Hcy & Hre & Hxor & Hti & Her)%verify_inv; [|done].
  apply app_nil in Hids as [Hn He]. apply app_nil in Hti as [Hti Hone]. apply app_nil in Her as [Her Hcodes].
  apply app_nil in Hcodes as [Hcat Hcode].
  destruct (indices_where g is_start_node) as [|s [|? ?]] eqn:Es; [done| |done].
  assert (Hfs : find_start g = Some s) by by rewrite find_start_where, Es.
  assert (Hs : s < node_count g) by by apply find_start_node in Hfs.
  unfold check_reachable in Hre. unfold check_xor_defaults in Hxor.
  rewrite for_nodes_nil in Hre, Hxor, Hti, Her.
  split.
  - apply duplicate_errors_nil in Hn. by rewrite node_ids_indices in Hn.
  - by apply duplicate_errors_nil in He.
  - exists s. split; [done|]. intros i id Hi.
    assert (Hin : i ∈ [s]) by (rewrite <- Es; apply elem_of_indices_where; by eexists).
    by apply list_elem_of_singleton in Hin.
  - destruct (indices_where g is_end_node) as [|e l] eqn:Ee; [done|].
    assert (Hin : e ∈ indices_where g is_end_node) by (rewrite Ee; set_solver).
    apply elem_of_indices_where in Hin as ([] & Hn' & ?); try done. eauto.
  - apply not_cyclic_acyclic; [done|]. unfold check_cycles in Hcy. by destruct (pg_is_cyclic_directed g).
  - intros i n Hi Hd. specialize (Hre i n Hi). cbn in Hre. rewrite Hd in Hre. case_decide as Hr; [|done].
    destruct (reachable_set_sound s i Hwf Hs Hr) as (r & [->|Hb] & Hrtc); [exists s|exists r]; eauto.
  - intros i id name Hi Hlen. specialize (Hxor i _ Hi). cbv beta iota zeta in Hxor.
    rewrite <- (Permutation_length (pg_edges_out_perm g i)) in Hlen.
    destruct (Nat.ltb_spec 1 (length (pg_edges_out g i))); [|lia].
    rewrite xor_conditions in Hxor. case_decide as Hd; [|done]. rewrite <- Hd.
    apply Permutation_length. by rewrite pg_edges_out_perm.
  - intros i id host spec interrupting budget Hi. specialize (Hti i _ Hi).
    apply boundary_timer_nil in Hti as (H1 & H2 & H3). split; [by apply existsb_host|]. split; [done|].
    destruct (pg_edges_out g i) as [|[m w] l] eqn:E; [done|]. exists m, w.
    apply elem_of_edges_out. rewrite E. set_solver.
  - intros host. rewrite <- timer_hosts. eapply single_entries; [|exact Hone].
    intros k ids Hl. cbv beta iota. by destruct (Nat.ltb_spec 1 (length ids)); [|lia].
  - intros i id host code budget Hi. specialize (Her i _ Hi). cbv beta iota zeta delta [check_boundary_error] in Her.
    apply app_nil in Her as [H1 H2]. split; [by apply existsb_host, (if_nil _ _ H1)|].
    rewrite <- (Permutation_length (pg_edges_out_perm g i)). by case_decide.
  - intros host. rewrite <- catch_all_hosts. eapply single_entries; [|exact Hcat].
    intros k ids Hl. cbv beta iota. by destruct (Nat.ltb_spec 1 (length ids)); [|lia].
  - intros host code. rewrite <- code_hosts. eapply single_entries; [|exact Hcode].
    intros [k c] ids Hl. cbv beta iota. by destruct (Nat.ltb_spec 1 (length ids)); [|lia].
Qed.
End admitted.

(** ** The nesting walk ends *)

Section nesting.
Context {PG : PetGraph} {HL : PetGraphLaws PG}.
Variable g : IRGraph.
Hypothesis Hwf : graph_wf g.

Definition walked (st : NestState) : Prop := ∀ x, x ∈ ns_visited st -> x < node_count g.
Definition unwalked (st : NestState) : nat := node_count g - size (ns_visited st).
(** What a call leaves: more nodes visited, all of them nodes of the graph. *)
Definition walks (st st' : NestState) : Prop := walked st' ∧ ns_visited st ⊆ ns_visited st'.

Lemma walks_trans st1 st2 st3 : walks st1 st2 -> walks st2 st3 -> walks st1 st3.
Proof. intros [_ ?] [? ?]. split; [done|]. by etrans. Qed.

Lemma unwalked_mono st st' : walks st st' -> unwalked st' <= unwalked st.
Proof. intros [_ H%subseteq_size]. unfold unwalked. lia. Qed.

Lemma pop_visited curr stack st :
  ns_visited (check_gateway_nesting_pop g curr stack st).2 = ns_visited st.
Proof.
  unfold check_gateway_nesting_pop. destruct (converging_kind _); [|done].
  destruct (vec_pop stack) as [[rest [[k id] b]]|]; [|done]. by case_decide.
Qed.

(** A loop of calls, with its accumulator's walk state given by [get]. *)
Lemma fold_walk {A B} (get : B -> NestState) (f : B -> A -> option B) (k : nat) (l : list A) b :
  (∀ b x, x ∈ l -> walked (get b) -> unwalked (get b) < k ->
     ∃ b', f b x = Some b' ∧ walks (get b) (get b')) ->
  walked (get b) -> unwalked (get b) < k ->
  ∃ b', fold_opt f b l = Some b' ∧ walks (get b) (get b').
Proof.
  revert b; induction l as [|x l IH]; intros b Hf Hw Hk; cbn; [by exists b|].
  destruct (Hf b x) as (b1 & -> & H1); [set_solver|done|done|].
  destruct (IH b1) as (b2 & -> & H2); [set_solver|apply H1| |].
  { pose proof (unwalked_mono _ _ H1). lia. }
  exists b2. split; [done|]. by eapply walks_trans.
Qed.

Lemma walked_full st x : walked st -> x < node_count g -> x ∉ ns_visited st -> 0 < unwalked st.
Proof.
  intros Hw Hx Hn. unfold unwalked.
  assert (Hsub : {[x]} ∪ ns_visited st ⊆ list_to_set (node_indices g)).
  { intros y [->%elem_of_singleton|Hy]%elem_of_union; apply elem_of_list_to_set, elem_of_node_indices; auto. }
  apply subseteq_size in Hsub. rewrite size_list_to_set in Hsub by apply NoDup_node_indices.
  rewrite size_union, size_singleton in Hsub by set_solver.
  unfold node_indices in Hsub. rewrite length_seq in Hsub. lia.
Qed.

Lemma nesting_total fuel curr stack st :
  curr < node_count g -> walked st -> unwalked st < fuel ->
  ∃ stack' st', check_gateway_and_nesting fuel g curr stack st = Some (stack', st') ∧ walks st st'.
Proof.
  revert curr stack st. induction fuel as [|fuel IH]; intros curr stack st Hc Hw Hf; [lia|].
  cbn [check_gateway_and_nesting]. case_decide as Hv.
  { destruct (check_gateway_nesting_pop g curr stack st) as [stack' st'] eqn:E.
    exists stack', st'. split; [done|]. pose proof (pop_visited curr stack st) as Hp. rewrite E in Hp.
    cbn in Hp. unfold walks, walked. by rewrite Hp. }
  set (st1 := nest_visit curr st).
  assert (H1 : walks st st1).
  { split; [|cbn; set_solver]. intros x. cbn. rewrite elem_of_union, elem_of_singleton.
    intros [->|?]; [done|by apply Hw]. }
  assert (Hu : unwalked st1 < fuel).
  { unfold unwalked, st1 in *. cbn. pose proof (walked_full st curr Hw Hc Hv) as Hpos.
    unfold unwalked in Hpos. rewrite size_union, size_singleton by set_solver. lia. }
  destruct (check_gateway_nesting_pop g curr stack st1) as [stack2 st2] eqn:E.
  assert (Hv2 : ns_visited st2 = ns_visited st1).
  { pose proof (pop_visited curr stack st1) as Hp. by rewrite E in Hp. }
  assert (H2 : walks st st2) by (destruct H1; split; [unfold walked|]; by rewrite Hv2).
  assert (Hu2 : unwalked st2 < fuel) by (unfold unwalked in *; by rewrite Hv2).
  assert (Hnb : ∀ n, n ∈ pg_neighbors g curr -> n < node_count g).
  { intros n Hn%elem_of_neighbors. by apply (edge_nodes g curr n). }
  destruct (diverging_kind (node_at g curr)) as [kind|].
  - set (st3 := nest_diverging _ _ st2).
    destruct (fold_walk id (λ st bn, snd <$> check_gateway_and_nesting fuel g (bn.2 : nat)
        (stack2 ++ [(kind, node_id_at g curr, as_u32 bn.1)]) st) fuel
        (enumerate (pg_neighbors g curr)) st3) as (st4 & -> & H4); [|apply H2|exact Hu2|].
    { intros b [i n] Hn Hw' Hu'. cbn.
      destruct (IH n (stack2 ++ [(kind, node_id_at g curr, as_u32 i)]) b) as (? & b' & -> & ?); [|done..|by eexists].
      apply Hnb. unfold enumerate in Hn. apply elem_of_lookup_imap in Hn as (j & x & [= -> ->] & Hj).
      by eapply list_elem_of_lookup_2. }
    cbn. exists stack2, st4. split; [done|]. by eapply walks_trans.
  - destruct (_ <=? _)%nat.
    + destruct (fold_walk snd (λ '(stack, st) n, check_gateway_and_nesting fuel g n stack st) fuel
        (pg_neighbors g curr) (stack2, st2)) as ([stack4 st4] & -> & H4); [|apply H2|exact Hu2|].
      { intros [stk b] n Hn Hw' Hu'. cbn in *.
        destruct (IH n stk b) as (stk' & b' & -> & ?); [by apply Hnb|done..|by eexists (_, _)]. }
      exists stack4, st4. split; [done|]. by eapply walks_trans.
    + destruct (fold_walk id (λ st n, snd <$> check_gateway_and_nesting fuel g n stack2 st) fuel
        (pg_neighbors g curr) st2) as (st4 & -> & H4); [|apply H2|exact Hu2|].
      { intros b n Hn Hw' Hu'. cbn.
        destruct (IH n stack2 b) as (? & b' & -> & ?); [by apply Hnb|done..|by eexists]. }
      cbn. exists stack2, st4. split; [done|]. by eapply walks_trans.
Qed.

Lemma verify_returns : is_Some (verify g).
Proof.
  unfold verify, check_nesting. destruct (find_start g) as [s|] eqn:E; [|by eexists].
  destruct (nesting_total (S (node_count g)) s [] (mkNest ∅ (mkTracker ∅ ∅) [])) as (stk & st & -> & _).
  - by apply find_start_node.
  - by intros x.
  - unfold unwalked. cbn. lia.
  - by eexists.
Qed.
End nesting.

(** ** Bytecode targets *)

Lemma check_target_nil p addr target n : check_target p addr target n = [] ↔ (target < n)%N.
Proof. unfold check_target. destruct (N.leb_spec n target); split; (done || lia). Qed.

Lemma check_forward_jump_nil p addr target : check_forward_jump p addr target = [] ↔ (addr <= target)%N.
Proof. unfold check_forward_jump. destruct (N.ltb_spec target addr); split; (done || lia). Qed.

(** The instruction at [addr] names addresses of a program of [n] instructions,
    and jumps forward unless it is a counted loop. *)
Definition targets_ok (n addr : N) (i : Instr) : Prop :=
  match i with
  | IJump target | IBrIf target | IBrIfNot target => (addr <= target < n)%N
  | IBrCounterLt _ _ target => (target < n)%N
  | IV2Fork targets _ => Forall (λ target, target < n)%N targets
  | _ => True
  end.

Lemma verify_instr_nil p n addr i : verify_instr p n addr i = [] ↔ targets_ok n addr i.
Proof.
  destruct i; cbn; try done; rewrite ?app_nil, ?check_target_nil, ?check_forward_jump_nil; try lia.
  rewrite bind_nil, Forall_forall. by setoid_rewrite check_target_nil.
Qed.

Lemma elem_of_enumerate {A} (l : list A) k x :
  (k, x) ∈ enumerate l ↔ l !! N.to_nat k = Some x.
Proof.
  unfold enumerate. rewrite elem_of_lookup_imap. split.
  - intros (i & y & [= -> ->] & H). by rewrite Nat2N.id.
  - intros H. exists (N.to_nat k), x. by rewrite N2Nat.id.
Qed.

Lemma verify_bytecode_nil p : (len (cp_program p) < u32_size)%N ->
  verify_bytecode p = [] ↔
  ∀ addr i, cp_program p !! N.to_nat addr = Some i -> targets_ok (len (cp_program p)) addr i.
Proof.
  intros Hlen. unfold verify_bytecode. rewrite as_u32_id by done. rewrite bind_nil. split.
  - intros H addr i Hi. specialize (H (addr, i)). rewrite elem_of_enumerate in H. cbn in H.
    specialize (H Hi). rewrite as_u32_id in H; [by apply verify_instr_nil in H|].
    apply lookup_lt_Some in Hi. unfold len in *. lia.
  - intros H [addr i] Hi%elem_of_enumerate. cbn.
    rewrite as_u32_id; [by apply verify_instr_nil, H|].
    apply lookup_lt_Some in Hi. unfold len in *. lia.
Qed.

(** ** Exclusive gateways in the kernel *)

(** The value of a condition on booleans, given the flag's truth value. *)
Definition condition_value (c : ConditionExpr) (truthy : bool) : bool :=
  match ce_op c, ce_literal c with
  | CEq, CLBool b => Bool.eqb truthy b
  | CNeq, CLBool b => negb (Bool.eqb truthy b)
  | _, _ => truthy
  end.

(** The conditions the gateway's branch instructions decide. *)
Definition boolean_condition (c : ConditionExpr) : Prop :=
  (ce_op c = CEq ∨ ce_op c = CNeq) ∧ ∃ b, ce_literal c = CLBool b.

(** The edge a gateway takes: the first one whose condition holds, else the
    last unconditional one. *)
Fixpoint xor_choice (holds : ConditionExpr -> bool) (edges : list (nat * IREdge)) (d : option nat)
  : option nat :=
  match edges with
  | [] => d
  | (m, e) :: edges' =>
      match ie_condition e with
      | Some c => if holds c then Some m else xor_choice holds edges' d
      | None => xor_choice holds edges' (Some m)
      end
  end.

(** The branch instructions under a flag table, and the default edge. *)
Definition xor_listing (node_addr : gmap nat N) (fi : gmap string N) (edges : list (nat * IREdge))
  : list Instr :=
  edges ≫= λ e, match ie_condition e.2 with
    | Some c => [ILoadFlag (default 0%N (fi !! ce_flag_name c));
                 xor_branch c (default 0%N (node_addr !! e.1))]
    | None => []
    end.
Fixpoint xor_default (edges : list (nat * IREdge)) (d : option nat) : option nat :=
  match edges with
  | [] => d
  | (m, e) :: edges' => xor_default edges' (match ie_condition e with Some _ => d | None => Some m end)
  end.

Section xor_code.
Context {PG : PetGraph}.
Variables (g : IRGraph) (node_addr : gmap nat N) (idx : nat).

Lemma lm_intern_flag_inv name s k s' : lm_intern_flag name s = Ok (k, s') ->
  ls_flag_intern s' !! name = Some k ∧ ls_instructions s' = ls_instructions s.
Proof.
  unfold lm_intern_flag. pose proof (intern_flag_spec (ls_flag_intern s) name) as [H _].
  destruct (intern_flag _ _) as [key m]. by intros [= <- <-].
Qed.

(** What the loop over the edges emits, under any table that extends the one
    it ends with. *)
Lemma xor_edges_code edges (d : option nat) s o s' fi :
  (∀ m, d = Some m -> is_Some (node_addr !! m)) ->
  lower_xor_edges g node_addr idx edges (d ≫= λ m, node_addr !! m) s = Ok (o, s') ->
  ls_flag_intern s' ⊆ fi ->
  ls_instructions s' = ls_instructions s ++ xor_listing node_addr fi edges ∧
  o = (xor_default edges d ≫= λ m, node_addr !! m) ∧
  (∀ e, e ∈ edges -> is_Some (node_addr !! e.1)) ∧
  (∀ m c, m ∈ edges -> ie_condition m.2 = Some c -> is_Some (fi !! ce_flag_name c)).
Proof.
  revert d s. induction edges as [|[m e] edges IH]; intros d s Hd H Hfi; cbn [lower_xor_edges] in H.
  { injection H as <- <-. cbn. rewrite app_nil_r. split_and!; [done|done|set_solver|set_solver]. }
  unfold mbind at 1, LM_bind at 1, lm_ok_or, lm_lift in H.
  destruct (node_addr !! m) as [a|] eqn:Ea; cbn [ok_or] in H; [|done].
  destruct (ie_condition e) as [c|] eqn:Ec.
  - unfold mbind at 1, LM_bind at 1 in H.
    destruct (lm_intern_flag (ce_flag_name c) s) as [[k s1]|] eqn:Ek; [|done].
    apply lm_intern_flag_inv in Ek as [Hk Hs1]. cbn in H.
    pose proof (xor_edges_gr g node_addr idx edges _ _ _ _ H) as [Hsub _]. cbn in Hsub.
    assert (Hkey : fi !! ce_flag_name c = Some k).
    { eapply lookup_weaken; [|exact Hfi]. by eapply lookup_weaken. }
    destruct (IH d _ Hd H Hfi) as (Hi & Ho & Hall & Hflags). split_and!.
    + rewrite Hi. cbn. rewrite Hs1, Ec, Hkey, Ea, <- !app_assoc. done.
    + cbn. by rewrite Ec.
    + intros [m' e'] [[= -> ->]|Hin]%elem_of_cons; [cbn; by rewrite Ea|by apply (Hall (m', e'))].
    + intros [m' e'] c' [[= -> ->]|Hin]%elem_of_cons Hc'; [|by eapply Hflags].
      cbn in Hc'. rewrite Ec in Hc'. injection Hc' as <-. by rewrite Hkey.
  - change (Some a) with (Some m ≫= λ m, node_addr !! m) in H || idtac.
    assert (Hd' : Some a = (Some m ≫= λ m, node_addr !! m)) by by cbn. rewrite Hd' in H.
    destruct (IH (Some m) s) as (Hi & Ho & Hall & Hflags); [by intros ? [= <-]; rewrite Ea|done|done|].
    split_and!.
    + rewrite Hi. cbn. by rewrite Ec.
    + cbn. by rewrite Ec.
    + intros [m' e'] [[= -> ->]|Hin]%elem_of_cons; [cbn; by rewrite Ea|by apply (Hall (m', e'))].
    + intros [m' e'] c' [[= -> ->]|Hin]%elem_of_cons Hc'; [|by eapply Hflags]. cbn in Hc'. congruence.
Qed.
End xor_code.

Section xor_run.
Context {P : Platform}.
Variables (w : ExecutableWorkflow) (sn : Snapshot) (ctx : DeterministicContext).

(** Instructions that neither park the fiber nor end the tick. *)
Definition tick_steps : TickState -> TickState -> Prop :=
  rtc (λ a b, tick_step w sn ctx a = Ok (Continue b)).

Lemma set_pc_set_pc a b f : set_pc a (set_pc b f) = set_pc a f.
Proof. by destruct f. Qed.

Lemma xor_branch_step c target pc v ts :
  wf_instructions w !! N.to_nat pc = Some (xor_branch c target) -> (pc < u32_max)%N ->
  boolean_condition c ->
  tick_step w sn ctx (on_fiber (λ f, set_pc pc (push_value v f)) ts) =
  Ok (Continue (on_fiber (set_pc (if condition_value c (is_truthy v) then target else (pc + 1)%N)) ts)).
Proof.
  intros Hi Hpc [Hop [b Hb]]. unfold tick_step. cbn. unfold addr_index. rewrite Hi. cbn [ok_or mbind Result_bind].
  assert (Hnext : sat_add u32_max pc 1 = (pc + 1)%N) by (apply sat_add_exact; lia).
  unfold xor_branch, condition_value. rewrite Hb.
  rewrite <- Hnext. destruct Hop as [-> | ->], b; cbn [exec_instr]; unfold exec_branch, pop_value; cbn;
    rewrite vec_pop_snoc; cbn; destruct (is_truthy v); by destruct ts as [[]].
Qed.

Lemma load_flag_step key pc ts :
  wf_instructions w !! N.to_nat pc = Some (ILoadFlag key) -> (pc < u32_max)%N ->
  tick_step w sn ctx (on_fiber (set_pc pc) ts) =
  Ok (Continue (on_fiber (λ f, set_pc (pc + 1)
    (push_value (default (VBool false) (flags (ts_instance ts) !! key)) f)) ts)).
Proof.
  intros Hi Hpc. unfold tick_step. cbn. unfold addr_index. rewrite Hi.
  assert (Hnext : sat_add u32_max pc 1 = (pc + 1)%N) by (apply sat_add_exact; lia).
  rewrite <- Hnext. by destruct ts as [[]].
Qed.

Variables (node_addr : gmap nat N) (fi : gmap string N).

(** The truth of a condition in an instance. *)
Definition holds_in (i : ProcessInstance) (c : ConditionExpr) : bool :=
  condition_value c (is_truthy (default (VBool false)
    (flags i !! default 0%N (fi !! ce_flag_name c)))).

(** Running the branch instructions: to the edge whose condition holds first,
    or past them. *)
Lemma xor_listing_run edges pc ts :
  (∀ e c, e ∈ edges -> ie_condition e.2 = Some c -> boolean_condition c) ->
  (∀ k i, xor_listing node_addr fi edges !! k = Some i -> wf_instructions w !! (N.to_nat pc + k) = Some i) ->
  (pc + len (xor_listing node_addr fi edges) <= u32_max)%N ->
  match find_map (λ e : nat * IREdge, c ← ie_condition e.2;
          if holds_in (ts_instance ts) c then Some (e.1 : nat) else None) edges with
  | Some m => tick_steps (on_fiber (set_pc pc) ts) (on_fiber (set_pc (default 0%N (node_addr !! m))) ts)
  | None => tick_steps (on_fiber (set_pc pc) ts)
              (on_fiber (set_pc (pc + len (xor_listing node_addr fi edges))%N) ts)
  end.
Proof.
  revert pc. induction edges as [|[m e] edges IH]; intros pc Hbool Hcode Hfit; cbn [find_map].
  { cbn. rewrite N.add_0_r. constructor. }
  assert (Hbool' : ∀ e c, e ∈ edges -> ie_condition e.2 = Some c -> boolean_condition c) by set_solver.
  unfold xor_listing in *. rewrite bind_cons in *. cbn [fst snd] in *.
  destruct (ie_condition e) as [c|] eqn:Ec; cbn [mbind option_bind]; [|by apply IH].
  rewrite len_app in *. change (len [_; _]) with 2%N in *.
  assert (Hload := Hcode 0 _ eq_refl). assert (Hbr := Hcode 1 _ eq_refl). rewrite Nat.add_0_r in Hload.
  assert (Hbr' : wf_instructions w !! N.to_nat (pc + 1) = Some (xor_branch c (default 0%N (node_addr !! m)))).
  { rewrite <- Hbr. f_equal. lia. }
  assert (Hc : boolean_condition c) by (apply (Hbool (m, e)); [set_solver|done]).
  assert (H2 : tick_steps (on_fiber (set_pc pc) ts)
      (on_fiber (set_pc (if holds_in (ts_instance ts) c then default 0%N (node_addr !! m)
                         else (pc + 1 + 1)%N)) ts)).
  { eapply rtc_l; [apply load_flag_step; [done|lia]|].
    eapply rtc_l; [apply xor_branch_step; [done|lia|done]|]. constructor. }
  destruct (holds_in (ts_instance ts) c); [done|].
  specialize (IH (pc + 1 + 1)%N Hbool').
  replace (pc + (2 + len (edges ≫= _)))%N with (pc + 1 + 1 + len (edges ≫= (λ e : nat * IREdge,
    match ie_condition e.2 with
    | Some c => [ILoadFlag (default 0%N (fi !! ce_flag_name c)); xor_branch c (default 0%N (node_addr !! e.1))]
    | None => [] end)))%N by lia.
  destruct (find_map _ edges) as [m'|]; (etrans; [exact H2|]); apply IH; try lia;
    intros k i Hk; (replace (N.to_nat (pc + 1 + 1) + k) with (N.to_nat pc + S (S k)) by lia); by apply Hcode.
Qed.
End xor_run.

Section room.
Context {PG : PetGraph} {HL : PetGraphLaws PG}.
Variables (now_ms : N) (g : IRGraph).

(** The room of a node's block. *)
Lemma block_room order p pd n base :
  plan_ok g order p pd -> (slots g (lp_tables p) order < u32_size)%N ->
  n < node_count g -> lp_node_addr p !! n = Some base ->
  (base + instr_count_for g (lp_tables p) n <= slots g (lp_tables p) order)%N.
Proof.
  intros Hok Htot Hn Hb. assert (Hin : n ∈ order) by by rewrite (po_perm _ _ _ _ Hok), elem_of_node_indices.
  apply list_elem_of_split in Hin as (pre & post & Heq).
  assert (Hnb := node_base g order p (po_perm _ _ _ _ Hok) (po_addr _ _ _ _ Hok) Htot n pre post Heq).
  rewrite Hb in Hnb. injection Hnb as ->. rewrite Heq, slots_app. unfold slots at 3. cbn. lia.
Qed.

Lemma node_of_addr order p pd n base :
  plan_ok g order p pd -> lp_node_addr p !! n = Some base -> n < node_count g.
Proof.
  intros Hok. rewrite (po_addr _ _ _ _ Hok). intros H.
  rewrite <- elem_of_node_indices, <- (po_perm _ _ _ _ Hok).
  revert H. unfold assign_addresses. set (f := λ (acc : gmap nat N * N) node_idx, _).
  assert (Hgen : ∀ l acc, (foldl f acc l).1 !! n = Some base -> acc.1 !! n = Some base ∨ n ∈ l).
  { intros l. induction l as [|x l IH]; intros acc H; [by left|].
    cbn in H. apply IH in H as [H|H]; [|set_solver]. cbn in H.
    apply lookup_insert_Some in H as [[-> _]|[_ H]]; [set_solver|by left]. }
  intros H%Hgen. destruct H as [H|H]; [cbn in H; by rewrite lookup_empty in H|done].
Qed.

(** Where the forks are. *)
Lemma fork_at order p pd s n base k :
  plan_ok g order p pd -> (slots g (lp_tables p) order < u32_size)%N -> emitted now_ms g p order s ->
  lp_node_addr p !! n = Some base -> fork_position g (lp_tables p) n = Some k ->
  (base + k < u32_size)%N ∧
  ∃ ts, ls_instructions s !! N.to_nat (base + k) = Some (IV2Fork ts (base + k)).
Proof.
  intros Hok Htot He Hb Hk. assert (Hn := node_of_addr _ _ _ _ _ Hok Hb).
  assert (Hin : n ∈ order) by by rewrite (po_perm _ _ _ _ Hok), elem_of_node_indices.
  destruct (em_blocks _ _ _ _ _ He n Hin) as (base' & code & Hb' & Hblk & [[_ Hlen] Hfork] & _).
  rewrite Hb in Hb'. injection Hb' as <-. destruct (Hfork k Hk) as [ts Hts].
  pose proof (block_room _ _ _ _ _ Hok Htot Hn Hb) as Hroom.
  pose proof (lookup_lt_Some _ _ _ Hts) as Hlt. unfold len in Hlen. split; [lia|].
  exists ts. rewrite N2Nat.inj_add. by eapply block_lookup.
Qed.
End room.

(** ** Joins, targets, slots *)

(** A converging gateway, and the diverging one of the same kind. *)
Definition closes (n : IRNode) : bool :=
  match n with NGatewayAnd _ _ Converging | NGatewayInclusive _ _ Converging => true | _ => false end.
Definition opens (join n : IRNode) : bool :=
  match join, n with
  | NGatewayAnd _ _ _, NGatewayAnd _ _ Diverging => true
  | NGatewayInclusive _ _ _, NGatewayInclusive _ _ Diverging => true
  | _, _ => false
  end.

Section lowered.
Context {PG : PetGraph} {HL : PetGraphLaws PG} {P : Platform}.
Variables (now_ms : N) (to_json : list Instr -> Result string (list Byte.byte)) (g : IRGraph).
Variables (budget : option N) (prog : CompiledProgram).
Hypothesis Hwf : graph_wf g.
Hypothesis Hac : acyclic g.
Hypothesis Hfits : program_fits g.
Hypothesis Hlow : lower_with_default now_ms to_json g budget = Ok prog.

Lemma lowered_joins a q : cp_program prog !! a = Some (IV2Join q) ->
  ∃ ts, cp_program prog !! N.to_nat q = Some (IV2Fork ts q).
Proof.
  destruct (lower_inv now_ms g to_json budget prog Hwf Hac Hfits Hlow)
    as (order & p & fi & pd & s & Hp & Hok & He & _ & -> & _).
  assert (Htot := proj2 Hfits _ _ _ Hp).
  intros Hq%list_elem_of_lookup_2. apply (em_origin _ _ _ _ _ He) in Hq as (n & base & Hb & [[_ Hj]|?]); [|done].
  assert (Hplain : ∀ d b k, lp_node_addr p !! d = Some b -> fork_position g (lp_tables p) d = Some k ->
    q = addr_add b k -> ∃ ts, ls_instructions s !! N.to_nat q = Some (IV2Fork ts q)).
  { intros d b k Hd Hk ->. destruct (fork_at now_ms g _ _ _ _ _ _ _ Hok Htot He Hd Hk) as [Hlt Hts].
    by rewrite addr_add_id by done. }
  destruct (Hj q eq_refl) as [Hf|[Hf|[-> Hmi]]].
  - destruct (pk_and _ _ _ _ _ (po_pairing _ _ _ _ Hok) _ _ Hf) as (d & id & name & _ & Hd & Ha).
    apply (Hplain d q 0%N Ha); [unfold fork_position; by rewrite Hd|].
    destruct (fork_at now_ms g _ _ _ _ _ _ 0%N Hok Htot He Ha) as [Hlt _]; [unfold fork_position; by rewrite Hd|].
    rewrite addr_add_id by done. lia.
  - destruct (pk_inclusive _ _ _ _ _ (po_pairing _ _ _ _ Hok) _ _ Hf) as (d & id & name & b & _ & Hd & Ha & ->).
    assert (Hbr := inclusive_branches_lookup g order d id name).
    assert (Hn := node_of_addr g _ _ _ _ _ Hok Ha).
    rewrite <- elem_of_node_indices, <- (po_perm _ _ _ _ Hok) in Hn. specialize (Hbr Hn Hd).
    eapply Hplain; [exact Ha| |reflexivity]. unfold fork_position.
    rewrite Hd, (po_tables _ _ _ _ Hok). cbn. by rewrite Hbr.
  - destruct (node_at g n) as [[]|] eqn:En; try done.
    assert (Hk : fork_position g (lp_tables p) n = Some 1%N) by (unfold fork_position; by rewrite En).
    destruct (fork_at now_ms g _ _ _ _ _ _ _ Hok Htot He Hb Hk) as [Hlt _].
    eapply Hplain; [exact Hb|exact Hk|]. by rewrite addr_add_id.
Qed.

(** Every node has a slot: its code stands in it, and the slots are disjoint. *)
Lemma lowered_slots order p fi : plan_lowering g = Ok (order, p, fi) ->
  (∀ n, n < node_count g -> ∃ base code, lp_node_addr p !! n = Some base ∧
     block_at (cp_program prog) base code ∧
     (len code <= instr_count_for g (lp_tables p) n)%N ∧
     (base + instr_count_for g (lp_tables p) n < u32_size)%N) ∧
  (∀ n m a b, n ≠ m -> lp_node_addr p !! n = Some a -> lp_node_addr p !! m = Some b ->
     (a + instr_count_for g (lp_tables p) n <= b)%N ∨ (b + instr_count_for g (lp_tables p) m <= a)%N) ∧
  (∀ s, find_start g = Some s -> lp_node_addr p !! s = Some 0%N).
Proof.
  intros Hp.
  destruct (lower_inv now_ms g to_json budget prog Hwf Hac Hfits Hlow)
    as (order' & p' & fi' & pd & s & Hp' & Hok & He & _ & -> & _).
  rewrite Hp in Hp'. injection Hp' as <- <- <-. assert (Htot := proj2 Hfits _ _ _ Hp).
  assert (Hperm := po_perm _ _ _ _ Hok).
  assert (Hbase := node_base g order p Hperm (po_addr _ _ _ _ Hok) Htot). split_and!.
  - intros n Hn. assert (Hin : n ∈ order) by by rewrite Hperm, elem_of_node_indices.
    destruct (em_blocks _ _ _ _ _ He n Hin) as (base & code & Hb & Hblk & [[_ Hlen] _] & _).
    exists base, code. split_and!; [done..|].
    pose proof (block_room _ _ _ _ _ _ Hok Htot Hn Hb). lia.
  - intros n m a b Hne Ha Hb. assert (Hn := node_of_addr _ _ _ _ _ _ Hok Ha).
    assert (Hm := node_of_addr _ _ _ _ _ _ Hok Hb).
    rewrite <- elem_of_node_indices, <- Hperm in Hn, Hm.
    apply list_elem_of_split in Hn as (pre & post & Heq).
    assert (Ha' := Hbase n pre post Heq). rewrite Ha in Ha'. injection Ha' as ->.
    rewrite Heq in Hm. apply elem_of_app in Hm as [Hm|[Hm|Hm]%elem_of_cons]; [|done|].
    + right. apply list_elem_of_split in Hm as (l1 & l2 & ->). rewrite <- app_assoc in Heq.
      assert (Hb' := Hbase m l1 (l2 ++ n :: post) Heq). rewrite Hb in Hb'. injection Hb' as ->.
      rewrite slots_app. unfold slots at 3. cbn. lia.
    + left. apply list_elem_of_split in Hm as (l1 & l2 & ->).
      assert (Hb' := Hbase m (pre ++ n :: l1) l2). rewrite <- app_assoc in Hb'. specialize (Hb' Heq).
      rewrite Hb in Hb'. injection Hb' as ->. rewrite slots_app. unfold slots at 3. cbn. lia.
  - intros st Hst. rewrite <- (po_head _ _ _ _ Hok) in Hst. destruct order as [|x l]; [done|].
    injection Hst as ->. by apply (Hbase st [] l).
Qed.

(** Every address an instruction names comes from the sequence flow. *)
Lemma lowered_targets order p fi i a : plan_lowering g = Ok (order, p, fi) ->
  i ∈ cp_program prog -> a ∈ instr_targets i ->
  ∃ n base, lp_node_addr p !! n = Some base ∧ (flow_target g p n base a ∨ a = base).
Proof.
  intros Hp.
  destruct (lower_inv now_ms g to_json budget prog Hwf Hac Hfits Hlow)
    as (order' & p' & fi' & pd & s & Hp' & Hok & He & _ & -> & _).
  rewrite Hp in Hp'. injection Hp' as <- <- <-.
  intros (n & base & Hb & [[Ht _]| ->])%(em_origin _ _ _ _ _ He) Ha; exists n, base; (split; [done|]).
  - left. by apply Ht.
  - right. cbn in Ha. by apply list_elem_of_singleton in Ha.
Qed.

(** A converging gateway joins the tokens of the diverging gateway of the same
    kind that it immediately post-dominates. *)
Lemma lowered_join_node order p fi j node : plan_lowering g = Ok (order, p, fi) ->
  node_at g j = Some node -> closes node = true ->
  ∃ b q d dnode base k, lp_node_addr p !! j = Some b ∧
    cp_program prog !! N.to_nat b = Some (IV2Join q) ∧
    node_at g d = Some dnode ∧ opens node dnode = true ∧ immediate_post_dominator g d j ∧
    lp_node_addr p !! d = Some base ∧ fork_position g (lp_tables p) d = Some k ∧ q = addr_add base k.
Proof.
  intros Hp Hj Hcl.
  destruct (lower_inv now_ms g to_json budget prog Hwf Hac Hfits Hlow)
    as (order' & p' & fi' & pd & s & Hp' & Hok & He & _ & -> & _).
  rewrite Hp in Hp'. injection Hp' as <- <- <-. assert (Htot := proj2 Hfits _ _ _ Hp).
  assert (Hin : j ∈ order).
  { rewrite (po_perm _ _ _ _ Hok), elem_of_node_indices. unfold node_count.
    by eapply lookup_lt_Some. }
  destruct (em_blocks _ _ _ _ _ He j Hin) as (b & code & Hb & Hblk & _ & (node' & s1 & s2 & Hn & Hem & Hs2 & _)).
  rewrite Hj in Hn. injection Hn as <-.
  assert (Hjoin : ∀ msg o, (lm_ok_or msg o ≫= λ q, lower_join g (lp_node_addr p) j q) s1 = Ok (tt, s2) ->
    ∃ q, o = Some q ∧ ls_instructions s !! N.to_nat b = Some (IV2Join q)).
  { intros msg o. unfold mbind at 1, LM_bind at 1, lm_ok_or, lm_lift. destruct o as [q|]; cbn [ok_or]; [|done].
    intros H. exists q. split; [done|]. rewrite <- (Nat.add_0_r (N.to_nat b)). eapply block_lookup; [exact Hblk|].
    unfold lower_join, mbind, LM_bind, lm_ok_or, lm_lift in H. cbn in H.
    destruct (first_successor_addr g (lp_node_addr p) j) as [a|]; cbn in H; [|done].
    injection H as <-. cbn in Hs2. rewrite <- app_assoc in Hs2. by apply app_inv_head in Hs2 as <-. }
  assert (Hdom : ∀ d, pd !! d = Some j -> immediate_post_dominator g d j).
  { intros d Hd. by apply (po_doms _ _ _ _ Hok) in Hd as [_ Hd]. }
  destruct node; try done; destruct direction; try done; cbn [emit_node] in Hem;
    destruct (Hjoin _ _ Hem) as (q & Hq & Hi).
  - destruct (pk_and _ _ _ _ _ (po_pairing _ _ _ _ Hok) _ _ Hq) as (d & id' & name' & Hd & Hdn & Ha).
    assert (Hk : fork_position g (lp_tables p) d = Some 0%N) by (unfold fork_position; by rewrite Hdn).
    destruct (fork_at now_ms g _ _ _ _ _ _ _ Hok Htot He Ha Hk) as [Hlt _].
    exists b, q, d, (NGatewayAnd id' name' Diverging), q, 0%N. split_and!; eauto.
    rewrite addr_add_id by done. lia.
  - destruct (pk_inclusive _ _ _ _ _ (po_pairing _ _ _ _ Hok) _ _ Hq)
      as (d & id' & name' & base & Hd & Hdn & Ha & ->).
    assert (Hn := node_of_addr g _ _ _ _ _ Hok Ha).
    rewrite <- elem_of_node_indices, <- (po_perm _ _ _ _ Hok) in Hn.
    assert (Hbr := inclusive_branches_lookup g order d id' name' Hn Hdn).
    eexists b, _, d, (NGatewayInclusive id' name' Diverging), base, _.
    split_and!; [done..|by apply Hdom|done| |reflexivity].
    unfold fork_position. rewrite Hdn, (po_tables _ _ _ _ Hok). cbn. by rewrite Hbr.
Qed.

(** The flag symbol table is the inverse of the write set. *)
Lemma lowered_flags name key : (N.of_nat (size (cp_write_set prog)) <= u32_size)%N ->
  cp_flag_symbol_table prog !! key = Some name ↔ cp_write_set prog !! name = Some {[key]}.
Proof.
  destruct (lower_inv now_ms g to_json budget prog Hwf Hac Hfits Hlow)
    as (order' & p' & fi' & pd & s & Hp' & Hok & He & Hgr & _ & Hw & Hf).
  rewrite Hw, Hf, map_size_fmap. intros Hsz. destruct Hgr as [_ Hgr].
  assert (Hio := Hgr intern_empty Hsz). rewrite lookup_fmap, fmap_Some.
  assert (Hnd : NoDup ((λ nk : string * N, (nk.2, nk.1)) <$> map_to_list (ls_flag_intern s)).*1).
  { rewrite <- list_fmap_compose. apply NoDup_fmap_2_strong; [|apply NoDup_map_to_list].
    intros [n1 k1] [n2 k2] H1%elem_of_map_to_list H2%elem_of_map_to_list Heq. cbn in Heq. subst.
    by rewrite (io_inj _ Hio _ _ _ H1 H2). }
  rewrite <- elem_of_list_to_map by done. rewrite list_elem_of_fmap. split.
  - intros ([n k] & [= -> ->] & H%elem_of_map_to_list). by exists k.
  - intros (k & H & Hk). exists (name, k). cbn. split; [|by apply elem_of_map_to_list].
    apply (inj singleton) in Hk as ->. done.
Qed.
End lowered.

(** ** Exclusive gateways of a compiled program *)

(** The flag a condition reads: its key in the write set, and the value the
    kernel's [LoadFlag] gives it. *)
Definition flag_key (prog : CompiledProgram) (name : string) : option N :=
  ks ← cp_write_set prog !! name; head (elements (ks : gset N)).
Definition flag_value (prog : CompiledProgram) (i : ProcessInstance) (name : string) : Value :=
  default (VBool false) (key ← flag_key prog name; flags i !! key).
Definition condition_holds (prog : CompiledProgram) (i : ProcessInstance) (c : ConditionExpr) : bool :=
  condition_value c (is_truthy (flag_value prog i (ce_flag_name c))).

Lemma xor_choice_find holds edges d :
  xor_choice holds edges d =
  match find_map (λ e : nat * IREdge, c ← ie_condition e.2;
          if holds c : bool then Some (e.1 : nat) else None) edges with
  | Some m => Some m
  | None => xor_default edges d
  end.
Proof.
  revert d. induction edges as [|[m e] edges IH]; intros d; [done|]. cbn.
  destruct (ie_condition e) as [c|]; cbn; [|apply IH]. destruct (holds c); [done|apply IH].
Qed.

Lemma xor_choice_ext (h1 h2 : ConditionExpr -> bool) edges d :
  (∀ e c, e ∈ edges -> ie_condition e.2 = Some c -> h1 c = h2 c) ->
  xor_choice h1 edges d = xor_choice h2 edges d.
Proof.
  revert d. induction edges as [|[m e] edges IH]; intros d H; [done|]. cbn.
  assert (IH' : ∀ d, xor_choice h1 edges d = xor_choice h2 edges d).
  { intros d'. apply IH. intros e' c Hin. apply H. set_solver. }
  destruct (ie_condition e) as [c|] eqn:E; [|apply IH'].
  rewrite (H (m, e) c); [by rewrite IH'|set_solver|done].
Qed.

Lemma xor_choice_elem holds edges d m : xor_choice holds edges d = Some m ->
  d = Some m ∨ ∃ e : nat * IREdge, e ∈ edges ∧ e.1 = m.
Proof.
  revert d. induction edges as [|[k e] edges IH]; intros d; cbn; [by left|].
  destruct (ie_condition e) as [c|]; [destruct (holds c)|].
  - intros [= ->]. right. exists (m, e). set_solver.
  - intros [->|(e' & ? & ?)]%IH; [by left|]. right. exists e'. set_solver.
  - intros [[= ->]|(e' & ? & ?)]%IH; right; [exists (m, e)|exists e']; set_solver.
Qed.

Lemma xor_default_choice edges d : xor_default edges d = xor_choice (λ _, false) edges d.
Proof.
  revert d. induction edges as [|[k e] edges IH]; intros d; [done|]. cbn. rewrite IH.
  by destruct (ie_condition e).
Qed.

Lemma xor_default_some edges d : is_Some d ∨ Exists (λ e : nat * IREdge, ie_condition e.2 = None) edges ->
  is_Some (xor_default edges d).
Proof.
  revert d. induction edges as [|[m e] edges IH]; intros d; cbn.
  - intros [H|H]; [done|inversion H].
  - intros H. apply IH. destruct (ie_condition e) eqn:E; [|by left].
    destruct H as [H|H]; [by left|]. apply Exists_cons in H as [H|H]; [|by right]. cbn in H. congruence.
Qed.

Section jump.
Context {P : Platform}.
Variables (w : ExecutableWorkflow) (sn : Snapshot) (ctx : DeterministicContext).
Lemma jump_step target pc ts :
  wf_instructions w !! N.to_nat pc = Some (IJump target) ->
  tick_step w sn ctx (on_fiber (set_pc pc) ts) = Ok (Continue (on_fiber (set_pc target) ts)).
Proof. intros Hi. unfold tick_step. cbn. unfold addr_index. rewrite Hi. by destruct ts as [[]]. Qed.
End jump.

Section route.
Context {PG : PetGraph} {HL : PetGraphLaws PG} {P : Platform}.
Variables (w : ExecutableWorkflow) (sn : Snapshot) (ctx : DeterministicContext).
Variables (g : IRGraph) (node_addr : gmap nat N) (idx : nat).

(** The gateway's block runs to the address of the chosen edge. *)
Lemma xor_block_run s1 s2 fi code base ts :
  lower_xor g node_addr idx s1 = Ok (tt, s2) -> ls_flag_intern s2 ⊆ fi ->
  ls_instructions s2 = ls_instructions s1 ++ code ->
  block_at (wf_instructions w) base code -> (base + len code <= u32_max)%N ->
  (∀ e c, e ∈ pg_edges_out g idx -> ie_condition e.2 = Some c -> boolean_condition c) ->
  Exists (λ e : nat * IREdge, ie_condition e.2 = None) (pg_edges_out g idx) ->
  ∃ m a, xor_choice (holds_in fi (ts_instance ts)) (pg_edges_out g idx) None = Some m ∧
    node_addr !! m = Some a ∧
    (∀ e c, e ∈ pg_edges_out g idx -> ie_condition e.2 = Some c -> is_Some (fi !! ce_flag_name c)) ∧
    tick_steps w sn ctx (on_fiber (set_pc base) ts) (on_fiber (set_pc a) ts).
Proof.
  intros Hl Hfi Hcode Hblk Hfit Hbool Hdef. unfold lower_xor, mbind, LM_bind in Hl.
  destruct (lower_xor_edges g node_addr idx (pg_edges_out g idx) None s1) as [[o s']|] eqn:E; [|done].
  assert (Hsub : ls_flag_intern s' ⊆ fi) by (destruct o; injection Hl as <-; exact Hfi).
  destruct (xor_edges_code g node_addr idx (pg_edges_out g idx) None s1 o s' fi) as (Hs' & Ho & Haddr & Hflags);
    [done|exact E|done|].
  destruct (xor_default_some (pg_edges_out g idx) None) as [md Hmd]; [by right|].
  assert (Hchoice := xor_choice_find (holds_in fi (ts_instance ts)) (pg_edges_out g idx) None).
  rewrite Hmd in Hchoice.
  assert (Hmem : ∀ h m, xor_choice h (pg_edges_out g idx) None = Some m -> is_Some (node_addr !! m)).
  { intros h m [?|(e & He & <-)]%xor_choice_elem; [done|]. by apply Haddr. }
  destruct (Hmem (λ _, false) md) as [a Ha]; [by rewrite <- xor_default_choice|].
  rewrite Hmd in Ho. cbn in Ho. rewrite Ha in Ho. subst o.
  injection Hl as <-. cbn in Hcode.
  rewrite Hs', <- app_assoc in Hcode. apply app_inv_head in Hcode. subst code.
  rewrite len_app in Hfit. change (len [_]) with 1%N in Hfit.
  pose proof (xor_listing_run w sn ctx node_addr fi (pg_edges_out g idx) base ts Hbool) as Hrun.
  assert (Hlisting : ∀ k i, xor_listing node_addr fi (pg_edges_out g idx) !! k = Some i ->
    wf_instructions w !! (N.to_nat base + k) = Some i).
  { intros k i Hk. eapply block_lookup; [exact Hblk|]. by apply lookup_app_l_Some. }
  specialize (Hrun Hlisting ltac:(lia)).
  destruct (find_map _ (pg_edges_out g idx)) as [m|] eqn:Ef.
  - destruct (Hmem _ m Hchoice) as [am Ham]. exists m, am. rewrite Ham in Hrun. done.
  - exists md, a. split_and!; [done..|]. eapply rtc_r; [exact Hrun|]. apply jump_step.
    rewrite N2Nat.inj_add. eapply block_lookup; [exact Hblk|].
    unfold len. rewrite Nat2N.id, lookup_app_r, Nat.sub_diag by lia. done.
Qed.
Lemma xor_choice_edge holds m :
  xor_choice holds (pg_edges_out g idx) None = Some m -> edge g idx m.
Proof.
  intros [?|([m' e] & He%elem_of_edges_out & <-)]%xor_choice_elem; [done|]. by exists e.
Qed.
End route.

Lemma on_fiber_set_pc_id ts : on_fiber (set_pc (fiber_pc (ts_fiber ts))) ts = ts.
Proof. by destruct ts as [[]]. Qed.

(** ** Sample graphs *)

Module BpmnSamples.
#[export] Existing Instance toy_platform.
Definition when (flag : string) (b : bool) : option ConditionExpr :=
  Some {| ce_flag_name := flag; ce_op := CEq; ce_literal := CLBool b |}.
Definition flow (a b : nat) (id : string) (c : option ConditionExpr) : nat * nat * IREdge :=
  (a, b, {| ie_id := id; ie_condition := c |}).

(** Approve or reject; an approved case is fulfilled by two parallel tasks. *)
Definition approval : IRGraph := mkGraph
  [NStart "start"; NGatewayXor "decide" "Decide"; NGatewayAnd "split" "Split" Diverging;
   NServiceTask "ship" "Ship" "ship_task"; NServiceTask "bill" "Bill" "bill_task";
   NGatewayAnd "merge" "Merge" Converging; NEnd "done" false; NEnd "rejected" false]
  [flow 0 1 "f1" None; flow 1 2 "f2" (when "approved" true); flow 1 7 "f3" None;
   flow 2 3 "f4" None; flow 2 4 "f5" None; flow 3 5 "f6" None; flow 4 5 "f7" None; flow 5 6 "f8" None].

(** A conditional branch that ends in a task without outgoing flow. *)
Definition dead_end : IRGraph := mkGraph
  [NStart "start"; NGatewayXor "decide" "Decide"; NServiceTask "a" "A" "task_a";
   NServiceTask "b" "B" "task_b"; NEnd "done" false]
  [flow 0 1 "f1" None; flow 1 3 "f2" None; flow 1 2 "f3" (when "flag" true); flow 3 4 "f4" None].

(** A numeric condition. *)
Definition numeric : IRGraph := mkGraph
  [NStart "start"; NGatewayXor "decide" "Decide"; NEnd "high" false; NEnd "low" false]
  [flow 0 1 "f1" None; flow 1 3 "f3" None;
   flow 1 2 "f2" (Some {| ce_flag_name := "score"; ce_op := CGt; ce_literal := CLI64 700 |})].

(** A task with a non-interrupting timer and an error boundary. *)
Definition mixed (spec : TimerSpec) : IRGraph := mkGraph
  [NStart "start"; NServiceTask "work" "Work" "work_task"; NEnd "done" false;
   NBoundaryTimer "remind" "work" spec false None; NEnd "reminded" false;
   NBoundaryError "fail" "work" None None; NEnd "failed" false]
  [flow 0 1 "f1" None; flow 1 2 "f2" None; flow 3 4 "f3" None; flow 5 6 "f4" None].

(** Two inclusive splits, on the branches of an exclusive gateway, with one join. *)
Definition shared_join : IRGraph := mkGraph
  [NStart "start"; NGatewayXor "decide" "Decide"; NGatewayInclusive "one" "One" Diverging;
   NGatewayInclusive "two" "Two" Diverging; NServiceTask "a" "A" "task_a"; NServiceTask "b" "B" "task_b";
   NServiceTask "c" "C" "task_c"; NServiceTask "d" "D" "task_d";
   NGatewayInclusive "merge" "Merge" Converging; NEnd "done" false]
  [flow 0 1 "f1" None; flow 1 2 "f2" (when "flag" true); flow 1 3 "f3" None; flow 2 4 "f4" None;
   flow 2 5 "f5" None; flow 3 6 "f6" None; flow 3 7 "f7" None; flow 4 8 "f8" None; flow 5 8 "f9" None;
   flow 6 8 "f10" None; flow 7 8 "f11" None; flow 8 9 "f12" None].

Definition json (_ : list Instr) : Result string (list Byte.byte) := Ok [].
Definition envelope (_ : N) (_ : string) (_ : list Instr) (_ : CompiledProgram) (_ : VerifiedLimits)
  : option (list Byte.byte) := Some [].

Definition approval_program : CompiledProgram :=
  match lower_with_default 0 json approval None with
  | Ok p => p
  | Err _ => mkProgram [] [] ∅ ∅ ∅ ∅ ∅ [] ∅ ∅ ∅ ∅ ∅ ∅ ScopeFailureBudget_conservative_default
               RetryPolicy_conservative_default
  end.
Definition plan_of (g : IRGraph) : list nat * LowerPlan * gmap string N :=
  match plan_lowering g with
  | Ok plan => plan
  | Err _ => ([], mkPlan (build_tables g []) ∅ (mkPairing ∅ ∅ ∅) ∅, ∅)
  end.
Definition approval_plan : list nat * LowerPlan * gmap string N := plan_of approval.
Definition workflow_of (g : IRGraph) : ExecutableWorkflow :=
  match compile 0 json envelope "1" g None with Ok w => w | Err _ => toy_workflow [] end.

(** A fibre at the gateway [decide] of an approved case. *)
Definition at_decide : TickState :=
  mkTick (Fiber_new 7 1) (set_flags (<[0%N := VBool true]> ∅) toy_instance) Changes_default 0 [].
End BpmnSamples.
Import BpmnSamples.

Lemma graph_wf_eval g :
  forallb (λ e : nat * nat * IREdge, (e.1.1 <? node_count g)%nat && (e.1.2 <? node_count g)%nat) (ig_edges g)
    = true -> graph_wf g.
Proof.
  rewrite forallb_forall. intros H a b w Hin%list_elem_of_In%H. cbn in Hin.
  apply andb_true_iff in Hin as [H1 H2]. by apply Nat.ltb_lt in H1, H2.
Qed.

Definition small (g : IRGraph) : bool :=
  ((N.of_nat (node_count g) <? size_limit)%N && (len (ig_edges g) <? size_limit)%N &&
   forallb (λ n, match n with NMultiInstance _ _ _ _ m => (m <? size_limit)%N | _ => true end) (ig_nodes g) &&
   match plan_lowering g with
   | Ok (order, p, _) => (slots g (lp_tables p) order <? u32_size)%N
   | Err _ => true
   end).

Lemma program_fits_eval g : small g = true -> program_fits g.
Proof.
  unfold small. rewrite !andb_true_iff, !N.ltb_lt. intros [[[Hn He] Hm] Hp]. split; [split; [done..|]|].
  - intros idx id name task flag m Hi. apply list_elem_of_lookup_2 in Hi.
    rewrite forallb_forall in Hm. apply list_elem_of_In, Hm in Hi. by apply N.ltb_lt.
  - intros order p fi H. rewrite H in Hp. by apply N.ltb_lt.
Qed.

Lemma approval_wf : graph_wf approval.
Proof. apply graph_wf_eval. vm_compute. reflexivity. Qed.
Lemma approval_verified : verify approval = Some [].
Proof. vm_compute. reflexivity. Qed.
Lemma approval_acyclic : acyclic approval.
Proof. apply not_cyclic_acyclic; [exact approval_wf|]. vm_compute. reflexivity. Qed.
Lemma approval_fits : program_fits approval.
Proof. apply program_fits_eval. vm_compute. reflexivity. Qed.
Lemma approval_lowered : lower_with_default 0 json approval None = Ok approval_program.
Proof. vm_compute. reflexivity. Qed.
Lemma approval_planned : plan_lowering approval = Ok approval_plan.
Proof. vm_compute. reflexivity. Qed.

(** ** The properties *)

(** C15: on a well-formed acyclic flow graph the post-dominator pass returns, and
    its map is exact: it sends a node to its immediate post-dominator, and has
    no entry for a node without one. *)
Theorem post_dominators_exact {PG : PetGraph} {HL : PetGraphLaws PG} g :
  graph_wf g -> acyclic g ->
  ∃ pd, compute_post_dominators g = Some pd ∧
    ∀ n d, pd !! n = Some d ↔ n < node_count g ∧ immediate_post_dominator g n d.
Proof. apply compute_post_dominators_spec. Qed.

Lemma post_dominators_exact_witness :
  immediate_post_dominator approval 2 5 ∧ ¬ (∃ d, immediate_post_dominator approval 1 d).
Proof.
  destruct (post_dominators_exact approval approval_wf approval_acyclic) as (pd & Hpd & H).
  vm_compute in Hpd. injection Hpd as <-. split.
  - apply H. vm_compute. reflexivity.
  - intros [d Hd]. assert (Hc : 1 < node_count approval) by (vm_compute; lia).
    pose proof (proj2 (H 1 d) (conj Hc Hd)) as Hx. vm_compute in Hx. discriminate.
Defined.

(** C19: a graph the verifier accepts without an error has unique node and flow
    ids, one start and at least one end, no cycle, every flow node reachable from
    the start or a boundary event, exactly one default flow on every branching
    exclusive gateway, boundary events on hosts of the right kind with outgoing
    flow, no repeating interrupting timer, and at most one timer, catch-all and
    handler per error code on a host. *)
Theorem verify_admits {PG : PetGraph} {HL : PetGraphLaws PG} g :
  graph_wf g -> verify g = Some [] -> admitted g.
Proof. apply verify_sound. Qed.

Lemma verify_admits_witness : acyclic approval ∧ NoDup (node_id <$> ig_nodes approval).
Proof.
  pose proof (verify_admits approval approval_wf approval_verified) as H.
  split; [exact (ad_acyclic _ H)|exact (ad_node_ids _ H)].
Defined.

(** The entry point returns. *)
Lemma compile_total {PG : PetGraph} {HL : PetGraphLaws PG} {P : Platform}
    now_ms to_json envelope_json version g budget :
  graph_wf g ->
  compile now_ms to_json envelope_json version g budget ≠ Err CEDiverges ∧
  ∀ msg, compile now_ms to_json envelope_json version g budget ≠ Err (CELower (LPanic msg)).
Proof.
  intros Hwf. destruct (verify_returns g) as [errs Hv]; [done|]. unfold compile, verify_or_err.
  rewrite Hv. cbn [ok_or mbind option_bind Result_bind fmap option_fmap option_map].
  destruct errs as [|e errs]; cbn; [|done].
  pose proof (ad_acyclic _ (verify_sound g Hwf Hv)) as Hac.
  pose proof (λ w, lower_no_panic now_ms g to_json budget w Hwf Hac) as Hnp.
  destruct (lower_with_default now_ms to_json g budget) as [p|e]; cbn.
  - unfold executable_workflow. destruct (verify_bytecode p); cbn; [|done].
    destruct (verify_program (cp_program p) (legacy_metadata p)); cbn; [|done].
    case_bool_decide; cbn; [|done]. by destruct (envelope_json _ _ _ _ _).
  - split; [done|]. intros msg [= ->]. by eapply Hnp.
Qed.

(** C16: the compiler's entry point always comes back with a workflow or a
    reported error: on a well-formed graph the verifier's walk ends and no
    [expect] or index of the lowering fails (in a build without debug
    assertions). *)
Theorem compile_never_panics {PG : PetGraph} {HL : PetGraphLaws PG} {P : Platform}
    now_ms to_json envelope_json version g budget :
  graph_wf g ->
  compile now_ms to_json envelope_json version g budget ≠ Err CEDiverges ∧
  ∀ msg, compile now_ms to_json envelope_json version g budget ≠ Err (CELower (LPanic msg)).
Proof. apply compile_total. Qed.

Lemma compile_never_panics_witness :
  compile 0 json envelope "1" dead_end None ≠ Err CEDiverges.
Proof.
  apply (compile_never_panics 0 json envelope "1" dead_end None).
  apply graph_wf_eval. vm_compute. reflexivity.
Defined.





(** C13: joins and forks pair up.  Every join instruction of a lowered program
    names the address of a fork instruction that names itself as its pairing, and the code
    of a converging gateway is the join of the fork of the diverging gateway of
    its kind that it immediately post-dominates. *)
Theorem joins_pair_with_forks {PG : PetGraph} {HL : PetGraphLaws PG} {P : Platform}
    now_ms to_json g budget prog order p fi :
  graph_wf g -> acyclic g -> program_fits g ->
  lower_with_default now_ms to_json g budget = Ok prog -> plan_lowering g = Ok (order, p, fi) ->
  (∀ a q, cp_program prog !! a = Some (IV2Join q) ->
     ∃ ts, cp_program prog !! N.to_nat q = Some (IV2Fork ts q)) ∧
  (∀ j node, node_at g j = Some node -> closes node = true ->
     ∃ b q d dnode base k, lp_node_addr p !! j = Some b ∧
       cp_program prog !! N.to_nat b = Some (IV2Join q) ∧
       node_at g d = Some dnode ∧ opens node dnode = true ∧ immediate_post_dominator g d j ∧
       lp_node_addr p !! d = Some base ∧ fork_position g (lp_tables p) d = Some k ∧ q = addr_add base k).
Proof.
  intros Hwf Hac Hfits H Hp. split.
  - intros a q. by apply (lowered_joins now_ms to_json g budget prog).
  - intros j node. by apply (lowered_join_node now_ms to_json g budget prog Hwf Hac Hfits H order p fi).
Qed.

Lemma joins_pair_with_forks_witness :
  cp_program approval_program !! 12 = Some (IV2Join 7) ∧
  ∃ ts, cp_program approval_program !! N.to_nat 7 = Some (IV2Fork ts 7).
Proof.
  split; [vm_compute; reflexivity|].
  apply (joins_pair_with_forks 0 json approval None approval_program approval_plan.1.1
    approval_plan.1.2 approval_plan.2 approval_wf approval_acyclic approval_fits approval_lowered
    approval_planned) with (a := 12). vm_compute. reflexivity.
Defined.

(** C14: an exclusive gateway of an accepted graph, compiled and run by the
    kernel, takes the branch of its first flow whose condition holds of the
    instance's flags, and its default flow when none does: from the gateway's
    address the tick reaches the address of that flow's target with nothing but
    the program counter changed.  Conditions compare a flag with a boolean. *)
Theorem xor_routes_by_condition {PG : PetGraph} {HL : PetGraphLaws PG} {P : Platform}
    now_ms to_json g budget prog order p fi w sn ctx ts idx id name :
  graph_wf g -> verify g = Some [] -> program_fits g ->
  lower_with_default now_ms to_json g budget = Ok prog -> plan_lowering g = Ok (order, p, fi) ->
  wf_instructions w = cp_program prog ->
  node_at g idx = Some (NGatewayXor id name) -> 1 < length (out_edges g idx) ->
  (∀ e c, e ∈ pg_edges_out g idx -> ie_condition e.2 = Some c -> boolean_condition c) ->
  lp_node_addr p !! idx = Some (fiber_pc (ts_fiber ts)) ->
  ∃ m a, xor_choice (condition_holds prog (ts_instance ts)) (pg_edges_out g idx) None = Some m ∧
    edge g idx m ∧ lp_node_addr p !! m = Some a ∧
    tick_steps w sn ctx ts (on_fiber (set_pc a) ts).
Proof.
  intros Hwf Hv Hfits Hlow Hp Hw Hn Hout Hbool Hpc. pose proof (verify_sound g Hwf Hv) as Had.
  pose proof (ad_acyclic _ Had) as Hac.
  destruct (lower_inv now_ms g to_json budget prog Hwf Hac Hfits Hlow)
    as (order' & p' & fi' & pd & s & Hp' & Hok & He & _ & Hprog & Hws & _).
  rewrite Hp in Hp'. injection Hp' as <- <- <-. assert (Htot := proj2 Hfits _ _ _ Hp).
  assert (Hlt := node_of_addr _ _ _ _ _ _ Hok Hpc).
  assert (Hin : idx ∈ order) by by rewrite (po_perm _ _ _ _ Hok), elem_of_node_indices.
  pose proof (block_room _ _ _ _ _ _ Hok Htot Hlt Hpc) as Hroom.
  destruct (em_blocks _ _ _ _ _ He idx Hin)
    as (base & code & Hb & Hblk & [[_ Hlen] _] & (node & s1 & s2 & Hn' & Hem & Hs2 & Hsub)).
  rewrite Hpc in Hb. injection Hb as <-. rewrite Hn in Hn'. injection Hn' as <-. cbn [emit_node] in Hem.
  rewrite <- Hprog, <- Hw in Hblk.
  destruct (xor_block_run w sn ctx g (lp_node_addr p) idx s1 s2 (ls_flag_intern s) code
    (fiber_pc (ts_fiber ts)) ts Hem Hsub Hs2 Hblk) as (m & a & Hm & Ha & Hflags & Hrun); [|done|..].
  { unfold u32_max, u32_size in *. lia. }
  { apply Exists_exists. pose proof (ad_xor _ Had idx id name Hn Hout) as Hdef.
    destruct (filter _ _) as [|e l] eqn:Ef; [done|].
    assert (Hine : e ∈ e :: l) by apply list_elem_of_here. rewrite <- Ef in Hine.
    apply list_elem_of_filter in Hine as [Hc Hine]. exists e. split; [|done].
    by rewrite (pg_edges_out_perm g idx). }
  exists m, a. split_and!; [|by eapply xor_choice_edge|done|].
  - rewrite <- Hm. apply xor_choice_ext. intros e c Hine Hc. destruct (Hflags e c Hine Hc) as [k Hk].
    unfold condition_holds, flag_value, flag_key, holds_in. rewrite Hws, lookup_fmap, Hk. cbn.
    by rewrite elements_singleton.
  - by rewrite on_fiber_set_pc_id in Hrun.
Qed.

Lemma xor_routes_by_condition_witness :
  ∃ m a, xor_choice (condition_holds approval_program (ts_instance at_decide)) (pg_edges_out approval 1) None
      = Some m ∧ edge approval 1 m ∧ lp_node_addr approval_plan.1.2 !! m = Some a ∧
    tick_steps (toy_workflow (cp_program approval_program)) toy_snapshot (toy_context 0 0) at_decide
      (on_fiber (set_pc a) at_decide).
Proof.
  apply (xor_routes_by_condition 0 json approval None approval_program approval_plan.1.1
    approval_plan.1.2 approval_plan.2 _ _ _ _ 1 "decide" "Decide").
  - exact approval_wf.
  - exact approval_verified.
  - exact approval_fits.
  - exact approval_lowered.
  - exact approval_planned.
  - reflexivity.
  - reflexivity.
  - vm_compute. lia.
  - intros e c He Hc. change (pg_edges_out approval 1) with
      [(7, {| ie_id := "f3"; ie_condition := None |}); (2, {| ie_id := "f2"; ie_condition := when "approved" true |})] in He.
    apply elem_of_cons in He as [->|He]; [discriminate|].
    apply list_elem_of_singleton in He as ->. injection Hc as <-.
    split; [left; reflexivity|exists true; reflexivity].
  - vm_compute. reflexivity.
Defined.

(** A task without outgoing flow is accepted by the verifier, and its code
    ends in a jump to whatever the layout put next: in [dead_end] the task [a]
    runs on into the task [b] of the other branch. *)
Lemma dead_end_task_runs_on :
  verify dead_end = Some [] ∧ (∀ m, ¬ edge dead_end 2 m) ∧
  ∃ order p fi w, plan_lowering dead_end = Ok (order, p, fi) ∧
    compile 0 json envelope "1" dead_end None = Ok w ∧
    lp_node_addr p !! 2 = Some 6%N ∧ lp_node_addr p !! 3 = Some 8%N ∧
    wf_instructions w !! 6 = Some (IExecNative 0 0 0) ∧ wf_instructions w !! 7 = Some (IJump 8) ∧
    wf_instructions w !! 8 = Some (IExecNative 1 0 0) ∧
    task_manifest (wf_metadata w) = ["task_a"; "task_b"].
Proof.
  split; [vm_compute; reflexivity|]. split.
  - intros m [e He]. cbn in He. repeat apply elem_of_cons in He as [He|He]; try discriminate.
    by apply not_elem_of_nil in He.
  - exists (plan_of dead_end).1.1, (plan_of dead_end).1.2, (plan_of dead_end).2, (workflow_of dead_end).
    split_and!; vm_compute; reflexivity.
Qed.

(** A numeric condition is lowered to the truth of its flag: with [score] at 3 the
    gateway takes the branch for a score over 700. *)
Lemma numeric_condition_ignored :
  verify numeric = Some [] ∧
  ∃ w, compile 0 json envelope "1" numeric None = Ok w ∧
    debug_map (wf_metadata w) !! 6%N = Some "high" ∧
    tick_steps w toy_snapshot (toy_context 0 0)
      (mkTick (Fiber_new 7 1) (set_flags (<[0%N := VI64 3]> ∅) toy_instance) Changes_default 0 [])
      (mkTick (Fiber_new 7 6) (set_flags (<[0%N := VI64 3]> ∅) toy_instance) Changes_default 0 []).
Proof.
  split; [vm_compute; reflexivity|]. exists (workflow_of numeric).
  split; [vm_compute; reflexivity|]. split; [vm_compute; reflexivity|].
  eapply rtc_l; [vm_compute; reflexivity|]. eapply rtc_l; [vm_compute; reflexivity|].
  apply rtc_refl.
Qed.

(** The verifier accepts a non-interrupting timer beside an error boundary, and
    lowering opens an interrupting guard for the two but closes a GUARD-N at the
    end of the timer's flow: the artifact verifier refuses the program.  With a
    repeating timer the program has a cycle arm in the interrupting guard. *)
Lemma mixed_boundaries_refused :
  verify (mixed (TSDuration 1000)) = Some [] ∧
  compile 0 json envelope "1" (mixed (TSDuration 1000)) None =
    Err (CEArtifact (InvalidInstruction 9 (RCloseNothing SKGuardN))) ∧
  verify (mixed (TSCycle 1000 3)) = Some [] ∧
  ∃ p, lower_with_default 0 json (mixed (TSCycle 1000 3)) None = Ok p ∧
    take 4 (drop 1 (cp_program p)) = [IPushI64 1000; IV2Guard 10; IV2GuardArmTimer; IV2GuardTimerCycle 3].
Proof.
  split; [vm_compute; reflexivity|]. split; [vm_compute; reflexivity|]. split; [vm_compute; reflexivity|].
  eexists. split; vm_compute; reflexivity.
Qed.

(** The nesting check accepts two inclusive splits that share a join; lowering
    pairs the join with one of them, and the artifact verifier refuses the
    program at the join. *)
Lemma shared_join_refused :
  verify shared_join = Some [] ∧
  compile 0 json envelope "1" shared_join None = Err (CEArtifact (InvalidInstruction 20
    (RJoinMismatch 6 {| tok_kind := SKBarrier; tok_opened_at := 13 |}))).
Proof. split; vm_compute; reflexivity. Qed.
