(* ===== verification/DesignerDag.v ===== *)
(** * The designer's graph and its operations

    [designer-graph/src]: the authored process graph ([schema.rs]), the
    deterministic edit operations ([ops.rs]), their compositions
    ([productions.rs]), the candidates an editor may offer
    ([board_candidate.rs]) and which of them are legal at a node
    ([positional.rs]).

    A graph is edited on a clone, so a mutator that fails half-way leaves
    nothing behind; here a mutator returns the new graph or an error, which is
    the message's constructor with its format arguments (a label of [None] is
    printed as the key).  [DPanic] is an
    [expect], an [unreachable!] or an index that fails.  The graph is
    [petgraph]'s [DiGraph], which removes a node or an edge by moving the last
    one into its place; the calls made are the class [PetDesigner] and their
    documented behaviour [PetDesignerLaws]. *)

From S2P Require Import Prelude RustStr Json Types Platform Effects Transition Verifier BpmnIr BpmnVerify BpmnLower.

Open Scope string_scope.
Open Scope list_scope.

(** ** Schema *)

(** [NodeKey]: an identity supplied by the caller. *)
Notation NodeKey := Uuid (only parsing).

Record Provenance := mkProvenance {
  source_utterance : option string;
  production : option (string * N);
  board_hash : option string;
}.

Record DesignerNode := mkDesignerNode {
  dn_key : NodeKey;
  dn_ir : IRNode;
  dn_attached_to_key : option NodeKey;
  dn_provenance : Provenance;
}.

Record DesignerEdge := mkDesignerEdge {
  de_id : string;
  de_condition : option ConditionExpr;
  de_provenance : Provenance;
}.

(** [DiGraph<DesignerNode, DesignerEdge>]. *)
Record DiGraph := mkDiGraph {
  dg_nodes : list DesignerNode;
  dg_edges : list (nat * nat * DesignerEdge);
}.

Record DesignerDag := mkDag {
  dd_name : string;
  dd_default_guard_budget : option N;
  dd_graph : DiGraph;
  dd_key_index : gmap NodeKey nat;
  dd_bpmn_ids : gset string;
  dd_edge_ids : gset string;
}.

Definition DesignerDag_new (name : string) : DesignerDag :=
  mkDag name None (mkDiGraph [] []) ∅ ∅ ∅.

(** ** petgraph *)

Definition dedge (g : DiGraph) (a b : nat) : Prop := ∃ w, (a, b, w) ∈ dg_edges g.
Definition digraph_wf (g : DiGraph) : Prop :=
  ∀ a b w, (a, b, w) ∈ dg_edges g -> a < length (dg_nodes g) ∧ b < length (dg_nodes g).

Definition dg_out (g : DiGraph) (n : nat) : list (nat * DesignerEdge) :=
  omap (λ e : nat * nat * DesignerEdge, let '(a, b, w) := e in
    if decide (a = n) then Some (b, w) else None) (dg_edges g).
Definition dg_in (g : DiGraph) (n : nat) : list (nat * DesignerEdge) :=
  omap (λ e : nat * nat * DesignerEdge, let '(a, b, w) := e in
    if decide (b = n) then Some (a, w) else None) (dg_edges g).

(** The last element takes the place of the removed one. *)
Definition swap_remove {A} (i : nat) (l : list A) : list A :=
  match last l with
  | Some x => take (pred (length l)) (<[i := x]> l)
  | None => l
  end.
(** The edges after the removal of node [i] from [n] nodes: those at [i] are
    gone, those at the last node are at [i]. *)
Definition moved (i n k : nat) : nat := if decide (k = pred n) then i else k.
Definition without_node (i n : nat) (e : nat * nat * DesignerEdge) : option (nat * nat * DesignerEdge) :=
  let '(a, b, w) := e in
  if decide (a = i ∨ b = i) then None else Some (moved i n a, moved i n b, w).

(** [edges_directed] both ways (other endpoint and weight), [find_edge],
    [remove_edge], [remove_node] and [petgraph::algo::has_path_connecting]. *)
Class PetDesigner := {
  pd_edges_out : DiGraph -> nat -> list (nat * DesignerEdge);
  pd_edges_in : DiGraph -> nat -> list (nat * DesignerEdge);
  pd_find_edge : DiGraph -> nat -> nat -> option nat;
  pd_remove_edge : DiGraph -> nat -> option (DesignerEdge * DiGraph);
  pd_remove_node : DiGraph -> nat -> DiGraph;
  pd_has_path_connecting : DiGraph -> nat -> nat -> bool;
}.

Class PetDesignerLaws (PD : PetDesigner) : Prop := {
  pd_edges_out_perm g n : pd_edges_out g n ≡ₚ dg_out g n;
  pd_edges_in_perm g n : pd_edges_in g n ≡ₚ dg_in g n;
  pd_find_edge_spec g a b :
    match pd_find_edge g a b with
    | Some e => ∃ w, dg_edges g !! e = Some (a, b, w)
    | None => ∀ w, (a, b, w) ∉ dg_edges g
    end;
  pd_remove_edge_spec g e a b w : dg_edges g !! e = Some (a, b, w) ->
    ∃ edges, pd_remove_edge g e = Some (w, mkDiGraph (dg_nodes g) edges) ∧
      dg_edges g ≡ₚ (a, b, w) :: edges;
  pd_remove_node_spec g i : i < length (dg_nodes g) ->
    dg_nodes (pd_remove_node g i) = swap_remove i (dg_nodes g) ∧
    dg_edges (pd_remove_node g i) ≡ₚ omap (without_node i (length (dg_nodes g))) (dg_edges g);
  pd_has_path_spec g a b : digraph_wf g -> a < length (dg_nodes g) ->
    pd_has_path_connecting g a b = true ↔ rtc (dedge g) a b;
}.

(** ** Errors *)

Inductive DagError :=
| DuplicateNodeKey (k : NodeKey)
| DuplicateNodeId (id : string)
| UnknownHost (k : NodeKey)
| AttachNotBoundary (id : string)
| DuplicateFlowId (id : string)
| UnknownFrom (k : NodeKey)
| UnknownTo (k : NodeKey)
| NoEdge (from to : NodeKey)
| UnknownNode (k : NodeKey)
| SeedRefused (id : string)
| DanglingAttachment (k : NodeKey)
| AppendRefused (anchor : NodeKey)
| ConnectUnknown (k : NodeKey)
| ConnectCycle (from : NodeKey) (from_id : option string) (to : NodeKey) (to_id : option string)
| ReplaceUnknown (target : NodeKey)
| ReplaceGuarded (label : option string) (target : NodeKey) (dependents : list (option string))
| DeleteGuarded (label : option string) (target : NodeKey) (dependents : list (option string))
| AttachUnknownHost (guard_id : string) (host : NodeKey)
| AttachCycle (guard_id : string)
| RearmError (guard_id : string)
| GuardUnknown (guard : NodeKey)
| NotAGuard (label : string) (guard : NodeKey)
| TimerToError (label : string)
| ErrorToTimer (label : string)
| InterruptingCycle (label : string)
| CorrelationUnknown (node : NodeKey)
| NotACarrier (label : string) (node : NodeKey)
| TooFewBranches (anchor : NodeKey) (n : nat)
| ParallelConditioned (id : string)
| InclusiveUnconditioned (id : string)
| NotMultiInstance (id : string)
| BranchUnknown (k : NodeKey)
| BranchNotXor (id : string) (gateway : NodeKey)
| BranchCycle (gateway : NodeKey) (gateway_id : string) (target : NodeKey) (target_id : string)
| EmptyProduction
| DPanic (what : string).

(** ** The graph's own operations *)

Section dag.
Context {PD : PetDesigner}.

Definition set_graph (g : DiGraph) (d : DesignerDag) : DesignerDag :=
  mkDag (dd_name d) (dd_default_guard_budget d) g (dd_key_index d) (dd_bpmn_ids d) (dd_edge_ids d).

Definition known (d : DesignerDag) (k : NodeKey) : bool := bool_decide (is_Some (dd_key_index d !! k)).

Definition insert_node (key : NodeKey) (ir : IRNode) (attached_to_key : option NodeKey)
    (provenance : Provenance) (d : DesignerDag) : Result DagError DesignerDag :=
  _ ← ensure (negb (known d key)) (DuplicateNodeKey key);
  _ ← ensure (bool_decide (node_id ir ∉ dd_bpmn_ids d)) (DuplicateNodeId (node_id ir));
  _ ← match attached_to_key with
      | Some host =>
          _ ← ensure (known d host) (UnknownHost host);
          ensure (is_boundary ir) (AttachNotBoundary (node_id ir))
      | None => Ok tt
      end;
  let g := dd_graph d in
  Ok (mkDag (dd_name d) (dd_default_guard_budget d)
       (mkDiGraph (dg_nodes g ++ [mkDesignerNode key ir attached_to_key provenance]) (dg_edges g))
       (<[key := length (dg_nodes g)]> (dd_key_index d))
       ({[node_id ir]} ∪ dd_bpmn_ids d) (dd_edge_ids d)).

Definition insert_edge (from to : NodeKey) (e : DesignerEdge) (d : DesignerDag)
  : Result DagError DesignerDag :=
  _ ← ensure (bool_decide (de_id e ∉ dd_edge_ids d)) (DuplicateFlowId (de_id e));
  f ← ok_or (UnknownFrom from) (dd_key_index d !! from);
  t ← ok_or (UnknownTo to) (dd_key_index d !! to);
  let g := dd_graph d in
  Ok (mkDag (dd_name d) (dd_default_guard_budget d)
       (mkDiGraph (dg_nodes g) (dg_edges g ++ [(f, t, e)])) (dd_key_index d)
       (dd_bpmn_ids d) ({[de_id e]} ∪ dd_edge_ids d)).

Definition key_for_bpmn_id (d : DesignerDag) (id : string) : option NodeKey :=
  find_map (λ n, if decide (node_id (dn_ir n) = id) then Some (dn_key n) else None)
    (dg_nodes (dd_graph d)).

Definition seed (key : NodeKey) (node : IRNode) (provenance : Provenance) (d : DesignerDag)
  : Result DagError DesignerDag :=
  match node with
  | NStart _ | NDataObject _ _ _ _ => insert_node key node None provenance d
  | other => Err (SeedRefused (node_id other))
  end.

(** [graph[idx]] is an index that panics out of range; the index of a key never
    is ([dag_ok] of file DesignerTheorems). *)
Definition node (d : DesignerDag) (key : NodeKey) : option DesignerNode :=
  idx ← dd_key_index d !! key; dg_nodes (dd_graph d) !! idx.
Definition node_label (d : DesignerDag) (key : NodeKey) : option string :=
  node_id ∘ dn_ir <$> node d key.

Definition endpoint_keys (g : DiGraph) (l : list (nat * DesignerEdge)) : list NodeKey :=
  omap (λ e, dn_key <$> dg_nodes g !! e.1) l.
Definition successors (d : DesignerDag) (key : NodeKey) : list NodeKey :=
  match dd_key_index d !! key with
  | Some idx => endpoint_keys (dd_graph d) (pd_edges_out (dd_graph d) idx)
  | None => []
  end.
Definition predecessors (d : DesignerDag) (key : NodeKey) : list NodeKey :=
  match dd_key_index d !! key with
  | Some idx => endpoint_keys (dd_graph d) (pd_edges_in (dd_graph d) idx)
  | None => []
  end.

Definition remove_edge_between (from to : NodeKey) (d : DesignerDag)
  : Result DagError (DesignerEdge * DesignerDag) :=
  f ← ok_or (UnknownFrom from) (dd_key_index d !! from);
  t ← ok_or (UnknownTo to) (dd_key_index d !! to);
  eidx ← ok_or (NoEdge from to) (pd_find_edge (dd_graph d) f t);
  '(e, g) ← ok_or (DPanic "edge just located by find_edge") (pd_remove_edge (dd_graph d) eidx);
  Ok (e, mkDag (dd_name d) (dd_default_guard_budget d) g (dd_key_index d) (dd_bpmn_ids d)
          (dd_edge_ids d ∖ {[de_id e]})).

(** [node_mut]: the payload of a node replaced in place. *)
Definition set_node_ir (key : NodeKey) (ir : IRNode) (d : DesignerDag) : DesignerDag :=
  match dd_key_index d !! key with
  | Some idx =>
      let g := dd_graph d in
      set_graph (mkDiGraph (alter (λ n, mkDesignerNode (dn_key n) ir (dn_attached_to_key n)
                                          (dn_provenance n)) idx (dg_nodes g)) (dg_edges g)) d
  | None => d
  end.

Definition nodes_attached_to (d : DesignerDag) (host : NodeKey) : list NodeKey :=
  dn_key <$> filter (λ n, dn_attached_to_key n = Some host) (dg_nodes (dd_graph d)).

Definition remove_node (key : NodeKey) (d : DesignerDag) : Result DagError DesignerDag :=
  idx ← ok_or (UnknownNode key) (dd_key_index d !! key);
  let g := dd_graph d in
  let freed_edge_ids := (de_id ∘ snd <$> pd_edges_out g idx) ++ (de_id ∘ snd <$> pd_edges_in g idx) in
  n ← ok_or (DPanic "index") (dg_nodes g !! idx);
  let last := pred (length (dg_nodes g)) in
  let key_index := delete key (dd_key_index d) in
  let key_index :=
    if decide (last = idx) then key_index
    else match find_map (λ kv : NodeKey * nat, if decide (kv.2 = last) then Some kv.1 else None)
                 (map_to_list key_index) with
         | Some moved_key => <[moved_key := idx]> key_index
         | None => key_index
         end in
  Ok (mkDag (dd_name d) (dd_default_guard_budget d) (pd_remove_node g idx) key_index
       (dd_bpmn_ids d ∖ {[node_id (dn_ir n)]}) (dd_edge_ids d ∖ list_to_set freed_edge_ids)).

(** ** Projection and admission *)

(** The payload of a node, with the current id of the host it is attached to. *)
Definition project (d : DesignerDag) (n : DesignerNode) : Result DagError IRNode :=
  match dn_attached_to_key n with
  | None => Ok (dn_ir n)
  | Some host_key =>
      host_idx ← ok_or (DanglingAttachment host_key) (dd_key_index d !! host_key);
      host ← ok_or (DPanic "index") (dg_nodes (dd_graph d) !! host_idx);
      let host_id := node_id (dn_ir host) in
      match dn_ir n with
      | NBoundaryTimer id _ spec interrupting failure_budget =>
          Ok (NBoundaryTimer id host_id spec interrupting failure_budget)
      | NBoundaryError id _ error_code failure_budget =>
          Ok (NBoundaryError id host_id error_code failure_budget)
      | _ => Err (DPanic "attached_to_key on non-boundary refused at insert")
      end
  end.

Definition project_node (d : DesignerDag) (acc : IRGraph * gmap nat nat) (idx : nat)
  : Result DagError (IRGraph * gmap nat nat) :=
  n ← ok_or (DPanic "index") (dg_nodes (dd_graph d) !! idx);
  payload ← project d n;
  let '(ir, idx') := add_node payload acc.1 in
  Ok (ir, <[idx := idx']> acc.2).
Definition project_edge (map : gmap nat nat) (ir : IRGraph) (e : nat * nat * DesignerEdge)
  : Result DagError IRGraph :=
  let '(a, b, w) := e in
  a' ← ok_or (DPanic "map") (map !! a);
  b' ← ok_or (DPanic "map") (map !! b);
  Ok (add_edge a' b' {| ie_id := de_id w; ie_condition := de_condition w |} ir).

Definition to_ir (d : DesignerDag) : Result DagError IRGraph :=
  let g := dd_graph d in
  '(ir, map) ← try_fold (project_node d) (mkGraph [] [], ∅) (seq 0 (length (dg_nodes g)));
  try_fold (project_edge map) ir (dg_edges g).
End dag.

(** [DesignerDag::admit]: the projection, the structural verifier with its diagnostics, the
    compiler.  The messages of the outer two are their errors. *)
Inductive AdmitError :=
| AEProjection (e : DagError)
| AEDiverges
| AEVerify (errors : list VerifyError)
| AECompile (e : CompileError).

Section admission.
Context {PG : PetGraph} {P : Platform}.
Variable now_ms : N.
Variable instructions_json : list Instr -> Result string (list Byte.byte).
Variable envelope_json : N -> string -> list Instr -> CompiledProgram -> VerifiedLimits ->
  option (list Byte.byte).
Variable pkg_version : string.

Definition admit_dag (d : DesignerDag) : Result AdmitError ExecutableWorkflow :=
  ir ← map_err AEProjection (to_ir d);
  errors ← ok_or AEDiverges (verify ir);
  match errors with
  | [] => map_err AECompile
            (compile now_ms instructions_json envelope_json pkg_version ir (dd_default_guard_budget d))
  | _ => Err (AEVerify errors)
  end.
End admission.

(** ** Operations *)

Inductive GuardTrigger :=
| GTTimer (spec : TimerSpec)
| GTError (error_code : option string).

Record RegionBranch := mkBranch {
  rb_key : NodeKey;
  rb_node : IRNode;
  rb_in_edge_id : string;
  rb_out_edge_id : string;
  rb_condition : option ConditionExpr;
}.

Inductive Operation :=
| InsertAfter (anchor key : NodeKey) (node : IRNode) (edge_id : string)
| InsertBefore (anchor key : NodeKey) (node : IRNode) (edge_id : string)
| AppendNode (anchor key : NodeKey) (node : IRNode) (edge_id : string)
| ReplaceNode (target key : NodeKey) (node : IRNode)
| Connect (from to : NodeKey) (edge_id : string) (condition : option ConditionExpr)
| DeleteNode (target : NodeKey)
| AttachGuard (host key : NodeKey) (guard_id : string) (trigger : GuardTrigger)
| AttachRearmingGuard (host key : NodeKey) (guard_id : string) (trigger : GuardTrigger)
| SetGuardTrigger (guard : NodeKey) (trigger : GuardTrigger)
| SetGuardBudget (guard : NodeKey) (failure_budget : option N)
| SetCorrelationSource (node : NodeKey) (corr_key_source : string)
| CreateParallelRegion (anchor fork_key : NodeKey) (fork_node_id : string) (join_key : NodeKey)
    (join_node_id entry_edge_id : string) (branches : list RegionBranch)
| CreateInclusiveRegion (anchor fork_key : NodeKey) (fork_node_id : string) (join_key : NodeKey)
    (join_node_id entry_edge_id : string) (branches : list RegionBranch)
| CreateMultiInstanceRegion (anchor key : NodeKey) (node : IRNode) (edge_id : string)
| CreateBranch (gateway target : NodeKey) (edge_id : string) (condition : option ConditionExpr).

Record StagedCandidate := mkStaged {
  sc_candidate : DesignerDag;
  sc_applied : Operation;
  sc_provenance : Provenance;
}.

Section ops.
Context {PD : PetDesigner}.
Variable provenance : Provenance.

Definition plain_edge (id : string) (condition : option ConditionExpr) : DesignerEdge :=
  mkDesignerEdge id condition provenance.

(** Detaching the edges to a list of successors, or from a list of
    predecessors; the other ends are kept with the edges. *)
Fixpoint detach_out (anchor : NodeKey) (targets : list NodeKey) (d : DesignerDag)
  : Result DagError (list (NodeKey * DesignerEdge) * DesignerDag) :=
  match targets with
  | [] => Ok ([], d)
  | target :: targets' =>
      '(e, d) ← remove_edge_between anchor target d;
      '(es, d) ← detach_out anchor targets' d;
      Ok ((target, e) :: es, d)
  end.
Fixpoint detach_in (sources : list NodeKey) (anchor : NodeKey) (d : DesignerDag)
  : Result DagError (list (NodeKey * DesignerEdge) * DesignerDag) :=
  match sources with
  | [] => Ok ([], d)
  | source :: sources' =>
      '(e, d) ← remove_edge_between source anchor d;
      '(es, d) ← detach_in sources' anchor d;
      Ok ((source, e) :: es, d)
  end.
Definition attach_out (key : NodeKey) (es : list (NodeKey * DesignerEdge)) (d : DesignerDag)
  : Result DagError DesignerDag :=
  try_fold (λ d (te : NodeKey * DesignerEdge), insert_edge key te.1 te.2 d) d es.
Definition attach_in (key : NodeKey) (es : list (NodeKey * DesignerEdge)) (d : DesignerDag)
  : Result DagError DesignerDag :=
  try_fold (λ d (se : NodeKey * DesignerEdge), insert_edge se.1 key se.2 d) d es.

(** The body of [InsertAfter] and of [CreateMultiInstanceRegion]. *)
Definition insert_after (anchor key : NodeKey) (n : IRNode) (edge_id : string) (d : DesignerDag)
  : Result DagError DesignerDag :=
  '(reattach, d) ← detach_out anchor (successors d anchor) d;
  d ← insert_node key n None provenance d;
  d ← insert_edge anchor key (plain_edge edge_id None) d;
  attach_out key reattach d.
Definition insert_before (anchor key : NodeKey) (n : IRNode) (edge_id : string) (d : DesignerDag)
  : Result DagError DesignerDag :=
  '(reattach, d) ← detach_in (predecessors d anchor) anchor d;
  d ← insert_node key n None provenance d;
  d ← insert_edge key anchor (plain_edge edge_id None) d;
  attach_in key reattach d.

Definition append_node (anchor key : NodeKey) (n : IRNode) (edge_id : string) (d : DesignerDag)
  : Result DagError DesignerDag :=
  _ ← ensure (bool_decide (successors d anchor = [])) (AppendRefused anchor);
  d ← insert_node key n None provenance d;
  insert_edge anchor key (plain_edge edge_id None) d.

Definition connect (from to : NodeKey) (edge_id : string) (condition : option ConditionExpr)
    (d : DesignerDag) : Result DagError DesignerDag :=
  from_idx ← ok_or (ConnectUnknown from) (dd_key_index d !! from);
  to_idx ← ok_or (ConnectUnknown to) (dd_key_index d !! to);
  _ ← ensure (negb (pd_has_path_connecting (dd_graph d) to_idx from_idx))
        (ConnectCycle from (node_label d from) to (node_label d to));
  insert_edge from to (plain_edge edge_id condition) d.

Definition replace_node (target key : NodeKey) (n : IRNode) (d : DesignerDag)
  : Result DagError DesignerDag :=
  _ ← ensure (bool_decide (is_Some (node d target))) (ReplaceUnknown target);
  let dependents := nodes_attached_to d target in
  _ ← ensure (bool_decide (dependents = []))
        (ReplaceGuarded (node_label d target) target (node_label d <$> dependents));
  '(incoming, d) ← detach_in (predecessors d target) target d;
  '(outgoing, d) ← detach_out target (successors d target) d;
  d ← remove_node target d;
  d ← insert_node key n None provenance d;
  d ← attach_in key incoming d;
  attach_out key outgoing d.

Definition delete_node (target : NodeKey) (d : DesignerDag) : Result DagError DesignerDag :=
  let dependents := nodes_attached_to d target in
  _ ← ensure (bool_decide (dependents = []))
        (DeleteGuarded (node_label d target) target (node_label d <$> dependents));
  remove_node target d.

Definition attach_guard (host key : NodeKey) (guard_id : string) (trigger : GuardTrigger)
    (d : DesignerDag) : Result DagError DesignerDag :=
  host_id ← ok_or (AttachUnknownHost guard_id host) (node_label d host);
  ir ← match trigger with
       | GTTimer spec =>
           _ ← ensure (negb (is_cycle spec)) (AttachCycle guard_id);
           Ok (NBoundaryTimer guard_id host_id spec true None)
       | GTError error_code => Ok (NBoundaryError guard_id host_id error_code None)
       end;
  insert_node key ir (Some host) provenance d.
Definition attach_rearming_guard (host key : NodeKey) (guard_id : string) (trigger : GuardTrigger)
    (d : DesignerDag) : Result DagError DesignerDag :=
  host_id ← ok_or (AttachUnknownHost guard_id host) (node_label d host);
  ir ← match trigger with
       | GTTimer spec => Ok (NBoundaryTimer guard_id host_id spec false None)
       | GTError _ => Err (RearmError guard_id)
       end;
  insert_node key ir (Some host) provenance d.

Definition set_guard_trigger (guard : NodeKey) (trigger : GuardTrigger) (d : DesignerDag)
  : Result DagError DesignerDag :=
  n ← ok_or (GuardUnknown guard) (node d guard);
  let label := node_id (dn_ir n) in
  match dn_ir n with
  | NBoundaryTimer id host _ interrupting failure_budget =>
      match trigger with
      | GTTimer spec =>
          _ ← ensure (negb (interrupting && is_cycle spec)) (InterruptingCycle label);
          Ok (set_node_ir guard (NBoundaryTimer id host spec interrupting failure_budget) d)
      | GTError _ => Err (TimerToError label)
      end
  | NBoundaryError id host _ failure_budget =>
      match trigger with
      | GTError error_code => Ok (set_node_ir guard (NBoundaryError id host error_code failure_budget) d)
      | GTTimer _ => Err (ErrorToTimer label)
      end
  | _ => Err (NotAGuard label guard)
  end.

Definition set_guard_budget (guard : NodeKey) (failure_budget : option N) (d : DesignerDag)
  : Result DagError DesignerDag :=
  n ← ok_or (GuardUnknown guard) (node d guard);
  match dn_ir n with
  | NBoundaryTimer id host spec interrupting _ =>
      Ok (set_node_ir guard (NBoundaryTimer id host spec interrupting failure_budget) d)
  | NBoundaryError id host error_code _ =>
      Ok (set_node_ir guard (NBoundaryError id host error_code failure_budget) d)
  | ir => Err (NotAGuard (node_id ir) guard)
  end.

Definition set_correlation_source (target : NodeKey) (new_source : string) (d : DesignerDag)
  : Result DagError DesignerDag :=
  n ← ok_or (CorrelationUnknown target) (node d target);
  match dn_ir n with
  | NMessageWait id name _ => Ok (set_node_ir target (NMessageWait id name new_source) d)
  | NHumanWait id name kind _ => Ok (set_node_ir target (NHumanWait id name kind new_source) d)
  | NSendTask id name message _ => Ok (set_node_ir target (NSendTask id name message new_source) d)
  | ir => Err (NotACarrier (node_id ir) target)
  end.

Definition region_branch (fork_key join_key : NodeKey) (d : DesignerDag) (b : RegionBranch)
  : Result DagError DesignerDag :=
  d ← insert_node (rb_key b) (rb_node b) None provenance d;
  d ← insert_edge fork_key (rb_key b) (plain_edge (rb_in_edge_id b) (rb_condition b)) d;
  insert_edge (rb_key b) join_key (plain_edge (rb_out_edge_id b) None) d.
Definition construct_region (anchor fork_key : NodeKey) (fork_node : IRNode) (join_key : NodeKey)
    (join_node : IRNode) (entry_edge_id : string) (branches : list RegionBranch) (d : DesignerDag)
  : Result DagError DesignerDag :=
  '(reattach, d) ← detach_out anchor (successors d anchor) d;
  d ← insert_node fork_key fork_node None provenance d;
  d ← insert_edge anchor fork_key (plain_edge entry_edge_id None) d;
  d ← insert_node join_key join_node None provenance d;
  d ← try_fold (region_branch fork_key join_key) d branches;
  attach_out join_key reattach d.

Definition create_parallel_region (anchor fork_key : NodeKey) (fork_id : string) (join_key : NodeKey)
    (join_id entry_edge_id : string) (branches : list RegionBranch) (d : DesignerDag)
  : Result DagError DesignerDag :=
  _ ← ensure (2 <=? length branches)%nat (TooFewBranches anchor (length branches));
  _ ← try_for_each (λ b, ensure (bool_decide (rb_condition b = None))
         (ParallelConditioned (node_id (rb_node b)))) branches;
  construct_region anchor fork_key (NGatewayAnd fork_id fork_id Diverging) join_key
    (NGatewayAnd join_id join_id Converging) entry_edge_id branches d.
Definition create_inclusive_region (anchor fork_key : NodeKey) (fork_id : string) (join_key : NodeKey)
    (join_id entry_edge_id : string) (branches : list RegionBranch) (d : DesignerDag)
  : Result DagError DesignerDag :=
  _ ← ensure (2 <=? length branches)%nat (TooFewBranches anchor (length branches));
  _ ← try_for_each (λ b, ensure (bool_decide (rb_condition b ≠ None))
         (InclusiveUnconditioned (node_id (rb_node b)))) branches;
  construct_region anchor fork_key (NGatewayInclusive fork_id fork_id Diverging) join_key
    (NGatewayInclusive join_id join_id Converging) entry_edge_id branches d.

Definition is_multi_instance (n : IRNode) : bool :=
  match n with NMultiInstance _ _ _ _ _ => true | _ => false end.
Definition create_multi_instance_region (anchor key : NodeKey) (n : IRNode) (edge_id : string)
    (d : DesignerDag) : Result DagError DesignerDag :=
  _ ← ensure (is_multi_instance n) (NotMultiInstance (node_id n));
  insert_after anchor key n edge_id d.

Definition create_branch (gateway target : NodeKey) (edge_id : string)
    (condition : option ConditionExpr) (d : DesignerDag) : Result DagError DesignerDag :=
  n ← ok_or (BranchUnknown gateway) (node d gateway);
  gateway_id ← match dn_ir n with
               | NGatewayXor id _ => Ok id
               | ir => Err (BranchNotXor (node_id ir) gateway)
               end;
  target_id ← ok_or (BranchUnknown target) (node_label d target);
  from_idx ← ok_or (DPanic "resolved above") (dd_key_index d !! gateway);
  to_idx ← ok_or (DPanic "resolved above") (dd_key_index d !! target);
  _ ← ensure (negb (pd_has_path_connecting (dd_graph d) to_idx from_idx))
        (BranchCycle gateway gateway_id target target_id);
  insert_edge gateway target (plain_edge edge_id condition) d.

Definition apply_op (op : Operation) : DesignerDag -> Result DagError DesignerDag :=
  match op with
  | InsertAfter anchor key n edge_id => insert_after anchor key n edge_id
  | InsertBefore anchor key n edge_id => insert_before anchor key n edge_id
  | AppendNode anchor key n edge_id => append_node anchor key n edge_id
  | ReplaceNode target key n => replace_node target key n
  | Connect from to edge_id condition => connect from to edge_id condition
  | DeleteNode target => delete_node target
  | AttachGuard host key guard_id trigger => attach_guard host key guard_id trigger
  | AttachRearmingGuard host key guard_id trigger => attach_rearming_guard host key guard_id trigger
  | SetGuardTrigger guard trigger => set_guard_trigger guard trigger
  | SetGuardBudget guard budget => set_guard_budget guard budget
  | SetCorrelationSource target source => set_correlation_source target source
  | CreateParallelRegion anchor fork_key fork_id join_key join_id entry branches =>
      create_parallel_region anchor fork_key fork_id join_key join_id entry branches
  | CreateInclusiveRegion anchor fork_key fork_id join_key join_id entry branches =>
      create_inclusive_region anchor fork_key fork_id join_key join_id entry branches
  | CreateMultiInstanceRegion anchor key n edge_id => create_multi_instance_region anchor key n edge_id
  | CreateBranch gateway target edge_id condition => create_branch gateway target edge_id condition
  end.

(** [apply]: on a clone of the base. *)
Definition apply_operation (base : DesignerDag) (op : Operation) : Result DagError StagedCandidate :=
  candidate ← apply_op op base;
  Ok (mkStaged candidate op provenance).

(** [apply_production]: the operations folded over one candidate. *)
Fixpoint fold_operations (candidate : DesignerDag) (last : option Operation) (ops : list Operation)
  : Result DagError (DesignerDag * option Operation) :=
  match ops with
  | [] => Ok (candidate, last)
  | op :: ops' =>
      staged ← apply_operation candidate op;
      fold_operations (sc_candidate staged) (Some (sc_applied staged)) ops'
  end.
Definition apply_production (base : DesignerDag) (ops : list Operation)
  : Result DagError StagedCandidate :=
  _ ← ensure (negb (bool_decide (length ops = 0))) EmptyProduction;
  '(candidate, last) ← fold_operations base None ops;
  applied ← ok_or (DPanic "non-empty ops checked above") last;
  Ok (mkStaged candidate applied provenance).
End ops.

(** ** Productions *)

Record RequestAndWaitBindings := mkRequestAndWait {
  rw_anchor : NodeKey;
  rw_send_key : NodeKey; rw_send_node : IRNode; rw_send_edge_id : string;
  rw_wait_key : NodeKey; rw_wait_node : IRNode; rw_wait_edge_id : string;
}.
Definition request_and_wait (b : RequestAndWaitBindings) : list Operation :=
  [InsertAfter (rw_anchor b) (rw_send_key b) (rw_send_node b) (rw_send_edge_id b);
   InsertAfter (rw_send_key b) (rw_wait_key b) (rw_wait_node b) (rw_wait_edge_id b)].

Record ReminderThenEscalateBindings := mkReminder {
  re_anchor : NodeKey; re_guard_key : NodeKey; re_guard_id : string; re_cycle : TimerSpec;
  re_escalation_key : NodeKey; re_escalation_node : IRNode; re_escalation_edge_id : string;
  re_escalation_end_key : NodeKey; re_escalation_end_node : IRNode; re_escalation_end_edge_id : string;
}.
Definition reminder_then_escalate (b : ReminderThenEscalateBindings) : list Operation :=
  [AttachRearmingGuard (re_anchor b) (re_guard_key b) (re_guard_id b) (GTTimer (re_cycle b));
   AppendNode (re_guard_key b) (re_escalation_key b) (re_escalation_node b) (re_escalation_edge_id b);
   AppendNode (re_escalation_key b) (re_escalation_end_key b) (re_escalation_end_node b)
     (re_escalation_end_edge_id b)].

Record InterruptingTimeoutBindings := mkTimeout {
  it_anchor : NodeKey; it_guard_key : NodeKey; it_guard_id : string; it_duration_ms : N;
  it_continuation_key : NodeKey; it_continuation_node : IRNode; it_continuation_edge_id : string;
  it_continuation_end_key : NodeKey; it_continuation_end_node : IRNode;
  it_continuation_end_edge_id : string;
}.
Definition interrupting_timeout (b : InterruptingTimeoutBindings) : list Operation :=
  [AttachGuard (it_anchor b) (it_guard_key b) (it_guard_id b) (GTTimer (TSDuration (it_duration_ms b)));
   AppendNode (it_guard_key b) (it_continuation_key b) (it_continuation_node b)
     (it_continuation_edge_id b);
   AppendNode (it_continuation_key b) (it_continuation_end_key b) (it_continuation_end_node b)
     (it_continuation_end_edge_id b)].

Record NonInterruptingNotificationBindings := mkNotification {
  nn_anchor : NodeKey; nn_guard_key : NodeKey; nn_guard_id : string;
  nn_interval_ms : N; nn_max_fires : N;
  nn_notification_key : NodeKey; nn_notification_node : IRNode; nn_notification_edge_id : string;
  nn_notification_end_key : NodeKey; nn_notification_end_node : IRNode;
  nn_notification_end_edge_id : string;
}.
Definition non_interrupting_notification (b : NonInterruptingNotificationBindings) : list Operation :=
  [AttachRearmingGuard (nn_anchor b) (nn_guard_key b) (nn_guard_id b)
     (GTTimer (TSCycle (nn_interval_ms b) (nn_max_fires b)));
   AppendNode (nn_guard_key b) (nn_notification_key b) (nn_notification_node b)
     (nn_notification_edge_id b);
   AppendNode (nn_notification_key b) (nn_notification_end_key b) (nn_notification_end_node b)
     (nn_notification_end_edge_id b)].

(** ** Candidates *)

Inductive OperationKind :=
| OKAppendNode | OKInsertBefore | OKInsertAfter | OKReplaceNode | OKConnect | OKCreateBranch
| OKCreateRace | OKCreateParallelRegion | OKCloseParallelRegion | OKCreateInclusiveRegion
| OKCreateMultiInstanceRegion | OKAttachGuard | OKAttachRearmingGuard | OKAttachRollbackGuard
| OKSetGuardTrigger | OKSetGuardBudget | OKSetCorrelationSource | OKCallSubprocess | OKDeleteSubgraph.
Global Instance OperationKind_eq_dec : EqDecision OperationKind.
Proof. solve_decision. Defined.

Definition ALL_OPERATIONS : list OperationKind :=
  [OKAppendNode; OKInsertBefore; OKInsertAfter; OKReplaceNode; OKConnect; OKCreateBranch;
   OKCreateRace; OKCreateParallelRegion; OKCloseParallelRegion; OKCreateInclusiveRegion;
   OKCreateMultiInstanceRegion; OKAttachGuard; OKAttachRearmingGuard; OKAttachRollbackGuard;
   OKSetGuardTrigger; OKSetGuardBudget; OKSetCorrelationSource; OKCallSubprocess; OKDeleteSubgraph].

Inductive ProductionId :=
| PIRequestAndWait | PITimerMessageRace | PIReminderThenEscalate | PIInterruptingTimeout
| PINonInterruptingNotification | PIHumanReviewWithRework | PICallDurableSubprocess.
Global Instance ProductionId_eq_dec : EqDecision ProductionId.
Proof. solve_decision. Defined.

Definition ALL_PRODUCTIONS : list ProductionId :=
  [PIRequestAndWait; PITimerMessageRace; PIReminderThenEscalate; PIInterruptingTimeout;
   PINonInterruptingNotification; PIHumanReviewWithRework; PICallDurableSubprocess].

Definition operation_canonical_id (op : OperationKind) : string :=
  match op with
  | OKAppendNode => "op.append_node"
  | OKInsertBefore => "op.insert_before"
  | OKInsertAfter => "op.insert_after"
  | OKReplaceNode => "op.replace_node"
  | OKConnect => "op.connect"
  | OKCreateBranch => "op.create_branch"
  | OKCreateRace => "op.create_race"
  | OKCreateParallelRegion => "op.create_parallel_region"
  | OKCloseParallelRegion => "op.close_parallel_region"
  | OKCreateInclusiveRegion => "op.create_inclusive_region"
  | OKCreateMultiInstanceRegion => "op.create_multi_instance_region"
  | OKAttachGuard => "op.attach_guard"
  | OKAttachRearmingGuard => "op.attach_rearming_guard"
  | OKAttachRollbackGuard => "op.attach_rollback_guard"
  | OKSetGuardTrigger => "op.set_guard_trigger"
  | OKSetGuardBudget => "op.set_guard_budget"
  | OKSetCorrelationSource => "op.set_correlation_source"
  | OKCallSubprocess => "op.call_subprocess"
  | OKDeleteSubgraph => "op.delete_subgraph"
  end.
Definition production_canonical_id (p : ProductionId) : string :=
  match p with
  | PIRequestAndWait => "prod.request_and_wait"
  | PITimerMessageRace => "prod.timer_message_race"
  | PIReminderThenEscalate => "prod.reminder_then_escalate"
  | PIInterruptingTimeout => "prod.interrupting_timeout"
  | PINonInterruptingNotification => "prod.non_interrupting_notification"
  | PIHumanReviewWithRework => "prod.human_review_with_rework"
  | PICallDurableSubprocess => "prod.call_durable_subprocess"
  end.

Definition operation_description (op : OperationKind) : string :=
  match op with
  | OKAppendNode => "Append a new node after the current end of a sequence"
  | OKInsertBefore => "Insert a new node before the anchor node"
  | OKInsertAfter => "Places a node on an existing route, after the selected node"
  | OKReplaceNode => "Replace the anchor node, preserving its connections"
  | OKConnect => "Joins two existing nodes with a typed connector"
  | OKCreateBranch => "Adds a new outgoing route with its own outcome key"
  | OKCreateRace => "Create a first-wins race over declared arms"
  | OKCreateParallelRegion => "Open a parallel fork/join region"
  | OKCloseParallelRegion => "Close an open parallel region at its join"
  | OKCreateInclusiveRegion => "Open an inclusive (conditional multi-branch) region"
  | OKCreateMultiInstanceRegion => "Create a per-element multi-instance region over a bounded collection with a declared maximum"
  | OKAttachGuard => "Attach an interrupting boundary guard to the anchor"
  | OKAttachRearmingGuard => "Attach a non-interrupting (re-arming) boundary guard to the anchor"
  | OKAttachRollbackGuard => "Attach an interrupting rollback guard (data restored to scope open) to the anchor"
  | OKSetGuardTrigger => "Set a guard's arming trigger (timer duration or bounded cycle)"
  | OKSetGuardBudget => "Set a guard's failure budget (overrides the workflow default)"
  | OKSetCorrelationSource => "Set a wait node's message correlation source expression"
  | OKCallSubprocess => "Call a published durable subprocess by pinned reference"
  | OKDeleteSubgraph => "Delete the anchor node or a complete enclosed region"
  end.
Definition production_description (p : ProductionId) : string :=
  match p with
  | PIRequestAndWait => "Send a request and wait for its correlated response"
  | PITimerMessageRace => "Race a message arrival against a timer deadline"
  | PIReminderThenEscalate => "Non-interrupting bounded reminder cycle with an escalation continuation"
  | PIInterruptingTimeout => "Interrupting timeout guard around the anchored work"
  | PINonInterruptingNotification => "Fire a notification on a schedule without interrupting the work"
  | PIHumanReviewWithRework => "Human review with bounded, attempt-counted forward rework"
  | PICallDurableSubprocess => "Invoke a durable subprocess and await its typed outcome"
  end.

Inductive CandidateId :=
| CIOperation (op : OperationKind)
| CIProduction (p : ProductionId)
| CIAbstain.

Definition candidate_canonical_id (id : CandidateId) : string :=
  match id with
  | CIOperation op => operation_canonical_id op
  | CIProduction p => production_canonical_id p
  | CIAbstain => "abstain.none_of_the_above"
  end.

Definition CANDIDATE_SCHEMA_VERSION : N := 3.

Record BoardCandidate := mkCandidate {
  bc_id : CandidateId;
  bc_canonical_id : string;
  bc_description : string;
  bc_schema_version : N;
}.
Definition BoardCandidate_new (id : CandidateId) : BoardCandidate :=
  let description := match id with
                     | CIOperation op => operation_description op
                     | CIProduction p => production_description p
                     | CIAbstain => "None of the available options matches this request"
                     end in
  mkCandidate id (candidate_canonical_id id) description CANDIDATE_SCHEMA_VERSION.

(** ** Positional legality *)

Definition is_task_host (ir : IRNode) : bool :=
  match ir with NServiceTask _ _ _ | NFfiServiceTask _ _ _ _ _ => true | _ => false end.
Definition is_guard_host (ir : IRNode) : bool :=
  is_task_host ir || match ir with NMessageWait _ _ _ | NHumanWait _ _ _ _ => true | _ => false end.
Definition is_guard (ir : IRNode) : bool :=
  match ir with NBoundaryTimer _ _ _ _ _ | NBoundaryError _ _ _ _ => true | _ => false end.
Definition is_corr_carrier (ir : IRNode) : bool :=
  match ir with NMessageWait _ _ _ | NHumanWait _ _ _ _ | NSendTask _ _ _ _ => true | _ => false end.
Definition is_flow (ir : IRNode) : bool :=
  negb (match ir with NDataObject _ _ _ _ => true | _ => false end) && negb (is_guard ir).
Definition is_xor (ir : IRNode) : bool :=
  match ir with NGatewayXor _ _ => true | _ => false end.

Section positional.
Context {PD : PetDesigner}.
Variable d : DesignerDag.
Notation g := (dd_graph d).

Definition has_forward_target (idx : nat) : bool :=
  existsb (λ other, bool_decide (other ≠ idx) &&
      match dg_nodes g !! other with
      | Some n => is_flow (dn_ir n) && negb (pd_has_path_connecting g other idx)
      | None => false
      end) (seq 0 (length (dg_nodes g))).

Definition when_ {A} (b : bool) (l : list A) : list A := if b then l else [].

(** What may be proposed at a node. *)
Definition ops_at (key : NodeKey) : list OperationKind :=
  match dd_key_index d !! key ≫= λ idx, (idx,.) <$> dg_nodes g !! idx with
  | None => []
  | Some (idx, n) =>
      let ir := dn_ir n in
      let has_outgoing := negb (bool_decide (length (pd_edges_out g idx) = 0)) in
      let guarded := negb (bool_decide (nodes_attached_to d key = [])) in
      when_ (is_flow ir)
        (when_ (negb (is_end_node ir))
           [OKInsertAfter; OKCreateParallelRegion; OKCreateInclusiveRegion; OKCreateMultiInstanceRegion] ++
         when_ (negb (is_start_node ir)) [OKInsertBefore] ++
         when_ (has_forward_target idx) [OKConnect]) ++
      when_ (negb has_outgoing && (is_flow ir && negb (is_end_node ir) || is_guard ir)) [OKAppendNode] ++
      when_ (negb guarded && negb (is_start_node ir))
        (OKDeleteSubgraph :: when_ (is_flow ir) [OKReplaceNode]) ++
      when_ (is_guard_host ir) [OKAttachGuard; OKAttachRearmingGuard] ++
      when_ (is_guard ir) [OKSetGuardTrigger; OKSetGuardBudget] ++
      when_ (is_corr_carrier ir) [OKSetCorrelationSource] ++
      when_ (is_xor ir && has_forward_target idx) [OKCreateBranch]
  end.

Definition prods_at (key : NodeKey) : list ProductionId :=
  match dd_key_index d !! key ≫= λ idx, dg_nodes g !! idx with
  | None => []
  | Some n =>
      let ir := dn_ir n in
      when_ (is_flow ir && negb (is_end_node ir)) [PIRequestAndWait] ++
      when_ (is_guard_host ir)
        [PIReminderThenEscalate; PIInterruptingTimeout; PINonInterruptingNotification]
  end.

Definition all_keys : list NodeKey := dn_key <$> dg_nodes g.

(** [sort] by the derived order, then [dedup]: the members of the list in the
    order of the declaration, each once. *)
Definition sort_dedup {A} `{EqDecision A} (all l : list A) : list A := filter (.∈ l) all.

Definition legal_operations (anchor : option NodeKey) : list OperationKind :=
  sort_dedup ALL_OPERATIONS (match anchor with
                             | Some k => ops_at k
                             | None => all_keys ≫= ops_at
                             end).
Definition legal_productions (anchor : option NodeKey) : list ProductionId :=
  sort_dedup ALL_PRODUCTIONS (match anchor with
                              | Some k => prods_at k
                              | None => all_keys ≫= prods_at
                              end).

(** [dedup_by]: of neighbours with the same id the first stays. *)
Fixpoint dedup_candidates (l : list BoardCandidate) : list BoardCandidate :=
  match l with
  | a :: l' =>
      match dedup_candidates l' with
      | b :: l'' => if decide (bc_canonical_id a = bc_canonical_id b) then a :: l'' else a :: b :: l''
      | [] => [a]
      end
  | [] => []
  end.

Definition candidate_le (a b : BoardCandidate) : Prop := String.le (bc_canonical_id a) (bc_canonical_id b).
Global Instance candidate_le_dec a b : Decision (candidate_le a b).
Proof. unfold candidate_le. apply _. Defined.

Definition legal_candidates (anchor : option NodeKey) : list BoardCandidate :=
  dedup_candidates (merge_sort candidate_le
    ((BoardCandidate_new ∘ CIOperation <$> legal_operations anchor) ++
     (BoardCandidate_new ∘ CIProduction <$> legal_productions anchor))).
End positional.
