(* ===== verification/DesignerTheorems.v ===== *)
(** * The designer's graph: invariants and properties

    The tables of a [DesignerDag] represent a graph on keys: the nodes, and the
    flows with the keys of their ends ([flows]).  Each mutator has its effect on
    that graph, whatever petgraph does to the indices; the operations are then
    reasoned about on keys, with a rank that every flow increases as the reason
    why the graph stays acyclic. *)

From S2P Require Import Prelude RustStr Json Types Platform Effects Transition Verifier Fixtures BpmnIr BpmnVerify BpmnLower BpmnTheorems DesignerDag.

Open Scope string_scope.
Open Scope list_scope.

(** ** The represented graph *)

Notation dnodes d := (dg_nodes (dd_graph d)).
Notation dedges d := (dg_edges (dd_graph d)).

Definition flow_of (nodes : list DesignerNode) (e : nat * nat * DesignerEdge)
  : option (NodeKey * NodeKey * DesignerEdge) :=
  let '(a, b, w) := e in
  na ← nodes !! a; nb ← nodes !! b; Some (dn_key na, dn_key nb, w).
Definition flows (d : DesignerDag) : list (NodeKey * NodeKey * DesignerEdge) :=
  omap (flow_of (dnodes d)) (dedges d).
Definition keys (d : DesignerDag) : list NodeKey := dn_key <$> dnodes d.
Definition ids (d : DesignerDag) : list string := (λ n, node_id (dn_ir n)) <$> dnodes d.
Definition flow_ids (d : DesignerDag) : list string := (λ f, de_id f.2) <$> flows d.

(** The tables agree. *)
Record rep (d : DesignerDag) : Prop := {
  rep_index k i : dd_key_index d !! k = Some i ↔ ∃ n, dnodes d !! i = Some n ∧ dn_key n = k;
  rep_wf : digraph_wf (dd_graph d);
  rep_ids : NoDup (ids d);
  rep_id_set id : id ∈ dd_bpmn_ids d ↔ id ∈ ids d;
  rep_flow_ids : NoDup (flow_ids d);
  rep_flow_set id : id ∈ dd_edge_ids d ↔ id ∈ flow_ids d;
}.

Section rep.
Variable d : DesignerDag.
Hypothesis Hrep : rep d.

Lemma known_spec k : known d k = true ↔ k ∈ keys d.
Proof.
  unfold known, keys. rewrite bool_decide_eq_true, list_elem_of_fmap. split.
  - intros [i (n & Hn & <-)%(rep_index _ Hrep)]. exists n. split; [done|]. by eapply list_elem_of_lookup_2.
  - intros (n & -> & [i Hi]%list_elem_of_lookup_1). exists i. apply (rep_index _ Hrep). eauto.
Qed.

Lemma index_known k : is_Some (dd_key_index d !! k) ↔ k ∈ keys d.
Proof. rewrite <- known_spec. unfold known. by rewrite bool_decide_eq_true. Qed.

Lemma keys_nodup : NoDup (keys d).
Proof.
  apply NoDup_alt. intros i j k Hi Hj. unfold keys in *.
  apply list_lookup_fmap_Some in Hi as (ni & -> & Hi). apply list_lookup_fmap_Some in Hj as (nj & Hk & Hj).
  assert (H1 : dd_key_index d !! dn_key ni = Some i) by (apply (rep_index _ Hrep); eauto).
  assert (H2 : dd_key_index d !! dn_key ni = Some j) by (apply (rep_index _ Hrep); eauto).
  congruence.
Qed.

Lemma node_inj i j ni nj :
  dnodes d !! i = Some ni -> dnodes d !! j = Some nj -> dn_key ni = dn_key nj -> i = j.
Proof.
  intros Hi Hj Hk.
  assert (H1 : dd_key_index d !! dn_key ni = Some i) by (apply (rep_index _ Hrep); eauto).
  assert (H2 : dd_key_index d !! dn_key ni = Some j) by (apply (rep_index _ Hrep); eauto).
  congruence.
Qed.

(** An edge and its flow. *)
Lemma flow_of_edge a b w : (a, b, w) ∈ dedges d ->
  ∃ na nb, dnodes d !! a = Some na ∧ dnodes d !! b = Some nb ∧
    flow_of (dnodes d) (a, b, w) = Some (dn_key na, dn_key nb, w).
Proof.
  intros [Ha Hb]%(rep_wf _ Hrep). apply lookup_lt_is_Some in Ha as [na Ha], Hb as [nb Hb].
  exists na, nb. unfold flow_of. by rewrite Ha, Hb.
Qed.

Lemma elem_of_flows k1 k2 w : (k1, k2, w) ∈ flows d ↔
  ∃ a b na nb, (a, b, w) ∈ dedges d ∧ dnodes d !! a = Some na ∧ dnodes d !! b = Some nb ∧
    dn_key na = k1 ∧ dn_key nb = k2.
Proof.
  unfold flows. rewrite list_elem_of_omap. split.
  - intros ([[a b] w'] & Hin & H). destruct (flow_of_edge _ _ _ Hin) as (na & nb & Ha & Hb & Hf).
    rewrite Hf in H. injection H as <- <- <-. exists a, b, na, nb. done.
  - intros (a & b & na & nb & Hin & Ha & Hb & <- & <-). exists (a, b, w). split; [done|].
    unfold flow_of. by rewrite Ha, Hb.
Qed.

Lemma flow_keys k1 k2 w : (k1, k2, w) ∈ flows d -> k1 ∈ keys d ∧ k2 ∈ keys d.
Proof.
  intros (a & b & na & nb & _ & Ha & Hb & <- & <-)%elem_of_flows.
  split; apply list_elem_of_fmap; [exists na|exists nb]; (split; [done|]); by eapply list_elem_of_lookup_2.
Qed.
End rep.

(** The flows of the edges, when every edge has one. *)
Lemma omap_flow_weights nodes es :
  (∀ e, e ∈ es -> is_Some (flow_of nodes e)) ->
  (omap (flow_of nodes) es).*2 = es.*2.
Proof.
  induction es as [|[[a b] w] es IH]; intros H; [done|]. cbn.
  destruct (H (a, b, w)) as [f Hf]; [set_solver|]. unfold flow_of in *.
  destruct (nodes !! a) as [na|]; [|done]. destruct (nodes !! b) as [nb|]; [|done].
  cbn in *. injection Hf as <-. cbn. f_equal. apply IH. set_solver.
Qed.

Lemma flow_of_mono nodes l e f : flow_of nodes e = Some f -> flow_of (nodes ++ l) e = Some f.
Proof.
  destruct e as [[a b] w]. unfold flow_of. intros (na & Ha & (nb & Hb & H)%bind_Some)%bind_Some.
  by rewrite !(lookup_app_l_Some _ _ _ _ Ha), !(lookup_app_l_Some _ _ _ _ Hb).
Qed.

Lemma omap_ext_in {A B} (f h : A -> option B) (l : list A) :
  (∀ x, x ∈ l -> f x = h x) -> omap f l = omap h l.
Proof.
  induction l as [|x l IH]; intros H; [done|]. cbn. rewrite (H x) by set_solver.
  destruct (h x); rewrite IH by set_solver; done.
Qed.

(** ** The mutators *)

Section insert.
Variables d d' : DesignerDag.
Hypothesis Hrep : rep d.

Lemma insert_node_inv key ir att prov : insert_node key ir att prov d = Ok d' ->
  key ∉ keys d ∧ node_id ir ∉ ids d ∧
  (∀ host, att = Some host -> host ∈ keys d ∧ is_boundary ir = true) ∧
  dnodes d' = dnodes d ++ [mkDesignerNode key ir att prov] ∧ dedges d' = dedges d ∧
  dd_key_index d' = <[key := length (dnodes d)]> (dd_key_index d) ∧
  dd_bpmn_ids d' = {[node_id ir]} ∪ dd_bpmn_ids d ∧ dd_edge_ids d' = dd_edge_ids d ∧
  dd_name d' = dd_name d ∧ dd_default_guard_budget d' = dd_default_guard_budget d.
Proof.
  unfold insert_node. intros H. apply bind_ok_inv in H as (? & Hk%ensure_ok & H).
  apply bind_ok_inv in H as (? & Hid%ensure_ok & H). apply bind_ok_inv in H as (? & Hatt & [= <-]). cbn.
  apply negb_true_iff in Hk. apply bool_decide_eq_true in Hid. split_and!; [| | |done..].
  - intros Hin%known_spec; [congruence|done].
  - by rewrite <- (rep_id_set _ Hrep).
  - intros host ->. apply bind_ok_inv in Hatt as (? & Hh%ensure_ok & Hb%ensure_ok).
    split; [by apply known_spec|done].
Qed.

Lemma insert_node_rep key ir att prov : insert_node key ir att prov d = Ok d' ->
  rep d' ∧ flows d' = flows d.
Proof.
  intros (Hk & Hid & _ & Hn & He & Hi & Hb & Hs & _)%insert_node_inv.
  assert (Hflows : flows d' = flows d).
  { unfold flows. rewrite He, Hn. apply omap_ext_in. intros [[a b] w] Hin.
    destruct (flow_of_edge d Hrep _ _ _ Hin) as (na & nb & _ & _ & Hf).
    rewrite Hf. by apply flow_of_mono. }
  split; [|done]. split.
  - intros k i. rewrite Hi, Hn, lookup_insert_Some. split.
    + intros [[<- <-]|[Hne (n & Hni & <-)%(rep_index _ Hrep)]].
      * eexists. rewrite list_lookup_middle by done. done.
      * exists n. split; [|done]. by apply lookup_app_l_Some.
    + intros (n & Hni & Hkey). apply lookup_snoc_Some in Hni as [[Hlt Hni]|[-> <-]].
      * right. split; [|by apply (rep_index _ Hrep); eauto]. intros ->. apply Hk. rewrite <- Hkey.
        apply list_elem_of_fmap. exists n. split; [done|]. by eapply list_elem_of_lookup_2.
      * left. by subst k.
  - intros a b w. rewrite He, Hn, length_app. intros [? ?]%(rep_wf _ Hrep). lia.
  - unfold ids. rewrite Hn, fmap_app. apply NoDup_app. split_and!.
    + apply (rep_ids _ Hrep).
    + intros x Hx ->%list_elem_of_singleton. done.
    + apply NoDup_singleton.
  - intros id. rewrite Hb, elem_of_union, elem_of_singleton, (rep_id_set _ Hrep). unfold ids.
    rewrite Hn, fmap_app, elem_of_app. cbn. rewrite list_elem_of_singleton. tauto.
  - unfold flow_ids. rewrite Hflows. apply (rep_flow_ids _ Hrep).
  - intros id. unfold flow_ids. rewrite Hs, Hflows. apply (rep_flow_set _ Hrep).
Qed.

Lemma insert_edge_inv from to e : insert_edge from to e d = Ok d' ->
  ∃ f t, dd_key_index d !! from = Some f ∧ dd_key_index d !! to = Some t ∧ de_id e ∉ flow_ids d ∧
  dnodes d' = dnodes d ∧ dedges d' = dedges d ++ [(f, t, e)] ∧ dd_key_index d' = dd_key_index d ∧
  dd_bpmn_ids d' = dd_bpmn_ids d ∧ dd_edge_ids d' = {[de_id e]} ∪ dd_edge_ids d ∧
  dd_name d' = dd_name d ∧ dd_default_guard_budget d' = dd_default_guard_budget d.
Proof.
  unfold insert_edge. intros H. apply bind_ok_inv in H as (? & Hid%ensure_ok & H).
  apply bind_ok_inv in H as (f & Hf%ok_or_ok & H). apply bind_ok_inv in H as (t & Ht%ok_or_ok & [= <-]).
  apply bool_decide_eq_true in Hid. rewrite (rep_flow_set _ Hrep) in Hid. exists f, t. by split_and!.
Qed.

Lemma insert_edge_rep from to e : insert_edge from to e d = Ok d' ->
  rep d' ∧ dnodes d' = dnodes d ∧ flows d' = flows d ++ [(from, to, e)] ∧
  from ∈ keys d ∧ to ∈ keys d ∧ de_id e ∉ flow_ids d.
Proof.
  intros (f & t & Hf & Ht & Hid & Hn & He & Hi & Hb & Hs & _)%insert_edge_inv.
  pose proof Hf as Hf'. pose proof Ht as Ht'.
  apply (rep_index _ Hrep) in Hf' as (nf & Hnf & <-), Ht' as (nt & Hnt & <-).
  assert (Hflows : flows d' = flows d ++ [(dn_key nf, dn_key nt, e)]).
  { unfold flows. rewrite He, Hn, omap_app. cbn. by rewrite Hnf, Hnt. }
  split; [|split_and!; [done|done|by apply index_known|by apply index_known|done]]. split.
  - intros k i. rewrite Hi, Hn. apply (rep_index _ Hrep).
  - intros a b w. rewrite He, Hn. intros [H%(rep_wf _ Hrep)|[= -> -> ->]%list_elem_of_singleton]%elem_of_app; [done|].
    split; by eapply lookup_lt_Some.
  - unfold ids. rewrite Hn. apply (rep_ids _ Hrep).
  - intros id. unfold ids. rewrite Hb, Hn. apply (rep_id_set _ Hrep).
  - unfold flow_ids. rewrite Hflows, fmap_app. apply NoDup_app. split_and!.
    + apply (rep_flow_ids _ Hrep).
    + intros x Hx ->%list_elem_of_singleton. done.
    + apply NoDup_singleton.
  - intros id. rewrite Hs, elem_of_union, elem_of_singleton, (rep_flow_set _ Hrep). unfold flow_ids.
    rewrite Hflows, fmap_app, elem_of_app. cbn. rewrite list_elem_of_singleton. tauto.
Qed.
End insert.

(** *** Removal by swapping in the last element *)

Section swap.
Context {A : Type} (l : list A) (i : nat) (x : A).
Hypothesis Hx : l !! i = Some x.

Lemma swap_remove_lookup j y : swap_remove i l !! j = Some y ↔
  j < pred (length l) ∧ l !! (if decide (j = i) then pred (length l) else j) = Some y.
Proof.
  pose proof (lookup_lt_Some _ _ _ Hx) as Hi. unfold swap_remove. rewrite last_lookup.
  destruct (l !! pred (length l)) as [z|] eqn:Ez; [|apply lookup_ge_None in Ez; lia].
  rewrite lookup_take_Some. destruct (decide (j = i)) as [->|Hne].
  - rewrite list_lookup_insert_eq by done. rewrite Ez. tauto.
  - rewrite list_lookup_insert_ne by done. tauto.
Qed.

Lemma swap_remove_perm : l ≡ₚ x :: swap_remove i l.
Proof.
  pose proof (lookup_lt_Some _ _ _ Hx) as Hi. unfold swap_remove. rewrite last_lookup.
  destruct (l !! pred (length l)) as [z|] eqn:Ez; [|apply lookup_ge_None in Ez; lia].
  assert (Hl : l = take (pred (length l)) l ++ [z]).
  { rewrite <- (take_S_r _ _ _ Ez). rewrite take_ge; [done|lia]. }
  rewrite take_insert. case_decide as Hlt.
  - assert (Hx' : take (pred (length l)) l !! i = Some x) by (rewrite lookup_take_lt; done).
    rewrite Hl at 1. rewrite insert_take_drop by (by eapply lookup_lt_Some).
    rewrite <- (take_drop_middle _ _ _ Hx') at 1. rewrite <- app_assoc. cbn. solve_Permutation.
  - assert (i = pred (length l)) as -> by lia. rewrite Ez in Hx. injection Hx as ->.
    rewrite Hl at 1. solve_Permutation.
Qed.
End swap.

Section remove.
Context {PD : PetDesigner} {HL : PetDesignerLaws PD}.
Variables d d' : DesignerDag.
Hypothesis Hrep : rep d.

Lemma remove_edge_rep from to e : remove_edge_between from to d = Ok (e, d') ->
  rep d' ∧ dnodes d' = dnodes d ∧ flows d ≡ₚ (from, to, e) :: flows d'.
Proof.
  unfold remove_edge_between. intros H. apply bind_ok_inv in H as (f & Hf%ok_or_ok & H).
  apply bind_ok_inv in H as (t & Ht%ok_or_ok & H). apply bind_ok_inv in H as (ei & Hei%ok_or_ok & H).
  pose proof (pd_find_edge_spec (dd_graph d) f t) as Hspec. rewrite Hei in Hspec. destruct Hspec as [w Hw].
  destruct (pd_remove_edge_spec _ _ _ _ _ Hw) as (es & Hrm & Hperm). rewrite Hrm in H. cbn in H.
  injection H as <- <-. pose proof Hf as Hf'. pose proof Ht as Ht'.
  apply (rep_index _ Hrep) in Hf' as (nf & Hnf & <-), Ht' as (nt & Hnt & <-).
  set (d' := mkDag _ _ _ _ _ _).
  assert (Hflows : flows d ≡ₚ (dn_key nf, dn_key nt, w) :: flows d').
  { unfold flows. rewrite Hperm. cbn. by rewrite Hnf, Hnt. }
  split; [|done]. assert (Hids : flow_ids d ≡ₚ de_id w :: flow_ids d') by (unfold flow_ids; by rewrite Hflows).
  pose proof (rep_flow_ids _ Hrep) as Hnd. rewrite Hids in Hnd. apply NoDup_cons in Hnd as [Hw' Hnd]. split.
  - apply (rep_index _ Hrep).
  - intros a b w' Hin. apply (rep_wf _ Hrep a b w'). rewrite Hperm. set_solver.
  - apply (rep_ids _ Hrep).
  - apply (rep_id_set _ Hrep).
  - done.
  - intros id. cbn. rewrite elem_of_difference, elem_of_singleton, (rep_flow_set _ Hrep), Hids, elem_of_cons.
    split; [naive_solver|]. intros Hin. split; [by right|]. by intros ->.
Qed.

Lemma remove_edge_ok from to e : (from, to, e) ∈ flows d ->
  ∃ r, remove_edge_between from to d = Ok r.
Proof.
  intros (a & b & na & nb & Hin & Ha & Hb & <- & <-)%elem_of_flows; [|done]. unfold remove_edge_between.
  assert (Hka : dd_key_index d !! dn_key na = Some a) by (apply (rep_index _ Hrep); eauto).
  assert (Hkb : dd_key_index d !! dn_key nb = Some b) by (apply (rep_index _ Hrep); eauto).
  rewrite Hka, Hkb. cbn. pose proof (pd_find_edge_spec (dd_graph d) a b) as Hspec.
  destruct (pd_find_edge (dd_graph d) a b) as [ei|]; [|by destruct (Hspec e)]. destruct Hspec as [w Hw].
  destruct (pd_remove_edge_spec _ _ _ _ _ Hw) as (es & Hrm & _). cbn. rewrite Hrm. by eexists.
Qed.

(** A payload with the id of the one it replaces. *)
Lemma set_node_ir_rep key ir n : node d key = Some n -> node_id ir = node_id (dn_ir n) ->
  rep (set_node_ir key ir d) ∧ flows (set_node_ir key ir d) = flows d ∧
  keys (set_node_ir key ir d) = keys d ∧
  dnodes (set_node_ir key ir d) = (λ m, if decide (dn_key m = key)
     then mkDesignerNode (dn_key m) ir (dn_attached_to_key m) (dn_provenance m) else m) <$> dnodes d.
Proof.
  unfold node. intros (i & Hi & Hn)%bind_Some Hid. unfold set_node_ir. rewrite Hi.
  set (f := λ n, mkDesignerNode _ _ _ _). set (h := λ m, if decide _ then _ else _).
  assert (Hkey : dn_key n = key).
  { pose proof Hi as (n' & Hn' & Hk)%(rep_index _ Hrep). congruence. }
  assert (Hnodes : alter f i (dnodes d) = h <$> dnodes d).
  { apply list_eq. intros j. rewrite list_lookup_fmap. destruct (decide (i = j)) as [<-|Hne].
    - rewrite list_lookup_alter_eq, Hn. cbn. unfold h. by rewrite decide_True.
    - rewrite list_lookup_alter_ne by done. destruct (dnodes d !! j) as [m|] eqn:Em; [|done]. cbn.
      unfold h. rewrite decide_False; [done|]. intros Hk. apply Hne.
      apply (node_inj d Hrep i j n m Hn Em). congruence. }
  assert (Hfst : ∀ j, dn_key <$> (h <$> dnodes d) !! j = dn_key <$> dnodes d !! j).
  { intros j. rewrite list_lookup_fmap. destruct (dnodes d !! j) as [m|]; [|done]. cbn. unfold h.
    by case_decide. }
  set (d1 := set_graph _ d).
  assert (Hd1 : dnodes d1 = h <$> dnodes d) by done.
  assert (Hflows : flows d1 = flows d).
  { unfold flows. rewrite Hd1. change (dedges d1) with (dedges d). apply omap_ext_in.
    intros [[a b] w] Hin. destruct (flow_of_edge d Hrep _ _ _ Hin) as (na & nb & Ha & Hb & ->).
    unfold flow_of. pose proof (Hfst a) as Ha'. pose proof (Hfst b) as Hb'. rewrite Ha in Ha'. rewrite Hb in Hb'.
    destruct ((h <$> dnodes d) !! a) as [na'|]; [|done]. destruct ((h <$> dnodes d) !! b) as [nb'|]; [|done].
    cbn in *. congruence. }
  assert (Hids : ids d1 = ids d).
  { unfold ids. rewrite Hd1, <- list_fmap_compose. apply list_fmap_ext. intros j m Hm. cbn. unfold h.
    case_decide as Hk; [|done]. cbn. rewrite Hid. assert (j = i) as ->; [|congruence].
    apply (node_inj d Hrep j i m n); congruence. }
  assert (Hkeys : keys d1 = keys d).
  { unfold keys. rewrite Hd1, <- list_fmap_compose. apply list_fmap_ext. intros j m Hm. cbn. unfold h. by case_decide. }
  split; [|done]. split.
  - intros k j. change (dd_key_index d1) with (dd_key_index d). rewrite (rep_index _ Hrep), Hd1.
    pose proof (Hfst j) as Hj. split.
    + intros (m & Hm & <-). rewrite Hm in Hj. destruct ((h <$> dnodes d) !! j) as [m'|]; [|done].
      exists m'. split; [done|]. cbn in Hj. congruence.
    + intros (m & Hm & <-). rewrite Hm in Hj. destruct (dnodes d !! j) as [m'|]; [|done].
      exists m'. split; [done|]. cbn in Hj. congruence.
  - intros a b w Hin. rewrite Hd1, length_fmap. by apply (rep_wf _ Hrep a b w).
  - rewrite Hids. apply (rep_ids _ Hrep).
  - rewrite Hids. apply (rep_id_set _ Hrep).
  - unfold flow_ids. rewrite Hflows. apply (rep_flow_ids _ Hrep).
  - unfold flow_ids. rewrite Hflows. apply (rep_flow_set _ Hrep).
Qed.
End remove.

Section remove_node.
Context {PD : PetDesigner} {HL : PetDesignerLaws PD}.
Variable d : DesignerDag.
Hypothesis Hrep : rep d.
Variables (idx : nat) (n : DesignerNode).
Hypothesis Hn : dnodes d !! idx = Some n.
Notation m := (pred (length (dnodes d))).
Notation nodes' := (swap_remove idx (dnodes d)).

Lemma moved_lookup a na : dnodes d !! a = Some na -> a ≠ idx ->
  nodes' !! moved idx (length (dnodes d)) a = Some na.
Proof.
  intros Ha Hne. pose proof (lookup_lt_Some _ _ _ Ha) as Hlt. pose proof (lookup_lt_Some _ _ _ Hn) as Hidx.
  rewrite (swap_remove_lookup _ _ _ Hn). unfold moved. case_decide as Hl.
  - subst a. rewrite decide_True by done. split; [lia|done].
  - rewrite decide_False by done. split; [lia|done].
Qed.

(** Flows away from the node, and their edges after the removal. *)
Definition away (f : NodeKey * NodeKey * DesignerEdge) : Prop := f.1.1 ≠ dn_key n ∧ f.1.2 ≠ dn_key n.
Global Instance away_dec f : Decision (away f).
Proof. unfold away. apply _. Defined.

Lemma without_node_flows (es : list (nat * nat * DesignerEdge)) : (∀ e, e ∈ es -> e ∈ dedges d) ->
  omap (flow_of nodes') (omap (without_node idx (length (dnodes d))) es) =
  filter away (omap (flow_of (dnodes d)) es).
Proof.
  induction es as [|[[a b] w] es IH]; intros Hin; [done|].
  assert (IH' := IH ltac:(set_solver)).
  destruct (flow_of_edge d Hrep a b w) as (na & nb & Ha & Hb & Hf); [set_solver|].
  assert (Hidx : ∀ j nj, dnodes d !! j = Some nj -> j = idx ↔ dn_key nj = dn_key n).
  { intros j nj Hj. split; [intros ->; congruence|]. intros Hk. by apply (node_inj d Hrep j idx nj n). }
  cbn [omap list_omap]. rewrite Hf. cbn [omap list_omap without_node]. case_decide as Hinc.
  - rewrite filter_cons_False; [done|]. rewrite (Hidx a na Ha), (Hidx b nb Hb) in Hinc.
    unfold away. cbn. naive_solver.
  - rewrite filter_cons_True; [|unfold away; cbn; rewrite <- (Hidx a na Ha), <- (Hidx b nb Hb); tauto].
    cbn [omap list_omap flow_of]. rewrite (moved_lookup a na Ha), (moved_lookup b nb Hb) by tauto. cbn.
    by rewrite IH'.
Qed.

(** The index after the removal. *)
Definition removed_index : gmap NodeKey nat :=
  let index := delete (dn_key n) (dd_key_index d) in
  if decide (m = idx) then index
  else match find_map (λ kv : NodeKey * nat, if decide (kv.2 = m) then Some kv.1 else None)
               (map_to_list index) with
       | Some moved_key => <[moved_key := idx]> index
       | None => index
       end.

Lemma removed_index_spec k j :
  removed_index !! k = Some j ↔ ∃ x, nodes' !! j = Some x ∧ dn_key x = k.
Proof.
  pose proof (lookup_lt_Some _ _ _ Hn) as Hidx.
  assert (Hback : (∃ x, nodes' !! j = Some x ∧ dn_key x = k) ↔
    ∃ a na, dnodes d !! a = Some na ∧ a ≠ idx ∧ dn_key na = k ∧ j = moved idx (length (dnodes d)) a).
  { split.
    - intros (x & [Hj Hx]%(swap_remove_lookup _ _ _ Hn) & <-). unfold moved. case_decide as Hd.
      + subst j. exists m, x. rewrite decide_True by done. split_and!; [done|lia|done|done].
      + exists j, x. rewrite decide_False by lia. done.
    - intros (a & na & Ha & Hne & <- & ->). exists na. split; [|done]. by apply moved_lookup. }
  rewrite Hback. clear Hback.
  assert (Hdel : ∀ k j, delete (dn_key n) (dd_key_index d) !! k = Some j ↔
    ∃ na, dnodes d !! j = Some na ∧ j ≠ idx ∧ dn_key na = k).
  { intros k' j'. rewrite lookup_delete_Some, (rep_index _ Hrep). split.
    - intros (Hne & na & Ha & <-). exists na. split_and!; [done| |done]. intros ->. congruence.
    - intros (na & Ha & Hne & <-). split; [|eauto]. intros Hk. apply Hne. by apply (node_inj d Hrep j' idx na n). }
  unfold removed_index. unfold moved. destruct (decide (m = idx)) as [Hm|Hm].
  - rewrite Hdel. split.
    + intros (na & Ha & Hne & <-). exists j, na. rewrite decide_False by (intros ->; done). done.
    + intros (a & na & Ha & Hne & <- & ->). exists na. rewrite decide_False by (intros ->; done). done.
  - assert (Hlast : is_Some (dnodes d !! m)) by (apply lookup_lt_is_Some; lia). destruct Hlast as [z Hz].
    assert (Hfind : find_map (λ kv : NodeKey * nat, if decide (kv.2 = m) then Some kv.1 else None)
       (map_to_list (delete (dn_key n) (dd_key_index d))) = Some (dn_key z)).
    { destruct (find_map _ _) as [k'|] eqn:Ef.
      - apply find_map_Some in Ef as (l1 & [k1 j1] & l2 & Heq & Hf & _). cbn in Hf. case_decide as Hj; [|done].
        injection Hf as ->. cbn in Hj. subst j1.
        assert (Hin : (k', m) ∈ map_to_list (delete (dn_key n) (dd_key_index d))) by (rewrite Heq; set_solver).
        apply elem_of_map_to_list, Hdel in Hin as (na & Ha & _ & <-). congruence.
      - rewrite find_map_None in Ef. specialize (Ef (dn_key z, m)). cbn in Ef. rewrite decide_True in Ef by done.
        discriminate Ef. apply elem_of_map_to_list, Hdel. exists z. split_and!; [done|lia|done]. }
    rewrite Hfind, lookup_insert_Some, Hdel. split.
    + intros [[<- <-]|(Hne & na & Ha & Hj & <-)].
      * exists m, z. rewrite decide_True by done. split_and!; [done|lia|done|done].
      * exists j, na. split_and!; [done|done|done|]. rewrite decide_False; [done|]. intros ->. congruence.
    + intros (a & na & Ha & Hne & <- & ->). destruct (decide (a = m)) as [->|Hd].
      * left. split; [congruence|done].
      * right. split; [|eauto]. intros Hk. apply Hd. by apply (node_inj d Hrep a m na z).
Qed.
End remove_node.

Section remove_node_rep.
Context {PD : PetDesigner} {HL : PetDesignerLaws PD}.
Variables d d' : DesignerDag.
Hypothesis Hrep : rep d.

Lemma elem_of_incident idx w :
  w ∈ (dg_out (dd_graph d) idx).*2 ++ (dg_in (dd_graph d) idx).*2 ↔
  ∃ a b, (a, b, w) ∈ dedges d ∧ (a = idx ∨ b = idx).
Proof.
  unfold dg_out, dg_in. rewrite elem_of_app, !list_elem_of_fmap. setoid_rewrite list_elem_of_omap. split.
  - intros [([x w'] & -> & [[a b] v] & Hin & H)|([x w'] & -> & [[a b] v] & Hin & H)]; case_decide; simplify_eq; eauto 8.
  - intros (a & b & Hin & [-> | ->]).
    + left. exists (b, w). split; [done|]. exists (idx, b, w). by rewrite decide_True.
    + right. exists (a, w). split; [done|]. exists (a, idx, w). by rewrite decide_True.
Qed.

Lemma remove_node_rep key : remove_node key d = Ok d' ->
  ∃ n, n ∈ dnodes d ∧ dn_key n = key ∧ rep d' ∧ dnodes d ≡ₚ n :: dnodes d' ∧
    flows d' ≡ₚ filter (away n) (flows d).
Proof.
  unfold remove_node. intros H. apply bind_ok_inv in H as (idx & Hidx%ok_or_ok & H).
  apply bind_ok_inv in H as (n & Hn%ok_or_ok & H).
  assert (Hk : dn_key n = key) by (pose proof Hidx as (n' & ? & ?)%(rep_index _ Hrep); congruence).
  subst key. exists n. split; [by eapply list_elem_of_lookup_2|]. split; [done|].
  destruct (pd_remove_node_spec (dd_graph d) idx) as [Hnodes Hedges]; [by eapply lookup_lt_Some|].
  injection H as <-. set (d' := mkDag _ _ _ _ _ _).
  assert (Hperm : dnodes d ≡ₚ n :: dnodes d') by (cbn; rewrite Hnodes; by apply swap_remove_perm).
  assert (Hflows : flows d' ≡ₚ filter (away n) (flows d)).
  { unfold flows. cbn. rewrite Hnodes, Hedges. rewrite (without_node_flows d Hrep idx n Hn); done. }
  split; [|done]. assert (Hids : ids d ≡ₚ node_id (dn_ir n) :: ids d') by (unfold ids; by rewrite Hperm).
  pose proof (rep_ids _ Hrep) as Hnd. rewrite Hids in Hnd. apply NoDup_cons in Hnd as [Hni Hnd]. split.
  - intros k j. cbn. rewrite Hnodes. apply (removed_index_spec d Hrep idx n Hn).
  - intros a b w. cbn. rewrite Hedges, Hnodes. intros Hin. apply list_elem_of_omap in Hin as ([[a0 b0] w0] & Hin & Hw).
    unfold without_node in Hw. case_decide as Hinc; [done|]. injection Hw as <- <- <-.
    destruct (flow_of_edge d Hrep _ _ _ Hin) as (na & nb & Ha & Hb & _).
    split; eapply lookup_lt_Some, (moved_lookup d idx n Hn); (done || tauto).
  - done.
  - intros id. cbn. rewrite elem_of_difference, elem_of_singleton, (rep_id_set _ Hrep), Hids, elem_of_cons.
    split; [naive_solver|]. intros Hin. split; [by right|]. by intros ->.
  - unfold flow_ids. rewrite Hflows. eapply sublist_NoDup; [apply (rep_flow_ids _ Hrep)|].
    unfold flow_ids. apply fmap_sublist, sublist_filter.
  - intros id. cbn. rewrite elem_of_difference, elem_of_list_to_set, (rep_flow_set _ Hrep).
    unfold flow_ids. rewrite Hflows. rewrite !list_elem_of_fmap.
    assert (Hfreed : id ∈ (de_id ∘ snd <$> pd_edges_out (dd_graph d) idx) ++
        (de_id ∘ snd <$> pd_edges_in (dd_graph d) idx) ↔
      ∃ a b w, (a, b, w) ∈ dedges d ∧ (a = idx ∨ b = idx) ∧ id = de_id w).
    { rewrite pd_edges_out_perm, pd_edges_in_perm, !list_fmap_compose, <- fmap_app, list_elem_of_fmap.
      setoid_rewrite elem_of_incident. naive_solver. }
    rewrite Hfreed. clear Hfreed.
    assert (Hat : ∀ j nj, dnodes d !! j = Some nj -> j = idx ↔ dn_key nj = dn_key n).
    { intros j nj Hj. split; [intros ->; congruence|]. intros Hk. by apply (node_inj d Hrep j idx nj n). }
    split.
    + intros [([[k1 k2] w] & -> & Hin) Hno]. exists (k1, k2, w). split; [done|].
      apply list_elem_of_filter. split; [|done].
      apply (elem_of_flows d Hrep) in Hin as (a & b & na & nb & Hin & Ha & Hb & <- & <-).
      unfold away. cbn. rewrite <- (Hat a na Ha), <- (Hat b nb Hb). split; intros ->; apply Hno; eauto 10.
    + intros ([[k1 k2] w] & -> & [Haw Hin]%list_elem_of_filter). split; [by exists (k1, k2, w)|].
      intros (a & b & w' & Hin' & Hinc & Heq).
      destruct (flow_of_edge d Hrep _ _ _ Hin') as (na & nb & Ha & Hb & Hf).
      assert (Hin2 : (dn_key na, dn_key nb, w') ∈ flows d) by (apply (elem_of_flows d Hrep); eauto 10).
      assert (Hsame : (k1, k2, w) = (dn_key na, dn_key nb, w')).
      { apply list_elem_of_lookup in Hin as [i Hi], Hin2 as [i' Hi'].
        assert (i = i') as <-; [|congruence].
        eapply (NoDup_lookup (flow_ids d)); [apply (rep_flow_ids _ Hrep)| |];
          unfold flow_ids; rewrite list_lookup_fmap, ?Hi, ?Hi'; cbn; [done|by rewrite <- Heq]. }
      injection Hsame as -> -> ->. destruct Haw as [Haw1 Haw2]. cbn in *.
      rewrite <- (Hat a na Ha) in Haw1. rewrite <- (Hat b nb Hb) in Haw2. tauto.
Qed.

Lemma remove_node_ok key : key ∈ keys d -> is_ok (remove_node key d) = true.
Proof.
  intros [idx Hidx]%(index_known d Hrep). unfold remove_node. rewrite Hidx. cbn.
  pose proof Hidx as (n & Hn & _)%(rep_index _ Hrep). rewrite Hn. done.
Qed.
End remove_node_rep.

(** ** Moving flows *)

(** The flows that leave [k] leave from [k'] instead; likewise those that enter. *)
Definition move_source (k k' : NodeKey) (f : NodeKey * NodeKey * DesignerEdge) :=
  let '(a, b, w) := f in (if decide (a = k) then k' else a, b, w).
Definition move_target (k k' : NodeKey) (f : NodeKey * NodeKey * DesignerEdge) :=
  let '(a, b, w) := f in (a, if decide (b = k) then k' else b, w).

Definition out_of (k : NodeKey) (es : list (NodeKey * DesignerEdge)) : list (NodeKey * NodeKey * DesignerEdge) :=
  (λ te, (k, te.1, te.2)) <$> es.
Definition into (k : NodeKey) (es : list (NodeKey * DesignerEdge)) : list (NodeKey * NodeKey * DesignerEdge) :=
  (λ se, (se.1, k, se.2)) <$> es.

Lemma filter_none {A} (P : A -> Prop) `{∀ x, Decision (P x)} (l : list A) :
  (∀ x, x ∈ l -> ¬ P x) -> filter P l = [].
Proof.
  induction l as [|x l IH]; intros Hl; [done|].
  rewrite filter_cons_False by (apply Hl; set_solver). apply IH. set_solver.
Qed.

Section detach.
Context {PD : PetDesigner} {HL : PetDesignerLaws PD}.

Lemma detach_out_spec anchor ts d es d' : rep d -> detach_out anchor ts d = Ok (es, d') ->
  rep d' ∧ dnodes d' = dnodes d ∧ flows d ≡ₚ out_of anchor es ++ flows d' ∧ es.*1 = ts.
Proof.
  revert d es d'. induction ts as [|t ts IH]; intros d es d' Hrep H; cbn in H.
  { injection H as <- <-. done. }
  apply bind_ok_inv in H as ([e d1] & H1 & H). apply bind_ok_inv in H as ([es1 d2] & H2 & [= <- <-]).
  destruct (remove_edge_rep d d1 Hrep _ _ _ H1) as (Hr1 & Hn1 & Hf1).
  destruct (IH d1 es1 d2 Hr1 H2) as (Hr2 & Hn2 & Hf2 & Hts). split_and!; [done|congruence| |].
  - rewrite Hf1, Hf2. done.
  - cbn. by rewrite Hts.
Qed.

Lemma detach_in_spec ss anchor d es d' : rep d -> detach_in ss anchor d = Ok (es, d') ->
  rep d' ∧ dnodes d' = dnodes d ∧ flows d ≡ₚ into anchor es ++ flows d' ∧ es.*1 = ss.
Proof.
  revert d es d'. induction ss as [|t ts IH]; intros d es d' Hrep H; cbn in H.
  { injection H as <- <-. done. }
  apply bind_ok_inv in H as ([e d1] & H1 & H). apply bind_ok_inv in H as ([es1 d2] & H2 & [= <- <-]).
  destruct (remove_edge_rep d d1 Hrep _ _ _ H1) as (Hr1 & Hn1 & Hf1).
  destruct (IH d1 es1 d2 Hr1 H2) as (Hr2 & Hn2 & Hf2 & Hts). split_and!; [done|congruence| |].
  - rewrite Hf1, Hf2. done.
  - cbn. by rewrite Hts.
Qed.

Lemma attach_out_spec key es d d' : rep d -> attach_out key es d = Ok d' ->
  rep d' ∧ dnodes d' = dnodes d ∧ flows d' = flows d ++ out_of key es.
Proof.
  unfold attach_out. revert d. induction es as [|[t e] es IH]; intros d Hrep H; cbn in H.
  { injection H as <-. by rewrite app_nil_r. }
  destruct (insert_edge key t e d) as [d1|] eqn:E; [|done].
  destruct (insert_edge_rep d d1 Hrep _ _ _ E) as (Hr1 & Hn1 & Hf1 & _).
  destruct (IH d1 Hr1 H) as (Hr2 & Hn2 & Hf2). split_and!; [done|congruence|].
  rewrite Hf2, Hf1, <- app_assoc. done.
Qed.

Lemma attach_in_spec key es d d' : rep d -> attach_in key es d = Ok d' ->
  rep d' ∧ dnodes d' = dnodes d ∧ flows d' = flows d ++ into key es.
Proof.
  unfold attach_in. revert d. induction es as [|[t e] es IH]; intros d Hrep H; cbn in H.
  { injection H as <-. by rewrite app_nil_r. }
  destruct (insert_edge t key e d) as [d1|] eqn:E; [|done].
  destruct (insert_edge_rep d d1 Hrep _ _ _ E) as (Hr1 & Hn1 & Hf1 & _).
  destruct (IH d1 Hr1 H) as (Hr2 & Hn2 & Hf2). split_and!; [done|congruence|].
  rewrite Hf2, Hf1, <- app_assoc. done.
Qed.

(** The keys at the far ends of a node's flows. *)
Lemma successors_spec d k : rep d ->
  successors d k ≡ₚ (λ f, f.1.2) <$> filter (λ f, f.1.1 = k) (flows d).
Proof.
  intros Hrep. unfold successors. destruct (dd_key_index d !! k) as [i|] eqn:Ei.
  - unfold endpoint_keys. rewrite pd_edges_out_perm. unfold dg_out, flows.
    pose proof Ei as (n & Hn & Hk)%(rep_index _ Hrep).
    assert (Hin : ∀ e, e ∈ dedges d -> e ∈ dedges d) by done. revert Hin. generalize (dedges d) at 1 3 4 as es.
    intros es. induction es as [|[[a b] w] es IH]; intros Hin; [done|].
    specialize (IH ltac:(set_solver)).
    destruct (flow_of_edge d Hrep a b w) as (na & nb & Ha & Hb & Hf); [set_solver|].
    cbn [omap list_omap]. rewrite Hf. case_decide as Hai.
    + subst a. rewrite filter_cons_True by (cbn; congruence). cbn. rewrite Hb. cbn. by rewrite IH.
    + rewrite filter_cons_False; [done|]. cbn. intros Hka. apply Hai.
      apply (node_inj d Hrep a i na n); congruence.
  - rewrite filter_none; [done|]. intros [[a b] w] Hf Hk. cbn in Hk. subst a.
    apply (flow_keys d Hrep) in Hf as [Hf _]. apply (index_known d Hrep) in Hf as [j Hj]. congruence.
Qed.
End detach.

Section detach_all.
Context {PD : PetDesigner} {HL : PetDesignerLaws PD}.

Lemma predecessors_spec d k : rep d ->
  predecessors d k ≡ₚ (λ f, f.1.1) <$> filter (λ f, f.1.2 = k) (flows d).
Proof.
  intros Hrep. unfold predecessors. destruct (dd_key_index d !! k) as [i|] eqn:Ei.
  - unfold endpoint_keys. rewrite pd_edges_in_perm. unfold dg_in, flows.
    pose proof Ei as (n & Hn & Hk)%(rep_index _ Hrep).
    assert (Hin : ∀ e, e ∈ dedges d -> e ∈ dedges d) by done. revert Hin. generalize (dedges d) at 1 3 4 as es.
    intros es. induction es as [|[[a b] w] es IH]; intros Hin; [done|].
    specialize (IH ltac:(set_solver)).
    destruct (flow_of_edge d Hrep a b w) as (na & nb & Ha & Hb & Hf); [set_solver|].
    cbn [omap list_omap]. rewrite Hf. case_decide as Hbi.
    + subst b. rewrite filter_cons_True by (cbn; congruence). cbn. rewrite Ha. cbn. by rewrite IH.
    + rewrite filter_cons_False; [done|]. cbn. intros Hkb. apply Hbi.
      apply (node_inj d Hrep b i nb n); congruence.
  - rewrite filter_none; [done|]. intros [[a b] w] Hf Hk. cbn in Hk. subst b.
    apply (flow_keys d Hrep) in Hf as [_ Hf]. apply (index_known d Hrep) in Hf as [j Hj]. congruence.
Qed.

(** A part that has all the elements with [P] leaves none. *)
Lemma filter_exhausted {A} (P : A -> Prop) `{∀ x, Decision (P x)} (l l1 l2 : list A) :
  l ≡ₚ l1 ++ l2 -> Forall P l1 -> length l1 = length (filter P l) -> filter P l2 = [].
Proof.
  intros Hl HP Hlen. rewrite Hl, filter_app, length_app in Hlen.
  assert (Hl1 : filter P l1 = l1).
  { clear -HP. induction HP as [|x l1 Hx _ IH]; [done|]. rewrite filter_cons_True by done. by rewrite IH. }
  rewrite Hl1 in Hlen. apply length_zero_iff_nil. lia.
Qed.

Lemma detach_successors d k es d1 : rep d -> detach_out k (successors d k) d = Ok (es, d1) ->
  rep d1 ∧ dnodes d1 = dnodes d ∧ flows d ≡ₚ out_of k es ++ flows d1 ∧
  ∀ f, f ∈ flows d1 -> f.1.1 ≠ k.
Proof.
  intros Hrep H. destruct (detach_out_spec _ _ _ _ _ Hrep H) as (Hr & Hn & Hf & Hts).
  split_and!; [done..|]. assert (Hnil : filter (λ f, f.1.1 = k) (flows d1) = []).
  { eapply (filter_exhausted _ (flows d) (out_of k es)); [done| |].
    - apply Forall_forall. intros f (te & -> & _)%list_elem_of_fmap. done.
    - unfold out_of. rewrite length_fmap, <- (length_fmap fst es), Hts, successors_spec by done.
      by rewrite length_fmap. }
  intros f Hin Hk. by eapply (filter_nil_not_elem_of (λ f, f.1.1 = k)).
Qed.

Lemma detach_predecessors d k es d1 : rep d -> detach_in (predecessors d k) k d = Ok (es, d1) ->
  rep d1 ∧ dnodes d1 = dnodes d ∧ flows d ≡ₚ into k es ++ flows d1 ∧
  ∀ f, f ∈ flows d1 -> f.1.2 ≠ k.
Proof.
  intros Hrep H. destruct (detach_in_spec _ _ _ _ _ Hrep H) as (Hr & Hn & Hf & Hts).
  split_and!; [done..|]. assert (Hnil : filter (λ f, f.1.2 = k) (flows d1) = []).
  { eapply (filter_exhausted _ (flows d) (into k es)); [done| |].
    - apply Forall_forall. intros f (te & -> & _)%list_elem_of_fmap. done.
    - unfold into. rewrite length_fmap, <- (length_fmap fst es), Hts, predecessors_spec by done.
      by rewrite length_fmap. }
  intros f Hin Hk. by eapply (filter_nil_not_elem_of (λ f, f.1.2 = k)).
Qed.

Lemma move_source_id k k' (l : list (NodeKey * NodeKey * DesignerEdge)) :
  (∀ f, f ∈ l -> f.1.1 ≠ k) -> move_source k k' <$> l = l.
Proof.
  intros H. rewrite <- (list_fmap_id l) at 2. apply list_fmap_ext. intros i [[a b] w] Hi. cbn.
  rewrite decide_False; [done|]. apply (H (a, b, w)). by eapply list_elem_of_lookup_2.
Qed.
Lemma move_target_id k k' (l : list (NodeKey * NodeKey * DesignerEdge)) :
  (∀ f, f ∈ l -> f.1.2 ≠ k) -> move_target k k' <$> l = l.
Proof.
  intros H. rewrite <- (list_fmap_id l) at 2. apply list_fmap_ext. intros i [[a b] w] Hi. cbn.
  rewrite decide_False; [done|]. apply (H (a, b, w)). by eapply list_elem_of_lookup_2.
Qed.
Lemma move_source_out k k' es : move_source k k' <$> out_of k es = out_of k' es.
Proof.
  unfold out_of. rewrite <- list_fmap_compose. apply list_fmap_ext. intros i [t e] _. cbn.
  by rewrite decide_True.
Qed.
Lemma move_target_into k k' es : move_target k k' <$> into k es = into k' es.
Proof.
  unfold into. rewrite <- list_fmap_compose. apply list_fmap_ext. intros i [t e] _. cbn.
  by rewrite decide_True.
Qed.
End detach_all.

(** ** The operations on the represented graph *)

Section edit.
Variable provenance : Provenance.
Notation new_node key ir := (mkDesignerNode key ir None provenance).
Notation plain := (plain_edge provenance).

Definition branch_nodes (branches : list RegionBranch) : list DesignerNode :=
  (λ b, new_node (rb_key b) (rb_node b)) <$> branches.
Definition branch_flows (fork_key join_key : NodeKey) (branches : list RegionBranch)
  : list (NodeKey * NodeKey * DesignerEdge) :=
  branches ≫= λ b, [(fork_key, rb_key b, plain (rb_in_edge_id b) (rb_condition b));
                    (rb_key b, join_key, plain (rb_out_edge_id b) None)].

(** What an operation does to the flows. *)
Definition edited_flows (op : Operation) (fl : list (NodeKey * NodeKey * DesignerEdge))
  : list (NodeKey * NodeKey * DesignerEdge) :=
  match op with
  | InsertAfter anchor key _ e | CreateMultiInstanceRegion anchor key _ e =>
      (anchor, key, plain e None) :: (move_source anchor key <$> fl)
  | InsertBefore anchor key _ e => (key, anchor, plain e None) :: (move_target anchor key <$> fl)
  | AppendNode anchor key _ e => (anchor, key, plain e None) :: fl
  | ReplaceNode target key _ => move_source target key <$> (move_target target key <$> fl)
  | Connect from to e c | CreateBranch from to e c => (from, to, plain e c) :: fl
  | DeleteNode target => filter (λ f, f.1.1 ≠ target ∧ f.1.2 ≠ target) fl
  | CreateParallelRegion anchor fork_key _ join_key _ e branches
  | CreateInclusiveRegion anchor fork_key _ join_key _ e branches =>
      (anchor, fork_key, plain e None) ::
      branch_flows fork_key join_key branches ++ (move_source anchor join_key <$> fl)
  | _ => fl
  end.

Definition with_ir (key : NodeKey) (h : IRNode -> IRNode) (n : DesignerNode) : DesignerNode :=
  if decide (dn_key n = key)
  then mkDesignerNode (dn_key n) (h (dn_ir n)) (dn_attached_to_key n) (dn_provenance n) else n.
Definition with_trigger (trigger : GuardTrigger) (ir : IRNode) : IRNode :=
  match ir, trigger with
  | NBoundaryTimer id host _ i b, GTTimer spec => NBoundaryTimer id host spec i b
  | NBoundaryError id host _ b, GTError code => NBoundaryError id host code b
  | _, _ => ir
  end.
Definition with_budget (budget : option N) (ir : IRNode) : IRNode :=
  match ir with
  | NBoundaryTimer id host spec i _ => NBoundaryTimer id host spec i budget
  | NBoundaryError id host code _ => NBoundaryError id host code budget
  | _ => ir
  end.
Definition with_source (source : string) (ir : IRNode) : IRNode :=
  match ir with
  | NMessageWait id name _ => NMessageWait id name source
  | NHumanWait id name kind _ => NHumanWait id name kind source
  | NSendTask id name message _ => NSendTask id name message source
  | _ => ir
  end.
Definition guard_ir (nodes : list DesignerNode) (host : NodeKey) (guard_id : string)
    (trigger : GuardTrigger) (interrupting : bool) : IRNode :=
  let host_id := from_option (λ n, node_id (dn_ir n)) "" (head (filter (λ n, dn_key n = host) nodes)) in
  match trigger with
  | GTTimer spec => NBoundaryTimer guard_id host_id spec interrupting None
  | GTError code => NBoundaryError guard_id host_id code None
  end.

(** What it does to the nodes. *)
Definition edited_nodes (op : Operation) (nodes : list DesignerNode) : list DesignerNode :=
  match op with
  | InsertAfter _ key n _ | InsertBefore _ key n _ | AppendNode _ key n _
  | CreateMultiInstanceRegion _ key n _ => nodes ++ [new_node key n]
  | ReplaceNode target key n => filter (λ m, dn_key m ≠ target) nodes ++ [new_node key n]
  | DeleteNode target => filter (λ m, dn_key m ≠ target) nodes
  | AttachGuard host key id trigger =>
      nodes ++ [mkDesignerNode key (guard_ir nodes host id trigger true) (Some host) provenance]
  | AttachRearmingGuard host key id trigger =>
      nodes ++ [mkDesignerNode key (guard_ir nodes host id trigger false) (Some host) provenance]
  | SetGuardTrigger guard trigger => with_ir guard (with_trigger trigger) <$> nodes
  | SetGuardBudget guard budget => with_ir guard (with_budget budget) <$> nodes
  | SetCorrelationSource key source => with_ir key (with_source source) <$> nodes
  | CreateParallelRegion _ fork_key fork_id join_key join_id _ branches =>
      nodes ++ [new_node fork_key (NGatewayAnd fork_id fork_id Diverging);
                new_node join_key (NGatewayAnd join_id join_id Converging)] ++ branch_nodes branches
  | CreateInclusiveRegion _ fork_key fork_id join_key join_id _ branches =>
      nodes ++ [new_node fork_key (NGatewayInclusive fork_id fork_id Diverging);
                new_node join_key (NGatewayInclusive join_id join_id Converging)] ++ branch_nodes branches
  | Connect _ _ _ _ | CreateBranch _ _ _ _ => nodes
  end.
End edit.

(** ** The operations refine their edits *)

Definition kflow (fl : list (NodeKey * NodeKey * DesignerEdge)) (a b : NodeKey) : Prop :=
  ∃ w, (a, b, w) ∈ fl.

(** What an accepted operation has checked. *)
Definition checked (op : Operation) (d : DesignerDag) : Prop :=
  match op with
  | InsertAfter anchor key _ _ | InsertBefore anchor key _ _ | AppendNode anchor key _ _
  | CreateMultiInstanceRegion anchor key _ _ => anchor ∈ keys d ∧ key ∉ keys d
  | ReplaceNode target key _ => target ∈ keys d ∧ (key ∈ keys d -> key = target)
  | Connect from to _ _ | CreateBranch from to _ _ =>
      from ∈ keys d ∧ to ∈ keys d ∧ ¬ rtc (kflow (flows d)) to from
  | DeleteNode target => target ∈ keys d
  | AttachGuard host key _ _ | AttachRearmingGuard host key _ _ => host ∈ keys d ∧ key ∉ keys d
  | SetGuardTrigger key _ | SetGuardBudget key _ | SetCorrelationSource key _ => key ∈ keys d
  | CreateParallelRegion anchor fork_key _ join_key _ _ branches
  | CreateInclusiveRegion anchor fork_key _ join_key _ _ branches =>
      anchor ∈ keys d ∧ NoDup (fork_key :: join_key :: (rb_key <$> branches)) ∧
      ∀ k, k ∈ fork_key :: join_key :: (rb_key <$> branches) -> k ∉ keys d
  end ∧
  match op with
  | ReplaceNode target _ _ | DeleteNode target =>
      ∀ n, n ∈ dnodes d -> dn_attached_to_key n ≠ Some target
  | _ => True
  end.

(** An operation that names its new node as the anchor. *)
Definition self_anchored (op : Operation) : bool :=
  match op with
  | InsertAfter anchor key _ _ | InsertBefore anchor key _ _ | AppendNode anchor key _ _
  | CreateMultiInstanceRegion anchor key _ _
  | CreateParallelRegion anchor key _ _ _ _ _ | CreateInclusiveRegion anchor key _ _ _ _ _ =>
      bool_decide (anchor = key)
  | _ => false
  end.

Definition edits (provenance : Provenance) (op : Operation) (d d' : DesignerDag) : Prop :=
  rep d' ∧ checked op d ∧ dnodes d' ≡ₚ edited_nodes provenance op (dnodes d) ∧
  flows d' ≡ₚ edited_flows provenance op (flows d).

Section refine.
Context {PD : PetDesigner} {HL : PetDesignerLaws PD}.
Variable prov : Provenance.
Variables d d' : DesignerDag.
Hypothesis Hrep : rep d.

Lemma node_known key n : node d key = Some n -> key ∈ keys d ∧ n ∈ dnodes d ∧ dn_key n = key.
Proof.
  unfold node. intros (i & Hi & Hn)%bind_Some. split; [by apply (index_known d Hrep)|].
  pose proof Hi as (n' & Hn' & Hk)%(rep_index _ Hrep). split; [by eapply list_elem_of_lookup_2|congruence].
Qed.

Lemma keys_of_nodes d1 d2 : dnodes d1 = dnodes d2 -> keys d1 = keys d2.
Proof. unfold keys. by intros ->. Qed.

(** A key of the graph with a node more, other than the new one. *)
Lemma known_before d1 d2 k n : dnodes d2 = dnodes d1 ++ [n] -> k ∈ keys d2 -> k ≠ dn_key n -> k ∈ keys d1.
Proof.
  unfold keys. intros ->. rewrite fmap_app. intros [H|H%list_elem_of_singleton]%elem_of_app Hne; [done|].
  by destruct Hne.
Qed.

Lemma insert_after_edits anchor key n e : anchor ≠ key -> insert_after prov anchor key n e d = Ok d' ->
  edits prov (InsertAfter anchor key n e) d d'.
Proof.
  unfold insert_after. intros Hne H. apply bind_ok_inv in H as ([es d1] & H1 & H).
  destruct (detach_successors d anchor es d1 Hrep H1) as (Hr1 & Hn1 & Hf1 & Hno).
  apply bind_ok_inv in H as (d2 & H2 & H). apply bind_ok_inv in H as (d3 & H3 & H4).
  pose proof (insert_node_inv d1 d2 Hr1 _ _ _ _ H2) as (Hk & _ & _ & Hn2 & _).
  destruct (insert_node_rep d1 d2 Hr1 _ _ _ _ H2) as [Hr2 Hf2].
  destruct (insert_edge_rep d2 d3 Hr2 _ _ _ H3) as (Hr3 & Hn3 & Hf3 & Ha & _ & _).
  destruct (attach_out_spec _ _ _ _ Hr3 H4) as (Hr4 & Hn4 & Hf4).
  apply (known_before _ _ _ _ Hn2) in Ha; [|done].
  rewrite (keys_of_nodes d1 d) in Hk, Ha by done. split; [done|]. split; [|split].
  - done.
  - rewrite Hn4, Hn3, Hn2, Hn1. done.
  - rewrite Hf4, Hf3, Hf2. cbn. rewrite Hf1, fmap_app, move_source_out, move_source_id by done.
    solve_Permutation.
Qed.

Lemma insert_before_edits anchor key n e : anchor ≠ key -> insert_before prov anchor key n e d = Ok d' ->
  edits prov (InsertBefore anchor key n e) d d'.
Proof.
  unfold insert_before. intros Hne H. apply bind_ok_inv in H as ([es d1] & H1 & H).
  destruct (detach_predecessors d anchor es d1 Hrep H1) as (Hr1 & Hn1 & Hf1 & Hno).
  apply bind_ok_inv in H as (d2 & H2 & H). apply bind_ok_inv in H as (d3 & H3 & H4).
  pose proof (insert_node_inv d1 d2 Hr1 _ _ _ _ H2) as (Hk & _ & _ & Hn2 & _).
  destruct (insert_node_rep d1 d2 Hr1 _ _ _ _ H2) as [Hr2 Hf2].
  destruct (insert_edge_rep d2 d3 Hr2 _ _ _ H3) as (Hr3 & Hn3 & Hf3 & _ & Ha & _).
  destruct (attach_in_spec _ _ _ _ Hr3 H4) as (Hr4 & Hn4 & Hf4).
  apply (known_before _ _ _ _ Hn2) in Ha; [|done].
  rewrite (keys_of_nodes d1 d) in Hk, Ha by done. split; [done|]. split; [|split].
  - done.
  - rewrite Hn4, Hn3, Hn2, Hn1. done.
  - rewrite Hf4, Hf3, Hf2. cbn. rewrite Hf1, fmap_app, move_target_into, move_target_id by done.
    solve_Permutation.
Qed.

Lemma append_node_edits anchor key n e : anchor ≠ key -> append_node prov anchor key n e d = Ok d' ->
  edits prov (AppendNode anchor key n e) d d'.
Proof.
  unfold append_node. intros Hne H. apply bind_ok_inv in H as (? & _ & H).
  apply bind_ok_inv in H as (d2 & H2 & H3).
  pose proof (insert_node_inv d d2 Hrep _ _ _ _ H2) as (Hk & _ & _ & Hn2 & _).
  destruct (insert_node_rep d d2 Hrep _ _ _ _ H2) as [Hr2 Hf2].
  destruct (insert_edge_rep d2 d' Hr2 _ _ _ H3) as (Hr3 & Hn3 & Hf3 & Ha & _ & _).
  apply (known_before _ _ _ _ Hn2) in Ha; [|done]. split; [done|]. split; [|split].
  - done.
  - by rewrite Hn3, Hn2.
  - rewrite Hf3, Hf2. cbn. solve_Permutation.
Qed.

(** A path on keys is a path on indices. *)
Lemma kpath_path a b i : rtc (kflow (flows d)) a b -> dd_key_index d !! a = Some i ->
  ∃ j, dd_key_index d !! b = Some j ∧ rtc (dedge (dd_graph d)) i j.
Proof.
  intros H. revert i. induction H as [a|a c b [w Hw] _ IH]; intros i Hi; [by exists i; split; [|constructor]|].
  apply (elem_of_flows d Hrep) in Hw as (x & y & nx & ny & Hin & Hx & Hy & <- & <-).
  assert (Hxi : dd_key_index d !! dn_key nx = Some x) by (apply (rep_index _ Hrep); eauto).
  rewrite Hi in Hxi. injection Hxi as ->.
  destruct (IH y) as (j & Hj & Hp); [apply (rep_index _ Hrep); eauto|]. exists j. split; [done|].
  eapply rtc_l; [by exists w|done].
Qed.

Lemma gate_spec from to f t : dd_key_index d !! from = Some f -> dd_key_index d !! to = Some t ->
  pd_has_path_connecting (dd_graph d) t f = false -> ¬ rtc (kflow (flows d)) to from.
Proof.
  intros Hf Ht Hp Hk. destruct (kpath_path to from t Hk Ht) as (j & Hj & Hpath).
  rewrite Hf in Hj. injection Hj as <-.
  assert (Hlt : t < length (dnodes d)).
  { pose proof Ht as (n & Hn & _)%(rep_index _ Hrep). by eapply lookup_lt_Some. }
  apply (pd_has_path_spec _ _ _ (rep_wf _ Hrep) Hlt) in Hpath. congruence.
Qed.

Lemma connect_edits from to e c : connect prov from to e c d = Ok d' ->
  edits prov (Connect from to e c) d d'.
Proof.
  unfold connect. intros H. apply bind_ok_inv in H as (f & Hf%ok_or_ok & H).
  apply bind_ok_inv in H as (t & Ht%ok_or_ok & H). apply bind_ok_inv in H as (? & Hp%ensure_ok & H).
  apply negb_true_iff in Hp. destruct (insert_edge_rep d d' Hrep _ _ _ H) as (Hr & Hn & Hfl & Ha & Hb & _).
  split; [done|]. split; [|split].
  - split; [|done]. split_and!; [done..|]. by eapply gate_spec.
  - by rewrite Hn.
  - rewrite Hfl. cbn. solve_Permutation.
Qed.

Lemma create_branch_edits from to e c : create_branch prov from to e c d = Ok d' ->
  edits prov (CreateBranch from to e c) d d'.
Proof.
  unfold create_branch. intros H. apply bind_ok_inv in H as (n & _ & H). apply bind_ok_inv in H as (? & _ & H).
  apply bind_ok_inv in H as (? & _ & H). apply bind_ok_inv in H as (f & Hf%ok_or_ok & H).
  apply bind_ok_inv in H as (t & Ht%ok_or_ok & H). apply bind_ok_inv in H as (? & Hp%ensure_ok & H).
  apply negb_true_iff in Hp. destruct (insert_edge_rep d d' Hrep _ _ _ H) as (Hr & Hn & Hfl & Ha & Hb & _).
  split; [done|]. split; [|split].
  - split; [|done]. split_and!; [done..|]. by eapply gate_spec.
  - by rewrite Hn.
  - rewrite Hfl. cbn. solve_Permutation.
Qed.

Lemma unattached target : nodes_attached_to d target = [] ->
  ∀ n, n ∈ dnodes d -> dn_attached_to_key n ≠ Some target.
Proof.
  unfold nodes_attached_to. intros H%fmap_nil_inv n Hin Hn.
  by eapply (filter_nil_not_elem_of (λ n, dn_attached_to_key n = Some target)).
Qed.

(** The nodes left by a removal. *)
Lemma removed_nodes (l1 l2 : list DesignerNode) n : l1 ≡ₚ n :: l2 -> NoDup (dn_key <$> l1) ->
  l2 ≡ₚ filter (λ m, dn_key m ≠ dn_key n) l1.
Proof.
  intros Hl Hnd. rewrite Hl in Hnd. apply NoDup_cons in Hnd as [Hn Hnd].
  rewrite Hl, filter_cons_False by (cbn; tauto).
  assert (Hall : filter (λ m, dn_key m ≠ dn_key n) l2 = l2); [|by rewrite Hall].
  clear Hl Hnd. induction l2 as [|m l2 IH]; [done|]. cbn in Hn. apply not_elem_of_cons in Hn as [Hm Hn].
  rewrite filter_cons_True by congruence. by rewrite IH.
Qed.

Lemma delete_node_edits target : delete_node target d = Ok d' -> edits prov (DeleteNode target) d d'.
Proof.
  unfold delete_node. intros H. apply bind_ok_inv in H as (? & Hu%ensure_ok & H).
  apply bool_decide_eq_true in Hu. destruct (remove_node_rep d d' Hrep _ H) as (n & Hin & <- & Hr & Hn & Hf).
  split; [done|]. split; [|split].
  - split; [apply list_elem_of_fmap; eauto|]. by apply unattached.
  - cbn. by apply removed_nodes, keys_nodup.
  - done.
Qed.
End refine.

Section refine_more.
Context {PD : PetDesigner} {HL : PetDesignerLaws PD}.
Variable prov : Provenance.
Variables d d' : DesignerDag.
Hypothesis Hrep : rep d.

Lemma filter_all {A} (P : A -> Prop) `{∀ x, Decision (P x)} (l : list A) :
  (∀ x, x ∈ l -> P x) -> filter P l = l.
Proof.
  induction l as [|x l IH]; intros Hl; [done|]. rewrite filter_cons_True by (apply Hl; set_solver).
  f_equal. apply IH. set_solver.
Qed.

Lemma replace_node_edits target key n : (∀ a w, (a, a, w) ∉ flows d) ->
  replace_node prov target key n d = Ok d' -> edits prov (ReplaceNode target key n) d d'.
Proof.
  intros Hself. unfold replace_node. intros H. apply bind_ok_inv in H as (? & _ & H).
  apply bind_ok_inv in H as (? & Hu%ensure_ok & H). apply bool_decide_eq_true in Hu.
  apply bind_ok_inv in H as ([inc d1] & H1 & H). apply bind_ok_inv in H as ([outg d2] & H2 & H).
  apply bind_ok_inv in H as (d3 & H3 & H). apply bind_ok_inv in H as (d4 & H4 & H).
  apply bind_ok_inv in H as (d5 & H5 & H6).
  destruct (detach_predecessors d target inc d1 Hrep H1) as (Hr1 & Hn1 & Hf1 & Hno1).
  destruct (detach_successors d1 target outg d2 Hr1 H2) as (Hr2 & Hn2 & Hf2 & Hno2).
  destruct (remove_node_rep d2 d3 Hr2 _ H3) as (m & Hin & <- & Hr3 & Hn3 & Hf3).
  pose proof (insert_node_inv d3 d4 Hr3 _ _ _ _ H4) as (Hk & _ & _ & Hn4 & _).
  destruct (insert_node_rep d3 d4 Hr3 _ _ _ _ H4) as [Hr4 Hf4].
  destruct (attach_in_spec _ _ _ _ Hr4 H5) as (Hr5 & Hn5 & Hf5).
  destruct (attach_out_spec _ _ _ _ Hr5 H6) as (Hr6 & Hn6 & Hf6).
  assert (Hd2 : dnodes d2 = dnodes d) by congruence.
  assert (Hrm : dnodes d3 ≡ₚ filter (λ x, dn_key x ≠ dn_key m) (dnodes d)).
  { rewrite <- Hd2. apply removed_nodes; [done|]. by apply keys_nodup. }
  assert (Hkept : filter (away m) (flows d2) = flows d2).
  { apply filter_all. intros f Hf. split; [by apply Hno2|]. apply Hno1. rewrite Hf2. set_solver. }
  split; [done|]. split; [|split].
  - split; [|by apply unattached]. rewrite Hd2 in Hin. split; [apply list_elem_of_fmap; eauto|].
    intros (y & -> & Hy)%list_elem_of_fmap. destruct (decide (dn_key y = dn_key m)) as [He|He]; [done|].
    destruct Hk. unfold keys. rewrite Hrm. apply list_elem_of_fmap. exists y. split; [done|].
    by apply list_elem_of_filter.
  - cbn. rewrite Hn6, Hn5, Hn4, Hrm. done.
  - cbn. rewrite Hf6, Hf5, Hf4, Hf3, Hkept.
    assert (Hinc : ∀ f, f ∈ into key inc -> f.1.1 ≠ dn_key m).
    { intros f ([s e] & -> & Hse)%list_elem_of_fmap. cbn. intros ->. apply (Hself (dn_key m) e).
      rewrite Hf1. apply elem_of_app. left. apply list_elem_of_fmap. by exists (dn_key m, e). }
    rewrite Hf1, fmap_app, move_target_into, (move_target_id _ _ (flows d1)) by done.
    rewrite fmap_app, (move_source_id _ _ (into key inc)) by done.
    rewrite Hf2, fmap_app, move_source_out, move_source_id by done. solve_Permutation.
Qed.

Lemma head_host host n : node d host = Some n ->
  head (filter (λ m, dn_key m = host) (dnodes d)) = Some n.
Proof.
  intros Hn. pose proof (node_known d Hrep _ _ Hn) as (_ & Hin & Hk).
  destruct (filter (λ m, dn_key m = host) (dnodes d)) as [|x l] eqn:E.
  { exfalso. by eapply (filter_nil_not_elem_of (λ m, dn_key m = host)). }
  cbn. f_equal. assert (Hx : x ∈ filter (λ m, dn_key m = host) (dnodes d)) by (rewrite E; set_solver).
  apply list_elem_of_filter in Hx as [Hkx Hx]. apply list_elem_of_lookup in Hx as [i Hi], Hin as [j Hj].
  assert (i = j) as <- by (apply (node_inj d Hrep i j x n); congruence). congruence.
Qed.

Lemma attach_guard_edits host key id trigger : attach_guard prov host key id trigger d = Ok d' ->
  edits prov (AttachGuard host key id trigger) d d'.
Proof.
  unfold attach_guard, node_label. intros H. apply bind_ok_inv in H as (hid & Hh%ok_or_ok & H).
  apply fmap_Some in Hh as (hn & Hh & ->). apply bind_ok_inv in H as (ir & Hir & H).
  pose proof (insert_node_inv d d' Hrep _ _ _ _ H) as (Hk & _ & Hat & Hn & _).
  destruct (insert_node_rep d d' Hrep _ _ _ _ H) as [Hr Hf]. destruct (Hat host eq_refl) as [Hhost _].
  split; [done|]. split; [done|]. split; [|by rewrite Hf]. cbn. rewrite Hn. unfold guard_ir.
  rewrite (head_host host hn Hh). cbn. destruct trigger as [spec|code]; cbn in Hir.
  - apply bind_ok_inv in Hir as (? & _ & [= <-]). done.
  - injection Hir as <-. done.
Qed.

Lemma attach_rearming_edits host key id trigger : attach_rearming_guard prov host key id trigger d = Ok d' ->
  edits prov (AttachRearmingGuard host key id trigger) d d'.
Proof.
  unfold attach_rearming_guard, node_label. intros H. apply bind_ok_inv in H as (hid & Hh%ok_or_ok & H).
  apply fmap_Some in Hh as (hn & Hh & ->). apply bind_ok_inv in H as (ir & Hir & H).
  pose proof (insert_node_inv d d' Hrep _ _ _ _ H) as (Hk & _ & Hat & Hn & _).
  destruct (insert_node_rep d d' Hrep _ _ _ _ H) as [Hr Hf]. destruct (Hat host eq_refl) as [Hhost _].
  split; [done|]. split; [done|]. split; [|by rewrite Hf]. cbn. rewrite Hn. unfold guard_ir.
  rewrite (head_host host hn Hh). cbn. destruct trigger as [spec|code]; [|done]. cbn in Hir.
  injection Hir as <-. done.
Qed.

(** A payload changed in place by [h]. *)
Lemma set_ir_edits key h ir n op : node d key = Some n -> h (dn_ir n) = ir -> node_id ir = node_id (dn_ir n) ->
  checked op d -> edited_nodes prov op (dnodes d) = with_ir key h <$> dnodes d ->
  edited_flows prov op (flows d) = flows d -> edits prov op d (set_node_ir key ir d).
Proof.
  intros Hn Hh Hid Hc Hnodes Hflows. destruct (set_node_ir_rep d Hrep key ir n Hn Hid) as (Hr & Hf & _ & Hd).
  split; [done|]. split; [done|]. split; [|by rewrite Hf, Hflows].
  rewrite Hd, Hnodes. apply Permutation_refl'. apply list_fmap_ext. intros i m Hm. unfold with_ir. case_decide as Hk; [|done].
  f_equal. rewrite <- Hh. f_equal. pose proof (node_known d Hrep _ _ Hn) as (_ & Hin & Hkn).
  apply list_elem_of_lookup in Hin as [j Hj]. assert (i = j) as <- by (apply (node_inj d Hrep i j m n); congruence).
  congruence.
Qed.

Lemma set_guard_trigger_edits guard trigger : set_guard_trigger guard trigger d = Ok d' ->
  edits prov (SetGuardTrigger guard trigger) d d'.
Proof.
  unfold set_guard_trigger. intros H. apply bind_ok_inv in H as (n & Hn%ok_or_ok & H).
  pose proof (node_known d Hrep _ _ Hn) as (Hk & _).
  destruct (dn_ir n) eqn:Eir; try done; destruct trigger; try done; cbn in H;
    [apply bind_ok_inv in H as (? & _ & H)|]; injection H as <-;
    (eapply set_ir_edits; [exact Hn| | |done|reflexivity|reflexivity]; rewrite Eir; reflexivity).
Qed.

Lemma set_guard_budget_edits guard budget : set_guard_budget guard budget d = Ok d' ->
  edits prov (SetGuardBudget guard budget) d d'.
Proof.
  unfold set_guard_budget. intros H. apply bind_ok_inv in H as (n & Hn%ok_or_ok & H).
  pose proof (node_known d Hrep _ _ Hn) as (Hk & _).
  destruct (dn_ir n) eqn:Eir; try done; injection H as <-;
    (eapply set_ir_edits; [exact Hn| | |done|reflexivity|reflexivity]; rewrite Eir; reflexivity).
Qed.

Lemma set_correlation_edits key source : set_correlation_source key source d = Ok d' ->
  edits prov (SetCorrelationSource key source) d d'.
Proof.
  unfold set_correlation_source. intros H. apply bind_ok_inv in H as (n & Hn%ok_or_ok & H).
  pose proof (node_known d Hrep _ _ Hn) as (Hk & _).
  destruct (dn_ir n) eqn:Eir; try done; injection H as <-;
    (eapply set_ir_edits; [exact Hn| | |done|reflexivity|reflexivity]; rewrite Eir; reflexivity).
Qed.
End refine_more.

Section refine_region.
Context {PD : PetDesigner} {HL : PetDesignerLaws PD}.
Variable prov : Provenance.

Lemma region_branches_spec fork join bs d d' : rep d -> try_fold (region_branch prov fork join) d bs = Ok d' ->
  rep d' ∧ dnodes d' = dnodes d ++ branch_nodes prov bs ∧ flows d' = flows d ++ branch_flows prov fork join bs ∧
  NoDup (rb_key <$> bs) ∧ ∀ k, k ∈ rb_key <$> bs -> k ∉ keys d.
Proof.
  revert d. induction bs as [|b bs IH]; intros d Hrep H; cbn [try_fold] in H.
  { injection H as <-. rewrite !app_nil_r. split_and!; [done..|apply NoDup_nil_2|set_solver]. }
  destruct (region_branch prov fork join d b) as [d3|] eqn:E; [|done].
  unfold region_branch in E. apply bind_ok_inv in E as (d1 & H1 & E). apply bind_ok_inv in E as (d2 & H2 & H3).
  pose proof (insert_node_inv d d1 Hrep _ _ _ _ H1) as (Hk & _ & _ & Hn1 & _).
  destruct (insert_node_rep d d1 Hrep _ _ _ _ H1) as [Hr1 Hf1].
  destruct (insert_edge_rep d1 d2 Hr1 _ _ _ H2) as (Hr2 & Hn2 & Hf2 & _).
  destruct (insert_edge_rep d2 d3 Hr2 _ _ _ H3) as (Hr3 & Hn3 & Hf3 & _).
  destruct (IH d3 Hr3 H) as (Hr & Hn & Hf & Hnd & Hnew).
  assert (Hd3 : dnodes d3 = dnodes d ++ [mkDesignerNode (rb_key b) (rb_node b) None prov]) by congruence.
  assert (Hkeys : ∀ k, k ∈ rb_key <$> bs -> k ∉ keys d ∧ k ≠ rb_key b).
  { intros k Hin. apply Hnew in Hin. unfold keys in *. rewrite Hd3, fmap_app in Hin.
    apply not_elem_of_app in Hin as [Ho Hb]. split; [done|]. set_solver. }
  split_and!; [done| | | |].
  - rewrite Hn, Hd3, <- app_assoc. done.
  - rewrite Hf, Hf3, Hf2, Hf1, <- !app_assoc. done.
  - cbn. apply NoDup_cons. split; [|done]. intros Hin. by apply (Hkeys _ Hin).
  - cbn. intros k [->|Hin]%elem_of_cons; [done|]. by apply Hkeys.
Qed.

Lemma construct_region_spec anchor fork fork_ir join join_ir e bs d d' : rep d -> anchor ≠ fork ->
  construct_region prov anchor fork fork_ir join join_ir e bs d = Ok d' ->
  rep d' ∧ anchor ∈ keys d ∧ NoDup (fork :: join :: (rb_key <$> bs)) ∧
  (∀ k, k ∈ fork :: join :: (rb_key <$> bs) -> k ∉ keys d) ∧
  dnodes d' = dnodes d ++ [mkDesignerNode fork fork_ir None prov; mkDesignerNode join join_ir None prov] ++
    branch_nodes prov bs ∧
  flows d' ≡ₚ (anchor, fork, plain_edge prov e None) ::
    branch_flows prov fork join bs ++ (move_source anchor join <$> flows d).
Proof.
  unfold construct_region. intros Hrep Hne H. apply bind_ok_inv in H as ([es d1] & H1 & H).
  destruct (detach_successors d anchor es d1 Hrep H1) as (Hr1 & Hn1 & Hf1 & Hno).
  apply bind_ok_inv in H as (d2 & H2 & H). apply bind_ok_inv in H as (d3 & H3 & H).
  apply bind_ok_inv in H as (d4 & H4 & H). apply bind_ok_inv in H as (d5 & H5 & H6).
  pose proof (insert_node_inv d1 d2 Hr1 _ _ _ _ H2) as (Hk2 & _ & _ & Hn2 & _).
  destruct (insert_node_rep d1 d2 Hr1 _ _ _ _ H2) as [Hr2 Hf2].
  destruct (insert_edge_rep d2 d3 Hr2 _ _ _ H3) as (Hr3 & Hn3 & Hf3 & Ha & _ & _).
  pose proof (insert_node_inv d3 d4 Hr3 _ _ _ _ H4) as (Hk4 & _ & _ & Hn4 & _).
  destruct (insert_node_rep d3 d4 Hr3 _ _ _ _ H4) as [Hr4 Hf4].
  destruct (region_branches_spec _ _ _ _ _ Hr4 H5) as (Hr5 & Hn5 & Hf5 & Hnd & Hnew).
  destruct (attach_out_spec _ _ _ _ Hr5 H6) as (Hr6 & Hn6 & Hf6).
  apply (known_before _ _ _ _ Hn2) in Ha; [|done]. rewrite (keys_of_nodes d1 d) in Ha, Hk2 by done.
  unfold keys in Hk4, Hnew. rewrite Hn4, Hn3, Hn2, Hn1, !fmap_app in Hnew.
  rewrite Hn3, Hn2, Hn1, fmap_app in Hk4. apply not_elem_of_app in Hk4 as [Hj1 Hj2].
  split_and!; [done|done| | | |].
  - apply NoDup_cons. split; [|apply NoDup_cons; split; [|done]].
    + intros [->|Hin]%elem_of_cons; [set_solver|]. apply Hnew in Hin. set_solver.
    + intros Hin%Hnew. set_solver.
  - intros k [->|[->|Hin]%elem_of_cons]%elem_of_cons; [done|done|]. apply Hnew in Hin. unfold keys. set_solver.
  - rewrite Hn6, Hn5, Hn4, Hn3, Hn2, Hn1, <- !app_assoc. done.
  - rewrite Hf6, Hf5, Hf4, Hf3, Hf2. rewrite Hf1, fmap_app, move_source_out, move_source_id by done.
    solve_Permutation.
Qed.

(** Every operation refines its edit. *)
Lemma apply_op_edits op d d' : rep d -> (∀ a w, (a, a, w) ∉ flows d) -> self_anchored op = false ->
  apply_op prov op d = Ok d' -> edits prov op d d'.
Proof.
  intros Hrep Hself Hsa H. destruct op; cbn [apply_op] in H; cbn in Hsa; try apply bool_decide_eq_false in Hsa.
  - by apply insert_after_edits.
  - by apply insert_before_edits.
  - by apply append_node_edits.
  - by apply replace_node_edits.
  - by apply connect_edits.
  - by apply delete_node_edits.
  - by apply attach_guard_edits.
  - by apply attach_rearming_edits.
  - by apply set_guard_trigger_edits.
  - by apply set_guard_budget_edits.
  - by apply set_correlation_edits.
  - unfold create_parallel_region in H. apply bind_ok_inv in H as (? & _ & H). apply bind_ok_inv in H as (? & _ & H).
    destruct (construct_region_spec _ _ _ _ _ _ _ _ _ Hrep Hsa H) as (? & ? & ? & ? & Hn & ?).
    split; [done|]. split; [done|]. split; [by rewrite Hn|done].
  - unfold create_inclusive_region in H. apply bind_ok_inv in H as (? & _ & H). apply bind_ok_inv in H as (? & _ & H).
    destruct (construct_region_spec _ _ _ _ _ _ _ _ _ Hrep Hsa H) as (? & ? & ? & ? & Hn & ?).
    split; [done|]. split; [done|]. split; [by rewrite Hn|done].
  - unfold create_multi_instance_region in H. apply bind_ok_inv in H as (? & _ & H).
    by apply (insert_after_edits prov d d' Hrep) in H.
  - by apply create_branch_edits.
Qed.
End refine_region.

(** ** The invariant *)

Definition ranked (r : NodeKey -> nat) (fl : list (NodeKey * NodeKey * DesignerEdge)) : Prop :=
  ∀ a b w, (a, b, w) ∈ fl -> r a < r b.

(** Attached nodes are boundary events and their hosts are there. *)
Definition attached_ok (nodes : list DesignerNode) : Prop :=
  ∀ n h, n ∈ nodes -> dn_attached_to_key n = Some h ->
    is_boundary (dn_ir n) = true ∧ h ∈ dn_key <$> nodes.

Record dag_ok (d : DesignerDag) : Prop := {
  do_rep : rep d;
  do_attached : attached_ok (dnodes d);
  do_ranked : ∃ r, ranked r (flows d);
}.

Lemma ranked_self r fl : ranked r fl -> ∀ a w, (a, a, w) ∉ fl.
Proof. intros Hr a w Hin%Hr. lia. Qed.

Lemma ranked_cons r a b w fl : ranked r ((a, b, w) :: fl) ↔ r a < r b ∧ ranked r fl.
Proof.
  unfold ranked. split.
  - intros H. split; [apply (H a b w); set_solver|]. intros a0 b0 w0 Hin. apply (H a0 b0 w0). set_solver.
  - intros [H1 H2] a' b' w' [[= -> -> ->]|Hin]%elem_of_cons; [done|by eapply H2].
Qed.
Lemma ranked_app r fl1 fl2 : ranked r (fl1 ++ fl2) ↔ ranked r fl1 ∧ ranked r fl2.
Proof. unfold ranked. setoid_rewrite elem_of_app. naive_solver. Qed.
Lemma ranked_perm r fl1 fl2 : fl1 ≡ₚ fl2 -> ranked r fl1 -> ranked r fl2.
Proof. unfold ranked. intros H Hr a b w. rewrite <- H. apply Hr. Qed.

(** Room for new nodes at an anchor: the old ranks spread, the new ones between. *)
Definition spread (r : NodeKey -> nat) (anchor : NodeKey) (new : NodeKey -> option nat) (k : NodeKey) : nat :=
  match new k with Some i => 4 * r anchor + i | None => 4 * r k end.

Lemma ranked_spread r anchor new fl : ranked r fl ->
  (∀ a b w, (a, b, w) ∈ fl -> new a = None ∧ new b = None) -> ranked (spread r anchor new) fl.
Proof. intros Hr Hn a b w Hin. destruct (Hn a b w Hin) as [Ha Hb]. unfold spread. rewrite Ha, Hb.
  apply Hr in Hin. lia. Qed.

Lemma ranked_move_source r anchor k i new fl : ranked r fl -> new k = Some i -> i < 4 ->
  (∀ a b w, (a, b, w) ∈ fl -> new a = None ∧ new b = None) ->
  ranked (spread r anchor new) (move_source anchor k <$> fl).
Proof.
  intros Hr Hk Hi Hn a' b' w' ([[a b] w] & Heq & Hin)%list_elem_of_fmap. cbn in Heq. injection Heq as -> -> ->.
  destruct (Hn a b w Hin) as [Ha Hb]. apply Hr in Hin. unfold spread. rewrite Hb. case_decide as Hd.
  - subst a. rewrite Hk. lia.
  - rewrite Ha. lia.
Qed.

(** Ranks for [InsertBefore]: the new node just below its anchor. *)
Definition below (r : NodeKey -> nat) (anchor key k : NodeKey) : nat :=
  if decide (k = key) then 2 * r anchor else 2 * r k + 1.

(** A path on indices is a path on keys. *)
Lemma path_kpath d a b i j : rep d -> rtc (dedge (dd_graph d)) i j ->
  dd_key_index d !! a = Some i -> dd_key_index d !! b = Some j -> rtc (kflow (flows d)) a b.
Proof.
  intros Hrep H. revert a. induction H as [i|i k j [w Hw] _ IH]; intros a Ha Hb.
  - pose proof Ha as (n & Hn & <-)%(rep_index _ Hrep). pose proof Hb as (n' & Hn' & <-)%(rep_index _ Hrep).
    rewrite Hn in Hn'. injection Hn' as <-. constructor.
  - destruct (flow_of_edge d Hrep _ _ _ Hw) as (ni & nk & Hi & Hk & _).
    pose proof Ha as (n & Hn & <-)%(rep_index _ Hrep). rewrite Hi in Hn. injection Hn as <-.
    eapply rtc_l; [|apply (IH (dn_key nk)); [apply (rep_index _ Hrep); eauto|done]].
    exists w. apply (elem_of_flows d Hrep). eauto 10.
Qed.

Section preserve.
Context {PD : PetDesigner} {HL : PetDesignerLaws PD}.
Variable prov : Provenance.

Section ranks.
Variable d : DesignerDag.
Hypothesis Hrep : rep d.
Variable r : NodeKey -> nat.
Hypothesis Hr : ranked r (flows d).

(** A new node after an anchor. *)
Lemma ranked_insert anchor key : anchor ∈ keys d -> key ∉ keys d ->
  ∃ r', ranked r' (flows d) ∧ ranked r' (move_source anchor key <$> flows d) ∧ r' anchor < r' key.
Proof.
  intros Ha Hk. set (new := λ k, if decide (k = key) then Some 1 else None).
  assert (Hn : ∀ k, k ∈ keys d -> new k = None).
  { intros k Hin. unfold new. rewrite decide_False; [done|]. by intros ->. }
  assert (Hfl : ∀ a b w, (a, b, w) ∈ flows d -> new a = None ∧ new b = None).
  { intros a b w [? ?]%(flow_keys d Hrep). auto. }
  exists (spread r anchor new). split_and!.
  - by apply ranked_spread.
  - eapply ranked_move_source; [done|unfold new; by rewrite decide_True|lia|done].
  - unfold spread. rewrite (Hn anchor Ha). unfold new. rewrite decide_True by done. lia.
Qed.

(** A fork, a join and the branches between them after an anchor. *)
Lemma ranked_region anchor fork join bs : anchor ∈ keys d ->
  NoDup (fork :: join :: (rb_key <$> bs)) -> (∀ k, k ∈ fork :: join :: (rb_key <$> bs) -> k ∉ keys d) ->
  ∃ r', r' anchor < r' fork ∧ ranked r' (branch_flows prov fork join bs) ∧
    ranked r' (move_source anchor join <$> flows d).
Proof.
  intros Ha Hnd Hnew. apply NoDup_cons in Hnd as [Hfork Hnd]. apply NoDup_cons in Hnd as [Hjoin _].
  apply not_elem_of_cons in Hfork as [Hfj Hfb].
  set (new := λ k, if decide (k = fork) then Some 1 else if decide (k = join) then Some 3
                   else if decide (k ∈ rb_key <$> bs) then Some 2 else None).
  assert (Hn : ∀ k, k ∈ keys d -> new k = None).
  { intros k Hin. unfold new. rewrite !decide_False; [done|..]; intros Hk; apply (Hnew k); set_solver. }
  assert (Hbranch : ∀ b, b ∈ bs -> new (rb_key b) = Some 2).
  { intros b Hb. assert (Hk : rb_key b ∈ rb_key <$> bs) by (apply list_elem_of_fmap; eauto).
    unfold new. rewrite decide_False by (intros <-; done). rewrite decide_False by (intros <-; done).
    by rewrite decide_True. }
  assert (Hf1 : new fork = Some 1) by (unfold new; by rewrite decide_True).
  assert (Hj3 : new join = Some 3) by (unfold new; rewrite decide_False by done; by rewrite decide_True).
  exists (spread r anchor new). split_and!.
  - unfold spread. rewrite (Hn anchor Ha), Hf1. lia.
  - intros x y w (b & Hin & Hb)%list_elem_of_bind. pose proof (Hbranch b Hb) as H2. unfold spread.
    apply elem_of_cons in Hin as [[= -> -> ->]|[= -> -> ->]%list_elem_of_singleton]; rewrite H2, ?Hf1, ?Hj3; lia.
  - eapply ranked_move_source; [done|exact Hj3|lia|]. intros x y w [? ?]%(flow_keys d Hrep). auto.
Qed.

(** A flow that closes no cycle: what its target reaches moves up. *)
Lemma ranked_connect from to w : to ∈ keys d -> ¬ rtc (kflow (flows d)) to from ->
  ∃ r', ranked r' ((from, to, w) :: flows d).
Proof.
  intros [t Ht]%(index_known d Hrep) Hno.
  set (reach := λ k, match dd_key_index d !! k with
                     | Some i => pd_has_path_connecting (dd_graph d) t i | None => false end).
  assert (Htlt : t < length (dnodes d)).
  { pose proof Ht as (n & Hn & _)%(rep_index _ Hrep). by eapply lookup_lt_Some. }
  assert (Hreach : ∀ k, reach k = true ↔ rtc (kflow (flows d)) to k).
  { intros k. unfold reach. split.
    - destruct (dd_key_index d !! k) as [i|] eqn:Ei; [|done].
      rewrite (pd_has_path_spec _ _ _ (rep_wf _ Hrep) Htlt). intros Hp. by eapply path_kpath.
    - intros Hp. destruct (kpath_path d Hrep _ _ _ Hp Ht) as (j & -> & Hpath).
      by apply (pd_has_path_spec _ _ _ (rep_wf _ Hrep) Htlt). }
  assert (Hfrom : reach from = false) by (apply not_true_is_false; by rewrite Hreach).
  assert (Hto : reach to = true) by (apply Hreach; constructor).
  exists (λ k, r k + if reach k then S (r from) else 0). apply ranked_cons. split.
  - rewrite Hfrom, Hto. lia.
  - intros a b v Hin. pose proof (Hr a b v Hin) as Hlt. destruct (reach a) eqn:Ea; [|lia].
    assert (Hb : reach b = true); [|rewrite Hb; lia].
    apply Hreach. apply Hreach in Ea. eapply rtc_r; [done|]. by exists v.
Qed.
End ranks.

Lemma edits_ranked op d d' : dag_ok d -> edits prov op d d' -> ∃ r, ranked r (flows d').
Proof.
  intros [Hrep _ [r Hr]] (_ & [Hc _] & _ & Hf).
  assert (Hgoal : ∃ r', ranked r' (edited_flows prov op (flows d))).
  2:{ destruct Hgoal as [r' Hr']. exists r'. eapply ranked_perm; [symmetry; exact Hf|exact Hr']. }
  pose proof (flow_keys d Hrep) as Hfk. clear Hf.
  destruct op; cbn in Hc |- *; try by exists r.
  - destruct Hc as [Ha Hk]. destruct (ranked_insert d Hrep r Hr anchor key Ha Hk) as (r' & _ & ? & ?).
    exists r'. by apply ranked_cons.
  - destruct Hc as [Ha Hk]. exists (below r anchor key). apply ranked_cons. unfold below. split.
    + rewrite decide_True by done. rewrite decide_False by (intros ->; done). lia.
    + intros a' b' w' ([[a b] w] & Heq & Hin)%list_elem_of_fmap. cbn in Heq. injection Heq as -> -> ->.
      pose proof (Hfk a b w Hin) as [Hka Hkb]. apply Hr in Hin.
      rewrite (decide_False (P := a = key)) by (intros ->; done).
      destruct (decide (b = anchor)) as [->|]; [rewrite decide_True by done; lia|].
      rewrite decide_False by (intros ->; done). lia.
  - destruct Hc as [Ha Hk]. destruct (ranked_insert d Hrep r Hr anchor key Ha Hk) as (r' & ? & _ & ?).
    exists r'. by apply ranked_cons.
  - destruct Hc as [Ht Hk]. exists (λ k, if decide (k = key) then r target else r k). intros a' b' w'.
    intros ([[a1 b1] w1] & Heq & ([[a b] w] & Heq' & Hin)%list_elem_of_fmap)%list_elem_of_fmap.
    cbn in Heq, Heq'. injection Heq' as -> -> ->. injection Heq as -> -> ->.
    pose proof (Hfk a b w Hin) as [Hka Hkb]. apply Hr in Hin.
    assert (Hside : ∀ x, x ∈ keys d ->
      (if decide ((if decide (x = target) then key else x) = key) then r target
       else r (if decide (x = target) then key else x)) = r x).
    { intros x Hx. destruct (decide (x = target)) as [->|Hxt]; [by rewrite decide_True|].
      case_decide as Hxk; [|done]. subst x. by destruct Hxt; apply Hk. }
    by rewrite !Hside.
  - destruct Hc as (_ & H2 & H3). by eapply ranked_connect.
  - exists r. intros a b w [_ Hin]%list_elem_of_filter. by eapply Hr.
  - destruct Hc as (Ha & Hnd & Hnew). destruct (ranked_region d Hrep r Hr _ _ _ _ Ha Hnd Hnew) as (r' & ? & ? & ?).
    exists r'. by rewrite ranked_cons, ranked_app.
  - destruct Hc as (Ha & Hnd & Hnew). destruct (ranked_region d Hrep r Hr _ _ _ _ Ha Hnd Hnew) as (r' & ? & ? & ?).
    exists r'. by rewrite ranked_cons, ranked_app.
  - destruct Hc as [Ha Hk]. destruct (ranked_insert d Hrep r Hr anchor key Ha Hk) as (r' & _ & ? & ?).
    exists r'. by apply ranked_cons.
  - destruct Hc as (_ & H2 & H3). by eapply ranked_connect.
Qed.

(** Attachments. *)
Lemma attached_more nodes news : attached_ok nodes ->
  (∀ n h, n ∈ news -> dn_attached_to_key n = Some h -> is_boundary (dn_ir n) = true ∧ h ∈ dn_key <$> nodes) ->
  attached_ok (nodes ++ news).
Proof.
  intros Ho Hn n h Hin Hh. rewrite fmap_app, elem_of_app.
  apply elem_of_app in Hin as [Hin|Hin]; [destruct (Ho n h Hin Hh)|destruct (Hn n h Hin Hh)]; auto.
Qed.
Lemma attached_less nodes target : attached_ok nodes -> (∀ n, n ∈ nodes -> dn_attached_to_key n ≠ Some target) ->
  attached_ok (filter (λ m, dn_key m ≠ target) nodes).
Proof.
  intros Ho Hu n h [_ Hin]%list_elem_of_filter Hh. destruct (Ho n h Hin Hh) as [Hb Hk]. split; [done|].
  apply list_elem_of_fmap in Hk as (m & -> & Hm). apply list_elem_of_fmap. exists m. split; [done|].
  apply list_elem_of_filter. split; [|done]. intros He. apply (Hu n Hin). by rewrite Hh, He.
Qed.
Lemma attached_with_ir key h nodes : attached_ok nodes -> (∀ ir, is_boundary (h ir) = is_boundary ir) ->
  attached_ok (with_ir key h <$> nodes).
Proof.
  intros Ho Hh n k (m & -> & Hm)%list_elem_of_fmap Hk.
  assert (Hkeys : dn_key <$> (with_ir key h <$> nodes) = dn_key <$> nodes).
  { rewrite <- list_fmap_compose. apply list_fmap_ext. intros i x _. cbn. unfold with_ir. by case_decide. }
  rewrite Hkeys. unfold with_ir in *. case_decide; cbn in *; [rewrite Hh|]; by apply Ho.
Qed.

Lemma edits_attached op d d' : attached_ok (dnodes d) -> edits prov op d d' -> attached_ok (dnodes d').
Proof.
  intros Ho (_ & [Hc Hu] & Hn & _).
  assert (Hgoal : attached_ok (edited_nodes prov op (dnodes d))).
  2:{ intros n h Hin Hh. rewrite Hn in Hin. rewrite Hn. by apply (Hgoal n h). }
  clear Hn. destruct op; cbn in Hc, Hu |- *; try done;
    try (apply attached_more; [by first [done|apply attached_less]|]; intros n h Hin Hh;
         repeat (apply elem_of_cons in Hin as [->|Hin]; [done|]);
         first [by apply not_elem_of_nil in Hin|by apply list_elem_of_fmap in Hin as (b & -> & _)]).
  - by apply attached_less.
  - apply attached_more; [done|]. intros n h ->%list_elem_of_singleton [= <-]. cbn. split; [|apply Hc].
    unfold guard_ir. by destruct trigger.
  - apply attached_more; [done|]. intros n h ->%list_elem_of_singleton [= <-]. cbn. split; [|apply Hc].
    unfold guard_ir. by destruct trigger.
  - apply attached_with_ir; [done|]. intros ir. by destruct ir, trigger.
  - apply attached_with_ir; [done|]. intros ir. by destruct ir.
  - apply attached_with_ir; [done|]. intros ir. by destruct ir.
Qed.

(** Every accepted operation keeps the invariant. *)
Lemma apply_op_ok op d d' : dag_ok d -> self_anchored op = false -> apply_op prov op d = Ok d' ->
  dag_ok d' ∧ edits prov op d d'.
Proof.
  intros Hok Hs H. pose proof (do_ranked _ Hok) as [r Hr].
  assert (He : edits prov op d d').
  { apply apply_op_edits; [by apply do_rep|by eapply ranked_self|done|done]. }
  split; [|done]. split; [by destruct He|by eapply edits_attached, He; apply do_attached|by eapply edits_ranked].
Qed.
End preserve.

(** ** The projection *)

Section projection.
Variable d : DesignerDag.
Hypothesis Hok : dag_ok d.
Let Hrep := do_rep _ Hok.

Definition ir_edge (e : nat * nat * DesignerEdge) : nat * nat * IREdge :=
  (e.1, {| ie_id := de_id e.2; ie_condition := de_condition e.2 |}).

(** The id of the host an attached payload names. *)
Definition names_host (n : DesignerNode) (payload : IRNode) : Prop :=
  ∀ h host, dn_attached_to_key n = Some h -> node d h = Some host ->
    match payload with
    | NBoundaryTimer _ attached_to _ _ _ | NBoundaryError _ attached_to _ _ =>
        attached_to = node_id (dn_ir host)
    | _ => False
    end.

Lemma project_total n : n ∈ dnodes d -> ∃ payload, project d n = Ok payload ∧
  node_id payload = node_id (dn_ir n) ∧ names_host n payload.
Proof.
  intros Hin. unfold project, names_host. destruct (dn_attached_to_key n) as [h|] eqn:Eh; [|by eexists].
  destruct (do_attached _ Hok n h Hin Eh) as [Hb Hk]. apply (index_known d Hrep) in Hk as [i Hi].
  rewrite Hi. cbn. pose proof Hi as (host & Hhost & _)%(rep_index _ Hrep). rewrite Hhost. cbn.
  assert (Hnode : node d h = Some host) by (unfold node; by rewrite Hi).
  destruct (dn_ir n); try done; eexists; (split; [done|]); (split; [done|]); intros h' host' [= <-]; congruence.
Qed.

Lemma project_nodes k : k <= length (dnodes d) -> ∃ ir map,
  try_fold (project_node d) (mkGraph [] [], ∅) (seq 0 k) = Ok (ir, map) ∧ ig_edges ir = [] ∧
  length (ig_nodes ir) = k ∧ (∀ i, map !! i = if decide (i < k) then Some i else None) ∧
  ∀ i payload, ig_nodes ir !! i = Some payload -> ∃ n, dnodes d !! i = Some n ∧ project d n = Ok payload.
Proof.
  induction k as [|k IH]; intros Hk.
  { exists (mkGraph [] []), ∅. split_and!; [done|done|done|by intros i; rewrite lookup_empty|done]. }
  destruct IH as (ir & map & Hf & He & Hlen & Hmap & Hn); [lia|].
  rewrite seq_S, try_fold_app. cbn [try_fold]. rewrite Hf. cbn [mbind Result_bind].
  destruct (lookup_lt_is_Some_2 (dnodes d) k) as [n Hnk]; [lia|].
  destruct (project_total n) as (payload & Hp & _); [by eapply list_elem_of_lookup_2|].
  cbn [try_fold Nat.add]. unfold project_node. rewrite Hnk. cbn. rewrite Hp. cbn.
  eexists _, _. split; [done|]. cbn. split_and!; [done|rewrite length_app; cbn; lia| |].
  - intros i. destruct (decide (k = i)) as [<-|Hne].
    + rewrite lookup_insert_eq, decide_True by lia. by rewrite Hlen.
    + rewrite lookup_insert_ne, Hmap by done. repeat case_decide; (done || lia).
  - intros i p' [[Hlt Hi]|[Hi <-]]%lookup_snoc_Some; [by apply Hn|]. subst i. rewrite Hlen. eauto.
Qed.

Lemma project_edges map es ir : (∀ i, i < length (dnodes d) -> map !! i = Some i) ->
  (∀ a b w, (a, b, w) ∈ es -> a < length (dnodes d) ∧ b < length (dnodes d)) ->
  try_fold (project_edge map) ir es = Ok (mkGraph (ig_nodes ir) (ig_edges ir ++ (ir_edge <$> es))).
Proof.
  intros Hmap. revert ir. induction es as [|[[a b] w] es IH]; intros ir Hes.
  { cbn. rewrite app_nil_r. by destruct ir. }
  destruct (Hes a b w) as [Ha Hb]; [set_solver|]. cbn [try_fold]. unfold project_edge at 1.
  rewrite (Hmap a Ha), (Hmap b Hb). cbn [ok_or mbind Result_bind].
  rewrite IH by (intros; eapply Hes; by right). cbn. by rewrite <- app_assoc.
Qed.

(** The projection of a graph with the invariant. *)
Lemma to_ir_spec : ∃ ir, to_ir d = Ok ir ∧ ig_edges ir = ir_edge <$> dedges d ∧
  node_count ir = length (dnodes d) ∧
  ∀ i payload, node_at ir i = Some payload -> ∃ n, dnodes d !! i = Some n ∧ project d n = Ok payload.
Proof.
  destruct (project_nodes (length (dnodes d))) as (ir & map & Hf & He & Hlen & Hmap & Hn); [done|].
  unfold to_ir. rewrite Hf. cbn [mbind Result_bind].
  rewrite project_edges; [|intros i Hi; by rewrite Hmap, decide_True|apply (rep_wf _ Hrep)].
  eexists. split; [done|]. cbn. rewrite He. done.
Qed.

Lemma to_ir_ids ir : to_ir d = Ok ir -> node_id <$> ig_nodes ir = ids d.
Proof.
  destruct to_ir_spec as (ir' & -> & _ & Hlen & Hn). intros [= <-].
  apply list_eq_same_length with (length (dnodes d)); unfold ids; rewrite ?length_fmap; [done|done|].
  intros i x y _ (p & -> & Hp)%list_lookup_fmap_Some (m & -> & Hm)%list_lookup_fmap_Some.
  destruct (Hn i p Hp) as (m' & Hm' & Hpr). rewrite Hm in Hm'. injection Hm' as <-.
  destruct (project_total m) as (p' & Hp' & Hid & _); [by eapply list_elem_of_lookup_2|]. congruence.
Qed.

Lemma to_ir_sound ir : to_ir d = Ok ir ->
  graph_wf ir ∧ acyclic ir ∧ NoDup (node_id <$> ig_nodes ir) ∧ NoDup ((λ e, ie_id e.2) <$> ig_edges ir) ∧
  node_id <$> ig_nodes ir = ids d ∧
  ∀ i n payload, dnodes d !! i = Some n -> node_at ir i = Some payload -> names_host n payload.
Proof.
  destruct to_ir_spec as (ir' & Hir & He & Hlen & Hn). rewrite Hir. intros [= <-].
  assert (Hwf : graph_wf ir').
  { intros a b w. rewrite He, Hlen. intros ([[a' b'] w'] & [= -> -> _] & Hin)%list_elem_of_fmap.
    by apply (rep_wf _ Hrep a' b' w'). }
  assert (Hids : node_id <$> ig_nodes ir' = ids d) by (apply to_ir_ids; by rewrite Hir).
  split; [done|]. split_and!.
  - destruct (do_ranked _ Hok) as [r Hr]. set (rk := λ i, from_option (r ∘ dn_key) 0 (dnodes d !! i)).
    assert (Hstep : ∀ a b, edge ir' a b -> rk a < rk b).
    { intros a b [w Hin]. rewrite He in Hin. apply list_elem_of_fmap in Hin as ([[a' b'] w'] & [= -> -> _] & Hin).
      destruct (flow_of_edge d Hrep _ _ _ Hin) as (na & nb & Ha & Hb & _). unfold rk. rewrite Ha, Hb. cbn.
      apply (Hr _ _ w'). apply (elem_of_flows d Hrep). eauto 10. }
    intros n Htc. assert (Hlt : ∀ a b, tc (edge ir') a b -> rk a < rk b).
    { induction 1 as [a b Hab|a b c Hab _ IH]; [by apply Hstep|]. apply Hstep in Hab. lia. }
    specialize (Hlt n n Htc). lia.
  - rewrite Hids. apply (rep_ids _ Hrep).
  - rewrite He, <- list_fmap_compose.
    assert (Hfids : (λ e, de_id e.2) <$> dedges d = flow_ids d).
    { assert (Hw : (flows d).*2 = (dedges d).*2).
      { unfold flows. rewrite omap_flow_weights; [done|]. intros [[a b] w] Hin.
        destruct (flow_of_edge d Hrep _ _ _ Hin) as (? & ? & _ & _ & ->). by eexists. }
      unfold flow_ids. apply (f_equal (fmap de_id)) in Hw. by rewrite <- !list_fmap_compose in Hw. }
    change (NoDup ((λ e, de_id e.2) <$> dedges d)). rewrite Hfids. apply (rep_flow_ids _ Hrep).
  - done.
  - intros i n payload Hi Hp. destruct (Hn i payload Hp) as (n' & Hn' & Hpr). rewrite Hi in Hn'. injection Hn' as <-.
    destruct (project_total n) as (p' & Hp' & _ & Hh); [by eapply list_elem_of_lookup_2|]. rewrite Hpr in Hp'. by injection Hp' as ->.
Qed.
End projection.

(** ** Operations that succeed *)

(** A key of a graph some steps earlier. *)
Ltac known := repeat match goal with H : keys _ = _ |- _ => rewrite H end;
  rewrite ?elem_of_app, ?list_elem_of_singleton; tauto.

Section succeed.
Context {PD : PetDesigner} {HL : PetDesignerLaws PD}.
Variable prov : Provenance.

Lemma insert_node_ok key ir prov' d : rep d -> key ∉ keys d -> node_id ir ∉ ids d ->
  ∃ d', insert_node key ir None prov' d = Ok d' ∧ rep d' ∧ flows d' = flows d ∧
    dnodes d' = dnodes d ++ [mkDesignerNode key ir None prov'].
Proof.
  intros Hrep Hk Hid. assert (∃ d', insert_node key ir None prov' d = Ok d') as [d' H].
  { unfold insert_node. assert (Hk' : known d key = false) by (apply not_true_is_false; by rewrite known_spec).
    rewrite Hk'. cbn. rewrite bool_decide_true by (by rewrite (rep_id_set _ Hrep)). cbn. by eexists. }
  exists d'. pose proof (insert_node_inv d d' Hrep _ _ _ _ H) as (_ & _ & _ & Hn & _).
  by destruct (insert_node_rep d d' Hrep _ _ _ _ H).
Qed.

Lemma insert_guard_ok key ir host prov' d : rep d -> key ∉ keys d -> node_id ir ∉ ids d -> host ∈ keys d ->
  is_boundary ir = true -> is_ok (insert_node key ir (Some host) prov' d) = true.
Proof.
  intros Hrep Hk Hid Hh Hb. unfold insert_node.
  assert (Hk' : known d key = false) by (apply not_true_is_false; by rewrite known_spec).
  apply (known_spec d Hrep) in Hh. rewrite Hk'. cbn. rewrite bool_decide_true by (by rewrite (rep_id_set _ Hrep)).
  cbn. rewrite Hh. cbn. by rewrite Hb.
Qed.

Lemma insert_edge_ok from to e d : rep d -> from ∈ keys d -> to ∈ keys d -> de_id e ∉ flow_ids d ->
  ∃ d', insert_edge from to e d = Ok d' ∧ rep d' ∧ dnodes d' = dnodes d ∧ flows d' = flows d ++ [(from, to, e)].
Proof.
  intros Hrep [f Hf]%(index_known d Hrep) [t Ht]%(index_known d Hrep) Hid.
  assert (∃ d', insert_edge from to e d = Ok d') as [d' H].
  { unfold insert_edge. rewrite bool_decide_true by (by rewrite (rep_flow_set _ Hrep)). cbn.
    rewrite Hf, Ht. by eexists. }
  exists d'. by destruct (insert_edge_rep d d' Hrep _ _ _ H) as (? & ? & ? & _).
Qed.

Lemma detach_out_ok k ts d : rep d -> ts ⊆+ (λ f, f.1.2) <$> filter (λ f, f.1.1 = k) (flows d) ->
  ∃ r, detach_out k ts d = Ok r.
Proof.
  revert d. induction ts as [|t ts IH]; intros d Hrep Hsub; [by eexists|]. cbn.
  assert (Hin : t ∈ (λ f, f.1.2) <$> filter (λ f, f.1.1 = k) (flows d)).
  { eapply elem_of_submseteq; [|exact Hsub]. set_solver. }
  apply list_elem_of_fmap in Hin as ([[a b] w] & -> & [Ha Hin]%list_elem_of_filter). cbn in Ha. subst a. cbn.
  destruct (remove_edge_ok d Hrep _ _ _ Hin) as [[e d1] H1]. rewrite H1. cbn.
  destruct (remove_edge_rep d d1 Hrep _ _ _ H1) as (Hr1 & _ & Hf1).
  destruct (IH d1 Hr1) as [[es d2] H2]; [|rewrite H2; by eexists].
  rewrite Hf1, filter_cons_True in Hsub by done. cbn in Hsub.
  by apply (submseteq_app_inv_l _ _ [b]).
Qed.

Lemma detach_in_ok k ss d : rep d -> ss ⊆+ (λ f, f.1.1) <$> filter (λ f, f.1.2 = k) (flows d) ->
  ∃ r, detach_in ss k d = Ok r.
Proof.
  revert d. induction ss as [|t ts IH]; intros d Hrep Hsub; [by eexists|]. cbn.
  assert (Hin : t ∈ (λ f, f.1.1) <$> filter (λ f, f.1.2 = k) (flows d)).
  { eapply elem_of_submseteq; [|exact Hsub]. set_solver. }
  apply list_elem_of_fmap in Hin as ([[a b] w] & -> & [Ha Hin]%list_elem_of_filter). cbn in Ha. subst b. cbn.
  destruct (remove_edge_ok d Hrep _ _ _ Hin) as [[e d1] H1]. rewrite H1. cbn.
  destruct (remove_edge_rep d d1 Hrep _ _ _ H1) as (Hr1 & _ & Hf1).
  destruct (IH d1 Hr1) as [[es d2] H2]; [|rewrite H2; by eexists].
  rewrite Hf1, filter_cons_True in Hsub by done. cbn in Hsub.
  by apply (submseteq_app_inv_l _ _ [a]).
Qed.

Lemma attach_out_ok key es d : rep d -> key ∈ keys d -> Forall (.∈ keys d) es.*1 ->
  NoDup ((de_id <$> es.*2) ++ flow_ids d) -> ∃ d', attach_out key es d = Ok d' ∧ rep d' ∧ dnodes d' = dnodes d ∧
    flows d' = flows d ++ out_of key es.
Proof.
  intros Hrep Hk Hes Hnd. assert (∃ d', attach_out key es d = Ok d') as [d' H].
  2:{ exists d'. split; [done|]. by apply attach_out_spec. }
  unfold attach_out. revert d Hrep Hk Hes Hnd. induction es as [|[t e] es IH]; intros d Hrep Hk Hes Hnd; [by eexists|].
  cbn in Hes, Hnd |- *. apply Forall_cons in Hes as [Ht Hes]. apply NoDup_cons in Hnd as [Hid Hnd].
  apply not_elem_of_app in Hid as [Hid1 Hid2].
  destruct (insert_edge_ok key t e d) as (d1 & -> & Hr1 & Hn1 & Hf1); [done..|].
  apply IH; [done|by rewrite (keys_of_nodes d1 d)|by rewrite (keys_of_nodes d1 d)|].
  unfold flow_ids. rewrite Hf1, fmap_app. cbn. rewrite (assoc (++)). apply NoDup_app. split_and!; [done| |apply NoDup_singleton].
  intros x Hx ->%list_elem_of_singleton. apply elem_of_app in Hx as [Hx|Hx]; [by apply Hid1|by apply Hid2].
Qed.

Lemma attach_in_ok key es d : rep d -> key ∈ keys d -> Forall (.∈ keys d) es.*1 ->
  NoDup ((de_id <$> es.*2) ++ flow_ids d) -> ∃ d', attach_in key es d = Ok d' ∧ rep d' ∧ dnodes d' = dnodes d ∧
    flows d' = flows d ++ into key es.
Proof.
  intros Hrep Hk Hes Hnd. assert (∃ d', attach_in key es d = Ok d') as [d' H].
  2:{ exists d'. split; [done|]. by apply attach_in_spec. }
  unfold attach_in. revert d Hrep Hk Hes Hnd. induction es as [|[t e] es IH]; intros d Hrep Hk Hes Hnd; [by eexists|].
  cbn in Hes, Hnd |- *. apply Forall_cons in Hes as [Ht Hes]. apply NoDup_cons in Hnd as [Hid Hnd].
  apply not_elem_of_app in Hid as [Hid1 Hid2].
  destruct (insert_edge_ok t key e d) as (d1 & -> & Hr1 & Hn1 & Hf1); [done..|].
  apply IH; [done|by rewrite (keys_of_nodes d1 d)|by rewrite (keys_of_nodes d1 d)|].
  unfold flow_ids. rewrite Hf1, fmap_app. cbn. rewrite (assoc (++)). apply NoDup_app. split_and!; [done| |apply NoDup_singleton].
  intros x Hx ->%list_elem_of_singleton. apply elem_of_app in Hx as [Hx|Hx]; [by apply Hid1|by apply Hid2].
Qed.

(** The flows of a node detached, with what is needed to attach them again. *)
Lemma detach_successors_ok d k : rep d -> ∃ es d1, detach_out k (successors d k) d = Ok (es, d1) ∧
  rep d1 ∧ dnodes d1 = dnodes d ∧ flows d ≡ₚ out_of k es ++ flows d1 ∧ Forall (.∈ keys d) es.*1 ∧
  flow_ids d ≡ₚ (de_id <$> es.*2) ++ flow_ids d1.
Proof.
  intros Hrep. destruct (detach_out_ok k (successors d k) d Hrep) as [[es d1] H].
  { by rewrite successors_spec. }
  destruct (detach_successors d k es d1 Hrep H) as (Hr & Hn & Hf & _). exists es, d1. split_and!; [done..| |].
  - apply Forall_forall. intros t ([t' e] & -> & Hin)%list_elem_of_fmap.
    apply (flow_keys d Hrep k t' e). rewrite Hf. apply elem_of_app. left. apply list_elem_of_fmap. by exists (t', e).
  - unfold flow_ids. rewrite Hf, fmap_app. unfold out_of. by rewrite <- !list_fmap_compose.
Qed.

Lemma detach_predecessors_ok d k : rep d -> ∃ es d1, detach_in (predecessors d k) k d = Ok (es, d1) ∧
  rep d1 ∧ dnodes d1 = dnodes d ∧ flows d ≡ₚ into k es ++ flows d1 ∧ Forall (.∈ keys d) es.*1 ∧
  flow_ids d ≡ₚ (de_id <$> es.*2) ++ flow_ids d1.
Proof.
  intros Hrep. destruct (detach_in_ok k (predecessors d k) d Hrep) as [[es d1] H].
  { by rewrite predecessors_spec. }
  destruct (detach_predecessors d k es d1 Hrep H) as (Hr & Hn & Hf & _). exists es, d1. split_and!; [done..| |].
  - apply Forall_forall. intros t ([t' e] & -> & Hin)%list_elem_of_fmap.
    apply (flow_keys d Hrep t' k e). rewrite Hf. apply elem_of_app. left. apply list_elem_of_fmap. by exists (t', e).
  - unfold flow_ids. rewrite Hf, fmap_app. unfold into. by rewrite <- !list_fmap_compose.
Qed.

(** Names not yet in use, taken one by one. *)
Lemma fresh_cons {A} (x : A) l m : NoDup ((x :: l) ++ m) -> x ∉ m ∧ NoDup (l ++ (m ++ [x])).
Proof.
  cbn. intros H. assert (Hx : x ∉ l ++ m) by by apply NoDup_cons in H as [Hx _].
  split; [set_solver|]. rewrite (assoc (++)), (comm (++) (l ++ m) [x]). exact H.
Qed.

Lemma insert_node_fresh key ir ks nids d : rep d -> NoDup ((key :: ks) ++ keys d) ->
  NoDup ((node_id ir :: nids) ++ ids d) -> ∃ d', insert_node key ir None prov d = Ok d' ∧ rep d' ∧
    flows d' = flows d ∧ keys d' = keys d ++ [key] ∧ NoDup (ks ++ keys d') ∧ NoDup (nids ++ ids d').
Proof.
  intros Hrep [Hk Hks]%fresh_cons [Hi His]%fresh_cons.
  destruct (insert_node_ok key ir prov d Hrep Hk Hi) as (d' & H & Hr & Hf & Hn). exists d'.
  assert (Hkeys : keys d' = keys d ++ [key]) by (unfold keys; by rewrite Hn, fmap_app).
  assert (Hids : ids d' = ids d ++ [node_id ir]) by (unfold ids; by rewrite Hn, fmap_app).
  by rewrite Hids, Hkeys.
Qed.

Lemma insert_edge_fresh from to e es d : rep d -> from ∈ keys d -> to ∈ keys d ->
  NoDup ((de_id e :: es) ++ flow_ids d) -> ∃ d', insert_edge from to e d = Ok d' ∧ rep d' ∧
    keys d' = keys d ∧ ids d' = ids d ∧ NoDup (es ++ flow_ids d').
Proof.
  intros Hrep Ha Hb [Hi Hes]%fresh_cons.
  destruct (insert_edge_ok from to e d Hrep Ha Hb Hi) as (d' & H & Hr & Hn & Hf). exists d'.
  unfold keys, ids, flow_ids. rewrite Hn, Hf, fmap_app. done.
Qed.

Definition branch_edge_ids (b : RegionBranch) : list string := [rb_in_edge_id b; rb_out_edge_id b].

Lemma region_branches_ok fork join bs es d : rep d -> fork ∈ keys d -> join ∈ keys d ->
  NoDup ((rb_key <$> bs) ++ keys d) -> NoDup (((λ b, node_id (rb_node b)) <$> bs) ++ ids d) ->
  NoDup ((bs ≫= branch_edge_ids) ++ es ++ flow_ids d) ->
  ∃ d', try_fold (region_branch prov fork join) d bs = Ok d' ∧ rep d' ∧ keys d ⊆ keys d' ∧
    NoDup (es ++ flow_ids d').
Proof.
  revert d. induction bs as [|b bs IH]; intros d Hrep Hfork Hjoin Hks His Hes; [by eexists|].
  csimpl in Hks. csimpl in His. cbn [try_fold]. unfold region_branch at 1.
  destruct (insert_node_fresh _ _ _ _ d Hrep Hks His) as (d1 & -> & Hr1 & Hf1 & Hk1 & Hks1 & His1).
  cbn [mbind Result_bind]. rewrite bind_cons in Hes. cbn [branch_edge_ids] in Hes. rewrite <- !app_assoc in Hes.
  assert (Hes1 : NoDup (de_id (plain_edge prov (rb_in_edge_id b) (rb_condition b)) :: rb_out_edge_id b ::
     ((bs ≫= branch_edge_ids) ++ es) ++ flow_ids d1)).
  { unfold flow_ids. rewrite Hf1, <- app_assoc. exact Hes. }
  destruct (insert_edge_fresh fork (rb_key b) (plain_edge prov (rb_in_edge_id b) (rb_condition b))
     (rb_out_edge_id b :: (bs ≫= branch_edge_ids) ++ es) d1 Hr1)
    as (d2 & -> & Hr2 & Hk2 & Hi2 & Hes2); [known|known|exact Hes1|]. cbn [mbind Result_bind].
  destruct (insert_edge_fresh (rb_key b) join (plain_edge prov (rb_out_edge_id b) None)
     ((bs ≫= branch_edge_ids) ++ es) d2 Hr2) as (d3 & -> & Hr3 & Hk3 & Hi3 & Hes3); [known|known|exact Hes2|].
  destruct (IH d3) as (d' & -> & Hr & Hk & He); [done|known|known| | | |].
  - by rewrite Hk3, Hk2.
  - by rewrite Hi3, Hi2.
  - by rewrite (assoc (++)).
  - exists d'. split_and!; [done..| |done]. intros k Hin. apply Hk. known.
Qed.

Lemma construct_region_ok anchor fork fork_ir join join_ir e bs d : rep d -> anchor ∈ keys d ->
  NoDup ((fork :: join :: (rb_key <$> bs)) ++ keys d) ->
  NoDup ((node_id fork_ir :: node_id join_ir :: ((λ b, node_id (rb_node b)) <$> bs)) ++ ids d) ->
  NoDup ((e :: (bs ≫= branch_edge_ids)) ++ flow_ids d) ->
  ∃ d', construct_region prov anchor fork fork_ir join join_ir e bs d = Ok d'.
Proof.
  intros Hrep Ha Hks His Hes. unfold construct_region.
  destruct (detach_successors_ok d anchor Hrep) as (moved & d1 & -> & Hr1 & Hn1 & Hf1 & Hm & Hi1).
  cbn [mbind Result_bind]. assert (Hk1 : keys d1 = keys d) by by apply keys_of_nodes.
  assert (Hid1 : ids d1 = ids d) by (unfold ids; by rewrite Hn1). rewrite <- Hk1 in Hks. rewrite <- Hid1 in His.
  destruct (insert_node_fresh _ _ _ _ d1 Hr1 Hks His) as (d2 & -> & Hr2 & Hf2 & Hk2 & Hks2 & His2). cbn [mbind Result_bind].
  assert (Hes1 : NoDup ((de_id (plain_edge prov e None) :: (bs ≫= branch_edge_ids) ++ (de_id <$> moved.*2)) ++ flow_ids d2)).
  { unfold flow_ids. rewrite Hf2. cbn. rewrite <- app_assoc. change (NoDup ((e :: (bs ≫= branch_edge_ids)) ++
      (de_id <$> moved.*2) ++ flow_ids d1)). by rewrite <- Hi1. }
  destruct (insert_edge_fresh anchor fork (plain_edge prov e None) ((bs ≫= branch_edge_ids) ++ (de_id <$> moved.*2)) d2 Hr2)
    as (d3 & -> & Hr3 & Hk3 & Hi3 & Hes3); [known|known|exact Hes1|].
  cbn [mbind Result_bind]. rewrite <- Hk3 in Hks2. rewrite <- Hi3 in His2.
  destruct (insert_node_fresh _ _ _ _ d3 Hr3 Hks2 His2) as (d4 & -> & Hr4 & Hf4 & Hk4 & Hks4 & His4). cbn [mbind Result_bind].
  destruct (region_branches_ok fork join bs (de_id <$> moved.*2) d4) as (d5 & -> & Hr5 & Hk5 & Hes5);
    [done|known|known|done|done| |].
  { unfold flow_ids. rewrite Hf4, (assoc (++)). exact Hes3. }
  cbn [mbind Result_bind]. destruct (attach_out_ok join moved d5) as (d' & -> & _); [done|apply Hk5; known| |done|by eexists].
  eapply Forall_impl; [exact Hm|]. cbn. intros k Hin. apply Hk5. known.
Qed.

Lemma insert_after_ok anchor key n e d : rep d -> anchor ∈ keys d -> key ∉ keys d -> node_id n ∉ ids d ->
  e ∉ flow_ids d -> ∃ d', insert_after prov anchor key n e d = Ok d'.
Proof.
  intros Hrep Ha Hk Hid He. unfold insert_after.
  destruct (detach_successors_ok d anchor Hrep) as (moved & d1 & -> & Hr1 & Hn1 & Hf1 & Hm & Hi1).
  cbn [mbind Result_bind]. assert (Hk1 : keys d1 = keys d) by by apply keys_of_nodes.
  destruct (insert_node_ok key n prov d1 Hr1) as (d2 & -> & Hr2 & Hf2 & Hn2);
    [by rewrite Hk1|unfold ids; by rewrite Hn1|]. cbn [mbind Result_bind].
  assert (Hk2 : keys d2 = keys d ++ [key]) by (unfold keys; by rewrite Hn2, fmap_app, Hn1).
  rewrite Hi1 in He. apply not_elem_of_app in He as [He1 He2].
  destruct (insert_edge_ok anchor key (plain_edge prov e None) d2 Hr2) as (d3 & -> & Hr3 & Hn3 & Hf3);
    [known|known|unfold flow_ids; by rewrite Hf2|]. cbn [mbind Result_bind].
  assert (Hk3 : keys d3 = keys d ++ [key]) by (rewrite <- Hk2; by apply keys_of_nodes).
  destruct (attach_out_ok key moved d3) as (d' & -> & _); [done|known| | |by eexists].
  - eapply Forall_impl; [exact Hm|]. cbn. intros k Hin. known.
  - pose proof (rep_flow_ids _ Hrep) as Hnd. rewrite Hi1 in Hnd. unfold flow_ids. rewrite Hf3, Hf2, fmap_app, (assoc (++)).
    apply NoDup_app. split_and!; [done| |apply NoDup_singleton]. intros x Hx ->%list_elem_of_singleton.
    by apply elem_of_app in Hx as [Hx|Hx].
Qed.

Lemma insert_before_ok anchor key n e d : rep d -> anchor ∈ keys d -> key ∉ keys d -> node_id n ∉ ids d ->
  e ∉ flow_ids d -> ∃ d', insert_before prov anchor key n e d = Ok d'.
Proof.
  intros Hrep Ha Hk Hid He. unfold insert_before.
  destruct (detach_predecessors_ok d anchor Hrep) as (moved & d1 & -> & Hr1 & Hn1 & Hf1 & Hm & Hi1).
  cbn [mbind Result_bind]. assert (Hk1 : keys d1 = keys d) by by apply keys_of_nodes.
  destruct (insert_node_ok key n prov d1 Hr1) as (d2 & -> & Hr2 & Hf2 & Hn2);
    [by rewrite Hk1|unfold ids; by rewrite Hn1|]. cbn [mbind Result_bind].
  assert (Hk2 : keys d2 = keys d ++ [key]) by (unfold keys; by rewrite Hn2, fmap_app, Hn1).
  rewrite Hi1 in He. apply not_elem_of_app in He as [He1 He2].
  destruct (insert_edge_ok key anchor (plain_edge prov e None) d2 Hr2) as (d3 & -> & Hr3 & Hn3 & Hf3);
    [known|known|unfold flow_ids; by rewrite Hf2|]. cbn [mbind Result_bind].
  assert (Hk3 : keys d3 = keys d ++ [key]) by (rewrite <- Hk2; by apply keys_of_nodes).
  destruct (attach_in_ok key moved d3) as (d' & -> & _); [done|known| | |by eexists].
  - eapply Forall_impl; [exact Hm|]. cbn. intros k Hin. known.
  - pose proof (rep_flow_ids _ Hrep) as Hnd. rewrite Hi1 in Hnd. unfold flow_ids. rewrite Hf3, Hf2, fmap_app, (assoc (++)).
    apply NoDup_app. split_and!; [done| |apply NoDup_singleton]. intros x Hx ->%list_elem_of_singleton.
    by apply elem_of_app in Hx as [Hx|Hx].
Qed.
End succeed.

Section replace_ok.
Context {PD : PetDesigner} {HL : PetDesignerLaws PD}.
Variable prov : Provenance.

(** What is left of a graph when a node without flows goes. *)
Lemma remove_bare_node_ok target d : rep d -> target ∈ keys d ->
  (∀ f, f ∈ flows d -> f.1.1 ≠ target ∧ f.1.2 ≠ target) ->
  ∃ d', remove_node target d = Ok d' ∧ rep d' ∧ flows d' ≡ₚ flows d ∧ keys d ≡ₚ target :: keys d' ∧
    ∀ id, id ∉ ids d -> id ∉ ids d'.
Proof.
  intros Hrep Hk Hbare. pose proof (remove_node_ok d Hrep target Hk) as Hok.
  destruct (remove_node target d) as [d'|] eqn:E; [|done]. exists d'. split; [done|].
  destruct (remove_node_rep d d' Hrep target E) as (n & _ & <- & Hr & Hn & Hf).
  split; [done|]. split; [|split].
  - rewrite Hf. assert (Hall : filter (away n) (flows d) = flows d); [|by rewrite Hall].
    clear -Hbare. induction (flows d) as [|f fl IH]; [done|].
    rewrite filter_cons_True by (apply Hbare; set_solver). rewrite IH; [done|]. intros f' Hf'. apply Hbare. set_solver.
  - unfold keys. by rewrite Hn.
  - intros id. unfold ids. rewrite Hn. cbn. rewrite elem_of_cons. tauto.
Qed.

Lemma replace_node_ok target key n d : rep d -> (∀ a w, (a, a, w) ∉ flows d) -> target ∈ keys d ->
  nodes_attached_to d target = [] -> key ∉ keys d -> node_id n ∉ ids d ->
  ∃ d', replace_node prov target key n d = Ok d'.
Proof.
  intros Hrep Hself Ht Hatt Hk Hid. unfold replace_node. cbv zeta.
  assert (Hnode : is_Some (node d target)).
  { apply (index_known d Hrep) in Ht as [i Hi]. unfold node. rewrite Hi. cbn.
    pose proof Hi as (m & Hm & _)%(rep_index _ Hrep). by rewrite Hm. }
  rewrite Hatt. repeat (rewrite bool_decide_true by done; cbn [ensure mbind Result_bind]).
  destruct (detach_predecessors_ok d target Hrep) as (ins & d1 & H1 & Hr1 & Hn1 & Hf1 & Hi & Hid1).
  destruct (detach_predecessors d target ins d1 Hrep H1) as (_ & _ & _ & Hno1).
  rewrite H1. cbn [mbind Result_bind].
  destruct (detach_successors_ok d1 target Hr1) as (outs & d2 & H2 & Hr2 & Hn2 & Hf2 & Ho & Hid2).
  destruct (detach_successors d1 target outs d2 Hr1 H2) as (_ & _ & _ & Hno2).
  rewrite H2. cbn [mbind Result_bind].
  assert (Hk2 : keys d2 = keys d) by (apply keys_of_nodes; congruence).
  assert (Hids2 : ids d2 = ids d) by (unfold ids; by rewrite Hn2, Hn1).
  destruct (remove_bare_node_ok target d2 Hr2) as (d3 & -> & Hr3 & Hf3 & Hk3 & Hid3); [by rewrite Hk2| |].
  { intros f Hf. split; [by apply Hno2|]. apply Hno1. rewrite Hf2. set_solver. }
  cbn [mbind Result_bind].
  assert (Hin : ∀ k, k ∈ keys d -> k ≠ target -> k ∈ keys d3).
  { intros k Hin Hne. rewrite <- Hk2, Hk3 in Hin. by apply elem_of_cons in Hin as [|]. }
  destruct (insert_node_ok key n prov d3 Hr3) as (d4 & -> & Hr4 & Hf4 & Hn4).
  { intros Hin3. apply Hk. rewrite <- Hk2, Hk3. by right. }
  { apply Hid3. by rewrite Hids2. }
  cbn [mbind Result_bind]. assert (Hk4 : keys d4 = keys d3 ++ [key]) by (unfold keys; by rewrite Hn4, fmap_app).
  assert (Hflow : flow_ids d4 ≡ₚ flow_ids d2) by (unfold flow_ids; by rewrite Hf4, Hf3).
  pose proof (rep_flow_ids _ Hrep) as Hnd. rewrite Hid1, Hid2 in Hnd.
  destruct (attach_in_ok key ins d4) as (d5 & -> & Hr5 & Hn5 & Hf5); [done|known| | |].
  { apply Forall_forall. intros k Hkin. rewrite Hk4. apply elem_of_app. left.
    apply Hin; [by eapply (Forall_forall (.∈ keys d))|]. intros ->.
    apply list_elem_of_fmap in Hkin as ([s e] & -> & Hse). apply (Hself s e). rewrite Hf1. apply elem_of_app. left.
    apply list_elem_of_fmap. by exists (s, e). }
  { rewrite Hflow. rewrite (assoc (++)), (comm (++) (de_id <$> ins.*2)), <- (assoc (++)) in Hnd.
    by apply NoDup_app in Hnd as (_ & _ & ?). }
  cbn [mbind Result_bind]. assert (Hk5 : keys d5 = keys d4) by by apply keys_of_nodes.
  destruct (attach_out_ok key outs d5) as (d' & -> & _); [done|known| | |by eexists].
  { apply Forall_forall. intros k Hkin. rewrite Hk5, Hk4. apply elem_of_app. left.
    apply Hin; [rewrite <- (keys_of_nodes d1 d) by done; by eapply (Forall_forall (.∈ keys d1))|]. intros ->.
    apply list_elem_of_fmap in Hkin as ([s e] & -> & Hse). cbn in *.
    apply (Hself s e). rewrite Hf1, Hf2. apply elem_of_app. right. apply elem_of_app. left.
    apply list_elem_of_fmap. by exists (s, e). }
  assert (Hflow5 : flow_ids d5 ≡ₚ (de_id <$> ins.*2) ++ flow_ids d2).
  { rewrite <- Hflow. unfold flow_ids. rewrite Hf5, fmap_app, (comm (++)). unfold into. by rewrite <- !list_fmap_compose. }
  rewrite Hflow5. revert Hnd. apply NoDup_Permutation_proper. solve_Permutation.
Qed.

Lemma append_node_ok anchor key n e d : rep d -> anchor ∈ keys d -> (∀ f, f ∈ flows d -> f.1.1 ≠ anchor) ->
  key ∉ keys d -> node_id n ∉ ids d -> e ∉ flow_ids d ->
  ∃ d', append_node prov anchor key n e d = Ok d' ∧ rep d' ∧ keys d' = keys d ++ [key] ∧
    ids d' = ids d ++ [node_id n] ∧ flows d' = flows d ++ [(anchor, key, plain_edge prov e None)].
Proof.
  intros Hrep Ha Hbare Hk Hid He. unfold append_node.
  assert (Hs : successors d anchor = []).
  { apply Permutation_nil_r. rewrite successors_spec by done. by rewrite filter_none. }
  rewrite Hs, bool_decide_true by done. cbn [ensure mbind Result_bind].
  destruct (insert_node_ok key n prov d Hrep Hk Hid) as (d1 & -> & Hr1 & Hf1 & Hn1). cbn [mbind Result_bind].
  assert (Hk1 : keys d1 = keys d ++ [key]) by (unfold keys; by rewrite Hn1, fmap_app).
  destruct (insert_edge_ok anchor key (plain_edge prov e None) d1 Hr1) as (d' & -> & Hr & Hn & Hf);
    [known|known|unfold flow_ids; by rewrite Hf1|]. exists d'. split_and!; [done..| | |by rewrite Hf, Hf1].
  - rewrite <- Hk1. by apply keys_of_nodes.
  - unfold ids. by rewrite Hn, Hn1, fmap_app.
Qed.
End replace_ok.

(** ** Offered operations *)

(** Names a canonical instantiation may need. *)
Record Names := mkNames {
  nm_key1 : NodeKey; nm_key2 : NodeKey; nm_key3 : NodeKey; nm_key4 : NodeKey;
  nm_id1 : string; nm_id2 : string; nm_id3 : string; nm_id4 : string;
  nm_flow1 : string; nm_flow2 : string; nm_flow3 : string; nm_flow4 : string; nm_flow5 : string;
}.

Record fresh_names (d : DesignerDag) (nm : Names) : Prop := {
  fn_keys : NoDup ([nm_key1 nm; nm_key2 nm; nm_key3 nm; nm_key4 nm] ++ keys d);
  fn_ids : NoDup ([nm_id1 nm; nm_id2 nm; nm_id3 nm; nm_id4 nm] ++ ids d);
  fn_flows : NoDup ([nm_flow1 nm; nm_flow2 nm; nm_flow3 nm; nm_flow4 nm; nm_flow5 nm] ++ flow_ids d);
}.

Definition task (id : string) : IRNode := NServiceTask id id "work".
Definition flag_set : ConditionExpr := {| ce_flag_name := "flag"; ce_op := CEq; ce_literal := CLBool true |}.

(** Two branches. *)
Definition two_branches (nm : Names) (c : option ConditionExpr) : list RegionBranch :=
  [mkBranch (nm_key3 nm) (task (nm_id3 nm)) (nm_flow2 nm) (nm_flow3 nm) c;
   mkBranch (nm_key4 nm) (task (nm_id4 nm)) (nm_flow4 nm) (nm_flow5 nm) c].

(** The trigger of the kind of a guard. *)
Definition trigger_for (d : DesignerDag) (guard : NodeKey) : GuardTrigger :=
  match dn_ir <$> node d guard with
  | Some (NBoundaryTimer _ _ _ _ _) => GTTimer (TSDuration 1000)
  | _ => GTError None
  end.

(** The instantiation of a kind at an anchor, with new names and, for the two
    kinds that connect, a target. *)
Definition canonical (d : DesignerDag) (nm : Names) (kind : OperationKind) (key target : NodeKey)
  : option Operation :=
  match kind with
  | OKAppendNode => Some (AppendNode key (nm_key1 nm) (task (nm_id1 nm)) (nm_flow1 nm))
  | OKInsertBefore => Some (InsertBefore key (nm_key1 nm) (task (nm_id1 nm)) (nm_flow1 nm))
  | OKInsertAfter => Some (InsertAfter key (nm_key1 nm) (task (nm_id1 nm)) (nm_flow1 nm))
  | OKReplaceNode => Some (ReplaceNode key (nm_key1 nm) (task (nm_id1 nm)))
  | OKConnect => Some (Connect key target (nm_flow1 nm) None)
  | OKCreateBranch => Some (CreateBranch key target (nm_flow1 nm) None)
  | OKCreateParallelRegion => Some (CreateParallelRegion key (nm_key1 nm) (nm_id1 nm) (nm_key2 nm) (nm_id2 nm)
      (nm_flow1 nm) (two_branches nm None))
  | OKCreateInclusiveRegion => Some (CreateInclusiveRegion key (nm_key1 nm) (nm_id1 nm) (nm_key2 nm) (nm_id2 nm)
      (nm_flow1 nm) (two_branches nm (Some flag_set)))
  | OKCreateMultiInstanceRegion => Some (CreateMultiInstanceRegion key (nm_key1 nm)
      (NMultiInstance (nm_id1 nm) (nm_id1 nm) "work" "items" 10) (nm_flow1 nm))
  | OKAttachGuard => Some (AttachGuard key (nm_key1 nm) (nm_id1 nm) (GTError None))
  | OKAttachRearmingGuard => Some (AttachRearmingGuard key (nm_key1 nm) (nm_id1 nm) (GTTimer (TSCycle 1000 3)))
  | OKSetGuardTrigger => Some (SetGuardTrigger key (trigger_for d key))
  | OKSetGuardBudget => Some (SetGuardBudget key (Some 3%N))
  | OKSetCorrelationSource => Some (SetCorrelationSource key "order_id")
  | OKDeleteSubgraph => Some (DeleteNode key)
  | OKCreateRace | OKCloseParallelRegion | OKAttachRollbackGuard | OKCallSubprocess => None
  end.

(** Staging the canonical instantiation with a given target. *)
Ltac at_key k := exists k; eexists; split; [done|]; split; [done|].

Section positions.
Context {PD : PetDesigner}.
Variable d : DesignerDag.

Lemma elem_of_when {A} (b : bool) (l : list A) x : x ∈ when_ b l ↔ b = true ∧ x ∈ l.
Proof. destruct b; cbn; set_solver. Qed.

Global Instance set_unfold_when {A} (b : bool) (l : list A) x Q :
  SetUnfoldElemOf x l Q -> SetUnfoldElemOf x (when_ b l) (b = true ∧ Q).
Proof. intros [HQ]. constructor. by rewrite elem_of_when, HQ. Qed.

Lemma elem_of_sort_dedup {A} `{EqDecision A} (all l : list A) x : x ∈ sort_dedup all l -> x ∈ l.
Proof. unfold sort_dedup. rewrite list_elem_of_filter. tauto. Qed.

(** The position of an offered kind: where it stands and what holds there. *)
Definition position (kind : OperationKind) (key : NodeKey) : Prop :=
  ∃ idx n, dd_key_index d !! key = Some idx ∧ dnodes d !! idx = Some n ∧
  match kind with
  | OKInsertAfter | OKInsertBefore | OKCreateParallelRegion | OKCreateInclusiveRegion
  | OKCreateMultiInstanceRegion => True
  | OKConnect => has_forward_target d idx = true
  | OKCreateBranch => is_xor (dn_ir n) = true ∧ has_forward_target d idx = true
  | OKAppendNode => pd_edges_out (dd_graph d) idx = []
  | OKDeleteSubgraph | OKReplaceNode => nodes_attached_to d key = []
  | OKAttachGuard | OKAttachRearmingGuard => is_guard_host (dn_ir n) = true
  | OKSetGuardTrigger | OKSetGuardBudget => is_guard (dn_ir n) = true
  | OKSetCorrelationSource => is_corr_carrier (dn_ir n) = true
  | OKCreateRace | OKCloseParallelRegion | OKAttachRollbackGuard | OKCallSubprocess => False
  end.

Lemma ops_at_position kind key : kind ∈ ops_at d key -> position kind key.
Proof.
  unfold ops_at, position. destruct (dd_key_index d !! key) as [idx|]; cbn; [|by intros ?%not_elem_of_nil].
  destruct (dnodes d !! idx) as [n|] eqn:Hn; cbn; [|by intros ?%not_elem_of_nil].
  intros H. exists idx, n. split; [done|]. split; [done|]. set_unfold in H. repeat (destruct_or! || destruct_and!); subst; cbn;
    repeat match goal with
    | H : _ && _ = true |- _ => apply andb_true_iff in H as [? ?]
    | H : negb _ = true |- _ => apply negb_true_iff in H
    | H : negb _ = false |- _ => apply negb_false_iff in H
    | H : bool_decide _ = true |- _ => apply bool_decide_eq_true in H
    end; try done.
  by apply length_zero_iff_nil.
Qed.

Lemma forward_target idx : has_forward_target d idx = true ->
  ∃ other m, dnodes d !! other = Some m ∧ pd_has_path_connecting (dd_graph d) other idx = false.
Proof.
  unfold has_forward_target. intros (other & _ & [_ H]%andb_true_iff)%existsb_exists.
  destruct (dnodes d !! other) as [m|] eqn:Hm; [|done]. apply andb_true_iff in H as [_ H%negb_true_iff]. eauto.
Qed.

(** At an anchor, or anywhere. *)
Definition anchored (anchor : option NodeKey) (key : NodeKey) : Prop :=
  match anchor with Some k => key = k | None => key ∈ keys d end.

Lemma legal_position anchor kind : kind ∈ legal_operations d anchor -> ∃ key, anchored anchor key ∧ position kind key.
Proof.
  intros H%elem_of_sort_dedup. destruct anchor as [k|]; [exists k; split; [done|by apply ops_at_position]|].
  apply list_elem_of_bind in H as (key & H & Hk). exists key. split; [done|]. by apply ops_at_position.
Qed.
End positions.

Section offered.
Context {PD : PetDesigner} {HL : PetDesignerLaws PD}.
Variable prov : Provenance.
Variable d : DesignerDag.
Hypothesis Hok : dag_ok d.
Let Hrep := do_rep _ Hok.
Variable nm : Names.
Hypothesis Hnm : fresh_names d nm.

Lemma fresh_first : nm_key1 nm ∉ keys d ∧ nm_id1 nm ∉ ids d ∧ nm_flow1 nm ∉ flow_ids d.
Proof.
  destruct Hnm as [H1 H2 H3]. split_and!; [by apply fresh_cons in H1 as [? _]|by apply fresh_cons in H2 as [? _]|
    by apply fresh_cons in H3 as [? _]].
Qed.

Lemma region_stages key fork_ir join_ir c : key ∈ keys d -> node_id fork_ir = nm_id1 nm -> node_id join_ir = nm_id2 nm ->
  ∃ d', construct_region prov key (nm_key1 nm) fork_ir (nm_key2 nm) join_ir (nm_flow1 nm) (two_branches nm c) d = Ok d'.
Proof.
  intros Hk H1 H2. apply construct_region_ok; [done|done|exact (fn_keys _ _ Hnm)| |exact (fn_flows _ _ Hnm)].
  rewrite H1, H2. exact (fn_ids _ _ Hnm).
Qed.

Lemma position_stages kind key : position d kind key -> ∃ target op,
  canonical d nm kind key target = Some op ∧ self_anchored op = false ∧ ∃ d', apply_op prov op d = Ok d'.
Proof.
  intros (idx & n & Hi & Hn & H). assert (Hk : key ∈ keys d) by by apply (index_known d Hrep).
  assert (Hnode : node d key = Some n) by (unfold node; by rewrite Hi).
  assert (Hlabel : node_label d key = Some (node_id (dn_ir n))) by (unfold node_label; by rewrite Hnode).
  destruct fresh_first as (Hk1 & Hi1 & Hf1). assert (Hne : bool_decide (key = nm_key1 nm) = false).
  { apply bool_decide_eq_false. by intros ->. }
  destruct (do_ranked _ Hok) as [r Hr]. pose proof (ranked_self r _ Hr) as Hself.
  assert (Hguard : ∀ ir, node_id ir = nm_id1 nm -> is_boundary ir = true ->
    ∃ d', insert_node (nm_key1 nm) ir (Some key) prov d = Ok d').
  { intros ir Hir Hb. pose proof (insert_guard_ok (nm_key1 nm) ir key prov d Hrep Hk1) as Hg. rewrite Hir in Hg.
    specialize (Hg Hi1 Hk Hb). destruct (insert_node _ _ _ _ _); [by eexists|done]. }
  assert (Hflow : ∀ target t, dd_key_index d !! target = Some t -> ∃ d',
    insert_edge key target (plain_edge prov (nm_flow1 nm) None) d = Ok d').
  { intros target t Ht. destruct (insert_edge_ok key target (plain_edge prov (nm_flow1 nm) None) d) as (d' & -> & _);
      [done|done|by apply (index_known d Hrep)|done|by eexists]. }
  assert (Hforward : has_forward_target d idx = true -> ∃ other m, dd_key_index d !! dn_key m = Some other ∧
    dnodes d !! other = Some m ∧ pd_has_path_connecting (dd_graph d) other idx = false).
  { intros (other & m & Hm & Hp)%(forward_target d). exists other, m. split; [|done]. apply (rep_index _ Hrep). eauto. }
  destruct kind; cbn in H; try done.
  - at_key key. destruct (append_node_ok prov key (nm_key1 nm) (task (nm_id1 nm)) (nm_flow1 nm) d) as (d' & H' & _);
      [done..| |done|done|done|by exists d'].
    intros f Hf He. assert (Hin : f.1.2 ∈ successors d key).
    { rewrite successors_spec by done. apply (list_elem_of_fmap_2 (λ f, f.1.2)). by apply list_elem_of_filter. }
    unfold successors in Hin. rewrite Hi, H in Hin. by apply not_elem_of_nil in Hin.
  - at_key key. by apply insert_before_ok.
  - at_key key. by apply insert_after_ok.
  - at_key key. by apply replace_node_ok.
  - destruct (Hforward H) as (other & m & Ho & Hm & Hp). at_key (dn_key m). cbn.
    unfold connect. rewrite Hi, Ho. cbn. rewrite Hp. cbn. by apply (Hflow _ other).
  - destruct H as [Hx H]. destruct (Hforward H) as (other & m & Ho & Hm & Hp). at_key (dn_key m). cbn. unfold create_branch. rewrite Hnode. cbn.
    destruct (dn_ir n); try done. cbn. unfold node_label, node. rewrite Ho. cbn. rewrite Hm. cbn. rewrite Hi. cbn.
    rewrite Hp. cbn. by apply (Hflow _ other).
  - at_key key. by apply (region_stages key (NGatewayAnd _ _ _) (NGatewayAnd _ _ _)).
  - at_key key.
    by apply (region_stages key (NGatewayInclusive _ _ _) (NGatewayInclusive _ _ _)).
  - at_key key. by apply insert_after_ok.
  - at_key key. cbn. unfold attach_guard. rewrite Hlabel. cbn. by apply Hguard.
  - at_key key. cbn. unfold attach_rearming_guard. rewrite Hlabel. cbn. by apply Hguard.
  - at_key key. cbn. unfold set_guard_trigger, trigger_for. rewrite Hnode. cbn.
    destruct (dn_ir n); try done; cbn; rewrite ?andb_false_r; by eexists.
  - at_key key. cbn. unfold set_guard_budget. rewrite Hnode. cbn.
    destruct (dn_ir n); try done; by eexists.
  - at_key key. cbn. unfold set_correlation_source. rewrite Hnode. cbn.
    destruct (dn_ir n); try done; by eexists.
  - at_key key. cbn. unfold delete_node. cbv zeta. rewrite H. cbn.
    pose proof (remove_node_ok d Hrep key Hk) as Hrm. destruct (remove_node key d); [by eexists|done].
Qed.

End offered.

(** ** Offered productions *)

(** The instantiation of a production at an anchor, with new names. *)
Definition canonical_production (nm : Names) (p : ProductionId) (key : NodeKey) : option (list Operation) :=
  match p with
  | PIRequestAndWait => Some (request_and_wait (mkRequestAndWait key
      (nm_key1 nm) (NSendTask (nm_id1 nm) (nm_id1 nm) "request" "order_id") (nm_flow1 nm)
      (nm_key2 nm) (NMessageWait (nm_id2 nm) "response" "order_id") (nm_flow2 nm)))
  | PIReminderThenEscalate => Some (reminder_then_escalate (mkReminder key (nm_key1 nm) (nm_id1 nm) (TSCycle 1000 3)
      (nm_key2 nm) (task (nm_id2 nm)) (nm_flow1 nm) (nm_key3 nm) (NEnd (nm_id3 nm) false) (nm_flow2 nm)))
  | PIInterruptingTimeout => Some (interrupting_timeout (mkTimeout key (nm_key1 nm) (nm_id1 nm) 1000
      (nm_key2 nm) (task (nm_id2 nm)) (nm_flow1 nm) (nm_key3 nm) (NEnd (nm_id3 nm) false) (nm_flow2 nm)))
  | PINonInterruptingNotification => Some (non_interrupting_notification (mkNotification key (nm_key1 nm) (nm_id1 nm)
      1000 3 (nm_key2 nm) (task (nm_id2 nm)) (nm_flow1 nm) (nm_key3 nm) (NEnd (nm_id3 nm) false) (nm_flow2 nm)))
  | PITimerMessageRace | PIHumanReviewWithRework | PICallDurableSubprocess => None
  end.

Section productions.
Context {PD : PetDesigner} {HL : PetDesignerLaws PD}.
Variable prov : Provenance.
Variable d : DesignerDag.
Hypothesis Hok : dag_ok d.
Let Hrep := do_rep _ Hok.
Variable nm : Names.
Hypothesis Hnm : fresh_names d nm.

(** Where a production may stand. *)
Definition production_position (p : ProductionId) (key : NodeKey) : Prop := key ∈ keys d ∧
  match p with PITimerMessageRace | PIHumanReviewWithRework | PICallDurableSubprocess => False | _ => True end.

Lemma legal_production_position anchor p : p ∈ legal_productions d anchor ->
  ∃ key, anchored d anchor key ∧ production_position p key.
Proof.
  assert (Hat : ∀ key, p ∈ prods_at d key -> production_position p key).
  { intros key. unfold prods_at, production_position. destruct (dd_key_index d !! key) as [idx|] eqn:Hi; cbn;
      [|by intros ?%not_elem_of_nil]. destruct (dnodes d !! idx); cbn; [|by intros ?%not_elem_of_nil].
    intros H. split; [by apply (index_known d Hrep)|]. set_unfold in H.
    repeat (destruct_or! || destruct_and!); by subst. }
  intros H%elem_of_sort_dedup. destruct anchor as [k|]; [exists k; split; [done|by apply Hat]|].
  apply list_elem_of_bind in H as (key & H & Hk). exists key. split; [done|]. by apply Hat.
Qed.

Definition stages (ops : list Operation) : Prop := ∃ staged, apply_production prov d ops = Ok staged.

Lemma fold_step op last d1 d0 ops : apply_op prov op d0 = Ok d1 ->
  fold_operations prov d0 last (op :: ops) = fold_operations prov d1 (Some op) ops.
Proof. intros H. cbn. unfold apply_operation. by rewrite H. Qed.

Lemma fold_stages op ops d' op' : fold_operations prov d None (op :: ops) = Ok (d', Some op') -> stages (op :: ops).
Proof. intros H. unfold stages, apply_production. cbn [length]. rewrite H. cbn. by eexists. Qed.

(** Two insertions in a row. *)
Lemma request_stages key n1 n2 : key ∈ keys d -> node_id n1 = nm_id1 nm ∧ node_id n2 = nm_id2 nm ->
  stages [InsertAfter key (nm_key1 nm) n1 (nm_flow1 nm); InsertAfter (nm_key1 nm) (nm_key2 nm) n2 (nm_flow2 nm)].
Proof.
  intros Hk [Hid1 Hid2]. destruct Hnm as [Hks His Hes].
  apply fresh_cons in Hks as [Hk1 Hks]. apply fresh_cons in His as [Hi1 His]. apply fresh_cons in Hes as [He1 Hes].
  apply fresh_cons in Hks as [Hk2 _]. apply fresh_cons in His as [Hi2 _]. apply fresh_cons in Hes as [He2 _].
  destruct (insert_after_ok prov key (nm_key1 nm) n1 (nm_flow1 nm) d) as [d1 H1]; [done|done|done|by rewrite Hid1|done|].
  assert (Hne : key ≠ nm_key1 nm) by (intros ->; done).
  destruct (insert_after_edits prov d d1 Hrep _ _ _ _ Hne H1) as (Hr1 & _ & Hn1 & Hf1).
  assert (Hkeys1 : keys d1 ≡ₚ keys d ++ [nm_key1 nm]) by (unfold keys; rewrite Hn1; cbn; by rewrite fmap_app).
  assert (Hids1 : ids d1 ≡ₚ ids d ++ [nm_id1 nm]) by (unfold ids; rewrite Hn1; cbn; rewrite fmap_app; cbn; by rewrite Hid1).
  assert (Hfid1 : flow_ids d1 ≡ₚ flow_ids d ++ [nm_flow1 nm]).
  { unfold flow_ids. rewrite Hf1. cbn. rewrite <- Permutation_cons_append. f_equiv.
    rewrite <- list_fmap_compose. apply Permutation_refl'. apply list_fmap_ext. by intros i [[a b] w] _. }
  destruct (insert_after_ok prov (nm_key1 nm) (nm_key2 nm) n2 (nm_flow2 nm) d1) as [d2 H2];
    [done|rewrite Hkeys1; set_solver|by rewrite Hkeys1|by rewrite Hid2, Hids1|by rewrite Hfid1|].
  eapply fold_stages. rewrite (fold_step _ _ d1) by done. by rewrite (fold_step _ _ d2).
Qed.

(** A guard, then its escape path of two nodes. *)
Lemma escape_stages attach ir : nm_id1 nm = node_id ir ->
  (∃ key, key ∈ keys d ∧ is_boundary ir = true ∧ apply_op prov attach d = insert_node (nm_key1 nm) ir (Some key) prov d) ->
  stages [attach; AppendNode (nm_key1 nm) (nm_key2 nm) (task (nm_id2 nm)) (nm_flow1 nm);
          AppendNode (nm_key2 nm) (nm_key3 nm) (NEnd (nm_id3 nm) false) (nm_flow2 nm)].
Proof.
  intros Hid (key & Hk & Hb & Happ). destruct Hnm as [Hks His Hes].
  apply fresh_cons in Hks as [Hk1 Hks]. apply fresh_cons in His as [Hi1 His].
  assert (∃ d1, insert_node (nm_key1 nm) ir (Some key) prov d = Ok d1) as [d1 H1].
  { pose proof (insert_guard_ok (nm_key1 nm) ir key prov d Hrep Hk1) as Hg. rewrite <- Hid in Hg.
    specialize (Hg Hi1 Hk Hb). destruct (insert_node _ _ _ _ _); [by eexists|done]. }
  destruct (insert_node_rep d d1 Hrep _ _ _ _ H1) as [Hr1 Hf1].
  pose proof (insert_node_inv d d1 Hrep _ _ _ _ H1) as (_ & _ & _ & Hn1 & _).
  assert (Hkeys1 : keys d1 = keys d ++ [nm_key1 nm]) by (unfold keys; by rewrite Hn1, fmap_app).
  assert (Hids1 : ids d1 = ids d ++ [nm_id1 nm]) by (unfold ids; rewrite Hn1, fmap_app, Hid; done).
  assert (Hfid1 : flow_ids d1 = flow_ids d) by (unfold flow_ids; by rewrite Hf1).
  rewrite <- Hkeys1 in Hks. rewrite <- Hids1 in His. rewrite <- Hfid1 in Hes.
  apply fresh_cons in Hks as [Hk2 Hks]. apply fresh_cons in His as [Hi2 His]. apply fresh_cons in Hes as [He1 Hes].
  destruct (append_node_ok prov (nm_key1 nm) (nm_key2 nm) (task (nm_id2 nm)) (nm_flow1 nm) d1)
    as (d2 & H2 & Hr2 & Hkeys2 & Hids2 & Hf2); [done|known| |done..|].
  { intros [[a b] w] Hin Ha. cbn in Ha. subst a. rewrite Hf1 in Hin. by apply (flow_keys d Hrep) in Hin as [? _]. }
  assert (Hfid2 : flow_ids d2 = flow_ids d1 ++ [nm_flow1 nm]) by (unfold flow_ids; by rewrite Hf2, fmap_app).
  rewrite <- Hkeys2 in Hks. change [nm_id2 nm] with [node_id (task (nm_id2 nm))] in His. rewrite <- Hids2 in His.
  rewrite <- Hfid2 in Hes.
  pose proof Hk2 as Hk2'. apply fresh_cons in Hks as [Hk3 _]. apply fresh_cons in His as [Hi3 _]. apply fresh_cons in Hes as [He2 _].
  destruct (append_node_ok prov (nm_key2 nm) (nm_key3 nm) (NEnd (nm_id3 nm) false) (nm_flow2 nm) d2)
    as (d3 & H3 & _); [done|known| |done..|].
  { intros [[a b] w] Hin Ha. cbn in Ha. subst a. rewrite Hf2 in Hin.
    apply elem_of_app in Hin as [Hin|[= Heq _ _]%list_elem_of_singleton].
    - by apply (flow_keys d1 Hr1) in Hin as [? _].
    - apply Hk2. rewrite Hkeys1, Heq. apply elem_of_app. right. by apply list_elem_of_singleton. }
  eapply fold_stages. rewrite (fold_step _ _ d1) by (by rewrite Happ). rewrite (fold_step _ _ d2) by done.
  by rewrite (fold_step _ _ d3).
Qed.

Lemma production_stages p key : production_position p key -> ∃ ops, canonical_production nm p key = Some ops ∧
  Forall (λ op, self_anchored op = false) ops ∧ stages ops.
Proof.
  intros [Hk Hp]. destruct Hnm as [Hks His Hes].
  pose proof Hks as Hks'. apply fresh_cons in Hks' as [Hk1 Hks1]. pose proof Hks1 as [Hk2 Hks2]%fresh_cons.
  pose proof Hks2 as [Hk3 _]%fresh_cons.
  assert (H1 : key ≠ nm_key1 nm) by (intros ->; done).
  assert (H2 : nm_key1 nm ≠ nm_key2 nm) by (intros Heq; apply Hk2; rewrite Heq; set_solver).
  assert (H3 : nm_key2 nm ≠ nm_key3 nm) by (intros Heq; apply Hk3; rewrite Heq; set_solver).
  assert (Hlabel : ∃ id, node_label d key = Some id).
  { apply (index_known d Hrep) in Hk as [i Hi]. unfold node_label, node. rewrite Hi.
    pose proof Hi as (n & Hn & _)%(rep_index _ Hrep). cbn. rewrite Hn. by eexists. }
  destruct Hlabel as [id Hlabel].
  destruct p; try done; (eexists; split; [done|]; split;
    [repeat constructor; by apply bool_decide_eq_false|]).
  - apply request_stages; [done|]. by split.
  - apply (escape_stages _ (NBoundaryTimer (nm_id1 nm) id (TSCycle 1000 3) false None)); [done|].
    exists key. split_and!; [done..|]. cbn. unfold attach_rearming_guard. by rewrite Hlabel.
  - apply (escape_stages _ (NBoundaryTimer (nm_id1 nm) id (TSDuration 1000) true None)); [done|].
    exists key. split_and!; [done..|]. cbn. unfold attach_guard. by rewrite Hlabel.
  - apply (escape_stages _ (NBoundaryTimer (nm_id1 nm) id (TSCycle 1000 3) false None)); [done|].
    exists key. split_and!; [done..|]. cbn. unfold attach_rearming_guard. by rewrite Hlabel.
Qed.
End productions.

(** ** The board *)

Section board.
Context {PD : PetDesigner}.
Variable d : DesignerDag.

Lemma operation_ids_inj : Inj (=) (=) operation_canonical_id.
Proof. intros [] []; by intros. Qed.
Lemma production_ids_inj : Inj (=) (=) production_canonical_id.
Proof. intros [] []; by intros. Qed.

Lemma candidate_ids_inj : Inj (=) (=) candidate_canonical_id.
Proof.
  intros [op|p|] [op'|p'|] H; cbn in H; try done.
  - by apply operation_ids_inj in H as ->.
  - by destruct op, p'.
  - by destruct op.
  - by destruct p, op'.
  - by apply production_ids_inj in H as ->.
  - by destruct p.
  - by destruct op'.
  - by destruct p'.
Qed.

Lemma dedup_candidates_id l : NoDup (bc_canonical_id <$> l) -> dedup_candidates l = l.
Proof.
  induction l as [|a l IH]; [done|]. cbn. intros [Ha Hl]%NoDup_cons. rewrite IH by done.
  destruct l as [|b l]; [done|]. rewrite decide_False; [done|]. intros Heq. apply Ha. rewrite Heq. cbn. by left.
Qed.

Definition offered (anchor : option NodeKey) : list CandidateId :=
  (CIOperation <$> legal_operations d anchor) ++ (CIProduction <$> legal_productions d anchor).

Lemma offered_nodup anchor : NoDup (offered anchor).
Proof.
  unfold offered, legal_operations, legal_productions, sort_dedup. apply NoDup_app. split_and!.
  - apply NoDup_fmap_2; [by intros ? ? [=]|]. apply NoDup_filter. apply (bool_decide_unpack _). by vm_compute.
  - intros x (? & -> & _)%list_elem_of_fmap (? & ? & _)%list_elem_of_fmap. done.
  - apply NoDup_fmap_2; [by intros ? ? [=]|]. apply NoDup_filter. apply (bool_decide_unpack _). by vm_compute.
Qed.

(** The board lists exactly the offered candidates, each once, in the order of
    their ids. *)
Lemma legal_candidates_exact anchor :
  legal_candidates d anchor ≡ₚ BoardCandidate_new <$> offered anchor ∧
  Sorted candidate_le (legal_candidates d anchor) ∧ NoDup (bc_canonical_id <$> legal_candidates d anchor).
Proof.
  unfold legal_candidates. rewrite !list_fmap_compose, <- fmap_app.
  change (_ ++ _) with (offered anchor). set (l := BoardCandidate_new <$> offered anchor).
  assert (Hnd : NoDup (bc_canonical_id <$> merge_sort candidate_le l)).
  { rewrite merge_sort_Permutation. unfold l. rewrite <- list_fmap_compose.
    change (NoDup (candidate_canonical_id <$> offered anchor)).
    apply NoDup_fmap_2; [apply candidate_ids_inj|apply offered_nodup]. }
  rewrite dedup_candidates_id by done. split_and!; [apply merge_sort_Permutation| |done].
  apply Sorted_merge_sort. intros a b. unfold candidate_le. apply (total String.le).
Qed.
End board.

(** ** Authored graphs *)

Section authored.
Context {PD : PetDesigner}.

(** The graphs the crate's public surface makes: a new one, its two public
    fields set, a seed, an operation or a production staged and ratified. *)
Inductive authored : DesignerDag -> Prop :=
| authored_new name : authored (DesignerDag_new name)
| authored_fields d name budget : authored d ->
    authored (mkDag name budget (dd_graph d) (dd_key_index d) (dd_bpmn_ids d) (dd_edge_ids d))
| authored_seed d key n prov d' : authored d -> seed key n prov d = Ok d' -> authored d'
| authored_edit d prov op staged : authored d -> self_anchored op = false ->
    apply_operation prov d op = Ok staged -> authored (sc_candidate staged)
| authored_production d prov ops staged : authored d -> Forall (λ op, self_anchored op = false) ops ->
    apply_production prov d ops = Ok staged -> authored (sc_candidate staged).
End authored.

Section authored_ok.
Context {PD : PetDesigner} {HL : PetDesignerLaws PD}.

Lemma new_ok name : dag_ok (DesignerDag_new name).
Proof.
  split.
  - split; cbn.
    + intros k i. rewrite lookup_empty, lookup_nil. naive_solver.
    + intros a b w ?%not_elem_of_nil. done.
    + apply NoDup_nil_2.
    + set_solver.
    + apply NoDup_nil_2.
    + set_solver.
  - intros n h ?%not_elem_of_nil. done.
  - exists (λ _, 0). intros a b w ?%not_elem_of_nil. done.
Qed.

Lemma fields_ok d name budget : dag_ok d ->
  dag_ok (mkDag name budget (dd_graph d) (dd_key_index d) (dd_bpmn_ids d) (dd_edge_ids d)).
Proof. intros [[H1 H2 H3 H4 H5 H6] Ha Hr]. split; [split; assumption|exact Ha|exact Hr]. Qed.

Lemma insert_free_node_ok key ir prov d d' : dag_ok d -> insert_node key ir None prov d = Ok d' -> dag_ok d'.
Proof.
  intros [Hrep Hatt Hrank] H. pose proof (insert_node_inv d d' Hrep _ _ _ _ H) as (_ & _ & _ & Hn & _).
  destruct (insert_node_rep d d' Hrep _ _ _ _ H) as [Hr Hf]. split; [done| |by rewrite Hf].
  rewrite Hn. apply attached_more; [done|]. by intros n h ->%list_elem_of_singleton.
Qed.

Lemma seed_ok key n prov d d' : dag_ok d -> seed key n prov d = Ok d' -> dag_ok d'.
Proof. intros Hok. unfold seed. destruct n; try done; by apply insert_free_node_ok. Qed.

Lemma fold_operations_ok prov ops d last d' last' : dag_ok d -> Forall (λ op, self_anchored op = false) ops ->
  fold_operations prov d last ops = Ok (d', last') -> dag_ok d'.
Proof.
  intros Hok Hs. revert d last Hok. induction Hs as [|op ops Hop _ IH]; intros d last Hok H; cbn in H.
  { by injection H as <- _. }
  apply bind_ok_inv in H as (staged & H1 & H). unfold apply_operation in H1.
  apply bind_ok_inv in H1 as (d1 & H1 & [= <-]). cbn in H.
  eapply IH, H. by eapply apply_op_ok, H1.
Qed.

Lemma authored_ok d : authored d -> dag_ok d.
Proof.
  induction 1 as [name|d name budget _ IH|d key n prov d' _ IH H|d prov op staged _ IH Hs H|d prov ops staged _ IH Hs H].
  - apply new_ok.
  - by apply fields_ok.
  - by eapply seed_ok.
  - unfold apply_operation in H. apply bind_ok_inv in H as (d1 & H & [= <-]). by eapply apply_op_ok, H.
  - unfold apply_production in H. apply bind_ok_inv in H as (? & _ & H).
    apply bind_ok_inv in H as ([d1 last] & H & H'). apply bind_ok_inv in H' as (op & _ & [= <-]).
    by eapply fold_operations_ok, H.
Qed.
End authored_ok.

(** ** A reference petgraph *)

Definition shape (g : DiGraph) : IRGraph := mkGraph (dn_ir <$> dg_nodes g) (ir_edge <$> dg_edges g).

Global Instance pd_ref : PetDesigner := {|
  pd_edges_out := dg_out;
  pd_edges_in := dg_in;
  pd_find_edge g a b := fst <$> list_find (λ e : nat * nat * DesignerEdge, e.1 = (a, b)) (dg_edges g);
  pd_remove_edge g e := '(_, _, w) ← dg_edges g !! e; Some (w, mkDiGraph (dg_nodes g) (swap_remove e (dg_edges g)));
  pd_remove_node g i := mkDiGraph (swap_remove i (dg_nodes g))
                          (omap (without_node i (length (dg_nodes g))) (dg_edges g));
  pd_has_path_connecting g a b := bool_decide (b ∈ reach_upto (shape g) (length (dg_nodes g)) {[a]});
|}.

Lemma shape_edge g a b : edge (shape g) a b ↔ dedge g a b.
Proof.
  unfold edge, dedge, shape. cbn. split.
  - intros [w ([[a' b'] w'] & [= -> -> _] & Hin)%list_elem_of_fmap]. by exists w'.
  - intros [w Hin]. eexists. apply list_elem_of_fmap. by exists (a, b, w).
Qed.

Global Instance pd_ref_laws : PetDesignerLaws pd_ref.
Proof.
  split; cbn.
  - done.
  - done.
  - intros g a b. destruct (list_find _ _) as [[i e]|] eqn:E; cbn.
    + apply list_find_Some in E as (Hi & He & _). destruct e as [[a' b'] w]. cbn in He. injection He as -> ->. eauto.
    + apply list_find_None in E. intros w Hin. rewrite Forall_forall in E. by apply (E _ Hin).
  - intros g e a b w He. rewrite He. cbn. eexists. split; [done|]. by apply swap_remove_perm.
  - done.
  - intros g a b Hwf Ha. rewrite bool_decide_eq_true.
    assert (Hn : length (dg_nodes g) = node_count (shape g)) by (unfold node_count, shape; cbn; by rewrite length_fmap).
    rewrite Hn, reach_upto_spec.
    + setoid_rewrite elem_of_singleton. split.
      * intros (n & -> & Hp). eapply rtc_congruence with (f := id), Hp. intros x y. apply shape_edge.
      * intros Hp. exists a. split; [done|]. eapply rtc_congruence with (f := id), Hp. intros x y. apply shape_edge.
    + intros x y w Hin. rewrite <- Hn. apply list_elem_of_fmap in Hin as ([[x' y'] w'] & [= -> -> _] & Hin).
      by apply (Hwf x' y' w').
    + intros x ->%elem_of_singleton. by rewrite <- Hn.
Qed.

(** ** Samples *)

Module DesignerSamples.
Definition prov : Provenance := mkProvenance None None None.
Definition empty : DesignerDag := DesignerDag_new "order".
Definition candidate (r : Result DagError StagedCandidate) : DesignerDag :=
  match r with Ok staged => sc_candidate staged | Err _ => empty end.
Definition seeded : DesignerDag :=
  match seed 1%N (NStart "start") prov empty with Ok d => d | Err _ => empty end.
(** start, a task and an end, in sequence. *)
Definition linear_ops : list Operation :=
  [AppendNode 1%N 2%N (NServiceTask "review" "Review" "review") "f1"; AppendNode 2%N 3%N (NEnd "end" false) "f2"].
Definition linear : DesignerDag := candidate (apply_production prov seeded linear_ops).
(** The same with an interrupting timeout on the task. *)
Definition timeout_ops : list Operation := interrupting_timeout
  (mkTimeout 2%N 4%N "late" 60000%N 5%N (NServiceTask "chase" "Chase" "chase") "f3" 6%N (NEnd "end2" false) "f4").
Definition guarded : DesignerDag := candidate (apply_production prov linear timeout_ops).
Definition names : Names :=
  mkNames 11%N 12%N 13%N 14%N "n1" "n2" "n3" "n4" "g1" "g2" "g3" "g4" "g5".
End DesignerSamples.
Import BpmnSamples.
Import DesignerSamples.

Lemma seeded_authored : authored seeded.
Proof. apply (authored_seed empty 1%N (NStart "start") prov); [apply authored_new|by vm_compute]. Qed.
Lemma linear_authored : authored linear.
Proof.
  destruct (apply_production prov seeded linear_ops) as [staged|e] eqn:E; [|by vm_compute in E].
  assert (Hl : linear = sc_candidate staged) by (unfold linear; by rewrite E). rewrite Hl.
  eapply authored_production; [apply seeded_authored| |exact E]. by repeat constructor.
Qed.
Lemma guarded_authored : authored guarded.
Proof.
  destruct (apply_production prov linear timeout_ops) as [staged|e] eqn:E; [|by vm_compute in E].
  assert (Hl : guarded = sc_candidate staged) by (unfold guarded; by rewrite E). rewrite Hl.
  eapply authored_production; [apply linear_authored| |exact E]. by repeat constructor.
Qed.

(** ** Properties *)

(** C20: every graph the designer can author projects to a compiler graph, whose
    edges run between its nodes, which has no cycle, no two nodes and no two
    flows with the same id, a node for every authored node under the same id,
    and whose boundary events name the current id of the node they are attached
    to.  Operations that name their own new node as the anchor are left out:
    one of them makes a cycle ([self_anchored_insert_cycles]). *)
Theorem authored_graphs_sound {PD : PetDesigner} {HL : PetDesignerLaws PD} d :
  authored d ->
  ∃ ir, to_ir d = Ok ir ∧ graph_wf ir ∧ acyclic ir ∧
    NoDup (node_id <$> ig_nodes ir) ∧ NoDup ((λ e, ie_id e.2) <$> ig_edges ir) ∧
    node_id <$> ig_nodes ir = (λ n, node_id (dn_ir n)) <$> dg_nodes (dd_graph d) ∧
    ∀ i n payload, dg_nodes (dd_graph d) !! i = Some n -> node_at ir i = Some payload -> names_host d n payload.
Proof.
  intros Hok%authored_ok. destruct (to_ir_spec d Hok) as (ir & Hir & _). exists ir. split; [done|].
  by apply to_ir_sound.
Qed.

Lemma authored_graphs_sound_witness : ∃ ir, to_ir guarded = Ok ir ∧ acyclic ir ∧
  NBoundaryTimer "late" "review" (TSDuration 60000) true None ∈ ig_nodes ir.
Proof.
  destruct (authored_graphs_sound guarded guarded_authored) as (ir & Hir & _ & Hac & _).
  exists ir. split; [exact Hir|]. split; [exact Hac|]. vm_compute in Hir. injection Hir as <-.
  cbn. do 3 right. left.
Defined.



(** C22: what the editor offers can be done.  Whatever candidate the board lists
    at a node, or anywhere in the graph, its canonical instantiation with unused
    names stages there.  For an operation: [Connect] and [CreateBranch] have a
    target that closes no cycle, the replaced or deleted node has no guards, the
    extended one no flow.  For a production: every one of its operations in
    turn.  The kinds without an instantiation (race, close region, rollback
    guard, subprocess call, rework) are never listed, nor is the abstention. *)
Theorem board_candidates_stage {PD : PetDesigner} {HL : PetDesignerLaws PD} prov d nm anchor c :
  authored d -> fresh_names d nm -> c ∈ legal_candidates d anchor ->
  ∃ key, anchored d anchor key ∧
    match bc_id c with
    | CIOperation kind => ∃ target op staged, canonical d nm kind key target = Some op ∧
        apply_operation prov d op = Ok staged ∧ authored (sc_candidate staged)
    | CIProduction p => ∃ ops staged, canonical_production nm p key = Some ops ∧
        apply_production prov d ops = Ok staged ∧ authored (sc_candidate staged)
    | CIAbstain => False
    end.
Proof.
  intros Ha Hnm Hc. pose proof (authored_ok d Ha) as Hok. rewrite (proj1 (legal_candidates_exact d anchor)) in Hc.
  apply list_elem_of_fmap in Hc as (id & -> & Hc).
  apply elem_of_app in Hc as [(kind & -> & Hc)%list_elem_of_fmap|(p & -> & Hc)%list_elem_of_fmap]; cbn.
  - apply legal_position in Hc as (key & Hk & Hp). exists key. split; [done|].
    destruct (position_stages prov d Hok nm Hnm kind key Hp) as (target & op & Hop & Hs & d' & Hd').
    assert (Hst : apply_operation prov d op = Ok (mkStaged d' op prov)) by (unfold apply_operation; by rewrite Hd').
    exists target, op, (mkStaged d' op prov). split_and!; [done..|]. by eapply authored_edit.
  - apply (legal_production_position d Hok) in Hc as (key & Hk & Hp). exists key. split; [done|].
    destruct (production_stages prov d Hok nm Hnm p key Hp) as (ops & Hops & Hs & staged & Hst).
    exists ops, staged. split_and!; [done..|]. by eapply authored_production.
Qed.

Lemma names_fresh : fresh_names guarded names.
Proof. split; apply (bool_decide_unpack _); by vm_compute. Qed.

Lemma board_candidates_stage_witness :
  ∃ key, anchored guarded None key ∧
    ∃ target op staged, canonical guarded names OKReplaceNode key target = Some op ∧
      apply_operation prov guarded op = Ok staged ∧ authored (sc_candidate staged).
Proof.
  apply (board_candidates_stage prov guarded names None (BoardCandidate_new (CIOperation OKReplaceNode))
    guarded_authored names_fresh).
  vm_compute. repeat (first [left; reflexivity | right]).
Defined.

(** C23: admission of an authored graph always comes back: the projection
    succeeds, so no [expect] or index of it fails, the verifier's walk ends, and
    the compiler neither diverges nor panics; what is left is a workflow, the
    verifier's errors or a reported compile error. *)
Theorem designer_admission_returns {PD : PetDesigner} {HLD : PetDesignerLaws PD}
    {PG : PetGraph} {HL : PetGraphLaws PG} {P : Platform} now_ms to_json envelope_json version d :
  authored d ->
  match admit_dag now_ms to_json envelope_json version d with
  | Ok _ => True
  | Err (AEVerify errors) => errors ≠ []
  | Err (AECompile e) => e ≠ CEDiverges ∧ ∀ msg, e ≠ CELower (LPanic msg)
  | Err (AEProjection _) | Err AEDiverges => False
  end.
Proof.
  intros Hok%authored_ok. destruct (to_ir_spec d Hok) as (ir & Hir & _).
  destruct (to_ir_sound d Hok ir Hir) as (Hwf & _). unfold admit_dag. rewrite Hir. cbn.
  destruct (verify_returns ir Hwf) as [errs ->]. cbn. destruct errs as [|e errs]; [|done].
  pose proof (compile_total now_ms to_json envelope_json version ir (dd_default_guard_budget d) Hwf) as [Hd Hp].
  destruct (compile _ _ _ _ ir _) as [w|e]; cbn; [done|]. split; [by intros ->|]. intros msg ->. by eapply Hp.
Qed.

Lemma designer_admission_returns_witness :
  match admit_dag 0 json envelope "1" linear with Ok _ => True | Err _ => False end.
Proof.
  pose proof (designer_admission_returns 0 json envelope "1" linear linear_authored) as H.
  destruct (admit_dag 0 json envelope "1" linear) as [w|e] eqn:E; [exact H|vm_compute in E; discriminate E].
Defined.

(** An operation whose anchor is its own new node is staged, with a flow from
    the node to itself: nothing compares the two keys, and inserting the node
    makes the anchor known.  The verifier reports the cycle at admission. *)
Lemma self_anchored_insert_cycles :
  match apply_operation prov linear (InsertAfter 7%N 7%N (NServiceTask "loop" "L" "l") "f9") with
  | Ok staged => ∃ ir errors, to_ir (sc_candidate staged) = Ok ir ∧ edge ir 3 3 ∧
      admit_dag 0 json envelope "1" (sc_candidate staged) = Err (AEVerify errors) ∧ errors ≠ []
  | Err _ => False
  end.
Proof.
  destruct (apply_operation _ _ _) as [staged|e] eqn:E; [|by vm_compute in E].
  vm_compute in E. injection E as <-. eexists _, _. split; [by vm_compute|]. split; [|split; [by vm_compute|done]].
  eexists. cbn. do 2 right. left.
Qed.
